(* ===== verification/_CoqProject ===== *)
-Q . S2P
Prelude.v
ShadowMem.v
TraceExpand.v
TbCache.v
TbLists.v
TbJumps.v
TbPages.v
TbInvalidate.v
TbBitmap.v
TbInvProofs.v
TbSmc.v
TbPageFlags.v
TbGen.v
TbFast.v
TbProps.v
GuestExec.v
PrefetchCore.v
PrefetchProofs.v
PrefetchProps.v
PSlice.v
NeonBase.v
NeonArith.v
NeonSwar.v
NeonShift.v
NeonNarrow.v
NeonWide.v
NeonZip.v
ArmHelpers.v
ArmProps.v
TcgIr.v
TcgOptimize.v
TcgRing.v
TcgFold.v
TcgOptProofs.v
TcgOptProps.v
TcgLive.v
TcgLiveProofs.v
TcgCompose.v
TcgRegAlloc.v
TcgRegProofs.v
TcgRegOps.v
TcgRegInsn.v
TcgRegCall.v
TcgRegBlock.v
TcgRegProps.v
TcgTarget.v
X86Enc.v
X86Sem.v
X86Decode.v
X86Run.v
X86Alu.v
X86Shift.v
X86Mem.v
X86Jump.v
X86Guest.v
X86Gen.v
X86Labels.v
X86GuestProofs.v
X86Ops.v
X86Block.v
X86StateOps.v
X86Prologue.v
X86Props.v
TcgTemps.v
TcgArm.v
X86Arm.v
SimBase.v
SimPort.v
EventQueue.v
CacheCore.v
CacheRuns.v
SimQueues.v
TraceFifo.v
Pipeline.v
