(* ===== verification/Prelude.v ===== *)
(** * PESESC: a verification library for the emulation core of the ESESC simulator

    ** The program

    ESESC is a timing simulator of ARM systems.  Its functional front end is a QEMU in user
    mode (src/emul/qemu, C), changed so that every guest instruction leaves a trace record
    for the timing model (src/simu, src/misc/libsuc, C++), and so that a second, speculative
    copy of the guest CPU, the prefetch core, runs ahead of the main core along precomputed
    slices and warms the simulated caches.  The parts interact as follows.

    - The execution loop [cpu_exec] (cpu-exec.c) looks up the translated block of the
      current program counter, runs it, expands the trace that the block left behind, hands
      the records to the simulator and decides which of the two cores runs next.
    - Blocks are found through a jump cache per CPU and a global hash table; blocks jump to
      each other directly; a store into a page with translated code faults and removes the
      blocks of the page (cpu-exec.c, exec.c, exec-all.h, user-exec.c).
    - The generated code of a guest access tests [env->IsPCore]: the main core accesses
      guest memory, the prefetch core goes through a private shadow buffer of bytes
      (tcg/i386/tcg-target.c), so that its stores are meant to be invisible.  An
      access that faults raises a host signal, whose handler (user-exec.c) delivers a data
      abort to [cpu_single_env], the main core, whichever core was running.
    - The slices, files of program counters, are read at the first call (cpu-exec.c).
    - A block is a list of TCG operations.  It is optimised (tcg/optimize.c), analysed for
      dead values, given host registers (tcg/tcg.c) and written as x86-64 instructions
      (tcg/i386/tcg-target.c); operations that are not expanded call the helpers of
      target-arm (op_helper.c, helper.c, neon_helper.c).
    - The simulator takes the records in batches through a FIFO between two threads and a
      queue of decoded instructions (src/emul/libqemuint), moves them through the
      front-end pipeline, and models time with an event queue, contention ports and cache
      arrays (src/emul/libemulint, src/simu/libcore, src/misc/libsuc).

    ** The files

    - Prelude: C integer types and casts, bit operations, lanes of packed words, the shared
      tactics and hint databases.
    - ShadowMem: the shadow buffer, a hash table with chained nodes, with its load, store
      and prefetch ring.  Abstract specification: a finite map from addresses to bytes
      over guest memory.
    - TraceExpand: raw and expanded trace records, [xtrm_trace_expand], its reset and its
      sanity check.
    - TbCache: [tb_find_fast], [tb_find_slow], [tb_gen_code], [tb_link_page], [tb_free],
      [tb_flush].  TbLists: lists threaded through blocks with tagged pointers.  TbJumps:
      direct jumps, their lists and their removal.  TbPages: the table of pages and the
      lists of blocks of a page.  TbInvalidate: removal of blocks by page, by range, through
      the bitmap and on a store, page flags, [tb_find_pc].  TbBitmap, TbInvProofs, TbSmc,
      TbPageFlags, TbGen, TbFast: the invariant of all tables and its preservation by every
      operation.  TbProps: the properties.
    - GuestExec: execution of a translated block, given as the tree of its effects, with the
      accesses of either core and the faults of unmapped ones; simulation of a run through
      the shadow buffer by a run on a private copy of guest memory.
    - PrefetchCore, PrefetchProofs, PrefetchProps: the state of the two cores, one iteration
      of the inner loop of [cpu_exec] with every exit, the exception path with [setjmp] and
      the signal handler, and the invariants of all reachable states.
    - PSlice: the reader of the slice files with its assertions, early exits and
      out-of-bounds writes as results.
    - NeonBase, NeonArith, NeonSwar, NeonShift, NeonNarrow, NeonWide, NeonZip: the integer
      helpers of neon_helper.c, from the macro layer to the permutations.
    - ArmHelpers, ArmProps: the integer helpers of op_helper.c, helper.c and op_addsub.h,
      and the program status register.
    - TcgIr: TCG operations and their meaning, from the interpreter tci.c and tcg/README.
      TcgOptimize: the optimiser with its table of temporaries; TcgRing, TcgFold,
      TcgOptProofs, TcgOptProps: rings of copies, folding, simulation, properties.  TcgLive,
      TcgLiveProofs, TcgCompose: the liveness analysis.  TcgRegAlloc: the register
      allocator; TcgRegProofs, TcgRegOps, TcgRegInsn, TcgRegCall, TcgRegBlock, TcgRegProps:
      its simulation.  TcgTarget: the table of operations, the constraint strings of the
      target and their reader.  TcgTemps: temporaries, globals and labels, and the globals
      of the ARM translator.  TcgArm: the passes together.
    - X86Enc: the instruction encoder; X86Guest: the emitters of guest accesses; X86Gen:
      relocations, labels, [tcg_out_op], the prologue.  X86Sem: a decoder and a semantics of
      the instructions in use, written from the processor manual as the specification.
      X86Decode, X86Run: decoding what was encoded.  X86Alu, X86Shift, X86Mem, X86Jump: what
      each emitter's code computes.  X86Labels: branches reach their labels.
      X86GuestProofs: guest accesses.  X86Ops, X86StateOps: operations with the operands of
      the constraint table.  X86Block: a block of instructions of the allocator as bytes.
      X86Prologue, X86Props: the prologue, the properties.  X86Arm: from TCG operations to
      bytes.
    - SimBase, SimPort, EventQueue, CacheCore, SimQueues, Pipeline: ports, the calendar
      queue with its heap, the cache arrays, FastQueue, EmuDInstQueue and the pipeline
      between fetch and rename.  CacheRuns: histories of a cache array from its
      constructor. TraceFifo: ThreadSafeFIFO with the threads that use it,
      [queueInstruction] and [syscall] on one side and [executeHead] on the other, access
      by access.

    ** What the theorems show

    - Shadow buffer (C1): a load returns the latest byte stored through the buffer and guest
      memory elsewhere.
    - Traces (C2): expansion yields, in order, one record per access of each instruction.
    - Translated blocks (C3 - C7): after any sequence of lookups, stores, invalidations,
      jumps and flushes a lookup below the magic page returns code that is the translation
      of current guest memory; invalidation removes a block from every table; the bitmap
      path equals the walk over the list; a store is let through if the page is writable
      and leaves no stale block; unlinking ends and leaves no jump.
    - Co-execution (C8 - C12): the prefetch core computes what the block computes on a
      private copy of memory, when it makes no eight-byte store and no unmapped access; the
      machine code of guest accesses makes exactly these accesses and requests; as long as
      the prefetch core takes no signal and makes no eight-byte store, the guest program
      sees the same registers, memory and exceptions as without a prefetch core, with a
      bound on the iterations, and a signal of the prefetch core is a data abort of the main
      core; the prefetch core runs ahead at most by the threshold.
    - Slices (C13): which entries the tables receive.
    - Timing simulator (C14 - C20): the event queue refines a map from events to cycles;
      every cache array is a set of tags through all histories, the recency order of LRU and
      the ranges of the signature based cache with its partly uninitialised table; the FIFO
      delivers in order under every interleaving in which batches merge few items; the
      decoded instruction queue refines a list; the pipeline keeps the order of fetch.
    - TCG (C21 - C26): the optimised block has the outcome of the original, and when the
      optimiser fails; liveness, register allocation and their composition for ARM blocks on
      the x86-64 target preserve the outcome; the constraint table; the pool of temporaries.
    - Machine code (C27 - C33): the bytes that are generated for a block run as the block
      does and leave with its result and its globals (C27, C28); what every operation of
      [tcg_out_op] computes (C29, C30); every instruction is decoded as it was meant (C31);
      the prologue and the epilogue (C32); inputs on which the code of guest accesses goes
      wrong (C33).
    - Helpers (C34 - C40): each family of NEON helpers computes its lane-wise
      specification with the saturation flag, and has no result exactly where the C code
      overflows a signed integer; the status register, the arithmetic and the parallel
      helpers of the ARM front end.

    The other lemmas with a doc comment of their own state further behaviour of the code:
    well-formedness of the shadow table, one turn of the event loop, the greedy schedule of
    the ports, the tables of the register allocator, the permutations, the skip loop, and
    the errors that the manifest lists as findings.

    ** Modelling choices and bounds

    - An integer of C type is a [Z] in the range of the type; casts are [uint] and [sint]
      and are written where the source has them or where C converts.  The configuration is
      an ARM little-endian guest in user mode on a 64-bit little-endian host; a host page
      is a target page and the protection of the host is the flag [PAGE_WRITE].
    - A failed assertion, an abort, signed overflow, a shift by a count out of range and an
      access out of bounds are explicit results ([option] or an inductive result) where the
      code can meet them, never a default value.  Shifts of negative values and conversions
      to a signed type that is too narrow have the values that gcc gives them.
    - The magic page of the kernel begins at 0xffff0000: there the translator ends a block
      before decoding, so that its size is 0; below it a block has at least one byte and at
      most a page (the build for ESESC translates one instruction per block).
    - Loops over arrays are structural.  Where fuel is needed, a theorem says that it is
      enough: the skip loop takes one step per entry of the skip list; [cpu_exec] has an
      explicit bound (C11); the walks over rings, lists of blocks and jumps take the number
      of temporaries or blocks; the drain of the event queue takes the events of the cycle;
      the loop of the signature based cache ends within RRIP_M rounds (C17).  Runs of TCG
      blocks take fuel and are equated for every amount of it (C21); runs of host
      instructions and of the processor are stated with the number of steps that they take.
    - Code outside of the model is a parameter of the definitions that use it: the
      translator of guest code (a typeclass in the files Tb, the effects of a block in
      GuestExec), the heap of the event queue (an interface with its laws), the semantics of
      helper calls and of operations that TCG does not interpret, the layout of [CPUState]
      ([offsetof], with the hypothesis that fields do not overlap), what calls leave in
      clobbered registers and what dead temporaries hold (arbitrary).
    - The FIFO between the threads is modelled with sequentially consistent accesses, each
      read of a shared index a step of its own.  The code buffer is memory by bytes.  C27
      and C28 cover blocks of moves, constants, arithmetic, branches, labels and
      [exit_tb]; calls of helpers and [goto_tb] are covered up to host instructions (C24).

    ** Not modelled

    The ARM translator (target-arm/translate.c), the TLB path of system emulation, the
    search of a guest pc for a host pc by retranslation, interrupts and instruction counting
    (absent in user mode), floating point and iwMMXt helpers, coprocessors and the memory
    management of ARM, system calls, device models, block layer and network stack (upstream
    QEMU, not used in user mode), the rest of the timing simulator, the instruction
    crackers, and the power and thermal models. *)

From Stdlib Require Export ZArith Lia Bool.
From stdpp Require Export base tactics numbers list option gmap.
#[export] Set Default Goal Selector "!".
#[export] Set Warnings "-clear-no-such-hyp".

Declare Scope c_scope.
Delimit Scope c_scope with C.
#[global] Open Scope Z_scope.

(** ** C integer types

    A C object of an integer type is a [Z] in the range of the type; a cast is
    reduction into that range.  Signed casts are two's complement reduction, as
    the compilers the program targets define them. *)

Definition uint (w x : Z) : Z := x mod 2 ^ w.
Definition sint (w x : Z) : Z := (x + 2 ^ (w - 1)) mod 2 ^ w - 2 ^ (w - 1).

Definition uint8_t : Z -> Z := uint 8.
Definition uint16_t : Z -> Z := uint 16.
Definition uint32_t : Z -> Z := uint 32.
Definition uint64_t : Z -> Z := uint 64.
Definition int8_t : Z -> Z := sint 8.
Definition int16_t : Z -> Z := sint 16.
Definition int32_t : Z -> Z := sint 32.
Definition int64_t : Z -> Z := sint 64.

(** [b2z b] is the value of a C comparison. *)
Definition b2z (b : bool) : Z := if b then 1 else 0.

Notation "x & y" := (Z.land x y) (at level 40, left associativity) : c_scope.
Notation "x .| y" := (Z.lor x y) (at level 50, left associativity) : c_scope.
Notation "x ^^ y" := (Z.lxor x y) (at level 45, left associativity) : c_scope.
Notation "x << n" := (Z.shiftl x n) (at level 32, left associativity) : c_scope.
Notation "x >> n" := (Z.shiftr x n) (at level 32, left associativity) : c_scope.
Notation "~~ x" := (Z.lnot x) (at level 30, right associativity) : c_scope.

(** Membership in the range of a type. *)
Definition in_u (w x : Z) : Prop := 0 <= x < 2 ^ w.
Definition in_s (w x : Z) : Prop := - 2 ^ (w - 1) <= x < 2 ^ (w - 1).

(** ** Automation for casts at the concrete widths *)

(** [pow_norm] replaces the powers of two of the C widths by numerals, so that
    [lia] sees divisions by constants. *)
Ltac pow_norm :=
  change (2 ^ (8 - 1)) with 128 in *; change (2 ^ (16 - 1)) with 32768 in *;
  change (2 ^ (32 - 1)) with 2147483648 in *;
  change (2 ^ (64 - 1)) with 9223372036854775808 in *;
  change (2 ^ 7) with 128 in *; change (2 ^ 15) with 32768 in *;
  change (2 ^ 31) with 2147483648 in *; change (2 ^ 63) with 9223372036854775808 in *;
  change (2 ^ 8) with 256 in *; change (2 ^ 16) with 65536 in *;
  change (2 ^ 24) with 16777216 in *;
  change (2 ^ 32) with 4294967296 in *; change (2 ^ 48) with 281474976710656 in *;
  change (2 ^ 64) with 18446744073709551616 in *.

Ltac cast_unfold :=
  unfold uint8_t, uint16_t, uint32_t, uint64_t, int8_t, int16_t, int32_t, int64_t,
    uint, sint, in_u, in_s, b2z in *; pow_norm.

(** [cint] solves linear goals about casts at the concrete widths. *)
Ltac cint := cast_unfold; Z.to_euclidean_division_equations; lia.

(** ** Ranges *)

Lemma uint_range w x : 0 <= w -> in_u w (uint w x).
Proof. intros. unfold in_u, uint. apply Z.mod_pos_bound. lia. Qed.

Lemma sint_range w x : 0 < w -> in_s w (sint w x).
Proof.
  intros. unfold in_s, sint.
  pose proof (Z.mod_pos_bound (x + 2 ^ (w - 1)) (2 ^ w) ltac:(lia)) as H1.
  assert (2 ^ w = 2 * 2 ^ (w - 1)) as E.
  { rewrite <- Z.pow_succ_r by lia. f_equal. lia. }
  lia.
Qed.

Lemma uint_id w x : in_u w x -> uint w x = x.
Proof. apply Z.mod_small. Qed.

Lemma sint_id w x : 0 < w -> in_s w x -> sint w x = x.
Proof.
  intros Hw Hx. unfold in_s, sint in *.
  assert (2 ^ w = 2 * 2 ^ (w - 1)) as E.
  { rewrite <- Z.pow_succ_r by lia. f_equal. lia. }
  rewrite Z.mod_small; lia.
Qed.

Lemma uint_sint w x : 0 < w -> uint w (sint w x) = uint w x.
Proof.
  intros Hw. unfold uint, sint.
  rewrite Zminus_mod_idemp_l. f_equal. lia.
Qed.

Lemma sint_uint w x : 0 < w -> sint w (uint w x) = sint w x.
Proof. intros Hw. unfold uint, sint. by rewrite Zplus_mod_idemp_l. Qed.

Lemma uint_uint w v x : 0 <= w <= v -> uint w (uint v x) = uint w x.
Proof.
  intros H. unfold uint. apply Z.mod_mod_divide.
  exists (2 ^ (v - w)). rewrite <- Z.pow_add_r by lia. f_equal. lia.
Qed.

Lemma uint_add w x y : uint w (uint w x + uint w y) = uint w (x + y).
Proof. unfold uint. by rewrite <- Zplus_mod. Qed.

Lemma uint_sub w x y : uint w (uint w x - uint w y) = uint w (x - y).
Proof. unfold uint. by rewrite <- Zminus_mod. Qed.

Lemma uint_mul w x y : uint w (uint w x * uint w y) = uint w (x * y).
Proof. unfold uint. by rewrite <- Zmult_mod. Qed.

Create HintDb crange discriminated.
Create Rewrite HintDb bits.
#[export] Hint Resolve uint_range sint_range : crange.
#[export] Hint Extern 1 (_ <= _) => lia : crange.
#[export] Hint Extern 1 (_ < _) => lia : crange.

(** ** Bits *)

Lemma uint_testbit w x i : 0 <= w -> 0 <= i ->
  Z.testbit (uint w x) i = (i <? w) && Z.testbit x i.
Proof.
  intros Hw Hi. unfold uint. destruct (Z.ltb_spec i w); cbn.
  - apply Z.mod_pow2_bits_low; lia.
  - apply Z.mod_pow2_bits_high; lia.
Qed.

Lemma uint_land w x : 0 <= w -> uint w x = Z.land x (Z.ones w).
Proof. intros. unfold uint. symmetry. by apply Z.land_ones. Qed.

Lemma in_u_testbit w x i : 0 <= w -> in_u w x -> w <= i -> Z.testbit x i = false.
Proof.
  intros Hw Hx Hi. rewrite <- (uint_id w x) by done.
  rewrite uint_testbit by lia. destruct (Z.ltb_spec i w); [lia|done].
Qed.

Lemma testbit_in_u w x : 0 <= w -> 0 <= x ->
  (forall i, w <= i -> Z.testbit x i = false) -> in_u w x.
Proof.
  intros Hw Hx H.
  assert (uint w x = x) as <-; [|by apply uint_range].
  apply Z.bits_inj'. intros i Hi. rewrite uint_testbit by lia.
  destruct (Z.ltb_spec i w); [done|]. symmetry. apply H. lia.
Qed.

(** The sign extension replicates bit [w - 1]. *)
Lemma sint_testbit w x i : 0 < w -> 0 <= i ->
  Z.testbit (sint w x) i = Z.testbit x (if i <? w then i else w - 1).
Proof.
  intros Hw Hi.
  assert (sint w x = uint w x - 2 ^ w * b2z (Z.testbit x (w - 1))) as ->.
  { rewrite <- sint_uint by done.
    pose proof (uint_range w x ltac:(lia)) as HR. unfold in_u in HR.
    assert (Z.testbit x (w - 1) = Z.testbit (uint w x) (w - 1)) as ->.
    { rewrite uint_testbit by lia. destruct (Z.ltb_spec (w - 1) w); [done|lia]. }
    generalize dependent (uint w x). clear x. intros x HR.
    assert (2 ^ w = 2 * 2 ^ (w - 1)) as E.
    { rewrite <- Z.pow_succ_r by lia. f_equal. lia. }
    unfold sint.
    destruct (Z.testbit x (w - 1)) eqn:T; unfold b2z.
    - apply Z.testbit_true in T; [|lia].
      assert (2 ^ (w - 1) <= x).
      { destruct (decide (2 ^ (w - 1) <= x)); [done|].
        rewrite Z.div_small in T; [done|lia]. }
      rewrite <- (Z.mod_unique (x + 2 ^ (w - 1)) (2 ^ w) 1 (x - 2 ^ (w - 1))); lia.
    - apply Z.testbit_false in T; [|lia].
      assert (x < 2 ^ (w - 1)).
      { destruct (decide (x < 2 ^ (w - 1))); [done|].
        rewrite <- (Z.div_unique x (2 ^ (w - 1)) 1 (x - 2 ^ (w - 1))) in T; [done|lia..]. }
      rewrite Z.mod_small; lia. }
  destruct (Z.testbit x (w - 1)) eqn:T; unfold b2z.
  - rewrite Z.mul_1_r.
    replace (uint w x - 2 ^ w) with (Z.lor (uint w x) (Z.shiftl (-1) w)).
    + rewrite Z.lor_spec, Z.shiftl_spec, uint_testbit by lia.
      destruct (Z.ltb_spec i w); cbn.
      * rewrite (Z.testbit_neg_r _ (i - w)) by lia. apply orb_false_r.
      * rewrite Z.bits_m1 by lia. done.
    + pose proof (Z.add_lor_land (uint w x) (Z.shiftl (-1) w)) as E.
      assert (Z.land (uint w x) (Z.shiftl (-1) w) = 0) as E0.
      { apply Z.bits_inj'. intros j Hj.
        rewrite Z.land_spec, Z.shiftl_spec, uint_testbit, Z.bits_0 by lia.
        destruct (Z.ltb_spec j w); cbn; [|done].
        rewrite (Z.testbit_neg_r _ (j - w)) by lia. apply andb_false_r. }
      rewrite E0 in E. rewrite (Z.shiftl_mul_pow2 (-1)) in * by lia. lia.
  - rewrite Z.mul_0_r, Z.sub_0_r, uint_testbit by lia.
    destruct (Z.ltb_spec i w); [done|]. by rewrite T.
Qed.

Lemma testbit_land x y i : Z.testbit (Z.land x y) i = Z.testbit x i && Z.testbit y i.
Proof. apply Z.land_spec. Qed.

Lemma testbit_shiftr x n i : 0 <= i -> Z.testbit (Z.shiftr x n) i = Z.testbit x (i + n).
Proof. apply Z.shiftr_spec. Qed.

Lemma testbit_shiftl x n i : 0 <= i -> 0 <= n ->
  Z.testbit (Z.shiftl x n) i = (n <=? i) && Z.testbit x (i - n).
Proof.
  intros Hi Hn. rewrite Z.shiftl_spec by done.
  destruct (Z.leb_spec n i); [done|]. cbn. apply Z.testbit_neg_r. lia.
Qed.

Lemma testbit_b2z b i : 0 <= i -> Z.testbit (b2z b) i = b && (i =? 0).
Proof.
  intros Hi. destruct b; unfold b2z; cbn -[Z.testbit]; [|apply Z.bits_0].
  destruct (Z.eqb_spec i 0) as [->|]; [done|].
  change 1 with (2 ^ 0). apply Z.pow2_bits_false. lia.
Qed.

(** The bits of a numeral are found by enumeration: [bit_cases i n] splits
    [0 <= i < n] into the [n] numerals. *)
Ltac bit_cases i n :=
  let rec go k :=
    lazymatch k with
    | n => exfalso; lia
    | _ => destruct (decide (i = k)) as [->|];
           [|let k' := eval vm_compute in (k + 1) in go k']
    end in go 0.

#[export] Hint Rewrite testbit_land Z.lor_spec Z.lxor_spec testbit_shiftr testbit_shiftl
  Z.lnot_spec uint_testbit sint_testbit testbit_b2z Z.bits_0 using lia : bits.

(** [bitwise] proves equalities between bit expressions: it compares the two
    sides bit by bit, rewrites with the bit lemmas above and splits on the
    comparisons of bit positions that remain. *)
Ltac bits_unfold :=
  unfold uint8_t, uint16_t, uint32_t, uint64_t, int8_t, int16_t, int32_t, int64_t in *.

Ltac split_ltb :=
  repeat match goal with
  | |- context [?a <? ?b] => destruct (Z.ltb_spec a b); try lia
  | |- context [?a <=? ?b] => destruct (Z.leb_spec a b); try lia
  | |- context [?a =? ?b] => destruct (Z.eqb_spec a b); try lia
  end.

Ltac bitwise :=
  bits_unfold; apply Z.bits_inj'; let i := fresh "i" in let Hi := fresh "Hi" in
  intros i Hi; autorewrite with bits; split_ltb; cbn [andb orb xorb negb];
  rewrite ?andb_true_r, ?andb_false_r, ?orb_false_r, ?orb_true_r; try done.

(** ** Lanes

    A packed SIMD operand is a sequence of [w]-bit lanes, lane 0 in the low
    bits. *)

Definition lane (w n x : Z) : Z := uint w (Z.shiftr x (w * n)).

Fixpoint pack (w : Z) (l : list Z) : Z :=
  match l with
  | [] => 0
  | x :: t => Z.lor (uint w x) (Z.shiftl (pack w t) w)
  end.

Definition unpack (w : Z) (k : nat) (x : Z) : list Z :=
  (fun n => lane w (Z.of_nat n) x) <$> seq 0 k.

Lemma lane_range w n x : 0 <= w -> in_u w (lane w n x).
Proof. apply uint_range. Qed.

Lemma lane_testbit w n x i : 0 <= w -> 0 <= i -> 0 <= n ->
  Z.testbit (lane w n x) i = (i <? w) && Z.testbit x (i + w * n).
Proof. intros. unfold lane. by rewrite uint_testbit, testbit_shiftr by lia. Qed.

Lemma lane_lor w n x y : 0 <= w -> 0 <= n ->
  lane w n (Z.lor x y) = Z.lor (lane w n x) (lane w n y).
Proof.
  intros. apply Z.bits_inj'. intros i Hi.
  rewrite Z.lor_spec, !lane_testbit, Z.lor_spec by lia. by destruct (i <? w).
Qed.

Lemma lane_lxor w n x y : 0 <= w -> 0 <= n ->
  lane w n (Z.lxor x y) = Z.lxor (lane w n x) (lane w n y).
Proof.
  intros. apply Z.bits_inj'. intros i Hi.
  rewrite Z.lxor_spec, !lane_testbit, Z.lxor_spec by lia. by destruct (i <? w).
Qed.

Lemma lane_land w n x y : 0 <= w -> 0 <= n ->
  lane w n (Z.land x y) = Z.land (lane w n x) (lane w n y).
Proof.
  intros. apply Z.bits_inj'. intros i Hi.
  rewrite Z.land_spec, !lane_testbit, Z.land_spec by lia. by destruct (i <? w).
Qed.

(** A value shifted into lane [m] appears in lane [m] and nowhere else. *)
Lemma lane_shiftl_same w n x : 0 <= w -> 0 <= n -> in_u w x ->
  lane w n (Z.shiftl x (w * n)) = x.
Proof.
  intros Hw Hn Hx. unfold lane.
  rewrite Z.shiftr_shiftl_l, Z.sub_diag, Z.shiftl_0_r by lia. by apply uint_id.
Qed.

Lemma lane_shiftl_other w n m x : 0 <= w -> 0 <= n -> 0 <= m -> n <> m -> in_u w x ->
  lane w n (Z.shiftl x (w * m)) = 0.
Proof.
  intros Hw Hn Hm Hne Hx. apply Z.bits_inj'. intros i Hi.
  rewrite lane_testbit, Z.bits_0 by lia.
  destruct (Z.ltb_spec i w); [|done]. cbn. rewrite testbit_shiftl by lia.
  destruct (Z.leb_spec (w * m) (i + w * n)); [|done]. cbn.
  apply (in_u_testbit w); [lia|done|nia].
Qed.

Lemma pack_nonneg w l : 0 <= w -> 0 <= pack w l.
Proof.
  intros Hw. induction l as [|x l IH]; cbn; [lia|].
  apply Z.lor_nonneg. split.
  - pose proof (uint_range w x Hw) as H; apply H.
  - by apply Z.shiftl_nonneg.
Qed.

Lemma pack_testbit w l i : 0 < w -> 0 <= i ->
  Z.testbit (pack w l) i =
  Z.testbit (uint w (default 0 (l !! Z.to_nat (i / w)))) (i mod w).
Proof.
  intros Hw. revert i. induction l as [|x l IH]; intros i Hi; cbn [pack].
  - rewrite lookup_nil, Z.bits_0. cbn. unfold uint.
    by rewrite Z.mod_0_l, Z.bits_0 by lia.
  - rewrite Z.lor_spec, testbit_shiftl, uint_testbit by lia.
    destruct (Z.leb_spec w i), (Z.ltb_spec i w); try lia; cbn [andb orb].
    + rewrite IH by lia.
      replace (i / w) with (1 + (i - w) / w)
        by (rewrite <- Z.div_add_l by lia; f_equal; lia).
      rewrite Z2Nat.inj_add by (try apply Z.div_pos; lia).
      change (Z.to_nat 1) with 1%nat. cbn [Nat.add lookup list_lookup].
      replace ((i - w) mod w) with (i mod w); [done|].
      rewrite <- (Z.mod_add (i - w) 1 w) by lia. f_equal. lia.
    + rewrite Z.div_small, Z.mod_small by lia. cbn.
      rewrite uint_testbit by lia. destruct (Z.ltb_spec i w); [|lia].
      by rewrite orb_false_r.
Qed.

Lemma lane_pack w l n : 0 < w -> 0 <= n ->
  lane w n (pack w l) = uint w (default 0 (l !! Z.to_nat n)).
Proof.
  intros Hw Hn. apply Z.bits_inj'. intros i Hi.
  rewrite lane_testbit, uint_testbit by lia.
  destruct (Z.ltb_spec i w); [|done]. cbn.
  rewrite pack_testbit by nia.
  replace ((i + w * n) / w) with n
    by (rewrite Z.mul_comm, Z.div_add, Z.div_small by lia; lia).
  replace ((i + w * n) mod w) with i
    by (rewrite Z.mul_comm, Z.mod_add, Z.mod_small by lia; lia).
  rewrite uint_testbit by lia. by destruct (Z.ltb_spec i w); [|lia].
Qed.

Lemma pack_range w l : 0 < w -> in_u (w * Z.of_nat (length l)) (pack w l).
Proof.
  intros Hw. apply testbit_in_u; [lia|apply pack_nonneg; lia|].
  intros i Hi. rewrite pack_testbit by nia.
  rewrite lookup_ge_None_2.
  - cbn. unfold uint. by rewrite Z.mod_0_l, Z.bits_0 by lia.
  - assert (Z.of_nat (length l) <= i / w) by (apply Z.div_le_lower_bound; lia). lia.
Qed.

Lemma unpack_lookup w k x n : (n < k)%nat ->
  unpack w k x !! n = Some (lane w (Z.of_nat n) x).
Proof.
  intros H. unfold unpack. rewrite list_lookup_fmap, lookup_seq_lt by done. done.
Qed.

Lemma length_unpack w k x : length (unpack w k x) = k.
Proof. unfold unpack. by rewrite length_fmap, length_seq. Qed.

(** Two packed words are equal when their lanes are. *)
Lemma lane_ext w k x y : 0 < w ->
  in_u (w * Z.of_nat k) x -> in_u (w * Z.of_nat k) y ->
  (forall n, 0 <= n < Z.of_nat k -> lane w n x = lane w n y) -> x = y.
Proof.
  intros Hw Hx Hy H. apply Z.bits_inj'. intros i Hi.
  destruct (decide (i < w * Z.of_nat k)) as [Hlt|].
  - assert (0 <= i / w < Z.of_nat k).
    { split; [apply Z.div_pos; lia|apply Z.div_lt_upper_bound; lia]. }
    specialize (H (i / w) ltac:(lia)).
    apply (f_equal (fun z => Z.testbit z (i mod w))) in H.
    pose proof (Z.mod_pos_bound i w Hw).
    rewrite !lane_testbit in H by lia.
    destruct (Z.ltb_spec (i mod w) w); [|lia]. cbn in H.
    replace (i mod w + w * (i / w)) with i in H; [done|].
    pose proof (Z.div_mod i w). lia.
  - by rewrite !(in_u_testbit (w * Z.of_nat k)) by (done || lia).
Qed.

Lemma pack_unpack w k x : 0 < w -> in_u (w * Z.of_nat k) x -> pack w (unpack w k x) = x.
Proof.
  intros Hw Hx. apply (lane_ext w k); [done| |done|].
  - pose proof (pack_range w (unpack w k x) Hw) as H. by rewrite length_unpack in H.
  - intros n Hn. rewrite lane_pack by lia.
    rewrite unpack_lookup by lia. cbn [default]. rewrite Z2Nat.id by lia.
    apply uint_id, lane_range. lia.
Qed.

(** ** Arithmetic across lanes *)

Lemma lor_add_disjoint x y : Z.land x y = 0 -> Z.lor x y = x + y.
Proof. intros H. pose proof (Z.add_lor_land x y). lia. Qed.

(** Packing is positional notation. *)
Lemma pack_cons w x l : 0 <= w -> pack w (x :: l) = uint w x + 2 ^ w * pack w l.
Proof.
  intros Hw. cbn [pack]. rewrite lor_add_disjoint.
  - rewrite Z.shiftl_mul_pow2 by lia. lia.
  - apply Z.bits_inj'. intros i Hi.
    rewrite Z.land_spec, uint_testbit, testbit_shiftl, Z.bits_0 by lia.
    destruct (Z.ltb_spec i w), (Z.leb_spec w i); try lia; by rewrite ?andb_false_r.
Qed.

Lemma lane_div_mod w n x : 0 <= w -> 0 <= n -> lane w n x = (x / 2 ^ (w * n)) mod 2 ^ w.
Proof. intros. unfold lane, uint. by rewrite Z.shiftr_div_pow2 by nia. Qed.

(** The low [k + 1] lanes are the low [k] and lane [k]. *)
Lemma mod_lanes w k x : 0 <= w -> 0 <= k ->
  x mod 2 ^ (w * (k + 1)) = x mod 2 ^ (w * k) + 2 ^ (w * k) * lane w k x.
Proof.
  intros Hw Hk. rewrite lane_div_mod by lia.
  replace (2 ^ (w * (k + 1))) with (2 ^ (w * k) * 2 ^ w)
    by (rewrite <- Z.pow_add_r by nia; f_equal; lia).
  apply Z.rem_mul_r; nia.
Qed.

(** Lanes that do not carry add separately. *)
Lemma low_lanes_add w k a b : 0 <= w ->
  (forall i, 0 <= i < Z.of_nat k -> lane w i a + lane w i b < 2 ^ w) ->
  a mod 2 ^ (w * Z.of_nat k) + b mod 2 ^ (w * Z.of_nat k) < 2 ^ (w * Z.of_nat k).
Proof.
  intros Hw. induction k as [|k IH]; intros H.
  - rewrite Z.mul_0_r, !Z.mod_1_r. cbn. lia.
  - specialize (IH ltac:(intros; apply H; lia)). specialize (H (Z.of_nat k) ltac:(lia)).
    replace (Z.of_nat (S k)) with (Z.of_nat k + 1) by lia.
    rewrite !mod_lanes by lia.
    replace (2 ^ (w * (Z.of_nat k + 1))) with (2 ^ (w * Z.of_nat k) * 2 ^ w)
      by (rewrite <- Z.pow_add_r by nia; f_equal; lia).
    assert (0 < 2 ^ (w * Z.of_nat k)) by (apply Z.pow_pos_nonneg; nia). nia.
Qed.

Lemma lane_add w n a b : 0 <= w -> 0 <= n ->
  (forall i, 0 <= i <= n -> lane w i a + lane w i b < 2 ^ w) ->
  lane w n (a + b) = lane w n a + lane w n b.
Proof.
  intros Hw Hn H.
  pose proof (low_lanes_add w (Z.to_nat n) a b Hw ltac:(intros; apply H; lia)) as Hl.
  rewrite Z2Nat.id in Hl by lia. specialize (H n ltac:(lia)).
  rewrite !lane_div_mod in * by lia. set (P := 2 ^ (w * n)) in *.
  assert (0 < P) as HP by (apply Z.pow_pos_nonneg; nia).
  assert ((a + b) / P = a / P + b / P) as ->.
  { symmetry. apply Z.div_unique with (a mod P + b mod P).
    - left. pose proof (Z.mod_pos_bound a P HP). pose proof (Z.mod_pos_bound b P HP). lia.
    - pose proof (Z.div_mod a P). pose proof (Z.div_mod b P). lia. }
  rewrite Z.add_mod by lia. apply Z.mod_small.
  pose proof (Z.mod_pos_bound (a / P) (2 ^ w)). pose proof (Z.mod_pos_bound (b / P) (2 ^ w)). lia.
Qed.

(** Lanes that do not borrow subtract separately. *)
Lemma low_lanes_sub w k a b : 0 <= w ->
  (forall i, 0 <= i < Z.of_nat k -> lane w i b <= lane w i a) ->
  b mod 2 ^ (w * Z.of_nat k) <= a mod 2 ^ (w * Z.of_nat k).
Proof.
  intros Hw. induction k as [|k IH]; intros H.
  - rewrite Z.mul_0_r, !Z.mod_1_r. lia.
  - specialize (IH ltac:(intros; apply H; lia)). specialize (H (Z.of_nat k) ltac:(lia)).
    replace (Z.of_nat (S k)) with (Z.of_nat k + 1) by lia.
    rewrite !mod_lanes by lia.
    assert (0 < 2 ^ (w * Z.of_nat k)) by (apply Z.pow_pos_nonneg; nia). nia.
Qed.

Lemma lane_sub w n a b : 0 <= w -> 0 <= n ->
  (forall i, 0 <= i <= n -> lane w i b <= lane w i a) ->
  lane w n (a - b) = lane w n a - lane w n b.
Proof.
  intros Hw Hn H.
  pose proof (low_lanes_sub w (Z.to_nat n) a b Hw ltac:(intros; apply H; lia)) as Hl.
  rewrite Z2Nat.id in Hl by lia. specialize (H n ltac:(lia)).
  rewrite !lane_div_mod in * by lia. set (P := 2 ^ (w * n)) in *.
  assert (0 < P) as HP by (apply Z.pow_pos_nonneg; nia).
  assert ((a - b) / P = a / P - b / P) as ->.
  { symmetry. apply Z.div_unique with (a mod P - b mod P).
    - left. pose proof (Z.mod_pos_bound a P HP). pose proof (Z.mod_pos_bound b P HP). lia.
    - pose proof (Z.div_mod a P). pose proof (Z.div_mod b P). lia. }
  rewrite Zminus_mod. apply Z.mod_small.
  pose proof (Z.mod_pos_bound (a / P) (2 ^ w)). pose proof (Z.mod_pos_bound (b / P) (2 ^ w)). lia.
Qed.

(** Truncating a word keeps the lanes below the cut. *)
Lemma lane_uint w n W x : 0 <= w -> 0 <= n -> w * (n + 1) <= W ->
  lane w n (uint W x) = lane w n x.
Proof.
  intros Hw Hn HW. apply Z.bits_inj'. intros i Hi.
  rewrite !lane_testbit, uint_testbit by nia.
  destruct (Z.ltb_spec i w); [|done]. destruct (Z.ltb_spec (i + w * n) W); [done|nia].
Qed.

Lemma testbit_ones n i : 0 <= n -> 0 <= i -> Z.testbit (Z.ones n) i = (i <? n).
Proof. intros. apply Z.testbit_ones_nonneg; lia. Qed.
#[export] Hint Rewrite testbit_ones lane_testbit using lia : bits.

(** ** Words assembled from shifted fields *)

Lemma land_field x n m : 0 <= n -> 0 <= m ->
  Z.land x (Z.shiftl (Z.ones n) m) = Z.shiftl (uint n (Z.shiftr x m)) m.
Proof.
  intros Hn Hm. apply Z.bits_inj'. intros i Hi.
  rewrite Z.land_spec, !testbit_shiftl by lia.
  destruct (Z.leb_spec m i); cbn [andb]; [|by rewrite andb_false_r].
  rewrite testbit_ones, uint_testbit, testbit_shiftr by lia.
  replace (i - m + m) with i by lia. by destruct (i - m <? n), (Z.testbit x i).
Qed.

Lemma pack2_lor w x0 x1 : 0 <= w -> in_u w x0 -> in_u w x1 ->
  Z.lor x0 (Z.shiftl x1 w) = pack w [x0; x1].
Proof.
  intros Hw H0 H1. cbn [pack]. by rewrite Z.shiftl_0_l, Z.lor_0_r, !(uint_id w) by done.
Qed.

Lemma pack4_lor w x0 x1 x2 x3 : 0 <= w -> in_u w x0 -> in_u w x1 -> in_u w x2 -> in_u w x3 ->
  Z.lor (Z.lor (Z.lor x0 (Z.shiftl x1 w)) (Z.shiftl x2 (2 * w))) (Z.shiftl x3 (3 * w)) =
  pack w [x0; x1; x2; x3].
Proof.
  intros Hw H0 H1 H2 H3. cbn [pack].
  rewrite Z.shiftl_0_l, Z.lor_0_r, !(uint_id w) by done.
  rewrite !Z.shiftl_lor, !Z.shiftl_shiftl by lia. rewrite !Z.lor_assoc.
  repeat f_equal; lia.
Qed.
