(* ===== verification/ShadowMem.v ===== *)
(** * The shadow store buffer of the prefetch core

    Model of the byte-granular shadow memory that PESESC adds to the i386 code
    generator (src/emul/qemu/tcg/i386/tcg-target.c, [fetch_translated_linear],
    [esesc_shadow_load_process], [esesc_shadow_store_process_byte],
    [esesc_shadow_store_process]).  Stores of the prefetch core never reach guest
    memory: they are kept in a hash table of [MEMBYTE_BUCKET_NUM] chains of
    [MemoryByte] nodes hanging off the core's [CPUState], and its loads look a
    byte up there first.

    A chain is the list of its nodes in [next] order (NULL is the empty list);
    the [prev] field is never read or written.  The table is a finite map from
    bucket numbers to chains, where an absent bucket is a NULL pointer. *)

From S2P Require Import Prelude.
Open Scope Z_scope.

Definition MEMBYTE_BUCKET_NUM : Z := 4096.

Record MemoryByte := mkMemoryByte { mb_addr : Z; mb_data : Z }.

#[export] Instance MemoryByte_eq_dec : EqDecision MemoryByte.
Proof. solve_decision. Defined.

(** The fields of [CPUState] the shadow buffer uses. *)
Record Shadow := mkShadow {
  sbytes : gmap Z (list MemoryByte);
  sbytes_size : Z;
  st_size : Z;
  ld_size : Z;
  st_linear : Z;
  ld_linear : Z;
  st_databytes : list Z;
  ld_databytes : list Z;
  blinear : Z;
  bdata : Z
}.

(** The ring of prefetched addresses shared by the two cores. *)
Record PrefetchRing := mkPrefetchRing {
  prefetch_address : list Z;
  prefetch_address_idx : Z
}.

Section Code.
Context (IsPCore : bool).

Definition bucket_of (a : Z) : Z := Z.land a (MEMBYTE_BUCKET_NUM - 1).

Definition chain (s : Shadow) (b : Z) : list MemoryByte := default [] (sbytes s !! b).

(** The [while (head)] walk: the data of the first node holding [p]. *)
Fixpoint find_byte (p : Z) (head : list MemoryByte) : option Z :=
  match head with
  | [] => None
  | n :: next => if mb_addr n =? p then Some (mb_data n) else find_byte p next
  end.

(** [mem p] is the byte at host address [p], read through a [char] pointer. *)
Definition fetch_translated_linear (mem : Z -> Z) (s : Shadow) (p : Z) : Z :=
  match find_byte p (chain s (bucket_of p)) with
  | Some d => d
  | None => int8_t (mem p)
  end.

Definition set_ld_databytes (s : Shadow) (i : nat) (v : Z) : Shadow :=
  mkShadow (sbytes s) (sbytes_size s) (st_size s) (ld_size s) (st_linear s)
    (ld_linear s) (st_databytes s) (<[i := v]> (ld_databytes s)) (blinear s) (bdata s).

(** The byte loop of [esesc_shadow_load_process], from index [i], [n] bytes to go. *)
Fixpoint shadow_load_bytes (mem : Z -> Z) (i n : nat) (s : Shadow) : Shadow :=
  match n with
  | O => s
  | S n' =>
      let p := uint32_t (ld_linear s + Z.of_nat i) in
      shadow_load_bytes mem (S i) n'
        (set_ld_databytes s i (uint8_t (fetch_translated_linear mem s p)))
  end.

(** Recording an address in the ring; a zero threshold divides by zero. *)
Definition ring_push (runAheadThreshold a : Z) (r : PrefetchRing) : option PrefetchRing :=
  if runAheadThreshold =? 0 then None
  else Some (mkPrefetchRing
    (<[Z.to_nat (prefetch_address_idx r mod runAheadThreshold) := a]> (prefetch_address r))
    (uint32_t (prefetch_address_idx r + 1))).

(** [None] is the failed assertion or the division by zero; [ld_databytes] holds
    eight bytes, more would overrun it. *)
Definition esesc_shadow_load_process (mem : Z -> Z) (runAheadThreshold : Z)
    (s : Shadow) (r : PrefetchRing) : option (Shadow * PrefetchRing) :=
  if negb IsPCore then None
  else if (Z.of_nat (length (ld_databytes s)) <? ld_size s) then None
  else
    let s' := shadow_load_bytes mem 0 (Z.to_nat (ld_size s)) s in
    r' ← ring_push runAheadThreshold (ld_linear s') r;
    Some (s', r').

(** The search loop of the store: overwrite the first node holding [a]. *)
Fixpoint update_byte (a d : Z) (head : list MemoryByte) : option (list MemoryByte) :=
  match head with
  | [] => None
  | n :: next =>
      if mb_addr n =? a then Some (mkMemoryByte (mb_addr n) d :: next)
      else next' ← update_byte a d next; Some (n :: next')
  end.

(** The [retry] loop.  The chain is [pre ++ head]; the search starts at [head].
    When it fails, a zeroed node for [a] is linked after the last node, [head]
    becomes that last node and the search runs again.  The result is the chain
    and the number of nodes added. *)
Fixpoint store_retry (fuel : nat) (a d : Z) (pre head : list MemoryByte)
    (size : Z) : option (list MemoryByte * Z) :=
  match fuel with
  | O => None
  | S fuel' =>
      match update_byte a d head with
      | Some head' => Some (pre ++ head', size)
      | None =>
          match last (pre ++ head) with
          | None => None (* assert(head) *)
          | Some tail =>
              store_retry fuel' a d (removelast (pre ++ head))
                [tail; mkMemoryByte a 0] (uint32_t (size + 1))
          end
      end
  end.

Definition set_bucket (s : Shadow) (b : Z) (c : list MemoryByte) (size : Z) : Shadow :=
  mkShadow (<[b := c]> (sbytes s)) size (st_size s) (ld_size s) (st_linear s)
    (ld_linear s) (st_databytes s) (ld_databytes s) (blinear s) (bdata s).

(** An empty bucket first gets a zeroed node, with address 0. *)
Definition esesc_shadow_store_process_byte (s : Shadow) : option Shadow :=
  let b := bucket_of (blinear s) in
  let head := match chain s b with [] => [mkMemoryByte 0 0] | c => c end in
  '(c, size) ← store_retry 2 (blinear s) (int8_t (bdata s)) [] head (sbytes_size s);
  Some (set_bucket s b c size).

Definition set_bbyte (s : Shadow) (a d : Z) : Shadow :=
  mkShadow (sbytes s) (sbytes_size s) (st_size s) (ld_size s) (st_linear s)
    (ld_linear s) (st_databytes s) (ld_databytes s) a d.

Fixpoint shadow_store_bytes (idx n : nat) (s : Shadow) : option Shadow :=
  match n with
  | O => Some s
  | S n' =>
      d ← st_databytes s !! idx;
      s' ← esesc_shadow_store_process_byte
             (set_bbyte s (uint32_t (st_linear s + Z.of_nat idx)) d);
      shadow_store_bytes (S idx) n' s'
  end.

Definition esesc_shadow_store_process (s : Shadow) : option Shadow :=
  if negb IsPCore then Some s
  else shadow_store_bytes 0 (Z.to_nat (st_size s)) s.
End Code.

(** The abstract contents of the buffer: the byte recorded for an address. *)
Definition shadow_byte (s : Shadow) (p : Z) : option Z :=
  find_byte p (chain s (bucket_of p)).

(** ** The invariant of the hash table

    Every chain starts with the sentinel (address 0) and the other nodes hold
    distinct 32-bit addresses of the chain's bucket. *)
Definition chain_ok (b : Z) (c : list MemoryByte) : Prop :=
  match c with
  | [] => True
  | n :: t => mb_addr n = 0 /\ NoDup (mb_addr <$> t) /\
      Forall (fun m => bucket_of (mb_addr m) = b /\ in_u 32 (mb_addr m) /\
                       (b = 0 -> mb_addr m <> 0)) t
  end /\ Forall (fun m => in_s 8 (mb_data m)) c.

Definition shadow_ok (s : Shadow) : Prop := forall b, chain_ok b (chain s b).

(** ** Chains *)

Lemma update_byte_None a d c : update_byte a d c = None <-> find_byte a c = None.
Proof.
  induction c as [|n c IH]; cbn; [done|].
  destruct (mb_addr n =? a); [done|].
  rewrite <- IH. by destruct (update_byte a d c).
Qed.

Lemma update_byte_Some a d c c' : update_byte a d c = Some c' ->
  (mb_addr <$> c') = (mb_addr <$> c) /\
  (forall p, find_byte p c' = if p =? a then Some d else find_byte p c).
Proof.
  revert c'. induction c as [|n c IH]; intros c'; cbn; [done|].
  destruct (Z.eqb_spec (mb_addr n) a) as [<-|Hne]; cbn.
  - intros [= <-]. split; [done|]. intros p. cbn.
    destruct (Z.eqb_spec (mb_addr n) p), (Z.eqb_spec p (mb_addr n)); (done || lia).
  - destruct (update_byte a d c) as [c''|] eqn:E; cbn; [|done].
    intros [= <-]. destruct (IH _ eq_refl) as [H1 H2]. cbn. rewrite H1.
    split; [done|]. intros p. rewrite H2.
    destruct (Z.eqb_spec (mb_addr n) p), (Z.eqb_spec p a); (done || lia).
Qed.

Lemma update_byte_Forall (P : Z -> Prop) a d c c' : P d ->
  Forall (fun m => P (mb_data m)) c -> update_byte a d c = Some c' ->
  Forall (fun m => P (mb_data m)) c'.
Proof.
  intros Hd. revert c'. induction c as [|n c IH]; intros c' Hc; cbn; [done|].
  inversion Hc; subst. destruct (mb_addr n =? a); cbn; [intros [= <-]; by constructor|].
  destruct (update_byte a d c) as [c''|] eqn:E; cbn; [|done].
  intros [= <-]. constructor; eauto.
Qed.

Lemma find_byte_app p c1 c2 :
  find_byte p (c1 ++ c2) =
  match find_byte p c1 with Some d => Some d | None => find_byte p c2 end.
Proof. induction c1 as [|n c IH]; cbn; [done|]. by destruct (mb_addr n =? p). Qed.

Lemma removelast_last {A} (l : list A) x : last l = Some x -> l = removelast l ++ [x].
Proof.
  induction l as [|y l IH]; [done|]. destruct l as [|z l].
  - cbn. by intros [= ->].
  - intros H. specialize (IH H).
    change (removelast (y :: z :: l)) with (y :: removelast (z :: l)).
    rewrite IH at 1. done.
Qed.

(** The retry loop succeeds within two rounds: either the node exists, or the
    second search starts right before the node that was just added. *)
Lemma store_retry_spec a d c size : c <> [] ->
  exists c' size', store_retry 2 a d [] c size = Some (c', size') /\
    (forall p, find_byte p c' = if p =? a then Some d else find_byte p c) /\
    ((find_byte a c <> None /\ size' = size /\ (mb_addr <$> c') = (mb_addr <$> c) /\
      update_byte a d c = Some c') \/
     (find_byte a c = None /\ size' = uint32_t (size + 1) /\
      c' = c ++ [mkMemoryByte a d])).
Proof.
  intros Hne. cbn [store_retry app].
  destruct (update_byte a d c) as [c'|] eqn:E.
  - exists c', size. split; [done|].
    pose proof (update_byte_Some _ _ _ _ E) as [Ha Hf]. split; [done|].
    left. split; [|done]. intros H. apply (update_byte_None _ d) in H. congruence.
  - apply update_byte_None in E as Ef.
    destruct (last c) as [tail|] eqn:El; [|apply last_None in El; done].
    pose proof (removelast_last _ _ El) as Ec.
    assert ((mb_addr tail =? a) = false) as Et.
    { rewrite Ec, find_byte_app in Ef. cbn in Ef.
      destruct (find_byte a (removelast c)); [done|]. by destruct (mb_addr tail =? a). }
    cbn. rewrite Et, Z.eqb_refl. cbn.
    exists (c ++ [mkMemoryByte a d]), (uint32_t (size + 1)).
    split; [|split; [|by right]].
    + change (tail :: [mkMemoryByte a d]) with ([tail] ++ [mkMemoryByte a d]).
      by rewrite app_assoc, <- Ec.
    + intros p. rewrite find_byte_app. cbn.
      destruct (Z.eqb_spec p a) as [->|Hpa].
      * by rewrite Ef, Z.eqb_refl.
      * destruct (Z.eqb_spec a p); [lia|]. by destruct (find_byte p c).
Qed.

(** ** The store of one byte *)

Lemma bucket_of_range a : 0 <= bucket_of a < MEMBYTE_BUCKET_NUM.
Proof.
  unfold bucket_of. change (MEMBYTE_BUCKET_NUM - 1) with (Z.ones 12).
  rewrite Z.land_ones by lia. by apply Z.mod_pos_bound.
Qed.

Lemma chain_set_bucket s b c size b' :
  chain (set_bucket s b c size) b' = if decide (b = b') then c else chain s b'.
Proof.
  unfold chain, set_bucket. cbn. rewrite lookup_insert. by case_decide.
Qed.

(** What the abstract contents are after the store of byte [bdata] at [blinear]:
    the new byte there; the sentinel of a bucket created by the store makes
    address 0 read as 0 when that bucket is bucket 0; nothing else changes. *)
Definition store_byte_spec (s : Shadow) (p : Z) : option Z :=
  if p =? blinear s then Some (int8_t (bdata s))
  else if (p =? 0) && (bucket_of (blinear s) =? 0) &&
          bool_decide (chain s 0 = []) then Some 0
  else shadow_byte s p.

Lemma store_process_byte_total s :
  exists s', esesc_shadow_store_process_byte s = Some s' /\
    (forall p, shadow_byte s' p = store_byte_spec s p) /\
    st_linear s' = st_linear s /\ st_databytes s' = st_databytes s /\
    st_size s' = st_size s /\ ld_size s' = ld_size s /\
    ld_linear s' = ld_linear s /\ ld_databytes s' = ld_databytes s.
Proof.
  unfold esesc_shadow_store_process_byte, store_byte_spec, shadow_byte.
  set (b := bucket_of (blinear s)).
  set (c0 := match chain s b with [] => [mkMemoryByte 0 0] | c => c end).
  assert (c0 <> []) as Hne by (unfold c0; by destruct (chain s b)).
  destruct (store_retry_spec (blinear s) (int8_t (bdata s)) c0 (sbytes_size s) Hne)
    as (c' & size' & E & Hf & _).
  rewrite E. eexists. split; [reflexivity|]. split; [|done].
  intros p. rewrite chain_set_bucket. case_decide as Hb.
  - rewrite Hf. destruct (Z.eqb_spec p (blinear s)) as [->|Hp]; [done|].
    unfold c0. rewrite <- Hb. destruct (chain s b) as [|n t] eqn:Ec.
    + cbn -[Z.eqb]. rewrite (Z.eqb_sym 0 p).
      destruct (Z.eqb_spec p 0) as [->|]; cbn -[Z.eqb]; [|done].
      change (bucket_of 0) with 0 in Hb. rewrite Hb in Ec. by rewrite Hb, Ec.
    + destruct (Z.eqb_spec p 0) as [->|]; cbn; [|done].
      change (bucket_of 0) with 0 in Hb. rewrite <- Hb, Ec. by rewrite andb_false_r.
  - destruct (Z.eqb_spec p (blinear s)) as [->|Hp]; [done|].
    destruct (Z.eqb_spec p 0) as [->|]; cbn; [|done].
    change (bucket_of 0) with 0 in Hb. by destruct (Z.eqb_spec b 0).
Qed.

(** The invariant is kept, and the nodes besides the sentinels are counted. *)
Lemma store_process_byte_ok s s' : in_u 32 (blinear s) ->
  shadow_ok s -> esesc_shadow_store_process_byte s = Some s' -> shadow_ok s'.
Proof.
  intros Ha Hok. unfold esesc_shadow_store_process_byte.
  set (b := bucket_of (blinear s)).
  set (c0 := match chain s b with [] => [mkMemoryByte 0 0] | c => c end).
  assert (c0 <> []) as Hne by (unfold c0; by destruct (chain s b)).
  assert (chain_ok b c0) as Hc0.
  { unfold c0. pose proof (Hok b) as Hb. destruct (chain s b); [|done].
    split; [split; [done|split; constructor]|].
    constructor; [|constructor]. unfold in_s. cbn. lia. }
  destruct (store_retry_spec (blinear s) (int8_t (bdata s)) c0 (sbytes_size s) Hne)
    as (c' & size' & E & _ & Hcase).
  rewrite E. intros [= <-] b'. rewrite chain_set_bucket. case_decide; [subst b'|apply Hok].
  destruct c0 as [|n t]; [done|]. destruct Hc0 as [(Hn & Hnd & Hall) Hdata].
  destruct Hcase as [(_ & _ & Haddr & Hupd)|(Hnone & _ & ->)].
  - destruct c' as [|n' t']; [done|]. cbn in Haddr. injection Haddr as Hn' Ht'.
    split; [split; [congruence|split; [by rewrite Ht'|]]|].
    + rewrite Forall_forall. intros m Hm.
      assert (mb_addr m ∈ (mb_addr <$> t)) as Hin by (rewrite <- Ht'; by apply list_elem_of_fmap_2).
      apply list_elem_of_fmap in Hin as (m' & -> & Hm').
      rewrite Forall_forall in Hall. by apply Hall.
    + eapply (update_byte_Forall (in_s 8)); [|exact Hdata|exact Hupd].
      by apply sint_range.
  - cbn in Hnone |- *. destruct (Z.eqb_spec (mb_addr n) (blinear s)) as [|Hna]; [done|].
    split; [split; [done|split]|].
    + rewrite fmap_app. apply NoDup_app. split; [done|]. split; [|by apply NoDup_singleton].
      intros x Hx Hin. apply list_elem_of_singleton in Hin as ->.
      apply list_elem_of_fmap in Hx as (m & Hm & Hmt).
      clear -Hnone Hm Hmt. induction Hmt as [|m k t _ IH]; cbn in Hnone.
      * by rewrite <- Hm, Z.eqb_refl in Hnone.
      * destruct (mb_addr k =? blinear s); [done|]. by apply IH.
    + apply Forall_app. split; [done|]. constructor; [|constructor]. cbn.
      split; [done|]. split; [done|]. intros Hb0 Hz. by rewrite Hz, Hn in *.
    + inversion Hdata; subst. constructor; [done|]. apply Forall_app. split; [done|].
      constructor; [|constructor]. by apply sint_range.
Qed.

(** ** Multi-byte stores *)

(** The fields a store leaves alone. *)
Definition same_request (s s' : Shadow) : Prop :=
  st_linear s' = st_linear s /\ st_databytes s' = st_databytes s /\
  st_size s' = st_size s /\ ld_size s' = ld_size s /\
  ld_linear s' = ld_linear s /\ ld_databytes s' = ld_databytes s.

Lemma same_request_trans s1 s2 s3 :
  same_request s1 s2 -> same_request s2 s3 -> same_request s1 s3.
Proof. unfold same_request. intros. intuition congruence. Qed.

(** The offset of address [p] in an access that starts at [a]; addresses wrap
    at 32 bits. *)
Definition offset_in (a p : Z) : Z := uint32_t (p - a).

Lemma offset_in_add a i : 0 <= i < 2 ^ 32 -> offset_in a (uint32_t (a + i)) = i.
Proof. unfold offset_in. cint. Qed.

Lemma offset_in_inv a p i : in_u 32 p -> offset_in a p = i -> p = uint32_t (a + i).
Proof. unfold offset_in. intros H <-. cint. Qed.

(** The contents after the bytes [idx .. idx + n - 1] of the request are stored. *)
Definition store_spec (idx n : nat) (s : Shadow) (p : Z) : option Z :=
  let o := offset_in (st_linear s) p in
  if (Z.of_nat idx <=? o) && (o <? Z.of_nat idx + Z.of_nat n)
  then int8_t <$> (st_databytes s !! Z.to_nat o)
  else shadow_byte s p.

Lemma store_byte_step s s1 idx d : st_databytes s !! idx = Some d ->
  esesc_shadow_store_process_byte (set_bbyte s (uint32_t (st_linear s + Z.of_nat idx)) d)
    = Some s1 ->
  same_request s s1 /\
  forall p, p <> 0 -> shadow_byte s1 p =
    if p =? uint32_t (st_linear s + Z.of_nat idx) then Some (int8_t d)
    else shadow_byte s p.
Proof.
  intros Hd E.
  destruct (store_process_byte_total
    (set_bbyte s (uint32_t (st_linear s + Z.of_nat idx)) d)) as (s' & E' & Hb & Hsame).
  rewrite E in E'. injection E' as <-. split; [exact Hsame|].
  intros p Hp. rewrite Hb. unfold store_byte_spec.
  rewrite (proj2 (Z.eqb_neq p 0)) by done. cbn -[Z.eqb]. done.
Qed.

Lemma shadow_store_bytes_spec n idx s :
  (idx + n <= length (st_databytes s))%nat -> (idx + n <= 8)%nat ->
  exists s', shadow_store_bytes idx n s = Some s' /\ same_request s s' /\
    forall p, p <> 0 -> in_u 32 p -> shadow_byte s' p = store_spec idx n s p.
Proof.
  revert idx s. induction n as [|n IH]; intros idx s Hlen H8.
  - exists s. split; [done|]. split; [done|]. intros p Hp Hu. unfold store_spec.
    split_ltb; done.
  - cbn [shadow_store_bytes].
    destruct (lookup_lt_is_Some_2 (st_databytes s) idx ltac:(lia)) as [d Hd].
    rewrite Hd. cbn -[esesc_shadow_store_process_byte].
    destruct (store_process_byte_total
      (set_bbyte s (uint32_t (st_linear s + Z.of_nat idx)) d)) as (s1 & E & _).
    rewrite E. cbn -[esesc_shadow_store_process_byte].
    destruct (store_byte_step _ _ _ _ Hd E) as [Hs1 Hb1].
    pose proof Hs1 as (Hlin & Hdat & _).
    destruct (IH (S idx) s1) as (s2 & E2 & Hs2 & Hb2); [rewrite Hdat; lia|lia|].
    exists s2. split; [done|]. split; [by eapply same_request_trans|].
    intros p Hp Hu. rewrite Hb2 by done. unfold store_spec. rewrite Hlin, Hdat, Hb1 by done.
    destruct (Z.eqb_spec p (uint32_t (st_linear s + Z.of_nat idx))) as [->|Hne].
    + rewrite offset_in_add by lia. rewrite Nat2Z.id, Hd. split_ltb; done.
    + assert (offset_in (st_linear s) p <> Z.of_nat idx) as Ho.
      { intros Ho. by apply offset_in_inv in Ho. }
      split_ltb; done.
Qed.

(** The invariant survives whole stores. *)
Lemma shadow_store_bytes_ok n idx s s' : shadow_ok s ->
  shadow_store_bytes idx n s = Some s' -> shadow_ok s'.
Proof.
  revert idx s. induction n as [|n IH]; intros idx s Hok; cbn [shadow_store_bytes].
  - by intros [= <-].
  - destruct (st_databytes s !! idx) as [d|]; cbn -[esesc_shadow_store_process_byte]; [|done].
    destruct (esesc_shadow_store_process_byte _) as [s1|] eqn:E;
      cbn -[esesc_shadow_store_process_byte]; [|done].
    apply IH. eapply store_process_byte_ok; [| |exact E]; [|exact Hok].
    cbn. by apply uint_range.
Qed.

(** ** Loads *)

(** The byte the prefetch core sees at [p]: the shadow byte if there is one,
    guest memory otherwise. *)
Definition view_byte (mem : Z -> Z) (s : Shadow) (p : Z) : Z :=
  uint8_t (default (mem p) (shadow_byte s p)).

Lemma fetch_view mem s p : uint8_t (fetch_translated_linear mem s p) = view_byte mem s p.
Proof.
  unfold fetch_translated_linear, view_byte, shadow_byte.
  destruct (find_byte _ _); cbn; [done|]. by apply uint_sint.
Qed.

Lemma shadow_byte_set_ld s i v p : shadow_byte (set_ld_databytes s i v) p = shadow_byte s p.
Proof. done. Qed.

Lemma shadow_load_bytes_st mem n i s :
  st_databytes (shadow_load_bytes mem i n s) = st_databytes s.
Proof. revert i s. induction n as [|n IH]; intros i s; cbn; [done|]. by rewrite IH. Qed.

Lemma shadow_load_bytes_spec mem n i s :
  (i + n <= length (ld_databytes s))%nat ->
  let s' := shadow_load_bytes mem i n s in
  sbytes s' = sbytes s /\ sbytes_size s' = sbytes_size s /\ ld_linear s' = ld_linear s /\
  length (ld_databytes s') = length (ld_databytes s) /\
  forall j, ld_databytes s' !! j =
    if decide (i <= j < i + n)%nat
    then Some (view_byte mem s (uint32_t (ld_linear s + Z.of_nat j)))
    else ld_databytes s !! j.
Proof.
  revert i s. induction n as [|n IH]; intros i s Hlen; cbn [shadow_load_bytes].
  - cbn. repeat (split; [done|]). intros j. case_decide; [lia|done].
  - specialize (IH (S i) (set_ld_databytes s i
      (uint8_t (fetch_translated_linear mem s (uint32_t (ld_linear s + Z.of_nat i)))))).
    cbn in IH |- *. rewrite length_insert in IH. destruct IH as (H1 & H2 & H3 & H4 & H5); [lia|].
    repeat (split; [done|]). intros j. rewrite H5.
    case_decide as Ha; case_decide as Hb; try lia; try done.
    + assert (j = i) as -> by lia. rewrite list_lookup_insert_eq by lia.
      by rewrite fetch_view.
    + rewrite list_lookup_insert_ne by lia. done.
Qed.

(** ** The properties *)

(** A well-formed request: the eight-byte staging arrays of [CPUState]. *)
Definition request_ok (s : Shadow) : Prop :=
  length (st_databytes s) = 8%nat /\ length (ld_databytes s) = 8%nat /\
  0 <= st_size s <= 8 /\ 0 <= ld_size s <= 8.

(** The next load request after a store, as the generated code issues it. *)
Definition request_load (s : Shadow) (a n : Z) : Shadow :=
  mkShadow (sbytes s) (sbytes_size s) (st_size s) n (st_linear s) a
    (st_databytes s) (ld_databytes s) (blinear s) (bdata s).

(** C1: a store by the prefetch core followed by a load returns, byte for byte,
    the stored data where the two accesses overlap (addresses wrapping at 32
    bits) and what the core saw before elsewhere: bytes of older shadow stores
    or of guest memory, freely mixed within one access.  The address 0, which
    the bucket sentinels alias, is excluded. *)
Theorem shadow_store_load_roundtrip mem thr s r a n :
  request_ok s -> thr <> 0 -> 0 <= n <= 8 ->
  (forall j, 0 <= j < n -> uint32_t (a + j) <> 0) ->
  exists s1 s2 r2,
    esesc_shadow_store_process true s = Some s1 /\
    esesc_shadow_load_process true mem thr (request_load s1 a n) r = Some (s2, r2) /\
    forall j : nat, Z.of_nat j < n ->
      let p := uint32_t (a + Z.of_nat j) in
      ld_databytes s2 !! j =
        if offset_in (st_linear s) p <? st_size s
        then uint8_t <$> (st_databytes s !! Z.to_nat (offset_in (st_linear s) p))
        else Some (view_byte mem s p).
Proof.
  intros (Hst & Hld & Hsz & _) Hthr Hn Hnz.
  unfold esesc_shadow_store_process, esesc_shadow_load_process, ring_push. cbn [negb].
  destruct (shadow_store_bytes_spec (Z.to_nat (st_size s)) 0 s) as (s1 & E & Hsame & Hb); [lia..|].
  destruct Hsame as (_ & _ & _ & _ & _ & Hldb).
  exists s1. rewrite E. cbn [ld_size ld_databytes request_load]. rewrite Hldb, Hld.
  destruct (Z.ltb_spec (Z.of_nat 8) n); [lia|]. cbn -[Z.ltb shadow_load_bytes Z.eqb].
  destruct (Z.eqb_spec thr 0); [done|]. cbn -[Z.ltb shadow_load_bytes].
  eexists _, _. split; [done|]. split; [reflexivity|]. intros j Hj.
  destruct (shadow_load_bytes_spec mem (Z.to_nat n) 0 (request_load s1 a n)) as (_ & _ & _ & _ & Hl).
  { cbn. rewrite Hldb. lia. }
  rewrite Hl. case_decide; [|lia]. cbn [ld_linear request_load].
  set (p := uint32_t (a + Z.of_nat j)).
  assert (view_byte mem (request_load s1 a n) p = uint8_t (default (mem p) (shadow_byte s1 p)))
    as -> by done.
  rewrite Hb by (apply Hnz || apply uint_range; lia). unfold store_spec.
  pose proof (uint_range 32 (p - st_linear s) ltac:(lia)) as Ho.
  change (uint 32 (p - st_linear s)) with (offset_in (st_linear s) p) in Ho.
  unfold in_u in Ho.
  replace (Z.of_nat 0 + Z.of_nat (Z.to_nat (st_size s))) with (st_size s) by lia.
  destruct (Z.leb_spec (Z.of_nat 0) (offset_in (st_linear s) p)); [|lia]. cbn [andb].
  destruct (Z.ltb_spec (offset_in (st_linear s) p) (st_size s)); [|done].
  destruct (lookup_lt_is_Some_2 (st_databytes s) (Z.to_nat (offset_in (st_linear s) p)))
    as [d Hd]; [lia|].
  rewrite Hd. cbn. f_equal. by apply uint_sint.
Qed.

Definition w_shadow : Shadow :=
  mkShadow ∅ 0 4 4 4096 4098 [1; 2; 3; 200; 5; 6; 7; 8] (replicate 8 0) 0 0.
Definition w_ring : PrefetchRing := mkPrefetchRing (replicate 4 0) 0.

Lemma shadow_store_load_roundtrip_witness :
  exists s1 s2 r2,
    esesc_shadow_store_process true w_shadow = Some s1 /\
    esesc_shadow_load_process true (fun p => p) 4 (request_load s1 4098 4) w_ring = Some (s2, r2) /\
    ld_databytes s2 !! 1%nat = Some 200 /\ ld_databytes s2 !! 2%nat = Some 4.
Proof.
  destruct (shadow_store_load_roundtrip (fun p => p) 4 w_shadow w_ring 4098 4)
    as (s1 & s2 & r2 & E1 & E2 & H).
  - repeat split; vm_compute; congruence.
  - lia.
  - lia.
  - intros j Hj. cint.
  - exists s1, s2, r2. split; [exact E1|]. split; [exact E2|].
    split; [exact (H 1%nat ltac:(lia))|exact (H 2%nat ltac:(lia))].
Defined.

(** A store keeps the table well formed (each chain is headed by its
    sentinel, the other nodes hold distinct addresses that hash to the bucket),
    and it always succeeds: the retry loop finds the node it has just linked. *)
Lemma shadow_store_invariant pcore s :
  request_ok s -> shadow_ok s ->
  exists s', esesc_shadow_store_process pcore s = Some s' /\ shadow_ok s' /\ request_ok s'.
Proof.
  intros (Hst & Hld & Hsz & Hlz) Hok. unfold esesc_shadow_store_process.
  destruct pcore; cbn [negb]; [|by exists s].
  destruct (shadow_store_bytes_spec (Z.to_nat (st_size s)) 0 s) as (s' & E & Hsame & _); [lia..|].
  exists s'. split; [done|]. split; [by eapply shadow_store_bytes_ok|].
  destruct Hsame as (_ & Hd & Hz & Hlz' & _ & Hl). unfold request_ok.
  by rewrite Hd, Hz, Hlz', Hl.
Qed.

Lemma w_shadow_ok : shadow_ok w_shadow.
Proof. intros b. split; [done|constructor]. Defined.

Lemma shadow_store_invariant_witness :
  exists s', esesc_shadow_store_process true w_shadow = Some s' /\ shadow_ok s'.
Proof.
  destruct (shadow_store_invariant true w_shadow) as (s' & E & Hok & _).
  - repeat split; vm_compute; congruence.
  - exact w_shadow_ok.
  - by exists s'.
Defined.
