(* ===== verification/TraceExpand.v ===== *)
(** * Instruction trace records

    Model of the per-instruction trace records the generated code leaves in
    [CPUState] and of their expansion into the records handed to the timing
    simulator: [CPUTracePoint] and [ExpandedCPUTracePoint] of
    src/emul/qemu/cpu-defs.h, and [xtrace_reset_trace_point(s)],
    [xtrm_trace_sanity_check], [xtrm_trace_expand_single_(no)mem] and
    [xtrm_trace_expand] of src/emul/qemu/cpu-exec.c.  Record 0 of the input
    buffer is unused: the generated code numbers records from 1. *)

From S2P Require Import Prelude.
Open Scope Z_scope.

Definition INVALID_REG : Z := 16.
Definition INVALID_MEMADD : Z := 4294967295.
Definition MAX_MEM_PER_INSN : nat := 16.
Definition MAX_REG_PER_INSN : nat := 16.
Definition CF_COUNT_MASK : Z := 32767.

Definition IS_VALID_ARCH_REG (x : Z) : bool := x <? INVALID_REG.
Definition IS_VALID_OR_NULL_ARCH_REG (x : Z) : bool :=
  IS_VALID_ARCH_REG x || (INVALID_REG =? x).

(** The fields the raw and the expanded record share. *)
Record TraceCommon := mkTraceCommon {
  tp_pc : Z; tp_opcode : Z;
  has_imm : Z; src_imm : Z;
  is_branch : Z; is_cond : Z; is_taken : Z; target : Z;
  rn_regn : Z; rm_regn : Z; rs_regn : Z; rd_regn : Z; df_regn : Z;
  rn_regv : Z; rm_regv : Z; rs_regv : Z; rd_regv : Z; df_regv : Z
}.

Record CPUTracePoint := mkCPUTracePoint {
  tp_common : TraceCommon;
  memadd_cnt : Z; memval_cnt : Z;
  memadd : list Z; memval : list Z;
  is_lsm : Z;
  lsm_regn : list Z; lsm_regv : list Z; lsm_memadd : list Z; lsm_memval : list Z
}.

Record ExpandedCPUTracePoint := mkExpanded {
  xp_common : TraceCommon;
  xp_hasmem : Z; xp_memadd : Z; xp_memval : Z
}.

(** The two buffers of a core with their fill counts. *)
Record TraceBuf := mkTraceBuf {
  xtrace_op_tp : list CPUTracePoint;
  xtrace_op_cnt : Z;
  xtrace_xp_op_tp : list ExpandedCPUTracePoint;
  op_cnt : Z
}.

(** The register values, the immediate, the branch target and the memory arrays
    keep their old contents. *)
Definition xtrace_reset_trace_point (tp : CPUTracePoint) : CPUTracePoint :=
  let c := tp_common tp in
  mkCPUTracePoint
    (mkTraceCommon 0 0 0 (src_imm c) 0 0 0 (target c)
       INVALID_REG INVALID_REG INVALID_REG INVALID_REG INVALID_REG
       (rn_regv c) (rm_regv c) (rs_regv c) (rd_regv c) (df_regv c))
    0 0 (memadd tp) (memval tp) 0
    (replicate MAX_REG_PER_INSN INVALID_REG)
    (lsm_regv tp) (lsm_memadd tp) (lsm_memval tp).

(** The loop from [i] over [n] records; [None] is an access past the buffer. *)
Fixpoint reset_points (n i : nat) (l : list CPUTracePoint) : option (list CPUTracePoint) :=
  match n with
  | O => Some l
  | S n' => tp ← l !! i; reset_points n' (S i) (<[i := xtrace_reset_trace_point tp]> l)
  end.

Definition xtrace_reset_trace_points (b : TraceBuf) : option TraceBuf :=
  l ← reset_points (S (Z.to_nat (xtrace_op_cnt b))) 0 (xtrace_op_tp b);
  Some (mkTraceBuf l 0 (xtrace_xp_op_tp b) (op_cnt b)).

(** The program-counter check: consecutive records less than five bytes apart
    are two or four bytes apart. *)
Fixpoint sanity_pcs (last_pc : Z) (l : list CPUTracePoint) : bool :=
  match l with
  | [] => true
  | tp :: t =>
      let curr_pc := tp_pc (tp_common tp) in
      let diff := uint32_t (curr_pc - last_pc) in
      (if (diff <? 5) && negb (last_pc =? 0) then (diff =? 4) || (diff =? 2) else true)
      && sanity_pcs curr_pc t
  end.

Definition sanity_regs (tp : CPUTracePoint) : bool :=
  IS_VALID_OR_NULL_ARCH_REG (rn_regn (tp_common tp)) &&
  IS_VALID_OR_NULL_ARCH_REG (rm_regn (tp_common tp)) &&
  IS_VALID_OR_NULL_ARCH_REG (rs_regn (tp_common tp)) &&
  IS_VALID_OR_NULL_ARCH_REG (rd_regn (tp_common tp)).

Definition sanity_lsm (tp : CPUTracePoint) : bool :=
  if is_lsm tp =? 0 then true
  else (length (filter (fun r => IS_VALID_ARCH_REG r = true)
          (take MAX_REG_PER_INSN (lsm_regn tp))) <=? MAX_REG_PER_INSN)%nat.

(** The conjunction of the assertions over records [0 .. cnt] ([1 .. cnt] for
    the program counters). *)
Definition xtrm_trace_sanity_check (b : TraceBuf) : bool :=
  let cnt := Z.to_nat (xtrace_op_cnt b) in
  let recs := take (S cnt) (xtrace_op_tp b) in
  sanity_pcs 0 (drop 1 recs) && forallb sanity_regs recs && forallb sanity_lsm recs.

(** Writing one expanded record at [op_cnt] and advancing it. *)
Definition put_expanded (f : ExpandedCPUTracePoint -> ExpandedCPUTracePoint)
    (b : TraceBuf) : option TraceBuf :=
  old ← xtrace_xp_op_tp b !! Z.to_nat (op_cnt b);
  Some (mkTraceBuf (xtrace_op_tp b) (xtrace_op_cnt b)
          (<[Z.to_nat (op_cnt b) := f old]> (xtrace_xp_op_tp b)) (uint32_t (op_cnt b + 1))).

(** [memval] is not assigned: the slot keeps its previous value. *)
Definition xtrm_trace_expand_single_nomem (b : TraceBuf) (idx : nat) : option TraceBuf :=
  curr ← xtrace_op_tp b !! idx;
  put_expanded (fun old => mkExpanded (tp_common curr) 0 INVALID_MEMADD (xp_memval old)) b.

Definition xtrm_trace_expand_single_mem (b : TraceBuf) (idx midx : nat) : option TraceBuf :=
  curr ← xtrace_op_tp b !! idx;
  a ← memadd curr !! midx;
  v ← memval curr !! midx;
  put_expanded (fun _ => mkExpanded (tp_common curr) 1 a v) b.

Fixpoint expand_mems (n k : nat) (idx : nat) (b : TraceBuf) : option TraceBuf :=
  match n with
  | O => Some b
  | S n' => b' ← xtrm_trace_expand_single_mem b idx k; expand_mems n' (S k) idx b'
  end.

Fixpoint expand_from (n i : nat) (b : TraceBuf) : option TraceBuf :=
  match n with
  | O => Some b
  | S n' =>
      tp ← xtrace_op_tp b !! i;
      b' ← (if memadd_cnt tp =? 0 then xtrm_trace_expand_single_nomem b i
            else expand_mems (Z.to_nat (memadd_cnt tp)) 0 i b);
      expand_from n' (S i) b'
  end.

Definition xtrm_trace_expand (b : TraceBuf) : option TraceBuf :=
  expand_from (Z.to_nat (xtrace_op_cnt b)) 1 b.

(** ** Specification: one record per memory access, one for an instruction
    without any *)

(** What matters of an expanded record; the value of a record without memory is
    whatever the slot held. *)
Record View := mkView { v_common : TraceCommon; v_mem : option (Z * Z) }.

Definition view_of (x : ExpandedCPUTracePoint) : View :=
  mkView (xp_common x) (if xp_hasmem x =? 0 then None else Some (xp_memadd x, xp_memval x)).

Definition accesses (tp : CPUTracePoint) : list (Z * Z) :=
  take (Z.to_nat (memadd_cnt tp)) (zip (memadd tp) (memval tp)).

Definition expand_spec (tp : CPUTracePoint) : list View :=
  match accesses tp with
  | [] => [mkView (tp_common tp) None]
  | l => (fun av => mkView (tp_common tp) (Some av)) <$> l
  end.

Definition tp_ok (tp : CPUTracePoint) : Prop :=
  length (memadd tp) = MAX_MEM_PER_INSN /\ length (memval tp) = MAX_MEM_PER_INSN /\
  0 <= memadd_cnt tp <= Z.of_nat MAX_MEM_PER_INSN.

(** ** Lemmas *)

Lemma put_expanded_spec f b :
  0 <= op_cnt b < 2 ^ 32 - 1 -> op_cnt b < Z.of_nat (length (xtrace_xp_op_tp b)) ->
  exists b' old, put_expanded f b = Some b' /\
    xtrace_op_tp b' = xtrace_op_tp b /\ xtrace_op_cnt b' = xtrace_op_cnt b /\
    op_cnt b' = op_cnt b + 1 /\
    length (xtrace_xp_op_tp b') = length (xtrace_xp_op_tp b) /\
    take (Z.to_nat (op_cnt b')) (xtrace_xp_op_tp b') =
      take (Z.to_nat (op_cnt b)) (xtrace_xp_op_tp b) ++ [f old].
Proof.
  intros Hr Hlt. unfold put_expanded.
  destruct (lookup_lt_is_Some_2 (xtrace_xp_op_tp b) (Z.to_nat (op_cnt b)) ltac:(lia))
    as [old Ho].
  rewrite Ho. cbn. eexists _, old. split; [reflexivity|]. cbn.
  assert (uint32_t (op_cnt b + 1) = op_cnt b + 1) as Hu by cint.
  rewrite Hu, length_insert. repeat (split; [done|]).
  replace (Z.to_nat (op_cnt b + 1)) with (S (Z.to_nat (op_cnt b))) by lia.
  rewrite (take_S_r _ _ (f old)) by (apply list_lookup_insert_eq; lia).
  by rewrite take_insert_ge by lia.
Qed.

Definition views (b : TraceBuf) : list View :=
  view_of <$> take (Z.to_nat (op_cnt b)) (xtrace_xp_op_tp b).

(** [extends b b' l]: [b'] is [b] with the records [l] appended. *)
Definition extends (b b' : TraceBuf) (l : list View) : Prop :=
  xtrace_op_tp b' = xtrace_op_tp b /\ xtrace_op_cnt b' = xtrace_op_cnt b /\
  op_cnt b' = op_cnt b + Z.of_nat (length l) /\
  length (xtrace_xp_op_tp b') = length (xtrace_xp_op_tp b) /\
  views b' = views b ++ l.

Lemma extends_nil b : extends b b [].
Proof. unfold extends. rewrite app_nil_r. cbn. repeat split; lia. Qed.

Lemma extends_trans b1 b2 b3 l1 l2 :
  extends b1 b2 l1 -> extends b2 b3 l2 -> extends b1 b3 (l1 ++ l2).
Proof.
  intros (H1 & H2 & H3 & H4 & H5) (K1 & K2 & K3 & K4 & K5). unfold extends.
  rewrite length_app, K5, H5, app_assoc. repeat split; (congruence || lia).
Qed.

Lemma put_expanded_extends f b v :
  (forall old, view_of (f old) = v) ->
  0 <= op_cnt b < 2 ^ 32 - 1 -> op_cnt b < Z.of_nat (length (xtrace_xp_op_tp b)) ->
  exists b', put_expanded f b = Some b' /\ extends b b' [v].
Proof.
  intros Hv Hr Hlt. destruct (put_expanded_spec f b Hr Hlt) as (b' & old & E & H1 & H2 & H3 & H4 & H5).
  exists b'. split; [done|]. unfold extends, views. rewrite H5, fmap_app. cbn. by rewrite Hv.
Qed.

(** The space still free in the output buffer. *)
Definition room (b : TraceBuf) (n : nat) : Prop :=
  0 <= op_cnt b /\ op_cnt b + Z.of_nat n <= Z.of_nat (length (xtrace_xp_op_tp b)) /\
  Z.of_nat (length (xtrace_xp_op_tp b)) < 2 ^ 32.

Lemma room_extends b b' l n : extends b b' l -> room b (length l + n) -> room b' n.
Proof. intros (_ & _ & H3 & H4 & _) (R1 & R2 & R3). unfold room. rewrite H4. lia. Qed.

Lemma expand_mems_spec idx tp n k b :
  xtrace_op_tp b !! idx = Some tp -> tp_ok tp -> (k + n <= MAX_MEM_PER_INSN)%nat ->
  room b n ->
  exists b', expand_mems n k idx b = Some b' /\
    extends b b' ((fun av => mkView (tp_common tp) (Some av)) <$>
                  take n (drop k (zip (memadd tp) (memval tp)))).
Proof.
  intros Htp (Ha & Hv & Hc). revert k b Htp.
  induction n as [|n IH]; intros k b Htp Hk Hroom; cbn [expand_mems].
  - exists b. split; [done|]. apply extends_nil.
  - destruct (lookup_lt_is_Some_2 (memadd tp) k ltac:(lia)) as [a Ea].
    destruct (lookup_lt_is_Some_2 (memval tp) k ltac:(lia)) as [v Ev].
    unfold xtrm_trace_expand_single_mem. rewrite Htp. cbn. rewrite Ea. cbn. rewrite Ev. cbn.
    destruct (put_expanded_extends (fun _ => mkExpanded (tp_common tp) 1 a v) b
      (mkView (tp_common tp) (Some (a, v)))) as (b1 & E1 & X1); [done| |unfold room in Hroom; lia|].
    { unfold room in Hroom. lia. }
    rewrite E1. cbn.
    destruct (IH (S k) b1) as (b2 & E2 & X2).
    { destruct X1 as (-> & _). done. }
    { lia. }
    { eapply room_extends; [exact X1|exact Hroom]. }
    exists b2. split; [done|].
    assert (zip (memadd tp) (memval tp) !! k = Some (a, v)) as Hz
      by (apply lookup_zip_with_Some; eauto).
    rewrite (drop_S _ (a, v) k Hz). cbn.
    exact (extends_trans _ _ _ _ _ X1 X2).
Qed.

Lemma length_accesses tp : tp_ok tp -> length (accesses tp) = Z.to_nat (memadd_cnt tp).
Proof.
  intros (Ha & Hv & Hc). unfold accesses.
  rewrite length_take, length_zip_with. lia.
Qed.

Lemma expand_one_spec b i tp :
  xtrace_op_tp b !! i = Some tp -> tp_ok tp -> room b (length (expand_spec tp)) ->
  exists b', (if memadd_cnt tp =? 0 then xtrm_trace_expand_single_nomem b i
              else expand_mems (Z.to_nat (memadd_cnt tp)) 0 i b) = Some b' /\
    extends b b' (expand_spec tp).
Proof.
  intros Htp Hok Hroom. pose proof (length_accesses tp Hok) as Hlen.
  unfold expand_spec in *. pose proof Hok as (Ha & Hv & Hc).
  destruct (Z.eqb_spec (memadd_cnt tp) 0) as [Hz|Hz].
  - rewrite Hz in Hlen. destruct (accesses tp); [|done].
    unfold xtrm_trace_expand_single_nomem. rewrite Htp. cbn.
    apply put_expanded_extends; [done| |]; unfold room in Hroom; cbn in Hroom; lia.
  - destruct (accesses tp) as [|av l] eqn:E; [cbn in Hlen; lia|].
    rewrite length_fmap, Hlen in Hroom.
    destruct (expand_mems_spec i tp (Z.to_nat (memadd_cnt tp)) 0 b) as (b' & E' & X);
      [done|done|lia|done|].
    exists b'. split; [done|]. change (drop 0 ?l) with l in X.
    fold (accesses tp) in X. by rewrite E in X.
Qed.

Lemma expand_from_spec n i b :
  (i + n <= length (xtrace_op_tp b))%nat ->
  Forall tp_ok (take n (drop i (xtrace_op_tp b))) ->
  room b (length (take n (drop i (xtrace_op_tp b)) ≫= expand_spec)) ->
  exists b', expand_from n i b = Some b' /\
    extends b b' (take n (drop i (xtrace_op_tp b)) ≫= expand_spec).
Proof.
  revert i b. induction n as [|n IH]; intros i b Hlen Hok Hroom; cbn [expand_from].
  - exists b. split; [done|]. apply extends_nil.
  - destruct (lookup_lt_is_Some_2 (xtrace_op_tp b) i ltac:(lia)) as [tp Etp].
    rewrite Etp. cbn [mbind option_bind].
    rewrite (drop_S _ _ _ Etp) in Hok, Hroom |- *. cbn [take] in Hok, Hroom |- *.
    rewrite bind_cons in Hroom |- *. rewrite length_app in Hroom.
    inversion Hok as [|? ? Htp Hrest]; subst.
    destruct (expand_one_spec b i tp Etp Htp) as (b1 & E1 & X1).
    { unfold room in *. lia. }
    rewrite E1. cbn [mbind option_bind].
    pose proof X1 as (Hsame & _).
    destruct (IH (S i) b1) as (b2 & E2 & X2).
    { rewrite Hsame. lia. }
    { by rewrite Hsame. }
    { rewrite Hsame. eapply room_extends; [exact X1|exact Hroom]. }
    exists b2. split; [done|]. rewrite Hsame in X2.
    exact (extends_trans _ _ _ _ _ X1 X2).
Qed.

(** The records of the current block. *)
Definition current_records (b : TraceBuf) : list CPUTracePoint :=
  take (Z.to_nat (xtrace_op_cnt b)) (drop 1 (xtrace_op_tp b)).

(** C2: expansion appends, in program order, one record per memory access of
    each traced instruction (and exactly one for an instruction without
    accesses), carrying the instruction's fields and that access's address and
    value; it succeeds whenever the expanded records fit the buffer, and leaves
    the raw records alone. *)
Theorem xtrm_trace_expand_correct b :
  0 <= xtrace_op_cnt b < Z.of_nat (length (xtrace_op_tp b)) ->
  Forall tp_ok (current_records b) ->
  room b (length (current_records b ≫= expand_spec)) ->
  exists b', xtrm_trace_expand b = Some b' /\
    xtrace_op_tp b' = xtrace_op_tp b /\
    op_cnt b' = op_cnt b + Z.of_nat (length (current_records b ≫= expand_spec)) /\
    views b' = views b ++ (current_records b ≫= expand_spec).
Proof.
  intros Hc Hok Hroom.
  destruct (expand_from_spec (Z.to_nat (xtrace_op_cnt b)) 1 b) as (b' & E & X); [lia|done..|].
  exists b'. destruct X as (H1 & _ & H3 & _ & H5). done.
Qed.

Definition w_common (pc : Z) : TraceCommon :=
  mkTraceCommon pc 1 0 0 0 0 0 0 1 2 16 3 16 0 0 0 0 0.
Definition w_tp (pc n : Z) : CPUTracePoint :=
  mkCPUTracePoint (w_common pc) n n (replicate 16 100) (replicate 16 200) 0
    (replicate 16 16) [] [] [].
Definition w_buf : TraceBuf :=
  mkTraceBuf [w_tp 0 0; w_tp 32768 0; w_tp 32772 3; w_tp 32776 1] 3
    (replicate 8 (mkExpanded (w_common 0) 0 0 0)) 0.

Lemma xtrm_trace_expand_correct_witness :
  exists b', xtrm_trace_expand w_buf = Some b' /\ op_cnt b' = 5.
Proof.
  destruct (xtrm_trace_expand_correct w_buf) as (b' & E & _ & H & _).
  - vm_compute. split; congruence.
  - repeat (constructor; [vm_compute; repeat split; congruence|]). constructor.
  - vm_compute. repeat split; congruence.
  - exists b'. split; [exact E|exact H].
Defined.

(** ** Resetting *)

(** What the code generator relies on: a fresh record names no register, no
    access and no branch. *)
Definition tp_clean (tp : CPUTracePoint) : Prop :=
  tp_pc (tp_common tp) = 0 /\ memadd_cnt tp = 0 /\ memval_cnt tp = 0 /\ is_lsm tp = 0 /\
  is_branch (tp_common tp) = 0 /\
  Forall (fun r => r = INVALID_REG)
    (rn_regn (tp_common tp) :: rm_regn (tp_common tp) :: rs_regn (tp_common tp) ::
     rd_regn (tp_common tp) :: df_regn (tp_common tp) :: lsm_regn tp).

Lemma reset_clean tp : tp_clean (xtrace_reset_trace_point tp).
Proof.
  unfold tp_clean. cbn -[replicate]. repeat (split; [done|]).
  repeat (constructor; [done|]). constructor.
Qed.

Lemma reset_points_spec n i l : (i + n <= length l)%nat ->
  exists l', reset_points n i l = Some l' /\ length l' = length l /\
    forall j, l' !! j = if decide (i <= j < i + n)%nat
                        then xtrace_reset_trace_point <$> l !! j else l !! j.
Proof.
  revert i l. induction n as [|n IH]; intros i l Hlen; cbn [reset_points].
  - exists l. split; [done|]. split; [done|]. intros j. case_decide; [lia|done].
  - destruct (lookup_lt_is_Some_2 l i ltac:(lia)) as [tp Etp]. rewrite Etp.
    cbn [mbind option_bind].
    destruct (IH (S i) (<[i := xtrace_reset_trace_point tp]> l)) as (l' & E & Hl & Hj).
    { rewrite length_insert. lia. }
    exists l'. rewrite length_insert in Hl. split; [done|]. split; [done|].
    intros j. rewrite Hj. case_decide as Ha; case_decide as Hb; try lia; try done.
    + rewrite list_lookup_insert_ne by lia. done.
    + assert (j = i) as -> by lia. rewrite list_lookup_insert_eq, Etp by lia. done.
    + rewrite list_lookup_insert_ne by lia. done.
Qed.

(** Every record past the current ones is clean: the state in which the next
    block starts recording. *)
Definition buf_clean (b : TraceBuf) : Prop :=
  forall j tp, xtrace_op_tp b !! j = Some tp ->
    (Z.to_nat (xtrace_op_cnt b) < j)%nat -> tp_clean tp.

Lemma clean_sanity tp : tp_clean tp -> sanity_regs tp = true.
Proof.
  intros (_ & _ & _ & _ & _ & H). unfold sanity_regs.
  repeat match goal with H : Forall _ (_ :: _) |- _ => inversion H; clear H; subst end.
  repeat match goal with H : _ = INVALID_REG |- _ => rewrite H; clear H end. done.
Qed.

(** After a block is handed over, the reset leaves every record of the
    buffer clean, whatever the block recorded, so the assertions hold again
    and no register or access leaks into the next block's records. *)
Lemma xtrace_reset_restores b :
  0 <= xtrace_op_cnt b < Z.of_nat (length (xtrace_op_tp b)) -> buf_clean b ->
  exists b', xtrace_reset_trace_points b = Some b' /\ xtrace_op_cnt b' = 0 /\
    Forall tp_clean (xtrace_op_tp b') /\ xtrm_trace_sanity_check b' = true.
Proof.
  intros Hc Hclean. unfold xtrace_reset_trace_points.
  destruct (reset_points_spec (S (Z.to_nat (xtrace_op_cnt b))) 0 (xtrace_op_tp b))
    as (l & E & Hlen & Hl); [lia|].
  rewrite E. cbn [mbind option_bind]. eexists. split; [reflexivity|]. cbn [xtrace_op_tp xtrace_op_cnt].
  assert (Forall tp_clean l) as Hall.
  { apply Forall_lookup. intros j tp Hj. rewrite Hl in Hj. case_decide.
    - apply fmap_Some in Hj as (tp' & _ & ->). apply reset_clean.
    - eapply Hclean; [exact Hj|lia]. }
  split; [done|]. split; [done|].
  destruct l as [|tp l]; [cbn in Hlen; lia|].
  unfold xtrm_trace_sanity_check. cbn -[sanity_regs sanity_lsm].
  inversion Hall as [|? ? Htp _]; subst. rewrite clean_sanity by done.
  unfold sanity_lsm. destruct Htp as (_ & _ & _ & -> & _). done.
Qed.

Lemma xtrace_reset_restores_witness :
  exists b', xtrace_reset_trace_points w_buf = Some b' /\ Forall tp_clean (xtrace_op_tp b').
Proof.
  destruct (xtrace_reset_restores w_buf) as (b' & E & _ & H & _).
  - vm_compute. split; congruence.
  - intros j tp Hj Hlt. exfalso. apply lookup_lt_Some in Hj. vm_compute in Hlt, Hj. lia.
  - exists b'. split; [exact E|exact H].
Defined.
