(* ===== verification/TbCache.v ===== *)
(** * The translation-block cache

    Model of the cache of translated blocks: the array [tbs], the physical-pc
    hash table [tb_phys_hash] with its chains through [phys_hash_next], and the
    per-core jump caches ([tb_alloc], [tb_free], [tb_flush], [tb_link_page],
    [tb_gen_code] of src/emul/qemu/exec.c; [tb_find_slow], [tb_find_fast] of
    src/emul/qemu/cpu-exec.c; the hash functions of src/emul/qemu/exec-all.h), in
    the user-mode ARM configuration, where physical and virtual code addresses
    coincide.

    A block pointer is the index of its slot in [tbs]; a chain is the list of
    its blocks from the head.  Direct jumps between blocks and the per-page
    block lists are in TbJumps, TbPages and TbInvalidate, whose lookup refines the
    one of this file.  The check of [tb_flush] that the code buffer has not
    overflowed, which aborts, is left out. *)

From S2P Require Import Prelude.
Open Scope Z_scope.

Definition TARGET_PAGE_BITS : Z := 12.
Definition TARGET_PAGE_SIZE : Z := Z.shiftl 1 TARGET_PAGE_BITS.
Definition TARGET_PAGE_MASK : Z := Z.lnot (TARGET_PAGE_SIZE - 1).
Definition CODE_GEN_PHYS_HASH_SIZE : Z := Z.shiftl 1 15.
Definition CODE_GEN_ALIGN : Z := 16.
Definition TB_JMP_PAGE_BITS : Z := 6.
Definition TB_JMP_ADDR_MASK : Z := 63.
Definition TB_JMP_PAGE_MASK : Z := 4032.
Definition NO_PAGE : Z := 4294967295.

Definition tb_jmp_cache_hash_func (pc : Z) : Z :=
  let tmp := Z.lxor pc (Z.shiftr pc (TARGET_PAGE_BITS - TB_JMP_PAGE_BITS)) in
  Z.lor (Z.land (Z.shiftr tmp (TARGET_PAGE_BITS - TB_JMP_PAGE_BITS)) TB_JMP_PAGE_MASK)
        (Z.land tmp TB_JMP_ADDR_MASK).

Definition tb_phys_hash_func (pc : Z) : Z :=
  Z.land (Z.shiftr pc 2) (CODE_GEN_PHYS_HASH_SIZE - 1).

Record TranslationBlock := mkTB {
  tb_pc : Z; next_pc : Z; cs_base : Z; tb_flags : Z; tb_size : Z; cflags : Z;
  tc_ptr : Z; page_addr0 : Z; page_addr1 : Z; icount : Z
}.

(** What the translator produces for a block. *)
Record Generated := mkGenerated {
  g_size : Z; g_next_pc : Z; g_icount : Z; g_code_size : Z
}.

(** The first address of the kernel's magic page.  The translator ends a block at or
    above it before it reads an instruction (translate.c, [dc->pc >= 0xffff0000]), so
    such a block covers no guest code: its size is zero. *)
Definition MAGIC_PAGE : Z := 4294901760.

(** The guest addresses that hold translatable code. *)
Definition guest_pc (pc : Z) : Prop := in_u 32 pc /\ pc < MAGIC_PAGE.

Lemma guest_pc_u pc : guest_pc pc -> in_u 32 pc.
Proof. by intros []. Qed.
#[export] Hint Resolve guest_pc_u : core.

(** The translator ([cpu_gen_code]), as the cache sees it: a block below the magic page
    covers between one byte and one page of guest code. *)
Class CodeGen := {
  cpu_gen_code : Z -> Z -> Z -> Z -> Generated;
  gen_size_ok : forall pc cs f cf, guest_pc pc ->
    1 <= g_size (cpu_gen_code pc cs f cf) <= TARGET_PAGE_SIZE
}.

Record TbState := mkTbState {
  tbs : list TranslationBlock;
  nb_tbs : nat;
  code_gen_ptr : Z;
  tb_phys_hash : gmap Z (list nat);
  tb_jmp_cache : gmap nat (gmap Z nat);
  tb_invalidated_flag : bool;
  tb_flush_count : Z
}.

Section Code.
Context `{!CodeGen}.
(** The limits of the code buffer, and the cores on the [first_cpu] list. *)
Context (code_gen_buffer_max_size : Z) (cpu_list : list nat).

Definition chain_of (s : TbState) (h : Z) : list nat := default [] (tb_phys_hash s !! h).
Definition jmp_of (s : TbState) (core : nat) : gmap Z nat := default ∅ (tb_jmp_cache s !! core).

Definition set_jmp (s : TbState) (core : nat) (h : Z) (t : nat) : TbState :=
  mkTbState (tbs s) (nb_tbs s) (code_gen_ptr s) (tb_phys_hash s)
    (<[core := <[h := t]> (jmp_of s core)]> (tb_jmp_cache s))
    (tb_invalidated_flag s) (tb_flush_count s).

Definition set_chain (s : TbState) (h : Z) (c : list nat) : TbState :=
  mkTbState (tbs s) (nb_tbs s) (code_gen_ptr s) (<[h := c]> (tb_phys_hash s))
    (tb_jmp_cache s) (tb_invalidated_flag s) (tb_flush_count s).

Definition set_invalidated (s : TbState) (f : bool) : TbState :=
  mkTbState (tbs s) (nb_tbs s) (code_gen_ptr s) (tb_phys_hash s) (tb_jmp_cache s)
    f (tb_flush_count s).

(** [None] is the NULL return: no slot or no code space left.  The slots are the
    [code_gen_max_blocks] elements of [tbs]. *)
Definition tb_alloc (s : TbState) (pc : Z) : option (nat * TbState) :=
  if (length (tbs s) <=? nb_tbs s)%nat || (code_gen_buffer_max_size <=? code_gen_ptr s)
  then None
  else
    tb ← tbs s !! nb_tbs s;
    let tb' := mkTB pc (next_pc tb) (cs_base tb) (tb_flags tb) (tb_size tb) 0 (tc_ptr tb)
                 (page_addr0 tb) (page_addr1 tb) (icount tb) in
    Some (nb_tbs s,
      mkTbState (<[nb_tbs s := tb']> (tbs s)) (S (nb_tbs s)) (code_gen_ptr s)
        (tb_phys_hash s) (tb_jmp_cache s) (tb_invalidated_flag s) (tb_flush_count s)).

Definition tb_free (s : TbState) (t : nat) : TbState :=
  match nb_tbs s, tbs s !! t with
  | S n, Some tb =>
      if decide (t = n) then
        mkTbState (tbs s) n (tc_ptr tb) (tb_phys_hash s) (tb_jmp_cache s)
          (tb_invalidated_flag s) (tb_flush_count s)
      else s
  | _, _ => s
  end.

(** Only the jump caches of the cores on the list are cleared. *)
Definition tb_flush (s : TbState) : TbState :=
  mkTbState (tbs s) 0 0 ∅
    (foldr (fun core m => <[core := ∅]> m) (tb_jmp_cache s) cpu_list)
    (tb_invalidated_flag s) (tb_flush_count s + 1).

Definition tb_link_page (s : TbState) (t : nat) (phys_pc phys_page2 : Z) : option TbState :=
  tb ← tbs s !! t;
  let h := tb_phys_hash_func phys_pc in
  let tb' := mkTB (tb_pc tb) (next_pc tb) (cs_base tb) (tb_flags tb) (tb_size tb) (cflags tb)
               (tc_ptr tb) (Z.land phys_pc TARGET_PAGE_MASK) phys_page2 (icount tb) in
  Some (set_chain
    (mkTbState (<[t := tb']> (tbs s)) (nb_tbs s) (code_gen_ptr s) (tb_phys_hash s)
       (tb_jmp_cache s) (tb_invalidated_flag s) (tb_flush_count s))
    h (t :: chain_of s h)).

(** Filling the slot with the translation; [code_gen_ptr] is aligned up. *)
Definition gen_into (s : TbState) (t : nat) (pc cs flags cf : Z) : TbState :=
  let g := cpu_gen_code pc cs flags cf in
  mkTbState
    (<[t := mkTB pc (g_next_pc g) cs flags (g_size g) cf (code_gen_ptr s) 0 0 (g_icount g)]> (tbs s))
    (nb_tbs s)
    (Z.land (code_gen_ptr s + g_code_size g + CODE_GEN_ALIGN - 1) (Z.lnot (CODE_GEN_ALIGN - 1)))
    (tb_phys_hash s) (tb_jmp_cache s) (tb_invalidated_flag s) (tb_flush_count s).

Definition second_page (pc size : Z) : Z :=
  let virt_page2 := Z.land (uint32_t (pc + size - 1)) TARGET_PAGE_MASK in
  if Z.land pc TARGET_PAGE_MASK =? virt_page2 then NO_PAGE else virt_page2.

(** The allocation is retried once after a flush. *)
Definition tb_gen_code (s : TbState) (pc cs flags cf : Z) : option (nat * TbState) :=
  '(t, s1) ← (match tb_alloc s pc with
              | Some r => Some r
              | None => '(t, s1) ← tb_alloc (tb_flush s) pc; Some (t, set_invalidated s1 true)
              end);
  let s2 := gen_into s1 t pc cs flags cf in
  let size := g_size (cpu_gen_code pc cs flags cf) in
  s3 ← tb_link_page s2 t pc (second_page pc size);
  Some (t, s3).

(** The test of the chain walk. *)
Definition tb_matches (s : TbState) (pc cs flags : Z) (t : nat) : bool :=
  match tbs s !! t with
  | None => false
  | Some tb =>
      (tb_pc tb =? pc) && (page_addr0 tb =? Z.land pc TARGET_PAGE_MASK) &&
      (cs_base tb =? cs) && (tb_flags tb =? flags) &&
      ((page_addr1 tb =? NO_PAGE) ||
       (page_addr1 tb =? uint32_t (Z.land pc TARGET_PAGE_MASK + TARGET_PAGE_SIZE)))
  end.

(** The walk: the blocks before the hit, the hit, the blocks after it. *)
Fixpoint chain_search (p : nat -> bool) (c : list nat) : option (list nat * nat * list nat) :=
  match c with
  | [] => None
  | t :: c' =>
      if p t then Some ([], t, c')
      else '(pre, u, post) ← chain_search p c'; Some (t :: pre, u, post)
  end.

(** A hit is unlinked and moved to the head.  After a miss [ptb1] is the NULL link
    at the end of the old chain, unless the chain was empty: then it is the head,
    which now holds the new block, and moving that block to the head changes
    nothing. *)
Definition tb_find_slow (s : TbState) (core : nat) (pc cs flags : Z) : option (nat * TbState) :=
  let s0 := set_invalidated s false in
  let h := tb_phys_hash_func pc in
  '(t, s1) ← (match chain_search (tb_matches s0 pc cs flags) (chain_of s0 h) with
              | Some (pre, t, post) => Some (t, set_chain s0 h (t :: pre ++ post))
              | None => tb_gen_code s0 pc cs flags 0
              end);
  Some (t, set_jmp s1 core (tb_jmp_cache_hash_func pc) t).

Definition jmp_hit (s : TbState) (core : nat) (pc cs flags : Z) : option nat :=
  t ← jmp_of s core !! tb_jmp_cache_hash_func pc;
  tb ← tbs s !! t;
  if (tb_pc tb =? pc) && (cs_base tb =? cs) && (tb_flags tb =? flags) then Some t else None.

Definition tb_find_fast (s : TbState) (core : nat) (pc cs flags : Z) : option (nat * TbState) :=
  match jmp_hit s core pc cs flags with
  | Some t => Some (t, s)
  | None => tb_find_slow s core pc cs flags
  end.

(** ** The invariant *)

Definition key_of (s : TbState) (t : nat) : option (Z * Z * Z) :=
  (fun tb => (tb_pc tb, cs_base tb, tb_flags tb)) <$> tbs s !! t.

(** A live block: its slot is in use and it was linked for its own pc. *)
Definition tb_live (s : TbState) (h : Z) (t : nat) : Prop :=
  (t < nb_tbs s)%nat /\ exists tb, tbs s !! t = Some tb /\
    tb_phys_hash_func (tb_pc tb) = h /\ guest_pc (tb_pc tb) /\
    page_addr0 tb = Z.land (tb_pc tb) TARGET_PAGE_MASK /\
    (page_addr1 tb = NO_PAGE \/
     page_addr1 tb = uint32_t (Z.land (tb_pc tb) TARGET_PAGE_MASK + TARGET_PAGE_SIZE)).

Record tb_wf (s : TbState) : Prop := {
  wf_chain : forall h, NoDup (key_of s <$> chain_of s h) /\ Forall (tb_live s h) (chain_of s h);
  wf_jmp : forall core h t, jmp_of s core !! h = Some t -> core ∈ cpu_list ->
    exists k, key_of s t = Some k /\ t ∈ chain_of s (tb_phys_hash_func k.1.1);
  wf_nb : (nb_tbs s <= length (tbs s))%nat
}.

(** The contents of the cache: the keys with a linked block. *)
Definition cached (s : TbState) (k : Z * Z * Z) : Prop :=
  exists t, t ∈ chain_of s (tb_phys_hash_func k.1.1) /\ key_of s t = Some k.

(** ** Lemmas *)

Lemma chain_search_Some p c pre t post : chain_search p c = Some (pre, t, post) ->
  c = pre ++ t :: post /\ p t = true.
Proof.
  revert pre. induction c as [|u c IH]; intros pre; cbn; [done|].
  destruct (p u) eqn:E.
  - intros [= <- <- <-]. done.
  - destruct (chain_search p c) as [[[pre' u'] post']|]; cbn; [|done].
    intros [= <- <- <-]. destruct (IH pre' eq_refl) as [-> ?]. done.
Qed.

Lemma chain_search_None p c : chain_search p c = None -> Forall (fun u => p u = false) c.
Proof.
  induction c as [|u c IH]; cbn; [constructor|].
  destruct (p u) eqn:E; [done|].
  destruct (chain_search p c) as [[[pre' u'] post']|]; cbn; [done|].
  intros _. constructor; [done|by apply IH].
Qed.

(** On linked blocks the walk's test is equality of keys. *)
Lemma tb_matches_live s h t pc cs flags : tb_live s h t ->
  tb_matches s pc cs flags t = true <-> key_of s t = Some (pc, cs, flags).
Proof.
  intros (_ & tb & Htb & _ & _ & H0 & H1). unfold tb_matches, key_of. rewrite Htb. cbn.
  rewrite !andb_true_iff, orb_true_iff, !Z.eqb_eq.
  split; [naive_solver|]. intros [= <- <- <-]. done.
Qed.

Lemma chain_of_set_chain s h c h' :
  chain_of (set_chain s h c) h' = if decide (h = h') then c else chain_of s h'.
Proof. unfold chain_of. cbn. rewrite lookup_insert. by case_decide. Qed.

Lemma jmp_of_set_jmp s core h t core' h' :
  jmp_of (set_jmp s core h t) core' !! h' =
  if decide (core = core' /\ h = h') then Some t else jmp_of s core' !! h'.
Proof.
  unfold jmp_of. cbn. rewrite lookup_insert. case_decide as Hc; cbn.
  - subst core'. rewrite lookup_insert. case_decide; case_decide; naive_solver.
  - case_decide; naive_solver.
Qed.

Lemma cached_search s pc cs flags : tb_wf s ->
  chain_search (tb_matches s pc cs flags) (chain_of s (tb_phys_hash_func pc)) = None ->
  ~ cached s (pc, cs, flags).
Proof.
  intros Hwf E (t & Ht & Hk). cbn in Ht.
  apply chain_search_None in E. rewrite Forall_forall in E. specialize (E t Ht).
  destruct (wf_chain s Hwf (tb_phys_hash_func pc)) as [_ Hl].
  rewrite Forall_forall in Hl. specialize (Hl t Ht).
  apply (tb_matches_live _ _ _ pc cs flags Hl) in Hk. congruence.
Qed.

(** The page test of the chain walk recognises what [tb_gen_code] records. *)
Lemma second_page_ok pc size : in_u 32 pc -> 1 <= size <= TARGET_PAGE_SIZE ->
  second_page pc size = NO_PAGE \/
  second_page pc size = uint32_t (Z.land pc TARGET_PAGE_MASK + TARGET_PAGE_SIZE).
Proof.
  intros Hpc Hs. unfold second_page.
  change TARGET_PAGE_SIZE with 4096 in *.
  assert (forall x, Z.land x TARGET_PAGE_MASK = x - x mod 4096) as Hm.
  { intros x. change TARGET_PAGE_MASK with (Z.lnot (Z.ones 12)).
    rewrite <- Z.ldiff_land, Z.ldiff_ones_r by lia.
    rewrite Z.shiftl_mul_pow2, Z.shiftr_div_pow2 by lia.
    pose proof (Z.div_mod x (2 ^ 12)). change (2 ^ 12) with 4096 in *. lia. }
  rewrite !Hm. destruct (Z.eqb_spec (pc - pc mod 4096)
    (uint32_t (pc + size - 1) - uint32_t (pc + size - 1) mod 4096)) as [|Hne]; [by left|].
  right. cint.
Qed.

(** A block of size zero at the start of a page of the magic range is recorded as ending
    on the page below, which the chain walk, looking for the page above, never accepts: such
    a block is translated again at every miss of the jump cache. *)
Example magic_page_second :
  second_page MAGIC_PAGE 0 = MAGIC_PAGE - TARGET_PAGE_SIZE /\
  second_page MAGIC_PAGE 0 <> NO_PAGE /\
  second_page MAGIC_PAGE 0 <> uint32_t (Z.land MAGIC_PAGE TARGET_PAGE_MASK + TARGET_PAGE_SIZE).
Proof. vm_compute. repeat split; congruence. Qed.

Lemma tb_flush_wf s : tb_wf (tb_flush s).
Proof.
  split; [| |cbn; lia].
  - intros h. unfold chain_of. cbn. rewrite lookup_empty. split; constructor.
  - intros core h t Hj Hin. exfalso. unfold jmp_of in Hj. cbn in Hj. revert Hj.
    induction cpu_list as [|c l IH]; cbn; [by apply not_elem_of_nil in Hin|].
    rewrite lookup_insert. case_decide; cbn; [by rewrite lookup_empty|].
    apply IH. by apply elem_of_cons in Hin as [->|].
Qed.

(** ** Linking a new block *)

(** The whole of [tb_gen_code] after the allocation. *)
Definition link_new (s1 : TbState) (t : nat) (pc cs flags cf : Z) : option TbState :=
  tb_link_page (gen_into s1 t pc cs flags cf) t pc
    (second_page pc (g_size (cpu_gen_code pc cs flags cf))).

Lemma tb_alloc_Some s pc t s1 : tb_alloc s pc = Some (t, s1) ->
  t = nb_tbs s /\ (t < length (tbs s))%nat /\ nb_tbs s1 = S t /\
  length (tbs s1) = length (tbs s) /\ (forall u, u <> t -> tbs s1 !! u = tbs s !! u) /\
  tb_phys_hash s1 = tb_phys_hash s /\ tb_jmp_cache s1 = tb_jmp_cache s.
Proof.
  unfold tb_alloc. destruct (Nat.leb_spec (length (tbs s)) (nb_tbs s)); cbn; [done|].
  destruct (code_gen_buffer_max_size <=? code_gen_ptr s); [done|].
  destruct (tbs s !! nb_tbs s) as [tb|] eqn:E; cbn; [|done].
  intros [= <- <-]. cbn. rewrite length_insert. split_and!; try done.
  intros u Hu. by rewrite list_lookup_insert_ne.
Qed.

Lemma link_new_spec s t s1 pc cs flags cf : tb_alloc s pc = Some (t, s1) ->
  exists s3 tb, link_new s1 t pc cs flags cf = Some s3 /\
    nb_tbs s3 = S t /\ length (tbs s3) = length (tbs s) /\
    (forall u, tbs s3 !! u = if decide (u = t) then Some tb else tbs s !! u) /\
    (forall h, chain_of s3 h = if decide (h = tb_phys_hash_func pc)
                               then t :: chain_of s h else chain_of s h) /\
    (forall core, jmp_of s3 core = jmp_of s core) /\
    tb_pc tb = pc /\ cs_base tb = cs /\ tb_flags tb = flags /\
    page_addr0 tb = Z.land pc TARGET_PAGE_MASK /\
    page_addr1 tb = second_page pc (g_size (cpu_gen_code pc cs flags cf)).
Proof.
  intros Ha. apply tb_alloc_Some in Ha as (-> & Hlt & Hnb & Hlen & Hother & Hh & Hj).
  unfold link_new, tb_link_page. cbn [tbs gen_into].
  rewrite list_lookup_insert_eq by lia. cbn [mbind option_bind].
  eexists _, _. split; [reflexivity|]. cbn.
  rewrite !length_insert. split_and!; try done.
  - intros u. rewrite list_insert_insert_eq, list_lookup_insert.
    case_decide; case_decide; try naive_solver lia.
  - intros h. rewrite chain_of_set_chain. unfold chain_of. cbn. rewrite Hh.
    by repeat case_decide; subst.
  - intros core. unfold jmp_of. cbn. by rewrite Hj.
  - done.
  - done.
  - done.
  - done.
  - done.
Qed.

Lemma link_new_wf s t s1 s3 pc cs flags cf : tb_wf s -> guest_pc pc ->
  ~ cached s (pc, cs, flags) -> tb_alloc s pc = Some (t, s1) ->
  link_new s1 t pc cs flags cf = Some s3 ->
  tb_wf s3 /\ key_of s3 t = Some (pc, cs, flags) /\ t ∈ chain_of s3 (tb_phys_hash_func pc) /\
  (forall k, cached s3 k <-> k = (pc, cs, flags) \/ cached s k).
Proof.
  intros Hwf Hpc Hnew Ha El. pose proof (tb_alloc_Some _ _ _ _ Ha) as (Ht & Hlt & _).
  destruct (link_new_spec s t s1 pc cs flags cf Ha)
    as (s3' & tb & El' & Hnb & Hlen & Htbs & Hch & Hj & Kp & Kc & Kf & P0 & P1).
  rewrite El in El'. injection El' as <-.
  assert (forall h u, u ∈ chain_of s h -> u <> t) as Hfresh.
  { intros h u Hu ->. destruct (wf_chain s Hwf h) as [_ Hl]. rewrite Forall_forall in Hl.
    destruct (Hl t Hu) as [? _]. lia. }
  assert (forall u, u <> t -> key_of s3 u = key_of s u) as Hkey.
  { intros u Hu. unfold key_of. rewrite Htbs. by case_decide. }
  assert (key_of s3 t = Some (pc, cs, flags)) as Hkt.
  { unfold key_of. rewrite Htbs. case_decide; [|done]. cbn. by rewrite Kp, Kc, Kf. }
  assert (forall h, key_of s3 <$> chain_of s h = key_of s <$> chain_of s h) as Hmap.
  { intros h. apply list_fmap_ext. intros i u Hu. apply Hkey.
    apply list_elem_of_lookup_2 in Hu. by eapply Hfresh. }
  assert (forall h u, tb_live s h u -> u <> t -> tb_live s3 h u) as Hlive.
  { intros h u (Hu & tbu & Htbu & Hrest) Hne. split; [lia|]. exists tbu.
    rewrite Htbs. by case_decide. }
  assert (t ∈ chain_of s3 (tb_phys_hash_func pc)) as Hin.
  { rewrite Hch. case_decide; [|done]. apply list_elem_of_here. }
  split; [|split; [done|split; [done|]]].
  - split.
    + intros h. rewrite Hch. destruct (wf_chain s Hwf h) as [Hnd Hl].
      assert (Forall (tb_live s3 h) (chain_of s h)) as Hl'.
      { rewrite Forall_forall in Hl |- *. intros u Hu. by eauto. }
      case_decide as Hh; [|by rewrite Hmap].
      rewrite fmap_cons, Hkt, Hmap. split.
      * apply NoDup_cons. split; [|done]. intros Hk. apply Hnew.
        apply list_elem_of_fmap in Hk as (u & Hu & Huc). exists u. cbn. by subst h.
      * constructor; [|done]. split; [lia|]. exists tb. rewrite Htbs. case_decide; [|done].
        rewrite Kp, P0, P1. split_and!; try done.
        apply second_page_ok; [auto|]. by apply gen_size_ok.
    + intros core h u Hu Hc. rewrite Hj in Hu.
      destruct (wf_jmp s Hwf core h u Hu Hc) as (k & Hk & Huc). exists k.
      rewrite Hkey by eauto. split; [done|]. rewrite Hch. case_decide; [|done].
      by apply list_elem_of_further.
    + lia.
  - intros k. split.
    + intros (u & Hu & Hk). rewrite Hch in Hu. destruct (decide (u = t)) as [->|Hne].
      * left. congruence.
      * right. exists u. rewrite Hkey in Hk by done. split; [|done].
        case_decide; [|done]. by apply elem_of_cons in Hu as [|].
    + intros [->|(u & Hu & Hk)].
      * by exists t.
      * exists u. rewrite Hkey by eauto. split; [|done]. rewrite Hch.
        case_decide; [|done]. by apply list_elem_of_further.
Qed.

Lemma set_invalidated_wf s f : tb_wf s -> tb_wf (set_invalidated s f).
Proof. intros [H1 H2 H3]. by split. Qed.

Lemma tb_alloc_after_flush s pc : (0 < length (tbs s))%nat -> 0 < code_gen_buffer_max_size ->
  exists r, tb_alloc (tb_flush s) pc = Some r.
Proof.
  intros Hl Hc. unfold tb_alloc. cbn [tbs nb_tbs code_gen_ptr tb_flush].
  destruct (Nat.leb_spec (length (tbs s)) 0); [lia|].
  destruct (Z.leb_spec code_gen_buffer_max_size 0); [lia|]. cbn.
  destruct (lookup_lt_is_Some_2 (tbs s) 0 Hl) as [tb ->]. by eexists.
Qed.

(** [found_for s s' t k]: block [t] of [s'] is a linked block for key [k], and the
    cache holds what it held, or was flushed, plus [k]. *)
Definition found_for (s s' : TbState) (t : nat) (k : Z * Z * Z) : Prop :=
  tb_wf s' /\ key_of s' t = Some k /\ t ∈ chain_of s' (tb_phys_hash_func k.1.1) /\
  ((forall k', cached s' k' <-> k' = k \/ cached s k') \/
   (tb_invalidated_flag s' = true /\ forall k', cached s' k' <-> k' = k)).

Lemma tb_gen_code_spec s pc cs flags cf : tb_wf s -> guest_pc pc ->
  ~ cached s (pc, cs, flags) -> (0 < length (tbs s))%nat -> 0 < code_gen_buffer_max_size ->
  exists t s', tb_gen_code s pc cs flags cf = Some (t, s') /\
    found_for s s' t (pc, cs, flags).
Proof.
  intros Hwf Hpc Hnew Hl Hc. unfold tb_gen_code.
  destruct (tb_alloc s pc) as [[t s1]|] eqn:Ha; cbn [mbind option_bind].
  - destruct (link_new_spec s t s1 pc cs flags cf Ha) as (s3 & _ & El & _).
    destruct (link_new_wf s t s1 s3 pc cs flags cf Hwf Hpc Hnew Ha El) as (W & K & I & C).
    unfold link_new in El. rewrite El. cbn. exists t, s3. split; [done|].
    split; [done|]. split; [done|]. split; [done|]. by left.
  - destruct (tb_alloc_after_flush s pc Hl Hc) as [[t s1] Hf]. rewrite Hf. cbn [mbind option_bind].
    assert (forall k, ~ cached (tb_flush s) k) as Hempty.
    { intros k (u & Hu & _). unfold chain_of in Hu. cbn in Hu. rewrite lookup_empty in Hu.
      by apply not_elem_of_nil in Hu. }
    destruct (link_new_spec (tb_flush s) t s1 pc cs flags cf Hf) as (s3 & _ & El & _).
    destruct (link_new_wf (tb_flush s) t s1 s3 pc cs flags cf (tb_flush_wf s) Hpc
      (Hempty _) Hf El) as (W & K & I & C).
    assert (link_new (set_invalidated s1 true) t pc cs flags cf = Some (set_invalidated s3 true))
      as El'.
    { revert El. unfold link_new, tb_link_page, gen_into. cbn.
      destruct (_ !! t) as [tb|]; cbn; [|done]. by intros [= <-]. }
    unfold link_new in El'. rewrite El'. cbn. exists t, (set_invalidated s3 true).
    split; [done|]. split; [by apply set_invalidated_wf|]. split; [done|]. split; [done|].
    right. split; [done|]. intros k. transitivity (cached s3 k); [done|]. rewrite C.
    split; [|by left]. intros [->|Hk]; [done|]. by apply Hempty in Hk.
Qed.

(** A chain hit only permutes the chain. *)
Lemma chain_hit_spec s pc cs flags pre t post : tb_wf s ->
  chain_search (tb_matches s pc cs flags) (chain_of s (tb_phys_hash_func pc))
    = Some (pre, t, post) ->
  found_for s (set_chain s (tb_phys_hash_func pc) (t :: pre ++ post)) t (pc, cs, flags).
Proof.
  intros Hwf E. apply chain_search_Some in E as [Hc Hm].
  set (h := tb_phys_hash_func pc) in *.
  set (s' := set_chain s h (t :: pre ++ post)).
  assert (forall h', chain_of s' h' ≡ₚ chain_of s h') as Hperm.
  { intros h'. unfold s'. rewrite chain_of_set_chain. case_decide; [|done]. subst h'.
    rewrite Hc. by rewrite Permutation_middle. }
  assert (t ∈ chain_of s h) as Hin by (rewrite Hc; set_solver).
  assert (tb_live s h t) as Hlive.
  { destruct (wf_chain s Hwf h) as [_ Hl]. rewrite Forall_forall in Hl. by apply Hl. }
  assert (key_of s t = Some (pc, cs, flags)) as Hk by (by apply (tb_matches_live s h)).
  split; [|split; [done|split]].
  - split.
    + intros h'. destruct (wf_chain s Hwf h') as [Hnd Hl].
      change (key_of s') with (key_of s). change (tb_live s') with (tb_live s).
      by rewrite (Hperm h').
    + intros core h' u Hu Hcore. destruct (wf_jmp s Hwf core h' u Hu Hcore) as (k & ? & ?).
      exists k. by rewrite (Hperm _).
    + apply (wf_nb s Hwf).
  - change (t ∈ chain_of s' h). by rewrite (Hperm h).
  - left. intros k. assert (cached s' k <-> cached s k) as ->.
    { unfold cached. setoid_rewrite Hperm. done. }
    split; [by right|]. intros [->|?]; [|done]. by exists t.
Qed.

Lemma set_jmp_wf s core pc cs flags t h : tb_wf s -> key_of s t = Some (pc, cs, flags) ->
  t ∈ chain_of s (tb_phys_hash_func pc) -> tb_wf (set_jmp s core h t).
Proof.
  intros [H1 H2 H3] Hk Hin. split; [done| |done].
  intros c h' u Hu Hc. rewrite jmp_of_set_jmp in Hu. case_decide.
  - injection Hu as <-. by exists (pc, cs, flags).
  - by eapply H2.
Qed.

(** In a well-formed cache a lookup succeeds and returns a linked block
    translated for exactly the requested pc, cs_base and flags; the cache stays
    well formed, keeps all its other blocks (or has been flushed, with
    [tb_invalidated_flag] set, holding only the new one), and looking the same
    key up again is a jump-cache hit that changes nothing. *)
Lemma tb_find_fast_correct s core pc cs flags :
  tb_wf s -> core ∈ cpu_list -> guest_pc pc ->
  (0 < length (tbs s))%nat -> 0 < code_gen_buffer_max_size ->
  exists t s', tb_find_fast s core pc cs flags = Some (t, s') /\
    found_for s s' t (pc, cs, flags) /\
    jmp_hit s' core pc cs flags = Some t.
Proof.
  intros Hwf Hcore Hpc Hl Hc. unfold tb_find_fast at 1.
  destruct (jmp_hit s core pc cs flags) as [t|] eqn:Ej.
  - exists t, s. split; [done|]. split; [|done].
    unfold jmp_hit in Ej. apply bind_Some in Ej as (u & Hu & Ej).
    apply bind_Some in Ej as (tb & Htb & Ej).
    destruct (_ && _) eqn:Eb in Ej; [|done]. injection Ej as <-.
    rewrite !andb_true_iff, !Z.eqb_eq in Eb. destruct Eb as [[<- <-] <-].
    destruct (wf_jmp s Hwf core _ _ Hu Hcore) as (k & Hk & Hin).
    assert (k = (tb_pc tb, cs_base tb, tb_flags tb)) as ->.
    { unfold key_of in Hk. rewrite Htb in Hk. by injection Hk as <-. }
    split; [done|]. split; [done|]. split; [done|]. left. intros k.
    split; [by right|]. intros [->|?]; [by exists u|done].
  - unfold tb_find_slow. pose proof (set_invalidated_wf s false Hwf) as Hwf0.
    set (s0 := set_invalidated s false) in *.
    assert (exists t s1, (match chain_search (tb_matches s0 pc cs flags)
                  (chain_of s0 (tb_phys_hash_func pc)) with
              | Some (pre, t, post) =>
                  Some (t, set_chain s0 (tb_phys_hash_func pc) (t :: pre ++ post))
              | None => tb_gen_code s0 pc cs flags 0
              end) = Some (t, s1) /\ found_for s s1 t (pc, cs, flags)) as (t & s1 & E & F).
    { destruct (chain_search _ _) as [[[pre t] post]|] eqn:E.
      - eexists _, _. split; [done|]. exact (chain_hit_spec s0 _ _ _ _ _ _ Hwf0 E).
      - exact (tb_gen_code_spec s0 _ _ _ _ Hwf0 Hpc (cached_search _ _ _ _ Hwf0 E) Hl Hc). }
    rewrite E. cbn [mbind option_bind]. eexists _, _. split; [reflexivity|].
    destruct F as (W & K & I & C). split.
    + split; [by eapply set_jmp_wf|]. done.
    + unfold jmp_hit. rewrite jmp_of_set_jmp. rewrite decide_True by done.
      cbn [mbind option_bind tbs set_jmp]. unfold key_of in K.
      destruct (tbs s1 !! t) as [tb|]; [|done]. cbn in K |- *.
      injection K as -> -> ->. by rewrite !Z.eqb_refl.
Qed.

(** Flushing the buffer (which a lookup by either core does when space runs
    out) leaves the jump cache of a core that is not on the [first_cpu] list
    untouched: such a core goes on hitting blocks whose slots are no longer
    allocated. *)
Lemma tb_flush_unlisted_stale s core pc cs flags t :
  core ∉ cpu_list -> jmp_hit s core pc cs flags = Some t ->
  tb_find_fast (tb_flush s) core pc cs flags = Some (t, tb_flush s) /\
  (nb_tbs (tb_flush s) <= t)%nat /\ ~ cached (tb_flush s) (pc, cs, flags).
Proof.
  intros Hc Hj. split; [|split; [cbn; lia|]].
  - unfold tb_find_fast.
    assert (jmp_hit (tb_flush s) core pc cs flags = jmp_hit s core pc cs flags) as ->; [|by rewrite Hj].
    unfold jmp_hit. cbn [tbs tb_flush].
    assert (jmp_of (tb_flush s) core = jmp_of s core) as ->; [|done].
    unfold jmp_of. cbn. clear Hj. induction cpu_list as [|c l IH]; cbn; [done|].
    rewrite lookup_insert_ne by set_solver. apply IH. set_solver.
  - intros (u & Hu & _). unfold chain_of in Hu. cbn in Hu. rewrite lookup_empty in Hu.
    by apply not_elem_of_nil in Hu.
Qed.

End Code.

#[local] Instance w_gen : CodeGen.
Proof.
  refine {| cpu_gen_code := fun pc _ _ _ =>
    mkGenerated (if pc <? MAGIC_PAGE then 4 else 0) (pc + 4) 1 40 |}.
  intros pc cs f cf [_ H]. cbn. rewrite (proj2 (Z.ltb_lt _ _) H). vm_compute. split; congruence.
Defined.

Definition w_tb : TranslationBlock := mkTB 0 0 0 0 0 0 0 0 0 0.
Definition w_cache : TbState := mkTbState (replicate 4 w_tb) 0 0 ∅ ∅ false 0.

Lemma w_cache_wf : tb_wf [0%nat] w_cache.
Proof.
  split; [| |cbn; lia].
  - intros h. unfold chain_of. cbn. rewrite lookup_empty. split; constructor.
  - intros core h t Ht. unfold jmp_of in Ht. cbn in Ht. rewrite lookup_empty in Ht. done.
Defined.

Lemma tb_find_fast_correct_witness :
  exists t s', tb_find_fast 100 [0%nat] w_cache 0 32768 0 1 = Some (t, s') /\
    key_of s' t = Some (32768, 0, 1).
Proof.
  destruct (tb_find_fast_correct 100 [0%nat] w_cache 0 32768 0 1) as (t & s' & E & F & _).
  - exact w_cache_wf.
  - apply list_elem_of_here.
  - split; [cint|reflexivity].
  - cbn. lia.
  - lia.
  - exists t, s'. split; [exact E|]. exact (proj1 (proj2 F)).
Defined.

(** The same cache after the prefetch core, core 1, has looked a block up. *)
Definition w_cache1 : TbState :=
  match tb_find_fast 100 [0%nat] w_cache 1 32768 0 1 with
  | Some (_, s) => s
  | None => w_cache
  end.

Lemma tb_flush_unlisted_stale_witness :
  tb_find_fast 100 [0%nat] (tb_flush [0%nat] w_cache1) 1 32768 0 1
    = Some (0%nat, tb_flush [0%nat] w_cache1).
Proof.
  refine (proj1 (tb_flush_unlisted_stale 100 [0%nat] w_cache1 1 32768 0 1 0%nat _ _)).
  - set_solver.
  - vm_compute. reflexivity.
Defined.
