(* ===== verification/TbLists.v ===== *)
(** * Intrusive lists with tagged pointers

    Blocks are linked through arrays of their own: [page_next[2]] for the blocks of a page
    and [jmp_next[2]] for the jumps to a block (struct TranslationBlock of
    src/emul/qemu/exec-all.h).  A pointer of such a list carries in its two low bits which
    element of the array of the block it points to continues the list; the value 2 leads
    back to the head of a circular list.

    A [cell] is such a pointer: a block and its tag.  NULL is [None].  The segment
    predicate [lseg] describes a list from a pointer to a pointer. *)

From S2P Require Import Prelude.
Open Scope nat_scope.

Notation cell := (nat * nat)%type (only parsing).

(** The list of cells from the pointer [p] up to the pointer [q]; [nx] holds the links of one
    of the arrays, and an absent cell holds NULL. *)
Fixpoint lseg (nx : gmap cell cell) (p : option cell) (l : list cell) (q : option cell) : Prop :=
  match l with
  | [] => p = q
  | c :: l => p = Some c /\ c.2 < 2 /\ lseg nx (nx !! c) l q
  end.

(** Where a list ends: at NULL, or at the pointer back to its head. *)
Definition stop (q : option cell) : Prop := match q with None => True | Some c => c.2 = 2 end.

(** Assignment of a pointer to a cell. *)
Definition set_link (nx : gmap cell cell) (c : cell) (v : option cell) : gmap cell cell := partial_alter (fun _ => v) c nx.

Lemma set_link_eq nx c v : set_link nx c v !! c = v.
Proof. apply lookup_partial_alter_eq. Qed.

Lemma set_link_ne nx c d v : c <> d -> set_link nx c v !! d = nx !! d.
Proof. apply lookup_partial_alter_ne. Qed.

Lemma lseg_app nx p l1 l2 q : lseg nx p (l1 ++ l2) q <-> exists m, lseg nx p l1 m /\ lseg nx m l2 q.
Proof.
  revert p. induction l1 as [|c l1 IH]; intros p; cbn.
  - split; [intros H; by exists p|]. intros (m & -> & H). done.
  - rewrite IH. naive_solver.
Qed.

Lemma lseg_frame nx nx' p l q : (forall c, c ∈ l -> nx' !! c = nx !! c) -> lseg nx p l q -> lseg nx' p l q.
Proof.
  revert p. induction l as [|c l IH]; intros p Hc; cbn; [done|]. intros (-> & Ht & H).
  split_and!; try done. rewrite Hc by set_solver. apply IH; [|done]. set_solver.
Qed.

Lemma lseg_tag nx p l q c : lseg nx p l q -> c ∈ l -> c.2 < 2.
Proof.
  revert p. induction l as [|d l IH]; intros p; cbn; [set_solver|]. intros (-> & Ht & H) Hc.
  apply elem_of_cons in Hc as [->|]; eauto.
Qed.

Lemma lseg_det nx p l q l' q' : stop q -> stop q' -> lseg nx p l q -> lseg nx p l' q' -> l = l' /\ q = q'.
Proof.
  intros Hq Hq'. revert p l'. induction l as [|c l IH]; intros p l'; destruct l' as [|c' l']; cbn.
  - intros -> ->. done.
  - intros -> (-> & Ht & _). cbn in Hq. lia.
  - intros (-> & Ht & _) <-. cbn in Hq'. lia.
  - intros (-> & Ht & H) ([= <-] & _ & H'). destruct (IH _ _ H H') as [-> ->]. done.
Qed.

Lemma lseg_tail nx p l c q : lseg nx p l q -> c ∈ l -> exists l1 l2, l = l1 ++ c :: l2 /\ lseg nx p l1 (Some c) /\ lseg nx (nx !! c) l2 q.
Proof.
  intros H Hc. apply list_elem_of_split in Hc as (l1 & l2 & ->).
  exists l1, l2. split; [done|]. apply lseg_app in H as (m & H1 & H2). cbn in H2.
  destruct H2 as (-> & _ & H2). done.
Qed.

(** A list that ends does not visit a cell twice. *)
Lemma lseg_NoDup nx p l q : stop q -> lseg nx p l q -> NoDup l.
Proof.
  intros Hq. revert p. induction l as [|c l IH]; intros p; cbn; [constructor|].
  intros (-> & Ht & H). constructor; [|by eapply IH].
  intros Hc. destruct (lseg_tail _ _ _ _ _ H Hc) as (l1 & l2 & E & _ & H2).
  destruct (lseg_det _ _ _ _ _ _ Hq Hq H H2) as [E' _].
  apply (f_equal length) in E'. rewrite E in E'. rewrite length_app in E'. cbn in E'. lia.
Qed.

(** A cell leads to one end only. *)
Lemma lseg_same_end nx p l q p' l' q' c : stop q -> stop q' -> lseg nx p l q -> lseg nx p' l' q' ->
  c ∈ l -> c ∈ l' -> q = q'.
Proof.
  intros Hq Hq' H H' Hc Hc'.
  destruct (lseg_tail _ _ _ _ _ H Hc) as (l1 & l2 & _ & _ & H2).
  destruct (lseg_tail _ _ _ _ _ H' Hc') as (l1' & l2' & _ & _ & H2').
  by destruct (lseg_det _ _ _ _ _ _ Hq Hq' H2 H2').
Qed.

Lemma lseg_next nx p l q c : lseg nx p l q -> c ∈ l -> q <> None -> is_Some (nx !! c).
Proof.
  intros H Hc Hq. destruct (lseg_tail _ _ _ _ _ H Hc) as (l1 & l2 & _ & _ & H2).
  destruct l2 as [|d l2]; cbn in H2.
  - rewrite H2. by destruct q.
  - destruct H2 as (-> & _). done.
Qed.

(** The number of steps a walk needs. *)
Lemma lseg_length nx p l q : stop q -> lseg nx p l q -> length l <= S (size nx).
Proof.
  intros Hq H. destruct l as [|c l _] using rev_ind; [cbn; lia|].
  rewrite length_app. cbn. enough (length l <= size nx) by lia.
  pose proof (lseg_NoDup _ _ _ _ Hq H) as Hnd. apply NoDup_app in Hnd as (Hnd & _ & _).
  apply lseg_app in H as (m & H & H2). cbn in H2. destruct H2 as (-> & _).
  rewrite <- (size_dom (D := gset cell)), <- (size_list_to_set (C := gset cell) l Hnd).
  apply subseteq_size. intros d Hd. apply elem_of_list_to_set in Hd. apply elem_of_dom.
  apply (lseg_next _ _ _ _ _ H Hd). done.
Qed.

(** Taking a cell out: the pointer before it, in the head or in the last cell before,
    is set to its successor. *)
Lemma lseg_remove_first nx p c l2 q : lseg nx p (c :: l2) q -> lseg nx (nx !! c) l2 q.
Proof. by intros (_ & _ & H). Qed.

Lemma lseg_remove_next nx p l1 d c l2 q : stop q -> lseg nx p (l1 ++ d :: c :: l2) q ->
  lseg (set_link nx d (nx !! c)) p (l1 ++ d :: l2) q.
Proof.
  intros Hq H. pose proof (lseg_NoDup _ _ _ _ Hq H) as Hnd.
  apply NoDup_app in Hnd as (_ & Hx & Hnd). apply NoDup_cons in Hnd as [Hd Hnd].
  apply lseg_app in H as (m & H1 & H2). cbn in H2. destruct H2 as (-> & Htd & Hnx & Htc & H2).
  apply lseg_app. exists (Some d). split.
  - eapply lseg_frame; [|exact H1]. intros e He. apply set_link_ne. intros <-.
    apply (Hx d He). set_solver.
  - cbn. split_and!; [done|done|]. rewrite set_link_eq.
    eapply lseg_frame; [|exact H2]. intros e He. apply set_link_ne. intros <-. set_solver.
Qed.

(** A list without a cell. *)
Definition drop_cell (c : cell) (l : list cell) : list cell := filter (fun d => d <> c) l.

Lemma drop_cell_none c l : c ∉ l -> drop_cell c l = l.
Proof.
  unfold drop_cell. induction l as [|d l IH]; [done|]. intros Hc.
  rewrite filter_cons_True by set_solver. f_equal. apply IH. set_solver.
Qed.

Lemma elem_of_drop_cell c l d : d ∈ drop_cell c l <-> d <> c /\ d ∈ l.
Proof. unfold drop_cell. by rewrite list_elem_of_filter. Qed.

Lemma drop_cell_mid c l1 l2 : NoDup (l1 ++ c :: l2) -> drop_cell c (l1 ++ c :: l2) = l1 ++ l2.
Proof.
  intros Hnd. apply NoDup_app in Hnd as (_ & H1 & Hnd). apply NoDup_cons in Hnd as [H2 _].
  unfold drop_cell. rewrite filter_app, filter_cons_False by naive_solver.
  f_equal; apply drop_cell_none; set_solver.
Qed.
