(* ===== verification/TbJumps.v ===== *)
(** * Direct jumps between translated blocks

    Model of the chaining of blocks: [tb_set_jmp_target], [tb_add_jump] of
    src/emul/qemu/exec-all.h and [tb_jmp_remove], [tb_reset_jump], the end of
    [tb_phys_invalidate] and of [tb_link_page], [tb_reset_jump_recursive] of
    src/emul/qemu/exec.c.

    The jumps to a block form a circular list from its [jmp_first] through the [jmp_next] of
    the jumping blocks back to the block with tag 2.  A jump [n] of a block is a
    displacement in its generated code, at [tb_jmp_offset[n]] from its start; [jmp_word] holds
    these words, which do not overlap.  [None] is a NULL pointer followed, or a walk that
    does not end.

    The simulator is built so that [tb_add_jump] returns at once ([CONFIG_ESESC_user]);
    the functions are modelled, and the lists verified, with and without that. *)

From S2P Require Import Prelude TbLists.
Open Scope Z_scope.

Record Jumps := mkJumps {
  jmp_next : gmap cell cell;
  jmp_first : gmap nat cell;
  tb_next_offset : gmap cell Z;
  tb_jmp_offset : gmap cell Z;
  jmp_word : gmap cell Z
}.

Definition set_jmp_next (J : Jumps) (c : cell) (v : option cell) : Jumps :=
  mkJumps (set_link (jmp_next J) c v) (jmp_first J) (tb_next_offset J) (tb_jmp_offset J) (jmp_word J).
Definition set_jmp_first (J : Jumps) (t : nat) (v : option cell) : Jumps :=
  mkJumps (jmp_next J) (partial_alter (fun _ => v) t (jmp_first J)) (tb_next_offset J) (tb_jmp_offset J) (jmp_word J).

(** No jump: the offsets of a block without a jump [n]. *)
Definition NO_JUMP : Z := 65535.

Definition next_offset (J : Jumps) (c : cell) : Z := default NO_JUMP (tb_next_offset J !! c).
Definition jmp_offset (J : Jumps) (c : cell) : Z := default NO_JUMP (tb_jmp_offset J !! c).

Section Code.
(** Where the generated code of a block starts. *)
Context (tc_ptr : nat -> Z).

Definition jmp_addr (J : Jumps) (c : cell) : Z := tc_ptr c.1 + jmp_offset J c.

(** [tb_set_jmp_target1] *)
Definition jmp_displacement (jmp_addr addr : Z) : Z := uint32_t (addr - (jmp_addr + 4)).

Definition tb_set_jmp_target (J : Jumps) (tb n : nat) (addr : Z) : Jumps :=
  mkJumps (jmp_next J) (jmp_first J) (tb_next_offset J) (tb_jmp_offset J)
    (<[(tb, n) := jmp_displacement (jmp_addr J (tb, n)) addr]> (jmp_word J)).

Definition tb_reset_jump (J : Jumps) (tb n : nat) : Jumps :=
  tb_set_jmp_target J tb n (tc_ptr tb + next_offset J (tb, n)).

(** Where the processor goes at a jump. *)
Definition jmp_dest (J : Jumps) (c : cell) : Z := jmp_addr J c + 4 + int32_t (default 0 (jmp_word J !! c)).

(** [CONFIG_ESESC] makes it return first. *)
Definition tb_add_jump (CONFIG_ESESC : bool) (J : Jumps) (tb n tb_next : nat) : Jumps :=
  if CONFIG_ESESC then J
  else match jmp_next J !! (tb, n) with
  | Some _ => J
  | None =>
      let J1 := tb_set_jmp_target J tb n (tc_ptr tb_next) in
      let J2 := set_jmp_next J1 (tb, n) (jmp_first J1 !! tb_next) in
      set_jmp_first J2 tb_next (Some (tb, n))
  end.

(** The variable [ptb]: the address of an element of [jmp_next] or of a [jmp_first]. *)
Inductive place := in_next (c : cell) | in_first (t : nat).

Definition get (J : Jumps) (p : place) : option cell :=
  match p with in_next c => jmp_next J !! c | in_first t => jmp_first J !! t end.
Definition put (J : Jumps) (p : place) (v : option cell) : Jumps :=
  match p with in_next c => set_jmp_next J c v | in_first t => set_jmp_first J t v end.

(** The walk along the circular list to the pointer to [tb(n)]. *)
Fixpoint find_place (fuel : nat) (J : Jumps) (tb n : nat) (ptb : place) : option place :=
  match fuel with
  | O => None
  | S fuel =>
      '(tb1, n1) ← get J ptb;
      if ((n1 =? n)%nat && (tb1 =? tb)%nat) then Some ptb
      else find_place fuel J tb n (if (n1 =? 2)%nat then in_first tb1 else in_next (tb1, n1))
  end.

(** More steps than a list can have. *)
Definition walk_fuel (J : Jumps) : nat := (3 + size (jmp_next J))%nat.

Definition tb_jmp_remove (J : Jumps) (tb n : nat) : option Jumps :=
  match jmp_next J !! (tb, n) with
  | None => Some J
  | Some _ =>
      ptb ← find_place (walk_fuel J) J tb n (in_next (tb, n));
      Some (set_jmp_next (put J ptb (jmp_next J !! (tb, n))) (tb, n) None)
  end.

(** The loop over the remaining jumps to a block. *)
Fixpoint suppress_jumps (fuel : nat) (J : Jumps) (tb1 : option cell) : option Jumps :=
  match fuel with
  | O => None
  | S fuel =>
      '(t1, n1) ← tb1;
      if (n1 =? 2)%nat then Some J
      else
        let tb2 := jmp_next J !! (t1, n1) in
        suppress_jumps fuel (set_jmp_next (tb_reset_jump J t1 n1) (t1, n1) None) tb2
  end.

(** [tb_phys_invalidate], from "suppress this TB from the two jump lists" on. *)
Definition tb_unchain (J : Jumps) (tb : nat) : option Jumps :=
  J ← tb_jmp_remove J tb 0;
  J ← tb_jmp_remove J tb 1;
  J ← suppress_jumps (walk_fuel J) J (jmp_first J !! tb);
  Some (set_jmp_first J tb (Some (tb, 2%nat))).

(** The end of [tb_link_page]. *)
Definition tb_init_jumps (J : Jumps) (tb : nat) : Jumps :=
  let J := set_jmp_first J tb (Some (tb, 2%nat)) in
  let J := set_jmp_next (set_jmp_next J (tb, 0%nat) None) (tb, 1%nat) None in
  let J := if negb (next_offset J (tb, 0%nat) =? NO_JUMP) then tb_reset_jump J tb 0 else J in
  if negb (next_offset J (tb, 1%nat) =? NO_JUMP) then tb_reset_jump J tb 1 else J.

(** The offsets the translator stores in a block. *)
Definition set_offsets (J : Jumps) (tb : nat) (jumps : nat -> Z * Z) : Jumps :=
  mkJumps (jmp_next J) (jmp_first J)
    (<[(tb, 1%nat) := (jumps 1%nat).1]> (<[(tb, 0%nat) := (jumps 0%nat).1]> (tb_next_offset J)))
    (<[(tb, 1%nat) := (jumps 1%nat).2]> (<[(tb, 0%nat) := (jumps 0%nat).2]> (tb_jmp_offset J)))
    (jmp_word J).

(** The head of the list that [tb1] is on. *)
Fixpoint find_head (fuel : nat) (J : Jumps) (tb1 : option cell) : option nat :=
  match fuel with
  | O => None
  | S fuel =>
      '(t1, n1) ← tb1;
      if (n1 =? 2)%nat then Some t1 else find_head fuel J (jmp_next J !! (t1, n1))
  end.

(** The walk from the head; it does not pass the head. *)
Fixpoint find_from_head (fuel : nat) (J : Jumps) (tb n : nat) (ptb : place) : option place :=
  match fuel with
  | O => None
  | S fuel =>
      '(tb1, n1) ← get J ptb;
      if ((n1 =? n)%nat && (tb1 =? tb)%nat) then Some ptb
      else if (n1 =? 2)%nat then None else find_from_head fuel J tb n (in_next (tb1, n1))
  end.

(** [reset] is [tb_reset_jump_recursive]; it is called for the block that was jumped to. *)
Definition tb_reset_jump_recursive2 (reset : Jumps -> nat -> option Jumps) (J : Jumps) (tb n : nat) : option Jumps :=
  match jmp_next J !! (tb, n) with
  | None => Some J
  | Some c =>
      tb_next ← find_head (walk_fuel J) J (Some c);
      ptb ← find_from_head (walk_fuel J) J tb n (in_first tb_next);
      reset (tb_reset_jump (set_jmp_next (put J ptb (jmp_next J !! (tb, n))) (tb, n) None) tb n) tb_next
  end.

Fixpoint tb_reset_jump_recursive (fuel : nat) (J : Jumps) (tb : nat) : option Jumps :=
  match fuel with
  | O => None
  | S fuel =>
      J ← tb_reset_jump_recursive2 (tb_reset_jump_recursive fuel) J tb 0;
      tb_reset_jump_recursive2 (tb_reset_jump_recursive fuel) J tb 1
  end.

(** ** The circular lists

    [live] are the linked blocks, [inc t] the jumps that lead to [t]. *)

Definition has_jump (J : Jumps) (c : cell) : Prop := next_offset J c <> NO_JUMP.

Record rings_wf (live : nat -> Prop) (inc : nat -> list cell) (J : Jumps) : Prop := {
  jw_ring : forall t, live t -> lseg (jmp_next J) (jmp_first J !! t) (inc t) (Some (t, 2%nat));
  jw_src : forall t c, live t -> c ∈ inc t -> live c.1;
  jw_in : forall u n, live u -> (n < 2)%nat -> is_Some (jmp_next J !! (u, n)) ->
    exists t, live t /\ (u, n) ∈ inc t;
  jw_dest : forall t c, live t -> c ∈ inc t -> jmp_dest J c = tc_ptr t
}.

(** A jump that is on no list leaves the generated code at its original target. *)
Definition own_wf (own : nat -> Prop) (J : Jumps) : Prop :=
  forall u n, own u -> (n < 2)%nat -> jmp_next J !! (u, n) = None -> has_jump J (u, n) ->
    jmp_dest J (u, n) = tc_ptr u + next_offset J (u, n).

Record jumps_wf (live : nat -> Prop) (inc : nat -> list cell) (J : Jumps) : Prop := {
  jw_rings : rings_wf live inc J;
  jw_own : own_wf live J
}.

(** The code buffer is small enough for a 32-bit displacement. *)
Definition code_near (live : nat -> Prop) (J : Jumps) : Prop :=
  forall t, live t -> 0 <= tc_ptr t < 1073741824 /\
    forall n, (n < 2)%nat -> 0 <= next_offset J (t, n) <= 65535 /\ 0 <= jmp_offset J (t, n) <= 65535.

Lemma jmp_dest_set_eq J t n addr : 0 <= tc_ptr t < 1073741824 -> 0 <= jmp_offset J (t, n) <= 65535 ->
  0 <= addr < 1073807360 -> jmp_dest (tb_set_jmp_target J t n addr) (t, n) = addr.
Proof.
  intros Ht Hj Ha. unfold jmp_dest. cbn [jmp_word tb_set_jmp_target]. rewrite lookup_insert_eq. cbn [default from_option id].
  unfold jmp_addr, jmp_displacement. cbn [fst]. change (jmp_offset (tb_set_jmp_target J t n addr) (t, n)) with (jmp_offset J (t, n)).
  unfold jmp_addr. cbn [fst]. cint.
Qed.

Lemma jmp_dest_set_ne J t n addr c : c <> (t, n) -> jmp_dest (tb_set_jmp_target J t n addr) c = jmp_dest J c.
Proof. intros Hc. unfold jmp_dest. cbn [jmp_word tb_set_jmp_target]. rewrite lookup_insert_ne by done. done. Qed.

Section Wf.
Context (live : nat -> Prop) (inc : nat -> list cell) (J : Jumps).
Context (W : rings_wf live inc J).

Lemma inc_NoDup t : live t -> NoDup (inc t).
Proof. intros Ht. exact (lseg_NoDup (jmp_next J) (jmp_first J !! t) (inc t) (Some (t, 2%nat)) eq_refl (jw_ring _ _ _ W t Ht)). Qed.

Lemma inc_unique t t' c : live t -> live t' -> c ∈ inc t -> c ∈ inc t' -> t = t'.
Proof.
  intros Ht Ht' Hc Hc'.
  pose proof (lseg_same_end _ _ _ (Some (t, 2%nat)) _ _ (Some (t', 2%nat)) c eq_refl eq_refl (jw_ring _ _ _ W t Ht) (jw_ring _ _ _ W t' Ht') Hc Hc'). congruence.
Qed.

Lemma inc_tag t c : live t -> c ∈ inc t -> (c.2 < 2)%nat.
Proof. intros Ht. apply (lseg_tag _ _ _ _ _ (jw_ring _ _ _ W t Ht)). Qed.

Lemma inc_next t c : live t -> c ∈ inc t -> is_Some (jmp_next J !! c).
Proof. intros Ht Hc. by apply (lseg_next _ _ _ _ _ (jw_ring _ _ _ W t Ht) Hc). Qed.

Lemma inc_length t : live t -> (length (inc t) <= S (size (jmp_next J)))%nat.
Proof. intros Ht. exact (lseg_length (jmp_next J) _ (inc t) (Some (t, 2%nat)) eq_refl (jw_ring _ _ _ W t Ht)). Qed.

End Wf.

(** ** The walks *)

(** The place before the cell at the end of [l1], on a list that is read from [ptb]. *)
Definition before (ptb : place) (l1 : list cell) : place :=
  match last l1 with None => ptb | Some d => in_next d end.

Lemma before_cons ptb d l1 : before ptb (d :: l1) = before (in_next d) l1.
Proof. unfold before. rewrite last_cons. by destruct (last l1). Qed.

Lemma find_from_head_spec J tb n l1 ptb fuel : (length l1 < fuel)%nat -> (tb, n) ∉ l1 ->
  lseg (jmp_next J) (get J ptb) l1 (Some (tb, n)) -> find_from_head fuel J tb n ptb = Some (before ptb l1).
Proof.
  revert ptb fuel. induction l1 as [|[u m] l1 IH]; intros ptb [|fuel] Hf Hn; cbn; try lia.
  - intros ->. cbn. by rewrite !Nat.eqb_refl.
  - intros (-> & Ht & Hl). cbn in Ht |- *.
    destruct (Nat.eqb_spec m n) as [->|]; [destruct (Nat.eqb_spec u tb) as [->|]; [set_solver|]|]; cbn.
    + destruct (Nat.eqb_spec n 2); [lia|]. rewrite before_cons. apply IH; [cbn in Hf; lia|set_solver|exact Hl].
    + destruct (Nat.eqb_spec m 2); [lia|]. rewrite before_cons. apply IH; [cbn in Hf; lia|set_solver|exact Hl].
Qed.

(** The walk of [tb_jmp_remove] goes on from the cell to the head, and from the head to the
    cell. *)
Lemma find_place_seg J tb n l1 ptb fuel : (length l1 < fuel)%nat -> (tb, n) ∉ l1 ->
  lseg (jmp_next J) (get J ptb) l1 (Some (tb, n)) -> find_place fuel J tb n ptb = Some (before ptb l1).
Proof.
  revert ptb fuel. induction l1 as [|[u m] l1 IH]; intros ptb [|fuel] Hf Hn; cbn; try lia.
  - intros ->. cbn. by rewrite !Nat.eqb_refl.
  - intros (-> & Ht & Hl). cbn in Ht |- *.
    destruct (Nat.eqb_spec m n) as [->|]; [destruct (Nat.eqb_spec u tb) as [->|]; [set_solver|]|]; cbn.
    + destruct (Nat.eqb_spec n 2); [lia|]. rewrite before_cons. apply IH; [cbn in Hf; lia|set_solver|exact Hl].
    + destruct (Nat.eqb_spec m 2); [lia|]. rewrite before_cons. apply IH; [cbn in Hf; lia|set_solver|exact Hl].
Qed.

Lemma find_place_head J tb n t l2 ptb fuel : (n < 2)%nat -> (tb, n) ∉ l2 ->
  lseg (jmp_next J) (get J ptb) l2 (Some (t, 2%nat)) ->
  find_place (S (length l2) + fuel) J tb n ptb = find_place fuel J tb n (in_first t).
Proof.
  intros Hn2. revert ptb. induction l2 as [|[u m] l2 IH]; intros ptb Hn; cbn [lseg length].
  - intros E. cbn [length Nat.add find_place]. rewrite E. cbn [mbind option_bind].
    rewrite (proj2 (Nat.eqb_neq 2 n)) by lia. done.
  - intros (E & Ht & Hl). cbn [Nat.add find_place]. rewrite E. cbn in Ht |- *.
    destruct ((m =? n)%nat && (u =? tb)%nat) eqn:Eb.
    { rewrite andb_true_iff, !Nat.eqb_eq in Eb. destruct Eb as [-> ->]. set_solver. }
    destruct (Nat.eqb_spec m 2); [lia|]. apply (IH (in_next (u, m))); [set_solver|exact Hl].
Qed.

Lemma find_head_spec J t l p fuel : (length l < fuel)%nat ->
  lseg (jmp_next J) p l (Some (t, 2%nat)) -> find_head fuel J p = Some t.
Proof.
  revert p fuel. induction l as [|[u m] l IH]; intros p [|fuel] Hf; cbn; try lia.
  - intros ->. done.
  - intros (-> & Ht & Hl). cbn in Ht |- *. destruct (Nat.eqb_spec m 2); [lia|]. apply IH; [cbn in Hf; lia|done].
Qed.
(** ** Taking a jump off its list *)

(** What the two assignments that take [c] off a list do, [ptb] being the place before it. *)
Definition take_off (J : Jumps) (ptb : place) (c : cell) : Jumps :=
  set_jmp_next (put J ptb (jmp_next J !! c)) c None.

Lemma take_off_dest J ptb c d : jmp_dest (take_off J ptb c) d = jmp_dest J d.
Proof. by destruct ptb. Qed.

Lemma take_off_next J t l1 c d : c ∉ l1 ->
  lseg (jmp_next J) (jmp_first J !! t) l1 (Some c) -> is_Some (jmp_next J !! c) ->
  is_Some (jmp_next (take_off J (before (in_first t) l1) c) !! d) <-> d <> c /\ is_Some (jmp_next J !! d).
Proof.
  intros Hc Hl Hs. unfold take_off. cbn [jmp_next set_jmp_next].
  destruct (decide (d = c)) as [->|Hd].
  { rewrite set_link_eq. split; [|naive_solver]. by intros [? ?]. }
  rewrite set_link_ne by done. unfold before. destruct (last l1) as [e|] eqn:Ee; cbn; [|naive_solver].
  destruct (decide (e = d)) as [->|]; [|rewrite set_link_ne by done; naive_solver].
  rewrite set_link_eq. split; [|done]. intros _. split; [done|].
  apply last_Some_elem_of in Ee. by eapply lseg_next.
Qed.

Lemma take_off_ring J t l1 c l2 : lseg (jmp_next J) (jmp_first J !! t) (l1 ++ c :: l2) (Some (t, 2%nat)) ->
  let J' := take_off J (before (in_first t) l1) c in
  lseg (jmp_next J') (jmp_first J' !! t) (l1 ++ l2) (Some (t, 2%nat)).
Proof.
  intros H J'.
  pose proof (lseg_NoDup _ _ _ (Some (t, 2%nat)) eq_refl H) as Hnd.
  assert (forall d, d ∈ l1 ++ l2 -> jmp_next J' !! d = jmp_next (put J (before (in_first t) l1) (jmp_next J !! c)) !! d) as Hf.
  { intros d Hd. unfold J', take_off. cbn [jmp_next set_jmp_next]. apply set_link_ne. intros <-.
    rewrite <- Permutation_middle in Hnd. apply NoDup_cons in Hnd as [? _]. done. }
  apply (lseg_frame _ _ _ _ _ Hf). unfold J', take_off. cbn [jmp_first set_jmp_next].
  destruct l1 as [|d l1 _] using rev_ind; cbn.
  - rewrite lookup_partial_alter_eq. apply lseg_remove_first in H. done.
  - unfold before. rewrite last_snoc. cbn. rewrite <- app_assoc in *. cbn in *.
    apply lseg_remove_next; done.
Qed.

Section Remove.
Context (live : nat -> Prop) (inc : nat -> list cell) (J : Jumps).
Context (W : rings_wf live inc J) (t : nat) (Ht : live t) (c : cell) (l1 l2 : list cell).
Context (Hinc : inc t = l1 ++ c :: l2).

Let J' := take_off J (before (in_first t) l1) c.

Lemma take_off_facts : (c ∉ l1) /\ lseg (jmp_next J) (jmp_first J !! t) l1 (Some c) /\ is_Some (jmp_next J !! c).
Proof.
  pose proof (jw_ring _ _ _ W t Ht) as H. rewrite Hinc in H.
  pose proof (lseg_NoDup _ _ _ (Some (t, 2%nat)) eq_refl H) as Hnd. split_and!.
  - apply NoDup_app in Hnd as (_ & H1 & _). intros Hc. apply (H1 c Hc). set_solver.
  - apply lseg_app in H as (m & H1 & H2). cbn in H2. by destruct H2 as [-> _].
  - apply (inc_next _ _ _ W t c Ht). rewrite Hinc. set_solver.
Qed.

Lemma take_off_other t' : live t' -> t' <> t ->
  lseg (jmp_next J') (jmp_first J' !! t') (inc t') (Some (t', 2%nat)).
Proof.
  intros Ht' Hne. pose proof (jw_ring _ _ _ W t' Ht') as H.
  assert (forall d, d ∈ inc t' -> d ∉ inc t) as Hdis.
  { intros d Hd Hd'. apply Hne. by apply (inc_unique _ _ _ W t' t d). }
  assert (jmp_first J' !! t' = jmp_first J !! t') as ->.
  { unfold J', take_off, before. cbn [jmp_first set_jmp_next]. destruct (last l1); cbn; [done|].
    by apply lookup_partial_alter_ne. }
  eapply lseg_frame; [|exact H]. intros d Hd. specialize (Hdis d Hd). rewrite Hinc in Hdis.
  unfold J', take_off. cbn [jmp_next set_jmp_next]. rewrite set_link_ne by set_solver.
  unfold before. destruct (last l1) as [e|] eqn:Ee; cbn; [|done].
  apply set_link_ne. intros ->. apply last_Some_elem_of in Ee. set_solver.
Qed.

Lemma take_off_wf : rings_wf live (fun t' => drop_cell c (inc t')) J'.
Proof.
  destruct take_off_facts as (Hc1 & Hl1 & Hs).
  assert (forall t', live t' -> t' <> t -> drop_cell c (inc t') = inc t') as Hother.
  { intros t' Ht' Hne. apply drop_cell_none. intros Hc. apply Hne.
    apply (inc_unique _ _ _ W t' t c); try done. rewrite Hinc. set_solver. }
  assert (forall t' d, d ∈ drop_cell c (inc t') <-> d <> c /\ d ∈ inc t') as Hel.
  { intros t' d. unfold drop_cell. by rewrite list_elem_of_filter. }
  split.
  - intros t' Ht'. destruct (decide (t' = t)) as [->|Hne].
    + pose proof (jw_ring _ _ _ W t Ht) as H. rewrite Hinc in H |- *.
      rewrite drop_cell_mid by exact (lseg_NoDup _ _ _ (Some (t, 2%nat)) eq_refl H).
      by apply take_off_ring.
    + rewrite Hother by done. by apply take_off_other.
  - intros t' d Ht' Hd. apply Hel in Hd as [_ Hd]. by eapply jw_src.
  - intros u n Hu Hn Hx. apply take_off_next in Hx as [Hne Hx]; [|done..].
    destruct (jw_in _ _ _ W u n Hu Hn Hx) as (t' & Ht' & Hin). exists t'. split; [done|]. by apply Hel.
  - intros t' d Ht' Hd. apply Hel in Hd as [_ Hd]. unfold J'. rewrite take_off_dest. by eapply jw_dest.
Qed.

End Remove.

(** [tb_jmp_remove] takes the jump off the list of the block it leads to. *)
Lemma tb_jmp_remove_spec live inc J tb n : rings_wf live inc J -> live tb -> (n < 2)%nat ->
  exists J', tb_jmp_remove J tb n = Some J' /\ rings_wf live (fun t => drop_cell (tb, n) (inc t)) J' /\
    (forall d, jmp_dest J' d = jmp_dest J d) /\ tb_next_offset J' = tb_next_offset J /\
    tb_jmp_offset J' = tb_jmp_offset J /\
    (forall d, is_Some (jmp_next J' !! d) <-> d <> (tb, n) /\ is_Some (jmp_next J !! d)).
Proof.
  intros W Htb Hn. unfold tb_jmp_remove. destruct (jmp_next J !! (tb, n)) as [x|] eqn:Ex.
  - destruct (jw_in _ _ _ W tb n Htb Hn (ex_intro _ x Ex)) as (t & Ht & Hin).
    apply list_elem_of_split in Hin as (l1 & l2 & Hinc).
    pose proof (take_off_facts _ _ _ W t Ht _ _ _ Hinc) as (Hc & Hl1 & Hs).
    pose proof (jw_ring _ _ _ W t Ht) as H. rewrite Hinc in H.
    assert ((tb, n) ∉ l2) as Hc2.
    { apply (lseg_NoDup _ _ _ (Some (t, 2%nat)) eq_refl) in H. apply NoDup_app in H as (_ & _ & H).
      by apply NoDup_cons in H as [? _]. }
    assert (lseg (jmp_next J) (jmp_next J !! (tb, n)) l2 (Some (t, 2%nat))) as Hl2.
    { apply lseg_app in H as (m & _ & H). by destruct H as (_ & _ & ?). }
    assert (find_place (walk_fuel J) J tb n (in_next (tb, n)) = Some (before (in_first t) l1)) as ->.
    { pose proof (inc_length _ _ _ W t Ht) as Hlen. rewrite Hinc, length_app in Hlen. cbn [length] in Hlen.
      assert (length l1 < walk_fuel J - S (length l2))%nat as Hf by (unfold walk_fuel; lia).
      replace (walk_fuel J) with (S (length l2) + (walk_fuel J - S (length l2)))%nat by (unfold walk_fuel; lia).
      rewrite (find_place_head J tb n t l2) by done. apply find_place_seg; [exact Hf|done..]. }
    cbn [mbind option_bind]. rewrite <- Ex. fold (take_off J (before (in_first t) l1) (tb, n)).
    eexists. split; [reflexivity|]. split; [by eapply take_off_wf|]. split; [apply take_off_dest|].
    split; [by destruct (before _ _)|]. split; [by destruct (before _ _)|].
    intros d. by apply take_off_next.
  - exists J. split; [done|]. split; [|split; [done|split; [done|split; [done|]]]].
    + assert (forall t, live t -> drop_cell (tb, n) (inc t) = inc t) as Hd.
      { intros t Ht. apply drop_cell_none. intros Hc. pose proof (inc_next _ _ _ W t _ Ht Hc) as Hs.
        change (is_Some (jmp_next J !! (tb, n))) in Hs. rewrite Ex in Hs. by destruct Hs. }
      split.
      * intros t Ht. rewrite Hd by done. by apply W.
      * intros t c Ht Hc. rewrite Hd in Hc by done. by eapply W.
      * intros u m Hu Hm Hx. destruct (jw_in _ _ _ W u m Hu Hm Hx) as (t' & Ht' & Hi). exists t'. by rewrite Hd.
      * intros t c Ht Hc. rewrite Hd in Hc by done. by eapply W.
    + intros d. split; [|naive_solver]. intros Hx. split; [|done]. intros ->. rewrite Ex in Hx. by destruct Hx.
Qed.

(** ** Suppressing the jumps to a block *)

(** What changes when the jumps [l] are reset: they leave their lists and go to their
    original targets. *)
Record jumps_reset (l : list cell) (J J' : Jumps) : Prop := {
  jr_next : forall d, jmp_next J' !! d = if decide (d ∈ l) then None else jmp_next J !! d;
  jr_first : jmp_first J' = jmp_first J;
  jr_next_offset : tb_next_offset J' = tb_next_offset J;
  jr_jmp_offset : tb_jmp_offset J' = tb_jmp_offset J;
  jr_other : forall d, d ∉ l -> jmp_dest J' d = jmp_dest J d;
  jr_own : forall d, d ∈ l -> jmp_dest J' d = tc_ptr d.1 + next_offset J d
}.

Lemma tb_reset_jump_dest live J u n : code_near live J -> live u -> (n < 2)%nat ->
  jmp_dest (tb_reset_jump J u n) (u, n) = tc_ptr u + next_offset J (u, n).
Proof. intros N Hu Hn. destruct (N u Hu) as [Htc Ho]. destruct (Ho n Hn). apply jmp_dest_set_eq; lia. Qed.

Lemma suppress_jumps_spec live t l p J fuel : code_near live J -> (length l < fuel)%nat -> NoDup l ->
  (forall c, c ∈ l -> live c.1) -> lseg (jmp_next J) p l (Some (t, 2%nat)) ->
  exists J', suppress_jumps fuel J p = Some J' /\ jumps_reset l J J'.
Proof.
  revert p J fuel. induction l as [|[u n] l IH]; intros p J [|fuel] N Hf Hnd Hl; cbn [lseg suppress_jumps length] in *; try lia.
  - intros ->. cbn. exists J. split; [done|]. split; try done.
    intros d Hd. by apply not_elem_of_nil in Hd.
  - intros (-> & Ht & H). cbn in Ht |- *. destruct (Nat.eqb_spec n 2); [lia|].
    apply NoDup_cons in Hnd as [Hc Hnd]. set (J1 := set_jmp_next (tb_reset_jump J u n) (u, n) None).
    destruct (IH (jmp_next J !! (u, n)) J1 fuel) as (J' & -> & R); [exact N|lia|done|set_solver| |].
    { eapply lseg_frame; [|exact H]. intros d Hd. cbn. apply set_link_ne. by intros <-. }
    exists J'. split; [done|]. destruct R as [R1 R2 R3 R4 R5 R6].
    assert (live u) as Hu by (apply (Hl (u, n)); set_solver). split.
    + intros d. rewrite R1. change (jmp_next J1) with (set_link (jmp_next J) (u, n) None).
      destruct (decide (d = (u, n))) as [->|Hne].
      * rewrite (decide_True (P := (u, n) ∈ (u, n) :: l)) by set_solver. case_decide; [done|]. apply set_link_eq.
      * rewrite set_link_ne by done. case_decide; case_decide; try done; set_solver.
    + done.
    + done.
    + done.
    + intros d Hd. rewrite R5 by set_solver. unfold J1, jmp_dest. cbn. rewrite lookup_insert_ne by set_solver. done.
    + intros d Hd. destruct (decide (d ∈ l)) as [Hin|Hnin]; [by rewrite R6|].
      assert (d = (u, n)) as -> by set_solver. rewrite R5 by done.
      exact (tb_reset_jump_dest live J u n N Hu Ht).
Qed.

Lemma jmp_dest_set_first J t v d : jmp_dest (set_jmp_first J t v) d = jmp_dest J d.
Proof. done. Qed.

(** The invalidated block is on no list and nothing jumps to it. *)
Definition without (tb : nat) (live : nat -> Prop) (t : nat) : Prop := live t /\ t <> tb.
Definition drop_block (tb : nat) (l : list cell) : list cell := drop_cell (tb, 1%nat) (drop_cell (tb, 0%nat) l).

Lemma elem_of_drop_block tb l c : c ∈ drop_block tb l <-> c <> (tb, 0%nat) /\ c <> (tb, 1%nat) /\ c ∈ l.
Proof. unfold drop_block, drop_cell. rewrite !list_elem_of_filter. naive_solver. Qed.

(** The lists after the jumps to [tb] have been reset and [tb] has been forgotten. *)
Lemma suppress_wf live inc J J' tb : rings_wf live inc J -> own_wf (without tb live) J -> live tb ->
  (forall t c, live t -> c ∈ inc t -> c.1 <> tb) ->
  jumps_reset (inc tb) J J' -> jumps_wf (without tb live) inc (set_jmp_first J' tb (Some (tb, 2%nat))).
Proof.
  intros W O Htb Hsrc R.
  assert (forall t c, live t -> t <> tb -> c ∈ inc t -> c ∉ inc tb) as Hdis.
  { intros t c Ht Hne Hc Hc'. apply Hne. by apply (inc_unique _ _ _ W t tb c). }
  split; [split|].
  - intros t [Ht Hne]. cbn. rewrite lookup_partial_alter_ne by done. rewrite (jr_first _ _ _ R).
    eapply lseg_frame; [|by apply W]. intros c Hc. rewrite (jr_next _ _ _ R). rewrite decide_False; [done|by eauto].
  - intros t c [Ht Hne] Hc. split; [by eapply W|by eapply Hsrc].
  - intros u n [Hu Hne] Hn Hx. cbn in Hx. rewrite (jr_next _ _ _ R) in Hx. case_decide as Hd; [by destruct Hx|].
    destruct (jw_in _ _ _ W u n Hu Hn Hx) as (t & Ht & Hin). exists t. split; [|done]. split; [done|]. by intros ->.
  - intros t c [Ht Hne] Hc. rewrite jmp_dest_set_first, (jr_other _ _ _ R) by eauto. by eapply W.
  - intros u n Hu Hn Hx Hj. cbn in Hx. rewrite (jr_next _ _ _ R) in Hx.
    change (has_jump J' (u, n)) in Hj. unfold has_jump, next_offset in *. cbn. rewrite (jr_next_offset _ _ _ R) in *.
    rewrite jmp_dest_set_first. case_decide as Hd; [exact (jr_own _ _ _ R _ Hd)|].
    rewrite (jr_other _ _ _ R) by done. by apply O.
Qed.

Lemma tb_unchain_spec live inc J tb : jumps_wf live inc J -> code_near live J -> live tb ->
  exists J', tb_unchain J tb = Some J' /\
    jumps_wf (without tb live) (fun t => drop_block tb (inc t)) J' /\
    tb_next_offset J' = tb_next_offset J /\ tb_jmp_offset J' = tb_jmp_offset J /\
    (forall c, c.1 <> tb -> jmp_dest J' c = if decide (c ∈ inc tb) then tc_ptr c.1 + next_offset J c else jmp_dest J c).
Proof.
  intros [W O] N Htb. unfold tb_unchain.
  destruct (tb_jmp_remove_spec live inc J tb 0 W Htb) as (J1 & -> & W1 & D1 & No1 & Jo1 & X1); [lia|]. cbn [mbind option_bind].
  destruct (tb_jmp_remove_spec live _ J1 tb 1 W1 Htb) as (J2 & -> & W2 & D2 & No2 & Jo2 & X2); [lia|]. cbn [mbind option_bind].
  fold (drop_block tb) in W2. change (rings_wf live (fun t => drop_block tb (inc t)) J2) in W2.
  assert (tb_next_offset J2 = tb_next_offset J) as No by congruence.
  assert (tb_jmp_offset J2 = tb_jmp_offset J) as Jo by congruence.
  assert (code_near live J2) as N2. { intros t Ht. unfold next_offset, jmp_offset. rewrite No, Jo. by apply N. }
  assert (forall t c, live t -> c ∈ drop_block tb (inc t) -> c.1 <> tb) as Hsrc.
  { intros t [u n] Ht Hc. pose proof (inc_tag _ _ _ W2 t _ Ht Hc) as Hn. cbn in Hn.
    apply elem_of_drop_block in Hc as (H0 & H1 & _). cbn. intros ->. destruct n as [|[|]]; [done|done|lia]. }
  destruct (suppress_jumps_spec live tb (drop_block tb (inc tb)) (jmp_first J2 !! tb) J2 (walk_fuel J2) N2)
    as (J3 & -> & R).
  { pose proof (inc_length _ _ _ W2 tb Htb). unfold walk_fuel. lia. }
  { by apply (inc_NoDup _ _ _ W2). }
  { intros c Hc. by eapply (jw_src _ _ _ W2 tb). }
  { by apply W2. }
  cbn [mbind option_bind]. eexists. split; [reflexivity|]. split; [|split; [|split]].
  - apply (suppress_wf live _ J2 J3 tb); try done. intros u n [Hu Hne] Hn Hx Hj.
    rewrite D2, D1. unfold has_jump, next_offset in *. rewrite No in *. apply O; try done.
    destruct (jmp_next J !! (u, n)) eqn:E; [|done]. exfalso. change (jmp_next J2 !! (u, n) = None) in Hx.
    assert (is_Some (jmp_next J2 !! (u, n))) as Hs; [|rewrite Hx in Hs; by destruct Hs].
    apply X2. split; [by intros [= -> ->]|]. apply X1. split; [by intros [= -> ->]|]. by rewrite E.
  - cbn. by rewrite (jr_next_offset _ _ _ R).
  - cbn. by rewrite (jr_jmp_offset _ _ _ R).
  - intros c Hc. rewrite jmp_dest_set_first. assert (c ∈ drop_block tb (inc tb) <-> c ∈ inc tb) as Hd.
    { rewrite elem_of_drop_block. split; [naive_solver|]. intros ?. split_and!; [by intros ->|by intros ->|done]. }
    case_decide as Hi.
    + rewrite (jr_own _ _ _ R) by (by apply Hd). unfold next_offset. by rewrite No.
    + rewrite (jr_other _ _ _ R) by (by rewrite Hd). by rewrite D2, D1.
Qed.

(** ** Adding a jump *)

(** The lists after [tb_add_jump]. *)
Definition add_inc (CONFIG_ESESC : bool) (J : Jumps) (tb n tb_next : nat) (inc : nat -> list cell) (t : nat) : list cell :=
  if negb CONFIG_ESESC && bool_decide (jmp_next J !! (tb, n) = None) && (t =? tb_next)%nat
  then (tb, n) :: inc t else inc t.

Lemma tb_add_jump_wf E live inc J tb n tb_next : jumps_wf live inc J -> code_near live J ->
  live tb -> live tb_next -> (n < 2)%nat ->
  jumps_wf live (add_inc E J tb n tb_next inc) (tb_add_jump E J tb n tb_next).
Proof.
  intros [W O] N Htb Hnx Hn. unfold tb_add_jump, add_inc. destruct E; [by split|].
  destruct (jmp_next J !! (tb, n)) as [x|] eqn:Ex; cbn [negb andb].
  { rewrite bool_decide_eq_false_2 by done. by split. }
  rewrite bool_decide_eq_true_2 by done. cbn [andb].
  set (J' := set_jmp_first _ _ _). set (inc' := fun t => if (t =? tb_next)%nat then _ else _).
  assert (forall d, d <> (tb, n) -> jmp_next J' !! d = jmp_next J !! d) as Hnext.
  { intros d Hd. apply set_link_ne. done. }
  assert (jmp_next J' !! (tb, n) = jmp_first J !! tb_next) as Htbn by apply set_link_eq.
  assert (forall t c, live t -> c ∈ inc t -> c <> (tb, n)) as Hold.
  { intros t c Ht Hc ->. pose proof (inc_next _ _ _ W t _ Ht Hc) as Hs.
    change (is_Some (jmp_next J !! (tb, n))) in Hs. rewrite Ex in Hs. by destruct Hs. }
  assert (forall d, d <> (tb, n) -> jmp_dest J' d = jmp_dest J d) as Hdest.
  { intros d Hd. exact (jmp_dest_set_ne J tb n (tc_ptr tb_next) d Hd). }
  destruct (N tb Htb) as [Htc Hoff]. destruct (Hoff n Hn) as [_ Hj]. destruct (N tb_next Hnx) as [Htc' _].
  split; [split|].
  - intros t Ht. assert (lseg (jmp_next J') (jmp_first J !! t) (inc t) (Some (t, 2%nat))) as Hr.
    { eapply lseg_frame; [|by apply W]. intros c Hc. apply Hnext. by eapply Hold. }
    unfold inc'. destruct (Nat.eqb_spec t tb_next) as [->|Hne].
    + cbn [lseg]. split_and!; [|done|rewrite Htbn; exact Hr]. unfold J'. cbn. by rewrite lookup_partial_alter_eq.
    + unfold J' at 2. cbn. rewrite lookup_partial_alter_ne by done. exact Hr.
  - intros t c Ht Hc. unfold inc' in Hc. destruct (t =? tb_next)%nat; [|by eapply W].
    apply elem_of_cons in Hc as [->|]; [done|by eapply W].
  - intros u m Hu Hm Hx. destruct (decide ((u, m) = (tb, n))) as [Heq|Hne].
    + exists tb_next. split; [done|]. unfold inc'. rewrite Nat.eqb_refl, Heq. set_solver.
    + rewrite Hnext in Hx by done. destruct (jw_in _ _ _ W u m Hu Hm Hx) as (t & Ht & Hin). exists t.
      split; [done|]. unfold inc'. destruct (t =? tb_next)%nat; [set_solver|done].
  - intros t c Ht Hc. unfold inc' in Hc.
    assert (c ∈ inc t \/ (t = tb_next /\ c = (tb, n))) as [Hc'|[-> ->]].
    { destruct (Nat.eqb_spec t tb_next); [set_solver|by left]. }
    + rewrite Hdest by eauto. by eapply W.
    + apply jmp_dest_set_eq; lia.
  - intros u m Hu Hm Hx Hj'. destruct (decide ((u, m) = (tb, n))) as [Heq|Hne].
    + exfalso. rewrite Heq, Htbn in Hx. pose proof (jw_ring _ _ _ W tb_next Hnx) as Hr.
      rewrite Hx in Hr. destruct (inc tb_next); cbn in Hr; [done|by destruct Hr].
    + rewrite Hdest by done. rewrite Hnext in Hx by done. exact (O u m Hu Hm Hx Hj').
Qed.

(** ** A new block *)

Definition add_block (tb : nat) (live : nat -> Prop) (t : nat) : Prop := live t \/ t = tb.
Definition no_inc (tb : nat) (inc : nat -> list cell) (t : nat) : list cell := if decide (t = tb) then [] else inc t.

(** [tb_init_jumps] changes the fields of the new block alone. *)
Record fresh_jumps (tb : nat) (J J' : Jumps) : Prop := {
  fj_first : forall t, jmp_first J' !! t = if decide (t = tb) then Some (tb, 2%nat) else jmp_first J !! t;
  fj_next : forall u n, (n < 2)%nat -> jmp_next J' !! (u, n) = if decide (u = tb) then None else jmp_next J !! (u, n);
  fj_offsets : tb_next_offset J' = tb_next_offset J /\ tb_jmp_offset J' = tb_jmp_offset J;
  fj_dest : forall c, c.1 <> tb -> jmp_dest J' c = jmp_dest J c
}.

Lemma tb_init_jumps_fresh J tb : fresh_jumps tb J (tb_init_jumps J tb).
Proof.
  unfold tb_init_jumps. set (J1 := set_jmp_next _ _ _).
  assert (fresh_jumps tb J J1) as F1.
  { split; [|intros u n Hn| |]; try done.
    - intros t. cbn. case_decide as Ht; [subst t; by rewrite lookup_partial_alter_eq|by rewrite lookup_partial_alter_ne by done].
    - change (jmp_next J1) with (set_link (set_link (jmp_next J) (tb, 0%nat) None) (tb, 1%nat) None).
      destruct n as [|[|]]; [| |lia].
      + rewrite set_link_ne by congruence. case_decide as Hu; [subst u; apply set_link_eq|apply set_link_ne; congruence].
      + case_decide as Hu; [subst u; apply set_link_eq|]. rewrite set_link_ne by congruence. apply set_link_ne. congruence. }
  assert (forall J2 n, fresh_jumps tb J J2 -> fresh_jumps tb J (tb_reset_jump J2 tb n)) as Hreset.
  { intros J2 n [H1 H2 H3 H4]. split; try done. intros c Hc. rewrite <- H4 by done. apply jmp_dest_set_ne. by intros ->. }
  set (J2 := if negb (next_offset J1 (tb, 0%nat) =? NO_JUMP) then _ else J1).
  assert (fresh_jumps tb J J2) as F2 by (unfold J2; destruct (negb _); [by apply Hreset|done]).
  clearbody J2. cbn zeta. destruct (negb _); [by apply Hreset|done].
Qed.

Lemma tb_init_jumps_own live J tb n : code_near live J -> live tb -> (n < 2)%nat -> has_jump J (tb, n) ->
  jmp_dest (tb_init_jumps J tb) (tb, n) = tc_ptr tb + next_offset J (tb, n).
Proof.
  intros N Htb Hn Hj. unfold tb_init_jumps. set (J1 := set_jmp_next _ _ _).
  assert (code_near live J1) as N1 by exact N. change (has_jump J1 (tb, n)) in Hj.
  change (next_offset J (tb, n)) with (next_offset J1 (tb, n)). unfold has_jump in Hj.
  set (J2 := if negb (next_offset J1 (tb, 0%nat) =? NO_JUMP) then _ else J1). cbn zeta.
  assert (code_near live J2) as N2 by (unfold J2; destruct (negb _); exact N).
  assert (forall c, next_offset J2 c = next_offset J1 c) as Hoff by (intros c; unfold J2; by destruct (negb _)).
  assert (next_offset J1 (tb, 0%nat) <> NO_JUMP -> jmp_dest J2 (tb, 0%nat) = tc_ptr tb + next_offset J1 (tb, 0%nat)) as H0.
  { intros H. unfold J2. rewrite (proj2 (Z.eqb_neq _ _) H). apply (tb_reset_jump_dest live); [done|done|lia]. }
  clearbody J2. destruct n as [|[|]]; [specialize (H0 Hj)| |lia].
  - destruct (negb _); [|exact H0]. rewrite <- H0. by apply jmp_dest_set_ne.
  - rewrite Hoff. destruct (Z.eqb_spec (next_offset J1 (tb, 1%nat)) NO_JUMP); [done|]. cbn [negb].
    rewrite (tb_reset_jump_dest live) by (done || lia). by rewrite Hoff.
Qed.

Lemma tb_init_jumps_wf live inc J tb : jumps_wf live inc J -> ~ live tb -> code_near (add_block tb live) J ->
  jumps_wf (add_block tb live) (no_inc tb inc) (tb_init_jumps J tb).
Proof.
  intros [W O] Hnew N. destruct (tb_init_jumps_fresh J tb) as [F1 F2 [F3 _] F4].
  assert (forall t, live t -> t <> tb) as Hne by (intros t Ht ->; done).
  split; [split|].
  - intros t [Ht| ->]; unfold no_inc; rewrite F1; [|by rewrite !decide_True by done].
    rewrite !decide_False by auto. eapply lseg_frame; [|by apply W]. intros [u n] Hc.
    rewrite F2; [|exact (inc_tag _ _ _ W t _ Ht Hc)]. rewrite decide_False; [done|]. apply Hne. exact (jw_src _ _ _ W t _ Ht Hc).
  - intros t c [Ht| ->] Hc; unfold no_inc in Hc; case_decide; try done; try (by apply not_elem_of_nil in Hc).
    left. by eapply W.
  - intros u n [Hu| ->] Hn Hx; rewrite F2 in Hx by done; case_decide; try done; try (by destruct Hx).
    destruct (jw_in _ _ _ W u n Hu Hn Hx) as (t & Ht & Hin). exists t. split; [by left|]. unfold no_inc. by rewrite decide_False by auto.
  - intros t c [Ht| ->] Hc; unfold no_inc in Hc; case_decide; try done; try (by apply not_elem_of_nil in Hc).
    rewrite F4; [by eapply W|]. apply Hne. by eapply W.
  - intros u n Hu Hn Hx Hj. assert (has_jump J (u, n)) as Hj'.
    { unfold has_jump, next_offset in *. by rewrite F3 in Hj. }
    assert (next_offset (tb_init_jumps J tb) (u, n) = next_offset J (u, n)) as -> by (unfold next_offset; by rewrite F3).
    destruct (decide (u = tb)) as [->|Hut]; [by apply (tb_init_jumps_own (add_block tb live))|].
    destruct Hu as [Hu|]; [|done]. rewrite F4 by done. rewrite F2, decide_False in Hx by done. by apply O.
Qed.

End Code.

(** The code of the live blocks stays where it is. *)
Lemma jumps_wf_ext tc tc' live inc J J' : (forall t, live t -> tc' t = tc t) ->
  jmp_next J' = jmp_next J -> jmp_first J' = jmp_first J -> jmp_word J' = jmp_word J ->
  (forall c, live c.1 -> next_offset J' c = next_offset J c /\ jmp_offset J' c = jmp_offset J c) ->
  jumps_wf tc live inc J -> jumps_wf tc' live inc J'.
Proof.
  intros Htc Hn Hf Hw Ho [W O].
  assert (forall c, live c.1 -> jmp_dest tc' J' c = jmp_dest tc J c) as Hd.
  { intros c Hc. unfold jmp_dest, jmp_addr. destruct (Ho c Hc) as [_ ->]. by rewrite Hw, Htc. }
  split; [split|].
  - intros t Ht. rewrite Hn, Hf. by apply W.
  - intros t c Ht Hc. by eapply W.
  - intros u n Hu Hl. rewrite Hn. by apply W.
  - intros t c Ht Hc. rewrite Hd, Htc by (try done; by eapply W). by eapply W.
  - intros u n Hu Hl. rewrite Hn. unfold has_jump. rewrite Hd by done. destruct (Ho (u, n) Hu) as [-> _].
    rewrite Htc by done. by apply O.
Qed.

Lemma jumps_wf_live tc live live' inc J : (forall t, live t <-> live' t) -> jumps_wf tc live inc J -> jumps_wf tc live' inc J.
Proof.
  intros H [W O]. split; [split|].
  - intros t Ht. apply W. by apply H.
  - intros t c Ht Hc. apply H. eapply W; [by apply H|done].
  - intros u n Hu Hl Hx. destruct (jw_in _ _ _ _ W u n (proj2 (H u) Hu) Hl Hx) as (t & Ht & ?). exists t. split; [by apply H|done].
  - intros t c Ht Hc. eapply W; [by apply H|done].
  - intros u n Hu. apply O. by apply H.
Qed.

(** ** Unlinking everything a block can run into

    [tb_reset_jump_recursive] follows the direct jumps from a block and removes them; it
    ends because every call of it removes one. *)
Section Recursive.
Context (tc_ptr : nat -> Z) (live : nat -> Prop).

Definition edge (inc : nat -> list cell) (u t : nat) : Prop := live t /\ exists n, (u, n) ∈ inc t.

(** No direct jump leaves [u]. *)
Definition quiet (inc : nat -> list cell) (u : nat) : Prop := forall t n, live t -> (u, n) ∉ inc t.

(** The jumps that are removed leave blocks that [tb] runs into, and whatever their targets
    run into is quiet afterwards. *)
Record cut (tb : nat) (inc inc' : nat -> list cell) : Prop := {
  cut_sub : forall t c, live t -> c ∈ inc' t -> c ∈ inc t;
  cut_src : forall t c, live t -> c ∈ inc t -> c ∉ inc' t -> rtc (edge inc) tb c.1;
  cut_quiet : forall t c u, live t -> c ∈ inc t -> c ∉ inc' t -> rtc (edge inc) t u -> quiet inc' u
}.

Lemma edge_mono inc inc' : (forall t c, live t -> c ∈ inc' t -> c ∈ inc t) ->
  forall u t, rtc (edge inc') u t -> rtc (edge inc) u t.
Proof. intros H u t. apply rtc_subrel. intros v w [Hw [n Hn]]. split; [done|]. exists n. by apply H. Qed.

(** A path either is kept or is kept from the target of its last removed jump on. *)
Lemma rtc_cut inc inc' u t : rtc (edge inc) t u ->
  rtc (edge inc') t u \/ exists w c, live w /\ c ∈ inc w /\ (c ∉ inc' w) /\ rtc (edge inc') w u.
Proof.
  induction 1 as [u|t w u [Hw [n Hn]] Hr IH]; [by left|].
  destruct IH as [IH|?]; [|by right]. destruct (decide ((t, n) ∈ inc' w)) as [Hi|Hi].
  - left. eapply rtc_l; [|exact IH]. split; [done|]. by exists n.
  - right. by exists w, (t, n).
Qed.

Lemma cut_refl tb inc : cut tb inc inc.
Proof. by split. Qed.

Lemma quiet_sub inc inc' u : (forall t c, live t -> c ∈ inc' t -> c ∈ inc t) -> quiet inc u -> quiet inc' u.
Proof. intros H Hq t n Ht Hin. apply (Hq t n Ht). by apply H. Qed.

Lemma cut_trans tb inc inc1 inc2 : cut tb inc inc1 -> cut tb inc1 inc2 -> cut tb inc inc2.
Proof.
  intros [S1 R1 Q1] [S2 R2 Q2]. split.
  - eauto.
  - intros t c Ht Hc Hn. destruct (decide (c ∈ inc1 t)) as [Hi|Hi]; [|by eauto].
    eapply edge_mono; [exact S1|]. by eauto.
  - intros t c u Ht Hc Hn Hr. destruct (decide (c ∈ inc1 t)) as [Hi|Hi].
    + destruct (rtc_cut inc inc1 u t Hr) as [Hr1|(w & d & Hw & Hd & Hd' & Hr1)].
      * by eapply Q2.
      * apply (quiet_sub inc1); [done|]. eapply (Q1 w d u); try done. by eapply edge_mono.
    + apply (quiet_sub inc1); [done|]. by eapply Q1.
Qed.

(** Both jumps of [tb] removed: it runs into nothing. *)
Lemma cut_all tb inc inc' : cut tb inc inc' -> (forall t c, live t -> c ∈ inc t -> (c.2 < 2)%nat) ->
  (forall t n, live t -> (n < 2)%nat -> (tb, n) ∉ inc' t) -> forall u, rtc (edge inc) tb u -> quiet inc' u.
Proof.
  intros [S R Q] Htag Hout u Hr. inversion Hr as [|? w ? [Hw [n Hn]] Hr']; subst.
  - intros t n Ht Hin. eapply (Hout t n Ht); [|done]. by apply (Htag t (u, n) Ht), S.
  - apply (Q w (tb, n) u); try done. apply Hout; [done|]. by apply (Htag w (tb, n)).
Qed.

(** Removing the jump [c] from [tb] to [h], and then everything [h] runs into. *)
Lemma cut_step tb n h inc inc' : live h -> (tb, n) ∈ inc h ->
  (forall t, live t -> (tb, n) ∈ inc t -> t = h) ->
  cut h (fun t => drop_cell (tb, n) (inc t)) inc' ->
  (forall u, rtc (edge (fun t => drop_cell (tb, n) (inc t))) h u -> quiet inc' u) -> cut tb inc inc'.
Proof.
  intros Hh Hin Huniq [S R Q] Hall. set (inc0 := fun t => drop_cell (tb, n) (inc t)) in *.
  assert (forall t c, c ∈ inc0 t <-> c <> (tb, n) /\ c ∈ inc t) as Hel.
  { intros t c. unfold inc0, drop_cell. by rewrite list_elem_of_filter. }
  assert (forall t c, live t -> c ∈ inc0 t -> c ∈ inc t) as Hsub by (intros t c _ Hc; by apply Hel in Hc as [_ ?]).
  assert (forall t u, rtc (edge inc) t u -> rtc (edge inc0) t u \/ rtc (edge inc0) h u) as Hpath.
  { intros t u Hr. destruct (rtc_cut inc inc0 u t Hr) as [|(w & c & Hw & Hc & Hc' & Hr')]; [by left|]. right.
    assert (c = (tb, n)) as -> by (destruct (decide (c = (tb, n))); [done|]; destruct Hc'; by apply Hel).
    by rewrite <- (Huniq w Hw Hc). }
  split.
  - intros t c Ht Hc. apply (Hsub t c Ht). by apply S.
  - intros t c Ht Hc Hn. destruct (decide (c = (tb, n))) as [->|Hne]; [done|].
    eapply rtc_l; [split; [exact Hh|by exists n]|]. eapply edge_mono; [exact Hsub|]. eapply R; try done. by apply Hel.
  - intros t c u Ht Hc Hn Hr. destruct (decide (c = (tb, n))) as [->|Hne].
    + rewrite (Huniq t Ht Hc) in Hr. destruct (Hpath h u Hr) as [|]; by apply Hall.
    + destruct (Hpath t u Hr) as [Hr'|]; [|by apply Hall]. eapply (Q t c u Ht); try done. by apply Hel.
Qed.

(** What the function leaves. *)
Record reset_post (tb : nat) (inc : nat -> list cell) (J : Jumps) (inc' : nat -> list cell) (J' : Jumps) : Prop := {
  rp_wf : jumps_wf tc_ptr live inc' J';
  rp_cut : cut tb inc inc';
  rp_offsets : tb_next_offset J' = tb_next_offset J /\ tb_jmp_offset J' = tb_jmp_offset J;
  rp_size : (size (jmp_next J') <= size (jmp_next J))%nat
}.

Lemma size_take_off J J' c : is_Some (jmp_next J !! c) ->
  (forall d, is_Some (jmp_next J' !! d) <-> d <> c /\ is_Some (jmp_next J !! d)) ->
  (size (jmp_next J') < size (jmp_next J))%nat.
Proof.
  intros Hc Hd. rewrite <- !(size_dom (D := gset cell)). apply subset_size. split.
  - intros d. rewrite !elem_of_dom. intros Hx. by apply Hd in Hx as [_ ?].
  - intros Hsub. assert (c ∈ dom (jmp_next J')) as Hx by (apply Hsub, elem_of_dom, Hc).
    apply elem_of_dom, Hd in Hx as [? _]. done.
Qed.


(** One jump, the recursive calls being correct. *)
Lemma recursive2_spec fuel n tb inc J :
  (forall J inc tb, jumps_wf tc_ptr live inc J -> code_near tc_ptr live J -> live tb -> (size (jmp_next J) < fuel)%nat ->
    exists J' inc', tb_reset_jump_recursive tc_ptr fuel J tb = Some J' /\ reset_post tb inc J inc' J' /\
      forall t n, live t -> (n < 2)%nat -> (tb, n) ∉ inc' t) ->
  jumps_wf tc_ptr live inc J -> code_near tc_ptr live J -> live tb -> (n < 2)%nat -> (size (jmp_next J) < S fuel)%nat ->
  exists J' inc', tb_reset_jump_recursive2 tc_ptr (tb_reset_jump_recursive tc_ptr fuel) J tb n = Some J' /\ reset_post tb inc J inc' J' /\ forall t, live t -> (tb, n) ∉ inc' t.
Proof.
  intros IH [W O] N Htb Hn Hsz. unfold tb_reset_jump_recursive2. destruct (jmp_next J !! (tb, n)) as [c|] eqn:Ec.
  - destruct (jw_in _ _ _ _ W tb n Htb Hn (ex_intro _ c Ec)) as (h & Hh & Hin).
    pose proof (list_elem_of_split _ _ Hin) as (l1 & l2 & Hinc).
    pose proof (take_off_facts _ _ _ _ W h Hh _ _ _ Hinc) as (Hc1 & Hl1 & Hs).
    pose proof (inc_length _ _ _ _ W h Hh) as Hlen. rewrite Hinc, length_app in Hlen. cbn [length] in Hlen.
    assert (find_head (walk_fuel J) J (Some c) = Some h) as ->.
    { pose proof (jw_ring _ _ _ _ W h Hh) as H. rewrite Hinc in H. apply lseg_app in H as (m & _ & H).
      destruct H as (_ & _ & H). rewrite Ec in H. eapply find_head_spec; [|exact H]. unfold walk_fuel. lia. }
    cbn [mbind option_bind].
    assert (find_from_head (walk_fuel J) J tb n (in_first h) = Some (before (in_first h) l1)) as ->.
    { apply (find_from_head_spec tc_ptr J tb n l1 (in_first h)); [unfold walk_fuel; lia|done..]. }
    cbn [mbind option_bind]. rewrite <- Ec. fold (take_off J (before (in_first h) l1) (tb, n)).
    set (J1 := take_off J (before (in_first h) l1) (tb, n)). set (inc0 := fun t => drop_cell (tb, n) (inc t)).
    pose proof (take_off_wf _ _ _ _ W h Hh _ _ _ Hinc) as W1. fold J1 in W1. fold inc0 in W1.
    assert (forall d, is_Some (jmp_next J1 !! d) <-> d <> (tb, n) /\ is_Some (jmp_next J !! d)) as Hx1
      by (intros d; by apply take_off_next).
    assert (tb_next_offset J1 = tb_next_offset J /\ tb_jmp_offset J1 = tb_jmp_offset J) as [No Jo] by (unfold J1, take_off; by destruct (before _ _)).
    assert (forall d, jmp_dest tc_ptr J1 d = jmp_dest tc_ptr J d) as D1 by (intros d; apply take_off_dest).
    assert (forall t d, live t -> d ∈ inc0 t -> d <> (tb, n)) as Hne0
      by (intros t d _; unfold inc0, drop_cell; rewrite list_elem_of_filter; naive_solver).
    assert (code_near tc_ptr live J1) as N1 by (intros t Ht; unfold next_offset, jmp_offset; rewrite No, Jo; by apply N).
    assert (jumps_wf tc_ptr live inc0 (tb_reset_jump tc_ptr J1 tb n)) as WJ.
    { split; [split; try apply W1|].
      - intros t d Ht Hd. etransitivity; [apply jmp_dest_set_ne; by eapply Hne0|]. by eapply W1.
      - intros u m Hu Hm Hx Hj. destruct (decide ((u, m) = (tb, n))) as [[= -> ->]|Hne].
        + exact (tb_reset_jump_dest tc_ptr live J1 tb n N1 Htb Hn).
        + etransitivity; [by apply jmp_dest_set_ne|]. rewrite D1. unfold has_jump, next_offset in *. cbn in *. rewrite No in *.
          apply O; try done. destruct (jmp_next J !! (u, m)) eqn:E; [|done]. exfalso.
          assert (is_Some (jmp_next J1 !! (u, m))) as Hs1 by (apply Hx1; by rewrite E).
          change (jmp_next J1 !! (u, m) = None) in Hx. rewrite Hx in Hs1. by destruct Hs1. }
    pose proof (size_take_off J J1 (tb, n) Hs Hx1) as Hsz1.
    destruct (IH (tb_reset_jump tc_ptr J1 tb n) inc0 h WJ N1 Hh) as (J' & inc' & -> & [P1 P2 [P3 P3'] P4] & Hout); [change (size (jmp_next J1) < fuel)%nat; lia|].
    exists J', inc'. split; [done|].
    assert (cut tb inc inc') as HC.
    { apply (cut_step tb n h); try done.
      - intros t Ht Hi. by apply (inc_unique _ _ _ _ W t h (tb, n)).
      - apply (cut_all h inc0 inc' P2); [|done]. intros t d Ht Hd. by apply (inc_tag _ _ _ _ W1 t d). }
    split; [split; try done|].
    + split; [by etransitivity; [exact P3|]|by etransitivity; [exact P3'|]].
    + change (size (jmp_next J') <= size (jmp_next J1))%nat in P4. lia.
    + intros t Ht Hi. by apply (Hne0 t (tb, n) Ht (cut_sub _ _ _ P2 t _ Ht Hi)).
  - exists J, inc. split; [done|]. split; [by split|].
    intros t Ht Hc. destruct (inc_next _ _ _ _ W t _ Ht Hc) as [? E]. by rewrite Ec in E.
Qed.

Lemma tb_reset_jump_recursive_spec fuel J inc tb : jumps_wf tc_ptr live inc J -> code_near tc_ptr live J -> live tb ->
  (size (jmp_next J) < fuel)%nat ->
  exists J' inc', tb_reset_jump_recursive tc_ptr fuel J tb = Some J' /\ reset_post tb inc J inc' J' /\
    forall t n, live t -> (n < 2)%nat -> (tb, n) ∉ inc' t.
Proof.
  revert J inc tb. induction fuel as [|fuel IH]; intros J inc tb W N Htb Hsz; [lia|].
  cbn [tb_reset_jump_recursive].
  destruct (recursive2_spec fuel 0 tb inc J IH W N Htb ltac:(lia) Hsz) as (J1 & inc1 & -> & [P1 C1 [O1 O1'] Z1] & H1).
  cbn [mbind option_bind].
  assert (code_near tc_ptr live J1) as N1 by (intros t Ht; unfold next_offset, jmp_offset; rewrite O1, O1'; by apply N).
  destruct (recursive2_spec fuel 1 tb inc1 J1 IH P1 N1 Htb ltac:(lia) ltac:(lia)) as (J2 & inc2 & -> & [P2 C2 [O2 O2'] Z2] & H2).
  exists J2, inc2. split; [done|]. split.
  - split; [done|by eapply cut_trans| |lia]. by rewrite O2, O2'.
  - intros t n Ht Hn. destruct n as [|[|]]; [|by apply H2|lia]. intros Hi. by apply (H1 t Ht), (cut_sub _ _ _ C2).
Qed.

End Recursive.
