(* ===== verification/TbPages.v ===== *)
(** * Guest pages and the blocks they hold

    Model of the page table of the user-mode emulation (src/emul/qemu/exec.c): the map
    [l1_map] from page numbers to [PageDesc]s ([page_find_alloc], [page_find]), the list of
    the blocks that intersect a page ([tb_alloc_page], [tb_page_remove], [page_flush_tb]),
    the bitmap of translated bytes ([set_bits], [build_page_bitmap],
    [invalidate_page_bitmap]) and the protection of pages that hold code.

    The guest has 32-bit addresses and pages of 4 KiB, which are the pages of the host as
    well: the table has two levels, so that the loop of [page_find_alloc] over intermediate
    levels is empty.  A pointer to a [PageDesc] is the number of its page; memory for the
    lower level is cleared when it is allocated.  The host protection of a page, set by
    [mprotect], follows the flag [PAGE_WRITE].  [None] is a NULL pointer followed, or a loop
    that does not end. *)

From S2P Require Import Prelude TbCache TbLists.
Open Scope Z_scope.

Definition PAGE_READ : Z := 1.
Definition PAGE_WRITE : Z := 2.
Definition PAGE_EXEC : Z := 4.
Definition PAGE_VALID : Z := 8.
Definition PAGE_WRITE_ORG : Z := 16.
Definition SMC_BITMAP_USE_THRESHOLD : Z := 10.
Definition L2_BITS : Z := 10.
Definition L2_SIZE : Z := Z.shiftl 1 L2_BITS.
Definition V_L1_BITS : Z := 10.
Definition V_L1_SIZE : Z := Z.shiftl 1 V_L1_BITS.
Definition V_L1_SHIFT : Z := 10.
Definition qemu_host_page_size : Z := 4096.
Definition qemu_host_page_mask : Z := Z.lnot (qemu_host_page_size - 1).

Record PageDesc := mkPageDesc {
  first_tb : option cell;
  code_write_count : Z;
  code_bitmap : option (list Z);
  flags : Z
}.

Definition zero_page : PageDesc := mkPageDesc None 0 None 0.
Definition set_first_tb (p : PageDesc) (v : option cell) : PageDesc :=
  mkPageDesc v (code_write_count p) (code_bitmap p) (flags p).
Definition set_flags (p : PageDesc) (f : Z) : PageDesc :=
  mkPageDesc (first_tb p) (code_write_count p) (code_bitmap p) f.
Definition set_bitmap (p : PageDesc) (n : Z) (b : option (list Z)) : PageDesc :=
  mkPageDesc (first_tb p) n b (flags p).

Record Pages := mkPages {
  l1_map : gmap Z (gmap Z PageDesc);
  page_next : gmap cell cell
}.

(** ** The table *)

Definition l1_index (index : Z) : Z := Z.land (Z.shiftr index V_L1_SHIFT) (V_L1_SIZE - 1).
Definition l2_index (index : Z) : Z := Z.land index (L2_SIZE - 1).

Definition page_find (P : Pages) (index : Z) : option PageDesc :=
  pd ← l1_map P !! l1_index index;
  Some (default zero_page (pd !! l2_index index)).

(** [page_find_alloc(index, 1)] *)
Definition page_find_alloc (P : Pages) (index : Z) : Pages :=
  match l1_map P !! l1_index index with
  | Some _ => P
  | None => mkPages (<[l1_index index := ∅]> (l1_map P)) (page_next P)
  end.

(** Assignment through a pointer to a [PageDesc]. *)
Definition set_page (P : Pages) (index : Z) (p : PageDesc) : option Pages :=
  pd ← l1_map P !! l1_index index;
  Some (mkPages (<[l1_index index := <[l2_index index := p]> pd]> (l1_map P)) (page_next P)).

Definition set_page_next (P : Pages) (c : cell) (v : option cell) : Pages :=
  mkPages (l1_map P) (set_link (page_next P) c v).

Definition invalidate_page_bitmap (p : PageDesc) : PageDesc := set_bitmap p 0 None.

(** All the pages of the allocated lower tables. *)
Definition page_flush_tb (P : Pages) : Pages :=
  mkPages ((fun pd : gmap Z PageDesc => (fun p => invalidate_page_bitmap (set_first_tb p None)) <$> pd) <$> l1_map P)
    (page_next P).

(** ** The list of a page *)

(** The variable [ptb]: the address of [first_tb] of a page or of an element of
    [page_next]. *)
Inductive page_place := at_first (index : Z) | at_next (c : cell).

Definition page_get (P : Pages) (ptb : page_place) : option cell :=
  match ptb with at_first i => p ← page_find P i; first_tb p | at_next c => page_next P !! c end.
Definition page_put (P : Pages) (ptb : page_place) (v : option cell) : option Pages :=
  match ptb with
  | at_first i => p ← page_find P i; set_page P i (set_first_tb p v)
  | at_next c => Some (set_page_next P c v)
  end.

Fixpoint find_in_page (fuel : nat) (P : Pages) (tb : nat) (ptb : page_place) : option (page_place * nat) :=
  match fuel with
  | O => None
  | S fuel =>
      '(tb1, n1) ← page_get P ptb;
      if (tb1 =? tb)%nat then Some (ptb, n1) else find_in_page fuel P tb (at_next (tb1, n1))
  end.

(** The argument [&p->first_tb] is the page. *)
Definition tb_page_remove (P : Pages) (index : Z) (tb : nat) : option Pages :=
  '(ptb, n1) ← find_in_page (2 + size (page_next P)) P tb (at_first index);
  page_put P ptb (page_next P !! (tb, n1)).

(** ** Protection *)

(** The pages of a host page; [addr] has 32 bits, [bound] has 64.  A host page holds one
    page, so that a third round means that [addr] has wrapped around. *)
Fixpoint protect_pages (fuel : nat) (P : Pages) (addr bound : Z) : option Pages :=
  match fuel with
  | O => None
  | S fuel =>
      if addr <? bound then
        P ← match page_find P (Z.shiftr addr TARGET_PAGE_BITS) with
            | None => Some P
            | Some p2 => set_page P (Z.shiftr addr TARGET_PAGE_BITS) (set_flags p2 (Z.land (flags p2) (Z.lnot PAGE_WRITE)))
            end;
        protect_pages fuel P (uint32_t (addr + TARGET_PAGE_SIZE)) bound
      else Some P
  end.

(** [tb_alloc_page]; [page_addr[n]] of the block is set by [tb_link_page]. *)
Definition tb_alloc_page (P : Pages) (tb n : nat) (page_addr : Z) : option Pages :=
  let index := Z.shiftr page_addr TARGET_PAGE_BITS in
  let P := page_find_alloc P index in
  p ← page_find P index;
  let P := set_page_next P (tb, n) (first_tb p) in
  P ← set_page P index (invalidate_page_bitmap (set_first_tb p (Some (tb, n))));
  if Z.land (flags p) PAGE_WRITE =? 0 then Some P
  else
    let page_addr := Z.land page_addr qemu_host_page_mask in
    protect_pages 2 P page_addr (page_addr + qemu_host_page_size).

Definition page_get_flags (P : Pages) (address : Z) : Z :=
  match page_find P (Z.shiftr address TARGET_PAGE_BITS) with None => 0 | Some p => flags p end.

(** ** Lookup after assignment *)

Definition page_index (i : Z) : Prop := in_u 20 i.

Lemma l1_l2_inj i j : page_index i -> page_index j -> l1_index i = l1_index j -> l2_index i = l2_index j -> i = j.
Proof.
  unfold page_index, in_u, l1_index, l2_index. change (V_L1_SIZE - 1) with (Z.ones 10). change (L2_SIZE - 1) with (Z.ones 10).
  rewrite !Z.land_ones by lia. rewrite !Z.shiftr_div_pow2 by (unfold V_L1_SHIFT; lia). change (2 ^ V_L1_SHIFT) with 1024.
  change (2 ^ 10) with 1024. change (2 ^ 20) with 1048576. intros. Z.to_euclidean_division_equations. lia.
Qed.

Lemma page_find_set P P' i j p : page_index i -> page_index j -> set_page P i p = Some P' ->
  page_find P' j = if decide (j = i) then Some p else page_find P j.
Proof.
  intros Hi Hj. unfold set_page, page_find. destruct (l1_map P !! l1_index i) as [pd|] eqn:E; cbn [mbind option_bind]; [|done].
  intros [= <-]. cbn [l1_map]. destruct (decide (l1_index j = l1_index i)) as [E1|E1].
  - rewrite E1, lookup_insert_eq, E. cbn. case_decide as Hd; [subst j; by rewrite lookup_insert_eq|].
    rewrite lookup_insert_ne; [done|]. intros E2. apply Hd. by apply l1_l2_inj.
  - rewrite lookup_insert_ne by done. rewrite decide_False; [done|]. by intros ->.
Qed.

Lemma set_page_Some P i p q : page_find P i = Some q ->
  exists P', set_page P i p = Some P' /\ page_next P' = page_next P.
Proof.
  unfold page_find, set_page. destruct (l1_map P !! l1_index i) as [pd|] eqn:E; cbn [mbind option_bind]; [|done].
  intros _. by eexists.
Qed.

Lemma set_page_next_eq P i p P' : set_page P i p = Some P' -> page_next P' = page_next P.
Proof. unfold set_page. destruct (l1_map P !! _); cbn; [|done]. by intros [= <-]. Qed.

Lemma page_find_alloc_spec P i : page_index i -> let P' := page_find_alloc P i in
  page_next P' = page_next P /\ page_find P' i = Some (default zero_page (page_find P i)) /\
  forall j, page_index j -> page_find P' j = page_find P j \/ page_find P j = None /\ page_find P' j = Some zero_page.
Proof.
  intros Hi P'. unfold P', page_find_alloc, page_find.
  destruct (l1_map P !! l1_index i) as [pd|] eqn:E; cbn [mbind option_bind l1_map page_next].
  - rewrite E. cbn. split; [done|]. split; [done|]. intros j _. by left.
  - rewrite lookup_insert_eq. cbn. rewrite lookup_empty. split; [done|]. split; [done|]. intros j Hj.
    destruct (decide (l1_index j = l1_index i)) as [E1|E1].
    + right. rewrite E1, E, lookup_insert_eq. cbn. by rewrite lookup_empty.
    + left. by rewrite lookup_insert_ne.
Qed.

Lemma page_find_flush P i :
  page_find (page_flush_tb P) i = (fun p => invalidate_page_bitmap (set_first_tb p None)) <$> page_find P i.
Proof.
  unfold page_find, page_flush_tb. cbn [l1_map]. rewrite lookup_fmap.
  destruct (l1_map P !! l1_index i) as [pd|]; cbn; [|done]. rewrite lookup_fmap. by destruct (pd !! l2_index i).
Qed.

(** ** The lists of all pages

    [lst i] are the blocks of page [i], each with the number of the page among those of the
    block. *)

Definition first_of (P : Pages) (i : Z) : option cell := p ← page_find P i; first_tb p.
Definition flags_at (P : Pages) (i : Z) : Z := match page_find P i with None => 0 | Some p => flags p end.

Record pages_wf (lst : Z -> list cell) (P : Pages) : Prop := {
  pg_list : forall i, page_index i -> lseg (page_next P) (first_of P i) (lst i) None;
  pg_disj : forall i j c, page_index i -> page_index j -> c ∈ lst i -> c ∈ lst j -> i = j;
  pg_once : forall i, page_index i -> NoDup (lst i).*1
}.

(** What an operation that assigns [first_tb] leaves alone. *)
Definition same_flags (P P' : Pages) : Prop := forall i, page_index i -> flags <$> page_find P' i = flags <$> page_find P i.

Lemma same_flags_at P P' i : same_flags P P' -> page_index i -> flags_at P' i = flags_at P i.
Proof. intros H Hi. specialize (H i Hi). unfold flags_at. destruct (page_find P' i), (page_find P i); cbn in H; congruence. Qed.

Lemma same_flags_found P P' i : same_flags P P' -> page_index i -> is_Some (page_find P i) -> is_Some (page_find P' i).
Proof. intros H Hi. specialize (H i Hi). destruct (page_find P' i), (page_find P i); cbn in H; try done; by intros [? ?]. Qed.

Lemma same_flags_set P P' i p q : page_index i -> page_find P i = Some p -> flags q = flags p -> set_page P i q = Some P' -> same_flags P P'.
Proof. intros Hi Ep Ef E j Hj. rewrite (page_find_set P P' i j q) by done. case_decide as Hd; [|done]. subst j. rewrite Ep. cbn. by rewrite Ef. Qed.

Definition page_before (i : Z) (l1 : list cell) : page_place :=
  match last l1 with None => at_first i | Some d => at_next d end.

Lemma find_in_page_spec P tb n l1 ptb fuel : (length l1 < fuel)%nat -> tb ∉ l1.*1 ->
  lseg (page_next P) (page_get P ptb) l1 (Some (tb, n)) ->
  find_in_page fuel P tb ptb = Some (match last l1 with None => ptb | Some d => at_next d end, n).
Proof.
  revert ptb fuel. induction l1 as [|[u m] l1 IH]; intros ptb [|fuel] Hf Hn; cbn [lseg find_in_page length] in *; try lia.
  - intros ->. cbn. by rewrite Nat.eqb_refl.
  - intros (-> & Ht & Hl). cbn [mbind option_bind]. destruct (Nat.eqb_spec u tb) as [->|Hne]; [set_solver|].
    rewrite (IH (at_next (u, m)) fuel); [|lia|set_solver|exact Hl]. rewrite last_cons. by destruct (last l1).
Qed.

Lemma first_of_set P P' i j p : page_index i -> page_index j -> set_page P i p = Some P' ->
  first_of P' j = if decide (j = i) then first_tb p else first_of P j.
Proof. intros Hi Hj E. unfold first_of. rewrite (page_find_set P P' i j p) by done. by case_decide. Qed.

Lemma flags_at_set P P' i j p : page_index i -> page_index j -> set_page P i p = Some P' ->
  flags_at P' j = if decide (j = i) then flags p else flags_at P j.
Proof. intros Hi Hj E. unfold flags_at. rewrite (page_find_set P P' i j p) by done. by case_decide. Qed.

(** Writing a pointer of the list of page [i]. *)
Lemma page_put_spec P i l1 d v : page_index i -> first_of P i = Some d ->
  exists P', page_put P (page_before i l1) v = Some P' /\ same_flags P P' /\
    (forall j, page_index j -> first_of P' j = if decide (j = i /\ l1 = []) then v else first_of P j) /\
    page_next P' = (match last l1 with None => page_next P | Some e => set_link (page_next P) e v end).
Proof.
  intros Hi Hf. unfold page_before. destruct l1 as [|e l1 _] using rev_ind; cbn [last page_put].
  - unfold first_of in Hf. destruct (page_find P i) as [p|] eqn:Ep; [|done]. cbn [mbind option_bind].
    destruct (set_page_Some P i (set_first_tb p v) p Ep) as (P' & E & Hn). exists P'. split; [done|]. split_and!.
    + exact (same_flags_set P P' i p (set_first_tb p v) Hi Ep eq_refl E).
    + intros j Hj. rewrite (first_of_set P P' i j (set_first_tb p v)) by done. case_decide; case_decide; naive_solver.
    + done.
  - rewrite last_snoc. cbn [page_put]. eexists. split; [reflexivity|]. split_and!; [done| |done].
    intros j Hj. rewrite decide_False; [done|]. intros [_ H]. by destruct l1.
Qed.

Section Remove.
Context (lst : Z -> list cell) (P : Pages) (W : pages_wf lst P).

Lemma lst_NoDup i : page_index i -> NoDup (lst i).
Proof. intros Hi. apply (NoDup_fmap_1 fst). by apply W. Qed.

Lemma first_nil i : page_index i -> first_of P i = None <-> lst i = [].
Proof.
  intros Hi. pose proof (pg_list _ _ W i Hi) as H. destruct (lst i) as [|c l]; cbn in H.
  - done.
  - destruct H as [-> _]. done.
Qed.

(** [tb_page_remove] takes the block off the list of the page. *)
Lemma tb_page_remove_spec i tb n : page_index i -> (tb, n) ∈ lst i ->
  exists P', tb_page_remove P i tb = Some P' /\ pages_wf (fun j => drop_cell (tb, n) (lst j)) P' /\ same_flags P P'.
Proof.
  intros Hi Hin. pose proof (list_elem_of_split _ _ Hin) as (l1 & l2 & Hl).
  pose proof (pg_list _ _ W i Hi) as H. rewrite Hl in H.
  pose proof (pg_once _ _ W i Hi) as Ho. rewrite Hl, fmap_app in Ho. apply NoDup_app in Ho as (_ & Ho & _).
  assert (tb ∉ l1.*1) as Hn1. { intros Hx. apply (Ho tb Hx). rewrite fmap_cons. cbn. set_solver. }
  pose proof (lseg_NoDup _ _ _ None I H) as Hnd. pose proof (lseg_length _ _ _ None I H) as Hlen.
  rewrite length_app in Hlen. cbn [length] in Hlen.
  assert (lseg (page_next P) (first_of P i) l1 (Some (tb, n))) as H1.
  { apply lseg_app in H as (m & H1 & H2). cbn in H2. by destruct H2 as [-> _]. }
  unfold tb_page_remove. rewrite (find_in_page_spec P tb n l1 (at_first i)); [|lia|done|exact H1].
  cbn [mbind option_bind]. fold (page_before i l1).
  assert (exists d, first_of P i = Some d) as [d Hd].
  { destruct l1 as [|d l1]; cbn in H1; [by exists (tb, n)|]. exists d. by destruct H1. }
  destruct (page_put_spec P i l1 d (page_next P !! (tb, n)) Hi Hd) as (P' & E & Hsf & Hf & Hnx).
  rewrite E. exists P'. split; [done|]. split; [|done]. split.
  - intros j Hj. rewrite Hf by done. destruct (decide (j = i)) as [->|Hne].
    + rewrite Hl, drop_cell_mid by done. rewrite Hnx. destruct l1 as [|e l1 _] using rev_ind; cbn [last app].
      * rewrite decide_True by done. by apply lseg_remove_first in H.
      * rewrite last_snoc. rewrite decide_False by (intros [_ X]; by destruct l1). rewrite <- app_assoc in *. cbn [app] in *.
        by apply lseg_remove_next.
    + rewrite decide_False by naive_solver. rewrite drop_cell_none.
      * eapply lseg_frame; [|by apply W]. intros c Hc. rewrite Hnx. destruct (last l1) as [e|] eqn:Ee; [|done].
        apply set_link_ne. intros ->. apply last_Some_elem_of in Ee. apply Hne. apply (pg_disj _ _ W j i c); try done.
        rewrite Hl. set_solver.
      * intros Hc. apply Hne. by apply (pg_disj _ _ W j i (tb, n)).
  - intros j k c Hj Hk Hc Hc'. apply elem_of_drop_cell in Hc as [_ Hc]. apply elem_of_drop_cell in Hc' as [_ Hc'].
    by apply (pg_disj _ _ W j k c).
  - intros j Hj. unfold drop_cell. eapply sublist_NoDup; [by apply (pg_once _ _ W j)|].
    apply fmap_sublist. apply sublist_filter.
Qed.

End Remove.

(** ** Adding a block to a page *)

Lemma shiftr_page i : Z.shiftr (Z.shiftl i TARGET_PAGE_BITS) TARGET_PAGE_BITS = i.
Proof. rewrite Z.shiftr_shiftl_l by (unfold TARGET_PAGE_BITS; lia). apply Z.shiftl_0_r. Qed.

Lemma page_addr_host i : Z.land (Z.shiftl i TARGET_PAGE_BITS) qemu_host_page_mask = Z.shiftl i TARGET_PAGE_BITS.
Proof.
  change qemu_host_page_mask with (Z.lnot (Z.ones TARGET_PAGE_BITS)).
  rewrite <- Z.ldiff_land, Z.ldiff_ones_r by (unfold TARGET_PAGE_BITS; lia). by rewrite shiftr_page.
Qed.

(** One round of the loop clears the flag of the page itself. *)
Lemma protect_pages_spec P i p : page_index i -> i < 1048575 -> page_find P i = Some p ->
  exists P', protect_pages 2 P (Z.shiftl i TARGET_PAGE_BITS) (Z.shiftl i TARGET_PAGE_BITS + qemu_host_page_size) = Some P' /\
    set_page P i (set_flags p (Z.land (flags p) (Z.lnot PAGE_WRITE))) = Some P'.
Proof.
  intros Hi Ht Ep. cbn [protect_pages]. destruct (Z.ltb_spec (Z.shiftl i TARGET_PAGE_BITS) (Z.shiftl i TARGET_PAGE_BITS + qemu_host_page_size));
    [|unfold qemu_host_page_size in *; lia].
  rewrite shiftr_page, Ep. destruct (set_page_Some P i (set_flags p (Z.land (flags p) (Z.lnot PAGE_WRITE))) p Ep) as (P' & E & _).
  rewrite E. cbn [mbind option_bind].
  assert (uint32_t (Z.shiftl i TARGET_PAGE_BITS + TARGET_PAGE_SIZE) = Z.shiftl i TARGET_PAGE_BITS + qemu_host_page_size) as ->.
  { rewrite Z.shiftl_mul_pow2 by (unfold TARGET_PAGE_BITS; lia). change (2 ^ TARGET_PAGE_BITS) with 4096.
    change TARGET_PAGE_SIZE with 4096. change qemu_host_page_size with 4096. unfold page_index in Hi.
    unfold in_u in Hi. change (2 ^ 20) with 1048576 in Hi. cint. }
  rewrite Z.ltb_irrefl. by exists P'.
Qed.

Lemma land_lnot_write f : Z.land (Z.land f (Z.lnot PAGE_WRITE)) PAGE_WRITE = 0.
Proof. rewrite <- Z.land_assoc, (Z.land_comm (Z.lnot _)), Z.land_lnot_diag. apply Z.land_0_r. Qed.

(** The lists with [tb] in front of page [i]. *)
Definition add_cell (i : Z) (c : cell) (lst : Z -> list cell) (j : Z) : list cell :=
  if decide (j = i) then c :: lst j else lst j.

(** The assignments to the two pointers. *)
Lemma push_cell_wf lst P P1 i p c : pages_wf lst P -> page_index i -> (c.2 < 2)%nat ->
  (forall j, page_index j -> c ∉ lst j) -> c.1 ∉ (lst i).*1 ->
  first_of P i = first_tb p -> page_next P1 = set_link (page_next P) c (first_tb p) ->
  (forall j, page_index j -> first_of P1 j = if decide (j = i) then Some c else first_of P j) ->
  pages_wf (add_cell i c lst) P1.
Proof.
  intros W Hi Ht Hnew Hone Hp Hn Hf.
  assert (forall j, page_index j -> lseg (page_next P1) (first_of P j) (lst j) None) as Hold.
  { intros j Hj. eapply lseg_frame; [|by apply W]. intros d Hd. rewrite Hn. apply set_link_ne. intros <-. by apply (Hnew j). }
  split.
  - intros j Hj. rewrite Hf by done. unfold add_cell. case_decide as Hd; [|by apply Hold]. subst j. cbn [lseg].
    split_and!; [done|done|].
    assert (page_next P1 !! c = first_of P i) as -> by (by rewrite Hn, set_link_eq). by apply Hold.
  - intros j k d Hj Hk. unfold add_cell. assert (forall j, page_index j -> d ∈ (if decide (j = i) then c :: lst j else lst j) ->
      d = c /\ j = i \/ d ∈ lst j) as Hcase. { intros j' _. case_decide; set_solver. }
    intros Hd Hd'. apply (Hcase j Hj) in Hd as [[-> ->]|Hd]; apply (Hcase k Hk) in Hd' as [[Hc ->]|Hd'].
    + done.
    + by apply Hnew in Hd'.
    + subst d. by apply Hnew in Hd.
    + by apply (pg_disj _ _ W j k d).
  - intros j Hj. unfold add_cell. case_decide as Hd; [|by apply W]. subst j. rewrite fmap_cons. constructor; [done|]. by apply W.
Qed.

Lemma tb_alloc_page_spec lst P i tb n : pages_wf lst P -> page_index i -> (n < 2)%nat ->
  (forall j, page_index j -> (tb, n) ∉ lst j) -> tb ∉ (lst i).*1 ->
  Z.land (flags_at P i) PAGE_WRITE = 0 \/ i < 1048575 ->
  exists P', tb_alloc_page P tb n (Z.shiftl i TARGET_PAGE_BITS) = Some P' /\ pages_wf (add_cell i (tb, n) lst) P' /\
    is_Some (page_find P' i) /\
    forall j, page_index j -> flags_at P' j = (if decide (j = i) then Z.land (flags_at P i) (Z.lnot PAGE_WRITE) else flags_at P j) /\
      (is_Some (page_find P j) -> is_Some (page_find P' j)).
Proof.
  intros W Hi Hn Hnew Hone Htop. unfold tb_alloc_page. rewrite shiftr_page.
  destruct (page_find_alloc_spec P i Hi) as (Hn0 & Hp0 & Hf0). set (P0 := page_find_alloc P i) in *.
  set (p := default zero_page (page_find P i)) in *. rewrite Hp0. cbn [mbind option_bind].
  assert (first_of P i = first_tb p) as Hfp by (unfold first_of, p; by destruct (page_find P i)).
  assert (flags_at P i = flags p) as Hflp by (unfold flags_at, p; by destruct (page_find P i)).
  assert (forall j, page_index j -> first_of P0 j = first_of P j /\ flags_at P0 j = flags_at P j) as H0.
  { intros j Hj. unfold first_of, flags_at. destruct (Hf0 j Hj) as [->|[-> ->]]; done. }
  set (P1 := set_page_next P0 (tb, n) (first_tb p)).
  set (p1 := invalidate_page_bitmap (set_first_tb p (Some (tb, n)))).
  destruct (set_page_Some P1 i p1 p Hp0) as (P2 & E2 & Hn2). rewrite E2. cbn [mbind option_bind].
  assert (forall j, page_index j -> page_find P2 j = if decide (j = i) then Some p1 else page_find P0 j) as Hpf.
  { intros j Hj. exact (page_find_set P1 P2 i j p1 Hi Hj E2). }
  assert (pages_wf (add_cell i (tb, n) lst) P2) as W2.
  { eapply (push_cell_wf lst P P2 i p (tb, n)); try done.
    - rewrite Hn2. cbn. by rewrite Hn0.
    - intros j Hj. unfold first_of at 1. rewrite Hpf by done. case_decide; [done|]. by apply H0. }
  assert (forall j, page_index j -> is_Some (page_find P j) -> is_Some (page_find P0 j)) as Hs0.
  { intros j Hj Hs. destruct (Hf0 j Hj) as [->|[Ex ->]]; done. }
  assert (forall j, page_index j -> flags_at P2 j = if decide (j = i) then flags p else flags_at P j) as Hfl2.
  { intros j Hj. unfold flags_at at 1. rewrite Hpf by done. case_decide; [done|]. by apply H0. }
  destruct (Z.eqb_spec (Z.land (flags p) PAGE_WRITE) 0) as [Hw|Hw].
  - exists P2. split; [done|]. split; [done|]. split; [rewrite Hpf, decide_True by done; done|]. intros j Hj. split.
    + rewrite Hfl2 by done. case_decide; [|done]. rewrite Hflp. rewrite <- Z.ldiff_land. symmetry.
      apply Z.bits_inj'. intros k Hk. rewrite Z.ldiff_spec. destruct (Z.testbit PAGE_WRITE k) eqn:Eb; [|by rewrite andb_true_r].
      assert (Z.testbit (Z.land (flags p) PAGE_WRITE) k = false) as E by (rewrite Hw; apply Z.bits_0).
      rewrite Z.land_spec, Eb, andb_true_r in E. by rewrite E.
    + intros Hs. rewrite Hpf by done. case_decide; [done|]. by apply Hs0.
  - rewrite page_addr_host. assert (page_find P2 i = Some p1) as Ep2 by (by rewrite Hpf, decide_True).
    destruct Htop as [?|Htop]; [congruence|].
    destruct (protect_pages_spec P2 i p1 Hi Htop Ep2) as (P3 & -> & E3). exists P3. split; [done|].
    assert (forall j, page_index j -> first_of P3 j = first_of P2 j) as Hf3.
    { intros j Hj. rewrite (first_of_set P2 P3 i j (set_flags p1 (Z.land (flags p1) (Z.lnot PAGE_WRITE)))) by done. case_decide as Hd; [|done]. subst j. unfold first_of. by rewrite Ep2. }
    assert (forall j, page_index j -> is_Some (page_find P2 j) -> is_Some (page_find P3 j)) as Hs3.
    { intros j Hj Hs. rewrite (page_find_set P2 P3 i j (set_flags p1 (Z.land (flags p1) (Z.lnot PAGE_WRITE)))) by done. by case_decide. }
    split; [|split].
    + destruct W2 as [A1 A2 A3]. split; try done. intros j Hj. rewrite Hf3 by done. rewrite (set_page_next_eq _ _ _ _ E3). by apply A1.
    + apply Hs3; [done|]. by rewrite Ep2.
    + intros j Hj. split.
      * rewrite (flags_at_set P2 P3 i j (set_flags p1 (Z.land (flags p1) (Z.lnot PAGE_WRITE)))) by done. case_decide; [cbn; by rewrite Hflp|]. rewrite Hfl2 by done. by rewrite decide_False.
      * intros Hs. apply Hs3; [done|]. rewrite Hpf by done. case_decide; [done|]. by apply Hs0.
Qed.

Lemma page_flush_tb_wf P : pages_wf (fun _ => []) (page_flush_tb P) /\ same_flags P (page_flush_tb P).
Proof.
  split.
  - split; [|set_solver|constructor]. intros i Hi. cbn. unfold first_of. rewrite page_find_flush. by destruct (page_find P i).
  - intros i Hi. rewrite page_find_flush. by destruct (page_find P i).
Qed.
