(* ===== verification/TbInvalidate.v ===== *)
(** * Invalidation of translated blocks

    Model of the functions of src/emul/qemu/exec.c that keep the translated blocks in step
    with guest memory: a block is linked into the hash table, into the lists of its one or
    two pages and into the lists of jumps ([tb_link_page], [tb_gen_code]), the pages that
    hold code are write protected, and a write to such a page removes its blocks from all of
    them ([tb_phys_invalidate], [tb_invalidate_phys_page], [tb_invalidate_phys_page_range],
    [page_set_flags], [page_check_range], [page_unprotect]; [handle_cpu_signal] of
    user-exec.c for the store that faults).

    The state is that of TbCache (hash table, jump caches), TbPages and TbJumps, the
    generated code of each block and guest memory.  The translator is the interface
    [Translator].  [TARGET_HAS_PRECISE_SMC] is not defined for ARM.  The block that is being
    executed ([current_tb]) is saved and restored around an invalidation and is not part of
    the state. *)

From S2P Require Import Prelude TbCache TbLists TbJumps TbPages.
Open Scope Z_scope.

(** The translator, [cpu_gen_code] with its result: the host code, the description of the
    block, and the offsets of its two jumps.  It reads the guest code of the block only. *)
Class Translator (Code : Type) := {
  translate : (Z -> Z) -> Z -> Z -> Z -> Z -> Code * Generated * (nat -> Z * Z);
  translate_size : forall mem pc cs f cf, guest_pc pc -> 1 <= g_size (translate mem pc cs f cf).1.2 <= TARGET_PAGE_SIZE;
  translate_code_size : forall mem pc cs f cf, 1 <= g_code_size (translate mem pc cs f cf).1.2;
  translate_offsets : forall mem pc cs f cf n,
    0 <= ((translate mem pc cs f cf).2 n).1 <= 65535 /\ 0 <= ((translate mem pc cs f cf).2 n).2 <= 65535;
  translate_local : forall mem mem' pc cs f cf,
    (forall k, 0 <= k < g_size (translate mem pc cs f cf).1.2 -> mem' (uint32_t (pc + k)) = mem (uint32_t (pc + k))) ->
    translate mem' pc cs f cf = translate mem pc cs f cf
}.

(** The translator as TbCache sees it. *)
Definition gen_at {Code} `{!Translator Code} (mem : Z -> Z) : CodeGen :=
  {| cpu_gen_code pc cs f cf := (translate mem pc cs f cf).1.2;
     gen_size_ok := translate_size mem |}.

Record Machine (Code : Type) := mkMachine {
  cache : TbState;
  pages : Pages;
  jumps : Jumps;
  tb_code : gmap nat Code;
  mem : Z -> Z;
  tb_phys_invalidate_count : Z
}.
Arguments mkMachine {_}. Arguments cache {_}. Arguments pages {_}. Arguments jumps {_}.
Arguments tb_code {_}. Arguments mem {_}. Arguments tb_phys_invalidate_count {_}.

Section Ops.
Context {Code : Type} `{!Translator Code}.
Context (code_gen_buffer_max_size : Z) (cpu_list : list nat).

Definition set_cache (s : Machine Code) (c : TbState) : Machine Code :=
  mkMachine c (pages s) (jumps s) (tb_code s) (mem s) (tb_phys_invalidate_count s).
Definition set_pages (s : Machine Code) (p : Pages) : Machine Code :=
  mkMachine (cache s) p (jumps s) (tb_code s) (mem s) (tb_phys_invalidate_count s).
Definition set_jumps (s : Machine Code) (j : Jumps) : Machine Code :=
  mkMachine (cache s) (pages s) j (tb_code s) (mem s) (tb_phys_invalidate_count s).
Definition set_mem (s : Machine Code) (m : Z -> Z) : Machine Code :=
  mkMachine (cache s) (pages s) (jumps s) (tb_code s) m (tb_phys_invalidate_count s).

Definition tc_of (c : TbState) (t : nat) : Z := match tbs c !! t with Some tb => tc_ptr tb | None => 0 end.

(** ** Linking *)

(** [tb_flush] *)
Definition flush (s : Machine Code) : Machine Code :=
  set_pages (set_cache s (tb_flush cpu_list (cache s))) (page_flush_tb (pages s)).

(** [tb_link_page] *)
Definition link_page (s : Machine Code) (t : nat) (phys_pc phys_page2 : Z) : option (Machine Code) :=
  c ← tb_link_page (cache s) t phys_pc phys_page2;
  p ← tb_alloc_page (pages s) t 0 (Z.land phys_pc TARGET_PAGE_MASK);
  p ← (if phys_page2 =? NO_PAGE then Some p else tb_alloc_page p t 1 phys_page2);
  Some (set_jumps (set_pages (set_cache s c) p) (tb_init_jumps (tc_of c) (jumps s) t)).

(** [tb_gen_code] *)
Definition gen_code (s : Machine Code) (pc cs flags cf : Z) : option (nat * Machine Code) :=
  '(t, s1) ← match tb_alloc code_gen_buffer_max_size (cache s) pc with
             | Some (t, c) => Some (t, set_cache s c)
             | None => '(t, c) ← tb_alloc code_gen_buffer_max_size (cache (flush s)) pc;
                       Some (t, set_cache (flush s) (set_invalidated c true))
             end;
  let '(host, g, offsets) := translate (mem s) pc cs flags cf in
  let c := @gen_into (gen_at (mem s)) (cache s1) t pc cs flags cf in
  let s2 := mkMachine c (pages s1) (set_offsets (jumps s1) t offsets) (<[t := host]> (tb_code s1)) (mem s1)
              (tb_phys_invalidate_count s1) in
  s3 ← link_page s2 t pc (second_page pc (g_size g));
  Some (t, s3).

(** [tb_find_slow] and [tb_find_fast] of cpu-exec.c. *)
Definition find_slow (s : Machine Code) (core : nat) (pc cs flags : Z) : option (nat * Machine Code) :=
  let s0 := set_cache s (set_invalidated (cache s) false) in
  let h := tb_phys_hash_func pc in
  '(t, s1) ← match chain_search (tb_matches (cache s0) pc cs flags) (chain_of (cache s0) h) with
             | Some (pre, t, post) => Some (t, set_cache s0 (set_chain (cache s0) h (t :: pre ++ post)))
             | None => gen_code s0 pc cs flags 0
             end;
  Some (t, set_cache s1 (set_jmp (cache s1) core (tb_jmp_cache_hash_func pc) t)).

Definition find_fast (s : Machine Code) (core : nat) (pc cs flags : Z) : option (nat * Machine Code) :=
  match jmp_hit (cache s) core pc cs flags with
  | Some t => Some (t, s)
  | None => find_slow s core pc cs flags
  end.

(** [tb_add_jump], for the jump [n] that block [tb] was left by. *)
Definition add_jump (E : bool) (s : Machine Code) (tb n tb_next : nat) : Machine Code :=
  set_jumps s (tb_add_jump (tc_of (cache s)) E (jumps s) tb n tb_next).

(** [cpu_unlink_tb], for the block that is being executed. *)
Definition cpu_unlink_tb (s : Machine Code) (tb : nat) : option (Machine Code) :=
  j ← tb_reset_jump_recursive (tc_of (cache s)) (S (size (jmp_next (jumps s)))) (jumps s) tb;
  Some (set_jumps s j).

(** ** Invalidation *)

(** The chain of [phys_hash_next]. *)
Fixpoint tb_remove (c : list nat) (tb : nat) : option (list nat) :=
  match c with
  | [] => None
  | tb1 :: c => if (tb1 =? tb)%nat then Some c else c' ← tb_remove c tb; Some (tb1 :: c')
  end.

(** [tb_page_remove] and [invalidate_page_bitmap] for one page of the block. *)
Definition remove_from_page (P : Pages) (page_addr : Z) (tb : nat) : option Pages :=
  let index := Z.shiftr page_addr TARGET_PAGE_BITS in
  P ← tb_page_remove P index tb;
  p ← page_find P index;
  set_page P index (invalidate_page_bitmap p).

Definition clear_jmp (h : Z) (tb : nat) (core : nat) (m : gmap nat (gmap Z nat)) : gmap nat (gmap Z nat) :=
  if decide (default ∅ (m !! core) !! h = Some tb) then <[core := delete h (default ∅ (m !! core))]> m else m.

(** The jump caches of the CPUs on the list. *)
Definition clear_jmp_caches (c : TbState) (h : Z) (tb : nat) : TbState :=
  mkTbState (tbs c) (nb_tbs c) (code_gen_ptr c) (tb_phys_hash c)
    (foldr (clear_jmp h tb) (tb_jmp_cache c) cpu_list) (tb_invalidated_flag c) (tb_flush_count c).

Definition tb_phys_invalidate (s : Machine Code) (tb : nat) (page_addr : Z) : option (Machine Code) :=
  b ← tbs (cache s) !! tb;
  let phys_pc := uint32_t (page_addr0 b + Z.land (tb_pc b) (Z.lnot TARGET_PAGE_MASK)) in
  let h := tb_phys_hash_func phys_pc in
  chain ← tb_remove (chain_of (cache s) h) tb;
  let c := set_chain (cache s) h chain in
  p ← (if page_addr0 b =? page_addr then Some (pages s) else remove_from_page (pages s) (page_addr0 b) tb);
  p ← (if (page_addr1 b =? NO_PAGE) || (page_addr1 b =? page_addr) then Some p
       else remove_from_page p (page_addr1 b) tb);
  let c := clear_jmp_caches (set_invalidated c true) (tb_jmp_cache_hash_func (tb_pc b)) tb in
  j ← tb_unchain (tc_of c) (jumps s) tb;
  Some (mkMachine c p j (tb_code s) (mem s) (tb_phys_invalidate_count s + 1)).

(** The loop of [tb_invalidate_phys_page]; the pointer to the next block is read after the
    invalidation. *)
Fixpoint invalidate_page_loop (fuel : nat) (s : Machine Code) (addr : Z) (tb : option cell) : option (Machine Code) :=
  match fuel with
  | O => None
  | S fuel =>
      match tb with
      | None => Some s
      | Some (t, n) =>
          s ← tb_phys_invalidate s t addr;
          invalidate_page_loop fuel s addr (page_next (pages s) !! (t, n))
      end
  end.

(** More steps than the list of a page can have. *)
Definition page_fuel (s : Machine Code) : nat := (2 + size (page_next (pages s)))%nat.

Definition tb_invalidate_phys_page (s : Machine Code) (addr : Z) : option (Machine Code) :=
  let addr := Z.land addr TARGET_PAGE_MASK in
  let index := Z.shiftr addr TARGET_PAGE_BITS in
  match page_find (pages s) index with
  | None => Some s
  | Some p =>
      s ← invalidate_page_loop (page_fuel s) s addr (first_tb p);
      p ← page_find (pages s) index;
      P ← set_page (pages s) index (set_first_tb p None);
      Some (set_pages s P)
  end.

(** Where the block is in a page, as [tb_invalidate_phys_page_range] computes it. *)
Definition tb_range (b : TranslationBlock) (n : nat) : Z * Z :=
  if (n =? 0)%nat then
    let tb_start := uint32_t (page_addr0 b + Z.land (tb_pc b) (Z.lnot TARGET_PAGE_MASK)) in
    (tb_start, uint32_t (tb_start + tb_size b))
  else
    let tb_start := page_addr1 b in
    (tb_start, uint32_t (tb_start + Z.land (tb_pc b + tb_size b) (Z.lnot TARGET_PAGE_MASK))).

(** The loop of [tb_invalidate_phys_page_range]; the pointer to the next block is read
    first. *)
Fixpoint invalidate_range_loop (fuel : nat) (s : Machine Code) (start last : Z) (tb : option cell) : option (Machine Code) :=
  match fuel with
  | O => None
  | S fuel =>
      match tb with
      | None => Some s
      | Some (t, n) =>
          b ← tbs (cache s) !! t;
          let tb_next := page_next (pages s) !! (t, n) in
          let '(tb_start, tb_end) := tb_range b n in
          s ← (if negb ((tb_end <=? start) || (last <=? tb_start)) then tb_phys_invalidate s t NO_PAGE else Some s);
          invalidate_range_loop fuel s start last tb_next
      end
  end.

(** *** The bitmap of a page *)

Definition or_byte (tab : list Z) (i : nat) (mask : Z) : option (list Z) :=
  b ← tab !! i; Some (<[i := uint8_t (Z.lor b mask)]> tab).

(** The loop over whole bytes. *)
Fixpoint fill_bytes (fuel : nat) (tab : list Z) (i : nat) (start end1 : Z) : option (list Z * nat * Z) :=
  match fuel with
  | O => None
  | S fuel =>
      if start <? end1 then
        _ ← tab !! i;
        fill_bytes fuel (<[i := 255]> tab) (S i) (start + 8) end1
      else Some (tab, i, start)
  end.

(** [None] is an access outside of the table. *)
Definition set_bits (tab : list Z) (start len : Z) : option (list Z) :=
  let last := start + len in
  let i := Z.to_nat (Z.shiftr start 3) in
  let mask := Z.shiftl 255 (Z.land start 7) in
  if Z.land start (Z.lnot 7) =? Z.land last (Z.lnot 7) then
    if start <? last then or_byte tab i (Z.land mask (Z.lnot (Z.shiftl 255 (Z.land last 7)))) else Some tab
  else
    tab ← or_byte tab i mask;
    '(tab, i, start) ← fill_bytes (S (length tab)) tab (S i) (Z.land (start + 8) (Z.lnot 7)) (Z.land last (Z.lnot 7));
    if start <? last then or_byte tab i (Z.lnot (Z.shiftl 255 (Z.land last 7))) else Some tab.

(** Where the block is in the page, as [build_page_bitmap] computes it. *)
Definition bitmap_range (b : TranslationBlock) (n : nat) : Z * Z :=
  if (n =? 0)%nat then
    let tb_start := Z.land (tb_pc b) (Z.lnot TARGET_PAGE_MASK) in
    (tb_start, Z.min (tb_start + tb_size b) TARGET_PAGE_SIZE)
  else (0, Z.land (tb_pc b + tb_size b) (Z.lnot TARGET_PAGE_MASK)).

Fixpoint bitmap_loop (fuel : nat) (s : Machine Code) (tab : list Z) (tb : option cell) : option (list Z) :=
  match fuel with
  | O => None
  | S fuel =>
      match tb with
      | None => Some tab
      | Some (t, n) =>
          b ← tbs (cache s) !! t;
          let '(tb_start, tb_end) := bitmap_range b n in
          tab ← set_bits tab tb_start (tb_end - tb_start);
          bitmap_loop fuel s tab (page_next (pages s) !! (t, n))
      end
  end.

Definition build_page_bitmap (s : Machine Code) (p : PageDesc) : option (list Z) :=
  bitmap_loop (page_fuel s) s (replicate (Z.to_nat (TARGET_PAGE_SIZE / 8)) 0) (first_tb p).

Definition tb_invalidate_phys_page_range (s : Machine Code) (start last : Z) (is_cpu_write_access : bool) : option (Machine Code) :=
  let index := Z.shiftr start TARGET_PAGE_BITS in
  match page_find (pages s) index with
  | None => Some s
  | Some p =>
      P ← (match code_bitmap p with
           | Some _ => Some (pages s)
           | None =>
               let n := code_write_count p + 1 in
               b ← (if (SMC_BITMAP_USE_THRESHOLD <=? n) && is_cpu_write_access
                    then b ← build_page_bitmap s p; Some (Some b) else Some None);
               set_page (pages s) index (set_bitmap p n b)
           end);
      let s := set_pages s P in
      invalidate_range_loop (page_fuel s) s start last (first_tb p)
  end.

(** [len] is at most 8 and [start] is a multiple of it. *)
Definition tb_invalidate_phys_page_fast (s : Machine Code) (start len : Z) : option (Machine Code) :=
  match page_find (pages s) (Z.shiftr start TARGET_PAGE_BITS) with
  | None => Some s
  | Some p =>
      match code_bitmap p with
      | Some tab =>
          let offset := Z.land start (Z.lnot TARGET_PAGE_MASK) in
          b ← tab !! Z.to_nat (Z.shiftr offset 3);
          if Z.land (Z.shiftr b (Z.land offset 7)) (Z.shiftl 1 len - 1) =? 0 then Some s
          else tb_invalidate_phys_page_range s start (uint32_t (start + len)) true
      | None => tb_invalidate_phys_page_range s start (uint32_t (start + len)) true
      end
  end.

(** ** Page flags *)

Definition TARGET_PAGE_ALIGN (addr : Z) : Z := Z.land (uint32_t (addr + TARGET_PAGE_SIZE - 1)) TARGET_PAGE_MASK.

Fixpoint set_flags_loop (n : nat) (s : Machine Code) (addr flags : Z) : option (Machine Code) :=
  match n with
  | O => Some s
  | S n =>
      let index := Z.shiftr addr TARGET_PAGE_BITS in
      let s := set_pages s (page_find_alloc (pages s) index) in
      p ← page_find (pages s) index;
      s ← (if (Z.land (TbPages.flags p) PAGE_WRITE =? 0) && negb (Z.land flags PAGE_WRITE =? 0) &&
              negb (bool_decide (first_tb p = None))
           then tb_invalidate_phys_page s addr else Some s);
      p ← page_find (pages s) index;
      P ← set_page (pages s) index (set_flags p flags);
      set_flags_loop n (set_pages s P) (uint32_t (addr + TARGET_PAGE_SIZE)) flags
  end.

(** [len] is a multiple of the page size: the number of rounds.  A failed assertion is
    [None]. *)
Definition page_set_flags (s : Machine Code) (start last flags : Z) : option (Machine Code) :=
  if negb (start <? last) then None
  else
    let start := Z.land start TARGET_PAGE_MASK in
    let last := TARGET_PAGE_ALIGN last in
    let flags := if Z.land flags PAGE_WRITE =? 0 then flags else Z.lor flags PAGE_WRITE_ORG in
    set_flags_loop (Z.to_nat (uint32_t (last - start) / TARGET_PAGE_SIZE)) s start flags.

(** The loop over the pages of a host page; [host_end] has 32 bits. *)
Fixpoint unprotect_loop (fuel : nat) (s : Machine Code) (addr host_end : Z) : option (Machine Code) :=
  match fuel with
  | O => None
  | S fuel =>
      if addr <? host_end then
        let index := Z.shiftr addr TARGET_PAGE_BITS in
        p ← page_find (pages s) index;
        P ← set_page (pages s) index (set_flags p (Z.lor (TbPages.flags p) PAGE_WRITE));
        s ← tb_invalidate_phys_page (set_pages s P) addr;
        unprotect_loop fuel s (uint32_t (addr + TARGET_PAGE_SIZE)) host_end
      else Some s
  end.

(** The result and the state. *)
Definition page_unprotect (s : Machine Code) (address : Z) : option (bool * Machine Code) :=
  match page_find (pages s) (Z.shiftr address TARGET_PAGE_BITS) with
  | None => Some (false, s)
  | Some p =>
      if negb (Z.land (TbPages.flags p) PAGE_WRITE_ORG =? 0) && (Z.land (TbPages.flags p) PAGE_WRITE =? 0) then
        let host_start := Z.land address qemu_host_page_mask in
        s ← unprotect_loop 2 s host_start (uint32_t (host_start + qemu_host_page_size));
        Some (true, s)
      else Some (false, s)
  end.

(** The checks of one page: an error, or no need to look further, or go on. *)
Fixpoint check_range_loop (n : nat) (s : Machine Code) (addr flags : Z) : option (Z * Machine Code) :=
  match n with
  | O => Some (0, s)
  | S n =>
      match page_find (pages s) (Z.shiftr addr TARGET_PAGE_BITS) with
      | None => Some (-1, s)
      | Some p =>
          if Z.land (TbPages.flags p) PAGE_VALID =? 0 then Some (-1, s)
          else if negb (Z.land flags PAGE_READ =? 0) && (Z.land (TbPages.flags p) PAGE_READ =? 0) then Some (-1, s)
          else if negb (Z.land flags PAGE_WRITE =? 0) then
            if Z.land (TbPages.flags p) PAGE_WRITE_ORG =? 0 then Some (-1, s)
            else if Z.land (TbPages.flags p) PAGE_WRITE =? 0 then
              '(ok, s) ← page_unprotect s addr;
              if ok : bool then Some (0, s) else Some (-1, s)
            else Some (0, s)
          else check_range_loop n s (uint32_t (addr + TARGET_PAGE_SIZE)) flags
      end
  end.

Definition page_check_range (s : Machine Code) (start len flags : Z) : option (Z * Machine Code) :=
  if len =? 0 then Some (0, s)
  else if uint32_t (start + len - 1) <? start then Some (-1, s)
  else
    let last := TARGET_PAGE_ALIGN (uint32_t (start + len)) in
    let start := Z.land start TARGET_PAGE_MASK in
    check_range_loop (Z.to_nat (uint32_t (last - start) / TARGET_PAGE_SIZE)) s start flags.

(** ** A store of the guest

    The host lets the store through if the page is writable; otherwise the handler of the
    fault unprotects the page and the store is repeated, or the guest gets the fault
    ([Some (false, s)]). *)
Definition mem_store (m : Z -> Z) (a v : Z) (x : Z) : Z := if x =? a then v else m x.

Definition guest_store_byte (s : Machine Code) (a v : Z) : option (bool * Machine Code) :=
  if negb (Z.land (page_get_flags (pages s) a) PAGE_WRITE =? 0) then Some (true, set_mem s (mem_store (mem s) a v))
  else
    '(ok, s) ← page_unprotect s a;
    if ok : bool then
      if negb (Z.land (page_get_flags (pages s) a) PAGE_WRITE =? 0) then Some (true, set_mem s (mem_store (mem s) a v))
      else None
    else Some (false, s).

(** *** Finding the block of a host address *)

Fixpoint find_pc_loop (fuel : nat) (c : TbState) (pc m_min m_max : Z) : option Z :=
  match fuel with
  | O => None
  | S fuel =>
      if m_min <=? m_max then
        let m := Z.shiftr (m_min + m_max) 1 in
        tb ← tbs c !! Z.to_nat m;
        let v := tc_ptr tb in
        if v =? pc then Some m
        else if pc <? v then find_pc_loop fuel c pc m_min (m - 1)
        else find_pc_loop fuel c pc (m + 1) m_max
      else Some m_max
  end.

(** [Some None] is the NULL result. *)
Definition tb_find_pc (c : TbState) (pc : Z) : option (option Z) :=
  if (nb_tbs c =? 0)%nat then Some None
  else if (pc <? 0) || (code_gen_ptr c <=? pc) then Some None
  else m ← find_pc_loop (S (nb_tbs c)) c pc 0 (Z.of_nat (nb_tbs c) - 1); Some (Some m).

End Ops.
