(* ===== verification/TbBitmap.v ===== *)
(** * The bitmap of translated bytes

    [set_bits] of src/emul/qemu/exec.c sets a range of bits, a partial byte at each end and
    whole bytes between them. *)

From S2P Require Import Prelude TbInvalidate.
Open Scope Z_scope.

(** Bit [k] of the table. *)
Definition bit (tab : list Z) (k : Z) : bool := Z.testbit (tab !!! Z.to_nat (k / 8)) (k mod 8).

Definition bytes_ok (tab : list Z) : Prop := Forall (in_u 8) tab.
Definition in_range (a b k : Z) : bool := (a <=? k) && (k <? b).

(** [tab'] is [tab] with the bits of [f] added. *)
Record adds (tab tab' : list Z) (f : Z -> bool) : Prop := {
  ad_length : length tab' = length tab;
  ad_bytes : bytes_ok tab';
  ad_bit : forall k, 0 <= k < 8 * Z.of_nat (length tab) -> bit tab' k = bit tab k || f k
}.

Lemma adds_trans t1 t2 t3 f g h : adds t1 t2 f -> adds t2 t3 g -> (forall k, h k = f k || g k) -> adds t1 t3 h.
Proof.
  intros [A1 A2 A3] [B1 B2 B3] H. split; [congruence|done|]. intros k Hk. rewrite B3, A3 by (rewrite ?A1; lia).
  by rewrite H, orb_assoc.
Qed.

Lemma adds_ext t1 t2 f g : (forall k, 0 <= k < 8 * Z.of_nat (length t1) -> f k = g k) -> adds t1 t2 f -> adds t1 t2 g.
Proof. intros H [A1 A2 A3]. split; [done|done|]. intros k Hk. rewrite A3 by done. by rewrite H. Qed.

Lemma adds_nothing tab f : bytes_ok tab -> (forall k, f k = false) -> adds tab tab f.
Proof. intros Hb H. split; [done|done|]. intros k _. by rewrite H, orb_false_r. Qed.

Lemma bit_insert tab i v k : (i < length tab)%nat -> 0 <= k ->
  bit (<[i := v]> tab) k = if decide (k / 8 = Z.of_nat i) then Z.testbit v (k mod 8) else bit tab k.
Proof.
  intros Hi Hk. unfold bit. case_decide as Hd.
  - rewrite Hd, Nat2Z.id, list_lookup_total_insert_eq by done. done.
  - rewrite list_lookup_total_insert_ne; [done|]. intros E. apply Hd. rewrite E, Z2Nat.id; [done|]. apply Z.div_pos; lia.
Qed.

Lemma or_byte_adds tab i mask : bytes_ok tab -> (i < length tab)%nat ->
  exists tab', or_byte tab i mask = Some tab' /\ adds tab tab' (fun k => (k / 8 =? Z.of_nat i) && Z.testbit mask (k mod 8)).
Proof.
  intros Hb Hi. unfold or_byte. destruct (lookup_lt_is_Some_2 tab i Hi) as [b E]. rewrite E. cbn [mbind option_bind].
  eexists. split; [reflexivity|]. split.
  - apply length_insert.
  - apply Forall_insert; [done|]. by apply uint_range.
  - intros k Hk. rewrite bit_insert by lia. unfold bit. case_decide as Hd.
    + rewrite (proj2 (Z.eqb_eq _ _) Hd). cbn [andb]. rewrite Hd, Nat2Z.id, (list_lookup_total_correct tab i b E).
      pose proof (Z.mod_pos_bound k 8). unfold uint8_t, uint. rewrite Z.mod_pow2_bits_low by lia. apply Z.lor_spec.
    + rewrite (proj2 (Z.eqb_neq _ _) Hd). cbn. by rewrite orb_false_r.
Qed.

(** The cases of a comparison of [k] with the bounds, byte by byte. *)
Ltac by_bytes k :=
  pose proof (Z.mod_pos_bound k 8); pose proof (Z.div_mod k 8);
  repeat match goal with
  | |- context [Z.leb ?x ?y] => destruct (Z.leb_spec x y)
  | |- context [Z.ltb ?x ?y] => destruct (Z.ltb_spec x y)
  | |- context [Z.eqb ?x ?y] => destruct (Z.eqb_spec x y)
  end; cbn; try done; exfalso; nia.

Lemma fill_bytes_adds n : forall fuel tab i start end1, bytes_ok tab -> start = 8 * Z.of_nat i -> end1 = start + 8 * Z.of_nat n ->
  end1 <= 8 * Z.of_nat (length tab) -> (n < fuel)%nat ->
  exists tab', fill_bytes fuel tab i start end1 = Some (tab', (i + n)%nat, end1) /\ adds tab tab' (in_range start end1).
Proof.
  induction n as [|n IH]; intros [|fuel] tab i start end1 Hb Hs He Hl Hf; try lia; cbn [fill_bytes].
  - replace end1 with start by lia. rewrite Z.ltb_irrefl, Nat.add_0_r. exists tab. split; [done|]. apply adds_nothing; [done|].
    intros k. unfold in_range. destruct (Z.leb_spec start k), (Z.ltb_spec k start); try done; lia.
  - destruct (Z.ltb_spec start end1); [|lia]. destruct (lookup_lt_is_Some_2 tab i) as [b ->]; [lia|]. cbn [mbind option_bind].
    assert (bytes_ok (<[i := 255]> tab)) as Hb1 by (apply Forall_insert; [done|unfold in_u; lia]).
    destruct (IH fuel (<[i := 255]> tab) (S i) (start + 8) end1) as (tab' & -> & A); [done|lia|lia|rewrite length_insert; lia|lia|].
    exists tab'. split; [do 3 f_equal; lia|].
    assert (adds tab (<[i := 255]> tab) (in_range start (start + 8))) as A0.
    { split; [apply length_insert|done|]. intros k Hk. rewrite bit_insert by lia. unfold in_range. case_decide as Hd.
      - assert (Z.testbit 255 (k mod 8) = true) as ->.
        { change 255 with (Z.ones 8). apply Z.ones_spec_low. apply Z.mod_pos_bound. lia. }
        assert ((start <=? k) && (k <? start + 8) = true) as -> by by_bytes k. by rewrite orb_true_r.
      - assert ((start <=? k) && (k <? start + 8) = false) as -> by by_bytes k. by rewrite orb_false_r. }
    eapply adds_trans; [exact A0|exact A|]. intros k. unfold in_range.
    destruct (Z.leb_spec start k), (Z.ltb_spec k (start + 8)), (Z.leb_spec (start + 8) k), (Z.ltb_spec k end1); try done; lia.
Qed.

Lemma testbit_high m j : 0 <= j < 8 -> 0 <= m < 8 -> Z.testbit (Z.shiftl 255 m) j = (m <=? j).
Proof.
  intros Hj Hm. rewrite Z.shiftl_spec by lia. change 255 with (Z.ones 8). destruct (Z.leb_spec m j).
  - apply Z.ones_spec_low. lia.
  - by rewrite Z.testbit_neg_r by lia.
Qed.

Lemma land7 x : Z.land x 7 = x mod 8.
Proof. change 7 with (Z.ones 3). by rewrite Z.land_ones by lia. Qed.

Lemma land_not7 x : Z.land x (Z.lnot 7) = 8 * (x / 8).
Proof.
  change 7 with (Z.ones 3). rewrite <- Z.ldiff_land, Z.ldiff_ones_r by lia.
  rewrite Z.shiftl_mul_pow2, Z.shiftr_div_pow2 by lia. change (2 ^ 3) with 8. lia.
Qed.

(** [set_bits] sets the bits from [start] on and no others; it stays inside a table that
    holds them. *)
Lemma set_bits_adds tab start len : bytes_ok tab -> 0 <= start -> 0 <= len -> start + len <= 8 * Z.of_nat (length tab) ->
  exists tab', set_bits tab start len = Some tab' /\ adds tab tab' (in_range start (start + len)).
Proof.
  intros Hb Hs Hn Hl. unfold set_bits. rewrite !land7, !land_not7. rewrite Z.shiftr_div_pow2 by lia. change (2 ^ 3) with 8.
  pose proof (Z.mod_pos_bound start 8). pose proof (Z.mod_pos_bound (start + len) 8).
  pose proof (Z.div_mod start 8). pose proof (Z.div_mod (start + len) 8).
  assert (0 <= start / 8) by (apply Z.div_pos; lia).
  destruct (Z.eqb_spec (8 * (start / 8)) (8 * ((start + len) / 8))) as [E|E].
  - destruct (Z.ltb_spec start (start + len)).
    + destruct (or_byte_adds tab (Z.to_nat (start / 8)) (Z.land (Z.shiftl 255 (start mod 8)) (Z.lnot (Z.shiftl 255 ((start + len) mod 8)))) Hb) as (tab' & -> & A); [lia|].
      exists tab'. split; [done|]. eapply adds_ext; [|exact A]. intros k Hk. rewrite Z2Nat.id by done.
      pose proof (Z.mod_pos_bound k 8). rewrite Z.land_spec, Z.lnot_spec, !testbit_high by lia. unfold in_range. by_bytes k.
    + exists tab. split; [done|]. apply adds_nothing; [done|]. intros k. unfold in_range. by_bytes k.
  - assert (start / 8 < (start + len) / 8) by (pose proof (Z.div_le_mono start (start + len) 8); lia).
    destruct (or_byte_adds tab (Z.to_nat (start / 8)) (Z.shiftl 255 (start mod 8)) Hb) as (t1 & -> & A1); [lia|]. cbn [mbind option_bind].
    pose proof (ad_length _ _ _ A1) as L1.
    assert ((start + 8) / 8 = start / 8 + 1) as E8 by (replace (start + 8) with (start + 1 * 8) by lia; by rewrite Z.div_add by lia).
    destruct (fill_bytes_adds (Z.to_nat ((start + len) / 8 - (start / 8 + 1))) (S (length t1)) t1 (S (Z.to_nat (start / 8)))
      (8 * ((start + 8) / 8)) (8 * ((start + len) / 8))) as (t2 & -> & A2);
      [by apply A1|lia|lia|rewrite L1; lia|lia|]. cbn [mbind option_bind]. pose proof (ad_length _ _ _ A2) as L2.
    assert (adds tab t2 (in_range start (8 * ((start + len) / 8)))) as A12.
    { eapply adds_trans; [|exact A2|].
      - eapply adds_ext; [|exact A1]. intros k Hk. rewrite Z2Nat.id by done. pose proof (Z.mod_pos_bound k 8).
        rewrite testbit_high by lia. instantiate (1 := in_range start (8 * ((start + 8) / 8))). unfold in_range. by_bytes k.
      - intros k. unfold in_range. rewrite E8. by_bytes k. }
    destruct (Z.ltb_spec (8 * ((start + len) / 8)) (start + len)).
    + destruct (or_byte_adds t2 (S (Z.to_nat (start / 8)) + Z.to_nat ((start + len) / 8 - (start / 8 + 1)))
        (Z.lnot (Z.shiftl 255 ((start + len) mod 8))) (ad_bytes _ _ _ A2)) as (t3 & -> & A3); [lia|].
      exists t3. split; [done|]. eapply adds_trans; [exact A12| |].
      * eapply (adds_ext t2 t3 _ (in_range (8 * ((start + len) / 8)) (start + len))); [|exact A3]. intros k Hk. cbn beta.
        assert (0 <= k mod 8 < 8) by (apply Z.mod_pos_bound; lia). rewrite Z.lnot_spec by lia. rewrite testbit_high by lia.
        rewrite Nat2Z.inj_add, Nat2Z.inj_succ, !Z2Nat.id by lia. unfold in_range. by_bytes k.
      * intros k. unfold in_range. by_bytes k.
    + exists t2. split; [done|]. by replace (start + len) with (8 * ((start + len) / 8)) by lia.
Qed.
