(* ===== verification/TbInvProofs.v ===== *)
(** * The invariant of translated blocks

    Hash table, page lists, jump lists and page flags describe the same set of blocks, and
    the code of every one of them is the translation of what guest memory holds.  Removing a
    block keeps this. *)

From S2P Require Import Prelude TbCache TbLists TbJumps TbPages TbInvalidate.
Open Scope Z_scope.

(** ** Addresses *)

Lemma page_mask x : Z.land x TARGET_PAGE_MASK = x - x mod 4096.
Proof.
  change TARGET_PAGE_MASK with (Z.lnot (Z.ones 12)). rewrite <- Z.ldiff_land, Z.ldiff_ones_r by lia.
  rewrite Z.shiftl_mul_pow2, Z.shiftr_div_pow2 by lia. change (2 ^ 12) with 4096. pose proof (Z.div_mod x 4096). lia.
Qed.

Lemma page_offset x : Z.land x (Z.lnot TARGET_PAGE_MASK) = x mod 4096.
Proof. change (Z.lnot TARGET_PAGE_MASK) with (Z.ones 12). by rewrite Z.land_ones by lia. Qed.

Lemma page_shl i : Z.shiftl i TARGET_PAGE_BITS = 4096 * i.
Proof. rewrite Z.shiftl_mul_pow2 by (unfold TARGET_PAGE_BITS; lia). change (2 ^ TARGET_PAGE_BITS) with 4096. lia. Qed.

Lemma page_shr x : Z.shiftr x TARGET_PAGE_BITS = x / 4096.
Proof. rewrite Z.shiftr_div_pow2 by (unfold TARGET_PAGE_BITS; lia). done. Qed.

Lemma page_index_of x : in_u 32 x -> page_index (x / 4096).
Proof. unfold page_index, in_u. change (2 ^ 32) with 4294967296. change (2 ^ 20) with 1048576. intros. Z.to_euclidean_division_equations. lia. Qed.

(** ** Linked blocks *)

Definition linked (c : TbState) (t : nat) : Prop :=
  exists tb, tbs c !! t = Some tb /\ t ∈ chain_of c (tb_phys_hash_func (tb_pc tb)).

(** Page [i] is page number [p.2] of block [p.1]. *)
Definition on_page (c : TbState) (p : cell) (i : Z) : Prop :=
  exists tb, tbs c !! p.1 = Some tb /\
    (p.2 = 0%nat /\ page_addr0 tb = 4096 * i \/ p.2 = 1%nat /\ page_addr1 tb <> NO_PAGE /\ page_addr1 tb = 4096 * i).

(** The lists after [tb_phys_invalidate(t, a)]: page [a] is left to the caller. *)
Definition drop_pages (t : nat) (b : TranslationBlock) (a : Z) (lst : Z -> list cell) (j : Z) : list cell :=
  let l := if page_addr0 b =? a then lst j else drop_cell (t, 0%nat) (lst j) in
  if (page_addr1 b =? NO_PAGE) || (page_addr1 b =? a) then l else drop_cell (t, 1%nat) l.

Definition add_dead (t : nat) (b : TranslationBlock) (a : Z) (dead : list cell) : list cell :=
  if page_addr0 b =? a then (t, 0%nat) :: dead
  else if negb (a =? NO_PAGE) && (page_addr1 b =? a) then (t, 1%nat) :: dead else dead.

Lemma elem_of_drop_pages t b a lst j p : p ∈ drop_pages t b a lst j <->
  p ∈ lst j /\ (p = (t, 0%nat) -> page_addr0 b = a) /\ (p = (t, 1%nat) -> page_addr1 b = NO_PAGE \/ page_addr1 b = a).
Proof.
  unfold drop_pages. destruct (Z.eqb_spec (page_addr0 b) a), (Z.eqb_spec (page_addr1 b) NO_PAGE), (Z.eqb_spec (page_addr1 b) a);
    cbn [orb]; rewrite ?elem_of_drop_cell; naive_solver.
Qed.

Lemma elem_of_add_dead t b a dead p : p ∈ add_dead t b a dead <->
  p ∈ dead \/ p = (t, 0%nat) /\ page_addr0 b = a \/ p = (t, 1%nat) /\ page_addr0 b <> a /\ a <> NO_PAGE /\ page_addr1 b = a.
Proof.
  unfold add_dead. destruct (Z.eqb_spec (page_addr0 b) a), (Z.eqb_spec a NO_PAGE), (Z.eqb_spec (page_addr1 b) a);
    cbn [andb negb]; rewrite ?elem_of_cons; naive_solver.
Qed.

(** The code of the allocated blocks fills the buffer in the order of their slots. *)
Record tc_sorted (c : TbState) : Prop := {
  ts_ptr : 0 <= code_gen_ptr c;
  ts_range : forall i b, (i < nb_tbs c)%nat -> tbs c !! i = Some b -> 0 <= tc_ptr b < code_gen_ptr c;
  ts_order : forall i j b b', (i < j < nb_tbs c)%nat -> tbs c !! i = Some b -> tbs c !! j = Some b' -> tc_ptr b < tc_ptr b';
  ts_first : forall b, (0 < nb_tbs c)%nat -> tbs c !! 0%nat = Some b -> tc_ptr b = 0;
  ts_empty : nb_tbs c = 0%nat -> code_gen_ptr c = 0
}.

Lemma tc_sorted_same c c' : tbs c' = tbs c -> nb_tbs c' = nb_tbs c -> code_gen_ptr c' = code_gen_ptr c -> tc_sorted c -> tc_sorted c'.
Proof. intros E1 E2 E3 [A1 A2 A3 A4 A5]. split; rewrite ?E1, ?E2, ?E3; done. Qed.

(** A block added at the end of the buffer. *)
Lemma tc_sorted_add c c' b : tc_sorted c -> nb_tbs c' = S (nb_tbs c) -> tc_ptr b = code_gen_ptr c -> code_gen_ptr c < code_gen_ptr c' ->
  (forall u, tbs c' !! u = if decide (u = nb_tbs c) then Some b else tbs c !! u) -> tc_sorted c'.
Proof.
  intros [A1 A2 A3 A4 A5] En Eb Ep Ht.
  assert (forall i x, (i < nb_tbs c')%nat -> tbs c' !! i = Some x -> i = nb_tbs c /\ x = b \/ (i < nb_tbs c)%nat /\ tbs c !! i = Some x) as H.
  { intros i x Hi Hx. rewrite Ht in Hx. case_decide; [left; by injection Hx as <-|]. right. split; [lia|done]. }
  split.
  - lia.
  - intros i x Hi Hx. destruct (H i x Hi Hx) as [[-> ->]|[Hi' Hx']]; [lia|]. specialize (A2 i x Hi' Hx'). lia.
  - intros i j x y Hij Hx Hy. destruct (H i x ltac:(lia) Hx) as [[-> ->]|[Hi' Hx']], (H j y ltac:(lia) Hy) as [[-> ->]|[Hj' Hy']]; try lia.
    + specialize (A2 i x Hi' Hx'). lia.
    + by apply (A3 i j); [lia|..].
  - intros x Hi Hx. destruct (H 0%nat x Hi Hx) as [[E ->]|[Hi' Hx']]; [rewrite Eb; by apply A5|by apply A4].
  - lia.
Qed.

Section Inv.
Context {Code : Type} `{!Translator Code}.
Context (cpu_list : list nat).

(** The translation of the block is that of the memory [m]. *)
Definition code_ok (s : Machine Code) (m : Z -> Z) (t : nat) : Prop :=
  exists tb, tbs (cache s) !! t = Some tb /\ page_addr1 tb = second_page (tb_pc tb) (tb_size tb) /\
    let r := translate m (tb_pc tb) (cs_base tb) (tb_flags tb) 0 in
    tb_code s !! t = Some r.1.1 /\ tb_size tb = g_size r.1.2.

(** The pages that must not be writable while they hold code. *)
Context (prot : Z -> Prop).

(** [lst] are the lists of the pages, [inc] those of the jumps; the cells [dead] are still on
    the list of a page although their block has been removed. *)
Record inv (lst : Z -> list cell) (inc : nat -> list cell) (dead : list cell) (s : Machine Code) : Prop := {
  i_wf : tb_wf cpu_list (cache s);
  i_slot : forall core h t, core ∈ cpu_list -> jmp_of (cache s) core !! h = Some t ->
    exists tb, tbs (cache s) !! t = Some tb /\ h = tb_jmp_cache_hash_func (tb_pc tb);
  i_pages : pages_wf lst (pages s);
  i_lst : forall i p, page_index i -> p ∈ lst i <-> on_page (cache s) p i /\ (linked (cache s) p.1 \/ p ∈ dead);
  i_prot : forall i, page_index i -> prot i -> lst i <> [] -> Z.land (flags_at (pages s) i) PAGE_WRITE = 0;
  i_jumps : jumps_wf (tc_of (cache s)) (linked (cache s)) inc (jumps s);
  i_near : code_near (tc_of (cache s)) (linked (cache s)) (jumps s);
  i_code : forall t, linked (cache s) t -> code_ok s (mem s) t;
  i_sorted : tc_sorted (cache s);
  i_dead : forall p, p ∈ dead -> ~ linked (cache s) p.1
}.

Lemma i_ptr lst inc dead s : inv lst inc dead s -> 0 <= code_gen_ptr (cache s).
Proof. intros I. apply (ts_ptr _ (i_sorted _ _ _ _ I)). Qed.

(** ** What the cache says of a linked block *)

Lemma linked_block c t : tb_wf cpu_list c -> linked c t -> exists tb, tbs c !! t = Some tb /\ in_u 32 (tb_pc tb) /\
  page_addr0 tb = tb_pc tb - tb_pc tb mod 4096 /\ (t < nb_tbs c)%nat /\
  (page_addr1 tb = NO_PAGE \/ page_addr1 tb = uint32_t (tb_pc tb - tb_pc tb mod 4096 + 4096)).
Proof.
  intros W (tb & Htb & Hc). destruct (wf_chain _ _ W (tb_phys_hash_func (tb_pc tb))) as [_ Hl].
  rewrite Forall_forall in Hl. destruct (Hl t Hc) as (Hnb & tb' & Htb' & _ & Hpc & H0 & H1). rewrite Htb in Htb'. injection Htb' as <-.
  rewrite page_mask in H0, H1. exists tb. by destruct Hpc.
Qed.

Lemma linked_guest_pc c t tb : tb_wf cpu_list c -> linked c t -> tbs c !! t = Some tb -> guest_pc (tb_pc tb).
Proof.
  intros W (tb' & Htb & Hc) E. rewrite E in Htb. injection Htb as <-.
  destruct (wf_chain _ _ W (tb_phys_hash_func (tb_pc tb))) as [_ Hl].
  rewrite Forall_forall in Hl. destruct (Hl t Hc) as (_ & tb' & Htb' & _ & Hpc & _). by rewrite E in Htb'; injection Htb' as <-.
Qed.

(** A block is in one chain, once. *)
Lemma in_chain_linked c h t : tb_wf cpu_list c -> t ∈ chain_of c h ->
  linked c t /\ exists tb, tbs c !! t = Some tb /\ h = tb_phys_hash_func (tb_pc tb).
Proof.
  intros W Hc. destruct (wf_chain _ _ W h) as [_ Hl]. rewrite Forall_forall in Hl.
  destruct (Hl t Hc) as (Hnb & tb & Htb & <- & _). split; [by exists tb|]. by exists tb.
Qed.

Lemma chain_NoDup c h : tb_wf cpu_list c -> NoDup (chain_of c h).
Proof. intros W. apply (NoDup_fmap_1 (key_of c)). by apply (wf_chain _ _ W h). Qed.

Lemma on_page_index c p i : tb_wf cpu_list c -> linked c p.1 -> on_page c p i -> page_index i.
Proof.
  intros W Hl (tb & Htb & H). destruct (linked_block c p.1 W Hl) as (tb' & Htb' & Hpc & H0 & _ & H1). rewrite Htb in Htb'. injection Htb' as <-.
  assert (4096 * i = page_addr0 tb \/ page_addr1 tb <> NO_PAGE /\ 4096 * i = page_addr1 tb) as H' by naive_solver.
  unfold page_index, in_u in *. change (2 ^ 32) with 4294967296 in Hpc. change (2 ^ 20) with 1048576. destruct H' as [H'|[Hn H']].
  - Z.to_euclidean_division_equations. lia.
  - destruct H1 as [H1|H1]; [done|]. rewrite H1 in H'. cint.
Qed.

Lemma on_page_unique c p i j : on_page c p i -> on_page c p j -> i = j.
Proof. intros (tb & Htb & H) (tb' & Htb' & H'). rewrite Htb in Htb'. injection Htb' as <-. destruct H as [[? ?]|[? [? ?]]], H' as [[? ?]|[? [? ?]]]; try congruence; lia. Qed.

(** The two pages of a block are different. *)
Lemma on_page_once c t n m i : tb_wf cpu_list c -> linked c t -> on_page c (t, n) i -> on_page c (t, m) i -> n = m.
Proof.
  intros W Hl (tb & Htb & H) (tb' & Htb' & H'). cbn in Htb, Htb', H, H'. rewrite Htb in Htb'. injection Htb' as <-.
  destruct (linked_block c t W Hl) as (tb' & Htb' & Hpc & H0 & _ & H1). rewrite Htb in Htb'. injection Htb' as <-.
  destruct H as [[-> H]|[-> [Hn H]]], H' as [[-> H']|[-> [Hn' H']]]; try done;
    destruct H1 as [H1|H1]; try done; exfalso; rewrite <- H in H'; rewrite H0, H1 in H'; clear - H' Hpc; cint.
Qed.

(** ** Taking a block out of its chain *)

Lemma tb_remove_spec l t : t ∈ l -> NoDup l ->
  exists l', tb_remove l t = Some l' /\ sublist l' l /\ forall u, u ∈ l' <-> u ∈ l /\ u <> t.
Proof.
  induction l as [|u l IH]; intros Hin Hnd; [by apply not_elem_of_nil in Hin|].
  apply NoDup_cons in Hnd as [Hu Hnd]. cbn. destruct (Nat.eqb_spec u t) as [->|Hne].
  - exists l. split; [done|]. split; [by constructor|]. intros v. set_solver.
  - apply elem_of_cons in Hin as [?|Hin]; [congruence|]. destruct (IH Hin Hnd) as (l' & -> & Hs & He).
    cbn. exists (u :: l'). split; [done|]. split; [by constructor|]. intros v. set_solver.
Qed.

Lemma clear_jmp_lookup h tb core h' l m :
  default ∅ (foldr (clear_jmp h tb) m l !! core) !! h' =
  if decide (core ∈ l /\ h' = h /\ default ∅ (m !! core) !! h = Some tb) then None else default ∅ (m !! core) !! h'.
Proof.
  induction l as [|c l IH]; cbn [foldr]; [rewrite decide_False by set_solver; done|].
  set (m' := foldr (clear_jmp h tb) m l) in *. unfold clear_jmp at 1.
  destruct (decide (default ∅ (m' !! c) !! h = Some tb)) as [Hd|Hd].
  - destruct (decide (core = c)) as [->|Hne].
    + rewrite lookup_insert_eq. cbn. destruct (decide (h' = h)) as [->|Hh].
      * rewrite lookup_delete_eq. rewrite Hd in IH. destruct (decide (c ∈ l /\ h = h /\ default ∅ (m !! c) !! h = Some tb)); [done|].
        rewrite decide_True; [done|]. split_and!; [set_solver|done|done].
      * rewrite lookup_delete_ne by done. rewrite IH. rewrite !decide_False by naive_solver. done.
    + rewrite lookup_insert_ne by done. rewrite IH. repeat case_decide; try done; set_solver.
  - rewrite IH. destruct (decide (core ∈ l /\ h' = h /\ default ∅ (m !! core) !! h = Some tb)) as [Hx|Hx].
    + rewrite decide_True; [done|]. set_solver.
    + rewrite decide_False; [done|]. intros (Hc & -> & Hm). apply elem_of_cons in Hc as [->|Hc]; [|naive_solver].
      apply Hd. by rewrite IH.
Qed.

(** The jump caches hold a block in its own slot. *)
Definition slots_ok (c : TbState) : Prop := forall core h t, core ∈ cpu_list -> jmp_of c core !! h = Some t ->
  exists tb, tbs c !! t = Some tb /\ h = tb_jmp_cache_hash_func (tb_pc tb).

(** What is left of the cache without block [t]. *)
Record removed (t : nat) (c c' : TbState) : Prop := {
  rm_wf : tb_wf cpu_list c';
  rm_slot : slots_ok c';
  rm_tbs : tbs c' = tbs c;
  rm_ptr : code_gen_ptr c' = code_gen_ptr c;
  rm_linked : forall u, linked c' u <-> linked c u /\ u <> t;
  rm_jmp : forall core h, core ∈ cpu_list -> jmp_of c' core !! h <> Some t
}.

Lemma remove_from_cache c t b : tb_wf cpu_list c -> slots_ok c -> linked c t -> tbs c !! t = Some b ->
  exists chain, tb_remove (chain_of c (tb_phys_hash_func (tb_pc b))) t = Some chain /\
    removed t c (clear_jmp_caches cpu_list (set_invalidated (set_chain c (tb_phys_hash_func (tb_pc b)) chain) true)
                   (tb_jmp_cache_hash_func (tb_pc b)) t).
Proof.
  intros W S Hl Hb. set (h := tb_phys_hash_func (tb_pc b)).
  assert (t ∈ chain_of c h) as Hin. { destruct Hl as (tb & Htb & Hc). rewrite Hb in Htb. by injection Htb as <-. }
  destruct (tb_remove_spec _ t Hin (chain_NoDup c h W)) as (chain & E & Hsub & Hel). exists chain. split; [done|].
  set (c' := clear_jmp_caches _ _ _ _).
  assert (forall h', chain_of c' h' = if decide (h = h') then chain else chain_of c h') as Hch
    by (intros h'; exact (chain_of_set_chain c h chain h')).
  assert (forall core h', core ∈ cpu_list -> forall u, jmp_of c' core !! h' = Some u -> jmp_of c core !! h' = Some u /\ u <> t) as Hj.
  { intros core h' Hc u Hu. unfold c', jmp_of, clear_jmp_caches in Hu. cbn [tb_jmp_cache set_invalidated set_chain] in Hu.
    rewrite clear_jmp_lookup in Hu. case_decide as Hd; [done|]. split; [done|]. intros ->. apply Hd.
    destruct (S core h' t Hc Hu) as (tb & Htb & Hh). rewrite Hb in Htb. injection Htb as <-. split; [done|]. split; [done|]. by rewrite Hh in Hu. }
  assert (forall h' u, u ∈ chain_of c' h' <-> u ∈ chain_of c h' /\ u <> t) as Hch'.
  { intros h' u. rewrite Hch. case_decide as Hd; [subst h'; apply Hel|]. split; [|naive_solver]. intros Hu. split; [done|]. intros ->.
    destruct (in_chain_linked c h' t W Hu) as (_ & tb & Htb & Hx). rewrite Hb in Htb. injection Htb as <-. done. }
  split.
  - split.
    + intros h'. destruct (wf_chain _ _ W h') as [Hnd Hf]. change (key_of c') with (key_of c). change (tb_live c') with (tb_live c).
      assert (sublist (chain_of c' h') (chain_of c h')) as Hs. { rewrite Hch. case_decide; [by subst h'|done]. }
      split; [eapply sublist_NoDup; [exact Hnd|by apply fmap_sublist]|].
      rewrite Forall_forall in Hf |- *. intros u Hu. apply Hf. by apply Hch' in Hu as [? _].
    + intros core h' u Hu Hc. destruct (Hj core h' Hc u Hu) as [Hu' Hne]. destruct (wf_jmp _ _ W core h' u Hu' Hc) as (k & Hk & Hi).
      exists k. split; [done|]. by apply Hch'.
    + apply W.
  - intros core h' u Hc Hu. destruct (Hj core h' Hc u Hu) as [Hu' _]. by apply (S core h' u Hc Hu').
  - done.
  - done.
  - intros u. split.
    + intros (tb & Htb & Hu). apply Hch' in Hu as [Hu Hne]. split; [by exists tb|done].
    + intros [(tb & Htb & Hu) Hne]. exists tb. split; [done|]. by apply Hch'.
  - intros core h' Hc Hu. by destruct (Hj core h' Hc t Hu).
Qed.

(** ** Taking a block off the lists of its pages *)

Lemma set_page_wf lst P P' i p q : pages_wf lst P -> page_index i -> page_find P i = Some p -> first_tb q = first_tb p ->
  flags q = flags p -> set_page P i q = Some P' -> pages_wf lst P' /\ same_flags P P'.
Proof.
  intros [A1 A2 A3] Hi Ep Ef Eg E. split.
  - split; try done. intros j Hj. rewrite (set_page_next_eq _ _ _ _ E), (first_of_set P P' i j q) by done.
    case_decide as Hd; [|by apply A1]. subst j. rewrite Ef. specialize (A1 i Hi). unfold first_of in A1. by rewrite Ep in A1.
  - exact (same_flags_set P P' i p q Hi Ep Eg E).
Qed.

Lemma remove_from_page_spec lst P i tb n : pages_wf lst P -> page_index i -> (tb, n) ∈ lst i ->
  exists P', remove_from_page P (4096 * i) tb = Some P' /\ pages_wf (fun j => drop_cell (tb, n) (lst j)) P' /\ same_flags P P'.
Proof.
  intros W Hi Hin. unfold remove_from_page. rewrite page_shr, Z.mul_comm, Z.div_mul by lia.
  destruct (tb_page_remove_spec lst P W i tb n Hi Hin) as (P1 & E1 & W1 & S1). rewrite E1. cbn [mbind option_bind].
  assert (exists p, page_find P1 i = Some p) as [p Ep].
  { unfold tb_page_remove in E1. destruct (find_in_page _ _ _ _) as [[ptb n1]|] eqn:Ef; cbn [mbind option_bind] in E1; [|done].
    pose proof (pg_list _ _ W i Hi) as Hl. assert (is_Some (page_find P i)) as [q Eq].
    { unfold first_of in Hl. destruct (page_find P i); [done|]. cbn in Hl. destruct (lst i); [set_solver|by destruct Hl]. }
    destruct ptb as [j|c]; cbn [page_put] in E1.
    - destruct (page_find P j) as [q'|] eqn:Eq'; cbn [mbind option_bind] in E1; [|done].
      unfold set_page in E1. destruct (l1_map P !! l1_index j) as [pd|] eqn:Epd; cbn [mbind option_bind] in E1; [|done]. injection E1 as <-.
      unfold page_find in *. cbn [l1_map]. destruct (decide (l1_index i = l1_index j)) as [->|Hne].
      + rewrite lookup_insert_eq. cbn. by eexists.
      + rewrite lookup_insert_ne by done. destruct (l1_map P !! l1_index i); [|done]. cbn. by eexists.
    - injection E1 as <-. by exists q. }
  rewrite Ep. cbn [mbind option_bind]. destruct (set_page_Some P1 i (invalidate_page_bitmap p) p Ep) as (P2 & E2 & _).
  exists P2. split; [done|]. destruct (set_page_wf _ P1 P2 i p (invalidate_page_bitmap p) W1 Hi Ep eq_refl eq_refl E2) as [W2 S2].
  split; [done|]. intros j Hj. by rewrite S2, S1.
Qed.

(** What an invalidation does not touch. *)
Record untouched (s s' : Machine Code) : Prop := {
  un_tbs : tbs (cache s') = tbs (cache s);
  un_mem : mem s' = mem s;
  un_code : tb_code s' = tb_code s;
  un_flags : same_flags (pages s) (pages s')
}.

Lemma untouched_refl s : untouched s s.
Proof. by split. Qed.

Lemma untouched_trans s1 s2 s3 : untouched s1 s2 -> untouched s2 s3 -> untouched s1 s3.
Proof. intros [A1 A2 A3 A4] [B1 B2 B3 B4]. split; [congruence..|]. intros i Hi. by rewrite B4, A4. Qed.

(** ** [tb_phys_invalidate] *)

Section Invalidate.
Context (lst : Z -> list cell) (inc : nat -> list cell) (dead : list cell) (s : Machine Code).
Context (I : inv lst inc dead s) (t : nat) (Ht : linked (cache s) t) (b : TranslationBlock) (Hb : tbs (cache s) !! t = Some b).
(** The second argument: -1, or the page whose list the caller takes care of. *)
Context (a : Z).

Lemma block_facts : in_u 32 (tb_pc b) /\ page_addr0 b = tb_pc b - tb_pc b mod 4096 /\
  (page_addr1 b = NO_PAGE \/ page_addr1 b = uint32_t (tb_pc b - tb_pc b mod 4096 + 4096)) /\
  page_addr0 b <> NO_PAGE /\ page_addr0 b <> page_addr1 b.
Proof.
  destruct (linked_block _ _ (i_wf _ _ _ _ I) Ht) as (b' & Hb' & Hpc & H0 & _ & H1). rewrite Hb in Hb'. injection Hb' as <-.
  split_and!; try done.
  - intros E. rewrite H0 in E. unfold NO_PAGE in E. clear - E. Z.to_euclidean_division_equations. lia.
  - intros E. destruct H1 as [H1|H1]; rewrite H1, H0 in E; [unfold NO_PAGE in E; clear - E; Z.to_euclidean_division_equations; lia|].
    clear - E Hpc. cint.
Qed.

Lemma block_phys_pc : uint32_t (page_addr0 b + Z.land (tb_pc b) (Z.lnot TARGET_PAGE_MASK)) = tb_pc b.
Proof. destruct block_facts as (Hpc & -> & _). rewrite page_offset. replace (_ + _) with (tb_pc b) by lia. by apply uint_id. Qed.

(** The block is on the list of each of its pages. *)
Lemma block_on_lists : exists i0, page_index i0 /\ page_addr0 b = 4096 * i0 /\ (t, 0%nat) ∈ lst i0 /\
  (page_addr1 b = NO_PAGE \/ exists i1, page_index i1 /\ page_addr1 b = 4096 * i1 /\ (t, 1%nat) ∈ lst i1).
Proof.
  destruct block_facts as (Hpc & H0 & H1 & _).
  assert (forall n i, on_page (cache s) (t, n) i -> page_index i /\ (t, n) ∈ lst i) as Hon.
  { intros n i Hp. assert (page_index i) as Hi by (eapply (on_page_index _ (t, n)); [exact (i_wf _ _ _ _ I)|exact Ht|exact Hp]).
    split; [done|]. apply (i_lst _ _ _ _ I i (t, n) Hi). split; [done|by left]. }
  assert (page_addr0 b = 4096 * (tb_pc b / 4096)) as E0 by (rewrite H0; Z.to_euclidean_division_equations; lia).
  exists (tb_pc b / 4096). destruct (Hon 0%nat (tb_pc b / 4096)) as [? ?]; [exists b; split; [done|]; left; done|]. split_and!; try done.
  destruct (decide (page_addr1 b = NO_PAGE)) as [|Hn]; [by left|]. right. destruct H1 as [?|H1]; [done|].
  assert (page_addr1 b = 4096 * (page_addr1 b / 4096)) as E1. { rewrite H1. clear - Hpc. cint. }
  exists (page_addr1 b / 4096). destruct (Hon 1%nat (page_addr1 b / 4096)) as [? ?]; [exists b; split; [done|]; right; done|]. done.
Qed.

(** The two calls of [tb_page_remove]. *)
Lemma remove_from_pages : exists P1 P2,
  (if page_addr0 b =? a then Some (pages s) else remove_from_page (pages s) (page_addr0 b) t) = Some P1 /\
  (if (page_addr1 b =? NO_PAGE) || (page_addr1 b =? a) then Some P1 else remove_from_page P1 (page_addr1 b) t) = Some P2 /\
  pages_wf (drop_pages t b a lst) P2 /\ same_flags (pages s) P2.
Proof.
  destruct block_on_lists as (i0 & Hi0 & E0 & L0 & H1). unfold drop_pages.
  set (lst1 := fun j => if page_addr0 b =? a then lst j else drop_cell (t, 0%nat) (lst j)).
  assert (exists P1, (if page_addr0 b =? a then Some (pages s) else remove_from_page (pages s) (page_addr0 b) t) = Some P1 /\
    pages_wf lst1 P1 /\ same_flags (pages s) P1) as (P1 & Ep1 & W1 & S1).
  { unfold lst1. destruct (page_addr0 b =? a).
    - exists (pages s). split; [done|]. split; [apply I|by intros i Hi].
    - rewrite E0. apply (remove_from_page_spec lst); [apply I|done..]. }
  exists P1. destruct (Z.eqb_spec (page_addr1 b) NO_PAGE) as [En|En]; cbn [orb].
  { exists P1. split_and!; done. }
  destruct (Z.eqb_spec (page_addr1 b) a) as [Ea|Ea].
  { exists P1. split_and!; done. }
  destruct H1 as [?|(i1 & Hi1 & E1 & L1)]; [done|]. rewrite E1.
  assert ((t, 1%nat) ∈ lst1 i1) as L1'. { unfold lst1. destruct (page_addr0 b =? a); [done|]. by apply elem_of_drop_cell. }
  destruct (remove_from_page_spec lst1 P1 i1 t 1 W1 Hi1 L1') as (P2 & Ep2 & W2 & S2).
  exists P2. split_and!; try done. intros i Hi. by rewrite S2, S1.
Qed.

(** The result: block [t] is in no table, and nothing else has changed. *)
Record invalidated (s' : Machine Code) : Prop := {
  iv_inv : inv (drop_pages t b a lst) (fun u => drop_block t (inc u)) (add_dead t b a dead) s';
  iv_same : untouched s s';
  iv_linked : forall u, linked (cache s') u <-> linked (cache s) u /\ u <> t;
  iv_jmp : forall core h, core ∈ cpu_list -> jmp_of (cache s') core !! h <> Some t;
  iv_jumps : forall p, p.1 <> t -> jmp_dest (tc_of (cache s)) (jumps s') p =
    if decide (p ∈ inc t) then tc_of (cache s) p.1 + next_offset (jumps s) p else jmp_dest (tc_of (cache s)) (jumps s) p
}.

Lemma drop_pages_lst i p c' : page_index i -> tbs c' = tbs (cache s) ->
  (forall u, linked c' u <-> linked (cache s) u /\ u <> t) ->
  p ∈ drop_pages t b a lst i <-> on_page c' p i /\ (linked c' p.1 \/ p ∈ add_dead t b a dead).
Proof.
  intros Hi Htbs Hlk. destruct block_facts as (_ & _ & _ & Hn0 & H01).
  assert (on_page c' p i <-> on_page (cache s) p i) as Hon by (unfold on_page; by rewrite Htbs).
  assert (forall n, on_page (cache s) (t, n) i -> n = 0%nat /\ page_addr0 b = 4096 * i \/ n = 1%nat /\ page_addr1 b <> NO_PAGE /\ page_addr1 b = 4096 * i) as Hont.
  { intros n (b' & Hb' & H). cbn in Hb', H. rewrite Hb in Hb'. by injection Hb' as <-. }
  rewrite elem_of_drop_pages, elem_of_add_dead, Hon, Hlk, (i_lst _ _ _ _ I i p Hi). split.
  - intros ([Hp [Hl|Hd]] & H0 & H1); [|split; [done|right; by left]]. split; [done|].
    destruct (decide (p.1 = t)) as [E|Hne]; [|by left]. right. right. destruct p as [u n]. cbn in E. subst u.
    destruct (Hont n Hp) as [[-> Hx]|[-> [Hx Hy]]]; [left; auto|]. right. destruct (H1 eq_refl) as [|Ha1]; [done|].
    rewrite <- Ha1. done.
  - intros [Hp Hx]. assert (linked (cache s) p.1 \/ p ∈ dead) as Hl.
    { destruct Hx as [[? _]|[?|[[-> _]|[-> _]]]]; auto. }
    split; [done|]. assert (p.1 = t -> p = (t, 0%nat) /\ page_addr0 b = a \/ p = (t, 1%nat) /\ page_addr1 b = a) as Hpt.
    { intros E. destruct Hx as [[_ ?]|[Hd|[?|(? & _ & _ & ?)]]]; [done| |by left|by right]. exfalso.
      apply (i_dead _ _ _ _ I p Hd). by rewrite E. }
    split; intros ->; destruct (Hpt eq_refl) as [[? ?]|[? ?]]; auto; congruence.
Qed.

Lemma tb_phys_invalidate_spec : exists s', tb_phys_invalidate cpu_list s t a = Some s' /\ invalidated s'.
Proof.
  unfold tb_phys_invalidate. rewrite Hb. cbn [mbind option_bind]. rewrite block_phys_pc.
  destruct (remove_from_cache (cache s) t b (i_wf _ _ _ _ I) (i_slot _ _ _ _ I) Ht Hb) as (chain & -> & R). cbn [mbind option_bind].
  destruct remove_from_pages as (P1 & P2 & -> & Ep2 & W2 & S2). cbn [mbind option_bind]. rewrite Ep2. cbn [mbind option_bind].
  set (c' := clear_jmp_caches _ _ _ _) in *. destruct R as [R1 R2 R3 R4 R5 R6].
  assert (forall u, tc_of c' u = tc_of (cache s) u) as Htc by (intros u; unfold tc_of; by rewrite R3).
  assert (jumps_wf (tc_of c') (linked (cache s)) inc (jumps s)) as J0.
  { eapply (jumps_wf_ext (tc_of (cache s))); try done. apply I. }
  assert (code_near (tc_of c') (linked (cache s)) (jumps s)) as N0. { intros u Hu. rewrite Htc. by apply I. }
  destruct (tb_unchain_spec (tc_of c') _ _ _ t J0 N0 Ht) as (j & -> & J1 & No & Jo & D). cbn [mbind option_bind].
  eexists. split; [reflexivity|]. split.
  - split; cbn.
    + done.
    + exact R2.
    + exact W2.
    + intros i p Hi. by apply drop_pages_lst.
    + intros i Hi Hpr Hl. rewrite (same_flags_at _ _ _ S2) by done. apply (i_prot _ _ _ _ I i Hi Hpr). intros E. apply Hl.
      unfold drop_pages. rewrite E. unfold drop_cell. by repeat case_match.
    + eapply jumps_wf_live; [|exact J1]. intros u. rewrite R5. done.
    + intros u Hu. apply R5 in Hu as [Hu _]. unfold next_offset, jmp_offset. rewrite No, Jo. by apply N0.
    + intros u Hu. apply R5 in Hu as [Hu _]. destruct (i_code _ _ _ _ I u Hu) as (tb & Htb & H). exists tb. cbn [cache tb_code]. split; [|exact H].
      exact Htb.
    + by apply (tc_sorted_same (cache s)); [| | |apply I].
    + intros p Hp Hl. apply R5 in Hl as [Hl Hne]. apply elem_of_add_dead in Hp as [Hp|[[-> _]|[-> _]]]; [|done..].
      by apply (i_dead _ _ _ _ I p Hp).
  - by split.
  - done.
  - done.
  - intros p Hp. cbn. assert (jmp_dest (tc_of (cache s)) j p = jmp_dest (tc_of c') j p) as ->.
    { unfold jmp_dest, jmp_addr. by rewrite Htc. }
    rewrite D by done. rewrite Htc. case_decide; [done|]. unfold jmp_dest, jmp_addr. by rewrite Htc.
Qed.

End Invalidate.

End Inv.
