(* ===== verification/TbSmc.v ===== *)
(** * Guest code that changes

    The loops over the blocks of a page ([tb_invalidate_phys_page],
    [tb_invalidate_phys_page_range], [build_page_bitmap]) keep the invariant of TbInvProofs
    and remove exactly the blocks of the page, or those with a byte in the range. *)

From S2P Require Import Prelude TbCache TbLists TbJumps TbPages TbInvalidate TbBitmap TbInvProofs.
Open Scope Z_scope.

Lemma lseg_head nx p l : lseg nx p l None -> p = head l.
Proof. destruct l; cbn; [done|]. by intros [? _]. Qed.

Lemma lseg_after nx p l1 c l2 : lseg nx p (l1 ++ c :: l2) None -> nx !! c = head l2.
Proof. intros H. apply lseg_app in H as (m & _ & H). destruct H as (_ & _ & H). by apply lseg_head in H. Qed.

Section Smc.
Context {Code : Type} `{!Translator Code}.
Context (cpu_list : list nat) (prot : Z -> Prop).

Lemma head_lst lst inc dead s i p : inv cpu_list prot lst inc dead s -> page_index i -> page_find (pages s) i = Some p -> first_tb p = head (lst i).
Proof.
  intros I Hi Ep. pose proof (pg_list _ _ (i_pages _ _ _ _ _ _ I) i Hi) as H. apply lseg_head in H.
  unfold first_of in H. by rewrite Ep in H.
Qed.

Lemma lst_fuel lst inc dead s i : inv cpu_list prot lst inc dead s -> page_index i -> (length (lst i) < page_fuel s)%nat.
Proof.
  intros I Hi. pose proof (lseg_length _ _ _ None Logic.I (pg_list _ _ (i_pages _ _ _ _ _ _ I) i Hi)). unfold page_fuel. lia.
Qed.

(** Without removed blocks, the list of a page holds linked blocks. *)
Lemma lst_linked lst inc s i p : inv cpu_list prot lst inc [] s -> page_index i -> p ∈ lst i -> linked (cache s) p.1 /\ on_page (cache s) p i.
Proof. intros I Hi Hp. apply (i_lst _ _ _ _ _ _ I i p Hi) in Hp as [Ho [Hl|Hd]]; [done|by apply not_elem_of_nil in Hd]. Qed.

(** Page [i] is left out by an invalidation for that page. *)
Lemma drop_pages_same lst inc dead s t n b i : inv cpu_list prot lst inc dead s -> page_index i -> linked (cache s) t ->
  tbs (cache s) !! t = Some b -> (t, n) ∈ lst i -> drop_pages t b (4096 * i) lst i = lst i.
Proof.
  intros I Hi Ht Hb Hin.
  assert (forall m, (t, m) ∈ lst i -> on_page (cache s) (t, m) i) as Hon by (intros m Hm; by apply (i_lst _ _ _ _ _ _ I i) in Hm as [? _]).
  unfold drop_pages.
  assert ((if page_addr0 b =? 4096 * i then lst i else drop_cell (t, 0%nat) (lst i)) = lst i) as ->.
  { destruct (Z.eqb_spec (page_addr0 b) (4096 * i)) as [|Hne]; [done|]. apply drop_cell_none. intros Hx.
    destruct (Hon 0%nat Hx) as (b' & Hb' & H). cbn in Hb', H. rewrite Hb in Hb'. injection Hb' as <-. naive_solver. }
  destruct (Z.eqb_spec (page_addr1 b) NO_PAGE), (Z.eqb_spec (page_addr1 b) (4096 * i)); cbn [orb]; try done.
  apply drop_cell_none. intros Hx. destruct (Hon 1%nat Hx) as (b' & Hb' & H). cbn in Hb', H. rewrite Hb in Hb'. injection Hb' as <-. naive_solver.
Qed.

(** What a removal of the blocks in [gone] leaves. *)
Record gone_from (gone : nat -> Prop) (s s' : Machine Code) : Prop := {
  gf_same : untouched s s';
  gf_linked : forall u, linked (cache s') u <-> linked (cache s) u /\ ~ gone u
}.

Lemma gone_trans g1 g2 g3 s1 s2 s3 : gone_from g1 s1 s2 -> gone_from g2 s2 s3 -> (forall u, g3 u <-> g1 u \/ g2 u) -> gone_from g3 s1 s3.
Proof.
  intros [A1 A2] [B1 B2] H. split; [by eapply untouched_trans|]. intros u. rewrite B2, A2, H. tauto.
Qed.

Lemma invalidate_page_loop_spec i post : forall pre s lst inc dead fuel, page_index i -> inv cpu_list prot lst inc dead s ->
  lst i = pre ++ post -> (forall p, p ∈ post -> linked (cache s) p.1) -> (forall p, p ∈ pre -> ~ linked (cache s) p.1) ->
  (forall p, p ∈ dead -> on_page (cache s) p i) -> (length post < fuel)%nat ->
  exists s' lst' inc' dead', invalidate_page_loop cpu_list fuel s (4096 * i) (head post) = Some s' /\ inv cpu_list prot lst' inc' dead' s' /\
    lst' i = lst i /\ (forall p, p ∈ lst i -> ~ linked (cache s') p.1) /\ (forall p, p ∈ dead' -> on_page (cache s') p i) /\
    gone_from (fun u => u ∈ post.*1) s s'.
Proof.
  induction post as [|[t n] post IH]; intros pre s lst inc dead [|fuel] Hi I El Hpost Hpre Hdead Hf; cbn [length] in Hf; try lia.
  - exists s, lst, inc, dead. cbn. split; [done|]. split; [done|]. split; [done|]. split; [|split; [done|]].
    + rewrite El, app_nil_r. done.
    + split; [apply untouched_refl|]. intros u. rewrite elem_of_nil. tauto.
  - cbn [head invalidate_page_loop]. assert (linked (cache s) t) as Ht by (apply (Hpost (t, n)); set_solver).
    destruct (linked_block _ _ _ (i_wf _ _ _ _ _ _ I) Ht) as (b & Hb & _).
    assert ((t, n) ∈ lst i) as Hin by (rewrite El; set_solver).
    assert (on_page (cache s) (t, n) i) as Hon by (by apply (i_lst _ _ _ _ _ _ I i) in Hin as [? _]).
    destruct (tb_phys_invalidate_spec cpu_list prot lst inc dead s I t Ht b Hb (4096 * i)) as (s1 & -> & [I1 U1 L1 _ _]).
    cbn [mbind option_bind].
    assert (drop_pages t b (4096 * i) lst i = lst i) as Ed by (by eapply drop_pages_same).
    pose proof (pg_list _ _ (i_pages _ _ _ _ _ _ I1) i Hi) as Hl. rewrite Ed, El in Hl. rewrite (lseg_after _ _ _ _ _ Hl).
    pose proof (pg_once _ _ (i_pages _ _ _ _ _ _ I) i Hi) as Ho. rewrite El, fmap_app in Ho. apply NoDup_app in Ho as (_ & _ & Ho).
    rewrite fmap_cons in Ho. apply NoDup_cons in Ho as [Ho _]. cbn in Ho.
    assert (forall p j, on_page (cache s1) p j <-> on_page (cache s) p j) as Hops by (intros p j; unfold on_page; by rewrite (un_tbs _ _ U1)).
    destruct (IH (pre ++ [(t, n)]) s1 _ _ _ fuel Hi I1) as (s' & lst' & inc' & dead' & E & I' & El' & Hno & Hd' & G').
    + by rewrite Ed, El, <- app_assoc.
    + intros p Hp. apply L1. split; [apply Hpost; set_solver|]. intros E. apply Ho. apply list_elem_of_fmap. by exists p.
    + intros p Hp. rewrite L1. apply elem_of_app in Hp as [Hp|Hp]; [by apply Hpre in Hp; tauto|].
      apply list_elem_of_singleton in Hp as ->. cbn. tauto.
    + intros p Hp. rewrite Hops. destruct (block_facts cpu_list prot lst inc dead s I t Ht b Hb) as (_ & _ & _ & _ & H01).
      destruct Hon as (b' & Hb' & H). cbn in Hb', H. rewrite Hb in Hb'. injection Hb' as <-.
      apply elem_of_add_dead in Hp as [Hp|[[-> Hp]|(-> & _ & _ & Hp)]]; [by apply Hdead| |].
      * exists b. split; [done|]. by left.
      * exists b. split; [done|]. right. split; [done|]. destruct H as [[_ H]|[_ [H ?]]]; [|done]. congruence.
    + lia.
    + exists s', lst', inc', dead'. split; [done|]. split; [done|]. split; [by rewrite El', Ed|]. rewrite Ed in Hno. split; [done|]. split; [done|].
      eapply (gone_trans (fun u => u = t)); [by split|exact G'|]. intros u. rewrite fmap_cons, elem_of_cons. done.
Qed.

(** [p->first_tb = NULL] *)
Lemma clear_page_inv lst inc dead s i p P' : page_index i -> inv cpu_list prot lst inc dead s -> page_find (pages s) i = Some p ->
  (forall q, q ∈ lst i -> ~ linked (cache s) q.1) -> (forall q, q ∈ dead -> on_page (cache s) q i) ->
  set_page (pages s) i (set_first_tb p None) = Some P' ->
  inv cpu_list prot (fun j => if decide (j = i) then [] else lst j) inc [] (set_pages s P') /\ untouched s (set_pages s P').
Proof.
  intros Hi I Ep Hno Hdead E. assert (same_flags (pages s) P') as Hfl.
  { exact (same_flags_set (pages s) P' i p (set_first_tb p None) Hi Ep eq_refl E). }
  split; [|by split]. destruct I as [I1 I2 I3 I4 I5 I6 I7 I8 I9 I10]. split; try done.
  - destruct I3 as [A1 A2 A3]. split.
    + intros j Hj. cbn. rewrite (set_page_next_eq _ _ _ _ E), (first_of_set (pages s) P' i j (set_first_tb p None)) by done.
      case_decide; [done|]. by apply A1.
    + intros j k q Hj Hk. repeat case_decide; try (by intros Hx%not_elem_of_nil); [intros _ Hx; by apply not_elem_of_nil in Hx|]. by apply A2.
    + intros j Hj. case_decide; [constructor|]. by apply A3.
  - intros j q Hj. cbn. case_decide as Hd.
    + subst j. split; [by intros Hx%not_elem_of_nil|]. intros [Ho [Hl|Hx]]; [|by apply not_elem_of_nil in Hx]. exfalso.
      apply (Hno q); [|done]. apply I4; [done|]. split; [done|by left].
    + rewrite I4 by done. split.
      * intros [Ho [Hl|Hx]]; [split; [done|by left]|]. exfalso. apply Hd. by apply (on_page_unique _ _ _ _ Ho (Hdead q Hx)).
      * intros [Ho [Hl|Hx]]; [split; [done|by left]|]. by apply not_elem_of_nil in Hx.
  - intros j Hj Hpr. cbn. case_decide; [done|]. rewrite (same_flags_at _ _ _ Hfl) by done. by apply I5.
  - intros q Hq. by apply not_elem_of_nil in Hq.
Qed.

(** [tb_invalidate_phys_page] removes exactly the blocks of the page. *)
Definition in_page (c : TbState) (i : Z) (u : nat) : Prop := exists n, on_page c (u, n) i.

Lemma tb_invalidate_phys_page_spec lst inc s addr i : inv cpu_list prot lst inc [] s -> page_index i -> addr / 4096 = i ->
  exists s' lst' inc', tb_invalidate_phys_page cpu_list s addr = Some s' /\ inv cpu_list prot lst' inc' [] s' /\ lst' i = [] /\
    gone_from (in_page (cache s) i) s s'.
Proof.
  intros I Hi Ha. unfold tb_invalidate_phys_page.
  assert (Z.land addr TARGET_PAGE_MASK = 4096 * i) as -> by (rewrite page_mask; subst i; Z.to_euclidean_division_equations; lia).
  rewrite page_shr, Z.mul_comm, Z.div_mul by lia. rewrite (Z.mul_comm i).
  assert (forall u, linked (cache s) u /\ in_page (cache s) i u <-> u ∈ (lst i).*1) as Hin.
  { intros u. rewrite list_elem_of_fmap. split.
    - intros [Hl [n Ho]]. exists (u, n). split; [done|]. apply (i_lst _ _ _ _ _ _ I i (u, n) Hi). split; [done|by left].
    - intros ([u' n] & -> & Hp). destruct (lst_linked _ _ _ _ _ I Hi Hp) as [Hl Ho]. split; [done|]. by exists n. }
  destruct (page_find (pages s) i) as [p|] eqn:Ep.
  - rewrite (head_lst _ _ _ _ _ _ I Hi Ep).
    destruct (invalidate_page_loop_spec i (lst i) [] s lst inc [] (page_fuel s) Hi I eq_refl) as (s1 & lst1 & inc1 & dead1 & -> & I1 & El & Hno & Hd & [U1 L1]).
    { intros q Hq. by apply (lst_linked _ _ _ _ _ I Hi). }
    { intros q Hq. by apply not_elem_of_nil in Hq. }
    { intros q Hq. by apply not_elem_of_nil in Hq. }
    { by apply (lst_fuel _ _ _ _ _ I). }
    cbn [mbind option_bind]. destruct (page_find (pages s1) i) as [p1|] eqn:Ep1.
    + cbn [mbind option_bind]. destruct (set_page_Some (pages s1) i (set_first_tb p1 None) p1 Ep1) as (P' & E & _). rewrite E. cbn [mbind option_bind].
      destruct (clear_page_inv lst1 inc1 dead1 s1 i p1 P' Hi I1 Ep1) as [I2 U2]; [by rewrite El|done|done|].
      eexists _, _, _. split; [reflexivity|]. split; [exact I2|]. split; [by rewrite decide_True|]. split; [by eapply untouched_trans|].
      intros u. etransitivity; [apply L1|]. rewrite <- Hin. tauto.
    + exfalso. destruct (same_flags_found _ _ i (un_flags _ _ U1) Hi) as [? E]; [by rewrite Ep|]. by rewrite Ep1 in E.
  - exists s, lst, inc. split; [done|]. split; [done|]. assert (lst i = []) as El.
    { pose proof (pg_list _ _ (i_pages _ _ _ _ _ _ I) i Hi) as H. unfold first_of in H. rewrite Ep in H. cbn in H.
      destruct (lst i); [done|]. by destruct H. }
    split; [done|]. split; [apply untouched_refl|]. intros u. specialize (Hin u). rewrite El in Hin. cbn in Hin. rewrite elem_of_nil in Hin. tauto.
Qed.

(** ** Part of a page *)

(** The guest bytes of a block in a page, of which [tb_range] gives the bounds. *)
Definition overlaps (c : TbState) (start last : Z) (p : cell) : Prop :=
  exists b, tbs c !! p.1 = Some b /\ start < (tb_range b p.2).2 /\ (tb_range b p.2).1 < last.

Lemma drop_pages_all lst inc dead s t n b i pre post : inv cpu_list prot lst inc dead s -> page_index i -> linked (cache s) t ->
  tbs (cache s) !! t = Some b -> lst i = pre ++ (t, n) :: post -> drop_pages t b NO_PAGE lst i = pre ++ post.
Proof.
  intros I Hi Ht Hb El. destruct (block_facts cpu_list prot lst inc dead s I t Ht b Hb) as (_ & _ & _ & Hn0 & _).
  pose proof (lst_NoDup _ _ (i_pages _ _ _ _ _ _ I) i Hi) as Hnd. rewrite El in Hnd.
  pose proof (pg_once _ _ (i_pages _ _ _ _ _ _ I) i Hi) as Ho. rewrite El, fmap_app, fmap_cons in Ho. cbn in Ho.
  assert (forall m, (t, m) ∉ pre ++ post) as Hno.
  { intros m Hm. rewrite <- Permutation_middle in Ho. apply NoDup_cons in Ho as [Ho _]. apply Ho. rewrite <- fmap_app.
    apply list_elem_of_fmap. by exists (t, m). }
  assert (on_page (cache s) (t, n) i) as (b' & Hb' & H).
  { assert ((t, n) ∈ lst i) as Hx by (rewrite El; set_solver). by apply (i_lst _ _ _ _ _ _ I i) in Hx as [? _]. }
  cbn in Hb', H. rewrite Hb in Hb'. injection Hb' as <-.
  unfold drop_pages. rewrite (proj2 (Z.eqb_neq _ _) Hn0), El. destruct H as [[-> _]|(-> & Hn1 & _)].
  - rewrite drop_cell_mid by done. destruct ((page_addr1 b =? NO_PAGE) || (page_addr1 b =? NO_PAGE)); [done|]. by apply drop_cell_none.
  - rewrite (proj2 (Z.eqb_neq _ _) Hn1). cbn [orb].
    rewrite (drop_cell_none (t, 0%nat)); [by apply drop_cell_mid|].
    intros Hx. rewrite <- Permutation_middle in Hx. apply elem_of_cons in Hx as [?|Hx]; [congruence|]. by apply Hno in Hx.
Qed.

Lemma invalidate_range_loop_spec i start last post : forall pre s lst inc fuel, page_index i -> inv cpu_list prot lst inc [] s ->
  lst i = pre ++ post -> (length post < fuel)%nat ->
  exists s' lst' inc', invalidate_range_loop cpu_list fuel s start last (head post) = Some s' /\ inv cpu_list prot lst' inc' [] s' /\
    gone_from (fun u => exists n, (u, n) ∈ post /\ overlaps (cache s) start last (u, n)) s s'.
Proof.
  induction post as [|[t n] post IH]; intros pre s lst inc [|fuel] Hi I El Hf; cbn [length] in Hf; try lia.
  - exists s, lst, inc. cbn. split; [done|]. split; [done|]. split; [apply untouched_refl|].
    intros u. split; [|tauto]. intros Hu. split; [done|]. intros (n & Hx & _). by apply not_elem_of_nil in Hx.
  - cbn [head invalidate_range_loop]. assert ((t, n) ∈ lst i) as Hin by (rewrite El; set_solver).
    destruct (lst_linked _ _ _ _ _ I Hi Hin) as [Ht Hon]. cbn in Ht.
    destruct (linked_block _ _ _ (i_wf _ _ _ _ _ _ I) Ht) as (b & Hb & _). cbn. rewrite Hb. cbn [mbind option_bind].
    destruct (tb_range b n) as [st en] eqn:Er.
    pose proof (pg_list _ _ (i_pages _ _ _ _ _ _ I) i Hi) as Hl. rewrite El in Hl. rewrite (lseg_after _ _ _ _ _ Hl).
    assert (overlaps (cache s) start last (t, n) <-> ~ (en <= start \/ last <= st)) as Hov.
    { unfold overlaps. cbn. rewrite Hb. split.
      - intros (b' & [= <-] & H1 & H2). rewrite Er in H1, H2. cbn in *. lia.
      - intros H. exists b. split; [done|]. rewrite Er. cbn. lia. }
    assert (forall (s1 : Machine Code) u, tbs (cache s1) = tbs (cache s) -> overlaps (cache s1) start last u <-> overlaps (cache s) start last u) as Hovs
      by (intros s1 u E; unfold overlaps; by rewrite E).
    destruct (negb ((en <=? start) || (last <=? st))) eqn:Ec.
    + assert (overlaps (cache s) start last (t, n)) as Ho by (apply Hov; destruct (Z.leb_spec en start), (Z.leb_spec last st); cbn in Ec; lia || done).
      destruct (tb_phys_invalidate_spec cpu_list prot lst inc [] s I t Ht b Hb NO_PAGE) as (s1 & -> & [I1 U1 L1 _ _]). cbn [mbind option_bind].
      assert (add_dead t b NO_PAGE [] = []) as Ed.
      { unfold add_dead. destruct (block_facts cpu_list prot lst inc [] s I t Ht b Hb) as (_ & _ & _ & Hn0 & _).
        by rewrite (proj2 (Z.eqb_neq _ _) Hn0), Z.eqb_refl. }
      rewrite Ed in I1. pose proof (drop_pages_all lst inc [] s t n b i pre post I Hi Ht Hb El) as El1.
      destruct (IH pre s1 _ _ fuel Hi I1 El1 ltac:(lia)) as (s' & lst' & inc' & E & I' & G'). exists s', lst', inc'. split; [done|]. split; [done|].
      eapply (gone_trans (fun u => u = t)); [by split|exact G'|]. intros u. split.
      * intros (m & Hm & Hx). apply elem_of_cons in Hm as [[= -> ->]|Hm]; [by left|]. right. exists m. split; [done|]. apply Hovs; [by apply U1|done].
      * intros [->|(m & Hm & Hx)]; [exists n; split; [set_solver|done]|]. exists m. split; [set_solver|]. apply Hovs in Hx; [done|by apply U1].
    + assert (~ overlaps (cache s) start last (t, n)) as Ho by (rewrite Hov; destruct (Z.leb_spec en start), (Z.leb_spec last st); cbn in Ec; tauto || done).
      cbn [mbind option_bind]. destruct (IH (pre ++ [(t, n)]) s lst inc fuel Hi I) as (s' & lst' & inc' & E & I' & G'); [by rewrite El, <- app_assoc|lia|].
      exists s', lst', inc'. split; [done|]. split; [done|]. destruct G' as [G1 G2]. split; [done|]. intros u. rewrite G2.
      split; intros [Hu Hx]; (split; [done|]); intros (m & Hm & Hy); apply Hx; exists m.
      * apply elem_of_cons in Hm as [[= -> ->]|Hm]; [done|]. done.
      * split; [set_solver|done].
Qed.

(** ** The bitmap of a page *)

Lemma bitmap_range_ok lst inc s i p b : inv cpu_list prot lst inc [] s -> page_index i -> p ∈ lst i -> tbs (cache s) !! p.1 = Some b ->
  0 <= (bitmap_range b p.2).1 <= (bitmap_range b p.2).2 /\ (bitmap_range b p.2).2 <= 4096.
Proof.
  intros I Hi Hp Hb. destruct (lst_linked _ _ _ _ _ I Hi Hp) as [Hl _]. destruct (i_code _ _ _ _ _ _ I _ Hl) as (b' & Hb' & _ & _ & Hs).
  rewrite Hb in Hb'. injection Hb' as <-.
  pose proof (translate_size (mem s) (tb_pc b) (cs_base b) (tb_flags b) 0 (linked_guest_pc _ _ _ _ (i_wf _ _ _ _ _ _ I) Hl Hb)) as Hz. rewrite <- Hs in Hz.
  unfold bitmap_range. change TARGET_PAGE_SIZE with 4096 in *. destruct (p.2 =? 0)%nat; cbn [fst snd]; rewrite !page_offset.
  - pose proof (Z.mod_pos_bound (tb_pc b) 4096). lia.
  - pose proof (Z.mod_pos_bound (tb_pc b + tb_size b) 4096). lia.
Qed.

(** A byte of the page is covered by a block of the list. *)
Definition covered (c : TbState) (l : list cell) (k : Z) : Prop :=
  exists p b, p ∈ l /\ tbs c !! p.1 = Some b /\ (bitmap_range b p.2).1 <= k < (bitmap_range b p.2).2.

Lemma bitmap_loop_spec i post : forall pre s lst inc tab fuel, page_index i -> inv cpu_list prot lst inc [] s -> lst i = pre ++ post ->
  bytes_ok tab -> length tab = 512%nat -> (length post < fuel)%nat ->
  exists tab', bitmap_loop fuel s tab (head post) = Some tab' /\ length tab' = 512%nat /\ bytes_ok tab' /\
    forall k, 0 <= k < 4096 -> bit tab' k = true <-> bit tab k = true \/ covered (cache s) post k.
Proof.
  induction post as [|[t n] post IH]; intros pre s lst inc tab [|fuel] Hi I El Hb Hlen Hf; cbn [length] in Hf; try lia.
  - exists tab. cbn. split; [done|]. split; [done|]. split; [done|]. intros k Hk. split; [by left|]. intros [?|(p & b & Hp & _)]; [done|by apply not_elem_of_nil in Hp].
  - cbn [head bitmap_loop]. assert ((t, n) ∈ lst i) as Hin by (rewrite El; set_solver).
    destruct (lst_linked _ _ _ _ _ I Hi Hin) as [Ht Hon]. cbn in Ht.
    destruct (linked_block _ _ _ (i_wf _ _ _ _ _ _ I) Ht) as (b & Eb & _). cbn. rewrite Eb. cbn [mbind option_bind].
    pose proof (bitmap_range_ok _ _ _ _ _ _ I Hi Hin Eb) as Hr. cbn [fst snd] in Hr. destruct (bitmap_range b n) as [st en] eqn:Er. cbn [fst snd] in Hr.
    destruct (set_bits_adds tab st (en - st) Hb) as (t1 & -> & [A1 A2 A3]); [lia|lia|lia|]. cbn [mbind option_bind].
    pose proof (pg_list _ _ (i_pages _ _ _ _ _ _ I) i Hi) as Hl. rewrite El in Hl. rewrite (lseg_after _ _ _ _ _ Hl).
    destruct (IH (pre ++ [(t, n)]) s lst inc t1 fuel Hi I) as (tab' & E & L & B & K); [by rewrite El, <- app_assoc|done|lia|lia|].
    exists tab'. split; [done|]. split; [done|]. split; [done|]. intros k Hk. rewrite K, A3, orb_true_iff by (try done; lia).
    assert (in_range st (st + (en - st)) k = true <-> st <= k < en) as ->.
    { unfold in_range. rewrite andb_true_iff, Z.leb_le, Z.ltb_lt. lia. }
    split.
    + intros [[?|Hx]|(p & b' & Hp & Hx)]; [by left|right|right].
      * exists (t, n), b. split; [set_solver|]. cbn. by rewrite Er.
      * exists p, b'. split; [set_solver|done].
    + intros [?|(p & b' & Hp & Hb' & Hx)]; [by left; left|]. apply elem_of_cons in Hp as [->|Hp].
      * left. right. cbn in Hb', Hx. rewrite Eb in Hb'. injection Hb' as <-. by rewrite Er in Hx.
      * right. by exists p, b'.
Qed.

Lemma bit_zero n k : 0 <= k < 8 * Z.of_nat n -> bit (replicate n 0) k = false.
Proof.
  intros Hk. unfold bit. rewrite lookup_total_replicate_2; [apply Z.bits_0|]. Z.to_euclidean_division_equations. lia.
Qed.

Lemma build_page_bitmap_spec lst inc s i p : inv cpu_list prot lst inc [] s -> page_index i -> page_find (pages s) i = Some p ->
  exists tab, build_page_bitmap s p = Some tab /\ length tab = 512%nat /\ bytes_ok tab /\
    forall k, 0 <= k < 4096 -> bit tab k = true <-> covered (cache s) (lst i) k.
Proof.
  intros I Hi Ep. unfold build_page_bitmap. rewrite (head_lst _ _ _ _ _ _ I Hi Ep).
  destruct (bitmap_loop_spec i (lst i) [] s lst inc (replicate 512 0) (page_fuel s) Hi I eq_refl) as (tab & E & L & B & K).
  { apply Forall_replicate. unfold in_u. lia. }
  { apply length_replicate. }
  { by apply (lst_fuel _ _ _ _ _ I). }
  exists tab. split; [exact E|]. split; [done|]. split; [done|]. intros k Hk. rewrite K, bit_zero by (try done; lia). naive_solver.
Qed.

(** ** The range of a page *)

(** The guest byte [x] belongs to block [u]. *)
Definition covers (c : TbState) (u : nat) (x : Z) : Prop :=
  exists b k, tbs c !! u = Some b /\ 0 <= k < tb_size b /\ x = uint32_t (tb_pc b + k).

Lemma block_geometry lst inc dead s u : inv cpu_list prot lst inc dead s -> linked (cache s) u ->
  exists b, tbs (cache s) !! u = Some b /\ in_u 32 (tb_pc b) /\ 1 <= tb_size b <= 4096 /\
    page_addr0 b = 4096 * (tb_pc b / 4096) /\
    (page_addr1 b = NO_PAGE /\ uint32_t (tb_pc b + tb_size b - 1) / 4096 = tb_pc b / 4096 \/
     page_addr1 b <> NO_PAGE /\ page_addr1 b = 4096 * (uint32_t (tb_pc b + tb_size b - 1) / 4096) /\
     uint32_t (tb_pc b + tb_size b - 1) / 4096 <> tb_pc b / 4096).
Proof.
  intros I Hu. destruct (i_code _ _ _ _ _ _ I u Hu) as (b & Hb & H1 & _ & Hs).
  pose proof (translate_size (mem s) (tb_pc b) (cs_base b) (tb_flags b) 0 (linked_guest_pc _ _ _ _ (i_wf _ _ _ _ _ _ I) Hu Hb)) as Hz. rewrite <- Hs in Hz. change TARGET_PAGE_SIZE with 4096 in Hz.
  destruct (linked_block _ _ _ (i_wf _ _ _ _ _ _ I) Hu) as (b' & Hb' & Hpc & H0 & _ & _). rewrite Hb in Hb'. injection Hb' as <-.
  exists b. split; [done|]. split; [done|]. split; [done|]. split; [rewrite H0; Z.to_euclidean_division_equations; lia|].
  unfold second_page in H1. rewrite !page_mask in H1. set (e := uint32_t (tb_pc b + tb_size b - 1)) in *.
  assert (in_u 32 e) as He by (by apply uint_range). revert H1.
  destruct (Z.eqb_spec (tb_pc b - tb_pc b mod 4096) (e - e mod 4096)) as [E|E]; intros H1; [left|right]; rewrite H1.
  - split; [done|]. clear - E. Z.to_euclidean_division_equations. lia.
  - split; [unfold NO_PAGE|split]; [clear; Z.to_euclidean_division_equations; lia..|].
    clear - E. Z.to_euclidean_division_equations. lia.
Qed.

(** A block that covers a byte of a page is on the list of the page. *)
Lemma covers_on_page lst inc dead s u x : inv cpu_list prot lst inc dead s -> linked (cache s) u -> covers (cache s) u x ->
  in_page (cache s) (x / 4096) u.
Proof.
  intros I Hu (b & k & Hb & Hk & ->). destruct (block_geometry lst inc dead s u I Hu) as (b' & Hb' & Hpc & Hz & H0 & H1).
  rewrite Hb in Hb'. injection Hb' as <-. destruct (decide (uint32_t (tb_pc b + k) / 4096 = tb_pc b / 4096)) as [E|E].
  - exists 0%nat. exists b. split; [done|]. left. by rewrite E.
  - exists 1%nat. exists b. split; [done|]. right. split; [done|].
    assert (uint32_t (tb_pc b + k) / 4096 = uint32_t (tb_pc b + tb_size b - 1) / 4096) as ->.
    { clear H0 H1. cint. }
    destruct H1 as [[_ H1]|(? & ? & _)]; [|done]. exfalso. clear H0. cint.
Qed.

(** The end of the part of a block in its second page. *)
Lemma second_part pc size i : in_u 32 pc -> 1 <= size <= 4096 -> uint32_t (pc + size - 1) / 4096 = i -> i <> pc / 4096 ->
  0 <= i < 1048575 -> uint32_t (4096 * i + (pc + size) mod 4096) = uint32_t (pc + size - 1) + 1 /\
  uint32_t (pc + size - 1) < 4096 * i + size - 1.
Proof. intros. cint. Qed.

Lemma second_bytes pc size i x : in_u 32 pc -> 1 <= size <= 4096 -> uint32_t (pc + size - 1) / 4096 = i -> i <> pc / 4096 ->
  0 <= i < 1048575 -> 4096 * i <= x < 4096 * (i + 1) ->
  x <= uint32_t (pc + size - 1) <-> exists k, 0 <= k < size /\ x = uint32_t (pc + k).
Proof.
  intros Hpc Hz Ei Hne Hi Hx. destruct (second_part pc size i Hpc Hz Ei Hne Hi) as [_ Hlt]. split.
  - intros Hle. exists (size - 1 - (uint32_t (pc + size - 1) - x)). split; [lia|]. clear Ei Hne Hlt. cint.
  - intros (k & Hk & ->). clear Hne Hlt. cint.
Qed.

Lemma range_bytes c b n i x : tbs c !! n.1 = Some b -> in_u 32 (tb_pc b) -> 1 <= tb_size b <= 4096 ->
  page_addr0 b = 4096 * (tb_pc b / 4096) ->
  (page_addr1 b = NO_PAGE \/ page_addr1 b = 4096 * (uint32_t (tb_pc b + tb_size b - 1) / 4096) /\
     uint32_t (tb_pc b + tb_size b - 1) / 4096 <> tb_pc b / 4096) ->
  on_page c n i -> 0 <= i < 1048575 ->
  (tb_range b n.2).1 < (tb_range b n.2).2 /\ 4096 * i <= (tb_range b n.2).1 < 4096 * (i + 1) /\
  (4096 * i <= x < 4096 * (i + 1) -> (tb_range b n.2).1 <= x < (tb_range b n.2).2 <-> exists k, 0 <= k < tb_size b /\ x = uint32_t (tb_pc b + k)).
Proof.
  intros Hb Hpc Hz H0 H1 (b' & Hb' & Ho) Hi. rewrite Hb in Hb'. injection Hb' as <-. unfold tb_range. rewrite !page_offset.
  destruct Ho as [[-> Ho]|(-> & Hn & Ho)]; cbn [Nat.eqb fst snd].
  - rewrite H0 in Ho |- *. assert (uint32_t (4096 * (tb_pc b / 4096) + tb_pc b mod 4096) = tb_pc b) as -> by (clear - Hpc; cint).
    assert (uint32_t (tb_pc b + tb_size b) = tb_pc b + tb_size b) as -> by (clear - Hpc Hz Ho Hi; cint).
    split; [lia|]. split; [clear - Ho; Z.to_euclidean_division_equations; lia|]. intros Hx. split.
    + intros Hx'. exists (x - tb_pc b). split; [lia|]. clear - Hx' Hz Hx Hi. cint.
    + intros (k & Hk & ->). clear - Hpc Hz Ho Hi Hk. cint.
  - destruct H1 as [?|[H1 Hne]]; [done|]. rewrite H1 in Ho |- *. assert (uint32_t (tb_pc b + tb_size b - 1) / 4096 = i) as Ei by lia.
    rewrite Ei in *. destruct (second_part _ _ _ Hpc Hz Ei Hne Hi) as [-> _].
    assert (4096 * i <= uint32_t (tb_pc b + tb_size b - 1)) by (clear - Ei; Z.to_euclidean_division_equations; lia).
    split; [lia|]. split; [lia|]. intros Hx. rewrite <- (second_bytes _ _ _ x Hpc Hz Ei Hne Hi Hx). lia.
Qed.

Lemma overlaps_covers lst inc dead s u n i start last : inv cpu_list prot lst inc dead s -> linked (cache s) u -> on_page (cache s) (u, n) i ->
  0 <= i < 1048575 -> 4096 * i <= start -> last <= 4096 * (i + 1) -> start < last ->
  overlaps (cache s) start last (u, n) <-> exists x, start <= x < last /\ covers (cache s) u x.
Proof.
  intros I Hu Hon Hi Hs Hl Hsl. destruct (block_geometry lst inc dead s u I Hu) as (b & Hb & Hpc & Hz & H0 & H1).
  pose proof (fun x => range_bytes (cache s) b (u, n) i x Hb Hpc Hz H0 ltac:(tauto) Hon Hi) as Hr. cbn [fst snd] in Hr.
  destruct (tb_range b n) as [lo hi] eqn:Er. cbn [fst snd] in Hr. unfold overlaps, covers. cbn [fst snd]. split.
  - intros (b' & Hb' & Hx1 & Hx2). rewrite Hb in Hb'. injection Hb' as <-. rewrite Er in Hx1, Hx2. cbn [fst snd] in *.
    exists (Z.max lo start). destruct (Hr (Z.max lo start)) as (Hlt & Hlo & Hiff). split; [lia|].
    destruct (proj1 (Hiff ltac:(lia)) ltac:(lia)) as (k & Hk & Ek). by exists b, k.
  - intros (x & Hx & b' & k & Hb' & Hk & Ek). rewrite Hb in Hb'. injection Hb' as <-. exists b. split; [done|]. rewrite Er. cbn [fst snd].
    destruct (Hr x) as (Hlt & Hlo & Hiff). assert (lo <= x < hi) by (apply Hiff; [lia|by exists k]). lia.
Qed.

Lemma set_pages_inv lst inc dead s P : inv cpu_list prot lst inc dead s -> pages_wf lst P -> same_flags (pages s) P ->
  inv cpu_list prot lst inc dead (set_pages s P).
Proof.
  intros [I1 I2 I3 I4 I5 I6 I7 I8 I9 I10] W Hf. split; try done. intros i Hi Hpr Hl. cbn. rewrite (same_flags_at _ _ _ Hf) by done. by apply I5.
Qed.

(** [tb_invalidate_phys_page_range] removes exactly the blocks with a byte in the range. *)
Lemma tb_invalidate_phys_page_range_spec lst inc s start last w : inv cpu_list prot lst inc [] s -> 0 <= start < last ->
  last <= 4096 * (start / 4096 + 1) -> start < 4294963200 ->
  exists s' lst' inc', tb_invalidate_phys_page_range cpu_list s start last w = Some s' /\ inv cpu_list prot lst' inc' [] s' /\
    gone_from (fun u => exists x, start <= x < last /\ covers (cache s) u x) s s'.
Proof.
  intros I Hs Hl Htop. unfold tb_invalidate_phys_page_range. rewrite page_shr. set (i := start / 4096) in *.
  assert (0 <= i < 1048575) as Hi by (unfold i; clear - Hs Htop; Z.to_euclidean_division_equations; lia).
  assert (page_index i) as Hpi by (unfold page_index, in_u; change (2 ^ 20) with 1048576; lia).
  assert (4096 * i <= start) as Hsi by (unfold i; Z.to_euclidean_division_equations; lia).
  assert (forall u, linked (cache s) u -> (exists x, start <= x < last /\ covers (cache s) u x) <->
    exists n, (u, n) ∈ lst i /\ overlaps (cache s) start last (u, n)) as Hiff.
  { intros u Hu. split.
    - intros (x & Hx & Hc). destruct (covers_on_page _ _ _ _ _ _ I Hu Hc) as [n Hn].
      assert (x / 4096 = i) as Ex by (clear - Hx Hsi Hl; Z.to_euclidean_division_equations; lia). rewrite Ex in Hn.
      exists n. split; [apply (i_lst _ _ _ _ _ _ I i (u, n) Hpi); split; [done|by left]|].
      apply (overlaps_covers lst inc [] s u n i); try done; [lia|]. by exists x.
    - intros (n & Hin & Hov). destruct (lst_linked _ _ _ _ _ I Hpi Hin) as [_ Hon].
      apply (overlaps_covers lst inc [] s u n i) in Hov; try done. lia. }
  destruct (page_find (pages s) i) as [p|] eqn:Ep.
  - assert (exists P, match code_bitmap p with
       | Some _ => Some (pages s)
       | None => b ← (if (SMC_BITMAP_USE_THRESHOLD <=? code_write_count p + 1) && w then b ← build_page_bitmap s p; Some (Some b) else Some None);
                 set_page (pages s) i (set_bitmap p (code_write_count p + 1) b)
       end = Some P /\ pages_wf lst P /\ same_flags (pages s) P) as (P & -> & WP & SP).
    { destruct (code_bitmap p) as [tab|]; [exists (pages s); split_and!; [done|apply I|done]|].
      assert (exists b, (if (SMC_BITMAP_USE_THRESHOLD <=? code_write_count p + 1) && w then b ← build_page_bitmap s p; Some (Some b) else Some None) = Some b) as [b ->].
      { destruct (_ && w); [|by eexists]. destruct (build_page_bitmap_spec _ _ _ _ _ I Hpi Ep) as (tab & -> & _). by eexists. }
      cbn [mbind option_bind]. destruct (set_page_Some (pages s) i (set_bitmap p (code_write_count p + 1) b) p Ep) as (P & E & _).
      exists P. split; [done|]. by apply (set_page_wf lst (pages s) P i p (set_bitmap p (code_write_count p + 1) b) (i_pages _ _ _ _ _ _ I) Hpi Ep eq_refl eq_refl E). }
    cbn [mbind option_bind]. pose proof (set_pages_inv _ _ _ _ _ I WP SP) as I1.
    rewrite (head_lst _ _ _ _ _ _ I Hpi Ep).
    destruct (invalidate_range_loop_spec i start last (lst i) [] (set_pages s P) lst inc (page_fuel (set_pages s P)) Hpi I1 eq_refl) as (s' & lst' & inc' & -> & I' & [U L]).
    { by apply (lst_fuel _ _ _ _ _ I1). }
    exists s', lst', inc'. split; [done|]. split; [done|]. split.
    + eapply untouched_trans; [|exact U]. by split.
    + intros u. rewrite L. split; intros [Hu Hx]; (split; [done|]); intros Hy; apply Hx; by apply (Hiff u Hu).
  - exists s, lst, inc. split; [done|]. split; [done|]. split; [apply untouched_refl|]. intros u. split; [|tauto]. intros Hu. split; [done|].
    intros Hx. apply (Hiff u Hu) in Hx as (n & Hn & _). pose proof (pg_list _ _ (i_pages _ _ _ _ _ _ I) i Hpi) as H.
    unfold first_of in H. rewrite Ep in H. cbn in H. destruct (lst i); [by apply not_elem_of_nil in Hn|]. by destruct H.
Qed.

(** The exemption of a page without blocks can be given up. *)
Lemma inv_prot prot' lst inc dead s : inv cpu_list prot lst inc dead s -> (forall i, prot' i -> prot i \/ lst i = []) ->
  inv cpu_list prot' lst inc dead s.
Proof.
  intros [I1 I2 I3 I4 I5 I6 I7 I8 I9 I10] H. split; try done. intros i Hi Hp Hl. destruct (H i Hp); [|done]. by apply I5.
Qed.

End Smc.
