(* ===== verification/TbPageFlags.v ===== *)
(** * Page flags and stores

    [page_set_flags], [page_unprotect], [page_check_range] and a store of the guest keep the
    invariant of TbInvProofs: a page with translated code is never writable, and a store
    that gets through finds no block on its page. *)

From S2P Require Import Prelude TbCache TbLists TbJumps TbPages TbInvalidate TbBitmap TbInvProofs TbSmc.
Open Scope Z_scope.

Section Flags.
Context {Code : Type} `{!Translator Code}.
Context (cpu_list : list nat).

(** All pages with code are protected. *)
Definition all_pages (i : Z) : Prop := True.

Definition writable (f : Z) : Prop := Z.land f PAGE_WRITE <> 0.

Lemma flags_inv lst inc s i p f P' : inv cpu_list all_pages lst inc [] s -> page_index i -> page_find (pages s) i = Some p ->
  (writable f -> lst i = []) -> set_page (pages s) i (set_flags p f) = Some P' -> inv cpu_list all_pages lst inc [] (set_pages s P').
Proof.
  intros [I1 I2 I3 I4 I5 I6 I7 I8 I9 I10] Hi Ep Hw E. split; try done.
  - destruct I3 as [A1 A2 A3]. split; try done. intros j Hj. cbn. rewrite (set_page_next_eq _ _ _ _ E), (first_of_set (pages s) P' i j (set_flags p f)) by done.
    case_decide as Hd; [|by apply A1]. subst j. specialize (A1 i Hi). unfold first_of in A1. by rewrite Ep in A1.
  - intros j Hj _ Hl. cbn. rewrite (flags_at_set (pages s) P' i j (set_flags p f)) by done. case_decide as Hd; [|by apply I5]. subst j. cbn.
    destruct (decide (Z.land f PAGE_WRITE = 0)); [done|]. destruct Hl. by apply Hw.
Qed.

(** Allocating the lower table of a page changes no list and no flag. *)
Lemma alloc_inv lst inc s i : inv cpu_list all_pages lst inc [] s -> page_index i ->
  let s' := set_pages s (page_find_alloc (pages s) i) in
  inv cpu_list all_pages lst inc [] s' /\ (forall j, page_index j -> flags_at (pages s') j = flags_at (pages s) j) /\ is_Some (page_find (pages s') i).
Proof.
  intros [I1 I2 I3 I4 I5 I6 I7 I8 I9 I10] Hi s'. destruct (page_find_alloc_spec (pages s) i Hi) as (Hn & Hp & Hf).
  assert (forall j, page_index j -> first_of (pages s') j = first_of (pages s) j /\ flags_at (pages s') j = flags_at (pages s) j) as H0.
  { intros j Hj. unfold first_of, flags_at, s'. cbn [pages set_pages]. destruct (Hf j Hj) as [->|[-> ->]]; done. }
  split; [|split; [intros j Hj; by apply H0|unfold s'; cbn; by rewrite Hp]]. split; try done.
  - destruct I3 as [A1 A2 A3]. split; try done. intros j Hj. rewrite (proj1 (H0 j Hj)). unfold s'. cbn. rewrite Hn. by apply A1.
  - intros j Hj _ Hl. rewrite (proj2 (H0 j Hj)). by apply I5.
Qed.

(** ** [page_set_flags] *)

(** The flags of the pages from [j] on are [f], and if [f] allows writing their blocks are
    gone. *)
Record flags_become (j : Z) (n : nat) (f : Z) (s s' : Machine Code) : Prop := {
  fb_tbs : tbs (cache s') = tbs (cache s);
  fb_mem : mem s' = mem s;
  fb_code : tb_code s' = tb_code s;
  fb_flags : forall i, page_index i -> flags_at (pages s') i = if decide (j <= i < j + Z.of_nat n) then f else flags_at (pages s) i;
  fb_linked : forall u, linked (cache s') u <->
    linked (cache s) u /\ ~ (writable f /\ exists i, j <= i < j + Z.of_nat n /\ in_page (cache s) i u)
}.

Lemma in_page_tbs c c' i u : tbs c' = tbs c -> in_page c' i u <-> in_page c i u.
Proof. intros E. unfold in_page, on_page. by rewrite E. Qed.

(** One page of the loop. *)
Lemma set_flags_page lst inc s i f : inv cpu_list all_pages lst inc [] s -> page_index i ->
  exists s' lst' inc', (
      let s := set_pages s (page_find_alloc (pages s) i) in
      p ← page_find (pages s) i;
      s ← (if (Z.land (flags p) PAGE_WRITE =? 0) && negb (Z.land f PAGE_WRITE =? 0) && negb (bool_decide (first_tb p = None))
           then tb_invalidate_phys_page cpu_list s (4096 * i) else Some s);
      p ← page_find (pages s) i;
      P ← set_page (pages s) i (set_flags p f);
      Some (set_pages s P)) = Some s' /\ inv cpu_list all_pages lst' inc' [] s' /\ flags_become i 1 f s s'.
Proof.
  intros I Hi. cbn zeta. destruct (alloc_inv lst inc s i I Hi) as (I0 & F0 & [p0 Ep0]). set (s0 := set_pages s _) in *. rewrite Ep0. cbn [mbind option_bind].
  pose proof (head_lst _ _ _ _ _ _ _ _ I0 Hi Ep0) as Hh.
  assert (flags_at (pages s0) i = flags p0) as Hfl by (unfold flags_at; by rewrite Ep0).
  assert (exists s1 lst1 inc1, (if (Z.land (flags p0) PAGE_WRITE =? 0) && negb (Z.land f PAGE_WRITE =? 0) && negb (bool_decide (first_tb p0 = None))
           then tb_invalidate_phys_page cpu_list s0 (4096 * i) else Some s0) = Some s1 /\ inv cpu_list all_pages lst1 inc1 [] s1 /\
     (writable f -> lst1 i = []) /\ gone_from (fun u => writable f /\ in_page (cache s0) i u) s0 s1) as (s1 & lst1 & inc1 & -> & I1 & Hw & [U L]).
  { destruct (decide (Z.land f PAGE_WRITE = 0)) as [Ef|Ef].
    - rewrite (proj2 (Z.eqb_eq _ _) Ef), andb_false_r. cbn [andb]. exists s0, lst, inc. split; [done|]. split; [done|]. split; [done|].
      split; [apply untouched_refl|]. intros u. unfold writable. tauto.
    - rewrite (proj2 (Z.eqb_neq _ _) Ef). cbn [negb]. rewrite andb_true_r. destruct (lst i) as [|c l] eqn:El.
      + cbn in Hh. rewrite Hh. rewrite bool_decide_eq_true_2 by done. rewrite andb_false_r. exists s0, lst, inc. split; [done|]. split; [done|]. split; [done|].
        split; [apply untouched_refl|]. intros u. split; [|tauto]. intros Hu. split; [done|]. intros [_ [n Hn]].
        assert ((u, n) ∈ lst i) as Hx by (apply (i_lst _ _ _ _ _ _ I0 i (u, n) Hi); split; [done|by left]). rewrite El in Hx. by apply not_elem_of_nil in Hx.
      + assert (Z.land (flags p0) PAGE_WRITE = 0) as Hp. { rewrite <- Hfl. apply (i_prot _ _ _ _ _ _ I0 i Hi Logic.I). by rewrite El. }
        rewrite (proj2 (Z.eqb_eq _ _) Hp). cbn in Hh. rewrite Hh. rewrite bool_decide_eq_false_2 by done. cbn [andb negb].
        destruct (tb_invalidate_phys_page_spec cpu_list all_pages lst inc s0 (4096 * i) i I0 Hi) as (s1 & lst1 & inc1 & E & I1 & El1 & [U L]).
        { rewrite Z.mul_comm. apply Z.div_mul. lia. }
        exists s1, lst1, inc1. split; [done|]. split; [done|]. split; [done|]. split; [done|]. intros u. rewrite L. unfold writable. tauto. }
  cbn [mbind option_bind]. destruct (same_flags_found _ _ i (un_flags _ _ U) Hi) as [p1 Ep1]; [by rewrite Ep0|]. rewrite Ep1. cbn [mbind option_bind].
  destruct (set_page_Some (pages s1) i (set_flags p1 f) p1 Ep1) as (P & E & _). rewrite E. cbn [mbind option_bind].
  eexists _, lst1, inc1. split; [reflexivity|]. split; [by eapply flags_inv|]. split.
  - exact (un_tbs _ _ U).
  - exact (un_mem _ _ U).
  - exact (un_code _ _ U).
  - intros j Hj. cbn [pages set_pages]. rewrite (flags_at_set (pages s1) P i j (set_flags p1 f)) by done.
    destruct (decide (j = i)) as [->|Hne]; [rewrite decide_True by lia; done|]. rewrite decide_False by lia.
    rewrite (same_flags_at _ _ _ (un_flags _ _ U)) by done. by apply F0.
  - intros u. etransitivity; [apply L|]. cbn [cache set_pages]. split; intros [Hu Hx]; (split; [done|]); intros [Hf Hy]; apply Hx; (split; [done|]).
    + destruct Hy as (k & Hk & Hy). by assert (k = i) as -> by lia.
    + exists i. split; [lia|done].
Qed.

Lemma flags_become_S j n f s s1 s' : page_index j -> flags_become j 1 f s s1 -> flags_become (j + 1) n f s1 s' -> flags_become j (S n) f s s'.
Proof.
  intros Hj [A1 A2 A3 A4 A5] [B1 B2 B3 B4 B5]. split; [congruence..| |].
  - intros i Hi. rewrite B4, A4 by done. repeat case_decide; try done; lia.
  - intros u. rewrite B5, A5. split.
    + intros [[Hu H1] H2]. split; [done|]. intros [Hw (i & Hi & Hp)]. destruct (decide (i = j)) as [->|Hne].
      * apply H1. split; [done|]. exists j. split; [lia|done].
      * apply H2. split; [done|]. exists i. split; [lia|]. by apply (in_page_tbs (cache s)).
    + intros [Hu H]. split; [split; [done|]|].
      * intros [Hw (i & Hi & Hp)]. apply H. split; [done|]. exists i. split; [lia|done].
      * intros [Hw (i & Hi & Hp)]. apply H. split; [done|]. exists i. split; [lia|]. by apply (in_page_tbs (cache s)) in Hp.
Qed.

Lemma set_flags_loop_spec n : forall lst inc s j f, inv cpu_list all_pages lst inc [] s -> 0 <= j -> j + Z.of_nat n <= 1048576 ->
  exists s' lst' inc', set_flags_loop cpu_list n s (uint32_t (4096 * j)) f = Some s' /\ inv cpu_list all_pages lst' inc' [] s' /\ flags_become j n f s s'.
Proof.
  induction n as [|n IH]; intros lst inc s j f I Hj Hn; cbn [set_flags_loop].
  - exists s, lst, inc. split; [done|]. split; [done|]. split; try done.
    + intros i Hi. by rewrite decide_False by lia.
    + intros u. split; [|tauto]. intros Hu. split; [done|]. intros [_ (i & Hi & _)]. lia.
  - assert (page_index j) as Hpj by (unfold page_index, in_u; change (2 ^ 20) with 1048576; lia).
    assert (uint32_t (4096 * j) = 4096 * j) as -> by cint.
    rewrite page_shr, Z.mul_comm, Z.div_mul, (Z.mul_comm j) by lia.
    destruct (set_flags_page lst inc s j f I Hpj) as (s1 & lst1 & inc1 & E & I1 & F1).
    destruct (IH lst1 inc1 s1 (j + 1) f I1 ltac:(lia) ltac:(lia)) as (s' & lst' & inc' & E' & I' & F').
    exists s', lst', inc'. split; [|split; [done|by eapply flags_become_S]].
    apply bind_Some in E as (p & -> & E). cbn [mbind option_bind]. apply bind_Some in E as (s2 & -> & E). cbn [mbind option_bind].
    apply bind_Some in E as (p2 & -> & E). cbn [mbind option_bind]. apply bind_Some in E as (P & -> & E). cbn [mbind option_bind]. injection E as ->.
    assert (uint32_t (4096 * j + TARGET_PAGE_SIZE) = uint32_t (4096 * (j + 1))) as -> by (change TARGET_PAGE_SIZE with 4096; f_equal; lia).
    exact E'.
Qed.

Lemma page_set_flags_spec lst inc s start last f : inv cpu_list all_pages lst inc [] s -> in_u 32 start -> in_u 32 last -> start < last ->
  ~ (start < 4096 /\ 4294963200 < last) ->
  let f' := if Z.land f PAGE_WRITE =? 0 then f else Z.lor f PAGE_WRITE_ORG in
  exists s' lst' inc', page_set_flags cpu_list s start last f = Some s' /\ inv cpu_list all_pages lst' inc' [] s' /\
    flags_become (start / 4096) (Z.to_nat ((last + 4095) / 4096 - start / 4096)) f' s s'.
Proof.
  intros I Hs Hl Hlt Hnot f'. unfold page_set_flags. destruct (Z.ltb_spec start last); [|lia]. cbn [negb]. fold f'. unfold TARGET_PAGE_ALIGN.
  change TARGET_PAGE_SIZE with 4096. rewrite !page_mask.
  assert (start - start mod 4096 = uint32_t (4096 * (start / 4096))) as Es by (clear - Hs; cint).
  assert (uint32_t (uint32_t (last + 4096 - 1) - uint32_t (last + 4096 - 1) mod 4096 - (start - start mod 4096)) / 4096 =
    (last + 4095) / 4096 - start / 4096) as ->. { clear - Hs Hl Hlt Hnot. cint. }
  rewrite Es. assert (0 <= start / 4096 /\ (last + 4095) / 4096 <= 1048576 /\ start / 4096 <= (last + 4095) / 4096) as (Ha & Hb & Hc).
  { clear - Hs Hl Hlt. unfold in_u in *. change (2 ^ 32) with 4294967296 in *. Z.to_euclidean_division_equations. lia. }
  apply (set_flags_loop_spec _ lst inc); [done|done|lia].
Qed.

(** ** [page_unprotect] *)

Definition write_org (f : Z) : Prop := Z.land f PAGE_WRITE_ORG <> 0.

(** One page becomes writable and its blocks are gone. *)
Record unprotected (i : Z) (s s' : Machine Code) : Prop := {
  up_tbs : tbs (cache s') = tbs (cache s);
  up_mem : mem s' = mem s;
  up_code : tb_code s' = tb_code s;
  up_flags : forall j, page_index j -> flags_at (pages s') j =
    if decide (j = i) then Z.lor (flags_at (pages s) i) PAGE_WRITE else flags_at (pages s) j;
  up_linked : forall u, linked (cache s') u <-> linked (cache s) u /\ ~ in_page (cache s) i u
}.

Lemma lor_write f : writable (Z.lor f PAGE_WRITE).
Proof.
  unfold writable. intros E. assert (Z.testbit (Z.land (Z.lor f PAGE_WRITE) PAGE_WRITE) 1 = false) as H by (rewrite E; apply Z.bits_0).
  rewrite Z.land_spec, Z.lor_spec in H. cbn in H. by rewrite orb_true_r in H.
Qed.

Lemma flags_at_found P i : flags_at P i <> 0 -> is_Some (page_find P i).
Proof. unfold flags_at. by destruct (page_find P i). Qed.

(** The page is writable before its blocks are removed; in between the invariant does not
    hold for it. *)
Lemma unprotect_one lst inc s i : inv cpu_list all_pages lst inc [] s -> page_index i -> is_Some (page_find (pages s) i) ->
  exists s' lst' inc', (
      p ← page_find (pages s) i;
      P ← set_page (pages s) i (set_flags p (Z.lor (flags p) PAGE_WRITE));
      tb_invalidate_phys_page cpu_list (set_pages s P) (4096 * i)) = Some s' /\ inv cpu_list all_pages lst' inc' [] s' /\
    lst' i = [] /\ unprotected i s s'.
Proof.
  intros I Hi [p Ep]. rewrite Ep. cbn [mbind option_bind].
  destruct (set_page_Some (pages s) i (set_flags p (Z.lor (flags p) PAGE_WRITE)) p Ep) as (P & E & _). rewrite E. cbn [mbind option_bind].
  assert (inv cpu_list (fun j => j <> i) lst inc [] (set_pages s P)) as I1.
  { destruct I as [I1 I2 I3 I4 I5 I6 I7 I8 I9 I10]. split; try done.
    - destruct I3 as [A1 A2 A3]. split; try done. intros j Hj. cbn.
      rewrite (set_page_next_eq _ _ _ _ E), (first_of_set (pages s) P i j (set_flags p (Z.lor (flags p) PAGE_WRITE))) by done.
      case_decide as Hd; [|by apply A1]. subst j. specialize (A1 i Hi). unfold first_of in A1. by rewrite Ep in A1.
    - intros j Hj Hne Hl. cbn. rewrite (flags_at_set (pages s) P i j (set_flags p (Z.lor (flags p) PAGE_WRITE))) by done.
      rewrite decide_False by done. by apply I5. }
  destruct (tb_invalidate_phys_page_spec cpu_list _ lst inc (set_pages s P) (4096 * i) i I1 Hi) as (s' & lst' & inc' & -> & I' & El & [U L]).
  { rewrite Z.mul_comm. apply Z.div_mul. lia. }
  exists s', lst', inc'. split; [done|]. split; [|split; [done|]].
  - apply (inv_prot cpu_list _ all_pages _ _ _ _ I'). intros j _. destruct (decide (j = i)) as [->|]; [by right|by left].
  - split.
    + exact (un_tbs _ _ U).
    + exact (un_mem _ _ U).
    + exact (un_code _ _ U).
    + intros j Hj. rewrite (same_flags_at _ _ _ (un_flags _ _ U)) by done. cbn [pages set_pages].
      rewrite (flags_at_set (pages s) P i j (set_flags p (Z.lor (flags p) PAGE_WRITE))) by done. case_decide; [|done]. cbn. unfold flags_at. by rewrite Ep.
    + exact L.
Qed.

(** The fault of a store to a page that the program may write and that holds code: the page
    becomes writable.  For the last page of the address space [host_end] wraps around to 0
    and nothing is done. *)
Lemma page_unprotect_spec lst inc s address : inv cpu_list all_pages lst inc [] s -> in_u 32 address ->
  let i := address / 4096 in
  (write_org (flags_at (pages s) i) /\ ~ writable (flags_at (pages s) i) /\ i < 1048575 /\
     exists s' lst' inc', page_unprotect cpu_list s address = Some (true, s') /\ inv cpu_list all_pages lst' inc' [] s' /\ lst' i = [] /\ unprotected i s s') \/
  (write_org (flags_at (pages s) i) /\ ~ writable (flags_at (pages s) i) /\ i = 1048575 /\ page_unprotect cpu_list s address = Some (true, s)) \/
  (~ (write_org (flags_at (pages s) i) /\ ~ writable (flags_at (pages s) i)) /\ page_unprotect cpu_list s address = Some (false, s)).
Proof.
  intros I Ha i. assert (page_index i) as Hi by (by apply page_index_of). unfold page_unprotect. rewrite page_shr. fold i.
  unfold write_org, writable, flags_at. destruct (page_find (pages s) i) as [p|] eqn:Ep.
  2: { right. right. split; [|done]. intros [H _]. apply H. apply Z.land_0_l. }
  destruct (Z.eqb_spec (Z.land (flags p) PAGE_WRITE_ORG) 0) as [Ho|Ho]; cbn [negb andb]; [right; right; split; [tauto|done]|].
  destruct (Z.eqb_spec (Z.land (flags p) PAGE_WRITE) 0) as [Hw|Hw]; [|right; right; split; [tauto|done]].
  assert (Z.land address qemu_host_page_mask = 4096 * i) as ->.
  { change qemu_host_page_mask with TARGET_PAGE_MASK. rewrite page_mask. unfold i. Z.to_euclidean_division_equations. lia. }
  change qemu_host_page_size with 4096. destruct (decide (i = 1048575)) as [E|Hne].
  - right. left. split_and!; [done|tauto|done|]. rewrite E. done.
  - left. split_and!; [done|tauto|unfold page_index, in_u in Hi; change (2 ^ 20) with 1048576 in Hi; lia|].
    destruct (unprotect_one lst inc s i I Hi) as (s' & lst' & inc' & E & I' & El & Un); [by rewrite Ep|].
    exists s', lst', inc'. split; [|done]. cbn [unprotect_loop].
    assert (uint32_t (4096 * i + 4096) = 4096 * i + 4096) as -> by (unfold page_index, in_u in Hi; change (2 ^ 20) with 1048576 in Hi; cint).
    destruct (Z.ltb_spec (4096 * i) (4096 * i + 4096)); [|lia]. assert (Z.shiftr (4096 * i) TARGET_PAGE_BITS = i) as -> by (rewrite page_shr, Z.mul_comm; apply Z.div_mul; lia).
    apply bind_Some in E as (p' & -> & E). cbn [mbind option_bind]. apply bind_Some in E as (P & -> & E). cbn [mbind option_bind]. rewrite E. cbn [mbind option_bind].
    change TARGET_PAGE_SIZE with 4096. assert (uint32_t (4096 * i + 4096) = 4096 * i + 4096) as -> by (unfold page_index, in_u in Hi; change (2 ^ 20) with 1048576 in Hi; cint).
    by rewrite Z.ltb_irrefl.
Qed.

(** ** A store *)

(** A page without blocks can be written. *)
Lemma store_inv lst inc s a v : inv cpu_list all_pages lst inc [] s -> in_u 32 a -> lst (a / 4096) = [] ->
  inv cpu_list all_pages lst inc [] (set_mem s (mem_store (mem s) a v)).
Proof.
  intros I Ha El. assert (forall u, linked (cache s) u -> ~ covers (cache s) u a) as Hno.
  { intros u Hu Hc. destruct (covers_on_page _ _ _ _ _ _ _ _ I Hu Hc) as [n Hn].
    assert ((u, n) ∈ lst (a / 4096)) as Hx. { apply (i_lst _ _ _ _ _ _ I); [by apply page_index_of|]. split; [done|by left]. }
    rewrite El in Hx. by apply not_elem_of_nil in Hx. }
  destruct I as [I1 I2 I3 I4 I5 I6 I7 I8 I9 I10]. split; try done. intros u Hu.
  destruct (I8 u Hu) as (b & Hb & H1 & H2 & H3). exists b. split; [done|]. split; [done|]. cbn [mem set_mem tb_code] in *.
  assert (translate (mem_store (mem s) a v) (tb_pc b) (cs_base b) (tb_flags b) 0 = translate (mem s) (tb_pc b) (cs_base b) (tb_flags b) 0) as ->; [|done].
  apply translate_local. intros k Hk. unfold mem_store. destruct (Z.eqb_spec (uint32_t (tb_pc b + k)) a) as [E|]; [|done].
  destruct (Hno u Hu). exists b, k. rewrite H3. by rewrite E.
Qed.

Lemma writable_empty lst inc s i : inv cpu_list all_pages lst inc [] s -> page_index i -> writable (flags_at (pages s) i) -> lst i = [].
Proof. intros I Hi Hw. destruct (lst i) eqn:E; [done|]. destruct Hw. apply (i_prot _ _ _ _ _ _ I i Hi Logic.I). by rewrite E. Qed.

(** What a store does: it changes the byte and, if the page was protected, unprotects it; it
    fails where the guest has no right to write. *)
Lemma guest_store_byte_spec lst inc s a v : inv cpu_list all_pages lst inc [] s -> in_u 32 a -> a < 4294963200 ->
  exists ok s' lst' inc', guest_store_byte cpu_list s a v = Some (ok, s') /\ inv cpu_list all_pages lst' inc' [] s' /\
    (ok = true <-> writable (flags_at (pages s) (a / 4096)) \/ write_org (flags_at (pages s) (a / 4096))) /\
    mem s' = (if ok : bool then mem_store (mem s) a v else mem s) /\ tb_code s' = tb_code s /\ tbs (cache s') = tbs (cache s) /\
    (forall u, linked (cache s') u -> linked (cache s) u) /\ (ok = true -> writable (flags_at (pages s') (a / 4096))).
Proof.
  intros I Ha Htop. unfold guest_store_byte, page_get_flags. rewrite page_shr. set (i := a / 4096).
  assert (page_index i) as Hi by (by apply page_index_of).
  assert (i < 1048575) as Hit by (unfold i; Z.to_euclidean_division_equations; lia).
  fold (flags_at (pages s) i). destruct (Z.eqb_spec (Z.land (flags_at (pages s) i) PAGE_WRITE) 0) as [Hw|Hw]; cbn [negb].
  - pose proof (page_unprotect_spec lst inc s a I Ha) as Hsp. cbn zeta in Hsp. fold i in Hsp.
    destruct Hsp as [(Ho & Hnw & _ & s' & lst' & inc' & -> & I' & El & Un)|[(_ & _ & E & _)|(Hn & ->)]].
    + cbn [mbind option_bind]. fold (flags_at (pages s') i). destruct Un as [U1 U2 U3 U4 U5].
      assert (writable (flags_at (pages s') i)) as Hw' by (rewrite U4, decide_True by done; apply lor_write).
      rewrite (proj2 (Z.eqb_neq _ _) Hw'). cbn [negb]. eexists true, _, lst', inc'. split; [reflexivity|].
      split; [by apply store_inv|]. split; [split; [by right|done]|]. split; [cbn; by rewrite U2|]. split; [done|]. split; [done|]. split; [intros u Hu; by apply U5 in Hu as [? _]|done].
    + lia.
    + cbn [mbind option_bind]. exists false, s, lst, inc. split; [done|]. split; [done|]. split; [|done]. split; [done|]. unfold writable in *. intros [?|?]; [done|]. exfalso. tauto.
  - eexists true, _, lst, inc. split; [reflexivity|]. split; [|split; [|done]].
    + apply store_inv; [done|done|]. by apply (writable_empty lst inc s).
    + split; [by left|done].
Qed.

End Flags.
