(* ===== verification/TbGen.v ===== *)
(** * Lookup and generation of blocks

    The lookup of TbCache with the page lists, the protection of pages, the jumps and the
    generated code: the invariant is kept, and the block that a lookup on a CPU of the list
    returns holds the translation of the current guest code. *)

From S2P Require Import Prelude TbCache TbLists TbJumps TbPages TbInvalidate TbBitmap TbInvProofs TbSmc TbPageFlags.
Open Scope Z_scope.

Section Gen.
Context {Code : Type} `{!Translator Code}.
Context (code_gen_buffer_max_size : Z) (cpu_list : list nat).

Definition Inv := inv cpu_list all_pages.

(** ** Steps that keep the blocks *)

(** The cache changes in ways that keep the blocks and what is linked. *)
Lemma set_cache_inv lst inc s c : Inv lst inc [] s -> tb_wf cpu_list c -> slots_ok cpu_list c -> tbs c = tbs (cache s) ->
  nb_tbs c = nb_tbs (cache s) -> code_gen_ptr c = code_gen_ptr (cache s) -> (forall u, linked c u <-> linked (cache s) u) -> Inv lst inc [] (set_cache s c).
Proof.
  intros [I1 I2 I3 I4 I5 I6 I7 I8 I9 I10] W S Ht Hnb Hp Hl.
  assert (forall u, tc_of c u = tc_of (cache s) u) as Htc by (intros u; unfold tc_of; by rewrite Ht).
  split; cbn; try done.
  - intros i p Hi. rewrite I4 by done. unfold on_page. by rewrite Ht, Hl.
  - eapply (jumps_wf_ext (tc_of (cache s))); try done. eapply jumps_wf_live; [|exact I6]. intros u. by rewrite Hl.
  - intros u Hu. rewrite Htc. apply I7. by apply Hl.
  - intros u Hu. apply Hl in Hu. destruct (I8 u Hu) as (b & Hb & H). exists b. cbn [cache set_cache]. rewrite Ht. done.
  - by apply (tc_sorted_same (cache s)).
  - intros p Hp'. by apply not_elem_of_nil in Hp'.
Qed.

Lemma set_invalidated_inv lst inc s f : Inv lst inc [] s -> Inv lst inc [] (set_cache s (set_invalidated (cache s) f)).
Proof. intros I. apply (set_cache_inv lst inc s); try done; [apply set_invalidated_wf; apply I|exact (i_slot _ _ _ _ _ _ I)]. Qed.

(** A chain hit moves a block to the front of its chain. *)
Lemma chain_hit_inv lst inc s pc cs fl pre t post : Inv lst inc [] s ->
  chain_search (tb_matches (cache s) pc cs fl) (chain_of (cache s) (tb_phys_hash_func pc)) = Some (pre, t, post) ->
  Inv lst inc [] (set_cache s (set_chain (cache s) (tb_phys_hash_func pc) (t :: pre ++ post))) /\
  key_of (cache s) t = Some (pc, cs, fl) /\ linked (set_chain (cache s) (tb_phys_hash_func pc) (t :: pre ++ post)) t.
Proof.
  intros I E. destruct (chain_hit_spec cpu_list (cache s) pc cs fl pre t post (i_wf _ _ _ _ _ _ I) E) as (W & K & Hin & _).
  apply chain_search_Some in E as [Ec _]. set (c := set_chain _ _ _) in *.
  assert (forall h u, u ∈ chain_of c h <-> u ∈ chain_of (cache s) h) as Hch.
  { intros h u. unfold c. rewrite chain_of_set_chain. case_decide as Hd; [|done]. subst h. rewrite Ec.
    rewrite elem_of_cons, !elem_of_app, elem_of_cons. tauto. }
  assert (forall u, linked c u <-> linked (cache s) u) as Hl.
  { intros u. unfold linked. change (tbs c) with (tbs (cache s)). split; intros (tb & Htb & Hu); exists tb; (split; [done|]); by apply Hch. }
  split; [|split].
  - apply set_cache_inv; try done. exact (i_slot _ _ _ _ _ _ I).
  - exact K.
  - by destruct (in_chain_linked cpu_list c _ t W Hin) as [Hx _].
Qed.

Lemma set_jmp_inv lst inc s core pc cs fl t : Inv lst inc [] s -> key_of (cache s) t = Some (pc, cs, fl) -> linked (cache s) t ->
  Inv lst inc [] (set_cache s (set_jmp (cache s) core (tb_jmp_cache_hash_func pc) t)).
Proof.
  intros I K (tb & Htb & Hin). assert (tb_pc tb = pc) as Epc by (unfold key_of in K; rewrite Htb in K; by injection K).
  apply set_cache_inv; try done.
  - eapply set_jmp_wf; [by apply I|exact K|]. by rewrite <- Epc.
  - intros core' h u Hc Hu. rewrite jmp_of_set_jmp in Hu. case_decide as Hd; [|by apply (i_slot _ _ _ _ _ _ I core' h u Hc)].
    injection Hu as <-. destruct Hd as [_ <-]. exists tb. by rewrite Epc.
Qed.

(** ** A flush *)

Lemma no_jumps tc (live : nat -> Prop) inc J : (forall t, ~ live t) -> jumps_wf tc live inc J.
Proof. intros H. split; [split|]; intros t; intros; exfalso; by eapply H. Qed.

Lemma flush_linked c u : ~ linked (tb_flush cpu_list c) u.
Proof. intros (tb & _ & Hu). unfold chain_of in Hu. cbn in Hu. rewrite lookup_empty in Hu. by apply not_elem_of_nil in Hu. Qed.

Lemma flush_inv lst inc s : Inv lst inc [] s -> Inv (fun _ => []) (fun _ => []) [] (flush cpu_list s).
Proof.
  intros I. pose proof (tb_flush_wf cpu_list (cache s)) as W. destruct (page_flush_tb_wf (pages s)) as [PW PF]. split; cbn.
  - done.
  - intros core h t Hc Hj. destruct (wf_jmp _ _ W core h t Hj Hc) as (k & _ & Hx). unfold chain_of in Hx. cbn in Hx.
    rewrite lookup_empty in Hx. by apply not_elem_of_nil in Hx.
  - exact PW.
  - intros i p Hi. split; [intros Hp; by apply not_elem_of_nil in Hp|]. intros [_ [Hl|Hd]]; [by apply flush_linked in Hl|by apply not_elem_of_nil in Hd].
  - done.
  - apply no_jumps. apply flush_linked.
  - intros u Hu. by apply flush_linked in Hu.
  - intros u Hu. by apply flush_linked in Hu.
  - split; cbn; (done || lia).
  - intros p Hp. by apply not_elem_of_nil in Hp.
Qed.

(** The loop of [tb_alloc_page] ends: the page is not the last one of the address space, or
    is not writable. *)
Lemma alloc_page_top P i tb n P' : page_index i -> tb_alloc_page P tb n (4096 * i) = Some P' ->
  Z.land (flags_at P i) PAGE_WRITE = 0 \/ i < 1048575.
Proof.
  intros Hi E. destruct (decide (i < 1048575)) as [|Hge]; [by right|]. left.
  assert (i = 1048575) as -> by (unfold page_index, in_u in Hi; change (2 ^ 20) with 1048576 in Hi; lia).
  unfold tb_alloc_page in *. change (Z.shiftr (4096 * 1048575) TARGET_PAGE_BITS) with 1048575 in *.
  destruct (page_find_alloc_spec P 1048575 Hi) as (_ & Hp & _). rewrite Hp in *. cbn [mbind option_bind] in *.
  destruct (set_page _ _ _) as [P1|]; cbn [mbind option_bind] in *; [|done].
  assert (flags_at P 1048575 = flags (default zero_page (page_find P 1048575))) as -> by (unfold flags_at; by destruct (page_find P 1048575)).
  destruct (Z.eqb_spec (Z.land (flags (default zero_page (page_find P 1048575))) PAGE_WRITE) 0) as [|Hw]; [done|].
  change (Z.land (4096 * 1048575) qemu_host_page_mask) with 4294963200 in *. change qemu_host_page_size with 4096 in *.
  cbn [protect_pages] in *. change (4294963200 <? 4294963200 + 4096) with true in *. cbn iota in *.
  apply bind_Some in E as (P2 & _ & E). change (uint32_t (4294963200 + TARGET_PAGE_SIZE) <? 4294963200 + 4096) with true in E. cbn iota in E.
  by apply bind_Some in E as (P3 & _ & E).
Qed.

Lemma alloc_page_Some lst P i tb n P' : pages_wf lst P -> page_index i -> (n < 2)%nat ->
  (forall j, page_index j -> (tb, n) ∉ lst j) -> tb ∉ (lst i).*1 -> tb_alloc_page P tb n (4096 * i) = Some P' ->
  pages_wf (add_cell i (tb, n) lst) P' /\
  forall j, page_index j -> flags_at P' j = if decide (j = i) then Z.land (flags_at P i) (Z.lnot PAGE_WRITE) else flags_at P j.
Proof.
  intros W Hi Hn Hnew Hone E. pose proof (alloc_page_top _ _ _ _ _ Hi E) as Ht. rewrite <- page_shl in E.
  destruct (tb_alloc_page_spec lst P i tb n W Hi Hn Hnew Hone Ht) as (P2 & E2 & W2 & _ & F). rewrite E in E2. injection E2 as <-.
  split; [done|]. intros j Hj. by apply F.
Qed.

Lemma lst_not_fst lst inc s i t : Inv lst inc [] s -> ~ linked (cache s) t -> page_index i -> t ∉ (lst i).*1.
Proof.
  intros I Hn Hi Hx. apply list_elem_of_fmap in Hx as ([u m] & -> & Hx). by apply (lst_linked _ _ _ _ _ _ _ I Hi) in Hx as [? _].
Qed.

(** ** A new block *)

Section New.
Context (lst : Z -> list cell) (inc : nat -> list cell) (s : Machine Code) (I : Inv lst inc [] s).
Context (pc cs fl : Z) (Hg : guest_pc pc) (Hnew : ~ cached (cache s) (pc, cs, fl)).
Let Hpc : in_u 32 pc := guest_pc_u pc Hg.
Context (t : nat) (c1 : TbState) (Ha : tb_alloc code_gen_buffer_max_size (cache s) pc = Some (t, c1)).
Context (Hsize : code_gen_buffer_max_size <= 1073741824).

Let r := translate (mem s) pc cs fl 0.
Let page2 := second_page pc (g_size r.1.2).
Let c2 : TbState := @gen_into (gen_at (mem s)) c1 t pc cs fl 0.
Let block : TranslationBlock :=
  mkTB pc (g_next_pc r.1.2) cs fl (g_size r.1.2) 0 (code_gen_ptr (cache s)) (Z.land pc TARGET_PAGE_MASK) page2 (g_icount r.1.2).

(** The cache after [tb_link_page]. *)
Lemma new_cache : exists c3, tb_link_page c2 t pc page2 = Some c3 /\ tb_wf cpu_list c3 /\ slots_ok cpu_list c3 /\
  tc_sorted c3 /\ 0 <= code_gen_ptr (cache s) < code_gen_buffer_max_size /\ ~ linked (cache s) t /\
  (forall u, tbs c3 !! u = if decide (u = t) then Some block else tbs (cache s) !! u) /\
  (forall u, linked c3 u <-> linked (cache s) u \/ u = t).
Proof.
  pose proof (tb_alloc_Some _ _ _ _ _ Ha) as (Et & Hlt & Hnb & Hlen & Hother & Hh & Hj).
  assert (code_gen_ptr c1 = code_gen_ptr (cache s) /\ code_gen_ptr (cache s) < code_gen_buffer_max_size) as [Ecp Hcp].
  { unfold tb_alloc in Ha. destruct (Nat.leb_spec (length (tbs (cache s))) (nb_tbs (cache s))); cbn [orb] in Ha; [done|].
    destruct (Z.leb_spec code_gen_buffer_max_size (code_gen_ptr (cache s))); [done|].
    destruct (tbs (cache s) !! nb_tbs (cache s)); cbn in Ha; [|done]. injection Ha as _ <-. done. }
  destruct (@link_new_spec (gen_at (mem s)) _ (cache s) t c1 pc cs fl 0 Ha) as (c3 & tb & El & Hnb3 & _ & Htbs & Hch & Hjmp & _).
  destruct (@link_new_wf (gen_at (mem s)) _ cpu_list (cache s) t c1 c3 pc cs fl 0 (i_wf _ _ _ _ _ _ I) Hg Hnew Ha El) as (W & _ & Hin & _).
  assert (~ linked (cache s) t) as Hnl.
  { intros Hl. destruct (linked_block _ _ _ (i_wf _ _ _ _ _ _ I) Hl) as (b & _ & _ & _ & Hx & _). lia. }
  exists c3. unfold link_new in El. split; [exact El|]. split; [done|].
  assert (forall u, tbs c3 !! u = if decide (u = t) then Some block else tbs (cache s) !! u) as Htbs'.
  { intros u. case_decide as Hd; [|rewrite Htbs; by rewrite decide_False]. subst u. unfold tb_link_page in El. cbn [gen_into tbs] in El.
    rewrite list_lookup_insert_eq in El by lia. cbn [mbind option_bind] in El. injection El as <-. cbn [tbs set_chain].
    rewrite list_lookup_insert_eq by (rewrite length_insert; lia). unfold block. by rewrite <- Ecp. }
  split; [|split; [|split; [|split; [done|split; [done|]]]]].
  - intros core h u Hc Hu. rewrite Hjmp in Hu. destruct (i_slot _ _ _ _ _ _ I core h u Hc Hu) as (b & Hb & E). exists b. split; [|done].
    rewrite Htbs', decide_False; [done|]. intros ->. apply Hnl.
    destruct (wf_jmp _ _ (i_wf _ _ _ _ _ _ I) core h t Hu Hc) as (k & Hk & Hx). by apply (in_chain_linked cpu_list (cache s) _ t (i_wf _ _ _ _ _ _ I)) in Hx as [? _].
  - eapply (tc_sorted_add (cache s) c3 block); [exact (i_sorted _ _ _ _ _ _ I)|by rewrite Hnb3, Et|done| |by rewrite <- Et].
    unfold tb_link_page in El. cbn [gen_into tbs] in El. rewrite list_lookup_insert_eq in El by lia. cbn [mbind option_bind] in El. injection El as <-.
    cbn [code_gen_ptr set_chain gen_into]. pose proof (translate_code_size (mem s) pc cs fl 0) as Hc. rewrite Ecp. unfold CODE_GEN_ALIGN.
    change (Z.lnot (16 - 1)) with (Z.lnot (Z.ones 4)). rewrite <- Z.ldiff_land, Z.ldiff_ones_r, Z.shiftl_mul_pow2, Z.shiftr_div_pow2 by lia.
    change (2 ^ 4) with 16. cbn [cpu_gen_code gen_at]. Z.to_euclidean_division_equations. lia.
  - split; [exact (i_ptr _ _ _ _ _ _ I)|done].
  - intros u. unfold linked at 1. split.
    + intros (b & Hb & Hu). rewrite Htbs' in Hb. case_decide as Hd; [by right|]. left. exists b. split; [done|].
      rewrite Hch in Hu. case_decide; [|done]. by apply elem_of_cons in Hu as [?|?].
    + intros [(b & Hb & Hu)| ->].
      * assert (u <> t) as Hne by (intros ->; apply Hnl; by exists b). exists b. rewrite Htbs', decide_False by done. split; [done|].
        rewrite Hch. case_decide; [by apply list_elem_of_further|done].
      * exists block. rewrite Htbs', decide_True by done. done.
Qed.

Lemma not_linked_fresh j n : ~ linked (cache s) t -> page_index j -> (t, n) ∉ lst j.
Proof. intros Hn Hj Hx. by apply (lst_linked _ _ _ _ _ _ _ I Hj) in Hx as [? _]. Qed.

(** The pages of the new block. *)
Lemma new_pages : page2 = NO_PAGE \/
  page2 <> NO_PAGE /\ page2 = 4096 * (page2 / 4096) /\ page_index (page2 / 4096) /\ page2 / 4096 <> pc / 4096.
Proof.
  destruct (second_page_ok pc (g_size r.1.2) Hpc (translate_size (mem s) pc cs fl 0 Hg)) as [E|E]; fold page2 in E; [by left|].
  rewrite page_mask in E. change TARGET_PAGE_SIZE with 4096 in E. right. unfold page_index.
  assert (0 <= page2 < 4294967296) by (rewrite E; apply Z.mod_pos_bound; lia).
  unfold NO_PAGE, in_u. change (2 ^ 20) with 1048576. split_and!; try lia; rewrite E; clear - Hpc; cint.
Qed.

Definition new_lst (j : Z) : list cell :=
  if page2 =? NO_PAGE then add_cell (pc / 4096) (t, 0%nat) lst j
  else add_cell (page2 / 4096) (t, 1%nat) (add_cell (pc / 4096) (t, 0%nat) lst) j.

Lemma elem_of_new_lst j p : p ∈ new_lst j <->
  p ∈ lst j \/ p = (t, 0%nat) /\ j = pc / 4096 \/ p = (t, 1%nat) /\ page2 <> NO_PAGE /\ j = page2 / 4096.
Proof.
  unfold new_lst, add_cell. destruct (Z.eqb_spec page2 NO_PAGE); repeat case_decide; rewrite ?elem_of_cons; naive_solver.
Qed.

(** The two calls of [tb_alloc_page]. *)
Lemma new_pages_spec P1 P2 : ~ linked (cache s) t ->
  tb_alloc_page (pages s) t 0 (Z.land pc TARGET_PAGE_MASK) = Some P1 ->
  (if page2 =? NO_PAGE then Some P1 else tb_alloc_page P1 t 1 page2) = Some P2 ->
  pages_wf new_lst P2 /\ forall j, page_index j ->
    Z.land (flags_at P2 j) PAGE_WRITE = (if decide (new_lst j = lst j) then Z.land (flags_at (pages s) j) PAGE_WRITE else 0).
Proof.
  intros Hnl E1 E2. assert (Z.land pc TARGET_PAGE_MASK = 4096 * (pc / 4096)) as E0 by (rewrite page_mask; Z.to_euclidean_division_equations; lia).
  pose proof (page_index_of pc Hpc) as Hi0. rewrite E0 in E1. set (i0 := pc / 4096) in *.
  destruct (alloc_page_Some lst (pages s) i0 t 0 P1) as [W1 F1]; [apply I|done|lia| |by apply (lst_not_fst lst inc s)|done|].
  { intros j Hj. by apply not_linked_fresh. }
  assert (forall (l : list cell) c, c :: l <> l) as Hcons by (intros l c Hx; apply (f_equal length) in Hx; cbn in Hx; lia).
  destruct new_pages as [En|(Hn & Ep & Hi1 & H01)].
  - unfold new_lst. rewrite (proj2 (Z.eqb_eq _ _) En) in *. injection E2 as <-. split; [exact W1|]. intros j Hj. rewrite F1 by done.
    unfold add_cell. fold i0. destruct (decide (j = i0)) as [->|Hd].
    + rewrite decide_False by (by apply Hcons). apply land_lnot_write.
    + by rewrite decide_True.
  - unfold new_lst. rewrite (proj2 (Z.eqb_neq _ _) Hn) in *. rewrite Ep in E2. set (i1 := page2 / 4096) in *. fold i0.
    destruct (alloc_page_Some (add_cell i0 (t, 0%nat) lst) P1 i1 t 1 P2) as [W2 F2]; [done|done|lia| | |done|].
    { intros j Hj. unfold add_cell. case_decide; [|by apply not_linked_fresh].
      rewrite elem_of_cons. intros [?|?]; [done|by eapply not_linked_fresh]. }
    { unfold add_cell. rewrite decide_False by done. by apply (lst_not_fst lst inc s). }
    split; [exact W2|]. intros j Hj. rewrite F2 by done. unfold add_cell. destruct (decide (j = i1)) as [->|Hd1].
    + rewrite (decide_False (P := i1 = i0)) by done. rewrite decide_False by (by apply Hcons). apply land_lnot_write.
    + rewrite F1 by done. destruct (decide (j = i0)) as [->|Hd0].
      * rewrite decide_False by (by apply Hcons). apply land_lnot_write.
      * by rewrite decide_True.
Qed.

(** The state in which [tb_link_page] is called. *)
Let s2 : Machine Code :=
  mkMachine c2 (pages s) (set_offsets (jumps s) t r.2) (<[t := r.1.1]> (tb_code s)) (mem s) (tb_phys_invalidate_count s).

Lemma new_near : ~ linked (cache s) t -> 0 <= code_gen_ptr (cache s) < code_gen_buffer_max_size -> forall tc,
  tc t = code_gen_ptr (cache s) -> (forall u, linked (cache s) u -> tc u = tc_of (cache s) u) ->
  code_near tc (add_block t (linked (cache s))) (set_offsets (jumps s) t r.2).
Proof.
  intros Hnl Hp tc Ht Hu u [Hl| ->].
  - assert (u <> t) as Hne by (intros ->; done). rewrite Hu by done. destruct (i_near _ _ _ _ _ _ I u Hl) as [A B]. split; [done|]. intros n Hn.
    unfold next_offset, jmp_offset. cbn [set_offsets tb_next_offset tb_jmp_offset]. rewrite !lookup_insert_ne by congruence. by apply B.
  - rewrite Ht. split; [lia|]. intros n Hn. unfold next_offset, jmp_offset. cbn [set_offsets tb_next_offset tb_jmp_offset].
    pose proof (translate_offsets (mem s) pc cs fl 0 0) as [? ?]. pose proof (translate_offsets (mem s) pc cs fl 0 1) as [? ?].
    destruct n as [|[|]]; [|by rewrite !lookup_insert_eq|lia]. rewrite !(lookup_insert_ne _ (t, 1%nat)) by congruence. by rewrite !lookup_insert_eq.
Qed.

Lemma new_jumps tc : ~ linked (cache s) t -> 0 <= code_gen_ptr (cache s) < code_gen_buffer_max_size ->
  tc t = code_gen_ptr (cache s) -> (forall u, linked (cache s) u -> tc u = tc_of (cache s) u) ->
  let J := tb_init_jumps tc (set_offsets (jumps s) t r.2) t in
  jumps_wf tc (add_block t (linked (cache s))) (no_inc t inc) J /\ code_near tc (add_block t (linked (cache s))) J.
Proof.
  intros Hnl Hp Ht Hu J. pose proof (new_near Hnl Hp tc Ht Hu) as N. split.
  - apply tb_init_jumps_wf; [|done|done]. apply (jumps_wf_ext (tc_of (cache s)) tc _ inc (jumps s)); [done..| |apply I].
    intros [u n] Hl. cbn in Hl. assert (u <> t) by (intros ->; done). unfold next_offset, jmp_offset. cbn. by rewrite !lookup_insert_ne by congruence.
  - intros u Hl. destruct (fj_offsets _ _ _ _ (tb_init_jumps_fresh tc (set_offsets (jumps s) t r.2) t)) as [E1 E2].
    unfold next_offset, jmp_offset, J. rewrite E1, E2. by apply N.
Qed.

(** After [tb_link_page] the invariant holds for the new block too. *)
Lemma link_page_inv s3 : link_page s2 t pc page2 = Some s3 ->
  Inv new_lst (no_inc t inc) [] s3 /\ tb_link_page c2 t pc page2 = Some (cache s3) /\ mem s3 = mem s /\
  linked (cache s3) t /\ key_of (cache s3) t = Some (pc, cs, fl).
Proof.
  destruct new_cache as (c3 & El & W & S & Hp3 & Hp & Hnl & Htbs & Hl). unfold link_page. change (cache s2) with c2. rewrite El. cbn [mbind option_bind].
  intros E. apply bind_Some in E as (P1 & E1 & E). apply bind_Some in E as (P2 & E2 & E). injection E as <-.
  destruct (new_pages_spec P1 P2 Hnl E1 E2) as [PW PF].
  assert (forall u, u <> t -> tc_of c3 u = tc_of (cache s) u) as Htc by (intros u Hu; unfold tc_of; by rewrite Htbs, decide_False).
  assert (forall u, linked (cache s) u -> u <> t) as Hne by (intros u Hu ->; done).
  destruct (new_jumps (tc_of c3) Hnl Hp) as [JW JN]; [unfold tc_of; by rewrite Htbs, decide_True|intros u Hu; by apply Htc, Hne|].
  split; [split|]; cbn [cache set_cache set_pages set_jumps pages jumps mem tb_code s2].
  - done.
  - exact S.
  - done.
  - intros i p Hi. rewrite elem_of_new_lst, (i_lst _ _ _ _ _ _ I i p Hi), Hl. unfold on_page. rewrite Htbs.
    assert (page_addr0 block = 4096 * (pc / 4096)) as E0 by (cbn; rewrite page_mask; Z.to_euclidean_division_equations; lia).
    case_decide as Hd.
    + destruct p as [u n]. cbn in Hd. subst u. cbn [fst snd]. split.
      * intros [[(b & _) [Hx|Hx]]|Hx]; [done|by apply not_elem_of_nil in Hx|]. split; [|tauto]. exists block. split; [done|].
        destruct Hx as [[[= ->] ->]|([= ->] & Hn & ->)]; [by left|]. right. split; [done|]. split; [exact Hn|].
        destruct new_pages as [?|(_ & Hx & _)]; [done|exact Hx].
      * intros [(b & [= <-] & Hx) _]. right. destruct Hx as [[-> Hx]|(-> & Hn & Hx)].
        -- left. split; [done|]. lia.
        -- right. split; [done|]. split; [exact Hn|]. cbn in Hx. rewrite Hx, Z.mul_comm. symmetry. apply Z.div_mul. lia.
    + split; [|naive_solver]. intros [?|[[-> _]|[-> _]]]; naive_solver.
  - intros i Hi _ Hx. rewrite PF by done. case_decide as Hd; [|done]. rewrite Hd in Hx. by apply (i_prot _ _ _ _ _ _ I).
  - eapply jumps_wf_live; [|exact JW]. intros u. unfold add_block. by rewrite Hl.
  - intros u Hu. apply JN. by apply Hl in Hu.
  - intros u Hu. apply Hl in Hu as [Hu| ->].
    + destruct (i_code _ _ _ _ _ _ I u Hu) as (b & Hb & H1 & H2). pose proof (Hne u Hu). exists b. cbn [cache tb_code set_jumps set_pages set_cache s2].
      rewrite Htbs, decide_False, lookup_insert_ne by done. done.
    + exists block. cbn [cache tb_code set_jumps set_pages set_cache s2]. rewrite Htbs, decide_True, lookup_insert_eq by done. done.
  - done.
  - intros p Hx. by apply not_elem_of_nil in Hx.
  - split; [done|]. split; [done|]. split; [apply Hl; by right|]. unfold key_of. by rewrite Htbs, decide_True.
Qed.

(** Blocks that do not reach the last page of the address space are linked. *)
Lemma link_page_total : pc < 4294959104 -> is_Some (link_page s2 t pc page2).
Proof.
  intros Htop. destruct new_cache as (c3 & El & _ & _ & _ & _ & Hnl & _). unfold link_page. change (cache s2) with c2. rewrite El. cbn [mbind option_bind].
  assert (Z.land pc TARGET_PAGE_MASK = Z.shiftl (pc / 4096) TARGET_PAGE_BITS) as -> by (rewrite page_mask, page_shl; Z.to_euclidean_division_equations; lia).
  pose proof (page_index_of pc Hpc) as Hi0. set (i0 := pc / 4096) in *.
  assert (i0 < 1048574) as Ht0 by (unfold i0; clear - Htop; Z.to_euclidean_division_equations; lia).
  destruct (tb_alloc_page_spec lst (pages s) i0 t 0) as (P1 & E1 & W1 & _ & _); [apply I|done|lia| |by apply (lst_not_fst lst inc s)|right; lia|].
  { intros j Hj. by apply not_linked_fresh. }
  change (pages s2) with (pages s). rewrite E1. cbn [mbind option_bind].
  destruct (Z.eqb_spec page2 NO_PAGE) as [|Hn]; [by eexists|]. destruct new_pages as [?|(_ & Ep & Hi1 & H01)]; [done|].
  rewrite Ep, <- page_shl. assert (page2 / 4096 < 1048575) as Ht1.
  { destruct (second_page_ok pc (g_size r.1.2) Hpc (translate_size (mem s) pc cs fl 0 Hg)) as [E|E]; fold page2 in E; [done|].
    rewrite page_mask in E. change TARGET_PAGE_SIZE with 4096 in E. rewrite E. clear - Htop Hpc. cint. }
  destruct (tb_alloc_page_spec (add_cell i0 (t, 0%nat) lst) P1 (page2 / 4096) t 1) as (P2 & E2 & _); [done|done|lia| | |right; lia|].
  { intros j Hj. unfold add_cell. case_decide; [|by apply not_linked_fresh].
    rewrite elem_of_cons. intros [?|?]; [done|by eapply not_linked_fresh]. }
  { unfold add_cell. rewrite decide_False by done. by apply (lst_not_fst lst inc s). }
  rewrite E2. by eexists.
Qed.

End New.

(** ** [tb_gen_code] and the lookups *)

Context (Hsize : code_gen_buffer_max_size <= 1073741824).

(** Block [t] is in the tables for the key, and the state satisfies the invariant. *)
Definition found (s s' : Machine Code) (k : Z * Z * Z) (t : nat) : Prop :=
  (exists lst inc, Inv lst inc [] s') /\ mem s' = mem s /\ linked (cache s') t /\ key_of (cache s') t = Some k.

Lemma alloc_set_invalidated c pc t c' f : tb_alloc code_gen_buffer_max_size c pc = Some (t, c') ->
  tb_alloc code_gen_buffer_max_size (set_invalidated c f) pc = Some (t, set_invalidated c' f).
Proof. unfold tb_alloc. cbn. destruct (_ || _); [done|]. destruct (tbs c !! nb_tbs c); cbn; [|done]. by intros [= <- <-]. Qed.

Lemma gen_code_inv lst inc s pc cs fl t s' : Inv lst inc [] s -> guest_pc pc -> ~ cached (cache s) (pc, cs, fl) ->
  gen_code code_gen_buffer_max_size cpu_list s pc cs fl 0 = Some (t, s') ->
  found s s' (pc, cs, fl) t /\ @tb_gen_code (gen_at (mem s)) code_gen_buffer_max_size cpu_list (cache s) pc cs fl 0 = Some (t, cache s').
Proof.
  intros I Hpc Hnew. unfold gen_code, tb_gen_code. destruct (tb_alloc _ (cache s) pc) as [[t1 c1]|] eqn:Ha; cbn [mbind option_bind].
  - destruct (translate (mem s) pc cs fl 0) as [[host g] off] eqn:Et. intros E. apply bind_Some in E as (s3 & El & [= <- <-]).
    pose proof (link_page_inv lst inc s I pc cs fl Hpc Hnew t1 c1 Ha Hsize s3) as H. rewrite Et in H. cbn in H.
    destruct (H El) as (I' & Ec & Em & Hl & Hk). split; [split; [by eexists _, _|done]|]. cbn zeta.
    change (@cpu_gen_code (gen_at (mem s)) pc cs fl 0) with (translate (mem s) pc cs fl 0).1.2. rewrite Et. cbn [fst snd]. by rewrite Ec.
  - cbn [cache flush set_pages set_cache]. destruct (tb_alloc _ (tb_flush cpu_list (cache s)) pc) as [[t1 c1]|] eqn:Hf; cbn [mbind option_bind]; [|done].
    apply (alloc_set_invalidated _ _ _ _ true) in Hf.
    pose proof (set_invalidated_inv _ _ _ true (flush_inv lst inc s I)) as I1. set (s1 := set_cache (flush cpu_list s) _) in I1.
    assert (~ cached (cache s1) (pc, cs, fl)) as Hno.
    { intros (u & Hu & _). unfold chain_of in Hu. cbn in Hu. rewrite lookup_empty in Hu. by apply not_elem_of_nil in Hu. }
    destruct (translate (mem s) pc cs fl 0) as [[host g] off] eqn:Et. intros E. apply bind_Some in E as (s3 & El & [= <- <-]).
    pose proof (link_page_inv _ _ s1 I1 pc cs fl Hpc Hno t1 _ Hf Hsize s3) as H. cbn in H. rewrite Et in H. cbn in H.
    destruct (H El) as (I' & Ec & Em & Hl & Hk). split; [split; [by eexists _, _|done]|]. cbn zeta.
    change (@cpu_gen_code (gen_at (mem s)) pc cs fl 0) with (translate (mem s) pc cs fl 0).1.2. rewrite Et. cbn [fst snd]. by rewrite Ec.
Qed.

Lemma find_slow_inv lst inc s core pc cs fl t s' : Inv lst inc [] s -> guest_pc pc ->
  find_slow code_gen_buffer_max_size cpu_list s core pc cs fl = Some (t, s') ->
  found s s' (pc, cs, fl) t /\ @tb_find_slow (gen_at (mem s)) code_gen_buffer_max_size cpu_list (cache s) core pc cs fl = Some (t, cache s').
Proof.
  intros I Hpc. unfold find_slow, tb_find_slow. set (s0 := set_cache s _). pose proof (set_invalidated_inv lst inc s false I) as I0. fold s0 in I0.
  change (set_invalidated (cache s) false) with (cache s0).
  assert (forall t s1, (match chain_search (tb_matches (cache s0) pc cs fl) (chain_of (cache s0) (tb_phys_hash_func pc)) with
      | Some (pre, t, post) => Some (t, set_cache s0 (set_chain (cache s0) (tb_phys_hash_func pc) (t :: pre ++ post)))
      | None => gen_code code_gen_buffer_max_size cpu_list s0 pc cs fl 0 end) = Some (t, s1) ->
    found s s1 (pc, cs, fl) t /\
    (match chain_search (tb_matches (cache s0) pc cs fl) (chain_of (cache s0) (tb_phys_hash_func pc)) with
      | Some (pre, t, post) => Some (t, set_chain (cache s0) (tb_phys_hash_func pc) (t :: pre ++ post))
      | None => @tb_gen_code (gen_at (mem s)) code_gen_buffer_max_size cpu_list (cache s0) pc cs fl 0 end) = Some (t, cache s1)) as H.
  { intros t1 s1. destruct (chain_search _ _) as [[[pre u] post]|] eqn:Es.
    - intros [= <- <-]. destruct (chain_hit_inv lst inc s0 pc cs fl pre u post I0 Es) as (I1 & K & Hl). split; [|done].
      split; [by eexists _, _|]. split; [done|]. done.
    - intros E. exact (gen_code_inv lst inc s0 pc cs fl t1 s1 I0 Hpc (cached_search cpu_list _ _ _ _ (i_wf _ _ _ _ _ _ I0) Es) E). }
  intros E. apply bind_Some in E as ([t1 s1] & E & [= <- <-]). destruct (H _ _ E) as [((lst1 & inc1 & I1) & Em & Hl & Hk) E'].
  rewrite E'. cbn. split; [|done]. split; [|done]. eexists _, _. by eapply set_jmp_inv.
Qed.

Lemma found_jmp_hit lst inc s core pc cs fl t : Inv lst inc [] s -> core ∈ cpu_list -> jmp_hit (cache s) core pc cs fl = Some t ->
  linked (cache s) t /\ key_of (cache s) t = Some (pc, cs, fl).
Proof.
  intros I Hc E. unfold jmp_hit in E. apply bind_Some in E as (u & Hu & E). apply bind_Some in E as (tb & Htb & E).
  destruct (_ && _) eqn:Eb in E; [|done]. injection E as <-. rewrite !andb_true_iff, !Z.eqb_eq in Eb. destruct Eb as [[<- <-] <-].
  destruct (wf_jmp _ _ (i_wf _ _ _ _ _ _ I) core _ _ Hu Hc) as (k & Hk & Hin). split; [|unfold key_of; by rewrite Htb].
  by apply (in_chain_linked cpu_list (cache s)) in Hin as [? _]; [|apply I].
Qed.

(** The lookup: the tables change as in TbCache, and for a CPU on the list the block found
    is linked. *)
Lemma find_fast_inv lst inc s core pc cs fl t s' : Inv lst inc [] s -> guest_pc pc ->
  find_fast code_gen_buffer_max_size cpu_list s core pc cs fl = Some (t, s') ->
  (exists lst' inc', Inv lst' inc' [] s') /\ mem s' = mem s /\
  (core ∈ cpu_list -> linked (cache s') t /\ key_of (cache s') t = Some (pc, cs, fl)) /\
  @tb_find_fast (gen_at (mem s)) code_gen_buffer_max_size cpu_list (cache s) core pc cs fl = Some (t, cache s').
Proof.
  intros I Hpc. unfold find_fast, tb_find_fast. destruct (jmp_hit _ _ _ _ _) as [u|] eqn:Ej.
  - intros [= <- <-]. split; [by eexists _, _|]. split; [done|]. split; [|done]. intros Hc. by eapply found_jmp_hit.
  - intros E. destruct (find_slow_inv lst inc s core pc cs fl t s' I Hpc E) as ((I' & Em & Hl & Hk) & Er). done.
Qed.

Lemma gen_code_total lst inc s pc cs fl : Inv lst inc [] s -> guest_pc pc -> ~ cached (cache s) (pc, cs, fl) ->
  (0 < length (tbs (cache s)))%nat -> 0 < code_gen_buffer_max_size -> is_Some (gen_code code_gen_buffer_max_size cpu_list s pc cs fl 0).
Proof.
  intros I Hpc Hnew Hlen Hmax.
  assert (pc < 4294959104) as Htop by (destruct Hpc as [_ H]; unfold MAGIC_PAGE in H; lia). unfold gen_code. destruct (tb_alloc _ (cache s) pc) as [[t1 c1]|] eqn:Ha; cbn [mbind option_bind].
  - pose proof (link_page_total lst inc s I pc cs fl Hpc Hnew t1 c1 Ha Htop) as [s3 H].
    destruct (translate (mem s) pc cs fl 0) as [[host g] off] eqn:Et. cbn in H |- *. rewrite H. by eexists.
  - destruct (tb_alloc_after_flush code_gen_buffer_max_size cpu_list (cache s) pc Hlen Hmax) as [[t1 c1] Hf].
    cbn [cache flush set_pages set_cache]. rewrite Hf. cbn [mbind option_bind]. apply (alloc_set_invalidated _ _ _ _ true) in Hf.
    pose proof (set_invalidated_inv _ _ _ true (flush_inv lst inc s I)) as I1. set (s1 := set_cache (flush cpu_list s) _) in I1.
    assert (~ cached (cache s1) (pc, cs, fl)) as Hno.
    { intros (u & Hu & _). unfold chain_of in Hu. cbn in Hu. rewrite lookup_empty in Hu. by apply not_elem_of_nil in Hu. }
    pose proof (link_page_total _ _ s1 I1 pc cs fl Hpc Hno t1 _ Hf Htop) as [s3 H]. change (mem s1) with (mem s) in H.
    destruct (translate (mem s) pc cs fl 0) as [[host g] off] eqn:Et. cbn in H |- *. rewrite H. by eexists.
Qed.

Lemma find_fast_total lst inc s core pc cs fl : Inv lst inc [] s -> guest_pc pc ->
  (0 < length (tbs (cache s)))%nat -> 0 < code_gen_buffer_max_size ->
  is_Some (find_fast code_gen_buffer_max_size cpu_list s core pc cs fl).
Proof.
  intros I Hpc Hlen Hmax. unfold find_fast. destruct (jmp_hit _ _ _ _ _) as [u|]; [by eexists|]. unfold find_slow.
  set (s0 := set_cache s _). pose proof (set_invalidated_inv lst inc s false I) as I0. fold s0 in I0.
  destruct (chain_search _ _) as [[[pre u] post]|] eqn:Es; [by eexists|].
  destruct (gen_code_total lst inc s0 pc cs fl I0 Hpc (cached_search cpu_list _ _ _ _ (i_wf _ _ _ _ _ _ I0) Es) Hlen Hmax) as [[t s1] ->].
  by eexists.
Qed.

(** ** Jumps *)

Lemma set_jumps_inv lst inc inc' s J : Inv lst inc [] s -> jumps_wf (tc_of (cache s)) (linked (cache s)) inc' J ->
  tb_next_offset J = tb_next_offset (jumps s) -> tb_jmp_offset J = tb_jmp_offset (jumps s) -> Inv lst inc' [] (set_jumps s J).
Proof.
  intros [I1 I2 I3 I4 I5 I6 I7 I8 I9 I10] W E1 E2. split; try done. intros u Hu. unfold next_offset, jmp_offset. cbn. rewrite E1, E2. by apply I7.
Qed.

Lemma add_jump_inv lst inc s E tb n tb_next : Inv lst inc [] s -> linked (cache s) tb -> linked (cache s) tb_next -> (n < 2)%nat ->
  Inv lst (add_inc E (jumps s) tb n tb_next inc) [] (add_jump E s tb n tb_next).
Proof.
  intros I Ht Hn Hlt. apply (set_jumps_inv lst inc); [done| | |].
  - apply tb_add_jump_wf; try done; apply I.
  - unfold tb_add_jump. destruct E; [done|]. by destruct (jmp_next _ !! _).
  - unfold tb_add_jump. destruct E; [done|]. by destruct (jmp_next _ !! _).
Qed.

(** [cpu_unlink_tb]: no direct jump leaves a block that [tb] can run into. *)
Lemma cpu_unlink_tb_inv lst inc s tb : Inv lst inc [] s -> linked (cache s) tb ->
  exists s' inc', cpu_unlink_tb s tb = Some s' /\ Inv lst inc' [] s' /\ cache s' = cache s /\ mem s' = mem s /\
    (forall t c, linked (cache s) t -> c ∈ inc' t -> c ∈ inc t) /\
    (forall u, rtc (edge (linked (cache s)) inc) tb u -> quiet (linked (cache s)) inc' u).
Proof.
  intros I Ht. unfold cpu_unlink_tb.
  destruct (tb_reset_jump_recursive_spec (tc_of (cache s)) (linked (cache s)) (S (size (jmp_next (jumps s)))) (jumps s) inc tb)
    as (J & inc' & -> & [W C [O1 O2] _] & Hq); [apply I|apply I|done|lia|].
  eexists _, inc'. split; [reflexivity|]. split; [by apply (set_jumps_inv lst inc)|]. split; [done|]. split; [done|]. split; [apply C|].
  apply (cut_all _ _ _ _ C); [|exact Hq]. intros t c Hl Hc. by eapply inc_tag; [apply I|exact Hl|].
Qed.

End Gen.
