(* ===== verification/TbFast.v ===== *)
(** * The bitmaps of pages stay right

    [tb_invalidate_phys_page_fast] consults the bitmap of a page instead of its list.  A
    bitmap has a bit set for every byte of the page that a linked block was translated from:
    it is built from the list, dropped whenever the list gets a block or loses one, and kept
    otherwise. *)

From S2P Require Import Prelude TbCache TbLists TbJumps TbPages TbInvalidate TbBitmap TbInvProofs TbSmc TbPageFlags TbGen.
Open Scope Z_scope.

(** ** Operations that keep or drop bitmaps *)

Definition bits_kept (P P' : Pages) : Prop := forall i p', page_find P' i = Some p' ->
  code_bitmap p' = None \/ exists p, page_find P i = Some p /\ code_bitmap p = code_bitmap p'.

Lemma bits_refl P : bits_kept P P.
Proof. intros i p Hp. right. by exists p. Qed.

Lemma bits_trans P1 P2 P3 : bits_kept P1 P2 -> bits_kept P2 P3 -> bits_kept P1 P3.
Proof.
  intros H1 H2 i p3 E3. destruct (H2 i p3 E3) as [|(p2 & E2 & Hb)]; [by left|]. rewrite <- Hb. by apply H1.
Qed.

#[local] Hint Resolve bits_refl : core.

Lemma set_page_bits P i p q P' : page_find P i = Some p -> code_bitmap q = None \/ code_bitmap q = code_bitmap p ->
  set_page P i q = Some P' -> bits_kept P P'.
Proof.
  unfold set_page. destruct (l1_map P !! l1_index i) as [pd|] eqn:E; cbn [mbind option_bind]; [|done].
  intros Hp Hq [= <-] j p' Hj. unfold page_find in *. cbn [l1_map] in Hj.
  destruct (decide (l1_index j = l1_index i)) as [E1|E1]; [|rewrite lookup_insert_ne in Hj by done; right; by exists p'].
  rewrite E1, lookup_insert_eq in Hj. rewrite E1, E. rewrite E in Hp. cbn in Hj, Hp |- *.
  destruct (decide (l2_index j = l2_index i)) as [E2|E2].
  - rewrite E2, lookup_insert_eq in Hj. rewrite E2. cbn in Hj. injection Hj as <-. destruct Hq as [Hq|Hq]; [by left|]. right. eexists. split; [exact Hp|done].
  - rewrite lookup_insert_ne in Hj by done. right. by eexists.
Qed.

Lemma page_put_bits P ptb v P' : page_put P ptb v = Some P' -> bits_kept P P'.
Proof.
  destruct ptb as [i|c]; cbn [page_put].
  - intros E. apply bind_Some in E as (p & Ep & E). refine (set_page_bits _ _ _ _ _ Ep _ E); by right.
  - intros [= <-]. intros i p Hp. right. by exists p.
Qed.

Lemma remove_from_page_bits P a tb P' : remove_from_page P a tb = Some P' -> bits_kept P P'.
Proof.
  unfold remove_from_page, tb_page_remove. intros E. apply bind_Some in E as (P1 & E1 & E). apply bind_Some in E as (p & Ep & E).
  apply bind_Some in E1 as ([ptb n] & _ & E1). eapply bits_trans; [by eapply page_put_bits|]. refine (set_page_bits _ _ _ _ _ Ep _ E); by left.
Qed.

Section Kept.
Context {Code : Type} `{!Translator Code} (cpu_list : list nat).
Implicit Types s : Machine Code.

Lemma tb_phys_invalidate_bits s t a s' : tb_phys_invalidate cpu_list s t a = Some s' -> bits_kept (pages s) (pages s').
Proof.
  unfold tb_phys_invalidate. intros E. apply bind_Some in E as (b & _ & E). apply bind_Some in E as (ch & _ & E).
  apply bind_Some in E as (P1 & E1 & E). apply bind_Some in E as (P2 & E2 & E). apply bind_Some in E as (j & _ & E). injection E as <-. cbn [pages].
  eapply (bits_trans _ P1).
  - destruct (_ =? _); [by injection E1 as <-|by eapply remove_from_page_bits].
  - destruct (_ || _); [by injection E2 as <-|by eapply remove_from_page_bits].
Qed.

Lemma invalidate_page_loop_bits fuel : forall s addr tb s', invalidate_page_loop cpu_list fuel s addr tb = Some s' -> bits_kept (pages s) (pages s').
Proof.
  induction fuel as [|fuel IH]; intros s addr tb s'; cbn [invalidate_page_loop]; [done|]. destruct tb as [[t n]|]; [|by intros [= <-]].
  intros E. apply bind_Some in E as (s1 & E1 & E). eapply bits_trans; [by eapply tb_phys_invalidate_bits|by eapply IH].
Qed.

Lemma tb_invalidate_phys_page_bits s addr s' : tb_invalidate_phys_page cpu_list s addr = Some s' -> bits_kept (pages s) (pages s').
Proof.
  unfold tb_invalidate_phys_page. destruct (page_find _ _) as [p|]; [|by intros [= <-]].
  intros E. apply bind_Some in E as (s1 & E1 & E). apply bind_Some in E as (p1 & Ep & E). apply bind_Some in E as (P & EP & [= <-]).
  eapply bits_trans; [by eapply invalidate_page_loop_bits|]. refine (set_page_bits _ _ _ _ _ Ep _ EP); by right.
Qed.

Lemma invalidate_range_loop_bits fuel : forall s start last tb s', invalidate_range_loop cpu_list fuel s start last tb = Some s' -> bits_kept (pages s) (pages s').
Proof.
  induction fuel as [|fuel IH]; intros s start last tb s'; cbn [invalidate_range_loop]; [done|]. destruct tb as [[t n]|]; [|by intros [= <-]].
  intros E. apply bind_Some in E as (b & _ & E). destruct (tb_range b n) as [lo hi]. apply bind_Some in E as (s1 & E1 & E).
  eapply bits_trans; [|by eapply IH]. destruct (negb _); [by eapply tb_phys_invalidate_bits|by injection E1 as <-].
Qed.

Lemma page_find_alloc_bits P i : bits_kept P (page_find_alloc P i).
Proof.
  unfold page_find_alloc. destruct (l1_map P !! l1_index i) as [pd|] eqn:E; [done|]. intros j p. unfold page_find. cbn [l1_map].
  destruct (decide (l1_index j = l1_index i)) as [->|Hne].
  - rewrite lookup_insert_eq. cbn. rewrite lookup_empty. intros [= <-]. by left.
  - rewrite lookup_insert_ne by done. intros Hp. right. by exists p.
Qed.

Lemma set_flags_loop_bits n : forall s addr f s', set_flags_loop cpu_list n s addr f = Some s' -> bits_kept (pages s) (pages s').
Proof.
  induction n as [|n IH]; intros s addr f s'; cbn [set_flags_loop]; [by intros [= <-]|]. set (s1 := set_pages s _).
  intros E. apply bind_Some in E as (p & Ep & E). apply bind_Some in E as (s2 & E2 & E). apply bind_Some in E as (p2 & Ep2 & E). apply bind_Some in E as (P & EP & E).
  apply IH in E. eapply bits_trans; [apply (page_find_alloc_bits (pages s) (Z.shiftr addr TARGET_PAGE_BITS))|]. eapply (bits_trans _ (pages s2)).
  - destruct (_ && _); [by apply tb_invalidate_phys_page_bits in E2|by injection E2 as <-].
  - eapply bits_trans; [|exact E]. refine (set_page_bits _ _ _ _ _ Ep2 _ EP); by right.
Qed.

Lemma page_set_flags_bits s start last f s' : page_set_flags cpu_list s start last f = Some s' -> bits_kept (pages s) (pages s').
Proof. unfold page_set_flags. destruct (negb _); [done|]. apply set_flags_loop_bits. Qed.

Lemma unprotect_loop_bits fuel : forall s addr e s', unprotect_loop cpu_list fuel s addr e = Some s' -> bits_kept (pages s) (pages s').
Proof.
  induction fuel as [|fuel IH]; intros s addr e s'; cbn [unprotect_loop]; [done|]. destruct (_ <? _); [|by intros [= <-]].
  intros E. apply bind_Some in E as (p & Ep & E). apply bind_Some in E as (P & EP & E). apply bind_Some in E as (s1 & E1 & E).
  eapply bits_trans; [|by eapply IH]. apply tb_invalidate_phys_page_bits in E1. eapply bits_trans; [|exact E1].
  refine (set_page_bits _ _ _ _ _ Ep _ EP); by right.
Qed.

Lemma page_unprotect_bits s a r s' : page_unprotect cpu_list s a = Some (r, s') -> bits_kept (pages s) (pages s').
Proof.
  unfold page_unprotect. destruct (page_find _ _) as [p|]; [|by intros [= _ <-]]. destruct (_ && _); [|by intros [= _ <-]].
  intros E. apply bind_Some in E as (s1 & E1 & [= _ <-]). by eapply unprotect_loop_bits.
Qed.

Lemma guest_store_byte_bits s a v r s' : guest_store_byte cpu_list s a v = Some (r, s') -> bits_kept (pages s) (pages s').
Proof.
  unfold guest_store_byte. destruct (negb _); [by intros [= _ <-]|]. intros E. apply bind_Some in E as ([ok s1] & E1 & E).
  apply page_unprotect_bits in E1. destruct ok; [|by injection E as _ <-]. destruct (negb _); [by injection E as _ <-|done].
Qed.

(** ** Right bitmaps *)

(** Every byte of page [i] that a linked block was translated from has its bit set. *)
Definition good_bitmap (c : TbState) (i : Z) (tab : list Z) : Prop := length tab = 512%nat /\ bytes_ok tab /\
  forall u n b k, linked c u -> on_page c (u, n) i -> tbs c !! u = Some b -> (bitmap_range b n).1 <= k < (bitmap_range b n).2 -> bit tab k = true.

Definition bitmaps_ok s : Prop := forall i p tab, page_index i -> page_find (pages s) i = Some p -> code_bitmap p = Some tab -> good_bitmap (cache s) i tab.

Lemma bitmaps_shrink s s' : bits_kept (pages s) (pages s') -> tbs (cache s') = tbs (cache s) ->
  (forall u, linked (cache s') u -> linked (cache s) u) -> bitmaps_ok s -> bitmaps_ok s'.
Proof.
  intros K Ht Hl B i p' tab Hi Hp' Hb. destruct (K i p' Hp') as [|(p & Hp & E)]; [congruence|]. rewrite Hb in E.
  destruct (B i p tab Hi Hp E) as (B1 & B2 & B3). split; [done|]. split; [done|]. intros u n b k Hu Hon Htb Hk. rewrite Ht in Htb.
  apply (B3 u n b k); [by apply Hl| |done|done]. unfold on_page in *. by rewrite Ht in Hon.
Qed.

Lemma bitmaps_same s s' : pages s' = pages s -> tbs (cache s') = tbs (cache s) ->
  (forall u, linked (cache s') u -> linked (cache s) u) -> bitmaps_ok s -> bitmaps_ok s'.
Proof. intros E. apply bitmaps_shrink. by rewrite E. Qed.

(** The bitmap that [tb_invalidate_phys_page_range] builds. *)
Lemma built_bitmap prot lst inc s i p tab : inv cpu_list prot lst inc [] s -> page_index i -> page_find (pages s) i = Some p ->
  build_page_bitmap s p = Some tab -> good_bitmap (cache s) i tab.
Proof.
  intros I Hi Ep E. destruct (build_page_bitmap_spec cpu_list prot lst inc s i p I Hi Ep) as (tab' & E' & L & B & K). rewrite E in E'. injection E' as <-.
  split; [done|]. split; [done|]. intros u n b k Hu Hon Hb Hk. assert ((u, n) ∈ lst i) as Hin by (apply (i_lst _ _ _ _ _ _ I i (u, n) Hi); split; [done|by left]).
  pose proof (bitmap_range_ok cpu_list prot lst inc s i (u, n) b I Hi Hin Hb) as [H1 H2]. cbn [fst snd] in H1, H2. apply K; [lia|]. by exists (u, n), b.
Qed.

Lemma range_bitmaps prot lst inc s start last w s' : inv cpu_list prot lst inc [] s -> page_index (start / 4096) ->
  tb_invalidate_phys_page_range cpu_list s start last w = Some s' -> tbs (cache s') = tbs (cache s) ->
  (forall u, linked (cache s') u -> linked (cache s) u) -> bitmaps_ok s -> bitmaps_ok s'.
Proof.
  intros I Hi E Ht Hl B. unfold tb_invalidate_phys_page_range in E. rewrite page_shr in E. destruct (page_find _ _) as [p|] eqn:Ep; [|by injection E as <-].
  apply bind_Some in E as (P & EP & E). apply invalidate_range_loop_bits in E. cbn [pages set_pages] in E.
  assert (bitmaps_ok (set_pages s P)) as B1; [|by apply (bitmaps_shrink (set_pages s P))].
  destruct (code_bitmap p) as [tab0|] eqn:Eb; [injection EP as <-; by apply (bitmaps_same s)|].
  apply bind_Some in EP as (ob & Eob & EP). intros j q tab Hj Hq Htab. cbn [pages set_pages cache] in *.
  rewrite (page_find_set (pages s) P (start / 4096) j _ Hi Hj EP) in Hq. case_decide as Hd; [|by apply (B j q tab)].
  injection Hq as <-. cbn in Htab. subst ob j. destruct (_ && _); [|done]. apply bind_Some in Eob as (tab' & Et & [= ->]). by eapply built_bitmap.
Qed.

Lemma flush_bitmaps s : bitmaps_ok (flush cpu_list s).
Proof.
  intros i p tab _ Hp Hb. cbn in Hp. rewrite page_find_flush in Hp. destruct (page_find (pages s) i); [|done]. by injection Hp as <-.
Qed.

(** ** A new block *)

Lemma protect_pages_bits fuel : forall P addr bound P', protect_pages fuel P addr bound = Some P' -> bits_kept P P'.
Proof.
  induction fuel as [|fuel IH]; intros P addr bound P'; cbn [protect_pages]; [done|]. destruct (_ <? _); [|by intros [= <-]].
  intros E. apply bind_Some in E as (P1 & E1 & E). eapply bits_trans; [|by eapply IH].
  destruct (page_find _ _) as [p|] eqn:Ep; [|by injection E1 as <-]. refine (set_page_bits _ _ _ _ _ Ep _ E1). by right.
Qed.

Lemma tb_alloc_page_bits P tb n i P' : page_index i -> tb_alloc_page P tb n (4096 * i) = Some P' ->
  bits_kept P P' /\ forall p, page_find P' i = Some p -> code_bitmap p = None.
Proof.
  intros Hi E. unfold tb_alloc_page in E. rewrite page_shr, Z.mul_comm, Z.div_mul in E by lia.
  apply bind_Some in E as (p & Ep & E). apply bind_Some in E as (P1 & E1 & E).
  assert (bits_kept P P1) as K1.
  { eapply bits_trans; [apply (page_find_alloc_bits P i)|]. eapply (bits_trans _ (set_page_next (page_find_alloc P i) (tb, n) (first_tb p))); [intros j q Hq; right; by exists q|].
    eapply (set_page_bits _ i p); [exact Ep| |exact E1]. by left. }
  assert (bits_kept P1 P') as K2 by (destruct (_ =? _); [by injection E as <-|by eapply protect_pages_bits]).
  split; [by eapply bits_trans|]. intros q Hq. destruct (K2 i q Hq) as [|(q1 & Hq1 & <-)]; [done|].
  rewrite (page_find_set _ P1 i i _ Hi Hi E1), decide_True in Hq1 by done. by injection Hq1 as <-.
Qed.

(** [tb_link_page] drops the bitmaps of the pages of the block. *)
Lemma link_page_bitmaps s s2 t pc page2 s3 b : in_u 32 pc -> pages s2 = pages s -> page2 = NO_PAGE \/ page2 = 4096 * (page2 / 4096) /\ page_index (page2 / 4096) ->
  link_page s2 t pc page2 = Some s3 ->
  (forall u, tbs (cache s3) !! u = if decide (u = t) then Some b else tbs (cache s) !! u) ->
  page_addr0 b = Z.land pc TARGET_PAGE_MASK -> page_addr1 b = page2 ->
  (forall u, u <> t -> linked (cache s3) u -> linked (cache s) u) -> bitmaps_ok s -> bitmaps_ok s3.
Proof.
  intros Hpc Hpg H2 E Ht H0 H1 Hl B. unfold link_page in E. rewrite Hpg in E. apply bind_Some in E as (c & _ & E).
  apply bind_Some in E as (P1 & E1 & E). apply bind_Some in E as (P2 & E2 & [= <-]). cbn [cache pages set_cache set_pages set_jumps] in *.
  assert (Z.land pc TARGET_PAGE_MASK = 4096 * (pc / 4096)) as E0 by (rewrite page_mask; Z.to_euclidean_division_equations; lia).
  rewrite E0 in E1, H0. destruct (tb_alloc_page_bits _ _ _ _ _ (page_index_of pc Hpc) E1) as [K1 N1].
  assert (bits_kept P1 P2 /\ (page2 <> NO_PAGE -> forall p, page_find P2 (page2 / 4096) = Some p -> code_bitmap p = None)) as [K2 N2].
  { destruct (Z.eqb_spec page2 NO_PAGE) as [|Hn]; [by injection E2 as <-|]. destruct H2 as [|[Hp Hi]]; [done|]. rewrite Hp in E2.
    destruct (tb_alloc_page_bits _ _ _ _ _ Hi E2) as [K N]. done. }
  intros i p tab Hi Hp Hb. destruct (bits_trans _ _ _ K1 K2 i p Hp) as [|(q & Hq & Eq)]; [congruence|]. rewrite Hb in Eq.
  destruct (B i q tab Hi Hq Eq) as (B1 & B2 & B3). split; [done|]. split; [done|]. cbn [cache set_cache set_pages set_jumps].
  intros u n b' k Hu (b2 & Hb2 & Hon) Htb Hk. cbn [fst snd] in *. rewrite Ht in Htb, Hb2. case_decide as Hd.
  - exfalso. injection Hb2 as <-. destruct Hon as [[_ Hx]|(_ & Hn & Hx)].
    + assert (i = pc / 4096) as -> by lia. destruct (K2 _ p Hp) as [|(p1 & Hp1 & Eb)]; [congruence|]. rewrite (N1 p1 Hp1) in Eb. congruence.
    + rewrite H1 in Hn, Hx. assert (page2 / 4096 = i) as Ei by (rewrite Hx, Z.mul_comm; apply Z.div_mul; lia). rewrite Ei in N2. rewrite (N2 Hn p Hp) in Hb. done.
  - apply (B3 u n b' k); [by apply Hl| |done|done]. exists b2. done.
Qed.

(** ** The test of [tb_invalidate_phys_page_fast] *)

Lemma bitmap_covers prot lst inc dead s u n i b x : inv cpu_list prot lst inc dead s -> linked (cache s) u -> on_page (cache s) (u, n) i ->
  tbs (cache s) !! u = Some b -> covers (cache s) u x -> x / 4096 = i -> (bitmap_range b n).1 <= x mod 4096 < (bitmap_range b n).2.
Proof.
  intros I Hu (b1 & Hb1 & Hon) Hb (b2 & k & Hb2 & Hk & ->) Hi. cbn [fst snd] in *. rewrite Hb in Hb1, Hb2. injection Hb1 as <-. injection Hb2 as <-.
  destruct (block_geometry cpu_list prot lst inc dead s u I Hu) as (b' & Hb' & Hpc & Hz & H0 & H1). rewrite Hb in Hb'. injection Hb' as <-.
  unfold bitmap_range. change TARGET_PAGE_SIZE with 4096. destruct Hon as [[-> Hx]|(-> & Hn & Hx)]; cbn [Nat.eqb fst snd]; rewrite !page_offset.
  - assert (uint32_t (tb_pc b + k) / 4096 = tb_pc b / 4096) as E by lia. clear - E Hk Hz Hpc. cint.
  - destruct H1 as [[? _]|(_ & H1 & Hne)]; [done|]. assert (uint32_t (tb_pc b + k) / 4096 = uint32_t (tb_pc b + tb_size b - 1) / 4096) as E by lia.
    clear - E Hne Hk Hz Hpc. cint.
Qed.

(** The bits of [len] bytes, which are in one byte of the table. *)
Lemma fast_bits tab offset len : bytes_ok tab -> length tab = 512%nat -> 0 <= offset < 4096 -> 0 <= len <= 8 -> offset mod 8 + len <= 8 ->
  exists b, tab !! Z.to_nat (Z.shiftr offset 3) = Some b /\
    (Z.land (Z.shiftr b (Z.land offset 7)) (Z.shiftl 1 len - 1) = 0 <-> forall k, offset <= k < offset + len -> bit tab k = false).
Proof.
  intros Hok Hlen Ho Hl Hf. rewrite Z.shiftr_div_pow2 by lia. change (2 ^ 3) with 8. change 7 with (Z.ones 3) at 1. rewrite Z.land_ones by lia. change (2 ^ 3) with 8.
  destruct (lookup_lt_is_Some_2 tab (Z.to_nat (offset / 8))) as [b Hb]; [Z.to_euclidean_division_equations; lia|]. exists b. split; [done|].
  assert (forall k, offset <= k < offset + len -> bit tab k = Z.testbit b (offset mod 8 + (k - offset))) as Hbit.
  { intros k Hk. unfold bit. assert (k / 8 = offset / 8 /\ k mod 8 = offset mod 8 + (k - offset)) as [-> ->] by (Z.to_euclidean_division_equations; lia).
    by rewrite (list_lookup_total_correct _ _ _ Hb). }
  assert (Z.shiftl 1 len - 1 = Z.ones len) as -> by (rewrite Z.ones_equiv, Z.shiftl_1_l; lia).
  rewrite Z.land_ones by lia. pose proof (Z.mod_pos_bound offset 8 ltac:(lia)) as Hm. split.
  - intros E k Hk. rewrite Hbit by done. pose proof (Z.mod_pow2_bits_low (Z.shiftr b (offset mod 8)) len (k - offset) ltac:(lia)) as Hx.
    rewrite E, Z.bits_0, Z.shiftr_spec in Hx by lia. rewrite Hx. f_equal. lia.
  - intros H. apply Z.bits_inj'. intros j Hj. rewrite Z.bits_0. destruct (decide (j < len)) as [Hjl|Hjl].
    + rewrite Z.mod_pow2_bits_low, Z.shiftr_spec by lia. rewrite <- (H (offset + j)) by lia. rewrite Hbit by lia. f_equal. lia.
    + apply Z.mod_pow2_bits_high. lia.
Qed.

Lemma invalidate_fast_spec prot lst inc s start len : inv cpu_list prot lst inc [] s -> bitmaps_ok s ->
  (len = 1 \/ len = 2 \/ len = 4 \/ len = 8) -> start mod len = 0 -> 0 <= start < 4294963200 ->
  exists s' lst' inc', tb_invalidate_phys_page_fast cpu_list s start len = Some s' /\ inv cpu_list prot lst' inc' [] s' /\ bitmaps_ok s' /\
    gone_from (fun u => exists x, start <= x < start + len /\ covers (cache s) u x) s s'.
Proof.
  intros I B Hlen Hal Hst. set (i := start / 4096).
  assert (page_index i) as Hi by (apply page_index_of; unfold in_u; change (2 ^ 32) with 4294967296; lia).
  assert (start mod 8 + len <= 8 /\ start + len <= 4096 * (i + 1)) as [Hf Hend].
  { unfold i. destruct Hlen as [->|[->|[->| ->]]]; Z.to_euclidean_division_equations; lia. }
  assert (uint32_t (start + len) = start + len) as Eu by (apply uint_id; unfold in_u; change (2 ^ 32) with 4294967296; lia).
  assert (exists s' lst' inc', tb_invalidate_phys_page_range cpu_list s start (uint32_t (start + len)) true = Some s' /\ inv cpu_list prot lst' inc' [] s' /\ bitmaps_ok s' /\
    gone_from (fun u => exists x, start <= x < start + len /\ covers (cache s) u x) s s') as Hrange.
  { rewrite Eu. destruct (tb_invalidate_phys_page_range_spec cpu_list prot lst inc s start (start + len) true I) as (s' & lst' & inc' & E & I' & G); [lia|done|lia|].
    exists s', lst', inc'. split; [done|]. split; [done|]. split; [|done]. destruct G as [U L]. eapply range_bitmaps; [exact I|exact Hi|exact E|exact (un_tbs _ _ U)| |done].
    intros u Hu. by apply L in Hu as [? _]. }
  unfold tb_invalidate_phys_page_fast. rewrite page_shr. fold i. destruct (page_find (pages s) i) as [p|] eqn:Ep.
  - destruct (code_bitmap p) as [tab|] eqn:Eb; [|exact Hrange]. destruct (B i p tab Hi Ep Eb) as (L & Hok & Hbits).
    rewrite page_offset. assert ((start mod 4096) mod 8 = start mod 8) as E8 by (Z.to_euclidean_division_equations; lia).
    destruct (fast_bits tab (start mod 4096) len Hok L) as (b & -> & Hb); [apply Z.mod_pos_bound; lia|lia|lia|]. cbn [mbind option_bind].
    destruct (Z.eqb_spec (Z.land (Z.shiftr b (Z.land (start mod 4096) 7)) (Z.shiftl 1 len - 1)) 0) as [Ez|_]; [|exact Hrange].
    exists s, lst, inc. split; [done|]. split; [done|]. split; [done|]. split; [apply untouched_refl|]. intros u. split; [|tauto]. intros Hu. split; [done|].
    intros (x & Hx & Hc). assert (x / 4096 = i) as Hxi by (unfold i in *; clear - Hx Hend; Z.to_euclidean_division_equations; lia).
    destruct (covers_on_page cpu_list prot lst inc [] s u x I Hu Hc) as [n Hn]. rewrite Hxi in Hn. pose proof Hn as (bb & Hbb & _). cbn in Hbb.
    pose proof (bitmap_covers prot lst inc [] s u n i bb x I Hu Hn Hbb Hc Hxi) as Hk. specialize (Hbits u n bb (x mod 4096) Hu Hn Hbb Hk).
    rewrite (proj1 Hb Ez) in Hbits; [done|]. unfold i in *. clear - Hx Hxi. Z.to_euclidean_division_equations. lia.
  - exists s, lst, inc. split; [done|]. split; [done|]. split; [done|]. split; [apply untouched_refl|]. intros u. split; [|tauto]. intros Hu. split; [done|].
    intros (x & Hx & Hc). assert (x / 4096 = i) as Hxi by (unfold i in *; clear - Hx Hend; Z.to_euclidean_division_equations; lia).
    destruct (covers_on_page cpu_list prot lst inc [] s u x I Hu Hc) as [n Hn]. rewrite Hxi in Hn.
    assert ((u, n) ∈ lst i) as Hin by (apply (i_lst _ _ _ _ _ _ I i (u, n) Hi); split; [done|by left]).
    pose proof (pg_list _ _ (i_pages _ _ _ _ _ _ I) i Hi) as H. unfold first_of in H. rewrite Ep in H. cbn in H.
    destruct (lst i); [by apply not_elem_of_nil in Hin|]. by destruct H.
Qed.

End Kept.

Section Gen.
Context {Code : Type} `{!Translator Code} (code_gen_buffer_max_size : Z) (cpu_list : list nat).
Implicit Types s : Machine Code.

Lemma new_block_bitmaps lst inc s pc cs fl t c1 s3 : Inv cpu_list lst inc [] s -> guest_pc pc -> ~ cached (cache s) (pc, cs, fl) ->
  tb_alloc code_gen_buffer_max_size (cache s) pc = Some (t, c1) -> code_gen_buffer_max_size <= 1073741824 ->
  let r := translate (mem s) pc cs fl 0 in
  link_page (mkMachine (@gen_into (gen_at (mem s)) c1 t pc cs fl 0) (pages s) (set_offsets (jumps s) t r.2) (<[t := r.1.1]> (tb_code s)) (mem s)
    (tb_phys_invalidate_count s)) t pc (second_page pc (g_size r.1.2)) = Some s3 ->
  bitmaps_ok s -> bitmaps_ok s3.
Proof.
  intros I Hpc Hnew Ha Hsize r E B. destruct (new_cache _ _ lst inc s I pc cs fl Hpc Hnew t c1 Ha) as (c3 & El & _ & _ & _ & _ & Hnl & Ht & Hl).
  destruct (link_page_inv _ _ lst inc s I pc cs fl Hpc Hnew t c1 Ha Hsize s3 E) as (_ & El' & _). rewrite El in El'. injection El' as E3. subst c3.
  refine (link_page_bitmaps s _ t pc _ s3 _ (guest_pc_u pc Hpc) _ _ E Ht eq_refl eq_refl _ B); [done|..].
  - destruct (new_pages s pc cs fl Hpc) as [?|(_ & H1 & H2 & _)]; [by left|right; by split].
  - intros u Hu Hlu. apply Hl in Hlu as [?|?]; done.
Qed.

Lemma gen_code_bitmaps lst inc s pc cs fl t s' : Inv cpu_list lst inc [] s -> guest_pc pc -> ~ cached (cache s) (pc, cs, fl) ->
  code_gen_buffer_max_size <= 1073741824 -> gen_code code_gen_buffer_max_size cpu_list s pc cs fl 0 = Some (t, s') -> bitmaps_ok s -> bitmaps_ok s'.
Proof.
  intros I Hpc Hnew Hsize. unfold gen_code. destruct (tb_alloc _ (cache s) pc) as [[t1 c1]|] eqn:Ha; cbn [mbind option_bind].
  - pose proof (fun s3 => new_block_bitmaps lst inc s pc cs fl t1 c1 s3 I Hpc Hnew Ha Hsize) as H. cbn zeta in H.
    destruct (translate (mem s) pc cs fl 0) as [[host g] off] eqn:Et. intros E. apply bind_Some in E as (s3 & El & [= <- <-]). by apply H.
  - cbn [cache flush set_pages set_cache]. destruct (tb_alloc _ (tb_flush cpu_list (cache s)) pc) as [[t1 c1]|] eqn:Hf; cbn [mbind option_bind]; [|done].
    apply (alloc_set_invalidated _ _ _ _ _ true) in Hf.
    pose proof (set_invalidated_inv _ _ _ _ true (flush_inv cpu_list lst inc s I)) as I1. set (s1 := set_cache (flush cpu_list s) _) in I1.
    assert (~ cached (cache s1) (pc, cs, fl)) as Hno.
    { intros (u & Hu & _). unfold chain_of in Hu. cbn in Hu. rewrite lookup_empty in Hu. by apply not_elem_of_nil in Hu. }
    pose proof (fun s3 => new_block_bitmaps _ _ s1 pc cs fl t1 _ s3 I1 Hpc Hno Hf Hsize) as H. cbn zeta in H. change (mem s1) with (mem s) in H.
    destruct (translate (mem s) pc cs fl 0) as [[host g] off] eqn:Et. intros E B. apply bind_Some in E as (s3 & El & [= <- <-]). apply H; [exact El|].
    apply (bitmaps_same (flush cpu_list s)); [done|done| |apply flush_bitmaps]. intros u Hu. exact Hu.
Qed.

Lemma find_fast_bitmaps lst inc s core pc cs fl t s' : Inv cpu_list lst inc [] s -> guest_pc pc -> code_gen_buffer_max_size <= 1073741824 ->
  find_fast code_gen_buffer_max_size cpu_list s core pc cs fl = Some (t, s') -> bitmaps_ok s -> bitmaps_ok s'.
Proof.
  intros I Hpc Hsize E B. unfold find_fast in E. destruct (jmp_hit _ _ _ _ _) as [u|]; [by injection E as _ <-|]. unfold find_slow in E.
  pose proof (set_invalidated_inv cpu_list lst inc s false I) as I0. set (s0 := set_cache s _) in *.
  assert (bitmaps_ok s0) as B0 by (apply (bitmaps_same s); done).
  apply bind_Some in E as ([t1 s1] & E & [= <- <-]). assert (bitmaps_ok s1) as B1; [|apply (bitmaps_same s1); done].
  destruct (chain_search _ _) as [[[pre u] post]|] eqn:Es.
  - injection E as <- <-. apply chain_search_Some in Es as [Ec _]. apply (bitmaps_same s0); [done|done| |done].
    intros v (tb & Htb & Hv). exists tb. split; [done|]. cbn [cache set_cache] in Hv. rewrite chain_of_set_chain in Hv. case_decide as Hd; [|done].
    rewrite <- Hd, Ec. rewrite elem_of_cons, elem_of_app in Hv. rewrite elem_of_app, elem_of_cons. tauto.
  - exact (gen_code_bitmaps lst inc s0 pc cs fl t1 s1 I0 Hpc (cached_search cpu_list _ _ _ _ (i_wf _ _ _ _ _ _ I0) Es) Hsize E B0).
Qed.

End Gen.
