(* ===== verification/TbProps.v ===== *)
(** * Translated blocks and guest memory: properties

    The operations of TbInvalidate as a step relation.  In every reachable state the block
    that a lookup returns is the translation of what guest memory holds, and so is every
    block that its direct jumps lead to. *)

From S2P Require Import Prelude TbCache TbLists TbJumps TbPages TbInvalidate TbBitmap TbInvProofs TbSmc TbPageFlags TbGen TbFast.
Open Scope Z_scope.

(** ** The block of a host address *)

(** The code of block [m] starts at or before [pc], that of the next one after it. *)
Definition code_at (c : TbState) (pc m : Z) : Prop :=
  0 <= m < Z.of_nat (nb_tbs c) /\ (exists b, tbs c !! Z.to_nat m = Some b /\ tc_ptr b <= pc) /\
  forall b, m + 1 < Z.of_nat (nb_tbs c) -> tbs c !! Z.to_nat (m + 1) = Some b -> pc < tc_ptr b.

Lemma find_pc_loop_spec c pc fuel : forall m_min m_max, tc_sorted c -> (nb_tbs c <= length (tbs c))%nat -> 0 <= pc ->
  0 <= m_min <= m_max + 1 -> m_max < Z.of_nat (nb_tbs c) -> m_max + 1 - m_min < Z.of_nat fuel -> (0 < nb_tbs c)%nat ->
  (forall i b, 0 <= i < m_min -> tbs c !! Z.to_nat i = Some b -> tc_ptr b < pc) ->
  (forall i b, m_max < i < Z.of_nat (nb_tbs c) -> tbs c !! Z.to_nat i = Some b -> pc < tc_ptr b) ->
  exists m, find_pc_loop fuel c pc m_min m_max = Some m /\ code_at c pc m.
Proof.
  induction fuel as [|fuel IH]; intros m_min m_max S Hnb Hpc Hm Hx Hf Hpos Hlo Hhi; [lia|].
  cbn [find_pc_loop]. assert (forall i, 0 <= i < Z.of_nat (nb_tbs c) -> exists b, tbs c !! Z.to_nat i = Some b) as Hget
    by (intros i Hi; apply lookup_lt_is_Some_2; lia).
  destruct (Z.leb_spec m_min m_max) as [Hle|Hgt].
  - rewrite Z.shiftr_div_pow2 by lia. change (2 ^ 1) with 2. set (m := (m_min + m_max) / 2).
    assert (m_min <= m <= m_max) as Hmm by (unfold m; Z.to_euclidean_division_equations; lia).
    destruct (Hget m ltac:(lia)) as [b Hb]. rewrite Hb. cbn [mbind option_bind].
    assert (forall i j x y, 0 <= i < j -> j < Z.of_nat (nb_tbs c) -> tbs c !! Z.to_nat i = Some x -> tbs c !! Z.to_nat j = Some y -> tc_ptr x < tc_ptr y) as Hord
      by (intros i j x y Hi Hj Hxi Hyj; apply (ts_order c S (Z.to_nat i) (Z.to_nat j)); [lia|done|done]).
    destruct (Z.eqb_spec (tc_ptr b) pc) as [E|Hne].
    + exists m. split; [done|]. split; [lia|]. split; [exists b; split; [done|lia]|]. intros b' Hl Hb'. rewrite <- E. apply (Hord m (m + 1)); [lia|lia|done|done].
    + destruct (Z.ltb_spec pc (tc_ptr b)) as [Hlt|Hge].
      * apply IH; try done; try lia. intros i x Hi Hxi. destruct (decide (i = m)) as [->|]; [congruence|].
        specialize (Hord m i b x ltac:(lia) ltac:(lia) Hb Hxi). lia.
      * apply IH; try done; try lia. intros i x Hi Hxi. destruct (decide (i = m)) as [->|]; [rewrite Hb in Hxi; injection Hxi as <-; lia|].
        specialize (Hord i m x b ltac:(lia) ltac:(lia) Hxi Hb). lia.
  - exists m_max. split; [done|]. destruct (decide (m_max = -1)) as [->|Hne].
    + exfalso. destruct (Hget 0 ltac:(lia)) as [b Hb]. specialize (Hhi 0 b ltac:(lia) Hb).
      rewrite (ts_first c S b) in Hhi; [lia|lia|done].
    + destruct (Hget m_max ltac:(lia)) as [b Hb]. split; [lia|]. split.
      * exists b. split; [done|]. specialize (Hlo m_max b ltac:(lia) Hb). lia.
      * intros b' Hl Hb'. by apply (Hhi (m_max + 1)); [lia|].
Qed.

Lemma find_pc_spec c pc : tc_sorted c -> (nb_tbs c <= length (tbs c))%nat -> 0 <= pc < code_gen_ptr c ->
  exists m, tb_find_pc c pc = Some (Some m) /\ code_at c pc m.
Proof.
  intros S Hnb Hpc. assert (nb_tbs c <> 0%nat) as Hz by (intros E; rewrite (ts_empty c S E) in Hpc; lia).
  unfold tb_find_pc. destruct (Nat.eqb_spec (nb_tbs c) 0) as [|_]; [done|].
  destruct (Z.ltb_spec pc 0) as [|_]; [lia|]. destruct (Z.leb_spec (code_gen_ptr c) pc) as [|_]; [lia|]. cbn [orb].
  destruct (find_pc_loop_spec c pc (Datatypes.S (nb_tbs c)) 0 (Z.of_nat (nb_tbs c) - 1)) as (m & -> & H); try done; try lia. by exists m.
Qed.

Section Props.
Context {Code : Type} `{!Translator Code}.
Context (code_gen_buffer_max_size : Z) (cpu_list : list nat).

(** The invariant, for some lists of pages and of jumps, and right bitmaps. *)
Definition consistent (s : Machine Code) : Prop := exists lst inc, Inv cpu_list lst inc [] s /\ bitmaps_ok s.

(** An operation that keeps or removes blocks and keeps or drops bitmaps. *)
Lemma consistent_shrink s s' lst inc : consistent s -> Inv cpu_list lst inc [] s' -> bits_kept (pages s) (pages s') ->
  tbs (cache s') = tbs (cache s) -> (forall u, linked (cache s') u -> linked (cache s) u) -> consistent s'.
Proof. intros (_ & _ & _ & B) I K Ht Hl. exists lst, inc. split; [done|]. by apply (bitmaps_shrink s). Qed.

Definition same_mem (s s' : Machine Code) : Prop := mem s' = mem s.

Lemma check_range_loop_inv n : forall s addr f r s', consistent s -> in_u 32 addr ->
  check_range_loop cpu_list n s addr f = Some (r, s') -> consistent s' /\ same_mem s s'.
Proof.
  induction n as [|n IH]; intros s addr f r s' G Ha; cbn [check_range_loop]; [by intros [= _ <-]|].
  destruct (page_find _ _) as [p|] eqn:Ep; [|by intros [= _ <-]].
  destruct (_ =? 0); [by intros [= _ <-]|]. destruct (negb _ && _); [by intros [= _ <-]|]. destruct (negb _).
  - destruct (_ =? 0); [by intros [= _ <-]|]. destruct (_ =? 0); [|by intros [= _ <-]].
    pose proof G as (lst & inc & I & B). intros E. apply bind_Some in E as ([ok s1] & E1 & E). pose proof (page_unprotect_bits _ _ _ _ _ E1) as K.
    assert (s' = s1) as -> by (destruct ok; by injection E).
    destruct (page_unprotect_spec cpu_list lst inc s addr I Ha) as [(_ & _ & _ & s2 & lst' & inc' & E2 & I' & _ & U)|[(_ & _ & _ & E2)|(_ & E2)]];
      rewrite E1 in E2; injection E2 as -> ->.
    + split; [|exact (up_mem _ _ _ U)]. apply (consistent_shrink s s2 lst' inc'); try done; [apply U|]. intros u Hu. by apply U in Hu as [? _].
    + done.
    + done.
  - intros E. apply (IH s (uint32_t (addr + TARGET_PAGE_SIZE)) f r s' G); [cint|exact E].
Qed.

(** Asked about writing, [page_check_range] looks at the first page only: the answer is 0
    whatever the other pages of the range are. *)
Lemma page_check_range_first_page (s : Machine Code) start len p : 0 <= start -> 0 < len -> start + len <= 4294963200 ->
  page_find (pages s) (start / 4096) = Some p -> Z.land (flags p) PAGE_VALID <> 0 -> Z.land (flags p) PAGE_WRITE_ORG <> 0 ->
  Z.land (flags p) PAGE_WRITE <> 0 -> page_check_range cpu_list s start len PAGE_WRITE = Some (0, s).
Proof.
  intros Hs Hl He Ep Hv Ho Hw. unfold page_check_range. destruct (Z.eqb_spec len 0) as [|_]; [lia|].
  assert (uint32_t (start + len - 1) = start + len - 1) as -> by (apply uint_id; unfold in_u; change (2 ^ 32) with 4294967296; lia).
  destruct (Z.ltb_spec (start + len - 1) start) as [|_]; [lia|]. unfold TARGET_PAGE_ALIGN. change TARGET_PAGE_SIZE with 4096. rewrite !page_mask.
  destruct (Z.to_nat _) as [|n] eqn:En.
  { exfalso. clear - Hs Hl He En. assert (1 <= uint32_t (uint32_t (uint32_t (start + len) + 4096 - 1) - uint32_t (uint32_t (start + len) + 4096 - 1) mod 4096 -
      (start - start mod 4096)) / 4096) by cint. lia. }
  cbn [check_range_loop]. assert (Z.shiftr (start - start mod 4096) TARGET_PAGE_BITS = start / 4096) as ->
    by (rewrite page_shr; clear; Z.to_euclidean_division_equations; lia).
  rewrite Ep, (proj2 (Z.eqb_neq _ _) Hv), (proj2 (Z.eqb_neq _ _) Ho), (proj2 (Z.eqb_neq _ _) Hw). done.
Qed.

(** ** Steps *)

(** The last page of the address space is left out for stores (see TbPageFlags), and the
    whole address space for [page_set_flags], whose length then is 0. *)
Inductive step : Machine Code -> Machine Code -> Prop :=
| st_find s core pc cs fl t s' : guest_pc pc ->
    find_fast code_gen_buffer_max_size cpu_list s core pc cs fl = Some (t, s') -> step s s'
| st_store s a v ok s' : in_u 32 a -> a < 4294963200 -> guest_store_byte cpu_list s a v = Some (ok, s') -> step s s'
| st_set_flags s start last f s' : in_u 32 start -> in_u 32 last -> start < last -> ~ (start < 4096 /\ 4294963200 < last) ->
    page_set_flags cpu_list s start last f = Some s' -> step s s'
| st_check s start len f r s' : in_u 32 start -> page_check_range cpu_list s start len f = Some (r, s') -> step s s'
| st_range s start last w s' : 0 <= start < last -> last <= 4096 * (start / 4096 + 1) -> start < 4294963200 ->
    tb_invalidate_phys_page_range cpu_list s start last w = Some s' -> step s s'
| st_fast s start len s' : (len = 1 \/ len = 2 \/ len = 4 \/ len = 8) -> start mod len = 0 -> 0 <= start < 4294963200 ->
    tb_invalidate_phys_page_fast cpu_list s start len = Some s' -> step s s'
| st_page s addr s' : in_u 32 addr -> tb_invalidate_phys_page cpu_list s addr = Some s' -> step s s'
| st_jump s E tb n tb_next : linked (cache s) tb -> linked (cache s) tb_next -> (n < 2)%nat -> step s (add_jump E s tb n tb_next)
| st_unlink s tb s' : linked (cache s) tb -> cpu_unlink_tb s tb = Some s' -> step s s'
| st_flush s : step s (flush cpu_list s).

(** Before the first block: no block in the table, no list. *)
Record initial (s : Machine Code) : Prop := {
  in_nb : nb_tbs (cache s) = 0%nat;
  in_ptr : code_gen_ptr (cache s) = 0;
  in_hash : tb_phys_hash (cache s) = ∅;
  in_jmp : tb_jmp_cache (cache s) = ∅;
  in_first : forall i, first_of (pages s) i = None;
  in_bitmap : forall i p, page_find (pages s) i = Some p -> code_bitmap p = None
}.

Lemma initial_consistent s : initial s -> consistent s.
Proof.
  intros [H1 H2 H3 H4 H5 H6]. exists (fun _ => []), (fun _ => []). split; [|intros i p tab _ Hp Hb; by rewrite (H6 i p Hp) in Hb].
  assert (forall h, chain_of (cache s) h = []) as Hch by (intros h; unfold chain_of; by rewrite H3).
  assert (forall core, jmp_of (cache s) core = ∅) as Hj by (intros core; unfold jmp_of; by rewrite H4).
  assert (forall u, ~ linked (cache s) u) as Hl by (intros u (tb & _ & Hu); rewrite Hch in Hu; by apply not_elem_of_nil in Hu).
  split; try done.
  - split; [|intros core h t; by rewrite Hj|lia]. intros h. rewrite Hch. split; constructor.
  - intros core h t _. by rewrite Hj.
  - split; [intros i _; exact (H5 i)|set_solver|constructor].
  - intros i p Hi. split; [intros Hp; by apply not_elem_of_nil in Hp|]. intros [_ [Hx|Hx]]; [by apply Hl in Hx|by apply not_elem_of_nil in Hx].
  - by apply no_jumps.
  - intros u Hu. by apply Hl in Hu.
  - intros u Hu. by apply Hl in Hu.
  - split; rewrite ?H1, ?H2; intros; lia.
Qed.

Context (Hsize : code_gen_buffer_max_size <= 1073741824).

Lemma step_consistent s s' : consistent s -> step s s' -> consistent s'.
Proof.
  intros G Hs. pose proof G as (lst & inc & I & B). destruct Hs as [s core pc cs fl t s' Hpc E|s a v ok s' Ha Ht E|s start last f s' H1 H2 H3 H4 E|s start len f r s' H1 E|
    s start last w s' H1 H2 H3 E|s start len s' H1 H2 H3 E|s addr s' Ha E|s E tb n tb_next H1 H2 H3|s tb s' H1 E|s].
  - destruct (find_fast_inv _ _ Hsize lst inc s core pc cs fl t s' I Hpc E) as [(lst' & inc' & I') _]. exists lst', inc'. split; [done|].
    by apply (find_fast_bitmaps _ _ lst inc s core pc cs fl t s' I Hpc Hsize E).
  - destruct (guest_store_byte_spec cpu_list lst inc s a v I Ha Ht) as (ok' & s1 & lst' & inc' & E' & I' & _ & _ & _ & Htb & Hl & _).
    rewrite E in E'. injection E' as _ <-. apply (consistent_shrink s s' lst' inc'); try done. by apply guest_store_byte_bits in E.
  - destruct (page_set_flags_spec cpu_list lst inc s start last f I H1 H2 H3 H4) as (s1 & lst' & inc' & E' & I' & [Htb _ _ _ Hl]).
    rewrite E in E'. injection E' as <-. apply (consistent_shrink s s' lst' inc'); try done; [by apply page_set_flags_bits in E|].
    intros u Hu. by apply Hl in Hu as [? _].
  - unfold page_check_range in E. destruct (len =? 0); [by injection E as _ <-|]. destruct (_ <? _); [by injection E as _ <-|].
    apply check_range_loop_inv in E as [? _]; [done|done|]. rewrite page_mask. clear - H1. cint.
  - destruct (tb_invalidate_phys_page_range_spec cpu_list _ lst inc s start last w I H1 H2 H3) as (s1 & lst' & inc' & E' & I' & [U L]).
    rewrite E in E'. injection E' as <-. exists lst', inc'. split; [done|].
    eapply range_bitmaps; [exact I| |exact E|exact (un_tbs _ _ U)| |done]; [|intros u Hu; by apply L in Hu as [? _]].
    apply page_index_of. unfold in_u. change (2 ^ 32) with 4294967296. lia.
  - destruct (invalidate_fast_spec cpu_list _ lst inc s start len I B H1 H2 H3) as (s1 & lst' & inc' & E' & I' & B' & _).
    rewrite E in E'. injection E' as <-. by exists lst', inc'.
  - destruct (tb_invalidate_phys_page_spec cpu_list _ lst inc s addr _ I (page_index_of _ Ha) eq_refl) as (s1 & lst' & inc' & E' & I' & _ & [U L]).
    rewrite E in E'. injection E' as <-. apply (consistent_shrink s s' lst' inc'); try done; [by apply tb_invalidate_phys_page_bits in E|apply U|].
    intros u Hu. by apply L in Hu as [? _].
  - eexists _, _. split; [by apply add_jump_inv|by apply (bitmaps_same s)].
  - destruct (cpu_unlink_tb_inv cpu_list lst inc s tb I H1) as (s1 & inc' & E' & I' & Ec & _). rewrite E in E'. injection E' as <-. exists lst, inc'. split; [done|].
    apply (bitmaps_same s); rewrite ?Ec; try done. unfold cpu_unlink_tb in E. by apply bind_Some in E as (j & _ & [= <-]).
  - eexists _, _. split; [by eapply flush_inv|apply flush_bitmaps].
Qed.

Lemma reachable_consistent s0 s : initial s0 -> rtc step s0 s -> consistent s.
Proof. intros H0 Hr. apply initial_consistent in H0. induction Hr; [done|]. eauto using step_consistent. Qed.

(** Every direct jump leads back to the exit of its own block, or to a linked block with
    current code. *)
Definition jumps_current (s : Machine Code) : Prop := forall u n, linked (cache s) u -> (n < 2)%nat -> has_jump (jumps s) (u, n) ->
  jmp_dest (tc_of (cache s)) (jumps s) (u, n) = tc_of (cache s) u + next_offset (jumps s) (u, n) \/
  exists v, linked (cache s) v /\ jmp_dest (tc_of (cache s)) (jumps s) (u, n) = tc_of (cache s) v /\ code_ok s (mem s) v.

Lemma consistent_jumps s : consistent s -> jumps_current s.
Proof.
  intros (lst & inc & I & _) u n Hu Hn Hj. destruct (i_jumps _ _ _ _ _ _ I) as [W O].
  destruct (jmp_next (jumps s) !! (u, n)) as [c|] eqn:Ec; [|left; by apply O].
  destruct (jw_in _ _ _ _ W u n Hu Hn (ex_intro _ c Ec)) as (v & Hv & Hin). right. exists v. split; [done|].
  split; [by apply (jw_dest _ _ _ _ W v)|]. by apply (i_code _ _ _ _ _ _ I).
Qed.

(** Jump [n] of block [u] has been chained to block [v]. *)
Definition jumps_to (s : Machine Code) (u v : nat) : Prop := linked (cache s) v /\
  exists n, (n < 2)%nat /\ is_Some (jmp_next (jumps s) !! (u, n)) /\ jmp_dest (tc_of (cache s)) (jumps s) (u, n) = tc_of (cache s) v.

Lemma tc_of_inj lst inc s u v : Inv cpu_list lst inc [] s -> linked (cache s) u -> linked (cache s) v ->
  tc_of (cache s) u = tc_of (cache s) v -> u = v.
Proof.
  intros I Hu Hv E. destruct (linked_block _ _ _ (i_wf _ _ _ _ _ _ I) Hu) as (b & Hb & _ & _ & Hn & _).
  destruct (linked_block _ _ _ (i_wf _ _ _ _ _ _ I) Hv) as (b' & Hb' & _ & _ & Hn' & _). unfold tc_of in E. rewrite Hb, Hb' in E.
  pose proof (i_sorted _ _ _ _ _ _ I) as S. destruct (Nat.lt_total u v) as [H|[H|H]]; [|done|].
  - pose proof (ts_order _ S u v b b' ltac:(lia) Hb Hb'). lia.
  - pose proof (ts_order _ S v u b' b ltac:(lia) Hb' Hb). lia.
Qed.

Lemma jumps_to_edges lst inc s u v : Inv cpu_list lst inc [] s -> linked (cache s) u -> rtc (jumps_to s) u v ->
  linked (cache s) v /\ rtc (edge (linked (cache s)) inc) u v.
Proof.
  intros I Hu Hr. revert Hu. induction Hr as [u|u w v (Hw & n & Hn & Hs & Hd) Hr IH]; intros Hu; [done|].
  destruct (IH Hw) as [Hv He]. split; [done|]. eapply rtc_l; [|exact He]. destruct (i_jumps _ _ _ _ _ _ I) as [W _].
  destruct (jw_in _ _ _ _ W u n Hu Hn Hs) as (x & Hx & Hin). pose proof (jw_dest _ _ _ _ W x (u, n) Hx Hin) as Ex.
  assert (x = w) as -> by (apply (tc_of_inj lst inc s x w I Hx Hw); congruence). split; [done|by exists n].
Qed.

(** ** Properties *)

(** C3: After any sequence of lookups, stores of the guest, changes of page flags, checks of
    address ranges, invalidations, chained and unchained jumps and flushes, a lookup on a CPU
    of the list returns, does to the tables what [tb_find_fast] of TbCache does, and gives a
    linked block whose host code is the translation of the current guest memory at the
    requested pc, cs_base and flags; the other blocks are kept, or the buffer has been flushed
    ([found_for]), and the same lookup again is a hit that changes nothing.  Every direct
    jump between blocks leads to the exit of its own block or to a linked block with current
    code.

    All lookups, this one and those of the sequence, are at a pc below 0xffff0000
    ([guest_pc]), where the translator guarantees a block of at least one byte; at or above
    it the translator ends the block before the first instruction and the block has size
    zero ([magic_page_second]).  Stores and invalidations of the sequence are below the last
    page of the address space, no change of page flags covers the whole of it, and there is
    room for one block. *)
Theorem smc_coherent s0 s core pc cs fl : initial s0 -> rtc step s0 s -> core ∈ cpu_list -> guest_pc pc ->
  (0 < length (tbs (cache s)))%nat -> 0 < code_gen_buffer_max_size ->
  exists t s', find_fast code_gen_buffer_max_size cpu_list s core pc cs fl = Some (t, s') /\
    @tb_find_fast (gen_at (mem s)) code_gen_buffer_max_size cpu_list (cache s) core pc cs fl = Some (t, cache s') /\
    found_for cpu_list (cache s) (cache s') t (pc, cs, fl) /\ mem s' = mem s /\
    tb_code s' !! t = Some (translate (mem s) pc cs fl 0).1.1 /\ jumps_current s' /\
    find_fast code_gen_buffer_max_size cpu_list s' core pc cs fl = Some (t, s').
Proof.
  intros H0 Hr Hc Hpc Hlen Hmax. pose proof (reachable_consistent s0 s H0 Hr) as (lst & inc & I & B).
  destruct (find_fast_total _ cpu_list lst inc s core pc cs fl I Hpc Hlen Hmax) as [[t s'] E].
  destruct (find_fast_inv _ cpu_list Hsize lst inc s core pc cs fl t s' I Hpc E) as ((lst' & inc' & I') & Em & Hf & Er). destruct (Hf Hc) as [Hl Hk].
  destruct (@tb_find_fast_correct (gen_at (mem s)) _ cpu_list (cache s) core pc cs fl (i_wf _ _ _ _ _ _ I) Hc Hpc Hlen Hmax) as (t1 & c1 & Er' & F & H2).
  rewrite Er in Er'. injection Er' as <- <-. exists t, s'. do 4 (split; [done|]). split; [|split].
  - destruct (i_code _ _ _ _ _ _ I' t Hl) as (tb & Htb & _ & Hcode & _). unfold key_of in Hk. rewrite Htb in Hk.
    injection Hk as <- <- <-. by rewrite <- Em.
  - apply consistent_jumps. exists lst', inc'. split; [done|]. by apply (find_fast_bitmaps _ _ lst inc s core pc cs fl t s' I Hpc Hsize E).
  - unfold find_fast. by rewrite H2.
Qed.

(** C4: [tb_phys_invalidate] of a linked block returns.  Afterwards the block is in no hash
    chain, on no page list and in no jump cache of a listed CPU; every direct jump to it leads
    to the exit of its own block again, and all other jumps, blocks, flags, code and memory
    are as before. *)
Theorem tb_phys_invalidate_correct s t : consistent s -> linked (cache s) t ->
  exists s', tb_phys_invalidate cpu_list s t NO_PAGE = Some s' /\ consistent s' /\ untouched s s' /\
    (forall u, linked (cache s') u <-> linked (cache s) u /\ u <> t) /\
    (forall core h, core ∈ cpu_list -> jmp_of (cache s') core !! h <> Some t) /\
    (forall u n, u <> t ->
       let dest := jmp_dest (tc_of (cache s)) in
       dest (jumps s') (u, n) = dest (jumps s) (u, n) \/
       dest (jumps s) (u, n) = tc_of (cache s) t /\ dest (jumps s') (u, n) = tc_of (cache s) u + next_offset (jumps s) (u, n)).
Proof.
  intros G Ht. pose proof G as (lst & inc & I & B). assert (exists b, tbs (cache s) !! t = Some b) as [b Hb] by (destruct Ht as (b & ? & _); by exists b).
  destruct (tb_phys_invalidate_spec cpu_list _ lst inc [] s I t Ht b Hb NO_PAGE) as (s' & E & [I' U L J D]).
  destruct (block_facts cpu_list _ lst inc [] s I t Ht b Hb) as (_ & _ & _ & Hn0 & _).
  assert (add_dead t b NO_PAGE [] = []) as Hd by (unfold add_dead; by rewrite (proj2 (Z.eqb_neq _ _) Hn0)).
  rewrite Hd in I'. exists s'. split; [done|]. split.
  { apply (consistent_shrink s s' _ _ G I'); [by apply tb_phys_invalidate_bits in E|apply U|]. intros u Hu. by apply L in Hu as [? _]. }
  split; [done|]. split; [done|]. split; [done|]. intros u n Hu dest. unfold dest. rewrite (D (u, n) Hu). case_decide as Hin; [right|by left]. split; [|done].
  by apply (jw_dest _ _ _ _ (jw_rings _ _ _ _ (i_jumps _ _ _ _ _ _ I)) t).
Qed.

(** C5: The fast path is equivalent to the walk over the list: for an aligned access of 1,
    2, 4 or 8 bytes [tb_invalidate_phys_page_fast], which looks at the bitmap of the page
    first, removes exactly the blocks that [tb_invalidate_phys_page_range] removes, those
    translated from one of the bytes. *)
Theorem invalidate_fast_equiv s start len : consistent s -> (len = 1 \/ len = 2 \/ len = 4 \/ len = 8) -> start mod len = 0 -> 0 <= start < 4294963200 ->
  exists s1 s2, tb_invalidate_phys_page_fast cpu_list s start len = Some s1 /\
    tb_invalidate_phys_page_range cpu_list s start (start + len) true = Some s2 /\ consistent s1 /\ untouched s s1 /\
    (forall u, linked (cache s1) u <-> linked (cache s2) u) /\
    forall u, linked (cache s1) u <-> linked (cache s) u /\ ~ exists x, start <= x < start + len /\ covers (cache s) u x.
Proof.
  intros (lst & inc & I & B) H1 H2 H3. destruct (invalidate_fast_spec cpu_list _ lst inc s start len I B H1 H2 H3) as (s1 & lst' & inc' & E1 & I' & B' & [U L]).
  destruct (tb_invalidate_phys_page_range_spec cpu_list _ lst inc s start (start + len) true I) as (s2 & _ & _ & E2 & _ & [_ L2]); [lia| |lia|].
  { destruct H1 as [->|[->|[->| ->]]]; clear - H2 H3; Z.to_euclidean_division_equations; lia. }
  exists s1, s2. split; [done|]. split; [done|]. split; [by exists lst', inc'|]. split; [done|]. split; [|done]. intros u. by rewrite L, L2.
Qed.

(** C6: A store of the guest below the last page of the address space returns.  It is let
    through exactly if the page is mapped writable, changes that byte of memory and nothing
    else of it, and afterwards no block is left that was translated from that byte. *)
Theorem guest_store_correct s a v : consistent s -> in_u 32 a -> a < 4294963200 ->
  exists ok s', guest_store_byte cpu_list s a v = Some (ok, s') /\ consistent s' /\
    (ok = true <-> writable (flags_at (pages s) (a / 4096)) \/ write_org (flags_at (pages s) (a / 4096))) /\
    (forall x, mem s' x = if ok && (x =? a) then v else mem s x) /\
    (forall u, linked (cache s') u -> linked (cache s) u) /\
    (ok = true -> forall u, linked (cache s') u -> ~ covers (cache s') u a).
Proof.
  intros G Ha Ht. pose proof G as (lst & inc & I & B).
  destruct (guest_store_byte_spec cpu_list lst inc s a v I Ha Ht) as (ok & s' & lst' & inc' & E & I' & Hok & Hm & _ & Htb & Hl & Hw).
  exists ok, s'. split; [done|]. split; [apply (consistent_shrink s s' lst' inc'); try done; by apply guest_store_byte_bits in E|]. split; [done|]. split; [|split; [done|]].
  - intros x. rewrite Hm. destruct ok; [|done]. unfold mem_store. cbn. done.
  - intros -> u Hu Hcov. destruct (covers_on_page _ _ _ _ _ _ _ _ I' Hu Hcov) as [n Hn].
    pose proof (page_index_of a Ha) as Hi. assert ((u, n) ∈ lst' (a / 4096)) as Hx by (apply (i_lst _ _ _ _ _ _ I' _ _ Hi); split; [done|by left]).
    rewrite (writable_empty cpu_list lst' inc' s' _ I' Hi (Hw eq_refl)) in Hx. by apply not_elem_of_nil in Hx.
Qed.

(** C7: [cpu_unlink_tb], with which another thread stops a CPU, returns, and afterwards no
    direct jump leaves any block that the running block could reach by direct jumps: each of
    their jumps leads to the exit of its own block. *)
Theorem cpu_unlink_tb_quiet s tb : consistent s -> linked (cache s) tb ->
  exists s', cpu_unlink_tb s tb = Some s' /\ consistent s' /\ cache s' = cache s /\ mem s' = mem s /\
    forall u, rtc (jumps_to s) tb u -> forall n, (n < 2)%nat -> has_jump (jumps s') (u, n) ->
      jmp_dest (tc_of (cache s)) (jumps s') (u, n) = tc_of (cache s) u + next_offset (jumps s') (u, n).
Proof.
  intros (lst & inc & I & B) Ht. destruct (cpu_unlink_tb_inv cpu_list lst inc s tb I Ht) as (s' & inc' & E & I' & Ec & Em & _ & Hq).
  exists s'. split; [done|]. split.
  { exists lst, inc'. split; [done|]. apply (bitmaps_same s); rewrite ?Ec; try done. unfold cpu_unlink_tb in E. by apply bind_Some in E as (j & _ & [= <-]). }
   split; [done|]. split; [done|]. intros u Hr n Hn Hj.
  destruct (jumps_to_edges lst inc s tb u I Ht Hr) as [Hu He]. destruct (i_jumps _ _ _ _ _ _ I') as [W O]. rewrite Ec in W, O.
  apply O; try done. destruct (jmp_next (jumps s') !! (u, n)) as [c|] eqn:Ex; [|done].
  destruct (jw_in _ _ _ _ W u n Hu Hn (ex_intro _ c Ex)) as (v & Hv & Hin). by destruct (Hq u He v n Hv).
Qed.

(** [tb_find_pc] is total on the states that are reached: a host address outside of the
    used part of the code buffer gives NULL, and an address inside gives the block whose code
    it is in: the search ends at the last block that starts at or before the address. *)
Lemma tb_find_pc_correct s pc : consistent s ->
  (0 <= pc < code_gen_ptr (cache s) -> exists m, tb_find_pc (cache s) pc = Some (Some m) /\ code_at (cache s) pc m) /\
  (~ 0 <= pc < code_gen_ptr (cache s) -> tb_find_pc (cache s) pc = Some None).
Proof.
  intros (lst & inc & I & _). split; intros Hpc.
  - apply find_pc_spec; [exact (i_sorted _ _ _ _ _ _ I)|exact (wf_nb _ _ (i_wf _ _ _ _ _ _ I))|done].
  - unfold tb_find_pc. destruct (_ =? _)%nat; [done|]. destruct (Z.ltb_spec pc 0); [done|].
    destruct (Z.leb_spec (code_gen_ptr (cache s)) pc); [done|lia].
Qed.

End Props.

(** ** Witnesses

    A translator whose code is the four bytes of an instruction, with two jumps. *)

Module Witness.

Definition w_translate (m : Z -> Z) (pc cs f cf : Z) : list Z * Generated * (nat -> Z * Z) :=
  (if pc <? MAGIC_PAGE then (fun k => m (uint32_t (pc + k))) <$> [0; 1; 2; 3] else [],
   mkGenerated (if pc <? MAGIC_PAGE then 4 else 0) (uint32_t (pc + 4)) 1 40,
   fun n => match n with O => (10, 6) | _ => (20, 16) end).

#[local] Instance w_translator : Translator (list Z).
Proof.
  refine {| translate := w_translate |}.
  - intros m pc cs f cf [_ H]. cbn. rewrite (proj2 (Z.ltb_lt _ _) H). change TARGET_PAGE_SIZE with 4096. lia.
  - intros. cbn. lia.
  - intros m pc cs f cf [|n]; cbn; lia.
  - intros m m' pc cs f cf H. cbn in H. unfold w_translate. destruct (pc <? MAGIC_PAGE); [|done].
    cbn [fmap list_fmap]. rewrite (H 0), (H 1), (H 2), (H 3) by lia. done.
Defined.

Definition w_s0 : Machine (list Z) := mkMachine w_cache (mkPages ∅ ∅) (mkJumps ∅ ∅ ∅ ∅ ∅) ∅ (fun _ => 0) 0.

(** Two pages are mapped, two blocks translated and chained, and the first one is
    overwritten. *)
Definition w_s1 : Machine (list Z) := default w_s0 (page_set_flags [0%nat] w_s0 32768 40960 7).
Definition w_s2 : Machine (list Z) := default w_s0 (snd <$> find_fast 1000 [0%nat] w_s1 0 32768 0 1).
Definition w_s3 : Machine (list Z) := default w_s0 (snd <$> find_fast 1000 [0%nat] w_s2 0 36862 0 1).
Definition w_s4 : Machine (list Z) := add_jump false w_s3 0 0 1.
Definition w_s5 : Machine (list Z) := default w_s0 (snd <$> guest_store_byte [0%nat] w_s4 32769 5).

Lemma w_initial : initial w_s0.
Proof. split; try reflexivity; intros i p Hp; by unfold page_find in Hp; cbn in Hp; rewrite lookup_empty in Hp. Qed.

Lemma w_find s pc : match find_fast 1000 [0%nat] s 0 pc 0 1 with Some _ => true | None => false end = true -> guest_pc pc ->
  step 1000 [0%nat] s (default w_s0 (snd <$> find_fast 1000 [0%nat] s 0 pc 0 1)).
Proof. intros E Hp. destruct (find_fast _ _ _ _ _ _ _) as [[t s']|] eqn:Ef; [|done]. by apply (st_find _ _ s 0 pc 0 1 t). Qed.

Lemma w_step1 : step 1000 [0%nat] w_s0 w_s1.
Proof. apply (st_set_flags _ _ w_s0 32768 40960 7); [cint|cint|lia|lia|]. vm_compute. reflexivity. Qed.

Ltac w_linked := eexists; split; [vm_compute; reflexivity|]; vm_compute; apply list_elem_of_here.

Lemma w_linked0 : linked (cache w_s3) 0.
Proof. w_linked. Qed.
Lemma w_linked1 : linked (cache w_s3) 1.
Proof. w_linked. Qed.
Lemma w_chained0 : linked (cache w_s4) 0.
Proof. w_linked. Qed.
Lemma w_chained1 : linked (cache w_s4) 1.
Proof. w_linked. Qed.

Lemma w_step2 : step 1000 [0%nat] w_s1 w_s2.
Proof. apply (w_find w_s1 32768); [vm_compute; reflexivity|split; [cint|reflexivity]]. Qed.

Lemma w_step3 : step 1000 [0%nat] w_s2 w_s3.
Proof. apply (w_find w_s2 36862); [vm_compute; reflexivity|split; [cint|reflexivity]]. Qed.

Lemma w_step4 : step 1000 [0%nat] w_s3 w_s4.
Proof. apply (st_jump _ _ w_s3 false 0 0 1); [exact w_linked0|exact w_linked1|lia]. Qed.

Lemma w_reach4 : rtc (step 1000 [0%nat]) w_s0 w_s4.
Proof.
  eapply rtc_l; [exact w_step1|]. eapply rtc_l; [exact w_step2|]. eapply rtc_l; [exact w_step3|]. apply rtc_once. exact w_step4.
Qed.

Lemma w_store : exists s', guest_store_byte [0%nat] w_s4 32769 5 = Some (true, s').
Proof. eexists. vm_compute. reflexivity. Qed.

Lemma w_consistent : consistent [0%nat] w_s4.
Proof. apply (reachable_consistent 1000 [0%nat] ltac:(lia) w_s0); [exact w_initial|exact w_reach4]. Qed.

Lemma smc_coherent_witness : exists t s', find_fast 1000 [0%nat] w_s5 0 32768 0 1 = Some (t, s') /\ tb_code s' !! t = Some [0; 5; 0; 0].
Proof.
  destruct (smc_coherent 1000 [0%nat] ltac:(lia) w_s0 w_s5 0 32768 0 1) as (t & s' & E & _ & _ & _ & C & _).
  - exact w_initial.
  - eapply rtc_r; [exact w_reach4|]. destruct w_store as [s' E]. unfold w_s5. rewrite E. apply (st_store _ _ w_s4 32769 5 true); [cint|lia|exact E].
  - set_solver.
  - split; [cint|reflexivity].
  - vm_compute. lia.
  - lia.
  - exists t, s'. split; [exact E|]. rewrite C. vm_compute. reflexivity.
Defined.

Lemma tb_phys_invalidate_correct_witness : exists s', tb_phys_invalidate [0%nat] w_s4 1 NO_PAGE = Some s' /\ ~ linked (cache s') 1.
Proof.
  destruct (tb_phys_invalidate_correct [0%nat] w_s4 1 w_consistent) as (s' & E & _ & _ & L & _).
  - exact w_chained1.
  - exists s'. split; [exact E|]. rewrite L. tauto.
Defined.

Lemma invalidate_fast_equiv_witness : exists s', tb_invalidate_phys_page_fast [0%nat] w_s4 32768 4 = Some s' /\ ~ linked (cache s') 0.
Proof.
  destruct (invalidate_fast_equiv [0%nat] w_s4 32768 4 w_consistent) as (s1 & s2 & E & _ & _ & _ & _ & L); [tauto|reflexivity|lia|].
  exists s1. split; [exact E|]. rewrite L. intros [_ H]. apply H. exists 32768. split; [lia|].
  eexists _, 0. split; [vm_compute; reflexivity|]. split; [vm_compute; split; congruence|reflexivity].
Defined.

Lemma guest_store_correct_witness : exists ok s', guest_store_byte [0%nat] w_s4 32769 5 = Some (ok, s') /\ consistent [0%nat] s'.
Proof.
  destruct (guest_store_correct [0%nat] w_s4 32769 5 w_consistent) as (ok & s' & E & C & _); [cint|lia|].
  exists ok, s'. split; [exact E|exact C].
Defined.

Lemma cpu_unlink_tb_quiet_witness : exists s', cpu_unlink_tb w_s4 0 = Some s' /\ consistent [0%nat] s'.
Proof.
  destruct (cpu_unlink_tb_quiet [0%nat] w_s4 0 w_consistent) as (s' & E & C & _); [exact w_chained0|].
  exists s'. split; [exact E|exact C].
Defined.

Lemma tb_find_pc_correct_witness : exists m, tb_find_pc (cache w_s4) 50 = Some (Some m) /\ code_at (cache w_s4) 50 m.
Proof.
  apply (proj1 (tb_find_pc_correct [0%nat] w_s4 50 w_consistent)). vm_compute. split; congruence.
Defined.

End Witness.
