(* ===== verification/GuestExec.v ===== *)
(** * Execution of translated code on the main and on the prefetch core

    The code of a translated block is produced at run time, so it is a value of
    the model: a tree of the effects the generated instructions have.  What the
    back end emits for a guest access (src/emul/qemu/tcg/i386/tcg-target.c,
    [tcg_out_qemu_ld_direct], [tcg_out_qemu_st_direct] and the [_shadow]
    variants, 64-bit host, [GUEST_BASE] 0) is modelled here: a test of
    [env->IsPCore] selects a direct access to guest memory or a call into the
    shadow buffer of ShadowMem.

    On a 64-bit host the eight-byte store emits the test and then only the
    direct store: the displacement byte of the branch is never written, and is
    whatever the code buffer held.  Where that is zero, as in fresh memory, the
    prefetch core falls through to the direct store and writes guest memory;
    otherwise it jumps to an arbitrary place, which has no result here.

    Guest pages may be unmapped.  [readable] and [writable] say which addresses
    the guest may access (a page that the emulator write-protects because it
    holds translated code counts as writable: [page_unprotect] makes the access
    succeed).  Any other access raises a host signal: the outcome [Fault] with the
    address and, for an access made by the generated code itself, the place in
    the block that [cpu_restore_state] finds. *)

From S2P Require Import Prelude ShadowMem TraceExpand.
Open Scope Z_scope.

Definition Memory : Type := Z -> Z.

(** The byte [i] of the little-endian access at [a]; a direct access is host
    pointer arithmetic and does not wrap. *)
Definition mem_read (mem : Memory) (a n : Z) : list Z :=
  (fun i => uint8_t (mem (a + Z.of_nat i))) <$> seq 0 (Z.to_nat n).

Definition mem_write (mem : Memory) (a : Z) (data : list Z) : Memory :=
  fun p => if (a <=? p) && (p <? a + Z.of_nat (length data))
           then uint8_t (default 0 (data !! Z.to_nat (p - a))) else mem p.

(** The stores [tcg_out_qemu_st_shadow] emits before the call. *)
Definition request_store (s : Shadow) (a : Z) (data : list Z) : Shadow :=
  mkShadow (sbytes s) (sbytes_size s) (Z.of_nat (length data)) (ld_size s) (uint32_t a)
    (ld_linear s) ((uint8_t <$> data) ++ drop (length data) (st_databytes s))
    (ld_databytes s) (blinear s) (bdata s).

(** The addresses of an access, and the first one that is not accessible, with
    its index. *)
Definition bytes_at (a n : Z) : list Z := (fun i => a + Z.of_nat i) <$> seq 0 (Z.to_nat n).

Fixpoint first_fault (ok : Z -> bool) (l : list Z) (i : nat) : option (nat * Z) :=
  match l with
  | [] => None
  | p :: l' => if ok p then first_fault ok l' (S i) else Some (i, p)
  end.

Inductive LoadResult :=
  | LdOk (d : list Z) (s : Shadow) (r : PrefetchRing)
  | LdFault (p : Z) (s : Shadow).

Inductive StoreResult :=
  | StOk (m : Memory) (s : Shadow)
  | StFault (p : Z).

(** What [gen_opc_pc] and [gen_opc_condexec_bits] hold for a place in a block. *)
Record Site := mkSite { gen_opc_pc : Z; gen_opc_condexec_bits : Z }.

Section Access.
Context (runAheadThreshold : Z) (readable writable : Z -> bool).

(** The shadow load dereferences the guest address of every byte that is not in
    the buffer; the bytes before the one that faults have been copied. *)
Definition shadow_readable (s : Shadow) (p : Z) : bool :=
  match shadow_byte s p with Some _ => true | None => readable p end.

Definition guest_load (IsPCore : bool) (mem : Memory) (s : Shadow) (r : PrefetchRing)
    (a n : Z) : option LoadResult :=
  if IsPCore then
    let s1 := request_load s (uint32_t a) n in
    match first_fault (shadow_readable s1) (uint32_t <$> bytes_at (uint32_t a) n) 0 with
    | Some (i, p) => Some (LdFault p (shadow_load_bytes mem 0 i s1))
    | None =>
        '(s', r') ← esesc_shadow_load_process true mem runAheadThreshold s1 r;
        Some (LdOk (take (Z.to_nat n) (ld_databytes s')) s' r')
    end
  else
    match first_fault readable (bytes_at a n) 0 with
    | Some (_, p) => Some (LdFault p s)
    | None => Some (LdOk (mem_read mem a n) s r)
    end.

Definition store_direct (mem : Memory) (s : Shadow) (a : Z) (data : list Z) : StoreResult :=
  match first_fault writable (bytes_at a (Z.of_nat (length data))) 0 with
  | Some (_, p) => StFault p
  | None => StOk (mem_write mem a data) s
  end.

(** [disp] is the displacement byte of the branch to the shadow store that an
    eight-byte store leaves unwritten. *)
Definition guest_store (IsPCore : bool) (disp : Z) (mem : Memory) (s : Shadow) (a : Z)
    (data : list Z) : option StoreResult :=
  if IsPCore then
    if (length data =? 8)%nat then
      if disp =? 0 then Some (store_direct mem s a data) else None
    else s' ← esesc_shadow_store_process true (request_store s a data); Some (StOk mem s')
  else Some (store_direct mem s a data).
End Access.

(** ** Blocks *)

Section Run.
Context {Arch : Type}.

(** The effects of a block: guest accesses, the trace records it leaves, and
    how it ends.  An access carries the registers as the generated code has saved
    them when it is made, and its place in the block. *)
Inductive Code :=
  | Exit (a : Arch)
  | Raise (a : Arch) (exception_index : Z)
  | Load (pre : Arch) (site : Site) (addr n : Z) (k : list Z -> Code)
  | Store (pre : Arch) (site : Site) (disp : Z) (addr : Z) (data : list Z) (k : Code)
  | Insn (k : Code)
  | Tp (f : CPUTracePoint -> CPUTracePoint) (k : Code).

(** [Fault a p site]: a host signal for address [p], the core's registers being
    [a]; [site] is the place in the block if the host pc is in the block. *)
Inductive Outcome :=
  | Done (a : Arch)
  | Excp (a : Arch) (exception_index : Z)
  | Fault (a : Arch) (p : Z) (site : option Site).

(** What a block changes besides the registers. *)
Record ExecState := mkExec {
  x_mem : Memory;
  x_shadow : Shadow;
  x_ring : PrefetchRing;
  x_tps : list CPUTracePoint;
  x_cnt : Z
}.

Definition set_mem_shadow (x : ExecState) (m : Memory) (s : Shadow) : ExecState :=
  mkExec m s (x_ring x) (x_tps x) (x_cnt x).
Definition set_shadow_ring (x : ExecState) (s : Shadow) (r : PrefetchRing) : ExecState :=
  mkExec (x_mem x) s r (x_tps x) (x_cnt x).
Definition set_cnt (x : ExecState) (n : Z) : ExecState :=
  mkExec (x_mem x) (x_shadow x) (x_ring x) (x_tps x) n.
Definition set_tps (x : ExecState) (t : list CPUTracePoint) : ExecState :=
  mkExec (x_mem x) (x_shadow x) (x_ring x) t (x_cnt x).

Context (runAheadThreshold : Z) (readable writable : Z -> bool).
#[local] Abbreviation guest_load := (guest_load runAheadThreshold readable).
#[local] Abbreviation guest_store := (guest_store writable).

(** A shadow load runs in a helper, every other access in the block. *)
Fixpoint tcg_qemu_tb_exec (IsPCore : bool) (c : Code) (x : ExecState)
    : option (Outcome * ExecState) :=
  match c with
  | Exit a => Some (Done a, x)
  | Raise a e => Some (Excp a e, x)
  | Load pre site addr n k =>
      res ← guest_load IsPCore (x_mem x) (x_shadow x) (x_ring x) addr n;
      match res with
      | LdOk d s r => tcg_qemu_tb_exec IsPCore (k d) (set_shadow_ring x s r)
      | LdFault p s =>
          Some (Fault pre p (if IsPCore then None else Some site),
                set_shadow_ring x s (x_ring x))
      end
  | Store pre site disp addr data k =>
      res ← guest_store IsPCore disp (x_mem x) (x_shadow x) addr data;
      match res with
      | StOk m s => tcg_qemu_tb_exec IsPCore k (set_mem_shadow x m s)
      | StFault p => Some (Fault pre p (Some site), x)
      end
  | Insn k => tcg_qemu_tb_exec IsPCore k (set_cnt x (uint32_t (x_cnt x + 1)))
  | Tp f k =>
      tp ← x_tps x !! Z.to_nat (x_cnt x);
      tcg_qemu_tb_exec IsPCore k (set_tps x (<[Z.to_nat (x_cnt x) := f tp]> (x_tps x)))
  end.

(** ** What the prefetch core sees *)

(** Guest memory with the shadow bytes laid over it. *)
Definition pview (mem : Memory) (s : Shadow) : Memory :=
  fun p => default (mem p) (shadow_byte s p).

(** Two memories that hold the same bytes at the guest's non-null addresses. *)
Definition mem_agree (m1 m2 : Memory) : Prop :=
  forall p, 0 < p < 2 ^ 32 -> uint8_t (m1 p) = uint8_t (m2 p).

#[export] Instance mem_agree_equiv : Equivalence mem_agree.
Proof.
  split; unfold mem_agree.
  - done.
  - intros m1 m2 H p Hp. by rewrite H.
  - intros m1 m2 m3 H1 H2 p Hp. by rewrite H1, H2.
Qed.

(** An access that stays within the non-null guest addresses. *)
Definition access_ok (a n : Z) : Prop := 0 < a /\ 1 <= n <= 8 /\ a + n <= 2 ^ 32.

#[export] Instance mem_read_proper a n : access_ok a n ->
  Proper (mem_agree ==> eq) (fun m => mem_read m a n).
Proof.
  intros (Ha & Hn & Hr) m1 m2 H. unfold mem_read.
  apply list_fmap_ext. intros i j Hj. apply lookup_seq in Hj as [-> Hlt].
  apply H. lia.
Qed.

#[export] Instance mem_write_proper :
  Proper (mem_agree ==> eq ==> eq ==> mem_agree) mem_write.
Proof.
  intros m1 m2 H a ? <- d ? <- p Hp. unfold mem_write.
  destruct (_ && _); [done|]. by apply H.
Qed.

Definition shadow_wf (s : Shadow) : Prop :=
  length (st_databytes s) = 8%nat /\ length (ld_databytes s) = 8%nat.

Lemma first_fault_None ok l i : first_fault ok l i = None <-> Forall (fun p => ok p = true) l.
Proof.
  revert i. induction l as [|p l IH]; intros i; cbn [first_fault]; [by split|].
  rewrite Forall_cons. destruct (ok p); [rewrite IH; naive_solver|]. by split; [|intros []].
Qed.

(** Every byte of the access satisfies [ok]. *)
Definition bytes_ok (ok : Z -> bool) (a n : Z) : bool := forallb ok (bytes_at a n).

Lemma bytes_ok_in ok a n p : bytes_ok ok a n = true -> a <= p < a + n -> ok p = true.
Proof.
  intros H Hp. unfold bytes_ok, bytes_at in H. rewrite forallb_forall in H. apply H.
  apply list_elem_of_In, list_elem_of_fmap. exists (Z.to_nat (p - a)).
  split; [lia|]. apply elem_of_seq. lia.
Qed.

Lemma bytes_at_range a n p : p ∈ bytes_at a n -> a <= p < a + n.
Proof. unfold bytes_at. intros (i & -> & Hi)%list_elem_of_fmap. apply elem_of_seq in Hi. lia. Qed.

Lemma bytes_ok_fault ok a n i : bytes_ok ok a n = true -> first_fault ok (bytes_at a n) i = None.
Proof.
  intros H. apply first_fault_None, Forall_forall. intros p Hp.
  apply (bytes_ok_in ok a n p H), bytes_at_range, Hp.
Qed.

(** An access in range to mapped bytes does not fault on the prefetch core. *)
Lemma shadow_no_fault s a n : access_ok a n -> bytes_ok readable a n = true ->
  first_fault (shadow_readable readable s) (uint32_t <$> bytes_at (uint32_t a) n) 0 = None.
Proof.
  intros (Ha & Hn & Hr) H. apply first_fault_None, Forall_fmap, Forall_forall. intros p Hp.
  assert (uint32_t a = a) as Hu by cint. rewrite Hu in Hp. apply bytes_at_range in Hp.
  assert (uint32_t p = p) as Hup by cint. cbn. rewrite Hup. unfold shadow_readable.
  destruct (shadow_byte s p); [done|]. by apply (bytes_ok_in _ a n).
Qed.

(** A shadow load returns the bytes of the overlaid memory and leaves the table
    alone. *)
Lemma pcore_load_spec mem s r a n : runAheadThreshold <> 0 -> shadow_wf s -> access_ok a n ->
  bytes_ok readable a n = true ->
  exists s' r', guest_load true mem s r a n = Some (LdOk (mem_read (pview mem s) a n) s' r') /\
    shadow_wf s' /\ sbytes s' = sbytes s.
Proof.
  intros Ht (Hst & Hld) Hacc Hmap. unfold GuestExec.guest_load. cbn zeta.
  rewrite (shadow_no_fault _ a n Hacc Hmap). destruct Hacc as (Ha & Hn & Hr).
  assert (forall i, 0 <= i < n -> uint32_t (uint32_t a + i) = a + i) as Hu by (intros; cint).
  unfold esesc_shadow_load_process, ring_push. cbn [negb].
  cbn [ld_databytes request_load ld_size]. rewrite Hld.
  destruct (Z.ltb_spec (Z.of_nat 8) n); [lia|].
  destruct (Z.eqb_spec runAheadThreshold 0); [done|]. cbn [mbind option_bind].
  destruct (shadow_load_bytes_spec mem (Z.to_nat n) 0 (request_load s (uint32_t a) n))
    as (H1 & H2 & H3 & H4 & H5); [cbn; lia|].
  eexists _, _. split; [|split].
  - f_equal. f_equal. apply list_eq. intros j. unfold mem_read.
    rewrite list_lookup_fmap.
    destruct (decide (j < Z.to_nat n)%nat) as [Hj|Hj].
    + rewrite lookup_take_lt, lookup_seq_lt, H5 by done. case_decide; [|lia].
      cbn. f_equal. unfold view_byte. by rewrite Hu by lia.
    + rewrite lookup_take_ge by lia. rewrite lookup_seq_ge by lia. done.
  - split; [by rewrite shadow_load_bytes_st|by rewrite H4].
  - done.
Qed.

(** A shadow store updates the overlaid memory as a direct store would. *)
Lemma pcore_store_spec disp mem s a data : shadow_wf s ->
  access_ok a (Z.of_nat (length data)) -> length data <> 8%nat ->
  exists s', guest_store true disp mem s a data = Some (StOk mem s') /\ shadow_wf s' /\
    mem_agree (pview mem s') (mem_write (pview mem s) a data).
Proof.
  intros (Hst & Hld) (Ha & Hn & Hr) H8. unfold GuestExec.guest_store, esesc_shadow_store_process.
  destruct (Nat.eqb_spec (length data) 8); [done|]. cbn [negb].
  assert (length (st_databytes (request_store s a data)) = 8%nat) as Hlen.
  { cbn. rewrite length_app, length_fmap, length_drop. lia. }
  cbn [st_size request_store]. rewrite Nat2Z.id.
  destruct (shadow_store_bytes_spec (length data) 0 (request_store s a data))
    as (s' & E & Hsame & Hb); [rewrite Hlen; lia|lia|].
  rewrite E. cbn [mbind option_bind]. exists s'. split; [done|].
  destruct Hsame as (_ & Hd & _ & _ & _ & Hl). split.
  { split; [by rewrite Hd|]. by rewrite Hl. }
  intros p Hp. unfold pview. rewrite Hb by (unfold in_u; lia).
  unfold store_spec, mem_write. cbn [st_linear request_store st_databytes].
  assert (uint32_t a = a) as Hua by cint. rewrite Hua.
  destruct (Z.leb_spec a p) as [Hap|Hap].
  - assert (offset_in a p = p - a) as -> by (unfold offset_in; cint).
    destruct (Z.leb_spec (Z.of_nat 0) (p - a)); [|lia]. cbn [andb].
    destruct (Z.ltb_spec (p - a) (Z.of_nat 0 + Z.of_nat (length data)));
      destruct (Z.ltb_spec p (a + Z.of_nat (length data))); try lia; [|done].
    rewrite lookup_app_l by (rewrite length_fmap; lia).
    rewrite list_lookup_fmap.
    destruct (lookup_lt_is_Some_2 data (Z.to_nat (p - a)) ltac:(lia)) as [d ->].
    cbn. cint.
  - assert (Z.of_nat (length data) <= offset_in a p) as Ho by (unfold offset_in; cint).
    destruct (Z.ltb_spec (offset_in a p) (Z.of_nat 0 + Z.of_nat (length data))); [lia|].
    rewrite andb_false_r. done.
Qed.

(** An eight-byte store of the prefetch core whose branch displacement happens to be
    zero writes guest memory, as the main core would. *)
Lemma pcore_store8_direct mem s a data : length data = 8%nat -> bytes_ok writable a 8 = true ->
  guest_store true 0 mem s a data = Some (StOk (mem_write mem a data) s).
Proof.
  intros H8 Hw. unfold GuestExec.guest_store, store_direct. rewrite H8. cbn [Nat.eqb Z.eqb].
  change (Z.of_nat 8) with 8. by rewrite (bytes_ok_fault writable a 8 0 Hw).
Qed.

(** The accesses that the block makes when it runs on the prefetch core from [x]: in
    range, to mapped pages, and no eight-byte store. *)
Fixpoint run_ok (c : Code) (x : ExecState) : Prop :=
  match c with
  | Exit _ | Raise _ _ => True
  | Load _ _ a n k =>
      access_ok a n /\ bytes_ok readable a n = true /\
      match guest_load true (x_mem x) (x_shadow x) (x_ring x) a n with
      | Some (LdOk d s r) => run_ok (k d) (set_shadow_ring x s r)
      | _ => True
      end
  | Store _ _ disp a d k =>
      access_ok a (Z.of_nat (length d)) /\ bytes_ok writable a (Z.of_nat (length d)) = true /\
      length d <> 8%nat /\
      match guest_store true disp (x_mem x) (x_shadow x) a d with
      | Some (StOk m s) => run_ok k (set_mem_shadow x m s)
      | _ => True
      end
  | Insn k => run_ok k (set_cnt x (uint32_t (x_cnt x + 1)))
  | Tp f k =>
      match x_tps x !! Z.to_nat (x_cnt x) with
      | Some tp => run_ok k (set_tps x (<[Z.to_nat (x_cnt x) := f tp]> (x_tps x)))
      | None => True
      end
  end.

(** [x'] is the private-memory twin of the prefetch core's state [x]. *)
Definition twin (x x' : ExecState) : Prop :=
  mem_agree (pview (x_mem x) (x_shadow x)) (x_mem x') /\
  x_tps x = x_tps x' /\ x_cnt x = x_cnt x'.

(** C8: running a block on the prefetch core gives the same registers, outcome
    and trace records as running it directly on a private copy of the memory the
    core sees; it leaves guest memory untouched, and the shadow buffer laid over
    guest memory is exactly the private copy afterwards.  This holds for a run whose
    accesses stay within the non-null 32-bit addresses and within mapped pages, and
    which makes no eight-byte store ([run_ok]): such a store may reach guest memory
    ([pcore_store8_direct]), and a load from an unmapped page is a host signal, which
    PrefetchProofs shows to hit the main core. *)
Theorem pcore_exec_refines c x x' :
  runAheadThreshold <> 0 -> shadow_wf (x_shadow x) -> run_ok c x -> twin x x' ->
  match tcg_qemu_tb_exec true c x, tcg_qemu_tb_exec false c x' with
  | Some (o, y), Some (o', y') =>
      o = o' /\ x_mem y = x_mem x /\ shadow_wf (x_shadow y) /\ twin y y'
  | None, None => True
  | _, _ => False
  end.
Proof.
  intros Ht. revert x x'.
  induction c as [a|a e|pre st a n k IH|pre st dp a d k IH|k IH|f k IH]; intros x x' Hw Hok Htw;
    cbn [tcg_qemu_tb_exec]; cbn [run_ok] in Hok; [done|done|..]; pose proof Htw as (Hm & Ht1 & Ht2).
  - destruct Hok as (Ha & Hmap & Hk).
    destruct (pcore_load_spec (x_mem x) (x_shadow x) (x_ring x) a n Ht Hw Ha Hmap)
      as (s' & r' & E & Hw' & Hs). rewrite E in Hk |- *. cbn [mbind option_bind].
    unfold GuestExec.guest_load. rewrite (bytes_ok_fault readable a n 0 Hmap). cbn [mbind option_bind].
    rewrite (mem_read_proper a n Ha _ _ Hm) in Hk |- *.
    apply (IH _ (set_shadow_ring x s' r')
             (set_shadow_ring x' (x_shadow x') (x_ring x'))); [done|done|].
    split; [|done]. cbn. unfold pview, shadow_byte, chain. rewrite Hs. exact Hm.
  - destruct Hok as (Ha & Hmap & H8 & Hk).
    destruct (pcore_store_spec dp (x_mem x) (x_shadow x) a d Hw Ha H8) as (s' & E & Hw' & Hs).
    rewrite E in Hk |- *. cbn [mbind option_bind].
    unfold GuestExec.guest_store, store_direct. rewrite (bytes_ok_fault writable a _ 0 Hmap).
    cbn [mbind option_bind].
    apply (IH (set_mem_shadow x (x_mem x) s')
             (set_mem_shadow x' (mem_write (x_mem x') a d) (x_shadow x'))); [done|done|].
    split; [|done]. cbn. rewrite Hs. by rewrite Hm.
  - apply (IH (set_cnt x _)); [done|done|]. split; [done|]. cbn. by rewrite Ht1, Ht2.
  - rewrite Ht1, Ht2 in *.
    destruct (x_tps x' !! Z.to_nat (x_cnt x')) as [tp|]; cbn [mbind option_bind]; [|done].
    by apply (IH (set_tps x _)).
Qed.

(** ** Runs that do not disturb the main core *)

(** The block, run on the prefetch core from [x], takes no host signal and makes no
    eight-byte store. *)
Fixpoint run_quiet (c : Code) (x : ExecState) : bool :=
  match c with
  | Exit _ | Raise _ _ => true
  | Load _ _ a n k =>
      match guest_load true (x_mem x) (x_shadow x) (x_ring x) a n with
      | Some (LdOk d s r) => run_quiet (k d) (set_shadow_ring x s r)
      | Some (LdFault _ _) => false
      | None => true
      end
  | Store _ _ disp a d k =>
      if (length d =? 8)%nat then false
      else match guest_store true disp (x_mem x) (x_shadow x) a d with
           | Some (StOk m s) => run_quiet k (set_mem_shadow x m s)
           | _ => true
           end
  | Insn k => run_quiet k (set_cnt x (uint32_t (x_cnt x + 1)))
  | Tp f k =>
      match x_tps x !! Z.to_nat (x_cnt x) with
      | Some tp => run_quiet k (set_tps x (<[Z.to_nat (x_cnt x) := f tp]> (x_tps x)))
      | None => true
      end
  end.

(** Such a run leaves guest memory alone and does not fault. *)
Lemma exec_quiet c x o y : run_quiet c x = true -> tcg_qemu_tb_exec true c x = Some (o, y) ->
  x_mem y = x_mem x /\ forall a p st, o <> Fault a p st.
Proof.
  revert x. induction c as [a|a e|pre st a n k IH|pre st dp a d k IH|k IH|f k IH]; intros x;
    cbn [tcg_qemu_tb_exec run_quiet].
  - by intros _ [= <- <-].
  - by intros _ [= <- <-].
  - destruct (guest_load _ _ _ _ _ _) as [[d s r|p s]|]; cbn [mbind option_bind]; [|done|done].
    intros Hq H. by apply IH in H.
  - destruct (length d =? 8)%nat eqn:E8; [done|].
    destruct (guest_store _ _ _ _ _ _) as [[m s|p]|] eqn:E; cbn [mbind option_bind]; [| |done].
    + intros Hq H. apply IH in H as [-> H]; [|done]. split; [|done]. cbn. revert E.
      unfold GuestExec.guest_store. rewrite E8.
      destruct (esesc_shadow_store_process _ _); cbn; [|done]. by intros [= <- <-].
    + revert E. unfold GuestExec.guest_store. rewrite E8.
      by destruct (esesc_shadow_store_process _ _).
  - intros Hq H. by apply IH in H.
  - destruct (x_tps x !! _); cbn [mbind option_bind]; [|done]. intros Hq H. by apply IH in H.
Qed.
End Run.
Arguments Code : clear implicits.
Arguments Outcome : clear implicits.

(** A block that stores two bytes, loads four over them and keeps them. *)
Definition w_site : Site := mkSite 0 0.
Definition w_code : Code (list Z) :=
  Store [] w_site 0 4096 [7; 8] (Load [] w_site 4095 4 (fun d => Insn (Exit d))).
Definition w_exec (m : Memory) : ExecState :=
  mkExec m w_shadow w_ring [] 0.
Definition w_mapped (p : Z) : bool := (0 <? p) && (p <? 8192).

Lemma pcore_exec_refines_witness :
  fst <$> tcg_qemu_tb_exec 4 w_mapped w_mapped false w_code (w_exec (fun p => p))
    = Some (Done [255; 7; 8; 2]).
Proof.
  assert (run_ok 4 w_mapped w_mapped w_code (w_exec (fun p => p))) as Hok.
  { split; [unfold access_ok; cbn; lia|]. split; [reflexivity|]. split; [discriminate|].
    split; [unfold access_ok; cbn; lia|]. split; [reflexivity|]. exact I. }
  pose proof (pcore_exec_refines 4 w_mapped w_mapped w_code (w_exec (fun p => p)) (w_exec (fun p => p))
    ltac:(lia) ltac:(done) Hok ltac:(done)) as H.
  assert (fst <$> tcg_qemu_tb_exec 4 w_mapped w_mapped true w_code (w_exec (fun p => p))
          = Some (Done [255; 7; 8; 2])) as E by (vm_compute; reflexivity).
  destruct (tcg_qemu_tb_exec 4 w_mapped w_mapped true _ _) as [[o y]|]; [|done].
  destruct (tcg_qemu_tb_exec 4 w_mapped w_mapped false _ _) as [[o' y']|]; [|done].
  destruct H as [<- _]. exact E.
Defined.
