(* ===== verification/PrefetchCore.v ===== *)
(** * Co-execution of the main core and the prefetch core

    Model of the execution loop of src/emul/qemu/cpu-exec.c in the user-mode ARM
    configuration: the program-counter monitors, [qemu_cpu_create_pcore] and
    [qemu_cpu_destroy_pcore], the prefetch accuracy bookkeeping, one iteration of
    the inner loop of [cpu_exec] and [cpu_exec] itself with its exception path.

    A table of program counters with its fill count is the list of its entries.
    The trace arrays are shared by the two cores: [qemu_cpu_create_pcore] copies
    the pointers of the main core, so each core has its own counts and the arrays
    belong to the system.  The shadow buffer of the main core is part of its
    state too, and stays empty.

    A host signal for a guest access goes through [handle_cpu_signal] of
    user-exec.c, which works on [cpu_single_env], the main core, whichever core was
    running: the exception, the fault address and, for an access inside a block,
    the restored pc are the main core's, and [cpu_exec] goes on with the main core.
    An exception raised by a helper belongs to the running core, and jumps through
    the [jmp_env] of that core: the prefetch core's is the copy made when it was
    created, and using it in a later activation of [cpu_exec] is undefined.

    Parameters: the architectural state besides the registers named here, the
    translated code of a block ([tb_lookup], the contract of TbCache: the block
    for the current pc, flags and guest memory, or the address that the translator
    could not read), which guest addresses are mapped for reading and for writing
    (constant within [cpu_exec]: only system calls change it), the run-ahead
    threshold and whether a single-path slice was given.  Interrupts, instruction
    counting and halting do not occur in user mode and are left out, as are the
    locks. *)

From S2P Require Import Prelude ShadowMem TraceExpand GuestExec.
Open Scope Z_scope.

Definition PRE_TRACE : Z := 0.
Definition IN_TRACE : Z := 1.
Definition POST_TRACE : Z := 0.
Definition ROUNDROBIN_EXECUTION_SLICE : Z := 1.
Definition EXCP_INTERRUPT : Z := 65536.
Definition EXCP_DATA_ABORT : Z := 4.

(** ** Simulation modes of a core *)

Record Modes := mkModes {
  esesc_allow_large_tb : list Z;
  esesc_single_inst_tb : list Z
}.

Definition mode_of (m : Modes) (fid : nat) : option (Z * Z) :=
  a ← esesc_allow_large_tb m !! fid; b ← esesc_single_inst_tb m !! fid; Some (a, b).

Definition set_mode (m : Modes) (fid : nat) (a b : Z) : Modes :=
  mkModes (<[fid := a]> (esesc_allow_large_tb m)) (<[fid := b]> (esesc_single_inst_tb m)).

(** [None]: [fid] is past the 128 entries. *)
Definition esesc_set_rabbit (fid : nat) (m : Modes) : option Modes :=
  '(a, b) ← mode_of m fid;
  if (a =? 1) && (b =? 0) then Some m else Some (set_mode m fid 1 0).

Definition esesc_set_warmup (fid : nat) (m : Modes) : option Modes :=
  '(a, b) ← mode_of m fid;
  if (a =? 0) && (b =? 0) then Some m else Some (set_mode m fid 0 0).

Definition esesc_set_timing (fid : nat) (m : Modes) : option Modes :=
  '(a, b) ← mode_of m fid;
  if (a =? 0) && (b =? 1) then Some m else Some (set_mode m fid 0 1).

(** The records handed to the timing simulator by [QEMUReader_queue_inst].  The
    record of a skipped block in rabbit mode is the number of its instructions; the
    pc and instruction word [env] last traced, which go with it, are left out. *)
Inductive Queued :=
  | QRabbit (fid : nat) (IsPCore : bool) (ninst : Z)
  | QInst (insn : Z) (fid : nat) (IsPCore : bool) (x : ExpandedCPUTracePoint).

Section Model.
Context {Rest : Type}.

Record Arch := mkArch { regs : list Z; condexec_bits : Z; c6_data : Z; rest : Rest }.

Record TBlock := mkTBlock {
  blk_id : Z;
  blk_next_pc : Z;
  blk_icount : Z;
  blk_code : Arch -> Code Arch
}.

(** The result of [tb_find_fast]: the translator reads the code of a new block, which
    may be unmapped. *)
Inductive Fetch :=
  | Fetched (tb : TBlock)
  | Unmapped (address : Z).

Record Core := mkCore {
  arch : Arch;
  IsPCore : bool;
  InstQuatum : Z;
  processor_state : Z;
  prefetchDistance : Z;
  maxPrefetchDistance : Z;
  current_stop_pc_idx : nat;
  current_sppslice_pc_idx : Z;
  exception_index : Z;
  exit_request : bool;
  fid : nat;
  c_xtrace_op_cnt : Z;
  c_op_cnt : Z;
  shadow : Shadow;
  stop_pc : list Z;
  ptrc_pc : list (list Z);
  skip_pc : list (list Z);
  sppslice_pc : list Z;
  jmp_env : Z
}.

(** [jmp_env] is the activation of [cpu_exec] whose [setjmp] filled the buffer, and
    [activation] the one that is running; [running] is the core the local variable [env] points to. *)
Inductive Role := MCore | PCore.

#[export] Instance Role_eq_dec : EqDecision Role.
Proof. solve_decision. Defined.

Record Sys := mkSys {
  mcore : Core;
  pcore : Core;
  running : Role;
  mem : Memory;
  ring : PrefetchRing;
  tps : list CPUTracePoint;
  xps : list ExpandedCPUTracePoint;
  prefetchAccuracy : Z;
  confidence : Z;
  sppsliceAllowed : bool;
  max_sbytes_size : Z;
  modes : Modes;
  queued : list Queued;
  activation : Z
}.

Context (tb_lookup : Memory -> Arch -> Fetch) (readable writable : Z -> bool).
Context (runAheadThreshold : Z) (HAS_SPPSLICE : bool).

Definition core_of (r : Role) (s : Sys) : Core :=
  match r with MCore => mcore s | PCore => pcore s end.
Definition env (s : Sys) : Core := core_of (running s) s.

(** ** Field updates *)

Definition set_core (r : Role) (c : Core) (s : Sys) : Sys :=
  match s with
  | mkSys m p ru me ri t x ac co sa mx mo q av =>
      match r with
      | MCore => mkSys c p ru me ri t x ac co sa mx mo q av
      | PCore => mkSys m c ru me ri t x ac co sa mx mo q av
      end
  end.
Definition set_env (c : Core) (s : Sys) : Sys := set_core (running s) c s.
Definition set_running (r : Role) (s : Sys) : Sys :=
  match s with mkSys m p _ me ri t x ac co sa mx mo q av =>
    mkSys m p r me ri t x ac co sa mx mo q av end.
Definition set_accuracy (ac : Z) (s : Sys) : Sys :=
  match s with mkSys m p ru me ri t x _ co sa mx mo q av =>
    mkSys m p ru me ri t x ac co sa mx mo q av end.
Definition set_ring (ri : PrefetchRing) (s : Sys) : Sys :=
  match s with mkSys m p ru me _ t x ac co sa mx mo q av =>
    mkSys m p ru me ri t x ac co sa mx mo q av end.
Definition set_xps (t : list CPUTracePoint) (x : list ExpandedCPUTracePoint) (s : Sys) : Sys :=
  match s with mkSys m p ru me ri _ _ ac co sa mx mo q av =>
    mkSys m p ru me ri t x ac co sa mx mo q av end.
Definition set_max_sbytes (mx : Z) (s : Sys) : Sys :=
  match s with mkSys m p ru me ri t x ac co sa _ mo q av =>
    mkSys m p ru me ri t x ac co sa mx mo q av end.
Definition set_confidence (co : Z) (sa : bool) (s : Sys) : Sys :=
  match s with mkSys m p ru me ri t x ac _ _ mx mo q av =>
    mkSys m p ru me ri t x ac co sa mx mo q av end.
Definition enqueue (e : Queued) (s : Sys) : Sys :=
  match s with mkSys m p ru me ri t x ac co sa mx mo q av =>
    mkSys m p ru me ri t x ac co sa mx mo (q ++ [e]) av end.
Definition set_exec (me : Memory) (ri : PrefetchRing) (t : list CPUTracePoint) (s : Sys) : Sys :=
  match s with mkSys m p ru _ _ _ x ac co sa mx mo q av =>
    mkSys m p ru me ri t x ac co sa mx mo q av end.

Definition set_quantum (n : Z) (c : Core) : Core :=
  match c with mkCore a i _ ps pd mp cs cp ei er f xc oc sh st pt sk sp je =>
    mkCore a i n ps pd mp cs cp ei er f xc oc sh st pt sk sp je end.
Definition set_state (n : Z) (c : Core) : Core :=
  match c with mkCore a i iq _ pd mp cs cp ei er f xc oc sh st pt sk sp je =>
    mkCore a i iq n pd mp cs cp ei er f xc oc sh st pt sk sp je end.
Definition set_distance (n : Z) (c : Core) : Core :=
  match c with mkCore a i iq ps _ mp cs cp ei er f xc oc sh st pt sk sp je =>
    mkCore a i iq ps n mp cs cp ei er f xc oc sh st pt sk sp je end.
Definition set_max_distance (n : Z) (c : Core) : Core :=
  match c with mkCore a i iq ps pd _ cs cp ei er f xc oc sh st pt sk sp je =>
    mkCore a i iq ps pd n cs cp ei er f xc oc sh st pt sk sp je end.
Definition set_stop_idx (n : nat) (c : Core) : Core :=
  match c with mkCore a i iq ps pd mp _ cp ei er f xc oc sh st pt sk sp je =>
    mkCore a i iq ps pd mp n cp ei er f xc oc sh st pt sk sp je end.
Definition set_spp_idx (n : Z) (c : Core) : Core :=
  match c with mkCore a i iq ps pd mp cs _ ei er f xc oc sh st pt sk sp je =>
    mkCore a i iq ps pd mp cs n ei er f xc oc sh st pt sk sp je end.
Definition set_exception (n : Z) (c : Core) : Core :=
  match c with mkCore a i iq ps pd mp cs cp _ er f xc oc sh st pt sk sp je =>
    mkCore a i iq ps pd mp cs cp n er f xc oc sh st pt sk sp je end.
Definition set_exit_request (b : bool) (c : Core) : Core :=
  match c with mkCore a i iq ps pd mp cs cp ei _ f xc oc sh st pt sk sp je =>
    mkCore a i iq ps pd mp cs cp ei b f xc oc sh st pt sk sp je end.
Definition set_counts (x o : Z) (c : Core) : Core :=
  match c with mkCore a i iq ps pd mp cs cp ei er f _ _ sh st pt sk sp je =>
    mkCore a i iq ps pd mp cs cp ei er f x o sh st pt sk sp je end.
Definition set_arch (a : Arch) (c : Core) : Core :=
  match c with mkCore _ i iq ps pd mp cs cp ei er f xc oc sh st pt sk sp je =>
    mkCore a i iq ps pd mp cs cp ei er f xc oc sh st pt sk sp je end.
Definition set_shadow (sh : Shadow) (c : Core) : Core :=
  match c with mkCore a i iq ps pd mp cs cp ei er f xc oc _ st pt sk sp je =>
    mkCore a i iq ps pd mp cs cp ei er f xc oc sh st pt sk sp je end.
Definition set_pcore (b : bool) (c : Core) : Core :=
  match c with mkCore a _ iq ps pd mp cs cp ei er f xc oc sh st pt sk sp je =>
    mkCore a b iq ps pd mp cs cp ei er f xc oc sh st pt sk sp je end.

Definition set_jmp_env (n : Z) (c : Core) : Core :=
  match c with mkCore a i iq ps pd mp cs cp ei er f xc oc sh st pt sk sp _ =>
    mkCore a i iq ps pd mp cs cp ei er f xc oc sh st pt sk sp n end.

Definition set_activation (n : Z) (s : Sys) : Sys :=
  match s with mkSys m p ru me ri t x ac co sa mx mo q _ =>
    mkSys m p ru me ri t x ac co sa mx mo q n end.

Definition clear_sbytes (sh : Shadow) : Shadow :=
  mkShadow ∅ (sbytes_size sh) (st_size sh) (ld_size sh) (st_linear sh) (ld_linear sh)
    (st_databytes sh) (ld_databytes sh) (blinear sh) (bdata sh).
Definition clear_sbytes_size (sh : Shadow) : Shadow :=
  mkShadow (sbytes sh) 0 (st_size sh) (ld_size sh) (st_linear sh) (ld_linear sh)
    (st_databytes sh) (ld_databytes sh) (blinear sh) (bdata sh).

(** ** The monitors *)

Definition GET_PC (a : Arch) : Z := default 0 (regs a !! 15%nat).
Definition set_pc (x : Z) (c : Core) : Core :=
  set_arch (mkArch (<[15%nat := x]> (regs (arch c))) (condexec_bits (arch c))
              (c6_data (arch c)) (rest (arch c))) c.
Definition pc_of (c : Core) : Z := GET_PC (arch c).

Definition IS_INTRACE (c : Core) : bool := processor_state c =? IN_TRACE.
Definition IS_PRETRACE (c : Core) : bool := processor_state c =? PRE_TRACE.

Definition mem_pc (pc : Z) (l : list Z) : bool := existsb (fun x => pc =? x) l.

Definition qemu_entry_pc_monitor (c : Core) : bool := mem_pc (pc_of c) (stop_pc c).

(** The tables are zero past their fill counts. *)
Definition qemu_stop_pc_monitor (c : Core) : bool :=
  pc_of c =? default 0 (stop_pc c !! current_stop_pc_idx c).

Definition qemu_exit_pc_monitor (c : Core) : bool :=
  negb (mem_pc (pc_of c) (default [] (ptrc_pc c !! current_stop_pc_idx c))).

Definition skip_list (c : Core) : list Z := default [] (skip_pc c !! current_stop_pc_idx c).

Definition qemu_skip_pc_monitor (m : Memory) (c : Core) (tb : TBlock) : option (Core * Fetch) :=
  if negb (IsPCore c) then None
  else if mem_pc (pc_of c) (skip_list c) then
    let c' := set_pc (blk_next_pc tb) c in Some (c', tb_lookup m (arch c'))
  else Some (c, Fetched tb).

(** The [while] around it; blocks are compared by identity.  [None] with fuel left
    is a failed assertion. *)
Fixpoint skip_loop (fuel : nat) (m : Memory) (c : Core) (tb : TBlock) : option (Core * Fetch) :=
  match fuel with
  | O => None
  | S fuel' =>
      '(c', fetch) ← qemu_skip_pc_monitor m c tb;
      match fetch with
      | Fetched new_tb =>
          if blk_id new_tb =? blk_id tb then Some (c', Fetched tb) else skip_loop fuel' m c' new_tb
      | Unmapped address => Some (c', Unmapped address)
      end
  end.

Definition qemu_next_pc_sppslice (m : Memory) (c : Core) (tb : TBlock) : option (Core * Fetch) :=
  if negb (IsPCore c) then None
  else
    let n := Z.of_nat (length (sppslice_pc c)) in
    let i := if current_sppslice_pc_idx c =? uint32_t (n - 1) then 0
             else uint32_t (current_sppslice_pc_idx c + 1) in
    let c1 := set_spp_idx i c in
    let target := default 0 (sppslice_pc c !! Z.to_nat i) in
    if pc_of c1 =? target then Some (c1, Fetched tb)
    else let c2 := set_pc target c1 in Some (c2, tb_lookup m (arch c2)).

(** ** Creating and destroying the prefetch core *)

(** The index of the first stop pc equal to [pc], if any. *)
Fixpoint find_stop (pc : Z) (l : list Z) (i : nat) : option nat :=
  match l with
  | [] => None
  | x :: t => if pc =? x then Some i else find_stop pc t (S i)
  end.

Definition qemu_cpu_create_pcore (s : Sys) : option Sys :=
  let m := mcore s in
  if IsPCore m || negb (IsPCore (pcore s)) then None
  else
    let p := set_distance 0 (set_state IN_TRACE
               (set_shadow (clear_sbytes_size (shadow m)) (set_pcore true m))) in
    let m' := set_max_distance 0 m in
    let '(m'', p') := match find_stop (pc_of m) (stop_pc m) 0 with
                      | Some i => (set_stop_idx i m', set_stop_idx i p)
                      | None => (m', p)
                      end in
    Some (set_accuracy (Z.quot runAheadThreshold 2) (set_core MCore m'' (set_core PCore p' s))).

Definition qemu_cpu_destroy_pcore (c : Core) : option Core :=
  if negb (IsPCore c) then None
  else Some (set_shadow (clear_sbytes (shadow c)) (set_state PRE_TRACE c)).

(** ** Prefetch accuracy *)

Definition findAddressInPrefetchBuffer (laddr currentAccuracy : Z) (r : PrefetchRing) : Z :=
  if existsb (fun a => a =? laddr) (take (Z.to_nat runAheadThreshold) (prefetch_address r))
  then Z.quot currentAccuracy 2 else -1.

(** The comparison is between an [int] and an [unsigned int]. *)
Definition clamp_accuracy (acc : Z) : Z :=
  if runAheadThreshold <? uint32_t acc then int32_t runAheadThreshold else acc.

Definition account (c : Core) (x : ExpandedCPUTracePoint) (s : Sys) : option Sys :=
  if HAS_SPPSLICE && (tp_pc (xp_common x) =? default 0 (sppslice_pc c !! 0%nat)) then
    if IsPCore c then
      r ← ring_push runAheadThreshold (xp_memadd x) (ring s); Some (set_ring r s)
    else
      Some (set_accuracy (clamp_accuracy (prefetchAccuracy s +
              findAddressInPrefetchBuffer (xp_memadd x) (prefetchAccuracy s) (ring s))) s)
  else Some s.

(** [ldl_code]: the little-endian word at [pc]. *)
Definition ldl_code (m : Memory) (pc : Z) : Z := pack 8 (mem_read m pc 4).

Fixpoint queue_insts (timing : bool) (c : Core) (l : list ExpandedCPUTracePoint) (s : Sys)
    : option Sys :=
  match l with
  | [] => Some s
  | x :: l' =>
      s' ← account c x s;
      let insn := if timing then ldl_code (mem s) (tp_pc (xp_common x)) else 3735928495 in
      queue_insts timing c l' (enqueue (QInst insn (fid c) (IsPCore c) x) s')
  end.

(** The hand-over after a block: check, expand, queue by mode, reset. *)
Definition hand_over (tb : TBlock) (s : Sys) : option Sys :=
  let c := env s in
  let b := mkTraceBuf (tps s) (c_xtrace_op_cnt c) (xps s) (c_op_cnt c) in
  if negb (xtrm_trace_sanity_check b) then None
  else
    b1 ← xtrm_trace_expand b;
    '(large, single) ← mode_of (modes s) (fid c);
    let s1 := set_xps (xtrace_op_tp b1) (xtrace_xp_op_tp b1)
                (set_env (set_counts (xtrace_op_cnt b1) (op_cnt b1) c) s) in
    s2 ← (if negb (large =? 0) then
            let ninst := if op_cnt b1 =? 0 then blk_icount tb else op_cnt b1 in
            Some (enqueue (QRabbit (fid c) (IsPCore c) ninst) s1)
          else queue_insts (negb (single =? 0)) c
                 (take (Z.to_nat (op_cnt b1)) (xtrace_xp_op_tp b1)) s1);
    b2 ← xtrace_reset_trace_points b1;
    Some (set_xps (xtrace_op_tp b2) (xps s2) (set_env (set_counts 0 0 (env s2)) s2)).

(** ** Leaving the inner loop *)

(** [Jumped]: [longjmp] back to the [setjmp] of [cpu_exec], which reloads [env]
    from [cpu_single_env], the main core. *)
Inductive Iter :=
  | Looped (s : Sys)
  | Jumped (s : Sys).

(** [cpu_loop_exit] of core [c]; undefined when the buffer belongs to an activation of
    [cpu_exec] that has returned. *)
Definition cpu_loop_exit (c : Core) (s : Sys) : option Iter :=
  if jmp_env c =? activation s then Some (Jumped (set_running MCore s)) else None.

(** [restore_state_to_opc], for the place that [cpu_restore_state] finds. *)
Definition restore_state_to_opc (site : Site) (a : Arch) : Arch :=
  mkArch (<[15%nat := gen_opc_pc site]> (regs a)) (gen_opc_condexec_bits site) (c6_data a) (rest a).

(** [cpu_handle_mmu_fault] records the address; then the state is restored if the host
    pc is inside a block. *)
Definition fault_arch (site : option Site) (address : Z) (a : Arch) : Arch :=
  let a1 := mkArch (regs a) (condexec_bits a) address (rest a) in
  match site with Some st => restore_state_to_opc st a1 | None => a1 end.

(** [handle_cpu_signal] for an access the guest may not make: [env] is
    [cpu_single_env], the main core. *)
Definition handle_cpu_signal (site : option Site) (address : Z) (s : Sys) : option Iter :=
  let m := set_exception EXCP_DATA_ABORT (set_arch (fault_arch site address (arch (mcore s))) (mcore s)) in
  cpu_loop_exit m (set_core MCore m s).

(** ** One iteration of the inner loop *)

Definition enter_trace (s : Sys) : option Sys :=
  let c := env s in
  if negb (IsPCore c) && IS_PRETRACE c && qemu_entry_pc_monitor c &&
     (prefetchDistance (pcore s) <=? 0) && (negb HAS_SPPSLICE || sppsliceAllowed s)
  then
    s' ← qemu_cpu_create_pcore s;
    Some (set_env (set_state IN_TRACE (env s')) s')
  else Some s.

(** [load_main_core] *)
Definition load_main_core (s : Sys) : Sys :=
  let s' := set_running MCore s in
  set_env (set_quantum ROUNDROBIN_EXECUTION_SLICE (env s')) s'.

(** [Some (Some s)]: the prefetch core leaves the trace and is shut down. *)
Definition leave_trace (s : Sys) : option (option Sys) :=
  let c := env s in
  if IsPCore c && negb HAS_SPPSLICE && IS_INTRACE c && qemu_exit_pc_monitor c then
    let s1 := set_env (set_quantum 0 (set_state PRE_TRACE c)) s in
    let s2 := set_core MCore (set_state PRE_TRACE (mcore s1)) s1 in
    let s3 := set_max_sbytes (if max_sbytes_size s2 <? sbytes_size (shadow c)
                              then sbytes_size (shadow c) else max_sbytes_size s2) s2 in
    c' ← qemu_cpu_destroy_pcore (env s3);
    Some (Some (load_main_core (set_env c' s3)))
  else if IsPCore c && HAS_SPPSLICE && IS_INTRACE c && (prefetchAccuracy s <=? 0) then
    let co := int32_t (confidence s - 1) in
    let s0 := set_confidence co (if co =? 0 then false else sppsliceAllowed s) s in
    let s1 := set_env (set_distance 0 (set_quantum 0 (set_state PRE_TRACE c))) s0 in
    let s2 := set_core MCore (set_state PRE_TRACE (mcore s1)) s1 in
    c' ← qemu_cpu_destroy_pcore (env s2);
    Some (Some (load_main_core (set_env c' s2)))
  else Some None.

(** Choosing the block the prefetch core executes. *)
Definition select_block (fuel : nat) (s : Sys) (tb : TBlock) : option (Sys * Fetch) :=
  '(c1, f1) ← (if IsPCore (env s) && IS_INTRACE (env s) && negb HAS_SPPSLICE
               then skip_loop fuel (mem s) (env s) tb else Some (env s, Fetched tb));
  '(c2, f2) ← (match f1 with
               | Fetched tb1 =>
                   if IsPCore c1 && IS_INTRACE c1 && HAS_SPPSLICE
                   then qemu_next_pc_sppslice (mem s) c1 tb1 else Some (c1, f1)
               | Unmapped _ => Some (c1, f1)
               end);
  Some (set_env c2 s, f2).

(** Counting prefetches produced and consumed. *)
Definition track (s : Sys) : Sys :=
  let c := env s in
  if IsPCore c && IS_INTRACE c && qemu_stop_pc_monitor c then
    let c' := set_distance (prefetchDistance c + 1) c in
    let s' := set_env c' s in
    if maxPrefetchDistance (mcore s') <? prefetchDistance c'
    then set_core MCore (set_max_distance (prefetchDistance c') (mcore s')) s' else s'
  else if negb (IsPCore c) && qemu_stop_pc_monitor c then
    set_core PCore (set_distance (prefetchDistance (pcore s) - 1) (pcore s)) s
  else s.

(** How the execution of a block ends: it is finished, a helper has raised an
    exception, or a host signal has arrived. *)
Inductive Ended :=
  | Finished
  | Raised
  | Signalled (site : option Site) (address : Z).

(** Running the block on the current core. *)
Definition exec_block (tb : TBlock) (s : Sys) : option (Ended * Sys) :=
  let c := env s in
  '(o, x) ← tcg_qemu_tb_exec runAheadThreshold readable writable (IsPCore c) (blk_code tb (arch c))
              (mkExec (mem s) (shadow c) (ring s) (tps s) (c_xtrace_op_cnt c));
  let '(a, ei, ended) := match o with
                         | Done a => (a, exception_index c, Finished)
                         | Excp a e => (a, e, Raised)
                         | Fault a p site => (a, exception_index c, Signalled site p)
                         end in
  let c' := set_exception ei (set_counts (x_cnt x) (c_op_cnt c)
              (set_shadow (x_shadow x) (set_arch a c))) in
  Some (ended, set_env c' (set_exec (x_mem x) (x_ring x) (x_tps x) s)).

(** The round-robin switch at the end of an iteration. *)
Definition switch_core (s : Sys) : Sys :=
  let c := env s in
  if IS_INTRACE c && (InstQuatum c =? 0) then
    let s' := if IsPCore c then set_running MCore s
              else if prefetchDistance (pcore s) <? runAheadThreshold
                   then set_running PCore s else s in
    set_env (set_quantum ROUNDROBIN_EXECUTION_SLICE (env s')) s'
  else s.

Definition run_block (tb : TBlock) (s : Sys) : option Iter :=
  '(ended, s1) ← exec_block tb s;
  match ended with
  | Raised => cpu_loop_exit (env s1) s1
  | Signalled site address => handle_cpu_signal site address s1
  | Finished =>
      let s2 := if IS_INTRACE (env s1)
                then set_env (set_quantum (uint32_t (InstQuatum (env s1) - 1)) (env s1)) s1
                else s1 in
      s3 ← hand_over tb s2;
      Some (Looped (switch_core s3))
  end.

(** The part of an iteration before the block runs: the lookup, the monitors, and what
    is to be done next. *)
Inductive Prepared :=
  | LeftTrace (s : Sys)
  | NoCode (address : Z) (s : Sys)
  | Execute (tb : TBlock) (s : Sys).

Definition prepare (fuel : nat) (s : Sys) : option Prepared :=
  match tb_lookup (mem s) (arch (env s)) with
  | Unmapped address => Some (NoCode address s)
  | Fetched tb =>
      s1 ← enter_trace s;
      left_trace ← leave_trace s1;
      match left_trace with
      | Some s2 => Some (LeftTrace s2)
      | None =>
          '(s2, f) ← select_block fuel s1 tb;
          match f with
          | Fetched tb' => Some (Execute tb' (track s2))
          | Unmapped address => Some (NoCode address s2)
          end
      end
  end.

Definition inner_iter (fuel : nat) (s : Sys) : option Iter :=
  if exit_request (env s) then
    let c := set_exception EXCP_INTERRUPT (set_exit_request false (env s)) in
    cpu_loop_exit c (set_env c s)
  else
    p ← prepare fuel s;
    match p with
    | LeftTrace s2 => Some (Looped s2)
    | NoCode address s2 => handle_cpu_signal None address s2
    | Execute tb s2 => run_block tb s2
    end.

(** ** [cpu_exec] *)

Definition cpu_exec_prologue (requested : bool) (s : Sys) : Sys :=
  let m := set_counts 0 0 (set_quantum ROUNDROBIN_EXECUTION_SLICE (mcore s)) in
  let m' := if requested then set_exit_request true m else m in
  set_activation (activation s + 1)
    (set_accuracy (Z.quot runAheadThreshold 2)
       (set_core MCore (set_exception (-1) m') (set_running MCore s))).

(** [setjmp (env->jmp_env)] at the head of the outer loop, where [env] is the main
    core. *)
Definition setjmp (s : Sys) : Sys := set_core MCore (set_jmp_env (activation s) (mcore s)) s.

(** The inner loop until a jump. *)
Fixpoint inner_loop (fuel : nat) (skips : nat) (s : Sys) : option Sys :=
  match fuel with
  | O => None
  | S fuel' =>
      r ← inner_iter skips s;
      match r with
      | Looped s' => inner_loop fuel' skips s'
      | Jumped s' => Some s'
      end
  end.

(** The outer loop: a pending exception of the main core is returned. *)
Fixpoint outer_loop (fuel : nat) (skips : nat) (s : Sys) : option (Z * Sys) :=
  match fuel with
  | O => None
  | S fuel' =>
      let s := setjmp s in
      if 0 <=? exception_index (env s) then Some (exception_index (env s), s)
      else s' ← inner_loop fuel skips s; outer_loop fuel' skips s'
  end.

Definition cpu_exec (fuel skips : nat) (requested : bool) (s : Sys) : option (Z * Sys) :=
  outer_loop fuel skips (cpu_exec_prologue requested s).
End Model.

(** [destruct_sys s] exposes every field, so that [cbn] computes. *)
Ltac destruct_sys s :=
  let m := fresh "m" in let p := fresh "p" in let ru := fresh "ru" in
  destruct s as [m p ru ? ? ? ? ? ? ? ? ? ? ?]; destruct m, p, ru.
