(* ===== verification/PrefetchProofs.v ===== *)
(** * Correctness of the co-execution loop

    Invariants of the system of PrefetchCore, the invisibility of the prefetch
    core to the guest program, the run-ahead bound and the round-robin
    discipline. *)

From S2P Require Import Prelude ShadowMem TraceExpand GuestExec PrefetchCore.
Open Scope Z_scope.

Section Proofs.
Context {Rest : Type}.
#[local] Abbreviation Arch := (@Arch Rest).
#[local] Abbreviation Core := (@Core Rest).
#[local] Abbreviation Sys := (@Sys Rest).
#[local] Abbreviation TBlock := (@TBlock Rest).
Context (tb_lookup : Memory -> Arch -> @Fetch Rest) (readable writable : Z -> bool).
Context (runAheadThreshold : Z) (HAS_SPPSLICE : bool).
#[local] Abbreviation inner_iter := (inner_iter tb_lookup readable writable runAheadThreshold HAS_SPPSLICE).
#[local] Abbreviation prepare := (prepare tb_lookup runAheadThreshold HAS_SPPSLICE).
#[local] Abbreviation run_block := (run_block readable writable runAheadThreshold HAS_SPPSLICE).
#[local] Abbreviation exec_block := (exec_block readable writable runAheadThreshold).
#[local] Abbreviation tcg_qemu_tb_exec := (tcg_qemu_tb_exec runAheadThreshold readable writable).
#[local] Abbreviation run_quiet := (run_quiet runAheadThreshold readable writable).
#[local] Abbreviation hand_over := (hand_over runAheadThreshold HAS_SPPSLICE).

(** ** What the hand-over to the simulator leaves alone *)

(** Equal up to the trace counts. *)
Definition core_frame (c c' : Core) : Prop := exists x o, c' = set_counts x o c.

Definition frame (s s' : Sys) : Prop :=
  running s' = running s /\ mem s' = mem s /\
  core_frame (mcore s) (mcore s') /\ core_frame (pcore s) (pcore s').

#[local] Instance core_frame_preorder : PreOrder core_frame.
Proof.
  split.
  - intros c. exists (c_xtrace_op_cnt c), (c_op_cnt c). by destruct c.
  - intros c1 c2 c3 (x & o & ->) (x' & o' & ->). exists x', o'. by destruct c1.
Qed.

#[local] Instance frame_preorder : PreOrder frame.
Proof.
  split.
  - intros s. split; [done|]. split; [done|]. split; reflexivity.
  - intros s1 s2 s3 (R1 & M1 & C1 & P1) (R2 & M2 & C2 & P2).
    split; [congruence|]. split; [congruence|].
    split; etrans; (exact C1 || exact C2 || exact P1 || exact P2 || done).
Qed.

Lemma core_frame_counts x o (c : Core) : core_frame c (set_counts x o c).
Proof. by exists x, o. Qed.

Lemma frame_set_env c s : core_frame (env s) c -> frame s (set_env c s).
Proof.
  destruct s as [m p [] me ri t x ac co sa mx mo q av]; cbn; intros H.
  - split; [done|]. split; [done|]. split; [done|reflexivity].
  - split; [done|]. split; [done|]. split; [reflexivity|done].
Qed.

Lemma frame_same s s' : running s' = running s -> mem s' = mem s ->
  mcore s' = mcore s -> pcore s' = pcore s -> frame s s'.
Proof.
  intros R M C P. unfold frame. rewrite R, M, C, P.
  split; [done|]. split; [done|]. split; reflexivity.
Qed.

Lemma account_frame c x s s' :
  account runAheadThreshold HAS_SPPSLICE c x s = Some s' -> frame s s'.
Proof.
  unfold account. destruct (_ && _); [|by intros [= <-]; reflexivity].
  destruct (IsPCore c).
  - destruct (ring_push _ _ _); cbn; [|done]. intros [= <-]. by apply frame_same; destruct s.
  - intros [= <-]. by apply frame_same; destruct s.
Qed.

Lemma queue_insts_frame t c l s s' :
  queue_insts runAheadThreshold HAS_SPPSLICE t c l s = Some s' -> frame s s'.
Proof.
  revert s. induction l as [|x l IH]; intros s; cbn [queue_insts].
  - intros [= <-]. reflexivity.
  - destruct (account _ _ c x s) as [s1|] eqn:E; cbn [mbind option_bind]; [|done].
    intros H. apply IH in H. apply account_frame in E. etrans; [exact E|].
    etrans; [|exact H]. by apply frame_same; destruct s1.
Qed.

Lemma hand_over_frame tb s s' : hand_over tb s = Some s' -> frame s s'.
Proof.
  unfold PrefetchCore.hand_over.
  destruct (negb _); [done|].
  destruct (xtrm_trace_expand _) as [b1|]; cbn [mbind option_bind]; [|done].
  destruct (mode_of _ _) as [[large single]|]; cbn [mbind option_bind]; [|done].
  set (s1 := set_xps _ _ _).
  assert (frame s s1) as H1.
  { etrans; [apply (frame_set_env (set_counts (xtrace_op_cnt b1) (op_cnt b1) (env s)));
             apply core_frame_counts|].
    apply frame_same; by destruct (set_env _ s). }
  intros H. etrans; [exact H1|]. clear H1. revert H.
  match goal with |- context [mbind _ ?q] => destruct q as [s2|] eqn:E end;
    cbn [mbind option_bind]; [|done].
  destruct (xtrace_reset_trace_points b1) as [b2|]; cbn [mbind option_bind]; [|done].
  intros [= <-].
  assert (frame s1 s2) as H2.
  { destruct (negb (large =? 0)).
    - injection E as <-. by apply frame_same; destruct s1.
    - by eapply queue_insts_frame. }
  etrans; [exact H2|].
  etrans; [apply (frame_set_env (set_counts 0 0 (env s2))); apply core_frame_counts|].
  apply frame_same; by destruct (set_env _ s2).
Qed.

(** ** The main core executes as if alone *)

(** A block run directly on guest memory, without instrumentation. *)
Fixpoint solo_exec (c : Code Arch) (m : Memory) : Outcome Arch * Memory :=
  match c with
  | Exit a => (Done a, m)
  | Raise a e => (Excp a e, m)
  | Load pre site addr n k =>
      match first_fault readable (bytes_at addr n) 0 with
      | Some (_, p) => (Fault pre p (Some site), m)
      | None => solo_exec (k (mem_read m addr n)) m
      end
  | Store pre site _ addr d k =>
      match first_fault writable (bytes_at addr (Z.of_nat (length d))) 0 with
      | Some (_, p) => (Fault pre p (Some site), m)
      | None => solo_exec k (mem_write m addr d)
      end
  | Insn k | Tp _ k => solo_exec k m
  end.

Lemma exec_solo c x o y :
  tcg_qemu_tb_exec false c x = Some (o, y) ->
  solo_exec c (x_mem x) = (o, x_mem y) /\ x_shadow y = x_shadow x /\ x_ring y = x_ring x.
Proof.
  revert x. induction c as [a|a e|pre st a n k IH|pre st dp a d k IH|k IH|f k IH]; intros x;
    cbn [GuestExec.tcg_qemu_tb_exec solo_exec guest_load guest_store].
  - by intros [= <- <-].
  - by intros [= <- <-].
  - destruct (first_fault _ _ _) as [[i p]|]; cbn [mbind option_bind].
    + by intros [= <- <-].
    + intros H. by apply IH in H.
  - unfold store_direct. destruct (first_fault _ _ _) as [[i p]|]; cbn [mbind option_bind].
    + by intros [= <- <-].
    + intros H. by apply IH in H.
  - intros H. by apply IH in H.
  - destruct (x_tps x !! _); cbn [mbind option_bind]; [|done]. intros H. by apply IH in H.
Qed.

(** ** The invariant of the loop *)

(** Roles, agreement of the trace states, the run-ahead bound, and that the
    prefetch core only runs in trace, with a quantum of one block. *)
Record base_ok (s : Sys) : Prop := {
  ok_m : IsPCore (mcore s) = false;
  ok_p : IsPCore (pcore s) = true;
  ok_sync : processor_state (pcore s) = processor_state (mcore s);
  ok_bound : prefetchDistance (pcore s) <= runAheadThreshold;
  ok_run : running s = PCore ->
    processor_state (pcore s) = IN_TRACE /\ InstQuatum (pcore s) = 1;
  ok_shadow : sbytes (shadow (mcore s)) = ∅
}.

(** At the start of an iteration the running prefetch core is below the
    threshold. *)
Definition sys_ok (s : Sys) : Prop :=
  base_ok s /\ (running s = PCore -> prefetchDistance (pcore s) < runAheadThreshold).

(** The guest-visible state of the main core. *)
Definition mview (s : Sys) : Arch * Memory * Z * bool :=
  (arch (mcore s), mem s, exception_index (mcore s), exit_request (mcore s)).

Lemma frame_mview s s' : frame s s' -> mview s' = mview s.
Proof.
  intros (R & M & (x & o & Ec) & _). unfold mview. rewrite M, Ec. by destruct (mcore s).
Qed.

Lemma enter_trace_spec s s1 : 0 <= runAheadThreshold -> sys_ok s ->
  enter_trace runAheadThreshold HAS_SPPSLICE s = Some s1 ->
  sys_ok s1 /\ running s1 = running s /\ mview s1 = mview s /\ (running s = PCore -> s1 = s).
Proof.
  intros Hthr ([H1 H2 H3 H4 H5 H6] & H7). unfold enter_trace.
  destruct (_ && _) eqn:G; [|by intros [= <-]].
  rewrite !andb_true_iff in G. destruct G as [[[[G1 G2] G3] G4] G5].
  unfold qemu_cpu_create_pcore. rewrite H1, H2. cbn [orb negb].
  assert (running s = MCore) as R.
  { destruct (running s) eqn:R; [done|]. unfold env in G1. rewrite R in G1. cbn in G1.
    by rewrite H2 in G1. }
  destruct (find_stop _ _ _) as [i|]; cbn [mbind option_bind]; intros [= <-];
    destruct_sys s; cbn in *; try done; (split; [split; [split|]; cbn; done|]; done).
Qed.

Lemma leave_trace_spec s s' : 0 <= runAheadThreshold -> sys_ok s ->
  leave_trace HAS_SPPSLICE s = Some (Some s') ->
  sys_ok s' /\ running s = PCore /\ running s' = MCore /\ mview s' = mview s /\
  processor_state (mcore s') = PRE_TRACE /\ sbytes (shadow (pcore s')) = ∅.
Proof.
  intros Hthr ([H1 H2 H3 H4 H5 H6] & H7). unfold leave_trace.
  destruct (running s) eqn:R.
  { unfold env. rewrite R. cbn [core_of]. rewrite H1. done. }
  destruct (H5 eq_refl) as [H5a H5b]. specialize (H7 eq_refl).
  unfold env. rewrite R. cbn [core_of]. rewrite H2. cbn [andb].
  destruct (_ && qemu_exit_pc_monitor _).
  - destruct_sys s; cbn in *; try done. subst. cbn. intros [= <-].
    split; [split; [split|]; cbn; done|]. done.
  - destruct (_ && (_ <=? 0)); [|done].
    destruct_sys s; cbn in *; try done. subst. cbn. intros [= <-].
    split; [split; [split|]; cbn; (done || lia)|]. done.
Qed.

(** The fields block selection keeps: all but the pc and the slice position. *)
Definition core_moved (c c' : Core) : Prop :=
  exists a i, c' = set_spp_idx i (set_arch a c).

Lemma core_moved_refl c : core_moved c c.
Proof. exists (arch c), (current_sppslice_pc_idx c). by destruct c. Qed.

Lemma core_moved_pc x (c : Core) : core_moved c (set_pc x c).
Proof. eexists _, (current_sppslice_pc_idx c). unfold set_pc. by destruct c. Qed.

#[local] Instance core_moved_trans : Transitive core_moved.
Proof. intros c1 c2 c3 (a & i & ->) (a' & i' & ->). exists a', i'. by destruct c1. Qed.

Lemma skip_loop_moved fuel m c tb c' f :
  skip_loop tb_lookup fuel m c tb = Some (c', f) -> core_moved c c'.
Proof.
  revert c tb. induction fuel as [|fuel IH]; intros c tb; cbn [skip_loop]; [done|].
  unfold qemu_skip_pc_monitor. destruct (negb (IsPCore c)); [done|].
  destruct (mem_pc _ _); cbn [mbind option_bind].
  - pose proof (core_moved_pc (blk_next_pc tb) c) as M1.
    destruct (tb_lookup m _) as [new_tb|p]; [|by intros [= <- <-]].
    destruct (_ =? _); [by intros [= <- <-]|]. intros H. apply IH in H. by etrans.
  - rewrite Z.eqb_refl. intros [= <- <-]. apply core_moved_refl.
Qed.

Lemma sppslice_moved m c tb c' f :
  qemu_next_pc_sppslice tb_lookup m c tb = Some (c', f) -> core_moved c c'.
Proof.
  unfold qemu_next_pc_sppslice. destruct (negb _); [done|].
  destruct (_ =? default _ _); intros [= <- <-].
  - eexists (arch c), _. by destruct c.
  - eexists _, _. unfold set_pc. by destruct c.
Qed.

Lemma core_moved_fields (c c' : Core) : core_moved c c' ->
  IsPCore c' = IsPCore c /\ processor_state c' = processor_state c /\
  InstQuatum c' = InstQuatum c /\ prefetchDistance c' = prefetchDistance c.
Proof. intros (a & i & ->). by destruct c. Qed.

Lemma select_block_spec fuel s tb s' f : sys_ok s ->
  select_block tb_lookup HAS_SPPSLICE fuel s tb = Some (s', f) ->
  sys_ok s' /\ running s' = running s /\ mview s' = mview s /\
  (running s = MCore -> s' = s /\ f = Fetched tb).
Proof.
  intros ([H1 H2 H3 H4 H5 H6] & H7). unfold select_block.
  destruct (running s) eqn:R.
  - assert (IsPCore (env s) = false) as Hp by (unfold env; by rewrite R).
    rewrite Hp. cbn [andb mbind option_bind]. rewrite Hp. cbn [andb mbind option_bind].
    intros [= <- <-].
    assert (set_env (env s) s = s) as -> by (unfold set_env, env; rewrite R; by destruct s).
    split; [|by rewrite R]. split; [split|]; rewrite ?R; done.
  - match goal with |- context [mbind _ ?q] => destruct q as [[c1 f1]|] eqn:E1 end;
      cbn [mbind option_bind]; [|done].
    assert (core_moved (pcore s) c1) as M1.
    { unfold env in E1. rewrite R in E1. cbn [core_of] in E1.
      destruct (IsPCore (pcore s) && IS_INTRACE (pcore s) && negb HAS_SPPSLICE);
        [by eapply skip_loop_moved|].
      injection E1 as <- <-. apply core_moved_refl. }
    match goal with |- context [mbind _ ?q] => destruct q as [[c2 f2]|] eqn:E2 end;
      cbn [mbind option_bind]; [|done].
    assert (core_moved c1 c2) as M2.
    { destruct f1 as [tb1|]; [|injection E2 as <- <-; apply core_moved_refl].
      destruct (IsPCore c1 && IS_INTRACE c1 && HAS_SPPSLICE); [by eapply sppslice_moved|].
      injection E2 as <- <-. apply core_moved_refl. }
    intros [= <- <-]. apply core_moved_fields in M1 as (A1 & A2 & A3 & A4), M2 as (B1 & B2 & B3 & B4).
    destruct (H5 eq_refl) as [H5a H5b]. specialize (H7 eq_refl).
    destruct s as [m p ru ? ? ? ? ? ? ? ? ? ? ?]. cbn in R. subst ru. cbn in *.
    split; [|done]. split; [split|]; cbn; (congruence || lia || (intros; split; congruence)).
Qed.

Lemma track_spec s : sys_ok s ->
  base_ok (track s) /\ running (track s) = running s /\ mview (track s) = mview s.
Proof.
  intros ([H1 H2 H3 H4 H5 H6] & H7). unfold track.
  destruct (IsPCore (env s) && IS_INTRACE (env s) && qemu_stop_pc_monitor (env s)) eqn:G1.
  - destruct (running s) eqn:R.
    { unfold env in G1. rewrite R in G1. cbn in G1. by rewrite H1 in G1. }
    specialize (H7 eq_refl). destruct (H5 eq_refl) as [H5a H5b].
    destruct_sys s; cbn in *; try done; subst.
    destruct (_ <? _); cbn; (split; [split|]; cbn; (done || lia)).
  - destruct (negb (IsPCore (env s)) && qemu_stop_pc_monitor (env s)) eqn:G2;
      [|by split; [split|]].
    destruct_sys s; cbn in *; [|by rewrite H2 in G2]. split; [split|]; cbn; (done || lia).
Qed.

(** ** Preparing an iteration *)

(** What is to be done next keeps the invariant and the main core's view; on the main
    core it is its own block, or its own fault. *)
Lemma prepare_spec skips s p : 0 <= runAheadThreshold -> sys_ok s -> prepare skips s = Some p ->
  match p with
  | LeftTrace s2 => sys_ok s2 /\ running s = PCore /\ running s2 = MCore /\ mview s2 = mview s
  | NoCode address s2 => sys_ok s2 /\ running s2 = running s /\ mview s2 = mview s /\
      (running s = MCore -> tb_lookup (mem s) (arch (mcore s)) = Unmapped address)
  | Execute tb s2 => base_ok s2 /\ running s2 = running s /\ mview s2 = mview s /\
      (running s = MCore -> tb_lookup (mem s) (arch (mcore s)) = Fetched tb)
  end.
Proof.
  intros Hthr Hok. unfold PrefetchCore.prepare.
  destruct (tb_lookup _ _) as [tb|address] eqn:Ef.
  2:{ intros [= <-]. split; [done|]. split; [done|]. split; [done|]. intros R.
      unfold env in Ef. by rewrite R in Ef. }
  destruct (enter_trace _ _ s) as [s1|] eqn:E1; cbn [mbind option_bind]; [|done].
  destruct (enter_trace_spec _ _ Hthr Hok E1) as (Hok1 & R1 & V1 & _). clear E1.
  destruct (leave_trace _ s1) as [[s2|]|] eqn:E2; cbn [mbind option_bind]; [| |done].
  - intros [= <-]. destruct (leave_trace_spec _ _ Hthr Hok1 E2) as (Hok2 & R1' & R2 & V2 & _).
    split; [done|]. split; [congruence|]. split; [done|]. congruence.
  - destruct (select_block _ _ _ _ _) as [[s2 f]|] eqn:E3; cbn [mbind option_bind]; [|done].
    destruct (select_block_spec _ _ _ _ _ Hok1 E3) as (Hok2 & R2 & V2 & T2).
    assert (running s = MCore -> f = Fetched tb /\ tb_lookup (mem s) (arch (mcore s)) = Fetched tb) as T.
    { intros R. destruct (T2 ltac:(congruence)) as [_ ->]. split; [done|].
      unfold env in Ef. by rewrite R in Ef. }
    destruct f as [tb'|address]; intros [= <-].
    + destruct (track_spec _ Hok2) as (Hok3 & R3 & V3). split; [done|].
      split; [congruence|]. split; [congruence|]. intros R. by destruct (T R) as [[= ->] ->].
    + split; [done|]. split; [congruence|]. split; [congruence|]. intros R. by destruct (T R) as [[=] _].
Qed.

(** ** Running a block *)

Definition exec_state (s : Sys) : ExecState :=
  mkExec (mem s) (shadow (env s)) (ring s) (tps s) (c_xtrace_op_cnt (env s)).

Lemma exec_block_spec tb s b s1 : base_ok s ->
  exec_block tb s = Some (b, s1) ->
  base_ok s1 /\ running s1 = running s /\
  match running s with
  | PCore => mcore s1 = mcore s /\
      (run_quiet (blk_code tb (arch (env s))) (exec_state s) = true ->
       mem s1 = mem s /\ forall site p, b <> Signalled site p)
  | MCore =>
      let '(o, m) := solo_exec (blk_code tb (arch (mcore s))) (mem s) in
      match o with
      | Done a => b = Finished /\
          mview s1 = (a, m, exception_index (mcore s), exit_request (mcore s))
      | Excp a e => b = Raised /\ mview s1 = (a, m, e, exit_request (mcore s))
      | Fault a p site => b = Signalled site p /\
          mview s1 = (a, m, exception_index (mcore s), exit_request (mcore s))
      end
  end.
Proof.
  intros [H1 H2 H3 H4 H5 H6]. unfold PrefetchCore.exec_block, exec_state.
  destruct (running s) eqn:R.
  - unfold env. rewrite R. cbn [core_of]. rewrite H1.
    destruct (tcg_qemu_tb_exec _ _ _) as [[o x]|] eqn:E; cbn [mbind option_bind]; [|done].
    apply exec_solo in E as (E & Hsh & _). cbn in E, Hsh. rewrite E.
    destruct o as [a|a e|a p site]; intros [= <- <-]; destruct_sys s; cbn in *; try done; subst;
      (split; [split; cbn; try done; by rewrite Hsh|]; done).
  - unfold env. rewrite R. cbn [core_of]. rewrite H2.
    destruct (tcg_qemu_tb_exec _ _ _) as [[o x]|] eqn:E; cbn [mbind option_bind]; [|done].
    pose proof (fun Hq => exec_quiet _ _ _ _ _ _ _ Hq E) as Q. cbn in Q. clear E.
    destruct o as [a|a e|a p site]; intros [= <- <-]; destruct_sys s; cbn in *; try done; subst;
      (split; [split; cbn; done|]); (split; [done|]); (split; [done|]); intros Hq;
      destruct (Q Hq) as [Qm Qf]; (split; [done|]); intros site' p'; try done.
    intros _. by apply (Qf a p site).
Qed.

Lemma switch_core_spec s :
  IsPCore (mcore s) = false -> IsPCore (pcore s) = true ->
  processor_state (pcore s) = processor_state (mcore s) ->
  prefetchDistance (pcore s) <= runAheadThreshold ->
  sbytes (shadow (mcore s)) = ∅ ->
  (running s = PCore -> processor_state (pcore s) = IN_TRACE /\ InstQuatum (pcore s) = 0) ->
  sys_ok (switch_core runAheadThreshold s) /\ mview (switch_core runAheadThreshold s) = mview s /\
  (running s = PCore -> running (switch_core runAheadThreshold s) = MCore).
Proof.
  intros H1 H2 H3 H4 H6 H5. unfold switch_core.
  destruct (running s) eqn:R.
  - unfold env. rewrite R. cbn [core_of]. rewrite H1.
    destruct (IS_INTRACE (mcore s) && (InstQuatum (mcore s) =? 0)) eqn:G.
    + apply andb_true_iff in G as [G1 _]. unfold IS_INTRACE in G1. apply Z.eqb_eq in G1.
      destruct (Z.ltb_spec (prefetchDistance (pcore s)) runAheadThreshold);
        destruct_sys s; cbn in *; try done; subst; (split; [split; [split|]; cbn; done|]; done).
    + split; [|done]. split; [split|]; rewrite ?R; done.
  - destruct (H5 eq_refl) as [H5a H5b]. unfold env. rewrite R. cbn [core_of].
    unfold IS_INTRACE. rewrite H5a, H5b, H2. cbn [andb Z.eqb IN_TRACE].
    by destruct_sys s; cbn in *.
Qed.

Definition iter_state (r : @Iter Rest) : Sys :=
  match r with Looped s | Jumped s => s end.

(** ** Jumps *)

Lemma cpu_loop_exit_inv (c : Core) s r : cpu_loop_exit c s = Some r -> r = Jumped (set_running MCore s).
Proof. unfold cpu_loop_exit. by destruct (_ =? _); intros [= <-]. Qed.

Lemma set_running_ok s : base_ok s -> sys_ok (set_running MCore s) /\
  running (set_running MCore s) = MCore /\ mview (set_running MCore s) = mview s.
Proof.
  intros [H1 H2 H3 H4 H5 H6]. destruct_sys s; cbn in *; (split; [split; [split|]; cbn; done|]; done).
Qed.

(** A host signal: the main core gets the exception, whichever core was running. *)
Lemma signal_spec site p s r : base_ok s -> handle_cpu_signal site p s = Some r ->
  sys_ok (iter_state r) /\ (exists s', r = Jumped s') /\ running (iter_state r) = MCore /\
  mview (iter_state r) =
    (fault_arch site p (arch (mcore s)), mem s, EXCP_DATA_ABORT, exit_request (mcore s)).
Proof.
  intros Hb. unfold handle_cpu_signal. cbn zeta. intros ->%cpu_loop_exit_inv. cbn [iter_state].
  set (m := set_exception _ _).
  assert (base_ok (set_core MCore m s) /\ mview (set_core MCore m s) =
    (fault_arch site p (arch (mcore s)), mem s, EXCP_DATA_ABORT, exit_request (mcore s))) as [Hb' V].
  { destruct Hb as [H1 H2 H3 H4 H5 H6]. unfold m. destruct_sys s; cbn in *; (split; [split; cbn; done|done]). }
  destruct (set_running_ok _ Hb') as (A & B & C). split; [done|]. split; [by eexists|].
  split; [done|]. by rewrite C.
Qed.

(** The iteration of a finished block: the quantum, the hand-over and the switch. *)
Lemma finish_spec tb s1 r : base_ok s1 ->
  (let s2 := if IS_INTRACE (env s1)
             then set_env (set_quantum (uint32_t (InstQuatum (env s1) - 1)) (env s1)) s1 else s1 in
   s3 ← hand_over tb s2; Some (Looped (switch_core runAheadThreshold s3))) = Some r ->
  sys_ok (iter_state r) /\ (exists s', r = Looped s') /\ mview (iter_state r) = mview s1 /\
  (running s1 = PCore -> running (iter_state r) = MCore).
Proof.
  intros Hok1. cbn zeta. set (s2 := if IS_INTRACE (env s1) then _ else s1).
  assert (IsPCore (mcore s2) = false /\ IsPCore (pcore s2) = true /\
    processor_state (pcore s2) = processor_state (mcore s2) /\
    prefetchDistance (pcore s2) <= runAheadThreshold /\ sbytes (shadow (mcore s2)) = ∅ /\
    (running s2 = PCore -> processor_state (pcore s2) = IN_TRACE /\ InstQuatum (pcore s2) = 0) /\
    running s2 = running s1 /\ mview s2 = mview s1) as (K1 & K2 & K3 & K4 & K5 & K6 & K7 & K8).
  { unfold s2. destruct Hok1 as [H1 H2 H3 H4 H5 H6]. clear s2.
    destruct (running s1) eqn:R.
    - destruct (IS_INTRACE (env s1)); destruct_sys s1; cbn in *; done.
    - destruct (H5 eq_refl) as [H5a H5b].
      assert (IS_INTRACE (env s1) = true) as ->.
      { unfold env, IS_INTRACE. rewrite R. cbn. by rewrite H5a. }
      destruct_sys s1; cbn in *; try done; subst. done. }
  clearbody s2. destruct (hand_over tb s2) as [s3|] eqn:EH; cbn [mbind option_bind]; [|done].
  apply hand_over_frame in EH. pose proof (frame_mview _ _ EH) as Fv.
  destruct EH as (FR & FM & (x & o & Ec) & (x' & o' & Ep)).
  intros [= <-]. cbn [iter_state].
  destruct (switch_core_spec s3) as (S1 & S2 & S3).
  { rewrite Ec. by destruct (mcore s2). }
  { rewrite Ep. by destruct (pcore s2). }
  { rewrite Ec, Ep. by destruct (mcore s2), (pcore s2). }
  { rewrite Ep. by destruct (pcore s2). }
  { rewrite Ec. by destruct (mcore s2). }
  { rewrite FR, Ep. by destruct (pcore s2). }
  split; [done|]. split; [by eexists|]. split; [congruence|]. intros R. apply S3. congruence.
Qed.

(** ** The main core alone *)

(** The exception an outcome leaves, if any, with the registers. *)
Definition delivered (o : Outcome Arch) : Arch * option Z :=
  match o with
  | Done a => (a, None)
  | Excp a e => (a, Some e)
  | Fault a p site => (fault_arch site p a, Some EXCP_DATA_ABORT)
  end.

(** One block: look it up and run it. *)
Definition solo_outcome (a : Arch) (m : Memory) : Outcome Arch * Memory :=
  match tb_lookup m a with
  | Fetched tb => solo_exec (blk_code tb a) m
  | Unmapped p => (Fault a p None, m)
  end.

Definition solo_step (a : Arch) (m : Memory) : Arch * option Z * Memory :=
  (delivered (solo_outcome a m).1, (solo_outcome a m).2).

(** ** One iteration *)

Lemma run_block_spec tb s r : base_ok s -> run_block tb s = Some r ->
  sys_ok (iter_state r) /\ (forall s', r = Jumped s' -> running s' = MCore) /\
  match running s with
  | PCore => running (iter_state r) = MCore /\
      (run_quiet (blk_code tb (arch (env s))) (exec_state s) = true ->
       mview (iter_state r) = mview s)
  | MCore =>
      let '(o, m) := solo_exec (blk_code tb (arch (mcore s))) (mem s) in
      let '(a, ex) := delivered o in
      match ex with
      | None => (exists s', r = Looped s') /\
          mview (iter_state r) = (a, m, exception_index (mcore s), exit_request (mcore s))
      | Some e => (exists s', r = Jumped s') /\ mview (iter_state r) = (a, m, e, exit_request (mcore s))
      end
  end.
Proof.
  intros Hok. unfold PrefetchCore.run_block.
  destruct (exec_block _ _) as [[b s1]|] eqn:E; cbn [mbind option_bind]; [|done].
  destruct (exec_block_spec _ _ _ _ Hok E) as (Hok1 & R1 & Hv). clear E.
  assert (mcore s1 = mcore s -> mem s1 = mem s -> mview s1 = mview s) as Hview
    by (unfold mview; by intros -> ->).
  destruct b as [| |site p].
  - intros H. destruct (finish_spec tb s1 r Hok1 H) as (A & [s' ->] & V & RP). cbn [iter_state] in *.
    split; [done|]. split; [done|]. rewrite V. destruct (running s).
    + destruct (solo_exec _ _) as [[a|a e|a p site] m]; [|naive_solver..]. destruct Hv as [_ Hv].
      split; [by eexists|done].
    + destruct Hv as [Hm Hq]. split; [by apply RP|]. intros Q. apply Hview; [done|]. by apply Hq.
  - intros ->%cpu_loop_exit_inv. destruct (set_running_ok _ Hok1) as (A & B & C). cbn [iter_state].
    split; [done|]. split; [by intros s' [= <-]|]. rewrite C. destruct (running s).
    + destruct (solo_exec _ _) as [[a|a e|a p site] m]; [naive_solver| |naive_solver].
      destruct Hv as [_ Hv]. split; [by eexists|done].
    + destruct Hv as [Hm Hq]. split; [done|]. intros Q. apply Hview; [done|]. by apply Hq.
  - intros H. destruct (signal_spec _ _ _ _ Hok1 H) as (A & [s' ->] & B & V). cbn [iter_state] in *.
    split; [done|]. split; [by intros s'' [= <-]|]. destruct (running s).
    + destruct (solo_exec _ _) as [[a|a e|a p' site'] m]; [naive_solver..|].
      destruct Hv as [[= <- <-] Hv]. split; [by eexists|]. rewrite V. unfold mview in Hv.
      by injection Hv as -> -> _ ->.
    + destruct Hv as [Hm Hq]. split; [done|]. intros Q. by destruct (Hq Q) as [_ Hn]; destruct (Hn site p).
Qed.

(** The prefetch core disturbs nothing in its iteration from [s]: the code it looks up is
    mapped, and its block takes no host signal and makes no eight-byte store. *)
Definition iter_quiet (skips : nat) (s : Sys) : bool :=
  exit_request (env s) ||
  match prepare skips s with
  | Some (NoCode _ _) => false
  | Some (Execute tb s2) => run_quiet (blk_code tb (arch (env s2))) (exec_state s2)
  | _ => true
  end.

Lemma mview_eq s s' : mview s' = mview s ->
  arch (mcore s') = arch (mcore s) /\ mem s' = mem s /\
  exception_index (mcore s') = exception_index (mcore s) /\
  exit_request (mcore s') = exit_request (mcore s).
Proof. unfold mview. by intros [= -> -> -> ->]. Qed.

Lemma inner_iter_spec skips s r : 0 <= runAheadThreshold -> sys_ok s ->
  inner_iter skips s = Some r ->
  sys_ok (iter_state r) /\ (forall s', r = Jumped s' -> running s' = MCore) /\
  match running s with
  | PCore => running (iter_state r) = MCore /\
      (iter_quiet skips s = true -> mview (iter_state r) = mview s)
  | MCore =>
      if exit_request (mcore s) then
        (exists s', r = Jumped s') /\
        mview (iter_state r) = (arch (mcore s), mem s, EXCP_INTERRUPT, false)
      else
        let '(a, ex, m) := solo_step (arch (mcore s)) (mem s) in
        match ex with
        | None => (exists s', r = Looped s') /\
            mview (iter_state r) = (a, m, exception_index (mcore s), false)
        | Some e => (exists s', r = Jumped s') /\ mview (iter_state r) = (a, m, e, false)
        end
  end.
Proof.
  intros Hthr Hok. unfold PrefetchCore.inner_iter, iter_quiet.
  destruct (exit_request (env s)) eqn:X.
  { cbn zeta. intros ->%cpu_loop_exit_inv. cbn [iter_state]. destruct Hok as ([H1 H2 H3 H4 H5 H6] & H7).
    destruct_sys s; cbn in *; subst; (split; [split; [split|]; cbn; done|]);
      (split; [by intros s' [= <-]|]); (split; [|done]); try done; by eexists. }
  assert (running s = MCore -> exit_request (mcore s) = false) as HX
    by (intros R; unfold env in X; by rewrite R in X).
  destruct (prepare skips s) as [p|] eqn:Ep; cbn [mbind option_bind orb]; [|done].
  pose proof (prepare_spec _ _ _ Hthr Hok Ep) as HP. destruct p as [s2|address s2|tb s2].
  - intros [= <-]. destruct HP as (A & R & R2 & V). cbn [iter_state]. split; [done|]. split; [done|].
    by rewrite R.
  - destruct HP as (A & R & V & T). intros H.
    destruct (signal_spec _ _ _ _ (proj1 A) H) as (A' & [s' ->] & B & V'). cbn [iter_state] in *.
    split; [done|]. split; [by intros s'' [= <-]|]. destruct (running s); [|done].
    rewrite (HX eq_refl). unfold solo_step, solo_outcome. rewrite (T eq_refl). cbn.
    apply mview_eq in V as (Va & Vm & Ve & Vx). split; [by eexists|].
    by rewrite V', Va, Vm, Vx, (HX eq_refl).
  - destruct HP as (A & R & V & T). intros H.
    destruct (run_block_spec _ _ _ A H) as (A' & HJ & HV). split; [done|]. split; [done|].
    rewrite R in HV. apply mview_eq in V as (Va & Vm & Ve & Vx). destruct (running s).
    + rewrite (HX eq_refl). unfold solo_step, solo_outcome. rewrite (T eq_refl).
      rewrite Va, Vm, Ve, Vx, (HX eq_refl) in HV.
      destruct (solo_exec _ _) as [o m]; cbn [fst snd] in *. by destruct (delivered o) as [a [e|]].
    + destruct HV as [B HV]. split; [done|]. intros Q. rewrite (HV Q). unfold mview. congruence.
Qed.

(** ** The whole of [cpu_exec] *)

(** The main core alone until an exception that [cpu_exec] reports. *)
Fixpoint solo_run (n : nat) (a : Arch) (m : Memory) : option (Z * Arch * Memory) :=
  match n with
  | O => None
  | S n' =>
      match solo_step a m with
      | (a', None, m') => solo_run n' a' m'
      | (a', Some e, m') => if 0 <=? e then Some (e, a', m') else solo_run n' a' m'
      end
  end.

(** What the solo run from [s] can still do, it can do from the state before. *)
Definition solo_from (s : Sys) (R : Z * Arch * Memory) : Prop :=
  exists n, solo_run n (arch (mcore s)) (mem s) = Some R.

Definition m_result (s : Sys) : Z * Arch * Memory :=
  (exception_index (mcore s), arch (mcore s), mem s).

(** The states at the start of the iterations of one activation of [cpu_exec], with the
    number of iterations made. *)
Inductive reached (skips : nat) : Sys -> nat -> Sys -> Prop :=
  | reached_here s : reached skips s 0 s
  | reached_loop s s' k t : inner_iter skips s = Some (Looped s') ->
      reached skips s' k t -> reached skips s (S k) t
  | reached_jump s s' k t : inner_iter skips s = Some (Jumped s') ->
      exception_index (mcore s') < 0 -> reached skips (setjmp s') k t -> reached skips s (S k) t.

Definition undisturbed (skips : nat) (s : Sys) : Prop :=
  forall k t, reached skips s k t -> running t = PCore -> iter_quiet skips t = true.

(** An executable check of it: the activation ends within [n] iterations, all of them
    defined and quiet. *)
Fixpoint clean_for (n : nat) (skips : nat) (s : Sys) : bool :=
  match n with
  | O => false
  | S n' =>
      match running s with MCore => true | PCore => iter_quiet skips s end &&
      match inner_iter skips s with
      | None => false
      | Some (Looped s') => clean_for n' skips s'
      | Some (Jumped s') => (0 <=? exception_index (mcore s')) || clean_for n' skips (setjmp s')
      end
  end.

Lemma clean_for_reached n skips s k t : clean_for n skips s = true -> reached skips s k t ->
  is_Some (inner_iter skips t) /\ (running t = PCore -> iter_quiet skips t = true).
Proof.
  intros H Hr. revert n H. induction Hr as [s|s s' k t E Hr IH|s s' k t E He Hr IH];
    intros [|n] H; try done; cbn [clean_for] in H; apply andb_true_iff in H as [Hq H].
  - split; [by destruct (inner_iter skips s)|]. intros R. by rewrite R in Hq.
  - rewrite E in H. by apply (IH n).
  - rewrite E in H. destruct (Z.leb_spec 0 (exception_index (mcore s'))); [lia|]. by apply (IH n).
Qed.

Lemma clean_for_undisturbed n skips s : clean_for n skips s = true -> undisturbed skips s.
Proof. intros H k t Hr. by apply (clean_for_reached n skips s k t H Hr). Qed.

Lemma undisturbed_loop skips s s' : inner_iter skips s = Some (Looped s') ->
  undisturbed skips s -> undisturbed skips s'.
Proof. intros E H k t Hr. apply (H (S k)). by eapply reached_loop. Qed.

Lemma undisturbed_jump skips s s' : inner_iter skips s = Some (Jumped s') ->
  exception_index (mcore s') < 0 -> undisturbed skips s -> undisturbed skips (setjmp s').
Proof. intros E He H k t Hr. apply (H (S k)). by eapply reached_jump. Qed.

Lemma setjmp_ok s : sys_ok s -> sys_ok (setjmp s).
Proof.
  intros ([H1 H2 H3 H4 H5 H6] & H7). destruct_sys s; cbn in *; (split; [split|]; cbn; done).
Qed.

Lemma setjmp_fields s : running (setjmp s) = running s /\ mview (setjmp s) = mview s.
Proof. by destruct_sys s. Qed.

#[local] Abbreviation inner_loop := (inner_loop tb_lookup readable writable runAheadThreshold HAS_SPPSLICE).
#[local] Abbreviation outer_loop := (outer_loop tb_lookup readable writable runAheadThreshold HAS_SPPSLICE).
#[local] Abbreviation cpu_exec := (cpu_exec tb_lookup readable writable runAheadThreshold HAS_SPPSLICE).

(** The main core is running its program. *)
Definition ready (s : Sys) : Prop :=
  sys_ok s /\ exit_request (mcore s) = false /\ exception_index (mcore s) < 0.

Lemma ready_setjmp s : ready s -> ready (setjmp s).
Proof.
  intros (A & B & C). destruct (setjmp_fields s) as [_ (_ & _ & Ve & Vx)%mview_eq].
  split; [by apply setjmp_ok|]. split; [congruence|lia].
Qed.

Lemma setjmp_result s : m_result (setjmp s) = m_result s.
Proof. by destruct_sys s. Qed.

(** One iteration, seen from the solo run. *)
Lemma inner_iter_solo skips s r : 0 <= runAheadThreshold -> ready s ->
  (running s = PCore -> iter_quiet skips s = true) -> inner_iter skips s = Some r ->
  sys_ok (iter_state r) /\ exit_request (mcore (iter_state r)) = false /\
  ((exists s', r = Looped s') -> exception_index (mcore (iter_state r)) < 0) /\
  ((exists s', r = Jumped s') -> running (iter_state r) = MCore) /\
  (if 0 <=? exception_index (mcore (iter_state r)) then solo_from s (m_result (iter_state r))
   else forall R, solo_from (iter_state r) R -> solo_from s R).
Proof.
  intros Hthr (Hok & Hx & He) Hq H. destruct (inner_iter_spec _ _ _ Hthr Hok H) as (Hok' & HJ & HV).
  split; [done|].
  assert ((exists s', r = Jumped s') -> running (iter_state r) = MCore) as HJ'.
  { intros [s' ->]. by apply HJ. }
  destruct (running s).
  - rewrite Hx in HV. destruct (solo_step _ _) as [[a [e|]] m] eqn:Es;
      destruct HV as [[s' ->] HV]; cbn [iter_state] in *; unfold mview in HV;
      injection HV as Va Vm Ve Vx; (split; [done|]).
    + split; [by intros []|]. split; [done|].
      rewrite Ve. destruct (Z.leb_spec 0 e).
      * exists 1%nat. cbn [solo_run]. rewrite Es. unfold m_result. rewrite Va, Vm, Ve.
        by destruct (Z.leb_spec 0 e); [|lia].
      * intros R (n & Hn). exists (S n). cbn [solo_run]. rewrite Es.
        destruct (Z.leb_spec 0 e); [lia|]. by rewrite <- Va, <- Vm.
    + split; [lia|]. split; [done|].
      destruct (Z.leb_spec 0 (exception_index (mcore s'))); [lia|].
      intros R (n & Hn). exists (S n). cbn [solo_run]. rewrite Es. by rewrite <- Va, <- Vm.
  - destruct HV as [_ HV]. apply mview_eq in HV as (Va & Vm & Ve & Vx); [|by apply Hq].
    split; [congruence|]. split; [intros; lia|]. split; [done|].
    rewrite Ve. destruct (Z.leb_spec 0 (exception_index (mcore s))); [lia|].
    intros R (n & Hn). exists n. congruence.
Qed.

Lemma inner_loop_solo fuel skips s s' : 0 <= runAheadThreshold -> ready s -> undisturbed skips s ->
  inner_loop fuel skips s = Some s' ->
  sys_ok s' /\ exit_request (mcore s') = false /\ running s' = MCore /\
  (if 0 <=? exception_index (mcore s') then solo_from s (m_result s')
   else undisturbed skips (setjmp s') /\ forall R, solo_from s' R -> solo_from s R).
Proof.
  intros Hthr. revert s. induction fuel as [|fuel IH]; intros s Hr Hu; cbn [PrefetchCore.inner_loop]; [done|].
  destruct (inner_iter skips s) as [r|] eqn:E; cbn [mbind option_bind]; [|done].
  destruct (inner_iter_solo _ _ _ Hthr Hr (Hu 0%nat s (reached_here _ _)) E) as (Hok' & Hx' & HL & HJ & HS).
  destruct r as [s1|s1]; cbn [iter_state] in *.
  - intros H. specialize (HL ltac:(by eexists)).
    destruct (Z.leb_spec 0 (exception_index (mcore s1))); [lia|].
    destruct (IH s1 (conj Hok' (conj Hx' HL)) (undisturbed_loop _ _ _ E Hu) H) as (A & B & C & D).
    split; [done|]. split; [done|]. split; [done|]. destruct (0 <=? _); [by apply HS|].
    destruct D as [D1 D2]. split; [done|]. auto.
  - intros [= <-]. specialize (HJ ltac:(by eexists)). split; [done|]. split; [done|]. split; [done|].
    destruct (Z.leb_spec 0 (exception_index (mcore s1))); [done|]. split; [|done].
    by apply (undisturbed_jump _ s).
Qed.

Lemma prologue_ok s : sys_ok s -> exit_request (mcore s) = false ->
  let s0 := cpu_exec_prologue runAheadThreshold false s in
  sys_ok s0 /\ running s0 = MCore /\
  mview s0 = (arch (mcore s), mem s, -1, false).
Proof.
  intros ([H1 H2 H3 H4 H5 H6] & H7) Hx. destruct_sys s; cbn in *; subst;
    (split; [split; [split|]; cbn; done|]; done).
Qed.

Lemma inner_loop_mono f f' skips s s' : (f <= f')%nat ->
  inner_loop f skips s = Some s' -> inner_loop f' skips s = Some s'.
Proof.
  revert f' s. induction f as [|f IH]; intros f' s Hle; cbn [PrefetchCore.inner_loop]; [done|].
  destruct f' as [|f']; [lia|]. cbn [PrefetchCore.inner_loop].
  destruct (inner_iter skips s) as [[s1|s1]|]; cbn [mbind option_bind]; [|done|done].
  apply IH. lia.
Qed.

(** The head of the outer loop. *)
Lemma outer_loop_S fuel skips s : running s = MCore ->
  outer_loop (S fuel) skips s =
  if 0 <=? exception_index (mcore s) then Some (exception_index (mcore s), setjmp s)
  else s' ← inner_loop (S fuel) skips (setjmp s); outer_loop fuel skips s'.
Proof.
  intros R. cbn [PrefetchCore.outer_loop]. unfold env.
  destruct (setjmp_fields s) as [Rs (_ & _ & Ve & _)%mview_eq]. rewrite Rs, R. cbn [core_of].
  by rewrite Ve.
Qed.

(** The host signal that the iteration from [s] takes, if any: its address, and the
    place in the block if the block made the access. *)
Definition signal_of (skips : nat) (s : Sys) : option (option Site * Z) :=
  match prepare skips s with
  | Some (NoCode address _) => Some (None, address)
  | Some (Execute tb s2) =>
      match exec_block tb s2 with
      | Some (Signalled site address, _) => Some (site, address)
      | _ => None
      end
  | _ => None
  end.

Lemma pcore_signal skips s r site address : 0 <= runAheadThreshold -> sys_ok s -> running s = PCore ->
  exit_request (pcore s) = false -> signal_of skips s = Some (site, address) ->
  inner_iter skips s = Some r ->
  (exists s', r = Jumped s') /\ arch (mcore (iter_state r)) = fault_arch site address (arch (mcore s)) /\
  exception_index (mcore (iter_state r)) = EXCP_DATA_ABORT.
Proof.
  intros Hthr Hok R X. unfold signal_of, PrefetchCore.inner_iter, env. rewrite R. cbn [core_of]. rewrite X.
  destruct (prepare skips s) as [p|] eqn:Ep; [|done]. cbn [mbind option_bind].
  pose proof (prepare_spec _ _ _ Hthr Hok Ep) as HP. destruct p as [s2|ad s2|tb s2]; [done|..].
  - intros [= <- <-] H. destruct HP as (A & R2 & V & _). apply mview_eq in V as (Va & _ & _ & _).
    destruct (signal_spec _ _ _ _ (proj1 A) H) as (_ & J & _ & V'). unfold mview in V'.
    injection V' as -> _ -> _. rewrite Va. done.
  - destruct HP as (A & R2 & V & _). unfold PrefetchCore.run_block.
    destruct (exec_block tb s2) as [[[| |st ad] s3]|] eqn:E; try done. intros [= <- <-].
    cbn [mbind option_bind]. intros H. destruct (exec_block_spec _ _ _ _ A E) as (A' & _ & Hv).
    rewrite R2, R in Hv. destruct Hv as [Hm _].
    destruct (signal_spec _ _ _ _ A' H) as (_ & J & _ & V'). unfold mview in V'.
    injection V' as -> _ -> _. rewrite Hm. apply mview_eq in V as (-> & _). done.
Qed.


(** ** Progress: the prefetch core cannot starve the main core *)

Section Progress.
Context (skips : nat) (Hthr : 0 <= runAheadThreshold).

(** The emulator stops at [t] (a failed assertion or an undefined operation), or the
    prefetch core disturbs the main core there. *)
Definition trouble (t : Sys) : Prop :=
  inner_iter skips t = None \/ (running t = PCore /\ iter_quiet skips t = false).

Definition trouble_within (b : nat) (s : Sys) : Prop :=
  exists k t, (k < b)%nat /\ reached skips s k t /\ trouble t.

Lemma trouble_here b s : (0 < b)%nat -> trouble s -> trouble_within b s.
Proof. intros Hb H. exists 0%nat, s. split; [done|]. split; [constructor|done]. Qed.

Lemma trouble_loop b s s' : inner_iter skips s = Some (Looped s') ->
  trouble_within b s' -> trouble_within (S b) s.
Proof.
  intros E (k & t & Hk & Hr & Ht). exists (S k), t. split; [lia|]. split; [by eapply reached_loop|done].
Qed.

Lemma trouble_jump b s s' : inner_iter skips s = Some (Jumped s') -> exception_index (mcore s') < 0 ->
  trouble_within b (setjmp s') -> trouble_within (S b) s.
Proof.
  intros E He (k & t & Hk & Hr & Ht). exists (S k), t. split; [lia|]. split; [by eapply reached_jump|done].
Qed.

Lemma trouble_mono b b' s : (b <= b')%nat -> trouble_within b s -> trouble_within b' s.
Proof. intros Hb (k & t & Hk & Hr & Ht). exists k, t. split; [lia|done]. Qed.

(** The iterations still needed when the main core has [n] blocks to go. *)
Definition budget (n : nat) (s : Sys) : nat :=
  (2 * n + match running s with PCore => 1 | MCore => 0 end)%nat.

(** What an iteration without trouble does to the main core's remaining run: it is over,
    or fewer iterations remain. *)
Lemma iter_progress n s R : ready s -> solo_run n (arch (mcore s)) (mem s) = Some R ->
  (0 < budget n s)%nat /\
  (trouble s \/ exists r, inner_iter skips s = Some r /\
    ((0 <= exception_index (mcore (iter_state r)) /\ m_result (iter_state r) = R /\
      (exists s', r = Jumped s' /\ running s' = MCore)) \/
     (ready (iter_state r) /\ (forall s', r = Jumped s' -> running s' = MCore) /\
      exists n', (budget n' (iter_state r) < budget n s)%nat /\
        solo_run n' (arch (mcore (iter_state r))) (mem (iter_state r)) = Some R))).
Proof.
  intros (Hok & Hx & He) Hn.
  assert (0 < n)%nat as Hpos by (destruct n; [done|lia]).
  split; [unfold budget; lia|]. destruct (inner_iter skips s) as [r|] eqn:Er; [|by left; left].
  destruct (inner_iter_spec _ _ _ Hthr Hok Er) as (Hok' & HJ & HV). destruct (running s) eqn:Rs.
  - right. exists r. split; [done|]. rewrite Hx in HV. destruct n as [|n]; [done|]. cbn [solo_run] in Hn.
    destruct (solo_step _ _) as [[a [e|]] m]; destruct HV as [[s' ->] HV]; cbn [iter_state] in *;
      unfold mview in HV; injection HV as Va Vm Ve Vx.
    + destruct (Z.leb_spec 0 e).
      * left. split; [lia|]. split; [unfold m_result; congruence|]. exists s'. split; [done|]. by apply HJ.
      * right. split; [split; [done|split; [done|lia]]|]. split; [done|]. exists n.
        split; [unfold budget; rewrite Rs, (HJ s' eq_refl); lia|]. by rewrite Va, Vm.
    + right. split; [split; [done|split; [done|lia]]|]. split; [done|]. exists n.
      split; [unfold budget; rewrite Rs; destruct (running s'); lia|]. by rewrite Va, Vm.
  - destruct HV as [RM HV]. destruct (iter_quiet skips s) eqn:Q; [|left; right; by split].
    right. exists r. split; [done|]. right. specialize (HV eq_refl). apply mview_eq in HV as (Va & Vm & Ve & Vx).
    split; [split; [done|split; [congruence|lia]]|]. split; [done|]. exists n.
    split; [unfold budget; rewrite Rs, RM; lia|]. by rewrite Va, Vm.
Qed.

(** The inner loop jumps out within the budget, with the main core's exception, or with
    fewer iterations to go, unless there is trouble. *)
Lemma inner_loop_progress k n s R : ready s -> budget n s = k ->
  solo_run n (arch (mcore s)) (mem s) = Some R ->
  trouble_within k s \/
  exists s', inner_loop k skips s = Some s' /\ running s' = MCore /\
    ((0 <= exception_index (mcore s') /\ m_result s' = R) \/
     (ready s' /\ exists n', (budget n' s' < k)%nat /\
        solo_run n' (arch (mcore s')) (mem s') = Some R /\
        (trouble_within (budget n' s') (setjmp s') -> trouble_within k s))).
Proof.
  revert n s. induction k as [k IH] using lt_wf_ind. intros n s Hr Hk Hn.
  destruct (iter_progress n s R Hr Hn) as [Hpos [T|(r & Er & D)]].
  { left. apply trouble_here; [lia|done]. }
  rewrite Hk in *. destruct k as [|k]; [lia|].
  assert (forall s', r = Jumped s' -> inner_loop (S k) skips s = Some s') as EJ.
  { intros s' ->. cbn [PrefetchCore.inner_loop]. by rewrite Er. }
  destruct D as [(He & HR & s' & -> & RM)|(Hr' & HJ & n' & Hb & Hn')].
  { right. exists s'. split; [by apply EJ|]. split; [done|]. by left. }
  destruct r as [s'|s']; cbn [iter_state] in *.
  - destruct (IH (budget n' s') ltac:(lia) n' s' Hr' eq_refl Hn') as [T|(s2 & E2 & R2 & D)].
    { left. apply (trouble_mono (S (budget n' s'))); [lia|]. by apply (trouble_loop _ _ _ Er). }
    right. exists s2. split.
    { cbn [PrefetchCore.inner_loop]. rewrite Er. cbn [mbind option_bind].
      apply (inner_loop_mono (budget n' s')); [lia|done]. }
    split; [done|]. destruct D as [D|(D1 & n2 & D2 & D3 & D4)]; [by left|]. right. split; [done|].
    exists n2. split; [lia|]. split; [done|]. intros T. apply (trouble_mono (S (budget n' s'))); [lia|].
    apply (trouble_loop _ _ _ Er). by apply D4.
  - right. exists s'. split; [by apply EJ|]. split; [by apply HJ|]. right. split; [done|].
    exists n'. split; [done|]. split; [done|]. intros T. apply (trouble_mono (S (budget n' s'))); [lia|].
    apply (trouble_jump _ _ _ Er); [apply Hr'|done].
Qed.

Lemma outer_loop_progress n e a m s0 f : ready s0 -> running s0 = MCore -> (2 * n + 2 <= f)%nat ->
  solo_run n (arch (mcore s0)) (mem s0) = Some (e, a, m) ->
  (exists s', outer_loop f skips s0 = Some (e, s') /\ arch (mcore s') = a /\ mem s' = m) \/
  trouble_within (2 * n) (setjmp s0).
Proof.
  revert s0 f. induction n as [n IH] using lt_wf_ind. intros s0 f Hr R0 Hf Hn.
  destruct f as [|f]; [lia|]. rewrite outer_loop_S by done.
  pose proof Hr as (_ & _ & He). destruct (Z.leb_spec 0 (exception_index (mcore s0))) as [|_]; [lia|].
  destruct (setjmp_fields s0) as [Rs (Va & Vm & _ & _)%mview_eq].
  assert (budget n (setjmp s0) = 2 * n)%nat as Hb by (unfold budget; rewrite Rs, R0; lia).
  destruct (inner_loop_progress (2 * n) n (setjmp s0) (e, a, m) (ready_setjmp _ Hr) Hb)
    as [T|(s1 & E1 & R1 & D)]; [by rewrite Va, Vm|by right|].
  rewrite (inner_loop_mono (2 * n) (S f) skips _ s1 ltac:(lia) E1). cbn [mbind option_bind].
  destruct D as [[He1 HR]|(Hr1 & n' & Hn' & Hs1 & HT)].
  - left. destruct f as [|f]; [lia|]. rewrite outer_loop_S by done.
    destruct (Z.leb_spec 0 (exception_index (mcore s1))); [|lia].
    pose proof (setjmp_result s1) as HS. rewrite HR in HS. unfold m_result in HR, HS.
    injection HR as HR1 HR2 HR3. injection HS as HS1 HS2 HS3. exists (setjmp s1). by rewrite HR1.
  - assert (budget n' s1 = 2 * n')%nat as Hb1 by (unfold budget; rewrite R1; lia). rewrite Hb1 in *.
    destruct (IH n' ltac:(lia) s1 f Hr1 R1 ltac:(lia) Hs1) as [D|T]; [by left|]. right. by apply HT.
Qed.
End Progress.

End Proofs.
