(* ===== verification/PrefetchProps.v ===== *)
(** * Bounds and scheduling of the prefetch core

    The run-ahead bound and the role invariants over all reachable states, the
    termination of block skipping, the accuracy counter, and the quantum left
    behind by a prefetch core that raises an exception. *)

From S2P Require Import Prelude ShadowMem TraceExpand GuestExec PrefetchCore PrefetchProofs.
Open Scope Z_scope.

Section Props.
Context {Rest : Type}.
#[local] Abbreviation Arch := (@Arch Rest).
#[local] Abbreviation Core := (@Core Rest).
#[local] Abbreviation Sys := (@Sys Rest).
#[local] Abbreviation TBlock := (@TBlock Rest).
Context (tb_lookup : Memory -> Arch -> @Fetch Rest) (readable writable : Z -> bool).
Context (runAheadThreshold : Z) (HAS_SPPSLICE : bool).
#[local] Abbreviation inner_iter := (inner_iter tb_lookup readable writable runAheadThreshold HAS_SPPSLICE).
#[local] Abbreviation exec_block := (exec_block readable writable runAheadThreshold).
#[local] Abbreviation sys_ok := (sys_ok runAheadThreshold).

(** ** Reachable states *)

(** One step of the machine: an iteration of the inner loop, the head of the outer loop
    after a jump, or the return from [cpu_exec] and the next call of it. *)
Inductive step (skips : nat) : Sys -> Sys -> Prop :=
  | step_iter s r : inner_iter skips s = Some r -> step skips s (iter_state r)
  | step_setjmp s : running s = MCore -> step skips s (setjmp s)
  | step_call s req : running s = MCore ->
      step skips s (cpu_exec_prologue runAheadThreshold req s).

Lemma step_ok skips s s' : 0 <= runAheadThreshold -> sys_ok s -> step skips s s' -> sys_ok s'.
Proof.
  intros Hthr Hok Hs. destruct Hs as [s r Hr|s R|s req R].
  - by apply (inner_iter_spec tb_lookup readable writable runAheadThreshold HAS_SPPSLICE skips s r Hthr Hok) in Hr as [? _].
  - by apply setjmp_ok.
  - destruct Hok as ([H1 H2 H3 H4 H5 H6] & H7).
    destruct_sys s; cbn in *; try done; destruct req;
      (split; [split|]; cbn; done).
Qed.

(** C12: in every reachable state the prefetch core has run at most
    [runAheadThreshold] delinquent loads ahead, the two cores keep their roles
    and agree on being in trace, and the prefetch core only runs in trace. *)
Theorem run_ahead_bounded skips s s' :
  0 <= runAheadThreshold -> sys_ok s -> rtc (step skips) s s' ->
  prefetchDistance (pcore s') <= runAheadThreshold /\
  IsPCore (mcore s') = false /\ IsPCore (pcore s') = true /\
  processor_state (pcore s') = processor_state (mcore s') /\
  (running s' = PCore -> processor_state (mcore s') = IN_TRACE).
Proof.
  intros Hthr Hok Hr.
  assert (sys_ok s') as ([H1 H2 H3 H4 H5 H6] & H7).
  { induction Hr as [|s1 s2 s3 H12 _ IH]; [done|]. apply IH. by eapply step_ok. }
  split_and!; try done. intros R. rewrite <- H3. by apply H5.
Qed.

(** ** Block skipping *)

Section Skipping.
(** What the translator promises: a block ends after it starts, and blocks
    translated at different addresses are different. *)
Context (next_after : forall m a tb, tb_lookup m a = Fetched tb -> GET_PC a < blk_next_pc tb).
Context (id_pc : forall m a a' tb tb', tb_lookup m a = Fetched tb -> tb_lookup m a' = Fetched tb' ->
  blk_id tb = blk_id tb' -> GET_PC a = GET_PC a').

Definition skips_left (pc : Z) (l : list Z) : nat := length (filter (fun x => pc <= x) l).

Lemma mem_pc_spec pc l : mem_pc pc l = true <-> pc ∈ l.
Proof.
  unfold mem_pc. rewrite existsb_exists. split.
  - intros (x & Hx & E). apply Z.eqb_eq in E as ->. by apply list_elem_of_In.
  - intros H. exists pc. split; [by apply list_elem_of_In|apply Z.eqb_refl].
Qed.

Lemma skips_left_le pc pc' l : pc <= pc' -> (skips_left pc' l <= skips_left pc l)%nat.
Proof.
  intros Hle. unfold skips_left. induction l as [|z l IH]; [done|].
  rewrite !filter_cons. repeat case_decide; cbn; lia.
Qed.

Lemma skips_left_lt pc pc' l : pc < pc' -> pc ∈ l -> (skips_left pc' l < skips_left pc l)%nat.
Proof.
  intros Hlt. induction l as [|z l IH]; [by intros ?%not_elem_of_nil|].
  pose proof (skips_left_le pc pc' l ltac:(lia)) as Hle. unfold skips_left in *.
  rewrite !filter_cons. intros [->|Hin]%elem_of_cons.
  - repeat case_decide; cbn; lia.
  - specialize (IH Hin). repeat case_decide; cbn; lia.
Qed.

Lemma pc_set_pc x (c : Core) : (15 < length (regs (arch c)))%nat -> pc_of (set_pc x c) = x.
Proof.
  intros H. destruct c; cbn in *. unfold pc_of, GET_PC. cbn.
  by rewrite list_lookup_insert_eq.
Qed.

(** Skipping terminates: after at most one step per entry of the skip list
    the prefetch core stands at the first block that is not skipped, with the
    block to execute translated for exactly that address, or at an address whose
    code is not mapped. *)
Lemma skip_loop_terminates fuel m (c : Core) tb :
  IsPCore c = true -> (15 < length (regs (arch c)))%nat -> tb_lookup m (arch c) = Fetched tb ->
  (skips_left (pc_of c) (skip_list c) < fuel)%nat ->
  exists c' f, skip_loop tb_lookup fuel m c tb = Some (c', f) /\
    f = tb_lookup m (arch c') /\ pc_of c <= pc_of c' /\ core_moved c c' /\
    (pc_of c' ∉ skip_list c \/ exists address, f = Unmapped address).
Proof.
  revert c tb. induction fuel as [|fuel IH]; intros c tb Hp Hr Ht Hf; [lia|].
  cbn [skip_loop]. unfold qemu_skip_pc_monitor. rewrite Hp. cbn [negb].
  destruct (mem_pc (pc_of c) (skip_list c)) eqn:E; cbn [mbind option_bind].
  - set (c1 := set_pc (blk_next_pc tb) c).
    assert (pc_of c1 = blk_next_pc tb) as Hpc1 by (by apply pc_set_pc).
    pose proof (next_after m (arch c) tb Ht) as Hn. fold (pc_of c) in Hn.
    assert (IsPCore c1 = true /\ (15 < length (regs (arch c1)))%nat /\
            skip_list c1 = skip_list c) as (Hp1 & Hr1 & Hs1).
    { unfold c1. destruct c; cbn in *. by rewrite length_insert. }
    destruct (tb_lookup m (arch c1)) as [tb1|address] eqn:Et1.
    2:{ exists c1, (Unmapped address). split; [done|]. split; [done|]. split; [lia|].
        split; [apply core_moved_pc|]. right. by exists address. }
    destruct (Z.eqb_spec (blk_id tb1) (blk_id tb)) as [Hid|_].
    { apply (id_pc m (arch c1) (arch c) tb1 tb Et1 Ht) in Hid. unfold pc_of in *. lia. }
    apply mem_pc_spec in E.
    destruct (IH c1 tb1 Hp1 Hr1 Et1) as (c' & f & El & Hff & Hle & Hmv & Hno).
    { rewrite Hs1, Hpc1. pose proof (skips_left_lt _ _ _ Hn E). lia. }
    exists c', f. split; [done|]. split; [done|]. split; [lia|]. split; [|by rewrite <- Hs1].
    destruct Hmv as (a & i & ->). exists a, i. unfold c1, set_pc. by destruct c.
  - rewrite Z.eqb_refl. exists c, (Fetched tb). split; [done|]. split; [done|].
    split; [lia|]. split; [apply core_moved_refl|]. left.
    intros Hin. apply mem_pc_spec in Hin. congruence.
Qed.
End Skipping.

(** ** The accuracy counter *)

(** The accuracy stays between 0 and the threshold: a hit raises it by half,
    capped at the threshold, a miss lowers it by one; but a miss at zero, which
    makes the counter negative, is taken for a value above the unsigned threshold
    and resets it to the maximum. *)
Lemma accuracy_update acc laddr r :
  0 <= acc <= runAheadThreshold -> runAheadThreshold < 2 ^ 30 ->
  let acc' := clamp_accuracy runAheadThreshold
                (acc + findAddressInPrefetchBuffer runAheadThreshold laddr acc r) in
  let hit := existsb (fun a => a =? laddr)
               (take (Z.to_nat runAheadThreshold) (prefetch_address r)) in
  0 <= acc' <= runAheadThreshold /\
  acc' = (if hit then Z.min (acc + acc / 2) runAheadThreshold
          else if acc =? 0 then runAheadThreshold else acc - 1).
Proof.
  clear tb_lookup readable writable. intros Ha Ht. cbn zeta. unfold clamp_accuracy, findAddressInPrefetchBuffer.
  destruct (existsb _ _).
  - rewrite Z.quot_div_nonneg by lia.
    destruct (Z.ltb_spec runAheadThreshold (uint32_t (acc + acc / 2))); cint.
  - destruct (Z.ltb_spec runAheadThreshold (uint32_t (acc + -1)));
      destruct (Z.eqb_spec acc 0); cint.
Qed.

(** ** The quantum after a fault of the prefetch core *)

Definition ctl (c : Core) : bool * Z * Z * Z :=
  (IsPCore c, InstQuatum c, processor_state c, prefetchDistance c).

Lemma exec_block_ctl tb s b s1 :
  exec_block tb s = Some (b, s1) ->
  running s1 = running s /\ ctl (mcore s1) = ctl (mcore s) /\ ctl (pcore s1) = ctl (pcore s).
Proof.
  unfold PrefetchCore.exec_block. destruct (tcg_qemu_tb_exec _ _ _ _ _ _) as [[o x]|]; cbn [mbind option_bind]; [|done].
  destruct o; intros [= <- <-]; destruct_sys s; done.
Qed.

(** On the prefetch core's turn the main core's quantum survives until it
    switches back. *)
Lemma signal_quantum site p (s : Sys) s' : handle_cpu_signal site p s = Some (Jumped s') ->
  InstQuatum (mcore s') = InstQuatum (mcore s) /\
  processor_state (mcore s') = processor_state (mcore s) /\ running s' = MCore.
Proof.
  unfold handle_cpu_signal. cbn zeta. intros [= ->]%cpu_loop_exit_inv. by destruct_sys s.
Qed.

Lemma select_block_mcore fuel s tb s' f : running s = PCore ->
  select_block tb_lookup HAS_SPPSLICE fuel s tb = Some (s', f) -> mcore s' = mcore s.
Proof.
  intros R. unfold select_block.
  match goal with |- context [mbind _ ?q] => destruct q as [[c1 f1]|] end; cbn [mbind option_bind]; [|done].
  match goal with |- context [mbind _ ?q] => destruct q as [[c2 f2]|] end; cbn [mbind option_bind]; [|done].
  intros [= <- <-]. destruct s. cbn in *. by subst.
Qed.

Lemma pcore_jump_quantum skips s s' : sys_ok s -> running s = PCore ->
  inner_iter skips s = Some (Jumped s') ->
  InstQuatum (mcore s') = InstQuatum (mcore s) /\
  processor_state (mcore s') = processor_state (mcore s) /\ running s' = MCore.
Proof.
  intros Hok R. pose proof Hok as ([H1 H2 H3 H4 H5 H6] & H7). unfold PrefetchCore.inner_iter.
  destruct (exit_request (env s)).
  { cbn zeta. intros [= ->]%cpu_loop_exit_inv. destruct_sys s; cbn in *; done. }
  unfold prepare. destruct (tb_lookup _ _) as [tb|p]; cbn [mbind option_bind]; [|apply signal_quantum].
  assert (enter_trace runAheadThreshold HAS_SPPSLICE s = Some s) as ->.
  { unfold enter_trace, env. rewrite R. cbn [core_of]. by rewrite H2. }
  cbn [mbind option_bind].
  destruct (leave_trace _ s) as [[s2|]|]; cbn [mbind option_bind]; [done| |done].
  destruct (select_block _ _ _ _ _) as [[s2 f]|] eqn:E3; cbn [mbind option_bind]; [|done].
  apply select_block_mcore in E3; [|done]. rewrite <- E3.
  destruct f as [tb2|p]; cbn [mbind option_bind]; [|apply signal_quantum].
  assert (InstQuatum (mcore (track s2)) = InstQuatum (mcore s2) /\
          processor_state (mcore (track s2)) = processor_state (mcore s2)) as [Hq3 Hs3].
  { unfold track. destruct (_ && _).
    - destruct (_ <? _); destruct_sys s2; done.
    - destruct (_ && _); destruct_sys s2; done. }
  unfold run_block. destruct (exec_block _ _) as [[[| |st p] s4]|] eqn:E4; cbn [mbind option_bind].
  - destruct (hand_over _ _ _ _); done.
  - apply exec_block_ctl in E4 as (_ & C & _). injection C as _ Cq Cs _.
    rewrite <- Hq3, <- Hs3, <- Cq, <- Cs. intros [= ->]%cpu_loop_exit_inv. by destruct s4.
  - apply exec_block_ctl in E4 as (_ & C & _). injection C as _ Cq Cs _.
    rewrite <- Hq3, <- Hs3, <- Cq, <- Cs. apply signal_quantum.
  - done.
Qed.

(** A block run in trace lowers the main core's quantum modulo 2^32, and only a
    quantum of zero switches. *)
Lemma mcore_step_quantum skips s s' : sys_ok s -> running s = MCore ->
  processor_state (mcore s) = IN_TRACE -> InstQuatum (mcore s) <> 1 ->
  in_u 32 (InstQuatum (mcore s)) ->
  inner_iter skips s = Some (Looped s') ->
  InstQuatum (mcore s') = uint32_t (InstQuatum (mcore s) - 1) /\ running s' = MCore.
Proof.
  intros Hok R Hin Hq Hu. pose proof Hok as ([H1 H2 H3 H4 H5 H6] & H7).
  unfold PrefetchCore.inner_iter.
  destruct (exit_request (env s)); [by cbn zeta; intros [=]%cpu_loop_exit_inv|].
  unfold prepare. destruct (tb_lookup _ _) as [tb|p]; cbn [mbind option_bind];
    [|by intros [=]%cpu_loop_exit_inv].
  assert (enter_trace runAheadThreshold HAS_SPPSLICE s = Some s) as ->.
  { unfold enter_trace, env, IS_PRETRACE. rewrite R. cbn [core_of]. by rewrite Hin, H1. }
  cbn [mbind option_bind]. unfold leave_trace.
  assert (env s = mcore s) as Henv by (unfold env; by rewrite R).
  rewrite Henv, H1. cbn [andb mbind option_bind].
  destruct (select_block _ _ _ _ _) as [[s2 f]|] eqn:E3; cbn [mbind option_bind]; [|done].
  destruct (select_block_spec tb_lookup runAheadThreshold HAS_SPPSLICE _ _ _ _ _ Hok E3)
    as (_ & _ & _ & T). destruct (T R) as [-> ->]. clear T E3. cbn [mbind option_bind].
  destruct (track_spec runAheadThreshold s Hok) as (_ & Rt & _).
  assert (ctl (mcore (track s)) = ctl (mcore s)) as Ct.
  { unfold track. rewrite Henv, H1. cbn [andb negb].
    destruct (qemu_stop_pc_monitor _); by destruct_sys s. }
  unfold run_block. destruct (exec_block _ _) as [[[| |st p] s4]|] eqn:E4; cbn [mbind option_bind];
    [|by intros [=]%cpu_loop_exit_inv|by intros [=]%cpu_loop_exit_inv|done].
  apply exec_block_ctl in E4 as (R4 & C4 & _). rewrite Ct in C4. rewrite Rt, R in R4.
  injection C4 as Cp Cq Cs _.
  assert (env s4 = mcore s4) as Henv4 by (unfold env; by rewrite R4).
  rewrite Henv4. unfold IS_INTRACE. rewrite Cs, Hin. cbn [Z.eqb IN_TRACE].
  destruct (hand_over _ _ _ _) as [s5|] eqn:E5; cbn [mbind option_bind]; [|done].
  apply hand_over_frame in E5 as (FR & _ & (x & o & Ec) & _). intros [= <-].
  assert (running s5 = MCore) as R5 by (rewrite FR; by destruct s4; cbn in *; subst).
  assert (InstQuatum (mcore s5) = uint32_t (InstQuatum (mcore s) - 1)) as Q5.
  { rewrite Ec. rewrite <- Cq. clear -R4. destruct_sys s4; cbn in *; done. }
  assert (switch_core runAheadThreshold s5 = s5) as ->; [|done].
  unfold switch_core, env. rewrite R5. cbn [core_of]. rewrite Q5.
  destruct (Z.eqb_spec (uint32_t (InstQuatum (mcore s) - 1)) 0) as [E0|];
    [|by rewrite andb_false_r].
  exfalso. clear -E0 Hq Hu. cint.
Qed.

(** When the prefetch core raises an exception, control returns to the main core with the
    quantum it had when it handed over, zero; the block it then runs wraps the
    quantum to 2^32 - 1 and the prefetch core, still in trace, does not get its
    turn back. *)
Lemma pcore_fault_stalls skips s s1 s2 :
  sys_ok s -> 0 <= runAheadThreshold -> running s = PCore -> InstQuatum (mcore s) = 0 ->
  inner_iter skips s = Some (Jumped s1) -> inner_iter skips (setjmp s1) = Some (Looped s2) ->
  running s2 = MCore /\ InstQuatum (mcore s2) = 2 ^ 32 - 1.
Proof.
  intros Hok Hthr R Hq E1 E2.
  destruct (pcore_jump_quantum _ _ _ Hok R E1) as (Q1 & S1 & R1).
  destruct (inner_iter_spec tb_lookup readable writable runAheadThreshold HAS_SPPSLICE _ _ _ Hthr Hok E1) as (Hok1 & _).
  cbn [iter_state] in Hok1.
  assert (processor_state (mcore s1) = IN_TRACE) as Hin.
  { rewrite S1. destruct Hok as ([_ _ H3 _ H5 _] & _). rewrite <- H3. by apply H5. }
  assert (InstQuatum (mcore (setjmp s1)) = 0 /\ processor_state (mcore (setjmp s1)) = IN_TRACE /\
          running (setjmp s1) = MCore) as (Q & S & R') by (by destruct_sys s1; cbn in *; subst).
  destruct (mcore_step_quantum _ _ _ (setjmp_ok _ _ Hok1) R' S ltac:(lia) ltac:(rewrite Q; cint) E2) as [Q2 R2].
  split; [done|]. by rewrite Q2, Q.
Qed.
End Props.

(** ** A concrete system

    Four blocks of one instruction from 0x8000; the last one raises an
    exception.  The first is the delinquent load; the prefetch core skips the two
    blocks after it and so raises the exception first. *)

Definition w_goto (pc : Z) (a : @Arch unit) : @Arch unit :=
  mkArch (<[15%nat := pc]> (regs a)) (condexec_bits a) (c6_data a) (rest a).

Definition w_block (pc : Z) (a : @Arch unit) : Code (@Arch unit) :=
  if pc =? 32780 then Raise a 2 else Insn (Exit (w_goto (pc + 4) a)).

Definition w_lookup (m : Memory) (a : @Arch unit) : Fetch :=
  if w_mapped (GET_PC a - 32768 + 4) then
    Fetched (mkTBlock (GET_PC a) (GET_PC a + 4) 1 (w_block (GET_PC a)))
  else Unmapped (GET_PC a).

Definition w_clean : CPUTracePoint := xtrace_reset_trace_point (w_tp 0 0).

Definition w_start : @Arch unit := w_goto 32768 (mkArch (replicate 16 0) 0 0 tt).

Definition w_core (pcore : bool) (skip : list Z) : @Core unit :=
  mkCore w_start pcore 0 PRE_TRACE 0 0 0%nat 0 (-1) false
    0%nat 0 0 (mkShadow ∅ 0 0 0 0 0 (replicate 8 0) (replicate 8 0) 0 0)
    [32768] [[32768; 32772; 32776; 32780]] [skip] [] 0.

Definition w_system (skip : list Z) : @Sys unit :=
  mkSys (w_core false skip) (w_core true skip) MCore (fun _ => 0) (mkPrefetchRing (replicate 4 0) 0)
    (replicate 4 w_clean) (replicate 4 (mkExpanded (w_common 0) 0 0 0)) 2 3 true 0
    (mkModes [0] [0]) [] 0.

Definition w_sys : @Sys unit := w_system [32772; 32776].

Lemma w_system_ok skip : sys_ok 4 (w_system skip).
Proof. split; [split|]; cbn; (done || lia). Defined.

Definition w_iter : @Sys unit -> option Iter := inner_iter w_lookup w_mapped w_mapped 4 false 3.

(** The states of the run, as [reached] goes through them. *)
Definition w_next (s : @Sys unit) : Sys :=
  match w_iter s with Some (Looped s') => s' | Some (Jumped s') => setjmp s' | None => s end.

Definition w_state (k : nat) : Sys := Nat.iter k w_next (setjmp (cpu_exec_prologue 4 false w_sys)).

Lemma run_ahead_bounded_witness : prefetchDistance (pcore (w_state 2)) <= 4.
Proof.
  apply (run_ahead_bounded w_lookup w_mapped w_mapped 4 false 3 w_sys (w_state 2)).
  - lia.
  - exact (w_system_ok _).
  - eapply rtc_l; [exact (step_call w_lookup w_mapped w_mapped 4 false 3 w_sys false eq_refl)|].
    eapply rtc_l; [exact (step_setjmp w_lookup w_mapped w_mapped 4 false 3 (cpu_exec_prologue 4 false w_sys) eq_refl)|].
    eapply rtc_l; [eapply (step_iter w_lookup w_mapped w_mapped 4 false 3); vm_compute; reflexivity|].
    eapply rtc_l; [eapply (step_iter w_lookup w_mapped w_mapped 4 false 3); vm_compute; reflexivity|].
    vm_compute. apply rtc_refl.
Defined.

Lemma skip_loop_terminates_witness :
  exists c' f, skip_loop w_lookup 3 (fun _ => 0) (set_pc 32772 (w_core true [32772; 32776]))
    (mkTBlock 32772 32776 1 (w_block 32772)) = Some (c', f) /\ 32772 <= pc_of c'.
Proof.
  destruct (skip_loop_terminates w_lookup) with (fuel := 3%nat) (m := fun _ : Z => 0)
    (c := set_pc 32772 (w_core true [32772; 32776])) (tb := mkTBlock 32772 32776 1 (w_block 32772))
    as (c' & f & E & _ & H & _).
  - intros m a tb. unfold w_lookup. destruct (w_mapped _); [|done]. intros [= <-]. cbn. lia.
  - intros m a a' tb tb'. unfold w_lookup. destruct (w_mapped (GET_PC a - 32768 + 4)); [|done].
    intros [= <-]. destruct (w_mapped _); [|done]. intros [= <-]. done.
  - reflexivity.
  - cbn. lia.
  - reflexivity.
  - vm_compute. lia.
  - exists c', f. split; [exact E|exact H].
Defined.

Lemma accuracy_update_witness :
  clamp_accuracy 8 (0 + findAddressInPrefetchBuffer 8 77 0 (mkPrefetchRing (replicate 8 0) 0)) = 8.
Proof. apply (accuracy_update 8 0 77 (mkPrefetchRing (replicate 8 0) 0)); lia. Defined.

Lemma w_state_ok k : sys_ok 4 (w_state k).
Proof.
  induction k as [|k IH].
  - split; [split|]; cbn; (done || lia).
  - change (w_state (S k)) with (w_next (w_state k)). unfold w_next.
    destruct (w_iter (w_state k)) as [r|] eqn:E; [|done].
    pose proof (proj1 (inner_iter_spec w_lookup w_mapped w_mapped 4 false 3 (w_state k) r ltac:(lia) IH E)) as H.
    destruct r; [exact H|by apply setjmp_ok].
Qed.

Lemma pcore_fault_stalls_witness : InstQuatum (mcore (w_state 5)) = 2 ^ 32 - 1.
Proof.
  refine (proj2 (pcore_fault_stalls w_lookup w_mapped w_mapped 4 false 3 (w_state 3)
    (match w_iter (w_state 3) with Some (Jumped t) => t | _ => w_sys end) (w_state 5)
    (w_state_ok 3) _ _ _ _ _)); vm_compute; (reflexivity || congruence).
Defined.

Lemma w_clean_run : clean_for w_lookup w_mapped w_mapped 4 false 10 3
  (setjmp (cpu_exec_prologue 4 false w_sys)) = true.
Proof. vm_compute. reflexivity. Qed.



(** The same program with a load in the third block, whose address the second block
    computes.  The prefetch core skips the second block only, loads from address 0, and the
    main core receives the data abort: [cpu_exec] returns 4, with the main core's pc
    at the load it has not executed, where the main core alone returns 2. *)
Definition w_block_load (pc : Z) (a : @Arch unit) : Code (@Arch unit) :=
  if pc =? 32772 then Insn (Exit (w_goto 32776 (mkArch (<[0%nat := 4096]> (regs a)) 0 0 tt)))
  else if pc =? 32776 then
    Insn (Load a (mkSite 32776 0) (default 0 (regs a !! 0%nat)) 4 (fun _ => Exit (w_goto 32780 a)))
  else w_block pc a.

Definition w_lookup_load (m : Memory) (a : @Arch unit) : Fetch :=
  Fetched (mkTBlock (GET_PC a) (GET_PC a + 4) 1 (w_block_load (GET_PC a))).

Example pcore_fault_visible :
  let s := w_system [32772] in
  fst <$> cpu_exec w_lookup_load w_mapped w_mapped 4 false 10 3 false s = Some EXCP_DATA_ABORT /\
  (fun '(_, s') => pc_of (mcore s')) <$> cpu_exec w_lookup_load w_mapped w_mapped 4 false 10 3 false s
    = Some 32776 /\
  fst <$> (fst <$> solo_run w_lookup_load w_mapped w_mapped 10 (arch (mcore s)) (mem s)) = Some 2.
Proof. vm_compute. repeat split; reflexivity. Qed.
