(* ===== verification/PSlice.v ===== *)
(** * Reading the prefetch slices

    Model of [parse_file_to_pcs] of src/emul/qemu/cpu-exec.c: the ptrace/pslice
    file pairs and the single-path slice are read into the tables of program
    counters that the monitors of PrefetchCore consult.

    A file is the list of the hexadecimal numbers it contains and whether white
    space follows the last one.  [feof] only becomes true when a read has hit the
    end, so with trailing white space one more [fscanf] is made, which stores
    nothing: the count the code computes is then one more than the number of
    values read. *)

From S2P Require Import Prelude.
Open Scope Z_scope.

Definition MAX_PC_COUNT : nat := 4096.
Definition MAX_ESESC_PSLICE_COUNT : nat := 10.
Definition MAX_ESESC_PC_COUNT : nat := 1024.

Record PcFile := mkPcFile { pcs : list Z; trailing : bool }.

(** Leaving the function: normally, through [exit(0)], through a failed assertion,
    or with a write out of bounds. *)
Inductive result (A : Type) :=
  | Ok (a : A)
  | Exited
  | Asserted
  | Overflow.
Arguments Ok {A} a.
Arguments Exited {A}.
Arguments Asserted {A}.
Arguments Overflow {A}.

Definition rbind {A B} (m : result A) (f : A -> result B) : result B :=
  match m with
  | Ok a => f a
  | Exited => Exited
  | Asserted => Asserted
  | Overflow => Overflow
  end.
Notation "x <-- m ;; k" := (rbind m (fun x => k)) (at level 100, m at next level, right associativity).

(** The reading loop over an array of [MAX_PC_COUNT] zeroed entries: the array and
    the final index.  A value past the end of the array is out of bounds. *)
Definition read_pcs (f : PcFile) : result (list Z * nat) :=
  if (MAX_PC_COUNT <? length (pcs f))%nat then Overflow
  else Ok ((uint32_t <$> pcs f) ++ replicate (MAX_PC_COUNT - length (pcs f)) 0,
           (length (pcs f) + if trailing f || (length (pcs f) =? 0)%nat then 1 else 0)%nat).

(** The tables of [CPUState] this function fills. *)
Record Tables := mkTables {
  stop_pcs : list Z;
  ptrc_pcs : list (list Z);
  skip_pcs : list (list Z);
  sppslice_pcs : list Z;
  current_sppslice : Z
}.

(** Appending to a table of a given capacity. *)
Definition append (cap : nat) (x : Z) (l : list Z) : result (list Z) :=
  if (length l <? cap)%nat then Ok (l ++ [x]) else Overflow.

Fixpoint append_all (cap : nat) (xs l : list Z) : result (list Z) :=
  match xs with
  | [] => Ok l
  | x :: xs' => l' <-- append cap x l;; append_all cap xs' l'
  end.

(** The double loop over both arrays: entries of the trace array that occur
    nowhere in the slice array. *)
Definition compute_askip (trace_pc slice_pc : list Z) : list Z :=
  filter (fun x => existsb (fun y => x =? y) slice_pc = false) trace_pc.

Definition row (l : list (list Z)) (i : nat) : list Z := default [] (l !! i).

(** One pslice/ptrace pair. *)
Definition parse_pair (idx : nat) (ptrace pslice : PcFile) (t : Tables) : result Tables :=
  ts <-- read_pcs ptrace;;
  ss <-- read_pcs pslice;;
  let '(trace_pc, trace_idx) := ts in
  let '(slice_pc, slice_idx) := ss in
  if (MAX_PC_COUNT <=? trace_idx)%nat || (MAX_PC_COUNT <=? slice_idx)%nat then Exited
  else if negb (default 0 (trace_pc !! 0%nat) =? default 0 (slice_pc !! 0%nat)) then Asserted
  else
    let askip := compute_askip trace_pc slice_pc in
    stop <-- append MAX_ESESC_PSLICE_COUNT (default 0 (trace_pc !! 0%nat)) (stop_pcs t);;
    ptrc <-- append_all MAX_ESESC_PC_COUNT (take (trace_idx - 1) trace_pc) (row (ptrc_pcs t) idx);;
    skip <-- append_all MAX_ESESC_PC_COUNT askip (row (skip_pcs t) idx);;
    if (length skip =? length ptrc)%nat then Exited
    else Ok (mkTables stop (<[idx := ptrc]> (ptrc_pcs t)) (<[idx := skip]> (skip_pcs t))
               (sppslice_pcs t) (current_sppslice t)).

Fixpoint parse_pairs (idx : nat) (l : list (PcFile * PcFile)) (t : Tables) : result Tables :=
  match l with
  | [] => Ok t
  | (ptrace, pslice) :: l' => t' <-- parse_pair idx ptrace pslice t;; parse_pairs (S idx) l' t'
  end.

Definition parse_sppslice (f : PcFile) (t : Tables) : result Tables :=
  fs <-- read_pcs f;;
  let '(sppslice_pc, sppslice_idx) := fs in
  stop <-- append MAX_ESESC_PSLICE_COUNT (default 0 (sppslice_pc !! 0%nat)) (stop_pcs t);;
  spp <-- append_all MAX_ESESC_PC_COUNT (take (sppslice_idx - 1) sppslice_pc) (sppslice_pcs t);;
  Ok (mkTables stop (ptrc_pcs t) (skip_pcs t) spp (uint32_t (Z.of_nat (length spp) - 1))).

(** [ptraces] and [pslices] are the two file lists; they are only read when they
    have the same length. *)
Definition parse_file_to_pcs (disable_pcore : bool) (ptraces pslices : list PcFile)
    (sppslice : option PcFile) (t : Tables) : result Tables :=
  if disable_pcore then Ok t
  else
    t1 <-- (if (length pslices =? length ptraces)%nat
            then parse_pairs 0 (zip ptraces pslices) t else Ok t);;
    match sppslice with
    | None => Ok t1
    | Some f => parse_sppslice f t1
    end.

(** The tables at start-up: [CPUState] is zeroed. *)
Definition empty_tables : Tables :=
  mkTables [] (replicate MAX_ESESC_PSLICE_COUNT []) (replicate MAX_ESESC_PSLICE_COUNT []) [] 0.

(** ** Lemmas *)

Lemma append_all_spec cap xs l :
  append_all cap xs l =
  if decide (length l + length xs <= cap \/ xs = [])%nat then Ok (l ++ xs) else Overflow.
Proof.
  revert l. induction xs as [|x xs IH]; intros l; cbn [append_all].
  - rewrite app_nil_r. case_decide; [done|]. exfalso. auto.
  - unfold append. destruct (Nat.ltb_spec (length l) cap); cbn.
    + rewrite IH, length_app. cbn. rewrite <- app_assoc. cbn.
      repeat case_decide; try done; exfalso; [|destruct xs]; cbn in *; naive_solver lia.
    + case_decide; [|done]. exfalso. naive_solver lia.
Qed.

Lemma existsb_eqb x l : existsb (fun y => x =? y) l = false <-> x ∉ l.
Proof.
  induction l as [|y l IH]; cbn [existsb].
  - split; [|done]. intros _. apply not_elem_of_nil.
  - rewrite orb_false_iff, IH, Z.eqb_neq, not_elem_of_cons. done.
Qed.

(** The zero padding of the arrays never contributes a skip entry. *)
Lemma compute_askip_pad tr sl n m : (0 < m)%nat ->
  compute_askip (tr ++ replicate n 0) (sl ++ replicate m 0) =
  filter (fun x => x ∉ 0 :: sl) tr.
Proof.
  intros Hm. unfold compute_askip.
  assert (forall x, x ∈ sl ++ replicate m 0 <-> x ∈ 0 :: sl) as Hin.
  { intros x. rewrite elem_of_app, elem_of_cons, elem_of_replicate.
    split; [naive_solver|]. intros [->|]; [right; split; [done|lia]|by left]. }
  rewrite filter_app.
  assert (filter (fun x => existsb (fun y => x =? y) (sl ++ replicate m 0) = false)
    (replicate n 0) = []) as ->.
  { induction n as [|n IH]; [done|]. cbn [replicate]. rewrite filter_cons_False; [done|].
    rewrite existsb_eqb, Hin. intros H. apply H, list_elem_of_here. }
  rewrite app_nil_r. apply list_filter_iff. intros x. rewrite existsb_eqb. by rewrite Hin.
Qed.

(** The values the code takes from a file: all of them if white space follows the
    last one, all but the last otherwise. *)
Definition taken (f : PcFile) : list Z :=
  let l := uint32_t <$> pcs f in if trailing f then l else take (length l - 1) l.

Lemma read_pcs_taken f arr idx : read_pcs f = Ok (arr, idx) -> pcs f <> [] ->
  take (idx - 1) arr = taken f /\ arr !! 0%nat = uint32_t <$> (pcs f !! 0%nat) /\
  arr = (uint32_t <$> pcs f) ++ replicate (MAX_PC_COUNT - length (pcs f)) 0 /\
  idx = (length (pcs f) + if trailing f then 1 else 0)%nat.
Proof.
  intros E Hne. unfold read_pcs in E. destruct (_ <? _)%nat; [done|].
  injection E as <- <-.
  destruct (pcs f) as [|x l] eqn:Ef; [done|]. rewrite <- Ef.
  assert ((length (pcs f) =? 0)%nat = false) as -> by (by rewrite Ef).
  rewrite orb_false_r. unfold taken. split; [|split; [by rewrite Ef|done]].
  rewrite take_app_le.
  - destruct (trailing f).
    + rewrite take_ge; [done|]. rewrite length_fmap. lia.
    + rewrite length_fmap. f_equal. lia.
  - rewrite length_fmap. destruct (trailing f); lia.
Qed.

(** C13: a ptrace/pslice pair that is accepted registers the first address as the
    delinquent load, the ptrace as the trace, and as skip list exactly the ptrace
    addresses that the slice does not contain (zero apart), in order; if the
    ptrace file does not end in white space its last address is dropped from the
    trace but not from the skip list. *)
Theorem parse_pair_tables idx ptrace pslice t t' :
  pcs ptrace <> [] -> (idx < length (ptrc_pcs t))%nat -> (idx < length (skip_pcs t))%nat ->
  row (ptrc_pcs t) idx = [] -> row (skip_pcs t) idx = [] ->
  parse_pair idx ptrace pslice t = Ok t' ->
  stop_pcs t' = stop_pcs t ++ [uint32_t (default 0 (pcs ptrace !! 0%nat))] /\
  row (ptrc_pcs t') idx = taken ptrace /\
  row (skip_pcs t') idx =
    filter (fun x => x ∉ 0 :: (uint32_t <$> pcs pslice)) (uint32_t <$> pcs ptrace) /\
  (length (row (ptrc_pcs t') idx) <= MAX_ESESC_PC_COUNT)%nat /\
  (length (row (skip_pcs t') idx) <= MAX_ESESC_PC_COUNT)%nat /\
  (length (stop_pcs t') <= MAX_ESESC_PSLICE_COUNT)%nat.
Proof.
  intros Hne Hi1 Hi2 Hr1 Hr2. unfold parse_pair.
  destruct (read_pcs ptrace) as [[tr ti]| | |] eqn:Et; cbn [rbind]; [|done..].
  destruct (read_pcs_taken _ _ _ Et Hne) as (Ht1 & Ht2 & Ht3 & Ht4).
  destruct (read_pcs pslice) as [[sl si]| | |] eqn:Es; cbn [rbind]; [|done..].
  destruct (_ || _) eqn:Eg; [done|]. apply orb_false_iff in Eg as [Eg1 Eg2].
  apply Nat.leb_gt in Eg1, Eg2.
  destruct (negb _); [done|]. unfold append.
  destruct (Nat.ltb_spec (length (stop_pcs t)) MAX_ESESC_PSLICE_COUNT); cbn [rbind]; [|done].
  rewrite !append_all_spec, Hr1, Hr2, Ht1. cbn [length app Nat.add].
  assert (compute_askip tr sl =
    filter (fun x => x ∉ 0 :: (uint32_t <$> pcs pslice)) (uint32_t <$> pcs ptrace)) as ->.
  { unfold read_pcs in Es. destruct (_ <? _)%nat eqn:El; [done|]. injection Es as <- <-.
    rewrite Ht3. apply compute_askip_pad.
    destruct (trailing pslice || _); lia. }
  set (sk := filter _ _).
  case_decide as Hp; cbn [rbind]; [|done]. case_decide as Hs; cbn [rbind]; [|done].
  destruct (_ =? _)%nat; [done|]. intros [= <-]. cbn [stop_pcs ptrc_pcs skip_pcs].
  unfold row. rewrite !list_lookup_insert_eq by done. cbn [default].
  split. { rewrite Ht2. destruct (pcs ptrace) as [|x l]; done. }
  split; [done|]. split; [done|].
  assert (length (@nil Z) <= MAX_ESESC_PC_COUNT)%nat as Hnil by (cbn; lia).
  split; [by destruct Hp as [| ->]|]. split; [by destruct Hs as [| ->]|].
  rewrite length_app. cbn. lia.
Qed.

Definition w_ptrace : PcFile := mkPcFile [32768; 32772; 32776; 32780] true.
Definition w_pslice : PcFile := mkPcFile [32768; 32780] true.

Lemma parse_pair_tables_witness :
  exists t', parse_pair 0 w_ptrace w_pslice empty_tables = Ok t' /\
    row (skip_pcs t') 0 = [32772; 32776].
Proof.
  destruct (parse_pair 0 w_ptrace w_pslice empty_tables) as [t'| | |] eqn:E;
    [|vm_compute in E; discriminate E..].
  exists t'. split; [reflexivity|].
  destruct (parse_pair_tables 0 w_ptrace w_pslice empty_tables t') as (_ & _ & H & _);
    [done|cbn; lia|cbn; lia|done|done|exact E|].
  rewrite H. vm_compute. reflexivity.
Defined.

(** The validation does not protect the tables: a pair whose files pass the
    4096-entry check still writes past the 1024-entry rows when the ptrace has
    more than 1024 addresses. *)
Lemma parse_pair_overflow idx ptrace pslice t :
  (MAX_ESESC_PC_COUNT < length (pcs ptrace) < MAX_PC_COUNT - 1)%nat ->
  (length (pcs pslice) < MAX_PC_COUNT - 1)%nat ->
  trailing ptrace = true -> row (ptrc_pcs t) idx = [] ->
  uint32_t (default 0 (pcs ptrace !! 0%nat)) = uint32_t (default 0 (pcs pslice !! 0%nat)) ->
  parse_pair idx ptrace pslice t = Overflow.
Proof.
  intros Hl1 Hl2 Htr Hr Hh. unfold parse_pair.
  assert (pcs ptrace <> []) as Hne by (intros E; rewrite E in Hl1; cbn in Hl1; lia).
  assert (exists tr ti, read_pcs ptrace = Ok (tr, ti)) as (tr & ti & Et).
  { unfold read_pcs. destruct (Nat.ltb_spec MAX_PC_COUNT (length (pcs ptrace))); [lia|].
    by eexists _, _. }
  rewrite Et.
  destruct (read_pcs_taken _ _ _ Et Hne) as (Ht1 & Ht2 & Ht3 & Ht4). cbn [rbind].
  unfold read_pcs. destruct (Nat.ltb_spec MAX_PC_COUNT (length (pcs pslice))); [done|].
  cbn [rbind]. rewrite Htr in Ht4.
  destruct (Nat.leb_spec MAX_PC_COUNT ti); [lia|].
  match goal with |- context [(MAX_PC_COUNT <=? ?x)%nat] => destruct (Nat.leb_spec MAX_PC_COUNT x) end.
  { destruct (trailing pslice || _); lia. }
  cbn [orb].
  match goal with |- context [negb ?b] => assert (b = true) as -> end.
  { apply Z.eqb_eq. rewrite Ht2. destruct (pcs ptrace) as [|x l]; [done|]. cbn in Hh |- *.
    destruct (pcs pslice) as [|y k]; exact Hh. }
  cbn [negb]. unfold append.
  destruct (length (stop_pcs t) <? _)%nat; cbn [rbind]; [|done].
  rewrite append_all_spec, Hr, Ht1. unfold taken. rewrite Htr, length_fmap. cbn [length Nat.add].
  case_decide as Hp; [|done]. exfalso. destruct Hp as [|Hp]; [lia|].
  apply (f_equal length) in Hp. rewrite length_fmap in Hp. cbn in Hp. lia.
Qed.

Lemma parse_pair_overflow_witness :
  parse_pair 0 (mkPcFile (replicate 1025 32768) true) w_pslice empty_tables = Overflow.
Proof.
  apply parse_pair_overflow; [vm_compute; lia|vm_compute; lia|reflexivity|reflexivity|reflexivity].
Defined.
