(* ===== verification/NeonBase.v ===== *)
(** * NEON vector helpers: lanes and the macro layer

    Model of the macros of src/emul/qemu/target-arm/neon_helper.c that turn an
    element operation into a helper on packed 32-bit words ([NEON_UNPACK],
    [NEON_PACK], [NEON_VOP], [NEON_VOP_ENV], [NEON_POP], [NEON_VOP1]) and of the
    saturation flag.  A vector structure type [neon_s8], [neon_u16], ... is a
    signedness, an element width and a number of elements, element [v1] in the
    low bits (little-endian host).

    An element operation [NEON_FN(dest, src1, src2)] is a function of the two
    promoted elements; assigning to [dest] truncates to the element type, which
    packing does.

    C leaves signed overflow undefined, and the build does not ask the compiler to
    define it: an element operation whose [int] arithmetic can overflow yields
    [None] there, and so does the helper that uses it ([c_int], [NEON_VOP_int],
    [NEON_VOP_ENV_int]).  What the language leaves to the implementation and gcc
    documents is modelled as gcc does it: conversion to a narrower signed type
    reduces modulo its width, [>>] of a negative value is arithmetic, and [<<] of a
    signed value shifts its two's complement bits. *)

From S2P Require Import Prelude.
Open Scope Z_scope.

(** Reading an element of the given type. *)
Definition elem (sg : bool) (w x : Z) : Z := if sg then sint w x else uint w x.

Definition NEON_UNPACK (sg : bool) (w : Z) (n : nat) (x : Z) : list Z :=
  elem sg w <$> unpack w n x.

Definition NEON_PACK (w : Z) (l : list Z) : Z := pack w l.

Definition NEON_VOP (sg : bool) (w : Z) (n : nat) (fn : Z -> Z -> Z) (arg1 arg2 : Z) : Z :=
  NEON_PACK w (zip_with fn (NEON_UNPACK sg w n arg1) (NEON_UNPACK sg w n arg2)).

Definition NEON_VOP1 (sg : bool) (w : Z) (n : nat) (fn : Z -> Z) (arg : Z) : Z :=
  NEON_PACK w (fn <$> NEON_UNPACK sg w n arg).

(** Neighbouring elements of the first operand, then of the second. *)
Fixpoint pairwise (fn : Z -> Z -> Z) (l : list Z) : list Z :=
  match l with
  | a :: b :: t => fn a b :: pairwise fn t
  | _ => []
  end.

Definition NEON_POP (sg : bool) (w : Z) (n : nat) (fn : Z -> Z -> Z) (arg1 arg2 : Z) : Z :=
  NEON_PACK w (pairwise fn (NEON_UNPACK sg w n arg1 ++ NEON_UNPACK sg w n arg2)).

(** ** The cumulative saturation flag *)

Definition CPSR_Q : Z := Z.shiftl 1 27.

(** The macro assigns the register. *)
Definition SET_QC (fpscr : Z) : Z := CPSR_Q.

Definition qc_if (b : bool) (fpscr : Z) : Z := if b then SET_QC fpscr else fpscr.

(** An element operation that may saturate returns its result and whether it
    executed [SET_QC]; a helper returns its result and the new FPSCR. *)
Definition NEON_VOP_ENV (sg : bool) (w : Z) (n : nat) (fn : Z -> Z -> Z * bool)
    (fpscr arg1 arg2 : Z) : Z * Z :=
  let l := zip_with fn (NEON_UNPACK sg w n arg1) (NEON_UNPACK sg w n arg2) in
  (NEON_PACK w (fst <$> l), foldl (fun f r => qc_if (snd r) f) fpscr l).

Definition NEON_VOP1_ENV (sg : bool) (w : Z) (n : nat) (fn : Z -> Z * bool)
    (fpscr arg : Z) : Z * Z :=
  let l := fn <$> NEON_UNPACK sg w n arg in
  (NEON_PACK w (fst <$> l), foldl (fun f r => qc_if (snd r) f) fpscr l).

(** ** Arithmetic that may overflow *)

(** The value of an expression of type [int] (to which 8- and 16-bit operands are
    promoted): none when the exact result does not fit. *)
Definition c_int (x : Z) : option Z :=
  if (- 2 ^ 31 <=? x) && (x <? 2 ^ 31) then Some x else None.

(** The value of an expression of type [uint32_t]. *)
Definition c_uint (x : Z) : option Z := Some (uint32_t x).

(** The macros for an element operation that may overflow [int]. *)
Definition NEON_VOP_int (sg : bool) (w : Z) (n : nat) (fn : Z -> Z -> option Z)
    (arg1 arg2 : Z) : option Z :=
  NEON_PACK w <$> mapM id (zip_with fn (NEON_UNPACK sg w n arg1) (NEON_UNPACK sg w n arg2)).

Definition NEON_VOP_ENV_int (sg : bool) (w : Z) (n : nat) (fn : Z -> Z -> option (Z * bool))
    (fpscr arg1 arg2 : Z) : option (Z * Z) :=
  (fun l => (NEON_PACK w (fst <$> l), foldl (fun f r => qc_if (snd r) f) fpscr l)) <$>
  mapM id (zip_with fn (NEON_UNPACK sg w n arg1) (NEON_UNPACK sg w n arg2)).

(** ** Lanes *)

Lemma elem_range_u w x : 0 <= w -> in_u w (elem false w x).
Proof. apply uint_range. Qed.
Lemma elem_range_s w x : 0 < w -> in_s w (elem true w x).
Proof. apply sint_range. Qed.

Lemma elem_lane sg w i x : 0 < w -> elem sg w (lane w i x) = elem sg w (Z.shiftr x (w * i)).
Proof.
  intros Hw. unfold elem, lane. destruct sg; [by apply sint_uint|]. apply uint_uint. lia.
Qed.

Lemma NEON_UNPACK_lookup sg w n x i : 0 <= i < Z.of_nat n ->
  NEON_UNPACK sg w n x !! Z.to_nat i = Some (elem sg w (lane w i x)).
Proof.
  intros Hi. unfold NEON_UNPACK. rewrite list_lookup_fmap, unpack_lookup by lia. cbn.
  by rewrite Z2Nat.id by lia.
Qed.

Lemma length_NEON_UNPACK sg w n x : length (NEON_UNPACK sg w n x) = n.
Proof. unfold NEON_UNPACK. by rewrite length_fmap, length_unpack. Qed.

Lemma NEON_VOP_lane sg w n fn a b i : 0 < w -> 0 <= i < Z.of_nat n ->
  lane w i (NEON_VOP sg w n fn a b) =
  uint w (fn (elem sg w (lane w i a)) (elem sg w (lane w i b))).
Proof.
  intros Hw Hi. unfold NEON_VOP, NEON_PACK. rewrite lane_pack by lia.
  rewrite lookup_zip_with, !NEON_UNPACK_lookup by done. done.
Qed.

Lemma NEON_VOP1_lane sg w n fn a i : 0 < w -> 0 <= i < Z.of_nat n ->
  lane w i (NEON_VOP1 sg w n fn a) = uint w (fn (elem sg w (lane w i a))).
Proof.
  intros Hw Hi. unfold NEON_VOP1, NEON_PACK. rewrite lane_pack by lia.
  rewrite list_lookup_fmap, NEON_UNPACK_lookup by done. done.
Qed.

Lemma foldl_qc {A} (f : A -> bool) l fpscr :
  foldl (fun s r => qc_if (f r) s) fpscr l = qc_if (existsb f l) fpscr.
Proof.
  revert fpscr. induction l as [|r l IH]; intros s; cbn [foldl existsb]; [done|].
  rewrite IH. unfold qc_if, SET_QC. by destruct (f r), (existsb f l).
Qed.

(** Some lane among the first [n] satisfies [p]. *)
Definition any_lane (n : nat) (p : Z -> bool) : bool :=
  existsb (fun i => p (Z.of_nat i)) (seq 0 n).

Lemma NEON_VOP_ENV_lane sg w n fn f a b i : 0 < w -> 0 <= i < Z.of_nat n ->
  lane w i (NEON_VOP_ENV sg w n fn f a b).1 =
  uint w (fn (elem sg w (lane w i a)) (elem sg w (lane w i b))).1.
Proof.
  intros Hw Hi. unfold NEON_VOP_ENV, NEON_PACK. cbn [fst]. rewrite lane_pack by lia.
  rewrite list_lookup_fmap, lookup_zip_with, !NEON_UNPACK_lookup by done. done.
Qed.

Lemma existsb_zip_lanes (p : Z * bool -> bool) fn sg w n a b :
  existsb p (zip_with fn (NEON_UNPACK sg w n a) (NEON_UNPACK sg w n b)) =
  any_lane n (fun i => p (fn (elem sg w (lane w i a)) (elem sg w (lane w i b)))).
Proof.
  unfold any_lane, NEON_UNPACK, unpack. generalize (seq 0 n). intros l.
  induction l as [|i l IH]; cbn; [done|]. by rewrite IH.
Qed.

Lemma existsb_map_lanes (p : Z * bool -> bool) fn sg w n a :
  existsb p (fn <$> NEON_UNPACK sg w n a) =
  any_lane n (fun i => p (fn (elem sg w (lane w i a)))).
Proof.
  unfold any_lane, NEON_UNPACK, unpack. generalize (seq 0 n). intros l.
  induction l as [|i l IH]; cbn; [done|]. by rewrite IH.
Qed.

Lemma NEON_VOP_ENV_qc sg w n fn f a b :
  (NEON_VOP_ENV sg w n fn f a b).2 =
  qc_if (any_lane n (fun i => (fn (elem sg w (lane w i a)) (elem sg w (lane w i b))).2)) f.
Proof. unfold NEON_VOP_ENV. cbn [snd]. by rewrite (foldl_qc snd), existsb_zip_lanes. Qed.

Lemma NEON_VOP1_ENV_lane sg w n fn f a i : 0 < w -> 0 <= i < Z.of_nat n ->
  lane w i (NEON_VOP1_ENV sg w n fn f a).1 = uint w (fn (elem sg w (lane w i a))).1.
Proof.
  intros Hw Hi. unfold NEON_VOP1_ENV, NEON_PACK. cbn [fst]. rewrite lane_pack by lia.
  rewrite !list_lookup_fmap, NEON_UNPACK_lookup by done. done.
Qed.

Lemma NEON_VOP1_ENV_qc sg w n fn f a :
  (NEON_VOP1_ENV sg w n fn f a).2 =
  qc_if (any_lane n (fun i => (fn (elem sg w (lane w i a))).2)) f.
Proof. unfold NEON_VOP1_ENV. cbn [snd]. by rewrite (foldl_qc snd), existsb_map_lanes. Qed.

Lemma any_lane_ext n p q : (forall i, 0 <= i < Z.of_nat n -> p i = q i) ->
  any_lane n p = any_lane n q.
Proof.
  intros H. unfold any_lane.
  assert (Forall (fun i => (i < n)%nat) (seq 0 n)) as HF.
  { apply Forall_forall. intros i Hi. apply elem_of_seq in Hi. lia. }
  induction HF as [|i l Hi HF IH]; cbn [existsb]; [done|]. rewrite IH, H by lia. done.
Qed.

(** ** Specifications of an element-wise helper *)

(** Every lane of [res] is [f] of the lanes of the operands. *)
Definition lanewise (sg : bool) (w : Z) (n : nat) (f : Z -> Z -> Z) (res a b : Z) : Prop :=
  forall i, 0 <= i < Z.of_nat n ->
    lane w i res = uint w (f (elem sg w (lane w i a)) (elem sg w (lane w i b))).

(** The same with saturation: the exact result [f] is clamped to the element type
    by [sat], and the flag is set if some lane was out of range. *)
Definition lanewise_sat (sg : bool) (w : Z) (n : nat) (sat : Z -> Z) (f : Z -> Z -> Z)
    (fpscr : Z) (res : Z * Z) (a b : Z) : Prop :=
  (forall i, 0 <= i < Z.of_nat n ->
    lane w i res.1 = uint w (sat (f (elem sg w (lane w i a)) (elem sg w (lane w i b))))) /\
  res.2 = qc_if (any_lane n (fun i =>
    let x := f (elem sg w (lane w i a)) (elem sg w (lane w i b)) in
    negb (sat x =? x))) fpscr.

(** Clamping to the range of a type. *)
Definition sat_u (w x : Z) : Z := Z.max 0 (Z.min x (2 ^ w - 1)).
Definition sat_s (w x : Z) : Z := Z.max (- 2 ^ (w - 1)) (Z.min x (2 ^ (w - 1) - 1)).
Definition sat (sg : bool) (w : Z) : Z -> Z := if sg then sat_s w else sat_u w.

(** An element operation that clamps, on elements in range. *)
Definition fn_sat (sg : bool) (w : Z) (s : Z -> Z) (f : Z -> Z -> Z)
    (fn : Z -> Z -> Z * bool) : Prop :=
  forall x y, (if sg then in_s w x else in_u w x) -> (if sg then in_s w y else in_u w y) ->
    uint w (fn x y).1 = uint w (s (f x y)) /\ (fn x y).2 = negb (s (f x y) =? f x y).

Lemma elem_range (sg : bool) w x : 0 < w -> if sg then in_s w (elem sg w x) else in_u w (elem sg w x).
Proof. intros. destruct sg; [by apply sint_range|apply uint_range; lia]. Qed.

Lemma NEON_VOP_lanewise (sg : bool) w n (fn f : Z -> Z -> Z) a b : 0 < w ->
  (forall x y, (if sg then in_s w x else in_u w x) -> (if sg then in_s w y else in_u w y) ->
    uint w (fn x y) = uint w (f x y)) ->
  lanewise sg w n f (NEON_VOP sg w n fn a b) a b.
Proof.
  intros Hw H i Hi. rewrite NEON_VOP_lane by done. apply H; by apply elem_range.
Qed.

Lemma NEON_VOP_ENV_sat sg w n s fn f fpscr a b : 0 < w -> fn_sat sg w s f fn ->
  lanewise_sat sg w n s f fpscr (NEON_VOP_ENV sg w n fn fpscr a b) a b.
Proof.
  intros Hw H. split.
  - intros i Hi. rewrite NEON_VOP_ENV_lane by done. apply H; by apply elem_range.
  - rewrite NEON_VOP_ENV_qc. f_equal. apply any_lane_ext. intros i Hi.
    apply H; by apply elem_range.
Qed.

(** A helper on whole words is a vector of one lane. *)
Definition whole_sat (sg : bool) (w : Z) (s : Z -> Z) (x fpscr : Z) (res : Z * Z) : Prop :=
  res.1 = uint w (s x) /\ res.2 = qc_if (negb (s x =? x)) fpscr.

(** ** Specifications of a helper that may overflow *)

Lemma c_int_Some x : in_s 32 x -> c_int x = Some x.
Proof. intros H. unfold c_int, in_s in *. by rewrite (proj2 (Z.leb_le _ _)), (proj2 (Z.ltb_lt _ _)) by lia. Qed.
Lemma c_int_None x : ~ in_s 32 x -> c_int x = None.
Proof.
  intros H. unfold c_int, in_s in *.
  destruct (Z.leb_spec (- 2 ^ 31) x), (Z.ltb_spec x (2 ^ 31)); cbn [andb]; try done. lia.
Qed.

(** [def] holds in every lane, or fails in some. *)
Definition all_lanes (sg : bool) (w : Z) (n : nat) (def : Z -> Z -> Prop) (a b : Z) : Prop :=
  forall i, 0 <= i < Z.of_nat n -> def (elem sg w (lane w i a)) (elem sg w (lane w i b)).

Definition some_lane_not (sg : bool) (w : Z) (n : nat) (def : Z -> Z -> Prop) (a b : Z) : Prop :=
  exists i, 0 <= i < Z.of_nat n /\ ~ def (elem sg w (lane w i a)) (elem sg w (lane w i b)).

(** The helper is defined exactly when [def] holds in every lane, and then every
    lane of the result is [f] of the operands' lanes. *)
Definition lanewise_int (sg : bool) (w : Z) (n : nat) (def : Z -> Z -> Prop) (f : Z -> Z -> Z)
    (res : option Z) (a b : Z) : Prop :=
  match res with
  | Some r => all_lanes sg w n def a b /\ lanewise sg w n f r a b
  | None => some_lane_not sg w n def a b
  end.

Definition lanewise_sat_int (sg : bool) (w : Z) (n : nat) (def : Z -> Z -> Prop) (st : Z -> Z)
    (f : Z -> Z -> Z) (fpscr : Z) (res : option (Z * Z)) (a b : Z) : Prop :=
  match res with
  | Some r => all_lanes sg w n def a b /\ lanewise_sat sg w n st f fpscr r a b
  | None => some_lane_not sg w n def a b
  end.

(** Running a partial operation over two lists: all the values, or a failing place. *)
Lemma mapM_zip_with {A} (fn : Z -> Z -> option A) (d : A) la lb :
  match mapM id (zip_with fn la lb) with
  | Some k => k = zip_with (fun x y => default d (fn x y)) la lb /\
      forall i x y, la !! i = Some x -> lb !! i = Some y -> is_Some (fn x y)
  | None => exists i x y, la !! i = Some x /\ lb !! i = Some y /\ fn x y = None
  end.
Proof.
  revert lb. induction la as [|x la IH]; intros [|y lb]; cbn [zip_with mapM]; try done.
  specialize (IH lb). unfold id in *.
  destruct (fn x y) as [r|] eqn:E; cbn [mbind option_bind].
  - destruct (mapM _ (zip_with fn la lb)) as [k|]; cbn.
    + destruct IH as [-> IH]. split; [done|]. intros [|i] x' y'; cbn; [|apply IH].
      intros [= <-] [= <-]. by exists r.
    + destruct IH as (i & x' & y' & H1 & H2 & H3). by exists (S i), x', y'.
  - by exists 0%nat, x, y.
Qed.

(** The two macros reduce to the total ones on defined lanes. *)
Lemma unpack_lane_inv sg w n x i v : NEON_UNPACK sg w n x !! i = Some v ->
  0 <= Z.of_nat i < Z.of_nat n /\ v = elem sg w (lane w (Z.of_nat i) x).
Proof.
  intros H. pose proof (lookup_lt_Some _ _ _ H) as Hl. rewrite length_NEON_UNPACK in Hl.
  split; [lia|]. pose proof (NEON_UNPACK_lookup sg w n x (Z.of_nat i) ltac:(lia)) as E.
  rewrite Nat2Z.id in E. congruence.
Qed.

Lemma lanes_mapM {A} (fn : Z -> Z -> option A) (d : A) (sg : bool) w n a b (def : Z -> Z -> Prop) :
  (forall x y, (if sg then in_s w x else in_u w x) -> (if sg then in_s w y else in_u w y) ->
    is_Some (fn x y) <-> def x y) -> 0 < w ->
  match mapM id (zip_with fn (NEON_UNPACK sg w n a) (NEON_UNPACK sg w n b)) with
  | Some k => k = zip_with (fun x y => default d (fn x y)) (NEON_UNPACK sg w n a) (NEON_UNPACK sg w n b) /\
      all_lanes sg w n def a b
  | None => some_lane_not sg w n def a b
  end.
Proof.
  intros Hd Hw. pose proof (mapM_zip_with fn d (NEON_UNPACK sg w n a) (NEON_UNPACK sg w n b)) as H.
  destruct (mapM id _) as [k|].
  - destruct H as [-> H]. split; [done|]. intros i Hi. apply Hd; [by apply elem_range..|].
    apply (H (Z.to_nat i)); by apply NEON_UNPACK_lookup.
  - destruct H as (i & x & y & Hx & Hy & E).
    apply unpack_lane_inv in Hx as [Hi ->]. apply unpack_lane_inv in Hy as [_ ->].
    exists (Z.of_nat i). split; [done|]. intros HD. apply Hd in HD; [|by apply elem_range..].
    rewrite E in HD. by destruct HD.
Qed.

(** What an element operation computes where it is defined, and where it is. *)
Definition fn_int {A} (sg : bool) (w : Z) (def : Z -> Z -> Prop) (ok : Z -> Z -> A -> Prop)
    (fn : Z -> Z -> option A) : Prop :=
  forall x y, (if sg then in_s w x else in_u w x) -> (if sg then in_s w y else in_u w y) ->
    match fn x y with Some r => def x y /\ ok x y r | None => ~ def x y end.

Lemma fn_int_is_Some {A} (sg : bool) w def ok (fn : Z -> Z -> option A) x y : fn_int sg w def ok fn ->
  (if sg then in_s w x else in_u w x) -> (if sg then in_s w y else in_u w y) ->
  is_Some (fn x y) <-> def x y.
Proof.
  intros H Hx Hy. specialize (H x y Hx Hy). destruct (fn x y) as [r|].
  - split; [intros _; apply H|by exists r].
  - split; [intros [? [=]]|done].
Qed.

Lemma fn_int_default {A} (sg : bool) w def ok (fn : Z -> Z -> option A) d x y : fn_int sg w def ok fn ->
  (if sg then in_s w x else in_u w x) -> (if sg then in_s w y else in_u w y) ->
  def x y -> ok x y (default d (fn x y)).
Proof.
  intros H Hx Hy Hd. specialize (H x y Hx Hy). destruct (fn x y); [by destruct H|done].
Qed.

Lemma NEON_VOP_int_lanewise (sg : bool) w n fn f (def : Z -> Z -> Prop) a b : 0 < w ->
  fn_int sg w def (fun x y r => uint w r = uint w (f x y)) fn ->
  lanewise_int sg w n def f (NEON_VOP_int sg w n fn a b) a b.
Proof.
  intros Hw H. unfold lanewise_int, NEON_VOP_int.
  pose proof (lanes_mapM fn 0 sg w n a b def (fun x y => fn_int_is_Some _ _ _ _ _ x y H) Hw) as HM.
  destruct (mapM id _) as [k|]; cbn [fmap option_fmap option_map]; [|done].
  destruct HM as [-> HD]. split; [done|]. intros i Hi.
  etrans; [apply (NEON_VOP_lane sg w n (fun x y => default 0 (fn x y))); done|].
  exact (fn_int_default _ _ _ _ _ 0 _ _ H (elem_range sg w _ Hw) (elem_range sg w _ Hw) (HD i Hi)).
Qed.

Lemma NEON_VOP_ENV_int_sat (sg : bool) w n st fn f (def : Z -> Z -> Prop) fpscr a b : 0 < w ->
  fn_int sg w def (fun x y r => uint w r.1 = uint w (st (f x y)) /\
    r.2 = negb (st (f x y) =? f x y)) fn ->
  lanewise_sat_int sg w n def st f fpscr (NEON_VOP_ENV_int sg w n fn fpscr a b) a b.
Proof.
  intros Hw H. unfold lanewise_sat_int, NEON_VOP_ENV_int.
  pose proof (lanes_mapM fn (0, false) sg w n a b def (fun x y => fn_int_is_Some _ _ _ _ _ x y H) Hw) as HM.
  destruct (mapM id _) as [k|]; cbn [fmap option_fmap option_map]; [|done].
  destruct HM as [-> HD]. split; [done|].
  assert (forall i, 0 <= i < Z.of_nat n -> _) as HL by (intros i Hi;
    exact (fn_int_default _ _ _ _ _ (0, false) _ _ H (elem_range sg w _ Hw) (elem_range sg w _ Hw) (HD i Hi))).
  set (g := fun x y => default (0, false) (fn x y)).
  change (lanewise_sat sg w n st f fpscr (NEON_VOP_ENV sg w n g fpscr a b) a b). split.
  - intros i Hi. rewrite NEON_VOP_ENV_lane by done. by apply HL.
  - rewrite NEON_VOP_ENV_qc. f_equal. apply any_lane_ext. intros i Hi. by apply HL.
Qed.
