(* ===== verification/NeonArith.v ===== *)
(** * NEON helpers: addition, subtraction, comparison, counting

    The saturating, halving, comparing and absolute-difference helpers of
    src/emul/qemu/target-arm/neon_helper.c, the additions and subtractions done on
    whole words with masked carries, and the bit-counting helpers, each with the
    lane-wise function it computes. *)

From S2P Require Import Prelude NeonBase.
Open Scope Z_scope.

Definition SIGNBIT : Z := 2147483648.
Definition SIGNBIT64 : Z := 9223372036854775808.
Definition U32_MAX : Z := 4294967295.
Definition U64_MAX : Z := 18446744073709551615.

(** ** Saturating addition and subtraction *)

(** [NEON_USAT] for addition, at an element width below 32. *)
Definition NEON_USAT_add (w src1 src2 : Z) : Z * bool :=
  let tmp := uint32_t (uint32_t src1 + uint32_t src2) in
  if tmp =? uint w tmp then (tmp, false) else (-1, true).

Definition neon_qadd_u8 := NEON_VOP_ENV false 8 4 (NEON_USAT_add 8).
Definition neon_qadd_u16 := NEON_VOP_ENV false 16 2 (NEON_USAT_add 16).

Definition neon_qadd_u32 (fpscr a b : Z) : Z * Z :=
  let res := uint32_t (a + b) in
  if res <? a then (U32_MAX, SET_QC fpscr) else (res, fpscr).

Definition neon_qadd_u64 (fpscr src1 src2 : Z) : Z * Z :=
  let res := uint64_t (src1 + src2) in
  if res <? src1 then (U64_MAX, SET_QC fpscr) else (res, fpscr).

Definition NEON_SSAT_add (w src1 src2 : Z) : Z * bool :=
  let tmp := int32_t (uint32_t src1 + uint32_t src2) in
  if tmp =? sint w tmp then (tmp, false)
  else (if 0 <? src2 then Z.shiftl 1 (w - 1) - 1 else Z.shiftl 1 (w - 1), true).

Definition neon_qadd_s8 := NEON_VOP_ENV true 8 4 (NEON_SSAT_add 8).
Definition neon_qadd_s16 := NEON_VOP_ENV true 16 2 (NEON_SSAT_add 16).

(** A C condition: non-zero. *)
Definition nz (x : Z) : bool := negb (x =? 0).

Definition neon_qadd_s32 (fpscr a b : Z) : Z * Z :=
  let res := uint32_t (a + b) in
  if nz (Z.land (Z.lxor res a) SIGNBIT) && negb (nz (Z.land (Z.lxor a b) SIGNBIT))
  then (uint32_t (Z.lnot (Z.lxor (uint32_t (Z.shiftr (int32_t a) 31)) SIGNBIT)), SET_QC fpscr)
  else (res, fpscr).

Definition neon_qadd_s64 (fpscr src1 src2 : Z) : Z * Z :=
  let res := uint64_t (src1 + src2) in
  if nz (Z.land (Z.lxor res src1) SIGNBIT64) && negb (nz (Z.land (Z.lxor src1 src2) SIGNBIT64))
  then (Z.lxor (uint64_t (Z.shiftr (int64_t src1) 63)) (uint64_t (Z.lnot SIGNBIT64)), SET_QC fpscr)
  else (res, fpscr).

Definition NEON_USAT_sub (w src1 src2 : Z) : Z * bool :=
  let tmp := uint32_t (uint32_t src1 - uint32_t src2) in
  if tmp =? uint w tmp then (tmp, false) else (0, true).

Definition neon_qsub_u8 := NEON_VOP_ENV false 8 4 (NEON_USAT_sub 8).
Definition neon_qsub_u16 := NEON_VOP_ENV false 16 2 (NEON_USAT_sub 16).

Definition neon_qsub_u32 (fpscr a b : Z) : Z * Z :=
  let res := uint32_t (a - b) in
  if a <? res then (0, SET_QC fpscr) else (res, fpscr).

Definition neon_qsub_u64 (fpscr src1 src2 : Z) : Z * Z :=
  if src1 <? src2 then (0, SET_QC fpscr) else (uint64_t (src1 - src2), fpscr).

Definition NEON_SSAT_sub (w src1 src2 : Z) : Z * bool :=
  let tmp := int32_t (uint32_t src1 - uint32_t src2) in
  if tmp =? sint w tmp then (tmp, false)
  else (if src2 <? 0 then Z.shiftl 1 (w - 1) - 1 else Z.shiftl 1 (w - 1), true).

Definition neon_qsub_s8 := NEON_VOP_ENV true 8 4 (NEON_SSAT_sub 8).
Definition neon_qsub_s16 := NEON_VOP_ENV true 16 2 (NEON_SSAT_sub 16).

Definition neon_qsub_s32 (fpscr a b : Z) : Z * Z :=
  let res := uint32_t (a - b) in
  if nz (Z.land (Z.lxor res a) SIGNBIT) && nz (Z.land (Z.lxor a b) SIGNBIT)
  then (uint32_t (Z.lnot (Z.lxor (uint32_t (Z.shiftr (int32_t a) 31)) SIGNBIT)), SET_QC fpscr)
  else (res, fpscr).

Definition neon_qsub_s64 (fpscr src1 src2 : Z) : Z * Z :=
  let res := uint64_t (src1 - src2) in
  if nz (Z.land (Z.lxor res src1) SIGNBIT64) && nz (Z.land (Z.lxor src1 src2) SIGNBIT64)
  then (Z.lxor (uint64_t (Z.shiftr (int64_t src1) 63)) (uint64_t (Z.lnot SIGNBIT64)), SET_QC fpscr)
  else (res, fpscr).

(** ** Sign bits *)

(** The masked sign of an exclusive or says whether the signs differ. *)
Lemma sign_xor w a b : 0 < w -> in_u w a -> in_u w b ->
  nz (Z.land (Z.lxor a b) (2 ^ (w - 1))) = xorb (2 ^ (w - 1) <=? a) (2 ^ (w - 1) <=? b).
Proof.
  intros Hw Ha Hb.
  assert (forall x, in_u w x -> Z.testbit x (w - 1) = (2 ^ (w - 1) <=? x)) as Ht.
  { intros x Hx. unfold in_u in Hx.
    assert (2 ^ w = 2 * 2 ^ (w - 1)) as E by (rewrite <- Z.pow_succ_r by lia; f_equal; lia).
    destruct (Z.leb_spec (2 ^ (w - 1)) x).
    - apply Z.testbit_true; [lia|].
      rewrite <- (Z.div_unique x (2 ^ (w - 1)) 1 (x - 2 ^ (w - 1))); [done|lia..].
    - apply Z.testbit_false; [lia|]. by rewrite Z.div_small by lia. }
  rewrite <- !Ht by done. rewrite <- Z.lxor_spec. set (x := Z.lxor a b).
  unfold nz. destruct (Z.testbit x (w - 1)) eqn:E.
  - destruct (Z.eqb_spec (Z.land x (2 ^ (w - 1))) 0) as [E0|]; [|done].
    apply (f_equal (fun z => Z.testbit z (w - 1))) in E0.
    rewrite Z.land_spec, E, Z.pow2_bits_true, Z.bits_0 in E0 by lia. done.
  - assert (Z.land x (2 ^ (w - 1)) = 0) as ->; [|done].
    apply Z.bits_inj'. intros i Hi. rewrite Z.land_spec, Z.bits_0.
    destruct (decide (i = w - 1)) as [->|]; [by rewrite E|].
    rewrite Z.pow2_bits_false by lia. apply andb_false_r.
Qed.

Lemma sign_xor32 a b : in_u 32 a -> in_u 32 b ->
  nz (Z.land (Z.lxor a b) SIGNBIT) = xorb (2147483648 <=? a) (2147483648 <=? b).
Proof. apply (sign_xor 32). lia. Qed.

Lemma sign_xor64 a b : in_u 64 a -> in_u 64 b ->
  nz (Z.land (Z.lxor a b) SIGNBIT64) = xorb (9223372036854775808 <=? a) (9223372036854775808 <=? b).
Proof. apply (sign_xor 64). lia. Qed.

(** The arithmetic shift by all but one bit is the sign. *)
Lemma shiftr_sign w x : 0 < w -> in_s w x -> Z.shiftr x (w - 1) = if x <? 0 then -1 else 0.
Proof.
  intros Hw Hx. unfold in_s in Hx. rewrite Z.shiftr_div_pow2 by lia.
  destruct (Z.ltb_spec x 0).
  - symmetry. apply (Z.div_unique x (2 ^ (w - 1)) (-1) (x + 2 ^ (w - 1))); lia.
  - apply Z.div_small. lia.
Qed.

Lemma int32_sign a : in_u 32 a -> (2147483648 <=? a) = (int32_t a <? 0).
Proof. intros Ha. split_ltb; cint. Qed.

Lemma sat_value32 a : in_u 32 a ->
  uint32_t (Z.lnot (Z.lxor (uint32_t (Z.shiftr (int32_t a) 31)) SIGNBIT)) =
  if 2147483648 <=? a then 2147483648 else 2147483647.
Proof.
  intros Ha. rewrite int32_sign by done.
  change 31 with (32 - 1). rewrite shiftr_sign by (lia || apply sint_range; lia).
  by destruct (int32_t a <? 0).
Qed.

Lemma sat_value64 a : in_u 64 a ->
  Z.lxor (uint64_t (Z.shiftr (int64_t a) 63)) (uint64_t (Z.lnot SIGNBIT64)) =
  if 9223372036854775808 <=? a then 9223372036854775808 else 9223372036854775807.
Proof.
  intros Ha. change 63 with (64 - 1). rewrite shiftr_sign by (lia || apply sint_range; lia).
  assert ((9223372036854775808 <=? a) = (int64_t a <? 0)) as -> by (split_ltb; cint).
  by destruct (int64_t a <? 0).
Qed.

(** ** The saturating helpers clamp *)

Ltac sat_unfold := unfold sat_u, sat_s, U32_MAX, U64_MAX, SIGNBIT, SIGNBIT64, qc_if in *.

(** [sat_solve] splits the comparisons of a saturation goal and leaves the
    arithmetic to [lia]. *)
Ltac case_cmp :=
  repeat match goal with
  | |- context [?a <? ?b] => destruct (Z.ltb_spec a b)
  | |- context [?a <=? ?b] => destruct (Z.leb_spec a b)
  | |- context [?a =? ?b] => destruct (Z.eqb_spec a b)
  end; cbn [negb andb orb xorb fst snd].

Ltac sat_solve := sat_unfold; case_cmp; (split; [cint|]); (reflexivity || (exfalso; cint)).

Lemma usat_add_fn w : w = 8 \/ w = 16 -> fn_sat false w (sat_u w) Z.add (NEON_USAT_add w).
Proof. intros [->| ->] x y Hx Hy; unfold NEON_USAT_add; cbn zeta; sat_solve. Qed.

Lemma ssat_add_fn w : w = 8 \/ w = 16 -> fn_sat true w (sat_s w) Z.add (NEON_SSAT_add w).
Proof.
  intros [->| ->] x y Hx Hy; unfold NEON_SSAT_add; cbn zeta;
    change (Z.shiftl 1 (8 - 1)) with 128; change (Z.shiftl 1 (16 - 1)) with 32768; sat_solve.
Qed.

Lemma usat_sub_fn w : w = 8 \/ w = 16 -> fn_sat false w (sat_u w) Z.sub (NEON_USAT_sub w).
Proof. intros [->| ->] x y Hx Hy; unfold NEON_USAT_sub; cbn zeta; sat_solve. Qed.

Lemma ssat_sub_fn w : w = 8 \/ w = 16 -> fn_sat true w (sat_s w) Z.sub (NEON_SSAT_sub w).
Proof.
  intros [->| ->] x y Hx Hy; unfold NEON_SSAT_sub; cbn zeta;
    change (Z.shiftl 1 (8 - 1)) with 128; change (Z.shiftl 1 (16 - 1)) with 32768; sat_solve.
Qed.

Lemma qadd_u32_whole f a b : in_u 32 a -> in_u 32 b ->
  whole_sat false 32 (sat_u 32) (a + b) f (neon_qadd_u32 f a b).
Proof. intros Ha Hb. unfold whole_sat, neon_qadd_u32; cbn zeta; sat_solve. Qed.

Lemma qadd_u64_whole f a b : in_u 64 a -> in_u 64 b ->
  whole_sat false 64 (sat_u 64) (a + b) f (neon_qadd_u64 f a b).
Proof. intros Ha Hb. unfold whole_sat, neon_qadd_u64; cbn zeta; sat_solve. Qed.

Lemma qsub_u32_whole f a b : in_u 32 a -> in_u 32 b ->
  whole_sat false 32 (sat_u 32) (a - b) f (neon_qsub_u32 f a b).
Proof. intros Ha Hb. unfold whole_sat, neon_qsub_u32; cbn zeta; sat_solve. Qed.

Lemma qsub_u64_whole f a b : in_u 64 a -> in_u 64 b ->
  whole_sat false 64 (sat_u 64) (a - b) f (neon_qsub_u64 f a b).
Proof. intros Ha Hb. unfold whole_sat, neon_qsub_u64; cbn zeta; sat_solve. Qed.

Lemma qadd_s32_whole f a b : in_u 32 a -> in_u 32 b ->
  whole_sat true 32 (sat_s 32) (int32_t a + int32_t b) f (neon_qadd_s32 f a b).
Proof.
  intros Ha Hb. unfold whole_sat, neon_qadd_s32. cbn zeta.
  rewrite !sign_xor32, sat_value32 by (done || apply uint_range; lia). sat_solve.
Qed.

Lemma qadd_s64_whole f a b : in_u 64 a -> in_u 64 b ->
  whole_sat true 64 (sat_s 64) (int64_t a + int64_t b) f (neon_qadd_s64 f a b).
Proof.
  intros Ha Hb. unfold whole_sat, neon_qadd_s64. cbn zeta.
  rewrite !sign_xor64, sat_value64 by (done || apply uint_range; lia). sat_solve.
Qed.

Lemma qsub_s32_whole f a b : in_u 32 a -> in_u 32 b ->
  whole_sat true 32 (sat_s 32) (int32_t a - int32_t b) f (neon_qsub_s32 f a b).
Proof.
  intros Ha Hb. unfold whole_sat, neon_qsub_s32. cbn zeta.
  rewrite !sign_xor32, sat_value32 by (done || apply uint_range; lia). sat_solve.
Qed.

Lemma qsub_s64_whole f a b : in_u 64 a -> in_u 64 b ->
  whole_sat true 64 (sat_s 64) (int64_t a - int64_t b) f (neon_qsub_s64 f a b).
Proof.
  intros Ha Hb. unfold whole_sat, neon_qsub_s64. cbn zeta.
  rewrite !sign_xor64, sat_value64 by (done || apply uint_range; lia). sat_solve.
Qed.

(** The saturating additions and subtractions of all eight element types
    compute, lane by lane, the exact result clamped to the type, and report
    saturation exactly when some lane was clamped. *)
Lemma neon_saturating_add_sub f a b :
  lanewise_sat false 8 4 (sat_u 8) Z.add f (neon_qadd_u8 f a b) a b /\
  lanewise_sat false 16 2 (sat_u 16) Z.add f (neon_qadd_u16 f a b) a b /\
  lanewise_sat true 8 4 (sat_s 8) Z.add f (neon_qadd_s8 f a b) a b /\
  lanewise_sat true 16 2 (sat_s 16) Z.add f (neon_qadd_s16 f a b) a b /\
  lanewise_sat false 8 4 (sat_u 8) Z.sub f (neon_qsub_u8 f a b) a b /\
  lanewise_sat false 16 2 (sat_u 16) Z.sub f (neon_qsub_u16 f a b) a b /\
  lanewise_sat true 8 4 (sat_s 8) Z.sub f (neon_qsub_s8 f a b) a b /\
  lanewise_sat true 16 2 (sat_s 16) Z.sub f (neon_qsub_s16 f a b) a b /\
  (in_u 32 a -> in_u 32 b ->
     whole_sat false 32 (sat_u 32) (a + b) f (neon_qadd_u32 f a b) /\
     whole_sat false 32 (sat_u 32) (a - b) f (neon_qsub_u32 f a b) /\
     whole_sat true 32 (sat_s 32) (int32_t a + int32_t b) f (neon_qadd_s32 f a b) /\
     whole_sat true 32 (sat_s 32) (int32_t a - int32_t b) f (neon_qsub_s32 f a b)) /\
  (in_u 64 a -> in_u 64 b ->
     whole_sat false 64 (sat_u 64) (a + b) f (neon_qadd_u64 f a b) /\
     whole_sat false 64 (sat_u 64) (a - b) f (neon_qsub_u64 f a b) /\
     whole_sat true 64 (sat_s 64) (int64_t a + int64_t b) f (neon_qadd_s64 f a b) /\
     whole_sat true 64 (sat_s 64) (int64_t a - int64_t b) f (neon_qsub_s64 f a b)).
Proof.
  repeat (split; [apply NEON_VOP_ENV_sat;
    [lia|first [apply usat_add_fn|apply ssat_add_fn|apply usat_sub_fn|apply ssat_sub_fn]; lia]|]).
  split; intros Ha Hb.
  - split_and!; [by apply qadd_u32_whole|by apply qsub_u32_whole|by apply qadd_s32_whole|
      by apply qsub_s32_whole].
  - split_and!; [by apply qadd_u64_whole|by apply qsub_u64_whole|by apply qadd_s64_whole|
      by apply qsub_s64_whole].
Qed.

(** ** Halving operations *)

Definition FN_hadd (src1 src2 : Z) : Z := Z.shiftr (src1 + src2) 1.
Definition neon_hadd_s8 := NEON_VOP true 8 4 FN_hadd.
Definition neon_hadd_u8 := NEON_VOP false 8 4 FN_hadd.
Definition neon_hadd_s16 := NEON_VOP true 16 2 FN_hadd.
Definition neon_hadd_u16 := NEON_VOP false 16 2 FN_hadd.

Definition neon_hadd_s32 (src1 src2 : Z) : Z :=
  let dest := int32_t (Z.shiftr src1 1 + Z.shiftr src2 1) in
  if nz (Z.land (Z.land src1 src2) 1) then int32_t (dest + 1) else dest.

Definition neon_hadd_u32 (src1 src2 : Z) : Z :=
  let dest := uint32_t (Z.shiftr src1 1 + Z.shiftr src2 1) in
  if nz (Z.land (Z.land src1 src2) 1) then uint32_t (dest + 1) else dest.

Definition FN_rhadd (src1 src2 : Z) : Z := Z.shiftr (src1 + src2 + 1) 1.
Definition neon_rhadd_s8 := NEON_VOP true 8 4 FN_rhadd.
Definition neon_rhadd_u8 := NEON_VOP false 8 4 FN_rhadd.
Definition neon_rhadd_s16 := NEON_VOP true 16 2 FN_rhadd.
Definition neon_rhadd_u16 := NEON_VOP false 16 2 FN_rhadd.

Definition neon_rhadd_s32 (src1 src2 : Z) : Z :=
  let dest := int32_t (Z.shiftr src1 1 + Z.shiftr src2 1) in
  if nz (Z.land (Z.lor src1 src2) 1) then int32_t (dest + 1) else dest.

Definition neon_rhadd_u32 (src1 src2 : Z) : Z :=
  let dest := uint32_t (Z.shiftr src1 1 + Z.shiftr src2 1) in
  if nz (Z.land (Z.lor src1 src2) 1) then uint32_t (dest + 1) else dest.

Definition FN_hsub (src1 src2 : Z) : Z := Z.shiftr (src1 - src2) 1.
Definition neon_hsub_s8 := NEON_VOP true 8 4 FN_hsub.
Definition neon_hsub_u8 := NEON_VOP false 8 4 FN_hsub.
Definition neon_hsub_s16 := NEON_VOP true 16 2 FN_hsub.
Definition neon_hsub_u16 := NEON_VOP false 16 2 FN_hsub.

Definition neon_hsub_s32 (src1 src2 : Z) : Z :=
  let dest := int32_t (Z.shiftr src1 1 - Z.shiftr src2 1) in
  if nz (Z.land (Z.land (Z.lnot src1) src2) 1) then int32_t (dest - 1) else dest.

Definition neon_hsub_u32 (src1 src2 : Z) : Z :=
  let dest := uint32_t (Z.shiftr src1 1 - Z.shiftr src2 1) in
  if nz (Z.land (Z.land (Z.lnot src1) src2) 1) then uint32_t (dest - 1) else dest.

(** The low bit of a bit expression, as a parity. *)
Lemma nz_low x : nz (Z.land x 1) = Z.odd x.
Proof.
  unfold nz. change 1 with (Z.ones 1). rewrite Z.land_ones by lia. change (2 ^ 1) with 2.
  rewrite Zmod_odd. by destruct (Z.odd x).
Qed.

Lemma odd_land x y : Z.odd (Z.land x y) = Z.odd x && Z.odd y.
Proof. rewrite <- !Z.bit0_odd. apply Z.land_spec. Qed.
Lemma odd_lor x y : Z.odd (Z.lor x y) = Z.odd x || Z.odd y.
Proof. rewrite <- !Z.bit0_odd. apply Z.lor_spec. Qed.
Lemma odd_lnot x : Z.odd (Z.lnot x) = negb (Z.odd x).
Proof. rewrite <- !Z.bit0_odd. by rewrite Z.lnot_spec by lia. Qed.

Lemma shiftr1 x : Z.shiftr x 1 = x / 2.
Proof. by rewrite Z.shiftr_div_pow2 by lia. Qed.

(** Every integer is twice its half plus its parity. *)
Lemma half_parity x : exists q, x = 2 * q + b2z (Z.odd x) /\ x / 2 = q.
Proof.
  exists (x / 2). split; [|done]. pose proof (Zmod_odd x) as E. pose proof (Z.div_mod x 2).
  unfold b2z. destruct (Z.odd x); lia.
Qed.

Ltac half_solve src1 src2 :=
  rewrite nz_low, ?odd_land, ?odd_lor, ?odd_lnot, !shiftr1;
  let q1 := fresh "q" in let q2 := fresh "q" in
  destruct (half_parity src1) as (q1 & ? & ->);
  destruct (half_parity src2) as (q2 & ? & ->);
  destruct (Z.odd src1), (Z.odd src2); cbn [andb orb negb]; cint.

(** The halving additions and subtractions compute the floor (for the
    rounding ones, the rounded half) of the exact sum or difference, without the
    overflow of the intermediate result, in every lane and for the 32-bit forms
    that avoid a wider type. *)
Lemma neon_halving a b :
  (forall s1 s2, lanewise true 8 4 (fun x y => (x + y) / 2) (neon_hadd_s8 s1 s2) s1 s2 /\
     lanewise false 8 4 (fun x y => (x + y) / 2) (neon_hadd_u8 s1 s2) s1 s2 /\
     lanewise true 16 2 (fun x y => (x + y) / 2) (neon_hadd_s16 s1 s2) s1 s2 /\
     lanewise false 16 2 (fun x y => (x + y) / 2) (neon_hadd_u16 s1 s2) s1 s2 /\
     lanewise true 8 4 (fun x y => (x + y + 1) / 2) (neon_rhadd_s8 s1 s2) s1 s2 /\
     lanewise false 8 4 (fun x y => (x + y + 1) / 2) (neon_rhadd_u8 s1 s2) s1 s2 /\
     lanewise true 16 2 (fun x y => (x + y + 1) / 2) (neon_rhadd_s16 s1 s2) s1 s2 /\
     lanewise false 16 2 (fun x y => (x + y + 1) / 2) (neon_rhadd_u16 s1 s2) s1 s2 /\
     lanewise true 8 4 (fun x y => (x - y) / 2) (neon_hsub_s8 s1 s2) s1 s2 /\
     lanewise false 8 4 (fun x y => (x - y) / 2) (neon_hsub_u8 s1 s2) s1 s2 /\
     lanewise true 16 2 (fun x y => (x - y) / 2) (neon_hsub_s16 s1 s2) s1 s2 /\
     lanewise false 16 2 (fun x y => (x - y) / 2) (neon_hsub_u16 s1 s2) s1 s2) /\
  (in_s 32 a -> in_s 32 b ->
     neon_hadd_s32 a b = (a + b) / 2 /\ neon_rhadd_s32 a b = (a + b + 1) / 2 /\
     neon_hsub_s32 a b = (a - b) / 2) /\
  (in_u 32 a -> in_u 32 b ->
     neon_hadd_u32 a b = (a + b) / 2 /\ neon_rhadd_u32 a b = (a + b + 1) / 2 /\
     neon_hsub_u32 a b = uint32_t ((a - b) / 2)).
Proof.
  split; [|split; intros Ha Hb].
  - intros s1 s2. split_and!; (apply NEON_VOP_lanewise; [lia|]; intros x y _ _;
      unfold FN_hadd, FN_rhadd, FN_hsub; by rewrite shiftr1).
  - unfold neon_hadd_s32, neon_rhadd_s32, neon_hsub_s32. cbn zeta.
    split_and!; half_solve a b.
  - unfold neon_hadd_u32, neon_rhadd_u32, neon_hsub_u32. cbn zeta.
    split_and!; half_solve a b.
Qed.

(** ** Comparison, minimum, maximum, absolute difference *)

Definition FN_cgt (src1 src2 : Z) : Z := if src2 <? src1 then -1 else 0.
Definition neon_cgt_s8 := NEON_VOP true 8 4 FN_cgt.
Definition neon_cgt_u8 := NEON_VOP false 8 4 FN_cgt.
Definition neon_cgt_s16 := NEON_VOP true 16 2 FN_cgt.
Definition neon_cgt_u16 := NEON_VOP false 16 2 FN_cgt.
Definition neon_cgt_s32 := NEON_VOP true 32 1 FN_cgt.
Definition neon_cgt_u32 := NEON_VOP false 32 1 FN_cgt.

Definition FN_cge (src1 src2 : Z) : Z := if src2 <=? src1 then -1 else 0.
Definition neon_cge_s8 := NEON_VOP true 8 4 FN_cge.
Definition neon_cge_u8 := NEON_VOP false 8 4 FN_cge.
Definition neon_cge_s16 := NEON_VOP true 16 2 FN_cge.
Definition neon_cge_u16 := NEON_VOP false 16 2 FN_cge.
Definition neon_cge_s32 := NEON_VOP true 32 1 FN_cge.
Definition neon_cge_u32 := NEON_VOP false 32 1 FN_cge.

Definition FN_min (src1 src2 : Z) : Z := if src1 <? src2 then src1 else src2.
Definition neon_min_s8 := NEON_VOP true 8 4 FN_min.
Definition neon_min_u8 := NEON_VOP false 8 4 FN_min.
Definition neon_min_s16 := NEON_VOP true 16 2 FN_min.
Definition neon_min_u16 := NEON_VOP false 16 2 FN_min.
Definition neon_min_s32 := NEON_VOP true 32 1 FN_min.
Definition neon_min_u32 := NEON_VOP false 32 1 FN_min.
Definition neon_pmin_s8 := NEON_POP true 8 4 FN_min.
Definition neon_pmin_u8 := NEON_POP false 8 4 FN_min.
Definition neon_pmin_s16 := NEON_POP true 16 2 FN_min.
Definition neon_pmin_u16 := NEON_POP false 16 2 FN_min.

Definition FN_max (src1 src2 : Z) : Z := if src2 <? src1 then src1 else src2.
Definition neon_max_s8 := NEON_VOP true 8 4 FN_max.
Definition neon_max_u8 := NEON_VOP false 8 4 FN_max.
Definition neon_max_s16 := NEON_VOP true 16 2 FN_max.
Definition neon_max_u16 := NEON_VOP false 16 2 FN_max.
Definition neon_max_s32 := NEON_VOP true 32 1 FN_max.
Definition neon_max_u32 := NEON_VOP false 32 1 FN_max.
Definition neon_pmax_s8 := NEON_POP true 8 4 FN_max.
Definition neon_pmax_u8 := NEON_POP false 8 4 FN_max.
Definition neon_pmax_s16 := NEON_POP true 16 2 FN_max.
Definition neon_pmax_u16 := NEON_POP false 16 2 FN_max.

(** The subtraction is done in [int] for every element type but [uint32_t]. *)
Definition FN_abd (arith : Z -> option Z) (src1 src2 : Z) : option Z :=
  if src2 <? src1 then arith (src1 - src2) else arith (src2 - src1).
Definition neon_abd_s8 := NEON_VOP_int true 8 4 (FN_abd c_int).
Definition neon_abd_u8 := NEON_VOP_int false 8 4 (FN_abd c_int).
Definition neon_abd_s16 := NEON_VOP_int true 16 2 (FN_abd c_int).
Definition neon_abd_u16 := NEON_VOP_int false 16 2 (FN_abd c_int).
Definition neon_abd_s32 := NEON_VOP_int true 32 1 (FN_abd c_int).
Definition neon_abd_u32 := NEON_VOP_int false 32 1 (FN_abd c_uint).

(** ** Modular arithmetic and tests *)

Definition FN_padd (src1 src2 : Z) : Z := src1 + src2.
Definition neon_padd_u8 := NEON_POP false 8 4 FN_padd.
Definition neon_padd_u16 := NEON_POP false 16 2 FN_padd.

Definition FN_sub (src1 src2 : Z) : Z := src1 - src2.
Definition neon_sub_u8 := NEON_VOP false 8 4 FN_sub.
Definition neon_sub_u16 := NEON_VOP false 16 2 FN_sub.

(** The promoted operands are multiplied in [int]. *)
Definition FN_mul (src1 src2 : Z) : option Z := c_int (src1 * src2).
Definition neon_mul_u8 := NEON_VOP_int false 8 4 FN_mul.
Definition neon_mul_u16 := NEON_VOP_int false 16 2 FN_mul.

Definition FN_tst (src1 src2 : Z) : Z := if nz (Z.land src1 src2) then -1 else 0.
Definition neon_tst_u8 := NEON_VOP false 8 4 FN_tst.
Definition neon_tst_u16 := NEON_VOP false 16 2 FN_tst.
Definition neon_tst_u32 := NEON_VOP false 32 1 FN_tst.

Definition FN_ceq (src1 src2 : Z) : Z := if src1 =? src2 then -1 else 0.
Definition neon_ceq_u8 := NEON_VOP false 8 4 FN_ceq.
Definition neon_ceq_u16 := NEON_VOP false 16 2 FN_ceq.
Definition neon_ceq_u32 := NEON_VOP false 32 1 FN_ceq.

Definition FN_abs (src : Z) : Z := if src <? 0 then - src else src.
Definition neon_abs_s8 := NEON_VOP1 true 8 4 FN_abs.
Definition neon_abs_s16 := NEON_VOP1 true 16 2 FN_abs.

(** The mask a NEON comparison leaves in a lane. *)
Definition mask_of (b : bool) : Z := if b then -1 else 0.

(** The operations of one family at all six element types. *)
Definition family (f : Z -> Z -> Z) (s8 u8 s16 u16 s32 u32 : Z -> Z -> Z) (a b : Z) : Prop :=
  lanewise true 8 4 f (s8 a b) a b /\ lanewise false 8 4 f (u8 a b) a b /\
  lanewise true 16 2 f (s16 a b) a b /\ lanewise false 16 2 f (u16 a b) a b /\
  lanewise true 32 1 f (s32 a b) a b /\ lanewise false 32 1 f (u32 a b) a b.

Lemma family_vop fn f a b : (forall x y, fn x y = f x y) ->
  family f (NEON_VOP true 8 4 fn) (NEON_VOP false 8 4 fn) (NEON_VOP true 16 2 fn)
    (NEON_VOP false 16 2 fn) (NEON_VOP true 32 1 fn) (NEON_VOP false 32 1 fn) a b.
Proof.
  intros H. unfold family. split_and!; (apply NEON_VOP_lanewise; [lia|]; intros; by rewrite H).
Qed.

(** The comparisons produce an all-ones lane exactly when the relation holds
    between the lanes in the element type's order; minimum and maximum are the
    mathematical ones. *)
Lemma neon_compare_families a b :
  family (fun x y => mask_of (y <? x)) neon_cgt_s8 neon_cgt_u8 neon_cgt_s16 neon_cgt_u16
    neon_cgt_s32 neon_cgt_u32 a b /\
  family (fun x y => mask_of (y <=? x)) neon_cge_s8 neon_cge_u8 neon_cge_s16 neon_cge_u16
    neon_cge_s32 neon_cge_u32 a b /\
  family Z.min neon_min_s8 neon_min_u8 neon_min_s16 neon_min_u16 neon_min_s32 neon_min_u32 a b /\
  family Z.max neon_max_s8 neon_max_u8 neon_max_s16 neon_max_u16 neon_max_s32 neon_max_u32 a b.
Proof.
  split_and!; apply family_vop; intros x y; unfold FN_cgt, FN_cge, FN_min, FN_max, mask_of;
    case_cmp; lia.
Qed.

(** ** Absolute difference and product *)

Definition absdiff (x y : Z) : Z := Z.abs (x - y).

(** An operation in [int] is exact where its exact result fits. *)
Lemma c_int_ok w v (def : Prop) (z : Z) : (def <-> in_s 32 v) -> v = z ->
  match c_int v with Some r => def /\ uint w r = uint w z | None => ~ def end.
Proof.
  intros Hd <-. destruct (decide (- 2 ^ 31 <= v < 2 ^ 31)) as [H|H].
  - rewrite c_int_Some by (unfold in_s; lia). split; [apply Hd; unfold in_s; lia|done].
  - rewrite c_int_None by (unfold in_s; lia). rewrite Hd. unfold in_s. lia.
Qed.

Lemma FN_abd_int (sg : bool) w (def : Z -> Z -> Prop) :
  (forall x y, (if sg then in_s w x else in_u w x) -> (if sg then in_s w y else in_u w y) ->
    def x y <-> in_s 32 (absdiff x y)) ->
  fn_int sg w def (fun x y r => uint w r = uint w (absdiff x y)) (FN_abd c_int).
Proof.
  intros Hd x y Hx Hy. specialize (Hd x y Hx Hy). unfold FN_abd.
  destruct (Z.ltb_spec y x); apply c_int_ok; unfold absdiff in *;
    solve [by rewrite Hd; f_equiv; lia | lia].
Qed.

Lemma FN_abd_uint : fn_int false 32 (fun _ _ => True) (fun x y r => uint 32 r = uint 32 (absdiff x y))
  (FN_abd c_uint).
Proof.
  intros x y Hx Hy. unfold FN_abd, c_uint, absdiff, uint32_t.
  destruct (Z.ltb_spec y x); (split; [done|]); rewrite uint_uint by lia; f_equal; lia.
Qed.

(** The absolute difference is exact; at 32 signed bits only where it fits [int],
    and undefined elsewhere. *)
Lemma neon_abd_families a b :
  lanewise_int true 8 4 (fun _ _ => True) absdiff (neon_abd_s8 a b) a b /\
  lanewise_int false 8 4 (fun _ _ => True) absdiff (neon_abd_u8 a b) a b /\
  lanewise_int true 16 2 (fun _ _ => True) absdiff (neon_abd_s16 a b) a b /\
  lanewise_int false 16 2 (fun _ _ => True) absdiff (neon_abd_u16 a b) a b /\
  lanewise_int true 32 1 (fun x y => absdiff x y < 2 ^ 31) absdiff (neon_abd_s32 a b) a b /\
  lanewise_int false 32 1 (fun _ _ => True) absdiff (neon_abd_u32 a b) a b.
Proof.
  split_and!; (apply NEON_VOP_int_lanewise; [lia|]); try apply FN_abd_uint;
    (apply FN_abd_int; unfold in_s, in_u, absdiff; intros; lia).
Qed.

(** The modular helpers: subtraction and product modulo the lane width - the product
    of 16-bit lanes only where it fits [int] - the tests, and the absolute value. *)
Lemma neon_modular a b :
  lanewise false 8 4 Z.sub (neon_sub_u8 a b) a b /\
  lanewise false 16 2 Z.sub (neon_sub_u16 a b) a b /\
  lanewise_int false 8 4 (fun _ _ => True) Z.mul (neon_mul_u8 a b) a b /\
  lanewise_int false 16 2 (fun x y => x * y < 2 ^ 31) Z.mul (neon_mul_u16 a b) a b /\
  lanewise false 8 4 (fun x y => mask_of (nz (Z.land x y))) (neon_tst_u8 a b) a b /\
  lanewise false 16 2 (fun x y => mask_of (nz (Z.land x y))) (neon_tst_u16 a b) a b /\
  lanewise false 32 1 (fun x y => mask_of (nz (Z.land x y))) (neon_tst_u32 a b) a b /\
  lanewise false 8 4 (fun x y => mask_of (x =? y)) (neon_ceq_u8 a b) a b /\
  lanewise false 16 2 (fun x y => mask_of (x =? y)) (neon_ceq_u16 a b) a b /\
  lanewise false 32 1 (fun x y => mask_of (x =? y)) (neon_ceq_u32 a b) a b /\
  (forall i, 0 <= i < 4 -> lane 8 i (neon_abs_s8 a) = uint 8 (Z.abs (int8_t (lane 8 i a)))) /\
  (forall i, 0 <= i < 2 -> lane 16 i (neon_abs_s16 a) = uint 16 (Z.abs (int16_t (lane 16 i a)))).
Proof.
  assert (forall x, FN_abs x = Z.abs x) as HA by (intros; unfold FN_abs; case_cmp; lia).
  split_and!; try (apply NEON_VOP_lanewise; [lia|]; reflexivity).
  - apply NEON_VOP_int_lanewise; [lia|]. intros x y Hx Hy. apply c_int_ok; [|done].
    unfold in_u, in_s in *. split; [nia|done].
  - apply NEON_VOP_int_lanewise; [lia|]. intros x y Hx Hy. apply c_int_ok; [|done].
    unfold in_u, in_s in *. split; nia.
  - intros i Hi. unfold neon_abs_s8. rewrite NEON_VOP1_lane by lia. by rewrite HA.
  - intros i Hi. unfold neon_abs_s16. rewrite NEON_VOP1_lane by lia. by rewrite HA.
Qed.

(** ** Pairwise operations *)

(** Lane [i] of a pairwise result combines lanes [2 i] and [2 i + 1] of the two
    operands laid side by side. *)
Definition pair_lane (w : Z) (n : nat) (a b i : Z) : Z :=
  if i <? Z.of_nat n then lane w i a else lane w (i - Z.of_nat n) b.

Definition pairwise_lanes (sg : bool) (w : Z) (n : nat) (f : Z -> Z -> Z) (res a b : Z) : Prop :=
  forall i, 0 <= i < Z.of_nat n ->
    lane w i res = uint w (f (elem sg w (pair_lane w n a b (2 * i)))
                             (elem sg w (pair_lane w n a b (2 * i + 1)))).

Lemma NEON_POP_lanes sg w n fn f a b : 0 < w -> n = 4%nat \/ n = 2%nat ->
  (forall x y, fn x y = f x y) ->
  pairwise_lanes sg w n f (NEON_POP sg w n fn a b) a b.
Proof.
  intros Hw Hn Hf i Hi. unfold NEON_POP, NEON_PACK. rewrite lane_pack by lia.
  destruct Hn as [->| ->].
  - assert (i = 0 \/ i = 1 \/ i = 2 \/ i = 3) as [->|[->|[->| ->]]] by lia;
      cbn -[elem lane uint]; rewrite !Hf; reflexivity.
  - assert (i = 0 \/ i = 1) as [->| ->] by lia; cbn -[elem lane uint]; rewrite !Hf; reflexivity.
Qed.

(** The pairwise helpers combine neighbouring lanes of the first operand in
    the low half of the result and of the second operand in the high half. *)
Lemma neon_pairwise a b :
  pairwise_lanes true 8 4 Z.min (neon_pmin_s8 a b) a b /\
  pairwise_lanes false 8 4 Z.min (neon_pmin_u8 a b) a b /\
  pairwise_lanes true 16 2 Z.min (neon_pmin_s16 a b) a b /\
  pairwise_lanes false 16 2 Z.min (neon_pmin_u16 a b) a b /\
  pairwise_lanes true 8 4 Z.max (neon_pmax_s8 a b) a b /\
  pairwise_lanes false 8 4 Z.max (neon_pmax_u8 a b) a b /\
  pairwise_lanes true 16 2 Z.max (neon_pmax_s16 a b) a b /\
  pairwise_lanes false 16 2 Z.max (neon_pmax_u16 a b) a b /\
  pairwise_lanes false 8 4 Z.add (neon_padd_u8 a b) a b /\
  pairwise_lanes false 16 2 Z.add (neon_padd_u16 a b) a b.
Proof.
  split_and!; (apply NEON_POP_lanes; [lia|auto|]); intros x y;
    unfold FN_min, FN_max, FN_padd; case_cmp; lia.
Qed.

(** C34: the element-wise arithmetic helpers, for all operands.  Saturating additions and
    subtractions clamp the exact result and set the flag exactly when a lane was clamped;
    halving ones round half the exact result; comparisons and tests give all-ones lanes,
    minimum, maximum and absolute value the mathematical value modulo the lane width; the
    pairwise forms combine neighbouring lanes.  Absolute difference and product are exact
    modulo the lane width where the code's [int] arithmetic does not overflow: the signed
    32-bit absolute difference is undefined exactly when it does not fit [int], and the
    16-bit product exactly when a lane's product does not. *)
Theorem neon_arith_correct :
  (forall f a b, lanewise_sat false 8 4 (sat_u 8) Z.add f (neon_qadd_u8 f a b) a b /\
    lanewise_sat false 16 2 (sat_u 16) Z.add f (neon_qadd_u16 f a b) a b /\
    lanewise_sat true 8 4 (sat_s 8) Z.add f (neon_qadd_s8 f a b) a b /\
    lanewise_sat true 16 2 (sat_s 16) Z.add f (neon_qadd_s16 f a b) a b /\
    lanewise_sat false 8 4 (sat_u 8) Z.sub f (neon_qsub_u8 f a b) a b /\
    lanewise_sat false 16 2 (sat_u 16) Z.sub f (neon_qsub_u16 f a b) a b /\
    lanewise_sat true 8 4 (sat_s 8) Z.sub f (neon_qsub_s8 f a b) a b /\
    lanewise_sat true 16 2 (sat_s 16) Z.sub f (neon_qsub_s16 f a b) a b /\
    (in_u 32 a -> in_u 32 b ->
       whole_sat false 32 (sat_u 32) (a + b) f (neon_qadd_u32 f a b) /\
       whole_sat false 32 (sat_u 32) (a - b) f (neon_qsub_u32 f a b) /\
       whole_sat true 32 (sat_s 32) (int32_t a + int32_t b) f (neon_qadd_s32 f a b) /\
       whole_sat true 32 (sat_s 32) (int32_t a - int32_t b) f (neon_qsub_s32 f a b)) /\
    (in_u 64 a -> in_u 64 b ->
       whole_sat false 64 (sat_u 64) (a + b) f (neon_qadd_u64 f a b) /\
       whole_sat false 64 (sat_u 64) (a - b) f (neon_qsub_u64 f a b) /\
       whole_sat true 64 (sat_s 64) (int64_t a + int64_t b) f (neon_qadd_s64 f a b) /\
       whole_sat true 64 (sat_s 64) (int64_t a - int64_t b) f (neon_qsub_s64 f a b))) /\
  (forall a b, (forall s1 s2, lanewise true 8 4 (fun x y => (x + y) / 2) (neon_hadd_s8 s1 s2) s1 s2 /\
       lanewise false 8 4 (fun x y => (x + y) / 2) (neon_hadd_u8 s1 s2) s1 s2 /\
       lanewise true 16 2 (fun x y => (x + y) / 2) (neon_hadd_s16 s1 s2) s1 s2 /\
       lanewise false 16 2 (fun x y => (x + y) / 2) (neon_hadd_u16 s1 s2) s1 s2 /\
       lanewise true 8 4 (fun x y => (x + y + 1) / 2) (neon_rhadd_s8 s1 s2) s1 s2 /\
       lanewise false 8 4 (fun x y => (x + y + 1) / 2) (neon_rhadd_u8 s1 s2) s1 s2 /\
       lanewise true 16 2 (fun x y => (x + y + 1) / 2) (neon_rhadd_s16 s1 s2) s1 s2 /\
       lanewise false 16 2 (fun x y => (x + y + 1) / 2) (neon_rhadd_u16 s1 s2) s1 s2 /\
       lanewise true 8 4 (fun x y => (x - y) / 2) (neon_hsub_s8 s1 s2) s1 s2 /\
       lanewise false 8 4 (fun x y => (x - y) / 2) (neon_hsub_u8 s1 s2) s1 s2 /\
       lanewise true 16 2 (fun x y => (x - y) / 2) (neon_hsub_s16 s1 s2) s1 s2 /\
       lanewise false 16 2 (fun x y => (x - y) / 2) (neon_hsub_u16 s1 s2) s1 s2) /\
    (in_s 32 a -> in_s 32 b ->
       neon_hadd_s32 a b = (a + b) / 2 /\ neon_rhadd_s32 a b = (a + b + 1) / 2 /\
       neon_hsub_s32 a b = (a - b) / 2) /\
    (in_u 32 a -> in_u 32 b ->
       neon_hadd_u32 a b = (a + b) / 2 /\ neon_rhadd_u32 a b = (a + b + 1) / 2 /\
       neon_hsub_u32 a b = uint32_t ((a - b) / 2))) /\
  (forall a b, family (fun x y => mask_of (y <? x)) neon_cgt_s8 neon_cgt_u8 neon_cgt_s16 neon_cgt_u16
      neon_cgt_s32 neon_cgt_u32 a b /\
    family (fun x y => mask_of (y <=? x)) neon_cge_s8 neon_cge_u8 neon_cge_s16 neon_cge_u16
      neon_cge_s32 neon_cge_u32 a b /\
    family Z.min neon_min_s8 neon_min_u8 neon_min_s16 neon_min_u16 neon_min_s32 neon_min_u32 a b /\
    family Z.max neon_max_s8 neon_max_u8 neon_max_s16 neon_max_u16 neon_max_s32 neon_max_u32 a b) /\
  (forall a b, lanewise_int true 8 4 (fun _ _ => True) absdiff (neon_abd_s8 a b) a b /\
    lanewise_int false 8 4 (fun _ _ => True) absdiff (neon_abd_u8 a b) a b /\
    lanewise_int true 16 2 (fun _ _ => True) absdiff (neon_abd_s16 a b) a b /\
    lanewise_int false 16 2 (fun _ _ => True) absdiff (neon_abd_u16 a b) a b /\
    lanewise_int true 32 1 (fun x y => absdiff x y < 2 ^ 31) absdiff (neon_abd_s32 a b) a b /\
    lanewise_int false 32 1 (fun _ _ => True) absdiff (neon_abd_u32 a b) a b) /\
  (forall a b, lanewise false 8 4 Z.sub (neon_sub_u8 a b) a b /\
    lanewise false 16 2 Z.sub (neon_sub_u16 a b) a b /\
    lanewise_int false 8 4 (fun _ _ => True) Z.mul (neon_mul_u8 a b) a b /\
    lanewise_int false 16 2 (fun x y => x * y < 2 ^ 31) Z.mul (neon_mul_u16 a b) a b /\
    lanewise false 8 4 (fun x y => mask_of (nz (Z.land x y))) (neon_tst_u8 a b) a b /\
    lanewise false 16 2 (fun x y => mask_of (nz (Z.land x y))) (neon_tst_u16 a b) a b /\
    lanewise false 32 1 (fun x y => mask_of (nz (Z.land x y))) (neon_tst_u32 a b) a b /\
    lanewise false 8 4 (fun x y => mask_of (x =? y)) (neon_ceq_u8 a b) a b /\
    lanewise false 16 2 (fun x y => mask_of (x =? y)) (neon_ceq_u16 a b) a b /\
    lanewise false 32 1 (fun x y => mask_of (x =? y)) (neon_ceq_u32 a b) a b /\
    (forall i, 0 <= i < 4 -> lane 8 i (neon_abs_s8 a) = uint 8 (Z.abs (int8_t (lane 8 i a)))) /\
    (forall i, 0 <= i < 2 -> lane 16 i (neon_abs_s16 a) = uint 16 (Z.abs (int16_t (lane 16 i a))))) /\
  (forall a b, pairwise_lanes true 8 4 Z.min (neon_pmin_s8 a b) a b /\
    pairwise_lanes false 8 4 Z.min (neon_pmin_u8 a b) a b /\
    pairwise_lanes true 16 2 Z.min (neon_pmin_s16 a b) a b /\
    pairwise_lanes false 16 2 Z.min (neon_pmin_u16 a b) a b /\
    pairwise_lanes true 8 4 Z.max (neon_pmax_s8 a b) a b /\
    pairwise_lanes false 8 4 Z.max (neon_pmax_u8 a b) a b /\
    pairwise_lanes true 16 2 Z.max (neon_pmax_s16 a b) a b /\
    pairwise_lanes false 16 2 Z.max (neon_pmax_u16 a b) a b /\
    pairwise_lanes false 8 4 Z.add (neon_padd_u8 a b) a b /\
    pairwise_lanes false 16 2 Z.add (neon_padd_u16 a b) a b).
Proof.
  split_and!; [exact neon_saturating_add_sub|exact neon_halving|exact neon_compare_families|exact neon_abd_families
    |exact neon_modular|exact neon_pairwise].
Qed.
