(* ===== verification/NeonSwar.v ===== *)
(** * NEON helpers on whole words

    The helpers of src/emul/qemu/target-arm/neon_helper.c that process all lanes
    of a word at once: additions and subtractions with the carries between lanes
    masked out, leading-bit counts, the parallel population count and the
    polynomial (carry-less) multiplications. *)

From S2P Require Import Prelude NeonBase NeonArith.
Open Scope Z_scope.

(** ** Definitions *)

Definition neon_add_u8 (a b : Z) : Z :=
  let mask := Z.land (Z.lxor a b) 2155905152 in
  let a := Z.land a (uint32_t (Z.lnot 2155905152)) in
  let b := Z.land b (uint32_t (Z.lnot 2155905152)) in
  Z.lxor (uint32_t (a + b)) mask.

Definition neon_add_u16 (a b : Z) : Z :=
  let mask := Z.land (Z.lxor a b) 2147516416 in
  let a := Z.land a (uint32_t (Z.lnot 2147516416)) in
  let b := Z.land b (uint32_t (Z.lnot 2147516416)) in
  Z.lxor (uint32_t (a + b)) mask.

Definition neon_addl_u16 (a b : Z) : Z :=
  let mask := Z.land (Z.lxor a b) 9223512776490647552 in
  let a := Z.land a (uint64_t (Z.lnot 9223512776490647552)) in
  let b := Z.land b (uint64_t (Z.lnot 9223512776490647552)) in
  Z.lxor (uint64_t (a + b)) mask.

Definition neon_addl_u32 (a b : Z) : Z :=
  let mask := Z.land (Z.lxor a b) 9223372039002259456 in
  let a := Z.land a (uint64_t (Z.lnot 9223372039002259456)) in
  let b := Z.land b (uint64_t (Z.lnot 9223372039002259456)) in
  Z.lxor (uint64_t (a + b)) mask.

Definition neon_subl_u16 (a b : Z) : Z :=
  let mask := Z.land (Z.lxor a (uint64_t (Z.lnot b))) 9223512776490647552 in
  let a := Z.lor a 9223512776490647552 in
  let b := Z.land b (uint64_t (Z.lnot 9223512776490647552)) in
  Z.lxor (uint64_t (a - b)) mask.

Definition neon_subl_u32 (a b : Z) : Z :=
  let mask := Z.land (Z.lxor a (uint64_t (Z.lnot b))) 9223372039002259456 in
  let a := Z.lor a 9223372039002259456 in
  let b := Z.land b (uint64_t (Z.lnot 9223372039002259456)) in
  Z.lxor (uint64_t (a - b)) mask.

(** The counting loop; [n] counts down while [x] is shifted out. *)
Fixpoint clz_loop (fuel : nat) (n x : Z) : Z :=
  match fuel with
  | O => n
  | S fuel' => if x =? 0 then n else clz_loop fuel' (n - 1) (Z.shiftr x 1)
  end.

Definition do_clz8 (x : Z) : Z := clz_loop 8 8 x.
Definition do_clz16 (x : Z) : Z := clz_loop 16 16 x.

Definition neon_clz_u8 := NEON_VOP1 false 8 4 do_clz8.
Definition neon_clz_u16 := NEON_VOP1 false 16 2 do_clz16.

Definition FN_cls8 (src : Z) : Z := do_clz8 (uint8_t (if src <? 0 then Z.lnot src else src)) - 1.
Definition FN_cls16 (src : Z) : Z := do_clz16 (uint16_t (if src <? 0 then Z.lnot src else src)) - 1.
Definition neon_cls_s8 := NEON_VOP1 true 8 4 FN_cls8.
Definition neon_cls_s16 := NEON_VOP1 true 16 2 FN_cls16.

Definition neon_cls_s32 (x : Z) : Z :=
  let x := if int32_t x <? 0 then uint32_t (Z.lnot x) else x in
  uint32_t (clz_loop 32 32 x - 1).

Definition neon_cnt_u8 (x : Z) : Z :=
  let x := uint32_t (Z.land x 1431655765 + Z.land (Z.shiftr x 1) 1431655765) in
  let x := uint32_t (Z.land x 858993459 + Z.land (Z.shiftr x 2) 858993459) in
  uint32_t (Z.land x 252645135 + Z.land (Z.shiftr x 4) 252645135).

(** One [if (op1 & bit) mask |= m] of the polynomial loops. *)
Definition mask_if (op1 bit m mask : Z) : Z := if nz (Z.land op1 bit) then Z.lor mask m else mask.

Fixpoint mul_p8_loop (fuel : nat) (op1 op2 result : Z) : option Z :=
  if op1 =? 0 then Some result
  else match fuel with
  | O => None
  | S fuel' =>
      let mask := mask_if op1 16777216 4278190080 (mask_if op1 65536 16711680
                    (mask_if op1 256 65280 (mask_if op1 1 255 0))) in
      mul_p8_loop fuel' (Z.land (Z.shiftr op1 1) 2139062143)
        (Z.land (uint32_t (Z.shiftl op2 1)) 4278124286) (Z.lxor result (Z.land op2 mask))
  end.

Definition neon_mul_p8 (op1 op2 : Z) : option Z := mul_p8_loop 8 op1 op2 0.

Fixpoint mull_p8_loop (fuel : nat) (op1 op2ex result : Z) : option Z :=
  if op1 =? 0 then Some result
  else match fuel with
  | O => None
  | S fuel' =>
      let mask := mask_if op1 16777216 (Z.shiftl 65535 48) (mask_if op1 65536 (Z.shiftl 65535 32)
                    (mask_if op1 256 (Z.shiftl 65535 16) (mask_if op1 1 65535 0))) in
      mull_p8_loop fuel' (Z.land (Z.shiftr op1 1) 2139062143)
        (uint64_t (Z.shiftl op2ex 1)) (Z.lxor result (Z.land op2ex mask))
  end.

Definition neon_mull_p8 (op1 op2 : Z) : option Z :=
  let op2ex := Z.lor (Z.lor (Z.lor (Z.land op2 255) (Z.shiftl (Z.land op2 65280) 8))
                 (Z.shiftl (Z.land op2 16711680) 16)) (Z.shiftl (Z.land op2 4278190080) 24) in
  mull_p8_loop 8 op1 op2ex 0.

(** ** Masked carries *)

(** Flipping the top bit of a [w]-bit value. *)
Lemma lxor_top w t : 0 < w -> 0 <= t < 2 ^ w ->
  Z.lxor t (2 ^ (w - 1)) = if t <? 2 ^ (w - 1) then t + 2 ^ (w - 1) else t - 2 ^ (w - 1).
Proof.
  intros Hw Ht.
  assert (2 ^ w = 2 * 2 ^ (w - 1)) as E by (rewrite <- Z.pow_succ_r by lia; f_equal; lia).
  assert (forall u, 0 <= u < 2 ^ (w - 1) -> Z.lxor u (2 ^ (w - 1)) = u + 2 ^ (w - 1)) as Hlow.
  { intros u Hu. rewrite <- Z.add_nocarry_lxor; [done|].
    apply Z.bits_inj'. intros i Hi. rewrite Z.land_spec, Z.bits_0.
    destruct (decide (i = w - 1)) as [->|].
    - by rewrite (in_u_testbit (w - 1) u) by (done || lia).
    - rewrite Z.pow2_bits_false by lia. apply andb_false_r. }
  destruct (Z.ltb_spec t (2 ^ (w - 1))); [by apply Hlow; lia|].
  replace t with (Z.lxor (t - 2 ^ (w - 1)) (2 ^ (w - 1))) at 1 by (rewrite Hlow by lia; lia).
  by rewrite Z.lxor_assoc, Z.lxor_nilpotent, Z.lxor_0_r.
Qed.

Lemma land_low w x : 0 < w -> Z.land x (2 ^ (w - 1) - 1) = x mod 2 ^ (w - 1).
Proof. intros. replace (2 ^ (w - 1) - 1) with (Z.ones (w - 1)) by (rewrite Z.ones_equiv; lia). apply Z.land_ones. lia. Qed.

(** The sign mask of an exclusive or, as a value. *)
Lemma land_sign_xor w x y : 0 < w -> in_u w x -> in_u w y ->
  Z.land (Z.lxor x y) (2 ^ (w - 1)) =
  if Bool.eqb (2 ^ (w - 1) <=? x) (2 ^ (w - 1) <=? y) then 0 else 2 ^ (w - 1).
Proof.
  intros Hw Hx Hy. pose proof (sign_xor w x y Hw Hx Hy) as H. unfold nz in H.
  destruct (Z.eqb_spec (Z.land (Z.lxor x y) (2 ^ (w - 1))) 0) as [->|Hne]; cbn in H.
  - by destruct (_ <=? x), (_ <=? y).
  - assert (Z.land (Z.lxor x y) (2 ^ (w - 1)) = 2 ^ (w - 1)) as ->.
    { apply Z.bits_inj'. intros i Hi. rewrite Z.land_spec.
      destruct (decide (i = w - 1)) as [->|].
      - rewrite Z.pow2_bits_true by lia. rewrite andb_true_r.
        destruct (Z.testbit (Z.lxor x y) (w - 1)) eqn:E; [done|]. exfalso. apply Hne.
        apply Z.bits_inj'. intros j Hj. rewrite Z.land_spec, Z.bits_0.
        destruct (decide (j = w - 1)) as [->|]; [by rewrite E|].
        rewrite Z.pow2_bits_false by lia. apply andb_false_r.
      - rewrite Z.pow2_bits_false by lia. apply andb_false_r. }
    by destruct (_ <=? x), (_ <=? y).
Qed.

Lemma low_split w x : 0 < w -> in_u w x ->
  x mod 2 ^ (w - 1) = (if 2 ^ (w - 1) <=? x then x - 2 ^ (w - 1) else x) /\
  0 <= x mod 2 ^ (w - 1) < 2 ^ (w - 1).
Proof.
  intros Hw Hx. unfold in_u in Hx.
  assert (2 ^ w = 2 * 2 ^ (w - 1)) as E by (rewrite <- Z.pow_succ_r by lia; f_equal; lia).
  split; [|apply Z.mod_pos_bound; lia].
  destruct (Z.leb_spec (2 ^ (w - 1)) x).
  - symmetry. apply (Z.mod_unique x (2 ^ (w - 1)) 1); lia.
  - apply Z.mod_small. lia.
Qed.

Lemma uint_shift w x k y : 0 <= w -> x = y + 2 ^ w * k -> in_u w y -> uint w x = y.
Proof.
  intros Hw -> Hy. unfold uint. rewrite Z.mul_comm, Z.mod_add by lia. by apply Z.mod_small.
Qed.

(** One lane of a masked addition. *)
Lemma swar_add_lane w x y : 0 < w -> in_u w x -> in_u w y ->
  Z.lxor (x mod 2 ^ (w - 1) + y mod 2 ^ (w - 1)) (Z.land (Z.lxor x y) (2 ^ (w - 1))) =
  uint w (x + y).
Proof.
  intros Hw Hx Hy. rewrite land_sign_xor by done.
  destruct (low_split w x Hw Hx) as [Ex Rx]. destruct (low_split w y Hw Hy) as [Ey Ry].
  assert (2 ^ w = 2 * 2 ^ (w - 1)) as E by (rewrite <- Z.pow_succ_r by lia; f_equal; lia).
  pose proof (fun t => lxor_top w t Hw) as HX. set (S := 2 ^ (w - 1)) in *. set (t := x mod S + y mod S).
  destruct (Z.leb_spec S x), (Z.leb_spec S y); cbn [Bool.eqb].
  - rewrite Z.lxor_0_r. symmetry. apply (uint_shift w _ 1); unfold in_u; lia.
  - rewrite HX by lia. symmetry. unfold t in *.
    destruct (Z.ltb_spec (x mod S + y mod S) S).
    + apply (uint_shift w _ 0); unfold in_u; lia.
    + apply (uint_shift w _ 1); unfold in_u; lia.
  - rewrite HX by lia. symmetry. unfold t in *.
    destruct (Z.ltb_spec (x mod S + y mod S) S).
    + apply (uint_shift w _ 0); unfold in_u; lia.
    + apply (uint_shift w _ 1); unfold in_u; lia.
  - rewrite Z.lxor_0_r. symmetry. apply (uint_shift w _ 0); unfold in_u; lia.
Qed.

(** One lane of a masked subtraction: the minuend's top bit is set, the
    subtrahend's cleared. *)
Lemma swar_sub_lane w x y : 0 < w -> in_u w x -> in_u w y ->
  Z.lxor (Z.lor x (2 ^ (w - 1)) - y mod 2 ^ (w - 1))
    (Z.land (Z.lxor x (uint w (Z.lnot y))) (2 ^ (w - 1))) = uint w (x - y) /\
  y mod 2 ^ (w - 1) <= Z.lor x (2 ^ (w - 1)) < 2 ^ w.
Proof.
  intros Hw Hx Hy.
  assert (2 ^ w = 2 * 2 ^ (w - 1)) as E by (rewrite <- Z.pow_succ_r by lia; f_equal; lia).
  destruct (low_split w x Hw Hx) as [Ex Rx]. destruct (low_split w y Hw Hy) as [Ey Ry].
  assert (uint w (Z.lnot y) = 2 ^ w - 1 - y) as El.
  { unfold Z.lnot. apply (uint_shift w _ (-1)); unfold in_u in *; lia. }
  assert (Z.lor x (2 ^ (w - 1)) = 2 ^ (w - 1) + x mod 2 ^ (w - 1)) as Eo.
  { rewrite <- land_low by done. rewrite Z.add_comm, <- lor_add_disjoint.
    - apply Z.bits_inj'. intros i Hi. rewrite !Z.lor_spec, Z.land_spec.
      replace (2 ^ (w - 1) - 1) with (Z.ones (w - 1)) by (rewrite Z.ones_equiv; lia).
      rewrite testbit_ones by lia. destruct (Z.ltb_spec i (w - 1)); [by rewrite andb_true_r|].
      rewrite andb_false_r. destruct (decide (i = w - 1)) as [->|].
      + rewrite Z.pow2_bits_true by lia. by rewrite orb_true_r.
      + rewrite (in_u_testbit w x i) by (done || lia). done.
    - apply Z.bits_inj'. intros i Hi. rewrite !Z.land_spec, Z.bits_0.
      replace (2 ^ (w - 1) - 1) with (Z.ones (w - 1)) by (rewrite Z.ones_equiv; lia).
      rewrite testbit_ones by lia. destruct (decide (i = w - 1)) as [->|].
      + destruct (Z.ltb_spec (w - 1) (w - 1)); [lia|]. by rewrite andb_false_r.
      + rewrite Z.pow2_bits_false by lia. by rewrite andb_false_r. }
  split; [|lia]. rewrite Eo. rewrite land_sign_xor by (done || apply uint_range; lia).
  rewrite El. unfold in_u in Hx, Hy.
  pose proof (fun t => lxor_top w t Hw) as HX. set (S := 2 ^ (w - 1)) in *.
  assert ((S <=? 2 ^ w - 1 - y) = negb (S <=? y)) as ->.
  { destruct (Z.leb_spec S (2 ^ w - 1 - y)), (Z.leb_spec S y); (done || lia). }
  destruct (Z.leb_spec S x), (Z.leb_spec S y); cbn [Bool.eqb negb].
  - rewrite HX by lia. symmetry.
    destruct (Z.ltb_spec (S + x mod S - y mod S) S).
    + apply (uint_shift w _ (-1)); unfold in_u; lia.
    + apply (uint_shift w _ 0); unfold in_u; lia.
  - rewrite Z.lxor_0_r. symmetry. apply (uint_shift w _ 0); unfold in_u; lia.
  - rewrite Z.lxor_0_r. symmetry. apply (uint_shift w _ (-1)); unfold in_u; lia.
  - rewrite HX by lia. symmetry.
    destruct (Z.ltb_spec (S + x mod S - y mod S) S).
    + apply (uint_shift w _ (-1)); unfold in_u; lia.
    + apply (uint_shift w _ 0); unfold in_u; lia.
Qed.

(** [word_mask w n W H]: [H] is a [W]-bit word with the top bit of each of its [n]
    lanes set. *)
Definition word_mask (w : Z) (n : nat) (W H : Z) : Prop :=
  0 < w /\ W = w * Z.of_nat n /\ in_u W H /\
  forall i, 0 <= i < Z.of_nat n -> lane w i H = 2 ^ (w - 1).

Lemma lane_lnot_mask w n W H i : word_mask w n W H -> 0 <= i < Z.of_nat n ->
  lane w i (uint W (Z.lnot H)) = 2 ^ (w - 1) - 1.
Proof.
  intros (Hw & HW & HH & HL) Hi. rewrite lane_uint by nia.
  apply Z.bits_inj'. intros j Hj. specialize (HL i Hi).
  apply (f_equal (fun z => Z.testbit z j)) in HL. rewrite lane_testbit in HL |- * by lia.
  rewrite Z.lnot_spec by nia.
  replace (2 ^ (w - 1) - 1) with (Z.ones (w - 1)) by (rewrite Z.ones_equiv; lia).
  rewrite testbit_ones by lia. destruct (Z.ltb_spec j w); cbn in HL |- *.
  - rewrite HL. destruct (decide (j = w - 1)) as [->|].
    + rewrite Z.pow2_bits_true by lia. by destruct (Z.ltb_spec (w - 1) (w - 1)); [lia|].
    + rewrite Z.pow2_bits_false by lia. destruct (Z.ltb_spec j (w - 1)); [done|lia].
  - destruct (Z.ltb_spec j (w - 1)); [lia|done].
Qed.

Lemma swar_add w n W H a b : word_mask w n W H ->
  lanewise false w n Z.add
    (Z.lxor (uint W (Z.land a (uint W (Z.lnot H)) + Z.land b (uint W (Z.lnot H))))
       (Z.land (Z.lxor a b) H)) a b.
Proof.
  intros HM i Hi. pose proof HM as (Hw & HW & HH & HL).
  assert (forall x j, 0 <= j < Z.of_nat n ->
    lane w j (Z.land x (uint W (Z.lnot H))) = lane w j x mod 2 ^ (w - 1)) as Hm.
  { intros x j Hj. rewrite lane_land, (lane_lnot_mask w n) by (done || lia). by apply land_low. }
  rewrite lane_lxor, lane_uint by nia. rewrite lane_add; [|lia..|].
  - rewrite !Hm, lane_land, lane_lxor, HL by lia.
    cbn [elem]. rewrite !(uint_id w (lane w i _)) by (apply lane_range; lia).
    apply swar_add_lane; [done|apply lane_range; lia..].
  - intros j Hj. rewrite !Hm by lia.
    pose proof (low_split w (lane w j a) Hw ltac:(apply lane_range; lia)) as [_ ?].
    pose proof (low_split w (lane w j b) Hw ltac:(apply lane_range; lia)) as [_ ?].
    assert (2 ^ w = 2 * 2 ^ (w - 1)) by (rewrite <- Z.pow_succ_r by lia; f_equal; lia). lia.
Qed.

Lemma lane_lnot w n W x i : 0 < w -> W = w * Z.of_nat n -> 0 <= i < Z.of_nat n ->
  lane w i (uint W (Z.lnot x)) = uint w (Z.lnot (lane w i x)).
Proof.
  intros Hw HW Hi. rewrite lane_uint by nia. apply Z.bits_inj'. intros j Hj.
  rewrite lane_testbit, uint_testbit by lia. destruct (Z.ltb_spec j w); cbn; [|done].
  rewrite !Z.lnot_spec by nia. rewrite lane_testbit by lia.
  by destruct (Z.ltb_spec j w); [|lia].
Qed.

Lemma swar_sub w n W H a b : word_mask w n W H ->
  lanewise false w n Z.sub
    (Z.lxor (uint W (Z.lor a H - Z.land b (uint W (Z.lnot H))))
       (Z.land (Z.lxor a (uint W (Z.lnot b))) H)) a b.
Proof.
  intros HM i Hi. pose proof HM as (Hw & HW & HH & HL).
  assert (forall x j, 0 <= j < Z.of_nat n ->
    lane w j (Z.land x (uint W (Z.lnot H))) = lane w j x mod 2 ^ (w - 1)) as Hm.
  { intros x j Hj. rewrite lane_land, (lane_lnot_mask w n) by (done || lia). by apply land_low. }
  rewrite lane_lxor, lane_uint by nia. rewrite lane_sub; [|lia..|].
  - rewrite Hm, lane_lor, lane_land, lane_lxor, (lane_lnot w n), HL by (done || lia).
    cbn [elem]. rewrite !(uint_id w (lane w i _)) by (apply lane_range; lia).
    apply swar_sub_lane; [done|apply lane_range; lia..].
  - intros j Hj. rewrite Hm, lane_lor, HL by lia.
    apply (swar_sub_lane w (lane w j a) (lane w j b)); [done|apply lane_range; lia..].
Qed.

Ltac solve_mask :=
  split; [lia|]; split; [reflexivity|]; split; [cint|];
  let i := fresh "i" in let Hi := fresh "Hi" in intros i Hi;
  assert (i = 0 \/ i = 1 \/ i = 2 \/ i = 3) as [->|[->|[->| ->]]] by lia;
  (reflexivity || (exfalso; cbn in Hi; lia)).

(** The additions and subtractions on whole words, which mask the top bit of
    every lane and restore it by exclusive or, are exact modular lane-wise
    additions and subtractions: no carry or borrow crosses a lane. *)
Lemma neon_word_arithmetic a b :
  lanewise false 8 4 Z.add (neon_add_u8 a b) a b /\
  lanewise false 16 2 Z.add (neon_add_u16 a b) a b /\
  lanewise false 16 4 Z.add (neon_addl_u16 a b) a b /\
  lanewise false 32 2 Z.add (neon_addl_u32 a b) a b /\
  lanewise false 16 4 Z.sub (neon_subl_u16 a b) a b /\
  lanewise false 32 2 Z.sub (neon_subl_u32 a b) a b.
Proof.
  split_and!;
    [apply (swar_add 8 4 32)|apply (swar_add 16 2 32)|apply (swar_add 16 4 64)|
     apply (swar_add 32 2 64)|apply (swar_sub 16 4 64)|apply (swar_sub 32 2 64)]; solve_mask.
Qed.

(** ** Counting *)

(** The number of significant bits of a non-negative number. *)
Definition bit_length (x : Z) : Z := if x =? 0 then 0 else Z.log2 x + 1.

Lemma bit_length_half x : 0 < x -> bit_length (Z.shiftr x 1) = bit_length x - 1.
Proof.
  intros Hx. unfold bit_length. destruct (Z.eqb_spec x 0); [lia|].
  destruct (decide (x = 1)) as [->|Hne]; [done|].
  rewrite Z.log2_shiftr by lia.
  assert (1 <= Z.log2 x) by (apply Z.log2_le_pow2; lia).
  destruct (Z.eqb_spec (Z.shiftr x 1) 0) as [E|]; [|lia].
  rewrite shiftr1 in E. exfalso. cint.
Qed.

Lemma clz_loop_spec fuel n x : 0 <= x < 2 ^ Z.of_nat fuel ->
  clz_loop fuel n x = n - bit_length x.
Proof.
  revert n x. induction fuel as [|fuel IH]; intros n x Hx; cbn [clz_loop].
  - assert (x = 0) as -> by (cbn in Hx; lia). unfold bit_length. cbn. lia.
  - destruct (Z.eqb_spec x 0) as [->|]; [unfold bit_length; cbn; lia|].
    rewrite IH, bit_length_half; [lia|lia|].
    rewrite Nat2Z.inj_succ, Z.pow_succ_r in Hx by lia. rewrite shiftr1.
    split; [apply Z.div_pos; lia|]. apply Z.div_lt_upper_bound; lia.
Qed.

(** The magnitude whose leading zeros the sign counts look at. *)
Definition sign_magnitude (x : Z) : Z := if x <? 0 then - x - 1 else x.

Fixpoint popcount (n : nat) (x : Z) : Z :=
  match n with O => 0 | S n' => b2z (Z.odd x) + popcount n' (Z.shiftr x 1) end.

(** Each step of the population count keeps to the lanes. *)
Lemma lane_shift_land k x c i : 0 <= i -> 0 <= k < 8 -> 0 <= c < 2 ^ (8 - k) ->
  Z.land (lane 8 i (Z.shiftr x k)) c = Z.land (Z.shiftr (lane 8 i x) k) c.
Proof.
  intros Hi Hk Hc. apply Z.bits_inj'. intros j Hj. rewrite !Z.land_spec.
  destruct (decide (j < 8 - k)).
  - rewrite Z.shiftr_spec, !lane_testbit, Z.shiftr_spec by lia.
    destruct (Z.ltb_spec j 8), (Z.ltb_spec (j + k) 8); try lia.
    do 3 f_equal. lia.
  - rewrite (in_u_testbit (8 - k) c j) by (done || lia). by rewrite !andb_false_r.
Qed.

Lemma land_le y c : 0 <= c -> Z.land y c <= c.
Proof.
  intros Hc. pose proof (Z.sub_nocarry_ldiff c (Z.land y c)) as E.
  assert (0 <= Z.ldiff c (Z.land y c)) by (apply Z.ldiff_nonneg; lia).
  enough (c - Z.land y c = Z.ldiff c (Z.land y c)) by lia.
  apply E. apply Z.bits_inj'. intros i Hi.
  rewrite Z.ldiff_spec, Z.land_spec, Z.bits_0. by destruct (Z.testbit y i), (Z.testbit c i).
Qed.

(** All lanes of a byte mask are the same. *)
Definition byte_mask (M c : Z) : Prop := forall i, 0 <= i < 4 -> lane 8 i M = c.

Lemma cnt_step x M c k i : byte_mask M c -> 0 <= i < 4 -> 0 < k < 8 -> 0 <= c < 2 ^ (8 - k) ->
  lane 8 i (uint32_t (Z.land x M + Z.land (Z.shiftr x k) M)) =
  Z.land (lane 8 i x) c + Z.land (Z.shiftr (lane 8 i x) k) c.
Proof.
  intros HM Hi Hk Hc. unfold uint32_t. rewrite lane_uint by lia.
  assert (forall y, 0 <= Z.land y c <= c) as Hle.
  { intros y. split; [apply Z.land_nonneg; lia|]. apply land_le. lia. }
  assert (2 * c < 2 ^ 8).
  { assert (2 ^ (8 - k) * 2 <= 2 ^ 8); [|lia].
    rewrite Z.mul_comm, <- Z.pow_succ_r by lia. apply Z.pow_le_mono_r; lia. }
  rewrite lane_add; [|lia..|].
  - rewrite !lane_land, HM by lia. by rewrite lane_shift_land by lia.
  - intros j Hj. rewrite !lane_land, HM by lia.
    pose proof (Hle (lane 8 j x)). pose proof (Hle (lane 8 j (Z.shiftr x k))). lia.
Qed.

Lemma cnt_byte : forallb (fun n =>
    let x := Z.of_nat n in
    let x1 := Z.land x 85 + Z.land (Z.shiftr x 1) 85 in
    let x2 := Z.land x1 51 + Z.land (Z.shiftr x1 2) 51 in
    Z.land x2 15 + Z.land (Z.shiftr x2 4) 15 =? popcount 8 x) (seq 0 256) = true.
Proof. vm_compute. reflexivity. Qed.

Ltac solve_byte_mask :=
  let i := fresh "i" in let Hi := fresh "Hi" in intros i Hi;
  assert (i = 0 \/ i = 1 \/ i = 2 \/ i = 3) as [->|[->|[->| ->]]] by lia; reflexivity.

Lemma cnt_u8_lane x i : 0 <= i < 4 -> lane 8 i (neon_cnt_u8 x) = popcount 8 (lane 8 i x).
Proof.
  intros Hi. unfold neon_cnt_u8. cbn zeta.
  rewrite (cnt_step _ _ 15 4) by (solve_byte_mask || lia).
  rewrite (cnt_step _ _ 51 2) by (solve_byte_mask || lia).
  rewrite (cnt_step _ _ 85 1) by (solve_byte_mask || lia).
  pose proof (lane_range 8 i x ltac:(lia)) as Hr. unfold in_u in Hr.
  pose proof cnt_byte as H. rewrite forallb_forall in H.
  specialize (H (Z.to_nat (lane 8 i x))). rewrite Z2Nat.id in H by lia.
  apply Z.eqb_eq, H. apply list_elem_of_In, elem_of_seq. lia.
Qed.

(** The counting helpers are exact in every lane: leading zeros are the width
    minus the number of significant bits, leading sign bits the same of the
    magnitude without the sign itself, and the population count adds up the bits
    of each byte. *)
Lemma neon_counts x :
  (forall i, 0 <= i < 4 -> lane 8 i (neon_clz_u8 x) = 8 - bit_length (lane 8 i x)) /\
  (forall i, 0 <= i < 2 -> lane 16 i (neon_clz_u16 x) = 16 - bit_length (lane 16 i x)) /\
  (forall i, 0 <= i < 4 -> lane 8 i (neon_cls_s8 x) =
     7 - bit_length (sign_magnitude (int8_t (lane 8 i x)))) /\
  (forall i, 0 <= i < 2 -> lane 16 i (neon_cls_s16 x) =
     15 - bit_length (sign_magnitude (int16_t (lane 16 i x)))) /\
  (in_u 32 x -> neon_cls_s32 x = 31 - bit_length (sign_magnitude (int32_t x))) /\
  (forall i, 0 <= i < 4 -> lane 8 i (neon_cnt_u8 x) = popcount 8 (lane 8 i x)).
Proof.
  assert (forall w y, 0 < w -> 0 <= y < 2 ^ w -> 0 <= bit_length y <= w) as Hbl.
  { intros w y Hw Hy. unfold bit_length. destruct (Z.eqb_spec y 0); [lia|].
    pose proof (Z.log2_nonneg y). assert (Z.log2 y < w) by (apply Z.log2_lt_pow2; lia). lia. }
  assert (forall w y, 0 < w -> in_s w y -> 0 <= sign_magnitude y < 2 ^ (w - 1)) as Hsm.
  { intros w y Hw Hy. unfold in_s, sign_magnitude in *. destruct (Z.ltb_spec y 0); lia. }
  split_and!.
  - intros i Hi. unfold neon_clz_u8. rewrite NEON_VOP1_lane by lia. cbn [elem].
    pose proof (lane_range 8 i x ltac:(lia)) as Hr.
    rewrite (uint_id 8 (lane 8 i x)) by done. unfold do_clz8. rewrite clz_loop_spec by exact Hr.
    apply uint_id. pose proof (Hbl 8 _ ltac:(lia) Hr). unfold in_u. lia.
  - intros i Hi. unfold neon_clz_u16. rewrite NEON_VOP1_lane by lia. cbn [elem].
    pose proof (lane_range 16 i x ltac:(lia)) as Hr.
    rewrite (uint_id 16 (lane 16 i x)) by done. unfold do_clz16. rewrite clz_loop_spec by exact Hr.
    apply uint_id. pose proof (Hbl 16 _ ltac:(lia) Hr). unfold in_u. lia.
  - intros i Hi. unfold neon_cls_s8. rewrite NEON_VOP1_lane by lia. cbn [elem].
    change (sint 8) with int8_t. set (y := int8_t (lane 8 i x)).
    assert (in_s 8 y) as Hy by (apply sint_range; lia).
    pose proof (Hsm 8 y ltac:(lia) Hy) as Hr. pose proof (Hbl 7 _ ltac:(lia) Hr).
    unfold FN_cls8. assert (uint8_t (if y <? 0 then Z.lnot y else y) = sign_magnitude y) as ->.
    { unfold sign_magnitude, Z.lnot in *. destruct (Z.ltb_spec y 0); cint. }
    unfold do_clz8. rewrite clz_loop_spec by (cbn; lia). unfold uint.
    rewrite Z.mod_small by lia. lia.
  - intros i Hi. unfold neon_cls_s16. rewrite NEON_VOP1_lane by lia. cbn [elem].
    change (sint 16) with int16_t. set (y := int16_t (lane 16 i x)).
    assert (in_s 16 y) as Hy by (apply sint_range; lia).
    pose proof (Hsm 16 y ltac:(lia) Hy) as Hr. pose proof (Hbl 15 _ ltac:(lia) Hr).
    unfold FN_cls16. assert (uint16_t (if y <? 0 then Z.lnot y else y) = sign_magnitude y) as ->.
    { unfold sign_magnitude, Z.lnot in *. destruct (Z.ltb_spec y 0); cint. }
    unfold do_clz16. rewrite clz_loop_spec by (cbn; lia). unfold uint.
    rewrite Z.mod_small by lia. lia.
  - intros Hx. unfold neon_cls_s32. cbn zeta. set (y := int32_t x).
    assert (in_s 32 y) as Hy by (apply sint_range; lia).
    pose proof (Hsm 32 y ltac:(lia) Hy) as Hr. pose proof (Hbl 31 _ ltac:(lia) Hr).
    assert ((if y <? 0 then uint32_t (Z.lnot x) else x) = sign_magnitude y) as ->.
    { unfold sign_magnitude, Z.lnot, y in *. destruct (Z.ltb_spec (int32_t x) 0); cint. }
    rewrite clz_loop_spec by (cbn; lia). unfold uint32_t, uint.
    rewrite Z.mod_small by lia. lia.
  - intros i Hi. by apply cnt_u8_lane.
Qed.

(** ** Polynomial multiplication *)

(** The product of polynomials over GF(2): partial products combine by exclusive
    or; [n] bounds the number of coefficients of [x]. *)
Fixpoint pmul (n : nat) (x y : Z) : Z :=
  match n with
  | O => 0
  | S n' => Z.lxor (if Z.odd x then y else 0) (pmul n' (Z.shiftr x 1) (2 * y))
  end.

Lemma pmul_0_l n y : pmul n 0 y = 0.
Proof. revert y. induction n as [|n IH]; intros y; cbn; [done|]. apply IH. Qed.

Lemma uint_lxor w x y : 0 <= w -> uint w (Z.lxor x y) = Z.lxor (uint w x) (uint w y).
Proof.
  intros Hw. apply Z.bits_inj'. intros i Hi.
  rewrite Z.lxor_spec, !uint_testbit, Z.lxor_spec by lia. by destruct (i <? w).
Qed.

Lemma uint_pmul w n x y : 0 <= w -> uint w (pmul n x (uint w y)) = uint w (pmul n x y).
Proof.
  intros Hw. revert x y. induction n as [|n IH]; intros x y; cbn [pmul]; [done|].
  rewrite !uint_lxor by done. f_equal.
  - destruct (Z.odd x); [apply uint_uint; lia|done].
  - rewrite <- (IH (Z.shiftr x 1) (2 * uint w y)), <- (IH (Z.shiftr x 1) (2 * y)).
    do 2 f_equal. unfold uint. by rewrite Z.mul_mod_idemp_r by lia.
Qed.

Lemma nz_bit x k : 0 <= k -> nz (Z.land x (2 ^ k)) = Z.testbit x k.
Proof.
  intros Hk. unfold nz. destruct (Z.testbit x k) eqn:E.
  - destruct (Z.eqb_spec (Z.land x (2 ^ k)) 0) as [E0|]; [|done].
    apply (f_equal (fun z => Z.testbit z k)) in E0.
    rewrite Z.land_spec, E, Z.pow2_bits_true, Z.bits_0 in E0 by lia. done.
  - assert (Z.land x (2 ^ k) = 0) as ->; [|done].
    apply Z.bits_inj'. intros i Hi. rewrite Z.land_spec, Z.bits_0.
    destruct (decide (i = k)) as [->|]; [by rewrite E|].
    rewrite Z.pow2_bits_false by lia. apply andb_false_r.
Qed.

Lemma odd_lane w i x : 0 < w -> 0 <= i -> Z.odd (lane w i x) = Z.testbit x (w * i).
Proof.
  intros. rewrite <- Z.bit0_odd, lane_testbit by lia. destruct (Z.ltb_spec 0 w); [done|lia].
Qed.

(** The masks of both loops select the lanes whose low coefficient is set. *)
Lemma mask_lanes w op1 i : w = 8 \/ w = 16 -> 0 <= i < 4 ->
  lane w i (mask_if op1 16777216 (Z.shiftl (2 ^ w - 1) (w * 3))
    (mask_if op1 65536 (Z.shiftl (2 ^ w - 1) (w * 2))
    (mask_if op1 256 (Z.shiftl (2 ^ w - 1) (w * 1)) (mask_if op1 1 (2 ^ w - 1) 0)))) =
  if Z.odd (lane 8 i op1) then 2 ^ w - 1 else 0.
Proof.
  intros Hw Hi. rewrite odd_lane by lia. unfold mask_if.
  pose proof (nz_bit op1 0) as H0. pose proof (nz_bit op1 8) as H1.
  pose proof (nz_bit op1 16) as H2. pose proof (nz_bit op1 24) as H3.
  change (2 ^ 0) with 1 in H0. change (2 ^ 8) with 256 in H1.
  change (2 ^ 16) with 65536 in H2. change (2 ^ 24) with 16777216 in H3.
  rewrite H0, H1, H2, H3 by lia.
  assert (i = 0 \/ i = 1 \/ i = 2 \/ i = 3) as [->|[->|[->| ->]]] by lia;
    change (8 * 0) with 0; change (8 * 1) with 8; change (8 * 2) with 16; change (8 * 3) with 24;
    destruct (Z.testbit op1 0), (Z.testbit op1 8), (Z.testbit op1 16),
      (Z.testbit op1 24), Hw as [->| ->]; reflexivity.
Qed.

Lemma land_full w x b : 0 <= w -> in_u w x ->
  Z.land x (if (b : bool) then 2 ^ w - 1 else 0) = if b then x else 0.
Proof.
  intros Hw Hx. destruct b; [|apply Z.land_0_r].
  replace (2 ^ w - 1) with (Z.ones w) by (rewrite Z.ones_equiv; lia).
  rewrite Z.land_ones by lia. by apply Z.mod_small.
Qed.

Lemma op1_lane op1 i : 0 <= i < 4 ->
  lane 8 i (Z.land (Z.shiftr op1 1) 2139062143) = Z.shiftr (lane 8 i op1) 1.
Proof.
  intros Hi. rewrite lane_land by lia.
  assert (lane 8 i 2139062143 = 127) as ->
    by (assert (i = 0 \/ i = 1 \/ i = 2 \/ i = 3) as [->|[->|[->| ->]]] by lia; reflexivity).
  rewrite lane_shift_land by lia. change 127 with (Z.ones 7). rewrite Z.land_ones by lia.
  apply Z.mod_small. pose proof (lane_range 8 i op1 ltac:(lia)) as Hr.
  rewrite shiftr1. unfold in_u in Hr. change (2 ^ 8) with 256 in Hr. change (2 ^ 7) with 128.
  split; [apply Z.div_pos; lia|apply Z.div_lt_upper_bound; lia].
Qed.

Lemma op2_lane op2 i : 0 <= i < 4 ->
  lane 8 i (Z.land (uint32_t (Z.shiftl op2 1)) 4278124286) = uint 8 (2 * lane 8 i op2).
Proof.
  intros Hi. rewrite lane_land by lia. unfold uint32_t. rewrite lane_uint by lia.
  assert (lane 8 i 4278124286 = Z.shiftl (Z.ones 7) 1) as ->
    by (assert (i = 0 \/ i = 1 \/ i = 2 \/ i = 3) as [->|[->|[->| ->]]] by lia; reflexivity).
  replace (2 * lane 8 i op2) with (Z.shiftl (lane 8 i op2) 1) by (rewrite Z.shiftl_mul_pow2 by lia; lia).
  apply Z.bits_inj'. intros j Hj.
  rewrite Z.land_spec, uint_testbit, lane_testbit, !testbit_shiftl by lia.
  destruct (Z.leb_spec 1 j), (Z.ltb_spec j 8); cbn [andb]; rewrite ?andb_false_r; try done.
  rewrite testbit_ones, lane_testbit by lia.
  destruct (Z.leb_spec 1 (j + 8 * i)), (Z.ltb_spec (j - 1) 7), (Z.ltb_spec (j - 1) 8); try lia.
  cbn. rewrite andb_true_r. f_equal. lia.
Qed.

Lemma lanes_zero w k x : 0 < w -> in_u (w * Z.of_nat k) x ->
  (forall i, 0 <= i < Z.of_nat k -> lane w i x = 0) -> x = 0.
Proof.
  intros Hw Hx H. apply (lane_ext w k); [done|done|unfold in_u; nia|].
  intros i Hi. rewrite H by done. unfold lane. rewrite Z.shiftr_0_l. unfold uint.
  by rewrite Z.mod_0_l by lia.
Qed.

Lemma op1_range op1 : in_u 32 (Z.land (Z.shiftr op1 1) 2139062143).
Proof.
  split; [apply Z.land_nonneg; lia|].
  pose proof (land_le (Z.shiftr op1 1) 2139062143 ltac:(lia)). lia.
Qed.

Lemma mul_p8_loop_spec fuel n op1 op2 r : in_u 32 op1 -> (n <= fuel)%nat ->
  (forall i, 0 <= i < 4 -> lane 8 i op1 < 2 ^ Z.of_nat n) ->
  exists res, mul_p8_loop fuel op1 op2 r = Some res /\
    forall i, 0 <= i < 4 ->
      lane 8 i res = Z.lxor (lane 8 i r) (uint 8 (pmul n (lane 8 i op1) (lane 8 i op2))).
Proof.
  revert fuel op1 op2 r. induction n as [|n IH]; intros fuel op1 op2 r Hr Hf Hl.
  - assert (op1 = 0) as ->.
    { apply (lanes_zero 8 4); [lia|done|]. intros i Hi. specialize (Hl i Hi).
      pose proof (lane_range 8 i op1 ltac:(lia)) as Hp. unfold in_u in Hp.
      change (2 ^ Z.of_nat 0) with 1 in Hl. lia. }
    exists r. split; [by destruct fuel|]. intros i Hi. cbn [pmul]. by rewrite Z.lxor_0_r.
  - destruct fuel as [|fuel]; [lia|]. cbn [mul_p8_loop].
    destruct (Z.eqb_spec op1 0) as [->|Hne].
    { exists r. split; [done|]. intros i Hi.
      assert (lane 8 i 0 = 0) as -> by (unfold lane; by rewrite Z.shiftr_0_l).
      rewrite pmul_0_l. by rewrite Z.lxor_0_r. }
    match goal with |- context [mul_p8_loop fuel ?x ?y ?z] =>
      destruct (IH fuel x y z) as (res & E & Hres); [apply op1_range|lia| |] end.
    { intros i Hi. rewrite op1_lane, shiftr1 by done. specialize (Hl i Hi).
      rewrite Nat2Z.inj_succ, Z.pow_succ_r in Hl by lia. apply Z.div_lt_upper_bound; lia. }
    exists res. split; [exact E|]. intros i Hi. rewrite Hres by done.
    rewrite op1_lane, op2_lane, lane_lxor, lane_land by lia.
    assert (lane 8 i (mask_if op1 16777216 4278190080 (mask_if op1 65536 16711680
      (mask_if op1 256 65280 (mask_if op1 1 255 0)))) =
      if Z.odd (lane 8 i op1) then 2 ^ 8 - 1 else 0) as HM
      by exact (mask_lanes 8 op1 i ltac:(lia) Hi).
    rewrite HM. rewrite land_full by (lia || apply lane_range; lia).
    cbn [pmul]. rewrite uint_lxor by lia. rewrite uint_pmul by lia.
    rewrite Z.lxor_assoc. do 2 f_equal.
    destruct (Z.odd _); [|done]. symmetry. apply uint_id, lane_range. lia.
Qed.

Lemma op2ex_lane op2ex i : 0 <= i < 4 ->
  (forall j, 0 <= j < 4 -> lane 16 j op2ex < 2 ^ 15) ->
  lane 16 i (uint64_t (Z.shiftl op2ex 1)) = 2 * lane 16 i op2ex.
Proof.
  intros Hi H. unfold uint64_t. rewrite lane_uint by lia.
  replace (Z.shiftl op2ex 1) with (op2ex + op2ex) by (rewrite Z.shiftl_mul_pow2 by lia; lia).
  rewrite lane_add; [lia|lia|lia|]. intros j Hj. specialize (H j ltac:(lia)).
  change (2 ^ 16) with (2 * 2 ^ 15). lia.
Qed.

Lemma mull_p8_loop_spec fuel n op1 op2ex r : in_u 32 op1 -> (n <= fuel)%nat -> (n <= 8)%nat ->
  (forall i, 0 <= i < 4 -> lane 8 i op1 < 2 ^ Z.of_nat n) ->
  (forall i, 0 <= i < 4 -> lane 16 i op2ex < 2 ^ (16 - Z.of_nat n)) ->
  exists res, mull_p8_loop fuel op1 op2ex r = Some res /\
    forall i, 0 <= i < 4 ->
      lane 16 i res = Z.lxor (lane 16 i r) (pmul n (lane 8 i op1) (lane 16 i op2ex)).
Proof.
  revert fuel op1 op2ex r. induction n as [|n IH]; intros fuel op1 op2ex r Hr Hf H8 Hl Hy.
  - assert (op1 = 0) as ->.
    { apply (lanes_zero 8 4); [lia|done|]. intros i Hi. specialize (Hl i Hi).
      pose proof (lane_range 8 i op1 ltac:(lia)) as Hp. unfold in_u in Hp.
      change (2 ^ Z.of_nat 0) with 1 in Hl. lia. }
    exists r. split; [by destruct fuel|]. intros i Hi. cbn [pmul]. by rewrite Z.lxor_0_r.
  - destruct fuel as [|fuel]; [lia|]. cbn [mull_p8_loop].
    destruct (Z.eqb_spec op1 0) as [->|Hne].
    { exists r. split; [done|]. intros i Hi.
      assert (lane 8 i 0 = 0) as -> by (unfold lane; by rewrite Z.shiftr_0_l).
      rewrite pmul_0_l. by rewrite Z.lxor_0_r. }
    assert (forall j, 0 <= j < 4 -> lane 16 j op2ex < 2 ^ 15) as H15.
    { intros j Hj. specialize (Hy j Hj).
      assert (2 ^ (16 - Z.of_nat (S n)) <= 2 ^ 15) by (apply Z.pow_le_mono_r; lia). lia. }
    match goal with |- context [mull_p8_loop fuel ?x ?y ?z] =>
      destruct (IH fuel x y z) as (res & E & Hres); [apply op1_range|lia|lia| | |] end.
    { intros i Hi. rewrite op1_lane, shiftr1 by done. specialize (Hl i Hi).
      rewrite Nat2Z.inj_succ, Z.pow_succ_r in Hl by lia. apply Z.div_lt_upper_bound; lia. }
    { intros i Hi. rewrite op2ex_lane by done. specialize (Hy i Hi).
      replace (16 - Z.of_nat n) with (Z.succ (16 - Z.of_nat (S n))) by lia.
      rewrite Z.pow_succ_r by lia. lia. }
    exists res. split; [exact E|]. intros i Hi. rewrite Hres by done.
    rewrite op1_lane, op2ex_lane, lane_lxor, lane_land by (done || lia).
    assert (lane 16 i (mask_if op1 16777216 (Z.shiftl 65535 48) (mask_if op1 65536 (Z.shiftl 65535 32)
      (mask_if op1 256 (Z.shiftl 65535 16) (mask_if op1 1 65535 0)))) =
      if Z.odd (lane 8 i op1) then 2 ^ 16 - 1 else 0) as HM
      by exact (mask_lanes 16 op1 i ltac:(lia) Hi).
    rewrite HM. rewrite land_full by (lia || apply lane_range; lia).
    cbn [pmul]. by rewrite Z.lxor_assoc.
Qed.

(** Spreading the bytes of a word into the low halves of 16-bit lanes. *)
Lemma spread_lane op2 i : 0 <= i < 4 ->
  lane 16 i (Z.lor (Z.lor (Z.lor (Z.land op2 255) (Z.shiftl (Z.land op2 65280) 8))
                 (Z.shiftl (Z.land op2 16711680) 16)) (Z.shiftl (Z.land op2 4278190080) 24)) =
  lane 8 i op2.
Proof.
  intros Hi. change 255 with (Z.shiftl (Z.ones 8) 0). change 65280 with (Z.shiftl (Z.ones 8) 8).
  change 16711680 with (Z.shiftl (Z.ones 8) 16).
  change 4278190080 with (Z.shiftl (Z.ones 8) 24).
  rewrite !land_field, !Z.shiftl_shiftl, Z.shiftl_0_r by lia.
  assert (forall k, in_u 16 (uint 8 (Z.shiftr op2 k))) as Hr.
  { intros k. pose proof (uint_range 8 (Z.shiftr op2 k) ltac:(lia)) as H. unfold in_u in *. lia. }
  rewrite (pack4_lor 16) by (lia || apply Hr). rewrite lane_pack by lia.
  assert (i = 0 \/ i = 1 \/ i = 2 \/ i = 3) as [->|[->|[->| ->]]] by lia;
    cbn [default lookup list_lookup Z.to_nat Pos.to_nat Pos.iter_op Nat.add];
    apply uint_id, Hr.
Qed.

(** The polynomial multiplications terminate within eight rounds and compute
    the carry-less product of each pair of bytes, reduced to eight bits, or kept
    in full in a 16-bit lane by the long form. *)
Lemma neon_polynomial a b : in_u 32 a ->
  (exists r, neon_mul_p8 a b = Some r /\ forall i, 0 <= i < 4 ->
     lane 8 i r = uint 8 (pmul 8 (lane 8 i a) (lane 8 i b))) /\
  (exists r, neon_mull_p8 a b = Some r /\ forall i, 0 <= i < 4 ->
     lane 16 i r = pmul 8 (lane 8 i a) (lane 8 i b)).
Proof.
  intros Ha.
  assert (forall w i x, 0 < w -> lane w i x < 2 ^ w) as Hlt
    by (intros w i x Hw; apply (lane_range w i x); lia).
  assert (forall w i, lane w i 0 = 0) as H0
    by (intros w i; unfold lane; rewrite Z.shiftr_0_l; apply Zmod_0_l).
  split.
  - destruct (mul_p8_loop_spec 8 8 a b 0) as (r & E & H); [done|lia|by intros; apply (Hlt 8)|].
    exists r. split; [done|]. intros i Hi. rewrite H by done. by rewrite H0.
  - unfold neon_mull_p8. cbn zeta. set (bx := Z.lor _ _).
    assert (forall i, 0 <= i < 4 -> lane 16 i bx = lane 8 i b) as Hb
      by (intros i Hi; apply (spread_lane b i Hi)).
    destruct (mull_p8_loop_spec 8 8 a bx 0) as (r & E & H); [done|lia|lia|by intros; apply (Hlt 8)| |].
    { intros i Hi. rewrite Hb by done. by apply (Hlt 8). }
    exists r. split; [done|]. intros i Hi. rewrite H by done. by rewrite H0, Hb.
Qed.

(** C35: the helpers that work on whole words: masked additions and subtractions equal
    lane-by-lane modular arithmetic, the counts of leading zeros, signs and ones are exact
    in every lane, and the polynomial products end and are the carry-less products. *)
Theorem neon_swar_correct :
  (forall a b, lanewise false 8 4 Z.add (neon_add_u8 a b) a b /\
    lanewise false 16 2 Z.add (neon_add_u16 a b) a b /\
    lanewise false 16 4 Z.add (neon_addl_u16 a b) a b /\
    lanewise false 32 2 Z.add (neon_addl_u32 a b) a b /\
    lanewise false 16 4 Z.sub (neon_subl_u16 a b) a b /\
    lanewise false 32 2 Z.sub (neon_subl_u32 a b) a b) /\
  (forall x, (forall i, 0 <= i < 4 -> lane 8 i (neon_clz_u8 x) = 8 - bit_length (lane 8 i x)) /\
    (forall i, 0 <= i < 2 -> lane 16 i (neon_clz_u16 x) = 16 - bit_length (lane 16 i x)) /\
    (forall i, 0 <= i < 4 -> lane 8 i (neon_cls_s8 x) =
       7 - bit_length (sign_magnitude (int8_t (lane 8 i x)))) /\
    (forall i, 0 <= i < 2 -> lane 16 i (neon_cls_s16 x) =
       15 - bit_length (sign_magnitude (int16_t (lane 16 i x)))) /\
    (in_u 32 x -> neon_cls_s32 x = 31 - bit_length (sign_magnitude (int32_t x))) /\
    (forall i, 0 <= i < 4 -> lane 8 i (neon_cnt_u8 x) = popcount 8 (lane 8 i x))) /\
  (forall a b, in_u 32 a ->
    (exists r, neon_mul_p8 a b = Some r /\ forall i, 0 <= i < 4 ->
       lane 8 i r = uint 8 (pmul 8 (lane 8 i a) (lane 8 i b))) /\
    (exists r, neon_mull_p8 a b = Some r /\ forall i, 0 <= i < 4 ->
       lane 16 i r = pmul 8 (lane 8 i a) (lane 8 i b))).
Proof.
  split_and!; [exact neon_word_arithmetic|exact neon_counts|exact neon_polynomial].
Qed.

Lemma neon_swar_correct_witness :
  exists r, neon_mul_p8 50595078 84215045 = Some r /\ lane 8 0 r = uint 8 (pmul 8 6 5).
Proof.
  destruct neon_swar_correct as (_ & _ & Hp).
  destruct (Hp 50595078 84215045) as [(r & E & H) _]; [cint|].
  exists r. split; [exact E|]. exact (H 0 ltac:(lia)).
Defined.
