(* ===== verification/NeonShift.v ===== *)
(** * NEON helpers: variable shifts

    The shifts by a signed, per-lane amount of
    src/emul/qemu/target-arm/neon_helper.c: plain, rounding, saturating, and
    saturating with rounding, at all element widths.  The amount is the low byte of
    the second operand's lane, taken as signed; negative amounts shift right. *)

From S2P Require Import Prelude NeonBase NeonArith.
Open Scope Z_scope.

(** ** Plain shifts *)

Definition FN_shl_u (w src1 src2 : Z) : Z :=
  let tmp := int8_t src2 in
  if (w <=? tmp) || (tmp <=? - w) then 0
  else if tmp <? 0 then Z.shiftr src1 (- tmp)
  else Z.shiftl src1 tmp.

Definition neon_shl_u8 := NEON_VOP false 8 4 (FN_shl_u 8).
Definition neon_shl_u16 := NEON_VOP false 16 2 (FN_shl_u 16).
Definition neon_shl_u32 := NEON_VOP false 32 1 (FN_shl_u 32).

Definition neon_shl_u64 (val shiftop : Z) : Z :=
  let shift := int8_t shiftop in
  if (64 <=? shift) || (shift <=? -64) then 0
  else if shift <? 0 then Z.shiftr val (- shift)
  else uint64_t (Z.shiftl val shift).

Definition FN_shl_s (w src1 src2 : Z) : Z :=
  let tmp := int8_t src2 in
  if w <=? tmp then 0
  else if tmp <=? - w then Z.shiftr src1 (w - 1)
  else if tmp <? 0 then Z.shiftr src1 (- tmp)
  else Z.shiftl src1 tmp.

Definition neon_shl_s8 := NEON_VOP true 8 4 (FN_shl_s 8).
Definition neon_shl_s16 := NEON_VOP true 16 2 (FN_shl_s 16).
Definition neon_shl_s32 := NEON_VOP true 32 1 (FN_shl_s 32).

Definition neon_shl_s64 (valop shiftop : Z) : Z :=
  let shift := int8_t shiftop in
  let val := int64_t valop in
  uint64_t (if 64 <=? shift then 0
            else if shift <=? -64 then Z.shiftr val 63
            else if shift <? 0 then Z.shiftr val (- shift)
            else int64_t (Z.shiftl val shift)).

(** ** Rounding shifts *)

Definition FN_rshl_s (w src1 src2 : Z) : Z :=
  let tmp := int8_t src2 in
  if (w <=? tmp) || (tmp <=? - w) then 0
  else if tmp <? 0 then Z.shiftr (src1 + Z.shiftl 1 (-1 - tmp)) (- tmp)
  else Z.shiftl src1 tmp.

Definition neon_rshl_s8 := NEON_VOP true 8 4 (FN_rshl_s 8).
Definition neon_rshl_s16 := NEON_VOP true 16 2 (FN_rshl_s 16).

Definition neon_rshl_s32 (valop shiftop : Z) : Z :=
  let val := int32_t valop in
  let shift := int8_t shiftop in
  uint32_t (if (32 <=? shift) || (shift <=? -32) then 0
            else if shift <? 0 then
              let big_dest := int64_t (val + Z.shiftl 1 (-1 - shift)) in
              int32_t (Z.shiftr big_dest (- shift))
            else int32_t (Z.shiftl val shift)).

Definition INT64_MAX : Z := 9223372036854775807.

Definition neon_rshl_s64 (valop shiftop : Z) : Z :=
  let shift := int8_t shiftop in
  let val := int64_t valop in
  uint64_t (if (64 <=? shift) || (shift <=? -64) then 0
            else if shift <? 0 then
              let val := Z.shiftr val (- shift - 1) in
              if val =? INT64_MAX then 4611686018427387904
              else Z.shiftr (val + 1) 1
            else int64_t (Z.shiftl val shift)).

Definition FN_rshl_u (w src1 src2 : Z) : Z :=
  let tmp := int8_t src2 in
  if (w <=? tmp) || (tmp <? - w) then 0
  else if tmp =? - w then Z.shiftr src1 (- tmp - 1)
  else if tmp <? 0 then Z.shiftr (src1 + Z.shiftl 1 (-1 - tmp)) (- tmp)
  else Z.shiftl src1 tmp.

Definition neon_rshl_u8 := NEON_VOP false 8 4 (FN_rshl_u 8).
Definition neon_rshl_u16 := NEON_VOP false 16 2 (FN_rshl_u 16).

Definition neon_rshl_u32 (val shiftop : Z) : Z :=
  let shift := int8_t shiftop in
  if (32 <=? shift) || (shift <? -32) then 0
  else if shift =? -32 then Z.shiftr val 31
  else if shift <? 0 then
    let big_dest := uint64_t (val + Z.shiftl 1 (-1 - shift)) in
    uint32_t (Z.shiftr big_dest (- shift))
  else uint32_t (Z.shiftl val shift).

Definition neon_rshl_u64 (val shiftop : Z) : Z :=
  let shift := int8_t (uint8_t shiftop) in
  if (64 <=? shift) || (shift <? -64) then 0
  else if shift =? -64 then Z.shiftr val 63
  else if shift <? 0 then
    let val := Z.shiftr val (- shift - 1) in
    if val =? U64_MAX then 9223372036854775808
    else Z.shiftr (val + 1) 1
  else uint64_t (Z.shiftl val shift).

(** ** Saturating shifts *)

Definition FN_qshl_u (w src1 src2 : Z) : Z * bool :=
  let tmp := int8_t src2 in
  if w <=? tmp then (if nz src1 then (-1, true) else (0, false))
  else if tmp <=? - w then (0, false)
  else if tmp <? 0 then (Z.shiftr src1 (- tmp), false)
  else
    let dest := uint w (Z.shiftl src1 tmp) in
    if negb (Z.shiftr dest tmp =? src1) then (-1, true) else (dest, false).

Definition neon_qshl_u8 := NEON_VOP_ENV false 8 4 (FN_qshl_u 8).
Definition neon_qshl_u16 := NEON_VOP_ENV false 16 2 (FN_qshl_u 16).
Definition neon_qshl_u32 := NEON_VOP_ENV false 32 1 (FN_qshl_u 32).

Definition neon_qshl_u64 (fpscr val shiftop : Z) : Z * Z :=
  let shift := int8_t shiftop in
  if 64 <=? shift then (if nz val then (U64_MAX, SET_QC fpscr) else (val, fpscr))
  else if shift <=? -64 then (0, fpscr)
  else if shift <? 0 then (Z.shiftr val (- shift), fpscr)
  else
    let tmp := val in
    let val := uint64_t (Z.shiftl val shift) in
    if negb (Z.shiftr val shift =? tmp) then (U64_MAX, SET_QC fpscr) else (val, fpscr).

(** The extreme value a signed saturation assigns: the minimum, and [dest--] for
    positive operands.  The decrement is done in [int] and converted back, which
    gives the maximum of an 8- or 16-bit [dest] and overflows for a 32-bit one. *)
Definition ssat_extreme (w src1 : Z) : option (Z * bool) :=
  let dest := sint w (uint32_t (Z.shiftl 1 (w - 1))) in
  if 0 <? src1 then (fun d => (sint w d, true)) <$> c_int (dest - 1) else Some (dest, true).

Definition FN_qshl_s (w src1 src2 : Z) : option (Z * bool) :=
  let tmp := int8_t src2 in
  if w <=? tmp then (if nz src1 then ssat_extreme w src1 else Some (src1, false))
  else if tmp <=? - w then Some (Z.shiftr src1 31, false)
  else if tmp <? 0 then Some (Z.shiftr src1 (- tmp), false)
  else
    let dest := sint w (Z.shiftl src1 tmp) in
    if negb (Z.shiftr dest tmp =? src1) then ssat_extreme w src1 else Some (dest, false).

Definition neon_qshl_s8 := NEON_VOP_ENV_int true 8 4 (FN_qshl_s 8).
Definition neon_qshl_s16 := NEON_VOP_ENV_int true 16 2 (FN_qshl_s 16).
Definition neon_qshl_s32 := NEON_VOP_ENV_int true 32 1 (FN_qshl_s 32).

(** [(val >> 63) ^ ~SIGNBIT64] *)
Definition sat64_of (val : Z) : Z :=
  Z.lxor (uint64_t (Z.shiftr val 63)) (uint64_t (Z.lnot SIGNBIT64)).

Definition neon_qshl_s64 (fpscr valop shiftop : Z) : Z * Z :=
  let shift := int8_t (uint8_t shiftop) in
  let val := int64_t valop in
  if 64 <=? shift then (if nz val then (sat64_of val, SET_QC fpscr) else (uint64_t val, fpscr))
  else if shift <=? -64 then (uint64_t (Z.shiftr val 63), fpscr)
  else if shift <? 0 then (uint64_t (Z.shiftr val (- shift)), fpscr)
  else
    let tmp := val in
    let val := int64_t (Z.shiftl val shift) in
    if negb (Z.shiftr val shift =? tmp) then (sat64_of tmp, SET_QC fpscr)
    else (uint64_t val, fpscr).

(** Signed operands, unsigned result; the elements are read as unsigned and the
    sign is tested. *)
Definition FN_qshlu (w src1 src2 : Z) : Z * bool :=
  if nz (Z.land src1 (Z.shiftl 1 (w - 1))) then (0, true)
  else
    let tmp := int8_t src2 in
    if w <=? tmp then (if nz src1 then (-1, true) else (0, false))
    else if tmp <=? - w then (0, false)
    else if tmp <? 0 then (Z.shiftr src1 (- tmp), false)
    else
      let dest := uint w (Z.shiftl src1 tmp) in
      if negb (Z.shiftr dest tmp =? src1) then (-1, true) else (dest, false).

Definition neon_qshlu_s8 := NEON_VOP_ENV false 8 4 (FN_qshlu 8).
Definition neon_qshlu_s16 := NEON_VOP_ENV false 16 2 (FN_qshlu 16).

Definition neon_qshlu_s32 (fpscr valop shiftop : Z) : Z * Z :=
  if int32_t valop <? 0 then (0, SET_QC fpscr) else neon_qshl_u32 fpscr valop shiftop.

Definition neon_qshlu_s64 (fpscr valop shiftop : Z) : Z * Z :=
  if int64_t valop <? 0 then (0, SET_QC fpscr) else neon_qshl_u64 fpscr valop shiftop.

(** ** Saturating rounding shifts *)

Definition FN_qrshl_u (w src1 src2 : Z) : Z * bool :=
  let tmp := int8_t src2 in
  if w <=? tmp then (if nz src1 then (-1, true) else (0, false))
  else if tmp <? - w then (0, false)
  else if tmp =? - w then (Z.shiftr src1 (w - 1), false)
  else if tmp <? 0 then (Z.shiftr (src1 + Z.shiftl 1 (-1 - tmp)) (- tmp), false)
  else
    let dest := uint w (Z.shiftl src1 tmp) in
    if negb (Z.shiftr dest tmp =? src1) then (-1, true) else (dest, false).

Definition neon_qrshl_u8 := NEON_VOP_ENV false 8 4 (FN_qrshl_u 8).
Definition neon_qrshl_u16 := NEON_VOP_ENV false 16 2 (FN_qrshl_u 16).

Definition neon_qrshl_u32 (fpscr val shiftop : Z) : Z * Z :=
  let shift := int8_t shiftop in
  if 32 <=? shift then (if nz val then (U32_MAX, SET_QC fpscr) else (0, fpscr))
  else if shift <? -32 then (0, fpscr)
  else if shift =? -32 then (Z.shiftr val 31, fpscr)
  else if shift <? 0 then
    let big_dest := uint64_t (val + Z.shiftl 1 (-1 - shift)) in
    (uint32_t (Z.shiftr big_dest (- shift)), fpscr)
  else
    let dest := uint32_t (Z.shiftl val shift) in
    if negb (Z.shiftr dest shift =? val) then (U32_MAX, SET_QC fpscr) else (dest, fpscr).

Definition neon_qrshl_u64 (fpscr val shiftop : Z) : Z * Z :=
  let shift := int8_t shiftop in
  if 64 <=? shift then (if nz val then (uint64_t (-1), SET_QC fpscr) else (val, fpscr))
  else if shift <? -64 then (0, fpscr)
  else if shift =? -64 then (Z.shiftr val 63, fpscr)
  else if shift <? 0 then
    let val := Z.shiftr val (- shift - 1) in
    if val =? U64_MAX then (9223372036854775808, fpscr)
    else (Z.shiftr (val + 1) 1, fpscr)
  else
    let tmp := val in
    let val := uint64_t (Z.shiftl val shift) in
    if negb (Z.shiftr val shift =? tmp) then (uint64_t (-1), SET_QC fpscr) else (val, fpscr).

Definition FN_qrshl_s (w src1 src2 : Z) : option (Z * bool) :=
  let tmp := int8_t src2 in
  if w <=? tmp then (if nz src1 then ssat_extreme w src1 else Some (0, false))
  else if tmp <=? - w then Some (0, false)
  else if tmp <? 0 then Some (Z.shiftr (src1 + Z.shiftl 1 (-1 - tmp)) (- tmp), false)
  else
    let dest := sint w (Z.shiftl src1 tmp) in
    if negb (Z.shiftr dest tmp =? src1) then ssat_extreme w src1 else Some (dest, false).

Definition neon_qrshl_s8 := NEON_VOP_ENV_int true 8 4 (FN_qrshl_s 8).
Definition neon_qrshl_s16 := NEON_VOP_ENV_int true 16 2 (FN_qrshl_s 16).

(** [(val >> 31) ^ ~SIGNBIT] *)
Definition sat32_of (val : Z) : Z :=
  Z.lxor (uint32_t (Z.shiftr val 31)) (uint32_t (Z.lnot SIGNBIT)).

Definition neon_qrshl_s32 (fpscr valop shiftop : Z) : Z * Z :=
  let val := int32_t valop in
  let shift := int8_t shiftop in
  if 32 <=? shift then (if nz val then (sat32_of val, SET_QC fpscr) else (0, fpscr))
  else if shift <=? -32 then (0, fpscr)
  else if shift <? 0 then
    let big_dest := int64_t (val + Z.shiftl 1 (-1 - shift)) in
    (uint32_t (int32_t (Z.shiftr big_dest (- shift))), fpscr)
  else
    let dest := int32_t (Z.shiftl val shift) in
    if negb (Z.shiftr dest shift =? val) then (sat32_of val, SET_QC fpscr)
    else (uint32_t dest, fpscr).

Definition neon_qrshl_s64 (fpscr valop shiftop : Z) : Z * Z :=
  let shift := int8_t (uint8_t shiftop) in
  let val := int64_t valop in
  if 64 <=? shift then (if nz val then (sat64_of val, SET_QC fpscr) else (uint64_t val, fpscr))
  else if shift <=? -64 then (0, fpscr)
  else if shift <? 0 then
    let val := Z.shiftr val (- shift - 1) in
    if val =? INT64_MAX then (4611686018427387904, fpscr)
    else (uint64_t (Z.shiftr (val + 1) 1), fpscr)
  else
    let tmp := val in
    let val := int64_t (Z.shiftl val shift) in
    if negb (Z.shiftr val shift =? tmp) then (sat64_of tmp, SET_QC fpscr)
    else (uint64_t val, fpscr).

(** ** Reference functions *)

(** The exact result of shifting [x] by the signed amount [s]: rounded down, or to
    nearest with ties up. *)
Definition shl_ref (x s : Z) : Z := if 0 <=? s then x * 2 ^ s else x / 2 ^ (- s).
Definition rshl_ref (x s : Z) : Z :=
  if 0 <=? s then x * 2 ^ s else (x + 2 ^ (- s - 1)) / 2 ^ (- s).

(** As functions of the two lanes. *)
Definition shl_of (x y : Z) : Z := shl_ref x (int8_t y).
Definition rshl_of (x y : Z) : Z := rshl_ref x (int8_t y).

(** ** Facts about powers of two *)

Lemma pow2_double w : 0 < w -> 2 ^ w = 2 * 2 ^ (w - 1).
Proof. intros. rewrite <- Z.pow_succ_r by lia. f_equal. lia. Qed.

Lemma uint_shl_big w s x : 0 <= w <= s -> uint w (x * 2 ^ s) = 0.
Proof.
  intros H. unfold uint. replace (2 ^ s) with (2 ^ (s - w) * 2 ^ w)
    by (rewrite <- Z.pow_add_r by lia; f_equal; lia).
  rewrite Z.mul_assoc. apply Z.mod_mul. lia.
Qed.

Lemma shr_small_u w n x : 0 <= w <= n -> in_u w x -> x / 2 ^ n = 0.
Proof.
  intros H Hx. apply Z.div_small. unfold in_u in Hx.
  assert (2 ^ w <= 2 ^ n) by (apply Z.pow_le_mono_r; lia). lia.
Qed.

Lemma shr_sign w n x : 0 < w -> w - 1 <= n -> in_s w x -> x / 2 ^ n = if x <? 0 then -1 else 0.
Proof.
  intros Hw Hn Hx. unfold in_s in Hx.
  assert (2 ^ (w - 1) <= 2 ^ n) by (apply Z.pow_le_mono_r; lia).
  destruct (Z.ltb_spec x 0); [|apply Z.div_small; lia].
  symmetry. apply (Z.div_unique x (2 ^ n) (-1) (x + 2 ^ n)); lia.
Qed.

Lemma round_small_s w n x : 0 < w <= n -> in_s w x -> (x + 2 ^ (n - 1)) / 2 ^ n = 0.
Proof.
  intros H Hx. apply Z.div_small. unfold in_s in Hx. rewrite (pow2_double n) by lia.
  assert (2 ^ (w - 1) <= 2 ^ (n - 1)) by (apply Z.pow_le_mono_r; lia). lia.
Qed.

Lemma round_small_u w n x : 0 < w < n -> in_u w x -> (x + 2 ^ (n - 1)) / 2 ^ n = 0.
Proof.
  intros H Hx. apply Z.div_small. unfold in_u in Hx. rewrite (pow2_double n) by lia.
  assert (2 ^ w <= 2 ^ (n - 1)) by (apply Z.pow_le_mono_r; lia). lia.
Qed.

Lemma round_top_u w x : 0 < w -> in_u w x -> (x + 2 ^ (w - 1)) / 2 ^ w = x / 2 ^ (w - 1).
Proof.
  intros H Hx. unfold in_u in Hx. rewrite (pow2_double w) in * by lia.
  set (S := 2 ^ (w - 1)) in *. assert (0 < S) by (apply Z.pow_pos_nonneg; lia).
  destruct (decide (x < S)).
  - rewrite !Z.div_small by lia. done.
  - transitivity 1.
    + symmetry. apply (Z.div_unique _ _ 1 (x - S)); lia.
    + apply (Z.div_unique _ _ 1 (x - S)); lia.
Qed.

(** Rounding by halving one bit less, then the last one. *)
Lemma round_halves n x : 1 <= n -> (x / 2 ^ (n - 1) + 1) / 2 = (x + 2 ^ (n - 1)) / 2 ^ n.
Proof.
  intros Hn. rewrite (pow2_double n) by lia. rewrite (Z.mul_comm 2), <- Z.div_div by lia.
  f_equal. rewrite <- (Z.mul_1_l (2 ^ (n - 1))) at 2. by rewrite Z.div_add by lia.
Qed.

(** The test [(dest >> tmp) != src1] detects exactly the lost bits. *)
Lemma shl_check w s x z : 0 <= s <= w -> uint w z = uint w (x * 2 ^ s) ->
  (z / 2 ^ s =? x) = (z =? x * 2 ^ s).
Proof.
  intros Hs H. unfold uint in H.
  assert (exists k, z = x * 2 ^ s + k * 2 ^ w) as [k ->].
  { exists ((z - x * 2 ^ s) / 2 ^ w).
    assert ((z - x * 2 ^ s) mod 2 ^ w = 0) as E.
    { rewrite Zminus_mod, H, Z.sub_diag. apply Zmod_0_l. }
    pose proof (Z.div_mod (z - x * 2 ^ s) (2 ^ w)). lia. }
  replace (x * 2 ^ s + k * 2 ^ w) with ((x + k * 2 ^ (w - s)) * 2 ^ s).
  - rewrite Z.div_mul by lia. assert (0 < 2 ^ s) by lia.
    destruct (Z.eqb_spec (x + k * 2 ^ (w - s)) x), (Z.eqb_spec ((x + k * 2 ^ (w - s)) * 2 ^ s) (x * 2 ^ s));
      (done || nia).
  - rewrite Z.mul_add_distr_r, <- Z.mul_assoc, <- Z.pow_add_r by lia.
    do 3 f_equal. lia.
Qed.

(** ** Element operations against the references *)

(** [split_shift] cases on the tests of the shift amount; [shift_norm] turns the
    shifts into multiplications and divisions. *)
Ltac shift_norm :=
  rewrite ?Z.shiftl_mul_pow2, ?Z.shiftr_div_pow2 by lia; rewrite ?Z.mul_1_l.
Ltac split_shift :=
  repeat match goal with
  | |- context [?a <=? ?b] => destruct (Z.leb_spec a b); try lia
  | |- context [?a <? ?b] => destruct (Z.ltb_spec a b); try lia
  end; cbn [orb].

Lemma FN_shl_u_ok w x y : 0 < w -> in_u w x ->
  uint w (FN_shl_u w x y) = uint w (shl_of x y).
Proof.
  intros Hw Hx. unfold FN_shl_u, shl_of, shl_ref. cbn zeta. set (s := int8_t y).
  destruct (Z.leb_spec w s); cbn [orb].
  { destruct (Z.leb_spec 0 s); [|lia]. by rewrite uint_shl_big by lia. }
  destruct (Z.leb_spec s (- w)).
  { destruct (Z.leb_spec 0 s); [lia|]. by rewrite (shr_small_u w) by (done || lia). }
  destruct (Z.ltb_spec s 0), (Z.leb_spec 0 s); try lia; by shift_norm.
Qed.

Lemma FN_shl_s_ok w x y : 0 < w -> in_s w x ->
  uint w (FN_shl_s w x y) = uint w (shl_of x y).
Proof.
  intros Hw Hx. unfold FN_shl_s, shl_of, shl_ref. cbn zeta. set (s := int8_t y).
  destruct (Z.leb_spec w s).
  { destruct (Z.leb_spec 0 s); [|lia]. by rewrite uint_shl_big by lia. }
  destruct (Z.leb_spec s (- w)).
  { destruct (Z.leb_spec 0 s); [lia|]. shift_norm. by rewrite !(shr_sign w) by (done || lia). }
  destruct (Z.ltb_spec s 0), (Z.leb_spec 0 s); try lia; by shift_norm.
Qed.

(** The rounding constant [1 << (-1 - s)]. *)
Lemma round_const s : s < 0 -> Z.shiftl 1 (-1 - s) = 2 ^ (- s - 1).
Proof. intros. rewrite Z.shiftl_mul_pow2, Z.mul_1_l by lia. f_equal. lia. Qed.

Lemma FN_rshl_s_ok w x y : 0 < w -> in_s w x ->
  uint w (FN_rshl_s w x y) = uint w (rshl_of x y).
Proof.
  intros Hw Hx. unfold FN_rshl_s, rshl_of, rshl_ref. cbn zeta. set (s := int8_t y).
  destruct (Z.leb_spec w s); cbn [orb].
  { destruct (Z.leb_spec 0 s); [|lia]. by rewrite uint_shl_big by lia. }
  destruct (Z.leb_spec s (- w)).
  { destruct (Z.leb_spec 0 s); [lia|]. by rewrite (round_small_s w) by (done || lia). }
  destruct (Z.ltb_spec s 0), (Z.leb_spec 0 s); try lia; rewrite ?round_const by lia; by shift_norm.
Qed.

Lemma FN_rshl_u_ok w x y : 0 < w -> in_u w x ->
  uint w (FN_rshl_u w x y) = uint w (rshl_of x y).
Proof.
  intros Hw Hx. unfold FN_rshl_u, rshl_of, rshl_ref. cbn zeta. set (s := int8_t y).
  destruct (Z.leb_spec w s); cbn [orb].
  { destruct (Z.leb_spec 0 s); [|lia]. by rewrite uint_shl_big by lia. }
  destruct (Z.ltb_spec s (- w)).
  { destruct (Z.leb_spec 0 s); [lia|]. by rewrite (round_small_u w) by (done || lia). }
  destruct (Z.eqb_spec s (- w)) as [Hs|].
  { destruct (Z.leb_spec 0 s); [lia|]. shift_norm. replace (- s) with w by lia.
    by rewrite round_top_u by done. }
  destruct (Z.ltb_spec s 0), (Z.leb_spec 0 s); try lia; rewrite ?round_const by lia; by shift_norm.
Qed.

(** Saturation values. *)
Lemma sat_u_high w v : 0 <= w -> 2 ^ w <= v -> sat_u w v = 2 ^ w - 1.
Proof. intros. unfold sat_u. lia. Qed.
Lemma sat_u_in w v : in_u w v -> sat_u w v = v.
Proof. intros H. unfold sat_u, in_u in *. lia. Qed.
Lemma sat_s_in w v : in_s w v -> sat_s w v = v.
Proof. intros H. unfold sat_s, in_s in *. lia. Qed.

Lemma uint_m1 w : 0 <= w -> uint w (-1) = uint w (2 ^ w - 1).
Proof. intros. unfold uint. rewrite <- (Z.mod_add (-1) 1 (2 ^ w)) by lia. f_equal. lia. Qed.

Lemma shl_pos_big w s x : 0 <= w <= s -> 0 < x -> 2 ^ w <= x * 2 ^ s.
Proof. intros. assert (2 ^ w <= 2 ^ s) by (apply Z.pow_le_mono_r; lia). nia. Qed.

Lemma shr_in_u w n x : 0 <= n -> in_u w x -> in_u w (x / 2 ^ n).
Proof.
  intros Hn Hx. unfold in_u in *. split; [apply Z.div_pos; lia|].
  apply Z.div_lt_upper_bound; [lia|]. assert (1 <= 2 ^ n) by lia. nia.
Qed.

Lemma shr_in_s w n x : 0 < w -> 0 <= n -> in_s w x -> in_s w (x / 2 ^ n).
Proof.
  intros Hw Hn Hx. unfold in_s in *. assert (1 <= 2 ^ n) by lia. split.
  - apply Z.div_le_lower_bound; nia.
  - apply Z.div_lt_upper_bound; nia.
Qed.

(** [exact_sat]: a result that fits needs no clamping. *)
Definition sat_result (w : Z) (st : Z -> Z) (v : Z) (r : Z * bool) : Prop :=
  uint w r.1 = uint w (st v) /\ r.2 = negb (st v =? v).

Lemma sat_result_in w st v : st v = v -> sat_result w st v (v, false).
Proof. intros E. split; cbn; rewrite E; [done|]. by rewrite Z.eqb_refl. Qed.

Lemma sat_result_high_u w v : 0 <= w -> 2 ^ w <= v -> sat_result w (sat_u w) v (-1, true).
Proof.
  intros Hw Hv. split; cbn; rewrite sat_u_high by lia; [by apply uint_m1|].
  destruct (Z.eqb_spec (2 ^ w - 1) v); [lia|done].
Qed.

(** The left shift with its overflow test. *)
Lemma shl_test_u w s x : 0 <= s < w -> in_u w x ->
  let dest := uint w (Z.shiftl x s) in
  sat_result w (sat_u w) (x * 2 ^ s)
    (if negb (Z.shiftr dest s =? x) then (-1, true) else (dest, false)).
Proof.
  intros Hs Hx. cbn zeta. shift_norm.
  rewrite (shl_check w) by (lia || (apply uint_uint; lia)).
  pose proof (uint_range w (x * 2 ^ s) ltac:(lia)) as Hr.
  assert (0 <= x * 2 ^ s) by (unfold in_u in Hx; nia).
  destruct (Z.eqb_spec (uint w (x * 2 ^ s)) (x * 2 ^ s)) as [E|E]; cbn [negb].
  - rewrite E in Hr |- *. by apply sat_result_in, sat_u_in.
  - apply sat_result_high_u; [lia|]. destruct (decide (x * 2 ^ s < 2 ^ w)); [|lia].
    exfalso. apply E, uint_id. unfold in_u. lia.
Qed.

Lemma FN_qshl_u_ok w x y : 0 < w -> in_u w x ->
  sat_result w (sat_u w) (shl_of x y) (FN_qshl_u w x y).
Proof.
  intros Hw Hx. unfold FN_qshl_u, shl_of, shl_ref, nz. cbn zeta. set (s := int8_t y).
  destruct (Z.leb_spec w s).
  { destruct (Z.leb_spec 0 s); [|lia]. destruct (Z.eqb_spec x 0) as [->|]; cbn [negb].
    - rewrite Z.mul_0_l. apply sat_result_in, sat_u_in. unfold in_u. lia.
    - apply sat_result_high_u; [lia|]. apply shl_pos_big; [lia|]. unfold in_u in Hx. lia. }
  destruct (Z.leb_spec s (- w)).
  { destruct (Z.leb_spec 0 s); [lia|]. rewrite (shr_small_u w) by (done || lia).
    apply sat_result_in, sat_u_in. unfold in_u. lia. }
  destruct (Z.ltb_spec s 0), (Z.leb_spec 0 s); try lia.
  - shift_norm. apply sat_result_in, sat_u_in, shr_in_u; [lia|done].
  - apply shl_test_u; [lia|done].
Qed.

(** Rounding right shifts stay in range. *)
Lemma round_in_u w n x : 0 < w -> 1 <= n -> in_u w x -> in_u w ((x + 2 ^ (n - 1)) / 2 ^ n).
Proof.
  intros Hw Hn Hx. unfold in_u in *. rewrite (pow2_double n) by lia.
  assert (1 <= 2 ^ (n - 1)) by lia. assert (2 <= 2 ^ w).
  { change 2 with (2 ^ 1) at 1. apply Z.pow_le_mono_r; lia. }
  split; [apply Z.div_pos; lia|]. apply Z.div_lt_upper_bound; [lia|]. nia.
Qed.

Lemma round_in_s w n x : 0 < w -> 1 <= n -> in_s w x -> in_s w ((x + 2 ^ (n - 1)) / 2 ^ n).
Proof.
  intros Hw Hn Hx. unfold in_s in *. rewrite (pow2_double n) by lia.
  assert (1 <= 2 ^ (n - 1)) by lia. assert (1 <= 2 ^ (w - 1)) by lia. split.
  - apply Z.div_le_lower_bound; [lia|]. nia.
  - apply Z.div_lt_upper_bound; [lia|]. nia.
Qed.

Lemma FN_qrshl_u_ok w x y : 0 < w -> in_u w x ->
  sat_result w (sat_u w) (rshl_of x y) (FN_qrshl_u w x y).
Proof.
  intros Hw Hx. unfold FN_qrshl_u, rshl_of, rshl_ref, nz. cbn zeta. set (s := int8_t y).
  destruct (Z.leb_spec w s).
  { destruct (Z.leb_spec 0 s); [|lia]. destruct (Z.eqb_spec x 0) as [->|]; cbn [negb].
    - rewrite Z.mul_0_l. apply sat_result_in, sat_u_in. unfold in_u. lia.
    - apply sat_result_high_u; [lia|]. apply shl_pos_big; [lia|]. unfold in_u in Hx. lia. }
  destruct (Z.ltb_spec s (- w)).
  { destruct (Z.leb_spec 0 s); [lia|]. rewrite (round_small_u w) by (done || lia).
    apply sat_result_in, sat_u_in. unfold in_u. lia. }
  destruct (Z.eqb_spec s (- w)) as [Hs|].
  { destruct (Z.leb_spec 0 s); [lia|]. shift_norm. replace (- s) with w by lia.
    rewrite round_top_u by done. apply sat_result_in, sat_u_in, shr_in_u; [lia|done]. }
  destruct (Z.ltb_spec s 0), (Z.leb_spec 0 s); try lia.
  - rewrite round_const by lia. shift_norm. apply sat_result_in, sat_u_in, round_in_u; [lia|lia|done].
  - apply shl_test_u; [lia|done].
Qed.

(** ** Signed saturation *)

Lemma ssat_min_val w : 0 < w <= 32 -> sint w (uint32_t (Z.shiftl 1 (w - 1))) = - 2 ^ (w - 1).
Proof.
  intros Hw. pose proof (pow2_double w ltac:(lia)) as E. assert (1 <= 2 ^ (w - 1)) by lia.
  assert (2 ^ w <= 2 ^ 32) by (apply Z.pow_le_mono_r; lia).
  rewrite Z.shiftl_mul_pow2, Z.mul_1_l by lia. unfold uint32_t.
  rewrite (uint_id 32) by (unfold in_u; lia).
  unfold sint. replace (2 ^ (w - 1) + 2 ^ (w - 1)) with (2 ^ w) by lia.
  rewrite Z.mod_same by lia. lia.
Qed.

(** Below 32 bits the extreme value is always defined; at 32 bits for operands that
    are not positive. *)
Lemma ssat_extreme_val w x : 0 < w <= 32 -> w < 32 \/ x <= 0 ->
  ssat_extreme w x = Some (if 0 <? x then 2 ^ (w - 1) - 1 else - 2 ^ (w - 1), true).
Proof.
  intros Hw Hx. unfold ssat_extreme. cbn zeta. rewrite ssat_min_val by done.
  destruct (Z.ltb_spec 0 x); [|done].
  pose proof (pow2_double w ltac:(lia)) as E. assert (1 <= 2 ^ (w - 1)) by lia.
  assert (2 ^ w <= 2 ^ 31) by (apply Z.pow_le_mono_r; lia).
  rewrite c_int_Some by (unfold in_s; lia). cbn. do 2 f_equal. unfold sint.
  rewrite <- (Z.mod_add _ 1 (2 ^ w)) by lia. rewrite Z.mod_small; lia.
Qed.

Lemma ssat_extreme_None x : 0 < x -> ssat_extreme 32 x = None.
Proof. intros Hx. unfold ssat_extreme. by destruct (Z.ltb_spec 0 x); [|lia]. Qed.

Lemma sat_s_high w v : 0 < w -> 2 ^ (w - 1) <= v -> sat_s w v = 2 ^ (w - 1) - 1.
Proof. intros. unfold sat_s. assert (1 <= 2 ^ (w - 1)) by lia. lia. Qed.
Lemma sat_s_low w v : 0 < w -> v < - 2 ^ (w - 1) -> sat_s w v = - 2 ^ (w - 1).
Proof. intros. unfold sat_s. assert (1 <= 2 ^ (w - 1)) by lia. lia. Qed.

(** An out-of-range multiple of a non-zero [x] saturates on [x]'s side. *)
Lemma sat_s_mul w x k : 0 < w -> 0 < k -> ~ in_s w (x * k) ->
  sat_s w (x * k) = (if 0 <? x then 2 ^ (w - 1) - 1 else - 2 ^ (w - 1)) /\
  sat_s w (x * k) <> x * k.
Proof.
  intros Hw Hk Hn. unfold in_s in Hn. assert (1 <= 2 ^ (w - 1)) by lia.
  destruct (Z.ltb_spec 0 x).
  - assert (2 ^ (w - 1) <= x * k) by nia. rewrite sat_s_high by lia. lia.
  - assert (x * k < - 2 ^ (w - 1)) by nia. rewrite sat_s_low by lia. lia.
Qed.

Lemma sat_result_out_s w x k e : 0 < w -> 0 < k -> ~ in_s w (x * k) ->
  uint w e = uint w (if 0 <? x then 2 ^ (w - 1) - 1 else - 2 ^ (w - 1)) ->
  sat_result w (sat_s w) (x * k) (e, true).
Proof.
  intros Hw Hk Hn He. destruct (sat_s_mul w x k Hw Hk Hn) as [E Hne].
  split; cbn; [by rewrite E|]. by destruct (Z.eqb_spec (sat_s w (x * k)) (x * k)).
Qed.

Lemma shl_out_s w s x : 0 < w <= s -> x <> 0 -> ~ in_s w (x * 2 ^ s).
Proof.
  intros Hs Hx H. unfold in_s in H.
  assert (2 ^ (w - 1) < 2 ^ s) by (apply Z.pow_lt_mono_r; lia). nia.
Qed.

(** The outcome of a signed saturating element operation of exact value [v]: undefined
    exactly for a 32-bit element and a value above the largest one. *)
Definition ssat_ok (w v : Z) (r : option (Z * bool)) : Prop :=
  match r with
  | Some r => (w < 32 \/ v < 2 ^ 31) /\ sat_result w (sat_s w) v r
  | None => ~ (w < 32 \/ v < 2 ^ 31)
  end.

Lemma ssat_ok_in w v : 0 < w <= 32 -> in_s w v -> ssat_ok w v (Some (v, false)).
Proof.
  intros Hw Hv. split; [|by apply sat_result_in, sat_s_in]. unfold in_s in Hv.
  assert (2 ^ (w - 1) <= 2 ^ 31) by (apply Z.pow_le_mono_r; lia). lia.
Qed.

Lemma ssat_ok_out w x k : 0 < w <= 32 -> 0 < k -> ~ in_s w (x * k) ->
  ssat_ok w (x * k) (ssat_extreme w x).
Proof.
  intros Hw Hk Hn. destruct (decide (w < 32 \/ x <= 0)) as [Hd|Hd].
  - rewrite ssat_extreme_val by done. split; [destruct Hd; [lia|right; nia]|].
    by apply sat_result_out_s; [lia| | |].
  - assert (w = 32) as -> by lia. rewrite ssat_extreme_None by lia. unfold ssat_ok, in_s in *.
    change (32 - 1) with 31 in Hn. nia.
Qed.

Lemma shl_test_s w s x : 0 < w <= 32 -> 0 <= s < w -> in_s w x ->
  let dest := sint w (Z.shiftl x s) in
  ssat_ok w (x * 2 ^ s)
    (if negb (Z.shiftr dest s =? x) then ssat_extreme w x else Some (dest, false)).
Proof.
  intros Hw Hs Hx. cbn zeta. shift_norm.
  rewrite (shl_check w) by (lia || (apply uint_sint; lia)).
  destruct (Z.eqb_spec (sint w (x * 2 ^ s)) (x * 2 ^ s)) as [E|E]; cbn [negb].
  - rewrite E. apply ssat_ok_in; [done|]. rewrite <- E. apply sint_range. lia.
  - apply ssat_ok_out; [lia|lia|]. intros H. apply E, sint_id; [lia|done].
Qed.

Lemma FN_qshl_s_ok w x y : 0 < w <= 32 -> in_s w x -> ssat_ok w (shl_of x y) (FN_qshl_s w x y).
Proof.
  intros Hw Hx. unfold FN_qshl_s, shl_of, shl_ref, nz. cbn zeta. set (s := int8_t y).
  assert (in_s w 0) by (unfold in_s; lia).
  destruct (Z.leb_spec w s).
  { destruct (Z.leb_spec 0 s); [|lia]. destruct (Z.eqb_spec x 0) as [->|]; cbn [negb].
    - rewrite Z.mul_0_l. by apply ssat_ok_in.
    - apply ssat_ok_out; [lia|lia|apply shl_out_s; lia]. }
  destruct (Z.leb_spec s (- w)).
  { destruct (Z.leb_spec 0 s); [lia|]. shift_norm. rewrite !(shr_sign w) by (done || lia).
    apply ssat_ok_in; [done|]. unfold in_s in *. destruct (x <? 0); lia. }
  destruct (Z.ltb_spec s 0), (Z.leb_spec 0 s); try lia.
  - shift_norm. apply ssat_ok_in, shr_in_s; [done|lia|lia|done].
  - apply shl_test_s; [done|lia|done].
Qed.

Lemma FN_qrshl_s_ok w x y : 0 < w <= 32 -> in_s w x -> ssat_ok w (rshl_of x y) (FN_qrshl_s w x y).
Proof.
  intros Hw Hx. unfold FN_qrshl_s, rshl_of, rshl_ref, nz. cbn zeta. set (s := int8_t y).
  assert (in_s w 0) by (unfold in_s; lia).
  destruct (Z.leb_spec w s).
  { destruct (Z.leb_spec 0 s); [|lia]. destruct (Z.eqb_spec x 0) as [->|]; cbn [negb].
    - rewrite Z.mul_0_l. by apply ssat_ok_in.
    - apply ssat_ok_out; [lia|lia|apply shl_out_s; lia]. }
  destruct (Z.leb_spec s (- w)).
  { destruct (Z.leb_spec 0 s); [lia|]. rewrite (round_small_s w) by (done || lia).
    by apply ssat_ok_in. }
  destruct (Z.ltb_spec s 0), (Z.leb_spec 0 s); try lia.
  - rewrite round_const by lia. shift_norm. apply ssat_ok_in, round_in_s; [done|lia|lia|done].
  - apply shl_test_s; [done|lia|done].
Qed.

(** As an element operation that may overflow. *)
Lemma FN_ssat_int w (fn : Z -> Z -> option (Z * bool)) f (def : Z -> Z -> Prop) :
  (forall x y, in_s w x -> ssat_ok w (f x y) (fn x y)) ->
  (forall x y, def x y <-> (w < 32 \/ f x y < 2 ^ 31)) ->
  fn_int true w def (fun x y r => sat_result w (sat_s w) (f x y) r) fn.
Proof.
  intros H Hd x y Hx _. specialize (H x y Hx). unfold ssat_ok in H.
  destruct (fn x y); rewrite Hd; done.
Qed.

(** Signed operand, unsigned result. *)
Lemma neg_shl_ref x s : x < 0 -> shl_ref x s < 0.
Proof.
  intros Hx. unfold shl_ref. destruct (Z.leb_spec 0 s); [nia|].
  apply Z.div_lt_upper_bound; lia.
Qed.

Lemma sat_result_low_u w v : 0 <= w -> v < 0 -> sat_result w (sat_u w) v (0, true).
Proof.
  intros Hw Hv. assert (sat_u w v = 0) as E by (unfold sat_u; lia).
  split; cbn; rewrite E; [done|]. destruct (Z.eqb_spec 0 v); [lia|done].
Qed.

Lemma FN_qshlu_ok w x y : 0 < w -> in_u w x ->
  sat_result w (sat_u w) (shl_of (sint w x) y) (FN_qshlu w x y).
Proof.
  intros Hw Hx. unfold FN_qshlu.
  rewrite Z.shiftl_mul_pow2, Z.mul_1_l by lia.
  pose proof (sign_xor w x 0 Hw Hx ltac:(unfold in_u; lia)) as E. rewrite Z.lxor_0_r in E.
  rewrite E. pose proof (pow2_double w Hw). assert (1 <= 2 ^ (w - 1)) by lia.
  destruct (Z.leb_spec (2 ^ (w - 1)) 0); [lia|]. rewrite xorb_false_r.
  unfold in_u in Hx. destruct (Z.leb_spec (2 ^ (w - 1)) x).
  - apply sat_result_low_u; [lia|]. apply neg_shl_ref.
    unfold sint. rewrite <- (Z.mod_add _ (-1) (2 ^ w)), Z.mod_small by lia. lia.
  - rewrite sint_id by (unfold in_s; lia). apply FN_qshl_u_ok; [done|done].
Qed.

(** ** The 32- and 64-bit forms *)

Lemma whole_of sg w st v f r : sat_result w st v r ->
  whole_sat sg w st v f (uint w r.1, qc_if r.2 f).
Proof. intros [H1 H2]. split; cbn; [done|by rewrite H2]. Qed.

Lemma neon_shl_u64_ok v s : in_u 64 v -> neon_shl_u64 v s = uint64_t (shl_of v s).
Proof.
  intros Hv. unfold uint64_t. rewrite <- FN_shl_u_ok by (done || lia).
  unfold neon_shl_u64, FN_shl_u. cbn zeta. change (- (64)) with (-64).
  destruct (_ || _); [done|]. destruct (Z.ltb_spec (int8_t s) 0); [|done].
  symmetry. apply uint_id. shift_norm. apply shr_in_u; [lia|done].
Qed.

Lemma neon_shl_s64_ok v s : neon_shl_s64 v s = uint64_t (shl_of (int64_t v) s).
Proof.
  unfold uint64_t. rewrite <- FN_shl_s_ok by (lia || apply sint_range; lia).
  unfold neon_shl_s64, FN_shl_s. cbn zeta. change (64 - 1) with 63. change (- (64)) with (-64).
  destruct (64 <=? _); [done|]. destruct (_ <=? -64); [done|]. destruct (_ <? 0); [done|].
  by apply uint_sint.
Qed.

Lemma neon_rshl_s32_ok v s : neon_rshl_s32 v s = uint32_t (rshl_of (int32_t v) s).
Proof.
  assert (in_s 32 (int32_t v)) as Hv by (apply sint_range; lia).
  unfold uint32_t. rewrite <- FN_rshl_s_ok by (lia || done).
  unfold neon_rshl_s32, FN_rshl_s. cbn zeta. change (- (32)) with (-32).
  destruct (Z.leb_spec 32 (int8_t s)); [done|]. destruct (Z.leb_spec (int8_t s) (-32)); [done|].
  cbn [orb]. destruct (Z.ltb_spec (int8_t s) 0); [|by apply uint_sint].
  unfold uint32_t. rewrite (uint_sint 32) by lia. do 2 f_equal.
  apply sint_id; [lia|]. rewrite round_const by lia.
  assert (2 ^ (- int8_t s - 1) <= 2 ^ 31) by (apply Z.pow_le_mono_r; lia).
  unfold in_s in *. change (2 ^ (32 - 1)) with (2 ^ 31) in Hv.
  change (2 ^ (64 - 1)) with 9223372036854775808. change (2 ^ 31) with 2147483648 in *. lia.
Qed.

(** [val >> (-shift - 1)], plus one, halved: the overflow the source avoids by
    the special case cannot change the result. *)
Lemma round_shift_halves x s : s < 0 ->
  Z.shiftr (Z.shiftr x (- s - 1) + 1) 1 = (x + 2 ^ (- s - 1)) / 2 ^ (- s).
Proof. intros Hs. shift_norm. change (2 ^ 1) with 2. apply round_halves. lia. Qed.

Lemma round_shift_once x s : s < 0 ->
  Z.shiftr (x + 2 ^ (- s - 1)) (- s) = Z.shiftr (Z.shiftr x (- s - 1) + 1) 1.
Proof. intros Hs. rewrite round_shift_halves by done. by rewrite Z.shiftr_div_pow2 by lia. Qed.

Lemma neon_rshl_s64_ok v s : neon_rshl_s64 v s = uint64_t (rshl_of (int64_t v) s).
Proof.
  assert (in_s 64 (int64_t v)) as Hv by (apply sint_range; lia).
  unfold uint64_t. rewrite <- FN_rshl_s_ok by (lia || done).
  unfold neon_rshl_s64, FN_rshl_s. cbn zeta. change (- (64)) with (-64).
  destruct (_ || _); [done|]. destruct (Z.ltb_spec (int8_t s) 0); [|by apply uint_sint].
  rewrite round_const, round_shift_once by lia.
  destruct (Z.eqb_spec (Z.shiftr (int64_t v) (- int8_t s - 1)) INT64_MAX) as [->|]; [|done].
  reflexivity.
Qed.

Lemma neon_rshl_u32_ok v s : in_u 32 v -> neon_rshl_u32 v s = uint32_t (rshl_of v s).
Proof.
  intros Hv. unfold uint32_t. rewrite <- FN_rshl_u_ok by (lia || done).
  unfold neon_rshl_u32, FN_rshl_u. cbn zeta. change (- (32)) with (-32).
  destruct (Z.leb_spec 32 (int8_t s)); [done|]. destruct (Z.ltb_spec (int8_t s) (-32)); [done|].
  cbn [orb]. destruct (Z.eqb_spec (int8_t s) (-32)) as [E|].
  { rewrite E. symmetry. apply uint_id. shift_norm. apply shr_in_u; [lia|done]. }
  destruct (Z.ltb_spec (int8_t s) 0); [|done].
  unfold uint32_t. do 2 f_equal. apply uint_id. rewrite round_const by lia.
  assert (2 ^ (- int8_t s - 1) <= 2 ^ 31) by (apply Z.pow_le_mono_r; lia).
  unfold in_u in *. change (2 ^ 32) with 4294967296 in Hv.
  change (2 ^ 64) with 18446744073709551616. change (2 ^ 31) with 2147483648 in *. lia.
Qed.

Lemma neon_rshl_u64_ok v s : in_u 64 v -> neon_rshl_u64 v s = uint64_t (rshl_of v s).
Proof.
  intros Hv. unfold uint64_t. rewrite <- FN_rshl_u_ok by (lia || done).
  unfold neon_rshl_u64, FN_rshl_u. cbn zeta. change (- (64)) with (-64).
  assert (int8_t (uint8_t s) = int8_t s) as -> by (apply sint_uint; lia).
  destruct (_ || _); [done|].
  destruct (Z.eqb_spec (int8_t s) (-64)) as [E|].
  { rewrite E. symmetry. apply uint_id. shift_norm. apply shr_in_u; [lia|done]. }
  destruct (Z.ltb_spec (int8_t s) 0); [|done].
  rewrite round_const, round_shift_once by lia.
  destruct (Z.eqb_spec (Z.shiftr v (- int8_t s - 1)) U64_MAX) as [->|]; [reflexivity|].
  symmetry. apply uint_id. rewrite round_shift_halves by lia. apply round_in_u; [lia|lia|done].
Qed.

Lemma neon_qshl_u64_ok f v s : in_u 64 v ->
  whole_sat false 64 (sat_u 64) (shl_of v s) f (neon_qshl_u64 f v s).
Proof.
  intros Hv. pose proof (whole_of false 64 (sat_u 64) (shl_of v s) f _ (FN_qshl_u_ok 64 v s ltac:(lia) Hv)) as H.
  revert H. unfold neon_qshl_u64, FN_qshl_u. cbn zeta. change (- (64)) with (-64).
  destruct (64 <=? _); [destruct (Z.eqb_spec v 0) as [->|]; unfold nz; cbn;
    [done|destruct (Z.eqb_spec v 0); done]|].
  destruct (_ <=? -64); [done|].
  destruct (Z.ltb_spec (int8_t s) 0).
  - cbn. rewrite uint_id; [done|]. shift_norm. apply shr_in_u; [lia|done].
  - unfold uint64_t. destruct (negb _); cbn; [done|]. by rewrite uint_uint by lia.
Qed.

Lemma neon_qrshl_u32_ok f v s : in_u 32 v ->
  whole_sat false 32 (sat_u 32) (rshl_of v s) f (neon_qrshl_u32 f v s).
Proof.
  intros Hv. pose proof (whole_of false 32 (sat_u 32) (rshl_of v s) f _ (FN_qrshl_u_ok 32 v s ltac:(lia) Hv)) as H.
  revert H. unfold neon_qrshl_u32, FN_qrshl_u. cbn zeta. change (- (32)) with (-32).
  change (32 - 1) with 31.
  destruct (Z.leb_spec 32 (int8_t s)); [by destruct (nz v)|].
  destruct (Z.ltb_spec (int8_t s) (-32)); [done|].
  destruct (Z.eqb_spec (int8_t s) (-32)).
  { cbn. rewrite uint_id; [done|]. shift_norm. apply shr_in_u; [lia|done]. }
  destruct (Z.ltb_spec (int8_t s) 0).
  - cbn [fst snd qc_if]. unfold uint64_t. rewrite (uint_id 64); [done|]. rewrite round_const by lia.
    assert (2 ^ (- int8_t s - 1) <= 2 ^ 31) by (apply Z.pow_le_mono_r; lia).
    unfold in_u in *. change (2 ^ 32) with 4294967296 in Hv.
    change (2 ^ 64) with 18446744073709551616. change (2 ^ 31) with 2147483648 in *. lia.
  - unfold uint32_t. destruct (negb _); cbn; [done|]. by rewrite uint_uint by lia.
Qed.

Lemma neon_qrshl_u64_ok f v s : in_u 64 v ->
  whole_sat false 64 (sat_u 64) (rshl_of v s) f (neon_qrshl_u64 f v s).
Proof.
  intros Hv. pose proof (whole_of false 64 (sat_u 64) (rshl_of v s) f _ (FN_qrshl_u_ok 64 v s ltac:(lia) Hv)) as H.
  revert H. unfold neon_qrshl_u64, FN_qrshl_u. cbn zeta. change (- (64)) with (-64).
  change (64 - 1) with 63.
  destruct (Z.leb_spec 64 (int8_t s)).
  { unfold nz. destruct (Z.eqb_spec v 0) as [->|]; done. }
  destruct (Z.ltb_spec (int8_t s) (-64)); [done|].
  destruct (Z.eqb_spec (int8_t s) (-64)).
  { cbn. rewrite uint_id; [done|]. shift_norm. apply shr_in_u; [lia|done]. }
  destruct (Z.ltb_spec (int8_t s) 0).
  - cbn [fst snd qc_if]. rewrite round_const, round_shift_once by lia.
    rewrite uint_id by (rewrite round_shift_halves by lia; apply round_in_u; [lia|lia|done]).
    destruct (Z.eqb_spec (Z.shiftr v (- int8_t s - 1)) U64_MAX) as [->|]; done.
  - unfold uint64_t. destruct (negb _); cbn [fst snd]; [done|]. by rewrite uint_uint by lia.
Qed.

Lemma sat32_of_val x : in_s 32 x ->
  sat32_of x = uint 32 (if 0 <=? x then 2 ^ (32 - 1) - 1 else - 2 ^ (32 - 1)).
Proof.
  intros Hx. unfold sat32_of. change 31 with (32 - 1). rewrite shiftr_sign by (done || lia).
  destruct (Z.ltb_spec x 0), (Z.leb_spec 0 x); (lia || reflexivity).
Qed.
Lemma sat64_of_val x : in_s 64 x ->
  sat64_of x = uint 64 (if 0 <=? x then 2 ^ (64 - 1) - 1 else - 2 ^ (64 - 1)).
Proof.
  intros Hx. unfold sat64_of. change 63 with (64 - 1). rewrite shiftr_sign by (done || lia).
  destruct (Z.ltb_spec x 0), (Z.leb_spec 0 x); (lia || reflexivity).
Qed.

(** The extreme values agree on the operands that can overflow. *)
Lemma extreme_sides w x k : 0 < w -> ~ in_s w (x * k) ->
  (if 0 <=? x then 2 ^ (w - 1) - 1 else - 2 ^ (w - 1)) =
  (if 0 <? x then 2 ^ (w - 1) - 1 else - 2 ^ (w - 1)).
Proof.
  intros Hw Hn. destruct (Z.leb_spec 0 x), (Z.ltb_spec 0 x); try lia; try done.
  exfalso. apply Hn. assert (x = 0) as -> by lia. unfold in_s. assert (1 <= 2 ^ (w - 1)) by lia. lia.
Qed.

(** The signed left shift of the wide forms. *)
Lemma shl_test_wide w s x e : 0 <= s < w -> in_s w x ->
  uint w e = uint w (if 0 <? x then 2 ^ (w - 1) - 1 else - 2 ^ (w - 1)) ->
  let dest := sint w (Z.shiftl x s) in
  sat_result w (sat_s w) (x * 2 ^ s)
    (if negb (Z.shiftr dest s =? x) then (e, true) else (dest, false)).
Proof.
  intros Hs Hx He. cbn zeta. shift_norm.
  rewrite (shl_check w) by (lia || (apply uint_sint; lia)).
  destruct (Z.eqb_spec (sint w (x * 2 ^ s)) (x * 2 ^ s)) as [E|E]; cbn [negb].
  - rewrite E. apply sat_result_in, sat_s_in. rewrite <- E. apply sint_range. lia.
  - apply sat_result_out_s; [lia|lia| |done]. intros H. apply E, sint_id; [lia|done].
Qed.

Lemma shl_wide_s w s x f e : 0 <= s < w -> in_s w x ->
  e = uint w (if 0 <=? x then 2 ^ (w - 1) - 1 else - 2 ^ (w - 1)) ->
  let dest := sint w (Z.shiftl x s) in
  whole_sat true w (sat_s w) (x * 2 ^ s) f
    (if negb (Z.shiftr dest s =? x) then (e, SET_QC f) else (uint w dest, f)).
Proof.
  intros Hs Hx He. cbn zeta.
  pose proof (shl_test_wide w s x (if 0 <? x then 2 ^ (w - 1) - 1 else - 2 ^ (w - 1)) Hs Hx eq_refl) as H.
  cbn zeta in H. apply (whole_of true w (sat_s w) _ f) in H. revert H.
  destruct (negb _) eqn:E; cbn [fst snd qc_if]; [|done].
  intros H. rewrite He, (extreme_sides w x (2 ^ s)); [done|lia|].
  intros Hin. destruct H as [_ H2]. cbn in H2. revert E. shift_norm.
  rewrite (sint_id w) by (done || lia). rewrite Z.div_mul by lia. by rewrite Z.eqb_refl.
Qed.

Lemma big_shl_wide_s w s x f e : 0 < w <= s -> in_s w x ->
  e = uint w (if 0 <=? x then 2 ^ (w - 1) - 1 else - 2 ^ (w - 1)) -> x <> 0 ->
  whole_sat true w (sat_s w) (x * 2 ^ s) f (e, SET_QC f).
Proof.
  intros Hs Hx -> Hne. pose proof (shl_out_s w s x Hs Hne) as Ho.
  rewrite (extreme_sides w x (2 ^ s)) by (done || lia).
  apply (whole_of true w (sat_s w) (x * 2 ^ s) f (_, true)).
  apply sat_result_out_s; [lia|lia|done|done].
Qed.

Lemma whole_in_s w v f : 0 < w -> in_s w v -> whole_sat true w (sat_s w) v f (uint w v, f).
Proof.
  intros Hw Hv. apply (whole_of true w (sat_s w) v f (v, false)). by apply sat_result_in, sat_s_in.
Qed.

Lemma neon_qshl_s64_ok f v s :
  whole_sat true 64 (sat_s 64) (shl_of (int64_t v) s) f (neon_qshl_s64 f v s).
Proof.
  assert (in_s 64 (int64_t v)) as Hv by (apply sint_range; lia).
  unfold neon_qshl_s64, shl_of, shl_ref. cbn zeta.
  assert (int8_t (uint8_t s) = int8_t s) as -> by (apply sint_uint; lia).
  set (x := int64_t v) in *. set (k := int8_t s).
  assert (in_s 64 0) as H0 by (unfold in_s; lia).
  destruct (Z.leb_spec 64 k).
  { destruct (Z.leb_spec 0 k); [|lia]. unfold nz. destruct (Z.eqb_spec x 0) as [->|]; cbn [negb].
    - rewrite Z.mul_0_l. by apply whole_in_s.
    - apply big_shl_wide_s; [lia|done|by apply sat64_of_val|done]. }
  destruct (Z.leb_spec k (-64)).
  { destruct (Z.leb_spec 0 k); [lia|].
    assert (Z.shiftr x 63 = x / 2 ^ (- k)) as ->
      by (shift_norm; by rewrite !(shr_sign 64) by (done || lia)).
    apply whole_in_s; [lia|]. apply shr_in_s; [lia|lia|done]. }
  destruct (Z.ltb_spec k 0), (Z.leb_spec 0 k); try lia.
  - rewrite Z.shiftr_div_pow2 by lia. apply whole_in_s; [lia|]. apply shr_in_s; [lia|lia|done].
  - apply shl_wide_s; [lia|done|by apply sat64_of_val].
Qed.

Lemma neon_qrshl_s32_ok f v s :
  whole_sat true 32 (sat_s 32) (rshl_of (int32_t v) s) f (neon_qrshl_s32 f v s).
Proof.
  assert (in_s 32 (int32_t v)) as Hv by (apply sint_range; lia).
  unfold neon_qrshl_s32, rshl_of, rshl_ref. cbn zeta.
  set (x := int32_t v) in *. set (k := int8_t s).
  assert (in_s 32 0) as H0 by (unfold in_s; lia).
  destruct (Z.leb_spec 32 k).
  { destruct (Z.leb_spec 0 k); [|lia]. unfold nz. destruct (Z.eqb_spec x 0) as [->|]; cbn [negb].
    - rewrite Z.mul_0_l. by apply whole_in_s.
    - apply big_shl_wide_s; [lia|done|by apply sat32_of_val|done]. }
  destruct (Z.leb_spec k (-32)).
  { destruct (Z.leb_spec 0 k); [lia|]. rewrite (round_small_s 32) by (done || lia).
    by apply whole_in_s. }
  destruct (Z.ltb_spec k 0), (Z.leb_spec 0 k); try lia.
  - unfold uint32_t, int32_t, int64_t. rewrite (uint_sint 32), round_const by lia.
    rewrite (sint_id 64); [|lia|].
    + rewrite Z.shiftr_div_pow2 by lia. apply whole_in_s; [lia|]. apply round_in_s; [lia|lia|done].
    + assert (2 ^ (- k - 1) <= 2 ^ 31) by (apply Z.pow_le_mono_r; lia).
      unfold in_s in *. change (2 ^ (32 - 1)) with (2 ^ 31) in Hv.
      change (2 ^ (64 - 1)) with 9223372036854775808. change (2 ^ 31) with 2147483648 in *. lia.
  - apply shl_wide_s; [lia|done|by apply sat32_of_val].
Qed.

Lemma neon_qrshl_s64_ok f v s :
  whole_sat true 64 (sat_s 64) (rshl_of (int64_t v) s) f (neon_qrshl_s64 f v s).
Proof.
  assert (in_s 64 (int64_t v)) as Hv by (apply sint_range; lia).
  unfold neon_qrshl_s64, rshl_of, rshl_ref. cbn zeta.
  assert (int8_t (uint8_t s) = int8_t s) as -> by (apply sint_uint; lia).
  set (x := int64_t v) in *. set (k := int8_t s).
  assert (in_s 64 0) as H0 by (unfold in_s; lia).
  destruct (Z.leb_spec 64 k).
  { destruct (Z.leb_spec 0 k); [|lia]. unfold nz. destruct (Z.eqb_spec x 0) as [->|]; cbn [negb].
    - rewrite Z.mul_0_l. by apply whole_in_s.
    - apply big_shl_wide_s; [lia|done|by apply sat64_of_val|done]. }
  destruct (Z.leb_spec k (-64)).
  { destruct (Z.leb_spec 0 k); [lia|]. rewrite (round_small_s 64) by (done || lia).
    by apply whole_in_s. }
  destruct (Z.ltb_spec k 0), (Z.leb_spec 0 k); try lia.
  - rewrite <- round_shift_halves by lia.
    assert (in_s 64 (Z.shiftr (Z.shiftr x (- k - 1) + 1) 1)) as H'
      by (rewrite round_shift_halves by lia; apply round_in_s; [lia|lia|done]).
    apply (whole_in_s 64 _ f ltac:(lia)) in H'.
    destruct (Z.eqb_spec (Z.shiftr x (- k - 1)) INT64_MAX) as [E|]; [|done].
    rewrite E in H' |- *. exact H'.
  - apply shl_wide_s; [lia|done|by apply sat64_of_val].
Qed.

(** ** The theorems *)

Lemma in_u32_arg v : in_u 32 (uint32_t v).
Proof. apply uint_range. lia. Qed.
Lemma in_u64_arg v : in_u 64 (uint64_t v).
Proof. apply uint_range. lia. Qed.

#[local] Create HintDb neon_shift.
#[local] Hint Resolve FN_shl_u_ok FN_shl_s_ok FN_rshl_u_ok FN_rshl_s_ok : neon_shift.
#[local] Hint Extern 1 (_ < _) => lia : neon_shift.

(** Element-wise helpers reduce to their element lemmas. *)
Ltac neon_vop := apply NEON_VOP_lanewise; [lia|intros; eauto with neon_shift].
Ltac neon_vop_env :=
  apply NEON_VOP_ENV_sat; [lia|];
  intros x y Hx Hy;
  first [apply FN_qshl_u_ok | apply FN_qrshl_u_ok | apply FN_qshlu_ok]; (done || lia).
Ltac neon_vop_env_int :=
  apply NEON_VOP_ENV_int_sat; [lia|];
  apply FN_ssat_int; [intros; (apply FN_qshl_s_ok || apply FN_qrshl_s_ok); (done || lia)|];
  intros; lia.

(** The plain variable shift multiplies every lane by two to the signed shift
    amount, rounding towards minus infinity and reducing modulo the lane width, for
    every amount in [-128, 127], those beyond the width of the lane included. *)
Lemma neon_shl_correct a b :
  lanewise false 8 4 shl_of (neon_shl_u8 a b) a b /\
  lanewise true 8 4 shl_of (neon_shl_s8 a b) a b /\
  lanewise false 16 2 shl_of (neon_shl_u16 a b) a b /\
  lanewise true 16 2 shl_of (neon_shl_s16 a b) a b /\
  lanewise false 32 1 shl_of (neon_shl_u32 a b) a b /\
  lanewise true 32 1 shl_of (neon_shl_s32 a b) a b /\
  neon_shl_u64 (uint64_t a) b = uint64_t (shl_of (uint64_t a) b) /\
  neon_shl_s64 a b = uint64_t (shl_of (int64_t a) b).
Proof.
  split_and!; try neon_vop; [apply neon_shl_u64_ok, in_u64_arg|apply neon_shl_s64_ok].
Qed.

(** The rounding shift adds half of the last place before a right shift,
    without losing the carry out of the lane, for every amount; the 64-bit forms
    reach the same result although they cannot hold the intermediate sum. *)
Lemma neon_rshl_correct a b :
  lanewise false 8 4 rshl_of (neon_rshl_u8 a b) a b /\
  lanewise true 8 4 rshl_of (neon_rshl_s8 a b) a b /\
  lanewise false 16 2 rshl_of (neon_rshl_u16 a b) a b /\
  lanewise true 16 2 rshl_of (neon_rshl_s16 a b) a b /\
  neon_rshl_u32 (uint32_t a) b = uint32_t (rshl_of (uint32_t a) b) /\
  neon_rshl_s32 a b = uint32_t (rshl_of (int32_t a) b) /\
  neon_rshl_u64 (uint64_t a) b = uint64_t (rshl_of (uint64_t a) b) /\
  neon_rshl_s64 a b = uint64_t (rshl_of (int64_t a) b).
Proof.
  split_and!; try neon_vop; [apply neon_rshl_u32_ok, in_u32_arg|apply neon_rshl_s32_ok
    |apply neon_rshl_u64_ok, in_u64_arg|apply neon_rshl_s64_ok].
Qed.

(** Lanes read as signed, result clamped to the unsigned type. *)
Definition qshlu_of (w x y : Z) : Z := shl_of (sint w x) y.

(** A vector of a single lane. *)
Lemma NEON_VOP_ENV_single (sg : bool) w fn f a b : 0 < w ->
  NEON_VOP_ENV sg w 1 fn f a b =
  (uint w (fn (elem sg w a) (elem sg w b)).1, qc_if (fn (elem sg w a) (elem sg w b)).2 f).
Proof.
  intros Hw. unfold NEON_VOP_ENV, NEON_PACK, NEON_UNPACK, unpack.
  cbn -[elem uint lane pack]. rewrite !elem_lane, Z.mul_0_r, !Z.shiftr_0_r by lia.
  f_equal. unfold pack. by rewrite Z.shiftl_0_l, Z.lor_0_r.
Qed.

Lemma sint_nonneg w x : 0 < w -> 0 <= sint w x -> sint w x = uint w x.
Proof.
  intros Hw H. pose proof (sint_range w x Hw) as Hr. unfold in_s in Hr.
  rewrite <- (uint_sint w x) by lia. symmetry. apply uint_id. unfold in_u.
  rewrite (pow2_double w) by lia. lia.
Qed.

Lemma shl_of_uint32 x s : shl_of x (uint 32 s) = shl_of x s.
Proof.
  unfold shl_of, int8_t. f_equal. unfold sint, uint. f_equal.
  rewrite Zplus_mod, (Zplus_mod s). do 2 f_equal.
  apply Z.mod_mod_divide. by exists (2 ^ 24).
Qed.

Lemma neon_qshlu_s32_ok f v s :
  whole_sat false 32 (sat_u 32) (shl_of (int32_t v) s) f (neon_qshlu_s32 f v s).
Proof.
  unfold neon_qshlu_s32. destruct (Z.ltb_spec (int32_t v) 0) as [H|H].
  - apply (whole_of false 32 (sat_u 32) _ f (0, true)), sat_result_low_u; [lia|]. by apply neg_shl_ref.
  - unfold neon_qshl_u32. rewrite NEON_VOP_ENV_single by lia.
    apply (whole_of false 32 (sat_u 32) _ f (FN_qshl_u 32 _ _)).
    rewrite <- (shl_of_uint32 _ s). unfold int32_t in *. rewrite sint_nonneg by (done || lia).
    apply FN_qshl_u_ok; [lia|apply uint_range; lia].
Qed.

Lemma neon_qshlu_s64_ok f v s : in_u 64 v ->
  whole_sat false 64 (sat_u 64) (shl_of (int64_t v) s) f (neon_qshlu_s64 f v s).
Proof.
  intros Hv. unfold neon_qshlu_s64. destruct (Z.ltb_spec (int64_t v) 0) as [H|H].
  - apply (whole_of false 64 (sat_u 64) _ f (0, true)), sat_result_low_u; [lia|]. by apply neg_shl_ref.
  - unfold int64_t in *. rewrite sint_nonneg, uint_id by (done || lia). by apply neon_qshl_u64_ok.
Qed.

(** The saturating shifts clamp the exact shifted value to the element type
    and set the cumulative flag exactly when some lane was clamped; the forms with
    a signed operand and an unsigned result clamp negative lanes to zero.  The signed
    32-bit form is undefined exactly where it would have to clamp to the maximum. *)
Lemma neon_qshl_correct f a b :
  lanewise_sat false 8 4 (sat_u 8) shl_of f (neon_qshl_u8 f a b) a b /\
  lanewise_sat false 16 2 (sat_u 16) shl_of f (neon_qshl_u16 f a b) a b /\
  lanewise_sat false 32 1 (sat_u 32) shl_of f (neon_qshl_u32 f a b) a b /\
  lanewise_sat_int true 8 4 (fun _ _ => True) (sat_s 8) shl_of f (neon_qshl_s8 f a b) a b /\
  lanewise_sat_int true 16 2 (fun _ _ => True) (sat_s 16) shl_of f (neon_qshl_s16 f a b) a b /\
  lanewise_sat_int true 32 1 (fun x y => shl_of x y < 2 ^ 31) (sat_s 32) shl_of f (neon_qshl_s32 f a b) a b /\
  lanewise_sat false 8 4 (sat_u 8) (qshlu_of 8) f (neon_qshlu_s8 f a b) a b /\
  lanewise_sat false 16 2 (sat_u 16) (qshlu_of 16) f (neon_qshlu_s16 f a b) a b /\
  whole_sat false 32 (sat_u 32) (shl_of (int32_t a) b) f (neon_qshlu_s32 f a b) /\
  whole_sat false 64 (sat_u 64) (shl_of (uint64_t a) b) f (neon_qshl_u64 f (uint64_t a) b) /\
  whole_sat true 64 (sat_s 64) (shl_of (int64_t a) b) f (neon_qshl_s64 f a b) /\
  whole_sat false 64 (sat_u 64) (shl_of (int64_t (uint64_t a)) b) f
    (neon_qshlu_s64 f (uint64_t a) b).
Proof.
  split_and!; try neon_vop_env; try neon_vop_env_int.
  - apply neon_qshlu_s32_ok.
  - apply neon_qshl_u64_ok, in_u64_arg.
  - apply neon_qshl_s64_ok.
  - apply neon_qshlu_s64_ok, in_u64_arg.
Qed.

(** The saturating rounding shifts clamp the exact rounded value to the
    element type and set the cumulative flag exactly when some lane was clamped,
    at every element width. *)
Lemma neon_qrshl_correct f a b :
  lanewise_sat false 8 4 (sat_u 8) rshl_of f (neon_qrshl_u8 f a b) a b /\
  lanewise_sat false 16 2 (sat_u 16) rshl_of f (neon_qrshl_u16 f a b) a b /\
  lanewise_sat_int true 8 4 (fun _ _ => True) (sat_s 8) rshl_of f (neon_qrshl_s8 f a b) a b /\
  lanewise_sat_int true 16 2 (fun _ _ => True) (sat_s 16) rshl_of f (neon_qrshl_s16 f a b) a b /\
  whole_sat false 32 (sat_u 32) (rshl_of (uint32_t a) b) f (neon_qrshl_u32 f (uint32_t a) b) /\
  whole_sat true 32 (sat_s 32) (rshl_of (int32_t a) b) f (neon_qrshl_s32 f a b) /\
  whole_sat false 64 (sat_u 64) (rshl_of (uint64_t a) b) f (neon_qrshl_u64 f (uint64_t a) b) /\
  whole_sat true 64 (sat_s 64) (rshl_of (int64_t a) b) f (neon_qrshl_s64 f a b).
Proof.
  split_and!; try neon_vop_env; try neon_vop_env_int; [apply neon_qrshl_u32_ok, in_u32_arg|apply neon_qrshl_s32_ok
    |apply neon_qrshl_u64_ok, in_u64_arg|apply neon_qrshl_s64_ok].
Qed.

