(* ===== verification/NeonNarrow.v ===== *)
(** * NEON helpers: narrowing and doubling multiplication

    The helpers of src/emul/qemu/target-arm/neon_helper.c that narrow the lanes of a
    64-bit operand, with their high-half, rounding and saturating forms, and the
    doubling multiplications that return the high half.

    Every helper is specified by the list of the exact results of its lanes,
    reduced modulo the lane width ([lanes]) or clamped to it ([lanes_sat]). *)

From S2P Require Import Prelude NeonBase NeonArith.
Open Scope Z_scope.

(** ** Saturating doubling multiplication, high half

    [NEON_QDMULH16] and [NEON_QDMULH32] are the same text with elements of [h]
    bits and an unsigned temporary of [2 h]; [SIGNBIT] is the temporary's top bit. *)

Definition NEON_QDMULH (h : Z) (round : bool) (src1 src2 : Z) : Z * bool :=
  let w := 2 * h in
  let signbit := 2 ^ (w - 1) in
  let tmp := uint w (sint h src1 * sint h src2) in
  let '(tmp, qc) :=
    if nz (Z.land (Z.lxor tmp (uint w (Z.shiftl tmp 1))) signbit)
    then (Z.lxor (Z.shiftr tmp (w - 1)) (uint w (Z.lnot signbit)), true)
    else (uint w (Z.shiftl tmp 1), false) in
  let '(tmp, qc) :=
    if round then
      let old := sint w tmp in
      let tmp := uint w (tmp + Z.shiftl 1 (h - 1)) in
      if sint w tmp <? old then (signbit - 1, true) else (tmp, qc)
    else (tmp, qc) in
  (Z.shiftr tmp h, qc).

Definition neon_qdmulh_s16 := NEON_VOP_ENV true 16 2 (NEON_QDMULH 16 false).
Definition neon_qrdmulh_s16 := NEON_VOP_ENV true 16 2 (NEON_QDMULH 16 true).
Definition neon_qdmulh_s32 := NEON_VOP_ENV true 32 1 (NEON_QDMULH 32 false).
Definition neon_qrdmulh_s32 := NEON_VOP_ENV true 32 1 (NEON_QDMULH 32 true).

(** ** Narrowing *)

Definition neon_narrow_u8 (x : Z) : Z :=
  uint32_t (Z.lor (Z.lor (Z.lor (Z.land x 0xff) (Z.land (Z.shiftr x 8) 0xff00))
    (Z.land (Z.shiftr x 16) 0xff0000)) (Z.land (Z.shiftr x 24) 0xff000000)).

Definition neon_narrow_u16 (x : Z) : Z :=
  uint32_t (Z.lor (Z.land x 0xffff) (Z.land (Z.shiftr x 16) 0xffff0000)).

Definition neon_narrow_high_u8 (x : Z) : Z :=
  uint32_t (Z.lor (Z.lor (Z.lor (Z.land (Z.shiftr x 8) 0xff) (Z.land (Z.shiftr x 16) 0xff00))
    (Z.land (Z.shiftr x 24) 0xff0000)) (Z.land (Z.shiftr x 32) 0xff000000)).

Definition neon_narrow_high_u16 (x : Z) : Z :=
  uint32_t (Z.lor (Z.land (Z.shiftr x 16) 0xffff) (Z.land (Z.shiftr x 32) 0xffff0000)).

Definition neon_narrow_round_high_u8 (x : Z) : Z :=
  let x := Z.land x 0xff80ff80ff80ff80 in
  let x := uint64_t (x + 0x0080008000800080) in
  uint32_t (Z.lor (Z.lor (Z.lor (Z.land (Z.shiftr x 8) 0xff) (Z.land (Z.shiftr x 16) 0xff00))
    (Z.land (Z.shiftr x 24) 0xff0000)) (Z.land (Z.shiftr x 32) 0xff000000)).

Definition neon_narrow_round_high_u16 (x : Z) : Z :=
  let x := Z.land x 0xffff8000ffff8000 in
  let x := uint64_t (x + 0x0000800000008000) in
  uint32_t (Z.lor (Z.land (Z.shiftr x 16) 0xffff) (Z.land (Z.shiftr x 32) 0xffff0000)).

(** ** Saturating narrowing

    The [SAT8(n)] macros as steps on the pair of the result so far and FPSCR. *)

Definition SAT8_unarrow (x n : Z) (st : Z * Z) : Z * Z :=
  let '(res, fpscr) := st in
  let s := uint16_t (Z.shiftr x n) in
  if nz (Z.land s 0x8000) then (res, SET_QC fpscr)
  else
    let '(d, fpscr) := if 0xff <? s then (0xff, SET_QC fpscr) else (uint8_t s, fpscr) in
    (Z.lor res (Z.shiftl d (n / 2)), fpscr).

Definition neon_unarrow_sat8 (fpscr x : Z) : Z * Z :=
  SAT8_unarrow x 48 (SAT8_unarrow x 32 (SAT8_unarrow x 16 (SAT8_unarrow x 0 (0, fpscr)))).

Definition SAT8_narrow_u (x n : Z) (st : Z * Z) : Z * Z :=
  let '(res, fpscr) := st in
  let s := uint16_t (Z.shiftr x n) in
  let '(d, fpscr) := if 0xff <? s then (0xff, SET_QC fpscr) else (uint8_t s, fpscr) in
  (Z.lor res (Z.shiftl d (n / 2)), fpscr).

Definition neon_narrow_sat_u8 (fpscr x : Z) : Z * Z :=
  SAT8_narrow_u x 48 (SAT8_narrow_u x 32 (SAT8_narrow_u x 16 (SAT8_narrow_u x 0 (0, fpscr)))).

Definition SAT8_narrow_s (x n : Z) (st : Z * Z) : Z * Z :=
  let '(res, fpscr) := st in
  let s := int16_t (Z.shiftr x n) in
  let '(d, fpscr) :=
    if negb (s =? int8_t s) then (uint8_t (Z.lxor (Z.shiftr s 15) 0x7f), SET_QC fpscr)
    else (uint8_t s, fpscr) in
  (Z.lor res (Z.shiftl d (n / 2)), fpscr).

Definition neon_narrow_sat_s8 (fpscr x : Z) : Z * Z :=
  SAT8_narrow_s x 48 (SAT8_narrow_s x 32 (SAT8_narrow_s x 16 (SAT8_narrow_s x 0 (0, fpscr)))).

Definition neon_unarrow_sat16 (fpscr x : Z) : Z * Z :=
  let low := uint32_t x in
  let '(low, fpscr) :=
    if nz (Z.land low 0x80000000) then (0, SET_QC fpscr)
    else if 0xffff <? low then (0xffff, SET_QC fpscr) else (low, fpscr) in
  let high := uint32_t (Z.shiftr x 32) in
  let '(high, fpscr) :=
    if nz (Z.land high 0x80000000) then (0, SET_QC fpscr)
    else if 0xffff <? high then (0xffff, SET_QC fpscr) else (high, fpscr) in
  (Z.lor low (uint32_t (Z.shiftl high 16)), fpscr).

Definition neon_narrow_sat_u16 (fpscr x : Z) : Z * Z :=
  let low := uint32_t x in
  let '(low, fpscr) := if 0xffff <? low then (0xffff, SET_QC fpscr) else (low, fpscr) in
  let high := uint32_t (Z.shiftr x 32) in
  let '(high, fpscr) := if 0xffff <? high then (0xffff, SET_QC fpscr) else (high, fpscr) in
  (Z.lor low (uint32_t (Z.shiftl high 16)), fpscr).

Definition neon_narrow_sat_s16 (fpscr x : Z) : Z * Z :=
  let low := int32_t x in
  let '(low, fpscr) :=
    if negb (low =? int16_t low) then (Z.lxor (Z.shiftr low 31) 0x7fff, SET_QC fpscr)
    else (low, fpscr) in
  let high := int32_t (Z.shiftr x 32) in
  let '(high, fpscr) :=
    if negb (high =? int16_t high) then (Z.lxor (Z.shiftr high 31) 0x7fff, SET_QC fpscr)
    else (high, fpscr) in
  (uint32_t (Z.lor (uint16_t low) (int32_t (Z.shiftl high 16))), fpscr).

Definition neon_unarrow_sat32 (fpscr x : Z) : Z * Z :=
  if nz (Z.land x 0x8000000000000000) then (0, SET_QC fpscr)
  else if 0xffffffff <? x then (0xffffffff, SET_QC fpscr) else (uint32_t x, fpscr).

Definition neon_narrow_sat_u32 (fpscr x : Z) : Z * Z :=
  if 0xffffffff <? x then (0xffffffff, SET_QC fpscr) else (uint32_t x, fpscr).

Definition neon_narrow_sat_s32 (fpscr x : Z) : Z * Z :=
  if negb (int64_t x =? int32_t x)
  then (uint32_t (Z.lxor (Z.shiftr (int64_t x) 63) 0x7fffffff), SET_QC fpscr)
  else (uint32_t x, fpscr).

(** ** Specifications by the list of lanes *)

(** The lanes of [res] are the exact results modulo the width. *)
Definition lanes (w : Z) (exact : list Z) (res : Z) : Prop :=
  unpack w (length exact) res = uint w <$> exact.

(** The lanes of [res] are the exact results clamped by [s], and the flag is set
    if clamping changed one of them. *)
Definition lanes_sat (w : Z) (s : Z -> Z) (exact : list Z) (fpscr : Z) (res : Z * Z) : Prop :=
  lanes w (s <$> exact) res.1 /\
  res.2 = qc_if (existsb (fun v => negb (s v =? v)) exact) fpscr.

Lemma unpack_pack w l : 0 < w -> unpack w (length l) (pack w l) = uint w <$> l.
Proof.
  intros Hw. apply list_eq. intros i. rewrite list_lookup_fmap.
  destruct (decide (i < length l)%nat) as [Hi|].
  - rewrite unpack_lookup, lane_pack by lia. rewrite Nat2Z.id.
    destruct (lookup_lt_is_Some_2 l i Hi) as [x ->]. done.
  - rewrite !lookup_ge_None_2 by (rewrite ?length_unpack; lia). done.
Qed.

Lemma unpack_inj w n x y : 0 < w -> in_u (w * Z.of_nat n) x -> in_u (w * Z.of_nat n) y ->
  unpack w n x = unpack w n y -> x = y.
Proof. intros Hw Hx Hy H. by rewrite <- (pack_unpack w n x), <- (pack_unpack w n y), H. Qed.

Lemma lanes_pack w exact l : 0 < w -> length l = length exact ->
  uint w <$> l = uint w <$> exact -> lanes w exact (pack w l).
Proof. intros Hw Hl H. unfold lanes. by rewrite <- Hl, unpack_pack, H. Qed.

(** Results with their saturation marks, assembled in order. *)
Definition sat_elem (w : Z) (s : Z -> Z) (e : Z) (r : Z * bool) : Prop :=
  uint w r.1 = uint w (s e) /\ r.2 = negb (s e =? e).

Lemma lanes_sat_pack w s exact l fpscr : 0 < w -> Forall2 (sat_elem w s) exact l ->
  lanes_sat w s exact fpscr (pack w (fst <$> l), foldl (fun f r => qc_if (snd r) f) fpscr l).
Proof.
  intros Hw H. split; cbn.
  - apply lanes_pack; [done|by rewrite !length_fmap, (Forall2_length _ _ _ H)|].
    induction H as [|e r exact l [E _] H IH]; cbn; [done|]. by rewrite E, IH.
  - rewrite (foldl_qc snd). f_equal.
    induction H as [|e r exact l [_ E] H IH]; cbn; [done|]. by rewrite E, IH.
Qed.

Lemma NEON_VOP_ENV_lanes (sg : bool) w n s (f : Z -> Z -> Z) fn fpscr a b : 0 < w ->
  fn_sat sg w s f fn ->
  lanes_sat w s (zip_with f (NEON_UNPACK sg w n a) (NEON_UNPACK sg w n b)) fpscr
    (NEON_VOP_ENV sg w n fn fpscr a b).
Proof.
  intros Hw H. apply lanes_sat_pack; [done|]. unfold NEON_UNPACK, unpack.
  induction (seq 0 n) as [|i l IH]; cbn; constructor; [|done].
  apply H; by apply elem_range.
Qed.

Lemma NEON_VOP1_ENV_lanes w n s (f : Z -> Z) fn fpscr a : 0 < w ->
  (forall x, in_s w x -> sat_elem w s (f x) (fn x)) ->
  lanes_sat w s (f <$> NEON_UNPACK true w n a) fpscr (NEON_VOP1_ENV true w n fn fpscr a).
Proof.
  intros Hw H. apply lanes_sat_pack; [done|]. unfold NEON_UNPACK, unpack.
  induction (seq 0 n) as [|i l IH]; cbn; constructor; [|done].
  apply H. by apply elem_range_s.
Qed.

(** ** Doubling multiplication *)

(** The high half of the doubled product, rounded down or to nearest. *)
Definition dmulh (h : Z) (round : bool) (x y : Z) : Z :=
  (2 * (x * y) + if round then 2 ^ (h - 1) else 0) / 2 ^ h.

Lemma product_range h x y : 0 < h -> in_s h x -> in_s h y ->
  - 2 ^ (2 * h - 2) < x * y <= 2 ^ (2 * h - 2) /\
  (x * y <> 2 ^ (2 * h - 2) -> x * y <= 2 ^ (2 * h - 2) - 2 ^ (h - 1)).
Proof.
  intros Hh Hx Hy. unfold in_s in *.
  assert (2 ^ (2 * h - 2) = 2 ^ (h - 1) * 2 ^ (h - 1)) as E
    by (rewrite <- Z.pow_add_r by lia; f_equal; lia).
  assert (1 <= 2 ^ (h - 1)) by lia. set (S := 2 ^ (h - 1)) in *. rewrite E. clear E.
  assert (- (S * (S - 1)) <= x * y <= S * S) as Hb.
  { destruct (decide (0 <= x)); split.
    - transitivity (x * - S); nia.
    - transitivity (x * S); nia.
    - transitivity (x * (S - 1)); nia.
    - transitivity (x * - S); nia. }
  split; [nia|]. intros Hne.
  destruct (decide (x = - S)) as [->|].
  { assert (y <> - S) by (intros ->; lia). nia. }
  destruct (decide (0 <= x)).
  - transitivity (x * (S - 1)); nia.
  - transitivity (x * - S); nia.
Qed.

(** Bit [w - 1] against bit [w - 2]: the product leaves the range of the doubled
    type. *)
Lemma double_overflow w p : 2 <= w -> in_s w p ->
  nz (Z.land (Z.lxor (uint w p) (uint w (Z.shiftl (uint w p) 1))) (2 ^ (w - 1))) =
  negb ((- 2 ^ (w - 2) <=? p) && (p <? 2 ^ (w - 2))).
Proof.
  intros Hw Hp. rewrite sign_xor by (lia || apply uint_range; lia).
  assert (2 ^ w = 2 * 2 ^ (w - 1)) as E1 by (rewrite <- Z.pow_succ_r by lia; f_equal; lia).
  assert (2 ^ (w - 1) = 2 * 2 ^ (w - 2)) as E2 by (rewrite <- Z.pow_succ_r by lia; f_equal; lia).
  assert (uint w (Z.shiftl (uint w p) 1) = uint w (2 * p)) as ->.
  { rewrite Z.shiftl_mul_pow2 by lia. unfold uint. rewrite Z.mul_mod_idemp_l by lia. f_equal. lia. }
  unfold uint, in_s in *. rewrite E1, E2 in *. set (Q := 2 ^ (w - 2)) in *.
  assert (0 < Q) by (apply Z.pow_pos_nonneg; lia).
  assert (p mod (2 * (2 * Q)) = if p <? 0 then p + 4 * Q else p) as ->.
  { destruct (Z.ltb_spec p 0); [|apply Z.mod_small; lia].
    symmetry. apply (Z.mod_unique _ _ (-1)); lia. }
  assert ((2 * p) mod (2 * (2 * Q)) = if p <? 0 then 2 * p + 4 * Q else 2 * p) as ->.
  { destruct (Z.ltb_spec p 0); [|apply Z.mod_small; lia].
    symmetry. apply (Z.mod_unique _ _ (-1)); lia. }
  split_ltb; cbn; (done || lia).
Qed.

(** The high half of a value in range of the wide type is in range and survives the
    unsigned temporary. *)
Lemma high_half h t : 0 < h -> in_s (2 * h) t ->
  uint h (Z.shiftr (uint (2 * h) t) h) = uint h (sat_s h (t / 2 ^ h)) /\
  false = negb (sat_s h (t / 2 ^ h) =? t / 2 ^ h).
Proof.
  intros Hh Ht.
  assert (sat_s h (t / 2 ^ h) = t / 2 ^ h) as ->.
  { unfold in_s in Ht.
    replace (2 ^ (2 * h - 1)) with (2 ^ (h - 1) * 2 ^ h) in Ht
      by (rewrite <- Z.pow_add_r by lia; f_equal; lia).
    assert (t / 2 ^ h < 2 ^ (h - 1)) by (apply Z.div_lt_upper_bound; lia).
    assert (- 2 ^ (h - 1) <= t / 2 ^ h) by (apply Z.div_le_lower_bound; lia).
    unfold sat_s. lia. }
  rewrite Z.eqb_refl. split; [|done].
  rewrite Z.shiftr_div_pow2 by lia. unfold uint.
  replace (2 * h) with (h + h) by lia. rewrite Z.pow_add_r by lia.
  rewrite Z.rem_mul_r by lia. rewrite Z.mul_comm, Z.div_add, Z.div_small by (try apply Z.mod_pos_bound; lia).
  by rewrite Z.add_0_l, Z.mod_mod by lia.
Qed.

Lemma qdmulh_fn h round : h = 16 \/ h = 32 ->
  fn_sat true h (sat_s h) (dmulh h round) (NEON_QDMULH h round).
Proof.
  intros Hh x y Hx Hy. unfold NEON_QDMULH, dmulh. cbn zeta.
  rewrite !(sint_id h) by (done || lia).
  pose proof (product_range h x y ltac:(lia) Hx Hy) as [Hp Hmax].
  set (p := x * y) in *. clearbody p. clear Hx Hy x y.
  destruct (decide (p = 2 ^ (2 * h - 2))) as [->|Hne].
  { destruct Hh as [->| ->], round; vm_compute; done. }
  specialize (Hmax Hne).
  rewrite double_overflow by (unfold in_s; destruct Hh as [->| ->]; cbn in *; lia).
  assert ((- 2 ^ (2 * h - 2) <=? p) && (p <? 2 ^ (2 * h - 2)) = true) as ->
    by (destruct Hh as [->| ->]; cbn in *; lia).
  cbn [negb].
  assert (uint (2 * h) (Z.shiftl (uint (2 * h) p) 1) = uint (2 * h) (2 * p)) as ->.
  { rewrite Z.shiftl_mul_pow2 by lia. unfold uint. rewrite Z.mul_mod_idemp_l by lia. f_equal. lia. }
  assert (in_s (2 * h) (2 * p + if round then 2 ^ (h - 1) else 0)) as Ht
    by (unfold in_s; destruct Hh as [->| ->], round; cbn in *; lia).
  destruct round; cbn [fst snd]; [|rewrite Z.add_0_r in *; apply high_half; [lia|done]].
  rewrite Z.shiftl_mul_pow2, Z.mul_1_l by lia.
  assert (uint (2 * h) (uint (2 * h) (2 * p) + 2 ^ (h - 1)) = uint (2 * h) (2 * p + 2 ^ (h - 1))) as ->
    by (unfold uint; apply Zplus_mod_idemp_l).
  rewrite !(sint_uint (2 * h)), !(sint_id (2 * h));
    [|lia|unfold in_s; destruct Hh as [->| ->]; cbn in *; lia|lia|done|lia|lia].
  destruct (Z.ltb_spec (2 * p + 2 ^ (h - 1)) (2 * p)); [lia|].
  cbn [fst snd]. apply high_half; [lia|done].
Qed.

(** The doubling multiplications return the high half of twice the product,
    rounded down or to nearest, clamped to the element type; the flag is set exactly
    when some lane was clamped, although the code tests for overflow before and
    again after rounding. *)
Lemma neon_qdmulh_correct f a b :
  lanes_sat 16 (sat_s 16) (zip_with (dmulh 16 false) (NEON_UNPACK true 16 2 a) (NEON_UNPACK true 16 2 b))
    f (neon_qdmulh_s16 f a b) /\
  lanes_sat 16 (sat_s 16) (zip_with (dmulh 16 true) (NEON_UNPACK true 16 2 a) (NEON_UNPACK true 16 2 b))
    f (neon_qrdmulh_s16 f a b) /\
  lanes_sat 32 (sat_s 32) (zip_with (dmulh 32 false) (NEON_UNPACK true 32 1 a) (NEON_UNPACK true 32 1 b))
    f (neon_qdmulh_s32 f a b) /\
  lanes_sat 32 (sat_s 32) (zip_with (dmulh 32 true) (NEON_UNPACK true 32 1 a) (NEON_UNPACK true 32 1 b))
    f (neon_qrdmulh_s32 f a b).
Proof. split_and!; (apply NEON_VOP_ENV_lanes; [lia|apply qdmulh_fn; auto]). Qed.

(** ** Narrowing *)

(** The field masks as shifted runs of ones, for the bit-level proofs. *)
Ltac field_masks :=
  change 0xff with (Z.ones 8); change 0xff00 with (Z.shiftl (Z.ones 8) 8);
  change 0xff0000 with (Z.shiftl (Z.ones 8) 16); change 0xff000000 with (Z.shiftl (Z.ones 8) 24);
  change 0xffff with (Z.ones 16); change 0xffff0000 with (Z.shiftl (Z.ones 16) 16);
  change 0xffff00000000 with (Z.shiftl (Z.ones 16) 32);
  change 0xffff000000000000 with (Z.shiftl (Z.ones 16) 48).

Lemma cons_eq {A} (x y : A) l k : x = y -> l = k -> x :: l = y :: k.
Proof. by intros -> ->. Qed.

(** [lanes_cases] splits an equality of short lists of lanes; [lanes_bits] compares
    the elements bit by bit. *)
Ltac lanes_cases :=
  unfold lanes, unpack; cbn -[lane uint];
  change (Z.of_nat 0) with 0; change (Z.of_nat 1) with 1;
  change (Z.of_nat 2) with 2; change (Z.of_nat 3) with 3;
  repeat first [reflexivity | apply cons_eq].
Ltac lanes_bits :=
  lanes_cases; field_masks; bitwise; cbn [orb]; f_equal; lia.

Lemma narrow_u8_lanes x : lanes 8 (unpack 16 4 x) (neon_narrow_u8 x).
Proof. unfold neon_narrow_u8. lanes_bits. Qed.

Lemma narrow_u16_lanes x : lanes 16 (unpack 32 2 x) (neon_narrow_u16 x).
Proof. unfold neon_narrow_u16. lanes_bits. Qed.

Lemma narrow_high_u8_lanes x :
  lanes 8 ((fun v => Z.shiftr v 8) <$> unpack 16 4 x) (neon_narrow_high_u8 x).
Proof. unfold neon_narrow_high_u8. lanes_bits. Qed.

Lemma narrow_high_u16_lanes x :
  lanes 16 ((fun v => Z.shiftr v 16) <$> unpack 32 2 x) (neon_narrow_high_u16 x).
Proof. unfold neon_narrow_high_u16. lanes_bits. Qed.

(** Rounding before the high half is taken.  The addition may carry into the next
    lane; the bits below the rounding position are cleared first, so that the carry
    stops there. *)
Definition round_high (w v : Z) : Z := (v + 2 ^ (w - 1)) / 2 ^ w.

Lemma land_high_mask w l : 0 < w -> in_u (2 * w) l ->
  Z.land l (Z.shiftl (Z.ones (w + 1)) (w - 1)) = 2 ^ (w - 1) * (l / 2 ^ (w - 1)).
Proof.
  intros Hw Hl. rewrite land_field, Z.shiftl_mul_pow2, Z.shiftr_div_pow2 by lia.
  rewrite uint_id; [lia|]. unfold in_u in *. split; [apply Z.div_pos; lia|].
  apply Z.div_lt_upper_bound; [lia|]. rewrite <- Z.pow_add_r by lia.
  replace (w - 1 + (w + 1)) with (2 * w) by lia. lia.
Qed.

(** Clearing the low bits of all lanes. *)
Lemma land_lanes_mask w n x m : 0 < w -> in_u (w * Z.of_nat n) x ->
  Z.land x (pack w (replicate n m)) = pack w ((fun v => Z.land v (uint w m)) <$> unpack w n x).
Proof.
  intros Hw Hx. apply (lane_ext w n); [done| | |].
  - apply testbit_in_u; [lia|apply Z.land_nonneg; left; apply Hx|].
    intros i Hi. rewrite Z.land_spec. by rewrite (in_u_testbit (w * Z.of_nat n) x i) by (done || lia).
  - pose proof (pack_range w ((fun v => Z.land v (uint w m)) <$> unpack w n x) Hw) as H.
    by rewrite length_fmap, length_unpack in H.
  - intros i Hi. rewrite lane_land, !lane_pack by lia.
    rewrite list_lookup_fmap, unpack_lookup, lookup_replicate_2 by lia. cbn.
    rewrite Z2Nat.id by lia. apply Z.bits_inj'. intros j Hj.
    rewrite !Z.land_spec, !uint_testbit, Z.land_spec, uint_testbit by lia.
    destruct (Z.ltb_spec j w); cbn; [done|apply andb_false_r].
Qed.

Ltac lane_index :=
  change (Z.of_nat 0) with 0; change (Z.of_nat 1) with 1;
  change (Z.of_nat 2) with 2; change (Z.of_nat 3) with 3.

(** Turns the lanes of a sum of packed words into divisions by numerals. *)
Ltac lanes_arith :=
  rewrite !pack_cons by lia; cbn [pack]; unfold round_high, in_u in *;
  rewrite !Z.shiftr_div_pow2 by lia; rewrite !lane_div_mod by lia; unfold uint64_t, uint;
  change (16 * 0) with 0; change (16 * 1) with 16; change (16 * 2) with 32;
  change (16 * 3) with 48; change (32 * 0) with 0; change (32 * 1) with 32;
  change (2 ^ 0) with 1; rewrite ?Z.div_1_r; pow_norm;
  repeat first [reflexivity | apply cons_eq]; Z.to_euclidean_division_equations; lia.

Lemma narrow_round_high_u8_lanes x : in_u 64 x ->
  lanes 8 (round_high 8 <$> unpack 16 4 x) (neon_narrow_round_high_u8 x).
Proof.
  intros Hx. set (y := uint64_t (Z.land x 0xff80ff80ff80ff80 + 0x0080008000800080)).
  change (neon_narrow_round_high_u8 x) with (neon_narrow_high_u8 y).
  transitivity (uint 8 <$> ((fun v => Z.shiftr v 8) <$> unpack 16 4 y)); [apply narrow_high_u8_lanes|].
  subst y. change 0xff80ff80ff80ff80 with (pack 16 (replicate 4 0xff80)).
  rewrite land_lanes_mask by (done || lia).
  unfold unpack. cbn -[lane uint pack Z.land Z.shiftr]. lane_index.
  change (uint 16 65408) with (Z.shiftl (Z.ones (8 + 1)) (8 - 1)).
  pose proof (lane_range 16 0 x ltac:(lia)) as H0. pose proof (lane_range 16 1 x ltac:(lia)) as H1.
  pose proof (lane_range 16 2 x ltac:(lia)) as H2. pose proof (lane_range 16 3 x ltac:(lia)) as H3.
  rewrite !land_high_mask by (done || lia).
  generalize dependent (lane 16 0 x). generalize dependent (lane 16 1 x).
  generalize dependent (lane 16 2 x). generalize dependent (lane 16 3 x). clear x Hx.
  intros l3 H3 l2 H2 l1 H1 l0 H0. lanes_arith.
Qed.

Lemma narrow_round_high_u16_lanes x : in_u 64 x ->
  lanes 16 (round_high 16 <$> unpack 32 2 x) (neon_narrow_round_high_u16 x).
Proof.
  intros Hx. set (y := uint64_t (Z.land x 0xffff8000ffff8000 + 0x0000800000008000)).
  change (neon_narrow_round_high_u16 x) with (neon_narrow_high_u16 y).
  transitivity (uint 16 <$> ((fun v => Z.shiftr v 16) <$> unpack 32 2 y)); [apply narrow_high_u16_lanes|].
  subst y. change 0xffff8000ffff8000 with (pack 32 (replicate 2 0xffff8000)).
  rewrite land_lanes_mask by (done || lia).
  unfold unpack. cbn -[lane uint pack Z.land Z.shiftr]. lane_index.
  change (uint 32 4294934528) with (Z.shiftl (Z.ones (16 + 1)) (16 - 1)).
  pose proof (lane_range 32 0 x ltac:(lia)) as H0. pose proof (lane_range 32 1 x ltac:(lia)) as H1.
  rewrite !land_high_mask by (done || lia).
  generalize dependent (lane 32 0 x). generalize dependent (lane 32 1 x). clear x Hx.
  intros l1 H1 l0 H0. lanes_arith.
Qed.

(** Narrowing keeps the low half of every lane, the high forms keep the high
    half, and the rounding forms keep the high half of the lane plus half of the last
    place kept, although the code adds the rounding constants of all lanes in one
    addition whose carries cross lane boundaries. *)
Lemma neon_narrow_correct x :
  lanes 8 (unpack 16 4 x) (neon_narrow_u8 x) /\
  lanes 16 (unpack 32 2 x) (neon_narrow_u16 x) /\
  lanes 8 ((fun v => Z.shiftr v 8) <$> unpack 16 4 x) (neon_narrow_high_u8 x) /\
  lanes 16 ((fun v => Z.shiftr v 16) <$> unpack 32 2 x) (neon_narrow_high_u16 x) /\
  lanes 8 (round_high 8 <$> unpack 16 4 (uint64_t x)) (neon_narrow_round_high_u8 (uint64_t x)) /\
  lanes 16 (round_high 16 <$> unpack 32 2 (uint64_t x)) (neon_narrow_round_high_u16 (uint64_t x)).
Proof.
  split_and!; [apply narrow_u8_lanes|apply narrow_u16_lanes|apply narrow_high_u8_lanes
    |apply narrow_high_u16_lanes|apply narrow_round_high_u8_lanes
    |apply narrow_round_high_u16_lanes]; apply uint_range; lia.
Qed.

(** ** Saturating narrowing *)

(** The four [SAT8] steps, once each is a clamped lane or-ed into its place. *)
Lemma sat8_chain (step : Z -> Z * Z -> Z * Z) (s : Z -> Z) (v : Z -> Z) fpscr :
  (forall n res f, n = 0 \/ n = 16 \/ n = 32 \/ n = 48 ->
    step n (res, f) = (Z.lor res (Z.shiftl (uint 8 (s (v n))) (n / 2)),
                       qc_if (negb (s (v n) =? v n)) f)) ->
  lanes_sat 8 s (v <$> [0; 16; 32; 48]) fpscr
    (step 48 (step 32 (step 16 (step 0 (0, fpscr))))).
Proof.
  intros H. rewrite !H by auto.
  set (r := fun n => (uint 8 (s (v n)), negb (s (v n) =? v n))).
  change (Z.lor 0 (Z.shiftl (uint 8 (s (v 0))) (0 / 2))) with (Z.lor 0 (Z.shiftl (uint 8 (s (v 0))) 0)).
  rewrite Z.shiftl_0_r, Z.lor_0_l.
  change (16 / 2) with 8; change (32 / 2) with (2 * 8); change (48 / 2) with (3 * 8).
  rewrite (pack4_lor 8) by (lia || apply uint_range; lia).
  refine (lanes_sat_pack 8 s (v <$> [0; 16; 32; 48]) (r <$> [0; 16; 32; 48]) fpscr _ _); [lia|].
  subst r. cbn. repeat constructor; cbn; by rewrite ?uint_uint by lia.
Qed.

Lemma nz_top w s : 0 < w -> in_u w s -> nz (Z.land s (2 ^ (w - 1))) = (2 ^ (w - 1) <=? s).
Proof.
  intros Hw Hs. pose proof (sign_xor w s 0 Hw Hs ltac:(unfold in_u; lia)) as E.
  rewrite Z.lxor_0_r in E. rewrite E.
  destruct (Z.leb_spec (2 ^ (w - 1)) 0); [lia|]. apply xorb_false_r.
Qed.

(** Equal results in a branch of a saturating step. *)
Lemma sat8_result res f n d e b c : d = e -> b = c ->
  (Z.lor res (Z.shiftl d n), qc_if b f) = (Z.lor res (Z.shiftl e n), qc_if c f).
Proof. by intros -> ->. Qed.

Ltac sat8_step :=
  unfold sat_u, sat_s; case_cmp;
  (apply (sat8_result _ _ _ _ _ true) || apply (sat8_result _ _ _ _ _ false));
  first [reflexivity | cint | exfalso; cint].

Lemma SAT8_unarrow_step x n res f :
  SAT8_unarrow x n (res, f) =
  (Z.lor res (Z.shiftl (uint 8 (sat_u 8 (elem true 16 (Z.shiftr x n)))) (n / 2)),
   qc_if (negb (sat_u 8 (elem true 16 (Z.shiftr x n)) =? elem true 16 (Z.shiftr x n))) f).
Proof.
  unfold SAT8_unarrow, elem. cbn zeta. rewrite <- (sint_uint 16 (Z.shiftr x n)) by lia.
  pose proof (uint_range 16 (Z.shiftr x n) ltac:(lia)) as Hs. fold (uint16_t (Z.shiftr x n)) in *.
  generalize dependent (uint16_t (Z.shiftr x n)). intros s Hs.
  change 0x8000 with (2 ^ (16 - 1)). rewrite nz_top by (done || lia).
  destruct (Z.leb_spec (2 ^ (16 - 1)) s).
  - transitivity (Z.lor res (Z.shiftl 0 (n / 2)), qc_if true f).
    + by rewrite Z.shiftl_0_l, Z.lor_0_r.
    + sat8_step.
  - sat8_step.
Qed.

Lemma SAT8_narrow_u_step x n res f :
  SAT8_narrow_u x n (res, f) =
  (Z.lor res (Z.shiftl (uint 8 (sat_u 8 (elem false 16 (Z.shiftr x n)))) (n / 2)),
   qc_if (negb (sat_u 8 (elem false 16 (Z.shiftr x n)) =? elem false 16 (Z.shiftr x n))) f).
Proof.
  unfold SAT8_narrow_u, elem. cbn zeta.
  pose proof (uint_range 16 (Z.shiftr x n) ltac:(lia)) as Hs. fold (uint16_t (Z.shiftr x n)) in *.
  generalize dependent (uint16_t (Z.shiftr x n)). intros s Hs. sat8_step.
Qed.

(** [(s >> (w - 1)) ^ max] is the extreme value on the side of [s]. *)
Lemma extreme_xor w s h : 0 < w -> in_s w s -> 0 < h ->
  Z.lxor (Z.shiftr s (w - 1)) (2 ^ (h - 1) - 1) = if s <? 0 then - 2 ^ (h - 1) else 2 ^ (h - 1) - 1.
Proof.
  intros Hw Hs Hh. rewrite shiftr_sign by done. destruct (s <? 0); [|apply Z.lxor_0_l].
  rewrite Z.lxor_comm, Z.lxor_m1_r. unfold Z.lnot. lia.
Qed.

Lemma SAT8_narrow_s_step x n res f :
  SAT8_narrow_s x n (res, f) =
  (Z.lor res (Z.shiftl (uint 8 (sat_s 8 (elem true 16 (Z.shiftr x n)))) (n / 2)),
   qc_if (negb (sat_s 8 (elem true 16 (Z.shiftr x n)) =? elem true 16 (Z.shiftr x n))) f).
Proof.
  unfold SAT8_narrow_s, elem. cbn zeta.
  pose proof (sint_range 16 (Z.shiftr x n) ltac:(lia)) as Hs. fold (int16_t (Z.shiftr x n)) in *.
  generalize dependent (int16_t (Z.shiftr x n)). intros s Hs.
  change 15 with (16 - 1); change 0x7f with (2 ^ (8 - 1) - 1).
  rewrite extreme_xor by (done || lia). sat8_step.
Qed.

Lemma unpack16_reads (sg : bool) x :
  NEON_UNPACK sg 16 4 x = (fun n => elem sg 16 (Z.shiftr x n)) <$> [0; 16; 32; 48].
Proof. unfold NEON_UNPACK, unpack. cbn. by rewrite !elem_lane by lia. Qed.

Lemma unpack32_reads (sg : bool) x :
  NEON_UNPACK sg 32 2 x = [elem sg 32 x; elem sg 32 (Z.shiftr x 32)].
Proof. unfold NEON_UNPACK, unpack. cbn. by rewrite !elem_lane, Z.shiftr_0_r by lia. Qed.

(** Two clamped lanes. *)
Lemma lanes_sat_pair w s e0 e1 d0 d1 b0 b1 f : 0 < w -> in_u w d0 -> in_u w d1 ->
  sat_elem w s e0 (d0, b0) -> sat_elem w s e1 (d1, b1) ->
  lanes_sat w s [e0; e1] f (Z.lor d0 (Z.shiftl d1 w), qc_if b1 (qc_if b0 f)).
Proof.
  intros Hw H0 H1 E0 E1. rewrite pack2_lor by (done || lia).
  apply (lanes_sat_pack w s [e0; e1] [(d0, b0); (d1, b1)] f); [done|]. do 2 (constructor; [done|]). constructor.
Qed.

Lemma lanes_sat_one w s e d b f : 0 < w -> in_u w d -> sat_elem w s e (d, b) ->
  lanes_sat w s [e] f (d, qc_if b f).
Proof.
  intros Hw Hd E.
  assert (d = pack w [d]) as -> by (cbn [pack]; by rewrite Z.shiftl_0_l, Z.lor_0_r, uint_id).
  apply (lanes_sat_pack w s [e] [(d, b)] f); [done|]. constructor; [done|constructor].
Qed.

Lemma uint32_shl16 h : in_u 16 h -> uint32_t (Z.shiftl h 16) = Z.shiftl h 16.
Proof. intros H. rewrite Z.shiftl_mul_pow2 by lia. cint. Qed.

(** Clamping one 32-bit half as the 16-bit forms do. *)
Definition clamp_un (s : Z) : Z * bool :=
  if nz (Z.land s 0x80000000) then (0, true) else if 0xffff <? s then (0xffff, true) else (s, false).
Definition clamp_u (s : Z) : Z * bool := if 0xffff <? s then (0xffff, true) else (s, false).
Definition clamp_s (s : Z) : Z * bool :=
  if negb (s =? int16_t s) then (Z.lxor (Z.shiftr s 31) 0x7fff, true) else (s, false).

Ltac sat_elem_solve :=
  unfold sat_elem, sat_u, sat_s; case_cmp; cbn [fst snd]; split; first [reflexivity|cint|exfalso; cint].

Lemma clamp_un_ok x : in_u 16 (clamp_un (uint32_t x)).1 /\
  sat_elem 16 (sat_u 16) (elem true 32 x) (clamp_un (uint32_t x)).
Proof.
  unfold clamp_un, elem. rewrite <- (sint_uint 32 x) by lia.
  pose proof (uint_range 32 x ltac:(lia)) as Hs. fold (uint32_t x) in *.
  generalize dependent (uint32_t x). intros s Hs.
  change 0x80000000 with (2 ^ (32 - 1)). rewrite nz_top by (done || lia).
  split; [case_cmp; cint|sat_elem_solve].
Qed.

Lemma clamp_u_ok x : in_u 16 (clamp_u (uint32_t x)).1 /\
  sat_elem 16 (sat_u 16) (elem false 32 x) (clamp_u (uint32_t x)).
Proof.
  unfold clamp_u, elem. pose proof (uint_range 32 x ltac:(lia)) as Hs. fold (uint32_t x) in *.
  generalize dependent (uint32_t x). intros s Hs. split; [case_cmp; cint|sat_elem_solve].
Qed.

Lemma clamp_s_ok x : sat_elem 16 (sat_s 16) (elem true 32 x) (clamp_s (int32_t x)).
Proof.
  unfold clamp_s, elem. pose proof (sint_range 32 x ltac:(lia)) as Hs. fold (int32_t x) in *.
  generalize dependent (int32_t x). intros s Hs.
  change 31 with (32 - 1); change 0x7fff with (2 ^ (16 - 1) - 1).
  rewrite extreme_xor by (done || lia). sat_elem_solve.
Qed.

Lemma unarrow_sat16_lanes f x :
  lanes_sat 16 (sat_u 16) (NEON_UNPACK true 32 2 x) f (neon_unarrow_sat16 f x).
Proof.
  rewrite unpack32_reads. destruct (clamp_un_ok x) as [L0 S0].
  destruct (clamp_un_ok (Z.shiftr x 32)) as [L1 S1].
  assert (neon_unarrow_sat16 f x =
    (Z.lor (clamp_un (uint32_t x)).1 (Z.shiftl (clamp_un (uint32_t (Z.shiftr x 32))).1 16),
     qc_if (clamp_un (uint32_t (Z.shiftr x 32))).2 (qc_if (clamp_un (uint32_t x)).2 f))) as ->.
  { rewrite <- (uint32_shl16 (clamp_un (uint32_t (Z.shiftr x 32))).1) by done.
    unfold neon_unarrow_sat16, clamp_un. cbn zeta.
    repeat match goal with |- context [if ?b then _ else _] => destruct b end; reflexivity. }
  apply lanes_sat_pair; [lia|done|done|by destruct (clamp_un _)|by destruct (clamp_un _)].
Qed.

Lemma narrow_sat_u16_lanes f x :
  lanes_sat 16 (sat_u 16) (NEON_UNPACK false 32 2 x) f (neon_narrow_sat_u16 f x).
Proof.
  rewrite unpack32_reads. destruct (clamp_u_ok x) as [L0 S0].
  destruct (clamp_u_ok (Z.shiftr x 32)) as [L1 S1].
  assert (neon_narrow_sat_u16 f x =
    (Z.lor (clamp_u (uint32_t x)).1 (Z.shiftl (clamp_u (uint32_t (Z.shiftr x 32))).1 16),
     qc_if (clamp_u (uint32_t (Z.shiftr x 32))).2 (qc_if (clamp_u (uint32_t x)).2 f))) as ->.
  { rewrite <- (uint32_shl16 (clamp_u (uint32_t (Z.shiftr x 32))).1) by done.
    unfold neon_narrow_sat_u16, clamp_u. cbn zeta.
    repeat match goal with |- context [if ?b then _ else _] => destruct b end; reflexivity. }
  apply lanes_sat_pair; [lia|done|done|by destruct (clamp_u _)|by destruct (clamp_u _)].
Qed.

(** The signed halves are or-ed as [int]: only their low bits remain. *)
Lemma or_halves l h :
  uint32_t (Z.lor (uint16_t l) (int32_t (Z.shiftl h 16))) =
  Z.lor (uint 16 l) (Z.shiftl (uint 16 h) 16).
Proof. bitwise; autorewrite with bits; split_ltb; done. Qed.

Lemma narrow_sat_s16_lanes f x :
  lanes_sat 16 (sat_s 16) (NEON_UNPACK true 32 2 x) f (neon_narrow_sat_s16 f x).
Proof.
  rewrite unpack32_reads. pose proof (clamp_s_ok x) as [S0 Q0].
  pose proof (clamp_s_ok (Z.shiftr x 32)) as [S1 Q1].
  assert (neon_narrow_sat_s16 f x =
    (Z.lor (uint 16 (clamp_s (int32_t x)).1)
       (Z.shiftl (uint 16 (clamp_s (int32_t (Z.shiftr x 32))).1) 16),
     qc_if (clamp_s (int32_t (Z.shiftr x 32))).2 (qc_if (clamp_s (int32_t x)).2 f))) as ->.
  { rewrite <- or_halves. unfold neon_narrow_sat_s16, clamp_s. cbn zeta.
    repeat match goal with |- context [if ?b then _ else _] => destruct b end; reflexivity. }
  apply lanes_sat_pair; [lia|apply uint_range; lia|apply uint_range; lia|split|split]; cbn [fst snd];
    (done || by rewrite uint_uint by lia).
Qed.

Lemma unarrow_sat32_lanes f x : in_u 64 x ->
  lanes_sat 32 (sat_u 32) [int64_t x] f (neon_unarrow_sat32 f x).
Proof.
  intros Hx. unfold neon_unarrow_sat32. change 0x8000000000000000 with (2 ^ (64 - 1)).
  rewrite nz_top by (done || lia).
  destruct (Z.leb_spec (2 ^ (64 - 1)) x); [|destruct (Z.ltb_spec 0xffffffff x)].
  - apply (lanes_sat_one _ _ _ _ true); [lia|cint|]. sat_elem_solve.
  - apply (lanes_sat_one _ _ _ _ true); [lia|cint|]. sat_elem_solve.
  - apply (lanes_sat_one _ _ _ _ false); [lia|apply uint_range; lia|]. sat_elem_solve.
Qed.

Lemma narrow_sat_u32_lanes f x : in_u 64 x ->
  lanes_sat 32 (sat_u 32) [x] f (neon_narrow_sat_u32 f x).
Proof.
  intros Hx. unfold neon_narrow_sat_u32. destruct (Z.ltb_spec 0xffffffff x).
  - apply (lanes_sat_one _ _ _ _ true); [lia|cint|]. sat_elem_solve.
  - apply (lanes_sat_one _ _ _ _ false); [lia|apply uint_range; lia|]. sat_elem_solve.
Qed.

Lemma narrow_sat_s32_lanes f x : lanes_sat 32 (sat_s 32) [int64_t x] f (neon_narrow_sat_s32 f x).
Proof.
  unfold neon_narrow_sat_s32. change 63 with (64 - 1); change 0x7fffffff with (2 ^ (32 - 1) - 1).
  rewrite extreme_xor by (lia || apply sint_range; lia).
  destruct (Z.eqb_spec (int64_t x) (int32_t x)); cbn [negb].
  - apply (lanes_sat_one _ _ _ _ false); [lia|apply uint_range; lia|]. sat_elem_solve.
  - apply (lanes_sat_one _ _ _ _ true); [lia|apply uint_range; lia|]. sat_elem_solve.
Qed.

(** The saturating narrowing helpers clamp every lane, read with the operand's
    signedness, to the narrow type and set the cumulative flag exactly when some lane
    was clamped, at all three widths and for the signed-to-unsigned forms. *)
Lemma neon_narrow_sat_correct f x :
  lanes_sat 8 (sat_u 8) (NEON_UNPACK true 16 4 x) f (neon_unarrow_sat8 f x) /\
  lanes_sat 8 (sat_u 8) (NEON_UNPACK false 16 4 x) f (neon_narrow_sat_u8 f x) /\
  lanes_sat 8 (sat_s 8) (NEON_UNPACK true 16 4 x) f (neon_narrow_sat_s8 f x) /\
  lanes_sat 16 (sat_u 16) (NEON_UNPACK true 32 2 x) f (neon_unarrow_sat16 f x) /\
  lanes_sat 16 (sat_u 16) (NEON_UNPACK false 32 2 x) f (neon_narrow_sat_u16 f x) /\
  lanes_sat 16 (sat_s 16) (NEON_UNPACK true 32 2 x) f (neon_narrow_sat_s16 f x) /\
  lanes_sat 32 (sat_u 32) [int64_t (uint64_t x)] f (neon_unarrow_sat32 f (uint64_t x)) /\
  lanes_sat 32 (sat_u 32) [uint64_t x] f (neon_narrow_sat_u32 f (uint64_t x)) /\
  lanes_sat 32 (sat_s 32) [int64_t x] f (neon_narrow_sat_s32 f x).
Proof.
  rewrite !unpack16_reads. split_and!.
  - apply sat8_chain. intros. apply SAT8_unarrow_step.
  - apply sat8_chain. intros. apply SAT8_narrow_u_step.
  - apply sat8_chain. intros. apply SAT8_narrow_s_step.
  - apply unarrow_sat16_lanes.
  - apply narrow_sat_u16_lanes.
  - apply narrow_sat_s16_lanes.
  - apply unarrow_sat32_lanes, uint_range. lia.
  - apply narrow_sat_u32_lanes, uint_range. lia.
  - apply narrow_sat_s32_lanes.
Qed.
