(* ===== verification/NeonWide.v ===== *)
(** * NEON helpers: widening and long operations

    The helpers of src/emul/qemu/target-arm/neon_helper.c that produce lanes twice
    as wide as their operands' - widening, absolute difference, product - and the
    helpers on 64-bit operands next to them: pairwise long addition, saturating long
    addition, negation, and the saturating absolute value and negation. *)

From S2P Require Import Prelude NeonBase NeonArith NeonNarrow.
Open Scope Z_scope.

(** ** Widening *)

Definition neon_widen_u8 (x : Z) : Z :=
  let ret := uint8_t x in
  let ret := Z.lor ret (Z.shiftl (uint8_t (Z.shiftr x 8)) 16) in
  let ret := Z.lor ret (Z.shiftl (uint8_t (Z.shiftr x 16)) 32) in
  Z.lor ret (Z.shiftl (uint8_t (Z.shiftr x 24)) 48).

Definition neon_widen_s8 (x : Z) : Z :=
  let ret := uint16_t (int8_t x) in
  let ret := Z.lor ret (Z.shiftl (uint16_t (int8_t (Z.shiftr x 8))) 16) in
  let ret := Z.lor ret (Z.shiftl (uint16_t (int8_t (Z.shiftr x 16))) 32) in
  Z.lor ret (Z.shiftl (uint16_t (int8_t (Z.shiftr x 24))) 48).

Definition neon_widen_u16 (x : Z) : Z :=
  let high := uint16_t (Z.shiftr x 16) in
  Z.lor (uint16_t x) (uint64_t (Z.shiftl high 32)).

Definition neon_widen_s16 (x : Z) : Z :=
  let high := uint64_t (int16_t (Z.shiftr x 16)) in
  Z.lor (uint32_t (int16_t x)) (uint64_t (Z.shiftl high 32)).

Definition neon_paddl_u16 (a b : Z) : Z :=
  let tmp := Z.land a 0x0000ffff0000ffff in
  let tmp := uint64_t (tmp + Z.land (Z.shiftr a 16) 0x0000ffff0000ffff) in
  let tmp2 := Z.land b 0xffff0000ffff0000 in
  let tmp2 := uint64_t (tmp2 + Z.land (uint64_t (Z.shiftl b 16)) 0xffff0000ffff0000) in
  Z.lor (Z.lor (Z.lor (Z.land tmp 0xffff) (Z.land (Z.shiftr tmp 16) 0xffff0000))
    (Z.land (uint64_t (Z.shiftl tmp2 16)) 0xffff00000000)) (Z.land tmp2 0xffff000000000000).

Definition neon_paddl_u32 (a b : Z) : Z :=
  let low := uint32_t (a + Z.shiftr a 32) in
  let high := uint32_t (b + Z.shiftr b 32) in
  uint64_t (low + Z.shiftl high 32).

(** ** Long saturating addition *)

Definition addl_sat32 (x y fpscr : Z) : Z * Z :=
  let low := uint32_t (x + y) in
  if nz (Z.land (Z.lxor low x) SIGNBIT) && negb (nz (Z.land (Z.lxor x y) SIGNBIT))
  then (Z.lxor (uint32_t (Z.shiftr (int32_t x) 31)) (uint32_t (Z.lnot SIGNBIT)), SET_QC fpscr)
  else (low, fpscr).

Definition neon_addl_saturate_s32 (fpscr a b : Z) : Z * Z :=
  let '(low, fpscr) := addl_sat32 (uint32_t a) (uint32_t b) fpscr in
  let '(high, fpscr) := addl_sat32 (uint32_t (Z.shiftr a 32)) (uint32_t (Z.shiftr b 32)) fpscr in
  (Z.lor low (Z.shiftl high 32), fpscr).

Definition neon_addl_saturate_s64 (fpscr a b : Z) : Z * Z :=
  let result := uint64_t (a + b) in
  if nz (Z.land (Z.lxor result a) SIGNBIT64) && negb (nz (Z.land (Z.lxor a b) SIGNBIT64))
  then (Z.lxor (uint64_t (Z.shiftr (int64_t a) 63)) (uint64_t (Z.lnot SIGNBIT64)), SET_QC fpscr)
  else (result, fpscr).

(** ** Widening difference, product and negation *)

(** [DO_ABD(dest, x, y, intype, arithtype)] for a 64-bit [dest]; [arithtype] is wider
    than [intype] or unsigned, so that the subtraction does not overflow. *)
Definition DO_ABD (intype arithtype : Z -> Z) (x y : Z) : Z :=
  let tmp_x := arithtype (intype x) in
  let tmp_y := arithtype (intype y) in
  uint64_t (arithtype (if tmp_y <? tmp_x then tmp_x - tmp_y else tmp_y - tmp_x)).

(** The four- and two-element forms shared by the helpers below: [tmp << 16],
    [tmp << 32], [tmp << 48] or the last alone or-ed into the first. *)
Definition long4 (op : Z -> Z -> Z) (a b : Z) : Z :=
  let result := op a b in
  let result := Z.lor result (uint64_t (Z.shiftl (op (Z.shiftr a 8) (Z.shiftr b 8)) 16)) in
  let result := Z.lor result (uint64_t (Z.shiftl (op (Z.shiftr a 16) (Z.shiftr b 16)) 32)) in
  Z.lor result (uint64_t (Z.shiftl (op (Z.shiftr a 24) (Z.shiftr b 24)) 48)).

Definition long2 (op : Z -> Z -> Z) (a b : Z) : Z :=
  Z.lor (op a b) (uint64_t (Z.shiftl (op (Z.shiftr a 16) (Z.shiftr b 16)) 32)).

Definition neon_abdl_u16 := long4 (DO_ABD uint8_t uint32_t).
Definition neon_abdl_s16 := long4 (DO_ABD int8_t int32_t).
Definition neon_abdl_u32 := long2 (DO_ABD uint16_t uint32_t).
Definition neon_abdl_s32 := long2 (DO_ABD int16_t int32_t).
Definition neon_abdl_u64 := DO_ABD uint32_t uint64_t.
Definition neon_abdl_s64 := DO_ABD int32_t int64_t.

(** [DO_MULL(dest, x, y, type1, type2)]: operands of type [uint16_t] are promoted and
    multiplied in [int] ([arith] is [c_int]), those of type [uint32_t] are not. *)
Definition DO_MULL (type1 type2 : Z -> Z) (arith : Z -> option Z) (x y : Z) : option Z :=
  let tmp_x := type1 x in
  let tmp_y := type1 y in
  type2 <$> arith (type2 tmp_x * type2 tmp_y).

(** The four- and two-element forms for a product that may overflow. *)
Definition long4_int (op : Z -> Z -> option Z) (a b : Z) : option Z :=
  result ← op a b;
  tmp ← op (Z.shiftr a 8) (Z.shiftr b 8);
  let result := Z.lor result (uint64_t (Z.shiftl tmp 16)) in
  tmp ← op (Z.shiftr a 16) (Z.shiftr b 16);
  let result := Z.lor result (uint64_t (Z.shiftl tmp 32)) in
  tmp ← op (Z.shiftr a 24) (Z.shiftr b 24);
  Some (Z.lor result (uint64_t (Z.shiftl tmp 48))).

Definition long2_int (op : Z -> Z -> option Z) (a b : Z) : option Z :=
  result ← op a b;
  tmp ← op (Z.shiftr a 16) (Z.shiftr b 16);
  Some (Z.lor result (uint64_t (Z.shiftl tmp 32))).

Definition neon_mull_u8 := long4_int (DO_MULL uint8_t uint16_t c_int).
Definition neon_mull_s8 := long4_int (DO_MULL int8_t uint16_t c_int).
Definition neon_mull_u16 := long2_int (DO_MULL uint16_t uint32_t c_uint).
Definition neon_mull_s16 := long2_int (DO_MULL int16_t uint32_t c_uint).

Definition neon_negl_u16 (x : Z) : Z :=
  let result := uint16_t (- x) in
  let result := Z.lor result (Z.shiftl (uint16_t (- Z.shiftr x 16)) 16) in
  let result := Z.lor result (Z.shiftl (uint16_t (- Z.shiftr x 32)) 32) in
  Z.lor result (Z.shiftl (uint16_t (- Z.shiftr x 48)) 48).

Definition neon_negl_u32 (x : Z) : Z :=
  let low := uint32_t (- x) in
  let high := uint32_t (- Z.shiftr x 32) in
  Z.lor low (Z.shiftl high 32).

Definition neon_negl_u64 (x : Z) : Z := uint64_t (- x).

(** ** Saturating absolute value and negation *)

Definition DO_QABS (w x : Z) : Z * bool :=
  if x =? sint w (2 ^ (w - 1)) then (2 ^ (w - 1) - 1, true)
  else if x <? 0 then (- x, false) else (x, false).

Definition DO_QNEG (w x : Z) : Z * bool :=
  if x =? sint w (2 ^ (w - 1)) then (2 ^ (w - 1) - 1, true) else (- x, false).

Definition neon_qabs_s8 := NEON_VOP1_ENV true 8 4 (DO_QABS 8).
Definition neon_qneg_s8 := NEON_VOP1_ENV true 8 4 (DO_QNEG 8).
Definition neon_qabs_s16 := NEON_VOP1_ENV true 16 2 (DO_QABS 16).
Definition neon_qneg_s16 := NEON_VOP1_ENV true 16 2 (DO_QNEG 16).

Definition neon_qabs_s32 (fpscr x : Z) : Z * Z :=
  if x =? SIGNBIT then (uint32_t (Z.lnot SIGNBIT), SET_QC fpscr)
  else if int32_t x <? 0 then (uint32_t (- x), fpscr) else (x, fpscr).

Definition neon_qneg_s32 (fpscr x : Z) : Z * Z :=
  if x =? SIGNBIT then (uint32_t (Z.lnot SIGNBIT), SET_QC fpscr) else (uint32_t (- x), fpscr).

(** ** Widening *)

(** The words assembled by or-ing shifted 16- and 32-bit values. *)
Lemma lanes_or4 e0 e1 e2 e3 d0 d1 d2 d3 :
  d0 = uint 16 e0 -> d1 = uint 16 e1 -> d2 = uint 16 e2 -> d3 = uint 16 e3 ->
  lanes 16 [e0; e1; e2; e3]
    (Z.lor (Z.lor (Z.lor d0 (Z.shiftl d1 16)) (Z.shiftl d2 32)) (Z.shiftl d3 48)).
Proof.
  intros -> -> -> ->. rewrite (pack4_lor 16) by (lia || apply uint_range; lia).
  apply lanes_pack; [lia|done|]. cbn. by rewrite !uint_uint by lia.
Qed.

Lemma lanes_or2 e0 e1 d0 d1 : d0 = uint 32 e0 -> d1 = uint 32 e1 ->
  lanes 32 [e0; e1] (Z.lor d0 (Z.shiftl d1 32)).
Proof.
  intros -> ->. rewrite (pack2_lor 32) by (lia || apply uint_range; lia).
  apply lanes_pack; [lia|done|]. cbn. by rewrite !uint_uint by lia.
Qed.

Lemma uint64_shl w n d : in_u w d -> 0 <= w -> 0 <= n -> w + n <= 64 ->
  uint64_t (Z.shiftl d n) = Z.shiftl d n.
Proof.
  intros Hd Hw Hn H. apply uint_id. rewrite Z.shiftl_mul_pow2 by lia. unfold in_u in *.
  assert (2 ^ w * 2 ^ n <= 2 ^ 64) by (rewrite <- Z.pow_add_r by lia; apply Z.pow_le_mono_r; lia).
  nia.
Qed.

Lemma unpack8_reads (sg : bool) x :
  NEON_UNPACK sg 8 4 x = (fun n => elem sg 8 (Z.shiftr x n)) <$> [0; 8; 16; 24].
Proof. unfold NEON_UNPACK, unpack. cbn. by rewrite !elem_lane by lia. Qed.

Lemma unpack16_reads2 (sg : bool) x :
  NEON_UNPACK sg 16 2 x = [elem sg 16 x; elem sg 16 (Z.shiftr x 16)].
Proof. unfold NEON_UNPACK, unpack. cbn. by rewrite !elem_lane, Z.shiftr_0_r by lia. Qed.

Lemma widen_u8_lanes x : lanes 16 (NEON_UNPACK false 8 4 x) (neon_widen_u8 x).
Proof.
  rewrite unpack8_reads. apply lanes_or4; rewrite ?Z.shiftr_0_r; unfold elem; cint.
Qed.
Lemma widen_s8_lanes x : lanes 16 (NEON_UNPACK true 8 4 x) (neon_widen_s8 x).
Proof. rewrite unpack8_reads. apply lanes_or4; by rewrite ?Z.shiftr_0_r. Qed.

Lemma widen_u16_lanes x : lanes 32 (NEON_UNPACK false 16 2 x) (neon_widen_u16 x).
Proof.
  rewrite unpack16_reads2. unfold neon_widen_u16. cbn zeta.
  rewrite (uint64_shl 16) by (lia || apply uint_range; lia). apply lanes_or2; unfold elem; cint.
Qed.

Lemma widen_s16_lanes x : lanes 32 (NEON_UNPACK true 16 2 x) (neon_widen_s16 x).
Proof.
  rewrite unpack16_reads2. unfold neon_widen_s16. cbn zeta.
  assert (uint64_t (Z.shiftl (uint64_t (int16_t (Z.shiftr x 16))) 32) =
    Z.shiftl (uint32_t (int16_t (Z.shiftr x 16))) 32) as ->.
  { generalize (int16_t (Z.shiftr x 16)). intros h. rewrite !Z.shiftl_mul_pow2 by lia. cint. }
  by apply lanes_or2.
Qed.

(** Narrowing undoes widening, with either extension. *)
Lemma narrow_widen8 (sg : bool) x y : in_u 32 x ->
  lanes 16 (NEON_UNPACK sg 8 4 x) y -> neon_narrow_u8 y = x.
Proof.
  intros Hx Hy. apply (unpack_inj 8 4); [lia|apply uint_range; lia|done|].
  pose proof (narrow_u8_lanes y) as H. unfold lanes in *. rewrite length_unpack in H. rewrite H.
  rewrite length_NEON_UNPACK in Hy. rewrite Hy. unfold NEON_UNPACK, unpack.
  rewrite <- !list_fmap_compose. apply list_fmap_ext. intros _ i _. cbn.
  rewrite uint_uint by lia. unfold elem. destruct sg; rewrite ?uint_sint, ?uint_uint by lia;
    apply uint_id, lane_range; lia.
Qed.

Lemma narrow_widen16 (sg : bool) x y : in_u 32 x ->
  lanes 32 (NEON_UNPACK sg 16 2 x) y -> neon_narrow_u16 y = x.
Proof.
  intros Hx Hy. apply (unpack_inj 16 2); [lia|apply uint_range; lia|done|].
  pose proof (narrow_u16_lanes y) as H. unfold lanes in *. rewrite length_unpack in H. rewrite H.
  rewrite length_NEON_UNPACK in Hy. rewrite Hy. unfold NEON_UNPACK, unpack.
  rewrite <- !list_fmap_compose. apply list_fmap_ext. intros _ i _. cbn.
  rewrite uint_uint by lia. unfold elem. destruct sg; rewrite ?uint_sint, ?uint_uint by lia;
    apply uint_id, lane_range; lia.
Qed.

(** Widening extends every lane with zeroes or with its sign, and narrowing the
    result gives the operand back. *)
Lemma neon_widen_correct x :
  lanes 16 (NEON_UNPACK false 8 4 x) (neon_widen_u8 x) /\
  lanes 16 (NEON_UNPACK true 8 4 x) (neon_widen_s8 x) /\
  lanes 32 (NEON_UNPACK false 16 2 x) (neon_widen_u16 x) /\
  lanes 32 (NEON_UNPACK true 16 2 x) (neon_widen_s16 x) /\
  neon_narrow_u8 (neon_widen_u8 (uint32_t x)) = uint32_t x /\
  neon_narrow_u8 (neon_widen_s8 (uint32_t x)) = uint32_t x /\
  neon_narrow_u16 (neon_widen_u16 (uint32_t x)) = uint32_t x /\
  neon_narrow_u16 (neon_widen_s16 (uint32_t x)) = uint32_t x.
Proof.
  assert (in_u 32 (uint32_t x)) as Hx by (apply uint_range; lia).
  split_and!; [apply widen_u8_lanes|apply widen_s8_lanes|apply widen_u16_lanes|apply widen_s16_lanes
    |eapply narrow_widen8; [done|apply widen_u8_lanes]
    |eapply narrow_widen8; [done|apply widen_s8_lanes]
    |eapply narrow_widen16; [done|apply widen_u16_lanes]
    |eapply narrow_widen16; [done|apply widen_s16_lanes]].
Qed.

(** ** Long operations *)

(** The four- and two-lane forms over an operation that only depends on the low
    bits of its arguments. *)
Lemma long4_lanes (sg : bool) op f a b :
  (forall x y, op x y = uint 16 (f (elem sg 8 x) (elem sg 8 y))) ->
  lanes 16 (zip_with f (NEON_UNPACK sg 8 4 a) (NEON_UNPACK sg 8 4 b)) (long4 op a b).
Proof.
  intros H. unfold long4. cbn zeta.
  rewrite !H, !(uint64_shl 16) by (lia || apply uint_range; lia).
  rewrite !unpack8_reads. cbn [zip_with fmap list_fmap]. apply lanes_or4; by rewrite ?Z.shiftr_0_r.
Qed.

Lemma long2_lanes (sg : bool) op f a b :
  (forall x y, op x y = uint 32 (f (elem sg 16 x) (elem sg 16 y))) ->
  lanes 32 (zip_with f (NEON_UNPACK sg 16 2 a) (NEON_UNPACK sg 16 2 b)) (long2 op a b).
Proof.
  intros H. unfold long2. rewrite !H, !(uint64_shl 32) by (lia || apply uint_range; lia).
  rewrite !unpack16_reads2. by apply lanes_or2.
Qed.


(** The absolute difference fits the temporary when the operands do. *)
Lemma DO_ABD_ok (intype arithtype : Z -> Z) (ok : Z -> Prop) x y :
  (forall z, ok z -> arithtype z = z) -> ok (intype x) -> ok (intype y) ->
  ok (absdiff (intype x) (intype y)) ->
  DO_ABD intype arithtype x y = uint64_t (absdiff (intype x) (intype y)).
Proof.
  intros H Hx Hy Hd. unfold DO_ABD. cbn zeta.
  rewrite (H (intype x)), (H (intype y)) by done. rewrite <- (H (absdiff _ _)) by done.
  do 2 f_equal. unfold absdiff. destruct (Z.ltb_spec (intype y) (intype x)); lia.
Qed.

Lemma DO_ABD_u w intype x y : in_u w (intype x) -> in_u w (intype y) ->
  DO_ABD intype (uint w) x y = uint64_t (absdiff (intype x) (intype y)).
Proof.
  intros Hx Hy. apply (DO_ABD_ok _ _ (in_u w)); [apply uint_id|done|done|].
  unfold in_u, absdiff in *. lia.
Qed.

Lemma DO_ABD_s w intype x y : 0 < w -> in_s w (intype x) -> in_s w (intype y) ->
  in_s w (absdiff (intype x) (intype y)) ->
  DO_ABD intype (sint w) x y = uint64_t (absdiff (intype x) (intype y)).
Proof. intros Hw. apply (DO_ABD_ok _ _ (in_s w)). intros z. by apply sint_id. Qed.

Ltac abd_solve :=
  intros; unfold neon_abdl_u64, neon_abdl_s64; bits_unfold;
  rewrite ?DO_ABD_u, ?DO_ABD_s; unfold elem, absdiff; cint.

Lemma abdl_lanes a b :
  lanes 16 (zip_with absdiff (NEON_UNPACK false 8 4 a) (NEON_UNPACK false 8 4 b)) (neon_abdl_u16 a b) /\
  lanes 16 (zip_with absdiff (NEON_UNPACK true 8 4 a) (NEON_UNPACK true 8 4 b)) (neon_abdl_s16 a b) /\
  lanes 32 (zip_with absdiff (NEON_UNPACK false 16 2 a) (NEON_UNPACK false 16 2 b)) (neon_abdl_u32 a b) /\
  lanes 32 (zip_with absdiff (NEON_UNPACK true 16 2 a) (NEON_UNPACK true 16 2 b)) (neon_abdl_s32 a b) /\
  neon_abdl_u64 a b = absdiff (uint32_t a) (uint32_t b) /\
  neon_abdl_s64 a b = absdiff (int32_t a) (int32_t b).
Proof.
  split_and!.
  - apply long4_lanes. abd_solve.
  - apply long4_lanes. abd_solve.
  - apply long2_lanes. abd_solve.
  - apply long2_lanes. abd_solve.
  - revert a b. abd_solve.
  - revert a b. abd_solve.
Qed.

(** *** Products *)

(** Defined exactly when [def] holds in every lane, and then with the lanes [f]. *)
Definition long_int (sg : bool) (w : Z) (n : nat) (def : Z -> Z -> Prop) (f : Z -> Z -> Z)
    (res : option Z) (a b : Z) : Prop :=
  match res with
  | Some r => all_lanes sg w n def a b /\
      lanes (2 * w) (zip_with f (NEON_UNPACK sg w n a) (NEON_UNPACK sg w n b)) r
  | None => some_lane_not sg w n def a b
  end.

(** What a product macro returns, for operands whose low bits are the elements. *)
Definition op_int (sg : bool) (w : Z) (def : Z -> Z -> Prop) (f : Z -> Z -> Z)
    (op : Z -> Z -> option Z) : Prop :=
  forall x y, match op x y with
              | Some r => def (elem sg w x) (elem sg w y) /\ r = uint (2 * w) (f (elem sg w x) (elem sg w y))
              | None => ~ def (elem sg w x) (elem sg w y)
              end.

(** A failing element makes a lane fail. *)
Lemma op_int_None sg w n def f op a b i : 0 < w -> 0 <= i < Z.of_nat n -> op_int sg w def f op ->
  op (Z.shiftr a (w * i)) (Z.shiftr b (w * i)) = None -> some_lane_not sg w n def a b.
Proof.
  intros Hw Hi H E. specialize (H (Z.shiftr a (w * i)) (Z.shiftr b (w * i))). rewrite E in H.
  exists i. by rewrite !elem_lane.
Qed.

Lemma op_int_Some sg w def f op a b i r : 0 < w -> op_int sg w def f op ->
  op (Z.shiftr a (w * i)) (Z.shiftr b (w * i)) = Some r ->
  def (elem sg w (lane w i a)) (elem sg w (lane w i b)) /\
  r = uint (2 * w) (f (elem sg w (Z.shiftr a (w * i))) (elem sg w (Z.shiftr b (w * i)))).
Proof.
  intros Hw H E. specialize (H (Z.shiftr a (w * i)) (Z.shiftr b (w * i))). rewrite E in H.
  by rewrite !elem_lane.
Qed.

(** Evaluates the element at index [i], or ends with the failing lane. *)
Ltac long_step H op a b w i r :=
  let E := fresh "E" in
  let x := eval cbv in (w * i) in
  destruct (op (Z.shiftr a x) (Z.shiftr b x)) as [r|] eqn:E; cbn [mbind option_bind];
  [apply (op_int_Some _ w _ _ _ a b i r ltac:(lia) H) in E as [? ->]
  |eapply (op_int_None _ w _ _ _ op a b i); [lia|lia|exact H|exact E]].

Lemma long4_int_lanes sg def f op a b : op_int sg 8 def f op ->
  long_int sg 8 4 def f (long4_int op a b) a b.
Proof.
  intros H. unfold long4_int.
  assert (op a b = op (Z.shiftr a 0) (Z.shiftr b 0)) as -> by by rewrite !Z.shiftr_0_r.
  long_step H op a b 8 0 r0. long_step H op a b 8 1 r1.
  long_step H op a b 8 2 r2. long_step H op a b 8 3 r3. split.
  - intros i Hi. by assert (i = 0 \/ i = 1 \/ i = 2 \/ i = 3) as [->|[->|[->| ->]]] by lia.
  - rewrite !Z.shiftr_0_r.
    exact (long4_lanes sg (fun x y => uint 16 (f (elem sg 8 x) (elem sg 8 y))) f a b (fun _ _ => eq_refl)).
Qed.

Lemma long2_int_lanes sg def f op a b : op_int sg 16 def f op ->
  long_int sg 16 2 def f (long2_int op a b) a b.
Proof.
  intros H. unfold long2_int.
  assert (op a b = op (Z.shiftr a 0) (Z.shiftr b 0)) as -> by by rewrite !Z.shiftr_0_r.
  long_step H op a b 16 0 r0. long_step H op a b 16 1 r1. split.
  - intros i Hi. by assert (i = 0 \/ i = 1) as [->| ->] by lia.
  - rewrite !Z.shiftr_0_r.
    exact (long2_lanes sg (fun x y => uint 32 (f (elem sg 16 x) (elem sg 16 y))) f a b (fun _ _ => eq_refl)).
Qed.

(** Two negative elements make the product of their 16-bit forms overflow [int]; no
    other elements do. *)
Lemma mull_s8_int : op_int true 8 (fun x y => ~ (x < 0 /\ y < 0)) Z.mul (DO_MULL int8_t uint16_t c_int).
Proof.
  intros x y. unfold DO_MULL. cbn zeta. change (int8_t x) with (elem true 8 x).
  change (int8_t y) with (elem true 8 y).
  pose proof (elem_range_s 8 x ltac:(lia)) as Hx. pose proof (elem_range_s 8 y ltac:(lia)) as Hy.
  revert Hx Hy. generalize (elem true 8 x) (elem true 8 y). clear x y. intros x y Hx Hy.
  assert (forall z, in_s 8 z -> uint16_t z = if z <? 0 then z + 65536 else z) as HU.
  { intros z Hz. unfold in_s in Hz. unfold uint16_t, uint. destruct (Z.ltb_spec z 0).
    - symmetry. apply (Z.mod_unique _ _ (-1)); lia.
    - apply Z.mod_small. lia. }
  destruct (decide (x < 0 /\ y < 0)) as [Hn|Hn].
  - rewrite !HU, !(proj2 (Z.ltb_lt _ 0)) by (done || lia). unfold in_s in *.
    rewrite c_int_None by (unfold in_s; nia). cbn. tauto.
  - rewrite c_int_Some; cbn.
    + split; [done|]. unfold uint16_t. apply uint_mul.
    + rewrite !HU by done. unfold in_s in *. destruct (Z.ltb_spec x 0), (Z.ltb_spec y 0); nia.
Qed.

Lemma mull_u8_int : op_int false 8 (fun _ _ => True) Z.mul (DO_MULL uint8_t uint16_t c_int).
Proof.
  intros x y. unfold DO_MULL. cbn zeta.
  pose proof (elem_range_u 8 x ltac:(lia)) as Hx. pose proof (elem_range_u 8 y ltac:(lia)) as Hy.
  change (uint8_t x) with (elem false 8 x). change (uint8_t y) with (elem false 8 y).
  rewrite c_int_Some; cbn [fmap option_fmap option_map].
  - split; [done|]. apply uint_mul.
  - unfold uint16_t. unfold in_u, in_s in *. rewrite !(uint_id 16) by (unfold in_u; lia). nia.
Qed.

Lemma mull_16_int (sg : bool) : op_int sg 16 (fun _ _ => True) Z.mul
  (DO_MULL (if sg then int16_t else uint16_t) uint32_t c_uint).
Proof.
  intros x y. unfold DO_MULL, c_uint. cbn. split; [done|].
  unfold uint32_t. rewrite uint_uint by lia. destruct sg; apply uint_mul.
Qed.

Lemma mull_lanes a b :
  long_int false 8 4 (fun _ _ => True) Z.mul (neon_mull_u8 a b) a b /\
  long_int true 8 4 (fun x y => ~ (x < 0 /\ y < 0)) Z.mul (neon_mull_s8 a b) a b /\
  long_int false 16 2 (fun _ _ => True) Z.mul (neon_mull_u16 a b) a b /\
  long_int true 16 2 (fun _ _ => True) Z.mul (neon_mull_s16 a b) a b.
Proof.
  split_and!; [apply long4_int_lanes, mull_u8_int|apply long4_int_lanes, mull_s8_int
    |apply long2_int_lanes, (mull_16_int false)|apply long2_int_lanes, (mull_16_int true)].
Qed.

Lemma negl_lanes x :
  lanes 16 (Z.opp <$> unpack 16 4 x) (neon_negl_u16 x) /\
  lanes 32 (Z.opp <$> unpack 32 2 x) (neon_negl_u32 x).
Proof.
  unfold unpack. cbn [seq fmap list_fmap]. lane_index. split.
  - apply lanes_or4; unfold lane, uint16_t; rewrite <- (Z.sub_0_l (uint _ _)), <- (Z.sub_0_l (_ : Z));
      rewrite <- uint_sub, <- (uint_sub 16 0 (uint _ _)), uint_uint, ?Z.shiftr_0_r by lia; done.
  - apply lanes_or2; unfold lane, uint32_t; rewrite <- (Z.sub_0_l (uint _ _)), <- (Z.sub_0_l (_ : Z));
      rewrite <- uint_sub, <- (uint_sub 32 0 (uint _ _)), uint_uint, ?Z.shiftr_0_r by lia; done.
Qed.

(** ** Pairwise long addition *)

(** A mask of whole lanes selects lanes. *)
Lemma land_select w (ms : list bool) a : 0 < w -> in_u (w * Z.of_nat (length ms)) a ->
  Z.land a (pack w ((fun m : bool => if m then Z.ones w else 0) <$> ms)) =
  pack w (zip_with (fun (m : bool) l => if m then l else 0) ms (unpack w (length ms) a)).
Proof.
  intros Hw Ha. apply (lane_ext w (length ms)); [done| | |].
  - apply testbit_in_u; [lia|apply Z.land_nonneg; left; apply Ha|].
    intros i Hi. rewrite Z.land_spec.
    by rewrite (in_u_testbit (w * Z.of_nat (length ms)) a) by (done || lia).
  - pose proof (pack_range w (zip_with (fun (m : bool) l => if m then l else 0) ms
      (unpack w (length ms) a)) Hw) as H.
    by rewrite length_zip_with, length_unpack, Nat.min_id in H.
  - intros n Hn. rewrite lane_land, !lane_pack by lia.
    rewrite list_lookup_fmap, lookup_zip_with, unpack_lookup by lia. rewrite Z2Nat.id by lia.
    destruct (lookup_lt_is_Some_2 ms (Z.to_nat n) ltac:(lia)) as [m ->]. cbn.
    destruct m.
    + rewrite (uint_id w (Z.ones w)) by (rewrite Z.ones_equiv; unfold in_u; lia).
      by rewrite <- uint_land by lia.
    + unfold uint. by rewrite Z.mod_0_l, Z.land_0_r by lia.
Qed.

Lemma lane_shift w n k x : 0 <= w -> 0 <= n -> 0 <= k ->
  lane w n (Z.shiftr x (w * k)) = lane w (n + k) x.
Proof.
  intros. unfold lane. rewrite Z.shiftr_shiftr by nia. do 2 f_equal. lia.
Qed.

Lemma lane_shift_up w n k x : 0 < w -> 0 <= k <= n ->
  lane w n (Z.shiftl x (w * k)) = lane w (n - k) x.
Proof.
  intros. unfold lane. f_equal. rewrite Z.shiftr_shiftl_r by nia. f_equal. lia.
Qed.

(** Adding selected lanes whose neighbours are clear: the carries stop there. *)
Lemma add_even_lanes a0 a2 b0 b2 : in_u 16 a0 -> in_u 16 a2 -> in_u 16 b0 -> in_u 16 b2 ->
  let t := uint64_t (pack 16 [a0; 0; a2; 0] + pack 16 [b0; 0; b2; 0]) in
  lane 16 0 t = uint 16 (a0 + b0) /\ lane 16 2 t = uint 16 (a2 + b2).
Proof.
  intros H0 H1 H2 H3. cbn zeta. rewrite !pack_cons by lia. cbn [pack].
  rewrite !lane_div_mod by lia. change (16 * 0) with 0. change (16 * 2) with 32.
  unfold uint64_t, uint, in_u in *. pow_norm. Z.to_euclidean_division_equations; lia.
Qed.

Lemma add_odd_lanes a1 a3 b1 b3 : in_u 16 a1 -> in_u 16 a3 -> in_u 16 b1 -> in_u 16 b3 ->
  let t := uint64_t (pack 16 [0; a1; 0; a3] + pack 16 [0; b1; 0; b3]) in
  lane 16 1 t = uint 16 (a1 + b1) /\ lane 16 3 t = uint 16 (a3 + b3).
Proof.
  intros H0 H1 H2 H3. cbn zeta. rewrite !pack_cons by lia. cbn [pack].
  rewrite !lane_div_mod by lia. change (16 * 1) with 16. change (16 * 3) with 48.
  unfold uint64_t, uint, in_u in *. pow_norm. Z.to_euclidean_division_equations; lia.
Qed.

Lemma select_even a : in_u 64 a ->
  Z.land a 0x0000ffff0000ffff = pack 16 [lane 16 0 a; 0; lane 16 2 a; 0].
Proof. apply (land_select 16 [true; false; true; false]). lia. Qed.

Lemma select_odd a : in_u 64 a ->
  Z.land a 0xffff0000ffff0000 = pack 16 [0; lane 16 1 a; 0; lane 16 3 a].
Proof. apply (land_select 16 [false; true; false; true]). lia. Qed.

Lemma shiftr_in_u w n x : 0 <= n -> in_u w x -> in_u w (Z.shiftr x n).
Proof.
  intros Hn Hx. rewrite Z.shiftr_div_pow2 by lia. unfold in_u in *. split.
  - apply Z.div_pos; lia.
  - apply Z.div_lt_upper_bound; [lia|]. nia.
Qed.

Lemma lane_shr16 n a : 0 <= n -> lane 16 n (Z.shiftr a 16) = lane 16 (n + 1) a.
Proof. intros. apply (lane_shift 16 n 1 a); lia. Qed.

Lemma lane_shl16 n b : 1 <= n <= 3 -> lane 16 n (uint64_t (Z.shiftl b 16)) = lane 16 (n - 1) b.
Proof. intros. unfold uint64_t. rewrite lane_uint by lia. apply (lane_shift_up 16 n 1 b); lia. Qed.

Lemma paddl_u16_lanes a b : in_u 64 a -> in_u 64 b ->
  lanes 16 (pairwise Z.add (unpack 16 4 a ++ unpack 16 4 b)) (neon_paddl_u16 a b).
Proof.
  intros Ha Hb. unfold neon_paddl_u16. cbn zeta.
  rewrite !select_even, !select_odd by (done || (apply shiftr_in_u; [lia|done]) || (apply uint_range; lia)).
  rewrite !lane_shr16, !lane_shl16 by lia.
  pose proof (fun n x => lane_range 16 n x ltac:(lia)) as HR.
  pose proof (add_even_lanes _ _ _ _ (HR 0 a) (HR 2 a) (HR (0 + 1) a) (HR (2 + 1) a)) as [E0 E2].
  pose proof (add_odd_lanes _ _ _ _ (HR 1 b) (HR 3 b) (HR (1 - 1) b) (HR (3 - 1) b)) as [E1 E3].
  set (tmp := uint64_t (pack 16 [_; 0; _; 0] + _)) in *. set (tmp2 := uint64_t (pack 16 [0; _; 0; _] + _)) in *.
  transitivity [lane 16 0 tmp; lane 16 2 tmp; lane 16 1 tmp2; lane 16 3 tmp2].
  { lanes_cases; field_masks; bitwise; cbn [orb]; rewrite ?orb_false_r; f_equal; lia. }
  rewrite E0, E1, E2, E3. unfold unpack. cbn -[lane uint]. lane_index.
  by rewrite (Z.add_comm (lane 16 1 b)), (Z.add_comm (lane 16 3 b)).
Qed.

Lemma paddl_u32_lanes a b :
  lanes 32 (pairwise Z.add (unpack 32 2 a ++ unpack 32 2 b)) (neon_paddl_u32 a b).
Proof.
  unfold neon_paddl_u32. cbn zeta.
  assert (forall x, uint32_t (x + Z.shiftr x 32) = uint 32 (lane 32 0 x + lane 32 1 x)) as E.
  { intros x. unfold lane. change (32 * 0) with 0. change (32 * 1) with 32.
    by rewrite Z.shiftr_0_r, uint_add. }
  rewrite !E. set (l := uint 32 (lane 32 0 a + _)). set (h := uint 32 (lane 32 0 b + _)).
  assert (in_u 32 l) as Hl by (apply uint_range; lia). assert (in_u 32 h) as Hh by (apply uint_range; lia).
  assert (uint64_t (l + Z.shiftl h 32) = Z.lor l (Z.shiftl h 32)) as ->.
  { rewrite (pack2_lor 32), !pack_cons, !(uint_id 32) by (done || lia). cbn [pack].
    rewrite Z.shiftl_mul_pow2 by lia. cint. }
  by apply lanes_or2.
Qed.

(** ** Saturating helpers *)

Lemma addl_sat32_eq x y f : in_u 32 x -> in_u 32 y ->
  addl_sat32 x y f = neon_qadd_s32 f x y.
Proof.
  intros Hx Hy. unfold addl_sat32, neon_qadd_s32. cbn zeta. destruct (_ && _); [|done]. f_equal.
  rewrite sat_value32 by done. change 31 with (32 - 1).
  rewrite shiftr_sign by (lia || apply sint_range; lia). rewrite int32_sign by done.
  by destruct (int32_t x <? 0).
Qed.

(** The result of a 32-bit saturating addition as a lane with its mark. *)
Lemma addl_sat32_ok x y f : in_u 32 x -> in_u 32 y -> exists d b,
  addl_sat32 x y f = (d, qc_if b f) /\ in_u 32 d /\
  sat_elem 32 (sat_s 32) (int32_t x + int32_t y) (d, b).
Proof.
  intros Hx Hy. rewrite addl_sat32_eq by done.
  destruct (qadd_s32_whole f x y Hx Hy) as [H1 H2].
  exists (uint 32 (sat_s 32 (int32_t x + int32_t y))),
    (negb (sat_s 32 (int32_t x + int32_t y) =? int32_t x + int32_t y)).
  split; [|split; [apply uint_range; lia|]].
  - rewrite <- H1, <- H2. apply surjective_pairing.
  - split; cbn; [by rewrite uint_uint by lia|done].
Qed.

Lemma addl_saturate_s32_lanes f a b :
  lanes_sat 32 (sat_s 32) (zip_with Z.add (NEON_UNPACK true 32 2 a) (NEON_UNPACK true 32 2 b)) f
    (neon_addl_saturate_s32 f a b).
Proof.
  rewrite !unpack32_reads. cbn [zip_with]. unfold neon_addl_saturate_s32.
  pose proof (fun x => uint_range 32 x ltac:(lia)) as HR.
  destruct (addl_sat32_ok (uint32_t a) (uint32_t b) f (HR a) (HR b)) as (d0 & b0 & -> & R0 & S0).
  destruct (addl_sat32_ok (uint32_t (Z.shiftr a 32)) (uint32_t (Z.shiftr b 32)) (qc_if b0 f)
    (HR _) (HR _)) as (d1 & b1 & -> & R1 & S1).
  unfold int32_t, uint32_t in *. rewrite !sint_uint in * by lia.
  by apply lanes_sat_pair.
Qed.

Lemma addl_saturate_s64_whole f a b : in_u 64 a -> in_u 64 b ->
  whole_sat true 64 (sat_s 64) (int64_t a + int64_t b) f (neon_addl_saturate_s64 f a b).
Proof. apply qadd_s64_whole. Qed.

(** The long operations compute every double-width lane exactly: absolute
    difference (whose value may need the extra bit), negation and the pairwise sums,
    and products where they are defined; the saturating long addition clamps to the wide type. *)
Lemma neon_long_correct f a b :
  (lanes 16 (zip_with absdiff (NEON_UNPACK false 8 4 a) (NEON_UNPACK false 8 4 b)) (neon_abdl_u16 a b) /\
   lanes 16 (zip_with absdiff (NEON_UNPACK true 8 4 a) (NEON_UNPACK true 8 4 b)) (neon_abdl_s16 a b) /\
   lanes 32 (zip_with absdiff (NEON_UNPACK false 16 2 a) (NEON_UNPACK false 16 2 b)) (neon_abdl_u32 a b) /\
   lanes 32 (zip_with absdiff (NEON_UNPACK true 16 2 a) (NEON_UNPACK true 16 2 b)) (neon_abdl_s32 a b) /\
   neon_abdl_u64 a b = absdiff (uint32_t a) (uint32_t b) /\
   neon_abdl_s64 a b = absdiff (int32_t a) (int32_t b)) /\
  (long_int false 8 4 (fun _ _ => True) Z.mul (neon_mull_u8 a b) a b /\
   long_int true 8 4 (fun x y => ~ (x < 0 /\ y < 0)) Z.mul (neon_mull_s8 a b) a b /\
   long_int false 16 2 (fun _ _ => True) Z.mul (neon_mull_u16 a b) a b /\
   long_int true 16 2 (fun _ _ => True) Z.mul (neon_mull_s16 a b) a b) /\
  (lanes 16 (Z.opp <$> unpack 16 4 a) (neon_negl_u16 a) /\
   lanes 32 (Z.opp <$> unpack 32 2 a) (neon_negl_u32 a)) /\
  lanes 16 (pairwise Z.add (unpack 16 4 (uint64_t a) ++ unpack 16 4 (uint64_t b)))
    (neon_paddl_u16 (uint64_t a) (uint64_t b)) /\
  lanes 32 (pairwise Z.add (unpack 32 2 a ++ unpack 32 2 b)) (neon_paddl_u32 a b) /\
  lanes_sat 32 (sat_s 32) (zip_with Z.add (NEON_UNPACK true 32 2 a) (NEON_UNPACK true 32 2 b)) f
    (neon_addl_saturate_s32 f a b) /\
  whole_sat true 64 (sat_s 64) (int64_t (uint64_t a) + int64_t (uint64_t b)) f
    (neon_addl_saturate_s64 f (uint64_t a) (uint64_t b)).
Proof.
  split; [apply abdl_lanes|]. split; [apply mull_lanes|]. split; [apply negl_lanes|].
  split_and!; [apply paddl_u16_lanes; apply uint_range; lia|apply paddl_u32_lanes
    |apply addl_saturate_s32_lanes|apply addl_saturate_s64_whole; apply uint_range; lia].
Qed.

Lemma DO_QABS_ok w x : w = 8 \/ w = 16 -> in_s w x -> sat_elem w (sat_s w) (Z.abs x) (DO_QABS w x).
Proof. intros [->| ->] Hx; unfold DO_QABS; sat_elem_solve. Qed.

Lemma DO_QNEG_ok w x : w = 8 \/ w = 16 -> in_s w x -> sat_elem w (sat_s w) (- x) (DO_QNEG w x).
Proof. intros [->| ->] Hx; unfold DO_QNEG; sat_elem_solve. Qed.

Lemma qabs_s32_whole f x : in_u 32 x ->
  whole_sat true 32 (sat_s 32) (Z.abs (int32_t x)) f (neon_qabs_s32 f x).
Proof.
  intros Hx. unfold neon_qabs_s32, whole_sat. change (uint32_t (Z.lnot SIGNBIT)) with 2147483647. sat_solve.
Qed.

Lemma qneg_s32_whole f x : in_u 32 x ->
  whole_sat true 32 (sat_s 32) (- int32_t x) f (neon_qneg_s32 f x).
Proof.
  intros Hx. unfold neon_qneg_s32, whole_sat. change (uint32_t (Z.lnot SIGNBIT)) with 2147483647. sat_solve.
Qed.

(** Saturating absolute value and negation return the exact value except for
    the most negative element, which becomes the largest one and sets the flag. *)
Lemma neon_qabs_qneg_correct f x :
  lanes_sat 8 (sat_s 8) (Z.abs <$> NEON_UNPACK true 8 4 x) f (neon_qabs_s8 f x) /\
  lanes_sat 8 (sat_s 8) (Z.opp <$> NEON_UNPACK true 8 4 x) f (neon_qneg_s8 f x) /\
  lanes_sat 16 (sat_s 16) (Z.abs <$> NEON_UNPACK true 16 2 x) f (neon_qabs_s16 f x) /\
  lanes_sat 16 (sat_s 16) (Z.opp <$> NEON_UNPACK true 16 2 x) f (neon_qneg_s16 f x) /\
  whole_sat true 32 (sat_s 32) (Z.abs (int32_t (uint32_t x))) f (neon_qabs_s32 f (uint32_t x)) /\
  whole_sat true 32 (sat_s 32) (- int32_t (uint32_t x)) f (neon_qneg_s32 f (uint32_t x)).
Proof.
  split_and!; try (apply NEON_VOP1_ENV_lanes; [lia|]; intros; (apply DO_QABS_ok || apply DO_QNEG_ok); auto).
  - apply qabs_s32_whole, uint_range. lia.
  - apply qneg_s32_whole, uint_range. lia.
Qed.

(** C37: the helpers between lane widths, for all operands: doubling multiplications return
    the clamped high half, narrowing keeps the low, high or rounded high half or clamps to
    the narrow type, widening extends every lane and narrowing gives the operand back, the
    long operations are exact in every double-width lane, and saturating absolute value and
    negation change only the most negative element.  One product is not defined for all
    operands: the signed 8-bit one, exactly when some lane's elements are both negative,
    since the code multiplies their 16-bit forms in [int], which overflows. *)
Theorem neon_narrow_wide_correct :
  (forall f a b, lanes_sat 16 (sat_s 16) (zip_with (dmulh 16 false) (NEON_UNPACK true 16 2 a) (NEON_UNPACK true 16 2 b))
      f (neon_qdmulh_s16 f a b) /\
    lanes_sat 16 (sat_s 16) (zip_with (dmulh 16 true) (NEON_UNPACK true 16 2 a) (NEON_UNPACK true 16 2 b))
      f (neon_qrdmulh_s16 f a b) /\
    lanes_sat 32 (sat_s 32) (zip_with (dmulh 32 false) (NEON_UNPACK true 32 1 a) (NEON_UNPACK true 32 1 b))
      f (neon_qdmulh_s32 f a b) /\
    lanes_sat 32 (sat_s 32) (zip_with (dmulh 32 true) (NEON_UNPACK true 32 1 a) (NEON_UNPACK true 32 1 b))
      f (neon_qrdmulh_s32 f a b)) /\
  (forall x, lanes 8 (unpack 16 4 x) (neon_narrow_u8 x) /\
    lanes 16 (unpack 32 2 x) (neon_narrow_u16 x) /\
    lanes 8 ((fun v => Z.shiftr v 8) <$> unpack 16 4 x) (neon_narrow_high_u8 x) /\
    lanes 16 ((fun v => Z.shiftr v 16) <$> unpack 32 2 x) (neon_narrow_high_u16 x) /\
    lanes 8 (round_high 8 <$> unpack 16 4 (uint64_t x)) (neon_narrow_round_high_u8 (uint64_t x)) /\
    lanes 16 (round_high 16 <$> unpack 32 2 (uint64_t x)) (neon_narrow_round_high_u16 (uint64_t x))) /\
  (forall f x, lanes_sat 8 (sat_u 8) (NEON_UNPACK true 16 4 x) f (neon_unarrow_sat8 f x) /\
    lanes_sat 8 (sat_u 8) (NEON_UNPACK false 16 4 x) f (neon_narrow_sat_u8 f x) /\
    lanes_sat 8 (sat_s 8) (NEON_UNPACK true 16 4 x) f (neon_narrow_sat_s8 f x) /\
    lanes_sat 16 (sat_u 16) (NEON_UNPACK true 32 2 x) f (neon_unarrow_sat16 f x) /\
    lanes_sat 16 (sat_u 16) (NEON_UNPACK false 32 2 x) f (neon_narrow_sat_u16 f x) /\
    lanes_sat 16 (sat_s 16) (NEON_UNPACK true 32 2 x) f (neon_narrow_sat_s16 f x) /\
    lanes_sat 32 (sat_u 32) [int64_t (uint64_t x)] f (neon_unarrow_sat32 f (uint64_t x)) /\
    lanes_sat 32 (sat_u 32) [uint64_t x] f (neon_narrow_sat_u32 f (uint64_t x)) /\
    lanes_sat 32 (sat_s 32) [int64_t x] f (neon_narrow_sat_s32 f x)) /\
  (forall x, lanes 16 (NEON_UNPACK false 8 4 x) (neon_widen_u8 x) /\
    lanes 16 (NEON_UNPACK true 8 4 x) (neon_widen_s8 x) /\
    lanes 32 (NEON_UNPACK false 16 2 x) (neon_widen_u16 x) /\
    lanes 32 (NEON_UNPACK true 16 2 x) (neon_widen_s16 x) /\
    neon_narrow_u8 (neon_widen_u8 (uint32_t x)) = uint32_t x /\
    neon_narrow_u8 (neon_widen_s8 (uint32_t x)) = uint32_t x /\
    neon_narrow_u16 (neon_widen_u16 (uint32_t x)) = uint32_t x /\
    neon_narrow_u16 (neon_widen_s16 (uint32_t x)) = uint32_t x) /\
  (forall f a b, (lanes 16 (zip_with absdiff (NEON_UNPACK false 8 4 a) (NEON_UNPACK false 8 4 b)) (neon_abdl_u16 a b) /\
     lanes 16 (zip_with absdiff (NEON_UNPACK true 8 4 a) (NEON_UNPACK true 8 4 b)) (neon_abdl_s16 a b) /\
     lanes 32 (zip_with absdiff (NEON_UNPACK false 16 2 a) (NEON_UNPACK false 16 2 b)) (neon_abdl_u32 a b) /\
     lanes 32 (zip_with absdiff (NEON_UNPACK true 16 2 a) (NEON_UNPACK true 16 2 b)) (neon_abdl_s32 a b) /\
     neon_abdl_u64 a b = absdiff (uint32_t a) (uint32_t b) /\
     neon_abdl_s64 a b = absdiff (int32_t a) (int32_t b)) /\
    (long_int false 8 4 (fun _ _ => True) Z.mul (neon_mull_u8 a b) a b /\
     long_int true 8 4 (fun x y => ~ (x < 0 /\ y < 0)) Z.mul (neon_mull_s8 a b) a b /\
     long_int false 16 2 (fun _ _ => True) Z.mul (neon_mull_u16 a b) a b /\
     long_int true 16 2 (fun _ _ => True) Z.mul (neon_mull_s16 a b) a b) /\
    (lanes 16 (Z.opp <$> unpack 16 4 a) (neon_negl_u16 a) /\
     lanes 32 (Z.opp <$> unpack 32 2 a) (neon_negl_u32 a)) /\
    lanes 16 (pairwise Z.add (unpack 16 4 (uint64_t a) ++ unpack 16 4 (uint64_t b)))
      (neon_paddl_u16 (uint64_t a) (uint64_t b)) /\
    lanes 32 (pairwise Z.add (unpack 32 2 a ++ unpack 32 2 b)) (neon_paddl_u32 a b) /\
    lanes_sat 32 (sat_s 32) (zip_with Z.add (NEON_UNPACK true 32 2 a) (NEON_UNPACK true 32 2 b)) f
      (neon_addl_saturate_s32 f a b) /\
    whole_sat true 64 (sat_s 64) (int64_t (uint64_t a) + int64_t (uint64_t b)) f
      (neon_addl_saturate_s64 f (uint64_t a) (uint64_t b))) /\
  (forall f x, lanes_sat 8 (sat_s 8) (Z.abs <$> NEON_UNPACK true 8 4 x) f (neon_qabs_s8 f x) /\
    lanes_sat 8 (sat_s 8) (Z.opp <$> NEON_UNPACK true 8 4 x) f (neon_qneg_s8 f x) /\
    lanes_sat 16 (sat_s 16) (Z.abs <$> NEON_UNPACK true 16 2 x) f (neon_qabs_s16 f x) /\
    lanes_sat 16 (sat_s 16) (Z.opp <$> NEON_UNPACK true 16 2 x) f (neon_qneg_s16 f x) /\
    whole_sat true 32 (sat_s 32) (Z.abs (int32_t (uint32_t x))) f (neon_qabs_s32 f (uint32_t x)) /\
    whole_sat true 32 (sat_s 32) (- int32_t (uint32_t x)) f (neon_qneg_s32 f (uint32_t x))).
Proof.
  split_and!; [exact neon_qdmulh_correct|exact neon_narrow_correct|exact neon_narrow_sat_correct|exact neon_widen_correct|exact neon_long_correct|exact neon_qabs_qneg_correct].
Qed.
