(* ===== verification/NeonZip.v ===== *)
(** * NEON helpers: zip and unzip

    The interleaving helpers of src/emul/qemu/target-arm/neon_helper.c, which read two
    double or quad registers, permute the elements and write both registers back. *)

From S2P Require Import Prelude NeonBase NeonNarrow.
Open Scope Z_scope.

(** [env->vfp.regs], the double registers as 64-bit values. *)
Abbreviation vfp_regs := (list Z).
Definition get (regs : vfp_regs) (r : nat) : Z := default 0 (regs !! r).

Definition ELEM (V N SIZE : Z) : Z := Z.land (Z.shiftr V (N * SIZE)) (Z.shiftl 1 SIZE - 1).

(** [e0 | (e1 << w) | (e2 << 2 w) | ...] *)
Fixpoint or_from (w k : Z) (acc : Z) (l : list Z) : Z :=
  match l with
  | [] => acc
  | e :: t => or_from w (k + w) (Z.lor acc (Z.shiftl e k)) t
  end.
Definition or_fields (w : Z) (l : list Z) : Z :=
  match l with
  | [] => 0
  | e :: t => or_from w w e t
  end.

(** The frame of the quad helpers: read [rm], [rm + 1], [rd], [rd + 1], then write
    them in this order. *)
Definition quad_helper (body : Z -> Z -> Z -> Z -> Z * Z * Z * Z)
    (regs : vfp_regs) (rd rm : nat) : vfp_regs :=
  let zm0 := get regs rm in
  let zm1 := get regs (S rm) in
  let zd0 := get regs rd in
  let zd1 := get regs (S rd) in
  let '(d0, d1, m0, m1) := body zd0 zd1 zm0 zm1 in
  <[S rd := d1]> (<[rd := d0]> (<[S rm := m1]> (<[rm := m0]> regs))).

(** The frame of the double helpers. *)
Definition double_helper (body : Z -> Z -> Z * Z) (regs : vfp_regs) (rd rm : nat) : vfp_regs :=
  let zm := get regs rm in
  let zd := get regs rd in
  let '(d0, m0) := body zd zm in
  <[rd := d0]> (<[rm := m0]> regs).

(** ** Unzip *)

Definition qunzip8_elems (zd0 zd1 zm0 zm1 : Z) : Z * Z * Z * Z :=
  let d0 := or_fields 8 [ELEM zd0 0 8; ELEM zd0 2 8; ELEM zd0 4 8; ELEM zd0 6 8; ELEM zd1 0 8;
      ELEM zd1 2 8; ELEM zd1 4 8; ELEM zd1 6 8] in
  let d1 := or_fields 8 [ELEM zm0 0 8; ELEM zm0 2 8; ELEM zm0 4 8; ELEM zm0 6 8; ELEM zm1 0 8;
      ELEM zm1 2 8; ELEM zm1 4 8; ELEM zm1 6 8] in
  let m0 := or_fields 8 [ELEM zd0 1 8; ELEM zd0 3 8; ELEM zd0 5 8; ELEM zd0 7 8; ELEM zd1 1 8;
      ELEM zd1 3 8; ELEM zd1 5 8; ELEM zd1 7 8] in
  let m1 := or_fields 8 [ELEM zm0 1 8; ELEM zm0 3 8; ELEM zm0 5 8; ELEM zm0 7 8; ELEM zm1 1 8;
      ELEM zm1 3 8; ELEM zm1 5 8; ELEM zm1 7 8] in
  (d0, d1, m0, m1).
Definition neon_qunzip8 := quad_helper qunzip8_elems.

Definition qunzip16_elems (zd0 zd1 zm0 zm1 : Z) : Z * Z * Z * Z :=
  let d0 := or_fields 16 [ELEM zd0 0 16; ELEM zd0 2 16; ELEM zd1 0 16; ELEM zd1 2 16] in
  let d1 := or_fields 16 [ELEM zm0 0 16; ELEM zm0 2 16; ELEM zm1 0 16; ELEM zm1 2 16] in
  let m0 := or_fields 16 [ELEM zd0 1 16; ELEM zd0 3 16; ELEM zd1 1 16; ELEM zd1 3 16] in
  let m1 := or_fields 16 [ELEM zm0 1 16; ELEM zm0 3 16; ELEM zm1 1 16; ELEM zm1 3 16] in
  (d0, d1, m0, m1).
Definition neon_qunzip16 := quad_helper qunzip16_elems.

Definition qunzip32_elems (zd0 zd1 zm0 zm1 : Z) : Z * Z * Z * Z :=
  let d0 := or_fields 32 [ELEM zd0 0 32; ELEM zd1 0 32] in
  let d1 := or_fields 32 [ELEM zm0 0 32; ELEM zm1 0 32] in
  let m0 := or_fields 32 [ELEM zd0 1 32; ELEM zd1 1 32] in
  let m1 := or_fields 32 [ELEM zm0 1 32; ELEM zm1 1 32] in
  (d0, d1, m0, m1).
Definition neon_qunzip32 := quad_helper qunzip32_elems.

Definition unzip8_elems (zd zm : Z) : Z * Z :=
  let d0 := or_fields 8 [ELEM zd 0 8; ELEM zd 2 8; ELEM zd 4 8; ELEM zd 6 8; ELEM zm 0 8;
      ELEM zm 2 8; ELEM zm 4 8; ELEM zm 6 8] in
  let m0 := or_fields 8 [ELEM zd 1 8; ELEM zd 3 8; ELEM zd 5 8; ELEM zd 7 8; ELEM zm 1 8;
      ELEM zm 3 8; ELEM zm 5 8; ELEM zm 7 8] in
  (d0, m0).
Definition neon_unzip8 := double_helper unzip8_elems.

Definition unzip16_elems (zd zm : Z) : Z * Z :=
  let d0 := or_fields 16 [ELEM zd 0 16; ELEM zd 2 16; ELEM zm 0 16; ELEM zm 2 16] in
  let m0 := or_fields 16 [ELEM zd 1 16; ELEM zd 3 16; ELEM zm 1 16; ELEM zm 3 16] in
  (d0, m0).
Definition neon_unzip16 := double_helper unzip16_elems.

(** ** Zip *)

Definition qzip8_elems (zd0 zd1 zm0 zm1 : Z) : Z * Z * Z * Z :=
  let d0 := or_fields 8 [ELEM zd0 0 8; ELEM zm0 0 8; ELEM zd0 1 8; ELEM zm0 1 8; ELEM zd0 2 8;
      ELEM zm0 2 8; ELEM zd0 3 8; ELEM zm0 3 8] in
  let d1 := or_fields 8 [ELEM zd0 4 8; ELEM zm0 4 8; ELEM zd0 5 8; ELEM zm0 5 8; ELEM zd0 6 8;
      ELEM zm0 6 8; ELEM zd0 7 8; ELEM zm0 7 8] in
  let m0 := or_fields 8 [ELEM zd1 0 8; ELEM zm1 0 8; ELEM zd1 1 8; ELEM zm1 1 8; ELEM zd1 2 8;
      ELEM zm1 2 8; ELEM zd1 3 8; ELEM zm1 3 8] in
  let m1 := or_fields 8 [ELEM zd1 4 8; ELEM zm1 4 8; ELEM zd1 5 8; ELEM zm1 5 8; ELEM zd1 6 8;
      ELEM zm1 6 8; ELEM zd1 7 8; ELEM zm1 7 8] in
  (d0, d1, m0, m1).
Definition neon_qzip8 := quad_helper qzip8_elems.

Definition qzip16_elems (zd0 zd1 zm0 zm1 : Z) : Z * Z * Z * Z :=
  let d0 := or_fields 16 [ELEM zd0 0 16; ELEM zm0 0 16; ELEM zd0 1 16; ELEM zm0 1 16] in
  let d1 := or_fields 16 [ELEM zd0 2 16; ELEM zm0 2 16; ELEM zd0 3 16; ELEM zm0 3 16] in
  let m0 := or_fields 16 [ELEM zd1 0 16; ELEM zm1 0 16; ELEM zd1 1 16; ELEM zm1 1 16] in
  let m1 := or_fields 16 [ELEM zd1 2 16; ELEM zm1 2 16; ELEM zd1 3 16; ELEM zm1 3 16] in
  (d0, d1, m0, m1).
Definition neon_qzip16 := quad_helper qzip16_elems.

Definition qzip32_elems (zd0 zd1 zm0 zm1 : Z) : Z * Z * Z * Z :=
  let d0 := or_fields 32 [ELEM zd0 0 32; ELEM zm0 0 32] in
  let d1 := or_fields 32 [ELEM zd0 1 32; ELEM zm0 1 32] in
  let m0 := or_fields 32 [ELEM zd1 0 32; ELEM zm1 0 32] in
  let m1 := or_fields 32 [ELEM zd1 1 32; ELEM zm1 1 32] in
  (d0, d1, m0, m1).
Definition neon_qzip32 := quad_helper qzip32_elems.

Definition zip8_elems (zd zm : Z) : Z * Z :=
  let d0 := or_fields 8 [ELEM zd 0 8; ELEM zm 0 8; ELEM zd 1 8; ELEM zm 1 8; ELEM zd 2 8;
      ELEM zm 2 8; ELEM zd 3 8; ELEM zm 3 8] in
  let m0 := or_fields 8 [ELEM zd 4 8; ELEM zm 4 8; ELEM zd 5 8; ELEM zm 5 8; ELEM zd 6 8;
      ELEM zm 6 8; ELEM zd 7 8; ELEM zm 7 8] in
  (d0, m0).
Definition neon_zip8 := double_helper zip8_elems.

Definition zip16_elems (zd zm : Z) : Z * Z :=
  let d0 := or_fields 16 [ELEM zd 0 16; ELEM zm 0 16; ELEM zd 1 16; ELEM zm 1 16] in
  let m0 := or_fields 16 [ELEM zd 2 16; ELEM zm 2 16; ELEM zd 3 16; ELEM zm 3 16] in
  (d0, m0).
Definition neon_zip16 := double_helper zip16_elems.

(** ** Lists of elements *)

Fixpoint interleave (l k : list Z) : list Z :=
  match l, k with
  | x :: l', y :: k' => x :: y :: interleave l' k'
  | _, _ => []
  end.

Fixpoint evens (l : list Z) : list Z :=
  match l with
  | x :: _ :: t => x :: evens t
  | _ => []
  end.

Fixpoint odds (l : list Z) : list Z :=
  match l with
  | _ :: y :: t => y :: odds t
  | _ => []
  end.

Lemma evens_interleave l k : length l = length k -> evens (interleave l k) = l.
Proof. revert k. induction l as [|x l IH]; intros [|y k] H; cbn in *; try done. by rewrite IH by lia. Qed.

Lemma odds_interleave l k : length l = length k -> odds (interleave l k) = k.
Proof. revert k. induction l as [|x l IH]; intros [|y k] H; cbn in *; try done. by rewrite IH by lia. Qed.

Lemma interleave_evens_odds n l : length l = (2 * n)%nat -> interleave (evens l) (odds l) = l.
Proof.
  revert l. induction n as [|n IH]; intros l H.
  - by destruct l.
  - destruct l as [|x [|y l]]; cbn in *; try lia. by rewrite IH by lia.
Qed.

(** ** Words of fields *)

Lemma ELEM_lane V N SIZE : 0 <= N -> 0 <= SIZE -> ELEM V N SIZE = lane SIZE N V.
Proof.
  intros HN HS. unfold ELEM, lane. rewrite uint_land, Z.ones_equiv by lia.
  rewrite Z.shiftl_mul_pow2, Z.mul_1_l by lia. f_equal. f_equal. lia.
Qed.

Lemma or_from_pack w k acc l : 0 <= w -> 0 <= k -> Forall (in_u w) l ->
  or_from w k acc l = Z.lor acc (Z.shiftl (pack w l) k).
Proof.
  intros Hw Hk H. revert k acc Hk. induction H as [|e l He H IH]; intros k acc Hk; cbn [or_from pack].
  - by rewrite Z.shiftl_0_l, Z.lor_0_r.
  - rewrite IH by lia. rewrite uint_id, Z.shiftl_lor, Z.shiftl_shiftl, Z.lor_assoc by (done || lia).
    do 2 f_equal. lia.
Qed.

Lemma or_fields_pack w l : 0 <= w -> Forall (in_u w) l -> or_fields w l = pack w l.
Proof.
  intros Hw H. destruct H as [|e l He H]; [done|]. cbn [or_fields pack].
  by rewrite or_from_pack, uint_id by (done || lia).
Qed.

(** The lanes of a word of [n] fields are the fields. *)
Lemma unpack_or_fields w n l : 0 < w -> length l = n -> Forall (in_u w) l ->
  unpack w n (or_fields w l) = l.
Proof.
  intros Hw <- H. rewrite or_fields_pack, unpack_pack by (done || lia).
  induction H as [|e l He H IH]; [done|]. cbn. by rewrite IH, uint_id.
Qed.

Lemma or_fields_range w l n : 0 < w -> Forall (in_u w) l -> w * Z.of_nat (length l) = n ->
  in_u n (or_fields w l).
Proof. intros Hw H <-. rewrite or_fields_pack by (done || lia). by apply pack_range. Qed.

(** ** Register lanes *)

(** The elements of a double and of a quad register. *)
Definition dlanes (w : Z) (n : nat) (regs : vfp_regs) (r : nat) : list Z := unpack w n (get regs r).
Definition qlanes (w : Z) (n : nat) (regs : vfp_regs) (r : nat) : list Z :=
  dlanes w n regs r ++ dlanes w n regs (S r).

(** What a body does to the elements of its words: [f] gives those of the destination
    and [g] those of the second operand. *)
Definition quad_body (w : Z) (n : nat) (f g : list Z -> list Z -> list Z)
    (body : Z -> Z -> Z -> Z -> Z * Z * Z * Z) : Prop :=
  forall zd0 zd1 zm0 zm1,
    let '(d0, d1, m0, m1) := body zd0 zd1 zm0 zm1 in
    let D := unpack w n zd0 ++ unpack w n zd1 in
    let M := unpack w n zm0 ++ unpack w n zm1 in
    unpack w n d0 ++ unpack w n d1 = f D M /\ unpack w n m0 ++ unpack w n m1 = g D M /\
    Forall (in_u 64) [d0; d1; m0; m1].

Definition double_body (w : Z) (n : nat) (f g : list Z -> list Z -> list Z)
    (body : Z -> Z -> Z * Z) : Prop :=
  forall zd zm,
    let '(d0, m0) := body zd zm in
    unpack w n d0 = f (unpack w n zd) (unpack w n zm) /\
    unpack w n m0 = g (unpack w n zd) (unpack w n zm) /\ Forall (in_u 64) [d0; m0].

(** Zip leaves the first half of the interleaving in the destination; unzip the
    elements of even index of the two operands side by side. *)
Definition zip_d (D M : list Z) : list Z := take (length D) (interleave D M).
Definition zip_m (D M : list Z) : list Z := drop (length D) (interleave D M).
Definition unzip_d (D M : list Z) : list Z := evens (D ++ M).
Definition unzip_m (D M : list Z) : list Z := odds (D ++ M).

Ltac forall_list tac := repeat first [apply Forall_nil_2 | apply Forall_cons_2; [tac|]].
Ltac fields_in_range := forall_list ltac:(rewrite ELEM_lane by lia; apply lane_range; lia).

(** A body is checked by computing both lists of elements. *)
Ltac body_solve :=
  cbn zeta; split_and!;
  [rewrite !unpack_or_fields by (reflexivity || lia || fields_in_range)
  |rewrite !unpack_or_fields by (reflexivity || lia || fields_in_range)
  |forall_list ltac:(apply or_fields_range; [lia|fields_in_range|reflexivity])];
  rewrite !ELEM_lane by lia; reflexivity.

Lemma qzip8_ok : quad_body 8 8 zip_d zip_m qzip8_elems.
Proof. intros zd0 zd1 zm0 zm1. unfold qzip8_elems. body_solve. Qed.
Lemma qzip16_ok : quad_body 16 4 zip_d zip_m qzip16_elems.
Proof. intros zd0 zd1 zm0 zm1. unfold qzip16_elems. body_solve. Qed.
Lemma qzip32_ok : quad_body 32 2 zip_d zip_m qzip32_elems.
Proof. intros zd0 zd1 zm0 zm1. unfold qzip32_elems. body_solve. Qed.
Lemma zip8_ok : double_body 8 8 zip_d zip_m zip8_elems.
Proof. intros zd zm. unfold zip8_elems. body_solve. Qed.
Lemma zip16_ok : double_body 16 4 zip_d zip_m zip16_elems.
Proof. intros zd zm. unfold zip16_elems. body_solve. Qed.
Lemma qunzip8_ok : quad_body 8 8 unzip_d unzip_m qunzip8_elems.
Proof. intros zd0 zd1 zm0 zm1. unfold qunzip8_elems. body_solve. Qed.
Lemma qunzip16_ok : quad_body 16 4 unzip_d unzip_m qunzip16_elems.
Proof. intros zd0 zd1 zm0 zm1. unfold qunzip16_elems. body_solve. Qed.
Lemma qunzip32_ok : quad_body 32 2 unzip_d unzip_m qunzip32_elems.
Proof. intros zd0 zd1 zm0 zm1. unfold qunzip32_elems. body_solve. Qed.
Lemma unzip8_ok : double_body 8 8 unzip_d unzip_m unzip8_elems.
Proof. intros zd zm. unfold unzip8_elems. body_solve. Qed.
Lemma unzip16_ok : double_body 16 4 unzip_d unzip_m unzip16_elems.
Proof. intros zd zm. unfold unzip16_elems. body_solve. Qed.

(** ** The register file *)

(** Operands that are distinct registers of the file. *)
Definition quad_operands (regs : vfp_regs) (rd rm : nat) : Prop :=
  (S rd < length regs)%nat /\ (S rm < length regs)%nat /\ (S rd < rm \/ S rm < rd)%nat.
Definition double_operands (regs : vfp_regs) (rd rm : nat) : Prop :=
  (rd < length regs)%nat /\ (rm < length regs)%nat /\ rd <> rm.

Lemma quad_double_operands regs rd rm : quad_operands regs rd rm -> double_operands regs rd rm.
Proof. unfold quad_operands, double_operands. lia. Qed.

(** The helper wrote exactly its two operands, with elements [f] and [g]. *)
Definition quad_effect (w : Z) (n : nat) (f g : list Z -> list Z -> list Z)
    (regs regs' : vfp_regs) (rd rm : nat) : Prop :=
  qlanes w n regs' rd = f (qlanes w n regs rd) (qlanes w n regs rm) /\
  qlanes w n regs' rm = g (qlanes w n regs rd) (qlanes w n regs rm) /\
  (forall i, i ∉ [rd; S rd; rm; S rm] -> regs' !! i = regs !! i).
Definition double_effect (w : Z) (n : nat) (f g : list Z -> list Z -> list Z)
    (regs regs' : vfp_regs) (rd rm : nat) : Prop :=
  dlanes w n regs' rd = f (dlanes w n regs rd) (dlanes w n regs rm) /\
  dlanes w n regs' rm = g (dlanes w n regs rd) (dlanes w n regs rm) /\
  (forall i, i ∉ [rd; rm] -> regs' !! i = regs !! i).

(** Reads after the writes. *)
Ltac reg_lookup :=
  repeat match goal with
  | |- context [<[?i := ?x]> ?l !! ?i] =>
      rewrite (list_lookup_insert_eq l i x) by (rewrite ?length_insert; lia)
  | |- context [<[?i := ?x]> ?l !! ?j] => rewrite (list_lookup_insert_ne l i j x) by lia
  end.

Lemma quad_helper_effect w n f g body regs rd rm :
  quad_body w n f g body -> quad_operands regs rd rm ->
  quad_effect w n f g regs (quad_helper body regs rd rm) rd rm.
Proof.
  intros HB (Hd & Hm & Hne). unfold quad_helper. cbn zeta.
  specialize (HB (get regs rd) (get regs (S rd)) (get regs rm) (get regs (S rm))).
  destruct (body _ _ _ _) as [[[d0 d1] m0] m1]. destruct HB as (HD & HM & _).
  split_and!.
  - unfold qlanes, dlanes. rewrite <- HD. unfold get. by reg_lookup.
  - unfold qlanes, dlanes. rewrite <- HM. unfold get. by reg_lookup.
  - intros i Hi. rewrite !elem_of_cons in Hi. rewrite !list_lookup_insert_ne by naive_solver. done.
Qed.

Lemma double_helper_effect w n f g body regs rd rm :
  double_body w n f g body -> double_operands regs rd rm ->
  double_effect w n f g regs (double_helper body regs rd rm) rd rm.
Proof.
  intros HB (Hd & Hm & Hne). unfold double_helper. cbn zeta.
  specialize (HB (get regs rd) (get regs rm)).
  destruct (body _ _) as [d0 m0]. destruct HB as (HD & HM & _).
  split_and!.
  - unfold dlanes. rewrite <- HD. unfold get. by reg_lookup.
  - unfold dlanes. rewrite <- HM. unfold get. by reg_lookup.
  - intros i Hi. rewrite !elem_of_cons in Hi. rewrite !list_lookup_insert_ne by naive_solver. done.
Qed.

(** Zip interleaves the elements of its two registers, the first half going to
    the destination and the second to the other operand; unzip gathers the elements of
    even index in the destination and of odd index in the other operand; no other
    register changes, at every element width and for double and quad registers. *)
Lemma neon_zip_unzip_correct regs rd rm : quad_operands regs rd rm ->
  quad_effect 8 8 zip_d zip_m regs (neon_qzip8 regs rd rm) rd rm /\
  quad_effect 16 4 zip_d zip_m regs (neon_qzip16 regs rd rm) rd rm /\
  quad_effect 32 2 zip_d zip_m regs (neon_qzip32 regs rd rm) rd rm /\
  double_effect 8 8 zip_d zip_m regs (neon_zip8 regs rd rm) rd rm /\
  double_effect 16 4 zip_d zip_m regs (neon_zip16 regs rd rm) rd rm /\
  quad_effect 8 8 unzip_d unzip_m regs (neon_qunzip8 regs rd rm) rd rm /\
  quad_effect 16 4 unzip_d unzip_m regs (neon_qunzip16 regs rd rm) rd rm /\
  quad_effect 32 2 unzip_d unzip_m regs (neon_qunzip32 regs rd rm) rd rm /\
  double_effect 8 8 unzip_d unzip_m regs (neon_unzip8 regs rd rm) rd rm /\
  double_effect 16 4 unzip_d unzip_m regs (neon_unzip16 regs rd rm) rd rm.
Proof.
  intros H. pose proof (quad_double_operands _ _ _ H) as H'.
  split_and!; (apply quad_helper_effect || apply double_helper_effect); try done;
    [apply qzip8_ok|apply qzip16_ok|apply qzip32_ok|apply zip8_ok|apply zip16_ok
    |apply qunzip8_ok|apply qunzip16_ok|apply qunzip32_ok|apply unzip8_ok|apply unzip16_ok].
Qed.

(** ** Zip and unzip are inverse *)

Definition quad_inverse (body body' : Z -> Z -> Z -> Z -> Z * Z * Z * Z) : Prop :=
  forall a b c d, Forall (in_u 64) [a; b; c; d] ->
    let '(a', b', c', d') := body a b c d in body' a' b' c' d' = (a, b, c, d).

Lemma quad_helper_inverse body body' regs rd rm : quad_inverse body body' ->
  quad_operands regs rd rm -> Forall (in_u 64) regs ->
  quad_helper body' (quad_helper body regs rd rm) rd rm = regs.
Proof.
  intros HI (Hd & Hm & Hne) HR.
  assert (forall i, (i < length regs)%nat -> regs !! i = Some (get regs i) /\ in_u 64 (get regs i)) as HG.
  { intros i Hi. unfold get. destruct (lookup_lt_is_Some_2 regs i Hi) as [x E]. rewrite E. cbn.
    split; [done|]. by apply (Forall_lookup_1 _ _ i x HR). }
  specialize (HI (get regs rd) (get regs (S rd)) (get regs rm) (get regs (S rm))).
  unfold quad_helper at 2. cbn zeta. destruct (body _ _ _ _) as [[[d0 d1] m0] m1].
  unfold quad_helper. cbn zeta. unfold get at 1 2 3 4. reg_lookup. cbn [default from_option id].
  rewrite HI by (repeat (apply Forall_cons_2; [apply HG; lia|]); apply Forall_nil_2).
  apply list_eq. intros i.
  destruct (decide (i = rd)) as [->|]; [reg_lookup; symmetry; apply HG; lia|].
  destruct (decide (i = S rd)) as [->|]; [reg_lookup; symmetry; apply HG; lia|].
  destruct (decide (i = rm)) as [->|]; [reg_lookup; symmetry; apply HG; lia|].
  destruct (decide (i = S rm)) as [->|]; [reg_lookup; symmetry; apply HG; lia|].
  by reg_lookup.
Qed.

Definition double_inverse (body body' : Z -> Z -> Z * Z) : Prop :=
  forall a b, Forall (in_u 64) [a; b] ->
    let '(a', b') := body a b in body' a' b' = (a, b).

Lemma double_helper_inverse body body' regs rd rm : double_inverse body body' ->
  double_operands regs rd rm -> Forall (in_u 64) regs ->
  double_helper body' (double_helper body regs rd rm) rd rm = regs.
Proof.
  intros HI (Hd & Hm & Hne) HR.
  assert (forall i, (i < length regs)%nat -> regs !! i = Some (get regs i) /\ in_u 64 (get regs i)) as HG.
  { intros i Hi. unfold get. destruct (lookup_lt_is_Some_2 regs i Hi) as [x E]. rewrite E. cbn.
    split; [done|]. by apply (Forall_lookup_1 _ _ i x HR). }
  specialize (HI (get regs rd) (get regs rm)).
  unfold double_helper at 2. cbn zeta. destruct (body _ _) as [d0 m0].
  unfold double_helper. cbn zeta. unfold get at 1 2. reg_lookup. cbn [default from_option id].
  rewrite HI by (repeat (apply Forall_cons_2; [apply HG; lia|]); apply Forall_nil_2).
  apply list_eq. intros i.
  destruct (decide (i = rd)) as [->|]; [reg_lookup; symmetry; apply HG; lia|].
  destruct (decide (i = rm)) as [->|]; [reg_lookup; symmetry; apply HG; lia|].
  by reg_lookup.
Qed.

(** Element functions that undo each other on operands of [k] elements. *)
Definition undoes (k : nat) (f g f' g' : list Z -> list Z -> list Z) : Prop :=
  forall D M, length D = k -> length M = k ->
    f' (f D M) (g D M) = D /\ g' (f D M) (g D M) = M.

Lemma undo_zip k : undoes k zip_d zip_m unzip_d unzip_m.
Proof.
  intros D M HD HM. unfold unzip_d, unzip_m, zip_d, zip_m. rewrite take_drop.
  split; [apply evens_interleave|apply odds_interleave]; lia.
Qed.

Lemma length_evens n l : length l = (2 * n)%nat -> length (evens l) = n.
Proof.
  revert l. induction n as [|n IH]; intros l H.
  - by destruct l.
  - destruct l as [|x [|y l]]; cbn in *; try lia. rewrite IH; lia.
Qed.

Lemma undo_unzip k : undoes k unzip_d unzip_m zip_d zip_m.
Proof.
  intros D M HD HM. unfold zip_d, zip_m, unzip_d, unzip_m.
  rewrite (interleave_evens_odds k), (length_evens k) by (rewrite length_app; lia).
  by rewrite take_app_length', drop_app_length' by lia.
Qed.

Lemma quad_inverse_of w n f g f' g' body body' : 0 < w -> w * Z.of_nat n = 64 ->
  quad_body w n f g body -> quad_body w n f' g' body' -> undoes (n + n) f g f' g' ->
  quad_inverse body body'.
Proof.
  intros Hw Hn HB HB' HU a b c d HR. specialize (HB a b c d).
  destruct (body a b c d) as [[[a' b'] c'] d']. destruct HB as (HD & HM & _).
  specialize (HB' a' b' c' d'). destruct (body' a' b' c' d') as [[[p q] r] s].
  destruct HB' as (HD' & HM' & HR'). rewrite HD, HM in HD', HM'.
  destruct (HU (unpack w n a ++ unpack w n b) (unpack w n c ++ unpack w n d)) as [E1 E2];
    [by rewrite length_app, !length_unpack..|].
  rewrite E1 in HD'. rewrite E2 in HM'.
  apply app_inj_1 in HD' as [? ?]; [|by rewrite !length_unpack].
  apply app_inj_1 in HM' as [? ?]; [|by rewrite !length_unpack].
  rewrite !Forall_cons in HR, HR'. rewrite <- Hn in HR, HR'.
  repeat f_equal; apply (unpack_inj w n); tauto.
Qed.

Lemma double_inverse_of w n f g f' g' body body' : 0 < w -> w * Z.of_nat n = 64 ->
  double_body w n f g body -> double_body w n f' g' body' -> undoes n f g f' g' ->
  double_inverse body body'.
Proof.
  intros Hw Hn HB HB' HU a b HR. specialize (HB a b).
  destruct (body a b) as [a' b']. destruct HB as (HD & HM & _).
  specialize (HB' a' b'). destruct (body' a' b') as [p q].
  destruct HB' as (HD' & HM' & HR'). rewrite HD, HM in HD', HM'.
  destruct (HU (unpack w n a) (unpack w n b)) as [E1 E2]; [by rewrite length_unpack..|].
  rewrite E1 in HD'. rewrite E2 in HM'.
  rewrite !Forall_cons in HR, HR'. rewrite <- Hn in HR, HR'.
  f_equal; apply (unpack_inj w n); tauto.
Qed.

(** Unzip undoes zip and zip undoes unzip, on registers that hold 64-bit values
    and for distinct operands. *)
Lemma neon_zip_roundtrip regs rd rm : quad_operands regs rd rm -> Forall (in_u 64) regs ->
  neon_qunzip8 (neon_qzip8 regs rd rm) rd rm = regs /\
  neon_qunzip16 (neon_qzip16 regs rd rm) rd rm = regs /\
  neon_qunzip32 (neon_qzip32 regs rd rm) rd rm = regs /\
  neon_unzip8 (neon_zip8 regs rd rm) rd rm = regs /\
  neon_unzip16 (neon_zip16 regs rd rm) rd rm = regs /\
  neon_qzip8 (neon_qunzip8 regs rd rm) rd rm = regs /\
  neon_qzip16 (neon_qunzip16 regs rd rm) rd rm = regs /\
  neon_qzip32 (neon_qunzip32 regs rd rm) rd rm = regs /\
  neon_zip8 (neon_unzip8 regs rd rm) rd rm = regs /\
  neon_zip16 (neon_unzip16 regs rd rm) rd rm = regs.
Proof.
  intros H HR. pose proof (quad_double_operands _ _ _ H) as H'.
  split_and!;
    (apply quad_helper_inverse || apply double_helper_inverse); try done;
    first
    [ eapply quad_inverse_of; [| |apply qzip8_ok|apply qunzip8_ok|apply undo_zip]
    | eapply quad_inverse_of; [| |apply qzip16_ok|apply qunzip16_ok|apply undo_zip]
    | eapply quad_inverse_of; [| |apply qzip32_ok|apply qunzip32_ok|apply undo_zip]
    | eapply quad_inverse_of; [| |apply qunzip8_ok|apply qzip8_ok|apply undo_unzip]
    | eapply quad_inverse_of; [| |apply qunzip16_ok|apply qzip16_ok|apply undo_unzip]
    | eapply quad_inverse_of; [| |apply qunzip32_ok|apply qzip32_ok|apply undo_unzip]
    | eapply double_inverse_of; [| |apply zip8_ok|apply unzip8_ok|apply undo_zip]
    | eapply double_inverse_of; [| |apply zip16_ok|apply unzip16_ok|apply undo_zip]
    | eapply double_inverse_of; [| |apply unzip8_ok|apply zip8_ok|apply undo_unzip]
    | eapply double_inverse_of; [| |apply unzip16_ok|apply zip16_ok|apply undo_unzip] ]; lia.
Qed.

(** Zip interleaves and unzip separates the elements of two registers at every width,
    no other register changes, and each undoes the other on distinct registers. *)
Lemma neon_permute_correct :
  (forall regs rd rm, quad_operands regs rd rm ->
    quad_effect 8 8 zip_d zip_m regs (neon_qzip8 regs rd rm) rd rm /\
    quad_effect 16 4 zip_d zip_m regs (neon_qzip16 regs rd rm) rd rm /\
    quad_effect 32 2 zip_d zip_m regs (neon_qzip32 regs rd rm) rd rm /\
    double_effect 8 8 zip_d zip_m regs (neon_zip8 regs rd rm) rd rm /\
    double_effect 16 4 zip_d zip_m regs (neon_zip16 regs rd rm) rd rm /\
    quad_effect 8 8 unzip_d unzip_m regs (neon_qunzip8 regs rd rm) rd rm /\
    quad_effect 16 4 unzip_d unzip_m regs (neon_qunzip16 regs rd rm) rd rm /\
    quad_effect 32 2 unzip_d unzip_m regs (neon_qunzip32 regs rd rm) rd rm /\
    double_effect 8 8 unzip_d unzip_m regs (neon_unzip8 regs rd rm) rd rm /\
    double_effect 16 4 unzip_d unzip_m regs (neon_unzip16 regs rd rm) rd rm) /\
  (forall regs rd rm, quad_operands regs rd rm -> Forall (in_u 64) regs ->
    neon_qunzip8 (neon_qzip8 regs rd rm) rd rm = regs /\
    neon_qunzip16 (neon_qzip16 regs rd rm) rd rm = regs /\
    neon_qunzip32 (neon_qzip32 regs rd rm) rd rm = regs /\
    neon_unzip8 (neon_zip8 regs rd rm) rd rm = regs /\
    neon_unzip16 (neon_zip16 regs rd rm) rd rm = regs /\
    neon_qzip8 (neon_qunzip8 regs rd rm) rd rm = regs /\
    neon_qzip16 (neon_qunzip16 regs rd rm) rd rm = regs /\
    neon_qzip32 (neon_qunzip32 regs rd rm) rd rm = regs /\
    neon_zip8 (neon_unzip8 regs rd rm) rd rm = regs /\
    neon_zip16 (neon_unzip16 regs rd rm) rd rm = regs).
Proof.
  split_and!; [exact neon_zip_unzip_correct|exact neon_zip_roundtrip].
Qed.

Lemma neon_permute_correct_witness :
  qlanes 32 2 (neon_qzip32 [1; 2; 3; 4] 0 2) 0 = [1; 3; 0; 0] /\
  neon_qunzip8 (neon_qzip8 [1; 2; 3; 18446744073709551615] 0 2) 0 2 = [1; 2; 3; 18446744073709551615].
Proof.
  destruct neon_permute_correct as [H1 H2]. split.
  - destruct (H1 [1; 2; 3; 4] 0%nat 2%nat) as (_ & _ & [E _] & _).
    + unfold quad_operands. cbn. lia.
    + rewrite E. reflexivity.
  - apply (H2 [1; 2; 3; 18446744073709551615] 0%nat 2%nat).
    + unfold quad_operands. cbn. lia.
    + repeat (apply Forall_cons_2; [split; [discriminate|reflexivity]|]). apply Forall_nil_2.
Defined.
