(* ===== verification/ArmHelpers.v ===== *)
(** * Integer helpers of the ARM front end

    Model of the helper functions that translated ARM code calls for flag-setting arithmetic,
    shifts by a register, saturation, the ARMv6 parallel operations, division, bit
    operations and the status register (src/emul/qemu/target-arm/op_helper.c, helper.c,
    op_addsub.h; [clz32] of host-utils.h), in the user-mode configuration.

    The part of [CPUARMState] they use is the record [Env]; the sign flags are kept the way the
    program keeps them: N and V are bit 31 of [NF] and [VF], Z is set when [ZF] is 0.  A shift
    that C leaves undefined and [cpu_abort] are [None].  The specifications are those of the
    architecture manual: the sum of two words and a carry ([AddWithCarry]), shifts with
    carry out, saturation to a range, and operations on lanes. *)

From S2P Require Import Prelude NeonBase NeonArith.
Open Scope Z_scope.

Record Env := mkEnv {
  NF : Z; ZF : Z; CF : Z; VF : Z; QF : Z; GE : Z;
  thumb : Z; condexec_bits : Z; uncached_cpsr : Z }.

Definition set_QF (e : Env) : Env :=
  mkEnv (NF e) (ZF e) (CF e) (VF e) 1 (GE e) (thumb e) (condexec_bits e) (uncached_cpsr e).
Definition set_CF (c : Z) (e : Env) : Env :=
  mkEnv (NF e) (ZF e) c (VF e) (QF e) (GE e) (thumb e) (condexec_bits e) (uncached_cpsr e).
Definition set_NZCV (n z c v : Z) (e : Env) : Env :=
  mkEnv n z c v (QF e) (GE e) (thumb e) (condexec_bits e) (uncached_cpsr e).

(** ** Flag-setting arithmetic *)

Definition add_cc (a b : Z) (e : Env) : Z * Env :=
  let result := uint32_t (a + b) in
  (result, set_NZCV result result (b2z (result <? a)) (((a ^^ b ^^ 4294967295) & (a ^^ result))%C) e).

Definition adc_cc (a b : Z) (e : Env) : Z * Env :=
  let '(result, c) :=
    if CF e =? 0 then let r := uint32_t (a + b) in (r, b2z (r <? a))
    else let r := uint32_t (a + b + 1) in (r, b2z (r <=? a)) in
  (result, set_NZCV result result c (((a ^^ b ^^ 4294967295) & (a ^^ result))%C) e).

Definition sub_cc (a b : Z) (e : Env) : Z * Env :=
  let result := uint32_t (a - b) in
  (result, set_NZCV result result (b2z (b <=? a)) (((a ^^ b) & (a ^^ result))%C) e).

Definition sbc_cc (a b : Z) (e : Env) : Z * Env :=
  let '(result, c) :=
    if CF e =? 0 then (uint32_t (a - b - 1), b2z (b <? a))
    else (uint32_t (a - b), b2z (b <=? a)) in
  (result, set_NZCV result result c (((a ^^ b) & (a ^^ result))%C) e).

(** ** Shifts by a register *)

Definition shl (x i : Z) : Z :=
  let shift := Z.land i 255 in
  if 32 <=? shift then 0 else uint32_t (Z.shiftl x shift).

Definition shr (x i : Z) : Z :=
  let shift := Z.land i 255 in
  if 32 <=? shift then 0 else Z.shiftr x shift.

Definition sar (x i : Z) : Z :=
  let shift := Z.land i 255 in
  let shift := if 32 <=? shift then 31 else shift in
  uint32_t (Z.shiftr (int32_t x) shift).

Definition shl_cc (x i : Z) (e : Env) : Z * Env :=
  let shift := Z.land i 255 in
  if 32 <=? shift then (0, set_CF (if shift =? 32 then Z.land x 1 else 0) e)
  else if negb (shift =? 0) then (uint32_t (Z.shiftl x shift), set_CF (Z.land (Z.shiftr x (32 - shift)) 1) e)
  else (x, e).

Definition shr_cc (x i : Z) (e : Env) : Z * Env :=
  let shift := Z.land i 255 in
  if 32 <=? shift then (0, set_CF (if shift =? 32 then Z.land (Z.shiftr x 31) 1 else 0) e)
  else if negb (shift =? 0) then (Z.shiftr x shift, set_CF (Z.land (Z.shiftr x (shift - 1)) 1) e)
  else (x, e).

Definition sar_cc (x i : Z) (e : Env) : Z * Env :=
  let shift := Z.land i 255 in
  if 32 <=? shift then (uint32_t (Z.shiftr (int32_t x) 31), set_CF (Z.land (Z.shiftr x 31) 1) e)
  else if negb (shift =? 0) then
    (uint32_t (Z.shiftr (int32_t x) shift), set_CF (Z.land (Z.shiftr x (shift - 1)) 1) e)
  else (x, e).

Definition ror_cc (x i : Z) (e : Env) : Z * Env :=
  let shift1 := Z.land i 255 in
  let shift := Z.land shift1 31 in
  if shift =? 0 then (x, if negb (shift1 =? 0) then set_CF (Z.land (Z.shiftr x 31) 1) e else e)
  else (Z.lor (Z.shiftr x shift) (uint32_t (Z.shiftl x (32 - shift))), set_CF (Z.land (Z.shiftr x (shift - 1)) 1) e).

(** ** Saturation *)

Definition add_setq (a b : Z) (e : Env) : Z * Env :=
  let res := uint32_t (a + b) in
  (res, if nz (Z.land (Z.lxor res a) SIGNBIT) && negb (nz (Z.land (Z.lxor a b) SIGNBIT)) then set_QF e else e).

Definition add_saturate (a b : Z) (e : Env) : Z * Env :=
  let res := uint32_t (a + b) in
  if nz (Z.land (Z.lxor res a) SIGNBIT) && negb (nz (Z.land (Z.lxor a b) SIGNBIT))
  then (uint32_t (Z.lnot (Z.lxor (uint32_t (Z.shiftr (int32_t a) 31)) SIGNBIT)), set_QF e)
  else (res, e).

Definition sub_saturate (a b : Z) (e : Env) : Z * Env :=
  let res := uint32_t (a - b) in
  if nz (Z.land (Z.lxor res a) SIGNBIT) && nz (Z.land (Z.lxor a b) SIGNBIT)
  then (uint32_t (Z.lnot (Z.lxor (uint32_t (Z.shiftr (int32_t a) 31)) SIGNBIT)), set_QF e)
  else (res, e).

(** [val << 1] of a negative value shifts the representation. *)
Definition double_saturate (val : Z) (e : Env) : Z * Env :=
  if 1073741824 <=? val then (uint32_t (Z.lnot SIGNBIT), set_QF e)
  else if val <=? int32_t 3221225472 then (SIGNBIT, set_QF e)
  else (uint32_t (Z.shiftl val 1), e).

Definition add_usaturate (a b : Z) (e : Env) : Z * Env :=
  let res := uint32_t (a + b) in
  if res <? a then (4294967295, set_QF e) else (res, e).

Definition sub_usaturate (a b : Z) (e : Env) : Z * Env :=
  let res := uint32_t (a - b) in
  if a <? res then (0, set_QF e) else (res, e).

(** A shift count that C defines for a 32-bit operand. *)
Definition shift_ok (shift : Z) : bool := (0 <=? shift) && (shift <? 32).

Definition do_ssat (val shift : Z) (e : Env) : option (Z * Env) :=
  if negb (shift_ok shift) then None
  else
    let top := Z.shiftr val shift in
    let mask := uint32_t (Z.shiftl 1 shift - 1) in
    Some (if 0 <? top then (mask, set_QF e)
          else if top <? -1 then (uint32_t (Z.lnot mask), set_QF e)
          else (uint32_t val, e)).

Definition do_usat (val shift : Z) (e : Env) : option (Z * Env) :=
  if negb (shift_ok shift) then None
  else
    let max := uint32_t (Z.shiftl 1 shift - 1) in
    Some (if val <? 0 then (0, set_QF e)
          else if max <? uint32_t val then (max, set_QF e)
          else (uint32_t val, e)).

Definition ssat (x shift : Z) : Env -> option (Z * Env) := do_ssat (int32_t x) (int32_t shift).
Definition usat (x shift : Z) : Env -> option (Z * Env) := do_usat (int32_t x) (int32_t shift).

(** Two halfwords, the low one first. *)
Definition sat16 (do_sat : Z -> Z -> Env -> option (Z * Env)) (x shift : Z) (e : Env) : option (Z * Env) :=
  '(lo, e) ← do_sat (int16_t x) (int32_t shift) e;
  '(hi, e) ← do_sat (Z.shiftr (int32_t x) 16) (int32_t shift) e;
  Some (Z.lor (uint16_t lo) (uint32_t (Z.shiftl hi 16)), e).

Definition ssat16 : Z -> Z -> Env -> option (Z * Env) := sat16 do_ssat.
Definition usat16 : Z -> Z -> Env -> option (Z * Env) := sat16 do_usat.

(** ** Extension, division and bits *)

Definition sxtb16 (x : Z) : Z :=
  Z.lor (uint16_t (int8_t x)) (uint32_t (Z.shiftl (uint32_t (int8_t (Z.shiftr x 16))) 16)).

Definition uxtb16 (x : Z) : Z :=
  Z.lor (uint16_t (uint8_t x)) (uint32_t (Z.shiftl (uint8_t (Z.shiftr x 16)) 16)).

(** The branch of [clz32] without the compiler's operation. *)
Definition clz32_steps (val : Z) : Z :=
  let step m k '(cnt, val) := if negb (nz (Z.land val m)) then (cnt + k, uint32_t (Z.shiftl val k)) else (cnt, val) in
  let '(cnt, val) := step 2147483648 1 (step 3221225472 2 (step 4026531840 4 (step 4278190080 8 (step 4294901760 16 (0, val))))) in
  if negb (nz (Z.land val 2147483648)) then cnt + 1 else cnt.

(** [__builtin_clz] counts the zeros above the highest bit that is set. *)
Definition builtin_clz (val : Z) : Z := 31 - Z.log2 val.

Definition clz32 (val : Z) : Z := if nz val then builtin_clz val else 32.

Definition clz : Z -> Z := clz32.

Definition INT_MIN : Z := -2147483648.

Definition sdiv (num den : Z) : Z :=
  if den =? 0 then 0
  else if (num =? INT_MIN) && (den =? -1) then INT_MIN
  else Z.quot num den.

Definition udiv (num den : Z) : Z := if den =? 0 then 0 else Z.div num den.

Definition rbit (x : Z) : Z :=
  let x := (((x & 4278190080) >> 24) .| ((x & 16711680) >> 8)
            .| uint32_t ((x & 65280) << 8) .| uint32_t ((x & 255) << 24))%C in
  let x := (((x & 4042322160) >> 4) .| uint32_t ((x & 252645135) << 4))%C in
  (((x & 2290649224) >> 3) .| ((x & 1145324612) >> 1)
   .| uint32_t ((x & 572662306) << 1) .| uint32_t ((x & 286331153) << 3))%C.

Definition abs (x : Z) : Z := if int32_t x <? 0 then uint32_t (- x) else x.

Definition logicq_cc (val : Z) : Z := Z.lor (Z.shiftr val 32) (b2z (nz val)).

(** ** Parallel addition and subtraction *)

(** One of the inclusions of op_addsub.h: the value [ADD16(a, b, n)] and so on pass to
    [RESULT], and whether they set the GE bits of the lane. *)
Record AddSub := mkAddSub {
  ADD16 : Z -> Z -> Z * bool;
  SUB16 : Z -> Z -> Z * bool;
  ADD8 : Z -> Z -> Z * bool;
  SUB8 : Z -> Z -> Z * bool }.

Definition add_sat (w a b : Z) : Z :=
  let res := uint w (a + b) in
  let sb := 2 ^ (w - 1) in
  if nz (Z.land (Z.lxor res a) sb) && negb (nz (Z.land (Z.lxor a b) sb))
  then if nz (Z.land a sb) then sb else sb - 1
  else res.

Definition sub_sat (w a b : Z) : Z :=
  let res := uint w (a - b) in
  let sb := 2 ^ (w - 1) in
  if nz (Z.land (Z.lxor res a) sb) && nz (Z.land (Z.lxor a b) sb)
  then if nz (Z.land a sb) then sb else sb - 1
  else res.

Definition add16_sat : Z -> Z -> Z := add_sat 16.
Definition add8_sat : Z -> Z -> Z := add_sat 8.
Definition sub16_sat : Z -> Z -> Z := sub_sat 16.
Definition sub8_sat : Z -> Z -> Z := sub_sat 8.

Definition add_usat (w a b : Z) : Z :=
  let res := uint w (a + b) in if res <? a then 2 ^ w - 1 else res.
Definition sub_usat (w a b : Z) : Z := if b <? a then a - b else 0.

Definition add16_usat : Z -> Z -> Z := add_usat 16.
Definition add8_usat : Z -> Z -> Z := add_usat 8.
Definition sub16_usat : Z -> Z -> Z := sub_usat 16.
Definition sub8_usat : Z -> Z -> Z := sub_usat 8.

(** A function of two elements of type [uint16_t] or [uint8_t]. *)
Definition on_u (w : Z) (f : Z -> Z -> Z) (a b : Z) : Z * bool := (f (uint w a) (uint w b), false).

Definition PFX_q : AddSub := mkAddSub (on_u 16 add16_sat) (on_u 16 sub16_sat) (on_u 8 add8_sat) (on_u 8 sub8_sat).
Definition PFX_uq : AddSub := mkAddSub (on_u 16 add16_usat) (on_u 16 sub16_usat) (on_u 8 add8_usat) (on_u 8 sub8_usat).

(** [SARITH16] and [SARITH8] *)
Definition SARITH (w : Z) (op : Z -> Z -> Z) (a b : Z) : Z * bool :=
  let sum := op (sint w a) (sint w b) in (sum, 0 <=? sum).

Definition PFX_s : AddSub := mkAddSub (SARITH 16 Z.add) (SARITH 16 Z.sub) (SARITH 8 Z.add) (SARITH 8 Z.sub).

Definition UADD (w a b : Z) : Z * bool :=
  let sum := uint w a + uint w b in (sum, Z.shiftr sum w =? 1).
Definition USUB (w a b : Z) : Z * bool :=
  let sum := uint32_t (uint w a - uint w b) in (sum, Z.shiftr sum w =? 0).

Definition PFX_u : AddSub := mkAddSub (UADD 16) (USUB 16) (UADD 8) (USUB 8).

Definition SHALF (w : Z) (op : Z -> Z -> Z) (a b : Z) : Z * bool := (Z.shiftr (op (sint w a) (sint w b)) 1, false).
Definition UHALF (w : Z) (op : Z -> Z -> Z) (a b : Z) : Z * bool :=
  (Z.shiftr (uint32_t (op (uint w a) (uint w b))) 1, false).

Definition PFX_sh : AddSub := mkAddSub (SHALF 16 Z.add) (SHALF 16 Z.sub) (SHALF 8 Z.add) (SHALF 8 Z.sub).
Definition PFX_uh : AddSub := mkAddSub (UHALF 16 Z.add) (UHALF 16 Z.sub) (UHALF 8 Z.add) (UHALF 8 Z.sub).

Definition RESULT (val n width res : Z) : Z :=
  Z.lor res (uint32_t (Z.shiftl (uint width val) (n * width))).

(** [ADD16(a, b, n)], [ADD8(a, b, n)] on the accumulated result and GE bits. *)
Definition step16 (op : Z -> Z -> Z * bool) (a b n : Z) '(res, ge) : Z * Z :=
  let '(v, g) := op a b in (RESULT v n 16 res, if g : bool then Z.lor ge (Z.shiftl 3 (n * 2)) else ge).
Definition step8 (op : Z -> Z -> Z * bool) (a b n : Z) '(res, ge) : Z * Z :=
  let '(v, g) := op a b in (RESULT v n 8 res, if g : bool then Z.lor ge (Z.shiftl 1 n) else ge).

Definition addsub_add16 (P : AddSub) (a b : Z) : Z * Z :=
  step16 (ADD16 P) (Z.shiftr a 16) (Z.shiftr b 16) 1 (step16 (ADD16 P) a b 0 (0, 0)).

Definition addsub_sub16 (P : AddSub) (a b : Z) : Z * Z :=
  step16 (SUB16 P) (Z.shiftr a 16) (Z.shiftr b 16) 1 (step16 (SUB16 P) a b 0 (0, 0)).

Definition addsub_add8 (P : AddSub) (a b : Z) : Z * Z :=
  step8 (ADD8 P) (Z.shiftr a 24) (Z.shiftr b 24) 3 (step8 (ADD8 P) (Z.shiftr a 16) (Z.shiftr b 16) 2
    (step8 (ADD8 P) (Z.shiftr a 8) (Z.shiftr b 8) 1 (step8 (ADD8 P) a b 0 (0, 0)))).

Definition addsub_sub8 (P : AddSub) (a b : Z) : Z * Z :=
  step8 (SUB8 P) (Z.shiftr a 24) (Z.shiftr b 24) 3 (step8 (SUB8 P) (Z.shiftr a 16) (Z.shiftr b 16) 2
    (step8 (SUB8 P) (Z.shiftr a 8) (Z.shiftr b 8) 1 (step8 (SUB8 P) a b 0 (0, 0)))).

Definition addsub_subaddx (P : AddSub) (a b : Z) : Z * Z :=
  step16 (SUB16 P) (Z.shiftr a 16) b 1 (step16 (ADD16 P) a (Z.shiftr b 16) 0 (0, 0)).

Definition addsub_addsubx (P : AddSub) (a b : Z) : Z * Z :=
  step16 (ADD16 P) (Z.shiftr a 16) b 1 (step16 (SUB16 P) a (Z.shiftr b 16) 0 (0, 0)).

Definition do_usad (a b : Z) : Z :=
  let a := uint8_t a in let b := uint8_t b in if b <? a then a - b else b - a.

Definition usad8 (a b : Z) : Z :=
  uint32_t (do_usad a b + do_usad (Z.shiftr a 8) (Z.shiftr b 8) + do_usad (Z.shiftr a 16) (Z.shiftr b 16)
    + do_usad (Z.shiftr a 24) (Z.shiftr b 24)).

Definition sel_flags (flags a b : Z) : Z :=
  let mask := 0 in
  let mask := if nz (Z.land flags 1) then Z.lor mask 255 else mask in
  let mask := if nz (Z.land flags 2) then Z.lor mask 65280 else mask in
  let mask := if nz (Z.land flags 4) then Z.lor mask 16711680 else mask in
  let mask := if nz (Z.land flags 8) then Z.lor mask 4278190080 else mask in
  Z.lor (Z.land a mask) (Z.land b (uint32_t (Z.lnot mask))).

(** ** The status register *)

Definition CPSR_M : Z := 31.
Definition CPSR_T : Z := Z.shiftl 1 5.
Definition CPSR_IT_2_7 : Z := 64512.
Definition CPSR_GE : Z := Z.shiftl 15 16.
Definition CPSR_J : Z := Z.shiftl 1 24.
Definition CPSR_IT_0_1 : Z := Z.shiftl 3 25.
Definition CPSR_V : Z := Z.shiftl 1 28.
Definition CPSR_C : Z := Z.shiftl 1 29.
Definition CPSR_Z : Z := Z.shiftl 1 30.
Definition CPSR_N : Z := 2147483648.
Definition CPSR_NZCV : Z := (CPSR_N .| CPSR_Z .| CPSR_C .| CPSR_V)%C.
Definition CPSR_IT : Z := Z.lor CPSR_IT_0_1 CPSR_IT_2_7.
Definition CACHED_CPSR_BITS : Z := (CPSR_T .| CPSR_GE .| CPSR_IT .| CPSR_Q .| CPSR_NZCV)%C.
Definition CPSR_EXEC : Z := (CPSR_T .| CPSR_IT .| CPSR_J)%C.

Definition ARM_CPU_MODE_USR : Z := 16.
Definition ARM_CPU_MODE_FIQ : Z := 17.
Definition ARM_CPU_MODE_IRQ : Z := 18.
Definition ARM_CPU_MODE_SVC : Z := 19.
Definition ARM_CPU_MODE_ABT : Z := 23.
Definition ARM_CPU_MODE_UND : Z := 27.
Definition ARM_CPU_MODE_SYS : Z := 31.

Definition bad_mode_switch (mode : Z) : bool :=
  negb ((mode =? ARM_CPU_MODE_USR) || (mode =? ARM_CPU_MODE_SYS) || (mode =? ARM_CPU_MODE_SVC)
    || (mode =? ARM_CPU_MODE_ABT) || (mode =? ARM_CPU_MODE_UND) || (mode =? ARM_CPU_MODE_IRQ)
    || (mode =? ARM_CPU_MODE_FIQ)).

Definition cpsr_read (e : Env) : Z :=
  let zf := b2z (ZF e =? 0) in
  (uncached_cpsr e .| (NF e & 2147483648) .| (zf << 30) .| uint32_t (CF e << 29)
   .| ((VF e & 2147483648) >> 3) .| uint32_t (QF e << 27) .| uint32_t (thumb e << 5)
   .| uint32_t ((condexec_bits e & 3) << 25) .| uint32_t ((condexec_bits e & 252) << 8)
   .| uint32_t (GE e << 16))%C.

(** [switch_mode] in user mode. *)
Definition switch_mode (mode : Z) : option unit := if mode =? ARM_CPU_MODE_USR then Some () else None.

Definition cpsr_write (val mask : Z) (e : Env) : option Env :=
  let e :=
    if nz (Z.land mask CPSR_NZCV) then
      set_NZCV val (Z.land (uint32_t (Z.lnot val)) CPSR_Z) (Z.land (Z.shiftr val 29) 1)
        (Z.land (uint32_t (Z.shiftl val 3)) 2147483648) e
    else e in
  let q := if nz (Z.land mask CPSR_Q) then b2z (nz (Z.land val CPSR_Q)) else QF e in
  let t := if nz (Z.land mask CPSR_T) then b2z (nz (Z.land val CPSR_T)) else thumb e in
  let it := condexec_bits e in
  let it := if nz (Z.land mask CPSR_IT_0_1)
    then Z.lor (Z.land it (uint32_t (Z.lnot 3))) (Z.land (Z.shiftr val 25) 3) else it in
  let it := if nz (Z.land mask CPSR_IT_2_7)
    then Z.lor (Z.land it 3) (Z.land (Z.shiftr val 8) 252) else it in
  let ge := if nz (Z.land mask CPSR_GE) then Z.land (Z.shiftr val 16) 15 else GE e in
  mask ←
    (if nz (((uncached_cpsr e ^^ val) & mask & CPSR_M)%C) then
       if bad_mode_switch (Z.land val CPSR_M) then Some (Z.land mask (uint32_t (Z.lnot CPSR_M)))
       else _ ← switch_mode (Z.land val CPSR_M); Some mask
     else Some mask);
  let mask := Z.land mask (uint32_t (Z.lnot CACHED_CPSR_BITS)) in
  Some (mkEnv (NF e) (ZF e) (CF e) (VF e) q ge t it
    (Z.lor (Z.land (uncached_cpsr e) (uint32_t (Z.lnot mask))) (Z.land val mask))).

(** [HELPER(cpsr_read)] *)
Definition helper_cpsr_read (e : Env) : Z := Z.land (cpsr_read e) (uint32_t (Z.lnot CPSR_EXEC)).

(** ** Specification: addition with carry

    The function of the same name in the architecture manual: the sum of two words and a
    carry bit, with the four condition flags. *)

Record Flags := mkFlags { flag_N : bool; flag_Z : bool; flag_C : bool; flag_V : bool }.

Definition AddWithCarry (x y : Z) (carry_in : bool) : Z * Flags :=
  let unsigned_sum := x + y + b2z carry_in in
  let signed_sum := int32_t x + int32_t y + b2z carry_in in
  let result := uint32_t unsigned_sum in
  (result, mkFlags (2147483648 <=? result) (result =? 0) (negb (result =? unsigned_sum)) (negb (int32_t result =? signed_sum))).

(** The flags as the generated code reads them. *)
Definition flags_of_env (e : Env) : Flags :=
  mkFlags (Z.testbit (NF e) 31) (ZF e =? 0) (nz (CF e)) (Z.testbit (VF e) 31).

Definition NOT32 (x : Z) : Z := 4294967295 - x.

Lemma testbit31 x : in_u 32 x -> Z.testbit x 31 = (2147483648 <=? x).
Proof.
  intros Hx. pose proof (sign_xor32 x 0 Hx ltac:(unfold in_u; lia)) as H. rewrite Z.lxor_0_r, xorb_false_r in H.
  rewrite <- H. unfold nz, SIGNBIT. change 2147483648 with (2 ^ 31).
  destruct (Z.testbit x 31) eqn:E.
  - symmetry. apply negb_true_iff, Z.eqb_neq. intros E0. apply (f_equal (fun z => Z.testbit z 31)) in E0.
    by rewrite Z.land_spec, E, Z.pow2_bits_true, Z.bits_0 in E0 by lia.
  - symmetry. apply negb_false_iff, Z.eqb_eq, Z.bits_inj'. intros i Hi. rewrite Z.land_spec, Z.bits_0.
    destruct (decide (i = 31)) as [->|]; [by rewrite E|]. rewrite Z.pow2_bits_false by lia. apply andb_false_r.
Qed.

(** The overflow bit of an addition and of a subtraction. *)
Lemma add_VF a b r : in_u 32 a -> in_u 32 b -> in_u 32 r ->
  Z.testbit ((a ^^ b ^^ 4294967295) & (a ^^ r))%C 31 =
  negb (xorb (2147483648 <=? a) (2147483648 <=? b)) && xorb (2147483648 <=? a) (2147483648 <=? r).
Proof.
  intros Ha Hb Hr. rewrite <- !testbit31 by done. autorewrite with bits.
  change (Z.testbit 4294967295 31) with true. by rewrite xorb_true_r.
Qed.

Lemma sub_VF a b r : in_u 32 a -> in_u 32 b -> in_u 32 r ->
  Z.testbit ((a ^^ b) & (a ^^ r))%C 31 =
  xorb (2147483648 <=? a) (2147483648 <=? b) && xorb (2147483648 <=? a) (2147483648 <=? r).
Proof. intros Ha Hb Hr. rewrite <- !testbit31 by done. by autorewrite with bits. Qed.

(** What a flag-setting helper must return. *)
Definition computes (r : Z * Env) (spec : Z * Flags) (e : Env) : Prop :=
  r.1 = spec.1 /\ flags_of_env r.2 = spec.2 /\ (CF r.2 = 0 \/ CF r.2 = 1) /\
  r.2 = set_NZCV (NF r.2) (ZF r.2) (CF r.2) (VF r.2) e.

Ltac flags_solve :=
  unfold computes, AddWithCarry, flags_of_env, NOT32, nz in *; cbn [fst snd NF ZF CF VF set_NZCV flag_N flag_Z flag_C flag_V];
  rewrite ?testbit31, ?add_VF, ?sub_VF by (done || apply uint_range; lia);
  split; [try cint; try reflexivity|split; [f_equal; cast_unfold; case_cmp; Z.to_euclidean_division_equations; lia|
    split; [case_cmp; cast_unfold; lia|reflexivity]]].

Lemma add_cc_ok a b e : in_u 32 a -> in_u 32 b -> computes (add_cc a b e) (AddWithCarry a b false) e.
Proof. intros Ha Hb. unfold add_cc. flags_solve. Qed.

Lemma adc_cc_ok a b e : in_u 32 a -> in_u 32 b -> computes (adc_cc a b e) (AddWithCarry a b (nz (CF e))) e.
Proof.
  intros Ha Hb. unfold adc_cc, nz. destruct (CF e =? 0); cbn [negb].
  - apply (add_cc_ok a b e); done.
  - flags_solve.
Qed.

Lemma sub_cc_ok a b e : in_u 32 a -> in_u 32 b -> computes (sub_cc a b e) (AddWithCarry a (NOT32 b) true) e.
Proof. intros Ha Hb. unfold sub_cc. flags_solve. Qed.

Lemma sbc_cc_ok a b e : in_u 32 a -> in_u 32 b -> computes (sbc_cc a b e) (AddWithCarry a (NOT32 b) (nz (CF e))) e.
Proof.
  intros Ha Hb. unfold sbc_cc, nz. destruct (CF e =? 0); cbn [negb].
  - flags_solve.
  - apply (sub_cc_ok a b e); done.
Qed.

(** ** Specification: shifts with carry out *)

Inductive SRType := SRType_LSL | SRType_LSR | SRType_ASR | SRType_ROR.

Definition Shift_C (ty : SRType) (x n : Z) (carry_in : bool) : Z * bool :=
  if n =? 0 then (x, carry_in)
  else
    match ty with
    | SRType_LSL => (uint32_t (x * 2 ^ n), Z.testbit (x * 2 ^ n) 32)
    | SRType_LSR => (x / 2 ^ n, Z.testbit x (n - 1))
    | SRType_ASR => (uint32_t (int32_t x / 2 ^ n), Z.testbit (int32_t x) (n - 1))
    | SRType_ROR =>
        let m := n mod 32 in
        let r := uint32_t (x / 2 ^ m + x * 2 ^ (32 - m)) in (r, Z.testbit r 31)
    end.

(** A shift by a register uses its low byte. *)
Definition shifts (r : Z * Env) (spec : Z * bool) (e : Env) : Prop :=
  r.1 = spec.1 /\ nz (CF r.2) = spec.2 /\ r.2 = set_CF (CF r.2) e.

Lemma land_255 i : Z.land i 255 = i mod 256.
Proof. change 255 with (Z.ones 8). by rewrite Z.land_ones by lia. Qed.

Lemma carry_bit x k : 0 <= k -> nz (Z.land (Z.shiftr x k) 1) = Z.testbit x k.
Proof.
  intros Hk. change 1 with (Z.ones 1). rewrite Z.land_ones by lia. change (2 ^ 1) with 2.
  rewrite <- (Z.add_0_l k) at 2. rewrite <- Z.shiftr_spec, <- Z.bit0_mod by lia. by destruct (Z.testbit _ 0).
Qed.

Lemma carry_bit0 x : nz (Z.land x 1) = Z.testbit x 0.
Proof. rewrite <- (Z.shiftr_0_r x) at 1. by apply carry_bit. Qed.

Lemma set_CF_same e : e = set_CF (CF e) e.
Proof. by destruct e. Qed.

Lemma uint32_shl_big x n : 32 <= n -> uint32_t (x * 2 ^ n) = 0.
Proof.
  intros Hn. unfold uint32_t, uint. replace n with (n - 32 + 32) by lia. rewrite Z.pow_add_r, Z.mul_assoc by lia.
  apply Z.mod_mul. lia.
Qed.

Lemma shr_big x n : in_u 32 x -> 32 <= n -> x / 2 ^ n = 0.
Proof. intros Hx Hn. apply Z.div_small. unfold in_u in Hx. pose proof (Z.pow_le_mono_r 2 32 n ltac:(lia) Hn). lia. Qed.

Lemma sar_big x n : 31 <= n -> int32_t x / 2 ^ n = int32_t x / 2 ^ 31.
Proof.
  intros Hn. pose proof (sint_range 32 x ltac:(lia)) as Hr. unfold in_s in Hr. fold (int32_t x) in Hr.
  pose proof (Z.pow_le_mono_r 2 31 n ltac:(lia) Hn). change (2 ^ (32 - 1)) with (2 ^ 31) in Hr.
  destruct (decide (0 <= int32_t x)); [by rewrite !Z.div_small by lia|].
  rewrite <- (Z.div_unique (int32_t x) (2 ^ n) (-1) (int32_t x + 2 ^ n)) by lia.
  by rewrite <- (Z.div_unique (int32_t x) (2 ^ 31) (-1) (int32_t x + 2 ^ 31)) by lia.
Qed.

Lemma byte_range i : 0 <= i mod 256 < 256.
Proof. apply Z.mod_pos_bound. lia. Qed.

Lemma shl_cc_ok x i e : in_u 32 x -> shifts (shl_cc x i e) (Shift_C SRType_LSL x (i mod 256) (nz (CF e))) e.
Proof.
  intros Hx. unfold shl_cc, Shift_C, shifts. rewrite land_255. pose proof (byte_range i) as Hb. set (n := i mod 256) in *.
  destruct (Z.leb_spec 32 n) as [Hn|Hn].
  - rewrite (proj2 (Z.eqb_neq n 0)) by lia. cbn [fst snd]. rewrite uint32_shl_big by done. split_and!; [done| |done].
    cbn [set_CF CF]. rewrite Z.mul_pow2_bits by lia. destruct (Z.eqb_spec n 32) as [->|Hne]; [apply carry_bit0|].
    by rewrite Z.testbit_neg_r by lia.
  - destruct (Z.eqb_spec n 0) as [->|Hne]; cbn [negb fst snd]; [split_and!; [done|done|apply set_CF_same]|].
    cbn [set_CF CF]. rewrite carry_bit, Z.mul_pow2_bits, Z.shiftl_mul_pow2 by lia. done.
Qed.

Lemma shr_cc_ok x i e : in_u 32 x -> shifts (shr_cc x i e) (Shift_C SRType_LSR x (i mod 256) (nz (CF e))) e.
Proof.
  intros Hx. unfold shr_cc, Shift_C, shifts. rewrite land_255. pose proof (byte_range i) as Hb. set (n := i mod 256) in *.
  destruct (Z.leb_spec 32 n) as [Hn|Hn].
  - rewrite (proj2 (Z.eqb_neq n 0)) by lia. cbn [fst snd]. rewrite shr_big by done. split_and!; [done| |done].
    cbn [set_CF CF]. destruct (Z.eqb_spec n 32) as [->|Hne]; [by apply carry_bit|].
    by rewrite (in_u_testbit 32) by (done || lia).
  - destruct (Z.eqb_spec n 0) as [->|Hne]; cbn [negb fst snd]; [split_and!; [done|done|apply set_CF_same]|].
    cbn [set_CF CF]. rewrite carry_bit, Z.shiftr_div_pow2 by lia. done.
Qed.

Lemma sar_cc_ok x i e : in_u 32 x -> shifts (sar_cc x i e) (Shift_C SRType_ASR x (i mod 256) (nz (CF e))) e.
Proof.
  intros Hx. unfold sar_cc, Shift_C, shifts. rewrite land_255. pose proof (byte_range i) as Hb. set (n := i mod 256) in *.
  destruct (Z.leb_spec 32 n) as [Hn|Hn].
  - rewrite (proj2 (Z.eqb_neq n 0)) by lia. cbn [fst snd]. rewrite sar_big, Z.shiftr_div_pow2 by lia. split_and!; [done| |done].
    cbn [set_CF CF]. rewrite carry_bit by lia. unfold int32_t. rewrite sint_testbit by lia.
    destruct (Z.ltb_spec (n - 1) 32); [|done]. f_equal. lia.
  - destruct (Z.eqb_spec n 0) as [->|Hne]; cbn [negb fst snd]; [split_and!; [done|done|apply set_CF_same]|].
    cbn [set_CF CF]. rewrite carry_bit, Z.shiftr_div_pow2 by lia. split_and!; [done| |done].
    unfold int32_t. rewrite sint_testbit by lia. by rewrite (proj2 (Z.ltb_lt (n - 1) 32)) by lia.
Qed.

(** The two halves of a rotation do not overlap. *)
Lemma rotate_or x m : in_u 32 x -> 0 < m < 32 ->
  Z.lor (Z.shiftr x m) (uint32_t (Z.shiftl x (32 - m))) = uint32_t (x / 2 ^ m + x * 2 ^ (32 - m)).
Proof.
  intros Hx Hm. rewrite <- Z.shiftl_mul_pow2, <- Z.shiftr_div_pow2 by lia.
  pose proof (Z.add_lor_land (Z.shiftr x m) (uint32_t (Z.shiftl x (32 - m)))) as E.
  assert (Z.land (Z.shiftr x m) (uint32_t (Z.shiftl x (32 - m))) = 0) as E0.
  { apply Z.bits_inj'. intros i Hi. bits_unfold. autorewrite with bits.
    destruct (Z.leb_spec (32 - m) i); cbn [andb]; [|by rewrite !andb_false_r].
    rewrite (in_u_testbit 32 x (i + m)) by (done || lia). done. }
  assert (in_u 32 (Z.shiftr x m)) as HA.
  { rewrite Z.shiftr_div_pow2 by lia. unfold in_u in *. pose proof (Z.pow_pos_nonneg 2 m ltac:(lia) ltac:(lia)).
    split; [apply Z.div_pos; lia|]. apply Z.div_lt_upper_bound; nia. }
  assert (in_u 32 (Z.lor (Z.shiftr x m) (uint32_t (Z.shiftl x (32 - m))))) as HL.
  { apply testbit_in_u; [lia| |].
    - apply Z.lor_nonneg. split; [apply HA|]. apply uint_range. lia.
    - intros i Hi. rewrite Z.lor_spec, !(in_u_testbit 32) by (done || lia || apply uint_range; lia). done. }
  rewrite <- (uint_id 32 _ HL). fold (uint32_t (Z.lor (Z.shiftr x m) (uint32_t (Z.shiftl x (32 - m))))). 
  rewrite E0 in E. replace (Z.lor _ _) with (Z.shiftr x m + uint32_t (Z.shiftl x (32 - m))) by lia.
  unfold uint32_t. rewrite <- (uint_id 32 _ HA) at 1. by rewrite uint_add.
Qed.

Lemma ror_cc_ok x i e : in_u 32 x -> shifts (ror_cc x i e) (Shift_C SRType_ROR x (i mod 256) (nz (CF e))) e.
Proof.
  intros Hx. unfold ror_cc, Shift_C, shifts. rewrite land_255. pose proof (byte_range i) as Hb. set (n := i mod 256) in *.
  assert (Z.land n 31 = n mod 32) as -> by (change 31 with (Z.ones 5); by rewrite Z.land_ones by lia).
  pose proof (Z.mod_pos_bound n 32 ltac:(lia)) as Hm. cbn zeta.
  destruct (Z.eqb_spec (n mod 32) 0) as [Em|Hne].
  - rewrite Em. destruct (Z.eqb_spec n 0) as [En|Hn]; cbn [negb fst snd]; [split_and!; [done|done|apply set_CF_same]|].
    assert (uint32_t (x / 2 ^ 0 + x * 2 ^ (32 - 0)) = x) as ->.
    { rewrite Z.pow_0_r, Z.div_1_r. unfold uint32_t, uint. change (32 - 0) with 32. rewrite Z.mod_add by lia. by apply uint_id. }
    cbn [set_CF CF]. rewrite carry_bit by lia. done.
  - assert ((n =? 0) = false) as -> by (apply Z.eqb_neq; intros ->; by rewrite Z.mod_0_l in Hne).
    cbn [fst snd set_CF CF]. rewrite carry_bit, rotate_or by (done || lia). split_and!; [done| |done].
    rewrite <- rotate_or by (done || lia). bits_unfold. autorewrite with bits.
    replace (32 - n mod 32 <=? 31) with true by (symmetry; apply Z.leb_le; lia). cbn [andb].
    rewrite (in_u_testbit 32 x (31 + n mod 32)) by (done || lia). cbn. f_equal. lia.
Qed.

(** The shifts that set no flags. *)
Lemma plain_shifts x i : in_u 32 x ->
  shl x i = (Shift_C SRType_LSL x (i mod 256) false).1 /\
  shr x i = (Shift_C SRType_LSR x (i mod 256) false).1 /\
  sar x i = (Shift_C SRType_ASR x (i mod 256) false).1.
Proof.
  intros Hx. unfold shl, shr, sar, Shift_C. rewrite land_255. pose proof (byte_range i) as Hb. set (n := i mod 256) in *.
  cbn zeta. destruct (Z.eqb_spec n 0) as [->|Hn].
  { cbn [Z.leb Z.compare fst]. rewrite Z.shiftl_0_r, !Z.shiftr_0_r. unfold int32_t, uint32_t. rewrite uint_sint by lia.
    by rewrite uint_id. }
  cbn [fst]. destruct (Z.leb_spec 32 n).
  - rewrite uint32_shl_big, shr_big, Z.shiftr_div_pow2, (sar_big x n) by (done || lia). done.
  - by rewrite Z.shiftl_mul_pow2, !Z.shiftr_div_pow2 by lia.
Qed.

(** ** Specification: saturation

    The exact result is moved into the range and the sticky flag Q is set if it was not in
    it. *)

Definition q_if (b : bool) (e : Env) : Env := if b then set_QF e else e.

Definition saturates (sat : Z -> Z) (exact : Z) (e : Env) (r : Z * Env) : Prop :=
  r = (uint32_t (sat exact), q_if (negb (sat exact =? exact)) e).

Ltac q_solve :=
  unfold saturates, sat_u, sat_s, q_if, SIGNBIT; case_cmp; first [f_equal; cint | exfalso; cint].

Lemma add_saturate_ok a b e : in_u 32 a -> in_u 32 b ->
  saturates (sat_s 32) (int32_t a + int32_t b) e (add_saturate a b e).
Proof.
  intros Ha Hb. unfold add_saturate. cbn zeta.
  rewrite !sign_xor32, sat_value32 by (done || apply uint_range; lia). q_solve.
Qed.

Lemma sub_saturate_ok a b e : in_u 32 a -> in_u 32 b ->
  saturates (sat_s 32) (int32_t a - int32_t b) e (sub_saturate a b e).
Proof.
  intros Ha Hb. unfold sub_saturate. cbn zeta.
  rewrite !sign_xor32, sat_value32 by (done || apply uint_range; lia). q_solve.
Qed.

Lemma add_setq_ok a b e : in_u 32 a -> in_u 32 b ->
  add_setq a b e = (uint32_t (a + b), q_if (negb (sat_s 32 (int32_t a + int32_t b) =? int32_t a + int32_t b)) e).
Proof.
  intros Ha Hb. unfold add_setq. cbn zeta. rewrite !sign_xor32 by (done || apply uint_range; lia). q_solve.
Qed.

Lemma add_usaturate_ok a b e : in_u 32 a -> in_u 32 b -> saturates (sat_u 32) (a + b) e (add_usaturate a b e).
Proof. intros Ha Hb. unfold add_usaturate. cbn zeta. q_solve. Qed.

Lemma sub_usaturate_ok a b e : in_u 32 a -> in_u 32 b -> saturates (sat_u 32) (a - b) e (sub_usaturate a b e).
Proof. intros Ha Hb. unfold sub_usaturate. cbn zeta. q_solve. Qed.

(** Doubling sets Q also for -2{^30}, whose double is in range. *)
Lemma double_saturate_ok v e : in_s 32 v ->
  double_saturate v e = (uint32_t (sat_s 32 (2 * v)), q_if (negb (sat_s 32 (2 * v) =? 2 * v) || (v =? -1073741824)) e).
Proof.
  intros Hv. unfold double_saturate. change (int32_t 3221225472) with (-1073741824).
  change (uint32_t (Z.lnot SIGNBIT)) with 2147483647.
  rewrite Z.shiftl_mul_pow2 by lia. change (2 ^ 1) with 2. q_solve.
Qed.

(** Saturation to [shift + 1] signed or [shift] unsigned bits. *)
Lemma pow_shift_cases n : 0 <= n < 32 -> 0 < 2 ^ n <= 2 ^ 31.
Proof. intros Hn. split; [apply Z.pow_pos_nonneg; lia|apply Z.pow_le_mono_r; lia]. Qed.

Lemma do_ssat_ok v n e : in_s 32 v -> 0 <= n < 32 ->
  exists r, do_ssat v n e = Some r /\ saturates (sat_s (n + 1)) v e r.
Proof.
  intros Hv Hn. unfold do_ssat, shift_ok. rewrite (proj2 (Z.leb_le _ _)), (proj2 (Z.ltb_lt _ _)) by lia. cbn [andb negb].
  eexists. split; [done|]. pose proof (pow_shift_cases n Hn) as Hp.
  rewrite Z.shiftl_1_l, Z.shiftr_div_pow2 by lia. unfold saturates, sat_s. replace (n + 1 - 1) with n by lia.
  set (p := 2 ^ n) in *. clearbody p. unfold in_s in Hv. pow_norm. assert (uint32_t (p - 1) = p - 1) as -> by cint.
  pose proof (Z.div_mod v p ltac:(lia)) as Hd. pose proof (Z.mod_pos_bound v p ltac:(lia)) as Hm.
  set (q := v / p) in *. set (r := v mod p) in *. clearbody q r.
  destruct (Z.ltb_spec 0 q).
  - assert (p <= v) by nia. unfold q_if. case_cmp; [lia|]. f_equal. unfold uint32_t, uint. pow_norm. rewrite Z.mod_small; lia.
  - destruct (Z.ltb_spec q (-1)).
    + assert (v < - p) by nia. unfold q_if. case_cmp; [lia|]. f_equal. unfold uint32_t. f_equal. unfold Z.lnot. lia.
    + assert (- p <= v < p) by nia. unfold q_if. case_cmp; [|lia]. cbn. do 2 f_equal. lia.
Qed.

Lemma do_usat_ok v n e : in_s 32 v -> 0 <= n < 32 ->
  exists r, do_usat v n e = Some r /\ saturates (sat_u n) v e r.
Proof.
  intros Hv Hn. unfold do_usat, shift_ok. rewrite (proj2 (Z.leb_le _ _)), (proj2 (Z.ltb_lt _ _)) by lia. cbn [andb negb].
  eexists. split; [done|]. pose proof (pow_shift_cases n Hn) as Hp.
  rewrite Z.shiftl_1_l by lia. unfold saturates, sat_u, q_if. set (p := 2 ^ n) in *. clearbody p. pow_norm.
  unfold in_s in Hv. pow_norm. assert (uint32_t (p - 1) = p - 1) as -> by cint.
  destruct (Z.ltb_spec v 0); [case_cmp; try lia; f_equal; cint|].
  assert (uint32_t v = v) as -> by cint. case_cmp; try lia; f_equal; cint.
Qed.

Lemma int32_small n : 0 <= n < 32 -> int32_t n = n.
Proof. intros Hn. apply sint_id; [lia|]. unfold in_s. lia. Qed.

(** The two halfwords of the result of a dual saturation. *)
Lemma sat16_ok (do_sat : Z -> Z -> Env -> option (Z * Env)) (sat : Z -> Z) x n e : in_u 32 x -> 0 <= n < 32 ->
  (forall v e, in_s 32 v -> exists r, do_sat v n e = Some r /\ saturates sat v e r) ->
  let lo := int16_t x in let hi := int16_t (Z.shiftr x 16) in
  exists r, sat16 do_sat x n e = Some r /\ lane 16 0 r.1 = uint16_t (sat lo) /\ lane 16 1 r.1 = uint16_t (sat hi) /\
    in_u 32 r.1 /\ r.2 = q_if (negb (sat lo =? lo) || negb (sat hi =? hi)) e.
Proof.
  intros Hx Hn Hs lo hi. unfold sat16. rewrite (int32_small n) by done. fold lo.
  assert (Z.shiftr (int32_t x) 16 = hi) as ->.
  { unfold hi. rewrite !Z.shiftr_div_pow2 by lia. cint. }
  assert (in_s 32 lo /\ in_s 32 hi) as [Hlo Hhi].
  { unfold lo, hi. pose proof (sint_range 16 x ltac:(lia)) as H1. pose proof (sint_range 16 (Z.shiftr x 16) ltac:(lia)) as H2. cast_unfold. lia. }
  destruct (Hs lo e Hlo) as (r1 & -> & ->). cbn [mbind option_bind].
  destruct (Hs hi (q_if (negb (sat lo =? lo)) e) Hhi) as (r2 & -> & ->). cbn [mbind option_bind fst snd].
  eexists. split; [done|]. cbn [fst snd]. split_and!.
  - rewrite lane_lor by lia. unfold lane. rewrite Z.mul_0_r, !Z.shiftr_0_r. apply Z.bits_inj'. intros i Hi. bits_unfold.
    autorewrite with bits. split_ltb; cbn [andb orb]; rewrite ?orb_false_r; done.
  - rewrite lane_lor by lia. unfold lane. apply Z.bits_inj'. intros i Hi. bits_unfold. autorewrite with bits.
    split_ltb; cbn [andb orb]; try done. f_equal. lia.
  - apply testbit_in_u; [lia|apply Z.lor_nonneg; split; apply uint_range; lia|].
    intros i Hi. bits_unfold. autorewrite with bits. split_ltb.
  - unfold q_if. by destruct (sat lo =? lo), (sat hi =? hi).
Qed.

(** [const_bits] evaluates the bits of numerals and the comparisons of numerals. *)
Ltac is_num c := lazymatch c with Z0 => idtac | Zpos ?p => idtac | Zneg ?p => idtac end.
Ltac const_bits :=
  repeat match goal with
  | |- context [Z.testbit ?c ?k] => is_num c; is_num k; let v := eval vm_compute in (Z.testbit c k) in change (Z.testbit c k) with v
  | |- context [?a <? ?b] => is_num a; is_num b; let v := eval vm_compute in (a <? b) in change (a <? b) with v
  | |- context [?a <=? ?b] => is_num a; is_num b; let v := eval vm_compute in (a <=? b) in change (a <=? b) with v
  | |- context [?a + ?b] => is_num a; is_num b; let v := eval vm_compute in (a + b) in change (a + b) with v
  | |- context [?a - ?b] => is_num a; is_num b; let v := eval vm_compute in (a - b) in change (a - b) with v
  | |- context [Z.lxor ?a ?b] => is_num a; is_num b; let v := eval vm_compute in (Z.lxor a b) in change (Z.lxor a b) with v
  end; rewrite ?andb_true_r, ?andb_false_r, ?orb_false_r, ?orb_true_r, ?andb_true_l, ?andb_false_l, ?orb_false_l.

(** The three steps of [rbit] exchange bytes, nibbles and bits. *)
Lemma swap_bytes_bit x i : 0 <= i < 32 ->
  Z.testbit (((x & 4278190080) >> 24) .| ((x & 16711680) >> 8) .| uint32_t ((x & 65280) << 8) .| uint32_t ((x & 255) << 24))%C i
  = Z.testbit x (Z.lxor i 24).
Proof. intros Hi. bits_unfold. autorewrite with bits. bit_cases i 32; const_bits; done. Qed.

Lemma swap_nibbles_bit x i : 0 <= i < 32 ->
  Z.testbit (((x & 4042322160) >> 4) .| uint32_t ((x & 252645135) << 4))%C i = Z.testbit x (Z.lxor i 4).
Proof. intros Hi. bits_unfold. autorewrite with bits. bit_cases i 32; const_bits; done. Qed.

Lemma swap_bits_bit x i : 0 <= i < 32 ->
  Z.testbit (((x & 2290649224) >> 3) .| ((x & 1145324612) >> 1) .| uint32_t ((x & 572662306) << 1) .| uint32_t ((x & 286331153) << 3))%C i
  = Z.testbit x (Z.lxor i 3).
Proof. intros Hi. bits_unfold. autorewrite with bits. bit_cases i 32; const_bits; done. Qed.

Lemma rbit_ok x i : 0 <= i < 32 -> Z.testbit (rbit x) i = Z.testbit x (31 - i).
Proof.
  intros Hi. unfold rbit. cbn zeta.
  assert (0 <= Z.lxor i 3 < 32 /\ 0 <= Z.lxor (Z.lxor i 3) 4 < 32 /\ Z.lxor (Z.lxor (Z.lxor i 3) 4) 24 = 31 - i) as (H1 & H2 & H3).
  { bit_cases i 32; done. }
  by rewrite swap_bits_bit, swap_nibbles_bit, swap_bytes_bit, H3.
Qed.

(** The portable [clz32] finds the same number as the compiler's operation. *)
Lemma high_mask v j : in_u 32 v -> 0 <= j < 32 -> nz (Z.land v (Z.shiftl (Z.ones (32 - j)) j)) = (2 ^ j <=? v).
Proof.
  intros Hv Hj. assert (Z.land v (Z.shiftl (Z.ones (32 - j)) j) = Z.shiftl (Z.shiftr v j) j) as ->.
  { apply Z.bits_inj'. intros i Hi. rewrite Z.land_spec, !testbit_shiftl by lia.
    destruct (Z.leb_spec j i); cbn [andb]; [|by rewrite andb_false_r].
    rewrite testbit_shiftr by lia. replace (i - j + j) with i by lia.
    destruct (decide (i < 32)); [rewrite Z.ones_spec_low by lia; apply andb_true_r|].
    by rewrite (in_u_testbit 32 v i) by (done || lia). }
  rewrite Z.shiftl_mul_pow2, Z.shiftr_div_pow2 by lia. pose proof (Z.pow_pos_nonneg 2 j ltac:(lia) ltac:(lia)) as Hp.
  unfold nz, in_u in *. destruct (Z.leb_spec (2 ^ j) v) as [Hle|Hlt].
  - apply negb_true_iff, Z.eqb_neq. pose proof (Z.div_le_lower_bound v (2 ^ j) 1 Hp ltac:(lia)). nia.
  - by rewrite Z.div_small by lia.
Qed.

Definition clz_step (m k : Z) '(cnt, val) : Z * Z :=
  if negb (nz (Z.land val m)) then (cnt + k, uint32_t (Z.shiftl val k)) else (cnt, val).

Lemma clz_step_ok k cnt v : 0 < k <= 16 -> in_u 32 v -> 2 ^ (32 - 2 * k) <= v ->
  exists cnt' v', clz_step (Z.shiftl (Z.ones k) (32 - k)) k (cnt, v) = (cnt', v') /\ in_u 32 v' /\ 2 ^ (32 - k) <= v' /\
    cnt' + builtin_clz v' = cnt + builtin_clz v.
Proof.
  intros Hk Hv Hlo. unfold clz_step. pose proof (high_mask v (32 - k) Hv ltac:(lia)) as Hm.
  replace (32 - (32 - k)) with k in Hm by lia. rewrite Hm.
  destruct (Z.leb_spec (2 ^ (32 - k)) v) as [Hle|Hlt]; cbn [negb]; [by exists cnt, v|].
  pose proof (Z.pow_pos_nonneg 2 (32 - 2 * k) ltac:(lia) ltac:(lia)) as Hp0.
  pose proof (Z.pow_pos_nonneg 2 k ltac:(lia) ltac:(lia)) as Hpk.
  assert (2 ^ (32 - k) = 2 ^ (32 - 2 * k) * 2 ^ k) as E1 by (rewrite <- Z.pow_add_r by lia; f_equal; lia).
  assert (2 ^ 32 = 2 ^ (32 - k) * 2 ^ k) as E2 by (rewrite <- Z.pow_add_r by lia; f_equal; lia).
  assert (uint32_t (Z.shiftl v k) = v * 2 ^ k) as ->.
  { rewrite Z.shiftl_mul_pow2 by lia. apply uint_id. unfold in_u. nia. }
  eexists _, _. split; [done|]. split; [unfold in_u; nia|]. split; [nia|].
  unfold builtin_clz. rewrite Z.log2_mul_pow2 by lia. lia.
Qed.

Lemma clz32_steps_ok v : in_u 32 v -> clz32_steps v = clz32 v.
Proof.
  intros Hv. destruct (decide (v = 0)) as [->|Hne]; [vm_compute; reflexivity|].
  unfold clz32, nz. rewrite (proj2 (Z.eqb_neq _ _) Hne). cbn [negb]. unfold clz32_steps.
  destruct (clz_step_ok 16 0 v ltac:(lia) Hv ltac:(unfold in_u in *; cbn; lia)) as (c1 & v1 & E1 & R1 & L1 & I1).
  destruct (clz_step_ok 8 c1 v1 ltac:(lia) R1 L1) as (c2 & v2 & E2 & R2 & L2 & I2).
  destruct (clz_step_ok 4 c2 v2 ltac:(lia) R2 L2) as (c3 & v3 & E3 & R3 & L3 & I3).
  destruct (clz_step_ok 2 c3 v3 ltac:(lia) R3 L3) as (c4 & v4 & E4 & R4 & L4 & I4).
  destruct (clz_step_ok 1 c4 v4 ltac:(lia) R4 L4) as (c5 & v5 & E5 & R5 & L5 & I5).
  change (Z.shiftl (Z.ones 16) (32 - 16)) with 4294901760 in E1. change (Z.shiftl (Z.ones 8) (32 - 8)) with 4278190080 in E2.
  change (Z.shiftl (Z.ones 4) (32 - 4)) with 4026531840 in E3. change (Z.shiftl (Z.ones 2) (32 - 2)) with 3221225472 in E4.
  change (Z.shiftl (Z.ones 1) (32 - 1)) with 2147483648 in E5. unfold clz_step in E1, E2, E3, E4, E5.
  rewrite E1, E2, E3, E4, E5.
  assert (nz (Z.land v5 2147483648) = true) as ->.
  { change 2147483648 with (Z.shiftl (Z.ones (32 - 31)) 31). rewrite high_mask by (done || lia). by apply Z.leb_le. }
  cbn [negb]. assert (builtin_clz v5 = 0) as E0; [|lia].
  unfold builtin_clz. rewrite (Z.log2_unique v5 31); [lia|lia|]. unfold in_u in R5. cbn in L5. change (2 ^ Z.succ 31) with (2 ^ 32). lia.
Qed.

(** The count determines the position of the highest bit. *)
Lemma clz32_spec v : in_u 32 v -> 0 <= clz32 v <= 32 /\ v < 2 ^ (32 - clz32 v) /\ (v <> 0 -> 2 ^ (31 - clz32 v) <= v).
Proof.
  intros Hv. unfold clz32, nz, builtin_clz, in_u in *. destruct (Z.eqb_spec v 0) as [->|Hne]; cbn [negb]; [cbn; lia|].
  pose proof (Z.log2_spec v ltac:(lia)) as Hl. pose proof (Z.log2_nonneg v).
  assert (Z.log2 v < 32) by (apply Z.log2_lt_pow2; lia). replace (31 - (31 - Z.log2 v)) with (Z.log2 v) by lia.
  replace (32 - (31 - Z.log2 v)) with (Z.succ (Z.log2 v)) by lia. lia.
Qed.

Lemma div_ok n d : in_s 32 n -> in_s 32 d -> d <> 0 ->
  sdiv n d = sint 32 (Z.quot n d) /\ in_s 32 (sdiv n d).
Proof.
  intros Hn Hd Hz. unfold sdiv, INT_MIN. rewrite (proj2 (Z.eqb_neq _ _) Hz). unfold in_s in *. pow_norm.
  destruct (Z.eqb_spec n (-2147483648)) as [->|Hne]; cbn [andb].
  - destruct (Z.eqb_spec d (-1)) as [->|Hd1]; [cbn; split; [reflexivity|lia]|].
    assert (-2147483648 <= Z.quot (-2147483648) d <= 2147483647) by (Z.to_euclidean_division_equations; nia).
    split; [symmetry; apply sint_id; [lia|unfold in_s; pow_norm; lia]|lia].
  - assert (-2147483648 <= Z.quot n d <= 2147483647) by (Z.to_euclidean_division_equations; nia).
    split; [symmetry; apply sint_id; [lia|unfold in_s; pow_norm; lia]|lia].
Qed.

(** ** Specification: parallel operations

    The exact sum or difference of two elements, signed or not, goes through [post]; [gadd]
    and [gsub] say when the GE bits of the lane are set. *)

Record family_ok (P : AddSub) (sg : bool) (post : Z -> Z -> Z) (gadd gsub : Z -> Z -> bool) : Prop := {
  fo_add16 a b : let x := elem sg 16 a + elem sg 16 b in
    uint 16 (ADD16 P a b).1 = uint 16 (post 16 x) /\ (ADD16 P a b).2 = gadd 16 x;
  fo_sub16 a b : let x := elem sg 16 a - elem sg 16 b in
    uint 16 (SUB16 P a b).1 = uint 16 (post 16 x) /\ (SUB16 P a b).2 = gsub 16 x;
  fo_add8 a b : let x := elem sg 8 a + elem sg 8 b in
    uint 8 (ADD8 P a b).1 = uint 8 (post 8 x) /\ (ADD8 P a b).2 = gadd 8 x;
  fo_sub8 a b : let x := elem sg 8 a - elem sg 8 b in
    uint 8 (SUB8 P a b).1 = uint 8 (post 8 x) /\ (SUB8 P a b).2 = gsub 8 x }.

Definition never (w x : Z) : bool := false.
Definition keep (w x : Z) : Z := x.
Definition half (w x : Z) : Z := x / 2.

Lemma sign_bit w a : 0 < w -> in_u w a -> nz (Z.land a (2 ^ (w - 1))) = (2 ^ (w - 1) <=? a).
Proof.
  intros Hw Ha. pose proof (sign_xor w a 0 Hw Ha) as H. rewrite Z.lxor_0_r in H. rewrite H.
  - destruct (Z.leb_spec (2 ^ (w - 1)) 0) as [Hx|]; [|apply xorb_false_r].
    pose proof (Z.pow_pos_nonneg 2 (w - 1) ltac:(lia) ltac:(lia)). lia.
  - unfold in_u. pose proof (Z.pow_pos_nonneg 2 w ltac:(lia) ltac:(lia)). lia.
Qed.

Ltac range_of x := let H := fresh in pose proof (uint_range 8 x ltac:(lia)) as H; unfold in_u in H; pow_norm.

Lemma add_sat_ok w a b : w = 8 \/ w = 16 -> add_sat w (uint w a) (uint w b) = uint w (sat_s w (sint w a + sint w b)).
Proof.
  intros Hw. assert (0 < w) as Hw0 by lia. unfold add_sat. cbn zeta.
  rewrite !(sign_xor w), sign_bit by (done || apply uint_range; lia).
  destruct Hw as [->| ->]; unfold sat_s; cast_unfold; case_cmp; Z.to_euclidean_division_equations; lia.
Qed.

Lemma sub_sat_ok w a b : w = 8 \/ w = 16 -> sub_sat w (uint w a) (uint w b) = uint w (sat_s w (sint w a - sint w b)).
Proof.
  intros Hw. assert (0 < w) as Hw0 by lia. unfold sub_sat. cbn zeta.
  rewrite !(sign_xor w), sign_bit by (done || apply uint_range; lia).
  destruct Hw as [->| ->]; unfold sat_s; cast_unfold; case_cmp; Z.to_euclidean_division_equations; lia.
Qed.

Lemma q_family : family_ok PFX_q true sat_s never never.
Proof.
  split; intros a b; cbn [PFX_q ADD16 SUB16 ADD8 SUB8 on_u fst snd elem]; (split; [|done]).
  - unfold add16_sat. rewrite add_sat_ok by auto. apply uint_uint. lia.
  - unfold sub16_sat. rewrite sub_sat_ok by auto. apply uint_uint. lia.
  - unfold add8_sat. rewrite add_sat_ok by auto. apply uint_uint. lia.
  - unfold sub8_sat. rewrite sub_sat_ok by auto. apply uint_uint. lia.
Qed.

Lemma uq_family : family_ok PFX_uq false sat_u never never.
Proof.
  split; intros a b; cbn [PFX_uq ADD16 SUB16 ADD8 SUB8 on_u fst snd elem]; (split; [|done]);
    unfold add16_usat, sub16_usat, add8_usat, sub8_usat, add_usat, sub_usat, sat_u; cbn zeta; case_cmp; cint.
Qed.

Lemma s_family : family_ok PFX_s true keep (fun _ x => 0 <=? x) (fun _ x => 0 <=? x).
Proof. split; intros a b; split; done. Qed.

Lemma u_family : family_ok PFX_u false keep (fun w x => 2 ^ w <=? x) (fun _ x => 0 <=? x).
Proof.
  split; intros a b; cbn [PFX_u ADD16 SUB16 ADD8 SUB8 fst snd elem]; unfold UADD, USUB, keep; cbn [fst snd];
    rewrite !Z.shiftr_div_pow2 by lia; (split; [cint|]); case_cmp; cast_unfold; Z.to_euclidean_division_equations; lia.
Qed.

Lemma sh_family : family_ok PFX_sh true half never never.
Proof.
  split; intros a b; cbn [PFX_sh ADD16 SUB16 ADD8 SUB8 elem]; unfold SHALF, half; cbn [fst snd];
    rewrite !Z.shiftr_div_pow2 by lia; by split.
Qed.

Lemma uh_family : family_ok PFX_uh false half never never.
Proof.
  split; intros a b; cbn [PFX_uh ADD16 SUB16 ADD8 SUB8 elem]; unfold UHALF, half; cbn [fst snd];
    rewrite !Z.shiftr_div_pow2 by lia; (split; [|done]); cint.
Qed.

(** The GE bits of two halfwords and of four bytes. *)
Definition ge16 (g0 g1 : bool) : Z := b2z g0 * 3 + b2z g1 * 12.
Definition ge8 (g0 g1 g2 g3 : bool) : Z := b2z g0 + b2z g1 * 2 + b2z g2 * 4 + b2z g3 * 8.

Lemma result_fits w v k : 0 <= w -> 0 <= k -> w + k <= 32 -> uint32_t (Z.shiftl (uint w v) k) = Z.shiftl (uint w v) k.
Proof.
  intros Hw Hk Hs. apply uint_id. pose proof (uint_range w v Hw) as Hr. unfold in_u in *.
  rewrite Z.shiftl_mul_pow2 by done. pose proof (Z.pow_pos_nonneg 2 k ltac:(lia) Hk).
  assert (2 ^ w * 2 ^ k <= 2 ^ 32) by (rewrite <- Z.pow_add_r by lia; apply Z.pow_le_mono_r; lia). nia.
Qed.

Lemma two_steps op1 op2 a b c d :
  step16 op2 c d 1 (step16 op1 a b 0 (0, 0)) = (pack 16 [(op1 a b).1; (op2 c d).1], ge16 (op1 a b).2 (op2 c d).2).
Proof.
  unfold step16, RESULT. destruct (op1 a b) as [v0 g0], (op2 c d) as [v1 g1]. cbn [fst snd].
  rewrite !result_fits by lia. cbn [pack]. f_equal; [|by destruct g0, g1].
  by rewrite Z.shiftl_0_l, Z.lor_0_r, Z.lor_0_l, Z.shiftl_0_r.
Qed.

Lemma four_steps op a b c d e f g h :
  step8 op g h 3 (step8 op e f 2 (step8 op c d 1 (step8 op a b 0 (0, 0)))) =
  (pack 8 [(op a b).1; (op c d).1; (op e f).1; (op g h).1], ge8 (op a b).2 (op c d).2 (op e f).2 (op g h).2).
Proof.
  unfold step8, RESULT. destruct (op a b) as [v0 g0], (op c d) as [v1 g1], (op e f) as [v2 g2], (op g h) as [v3 g3].
  cbn [fst snd]. rewrite !result_fits by lia. cbn [pack]. f_equal; [|by destruct g0, g1, g2, g3].
  rewrite Z.shiftl_0_l, Z.lor_0_r, Z.lor_0_l, Z.shiftl_0_r, !Z.shiftl_lor, !Z.shiftl_shiftl, !Z.lor_assoc by lia. done.
Qed.

Lemma pack_cong w l l' : Forall2 (fun x y => uint w x = uint w y) l l' -> pack w l = pack w l'.
Proof. induction 1 as [|x y l l' E _ IH]; [done|]. cbn. by rewrite E, IH. Qed.

(** Element [i] of an operand. *)
Definition el (sg : bool) (w i x : Z) : Z := elem sg w (lane w i x).

Lemma elem_shift sg w i x : 0 < w -> elem sg w (Z.shiftr x (w * i)) = el sg w i x.
Proof. intros. unfold el. by rewrite elem_lane. Qed.

Lemma elem_0 sg w x : 0 < w -> elem sg w x = el sg w 0 x.
Proof. intros. rewrite <- elem_shift by done. by rewrite Z.mul_0_r, Z.shiftr_0_r. Qed.

(** What the six helpers of a family return. *)
Definition lanes16 (post : Z -> Z -> Z) (g0 g1 : Z -> Z -> bool) (x0 x1 : Z) : Z * Z :=
  (pack 16 [post 16 x0; post 16 x1], ge16 (g0 16 x0) (g1 16 x1)).
Definition lanes8 (post : Z -> Z -> Z) (g : Z -> Z -> bool) (x0 x1 x2 x3 : Z) : Z * Z :=
  (pack 8 [post 8 x0; post 8 x1; post 8 x2; post 8 x3], ge8 (g 8 x0) (g 8 x1) (g 8 x2) (g 8 x3)).

Record parallel_ok (P : AddSub) (sg : bool) (post : Z -> Z -> Z) (gadd gsub : Z -> Z -> bool) (a b : Z) : Prop := {
  po_add16 : addsub_add16 P a b =
    lanes16 post gadd gadd (el sg 16 0 a + el sg 16 0 b) (el sg 16 1 a + el sg 16 1 b);
  po_sub16 : addsub_sub16 P a b =
    lanes16 post gsub gsub (el sg 16 0 a - el sg 16 0 b) (el sg 16 1 a - el sg 16 1 b);
  po_addsubx : addsub_addsubx P a b =
    lanes16 post gsub gadd (el sg 16 0 a - el sg 16 1 b) (el sg 16 1 a + el sg 16 0 b);
  po_subaddx : addsub_subaddx P a b =
    lanes16 post gadd gsub (el sg 16 0 a + el sg 16 1 b) (el sg 16 1 a - el sg 16 0 b);
  po_add8 : addsub_add8 P a b =
    lanes8 post gadd (el sg 8 0 a + el sg 8 0 b) (el sg 8 1 a + el sg 8 1 b)
      (el sg 8 2 a + el sg 8 2 b) (el sg 8 3 a + el sg 8 3 b);
  po_sub8 : addsub_sub8 P a b =
    lanes8 post gsub (el sg 8 0 a - el sg 8 0 b) (el sg 8 1 a - el sg 8 1 b)
      (el sg 8 2 a - el sg 8 2 b) (el sg 8 3 a - el sg 8 3 b) }.

Lemma family_parallel P sg post gadd gsub a b : family_ok P sg post gadd gsub -> parallel_ok P sg post gadd gsub a b.
Proof.
  intros [A16 S16 A8 S8].
  assert (forall x, elem sg 16 (Z.shiftr x 16) = el sg 16 1 x) as E16 by (intros x; by rewrite <- elem_shift).
  assert (forall x, elem sg 8 (Z.shiftr x 8) = el sg 8 1 x) as E8 by (intros x; by rewrite <- elem_shift).
  assert (forall x, elem sg 8 (Z.shiftr x 16) = el sg 8 2 x) as E8' by (intros x; by rewrite <- elem_shift).
  assert (forall x, elem sg 8 (Z.shiftr x 24) = el sg 8 3 x) as E8'' by (intros x; by rewrite <- elem_shift).
  split; unfold addsub_add16, addsub_sub16, addsub_addsubx, addsub_subaddx, addsub_add8, addsub_sub8, lanes16, lanes8;
    rewrite ?two_steps, ?four_steps; f_equal;
    try (apply pack_cong; repeat (apply Forall2_cons; split); [..|apply Forall2_nil; done]);
    rewrite ?(proj1 (A16 _ _)), ?(proj1 (S16 _ _)), ?(proj1 (A8 _ _)), ?(proj1 (S8 _ _)),
      ?(proj2 (A16 _ _)), ?(proj2 (S16 _ _)), ?(proj2 (A8 _ _)), ?(proj2 (S8 _ _)), ?E16, ?E8, ?E8', ?E8'', ?elem_0 by lia; done.
Qed.
