(* ===== verification/ArmProps.v ===== *)
(** * The ARM helpers: status register and properties

    The remaining lemmas about the helpers of ArmHelpers - extension, absolute difference,
    selection by the GE bits, and the status register bit by bit - and the properties of
    the whole group. *)

From S2P Require Import Prelude NeonBase NeonArith ArmHelpers.
Open Scope Z_scope.

(** ** Extension, differences, selection *)

Lemma xtb16_ok x : in_u 32 x ->
  sxtb16 x = pack 16 [el true 8 0 x; el true 8 2 x] /\ uxtb16 x = pack 16 [el false 8 0 x; el false 8 2 x].
Proof.
  intros Hx. rewrite <- !(elem_0 _ 8), <- !(elem_shift _ 8) by lia. change (8 * 2) with 16. unfold sxtb16, uxtb16, elem.
  split; cbn [pack]; rewrite Z.shiftl_0_l, Z.lor_0_r; bitwise; autorewrite with bits; split_ltb; cbn [andb]; done.
Qed.

Lemma do_usad_ok a b : do_usad a b = Z.abs (uint 8 a - uint 8 b).
Proof. unfold do_usad. cbn zeta. case_cmp; cint. Qed.

Lemma usad8_ok a b : usad8 a b =
  Z.abs (el false 8 0 a - el false 8 0 b) + Z.abs (el false 8 1 a - el false 8 1 b) +
  Z.abs (el false 8 2 a - el false 8 2 b) + Z.abs (el false 8 3 a - el false 8 3 b).
Proof.
  rewrite <- !(elem_0 _ 8), <- !(elem_shift _ 8) by lia. unfold usad8, elem. rewrite !do_usad_ok.
  change (8 * 1) with 8. change (8 * 2) with 16. change (8 * 3) with 24. apply uint_id. unfold in_u.
  pose proof (uint_range 8 a ltac:(lia)). pose proof (uint_range 8 b ltac:(lia)).
  pose proof (uint_range 8 (Z.shiftr a 8) ltac:(lia)). pose proof (uint_range 8 (Z.shiftr b 8) ltac:(lia)).
  pose proof (uint_range 8 (Z.shiftr a 16) ltac:(lia)). pose proof (uint_range 8 (Z.shiftr b 16) ltac:(lia)).
  pose proof (uint_range 8 (Z.shiftr a 24) ltac:(lia)). pose proof (uint_range 8 (Z.shiftr b 24) ltac:(lia)).
  unfold in_u in *. pow_norm. lia.
Qed.

Lemma flag_bit f k : 0 <= k -> nz (Z.land f (2 ^ k)) = Z.testbit f k.
Proof.
  intros Hk. unfold nz. destruct (Z.testbit f k) eqn:E.
  - apply negb_true_iff, Z.eqb_neq. intros E0. apply (f_equal (fun z => Z.testbit z k)) in E0.
    by rewrite Z.land_spec, E, Z.pow2_bits_true, Z.bits_0 in E0 by lia.
  - apply negb_false_iff, Z.eqb_eq, Z.bits_inj'. intros i Hi. rewrite Z.land_spec, Z.bits_0.
    destruct (decide (i = k)) as [->|]; [by rewrite E|]. rewrite Z.pow2_bits_false by lia. apply andb_false_r.
Qed.

(** Byte [k] comes from the first operand where bit [k] of the flags is set. *)
Lemma sel_flags_ok f a b k : in_u 32 a -> in_u 32 b -> 0 <= k < 4 ->
  lane 8 k (sel_flags f a b) = if Z.testbit f k then lane 8 k a else lane 8 k b.
Proof.
  intros Ha Hb Hk. unfold sel_flags.
  change (Z.land f 1) with (Z.land f (2 ^ 0)). change (Z.land f 2) with (Z.land f (2 ^ 1)).
  change (Z.land f 4) with (Z.land f (2 ^ 2)). change (Z.land f 8) with (Z.land f (2 ^ 3)).
  rewrite (flag_bit f 0), (flag_bit f 1), (flag_bit f 2), (flag_bit f 3) by lia. cbn zeta.
  apply Z.bits_inj'. intros i Hi. rewrite lane_testbit by lia.
  destruct (Z.ltb_spec i 8); cbn [andb]; [|destruct (Z.testbit f k); rewrite lane_testbit by lia; by rewrite (proj2 (Z.ltb_ge i 8)) by lia].
  assert (Z.testbit (if Z.testbit f k then lane 8 k a else lane 8 k b) i =
    if Z.testbit f k then Z.testbit a (i + 8 * k) else Z.testbit b (i + 8 * k)) as ->.
  { destruct (Z.testbit f k); rewrite lane_testbit by lia; by rewrite (proj2 (Z.ltb_lt i 8)) by lia. }
  bits_unfold. autorewrite with bits. rewrite (proj2 (Z.ltb_lt (i + 8 * k) 32)) by lia. cbn [andb].
  assert (k = 0 \/ k = 1 \/ k = 2 \/ k = 3) as Hc by lia.
  destruct Hc as [->|[->|[->| ->]]];
    destruct (Z.testbit f 0), (Z.testbit f 1), (Z.testbit f 2), (Z.testbit f 3);
    cbn [Z.lor Pos.lor]; bit_cases i 8; const_bits; cbn [negb]; rewrite ?andb_true_r, ?andb_false_r, ?orb_false_r; done.
Qed.

Lemma abs_ok x : in_u 32 x -> abs x = uint32_t (Z.abs (int32_t x)).
Proof. intros Hx. unfold abs. case_cmp; cint. Qed.

Lemma logicq_ok v : in_u 64 v -> Z.testbit (logicq_cc v) 31 = Z.testbit v 63 /\ (logicq_cc v = 0 <-> v = 0).
Proof.
  intros Hv. unfold logicq_cc. split.
  - autorewrite with bits. change (31 =? 0) with false. rewrite andb_false_r, orb_false_r. done.
  - unfold nz. destruct (Z.eqb_spec v 0) as [->|Hne]; [done|]. split; [|done].
    intros [_ E]%Z.lor_eq_0_iff. done.
Qed.

(** ** The status register, bit by bit *)

(** The fields hold what the generated code keeps in them. *)
Record env_ok (e : Env) : Prop := {
  ok_CF : in_u 1 (CF e);
  ok_QF : in_u 1 (QF e);
  ok_T : in_u 1 (thumb e);
  ok_GE : in_u 4 (GE e);
  ok_IT : in_u 8 (condexec_bits e);
  ok_word : in_u 32 (uncached_cpsr e);
  ok_rest : Z.land (uncached_cpsr e) CACHED_CPSR_BITS = 0 }.

Definition cpsr_bit (e : Env) (i : Z) : bool :=
  if i =? 31 then Z.testbit (NF e) 31
  else if i =? 30 then ZF e =? 0
  else if i =? 29 then Z.testbit (CF e) 0
  else if i =? 28 then Z.testbit (VF e) 31
  else if i =? 27 then Z.testbit (QF e) 0
  else if 25 <=? i then Z.testbit (condexec_bits e) (i - 25)
  else if (16 <=? i) && (i <=? 19) then Z.testbit (GE e) (i - 16)
  else if (10 <=? i) && (i <=? 15) then Z.testbit (condexec_bits e) (i - 8)
  else if i =? 5 then Z.testbit (thumb e) 0
  else Z.testbit (uncached_cpsr e) i.

(** A bit of a field that is kept elsewhere. *)
Lemma rest_bit e i : env_ok e -> 0 <= i -> Z.testbit CACHED_CPSR_BITS i = true -> Z.testbit (uncached_cpsr e) i = false.
Proof.
  intros HE Hi Hc. pose proof (f_equal (fun z => Z.testbit z i) (ok_rest e HE)) as H. cbn beta in H.
  rewrite Z.land_spec, Hc, andb_true_r, Z.bits_0 in H. done.
Qed.

Ltac high_bits HE :=
  rewrite ?(in_u_testbit 1 _ _ ltac:(lia) (ok_CF _ HE)), ?(in_u_testbit 1 _ _ ltac:(lia) (ok_QF _ HE)),
    ?(in_u_testbit 1 _ _ ltac:(lia) (ok_T _ HE)), ?(in_u_testbit 4 _ _ ltac:(lia) (ok_GE _ HE)),
    ?(in_u_testbit 8 _ _ ltac:(lia) (ok_IT _ HE)) by lia.

Lemma cpsr_read_bit e i : env_ok e -> 0 <= i < 32 -> Z.testbit (cpsr_read e) i = cpsr_bit e i.
Proof.
  intros HE Hi. unfold cpsr_read, cpsr_bit. cbn zeta. bits_unfold. autorewrite with bits.
  pose proof (rest_bit e) as HR.
  bit_cases i 32; const_bits; cbn [Z.eqb Pos.eqb andb]; high_bits HE;
    rewrite ?HR by (done || reflexivity); rewrite ?andb_true_r, ?andb_false_r, ?orb_false_r, ?orb_false_l; try done.
  all: destruct (ZF e =? 0); cbn [b2z]; const_bits; done.
Qed.

(** "Some bits of mask must be all-set or all-clear." *)
Definition all_or_none (m g : Z) : Prop := Z.land m g = 0 \/ Z.land m g = g.

Record mask_ok (m : Z) : Prop := {
  mk_NZCV : all_or_none m CPSR_NZCV;
  mk_GE : all_or_none m CPSR_GE;
  mk_IT01 : all_or_none m CPSR_IT_0_1;
  mk_IT27 : all_or_none m CPSR_IT_2_7 }.

Lemma group_bit m g i : all_or_none m g -> Z.testbit g i = true -> nz (Z.land m g) = Z.testbit m i.
Proof.
  intros H Hg. assert (Z.testbit (Z.land m g) i = Z.testbit m i) as E by (by rewrite Z.land_spec, Hg, andb_true_r).
  destruct H as [H|H]; rewrite H in E |- *.
  - by rewrite Z.bits_0 in E.
  - rewrite Hg in E. rewrite <- E. unfold nz. apply negb_true_iff, Z.eqb_neq. intros ->. by rewrite Z.bits_0 in Hg.
Qed.

(** The bits a write changes: an attempt to enter an invalid mode leaves the mode alone. *)
Definition mode_change (v m : Z) (e : Env) : bool := nz (((uncached_cpsr e ^^ v) & m & CPSR_M)%C).

Definition written (v m : Z) (e : Env) : Z :=
  if mode_change v m e && bad_mode_switch (Z.land v CPSR_M) then Z.land m (uint32_t (Z.lnot CPSR_M)) else m.

Definition leaves_user_mode (v m : Z) (e : Env) : bool :=
  mode_change v m e && negb (bad_mode_switch (Z.land v CPSR_M)) && negb (Z.land v CPSR_M =? ARM_CPU_MODE_USR).

Lemma cpsr_write_cases v m e : exists nzcv q ge t it,
  cpsr_write v m e =
    (if leaves_user_mode v m e then None
     else
       let k := Z.land (written v m e) (uint32_t (Z.lnot CACHED_CPSR_BITS)) in
       let '(n, z, c, x) := nzcv : Z * Z * Z * Z in
       Some (mkEnv n z c x q ge t it (Z.lor (Z.land (uncached_cpsr e) (uint32_t (Z.lnot k))) (Z.land v k)))) /\
  nzcv = (if nz (Z.land m CPSR_NZCV)
          then (v, Z.land (uint32_t (Z.lnot v)) CPSR_Z, Z.land (Z.shiftr v 29) 1, Z.land (uint32_t (Z.shiftl v 3)) 2147483648)
          else (NF e, ZF e, CF e, VF e)) /\
  q = (if nz (Z.land m CPSR_Q) then b2z (nz (Z.land v CPSR_Q)) else QF e) /\
  ge = (if nz (Z.land m CPSR_GE) then Z.land (Z.shiftr v 16) 15 else GE e) /\
  t = (if nz (Z.land m CPSR_T) then b2z (nz (Z.land v CPSR_T)) else thumb e) /\
  it = (let it := condexec_bits e in
        let it := if nz (Z.land m CPSR_IT_0_1)
          then Z.lor (Z.land it (uint32_t (Z.lnot 3))) (Z.land (Z.shiftr v 25) 3) else it in
        if nz (Z.land m CPSR_IT_2_7) then Z.lor (Z.land it 3) (Z.land (Z.shiftr v 8) 252) else it).
Proof.
  do 5 eexists. split_and!; try reflexivity. unfold cpsr_write, leaves_user_mode, written, mode_change, switch_mode.
  destruct (nz (Z.land m CPSR_NZCV)); cbn [set_NZCV NF ZF CF VF QF GE thumb condexec_bits uncached_cpsr];
    destruct (nz ((uncached_cpsr e ^^ v) & m & CPSR_M)%C); cbn [andb]; try reflexivity; destruct (bad_mode_switch _); cbn [negb andb mbind option_bind]; try reflexivity;
    destruct (_ =? ARM_CPU_MODE_USR); reflexivity.
Qed.

(** The bits that stay in [uncached_cpsr]. *)
Lemma uncached_bit v m u i : in_u 32 u -> in_u 32 v -> in_u 32 m -> 0 <= i < 32 ->
  let k := Z.land m (uint32_t (Z.lnot CACHED_CPSR_BITS)) in
  Z.testbit (Z.lor (Z.land u (uint32_t (Z.lnot k))) (Z.land v k)) i =
  if Z.testbit CACHED_CPSR_BITS i then Z.testbit u i else if Z.testbit m i then Z.testbit v i else Z.testbit u i.
Proof.
  intros Hu Hv Hm Hi k. unfold k. bits_unfold. autorewrite with bits. rewrite (proj2 (Z.ltb_lt i 32)) by lia. cbn [andb].
  by destruct (Z.testbit CACHED_CPSR_BITS i), (Z.testbit m i), (Z.testbit u i), (Z.testbit v i).
Qed.

Lemma in_u_lor w a b : 0 <= w -> in_u w a -> in_u w b -> in_u w (Z.lor a b).
Proof.
  intros Hw Ha Hb. apply testbit_in_u; [done|apply Z.lor_nonneg; split; [apply Ha|apply Hb]|].
  intros i Hi. by rewrite Z.lor_spec, (in_u_testbit w a), (in_u_testbit w b) by done.
Qed.

Lemma in_u_land w a b : 0 <= w -> 0 <= a -> in_u w b -> in_u w (Z.land a b).
Proof.
  intros Hw Ha Hb. apply testbit_in_u; [done|apply Z.land_nonneg; by left|].
  intros i Hi. rewrite Z.land_spec, (in_u_testbit w b) by done. apply andb_false_r.
Qed.

Lemma in_u_land_l w a b : 0 <= w -> in_u w a -> 0 <= b -> in_u w (Z.land a b).
Proof. intros. rewrite Z.land_comm. by apply in_u_land. Qed.

Lemma in_u_b2z b : in_u 1 (b2z b).
Proof. unfold in_u. destruct b; cbn; lia. Qed.

(** [in_range] proves that a constant is in the range of a type. *)
Ltac in_range := vm_compute; split; [discriminate|reflexivity].

Section Write.
Context (v m : Z) (e e' : Env) (HE : env_ok e) (Hv : in_u 32 v) (Hm : in_u 32 m) (HM : mask_ok m).
Context (E : cpsr_write v m e = Some e').

Lemma written_range : in_u 32 (written v m e).
Proof. unfold written. destruct (_ && _); [|done]. apply in_u_land_l; [lia|done|]. apply uint_range. lia. Qed.

Lemma written_high i : 5 <= i -> Z.testbit (written v m e) i = Z.testbit m i.
Proof.
  intros Hi. unfold written. destruct (_ && _); [|done]. destruct (decide (i < 32)).
  - rewrite Z.land_spec. bits_unfold. rewrite uint_testbit, Z.lnot_spec by lia. rewrite (proj2 (Z.ltb_lt i 32)) by lia.
    rewrite (in_u_testbit 5 CPSR_M i) by (lia || in_range). cbn. apply andb_true_r.
  - by rewrite (in_u_testbit 32 m), (in_u_testbit 32) by (done || lia || apply in_u_land_l; (lia || done || (apply uint_range; lia))).
Qed.

Lemma cpsr_write_env_ok : env_ok e'.
Proof.
  destruct (cpsr_write_cases v m e) as (nzcv & q & ge & t & it & E1 & En & Eq & Eg & Et & Ei). rewrite E in E1.
  destruct (leaves_user_mode v m e); [done|]. destruct nzcv as [[[n z] c] x]. cbn zeta in E1. injection E1 as ->.
  assert (0 <= v) as Hv0 by apply Hv. pose proof HE as [H1 H2 H3 H4 H5 H6 H7].
  split; cbn [CF QF thumb GE condexec_bits uncached_cpsr].
  - destruct (nz (Z.land m CPSR_NZCV)); injection En as -> -> -> ->; [|done]. apply in_u_land; [lia|by apply Z.shiftr_nonneg|done].
  - subst q. destruct (nz (Z.land m CPSR_Q)); [apply in_u_b2z|done].
  - subst t. destruct (nz (Z.land m CPSR_T)); [apply in_u_b2z|done].
  - subst ge. destruct (nz (Z.land m CPSR_GE)); [|done]. apply in_u_land; [lia|by apply Z.shiftr_nonneg|done].
  - subst it. cbn zeta. set (i1 := if nz (Z.land m CPSR_IT_0_1) then _ else _).
    assert (in_u 8 i1) as Hi1.
    { unfold i1. destruct (nz (Z.land m CPSR_IT_0_1)); [|done]. apply in_u_lor; [lia| |].
      - apply in_u_land_l; [lia|done|]. apply uint_range. lia.
      - apply in_u_land; [lia|by apply Z.shiftr_nonneg|]. unfold in_u. lia. }
    destruct (nz (Z.land m CPSR_IT_2_7)); [|done]. apply in_u_lor; [lia| |].
    + apply in_u_land_l; [lia|done|lia].
    + apply in_u_land; [lia|by apply Z.shiftr_nonneg|]. unfold in_u. lia.
  - apply in_u_lor; [lia| |]; apply in_u_land_l; (lia || done || idtac).
    + apply uint_range. lia.
    + apply Z.land_nonneg. left. apply written_range.
  - apply Z.bits_inj'. intros i Hi. rewrite Z.land_spec, Z.bits_0. destruct (decide (i < 32)).
    + rewrite uncached_bit by (done || lia || apply written_range).
      destruct (Z.testbit CACHED_CPSR_BITS i) eqn:Ec; [|apply andb_false_r]. by rewrite rest_bit.
    + rewrite (in_u_testbit 32 CACHED_CPSR_BITS) by (lia || in_range). apply andb_false_r.
Qed.

(** A write replaces the bits of the mask. *)
Lemma zero_flag : (Z.land (uint32_t (Z.lnot v)) CPSR_Z =? 0) = Z.testbit v 30.
Proof.
  change CPSR_Z with (2 ^ 30). rewrite <- (negb_involutive (_ =? 0)). fold (nz (Z.land (uint32_t (Z.lnot v)) (2 ^ 30))).
  rewrite flag_bit by lia. unfold uint32_t. rewrite uint_testbit, Z.lnot_spec by lia. apply negb_involutive.
Qed.

Lemma cpsr_write_bit i : 0 <= i < 32 ->
  cpsr_bit e' i = if Z.testbit (written v m e) i then Z.testbit v i else cpsr_bit e i.
Proof.
  intros Hi.
  destruct (cpsr_write_cases v m e) as (nzcv & q & ge & t & it & E1 & En & Eq & Eg & Et & Ei). rewrite E in E1.
  destruct (leaves_user_mode v m e); [done|]. destruct nzcv as [[[n z] c] x]. cbn zeta in E1, Ei. injection E1 as ->.
  destruct HM as [M1 M2 M3 M4]. pose proof written_high as WH. pose proof written_range as WR.
  set (w := written v m e) in *. clearbody w. clear E.
  match goal with |- context [mkEnv _ _ _ _ _ _ _ _ ?u] => set (u' := u) end.
  assert (forall k, 0 <= k < 32 -> Z.testbit CACHED_CPSR_BITS k = false ->
    Z.testbit u' k = if Z.testbit w k then Z.testbit v k else Z.testbit (uncached_cpsr e) k) as UB'.
  { intros k Hk Hc. unfold u'. by rewrite uncached_bit, Hc by (done || apply HE). }
  clearbody u'.
  assert (nz (Z.land m CPSR_Q) = Z.testbit m 27 /\ nz (Z.land v CPSR_Q) = Z.testbit v 27) as [FQ FQv] by (split; apply (flag_bit _ 27); lia).
  assert (nz (Z.land m CPSR_T) = Z.testbit m 5 /\ nz (Z.land v CPSR_T) = Z.testbit v 5) as [FT FTv] by (split; apply (flag_bit _ 5); lia).
  unfold cpsr_bit. cbn [NF ZF CF VF QF GE thumb condexec_bits uncached_cpsr].
  bit_cases i 32; cbn [Z.eqb Pos.eqb Z.leb Z.compare Pos.compare Pos.compare_cont andb]; rewrite ?WH by lia;
    try (by apply UB');
    try (rewrite <- (group_bit m CPSR_NZCV _ M1) by reflexivity; destruct (nz (Z.land m CPSR_NZCV)); injection En as -> -> -> ->;
         [|reflexivity]; first [reflexivity|apply zero_flag|bits_unfold; autorewrite with bits; const_bits; reflexivity]);
    try (rewrite <- (group_bit m CPSR_GE _ M2) by reflexivity; subst ge; destruct (nz (Z.land m CPSR_GE)); [|reflexivity];
         const_bits; autorewrite with bits; const_bits; reflexivity).
  1: { subst t. rewrite FT, FTv. destruct (Z.testbit m 5); [|done]. by destruct (Z.testbit v 5). }
  all: try (rewrite <- WH by lia; apply UB'; [lia|reflexivity]).
  all: try (subst q; rewrite FQ, FQv; destruct (Z.testbit m 27); [|done]; by destruct (Z.testbit v 27)).
  all: first [rewrite <- (group_bit m CPSR_IT_2_7 _ M4) by reflexivity|rewrite <- (group_bit m CPSR_IT_0_1 _ M3) by reflexivity].
  all: subst it; destruct (nz (Z.land m CPSR_IT_2_7)), (nz (Z.land m CPSR_IT_0_1)); const_bits; bits_unfold;
    autorewrite with bits; const_bits; cbn [negb]; rewrite ?andb_true_r; reflexivity.
Qed.

End Write.

Lemma cpsr_read_high e i : env_ok e -> 32 <= i -> Z.testbit (cpsr_read e) i = false.
Proof.
  intros HE Hi. unfold cpsr_read. cbn zeta. rewrite !Z.lor_spec.
  rewrite (in_u_testbit 32 (uncached_cpsr e)) by (lia || apply HE). cbn [orb].
  rewrite Z.land_spec, (in_u_testbit 32 2147483648) by (lia || in_range). rewrite andb_false_r. cbn [orb].
  rewrite testbit_shiftl, testbit_b2z, testbit_shiftr, Z.land_spec by lia.
  rewrite (in_u_testbit 32 2147483648) by (lia || in_range). rewrite (proj2 (Z.eqb_neq (i - 30) 0)) by lia. rewrite !andb_false_r. cbn [orb].
  unfold uint32_t. rewrite !uint_testbit by lia. by rewrite (proj2 (Z.ltb_ge i 32)) by lia.
Qed.

(** ** Properties *)

(** C38: The status register.  [cpsr_write] with a mask of the documented form (its groups of
    bits all set or all clear) fails only on an attempt to leave user mode for another
    valid mode; otherwise [cpsr_read] afterwards gives the old value with the bits of the
    mask replaced by those of the value - the condition flags, Q, GE, T and IT bits that
    the program keeps in fields of their own included - except that the mode bits stay as
    they are when the value does not name a valid mode; and the fields keep their form. *)
Theorem cpsr_write_read (v m : Z) (e : Env) : env_ok e -> in_u 32 v -> in_u 32 m -> mask_ok m ->
  match cpsr_write v m e with
  | Some e' => leaves_user_mode v m e = false /\ env_ok e' /\
      cpsr_read e' = Z.lor (Z.land (cpsr_read e) (Z.lnot (written v m e))) (Z.land v (written v m e))
  | None => leaves_user_mode v m e = true
  end.
Proof.
  intros HE Hv Hm HM. destruct (cpsr_write v m e) as [e'|] eqn:E.
  - pose proof (cpsr_write_env_ok v m e e' HE Hv Hm E) as HE'. split; [|split; [done|]].
    + destruct (cpsr_write_cases v m e) as (nzcv & q & ge & t & it & E1 & _). rewrite E in E1.
      by destruct (leaves_user_mode v m e).
    + apply Z.bits_inj'. intros i Hi. rewrite Z.lor_spec, !Z.land_spec, Z.lnot_spec by done.
      destruct (decide (i < 32)).
      * rewrite !cpsr_read_bit, (cpsr_write_bit v m e e' HE Hv Hm HM E) by (done || lia).
        by destruct (Z.testbit (written v m e) i), (Z.testbit v i), (cpsr_bit e i).
      * rewrite !cpsr_read_high, (in_u_testbit 32 v) by (done || lia). done.
  - destruct (cpsr_write_cases v m e) as (nzcv & q & ge & t & it & E1 & _). rewrite E in E1.
    destruct (leaves_user_mode v m e); [done|]. by destruct nzcv as [[[??]?]?].
Qed.

Definition psr_env : Env := mkEnv 2147483648 7 1 0 1 5 0 0 16.

Lemma cpsr_write_read_witness :
  leaves_user_mode 1610612752 4026531871 psr_env = false /\
  cpsr_read (default psr_env (cpsr_write 1610612752 4026531871 psr_env)) = 1745158160.
Proof.
  pose proof (cpsr_write_read 1610612752 4026531871 psr_env
    ltac:(split; try in_range; reflexivity) ltac:(in_range) ltac:(in_range)
    ltac:(split; first [left; vm_compute; reflexivity|right; vm_compute; reflexivity])) as H.
  destruct H as (H1 & _ & H3). split; [exact H1|exact H3].
Defined.

(** C39: Flag-setting arithmetic, shifts by a register and saturation compute what the
    architecture manual says.  [add_cc], [adc_cc], [sub_cc] and [sbc_cc] give the sum with
    carry of the operands (the second one complemented for a subtraction) and its four
    flags; the shifts take the low byte of the count, give zero, the sign or a rotation
    for large counts and put the last bit shifted out in C; the saturating helpers move
    the exact result into the range and set Q if it was outside - but [double_saturate] also
    sets Q for -2{^30}, whose double is in range. *)
Theorem arm_alu_correct (a b n : Z) (e : Env) : in_u 32 a -> in_u 32 b -> 0 <= n < 32 ->
  (computes (add_cc a b e) (AddWithCarry a b false) e /\
   computes (adc_cc a b e) (AddWithCarry a b (nz (CF e))) e /\
   computes (sub_cc a b e) (AddWithCarry a (NOT32 b) true) e /\
   computes (sbc_cc a b e) (AddWithCarry a (NOT32 b) (nz (CF e))) e) /\
  (shifts (shl_cc a b e) (Shift_C SRType_LSL a (b mod 256) (nz (CF e))) e /\
   shifts (shr_cc a b e) (Shift_C SRType_LSR a (b mod 256) (nz (CF e))) e /\
   shifts (sar_cc a b e) (Shift_C SRType_ASR a (b mod 256) (nz (CF e))) e /\
   shifts (ror_cc a b e) (Shift_C SRType_ROR a (b mod 256) (nz (CF e))) e /\
   shl a b = (Shift_C SRType_LSL a (b mod 256) false).1 /\ shr a b = (Shift_C SRType_LSR a (b mod 256) false).1 /\
   sar a b = (Shift_C SRType_ASR a (b mod 256) false).1) /\
  (saturates (sat_s 32) (int32_t a + int32_t b) e (add_saturate a b e) /\
   saturates (sat_s 32) (int32_t a - int32_t b) e (sub_saturate a b e) /\
   saturates (sat_u 32) (a + b) e (add_usaturate a b e) /\
   saturates (sat_u 32) (a - b) e (sub_usaturate a b e) /\
   (int32_t a <> -1073741824 -> saturates (sat_s 32) (2 * int32_t a) e (double_saturate (int32_t a) e)) /\
   double_saturate (-1073741824) e = (2147483648, set_QF e) /\
   (exists r, ssat a n e = Some r /\ saturates (sat_s (n + 1)) (int32_t a) e r) /\
   (exists r, usat a n e = Some r /\ saturates (sat_u n) (int32_t a) e r)).
Proof.
  intros Ha Hb Hn. split; [|split].
  - split_and!; [by apply add_cc_ok|by apply adc_cc_ok|by apply sub_cc_ok|by apply sbc_cc_ok].
  - destruct (plain_shifts a b Ha) as (H1 & H2 & H3).
    split_and!; [by apply shl_cc_ok|by apply shr_cc_ok|by apply sar_cc_ok|by apply ror_cc_ok|done..].
  - assert (in_s 32 (int32_t a)) as Hs by (apply sint_range; lia).
    split_and!; [by apply add_saturate_ok|by apply sub_saturate_ok|by apply add_usaturate_ok|by apply sub_usaturate_ok|..].
    + intros Hne. unfold saturates. rewrite double_saturate_ok by done. by rewrite (proj2 (Z.eqb_neq _ _) Hne), orb_false_r.
    + reflexivity.
    + unfold ssat. rewrite (int32_small n) by done. by apply do_ssat_ok.
    + unfold usat. rewrite (int32_small n) by done. by apply do_usat_ok.
Qed.

Lemma arm_alu_correct_witness : computes (sub_cc 5 7 psr_env) (4294967294, mkFlags true false false false) psr_env /\
  shifts (ror_cc 5 33 psr_env) (2147483650, true) psr_env.
Proof.
  destruct (arm_alu_correct 5 7 3 psr_env ltac:(in_range) ltac:(in_range) ltac:(lia)) as ((_ & _ & H1 & _) & _).
  destruct (arm_alu_correct 5 33 3 psr_env ltac:(in_range) ltac:(in_range) ltac:(lia)) as (_ & (_ & _ & _ & H2 & _) & _).
  split; [exact H1|exact H2].
Defined.

(** C40: The ARMv6 parallel operations and the bit operations.  For each of the six families
    (saturating, wrapping with GE bits, halving; signed and unsigned) the four additions
    and subtractions on halfwords and bytes and the two exchanging forms give, lane by
    lane, the exact sum or difference clamped, wrapped or halved, and the GE bits say
    where a signed result was not negative, an unsigned sum carried or a difference did
    not borrow; [sel_flags] picks the bytes by those bits.  [rbit] reverses the bits, the
    portable [clz32] agrees with the compiler's and locates the highest bit, [sdiv]
    truncates and wraps, and [ssat16] and [usat16] saturate both halves. *)
Theorem arm_parallel_correct (a b n : Z) (e : Env) : in_u 32 a -> in_u 32 b -> 0 <= n < 32 ->
  (parallel_ok PFX_q true sat_s never never a b /\ parallel_ok PFX_uq false sat_u never never a b /\
   parallel_ok PFX_s true keep (fun _ x => 0 <=? x) (fun _ x => 0 <=? x) a b /\
   parallel_ok PFX_u false keep (fun w x => 2 ^ w <=? x) (fun _ x => 0 <=? x) a b /\
   parallel_ok PFX_sh true half never never a b /\ parallel_ok PFX_uh false half never never a b) /\
  (forall f k, 0 <= k < 4 -> lane 8 k (sel_flags f a b) = if Z.testbit f k then lane 8 k a else lane 8 k b) /\
  usad8 a b = Z.abs (el false 8 0 a - el false 8 0 b) + Z.abs (el false 8 1 a - el false 8 1 b) +
    Z.abs (el false 8 2 a - el false 8 2 b) + Z.abs (el false 8 3 a - el false 8 3 b) /\
  sxtb16 a = pack 16 [el true 8 0 a; el true 8 2 a] /\ uxtb16 a = pack 16 [el false 8 0 a; el false 8 2 a] /\
  (forall i, 0 <= i < 32 -> Z.testbit (rbit a) i = Z.testbit a (31 - i)) /\
  (clz32_steps a = clz a /\ a < 2 ^ (32 - clz a) /\ (a <> 0 -> 2 ^ (31 - clz a) <= a)) /\
  sdiv (int32_t a) (int32_t b) = (if b =? 0 then 0 else int32_t (Z.quot (int32_t a) (int32_t b))) /\
  abs a = uint32_t (Z.abs (int32_t a)) /\
  (exists r, ssat16 a n e = Some r /\
    lane 16 0 r.1 = uint16_t (sat_s (n + 1) (int16_t a)) /\ lane 16 1 r.1 = uint16_t (sat_s (n + 1) (int16_t (Z.shiftr a 16)))) /\
  (exists r, usat16 a n e = Some r /\
    lane 16 0 r.1 = uint16_t (sat_u n (int16_t a)) /\ lane 16 1 r.1 = uint16_t (sat_u n (int16_t (Z.shiftr a 16)))).
Proof.
  intros Ha Hb Hn. destruct (xtb16_ok a Ha) as [X1 X2]. destruct (clz32_spec a Ha) as (_ & C1 & C2). split_and!;
    [apply family_parallel, q_family|apply family_parallel, uq_family|apply family_parallel, s_family|
     apply family_parallel, u_family|apply family_parallel, sh_family|apply family_parallel, uh_family|
     intros f k Hk; by apply sel_flags_ok|apply usad8_ok|done|done|intros i Hi; by apply rbit_ok|by apply clz32_steps_ok|done|done| |by apply abs_ok|..].
  - assert (in_s 32 (int32_t a) /\ in_s 32 (int32_t b)) as [H1 H2] by (split; apply sint_range; lia).
    destruct (Z.eqb_spec b 0) as [->|Hne]; [reflexivity|]. apply div_ok; [done|done|]. intros E.
    apply Hne. unfold in_u in Hb. revert E. cint.
  - destruct (sat16_ok do_ssat (sat_s (n + 1)) a n e Ha Hn ltac:(intros; by apply do_ssat_ok)) as (r & E & H1 & H2 & _). by exists r.
  - destruct (sat16_ok do_usat (sat_u n) a n e Ha Hn ltac:(intros; by apply do_usat_ok)) as (r & E & H1 & H2 & _). by exists r.
Qed.

Lemma arm_parallel_correct_witness :
  addsub_add8 PFX_u 4278255873 16777471 = (65792, 9) /\ Z.testbit (rbit 1) 31 = true.
Proof.
  destruct (arm_parallel_correct 4278255873 16777471 7 psr_env ltac:(in_range) ltac:(in_range) ltac:(lia))
    as ((_ & _ & _ & H1 & _) & _).
  destruct (arm_parallel_correct 1 0 7 psr_env ltac:(in_range) ltac:(in_range) ltac:(lia)) as (_ & _ & _ & _ & _ & H2 & _).
  split; [exact (po_add8 _ _ _ _ _ _ _ H1)|exact (H2 31 ltac:(lia))].
Defined.
