(* ===== verification/TcgIr.v ===== *)
(** * TCG operations and their meaning

    The intermediate operations of src/emul/qemu/tcg (opcodes of tcg-opc.h, the
    context of tcg.h) and what they compute, from the interpreter
    src/emul/qemu/tci.c and the operation reference tcg/README, on a 64-bit host.

    A temporary holds a value of its type.  An operation names temporaries and
    constants; the ones the optimiser has no case for ([op_other]: loads, stores,
    comparisons, divisions, block exits, ...) and the helper calls take their
    meaning from parameters, so what is proved holds whatever they compute.
    Undefined behaviour of an operation is [None]. *)

From S2P Require Import Prelude.
Open Scope Z_scope.

(** ** Operations *)

Inductive TCGType := TCG_TYPE_I32 | TCG_TYPE_I64.

#[global] Instance TCGType_eq_dec : EqDecision TCGType.
Proof. solve_decision. Defined.

Definition bits (w : TCGType) : Z :=
  match w with TCG_TYPE_I32 => 32 | TCG_TYPE_I64 => 64 end.

Inductive TCGCond :=
  | TCG_COND_EQ | TCG_COND_NE | TCG_COND_LT | TCG_COND_GE | TCG_COND_LE
  | TCG_COND_GT | TCG_COND_LTU | TCG_COND_GEU | TCG_COND_LEU | TCG_COND_GTU.

(** The opcodes with one source; the 32-bit extensions exist as [_i64] only. *)
Inductive unop :=
  | op_not | op_neg | op_ext8s | op_ext8u | op_ext16s | op_ext16u
  | op_ext32s | op_ext32u.

(** The opcodes with two sources that the optimiser folds. *)
Inductive binop :=
  | op_add | op_sub | op_mul | op_or | op_and | op_xor | op_shl | op_shr | op_sar
  | op_rotl | op_rotr | op_andc | op_orc | op_eqv | op_nand | op_nor.

(** One entry of [gen_opc_buf] with its arguments in [gen_opparam_buf].  The
    input list of a call ends with the temporary that holds the function;
    [side_effects] is the flag [TCG_OPF_SIDE_EFFECTS] or [TCG_OPF_CALL_CLOBBER]. *)
Inductive TCGOp :=
  | op_nop
  | op_mov (w : TCGType) (dst src : nat)
  | op_movi (w : TCGType) (dst : nat) (val : Z)
  | op_un (u : unop) (w : TCGType) (dst src : nat)
  | op_bin (b : binop) (w : TCGType) (dst src1 src2 : nat)
  | op_call (outs ins : list nat) (flags : Z)
  | op_set_label (l : nat)
  | op_jmp (t : nat)
  | op_br (l : nat)
  | op_brcond (w : TCGType) (x y : nat) (c : TCGCond) (l : nat)
  | op_other (opc : nat) (side_effects : bool) (outs ins : list nat) (consts : list Z).

(** The part of the context the optimiser reads. *)
Record TCGContext := mkContext {
  nb_globals : nat;
  nb_temps : nat;
  temp_type : nat -> TCGType;
  temp_local : nat -> bool;
}.

Definition TCG_CALL_PURE : Z := 16.
Definition TCG_CALL_CONST : Z := 32.

(** Neither writes globals nor raises exceptions. *)
Definition call_is_pure (flags : Z) : bool :=
  negb (Z.land flags (Z.lor TCG_CALL_CONST TCG_CALL_PURE) =? 0).

(** ** Values *)

Definition tci_compare (w : Z) (u0 u1 : Z) (condition : TCGCond) : bool :=
  let i0 := sint w u0 in
  let i1 := sint w u1 in
  match condition with
  | TCG_COND_EQ => u0 =? u1
  | TCG_COND_NE => negb (u0 =? u1)
  | TCG_COND_LT => i0 <? i1
  | TCG_COND_GE => i1 <=? i0
  | TCG_COND_LE => i0 <=? i1
  | TCG_COND_GT => i1 <? i0
  | TCG_COND_LTU => u0 <? u1
  | TCG_COND_GEU => u1 <=? u0
  | TCG_COND_LEU => u0 <=? u1
  | TCG_COND_GTU => u1 <? u0
  end.

Definition eval_un (u : unop) (w : Z) (t1 : Z) : Z :=
  match u with
  | op_not => uint w (Z.lnot t1)
  | op_neg => uint w (- t1)
  | op_ext8s => uint w (int8_t t1)
  | op_ext8u => uint8_t t1
  | op_ext16s => uint w (int16_t t1)
  | op_ext16u => uint16_t t1
  | op_ext32s => uint w (int32_t t1)
  | op_ext32u => uint32_t t1
  end.

(** Shift and rotate counts out of range are undefined (tcg/README). *)
Definition shift_count (w t2 : Z) (v : Z) : option Z :=
  if t2 <? w then Some v else None.

Definition eval_bin (b : binop) (w : Z) (t1 t2 : Z) : option Z :=
  match b with
  | op_add => Some (uint w (t1 + t2))
  | op_sub => Some (uint w (t1 - t2))
  | op_mul => Some (uint w (t1 * t2))
  | op_or => Some (Z.lor t1 t2)
  | op_and => Some (Z.land t1 t2)
  | op_xor => Some (Z.lxor t1 t2)
  | op_shl => shift_count w t2 (uint w (Z.shiftl t1 t2))
  | op_shr => shift_count w t2 (Z.shiftr t1 t2)
  | op_sar => shift_count w t2 (uint w (Z.shiftr (sint w t1) t2))
  | op_rotl => shift_count w t2 (uint w (Z.lor (Z.shiftl t1 t2) (Z.shiftr t1 (w - t2))))
  | op_rotr => shift_count w t2 (uint w (Z.lor (Z.shiftr t1 t2) (Z.shiftl t1 (w - t2))))
  | op_andc => Some (uint w (Z.land t1 (Z.lnot t2)))
  | op_orc => Some (uint w (Z.lor t1 (Z.lnot t2)))
  | op_eqv => Some (uint w (Z.lnot (Z.lxor t1 t2)))
  | op_nand => Some (uint w (Z.lnot (Z.land t1 t2)))
  | op_nor => Some (uint w (Z.lnot (Z.lor t1 t2)))
  end.

(** ** Execution *)

Section Exec.
Context {World : Type}.
Context (C : TCGContext).

(** The values of the temporaries, globals first, and everything else: host
    memory, guest memory, the CPU state that is not in globals. *)
Record State := mkState { vals : list Z; world : World }.

(** What a helper or another operation does: it returns results, or the block is
    left (an exception, [exit_tb]) with a value for the caller. *)
Inductive effect :=
  | Returns (results : list Z) (w : World)
  | Leaves (code : Z) (w : World).

(** [call_sem flags ins globals world], with the new values of the globals, and
    [other_sem opc consts ins world]. *)
Context (call_sem : Z -> list Z -> list Z -> World -> option (effect * list Z)).
Context (other_sem : nat -> list Z -> list Z -> World -> option effect).

Inductive step :=
  | Next (s : State)
  | Goto (l : nat) (s : State)
  | Exit (code : Z) (s : State).

Definition rd (s : State) (t : nat) : option Z := vals s !! t.
Definition rds (s : State) (ts : list nat) : option (list Z) := mapM (rd s) ts.

(** A register written at the type of the temporary. *)
Definition wr (d : nat) (v : Z) (s : State) : State :=
  mkState (<[d := uint (bits (temp_type C d)) v]> (vals s)) (world s).

Fixpoint wrs (ds : list nat) (vs : list Z) (s : State) : State :=
  match ds, vs with
  | d :: ds, v :: vs => wrs ds vs (wr d v s)
  | _, _ => s
  end.

Definition set_world (w : World) (s : State) : State := mkState (vals s) w.

Definition globals : list nat := seq 0 (nb_globals C).

(** A call that may write globals reloads all of them afterwards. *)
Definition exec_call (outs ins : list nat) (flags : Z) (s : State) : option step :=
  vs ← rds s ins;
  gs ← rds s globals;
  '(e, gs') ← call_sem flags vs gs (world s);
  match e with
  | Returns rs w =>
      Some (Next (wrs outs rs
        (if call_is_pure flags then set_world w s else wrs globals gs' (set_world w s))))
  | Leaves c w =>
      if call_is_pure flags then None
      else Some (Exit c (wrs globals gs' (set_world w s)))
  end.

Definition exec_op (o : TCGOp) (s : State) : option step :=
  match o with
  | op_nop => Some (Next s)
  | op_mov w d t => v ← rd s t; Some (Next (wr d (uint (bits w) v) s))
  | op_movi w d v => Some (Next (wr d (uint (bits w) v) s))
  | op_un u w d t => v ← rd s t; Some (Next (wr d (eval_un u (bits w) (uint (bits w) v)) s))
  | op_bin b w d x y =>
      vx ← rd s x; vy ← rd s y;
      v ← eval_bin b (bits w) (uint (bits w) vx) (uint (bits w) vy);
      Some (Next (wr d v s))
  | op_call outs ins flags => exec_call outs ins flags s
  | op_set_label _ => Some (Next s)
  | op_jmp t => v ← rd s t; Some (Exit v s)
  | op_br l => Some (Goto l s)
  | op_brcond w x y c l =>
      vx ← rd s x; vy ← rd s y;
      if tci_compare (bits w) (uint (bits w) vx) (uint (bits w) vy) c
      then Some (Goto l s) else Some (Next s)
  | op_other opc _ outs ins consts =>
      vs ← rds s ins;
      e ← other_sem opc consts vs (world s);
      match e with
      | Returns rs w => Some (Next (wrs outs rs (set_world w s)))
      | Leaves c w => Some (Exit c (set_world w s))
      end
  end.

(** *** Blocks *)

Definition is_label (l : nat) (o : TCGOp) : bool :=
  match o with op_set_label k => Nat.eqb k l | _ => false end.

(** The position of label [l]. *)
Fixpoint label_pos (l : nat) (prog : list TCGOp) : option nat :=
  match prog with
  | [] => None
  | o :: prog => if is_label l o then Some 0%nat else S <$> label_pos l prog
  end.

Inductive outcome :=
  | Finished (code : option Z) (s : State)
  | Undefined
  | OutOfFuel (pc : nat) (s : State).

Fixpoint run (fuel : nat) (prog : list TCGOp) (pc : nat) (s : State) : outcome :=
  match fuel with
  | O => OutOfFuel pc s
  | S fuel =>
      match prog !! pc with
      | None => Finished None s
      | Some o =>
          match exec_op o s with
          | None => Undefined
          | Some (Next s) => run fuel prog (S pc) s
          | Some (Exit c s) => Finished (Some c) s
          | Some (Goto l s) =>
              match label_pos l prog with
              | None => Undefined
              | Some pc => run fuel prog pc s
              end
          end
      end
  end.

End Exec.

Arguments State World : clear implicits.
Arguments effect World : clear implicits.
Arguments step World : clear implicits.
Arguments outcome World : clear implicits.

(** ** Programs in the documented form

    tcg/README requires the operands of an operation to have its type; every
    temporary is one of the context. *)

Section Typed.
Context (C : TCGContext).

Definition temp_ok (t : nat) : bool := (t <? nb_temps C)%nat.
Definition has_type (w : TCGType) (t : nat) : bool :=
  temp_ok t && bool_decide (temp_type C t = w).

Definition unop_width (u : unop) (w : TCGType) : bool :=
  match u with
  | op_ext32s | op_ext32u => bool_decide (w = TCG_TYPE_I64)
  | _ => true
  end.

Definition op_ok (o : TCGOp) : bool :=
  match o with
  | op_nop | op_set_label _ | op_br _ => true
  | op_mov w d s => has_type w d && has_type w s
  | op_movi w d _ => has_type w d
  | op_un u w d s => unop_width u w && has_type w d && has_type w s
  | op_bin _ w d x y => has_type w d && has_type w x && has_type w y
  | op_call outs ins _ => forallb temp_ok outs && forallb temp_ok ins
  | op_jmp t => temp_ok t
  | op_brcond w x y _ _ => has_type w x && has_type w y
  | op_other _ _ outs ins _ => forallb temp_ok outs && forallb temp_ok ins
  end.

Definition context_ok : bool := (nb_globals C <=? nb_temps C)%nat.

(** One value per temporary, in the range of its type. *)
Definition state_ok {World} (s : State World) : Prop :=
  length (vals s) = nb_temps C /\
  forall t v, vals s !! t = Some v -> uint (bits (temp_type C t)) v = v.

End Typed.
