(* ===== verification/TcgOptimize.v ===== *)
(** * The TCG optimiser

    Model of src/emul/qemu/tcg/optimize.c: the information kept per temporary
    (constant, copy, representative of a ring of copies), its invalidation, the
    evaluation of constant operations, and the pass over the operations of a block.

    A failed assertion, a call of [tcg_abort], a shift by an amount C does not
    define and a walk that does not end are [None]. *)

From S2P Require Import Prelude TcgIr.
Open Scope Z_scope.

(** ** The table of temporaries *)

Inductive tcg_temp_state :=
  | TCG_TEMP_UNDEF | TCG_TEMP_CONST | TCG_TEMP_COPY | TCG_TEMP_HAS_COPY | TCG_TEMP_ANY.

#[global] Instance tcg_temp_state_eq_dec : EqDecision tcg_temp_state.
Proof. solve_decision. Defined.

(** [val] is a constant, or the number of the representative. *)
Record tcg_temp_info := mkInfo {
  state : tcg_temp_state;
  prev_copy : nat;
  next_copy : nat;
  val : Z;
}.

(** The array [temps]. *)
Definition Temps : Type := nat -> tcg_temp_info.

Definition upd (ts : Temps) (t : nat) (i : tcg_temp_info) : Temps :=
  fun u => if Nat.eqb u t then i else ts u.

Definition set_state (x : tcg_temp_state) (t : nat) (ts : Temps) : Temps :=
  upd ts t (mkInfo x (prev_copy (ts t)) (next_copy (ts t)) (val (ts t))).
Definition set_prev (p : nat) (t : nat) (ts : Temps) : Temps :=
  upd ts t (mkInfo (state (ts t)) p (next_copy (ts t)) (val (ts t))).
Definition set_next (n : nat) (t : nat) (ts : Temps) : Temps :=
  upd ts t (mkInfo (state (ts t)) (prev_copy (ts t)) n (val (ts t))).
Definition set_val (v : Z) (t : nat) (ts : Temps) : Temps :=
  upd ts t (mkInfo (state (ts t)) (prev_copy (ts t)) (next_copy (ts t)) v).

Definition is_state (x : tcg_temp_state) (ts : Temps) (t : nat) : bool :=
  bool_decide (state (ts t) = x).

(** [memset(temps, 0, nb_temps * sizeof(struct tcg_temp_info))] *)
Definition clear_temps (nb_temps : nat) (ts : Temps) : Temps :=
  fun t => if (t <? nb_temps)%nat then mkInfo TCG_TEMP_UNDEF 0 0 0 else ts t.

(** ** Forgetting a temporary *)

(** The first loop of [reset_temp]: the first temporary of the ring after [temp]
    that is not a global becomes the representative. *)
Fixpoint find_base (fuel : nat) (nb_globals temp i : nat) (ts : Temps)
    : option (option nat * Temps) :=
  match fuel with
  | O => None
  | S fuel =>
      if Nat.eqb i temp then Some (None, ts)
      else if (nb_globals <=? i)%nat then Some (Some i, set_state TCG_TEMP_HAS_COPY i ts)
      else find_base fuel nb_globals temp (next_copy (ts i)) ts
  end.

(** The second loop. *)
Fixpoint rebase (fuel : nat) (new_base : option nat) (temp i : nat) (ts : Temps)
    : option Temps :=
  match fuel with
  | O => None
  | S fuel =>
      if Nat.eqb i temp then Some ts
      else
        let ts :=
          match new_base with
          | None => set_state TCG_TEMP_ANY i ts
          | Some b => set_val (Z.of_nat b) i ts
          end in
        rebase fuel new_base temp (next_copy (ts i)) ts
  end.

(** Taking [temp] out of its ring. *)
Definition unlink (temp : nat) (ts : Temps) : Temps :=
  let ts := set_prev (prev_copy (ts temp)) (next_copy (ts temp)) ts in
  set_next (next_copy (ts temp)) (prev_copy (ts temp)) ts.

Definition reset_temp (temp nb_temps nb_globals : nat) (ts : Temps) : option Temps :=
  '(new_base, ts) ←
    match state (ts temp) with
    | TCG_TEMP_HAS_COPY =>
        '(new_base, ts) ← find_base (S nb_temps) nb_globals temp (next_copy (ts temp)) ts;
        ts ← rebase (S nb_temps) new_base temp (next_copy (ts temp)) ts;
        Some (new_base, unlink temp ts)
    | TCG_TEMP_COPY =>
        let ts := unlink temp ts in
        Some (Some (Z.to_nat (val (ts temp))), ts)
    | _ => Some (None, ts)
    end;
  let ts := set_state TCG_TEMP_ANY temp ts in
  Some match new_base with
       | Some b =>
           if Nat.eqb (next_copy (ts b)) b then set_state TCG_TEMP_ANY b ts else ts
       | None => ts
       end.

(** [reset_temp] for each temporary of a list, in order. *)
Fixpoint reset_temps (l : list nat) (nb_temps nb_globals : nat) (ts : Temps) : option Temps :=
  match l with
  | [] => Some ts
  | t :: l => ts ← reset_temp t nb_temps nb_globals ts; reset_temps l nb_temps nb_globals ts
  end.

(** ** Moves *)

Section Pass.
Context (C : TCGContext).
#[local] Abbreviation nb_temps := (nb_temps C).
#[local] Abbreviation nb_globals := (nb_globals C).

(** Whether a move from [src] to [dst] is recorded as a copy. *)
Definition copies_tracked (src dst : nat) : bool :=
  (nb_globals <=? src)%nat && (nb_globals <=? dst)%nat &&
  Bool.eqb (temp_local C src) (temp_local C dst).

(** [src] as the representative of a new ring. *)
Definition make_base (src : nat) (ts : Temps) : Temps :=
  set_prev src src (set_next src src (set_state TCG_TEMP_HAS_COPY src ts)).

(** [dst] enters the ring of [src]. *)
Definition add_copy (dst src : nat) (ts : Temps) : Temps :=
  let ts := set_state TCG_TEMP_COPY dst ts in
  let ts := set_val (Z.of_nat src) dst ts in
  let ts := set_next (next_copy (ts src)) dst ts in
  let ts := set_prev src dst ts in
  let ts := set_prev dst (next_copy (ts dst)) ts in
  set_next dst src ts.

Definition link_copy (dst src : nat) (ts : Temps) : Temps :=
  add_copy dst src (if is_state TCG_TEMP_HAS_COPY ts src then ts else make_base src ts).

Definition tcg_opt_gen_mov (w : TCGType) (dst src : nat) (ts : Temps)
    : option (Temps * TCGOp) :=
  ts ← reset_temp dst nb_temps nb_globals ts;
  if is_state TCG_TEMP_COPY ts src then None
  else if copies_tracked src dst then
    if is_state TCG_TEMP_CONST ts src then None
    else Some (link_copy dst src ts, op_mov w dst src)
  else Some (ts, op_mov w dst src).

Definition tcg_opt_gen_movi (w : TCGType) (dst : nat) (v : Z) (ts : Temps)
    : option (Temps * TCGOp) :=
  ts ← reset_temp dst nb_temps nb_globals ts;
  Some (set_val v dst (set_state TCG_TEMP_CONST dst ts), op_movi w dst v).

(** ** Constant folding *)

(** [x << n] and [x >> n] on an operand of [w] bits. *)
Definition shl_c (w x n : Z) : option Z :=
  if (0 <=? n) && (n <? w) then Some (uint w (Z.shiftl x n)) else None.
Definition shr_c (w x n : Z) : option Z :=
  if (0 <=? n) && (n <? w) then Some (Z.shiftr x n) else None.
Definition or_c (a b : option Z) : option Z :=
  a ← a; b ← b; Some (Z.lor a b).

Definition do_constant_folding_un (u : unop) (x : Z) : Z :=
  match u with
  | op_not => uint64_t (Z.lnot x)
  | op_neg => uint64_t (- x)
  | op_ext8s => uint64_t (int8_t x)
  | op_ext16s => uint64_t (int16_t x)
  | op_ext8u => uint8_t x
  | op_ext16u => uint16_t x
  | op_ext32s => uint64_t (int32_t x)
  | op_ext32u => uint32_t x
  end.

(** [TCGArg] is an unsigned 64-bit integer; the result is converted to it. *)
Definition do_constant_folding_2 (b : binop) (w : TCGType) (x y : Z) : option Z :=
  match b, w with
  | op_add, _ => Some (uint64_t (x + y))
  | op_sub, _ => Some (uint64_t (x - y))
  | op_mul, _ => Some (uint64_t (x * y))
  | op_and, _ => Some (Z.land x y)
  | op_or, _ => Some (Z.lor x y)
  | op_xor, _ => Some (Z.lxor x y)
  | op_shl, TCG_TYPE_I32 => shl_c 32 (uint32_t x) (uint32_t y)
  | op_shl, TCG_TYPE_I64 => shl_c 64 (uint64_t x) (uint64_t y)
  | op_shr, TCG_TYPE_I32 => shr_c 32 (uint32_t x) (uint32_t y)
  | op_shr, TCG_TYPE_I64 => shr_c 64 (uint64_t x) (uint64_t y)
  | op_sar, TCG_TYPE_I32 => uint64_t <$> shr_c 32 (int32_t x) (int32_t y)
  | op_sar, TCG_TYPE_I64 => uint64_t <$> shr_c 64 (int64_t x) (int64_t y)
  | op_rotr, TCG_TYPE_I32 =>
      or_c (shl_c 32 (uint32_t x) (uint64_t (32 - y))) (shr_c 32 (uint32_t x) y)
  | op_rotr, TCG_TYPE_I64 =>
      or_c (shl_c 64 (uint64_t x) (uint64_t (64 - y))) (shr_c 64 (uint64_t x) y)
  | op_rotl, TCG_TYPE_I32 =>
      or_c (shl_c 32 (uint32_t x) y) (shr_c 32 (uint32_t x) (uint64_t (32 - y)))
  | op_rotl, TCG_TYPE_I64 =>
      or_c (shl_c 64 (uint64_t x) y) (shr_c 64 (uint64_t x) (uint64_t (64 - y)))
  | op_andc, _ => Some (Z.land x (uint64_t (Z.lnot y)))
  | op_orc, _ => Some (Z.lor x (uint64_t (Z.lnot y)))
  | op_eqv, _ => Some (uint64_t (Z.lnot (Z.lxor x y)))
  | op_nand, _ => Some (uint64_t (Z.lnot (Z.land x y)))
  | op_nor, _ => Some (uint64_t (Z.lnot (Z.lor x y)))
  end.

(** [res &= 0xffffffff] for a 32-bit operation. *)
Definition mask_result (w : TCGType) (res : Z) : Z :=
  match w with
  | TCG_TYPE_I32 => Z.land res 4294967295
  | TCG_TYPE_I64 => res
  end.

Definition do_constant_folding (b : binop) (w : TCGType) (x y : Z) : option Z :=
  mask_result w <$> do_constant_folding_2 b w x y.

Definition do_constant_folding1 (u : unop) (w : TCGType) (x : Z) : Z :=
  mask_result w (do_constant_folding_un u x).

(** ** The pass *)

(** Copy propagation into one input argument. *)
Definition propagate (ts : Temps) (t : nat) : nat :=
  if is_state TCG_TEMP_COPY ts t then Z.to_nat (val (ts t)) else t.

Definition is_const (ts : Temps) (t : nat) : bool := is_state TCG_TEMP_CONST ts t.
Definition is_zero (ts : Temps) (t : nat) : bool := is_const ts t && (val (ts t) =? 0).
Definition is_copy_of (ts : Temps) (t base : nat) : bool :=
  is_state TCG_TEMP_COPY ts t && (val (ts t) =? Z.of_nat base).

Definition commutative (b : binop) : bool :=
  match b with
  | op_add | op_mul | op_and | op_or | op_xor | op_eqv | op_nand | op_nor => true
  | _ => false
  end.

(** The last switch for the operations with two sources. *)
Definition fold_bin_const (b : binop) (w : TCGType) (d x y : nat) (ts : Temps)
    : option (Temps * TCGOp) :=
  if is_const ts x && is_const ts y then
    tmp ← do_constant_folding b w (val (ts x)) (val (ts y));
    tcg_opt_gen_movi w d tmp ts
  else
    ts ← reset_temp d nb_temps nb_globals ts;
    Some (ts, op_bin b w d x y).

(** The switch "Simplify expression if possible". *)
Definition simplify_bin (b : binop) (w : TCGType) (d x y : nat) (ts : Temps)
    : option (Temps * TCGOp) :=
  match b with
  | op_add | op_sub | op_shl | op_shr | op_sar | op_rotl | op_rotr =>
      if is_const ts x then fold_bin_const b w d x y ts
      else if is_zero ts y then
        if is_copy_of ts d x || Nat.eqb d x then Some (ts, op_nop)
        else tcg_opt_gen_mov w d x ts
      else fold_bin_const b w d x y ts
  | op_mul =>
      if is_zero ts y then tcg_opt_gen_movi w d 0 ts
      else fold_bin_const b w d x y ts
  | op_or | op_and =>
      if Nat.eqb x y then
        if Nat.eqb x d then Some (ts, op_nop) else tcg_opt_gen_mov w d x ts
      else fold_bin_const b w d x y ts
  | _ => fold_bin_const b w d x y ts
  end.

Definition fold_bin (b : binop) (w : TCGType) (d x y : nat) (ts : Temps)
    : option (Temps * TCGOp) :=
  let x := propagate ts x in
  let y := propagate ts y in
  let '(x, y) := if commutative b && is_const ts x then (y, x) else (x, y) in
  simplify_bin b w d x y ts.

Definition fold_mov (w : TCGType) (d s : nat) (ts : Temps) : option (Temps * TCGOp) :=
  let s := propagate ts s in
  if is_copy_of ts s d || Nat.eqb d s then Some (ts, op_nop)
  else if is_const ts s then tcg_opt_gen_movi w d (val (ts s)) ts
  else tcg_opt_gen_mov w d s ts.

Definition fold_un (u : unop) (w : TCGType) (d s : nat) (ts : Temps)
    : option (Temps * TCGOp) :=
  let s := propagate ts s in
  if is_const ts s then tcg_opt_gen_movi w d (do_constant_folding1 u w (val (ts s))) ts
  else
    ts ← reset_temp d nb_temps nb_globals ts;
    Some (ts, op_un u w d s).

Definition fold_call (outs ins : list nat) (flags : Z) (ts : Temps)
    : option (Temps * TCGOp) :=
  ts ← (if call_is_pure flags then Some ts
        else reset_temps (seq 0 nb_globals) nb_temps nb_globals ts);
  ts ← reset_temps outs nb_temps nb_globals ts;
  Some (ts, op_call outs ins flags).

Definition fold_other (opc : nat) (side_effects : bool) (outs ins : list nat)
    (consts : list Z) (ts : Temps) : option (Temps * TCGOp) :=
  let ins := if side_effects then ins else propagate ts <$> ins in
  ts ← reset_temps outs nb_temps nb_globals ts;
  Some (ts, op_other opc side_effects outs ins consts).

(** One iteration of the loop over the operations. *)
Definition fold_op (o : TCGOp) (ts : Temps) : option (Temps * TCGOp) :=
  match o with
  | op_mov w d s => fold_mov w d s ts
  | op_movi w d v => tcg_opt_gen_movi w d v ts
  | op_un u w d s => fold_un u w d s ts
  | op_bin b w d x y => fold_bin b w d x y ts
  | op_call outs ins flags => fold_call outs ins flags ts
  | op_set_label _ | op_jmp _ | op_br _ | op_brcond _ _ _ _ _ =>
      Some (clear_temps nb_temps ts, o)
  | op_nop => Some (ts, op_nop)
  | op_other opc side outs ins consts => fold_other opc side outs ins consts ts
  end.

Fixpoint fold_ops (prog : list TCGOp) (ts : Temps) : option (list TCGOp) :=
  match prog with
  | [] => Some []
  | o :: prog =>
      '(ts, o') ← fold_op o ts;
      (o' ::.) <$> fold_ops prog ts
  end.

Definition tcg_constant_folding (prog : list TCGOp) (ts : Temps) : option (list TCGOp) :=
  fold_ops prog (clear_temps nb_temps ts).

Definition tcg_optimize (prog : list TCGOp) (ts : Temps) : option (list TCGOp) :=
  tcg_constant_folding prog ts.

End Pass.
