(* ===== verification/TcgRing.v ===== *)
(** * The rings of copies of the TCG optimiser

    The temporaries that hold the same value form a doubly linked ring, entered
    through a representative.  This file gives the invariant of the table of
    temporaries, the effect of [reset_temp] and of recording a copy on it, and what
    the table says about the values of the temporaries. *)

From S2P Require Import Prelude TcgIr TcgOptimize.
Open Scope Z_scope.

(** ** Fields after an update *)

Ltac upd_field :=
  intros; unfold set_state, set_prev, set_next, set_val, upd;
  match goal with |- context [Nat.eqb ?u ?t] => destruct (Nat.eqb_spec u t); by subst end.

Lemma state_set_state x t ts u :
  state (set_state x t ts u) = if Nat.eqb u t then x else state (ts u).
Proof. upd_field. Qed.
Lemma next_set_state x t ts u : next_copy (set_state x t ts u) = next_copy (ts u).
Proof. upd_field. Qed.
Lemma prev_set_state x t ts u : prev_copy (set_state x t ts u) = prev_copy (ts u).
Proof. upd_field. Qed.
Lemma val_set_state x t ts u : val (set_state x t ts u) = val (ts u).
Proof. upd_field. Qed.

Lemma state_set_val x t ts u : state (set_val x t ts u) = state (ts u).
Proof. upd_field. Qed.
Lemma next_set_val x t ts u : next_copy (set_val x t ts u) = next_copy (ts u).
Proof. upd_field. Qed.
Lemma prev_set_val x t ts u : prev_copy (set_val x t ts u) = prev_copy (ts u).
Proof. upd_field. Qed.
Lemma val_set_val x t ts u : val (set_val x t ts u) = if Nat.eqb u t then x else val (ts u).
Proof. upd_field. Qed.

Lemma state_set_next x t ts u : state (set_next x t ts u) = state (ts u).
Proof. upd_field. Qed.
Lemma next_set_next x t ts u :
  next_copy (set_next x t ts u) = if Nat.eqb u t then x else next_copy (ts u).
Proof. upd_field. Qed.
Lemma prev_set_next x t ts u : prev_copy (set_next x t ts u) = prev_copy (ts u).
Proof. upd_field. Qed.
Lemma val_set_next x t ts u : val (set_next x t ts u) = val (ts u).
Proof. upd_field. Qed.

Lemma state_set_prev x t ts u : state (set_prev x t ts u) = state (ts u).
Proof. upd_field. Qed.
Lemma next_set_prev x t ts u : next_copy (set_prev x t ts u) = next_copy (ts u).
Proof. upd_field. Qed.
Lemma prev_set_prev x t ts u :
  prev_copy (set_prev x t ts u) = if Nat.eqb u t then x else prev_copy (ts u).
Proof. upd_field. Qed.
Lemma val_set_prev x t ts u : val (set_prev x t ts u) = val (ts u).
Proof. upd_field. Qed.

Create Rewrite HintDb temps.
#[export] Hint Rewrite state_set_state next_set_state prev_set_state val_set_state
  state_set_val next_set_val prev_set_val val_set_val
  state_set_next next_set_next prev_set_next val_set_next
  state_set_prev next_set_prev prev_set_prev val_set_prev : temps.

(** [fields] reads the fields of an updated table and decides which temporary is
    meant. *)
Ltac fields :=
  autorewrite with temps in *;
  repeat match goal with
  | |- context [Nat.eqb ?u ?t] => destruct (Nat.eqb_spec u t); try subst; try done
  | H : context [Nat.eqb ?u ?t] |- _ => destruct (Nat.eqb_spec u t); try subst; try done
  end.

(** ** Chains *)

Definition link (ts : Temps) (a b : nat) : Prop :=
  next_copy (ts a) = b /\ prev_copy (ts b) = a.

Fixpoint chain (ts : Temps) (l : list nat) : Prop :=
  match l with
  | [] => True
  | a :: l => match l with [] => True | b :: _ => link ts a b end /\ chain ts l
  end.

Lemma chain_app ts l1 x l2 :
  chain ts (l1 ++ x :: l2) <-> chain ts (l1 ++ [x]) /\ chain ts (x :: l2).
Proof.
  induction l1 as [|a l1 IH]; [cbn; naive_solver|].
  destruct l1 as [|b l1]; [cbn; naive_solver|].
  cbn [app chain] in *. tauto.
Qed.

(** A chain depends on the forward links of all but its last element and on the
    backward links of all but its first. *)
Lemma chain_frame ts ts' l :
  (forall x, x ∈ removelast l -> next_copy (ts' x) = next_copy (ts x)) ->
  (forall x, x ∈ tail l -> prev_copy (ts' x) = prev_copy (ts x)) ->
  chain ts l -> chain ts' l.
Proof.
  induction l as [|a l IH]; [done|]. destruct l as [|b l]; [done|].
  intros Hn Hp [[H1 H2] H]. split.
  - split.
    + rewrite Hn by (cbn; set_solver). done.
    + rewrite Hp by (cbn; set_solver). done.
  - apply IH; [| |done].
    + intros x Hx. apply Hn. change (x ∈ a :: removelast (b :: l)). by right.
    + intros x Hx. apply Hp. cbn in *. by right.
Qed.

Lemma chain_ext ts ts' l :
  (forall x, x ∈ l -> next_copy (ts' x) = next_copy (ts x) /\
                      prev_copy (ts' x) = prev_copy (ts x)) ->
  chain ts l -> chain ts' l.
Proof.
  intros H. apply chain_frame; intros x Hx; apply H.
  - destruct l as [|a l]; [done|].
    rewrite (app_removelast_last 0%nat (l := a :: l)) by done. set_solver.
  - destruct l as [|a l]; [done|]. cbn in Hx. by right.
Qed.

(** *** Leaving a ring *)

Lemma state_unlink t ts u : state (unlink t ts u) = state (ts u).
Proof. unfold unlink. by fields. Qed.
Lemma val_unlink t ts u : val (unlink t ts u) = val (ts u).
Proof. unfold unlink. by fields. Qed.
Lemma next_unlink t ts u :
  next_copy (unlink t ts u) =
  if Nat.eqb u (prev_copy (ts t)) then next_copy (ts t) else next_copy (ts u).
Proof. unfold unlink. autorewrite with temps. by destruct (Nat.eqb t _). Qed.
Lemma prev_unlink t ts u :
  prev_copy (unlink t ts u) =
  if Nat.eqb u (next_copy (ts t)) then prev_copy (ts t) else prev_copy (ts u).
Proof. unfold unlink. by autorewrite with temps. Qed.

(** Taking [t] out of a ring entered at [a] leaves the ring of the others. *)
Lemma chain_unlink ts a l1 t l2 :
  NoDup (a :: l1 ++ t :: l2) ->
  chain ts (a :: l1 ++ t :: l2 ++ [a]) ->
  chain (unlink t ts) (a :: l1 ++ l2 ++ [a]).
Proof.
  intros HN HC.
  destruct (exists_last (l := a :: l1) ltac:(done)) as (A & p & EA).
  assert (exists q B, l2 ++ [a] = q :: B) as (q & B & EB)
    by (destruct l2; eexists _, _; done).
  rewrite EB. change (chain (unlink t ts) ((a :: l1) ++ q :: B)).
  change (chain ts ((a :: l1) ++ t :: l2 ++ [a])) in HC. rewrite EB, EA, <- app_assoc in HC.
  apply chain_app in HC as [HA [[Hn Hp] [[Hn' Hp'] HB]]].
  change (NoDup ((a :: l1) ++ t :: l2)) in HN.
  assert (NoDup (l2 ++ [a])) as HB2.
  { apply NoDup_app in HN as (H1 & H2 & H3). apply NoDup_app. repeat split.
    - by apply NoDup_cons in H3 as [].
    - intros x Hx Hxa. apply list_elem_of_singleton in Hxa as ->.
      apply (H2 a); [left|by right].
    - apply NoDup_singleton. }
  assert (forall x, x ∈ a :: l1 -> x ∉ l2) as HD.
  { apply NoDup_app in HN as (_ & H2 & _). intros x Hx Hx2. apply (H2 x Hx). by right. }
  assert (NoDup (a :: l1)) as HN1 by (by apply NoDup_app in HN as []).
  assert (q ∈ l2 ++ [a]) as Hq by (rewrite EB; left).
  assert (p ∈ a :: l1) as Hpin by (rewrite EA; apply elem_of_app; right; left).
  rewrite EA, <- app_assoc. apply chain_app. split; [|split; [split|]].
  - refine (chain_frame ts _ _ _ _ HA).
    + intros x Hx. rewrite removelast_last in Hx. rewrite next_unlink, Hp.
      destruct (Nat.eqb_spec x p) as [->|]; [|done]. rewrite EA in HN1.
      apply NoDup_app in HN1 as (_ & H & _). set_solver.
    + intros x Hx. rewrite <- EA in Hx. cbn in Hx. rewrite prev_unlink, Hn'.
      destruct (Nat.eqb_spec x q) as [->|]; [|done].
      apply NoDup_cons in HN1 as [HN1 _].
      exfalso. apply elem_of_app in Hq as [Hq|Hq%list_elem_of_singleton].
      * apply (HD q); [by right|done].
      * by subst.
  - rewrite next_unlink, Hp, Nat.eqb_refl. done.
  - rewrite prev_unlink, Hn', Nat.eqb_refl. done.
  - refine (chain_frame ts _ _ _ _ HB).
    + intros x Hx. rewrite <- EB, removelast_last in Hx. rewrite next_unlink, Hp.
      destruct (Nat.eqb_spec x p) as [->|]; [|done]. exfalso. by apply (HD p).
    + intros x Hx. cbn in Hx. rewrite prev_unlink, Hn'.
      destruct (Nat.eqb_spec x q) as [->|]; [|done]. rewrite EB in HB2.
      by apply NoDup_cons in HB2 as [].
Qed.

(** What [unlink] does to the links of temporaries of other rings: nothing. *)
Lemma unlink_other ts a l1 t l2 u :
  chain ts (a :: l1 ++ t :: l2 ++ [a]) -> u ∉ a :: l1 ++ t :: l2 ->
  next_copy (unlink t ts u) = next_copy (ts u) /\
  prev_copy (unlink t ts u) = prev_copy (ts u).
Proof.
  intros HC Hu.
  destruct (exists_last (l := a :: l1) ltac:(done)) as (A & p & EA).
  assert (exists q B, l2 ++ [a] = q :: B) as (q & B & EB)
    by (destruct l2; eexists _, _; done).
  change (chain ts ((a :: l1) ++ t :: l2 ++ [a])) in HC. rewrite EB, EA, <- app_assoc in HC.
  apply chain_app in HC as [_ [[Hn Hp] [[Hn' Hp'] _]]].
  change (u ∉ (a :: l1) ++ t :: l2) in Hu.
  assert (q ∈ l2 ++ [a]) as Hq by (rewrite EB; left).
  assert (p ∈ a :: l1) as Hpin by (rewrite EA; apply elem_of_app; right; left).
  rewrite next_unlink, prev_unlink, Hp, Hn'.
  destruct (Nat.eqb_spec u p) as [->|]; [exfalso; apply Hu; by apply elem_of_app; left|].
  destruct (Nat.eqb_spec u q) as [->|]; [exfalso; apply Hu|done].
  apply elem_of_app in Hq as [Hq|Hq%list_elem_of_singleton]; apply elem_of_app.
  - right. by right.
  - left. subst. left.
Qed.

(** ** The invariant *)

Section Ring.
Context (C : TCGContext).
#[local] Abbreviation nb_temps := (nb_temps C).
#[local] Abbreviation nb_globals := (nb_globals C).

Definition copy (ts : Temps) (t b : nat) : Prop :=
  (t < nb_temps)%nat /\ state (ts t) = TCG_TEMP_COPY /\ val (ts t) = Z.of_nat b.
Definition base (ts : Temps) (b : nat) : Prop :=
  (b < nb_temps)%nat /\ state (ts b) = TCG_TEMP_HAS_COPY.

(** [b] and the copies [cs] of it form a ring. *)
Definition ring (ts : Temps) (b : nat) (cs : list nat) : Prop :=
  NoDup (b :: cs) /\ chain ts (b :: cs ++ [b]) /\ (forall c, c ∈ cs <-> copy ts c b).

(** Every copy has a representative of its type, every representative has the ring
    of its copies, and globals are neither. *)
Record temps_wf (ts : Temps) : Prop := {
  wf_copy t : (t < nb_temps)%nat -> state (ts t) = TCG_TEMP_COPY ->
    exists b, copy ts t b /\ base ts b /\ temp_type C b = temp_type C t;
  wf_ring b : base ts b -> exists cs, ring ts b cs;
  wf_global t : (t < nb_temps)%nat ->
    state (ts t) = TCG_TEMP_COPY \/ state (ts t) = TCG_TEMP_HAS_COPY -> (nb_globals <= t)%nat;
}.

Lemma copy_inj ts t b b' : copy ts t b -> copy ts t b' -> b = b'.
Proof. unfold copy. intros (_ & _ & H) (_ & _ & H'). lia. Qed.

Lemma copy_not_base ts t b : copy ts t b -> ~ base ts t.
Proof. unfold copy, base. intros (_ & H & _) (_ & H'). congruence. Qed.

Lemma copy_base ts t b : temps_wf ts -> copy ts t b ->
  base ts b /\ temp_type C b = temp_type C t.
Proof.
  intros W H. destruct (wf_copy ts W t) as (b' & H' & HB & HT); [apply H..|].
  by rewrite (copy_inj ts t b b') by done.
Qed.

(** The rings of two representatives share no temporary. *)
Lemma ring_disjoint ts b cs b' cs' x : base ts b -> base ts b' -> b <> b' ->
  ring ts b cs -> ring ts b' cs' -> x ∈ b :: cs -> x ∉ b' :: cs'.
Proof.
  intros HB HB' Hne (_ & _ & R) (_ & _ & R') Hx Hx'.
  apply elem_of_cons in Hx as [->|Hx]; apply elem_of_cons in Hx' as [E|Hx']; [done|..].
  - apply R' in Hx'. by apply copy_not_base in Hx'.
  - subst. apply R in Hx. by apply copy_not_base in Hx.
  - apply R in Hx. apply R' in Hx'. by eapply Hne, copy_inj.
Qed.

Lemma ring_ext ts ts' b cs :
  (forall x, x ∈ b :: cs -> next_copy (ts' x) = next_copy (ts x) /\
                            prev_copy (ts' x) = prev_copy (ts x)) ->
  (forall c, copy ts' c b <-> copy ts c b) ->
  ring ts b cs -> ring ts' b cs.
Proof.
  intros H HC (HN & HL & R). split; [done|split].
  - apply (chain_ext ts); [|done]. intros x Hx. apply H.
    rewrite app_comm_cons in Hx. apply elem_of_app in Hx as [|Hx]; [done|].
    apply list_elem_of_singleton in Hx as ->. left.
  - intros c. rewrite HC. apply R.
Qed.

Lemma ring_length ts b cs : base ts b -> ring ts b cs -> (length cs < nb_temps)%nat.
Proof.
  intros [HB _] (HN & _ & R).
  assert (length (b :: cs) <= length (seq 0 nb_temps))%nat as H.
  { apply submseteq_length, NoDup_submseteq; [done|]. intros x Hx. apply elem_of_seq.
    apply elem_of_cons in Hx as [->|Hx]; [lia|]. apply R in Hx as [Hx _]. lia. }
  rewrite length_seq in H. cbn in H. lia.
Qed.

(** *** Changes that keep it *)

(** A representative without copies may be dropped. *)
Lemma wf_demote ts b : temps_wf ts -> base ts b -> next_copy (ts b) = b ->
  temps_wf (set_state TCG_TEMP_ANY b ts).
Proof.
  intros W HB Hn.
  assert (forall t, ~ copy ts t b) as HNC.
  { destruct (wf_ring ts W b HB) as (cs & HN & HL & R). destruct cs as [|c cs].
    - intros t Ht. apply R in Ht. by apply elem_of_nil in Ht.
    - cbn in HL. destruct HL as [[H1 _] _]. apply NoDup_cons in HN as [HN _].
      exfalso. apply HN. rewrite <- Hn, H1. left. }
  assert (forall t b', b' <> b -> copy (set_state TCG_TEMP_ANY b ts) t b' <-> copy ts t b') as HC.
  { intros t b' Hne. unfold copy. autorewrite with temps.
    destruct (Nat.eqb_spec t b) as [->|]; [|done]. destruct HB as [_ HB].
    split; [naive_solver|]. intros (_ & ? & _). congruence. }
  split.
  - intros t Ht Hs. autorewrite with temps in Hs.
    destruct (Nat.eqb_spec t b) as [->|Htb]; [done|].
    destruct (wf_copy ts W t Ht Hs) as (b' & Hc & [HB1 HB2] & HT).
    assert (b' <> b) by (intros ->; by apply (HNC t)).
    exists b'. rewrite HC by done. repeat split; [apply Hc..|done| |done].
    autorewrite with temps. by destruct (Nat.eqb_spec b' b).
  - intros b' [HB1 HB2]. autorewrite with temps in HB2.
    destruct (Nat.eqb_spec b' b) as [->|]; [done|].
    destruct (wf_ring ts W b') as (cs & R); [done|]. exists cs.
    refine (ring_ext ts _ b' cs _ _ R); [|by intros; apply HC].
    intros x _. by autorewrite with temps.
  - intros t Ht Hs. autorewrite with temps in Hs. destruct (Nat.eqb_spec t b); [naive_solver|].
    by apply (wf_global ts W).
Qed.

Definition free (ts : Temps) (t : nat) : Prop :=
  state (ts t) <> TCG_TEMP_COPY /\ state (ts t) <> TCG_TEMP_HAS_COPY.

(** What is known of a temporary in no ring does not matter. *)
Lemma wf_free_ext ts ts' d : temps_wf ts ->
  (forall u, u <> d -> ts' u = ts u) -> free ts d -> free ts' d ->
  temps_wf ts' /\ (forall t b, copy ts' t b <-> copy ts t b).
Proof.
  intros W HE [Hd1 Hd2] [Hd1' Hd2'].
  assert (forall t b, copy ts' t b <-> copy ts t b) as HC.
  { intros t b. unfold copy. destruct (decide (t = d)) as [->|]; [naive_solver|by rewrite HE]. }
  assert (forall b, base ts' b <-> base ts b) as HB.
  { intros b. unfold base. destruct (decide (b = d)) as [->|]; [naive_solver|by rewrite HE]. }
  split; [split|done].
  - intros t Ht Hs. destruct (wf_copy ts W t Ht) as (b & ? & ? & ?).
    + destruct (decide (t = d)) as [->|]; [congruence|]. by rewrite <- HE.
    + exists b. by rewrite HC, HB.
  - intros b Hb. apply HB in Hb. destruct (wf_ring ts W b Hb) as (cs & R). exists cs.
    refine (ring_ext ts _ b cs _ _ R); [|done]. intros x Hx.
    assert (x <> d) as Hx'; [|by rewrite HE].
    destruct R as (_ & _ & R). apply elem_of_cons in Hx as [->|Hx].
    + intros ->. destruct Hb. congruence.
    + apply R in Hx as (_ & Hx & _). intros ->. congruence.
  - intros t Ht Hs. destruct (decide (t = d)) as [->|]; [naive_solver|].
    rewrite HE in Hs by done. by apply (wf_global ts W).
Qed.

(** A copy leaves its ring. *)
Lemma wf_unlink_copy ts d b : temps_wf ts -> copy ts d b ->
  temps_wf (set_state TCG_TEMP_ANY d (unlink d ts)).
Proof.
  intros W HD. destruct (copy_base ts d b W HD) as [HB _].
  destruct (wf_ring ts W b HB) as (cs & R). pose proof R as (HN & HL & RC).
  destruct (list_elem_of_split cs d) as (l1 & l2 & ->); [by apply RC|].
  rewrite <- app_assoc, <- app_comm_cons in HL.
  set (ts' := set_state _ _ _).
  assert (forall u, state (ts' u) = if Nat.eqb u d then TCG_TEMP_ANY else state (ts u)) as Hst.
  { intros u. unfold ts'. rewrite state_set_state, state_unlink. done. }
  assert (forall t b', copy ts' t b' <-> t <> d /\ copy ts t b') as HC.
  { intros t b'. unfold copy. rewrite Hst. unfold ts'. rewrite val_set_state, val_unlink.
    destruct (Nat.eqb_spec t d); naive_solver. }
  assert (forall b', base ts' b' <-> base ts b') as HBs.
  { intros b'. unfold base. rewrite Hst. destruct (Nat.eqb_spec b' d) as [->|]; [|done].
    destruct HD as (_ & HD & _). split; [naive_solver|]. intros [_ ?]. congruence. }
  split.
  - intros t Ht Hs. rewrite Hst in Hs. destruct (Nat.eqb_spec t d); [done|].
    destruct (wf_copy ts W t Ht Hs) as (b' & ? & ? & ?). exists b'.
    by rewrite HC, HBs.
  - intros b' HB'. apply HBs in HB'. destruct (decide (b' = b)) as [->|Hne].
    + exists (l1 ++ l2). split; [|split].
      * apply NoDup_cons in HN as [H1 H2]. apply NoDup_cons.
        rewrite !elem_of_app, elem_of_cons in H1. rewrite elem_of_app.
        split; [tauto|]. rewrite <- Permutation_middle in H2. by apply NoDup_cons in H2 as [].
      * rewrite <- app_assoc. apply (chain_ext (unlink d ts)).
        { intros x _. unfold ts'. by autorewrite with temps. }
        by apply chain_unlink.
      * intros c. rewrite HC, <- RC, !elem_of_app, elem_of_cons. split; [|naive_solver].
        intros Hc. split; [|tauto]. intros ->.
        apply NoDup_cons in HN as [_ HN]. rewrite <- Permutation_middle in HN.
        apply NoDup_cons in HN as [HN _]. apply HN. by apply elem_of_app.
    + destruct (wf_ring ts W b' HB') as (cs' & R'). exists cs'.
      refine (ring_ext ts _ b' cs' _ _ R').
      * intros x Hx. unfold ts'. autorewrite with temps.
        eapply unlink_other; [done|].
        intros Hx'. by eapply (ring_disjoint ts b _ b' cs').
      * intros c. rewrite HC. split; [naive_solver|]. intros Hc. split; [|done].
        intros ->. by eapply Hne, copy_inj.
  - intros t Ht Hs. rewrite Hst in Hs. destruct (Nat.eqb_spec t d); [naive_solver|].
    by apply (wf_global ts W).
Qed.

(** ** Forgetting a temporary *)

(** The second loop of [reset_temp] visits the rest of the ring. *)
Lemma rebase_ring b d fuel l : forall a ts, (length l < fuel)%nat -> d ∉ l ->
  chain ts (a :: l ++ [d]) ->
  exists ts', rebase fuel (Some b) d (next_copy (ts a)) ts = Some ts' /\
    forall u, state (ts' u) = state (ts u) /\ next_copy (ts' u) = next_copy (ts u) /\
      prev_copy (ts' u) = prev_copy (ts u) /\
      val (ts' u) = if bool_decide (u ∈ l) then Z.of_nat b else val (ts u).
Proof.
  revert l. induction fuel as [|fuel IH]; [lia|]. intros l a ts HF Hd HC.
  destruct l as [|c l].
  - destruct HC as [[-> _] _]. cbn. rewrite Nat.eqb_refl. eexists. split; [done|].
    intros u. rewrite bool_decide_false by apply not_elem_of_nil. done.
  - destruct HC as [[-> _] HC]. apply not_elem_of_cons in Hd as [Hd1 Hd2].
    cbn -[set_val]. destruct (Nat.eqb_spec c d); [done|].
    destruct (IH l c (set_val (Z.of_nat b) c ts)) as (ts' & E & H);
      [cbn in HF; lia|done| |].
    { refine (chain_ext ts _ _ _ HC). intros x _. by autorewrite with temps. }
    rewrite E. exists ts'. split; [done|]. intros u.
    destruct (H u) as (-> & -> & -> & ->). autorewrite with temps.
    repeat split; try done.
    destruct (Nat.eqb_spec u c) as [->|].
    + rewrite (bool_decide_true (c ∈ c :: l)) by left. by case_bool_decide.
    + by rewrite (bool_decide_ext (u ∈ c :: l) (u ∈ l)) by (rewrite elem_of_cons; naive_solver).
Qed.

Lemma info_ext (i j : tcg_temp_info) : state i = state j -> prev_copy i = prev_copy j ->
  next_copy i = next_copy j -> val i = val j -> i = j.
Proof. destruct i, j. cbn. by intros -> -> -> ->. Qed.

(** The ring of [d :: c :: cs] entered at [c], with [d] as one of its copies. *)
Definition rotated (d c : nat) (cs : list nat) (ts ts' : Temps) : Prop :=
  forall u, next_copy (ts' u) = next_copy (ts u) /\ prev_copy (ts' u) = prev_copy (ts u) /\
    (u = c -> state (ts' u) = TCG_TEMP_HAS_COPY) /\
    (u ∈ d :: cs -> state (ts' u) = TCG_TEMP_COPY /\ val (ts' u) = Z.of_nat c) /\
    (u ∉ d :: c :: cs -> ts' u = ts u).

Section Rotated.
Context (d c : nat) (cs : list nat) (ts ts' : Temps).
Hypotheses (W : temps_wf ts) (HB : base ts d) (R : ring ts d (c :: cs)).
Hypothesis (HR : rotated d c cs ts ts').

#[local] Lemma rot_cases u :
  u = c \/ (u ∈ d :: cs /\ u <> c) \/ ((u ∉ d :: c :: cs) /\ u <> c /\ (u ∉ d :: cs)).
Proof.
  destruct R as (HN & _ & _). rewrite !NoDup_cons, !elem_of_cons in HN.
  rewrite !elem_of_cons. destruct (decide (u = c)), (decide (u = d)), (decide (u ∈ cs)); naive_solver.
Qed.

#[local] Lemma rot_member u : u ∈ c :: cs -> copy ts u d.
Proof. apply R. Qed.

#[local] Lemma rot_base b : base ts' b <-> b = c \/ (base ts b /\ b <> d).
Proof.
  destruct (HR b) as (_ & _ & H1 & H2 & H3). unfold base at 1.
  destruct (rot_cases b) as [->|[[Hin Hne]|(Hnin & Hne & Hnin')]].
  - rewrite H1 by done. destruct (rot_member c) as [? _]; [left|]. naive_solver.
  - destruct (H2 Hin) as [-> _]. split; [naive_solver|]. intros [->|[Hb Hd]]; [done|].
    apply elem_of_cons in Hin as [->|Hin]; [done|]. exfalso.
    apply (copy_not_base ts b d); [|done]. apply rot_member. by right.
  - rewrite H3 by done. rewrite not_elem_of_cons in Hnin. unfold base. naive_solver.
Qed.

#[local] Lemma rot_copy t b : copy ts' t b <->
  (b = c /\ t ∈ d :: cs) \/ (b <> c /\ b <> d /\ copy ts t b).
Proof.
  destruct (HR t) as (_ & _ & H1 & H2 & H3). unfold copy at 1.
  pose proof (rot_member c ltac:(left)) as Hc.
  destruct (rot_cases t) as [->|[[Hin Hne]|(Hnin & Hne & Hnin')]].
  - rewrite H1 by done. split; [naive_solver|]. intros [[-> Hin]|(_ & Hd & Hcb)].
    + destruct R as (HN & _ & _). rewrite !NoDup_cons, !elem_of_cons in HN.
      apply elem_of_cons in Hin. naive_solver.
    + by destruct Hd; eapply copy_inj.
  - destruct (H2 Hin) as [-> ->]. split.
    + intros (_ & _ & E). left. split; [lia|done].
    + intros [[-> _]|(_ & Hd & Htb)].
      * split; [|done]. apply elem_of_cons in Hin as [->|Hin]; [apply HB|].
        apply (rot_member t). by right.
      * exfalso. apply elem_of_cons in Hin as [->|Hin].
        -- by apply copy_not_base in Htb.
        -- apply Hd. eapply copy_inj; [done|]. apply rot_member. by right.
  - rewrite H3 by done. change (copy ts t b <-> (b = c /\ t ∈ d :: cs) \/ (b <> c /\ b <> d /\ copy ts t b)).
    split; [|naive_solver]. intros Ht. right. split; [|split; [|done]].
    + intros ->. apply copy_base in Ht as [Ht _]; [|done]. by apply copy_not_base in Hc.
    + intros ->. apply Hnin. right. by apply R.
Qed.

#[local] Lemma rot_ring : ring ts' c (cs ++ [d]).
Proof.
  pose proof R as (HN & HL & _). split; [|split].
  - change (NoDup ((c :: cs) ++ [d])). by rewrite Permutation_app_comm.
  - destruct HL as [H1 HL]. rewrite <- app_assoc.
    change (chain ts' ((c :: cs) ++ d :: [c])). apply (chain_ext ts).
    + intros x _. split; apply HR.
    + apply chain_app. split; [done|]. by repeat split; apply H1.
  - intros t. rewrite rot_copy, elem_of_app, !elem_of_cons, elem_of_nil. naive_solver.
Qed.

Lemma wf_rotated : temps_wf ts'.
Proof.
  pose proof (rot_member c ltac:(left)) as Hc.
  destruct (copy_base ts c d W Hc) as [_ HTc]. split.
  - intros t Ht Hs. destruct (HR t) as (_ & _ & H1 & H2 & H3).
    destruct (rot_cases t) as [->|[[Hin Hne]|(Hnin & Hne & Hnin')]].
    + rewrite H1 in Hs by done. done.
    + exists c. rewrite rot_copy, rot_base. split; [by left|split; [by left|]].
      apply elem_of_cons in Hin as [->|Hin]; [done|]. rewrite <- HTc.
      apply (copy_base ts t d); [done|]. apply rot_member. by right.
    + rewrite H3 in Hs by done. destruct (wf_copy ts W t Ht Hs) as (b & Hb & HBb & HT).
      assert (b <> d) by (intros ->; apply Hnin; right; by apply R).
      assert (b <> c) by (intros ->; by apply copy_not_base in Hc).
      exists b. rewrite rot_copy, rot_base. naive_solver.
  - intros b Hb. apply rot_base in Hb as [->|[Hb Hd]]; [eexists; apply rot_ring|].
    destruct (wf_ring ts W b Hb) as (cs' & R'). exists cs'.
    refine (ring_ext ts _ b cs' _ _ R').
    + intros x _. split; apply HR.
    + intros t. rewrite rot_copy. assert (b <> c) by (intros ->; by apply copy_not_base in Hc).
      naive_solver.
  - intros t Ht Hs. destruct (HR t) as (_ & _ & H1 & H2 & H3).
    destruct (rot_cases t) as [->|[[Hin Hne]|(Hnin & Hne & Hnin')]].
    + apply (wf_global ts W); [done|]. left. apply Hc.
    + apply (wf_global ts W); [done|].
      apply elem_of_cons in Hin as [->|Hin]; [right; apply HB|].
      left. apply (rot_member t). by right.
    + rewrite H3 in Hs by done. by apply (wf_global ts W).
Qed.

End Rotated.

(** [ts'] knows nothing of [d] and nothing new: constants are kept, and a copy is a
    copy of what it was a copy of, or of another copy of that. *)
Record forgets (d : nat) (ts ts' : Temps) : Prop := {
  fg_wf : temps_wf ts';
  fg_any : state (ts' d) = TCG_TEMP_ANY;
  fg_const u : u <> d -> state (ts' u) = TCG_TEMP_CONST <-> state (ts u) = TCG_TEMP_CONST;
  fg_val u : u <> d -> state (ts u) = TCG_TEMP_CONST -> val (ts' u) = val (ts u);
  fg_state u : state (ts' u) = TCG_TEMP_COPY -> state (ts u) = TCG_TEMP_COPY;
  fg_copy u b' : copy ts' u b' -> exists b, copy ts u b /\ (b' = b \/ copy ts b' b);
}.

Lemma forgets_demote d ts ts' b : forgets d ts ts' -> base ts' b -> next_copy (ts' b) = b ->
  forgets d ts (set_state TCG_TEMP_ANY b ts').
Proof.
  intros [W HA HC HV HS HP] HB Hn. split; [by apply wf_demote|..].
  - fields.
  - intros u Hu. rewrite <- HC by done. autorewrite with temps.
    destruct (Nat.eqb_spec u b) as [->|]; [|done]. destruct HB as [_ ->]. done.
  - intros u Hu Hs. autorewrite with temps. by apply HV.
  - intros u. autorewrite with temps. destruct (Nat.eqb_spec u b); [done|apply HS].
  - intros u b' H. apply HP. unfold copy in *. autorewrite with temps in H.
    destruct (Nat.eqb_spec u b); naive_solver.
Qed.

(** Nothing in the ring changed: the case of a constant or unknown temporary. *)
Lemma forgets_plain d ts : temps_wf ts ->
  state (ts d) <> TCG_TEMP_COPY -> state (ts d) <> TCG_TEMP_HAS_COPY ->
  forgets d ts (set_state TCG_TEMP_ANY d ts).
Proof.
  intros W H1 H2.
  destruct (wf_free_ext ts (set_state TCG_TEMP_ANY d ts) d) as [W' HC];
    [done| |done|split; fields|].
  { intros u Hu. unfold set_state, upd. by destruct (Nat.eqb_spec u d). }
  split; [done|..].
  - fields.
  - intros u Hu. fields.
  - intros. by autorewrite with temps.
  - intros u. fields.
  - intros u b Hb. apply HC in Hb. exists b. by split; [|left].
Qed.

Lemma forgets_copy d b ts : temps_wf ts -> copy ts d b ->
  forgets d ts (set_state TCG_TEMP_ANY d (unlink d ts)).
Proof.
  intros W Hd. split; [by eapply wf_unlink_copy|..].
  - fields.
  - intros u Hu. rewrite state_set_state, state_unlink. by destruct (Nat.eqb_spec u d).
  - intros u Hu _. by rewrite val_set_state, val_unlink.
  - intros u. rewrite state_set_state, state_unlink. by destruct (Nat.eqb_spec u d).
  - intros u b' (H1 & H2 & H3). exists b'. split; [|by left].
    rewrite state_set_state, state_unlink in H2. rewrite val_set_state, val_unlink in H3.
    destruct (Nat.eqb_spec u d); done.
Qed.

Lemma unlink_congr d ts ts' u :
  next_copy (ts' d) = next_copy (ts d) -> prev_copy (ts' d) = prev_copy (ts d) ->
  ts' u = ts u -> unlink d ts' u = unlink d ts u.
Proof.
  intros Hn Hp E. apply info_ext; rewrite ?state_unlink, ?val_unlink, ?next_unlink, ?prev_unlink;
    by rewrite ?Hn, ?Hp, E.
Qed.

Lemma forgets_base d c cs ts ts2 : temps_wf ts -> base ts d -> ring ts d (c :: cs) ->
  (forall u, state (ts2 u) = (if Nat.eqb u c then TCG_TEMP_HAS_COPY else state (ts u)) /\
    next_copy (ts2 u) = next_copy (ts u) /\ prev_copy (ts2 u) = prev_copy (ts u) /\
    val (ts2 u) = if bool_decide (u ∈ c :: cs) then Z.of_nat c else val (ts u)) ->
  forgets d ts (set_state TCG_TEMP_ANY d (unlink d ts2)) /\
  base (set_state TCG_TEMP_ANY d (unlink d ts2)) c.
Proof.
  intros W HB R H2. pose proof R as (HN & HL & RC).
  assert (copy ts c d) as Hc by (apply RC; left).
  assert (c <> d) as Hcd by (intros ->; by apply copy_not_base in Hc).
  set (rt := set_state TCG_TEMP_COPY d (set_val (Z.of_nat c) d ts2)).
  assert (rotated d c cs ts rt) as HR.
  { intros u. destruct (H2 u) as (Hs & Hn & Hp & Hv). unfold rt.
    rewrite !NoDup_cons, !elem_of_cons in HN. split; [by fields|split; [by fields|]].
    split; [|split].
    - intros ->. autorewrite with temps. rewrite Hs, Nat.eqb_refl.
      destruct (Nat.eqb_spec c d); done.
    - intros Hu. autorewrite with temps. destruct (Nat.eqb_spec u d); [done|].
      apply elem_of_cons in Hu as [->|Hu]; [done|].
      rewrite Hs, Hv, bool_decide_true by (by right).
      destruct (Nat.eqb_spec u c); [naive_solver|]. split; [|done].
      apply (RC u). by right.
    - intros Hu. apply not_elem_of_cons in Hu as [Hud Hu]. rewrite bool_decide_false in Hv by done.
      apply not_elem_of_cons in Hu as [Huc Hu].
      apply info_ext; fields; congruence. }
  pose proof (wf_rotated d c cs ts rt W HB R HR) as WR.
  assert (copy rt d c) as Hdc.
  { apply (rot_copy d c cs ts rt W HB R HR). left. split; [done|left]. }
  assert (temps_wf (set_state TCG_TEMP_ANY d (unlink d ts2))) as W4.
  { refine (proj1 (wf_free_ext _ _ d (wf_unlink_copy rt d c WR Hdc) _ _ _));
      [|split; fields..].
    intros u Hu. unfold set_state at 1 2, upd. destruct (Nat.eqb_spec u d); [done|].
    apply unlink_congr; unfold rt; [by fields..|].
    unfold set_state, set_val, upd. by destruct (Nat.eqb_spec u d). }
  assert (forall u, state (set_state TCG_TEMP_ANY d (unlink d ts2) u) =
    if Nat.eqb u d then TCG_TEMP_ANY else if Nat.eqb u c then TCG_TEMP_HAS_COPY
    else state (ts u)) as Hst.
  { intros u. rewrite state_set_state, state_unlink. by destruct (H2 u) as (-> & _). }
  split; [split|]; [done|..].
  - fields.
  - intros u Hu. rewrite Hst. destruct (Nat.eqb_spec u d), (Nat.eqb_spec u c); try done.
    subst. destruct Hc as (_ & -> & _). done.
  - intros u Hu Hs. rewrite val_set_state, val_unlink. destruct (H2 u) as (_ & _ & _ & ->).
    rewrite bool_decide_false; [done|]. intros Hin. apply RC in Hin as (_ & Hin & _). congruence.
  - intros u. rewrite Hst. by destruct (Nat.eqb_spec u d), (Nat.eqb_spec u c).
  - intros u b' (Hu & Hs & Hv). rewrite Hst in Hs. rewrite val_set_state, val_unlink in Hv.
    destruct (Nat.eqb_spec u d), (Nat.eqb_spec u c); try done.
    destruct (H2 u) as (_ & _ & _ & Hv2). rewrite Hv2 in Hv. case_bool_decide as Hin.
    + exists d. split; [by apply RC|]. right. by rewrite <- (Nat2Z.inj c b').
    + exists b'. by split; [|left].
  - split; [apply Hc|]. rewrite Hst, Nat.eqb_refl. by destruct (Nat.eqb_spec c d).
Qed.

(** The last step of [reset_temp]. *)
Lemma forgets_finish d b ts ts' : forgets d ts ts' -> base ts' b ->
  forgets d ts (if Nat.eqb (next_copy (ts' b)) b then set_state TCG_TEMP_ANY b ts' else ts').
Proof. intros. destruct (Nat.eqb_spec (next_copy (ts' b)) b); [by apply forgets_demote|done]. Qed.

(** A representative that is alone. *)
Lemma forgets_alone d ts : temps_wf ts -> base ts d -> ring ts d [] ->
  forgets d ts (set_state TCG_TEMP_ANY d (unlink d ts)).
Proof.
  intros W HB (_ & [[Hn Hp] _] & _). cbn in Hn, Hp. split.
  - refine (proj1 (wf_free_ext _ _ d (wf_demote ts d W HB Hn) _ _ _)); [|split; fields..].
    intros u Hu. unfold set_state, upd. destruct (Nat.eqb_spec u d); [done|].
    apply info_ext; rewrite ?state_unlink, ?val_unlink, ?next_unlink, ?prev_unlink, ?Hn, ?Hp;
      by destruct (Nat.eqb_spec u d).
  - fields.
  - intros u Hu. rewrite state_set_state, state_unlink. by destruct (Nat.eqb_spec u d).
  - intros u _ _. by rewrite val_set_state, val_unlink.
  - intros u. rewrite state_set_state, state_unlink. by destruct (Nat.eqb_spec u d).
  - intros u b' (H1 & H2 & H3). exists b'. split; [|by left].
    rewrite state_set_state, state_unlink in H2. rewrite val_set_state, val_unlink in H3.
    destruct (Nat.eqb_spec u d); done.
Qed.

Lemma reset_temp_ok d ts : temps_wf ts -> (d < nb_temps)%nat ->
  exists ts', reset_temp d nb_temps nb_globals ts = Some ts' /\ forgets d ts ts'.
Proof.
  intros W Hd. unfold reset_temp. destruct (state (ts d)) eqn:Hs;
    cbn -[set_state unlink rebase find_base].
  1,2,5: eexists; split; [done|]; apply forgets_plain; congruence.
  - destruct (wf_copy ts W d Hd Hs) as (b & HC & HB & _). rewrite val_unlink.
    pose proof HC as (_ & _ & ->). rewrite Nat2Z.id. eexists. split; [done|].
    apply forgets_finish; [by eapply forgets_copy|].
    assert (b <> d) by (intros ->; by apply copy_not_base in HC).
    unfold base in *. rewrite state_set_state, state_unlink. by destruct (Nat.eqb_spec b d).
  - assert (base ts d) as HB by done. destruct (wf_ring ts W d HB) as (cs & R).
    pose proof (ring_length ts d cs HB R) as Hlen. pose proof R as (HN & HL & RC).
    destruct cs as [|c cs].
    + destruct HL as [[Hn Hp] _]. cbn [find_base]. rewrite Hn, Nat.eqb_refl.
      cbn -[set_state unlink]. rewrite Hn, Nat.eqb_refl. cbn -[set_state unlink]. eexists. split; [done|].
      by apply forgets_alone.
    + pose proof (proj1 (RC c) ltac:(left)) as Hc. pose proof HL as [[Hn _] _].
      assert (nb_globals <= c)%nat as Hg by (apply (wf_global ts W); [|left]; apply Hc).
      apply NoDup_cons in HN as [HN _]. pose proof HN as HN'.
      apply not_elem_of_cons in HN' as [Hne _].
      cbn [find_base]. rewrite Hn. destruct (Nat.eqb_spec c d); [done|].
      destruct (Nat.leb_spec nb_globals c); [|lia]. cbn -[set_state unlink rebase].
      destruct (rebase_ring c d (S nb_temps) (c :: cs) d (set_state TCG_TEMP_HAS_COPY c ts))
        as (ts2 & E & H2); [cbn in *; lia|done| |].
      { refine (chain_ext ts _ _ _ HL). intros x _. by autorewrite with temps. }
      rewrite E. cbn -[set_state unlink rebase]. eexists. split; [done|].
      destruct (forgets_base d c cs ts ts2 W HB R) as [HF HBc].
      { intros u. destruct (H2 u) as (-> & -> & -> & ->). by autorewrite with temps. }
      by apply forgets_finish.
Qed.

(** ** Recording a copy *)

Lemma wf_make_base src ts : temps_wf ts -> (nb_globals <= src < nb_temps)%nat -> free ts src ->
  temps_wf (make_base src ts) /\ base (make_base src ts) src /\
  (forall t b, copy (make_base src ts) t b <-> copy ts t b).
Proof.
  intros W Hsrc [HF1 HF2].
  assert (forall u, u <> src -> make_base src ts u = ts u) as HE.
  { intros u Hu. unfold make_base, set_state, set_next, set_prev, upd.
    by destruct (Nat.eqb_spec u src). }
  assert (state (make_base src ts src) = TCG_TEMP_HAS_COPY) as Hst.
  { unfold make_base. fields. }
  assert (base (make_base src ts) src) as HBs by (split; [lia|done]).
  assert (forall t b, copy (make_base src ts) t b <-> copy ts t b) as HC.
  { intros t b. unfold copy. destruct (decide (t = src)) as [->|]; [|by rewrite HE].
    rewrite Hst. naive_solver. }
  assert (forall b, copy ts src b -> False) as HNC by (intros b (_ & ? & _); done).
  split; [split|done].
  - intros t Ht Hs. destruct (decide (t = src)) as [->|Hne]; [congruence|].
    rewrite HE in Hs by done. destruct (wf_copy ts W t Ht Hs) as (b & Hc & [HB1 HB2] & HT).
    exists b. rewrite HC. repeat split; [apply Hc..|done| |done].
    destruct (decide (b = src)) as [->|]; [done|by rewrite HE].
  - intros b [Hb Hb']. destruct (decide (b = src)) as [->|Hne].
    + exists []. split; [apply NoDup_singleton|split].
      * unfold make_base. repeat split; fields.
      * intros c. rewrite HC. split; [by intros ?%elem_of_nil|]. intros Hc.
        apply copy_base in Hc as [[_ Hc] _]; done.
    + rewrite HE in Hb' by done. destruct (wf_ring ts W b) as (cs & R); [done|]. exists cs.
      refine (ring_ext ts _ b cs _ _ R); [|done]. intros x Hx. rewrite HE; [done|].
      intros ->. apply elem_of_cons in Hx as [->|Hx]; [done|].
      apply R in Hx. by apply HNC in Hx.
  - intros t Ht Hs. destruct (decide (t = src)) as [->|]; [lia|].
    rewrite HE in Hs by done. by apply (wf_global ts W).
Qed.

Section AddCopy.
Context (dst src : nat) (ts : Temps).
Hypothesis (Hne : dst <> src) (Hq : dst <> next_copy (ts src)).

Lemma add_copy_state u :
  state (add_copy dst src ts u) = if Nat.eqb u dst then TCG_TEMP_COPY else state (ts u).
Proof. unfold add_copy. by autorewrite with temps. Qed.

Lemma add_copy_val u :
  val (add_copy dst src ts u) = if Nat.eqb u dst then Z.of_nat src else val (ts u).
Proof. unfold add_copy. by autorewrite with temps. Qed.

Lemma add_copy_next u :
  next_copy (add_copy dst src ts u) =
  if Nat.eqb u src then dst else if Nat.eqb u dst then next_copy (ts src) else next_copy (ts u).
Proof. unfold add_copy. by autorewrite with temps. Qed.

Lemma add_copy_prev u :
  prev_copy (add_copy dst src ts u) =
  if Nat.eqb u (next_copy (ts src)) then dst else if Nat.eqb u dst then src
  else prev_copy (ts u).
Proof. unfold add_copy. autorewrite with temps. by rewrite Nat.eqb_refl. Qed.

Lemma add_copy_copy t b : (dst < nb_temps)%nat -> free ts dst ->
  copy (add_copy dst src ts) t b <-> (t = dst /\ b = src) \/ copy ts t b.
Proof.
  intros Hd [HF _]. unfold copy. rewrite add_copy_state, add_copy_val.
  destruct (Nat.eqb_spec t dst) as [->|]; [|naive_solver].
  split; [|naive_solver]. intros (_ & _ & E). left. split; [done|lia].
Qed.

Lemma add_copy_ring cs : (dst < nb_temps)%nat -> free ts dst -> base ts src ->
  ring ts src cs -> ring (add_copy dst src ts) src (dst :: cs).
Proof.
  intros Hd HF HB (HN & HL & R).
  assert (dst ∉ cs) as Hdcs by (intros Hin; apply R in Hin as (_ & Hin & _); by destruct HF).
  pose proof HN as HN2. apply NoDup_cons in HN2 as [Hs HN2]. split; [|split].
  - apply NoDup_cons. rewrite not_elem_of_cons. split; [done|]. by apply NoDup_cons.
  - assert (exists q B, cs ++ [src] = q :: B) as (q & B & EB)
      by (destruct cs; eexists _, _; done).
    change (chain (add_copy dst src ts) (src :: dst :: cs ++ [src])).
    rewrite EB in HL |- *. destruct HL as [[Hn Hp] HL].
    assert (NoDup (q :: B)) as HNB.
    { rewrite <- EB, Permutation_app_comm. done. }
    apply NoDup_cons in HNB as [HqB HNB].
    assert (forall x, x ∈ q :: B -> x <> dst) as Hx.
    { intros x Hx ->. rewrite <- EB in Hx. apply elem_of_app in Hx as [Hx|Hx]; [done|].
      by apply list_elem_of_singleton in Hx. }
    assert (q <> dst) by (apply Hx; left).
    split; [|split].
    + split; [rewrite add_copy_next, Nat.eqb_refl; done|].
      rewrite add_copy_prev, Hn, Nat.eqb_refl. destruct (Nat.eqb_spec dst q); congruence.
    + split.
      * rewrite add_copy_next, Nat.eqb_refl. by destruct (Nat.eqb_spec dst src).
      * rewrite add_copy_prev, Hn, Nat.eqb_refl. done.
    + refine (chain_frame ts _ _ _ _ HL).
      * intros x Hin. rewrite <- EB, removelast_last in Hin. rewrite add_copy_next.
        destruct (Nat.eqb_spec x src) as [->|]; [done|].
        destruct (Nat.eqb_spec x dst) as [->|]; done.
      * intros x Hin. cbn in Hin. rewrite add_copy_prev, Hn.
        destruct (Nat.eqb_spec x q) as [->|]; [done|].
        destruct (Nat.eqb_spec x dst); [|done]. exfalso. by apply (Hx x); [right|].
  - intros c. rewrite elem_of_cons, add_copy_copy by done. rewrite R. naive_solver.
Qed.

End AddCopy.

Lemma wf_add_copy dst src ts : temps_wf ts -> (nb_globals <= dst < nb_temps)%nat ->
  free ts dst -> base ts src -> temp_type C src = temp_type C dst ->
  temps_wf (add_copy dst src ts) /\
  (forall t b, copy (add_copy dst src ts) t b <-> (t = dst /\ b = src) \/ copy ts t b).
Proof.
  intros W Hd HF HB HT. destruct (wf_ring ts W src HB) as (cs & R).
  assert (dst <> src) as Hne by (intros ->; destruct HB as [_ HB]; by destruct HF).
  assert (dst <> next_copy (ts src)) as Hq.
  { pose proof R as (_ & HL & RC). destruct cs as [|c cs].
    - destruct HL as [[-> _] _]. done.
    - destruct HL as [[-> _] _]. intros ->.
      destruct (proj1 (RC c) ltac:(left)) as (_ & ? & _). by destruct HF. }
  assert (forall t b, copy (add_copy dst src ts) t b <-> (t = dst /\ b = src) \/ copy ts t b)
    as HC by (intros; apply add_copy_copy; done || lia).
  assert (forall b, base (add_copy dst src ts) b <-> base ts b) as HBs.
  { intros b. unfold base. rewrite add_copy_state. destruct (Nat.eqb_spec b dst) as [->|]; [|done].
    destruct HF. naive_solver. }
  split; [split|done].
  - intros t Ht Hs. rewrite add_copy_state in Hs.
    destruct (Nat.eqb_spec t dst) as [->|].
    + exists src. rewrite HC, HBs. split; [by left|done].
    + destruct (wf_copy ts W t Ht Hs) as (b & ? & ? & ?). exists b. rewrite HC, HBs.
      split; [by right|done].
  - intros b Hb. apply HBs in Hb. destruct (decide (b = src)) as [->|Hbs].
    + exists (dst :: cs). apply add_copy_ring; done || lia.
    + destruct (wf_ring ts W b Hb) as (cs' & R'). exists cs'.
      refine (ring_ext ts _ b cs' _ _ R').
      * intros x Hx.
        assert (x ∉ src :: cs) as Hx' by (by apply (ring_disjoint ts b cs' src cs)).
        assert (x <> dst) as Hxd.
        { intros ->. destruct R' as (_ & _ & R'). apply elem_of_cons in Hx as [->|Hx].
          - destruct Hb as [_ Hb]. by destruct HF.
          - apply R' in Hx as (_ & Hx & _). by destruct HF. }
        apply not_elem_of_cons in Hx' as [Hxs Hxc].
        rewrite add_copy_next, add_copy_prev.
        destruct (Nat.eqb_spec x src), (Nat.eqb_spec x dst); try done.
        destruct (Nat.eqb_spec x (next_copy (ts src))) as [E|]; [|done].
        exfalso. destruct R as (_ & HL & _).
        destruct cs; destruct HL as [[HL _] _]; [congruence|]. apply Hxc. rewrite E, HL. left.
      * intros c. rewrite HC. naive_solver.
  - intros t Ht Hs. rewrite add_copy_state in Hs. destruct (Nat.eqb_spec t dst); [lia|].
    by apply (wf_global ts W).
Qed.

End Ring.
