(* ===== verification/TcgFold.v ===== *)
(** * Constant folding in the TCG optimiser

    [do_constant_folding] of src/emul/qemu/tcg/optimize.c against the meaning of the
    operations: when the folding is defined it gives the value the operation
    computes, and it is undefined exactly for the counts C does not define. *)

From S2P Require Import Prelude TcgIr TcgOptimize.
Open Scope Z_scope.

(** The counts for which the C expressions are defined. *)
Definition count_defined (b : binop) (w : TCGType) (y : Z) : bool :=
  match b with
  | op_shl | op_shr | op_sar => uint (bits w) y <? bits w
  | op_rotl | op_rotr => (0 <? y) && (y <? bits w)
  | _ => true
  end.

Lemma bits_range w : 32 <= bits w <= 64.
Proof. by destruct w. Qed.

Lemma mask_result_uint w r : uint (bits w) (mask_result w r) = uint (bits w) r.
Proof.
  destruct w; cbn; [|done]. change 4294967295 with (Z.ones 32).
  rewrite <- uint_land by lia. by rewrite uint_uint by lia.
Qed.

(** The operand of a 64-bit computation may be truncated first. *)
Lemma uint64_truncate w x : uint (bits w) (uint64_t x) = uint (bits w) x.
Proof. apply uint_uint. pose proof (bits_range w). lia. Qed.

Lemma fold_un_correct u w x : unop_width u w = true ->
  uint (bits w) (do_constant_folding1 u w x) = eval_un u (bits w) (uint (bits w) x).
Proof.
  intros Hw. unfold do_constant_folding1. rewrite mask_result_uint.
  pose proof (bits_range w).
  destruct u; cbn [do_constant_folding_un eval_un]; rewrite ?uint64_truncate.
  2: { rewrite <- !Z.sub_0_l, <- (uint_sub _ 0 (uint _ x)), <- (uint_sub _ 0 x).
       by rewrite uint_uint by lia. }
  6,7: apply bool_decide_eq_true in Hw; subst.
  all: try destruct w; cbn [bits]; bitwise.
  all: by rewrite uint_testbit by lia; split_ltb.
Qed.

Lemma shift_count_some w y v : y < w -> shift_count w y v = Some v.
Proof. intros. unfold shift_count. by destruct (Z.ltb_spec y w); [|lia]. Qed.

Lemma shl_c_some w x n r : shl_c w x n = Some r -> 0 <= n < w /\ r = uint w (Z.shiftl x n).
Proof. unfold shl_c. intros H. destruct (Z.leb_spec 0 n), (Z.ltb_spec n w); simplify_eq/=; lia. Qed.

Lemma shr_c_some w x n r : shr_c w x n = Some r -> 0 <= n < w /\ r = Z.shiftr x n.
Proof. unfold shr_c. intros H. destruct (Z.leb_spec 0 n), (Z.ltb_spec n w); simplify_eq/=; lia. Qed.

Lemma or_c_some a b r : or_c a b = Some r ->
  exists x y, a = Some x /\ b = Some y /\ r = Z.lor x y.
Proof. unfold or_c. destruct a, b; intros; simplify_eq/=; eauto. Qed.

Lemma sint_uint_small w y : 0 < w -> 0 <= sint w y -> uint w y = sint w y.
Proof.
  intros Hw H. rewrite <- (uint_sint w y) by done. apply uint_id.
  pose proof (sint_range w y Hw) as [_ HR]. split; [done|].
  apply (Z.lt_trans _ _ _ HR). apply Z.pow_lt_mono_r; lia.
Qed.

(** The two halves of a rotation. *)
Lemma rot_uint w x n m : 0 <= w -> 0 <= n -> 0 <= m ->
  uint w (Z.lor (uint w (Z.shiftl (uint w x) n)) (Z.shiftr (uint w x) m)) =
  uint w (Z.lor (Z.shiftl (uint w x) n) (Z.shiftr (uint w x) m)).
Proof. intros. bitwise. Qed.

Lemma uint_shiftr w x n : 0 <= w -> 0 <= n ->
  uint w (Z.shiftr (uint w x) n) = Z.shiftr (uint w x) n.
Proof. intros. bitwise. Qed.

(** The operations without a count. *)
Lemma fold_total_correct b w x y r :
  match b with op_shl | op_shr | op_sar | op_rotl | op_rotr => False | _ => True end ->
  do_constant_folding_2 b w x y = Some r ->
  eval_bin b (bits w) (uint (bits w) x) (uint (bits w) y) = Some (uint (bits w) r).
Proof.
  intros Hb H. destruct b; try done; cbn [do_constant_folding_2 eval_bin] in *;
    destruct w; injection H as <-; f_equal; cbn [bits]; bits_unfold; rewrite ?uint_uint by lia;
    try (apply uint_add || apply uint_sub || apply uint_mul); bitwise.
Qed.

Lemma fold_shift_correct b w x y r :
  match b with op_shl | op_shr | op_sar => True | _ => False end ->
  do_constant_folding_2 b w x y = Some r ->
  eval_bin b (bits w) (uint (bits w) x) (uint (bits w) y) = Some (uint (bits w) r).
Proof.
  intros Hb H. destruct b; try done; destruct w; cbn [do_constant_folding_2 bits eval_bin] in *;
    bits_unfold.
  1,2: apply shl_c_some in H as [Hn ->]; rewrite shift_count_some by apply Hn;
    by rewrite uint_uint by lia.
  1,2: apply shr_c_some in H as [Hn ->]; rewrite shift_count_some by apply Hn;
    by rewrite uint_shiftr by (apply Hn || lia).
  all: apply fmap_Some in H as (r' & H & ->); apply shr_c_some in H as [Hn ->];
    rewrite sint_uint, (sint_uint_small _ y), shift_count_some by (apply Hn || lia);
    by rewrite uint_uint by lia.
Qed.

Lemma rot_complement w y : 0 <= y <= w -> w <= 64 -> uint64_t (w - y) = w - y.
Proof. intros. apply uint_id. unfold in_u. pow_norm. lia. Qed.

Lemma uint_count w y : 0 <= y < w -> uint w y = y.
Proof. intros. apply uint_id. split; [lia|]. pose proof (Z.pow_gt_lin_r 2 w). lia. Qed.

Lemma fold_rot_correct b w x y r :
  match b with op_rotl | op_rotr => True | _ => False end ->
  do_constant_folding_2 b w x y = Some r ->
  eval_bin b (bits w) (uint (bits w) x) (uint (bits w) y) = Some (uint (bits w) r).
Proof.
  intros Hb H.
  destruct b; try done; destruct w; cbn [do_constant_folding_2 bits eval_bin] in *;
    apply or_c_some in H as (a & c & H1 & H2 & ->);
    apply shl_c_some in H1 as [Hn ->]; apply shr_c_some in H2 as [Hm ->];
    rewrite rot_complement, uint_count, shift_count_some by lia; bits_unfold;
    rewrite rot_uint by lia; [done..|by rewrite Z.lor_comm|by rewrite Z.lor_comm].
Qed.

Lemma fold_bin_correct b w x y r : do_constant_folding b w x y = Some r ->
  eval_bin b (bits w) (uint (bits w) x) (uint (bits w) y) = Some (uint (bits w) r).
Proof.
  intros H. apply fmap_Some in H as (r' & H & ->). rewrite mask_result_uint.
  destruct b; first [by apply fold_total_correct|by apply fold_shift_correct
                    |by apply fold_rot_correct].
Qed.

Lemma shl_c_none w x n : shl_c w x n = None <-> ~ 0 <= n < w.
Proof. unfold shl_c. destruct (Z.leb_spec 0 n), (Z.ltb_spec n w); cbn; split; done || lia. Qed.

Lemma shr_c_none w x n : shr_c w x n = None <-> ~ 0 <= n < w.
Proof. unfold shr_c. destruct (Z.leb_spec 0 n), (Z.ltb_spec n w); cbn; split; done || lia. Qed.

Lemma or_c_none a b : or_c a b = None <-> a = None \/ b = None.
Proof. unfold or_c. destruct a, b; cbn; naive_solver. Qed.

Lemma sint_count w y : 32 <= w -> 0 <= sint w y < w <-> uint w y < w.
Proof.
  intros Hw. pose proof (uint_range w y ltac:(lia)) as [HU _].
  assert (w < 2 ^ (w - 1)).
  { pose proof (Z.pow_gt_lin_r 2 (w - 2)) as H.
    replace (2 ^ (w - 1)) with (2 * 2 ^ (w - 2)) by (rewrite <- Z.pow_succ_r by lia; f_equal; lia).
    lia. }
  split.
  - intros H'. rewrite sint_uint_small by lia. lia.
  - intros H'. rewrite <- sint_uint by lia. rewrite sint_id; [lia|lia|]. unfold in_s. lia.
Qed.

Lemma rot_count w y : 32 <= w <= 64 -> in_u 64 y ->
  (0 <= y < w /\ 0 <= uint64_t (w - y) < w) <-> 0 < y < w.
Proof.
  intros Hw Hy. unfold in_u in Hy. destruct (decide (y <= w)).
  - rewrite rot_complement by lia. lia.
  - lia.
Qed.

(** Folding fails exactly on the counts C does not define. *)
Lemma fold_none b w x y : in_u 64 y ->
  do_constant_folding b w x y = None <-> count_defined b w y = false.
Proof.
  intros Hy. unfold do_constant_folding. rewrite fmap_None.
  pose proof (rot_count 32 y ltac:(lia) Hy). pose proof (rot_count 64 y ltac:(lia) Hy).
  pose proof (uint_range 32 y ltac:(lia)) as []. pose proof (uint_range 64 y ltac:(lia)) as [].
  destruct b; try (destruct w; done); destruct w;
    cbn [do_constant_folding_2 count_defined bits];
    rewrite ?fmap_None, ?or_c_none, ?shl_c_none, ?shr_c_none, ?sint_count by lia;
    rewrite ?andb_false_iff, ?Z.ltb_ge; unfold uint32_t in *; unfold uint64_t in *; try lia.
  all: unfold int32_t, int64_t; rewrite sint_count by lia; lia.
Qed.
