(* ===== verification/TcgOptProofs.v ===== *)
(** * Correctness of the TCG optimiser

    The table of temporaries agrees with the values of the temporaries at every
    operation of a block, so each rewritten operation does what the original did;
    the optimised block runs like the original one. *)

From S2P Require Import Prelude TcgIr TcgOptimize TcgRing TcgFold.
Open Scope Z_scope.

Section Agree.
Context (C : TCGContext).
#[local] Abbreviation nb_temps := (nb_temps C).
#[local] Abbreviation nb_globals := (nb_globals C).
#[local] Abbreviation width t := (bits (temp_type C t)).

(** ** The table and the values *)

Record agrees (vs : list Z) (ts : Temps) : Prop := {
  ag_const t : (t < nb_temps)%nat -> state (ts t) = TCG_TEMP_CONST ->
    vs !! t = Some (uint (width t) (val (ts t)));
  ag_copy t b : copy C ts t b -> vs !! t = vs !! b;
}.

Lemma agrees_forgets vs d ts ts' : forgets C d ts ts' -> agrees vs ts -> agrees vs ts'.
Proof.
  intros F [HC HP]. split.
  - intros t Ht Hs. destruct (decide (t = d)) as [->|].
    + rewrite (fg_any C _ _ _ F) in Hs. done.
    + apply (fg_const C _ _ _ F) in Hs; [|done]. rewrite (fg_val C _ _ _ F) by done. by apply HC.
  - intros t b' Hc. apply (fg_copy C _ _ _ F) in Hc as (b & Hc & [->|Hb]).
    + by apply HP.
    + by rewrite (HP _ _ Hc), (HP _ _ Hb).
Qed.

(** A temporary nothing is known of may be written. *)
Lemma agrees_write vs d v ts : temps_wf C ts -> state (ts d) = TCG_TEMP_ANY ->
  agrees vs ts -> agrees (<[d := v]> vs) ts.
Proof.
  intros W Hd [HC HP]. split.
  - intros t Ht Hs. rewrite list_lookup_insert_ne by congruence. by apply HC.
  - intros t b Hc. destruct (copy_base C ts t b W Hc) as [[_ HB] _].
    pose proof Hc as (_ & Hs & _). rewrite !list_lookup_insert_ne by congruence. by apply HP.
Qed.

(** ** Copies *)

Lemma propagate_ok ts t : temps_wf C ts -> (t < nb_temps)%nat ->
  (propagate ts t < nb_temps)%nat /\ temp_type C (propagate ts t) = temp_type C t /\
  state (ts (propagate ts t)) <> TCG_TEMP_COPY /\
  (propagate ts t = t \/ copy C ts t (propagate ts t)).
Proof.
  intros W Ht. unfold propagate, is_state. case_bool_decide as Hs; [|by auto].
  destruct (wf_copy C ts W t Ht Hs) as (b & Hc & [HB HB'] & HT).
  pose proof Hc as (_ & _ & Hv). rewrite Hv, Nat2Z.id. rewrite HB'. auto.
Qed.

Lemma propagate_read ts vs t : temps_wf C ts -> agrees vs ts -> (t < nb_temps)%nat ->
  vs !! propagate ts t = vs !! t.
Proof.
  intros W [_ HP] Ht. destruct (propagate_ok ts t W Ht) as (_ & _ & _ & [->|Hc]); [done|].
  symmetry. by apply HP.
Qed.

(** Recording that [d] holds a constant. *)
Lemma agrees_const vs d v ts : temps_wf C ts -> state (ts d) = TCG_TEMP_ANY ->
  (d < length vs)%nat -> agrees vs ts ->
  temps_wf C (set_val v d (set_state TCG_TEMP_CONST d ts)) /\
  agrees (<[d := uint (width d) v]> vs) (set_val v d (set_state TCG_TEMP_CONST d ts)).
Proof.
  intros W Hd Hl HA.
  destruct (wf_free_ext C ts (set_val v d (set_state TCG_TEMP_CONST d ts)) d) as [W' HC];
    [done| |split; congruence|split; fields|].
  { intros u Hu. unfold set_val, set_state, upd. by destruct (Nat.eqb_spec u d). }
  split; [done|]. destruct (agrees_write vs d (uint (width d) v) ts W Hd HA) as [H1 H2]. split.
  - intros t Ht Hs. destruct (decide (t = d)) as [->|].
    + rewrite list_lookup_insert_eq by done. autorewrite with temps. by rewrite Nat.eqb_refl.
    + autorewrite with temps in *. destruct (Nat.eqb_spec t d); [done|]. by apply H1.
  - intros t b Hc. apply H2. by apply HC.
Qed.

(** Recording that [d] is a copy of [src]. *)
Lemma link_copy_wf d src ts : temps_wf C ts -> state (ts d) = TCG_TEMP_ANY ->
  (nb_globals <= d < nb_temps)%nat -> (nb_globals <= src < nb_temps)%nat -> d <> src ->
  state (ts src) <> TCG_TEMP_COPY -> temp_type C src = temp_type C d ->
  temps_wf C (link_copy d src ts) /\
  (forall t b, copy C (link_copy d src ts) t b <-> (t = d /\ b = src) \/ copy C ts t b) /\
  (forall t, t <> d -> t <> src ->
    state (link_copy d src ts t) = state (ts t) /\ val (link_copy d src ts t) = val (ts t)) /\
  state (link_copy d src ts d) = TCG_TEMP_COPY /\ state (link_copy d src ts src) = TCG_TEMP_HAS_COPY.
Proof.
  intros W Hd Hd' Hsrc Hne HS1 HT.
  set (ts1 := if is_state TCG_TEMP_HAS_COPY ts src then ts else make_base src ts).
  assert (temps_wf C ts1 /\ base C ts1 src /\ (forall t b, copy C ts1 t b <-> copy C ts t b) /\
    (forall t, t <> src -> state (ts1 t) = state (ts t) /\ val (ts1 t) = val (ts t)))
    as (W1 & HB1 & HC1 & HE1).
  { unfold ts1, is_state. case_bool_decide as Hh.
    { split; [done|]. split; [by split; [lia|]|done]. }
    destruct (wf_make_base C src ts W Hsrc) as (? & ? & ?); [done|]. split; [done|].
    split; [done|]. split; [done|]. intros t Ht. unfold make_base.
    split; autorewrite with temps; by destruct (Nat.eqb_spec t src). }
  destruct (wf_add_copy C d src ts1 W1) as [W2 HC2];
    [lia|split; destruct (HE1 d Hne) as [-> _]; congruence|done|done|].
  change (link_copy d src ts) with (add_copy d src ts1). split_and!; [done| | | |].
  - intros t b. by rewrite HC2, HC1.
  - intros t H1 H2. rewrite add_copy_state, add_copy_val. destruct (Nat.eqb_spec t d); [done|]. by apply HE1.
  - rewrite add_copy_state. by rewrite Nat.eqb_refl.
  - rewrite add_copy_state. destruct (Nat.eqb_spec src d); [congruence|]. apply HB1.
Qed.

Lemma agrees_link vs d src ts : temps_wf C ts -> state (ts d) = TCG_TEMP_ANY ->
  (nb_globals <= d < nb_temps)%nat -> (nb_globals <= src < nb_temps)%nat -> d <> src ->
  state (ts src) <> TCG_TEMP_COPY -> state (ts src) <> TCG_TEMP_CONST ->
  temp_type C src = temp_type C d -> agrees vs ts -> vs !! d = vs !! src ->
  temps_wf C (link_copy d src ts) /\ agrees vs (link_copy d src ts).
Proof.
  intros W Hd Hd' Hsrc Hne HS1 HS2 HT HA HV.
  destruct (link_copy_wf d src ts) as (W2 & HC2 & HE & Hsd & Hss); try done. split; [done|]. split.
  - intros t Ht Hs. assert (t <> d) by congruence. assert (t <> src) by congruence.
    destruct (HE t) as [E1 ->]; [done..|]. apply HA; [done|]. congruence.
  - intros t b Hc. apply HC2 in Hc as [[-> ->]|Hc]; [done|]. by apply HA.
Qed.

End Agree.

(** ** One operation *)

(** Commutative operations. *)
Lemma eval_bin_comm b w x y : commutative b = true -> eval_bin b w x y = eval_bin b w y x.
Proof.
  destruct b; intros; try done; cbn;
    first [by rewrite Z.add_comm|by rewrite Z.mul_comm|by rewrite Z.lor_comm
          |by rewrite Z.land_comm|by rewrite Z.lxor_comm].
Qed.

(** Operations for which zero is a right unit. *)
Definition right_zero (b : binop) : bool :=
  match b with
  | op_add | op_sub | op_shl | op_shr | op_sar | op_rotl | op_rotr => true
  | _ => false
  end.

Lemma eval_bin_zero b w x : right_zero b = true -> 0 < w -> in_u w x ->
  eval_bin b w x 0 = Some x.
Proof.
  intros Hb Hw Hx.
  assert (forall n, w <= n -> Z.shiftr x n = 0) as Hhi.
  { intros n Hn. apply Z.bits_inj'. intros i Hi. rewrite Z.bits_0, testbit_shiftr by lia.
    apply (in_u_testbit w); done || lia. }
  destruct b; try done; cbn; rewrite ?shift_count_some by done; f_equal.
  - rewrite Z.add_0_r. by apply uint_id.
  - rewrite Z.sub_0_r. by apply uint_id.
  - rewrite Z.shiftl_0_r. by apply uint_id.
  - rewrite Z.shiftr_0_r, uint_sint by done. by apply uint_id.
  - rewrite Z.sub_0_r, Z.shiftl_0_r, Hhi, Z.lor_0_r by lia. by apply uint_id.
  - rewrite Z.sub_0_r, Z.shiftr_0_r. rewrite <- (uint_id w x) at 3 by done. bitwise.
Qed.

(** *** The shapes of a rewritten operation *)

Lemma gen_mov_op C w d x ts ts' o' : tcg_opt_gen_mov C w d x ts = Some (ts', o') ->
  o' = op_mov w d x.
Proof.
  unfold tcg_opt_gen_mov. intros H. apply bind_Some in H as (ts1 & _ & H).
  repeat case_match; by simplify_eq.
Qed.

Lemma gen_movi_op C w d v ts ts' o' : tcg_opt_gen_movi C w d v ts = Some (ts', o') ->
  o' = op_movi w d v.
Proof.
  unfold tcg_opt_gen_movi. intros H. apply bind_Some in H as (ts1 & _ & H). by simplify_eq.
Qed.

(** All the ways [fold_op] can rewrite the operation of [H]. *)
Ltac fold_cases H :=
  cbn [fold_op] in H; unfold fold_mov, fold_un, fold_bin, simplify_bin,
    fold_bin_const, fold_call, fold_other in H;
  repeat match type of H with
  | context [let '(_, _) := (if ?b then _ else _) in _] => destruct b
  | context [match ?b with op_add => _ | _ => _ end] => destruct b
  | (if ?b then _ else _) = Some _ => destruct b
  | (_ ≫= _) = Some _ => apply bind_Some in H as (? & ? & H)
  | tcg_opt_gen_mov _ _ _ _ _ = Some _ => apply gen_mov_op in H; subst
  | tcg_opt_gen_movi _ _ _ _ _ = Some _ => apply gen_movi_op in H; subst
  end.

Section Simulation.
Context {World : Type} (C : TCGContext).
Context (call_sem : Z -> list Z -> list Z -> World -> option (effect World * list Z)).
Context (other_sem : nat -> list Z -> list Z -> World -> option (effect World)).
#[local] Abbreviation nb_temps := (nb_temps C).
#[local] Abbreviation nb_globals := (nb_globals C).
#[local] Abbreviation width t := (bits (temp_type C t)).
#[local] Abbreviation exec := (exec_op C call_sem other_sem).
#[local] Abbreviation St := (State World).

Lemma width_pos t : 0 < width t.
Proof. pose proof (bits_range (temp_type C t)). lia. Qed.

Lemma has_type_iff w t : has_type C w t = true <-> (t < nb_temps)%nat /\ temp_type C t = w.
Proof.
  unfold has_type, temp_ok. rewrite andb_true_iff, Nat.ltb_lt, bool_decide_eq_true. done.
Qed.

Lemma wr_vals d v (s : St) : vals (wr C d v s) = <[d := uint (width d) v]> (vals s).
Proof. done. Qed.

(** Writing what is there already. *)
Lemma wr_same d v (s : St) : vals s !! d = Some (uint (width d) v) -> wr C d v s = s.
Proof. intros H. destruct s as [vs w]. unfold wr. cbn in *. by rewrite list_insert_id. Qed.

Lemma wr_ok d v (s : St) : state_ok C s -> state_ok C (wr C d v s).
Proof.
  intros [HL HV]. split; rewrite wr_vals; [by rewrite length_insert|]. intros t x Hx.
  apply list_lookup_insert_Some in Hx as [(<- & <- & _)|[_ Hx]]; [|by apply HV].
  pose proof (width_pos d). by rewrite uint_uint by lia.
Qed.

Lemma wrs_ok l xs (s : St) : state_ok C s -> state_ok C (wrs C l xs s).
Proof.
  revert xs s. induction l as [|d l IH]; intros [|x xs] s Hs; try done. by apply IH, wr_ok.
Qed.

Lemma set_world_ok w (s : St) : state_ok C s -> state_ok C (set_world w s).
Proof. done. Qed.

Definition step_state (r : step World) : St :=
  match r with Next s | Goto _ s | Exit _ s => s end.

Lemma exec_ok o s r : state_ok C s -> exec o s = Some r -> state_ok C (step_state r).
Proof.
  intros Hs H. destruct o; cbn in H; unfold exec_call in H;
    repeat (case_match || (apply bind_Some in H as (? & ? & H))); simplify_eq/=;
    auto using wr_ok, wrs_ok, set_world_ok.
Qed.

Lemma read_ok (s : St) t v w : state_ok C s -> vals s !! t = Some v -> temp_type C t = w ->
  uint (bits w) v = v.
Proof. intros [_ H] Hv <-. by apply H. Qed.

(** The table [ts] is right in state [s]. *)
Definition inv (ts : Temps) (s : St) : Prop :=
  temps_wf C ts /\ agrees C (vals s) ts /\ state_ok C s.

(** [o'] does in [s] what [o] does, and [ts'] is right afterwards. *)
Definition refines (o o' : TCGOp) (s : St) (ts' : Temps) : Prop :=
  forall r, exec o s = Some r ->
    exec o' s = Some r /\ forall s', r = Next s' -> inv ts' s'.

Lemma inv_const ts s t v : inv ts s -> (t < nb_temps)%nat -> is_const ts t = true ->
  vals s !! t = Some v -> v = uint (width t) (val (ts t)).
Proof.
  intros (_ & [HC _] & _) Ht Hc Hv. apply bool_decide_eq_true in Hc.
  apply HC in Hc; [|done]. congruence.
Qed.

Lemma inv_forgets ts s d ts' v : inv ts s -> forgets C d ts ts' -> inv ts' (wr C d v s).
Proof.
  intros (W & HA & Hs) F. split; [apply F|split; [|by apply wr_ok]].
  rewrite wr_vals. apply agrees_write; [apply F..|]. by eapply agrees_forgets.
Qed.

Lemma reset_forgets ts s d ts' : inv ts s -> (d < nb_temps)%nat ->
  reset_temp d nb_temps nb_globals ts = Some ts' -> forgets C d ts ts'.
Proof.
  intros (W & _) Hd H. destruct (reset_temp_ok C d ts W Hd) as (ts2 & E & F). congruence.
Qed.

Lemma gen_movi_ok ts s w d v ts' o' : inv ts s -> has_type C w d = true ->
  tcg_opt_gen_movi C w d v ts = Some (ts', o') ->
  o' = op_movi w d v /\ inv ts' (wr C d (uint (bits w) v) s).
Proof.
  intros HI [Hd HT]%has_type_iff H. unfold tcg_opt_gen_movi in H.
  apply bind_Some in H as (ts1 & H1 & H). simplify_eq. split; [done|].
  pose proof (reset_forgets _ _ _ _ HI Hd H1) as F. pose proof HI as (W & HA & Hs).
  destruct (agrees_const C (vals s) d v ts1) as [W' HA']; [apply F..| |by eapply agrees_forgets|].
  { by destruct Hs as [-> _]. }
  split; [done|split; [|by apply wr_ok]]. rewrite wr_vals, uint_uint; [done|].
  pose proof (width_pos d). lia.
Qed.

Lemma gen_mov_ok ts s w d x v ts' o' : inv ts s -> has_type C w d = true ->
  has_type C w x = true -> d <> x -> state (ts x) <> TCG_TEMP_COPY -> vals s !! x = Some v ->
  tcg_opt_gen_mov C w d x ts = Some (ts', o') ->
  o' = op_mov w d x /\ inv ts' (wr C d (uint (bits w) v) s).
Proof.
  intros HI [Hd HT]%has_type_iff [Hx HTx]%has_type_iff Hne HS Hv H. unfold tcg_opt_gen_mov in H.
  apply bind_Some in H as (ts1 & H1 & H).
  pose proof (reset_forgets _ _ _ _ HI Hd H1) as F.
  pose proof (inv_forgets ts s d ts1 (uint (bits w) v) HI F) as HI'.
  unfold is_state in H. case_bool_decide as Hc1; [done|].
  destruct (copies_tracked C x d) eqn:HCT; [|simplify_eq; done].
  case_bool_decide as Hc2; [done|]. injection H as <- <-. split; [done|].
  unfold copies_tracked in HCT. rewrite !andb_true_iff, !Nat.leb_le in HCT.
  destruct HI' as (W' & HA' & Hs'). destruct HI as (W & HA & Hs).
  destruct (agrees_link C (vals (wr C d (uint (bits w) v) s)) d x ts1)
    as [W2 HA2]; try (done || lia || congruence); [apply F|].
  rewrite wr_vals, list_lookup_insert_eq, list_lookup_insert_ne by (done || by destruct Hs as [-> _]).
  rewrite Hv, HT. pose proof (bits_range w). rewrite uint_uint by lia. f_equal.
  by apply (read_ok s x).
Qed.

(** *** Moves and unary operations *)

Lemma inv_read ts s t : inv ts s -> (t < nb_temps)%nat -> exists v, vals s !! t = Some v.
Proof. intros (_ & _ & [HL _]) Ht. apply lookup_lt_is_Some. by rewrite HL. Qed.

Lemma inv_propagate ts s w t : inv ts s -> has_type C w t = true ->
  vals s !! propagate ts t = vals s !! t /\ has_type C w (propagate ts t) = true /\
  state (ts (propagate ts t)) <> TCG_TEMP_COPY.
Proof.
  intros (W & HA & _) [Ht HT]%has_type_iff.
  destruct (propagate_ok C ts t W Ht) as (H2 & H3 & H4 & _).
  rewrite has_type_iff, H3. by rewrite (propagate_read C).
Qed.

(** A destination that already holds the result. *)
Lemma nop_ok ts s w d v r : inv ts s -> has_type C w d = true ->
  vals s !! d = Some (uint (bits w) v) ->
  Some (Next (wr C d v s)) = Some r ->
  exec op_nop s = Some r /\ forall s', r = Next s' -> inv ts s'.
Proof.
  intros HI [_ HT]%has_type_iff Hv H. rewrite wr_same in H by (by rewrite HT).
  injection H as <-. split; [done|]. intros s' [= <-]. done.
Qed.

Lemma const_value ts s w t v : inv ts s -> has_type C w t = true -> is_const ts t = true ->
  vals s !! t = Some v -> uint (bits w) v = uint (bits w) (val (ts t)).
Proof.
  intros HI [Ht HT]%has_type_iff Hc Hv. rewrite (inv_const ts s t v) by done. rewrite HT.
  apply uint_uint. pose proof (bits_range w). lia.
Qed.

Lemma fold_mov_ok ts s w d x ts' o' : inv ts s -> has_type C w d = true -> has_type C w x = true ->
  fold_mov C w d x ts = Some (ts', o') -> refines (op_mov w d x) o' s ts'.
Proof.
  intros HI Hd Hx H r HE. cbn in HE. apply bind_Some in HE as (v & Hv & HE).
  destruct (inv_propagate ts s w x HI Hx) as (HR & Hx' & HS). unfold fold_mov in H.
  unfold rd in *. rewrite <- HR in Hv. clear HR.
  generalize dependent (propagate ts x). clear x Hx. intros x H Hv Hx HS. pose proof HI as (_ & _ & Hok).
  pose proof (proj1 (has_type_iff w x) Hx) as [_ HTx].
  destruct (is_copy_of ts x d) eqn:Hco.
  { unfold is_copy_of, is_state in Hco. by rewrite bool_decide_false in Hco. }
  cbn in H. destruct (Nat.eqb_spec d x) as [->|Hne].
  - injection H as <- <-. apply (nop_ok ts s w x (uint (bits w) v)); try done.
    pose proof (bits_range w). rewrite uint_uint by lia. rewrite Hv. f_equal. symmetry.
    by apply (read_ok s x).
  - destruct (is_const ts x) eqn:Hc.
    + destruct (gen_movi_ok ts s w d (val (ts x)) ts' o') as [-> HI']; try done.
      rewrite (const_value ts s w x v) in HE by done. cbn. split; [done|].
      intros s' ->. by injection HE as <-.
    + destruct (gen_mov_ok ts s w d x v ts' o') as [-> HI']; try done.
      cbn. unfold rd. rewrite Hv. split; [done|]. intros s' ->. by injection HE as <-.
Qed.

Lemma fold_un_ok ts s u w d x ts' o' : inv ts s -> unop_width u w = true ->
  has_type C w d = true -> has_type C w x = true ->
  fold_un C u w d x ts = Some (ts', o') -> refines (op_un u w d x) o' s ts'.
Proof.
  intros HI Hu Hd Hx H r HE. cbn in HE. apply bind_Some in HE as (v & Hv & HE).
  destruct (inv_propagate ts s w x HI Hx) as (HR & Hx' & HS). unfold fold_un in H.
  unfold rd in Hv. rewrite <- HR in Hv. destruct (is_const ts (propagate ts x)) eqn:Hc.
  - destruct (gen_movi_ok _ _ _ _ _ _ _ HI Hd H) as [-> HI'].
    rewrite (const_value ts s w (propagate ts x) v), <- fold_un_correct in HE by done.
    split; [done|]. intros s' ->. by injection HE as <-.
  - apply bind_Some in H as (ts1 & H1 & H). injection H as <- <-.
    cbn. unfold rd. rewrite Hv. split; [done|]. intros s' ->. injection HE as <-.
    apply has_type_iff in Hd as [Hd _]. eapply inv_forgets, reset_forgets; done.
Qed.

(** *** Binary operations *)

(** The operands of a binary operation after propagation and exchange: well typed,
    not copies, and with the values [vx] and [vy]. *)
Record operands (ts : Temps) (s : St) (w : TCGType) (x y : nat) (vx vy : Z) : Prop := {
  opx_type : has_type C w x = true;
  opy_type : has_type C w y = true;
  opx_state : state (ts x) <> TCG_TEMP_COPY;
  opy_state : state (ts y) <> TCG_TEMP_COPY;
  opx_read : vals s !! x = Some vx;
  opy_read : vals s !! y = Some vy;
}.

Lemma operand_value (s : St) w x v : state_ok C s -> has_type C w x = true -> vals s !! x = Some v ->
  uint (bits w) v = v /\ in_u (bits w) v.
Proof.
  intros Hok [_ HT]%has_type_iff Hv.
  assert (uint (bits w) v = v) as E by (by apply (read_ok s x)).
  split; [done|]. rewrite <- E. apply uint_range. pose proof (bits_range w). lia.
Qed.

Lemma fold_bin_const_ok ts s b w d x y vx vy v ts' o' : inv ts s -> has_type C w d = true ->
  operands ts s w x y vx vy ->
  eval_bin b (bits w) (uint (bits w) vx) (uint (bits w) vy) = Some v ->
  fold_bin_const C b w d x y ts = Some (ts', o') ->
  exec o' s = Some (Next (wr C d v s)) /\ inv ts' (wr C d v s).
Proof.
  intros HI Hd HO HE H. unfold fold_bin_const in H.
  destruct (is_const ts x && is_const ts y) eqn:Hc.
  - apply andb_true_iff in Hc as [Hcx Hcy]. apply bind_Some in H as (tmp & Hf & H).
    destruct (gen_movi_ok _ _ _ _ _ _ _ HI Hd H) as [-> HI']. apply fold_bin_correct in Hf.
    rewrite (const_value ts s w x vx), (const_value ts s w y vy) in HE by (done || apply HO).
    rewrite Hf in HE. by injection HE as <-.
  - apply bind_Some in H as (ts1 & H1 & H). injection H as <- <-. cbn. unfold rd.
    rewrite (opx_read _ _ _ _ _ _ _ HO), (opy_read _ _ _ _ _ _ _ HO). cbn. rewrite HE.
    split; [done|]. apply has_type_iff in Hd as [Hd _]. eapply inv_forgets, reset_forgets; done.
Qed.

(** An operation whose result is its first operand. *)
Lemma as_move_ok ts s w d x v ts' o' (dup : bool) : inv ts s -> has_type C w d = true ->
  has_type C w x = true -> state (ts x) <> TCG_TEMP_COPY -> vals s !! x = Some v ->
  (dup = true -> vals s !! d = Some v) -> (dup = false -> d <> x) ->
  (if dup then Some (ts, op_nop) else tcg_opt_gen_mov C w d x ts) = Some (ts', o') ->
  exec o' s = Some (Next (wr C d v s)) /\ inv ts' (wr C d v s).
Proof.
  intros HI Hd Hx HS Hv H1 H2 H. pose proof HI as (_ & _ & Hok).
  destruct (operand_value s w x v Hok Hx Hv) as [E _]. destruct dup.
  - injection H as <- <-. rewrite wr_same; [done|].
    apply has_type_iff in Hd as [_ ->]. rewrite E. by apply H1.
  - destruct (gen_mov_ok _ _ _ _ _ _ _ _ HI Hd Hx (H2 eq_refl) HS Hv H) as [-> HI'].
    rewrite E in HI'. cbn. unfold rd. rewrite Hv. cbn. by rewrite E.
Qed.

Lemma zero_value ts s w y vy : inv ts s -> has_type C w y = true -> is_zero ts y = true ->
  vals s !! y = Some vy -> uint (bits w) vy = 0.
Proof.
  intros HI Hy [Hc Hz%Z.eqb_eq]%andb_true_iff Hv.
  rewrite (const_value ts s w y vy), Hz by done. pose proof (bits_range w).
  apply uint_id. split; [lia|]. apply Z.pow_pos_nonneg; lia.
Qed.

Lemma copy_value ts s d x v : inv ts s -> (d < nb_temps)%nat -> vals s !! x = Some v ->
  is_copy_of ts d x || Nat.eqb d x = true -> vals s !! d = Some v.
Proof.
  intros (_ & [_ HP] & _) Hd Hv H. apply orb_true_iff in H as [H|H%Nat.eqb_eq]; [|congruence].
  apply andb_true_iff in H as [H1%bool_decide_eq_true H2%Z.eqb_eq].
  rewrite (HP d x); [done|]. by split.
Qed.

Lemma simplify_bin_ok ts s b w d x y vx vy v ts' o' : inv ts s -> has_type C w d = true ->
  operands ts s w x y vx vy ->
  eval_bin b (bits w) (uint (bits w) vx) (uint (bits w) vy) = Some v ->
  simplify_bin C b w d x y ts = Some (ts', o') ->
  exec o' s = Some (Next (wr C d v s)) /\ inv ts' (wr C d v s).
Proof.
  intros HI Hd HO HE H. pose proof HI as (_ & _ & Hok). pose proof HO as [Tx Ty Sx Sy Vx Vy].
  destruct (operand_value s w x vx Hok Tx Vx) as [Ex Rx].
  pose proof (bits_range w) as Hw. pose proof (proj1 (has_type_iff w d) Hd) as [Hdn _].
  assert (fold_bin_const C b w d x y ts = Some (ts', o') ->
    exec o' s = Some (Next (wr C d v s)) /\ inv ts' (wr C d v s)) as Hdef
    by (by apply (fold_bin_const_ok ts s b w d x y vx vy)).
  assert (right_zero b = true -> is_zero ts y = true ->
    (if is_copy_of ts d x || Nat.eqb d x then Some (ts, op_nop)
     else tcg_opt_gen_mov C w d x ts) = Some (ts', o') ->
    exec o' s = Some (Next (wr C d v s)) /\ inv ts' (wr C d v s)) as Hzero.
  { intros Hb Hz. rewrite (zero_value ts s w y vy), eval_bin_zero, Ex in HE
      by (done || lia || by rewrite Ex). injection HE as <-.
    apply as_move_ok; try done.
    - by apply copy_value.
    - intros [_ ?%Nat.eqb_neq]%orb_false_iff. done. }
  destruct b; cbn [simplify_bin right_zero] in H, Hzero; try by apply Hdef.
  1,2,6-10: destruct (is_const ts x); [by apply Hdef|];
    destruct (is_zero ts y); [by apply Hzero|by apply Hdef].
  1: { destruct (is_zero ts y) eqn:Hz; [|by apply Hdef].
    destruct (gen_movi_ok _ _ _ _ _ _ _ HI Hd H) as [-> HI'].
    rewrite (zero_value ts s w y vy) in HE by done. cbn in HE. rewrite Z.mul_0_r in HE.
    injection HE as <-. done. }
  all: destruct (Nat.eqb_spec x y) as [<-|]; [|by apply Hdef];
    assert (vy = vx) as -> by congruence; cbn in HE;
    rewrite ?Z.lor_diag, ?Z.land_diag, Ex in HE; injection HE as <-;
    refine (as_move_ok ts s w d x vx ts' o' (Nat.eqb x d) HI Hd Tx Sx Vx _ _ H);
    [intros ->%Nat.eqb_eq|intros ?%Nat.eqb_neq]; congruence.
Qed.

Lemma fold_bin_ok ts s b w d x y ts' o' : inv ts s -> has_type C w d = true ->
  has_type C w x = true -> has_type C w y = true ->
  fold_bin C b w d x y ts = Some (ts', o') -> refines (op_bin b w d x y) o' s ts'.
Proof.
  intros HI Hd Hx Hy H r HE. cbn in HE.
  apply bind_Some in HE as (vx & Hvx & HE). apply bind_Some in HE as (vy & Hvy & HE).
  apply bind_Some in HE as (v & HE & Hr). injection Hr as <-. unfold rd in *.
  destruct (inv_propagate ts s w x HI Hx) as (HRx & Tx & Sx).
  destruct (inv_propagate ts s w y HI Hy) as (HRy & Ty & Sy).
  assert (exists x' y' vx' vy', operands ts s w x' y' vx' vy' /\
    eval_bin b (bits w) (uint (bits w) vx') (uint (bits w) vy') = Some v /\
    simplify_bin C b w d x' y' ts = Some (ts', o')) as (x' & y' & vx' & vy' & HO & HE' & H').
  { unfold fold_bin in H.
    destruct (commutative b && is_const ts (propagate ts x)) eqn:Hc.
    - apply andb_true_iff in Hc as [Hc _]. rewrite eval_bin_comm in HE by done.
      exists (propagate ts y), (propagate ts x), vy, vx.
      split; [split; done || congruence|done].
    - exists (propagate ts x), (propagate ts y), vx, vy.
      split; [split; done || congruence|done]. }
  destruct (simplify_bin_ok _ _ _ _ _ _ _ _ _ _ _ _ HI Hd HO HE' H') as [HX HI'].
  split; [done|]. by intros s' [= <-].
Qed.

(** *** The other operations *)

Lemma inv_set_world ts s w : inv ts s -> inv ts (set_world w s).
Proof. done. Qed.

Lemma temps_in l : forallb (temp_ok C) l = true -> Forall (fun t => t < nb_temps)%nat l.
Proof.
  intros H. apply Forall_forall. intros t Ht. rewrite forallb_forall in H.
  apply Nat.ltb_lt, H. by apply list_elem_of_In.
Qed.

Lemma wrs_nil l (s : St) : wrs C l [] s = s.
Proof. by destruct l. Qed.

(** Resetting a list of temporaries and writing them. *)
Lemma inv_reset_temps l : forall ts s ts' xs, inv ts s -> Forall (fun t => t < nb_temps)%nat l ->
  reset_temps l nb_temps nb_globals ts = Some ts' -> inv ts' (wrs C l xs s).
Proof.
  induction l as [|d l IH]; intros ts s ts' xs HI Hl H; [by injection H as <-; destruct xs|].
  apply Forall_cons in Hl as [Hd Hl]. apply bind_Some in H as (ts1 & H1 & H).
  pose proof (reset_forgets _ _ _ _ HI Hd H1) as F. destruct xs as [|x xs].
  - rewrite wrs_nil, <- (wrs_nil l s). apply (IH ts1 s ts' []); [|done..]. destruct HI as (W & HA & Hok).
    split; [apply F|split; [by eapply agrees_forgets|done]].
  - apply (IH ts1 (wr C d x s) ts' xs); [|done..]. by eapply inv_forgets.
Qed.

Lemma fold_call_ok ts s outs ins flags ts' o' : context_ok C = true -> inv ts s ->
  forallb (temp_ok C) outs = true ->
  fold_call C outs ins flags ts = Some (ts', o') -> refines (op_call outs ins flags) o' s ts'.
Proof.
  intros HC HI Ho%temps_in H r HE. apply bind_Some in H as (ts1 & H1 & H).
  apply bind_Some in H as (ts2 & H2 & H). injection H as <- <-. split; [done|]. intros s' ->.
  cbn in HE. unfold exec_call in HE. apply bind_Some in HE as (vs & _ & HE).
  apply bind_Some in HE as (gs & _ & HE). apply bind_Some in HE as ([e gs'] & _ & HE).
  destruct e as [rs w|c w]; [|by destruct (call_is_pure flags)]. injection HE as <-.
  eapply inv_reset_temps; [|done..]. destruct (call_is_pure flags).
  - by injection H1 as <-.
  - eapply inv_reset_temps; [by apply inv_set_world| |done].
    apply Forall_forall. intros t Ht. apply elem_of_seq in Ht. apply Nat.leb_le in HC. lia.
Qed.

Lemma rds_propagate ts (s : St) l : inv ts s -> Forall (fun t => t < nb_temps)%nat l ->
  rds s (propagate ts <$> l) = rds s l.
Proof.
  intros (W & HA & _) Hl. unfold rds. induction Hl as [|t l Ht Hl IH]; [done|]. cbn.
  rewrite IH. unfold rd. by rewrite (propagate_read C).
Qed.

Lemma fold_other_ok ts s opc side outs ins consts ts' o' : inv ts s ->
  forallb (temp_ok C) outs = true -> forallb (temp_ok C) ins = true ->
  fold_other C opc side outs ins consts ts = Some (ts', o') ->
  refines (op_other opc side outs ins consts) o' s ts'.
Proof.
  intros HI Ho%temps_in Hi%temps_in H r HE. apply bind_Some in H as (ts1 & H1 & H).
  injection H as <- <-. cbn in *. split.
  - destruct side; [done|]. by rewrite rds_propagate.
  - intros s' ->. apply bind_Some in HE as (vs & _ & HE). apply bind_Some in HE as (e & _ & HE).
    destruct e as [rs w|c w]; [|done]. injection HE as <-.
    eapply inv_reset_temps; [by apply inv_set_world|done..].
Qed.

Lemma inv_clear ts s : state_ok C s -> inv (clear_temps nb_temps ts) s.
Proof.
  intros Hok.
  assert (forall t, (t < nb_temps)%nat -> state (clear_temps nb_temps ts t) = TCG_TEMP_UNDEF) as HU.
  { intros t Ht. unfold clear_temps. by destruct (Nat.ltb_spec t nb_temps); [|lia]. }
  split; [|split; [|done]].
  - split.
    + intros t Ht. by rewrite HU.
    + intros b [Hb Hb']. by rewrite HU in Hb'.
    + intros t Ht. rewrite HU by done. by intros [?|?].
  - split.
    + intros t Ht. by rewrite HU.
    + intros t b (Ht & Hs & _). by rewrite HU in Hs.
Qed.

(** The operations that end a block of straight code. *)
Lemma fold_clear_ok ts s o : state_ok C s ->
  match o with op_set_label _ | op_jmp _ | op_br _ | op_brcond _ _ _ _ _ => True | _ => False end ->
  refines o o s (clear_temps nb_temps ts).
Proof.
  intros Hok Ho r HE. split; [done|]. intros s' ->.
  assert (s' = s) as ->; [|by apply inv_clear].
  destruct o; try done; cbn in HE; repeat (apply bind_Some in HE as (? & ? & HE));
    repeat case_match; congruence.
Qed.

Lemma fold_op_ok ts s o ts' o' : context_ok C = true -> op_ok C o = true -> inv ts s ->
  fold_op C o ts = Some (ts', o') -> refines o o' s ts'.
Proof.
  intros HC Hok HI H. pose proof HI as (_ & _ & Hs).
  destruct o; cbn [op_ok fold_op] in *; rewrite ?andb_true_iff in Hok; destruct_and?;
    try (injection H as <- <-; by apply fold_clear_ok).
  - injection H as <- <-. intros r [= <-]. split; [done|]. by intros s' [= <-].
  - by apply (fold_mov_ok ts).
  - intros r HE. destruct (gen_movi_ok _ _ _ _ _ _ _ HI Hok H) as [-> HI'].
    split; [done|]. intros s' ->. by injection HE as <-.
  - by apply (fold_un_ok ts).
  - by apply (fold_bin_ok ts).
  - by apply (fold_call_ok ts).
  - by apply (fold_other_ok ts).
Qed.

(** ** Blocks *)

(** The table before the operation at [pc]. *)
Fixpoint table_at (prog : list TCGOp) (ts : Temps) (pc : nat) {struct pc} : option Temps :=
  match pc, prog with
  | O, _ => Some ts
  | S pc, [] => None
  | S pc, o :: prog => '(ts, _) ← fold_op C o ts; table_at prog ts pc
  end.

Lemma fold_ops_at prog : forall ts prog' pc o, fold_ops C prog ts = Some prog' ->
  prog !! pc = Some o ->
  exists tp tn o', table_at prog ts pc = Some tp /\ fold_op C o tp = Some (tn, o') /\
    prog' !! pc = Some o' /\ table_at prog ts (S pc) = Some tn.
Proof.
  induction prog as [|o1 prog IH]; intros ts prog' pc o H Hpc; [done|].
  cbn [fold_ops] in H. apply bind_Some in H as ([ts1 o1'] & H1 & H).
  apply fmap_Some in H as (prog1 & H & ->). destruct pc as [|pc].
  - injection Hpc as <-. exists ts, ts1, o1'. cbn. by rewrite H1.
  - destruct (IH ts1 prog1 pc o H Hpc) as (tp & tn & o' & ?).
    exists tp, tn, o'. cbn [table_at]. by rewrite H1.
Qed.

Lemma fold_ops_length prog : forall ts prog', fold_ops C prog ts = Some prog' ->
  length prog' = length prog.
Proof.
  induction prog as [|o prog IH]; intros ts prog' H; [by injection H as <-|].
  apply bind_Some in H as ([ts1 o'] & _ & H). apply fmap_Some in H as (prog1 & H & ->).
  cbn. f_equal. by eapply IH.
Qed.

(** What an operation may be rewritten to. *)
Lemma fold_op_shape o ts ts' o' l : fold_op C o ts = Some (ts', o') -> is_label l o' = is_label l o.
Proof.
  intros H.
  destruct o; fold_cases H; try done; by simplify_eq.
Qed.

Lemma label_pos_fold prog l : forall ts prog', fold_ops C prog ts = Some prog' ->
  label_pos l prog' = label_pos l prog.
Proof.
  induction prog as [|o prog IH]; intros ts prog' H; [by injection H as <-|].
  apply bind_Some in H as ([ts1 o'] & H1 & H). apply fmap_Some in H as (prog1 & H & ->).
  cbn. rewrite (fold_op_shape _ _ _ _ l H1). by rewrite (IH ts1 prog1).
Qed.

Lemma label_pos_spec l prog : forall pc, label_pos l prog = Some pc ->
  prog !! pc = Some (op_set_label l).
Proof.
  induction prog as [|o prog IH]; intros pc H; [done|]. cbn in H.
  destruct (is_label l o) eqn:Hl.
  - injection H as <-. destruct o; try done. apply Nat.eqb_eq in Hl as ->. done.
  - apply fmap_Some in H as (pc' & H & ->). by apply IH.
Qed.

(** The table is right, or it is about to be cleared. *)
Definition at_pc (prog : list TCGOp) (ts : Temps) (pc : nat) (s : St) : Prop :=
  state_ok C s /\
  ((exists tp, table_at prog ts pc = Some tp /\ inv tp s) \/
   (exists l, prog !! pc = Some (op_set_label l))).

Lemma run_simulation prog ts prog' : context_ok C = true -> forallb (op_ok C) prog = true ->
  fold_ops C prog ts = Some prog' ->
  forall fuel pc s, at_pc prog ts pc s ->
  run C call_sem other_sem fuel prog pc s <> Undefined ->
  run C call_sem other_sem fuel prog' pc s = run C call_sem other_sem fuel prog pc s.
Proof.
  intros HC HP HF. induction fuel as [|fuel IH]; [done|]. intros pc s [Hok Hat] HR.
  cbn [run] in *. destruct (prog !! pc) as [o|] eqn:Ho.
  2: { rewrite (lookup_ge_None_2 prog'); [done|]. rewrite (fold_ops_length _ _ _ HF).
       by apply lookup_ge_None. }
  destruct (fold_ops_at _ _ _ _ _ HF Ho) as (tp & tn & o' & HT & HO & -> & HT').
  assert (op_ok C o = true) as Hop.
  { rewrite forallb_forall in HP. apply HP, list_elem_of_In. by eapply list_elem_of_lookup_2. }
  destruct (exec o s) as [r|] eqn:HE; [|done].
  assert (exec o' s = Some r /\ forall s', r = Next s' -> inv tn s') as [-> HN].
  { destruct Hat as [(tp' & HT2 & HI)|(l & Hl)].
    - assert (tp' = tp) as -> by congruence. by apply (fold_op_ok tp s o tn o').
    - assert (o = op_set_label l) as -> by congruence. injection HO as <- <-.
      by apply fold_clear_ok. }
  pose proof (exec_ok _ _ _ Hok HE) as Hok'. destruct r as [s'|l s'|c s']; cbn in Hok'; [| |done].
  - apply IH; [|done]. split; [done|]. left. exists tn. split; [done|]. by apply HN.
  - rewrite (label_pos_fold _ l _ _ HF). destruct (label_pos l prog) as [pc'|] eqn:Hl; [|done].
    apply IH; [|done]. split; [done|]. right. exists l. by apply label_pos_spec.
Qed.

End Simulation.
