(* ===== verification/TcgOptProps.v ===== *)
(** * What the TCG optimiser guarantees

    The optimised block runs like the original, the table of temporaries stays a
    system of rings, when the pass stops, how constants are folded, and the
    in-place rewriting of the argument buffer; and what goes wrong on blocks that
    move a 64-bit temporary to a 32-bit one. *)

From S2P Require Import Prelude TcgIr TcgOptimize TcgRing TcgFold TcgOptProofs.
Open Scope Z_scope.

(** ** When an operation stops the pass *)

Section Fails.
Context (C : TCGContext).
#[local] Abbreviation nb_temps := (nb_temps C).
#[local] Abbreviation nb_globals := (nb_globals C).

(** The sources of a binary operation after propagation and exchange. *)
Definition folded_sources (ts : Temps) (b : binop) (x y : nat) : nat * nat :=
  let x := propagate ts x in
  let y := propagate ts y in
  if commutative b && is_const ts x then (y, x) else (x, y).

(** [and]/[or] of a constant with itself into a temporary that may become a copy of
    it, and constant shifts and rotations by a count C does not define. *)
Definition fold_fails (ts : Temps) (o : TCGOp) : bool :=
  match o with
  | op_bin b w d x y =>
      let '(x, y) := folded_sources ts b x y in
      match b with
      | op_and | op_or => Nat.eqb x y && negb (Nat.eqb x d) && copies_tracked C x d && is_const ts x
      | _ => is_const ts x && is_const ts y && negb (count_defined b w (val (ts y)))
      end
  | _ => false
  end.

Lemma gen_movi_total w d v ts : temps_wf C ts -> (d < nb_temps)%nat ->
  tcg_opt_gen_movi C w d v ts <> None.
Proof.
  intros W Hd. unfold tcg_opt_gen_movi. by destruct (reset_temp_ok C d ts W Hd) as (? & -> & _).
Qed.

Lemma gen_mov_none w d x ts : temps_wf C ts -> (d < nb_temps)%nat -> d <> x ->
  state (ts x) <> TCG_TEMP_COPY ->
  tcg_opt_gen_mov C w d x ts = None <-> copies_tracked C x d && is_const ts x = true.
Proof.
  intros W Hd Hne HS. unfold tcg_opt_gen_mov.
  destruct (reset_temp_ok C d ts W Hd) as (ts' & -> & F). cbn.
  unfold is_const, is_state. rewrite (bool_decide_false (state (ts' x) = TCG_TEMP_COPY)).
  2: { intros H. by apply (fg_state C _ _ _ F) in H. }
  rewrite (bool_decide_ext (state (ts' x) = TCG_TEMP_CONST) (state (ts x) = TCG_TEMP_CONST))
    by (apply (fg_const C _ _ _ F); done).
  by destruct (copies_tracked C x d), (bool_decide (state (ts x) = TCG_TEMP_CONST)).
Qed.

Lemma fold_bin_const_none b w d x y ts : temps_wf C ts -> (d < nb_temps)%nat ->
  (is_const ts y = true -> in_u 64 (val (ts y))) ->
  fold_bin_const C b w d x y ts = None <->
  is_const ts x && is_const ts y && negb (count_defined b w (val (ts y))) = true.
Proof.
  intros W Hd Hy. unfold fold_bin_const.
  destruct (is_const ts x && is_const ts y) eqn:Hc; cbn [andb].
  - apply andb_true_iff in Hc as [_ Hcy]. rewrite negb_true_iff, <- (fold_none b w (val (ts x)))
      by auto. rewrite bind_None. split; [|by left].
    intros [H|(r & _ & H)]; [done|]. by apply gen_movi_total in H.
  - by destruct (reset_temp_ok C d ts W Hd) as (? & -> & _).
Qed.

Lemma reset_temps_total l : forall ts, temps_wf C ts -> Forall (fun t => t < nb_temps)%nat l ->
  exists ts', reset_temps l nb_temps nb_globals ts = Some ts' /\ temps_wf C ts'.
Proof.
  induction l as [|t l IH]; intros ts W Hl; [by eexists|]. apply Forall_cons in Hl as [Ht Hl].
  cbn. destruct (reset_temp_ok C t ts W Ht) as (ts1 & -> & F). cbn. apply IH; [apply F|done].
Qed.

Lemma simplify_bin_none b w d x y ts : temps_wf C ts -> (d < nb_temps)%nat ->
  state (ts x) <> TCG_TEMP_COPY -> (is_const ts y = true -> in_u 64 (val (ts y))) ->
  simplify_bin C b w d x y ts = None <->
  match b with
  | op_and | op_or => Nat.eqb x y && negb (Nat.eqb x d) && copies_tracked C x d && is_const ts x
  | _ => is_const ts x && is_const ts y && negb (count_defined b w (val (ts y)))
  end = true.
Proof.
  intros W Hd HS Hy. pose proof (fold_bin_const_none b w d x y ts W Hd Hy) as HF.
  assert (is_const ts x = false ->
    (if is_copy_of ts d x || Nat.eqb d x then Some (ts, op_nop) else tcg_opt_gen_mov C w d x ts)
    <> None) as Hmov.
  { intros Hc. destruct (is_copy_of ts d x); [done|]. cbn.
    destruct (Nat.eqb_spec d x) as [|Hne]; [done|].
    intros [_ H]%gen_mov_none%andb_true_iff; [congruence|done..]. }
  destruct b; cbn [simplify_bin]; try exact HF.
  1,2,6-10: destruct (is_const ts x) eqn:Hc; [exact HF|];
    destruct (is_zero ts y); [|exact HF]; split; [by intros ?%Hmov|done].
  1: { destruct (is_zero ts y); [|exact HF]. cbn [count_defined]. rewrite andb_false_r.
       split; [|done]. by intros ?%gen_movi_total. }
  all: destruct (Nat.eqb x y) eqn:Hxy; cbn [andb];
    [|cbn [count_defined] in HF; rewrite andb_false_r in HF; done];
    destruct (Nat.eqb_spec x d) as [|Hne]; [done|]; by apply gen_mov_none.
Qed.

Lemma fold_mov_total w d x ts : temps_wf C ts -> (d < nb_temps)%nat -> (x < nb_temps)%nat ->
  fold_mov C w d x ts <> None.
Proof.
  intros W Hd Hx. unfold fold_mov. destruct (propagate_ok C ts x W Hx) as (_ & _ & HS & _).
  destruct (is_copy_of ts (propagate ts x) d); [done|]. cbn.
  destruct (Nat.eqb_spec d (propagate ts x)) as [|Hne]; [done|].
  destruct (is_const ts (propagate ts x)) eqn:Hc; [by apply gen_movi_total|].
  intros [_ H]%gen_mov_none%andb_true_iff; [congruence|done..].
Qed.

Lemma fold_op_none ts o : context_ok C = true -> op_ok C o = true -> temps_wf C ts ->
  (forall t, (t < nb_temps)%nat -> is_const ts t = true -> in_u 64 (val (ts t))) ->
  fold_op C o ts = None <-> fold_fails ts o = true.
Proof.
  intros HC Hok W HV.
  assert (forall l, forallb (temp_ok C) l = true ->
    exists ts', reset_temps l nb_temps nb_globals ts = Some ts') as HR.
  { intros l Hl%temps_in. destruct (reset_temps_total l ts W Hl) as (ts' & H & _). by exists ts'. }
  destruct o; cbn [op_ok fold_op fold_fails] in *; rewrite ?andb_true_iff, ?has_type_iff in Hok;
    destruct_and?; try done.
  - split; [|done]. by intros ?%fold_mov_total.
  - split; [|done]. by intros ?%gen_movi_total.
  - split; [|done]. unfold fold_un.
    destruct (is_const ts (propagate ts src)); [by intros ?%gen_movi_total|].
    by destruct (reset_temp_ok C dst ts W) as (? & -> & _).
  - destruct (propagate_ok C ts src1) as (Hx & _ & HSx & _); [done..|].
    destruct (propagate_ok C ts src2) as (Hy & _ & HSy & _); [done..|].
    unfold fold_bin, folded_sources.
    destruct (commutative b && is_const ts (propagate ts src1)); apply simplify_bin_none; auto.
  - split; [|done]. unfold fold_call. destruct (call_is_pure flags).
    + cbn. by destruct (HR outs) as (? & ->).
    + destruct (reset_temps_total (seq 0 nb_globals) ts W) as (ts1 & -> & W1).
      { apply Forall_forall. intros t Ht%elem_of_seq. apply Nat.leb_le in HC. lia. }
      cbn. destruct (reset_temps_total outs ts1 W1) as (ts2 & -> & _); [by apply temps_in|done].
  - split; [|done]. unfold fold_other. by destruct (HR outs) as (? & ->).
Qed.

End Fails.

(** ** The size of the argument buffer *)

(** The words of [gen_opparam_buf] an operation takes; a call has its counts, its
    flags and the total besides its operands. *)
Definition nb_args (o : TCGOp) : nat :=
  match o with
  | op_nop => 0
  | op_mov _ _ _ | op_movi _ _ _ | op_un _ _ _ _ => 2
  | op_bin _ _ _ _ _ => 3
  | op_call outs ins _ => length outs + length ins + 3
  | op_set_label _ | op_jmp _ | op_br _ => 1
  | op_brcond _ _ _ _ _ => 4
  | op_other _ _ outs ins consts => length outs + length ins + length consts
  end.

Definition buffer_words (prog : list TCGOp) : nat := sum_list (nb_args <$> prog).

Lemma fold_op_words C o ts ts' o' : fold_op C o ts = Some (ts', o') ->
  (nb_args o' <= nb_args o)%nat.
Proof.
  intros H.
  destruct o; fold_cases H; try (injection H as <- <-); cbn; repeat case_match; rewrite ?length_fmap; lia.
Qed.

(** ** Examples *)

(** Two globals, then two 64-bit and two 32-bit temporaries. *)
Definition demo_ctx : TCGContext :=
  {| nb_globals := 2; nb_temps := 8;
     temp_type t := if (t <? 2)%nat || (4 <=? t)%nat then TCG_TYPE_I32 else TCG_TYPE_I64;
     temp_local _ := false |}.

Definition no_calls (flags : Z) (ins globals : list Z) (w : unit) : option (effect unit * list Z) :=
  None.

(** Operation 1 is an unsigned comparison, operation 2 leaves the block. *)
Definition demo_other (opc : nat) (consts ins : list Z) (w : unit) : option (effect unit) :=
  match opc, ins with
  | 1%nat, [x; y] => Some (Returns [b2z (tci_compare 32 x y TCG_COND_LTU)] w)
  | 2%nat, _ => Some (Leaves (nth 0 consts 0) w)
  | _, _ => None
  end.

(** [t4 = 6; t5 = t4 * g0; t6 = t5; t7 = t6 + 0; if (t7 < g1) goto 1; g0 = t7; 1: exit] *)
Definition demo_prog : list TCGOp :=
  [op_movi TCG_TYPE_I32 4 6; op_bin op_mul TCG_TYPE_I32 5 4 0; op_mov TCG_TYPE_I32 6 5;
   op_movi TCG_TYPE_I32 4 0; op_bin op_add TCG_TYPE_I32 7 6 4; op_other 1 false [4%nat] [7; 6]%nat [];
   op_brcond TCG_TYPE_I32 7 1 TCG_COND_LTU 1; op_mov TCG_TYPE_I32 0 7; op_set_label 1;
   op_other 2 true [] [] [17]].

Definition demo_opt : list TCGOp :=
  [op_movi TCG_TYPE_I32 4 6; op_bin op_mul TCG_TYPE_I32 5 0 4; op_mov TCG_TYPE_I32 6 5;
   op_movi TCG_TYPE_I32 4 0; op_mov TCG_TYPE_I32 7 5; op_other 1 false [4%nat] [5; 5]%nat [];
   op_brcond TCG_TYPE_I32 7 1 TCG_COND_LTU 1; op_mov TCG_TYPE_I32 0 7; op_set_label 1;
   op_other 2 true [] [] [17]].

Definition zero_temps : Temps := fun _ => mkInfo TCG_TEMP_UNDEF 0 0 0.

Example demo_optimized : tcg_optimize demo_ctx demo_prog zero_temps = Some demo_opt.
Proof. reflexivity. Qed.

(** [and] of a constant with itself, and a rotation of a constant by zero. *)
Definition and_prog : list TCGOp :=
  [op_movi TCG_TYPE_I32 4 5; op_bin op_and TCG_TYPE_I32 5 4 4].
Definition rot_prog : list TCGOp :=
  [op_movi TCG_TYPE_I32 4 5; op_movi TCG_TYPE_I32 5 0; op_bin op_rotl TCG_TYPE_I32 6 4 5].

(** [t3 = t2; t4 = (int32_t)t2; t2 = 5; t2 = t3 + t2]: the 64-bit copy [t3] is rebased
    on the truncated [t4]. *)
Definition narrow_prog : list TCGOp :=
  [op_mov TCG_TYPE_I64 3 2; op_mov TCG_TYPE_I32 4 2; op_movi TCG_TYPE_I64 2 5;
   op_bin op_add TCG_TYPE_I64 2 3 2].
Definition narrow_opt : list TCGOp :=
  [op_mov TCG_TYPE_I64 3 2; op_mov TCG_TYPE_I32 4 2; op_movi TCG_TYPE_I64 2 5;
   op_bin op_add TCG_TYPE_I64 2 4 2].

Definition demo_state (v : Z) : State unit := mkState [7; 9; v; 0; 0; 0; 0; 0] ().

Definition demo_run (prog : list TCGOp) (v : Z) : outcome unit :=
  run demo_ctx no_calls demo_other 20 prog 0 (demo_state v).

(** ** Properties *)

(** C21: optimisation preserves the meaning of a block.  For every block whose
    operands have the types the operation reference demands, whatever the helpers
    and the operations the optimiser does not know compute: if the optimiser returns
    a block, that block run with any amount of fuel from any state gives exactly the
    outcome of the original - the same final values of all temporaries, the same exit
    code, the same position when the fuel runs out - unless the original reaches
    undefined behaviour. *)
Theorem tcg_optimize_correct {World : Type} (C : TCGContext)
    (call_sem : Z -> list Z -> list Z -> World -> option (effect World * list Z))
    (other_sem : nat -> list Z -> list Z -> World -> option (effect World))
    (prog prog' : list TCGOp) (ts : Temps) (fuel : nat) (s : State World) :
  context_ok C = true -> forallb (op_ok C) prog = true -> state_ok C s ->
  tcg_optimize C prog ts = Some prog' ->
  run C call_sem other_sem fuel prog 0 s <> Undefined ->
  run C call_sem other_sem fuel prog' 0 s = run C call_sem other_sem fuel prog 0 s.
Proof.
  intros HC HP Hok HF. apply (run_simulation C _ _ prog (clear_temps (nb_temps C) ts)); try done.
  split; [done|]. left. eexists. split; [done|]. by apply inv_clear.
Qed.

Lemma demo_state_ok v : in_u 64 v -> state_ok demo_ctx (demo_state v).
Proof.
  intros Hv. split; [done|]. intros t x Hx.
  do 8 (destruct t as [|t]; [injection Hx as <-; try done; by apply uint_id|]). done.
Qed.

Lemma tcg_optimize_correct_witness :
  demo_run demo_opt 1 = demo_run demo_prog 1 /\
  demo_run demo_prog 1 = Finished (Some 17) (mkState [42; 9; 1; 0; 0; 42; 42; 42] ()).
Proof.
  split; [|reflexivity].
  apply (tcg_optimize_correct demo_ctx no_calls demo_other demo_prog demo_opt zero_temps 20);
    [reflexivity|reflexivity|apply demo_state_ok; split; lia|reflexivity|done].
Defined.

(** [reset_temp] ends and keeps the table a system of rings.  From a table in
    which every copy points to a representative of its type and every representative
    heads the ring of its copies, it returns such a table, in which nothing is known
    of the temporary, the constants are the same, and what is recorded as a copy was
    a copy of the same representative, or has been moved to another copy of it. *)
Lemma reset_temp_correct (C : TCGContext) (d : nat) (ts : Temps) :
  temps_wf C ts -> (d < nb_temps C)%nat ->
  exists ts', reset_temp d (nb_temps C) (nb_globals C) ts = Some ts' /\ temps_wf C ts' /\
    state (ts' d) = TCG_TEMP_ANY /\
    (forall u, u <> d -> state (ts' u) = TCG_TEMP_CONST <-> state (ts u) = TCG_TEMP_CONST) /\
    (forall u b', copy C ts' u b' -> exists b, copy C ts u b /\ (b' = b \/ copy C ts b' b)).
Proof.
  intros W Hd. destruct (reset_temp_ok C d ts W Hd) as (ts' & H & F). exists ts'.
  split; [done|]. split; [apply F|]. split; [apply F|]. split; intros; by apply F.
Qed.

(** The table in which 6 and 7 are copies of 5. *)
Definition demo_ring : Temps :=
  add_copy 7 5 (add_copy 6 5 (make_base 5 (clear_temps 8 zero_temps))).

Lemma demo_ring_wf : temps_wf demo_ctx demo_ring.
Proof.
  destruct (wf_make_base demo_ctx 5 (clear_temps 8 zero_temps)) as (W1 & HB1 & _); [|cbn; lia|done|].
  { apply (inv_clear demo_ctx zero_temps (demo_state 1)), demo_state_ok. by split. }
  destruct (wf_add_copy demo_ctx 6 5 _ W1) as [W2 _]; [cbn; lia|done|done|done|].
  apply (wf_add_copy demo_ctx 7 5 _ W2); [cbn; lia|done|by split; cbn; [lia|]|done].
Qed.

Lemma reset_temp_correct_witness : exists ts', reset_temp 5 8 2 demo_ring = Some ts' /\
  temps_wf demo_ctx ts' /\ state (ts' 5%nat) = TCG_TEMP_ANY.
Proof.
  destruct (reset_temp_correct demo_ctx 5 demo_ring demo_ring_wf) as (ts' & ? & ? & ? & _);
    [cbn; lia|by exists ts'].
Defined.

(** Constant folding computes what the operation computes.  A folded binary
    operation has the value of the operation on the constants at its width; folding
    is undefined exactly when a shift count is out of range or a rotation count is
    zero or out of range; folded unary operations are always right. *)
Lemma do_constant_folding_correct (w : TCGType) (x y : Z) :
  (forall b r, do_constant_folding b w x y = Some r ->
    eval_bin b (bits w) (uint (bits w) x) (uint (bits w) y) = Some (uint (bits w) r)) /\
  (forall b, in_u 64 y -> do_constant_folding b w x y = None <-> count_defined b w y = false) /\
  (forall u, unop_width u w = true ->
    uint (bits w) (do_constant_folding1 u w x) = eval_un u (bits w) (uint (bits w) x)).
Proof.
  split; [|split]; intros; [by apply fold_bin_correct|by apply fold_none|by apply fold_un_correct].
Qed.

(** The rewriting is in place.  The optimised block has as many operations as
    the original, and after any number of operations the arguments written take no
    more room than the arguments read, so [gen_args] never overtakes [args] in the
    shared buffer. *)
Lemma tcg_optimize_in_place (C : TCGContext) (prog prog' : list TCGOp) (ts : Temps) :
  tcg_optimize C prog ts = Some prog' ->
  length prog' = length prog /\
  forall n, (buffer_words (take n prog') <= buffer_words (take n prog))%nat.
Proof.
  intros H. split; [by eapply fold_ops_length|].
  unfold tcg_optimize, tcg_constant_folding in H. revert H. generalize (clear_temps (nb_temps C) ts).
  clear ts. revert prog'. induction prog as [|o prog IH]; intros prog' ts H n.
  - injection H as <-. done.
  - apply bind_Some in H as ([ts1 o'] & H1 & H). apply fmap_Some in H as (prog1 & H & ->).
    destruct n as [|n]; [done|]. unfold buffer_words in *. cbn.
    pose proof (fold_op_words _ _ _ _ _ H1). specialize (IH prog1 ts1 H n). lia.
Qed.

(** C22: when the optimiser stops or goes wrong.  On a table of rings whose constants are
    64-bit values, every operation of the documented form is rewritten except in two cases:
    [and]/[or] of a constant temporary with itself where the move would be recorded as a
    copy (an assertion of [tcg_opt_gen_mov] fails), and the folding of a shift or rotation
    whose constant count is one C leaves undefined.  Three blocks it does not treat as it
    should:  [and] of a constant
    with itself stops it; rotating a constant by zero, which is defined, makes it
    evaluate an undefined shift; and with a move from a 64-bit to a 32-bit temporary,
    which the translators emit to truncate, it replaces a 64-bit operand by the
    truncated one and changes the result. *)
Theorem tcg_optimize_limits :
  (forall (C : TCGContext) (ts : Temps) (o : TCGOp),
    context_ok C = true -> op_ok C o = true -> temps_wf C ts ->
    (forall t, (t < nb_temps C)%nat -> is_const ts t = true -> in_u 64 (val (ts t))) ->
    fold_op C o ts = None <-> fold_fails C ts o = true) /\
  (tcg_optimize demo_ctx and_prog zero_temps = None /\
   demo_run and_prog 1 = Finished None (mkState [7; 9; 1; 0; 5; 5; 0; 0] ())) /\
  (tcg_optimize demo_ctx rot_prog zero_temps = None /\
   demo_run rot_prog 1 = Finished None (mkState [7; 9; 1; 0; 5; 0; 5; 0] ())) /\
  (tcg_optimize demo_ctx narrow_prog zero_temps = Some narrow_opt /\
   demo_run narrow_prog 4294967303 =
     Finished None (mkState [7; 9; 4294967308; 4294967303; 7; 0; 0; 0] ()) /\
   demo_run narrow_opt 4294967303 =
     Finished None (mkState [7; 9; 12; 4294967303; 7; 0; 0; 0] ())).
Proof. split; [exact fold_op_none|repeat split; reflexivity]. Qed.

Lemma tcg_optimize_limits_witness :
  fold_op demo_ctx (op_bin op_and TCG_TYPE_I32 4 6 7) demo_ring <> None.
Proof.
  intros H.
  apply (proj1 tcg_optimize_limits demo_ctx demo_ring (op_bin op_and TCG_TYPE_I32 4 6 7)) in H;
    [discriminate H|reflexivity|reflexivity|apply demo_ring_wf|].
  intros t Ht Hc. cbn in Ht. do 8 (destruct t as [|t]; [discriminate Hc|]). lia.
Defined.
