(* ===== verification/TcgLive.v ===== *)
(** * Liveness analysis of TCG operations

    Model of [tcg_liveness_analysis] of src/emul/qemu/tcg/tcg.c: one pass over the
    operations of a block, from the last to the first, that replaces by [nop] the operations
    whose results nobody reads and marks, for the register allocator, the arguments whose
    value is not needed after the operation.

    What the marks mean is a semantics of its own, [run_la]: after an operation the values
    of its marked arguments are lost, and so are those of the plain temporaries at the end
    of a basic block; whatever they are replaced by, the block must have the same effect.

    The flags of the operations without a constructor of their own come from the table
    [tcg_op_defs], a parameter.  The operations carry their arguments, so the walk through
    [gen_opparam_buf] always ends at its start. *)

From S2P Require Import Prelude TcgIr.
Open Scope Z_scope.

Definition TCG_OPF_BB_END : Z := 1.
Definition TCG_OPF_CALL_CLOBBER : Z := 2.
Definition TCG_OPF_SIDE_EFFECTS : Z := 4.

(** What the pass reads of [tcg_op_defs], and the two opcodes it treats apart. *)
Record OpTable := mkTable {
  op_flags : nat -> Z;
  INDEX_op_discard : nat;
  INDEX_op_debug_insn_start : nat }.

Definition has_flag (flags f : Z) : bool := negb (Z.land flags f =? 0).

Section Live.
Context (C : TCGContext) (T : OpTable).

(** ** The arguments and flags of an operation *)

Definition oargs (o : TCGOp) : list nat :=
  match o with
  | op_mov _ d _ | op_movi _ d _ | op_un _ _ d _ | op_bin _ _ d _ _ => [d]
  | op_call outs _ _ | op_other _ _ outs _ _ => outs
  | _ => []
  end.

Definition iargs (o : TCGOp) : list nat :=
  match o with
  | op_mov _ _ s | op_un _ _ _ s | op_jmp s => [s]
  | op_bin _ _ _ x y | op_brcond _ x y _ _ => [x; y]
  | op_call _ ins _ | op_other _ _ _ ins _ => ins
  | _ => []
  end.

Definition flags_of (o : TCGOp) : Z :=
  match o with
  | op_jmp _ | op_br _ | op_brcond _ _ _ _ _ => Z.lor TCG_OPF_BB_END TCG_OPF_SIDE_EFFECTS
  | op_call _ _ _ => TCG_OPF_SIDE_EFFECTS
  | op_other opc _ _ _ _ => op_flags T opc
  | _ => 0
  end.

(** ** The pass *)

(** [dead_temps[arg]] *)
Definition is_dead (dead : list bool) (t : nat) : bool := bool_decide (dead !! t = Some true).

(** [memset(dead_temps, 0, s->nb_globals)] *)
Definition globals_live (dead : list bool) : list bool :=
  replicate (nb_globals C) false ++ drop (nb_globals C) dead.

Definition tcg_la_bb_end : list bool :=
  replicate (nb_globals C) false ++
  ((fun i => negb (temp_local C i)) <$> seq (nb_globals C) (nb_temps C - nb_globals C)).

(** The loops over the arguments from number [i]: a dead one gets its bit, then all are
    marked dead (the outputs) or live (the inputs). *)
Fixpoint mark_args (v : bool) (i : nat) (args : list nat) (dead_args : Z) (dead : list bool)
    : Z * list bool :=
  match args with
  | [] => (dead_args, dead)
  | arg :: args =>
      mark_args v (S i) args
        (if is_dead dead arg then Z.lor dead_args (Z.shiftl 1 (Z.of_nat i)) else dead_args)
        (<[arg := v]> dead)
  end.

Definition all_dead (dead : list bool) (outs : list nat) : bool := forallb (is_dead dead) outs.

(** [op_dead_args] is an array of [uint16_t]. *)
Definition la_keep (globals : list bool -> list bool) (o : TCGOp) (dead : list bool)
    : TCGOp * Z * list bool :=
  let '(m, dead) := mark_args true 0 (oargs o) 0 dead in
  let dead := globals dead in
  let '(m, dead) := mark_args false (length (oargs o)) (iargs o) m dead in
  (o, uint16_t m, dead).

Definition la_default (o : TCGOp) (dead : list bool) : TCGOp * Z * list bool :=
  if negb (has_flag (flags_of o) TCG_OPF_SIDE_EFFECTS) && negb (Nat.eqb (length (oargs o)) 0)
     && all_dead dead (oargs o)
  then (op_nop, 0, dead)
  else
    la_keep (fun dead =>
      if has_flag (flags_of o) TCG_OPF_BB_END then tcg_la_bb_end
      else if has_flag (flags_of o) TCG_OPF_CALL_CLOBBER then globals_live dead else dead) o dead.

(** The entry of [op_dead_args] of the operations that are skipped or removed is not written
    and not read; here it is 0. *)
Definition la_op (o : TCGOp) (dead : list bool) : TCGOp * Z * list bool :=
  match o with
  | op_call outs ins flags =>
      if has_flag flags TCG_CALL_PURE && all_dead dead outs then (op_nop, 0, dead)
      else la_keep (fun dead => if has_flag flags TCG_CALL_CONST then dead else globals_live dead) o dead
  | op_set_label _ => (o, 0, tcg_la_bb_end)
  | op_nop => (o, 0, dead)
  | op_other opc _ outs _ _ =>
      if Nat.eqb opc (INDEX_op_debug_insn_start T) then (o, 0, dead)
      else if Nat.eqb opc (INDEX_op_discard T) then
        (o, 0, match outs with t :: _ => <[t := true]> dead | [] => dead end)
      else la_default o dead
  | _ => la_default o dead
  end.

(** The loop, from the last operation to the first; before it all temporaries are dead. *)
Fixpoint la_ops (prog : list TCGOp) : list (TCGOp * Z) * list bool :=
  match prog with
  | [] => ([], replicate (nb_temps C) true)
  | o :: prog =>
      let '(prog, dead) := la_ops prog in
      let '(o, m, dead) := la_op o dead in
      ((o, m) :: prog, dead)
  end.

Definition tcg_liveness_analysis (prog : list TCGOp) : list (TCGOp * Z) := fst (la_ops prog).

(** ** What the marks permit *)

(** The arguments from number [i] whose bit is set. *)
Fixpoint marked (i : nat) (args : list nat) (m : Z) : list nat :=
  match args with
  | [] => []
  | t :: args => if Z.testbit m (Z.of_nat i) then t :: marked (S i) args m else marked (S i) args m
  end.

Definition ends_bb (o : TCGOp) : bool :=
  match o with op_set_label _ => true | _ => has_flag (flags_of o) TCG_OPF_BB_END end.

Definition mem (l : list nat) (t : nat) : bool := existsb (Nat.eqb t) l.

(** A value is lost with its last use: a marked output, a marked input that is not an
    output as well, and at the end of a basic block every plain temporary. *)
Definition lost (o : TCGOp) (m : Z) (t : nat) : bool :=
  mem (marked 0 (oargs o) m) t
  || (mem (marked (length (oargs o)) (iargs o) m) t && negb (mem (oargs o) t))
  || (ends_bb o && is_dead tcg_la_bb_end t).

Context {World : Type}.
Context (call_sem : Z -> list Z -> list Z -> World -> option (effect World * list Z)).
Context (other_sem : nat -> list Z -> list Z -> World -> option (effect World)).

Definition clobber (junk : nat -> Z) (l : nat -> bool) (s : State World) : State World :=
  mkState (imap (fun t v => if l t then junk t else v) (vals s)) (world s).

Definition exec_la (junk : nat -> Z) (o : TCGOp) (m : Z) (s : State World) : option (step World) :=
  st ← exec_op C call_sem other_sem o s;
  Some match st with
       | Next s => Next (clobber junk (lost o m) s)
       | Goto l s => Goto l (clobber junk (lost o m) s)
       | Exit c s => Exit c s
       end.

(** The block after the analysis, the lost values replaced by [junk], a new choice at each
    step. *)
Fixpoint run_la (junk : nat -> nat -> Z) (fuel : nat) (prog : list (TCGOp * Z)) (pc : nat)
    (s : State World) : outcome World :=
  match fuel with
  | O => OutOfFuel pc s
  | S fuel =>
      match prog !! pc with
      | None => Finished None s
      | Some (o, m) =>
          match exec_la (junk fuel) o m s with
          | None => Undefined
          | Some (Next s) => run_la junk fuel prog (S pc) s
          | Some (Exit c s) => Finished (Some c) s
          | Some (Goto l s) =>
              match label_pos l (fst <$> prog) with
              | None => Undefined
              | Some pc => run_la junk fuel prog pc s
              end
          end
      end
  end.

(** ** Blocks in the documented form

    Outputs are distinct; a plain temporary is written in its basic block before it is read
    there (tcg/README: temporaries do not survive the end of a basic block). *)

Definition outs_ok (o : TCGOp) : bool := bool_decide (NoDup (oargs o)).

Definition shape_ok (o : TCGOp) : bool :=
  match o with
  | op_other opc _ outs ins _ =>
      (negb (Nat.eqb opc (INDEX_op_debug_insn_start T)) ||
        (Nat.eqb (length outs) 0 && Nat.eqb (length ins) 0)) &&
      (negb (Nat.eqb opc (INDEX_op_discard T)) ||
        (Nat.eqb (length outs) 1 && Nat.eqb (length ins) 0)) &&
      (negb (Nat.eqb opc (INDEX_op_debug_insn_start T) || Nat.eqb opc (INDEX_op_discard T))
        || (op_flags T opc =? 0))
  | _ => true
  end.

Definition readable (defined : list nat) (t : nat) : bool :=
  negb (is_dead tcg_la_bb_end t) || mem defined t.

Fixpoint temps_ok (defined : list nat) (prog : list TCGOp) : bool :=
  match prog with
  | [] => true
  | o :: prog =>
      forallb (readable defined) (iargs o) &&
      temps_ok (if ends_bb o then [] else oargs o ++ defined) prog
  end.

(** What the flags promise about the operations of a block, from the comments of tcg.h. *)
Record sem_ok (prog : list TCGOp) : Prop := {
  call_arity outs ins flags vs gs w rs w' gs' : op_call outs ins flags ∈ prog ->
    call_sem flags vs gs w = Some (Returns rs w', gs') -> length rs = length outs;
  call_pure flags vs gs w e gs' : has_flag flags TCG_CALL_PURE = true ->
    call_sem flags vs gs w = Some (e, gs') -> exists rs, e = Returns rs w;
  call_const flags vs gs gs2 w : has_flag flags TCG_CALL_CONST = true ->
    fst <$> call_sem flags vs gs w = fst <$> call_sem flags vs gs2 w;
  other_arity opc se outs ins consts vs w rs w' : op_other opc se outs ins consts ∈ prog ->
    other_sem opc consts vs w = Some (Returns rs w') -> length rs = length outs;
  other_pure opc consts vs w e : has_flag (op_flags T opc) TCG_OPF_SIDE_EFFECTS = false ->
    other_sem opc consts vs w = Some e -> exists rs, e = Returns rs w;
  other_leaves opc consts vs w c w' : other_sem opc consts vs w = Some (Leaves c w') ->
    has_flag (op_flags T opc) TCG_OPF_BB_END = true \/
    has_flag (op_flags T opc) TCG_OPF_CALL_CLOBBER = true }.

End Live.
