(* ===== verification/TcgLiveProofs.v ===== *)
(** * Correctness of the liveness analysis

    Two states agree on what is live, an operation kept by the pass reads only live
    temporaries, its marks are on dead ones, and a removed operation writes only dead ones;
    so the block after the pass runs in lock step with the original, whatever replaces the
    values that are lost. *)

From S2P Require Import Prelude TcgIr TcgOptimize TcgRing TcgFold TcgOptProofs TcgLive.
Open Scope Z_scope.

(** ** Dead sets *)

Section Marks.
Context (C : TCGContext).

Lemma is_dead_insert_ne D t u v : u <> t -> is_dead (<[t := v]> D) u = is_dead D u.
Proof. intros H. unfold is_dead. by rewrite list_lookup_insert_ne. Qed.

Lemma is_dead_insert_true D t : (t < length D)%nat -> is_dead (<[t := true]> D) t = true.
Proof. intros H. unfold is_dead. rewrite list_lookup_insert_eq by done. by apply bool_decide_true. Qed.

Lemma is_dead_insert_false D t : is_dead (<[t := false]> D) t = false.
Proof.
  unfold is_dead. apply bool_decide_false. intros H. apply list_lookup_insert_Some in H as [(_ & ? & _)|(? & _)];
    congruence.
Qed.

Lemma is_dead_globals_live D u :
  is_dead (globals_live C D) u = negb (u <? nb_globals C)%nat && is_dead D u.
Proof.
  unfold is_dead, globals_live. destruct (Nat.ltb_spec u (nb_globals C)); cbn.
  - apply bool_decide_false. rewrite lookup_app_l by (by rewrite length_replicate).
    rewrite lookup_replicate_2 by done. congruence.
  - rewrite lookup_app_r by (by rewrite length_replicate). rewrite length_replicate, lookup_drop.
    by replace (nb_globals C + (u - nb_globals C))%nat with u by lia.
Qed.

Lemma is_dead_bb_end u : is_dead (tcg_la_bb_end C) u =
  negb (u <? nb_globals C)%nat && (u <? nb_temps C)%nat && negb (temp_local C u).
Proof.
  unfold is_dead, tcg_la_bb_end. destruct (Nat.ltb_spec u (nb_globals C)); cbn [negb andb].
  - apply bool_decide_false. rewrite lookup_app_l by (by rewrite length_replicate).
    rewrite lookup_replicate_2 by done. congruence.
  - rewrite lookup_app_r by (by rewrite length_replicate). rewrite length_replicate, list_lookup_fmap.
    destruct (Nat.ltb_spec u (nb_temps C)); cbn [negb andb].
    + rewrite lookup_seq_lt by lia. replace (nb_globals C + (u - nb_globals C))%nat with u by lia.
      cbn [fmap option_fmap option_map]. destruct (temp_local C u); [by apply bool_decide_false|by apply bool_decide_true].
    + rewrite lookup_seq_ge by lia. by apply bool_decide_false.
Qed.

Lemma mark_args_other v i args m D u : (u ∉ args) ->
  is_dead (snd (mark_args v i args m D)) u = is_dead D u.
Proof.
  revert i m D. induction args as [|t args IH]; intros i m D Hu; [done|].
  apply not_elem_of_cons in Hu as [Hne Hu]. cbn. rewrite IH by done. by apply is_dead_insert_ne.
Qed.

Lemma mark_args_live i args m D u : (u ∈ args \/ is_dead D u = false) ->
  is_dead (snd (mark_args false i args m D)) u = false.
Proof.
  revert i m D. induction args as [|t args IH]; intros i m D Hu; cbn.
  - destruct Hu as [Hu|]; [by apply not_elem_of_nil in Hu|done].
  - apply IH. destruct (decide (u = t)) as [->|Hne]; [right; apply is_dead_insert_false|].
    rewrite is_dead_insert_ne by done. destruct Hu as [[?|?]%elem_of_cons|?]; [done|by left|by right].
Qed.

Lemma mark_args_length v i args m D : length (snd (mark_args v i args m D)) = length D.
Proof.
  revert i m D. induction args as [|t args IH]; intros i m D; [done|]. cbn. by rewrite IH, length_insert.
Qed.

Lemma mark_args_dead i args m D u : (u ∈ args) -> (u < length D)%nat ->
  is_dead (snd (mark_args true i args m D)) u = true.
Proof.
  revert i m D. induction args as [|t args IH]; intros i m D Hu Hl; [by apply not_elem_of_nil in Hu|]. cbn.
  destruct (decide (u ∈ args)) as [Hin|Hin]; [apply IH; [done|by rewrite length_insert]|].
  rewrite mark_args_other by done. apply elem_of_cons in Hu as [->|?]; [by apply is_dead_insert_true|done].
Qed.

(** *** The bits *)

Lemma testbit_set m i j : 0 <= i -> 0 <= j ->
  Z.testbit (Z.lor m (Z.shiftl 1 i)) j = Z.testbit m j || (j =? i).
Proof.
  intros Hi Hj. rewrite Z.lor_spec, Z.shiftl_1_l, Z.pow2_bits_eqb by done. f_equal. apply Z.eqb_sym.
Qed.

(** Only the bits of the arguments change. *)
Lemma mark_args_bits v args : forall i m D j, 0 <= j < Z.of_nat i \/ Z.of_nat (i + length args) <= j ->
  Z.testbit (fst (mark_args v i args m D)) j = Z.testbit m j.
Proof.
  induction args as [|t args IH]; intros i m D j Hj; [done|]. cbn in *. rewrite IH by lia.
  destruct (is_dead D t); [|done]. rewrite testbit_set by lia.
  destruct (Z.eqb_spec j (Z.of_nat i)); [lia|]. apply orb_false_r.
Qed.

Lemma marked_ext m m' args : forall i,
  (forall j, (i <= j < i + length args)%nat -> Z.testbit m (Z.of_nat j) = Z.testbit m' (Z.of_nat j)) ->
  marked i args m = marked i args m'.
Proof.
  induction args as [|t args IH]; intros i H; [done|]. cbn in *. rewrite H by lia.
  rewrite (IH (S i)) by (intros; apply H; lia). done.
Qed.

Lemma marked_in i args m t : t ∈ marked i args m -> t ∈ args.
Proof.
  revert i. induction args as [|x args IH]; intros i; cbn; [done|].
  destruct (Z.testbit m (Z.of_nat i)).
  - intros [->|?]%elem_of_cons; [left|right; by eapply IH].
  - intros ?. right. by eapply IH.
Qed.

Lemma marked_sublist args m : forall i, marked i args (uint16_t m) `sublist_of` marked i args m.
Proof.
  induction args as [|x args IH]; intros i; cbn; [constructor|].
  destruct (Z.testbit (uint16_t m) (Z.of_nat i)) eqn:E.
  - assert (Z.testbit m (Z.of_nat i) = true) as ->; [|by constructor].
    destruct (Z_lt_le_dec (Z.of_nat i) 16) as [Hi|Hi]; [by rewrite <- (Z.mod_pow2_bits_low m 16) by lia|].
    unfold uint16_t, uint in E. by rewrite Z.mod_pow2_bits_high in E by lia.
  - destruct (Z.testbit m (Z.of_nat i)); [by constructor|done].
Qed.

Lemma marked_uint16 args m t i : t ∈ marked i args (uint16_t m) -> t ∈ marked i args m.
Proof. intros Ht. by eapply elem_of_sublist, marked_sublist. Qed.

(** A marked argument was dead after the operation. *)
Lemma mark_args_marked v args t : v = false \/ NoDup args -> forall i m D,
  (forall j, (i <= j)%nat -> Z.testbit m (Z.of_nat j) = false) ->
  t ∈ marked i args (fst (mark_args v i args m D)) -> is_dead D t = true.
Proof.
  intros Hv. induction args as [|x args IH]; intros i m D Hm; cbn; [by intros ?%not_elem_of_nil|].
  set (m' := if is_dead D x then _ else m).
  assert (Z.testbit (fst (mark_args v (S i) args m' (<[x:=v]> D))) (Z.of_nat i) = is_dead D x) as ->.
  { rewrite mark_args_bits by lia. unfold m'. destruct (is_dead D x); [|by apply Hm].
    rewrite testbit_set, Z.eqb_refl by lia. apply orb_true_r. }
  assert (t ∈ marked (S i) args (fst (mark_args v (S i) args m' (<[x:=v]> D))) ->
    is_dead D t = true) as Htail.
  { intros Ht. pose proof (marked_in _ _ _ _ Ht) as Hin. apply IH in Ht.
    - destruct (decide (t = x)) as [->|Hne]; [|by rewrite is_dead_insert_ne in Ht by done].
      destruct Hv as [->|[Hx _]%NoDup_cons]; [by rewrite is_dead_insert_false in Ht|done].
    - destruct Hv as [?|[_ ?]%NoDup_cons]; [by left|by right].
    - intros j Hj. unfold m'. destruct (is_dead D x); [|apply Hm; lia].
      rewrite testbit_set, Hm by lia. destruct (Z.eqb_spec (Z.of_nat j) (Z.of_nat i)); [lia|done]. }
  destruct (is_dead D x) eqn:Ex; [intros [->|Ht]%elem_of_cons; [done|]|]; by apply Htail.
Qed.

(** An input that comes twice is marked once. *)
Lemma mark_args_nodup args : forall i m D,
  (forall j, (i <= j)%nat -> Z.testbit m (Z.of_nat j) = false) ->
  NoDup (marked i args (fst (mark_args false i args m D))).
Proof.
  induction args as [|x args IH]; intros i m D Hm; cbn; [constructor|].
  set (m' := if is_dead D x then _ else m).
  assert (forall j, (S i <= j)%nat -> Z.testbit m' (Z.of_nat j) = false) as Hm'.
  { intros j Hj. unfold m'. destruct (is_dead D x); [|apply Hm; lia].
    rewrite testbit_set, Hm by lia. destruct (Z.eqb_spec (Z.of_nat j) (Z.of_nat i)); [lia|done]. }
  destruct (Z.testbit _ (Z.of_nat i)); [constructor|]; [|by apply IH..].
  intros Hx%(mark_args_marked false args x (or_introl eq_refl)); [|done]. by rewrite is_dead_insert_false in Hx.
Qed.

Lemma mem_true l t : mem l t = true <-> t ∈ l.
Proof.
  unfold mem. rewrite existsb_exists. split.
  - intros (x & Hx & ->%Nat.eqb_eq). by apply list_elem_of_In.
  - intros Hx%list_elem_of_In. exists t. split; [done|apply Nat.eqb_refl].
Qed.

Lemma mem_false l t : mem l t = false <-> t ∉ l.
Proof. rewrite <- mem_true. by destruct (mem l t). Qed.

End Marks.

(** ** States that agree on some temporaries *)

Section Agree.
Context (C : TCGContext) {World : Type}.
Implicit Types (s : State World) (P Q : nat -> Prop).

Record eqon P s s' : Prop := {
  eq_world : world s = world s';
  eq_length : length (vals s) = length (vals s');
  eq_vals u : P u -> vals s !! u = vals s' !! u }.

(** [O] are the outputs, which an operation that jumps or leaves does not write. *)
Definition step_eqon (O : list nat) P (st st' : step World) : Prop :=
  match st, st' with
  | Next a, Next b => eqon (fun u => u ∈ O \/ P u) a b
  | Goto l a, Goto l' b => l = l' /\ eqon P a b
  | Exit c a, Exit c' b => c = c' /\ eqon P a b
  | _, _ => False
  end.

Lemma eqon_weaken P Q s s' : eqon P s s' -> (forall u, Q u -> P u) -> eqon Q s s'.
Proof. intros [] H. split; auto. Qed.

Lemma eqon_wr P s s' d v : eqon P s s' -> eqon (fun u => u = d \/ P u) (wr C d v s) (wr C d v s').
Proof.
  intros []. split; cbn; [done|by rewrite !length_insert|]. intros u Hu.
  destruct (decide (d = u)) as [->|Hne].
  - destruct (decide (u < length (vals s))%nat).
    + by rewrite !list_lookup_insert_eq by lia.
    + by rewrite !list_insert_ge, !(lookup_ge_None_2 _ u) by lia.
  - rewrite !list_lookup_insert_ne by done. destruct Hu; [congruence|auto].
Qed.

Lemma eqon_wrs_keep P ds : forall vs s s', eqon P s s' -> eqon P (wrs C ds vs s) (wrs C ds vs s').
Proof.
  induction ds as [|d ds IH]; intros [|v vs] s s' H; try done. cbn. apply IH.
  eapply eqon_weaken; [by apply eqon_wr|]. by right.
Qed.

Lemma eqon_wrs P ds : forall vs s s', eqon P s s' -> length vs = length ds ->
  eqon (fun u => u ∈ ds \/ P u) (wrs C ds vs s) (wrs C ds vs s').
Proof.
  revert P. induction ds as [|d ds IH]; intros P [|v vs] s s' H Hl; try done.
  - eapply eqon_weaken; [done|]. intros u [Hu|Hu]; [by apply not_elem_of_nil in Hu|done].
  - cbn. eapply eqon_weaken; [apply IH; [by apply eqon_wr|by injection Hl]|].
    intros u. cbn. rewrite elem_of_cons. tauto.
Qed.

Lemma eqon_set_world P s s' w : eqon P s s' -> eqon P (set_world w s) (set_world w s').
Proof. intros []. by split. Qed.

(** The writes leave the other temporaries. *)
Lemma wrs_untouched ds : forall vs s, world (wrs C ds vs s) = world s /\
  length (vals (wrs C ds vs s)) = length (vals s) /\
  forall u, (u ∉ ds) -> vals (wrs C ds vs s) !! u = vals s !! u.
Proof.
  induction ds as [|d ds IH]; intros [|v vs] s; try done. cbn.
  destruct (IH vs (wr C d v s)) as (H1 & H2 & H3). split_and!; [done| |].
  - rewrite H2. apply length_insert.
  - intros u [Hne Hu]%not_elem_of_cons. rewrite H3 by done. cbn. by apply list_lookup_insert_ne.
Qed.

Lemma eqon_rds P s s' l vs : eqon P s s' -> (forall t, t ∈ l -> P t) -> rds s l = Some vs ->
  rds s' l = Some vs.
Proof.
  intros [] HP. unfold rds. rewrite !mapM_Some. intros HF.
  induction HF as [|t v l vs Ht HF IH]; constructor.
  - unfold rd in *. rewrite <- Ht. symmetry. apply eq_vals0, HP. left.
  - apply IH. intros x Hx. apply HP. by right.
Qed.

Lemma eqon_rds_some P s s' l vs : eqon P s s' -> rds s l = Some vs -> is_Some (rds s' l).
Proof.
  intros [] H. apply mapM_is_Some.
  assert (Forall (is_Some ∘ rd s) l) as HF by (apply mapM_is_Some; by eexists).
  eapply Forall_impl; [exact HF|]. intros t Hs%lookup_lt_is_Some. apply lookup_lt_is_Some. lia.
Qed.

End Agree.

(** ** Operations *)

Section Ops.
Context (C : TCGContext) (T : OpTable) {World : Type}.
Context (call_sem : Z -> list Z -> list Z -> World -> option (effect World * list Z)).
Context (other_sem : nat -> list Z -> list Z -> World -> option (effect World)).
Implicit Types (s : State World) (P : nat -> Prop) (D : list bool).

#[local] Abbreviation exec := (exec_op C call_sem other_sem).
#[local] Abbreviation bb_dead := (is_dead (tcg_la_bb_end C)).

Lemma has_flag_const_pure flags : has_flag flags TCG_CALL_CONST = true \/ has_flag flags TCG_CALL_PURE = true ->
  call_is_pure flags = true.
Proof.
  unfold has_flag, call_is_pure. rewrite !negb_true_iff, !Z.eqb_neq, Z.land_lor_distr_r, Z.lor_eq_0_iff.
  tauto.
Qed.

(** The calls that read the globals. *)
Definition reads_globals (o : TCGOp) : bool :=
  match o with op_call _ _ flags => negb (has_flag flags TCG_CALL_CONST) | _ => false end.

Lemma exec_call_eqon P s s' outs ins flags st prog : sem_ok T call_sem other_sem prog ->
  op_call outs ins flags ∈ prog -> eqon P s s' -> (forall t, t ∈ ins -> P t) ->
  (has_flag flags TCG_CALL_CONST = false -> forall t, (t < nb_globals C)%nat -> P t) ->
  exec_call C call_sem outs ins flags s = Some st ->
  exists st', exec_call C call_sem outs ins flags s' = Some st' /\
    step_eqon outs P st st'.
Proof.
  intros HS Hin HE Hins Hg. unfold exec_call. intros (vs & Evs & H)%bind_Some.
  apply bind_Some in H as (gs & Egs & H). apply bind_Some in H as ([e gs'] & Ec & H).
  rewrite (eqon_rds P s s' ins vs HE Hins Evs). cbn.
  destruct (eqon_rds_some P s s' _ _ HE Egs) as [gs2 Egs2].
  rewrite Egs2. cbn. rewrite <- (eq_world _ _ _ HE).
  assert (exists gs2', call_sem flags vs gs2 (world s) = Some (e, gs2') /\
    (call_is_pure flags = true \/ gs2' = gs')) as (gs2' & -> & Hpure).
  { destruct (has_flag flags TCG_CALL_CONST) eqn:Econst.
    - pose proof (call_const _ _ _ _ HS flags vs gs gs2 (world s) Econst) as Hc. rewrite Ec in Hc.
      symmetry in Hc. apply fmap_Some in Hc as ([e2 gs2'] & Hc & Ee). cbn in Ee. subst e2.
      exists gs2'. split; [done|]. left. apply has_flag_const_pure. by left.
    - exists gs'. split; [|by right]. rewrite <- Ec. f_equal.
      assert (rds s' (globals C) = Some gs) as Eg by
        (apply (eqon_rds P s s' _ _ HE); [intros t Ht%elem_of_seq; apply Hg; [done|lia]|done]).
      congruence. }
  cbn. destruct e as [rs w|c w].
  - injection H as <-. eexists. split; [done|]. cbn.
    pose proof (call_arity _ _ _ _ HS _ _ _ _ _ _ _ _ _ Hin Ec) as Hl.
    apply eqon_wrs; [|done]. destruct (call_is_pure flags) eqn:Ep; [by apply eqon_set_world|].
    destruct Hpure as [| ->]; [done|]. by apply eqon_wrs_keep, eqon_set_world.
  - destruct (call_is_pure flags); [done|]. injection H as <-. eexists. split; [done|]. split; [done|].
    destruct Hpure as [| ->]; [done|]. by apply eqon_wrs_keep, eqon_set_world.
Qed.

Lemma exec_op_eqon P s s' o st prog : sem_ok T call_sem other_sem prog -> o ∈ prog ->
  eqon P s s' -> (forall t, t ∈ iargs o -> P t) ->
  (reads_globals o = true -> forall t, (t < nb_globals C)%nat -> P t) ->
  exec o s = Some st -> exists st', exec o s' = Some st' /\ step_eqon (oargs o) P st st'.
Proof.
  intros HS Hin HE Hins Hg H.
  assert (forall x, x ∈ iargs o -> forall v, rd s x = Some v -> rd s' x = Some v) as Hrd.
  { intros x Hx v Hv. unfold rd in *. by rewrite <- (eq_vals _ _ _ HE) by auto. }
  assert (forall d v, oargs o = [d] -> eqon (fun u => u ∈ oargs o \/ P u) (wr C d v s) (wr C d v s')) as Hwr.
  { intros d v ->. eapply eqon_weaken; [by apply eqon_wr|]. intros u. cbn. by rewrite list_elem_of_singleton. }
  destruct o; cbn [exec_op] in *.
  - injection H as <-. eexists. split; [done|]. eapply eqon_weaken; [done|].
    intros u [Hu|Hu]; [by apply not_elem_of_nil in Hu|done].
  - apply bind_Some in H as (v & Hv & [= <-]). rewrite (Hrd src ltac:(left) v Hv). cbn. eexists. split; [done|].
    by apply Hwr.
  - injection H as <-. eexists. split; [done|]. by apply Hwr.
  - apply bind_Some in H as (v & Hv & [= <-]). rewrite (Hrd src ltac:(left) v Hv). cbn. eexists. split; [done|].
    by apply Hwr.
  - apply bind_Some in H as (vx & Hx & (vy & Hy & (v & Hv & [= <-])%bind_Some)%bind_Some).
    rewrite (Hrd src1 ltac:(left) vx Hx), (Hrd src2 ltac:(right; left) vy Hy). cbn. rewrite Hv. cbn.
    eexists. split; [done|]. by apply Hwr.
  - apply (exec_call_eqon P s s' outs ins flags st prog); try done.
    intros Hc. apply Hg. cbn. by rewrite Hc.
  - injection H as <-. eexists. split; [done|]. eapply eqon_weaken; [done|].
    intros u [Hu|Hu]; [by apply not_elem_of_nil in Hu|done].
  - apply bind_Some in H as (v & Hv & [= <-]). rewrite (Hrd t ltac:(left) v Hv). by eexists.
  - injection H as <-. by eexists.
  - apply bind_Some in H as (vx & Hx & (vy & Hy & H)%bind_Some).
    rewrite (Hrd x ltac:(left) vx Hx), (Hrd y ltac:(right; left) vy Hy). cbn.
    destruct (tci_compare _ _ _ _); injection H as <-; eexists; (split; [done|]); [done|].
    eapply eqon_weaken; [done|]. intros u [Hu|Hu]; [by apply not_elem_of_nil in Hu|done].
  - apply bind_Some in H as (vs & Hvs & (e & He & H)%bind_Some).
    rewrite (eqon_rds P s s' ins vs HE Hins Hvs). cbn. rewrite <- (eq_world _ _ _ HE), He. cbn.
    destruct e as [rs w|c w]; injection H as <-; eexists; (split; [done|]).
    + apply eqon_wrs; [by apply eqon_set_world|].
      by apply (other_arity _ _ _ _ HS _ _ _ _ _ _ _ _ _ Hin He).
    + split; [done|]. by apply eqon_set_world.
Qed.


(** The operations the pass may remove. *)
Definition removable (o : TCGOp) : Prop :=
  match o with
  | op_call _ _ flags => has_flag flags TCG_CALL_PURE = true
  | _ => has_flag (flags_of T o) TCG_OPF_SIDE_EFFECTS = false
  end.

Lemma exec_removable s o st prog : sem_ok T call_sem other_sem prog -> removable o ->
  exec o s = Some st -> exists a, st = Next a /\ world a = world s /\
    length (vals a) = length (vals s) /\ forall u, (u ∉ oargs o) -> vals a !! u = vals s !! u.
Proof.
  intros HS Hr H.
  assert (forall d v, oargs o = [d] -> exists a, Next (wr C d v s) = Next a /\ world a = world s /\
    length (vals a) = length (vals s) /\ forall u, (u ∉ oargs o) -> vals a !! u = vals s !! u) as Hwr.
  { intros d v ->. exists (wr C d v s). split; [done|]. apply (wrs_untouched C [d] [v]). }
  destruct o; cbn [exec_op] in *; try done.
  - injection H as <-. by exists s.
  - apply bind_Some in H as (v & Hv & [= <-]). by apply Hwr.
  - injection H as <-. by apply Hwr.
  - apply bind_Some in H as (v & Hv & [= <-]). by apply Hwr.
  - apply bind_Some in H as (vx & Hx & (vy & Hy & (v & Hv & [= <-])%bind_Some)%bind_Some). by apply Hwr.
  - apply bind_Some in H as (vs & Evs & (gs & Egs & ([e gs'] & Ec & H)%bind_Some)%bind_Some).
    destruct (call_pure _ _ _ _ HS _ _ _ _ _ _ Hr Ec) as [rs ->].
    rewrite has_flag_const_pure in H by (by right). injection H as <-. eexists. split; [done|].
    exact (wrs_untouched C outs rs (set_world (world s) s)).
  - injection H as <-. by exists s.
  - apply bind_Some in H as (vs & Hvs & (e & He & H)%bind_Some).
    destruct (other_pure _ _ _ _ HS _ _ _ _ _ Hr He) as [rs ->]. injection H as <-. eexists. split; [done|].
    exact (wrs_untouched C outs rs (set_world (world s) s)).
Qed.

(** How an operation goes on. *)
Definition leaves (o : TCGOp) : bool :=
  match o with
  | op_jmp _ => true
  | op_call _ _ flags => negb (has_flag flags TCG_CALL_CONST)
  | op_other opc _ _ _ _ =>
      has_flag (op_flags T opc) TCG_OPF_BB_END || has_flag (op_flags T opc) TCG_OPF_CALL_CLOBBER
  | _ => false
  end.

Definition jumps (o : TCGOp) : bool :=
  match o with op_br _ | op_brcond _ _ _ _ _ => true | _ => false end.

Lemma exec_kind s o st prog : sem_ok T call_sem other_sem prog -> exec o s = Some st ->
  match st with Next _ => True | Goto _ _ => jumps o = true | Exit _ _ => leaves o = true end.
Proof.
  intros HS H. destruct o; cbn [exec_op] in *; try (injection H as <-; done).
  - by apply bind_Some in H as (v & Hv & [= <-]).
  - by apply bind_Some in H as (v & Hv & [= <-]).
  - by apply bind_Some in H as (vx & Hx & (vy & Hy & (v & Hv & [= <-])%bind_Some)%bind_Some).
  - apply bind_Some in H as (vs & Evs & (gs & Egs & ([e gs'] & Ec & H)%bind_Some)%bind_Some).
    destruct e; [by injection H as <-|]. destruct (call_is_pure flags) eqn:Ep; [done|]. injection H as <-.
    cbn. apply negb_true_iff. destruct (has_flag flags TCG_CALL_CONST) eqn:E; [|done].
    by rewrite has_flag_const_pure in Ep by (by left).
  - by apply bind_Some in H as (v & Hv & [= <-]).
  - apply bind_Some in H as (vx & Hx & (vy & Hy & H)%bind_Some).
    by destruct (tci_compare _ _ _ _); injection H as <-.
  - apply bind_Some in H as (vs & Hvs & (e & He & H)%bind_Some). destruct e; injection H as <-; [done|].
    cbn. apply orb_true_iff. by apply (other_leaves _ _ _ _ HS _ _ _ _ _ _ He).
Qed.

(** ** What the pass marks *)

Definition covers (o : TCGOp) D : Prop :=
  ends_bb T o = true -> forall u, is_dead D u = false -> bb_dead u = false.

Record kept (o : TCGOp) (m : Z) D D' : Prop := {
  kp_live u : is_dead D u = false -> u ∈ oargs o \/ is_dead D' u = false;
  kp_ins t : t ∈ iargs o -> is_dead D' t = false;
  kp_lost u : is_dead D u = false -> lost C T o m u = false;
  kp_globals : reads_globals o = true \/ leaves o = true ->
    forall u, (u < nb_globals C)%nat -> is_dead D' u = false;
  kp_bb : jumps o = true -> forall u, bb_dead u = false -> is_dead D' u = false /\ lost C T o m u = false;
  kp_marked : reads_globals o = true \/ leaves o = true ->
    forall u, u ∈ marked (length (oargs o)) (iargs o) m -> (nb_globals C <= u)%nat;
  kp_once : NoDup (marked (length (oargs o)) (iargs o) m) }.

Lemma la_keep_kept o (g : list bool -> list bool) D o' m D' X : NoDup (oargs o) ->
  la_keep g o D = (o', m, D') ->
  X = g (snd (mark_args true 0 (oargs o) 0 D)) ->
  (forall u, (u ∉ oargs o) -> is_dead D u = false -> is_dead X u = false) -> covers o D ->
  (reads_globals o = true \/ leaves o = true -> forall u, (u < nb_globals C)%nat -> is_dead X u = false) ->
  (jumps o = true -> X = tcg_la_bb_end C) ->
  o' = o /\ kept o m D D'.
Proof.
  intros Hnd HK EX HX Hcov HG HJ. unfold la_keep in HK.
  destruct (mark_args true 0 (oargs o) 0 D) as [m1 D1] eqn:E1. cbn in EX. rewrite <- EX in HK.
  destruct (mark_args false (length (oargs o)) (iargs o) m1 X) as [m2 D2] eqn:E2.
  injection HK as <- <- <-. split; [done|].
  assert (forall u, is_dead X u = false -> is_dead D2 u = false) as HX2.
  { intros u Hu. change D2 with (snd (m2, D2)). rewrite <- E2. apply mark_args_live. by right. }
  assert (forall u, u ∈ marked 0 (oargs o) (uint16_t m2) -> is_dead D u = true) as Hmo.
  { intros u Hu%marked_uint16. apply (mark_args_marked true (oargs o) u (or_intror Hnd) 0 0 D).
    - intros j _. apply Z.testbit_0_l.
    - rewrite E1. cbn. rewrite (marked_ext m1 m2); [done|]. intros j Hj.
      change m2 with (fst (m2, D2)). rewrite <- E2. by rewrite mark_args_bits by (left; lia). }
  assert (forall u, u ∈ marked (length (oargs o)) (iargs o) (uint16_t m2) -> is_dead X u = true) as Hmi.
  { intros u Hu%marked_uint16.
    apply (mark_args_marked false (iargs o) u (or_introl eq_refl) (length (oargs o)) m1 X).
    - intros j Hj. change m1 with (fst (m1, D1)). rewrite <- E1, mark_args_bits by lia. apply Z.testbit_0_l.
    - by rewrite E2. }
  split.
  - intros u Hu. destruct (decide (u ∈ oargs o)); [by left|right]. by apply HX2, HX.
  - intros t Ht. change D2 with (snd (m2, D2)). rewrite <- E2. apply mark_args_live. by left.
  - intros u Hu. unfold lost. rewrite !orb_false_iff, !andb_false_iff. split_and!.
    + apply mem_false. intros Hm%Hmo. congruence.
    + destruct (mem (oargs o) u) eqn:Em; [by right|left]. apply mem_false in Em. apply mem_false.
      intros Hm%Hmi. rewrite (HX u Em Hu) in Hm. done.
    + destruct (ends_bb T o) eqn:Eb; [right|by left]. by apply Hcov.
  - intros Hr u Hu. by apply HX2, HG.
  - intros Hj u Hu. specialize (HJ Hj). split; [apply HX2; by rewrite HJ|].
    unfold lost. rewrite !orb_false_iff, !andb_false_iff. split_and!; [| |by right].
    + by destruct o.
    + left. apply mem_false. intros Hm%Hmi. rewrite HJ in Hm. congruence.
  - intros Hr u Hu%Hmi. destruct (decide (u < nb_globals C)%nat) as [Hlt|]; [|lia].
    rewrite (HG Hr u Hlt) in Hu. done.
  - eapply sublist_NoDup; [|apply marked_sublist]. change m2 with (fst (m2, D2)). rewrite <- E2.
    apply mark_args_nodup. intros j Hj. change m1 with (fst (m1, D1)). rewrite <- E1, mark_args_bits by lia.
    apply Z.testbit_0_l.
Qed.

Lemma bb_live_global u : (u < nb_globals C)%nat -> bb_dead u = false.
Proof. intros H. rewrite is_dead_bb_end. by rewrite (proj2 (Nat.ltb_lt _ _) H). Qed.

Lemma globals_live_live D u : (u < nb_globals C)%nat \/ is_dead D u = false ->
  is_dead (globals_live C D) u = false.
Proof.
  rewrite is_dead_globals_live. intros [H%Nat.ltb_lt| ->]; [by rewrite H|apply andb_false_r].
Qed.

(** An operation is removed or kept. *)
Definition la_result (o : TCGOp) D (r : TCGOp * Z * list bool) : Prop :=
  let '(o', m, D') := r in
  (o' = op_nop /\ m = 0 /\ D' = D /\ removable o /\ forall u, is_dead D u = false -> u ∉ oargs o) \/
  (o' = o /\ kept o m D D').

Lemma all_dead_outs D outs u : all_dead D outs = true -> is_dead D u = false -> u ∉ outs.
Proof.
  unfold all_dead. rewrite forallb_forall. intros H Hu Hin%list_elem_of_In%H. congruence.
Qed.

Lemma la_default_result o D : NoDup (oargs o) -> covers o D ->
  match o with op_call _ _ _ | op_set_label _ => False | _ => True end ->
  la_result o D (la_default C T o D).
Proof.
  intros Hnd Hcov Hk. unfold la_default.
  destruct (negb (has_flag (flags_of T o) TCG_OPF_SIDE_EFFECTS) && _ && _) eqn:Er.
  { left. apply andb_true_iff in Er as [[Hs%negb_true_iff _]%andb_true_iff Hd].
    split_and!; try done; [by destruct o|]. intros u. by apply all_dead_outs. }
  destruct (la_keep _ o D) as [[o' m] D'] eqn:E. right.
  eapply la_keep_kept; [done|exact E|reflexivity|..]; cbn.
  - intros u Hu HD. destruct (has_flag (flags_of T o) TCG_OPF_BB_END) eqn:Eb.
    + apply Hcov; [by destruct o|done].
    + rewrite <- (mark_args_other true 0 (oargs o) 0 D u Hu) in HD.
      destruct (has_flag _ TCG_OPF_CALL_CLOBBER); [apply globals_live_live; by right|done].
  - done.
  - intros Hg u Hu. assert (reads_globals o = false) as Er' by (by destruct o). rewrite Er' in Hg.
    destruct Hg as [|Hl]; [done|].
    destruct (has_flag (flags_of T o) TCG_OPF_BB_END) eqn:Eb; [by apply bb_live_global|].
    destruct (has_flag (flags_of T o) TCG_OPF_CALL_CLOBBER) eqn:Ec; [apply globals_live_live; by left|].
    exfalso. destruct o; try done. cbn in *. by rewrite Eb, Ec in Hl.
  - intros Hj. by destruct o.
Qed.

Lemma la_op_result o D : NoDup (oargs o) -> shape_ok T o = true -> covers o D ->
  la_result o D (la_op C T o D).
Proof.
  intros Hnd Hs Hcov. destruct o as [| | | | |outs ins flags| | | | |opc se outs ins consts];
    cbn [la_op]; try by apply la_default_result.
  - destruct (has_flag flags TCG_CALL_PURE && all_dead D outs) eqn:Er.
    { left. apply andb_true_iff in Er as [Hp Hd]. split_and!; try done. intros u. by apply all_dead_outs. }
    destruct (la_keep _ _ D) as [[o' m] D'] eqn:E. right.
    eapply la_keep_kept; [done|exact E|reflexivity|..]; cbn.
    + intros u Hu HD. rewrite <- (mark_args_other true 0 outs 0 D u Hu) in HD.
      destruct (has_flag _ TCG_CALL_CONST); [done|apply globals_live_live; by right].
    + done.
    + intros Hg u Hu. destruct (has_flag flags TCG_CALL_CONST); [by destruct Hg|].
      apply globals_live_live. by left.
    + done.
  - right. split; [done|]. split; cbn; try done.
    + intros u Hu. right. by apply Hcov.
    + intros t Ht. by apply not_elem_of_nil in Ht.
    + intros u Hu. unfold lost. cbn. by apply Hcov.
    + by intros [].
    + by intros [].
  - cbn in Hs. rewrite !andb_true_iff, !orb_true_iff, !negb_true_iff, !andb_true_iff, !Nat.eqb_eq in Hs.
    destruct Hs as [[Hs1 Hs2] Hs3].
    destruct (Nat.eqb opc (INDEX_op_debug_insn_start T)) eqn:E1;
      [|destruct (Nat.eqb opc (INDEX_op_discard T)) eqn:E2; [|by apply la_default_result]];
      destruct Hs3 as [Hs3|Hs3%Z.eqb_eq]; try done.
    + destruct Hs1 as [|[->%nil_length_inv ->%nil_length_inv]]; [done|].
      right. split; [done|]. split; cbn; rewrite ?Hs3; try done; [by right|..].
      * intros t Ht. by apply not_elem_of_nil in Ht.
      * by intros [].
      * by intros [].
    + destruct Hs2 as [|[Ho ->%nil_length_inv]]; [done|]. destruct outs as [|d [|]]; try done.
      right. split; [done|]. split; cbn; rewrite ?Hs3; try done.
      * intros u Hu. destruct (decide (u = d)) as [->|Hne]; [left; left|right].
        by rewrite is_dead_insert_ne.
      * intros t Ht. by apply not_elem_of_nil in Ht.
      * intros u Hu. unfold lost. cbn. by rewrite Hs3.
      * by intros [].
      * by intros [].
      * constructor.
Qed.

(** ** One step *)

Definition live D (u : nat) : Prop := is_dead D u = false.

Lemma eqon_clobber P (Q : nat -> Prop) (l : nat -> bool) junk (a b : State World) : eqon P a b ->
  (forall u, Q u -> P u /\ l u = false) -> eqon Q a (clobber junk l b).
Proof.
  intros [] H. split; cbn; [done|by rewrite length_imap|]. intros u [Hu Hl]%H.
  rewrite list_lookup_imap, (eq_vals0 u Hu), Hl. by destruct (vals b !! u).
Qed.

Definition step_live D (st st' : step World) : Prop :=
  match st, st' with
  | Next a, Next b => eqon (live D) a b
  | Goto l a, Goto l' b => l = l' /\ eqon (live (tcg_la_bb_end C)) a b
  | Exit c a, Exit c' b => c = c' /\ eqon (fun u => u < nb_globals C)%nat a b
  | _, _ => False
  end.

Lemma la_step prog o D o' m D' s s' st junk : sem_ok T call_sem other_sem prog -> o ∈ prog ->
  la_result o D (o', m, D') -> eqon (live D') s s' -> exec o s = Some st ->
  exists st', exec_la C T call_sem other_sem junk o' m s' = Some st' /\ step_live D st st'.
Proof.
  intros HS Hin HR HE H. destruct HR as [(-> & -> & -> & Hr & Hd)|[-> HK]].
  - destruct (exec_removable _ _ _ _ HS Hr H) as (a & -> & Hw & Hl & Hu). eexists. split; [done|]. cbn.
    apply (eqon_clobber (live D)).
    + destruct HE. split; [congruence|congruence|]. intros u HD. by rewrite Hu by (by apply Hd); auto.
    + intros u Hx. split; [done|]. by unfold lost.
  - destruct (exec_op_eqon (live D') s s' o st prog HS Hin HE) as (st' & Ex & Hst).
    { apply (kp_ins _ _ _ _ HK). }
    { intros Hg. apply (kp_globals _ _ _ _ HK). by left. }
    { done. }
    unfold exec_la. rewrite Ex. cbn. eexists. split; [done|]. pose proof (exec_kind _ _ _ _ HS H) as Hk.
    destruct st as [a|l a|c a], st' as [b|l' b|c' b]; try done; cbn in Hst |- *.
    + eapply eqon_clobber; [exact Hst|]. intros u Hu. split; [by apply (kp_live _ _ _ _ HK)|].
      by apply (kp_lost _ _ _ _ HK).
    + destruct Hst as [-> Hst]. split; [done|]. eapply eqon_clobber; [exact Hst|].
      intros u Hu. by apply (kp_bb _ _ _ _ HK).
    + destruct Hst as [-> Hst]. split; [done|]. eapply eqon_weaken; [exact Hst|].
      intros u Hu. apply (kp_globals _ _ _ _ HK); [by right|done].
Qed.

(** ** The whole block *)

#[local] Abbreviation dead_at prog pc := (snd (la_ops C T (drop pc prog))).

Lemma la_ops_cons o prog : la_ops C T (o :: prog) =
  let '(o', m, D') := la_op C T o (snd (la_ops C T prog)) in ((o', m) :: fst (la_ops C T prog), D').
Proof. cbn. by destruct (la_ops C T prog). Qed.

Lemma la_ops_at prog : forall pc o, prog !! pc = Some o -> exists o' m,
  tcg_liveness_analysis C T prog !! pc = Some (o', m) /\
  la_op C T o (dead_at prog (S pc)) = (o', m, dead_at prog pc).
Proof.
  unfold tcg_liveness_analysis. induction prog as [|o1 prog IH]; intros pc o Hpc; [done|].
  destruct pc as [|pc].
  - injection Hpc as ->. change (drop 0 (o :: prog)) with (o :: prog).
    change (drop 1 (o :: prog)) with (drop 0 prog). rewrite drop_0, la_ops_cons.
    destruct (la_op C T o (la_ops C T prog).2) as [[o' m] D']. by exists o', m.
  - destruct (IH pc o Hpc) as (o' & m & H1 & H2). exists o', m. split; [|exact H2].
    rewrite la_ops_cons. destruct (la_op C T o1 _) as [[??]?]. exact H1.
Qed.

Lemma la_ops_length prog : length (tcg_liveness_analysis C T prog) = length prog.
Proof.
  unfold tcg_liveness_analysis. induction prog as [|o prog IH]; [done|]. rewrite la_ops_cons.
  destruct (la_op _ _ _ _) as [[??]?]. cbn. by rewrite IH.
Qed.

Lemma la_op_label o D l : is_label l (fst (fst (la_op C T o D))) = is_label l o.
Proof.
  assert (forall g, fst (fst (la_keep g o D)) = o) as HK.
  { intros g. unfold la_keep. by do 2 destruct (mark_args _ _ _ _ _). }
  assert (is_label l (fst (fst (la_default C T o D))) = is_label l o \/ is_label l o = true) as HD.
  { unfold la_default. destruct (_ && _ && _) eqn:E; [|left; by rewrite HK].
    destruct o; try (by left). }
  destruct o as [| | | | |outs ins flags|k| | | |opc se outs ins consts]; cbn [la_op] in *;
    try (by destruct HD); try done.
  - destruct (_ && _); [done|by rewrite HK].
  - destruct (Nat.eqb opc _); [done|]. destruct (Nat.eqb opc _); [done|by destruct HD].
Qed.

Lemma label_pos_la l prog : label_pos l (fst <$> tcg_liveness_analysis C T prog) = label_pos l prog.
Proof.
  unfold tcg_liveness_analysis. induction prog as [|o prog IH]; [done|]. rewrite la_ops_cons.
  pose proof (la_op_label o (la_ops C T prog).2 l) as Hl. destruct (la_op _ _ _ _) as [[o' m] D'].
  cbn in Hl |- *. by rewrite Hl, IH.
Qed.

(** *** Plain temporaries are dead between the basic blocks *)

Lemma bb_end_length : context_ok C = true -> length (tcg_la_bb_end C) = nb_temps C.
Proof.
  intros HC%Nat.leb_le. unfold tcg_la_bb_end. rewrite length_app, length_replicate, length_fmap, length_seq. lia.
Qed.

Lemma globals_live_length D : context_ok C = true -> length D = nb_temps C ->
  length (globals_live C D) = nb_temps C.
Proof.
  intros HC%Nat.leb_le HD. unfold globals_live. rewrite length_app, length_replicate, length_drop. lia.
Qed.

(** What is live before a kept operation. *)
Definition before (o : TCGOp) D (u : nat) : Prop :=
  (is_dead D u = false /\ (u ∉ oargs o)) \/ u ∈ iargs o \/ bb_dead u = false.

Lemma la_keep_before o (g : list bool -> list bool) D D' : length D = nb_temps C ->
  Forall (fun t => t < nb_temps C)%nat (oargs o) ->
  D' = snd (la_keep g o D) ->
  (forall M u, is_dead (g M) u = false -> is_dead M u = false \/ bb_dead u = false) ->
  (forall M, length M = nb_temps C -> length (g M) = nb_temps C) ->
  length D' = nb_temps C /\ forall u, is_dead D' u = false -> before o D u.
Proof.
  intros HD Ho -> Hg Hgl. unfold la_keep.
  destruct (mark_args true 0 (oargs o) 0 D) as [m1 D1] eqn:E1.
  assert (D1 = snd (mark_args true 0 (oargs o) 0 D)) as ED1 by (by rewrite E1).
  destruct (mark_args false (length (oargs o)) (iargs o) m1 (g D1)) as [m2 D2] eqn:E2.
  assert (D2 = snd (mark_args false (length (oargs o)) (iargs o) m1 (g D1))) as -> by (by rewrite E2).
  cbn. split; [by rewrite mark_args_length, Hgl by (by rewrite ED1, mark_args_length)|].
  intros u Hu. destruct (decide (u ∈ iargs o)) as [|Hi]; [right; by left|].
  rewrite mark_args_other in Hu by done. apply Hg in Hu as [Hu|Hu]; [|right; by right].
  destruct (decide (u ∈ oargs o)) as [Hin|Hin].
  - rewrite ED1, mark_args_dead in Hu; [done|done|]. rewrite HD. rewrite Forall_forall in Ho. by apply Ho.
  - rewrite ED1, mark_args_other in Hu by done. by left.
Qed.

Lemma globals_live_before M u : is_dead (globals_live C M) u = false -> is_dead M u = false \/ bb_dead u = false.
Proof.
  rewrite is_dead_globals_live, andb_false_iff, negb_false_iff, Nat.ltb_lt.
  intros [H|H]; [right; by apply bb_live_global|by left].
Qed.

Lemma op_ok_oargs o : op_ok C o = true -> Forall (fun t => t < nb_temps C)%nat (oargs o).
Proof.
  destruct o; cbn; rewrite ?andb_true_iff, ?has_type_iff; intros; destruct_and?; try done;
    try (by apply Forall_singleton); by apply temps_in.
Qed.

Lemma la_default_before o D : context_ok C = true -> length D = nb_temps C ->
  Forall (fun t => t < nb_temps C)%nat (oargs o) ->
  length (snd (la_default C T o D)) = nb_temps C /\
  forall u, is_dead (snd (la_default C T o D)) u = false -> before o D u.
Proof.
  intros HC HD Ho. unfold la_default. destruct (_ && _ && _) eqn:E.
  - split; [done|]. intros u Hu. apply andb_true_iff in E as [_ E]. left. split; [done|].
    by eapply all_dead_outs.
  - eapply la_keep_before; [done|done|reflexivity|..]; cbn.
    + intros M u. destruct (has_flag _ TCG_OPF_BB_END); [by right|].
      destruct (has_flag _ TCG_OPF_CALL_CLOBBER); [apply globals_live_before|by left].
    + intros M HM. destruct (has_flag _ TCG_OPF_BB_END); [by apply bb_end_length|].
      destruct (has_flag _ TCG_OPF_CALL_CLOBBER); [by apply globals_live_length|done].
Qed.

Lemma la_op_before o D : context_ok C = true -> length D = nb_temps C -> op_ok C o = true ->
  shape_ok T o = true ->
  length (snd (la_op C T o D)) = nb_temps C /\
  forall u, is_dead (snd (la_op C T o D)) u = false -> before o D u.
Proof.
  intros HC HD Ho%op_ok_oargs Hs. pose proof (la_default_before o D HC HD Ho) as Hdef.
  destruct o as [| | | | |outs ins flags| | | | |opc se outs ins consts]; cbn [la_op]; try exact Hdef.
  - destruct (has_flag flags TCG_CALL_PURE && all_dead D outs) eqn:E.
    + split; [done|]. intros u Hu. apply andb_true_iff in E as [_ E]. left. split; [done|].
      by eapply all_dead_outs.
    + eapply la_keep_before; [done|done|reflexivity|..]; cbn.
      * intros M u. destruct (has_flag flags TCG_CALL_CONST); [by left|apply globals_live_before].
      * intros M HM. destruct (has_flag flags TCG_CALL_CONST); [done|by apply globals_live_length].
  - split; [by apply bb_end_length|]. intros u Hu. right. by right.
  - cbn in Hs. rewrite !andb_true_iff, !orb_true_iff, !negb_true_iff, !andb_true_iff, !Nat.eqb_eq in Hs.
    destruct Hs as [[Hs1 Hs2] _]. destruct (Nat.eqb opc (INDEX_op_debug_insn_start T)) eqn:E1;
      [|destruct (Nat.eqb opc (INDEX_op_discard T)) eqn:E2; [|exact Hdef]].
    + destruct Hs1 as [|[->%nil_length_inv _]]; [done|]. split; [done|]. intros u Hu. left.
      split; [done|apply not_elem_of_nil].
    + destruct Hs2 as [|[Hl _]]; [done|]. destruct outs as [|d [|]]; try done. cbn.
      split; [by rewrite length_insert|]. intros u Hu. left. destruct (decide (u = d)) as [->|Hne].
      * apply Forall_cons in Ho as [Ho _]. rewrite <- HD in Ho. by rewrite is_dead_insert_true in Hu by done.
      * rewrite is_dead_insert_ne in Hu by done. split; [done|]. cbn [oargs]. by rewrite list_elem_of_singleton.
Qed.

Lemma readable_intro df u : bb_dead u = false \/ u ∈ df -> readable C df u = true.
Proof.
  unfold readable. intros [H|H]; apply orb_true_iff; [left; by rewrite H|right; by apply mem_true].
Qed.

(** Nothing is live that the basic block does not write first. *)
Lemma temps_ok_live prog : context_ok C = true -> forallb (op_ok C) prog = true ->
  forallb (shape_ok T) prog = true -> forall df, temps_ok C T df prog = true ->
  length (snd (la_ops C T prog)) = nb_temps C /\
  forall u, is_dead (snd (la_ops C T prog)) u = false -> bb_dead u = false \/ u ∈ df.
Proof.
  intros HC. induction prog as [|o prog IH]; intros Hok Hsh df Ht.
  - split; [apply length_replicate|]. intros u Hu. left. rewrite is_dead_bb_end.
    destruct (Nat.ltb_spec u (nb_temps C)); [|by rewrite andb_false_r].
    cbn in Hu. unfold is_dead in Hu. rewrite lookup_replicate_2 in Hu by done.
    by rewrite bool_decide_true in Hu.
  - cbn [forallb temps_ok] in *. apply andb_true_iff in Hok as [Ho Hok], Hsh as [Hs Hsh], Ht as [Hi Ht].
    destruct (IH Hok Hsh _ Ht) as [Hl Hlive]. rewrite la_ops_cons.
    destruct (la_op_before o (la_ops C T prog).2 HC Hl Ho Hs) as [Hl' Hb].
    destruct (la_op C T o (la_ops C T prog).2) as [[o' m] D']. split; [done|].
    intros u Hu. cbn in Hu. destruct (Hb u Hu) as [[HD Hn]|[Hin|?]]; [| |by left].
    + destruct (Hlive u HD) as [|Hx]; [by left|]. destruct (ends_bb T o); [by apply not_elem_of_nil in Hx|].
      apply elem_of_app in Hx as [|]; [done|by right].
    + rewrite forallb_forall in Hi. apply list_elem_of_In, Hi in Hin. unfold readable in Hin.
      apply orb_true_iff in Hin as [H%negb_true_iff|H%mem_true]; [by left|by right].
Qed.

Lemma temps_ok_drop prog pc : forall df, temps_ok C T df prog = true ->
  exists df', temps_ok C T df' (drop pc prog) = true.
Proof.
  revert prog. induction pc as [|pc IH]; intros prog df H; [rewrite drop_0; by eexists|].
  destruct prog as [|o prog]; [by exists []|]. cbn in H. apply andb_true_iff in H as [_ H]. by eapply IH.
Qed.

Lemma forallb_drop {A} (f : A -> bool) l n : forallb f l = true -> forallb f (drop n l) = true.
Proof.
  rewrite <- (take_drop n l) at 1. rewrite forallb_app. intros H. by apply andb_true_iff in H as [_ H].
Qed.

Lemma prog_covers prog pc o : context_ok C = true -> forallb (op_ok C) prog = true ->
  forallb (shape_ok T) prog = true -> temps_ok C T [] prog = true -> prog !! pc = Some o ->
  covers o (dead_at prog (S pc)).
Proof.
  intros HC Hok Hsh Ht Hpc He u Hu.
  destruct (temps_ok_drop prog pc [] Ht) as [df Hd]. rewrite (drop_S _ _ _ Hpc) in Hd.
  cbn in Hd. apply andb_true_iff in Hd as [_ Hd]. rewrite He in Hd.
  destruct (temps_ok_live (drop (S pc) prog) HC (forallb_drop _ _ _ Hok) (forallb_drop _ _ _ Hsh) [] Hd) as [_ Hl].
  destruct (Hl u Hu) as [|Hx]; [done|by apply not_elem_of_nil in Hx].
Qed.

(** *** The run *)

(** The same exit with the same globals and the same world; a run that has not ended, or
    has passed the last operation, is at the same place with the same world.  The original
    is free of undefined behaviour. *)
Definition same_effect (r r' : outcome World) : Prop :=
  match r with
  | Finished (Some c) a => exists b, r' = Finished (Some c) b /\ world b = world a /\
      forall u, (u < nb_globals C)%nat -> vals b !! u = vals a !! u
  | Finished None a => exists b, r' = Finished None b /\ world b = world a
  | OutOfFuel pc a => exists b, r' = OutOfFuel pc b /\ world b = world a
  | Undefined => True
  end.

(** A block the translator may emit. *)
Record block_ok (prog : list TCGOp) : Prop := {
  bk_ops : forallb (op_ok C) prog = true;
  bk_outs : forallb outs_ok prog = true;
  bk_shape : forallb (shape_ok T) prog = true;
  bk_temps : temps_ok C T [] prog = true }.

Lemma forallb_elem {A} (f : A -> bool) l x : forallb f l = true -> x ∈ l -> f x = true.
Proof. rewrite forallb_forall. intros H Hx. by apply H, list_elem_of_In. Qed.

Lemma run_la_sim prog junk : context_ok C = true -> block_ok prog -> sem_ok T call_sem other_sem prog ->
  forall fuel pc s s', eqon (live (dead_at prog pc)) s s' ->
  same_effect (run C call_sem other_sem fuel prog pc s)
    (run_la C T call_sem other_sem junk fuel (tcg_liveness_analysis C T prog) pc s').
Proof.
  intros HC HB HS. induction fuel as [|fuel IH]; intros pc s s' HE.
  { exists s'. split; [done|]. symmetry. apply HE. }
  cbn [run run_la]. destruct (prog !! pc) as [o|] eqn:Ho.
  2: { rewrite (lookup_ge_None_2 (tcg_liveness_analysis _ _ _))
         by (rewrite la_ops_length; by apply lookup_ge_None).
       exists s'. split; [done|]. symmetry. apply HE. }
  destruct (la_ops_at prog pc o Ho) as (o' & m & -> & Hla). pose proof HB as [Hok Hout Hsh Htmp].
  pose proof (list_elem_of_lookup_2 _ _ _ Ho) as Hin.
  destruct (exec o s) as [st|] eqn:Ex; [|done].
  assert (la_result o (dead_at prog (S pc)) (o', m, dead_at prog pc)) as HR.
  { rewrite <- Hla. apply la_op_result.
    - apply (bool_decide_eq_true_1 _ (forallb_elem _ _ _ Hout Hin)).
    - apply (forallb_elem _ _ _ Hsh Hin).
    - by apply prog_covers. }
  destruct (la_step prog o _ o' m _ s s' st (junk fuel) HS Hin HR HE Ex) as (st' & -> & Hst).
  destruct st as [a|l a|c a], st' as [b|l' b|c' b]; try done; cbn in Hst.
  - by apply IH.
  - destruct Hst as [<- Hst]. rewrite label_pos_la.
    destruct (label_pos l prog) as [pc'|] eqn:El; [|done]. apply IH.
    destruct (la_ops_at prog pc' _ (label_pos_spec _ _ _ El)) as (o2 & m2 & _ & Hl2).
    cbn in Hl2. injection Hl2 as _ _ <-. done.
  - destruct Hst as [<- []]. exists b. split_and!; [done|done|]. intros u Hu. symmetry. auto.
Qed.

End Ops.
