(* ===== verification/TcgCompose.v ===== *)
(** * The optimiser followed by the liveness analysis

    [tcg_gen_code_common] runs [tcg_optimize] and then [tcg_liveness_analysis]
    (src/emul/qemu/tcg/tcg.c).  The analysis needs blocks in which a plain temporary is
    written in its basic block before it is read; here the optimiser is shown to keep that
    form, although it forgets nothing at [goto_tb] and [exit_tb], which end a basic block
    too.  So the two passes compose, whatever the register allocator does with the dead
    values. *)

From S2P Require Import Prelude TcgIr TcgOptimize TcgRing TcgFold TcgOptProofs TcgLive TcgLiveProofs.
Open Scope Z_scope.

Section Compose.
Context (C : TCGContext) (T : OpTable).
#[local] Abbreviation nb_temps := (nb_temps C).
#[local] Abbreviation nb_globals := (nb_globals C).
#[local] Abbreviation R df u := (readable C df u = true).
#[local] Abbreviation bb_dead := (is_dead (tcg_la_bb_end C)).
Implicit Types (ts : Temps) (df : list nat).

(** Both members of a copy are plain or both are not, and both or neither have been written
    in the basic block. *)
Record ring_def ts df : Prop := {
  rd_wf : temps_wf C ts;
  rd_local u b : copy C ts u b -> bb_dead u = bb_dead b;
  rd_def u b : copy C ts u b -> (R df u <-> R df b) }.

Lemma readable_iff df u : R df u <-> bb_dead u = false \/ u ∈ df.
Proof. unfold readable. by rewrite orb_true_iff, negb_true_iff, mem_true. Qed.

Lemma ring_def_ext ts df df2 : (forall u, R df u <-> R df2 u) -> ring_def ts df -> ring_def ts df2.
Proof. intros H []. split; try done. intros u b Hc. rewrite <- !H. by apply rd_def0. Qed.

Lemma ring_def_nil ts df : ring_def ts df -> ring_def ts [].
Proof.
  intros []. split; try done. intros u b Hc. unfold readable. by rewrite (rd_local0 u b Hc).
Qed.

Lemma ring_def_add ts df d : ring_def ts df -> free ts d -> ring_def ts (d :: df).
Proof.
  intros [] [HF1 HF2]. split; try done. intros u b Hc. pose proof (rd_def0 u b Hc) as Hd.
  destruct (copy_base C ts u b rd_wf0 Hc) as [[_ HB] _]. pose proof Hc as (_ & Hs & _).
  rewrite !readable_iff in *. rewrite !elem_of_cons.
  assert (u <> d) by congruence. assert (b <> d) by congruence. tauto.
Qed.

Lemma propagate_def ts df t : ring_def ts df -> (t < nb_temps)%nat -> (R df (propagate ts t) <-> R df t).
Proof.
  intros [] Ht. destruct (propagate_ok C ts t rd_wf0 Ht) as (_ & _ & _ & [->|Hc]); [done|].
  symmetry. by apply rd_def0.
Qed.

Lemma reset_def ts df d ts' : ring_def ts df -> (d < nb_temps)%nat ->
  reset_temp d nb_temps nb_globals ts = Some ts' -> ring_def ts' (d :: df) /\ forgets C d ts ts'.
Proof.
  intros [] Hd H. destruct (reset_temp_ok C d ts rd_wf0 Hd) as (ts2 & E & F).
  assert (ts2 = ts') as -> by congruence. split; [|done].
  apply ring_def_add; [|split; rewrite (fg_any _ _ _ _ F); done]. split; [apply F| |].
  - intros u b' (b & Hc & Hb)%(fg_copy _ _ _ _ F). rewrite (rd_local0 u b Hc).
    destruct Hb as [->|Hb]; [done|]. symmetry. by apply rd_local0.
  - intros u b' (b & Hc & Hb)%(fg_copy _ _ _ _ F). rewrite (rd_def0 u b Hc).
    destruct Hb as [->|Hb]; [done|]. symmetry. by apply rd_def0.
Qed.

Lemma reset_temps_def l : forall ts df ts', ring_def ts df -> Forall (fun t => t < nb_temps)%nat l ->
  reset_temps l nb_temps nb_globals ts = Some ts' -> ring_def ts' (l ++ df).
Proof.
  induction l as [|t l IH]; intros ts df ts' HR Hl H; [by injection H as <-|].
  apply Forall_cons in Hl as [Ht Hl]. cbn in H. apply bind_Some in H as (ts1 & H1 & H).
  destruct (reset_def ts df t ts1 HR Ht H1) as [HR1 _]. specialize (IH ts1 (t :: df) ts' HR1 Hl H).
  refine (ring_def_ext _ _ _ _ IH). intros u. rewrite !readable_iff. cbn.
  rewrite elem_of_app, !elem_of_cons, elem_of_app. tauto.
Qed.

Lemma gen_movi_def ts df w d v ts' o' : ring_def ts df -> (d < nb_temps)%nat ->
  tcg_opt_gen_movi C w d v ts = Some (ts', o') -> ring_def ts' (d :: df).
Proof.
  intros HR Hd H. unfold tcg_opt_gen_movi in H. apply bind_Some in H as (ts1 & H1 & [= <- <-]).
  destruct (reset_def ts df d ts1 HR Hd H1) as [[] F].
  destruct (wf_free_ext C ts1 (set_val v d (set_state TCG_TEMP_CONST d ts1)) d) as [W' HC];
    [done| |split; rewrite (fg_any _ _ _ _ F); done|split; fields|].
  { intros u Hu. unfold set_val, set_state, upd. by destruct (Nat.eqb_spec u d). }
  split; [done| |]; intros u b Hc%HC; auto.
Qed.

Lemma gen_mov_def ts df w d x ts' o' : ring_def ts df -> (d < nb_temps)%nat -> (x < nb_temps)%nat ->
  temp_type C x = temp_type C d -> d <> x -> R df x ->
  tcg_opt_gen_mov C w d x ts = Some (ts', o') -> ring_def ts' (d :: df).
Proof.
  intros HR Hd Hx HT Hne Hrx H. unfold tcg_opt_gen_mov in H. apply bind_Some in H as (ts1 & H1 & H).
  destruct (reset_def ts df d ts1 HR Hd H1) as [HR1 F]. unfold is_state in H.
  case_bool_decide as Hc1; [done|]. destruct (copies_tracked C x d) eqn:HCT; [|by injection H as <- <-].
  case_bool_decide as Hc2; [done|]. injection H as <- <-.
  unfold copies_tracked in HCT. rewrite !andb_true_iff, !Nat.leb_le in HCT. destruct HCT as [[Hgx Hgd] Hloc].
  apply eqb_prop in Hloc. pose proof (fg_any _ _ _ _ F) as Hany.
  destruct (link_copy_wf C d x ts1) as (W2 & HC2 & _); try (done || lia); [apply HR1|].
  destruct HR1. split; [done| |].
  - intros u b [[-> ->]|Hc]%HC2; [|by apply rd_local0]. rewrite !is_dead_bb_end, Hloc.
    destruct (Nat.ltb_spec d nb_globals), (Nat.ltb_spec x nb_globals); try lia.
    by rewrite (proj2 (Nat.ltb_lt d nb_temps)), (proj2 (Nat.ltb_lt x nb_temps)).
  - intros u b [[-> ->]|Hc]%HC2; [|by apply rd_def0].
    rewrite !readable_iff, !elem_of_cons. rewrite readable_iff in Hrx. tauto.
Qed.

(** ** What an operation is rewritten to *)

Record rewritten df (o : TCGOp) ts' (o' : TCGOp) : Prop := {
  rw_ring : ring_def ts' (if ends_bb T o then [] else oargs o ++ df);
  rw_reads t : t ∈ iargs o' -> R df t;
  rw_outs : oargs o' = oargs o \/ (oargs o' = [] /\ forall d, d ∈ oargs o -> R df d);
  rw_bb : ends_bb T o' = ends_bb T o;
  rw_ok : op_ok C o' = true;
  rw_shape : shape_ok T o = true -> shape_ok T o' = true }.

Lemma rewritten_nop ts df o d : ring_def ts df -> oargs o = [d] -> ends_bb T o = false -> R df d ->
  rewritten df o ts op_nop.
Proof.
  intros HR Ho Hb Hd. split; try done; rewrite ?Ho, ?Hb.
  - refine (ring_def_ext _ _ _ _ HR). intros u. cbn. rewrite readable_iff in Hd.
    rewrite !readable_iff, elem_of_cons. split; [tauto|]. intros [?|[->|?]]; tauto.
  - intros t Ht. by apply not_elem_of_nil in Ht.
  - right. split; [done|]. intros x Hx%list_elem_of_singleton. by subst x.
Qed.

(** A result for an operation of the same outputs that reads only what may be read. *)
Lemma rewritten_op ts df o o' : ring_def ts (oargs o ++ df) -> ends_bb T o = false ->
  ends_bb T o' = false -> oargs o' = oargs o -> (forall t, t ∈ iargs o' -> R df t) ->
  op_ok C o' = true -> (shape_ok T o = true -> shape_ok T o' = true) -> rewritten df o ts o'.
Proof. intros HR Hb Hb' Ho Hi Hok Hs. split; try done; [by rewrite Hb|by left|by rewrite Hb, Hb']. Qed.

Lemma has_type_propagate ts w t : temps_wf C ts -> has_type C w t = true -> has_type C w (propagate ts t) = true.
Proof.
  intros W [Ht HT]%has_type_iff. destruct (propagate_ok C ts t W Ht) as (H1 & H2 & _).
  apply has_type_iff. by rewrite H2.
Qed.

Lemma gen_movi_rewritten ts df o w d v ts' o' : ring_def ts df -> oargs o = [d] -> ends_bb T o = false ->
  shape_ok T o = true -> has_type C w d = true ->
  tcg_opt_gen_movi C w d v ts = Some (ts', o') -> rewritten df o ts' o'.
Proof.
  intros HR Ho Hb Hs Hty H. pose proof (gen_movi_op _ _ _ _ _ _ _ H) as ->.
  apply rewritten_op; try done; [|intros t Ht; by apply not_elem_of_nil in Ht].
  rewrite Ho. apply has_type_iff in Hty as [Hd _]. by eapply gen_movi_def.
Qed.

Lemma gen_mov_rewritten ts df o w d x ts' o' : ring_def ts df -> oargs o = [d] -> ends_bb T o = false ->
  shape_ok T o = true -> has_type C w d = true -> has_type C w x = true -> d <> x -> R df x ->
  tcg_opt_gen_mov C w d x ts = Some (ts', o') -> rewritten df o ts' o'.
Proof.
  intros HR Ho Hb Hs Hd Hx Hne Hr H. pose proof (gen_mov_op _ _ _ _ _ _ _ H) as ->.
  apply rewritten_op; try done.
  - rewrite Ho. apply has_type_iff in Hd as [Hd Hd'], Hx as [Hx Hx']. eapply gen_mov_def; try done. congruence.
  - intros t Ht%list_elem_of_singleton. by subst t.
  - cbn. by rewrite Hd, Hx.
Qed.

Lemma fold_bin_const_rewritten ts df b w d x y ts' o' o : ring_def ts df -> oargs o = [d] ->
  ends_bb T o = false -> shape_ok T o = true -> has_type C w d = true -> has_type C w x = true ->
  has_type C w y = true -> R df x -> R df y ->
  fold_bin_const C b w d x y ts = Some (ts', o') -> rewritten df o ts' o'.
Proof.
  intros HR Ho Hb Hs Hd Hx Hy Hrx Hry H. unfold fold_bin_const in H. destruct (is_const ts x && is_const ts y).
  - apply bind_Some in H as (tmp & _ & H). by eapply gen_movi_rewritten.
  - apply bind_Some in H as (ts1 & H1 & [= <- <-]). pose proof (proj1 (has_type_iff C w d) Hd) as [Hd' _].
    apply rewritten_op; try done.
    + rewrite Ho. by apply (reset_def ts df d ts1).
    + intros t [->|Ht%list_elem_of_singleton]%elem_of_cons; [done|by subst t].
    + cbn. by rewrite Hd, Hx, Hy.
Qed.

(** An addition of zero and the like: nothing, or a move. *)
Lemma as_move_rewritten ts df w d x ts' o' o (dup : bool) : ring_def ts df -> oargs o = [d] ->
  ends_bb T o = false -> shape_ok T o = true -> has_type C w d = true -> has_type C w x = true ->
  R df x -> (dup = true -> is_copy_of ts d x = true) ->
  (if dup || Nat.eqb d x then Some (ts, op_nop) else tcg_opt_gen_mov C w d x ts) = Some (ts', o') ->
  rewritten df o ts' o'.
Proof.
  intros HR Ho Hb Hs Hd Hx Hr Hdup H. pose proof HR as [].
  destruct dup.
  - injection H as <- <-. apply (rewritten_nop _ _ _ d); try done. specialize (Hdup eq_refl).
    unfold is_copy_of, is_state in Hdup. apply andb_true_iff in Hdup as [Hst%bool_decide_eq_true Hv%Z.eqb_eq].
    apply (rd_def0 d x); [|done]. split; [by apply has_type_iff in Hd as [? _]|done].
  - cbn [orb] in H. destruct (Nat.eqb_spec d x) as [->|Hne].
    + injection H as <- <-. by apply (rewritten_nop _ _ _ x).
    + by eapply gen_mov_rewritten.
Qed.

Lemma simplify_bin_rewritten ts df b w d x y ts' o' o : ring_def ts df -> oargs o = [d] ->
  ends_bb T o = false -> shape_ok T o = true -> has_type C w d = true -> has_type C w x = true ->
  has_type C w y = true -> R df x -> R df y ->
  simplify_bin C b w d x y ts = Some (ts', o') -> rewritten df o ts' o'.
Proof.
  intros HR Ho Hb Hs Hd Hx Hy Hrx Hry H.
  assert (fold_bin_const C b w d x y ts = Some (ts', o') -> rewritten df o ts' o') as HF
    by (by eapply fold_bin_const_rewritten).
  assert ((if is_copy_of ts d x || Nat.eqb d x then Some (ts, op_nop) else tcg_opt_gen_mov C w d x ts)
    = Some (ts', o') -> rewritten df o ts' o') as HM by (by eapply as_move_rewritten).
  destruct b; cbn [simplify_bin] in H; try (by apply HF);
    try (destruct (is_const ts x); [by apply HF|]; destruct (is_zero ts y); [by apply HM|by apply HF]).
  - destruct (is_zero ts y); [by eapply gen_movi_rewritten|by apply HF].
  - destruct (Nat.eqb x y); [|by apply HF]. rewrite Nat.eqb_sym in H.
    by apply (as_move_rewritten ts df w d x ts' o' o false).
  - destruct (Nat.eqb x y); [|by apply HF]. rewrite Nat.eqb_sym in H.
    by apply (as_move_rewritten ts df w d x ts' o' o false).
Qed.

Lemma fold_other_rewritten ts df opc se outs ins consts ts' o' : ring_def ts df ->
  op_ok C (op_other opc se outs ins consts) = true -> (forall t, t ∈ ins -> R df t) ->
  fold_other C opc se outs ins consts ts = Some (ts', o') ->
  rewritten df (op_other opc se outs ins consts) ts' o'.
Proof.
  intros HR Hok Hi H. cbn in Hok. apply andb_true_iff in Hok as [Ho Hin]. unfold fold_other in H.
  apply bind_Some in H as (ts1 & H1 & [= <- <-]). pose proof (temps_in _ _ Hin) as Hin'.
  pose proof (reset_temps_def outs ts df ts1 HR (temps_in _ _ Ho) H1) as HR1.
  set (ins' := if se then ins else propagate ts <$> ins).
  assert (forall t, t ∈ ins' -> (t < nb_temps)%nat /\ R df t) as Hins.
  { intros t Ht. rewrite Forall_forall in Hin'. unfold ins' in Ht. destruct se; [by auto|].
    apply list_elem_of_fmap in Ht as (x & -> & Hx). rewrite propagate_def by auto. split; [|by apply Hi].
    apply (propagate_ok C ts x); [apply HR|by apply Hin']. }
  assert (length ins' = length ins) as Hl by (unfold ins'; destruct se; [done|apply length_fmap]).
  split; cbn [iargs oargs].
  - destruct (ends_bb T _); [by eapply ring_def_nil|done].
  - intros t Ht. by apply Hins.
  - by left.
  - done.
  - cbn. rewrite Ho. apply forallb_forall. intros t Ht%list_elem_of_In. by apply Nat.ltb_lt, Hins.
  - cbn. by rewrite Hl.
Qed.

Lemma ring_def_clear ts : ring_def (clear_temps nb_temps ts) [].
Proof.
  assert (forall t, (t < nb_temps)%nat -> state (clear_temps nb_temps ts t) = TCG_TEMP_UNDEF) as HU.
  { intros t Ht. unfold clear_temps. by destruct (Nat.ltb_spec t nb_temps); [|lia]. }
  split.
  - split.
    + intros t Ht. by rewrite HU.
    + intros b [Hb Hb']. by rewrite HU in Hb'.
    + intros t Ht. rewrite HU by done. by intros [?|?].
  - intros u b (Hu & Hs & _). by rewrite HU in Hs.
  - intros u b (Hu & Hs & _). by rewrite HU in Hs.
Qed.

Lemma fold_op_rewritten ts df o ts' o' : context_ok C = true -> ring_def ts df -> op_ok C o = true ->
  (forall t, t ∈ iargs o -> R df t) -> fold_op C o ts = Some (ts', o') -> rewritten df o ts' o'.
Proof.
  intros HC HR Hok Hi H. pose proof (rd_wf _ _ HR) as W.
  assert (forall t w, has_type C w t = true -> t ∈ iargs o -> R df (propagate ts t)) as Hp.
  { intros t w [Ht _]%has_type_iff Hin. apply propagate_def; auto. }
  destruct o; cbn [fold_op] in H; try (injection H as <- <-; split; [apply ring_def_clear|done|by left|done..]).
  - injection H as <- <-. by apply rewritten_op.
  - cbn in Hok. apply andb_true_iff in Hok as [Hd Hs]. pose proof (has_type_propagate ts w src W Hs) as Hs'.
    pose proof (Hp src w Hs ltac:(left)) as Hr. unfold fold_mov in H.
    apply has_type_iff in Hs as Hs2. destruct (propagate_ok C ts src W (proj1 Hs2)) as (_ & _ & Hnc & _).
    assert (is_copy_of ts (propagate ts src) dst = false) as Ec.
    { unfold is_copy_of, is_state. by rewrite bool_decide_false. }
    rewrite Ec in H. cbn [orb] in H. destruct (Nat.eqb_spec dst (propagate ts src)) as [->|Hne].
    + injection H as <- <-. by apply (rewritten_nop _ _ _ (propagate ts src)).
    + destruct (is_const ts (propagate ts src)); [by eapply gen_movi_rewritten|by eapply gen_mov_rewritten].
  - cbn in Hok. by eapply gen_movi_rewritten.
  - cbn in Hok. rewrite !andb_true_iff in Hok. destruct Hok as [[Hw Hd] Hs].
    pose proof (has_type_propagate ts w src W Hs) as Hs'. pose proof (Hp src w Hs ltac:(left)) as Hr.
    unfold fold_un in H. destruct (is_const ts (propagate ts src)); [by eapply gen_movi_rewritten|].
    apply bind_Some in H as (ts1 & H1 & [= <- <-]). apply rewritten_op; try done.
    + apply has_type_iff in Hd as [Hd _]. by apply (reset_def ts df dst ts1).
    + intros t Ht%list_elem_of_singleton. by subst t.
    + cbn. by rewrite Hw, Hd, Hs'.
  - cbn in Hok. rewrite !andb_true_iff in Hok. destruct Hok as [[Hd Hx] Hy].
    pose proof (has_type_propagate ts w src1 W Hx) as Hx'. pose proof (Hp src1 w Hx ltac:(left)) as Hrx.
    pose proof (has_type_propagate ts w src2 W Hy) as Hy'. pose proof (Hp src2 w Hy ltac:(right; left)) as Hry.
    unfold fold_bin in H.
    destruct (commutative b && is_const ts (propagate ts src1));
      by refine (simplify_bin_rewritten ts df b w dst _ _ ts' o' _ HR _ _ _ _ _ _ _ _ H).
  - cbn in Hok. pose proof Hok as Hok'. apply andb_true_iff in Hok' as [Ho _]. unfold fold_call in H.
    apply bind_Some in H as (ts1 & H1 & H). apply bind_Some in H as (ts2 & H2 & [= <- <-]).
    apply rewritten_op; try done. cbn [oargs].
    assert (ring_def ts1 df \/ ring_def ts1 (seq 0 nb_globals ++ df)) as HR1.
    { destruct (call_is_pure flags); [injection H1 as <-; by left|right]. eapply reset_temps_def; [done| |done].
      apply Forall_forall. intros t Ht%elem_of_seq. apply Nat.leb_le in HC. lia. }
    assert (ring_def ts1 df) as HR1'.
    { destruct HR1 as [|HR1]; [done|]. refine (ring_def_ext _ _ _ _ HR1). intros u.
      rewrite !readable_iff, elem_of_app. split; [|tauto]. intros [?|[Hu%elem_of_seq|?]]; [tauto| |tauto].
      left. apply bb_live_global. lia. }
    eapply reset_temps_def; [done|by apply temps_in|done].
  - by apply (fold_other_rewritten ts).
Qed.

(** ** Blocks *)

(** The fold over a block: what is written before it is read stays so. *)
Lemma fold_ops_rewritten prog : context_ok C = true -> forallb (op_ok C) prog = true ->
  forall ts df df2 prog', ring_def ts df -> (forall u, R df u -> R df2 u) ->
  temps_ok C T df prog = true -> fold_ops C prog ts = Some prog' ->
  temps_ok C T df2 prog' = true /\
  Forall2 (fun o o' => exists df ts', rewritten df o ts' o') prog prog'.
Proof.
  intros HC. induction prog as [|o prog IH]; intros Hok ts df df2 prog' HR Hsub Ht H.
  { injection H as <-. by split; [|constructor]. }
  cbn in Hok, Ht. apply andb_true_iff in Hok as [Ho Hok], Ht as [Hi Ht].
  apply bind_Some in H as ([ts1 o'] & H1 & H). apply fmap_Some in H as (prog1 & H & ->).
  assert (forall t, t ∈ iargs o -> R df t) as Hreads by (intros t; by apply forallb_elem).
  pose proof (fold_op_rewritten ts df o ts1 o' HC HR Ho Hreads H1) as Hw. pose proof Hw as [].
  destruct (IH Hok ts1 _ (if ends_bb T o' then [] else oargs o' ++ df2) prog1 rw_ring0) as [Hrest Hall]; try done.
  - intros u. rewrite rw_bb0. destruct (ends_bb T o); [done|].
    specialize (Hsub u). rewrite !readable_iff in *. rewrite !elem_of_app.
    destruct rw_outs0 as [->|[-> Hd]]; [tauto|]. intros [?|[Hu|?]]; [tauto| |tauto].
    apply Hd in Hu. rewrite readable_iff in Hu. tauto.
  - split; [|constructor; [by exists df, ts1|done]]. cbn. rewrite Hrest, andb_true_r.
    apply forallb_forall. intros t Ht'%list_elem_of_In. by apply Hsub, rw_reads0.
Qed.

Lemma rewritten_all (f : TCGOp -> bool) prog prog' :
  Forall2 (fun o o' => exists df ts', rewritten df o ts' o') prog prog' ->
  (forall df o ts' o', rewritten df o ts' o' -> f o = true -> f o' = true) ->
  forallb f prog = true -> forallb f prog' = true.
Proof.
  intros HA Hf. induction HA as [|o o' prog prog' (df & ts' & Hw) HA IH]; [done|].
  cbn. rewrite !andb_true_iff. intros [Ho Hp]. split; [by eapply Hf|by apply IH].
Qed.

Lemma tcg_optimize_block_ok prog ts prog' : context_ok C = true -> block_ok C T prog ->
  tcg_optimize C prog ts = Some prog' -> block_ok C T prog'.
Proof.
  intros HC [Hops Houts Hsh Htmp] H. destruct (fold_ops_rewritten prog HC Hops _ [] [] prog' (ring_def_clear ts)) as [Ht HA]; try done.
  split; [..|done]; (eapply rewritten_all; [exact HA|intros df o ts' o' []|done]); try done.
  unfold outs_ok. rewrite !bool_decide_eq_true. destruct rw_outs0 as [->|[-> _]]; [done|]. intros _. apply NoDup_nil_2.
Qed.

Context {World : Type}.
Context (call_sem : Z -> list Z -> list Z -> World -> option (effect World * list Z)).
Context (other_sem : nat -> list Z -> list Z -> World -> option (effect World)).

(** Calls and the operations without a case of their own keep their outputs. *)
Lemma fold_op_same_outs o ts ts' o' : fold_op C o ts = Some (ts', o') ->
  match o' with
  | op_call outs ins flags => o = op_call outs ins flags
  | op_other opc se outs ins consts => exists ins', o = op_other opc se outs ins' consts
  | _ => True
  end.
Proof. intros H. destruct o; fold_cases H; try done; simplify_eq; by eexists. Qed.

Lemma fold_ops_origin prog : forall ts prog' o', fold_ops C prog ts = Some prog' -> o' ∈ prog' ->
  exists o ts1 ts2, o ∈ prog /\ fold_op C o ts1 = Some (ts2, o').
Proof.
  induction prog as [|o prog IH]; intros ts prog' o' H Ho; [injection H as <-; by apply not_elem_of_nil in Ho|].
  apply bind_Some in H as ([ts1 o1] & H1 & H). apply fmap_Some in H as (prog1 & H & ->).
  apply elem_of_cons in Ho as [->|Ho]; [exists o, ts, ts1; split; [left|done]|].
  destruct (IH _ _ _ H Ho) as (x & t1 & t2 & Hx & Hf). exists x, t1, t2. split; [by right|done].
Qed.

Lemma tcg_optimize_sem_ok prog ts prog' : sem_ok T call_sem other_sem prog ->
  tcg_optimize C prog ts = Some prog' -> sem_ok T call_sem other_sem prog'.
Proof.
  intros HS H. split; try apply HS.
  - intros outs ins flags vs gs w rs w' gs' Hin. destruct (fold_ops_origin _ _ _ _ H Hin) as (o & t1 & t2 & Ho & Hf).
    pose proof (fold_op_same_outs _ _ _ _ Hf) as Hs. cbn in Hs. subst o. by apply (call_arity _ _ _ _ HS) with (1 := Ho).
  - intros opc se outs ins consts vs w rs w' Hin.
    destruct (fold_ops_origin _ _ _ _ H Hin) as (o & t1 & t2 & Ho & Hf).
    destruct (fold_op_same_outs _ _ _ _ Hf) as [ins' ->]. by apply (other_arity _ _ _ _ HS) with (1 := Ho).
Qed.

End Compose.

(** ** Example *)

(** Two globals, plain temporaries and one local one, number 7. *)
Definition live_ctx : TCGContext :=
  {| nb_globals := 2; nb_temps := 8; temp_type _ := TCG_TYPE_I32; temp_local t := Nat.eqb t 7 |}.

(** Operation 2 leaves the block. *)
Definition live_table : OpTable := mkTable (fun opc => if Nat.eqb opc 2 then 5 else 0) 100 101.

Definition live_calls (flags : Z) (ins globals : list Z) (w : unit) : option (effect unit * list Z) := None.

Definition live_other (opc : nat) (consts ins : list Z) (w : unit) : option (effect unit) :=
  if Nat.eqb opc 2 then Some (Leaves (nth 0 consts 0) w) else None.

(** [t4 = 6; t5 = t4 * g0; t6 = t5; t4 = 0; t7 = t6 + t4; if (t7 < g1) goto 1; g0 = t7; 1: exit] *)
Definition live_prog : list TCGOp :=
  [op_movi TCG_TYPE_I32 4 6; op_bin op_mul TCG_TYPE_I32 5 4 0; op_mov TCG_TYPE_I32 6 5;
   op_movi TCG_TYPE_I32 4 0; op_bin op_add TCG_TYPE_I32 7 6 4;
   op_brcond TCG_TYPE_I32 7 1 TCG_COND_LTU 1; op_mov TCG_TYPE_I32 0 7; op_set_label 1;
   op_other 2 true [] [] [17]].

Definition live_opt : list TCGOp :=
  [op_movi TCG_TYPE_I32 4 6; op_bin op_mul TCG_TYPE_I32 5 0 4; op_mov TCG_TYPE_I32 6 5;
   op_movi TCG_TYPE_I32 4 0; op_mov TCG_TYPE_I32 7 5;
   op_brcond TCG_TYPE_I32 7 1 TCG_COND_LTU 1; op_mov TCG_TYPE_I32 0 7; op_set_label 1;
   op_other 2 true [] [] [17]].

Definition blank_temps : Temps := fun _ => mkInfo TCG_TEMP_UNDEF 0 0 0.

(** The copy to [t6] and the second constant are removed; the sources of the product and of
    the copy to [t7] die there. *)
Example live_demo :
  tcg_optimize live_ctx live_prog blank_temps = Some live_opt /\
  tcg_liveness_analysis live_ctx live_table live_opt =
    [(op_movi TCG_TYPE_I32 4 6, 0); (op_bin op_mul TCG_TYPE_I32 5 0 4, 4); (op_nop, 0);
     (op_nop, 0); (op_mov TCG_TYPE_I32 7 5, 2);
     (op_brcond TCG_TYPE_I32 7 1 TCG_COND_LTU 1, 0); (op_mov TCG_TYPE_I32 0 7, 0);
     (op_set_label 1, 0); (op_other 2 true [] [] [17], 0)].
Proof. split; vm_compute; reflexivity. Qed.

Lemma live_prog_ok : block_ok live_ctx live_table live_prog.
Proof. split; vm_compute; reflexivity. Qed.

Lemma live_sem_ok prog : sem_ok live_table live_calls live_other prog.
Proof.
  split; try done.
  - intros opc se outs ins consts vs w rs w' _. unfold live_other. by destruct (Nat.eqb opc 2).
  - intros opc consts vs w e. unfold live_table, live_other. cbn. by destruct (Nat.eqb opc 2).
  - intros opc consts vs w c w'. unfold live_table, live_other. cbn. destruct (Nat.eqb opc 2); [|done].
    intros _. by left.
Qed.

Definition live_state : State unit := mkState [7; 9; 0; 0; 0; 0; 0; 0] ().

Lemma live_state_ok : state_ok live_ctx live_state.
Proof.
  split; [done|]. intros t x Hx. do 8 (destruct t as [|t]; [injection Hx as <-; done|]). done.
Qed.

(** ** Properties *)

(** C23: The liveness analysis is sound.  For a block in the documented form, whose helpers
    and operations do what their flags promise: the block the pass returns, run with the
    values of all marked arguments and, between the basic blocks, of all plain temporaries
    replaced by anything at every step, runs in lock step with the original - it leaves
    with the same exit code, the same globals and the same memory - unless the original
    reaches undefined behaviour. *)
Theorem tcg_liveness_correct {World : Type} (C : TCGContext) (T : OpTable)
    (call_sem : Z -> list Z -> list Z -> World -> option (effect World * list Z))
    (other_sem : nat -> list Z -> list Z -> World -> option (effect World))
    (prog : list TCGOp) (junk : nat -> nat -> Z) (fuel : nat) (s : State World) :
  context_ok C = true -> block_ok C T prog -> sem_ok T call_sem other_sem prog ->
  same_effect C (run C call_sem other_sem fuel prog 0 s)
    (run_la C T call_sem other_sem junk fuel (tcg_liveness_analysis C T prog) 0 s).
Proof. intros HC HB HS. by apply run_la_sim. Qed.

Lemma tcg_liveness_correct_witness : exists b,
  run_la live_ctx live_table live_calls live_other (fun _ _ => 12345) 20
    (tcg_liveness_analysis live_ctx live_table live_prog) 0 live_state = Finished (Some 17) b /\
  world b = () /\ forall u, (u < 2)%nat -> vals b !! u = [42; 9; 0; 0; 0; 42; 42; 42] !! u.
Proof.
  exact (tcg_liveness_correct live_ctx live_table live_calls live_other live_prog (fun _ _ => 12345) 20
    live_state eq_refl live_prog_ok (live_sem_ok live_prog)).
Defined.

(** The optimiser and the liveness analysis compose: the block they produce one after
    the other, run with everything the analysis declares dead replaced by anything, has
    the effect of the block the translator emitted. *)
Lemma optimize_liveness_correct {World : Type} (C : TCGContext) (T : OpTable)
    (call_sem : Z -> list Z -> list Z -> World -> option (effect World * list Z))
    (other_sem : nat -> list Z -> list Z -> World -> option (effect World))
    (prog prog' : list TCGOp) (ts : Temps) (junk : nat -> nat -> Z) (fuel : nat) (s : State World) :
  context_ok C = true -> block_ok C T prog -> sem_ok T call_sem other_sem prog -> state_ok C s ->
  tcg_optimize C prog ts = Some prog' ->
  same_effect C (run C call_sem other_sem fuel prog 0 s)
    (run_la C T call_sem other_sem junk fuel (tcg_liveness_analysis C T prog') 0 s).
Proof.
  intros HC HB HS Hok HF. destruct (run C call_sem other_sem fuel prog 0 s) eqn:E; [..|].
  2: done.
  all: rewrite <- E, <- (run_simulation C call_sem other_sem prog (clear_temps (nb_temps C) ts) prog');
    [apply run_la_sim; [done|by eapply tcg_optimize_block_ok|by eapply tcg_optimize_sem_ok|done]
    |done|apply HB|done|split; [done|left; eexists; split; [done|by apply inv_clear]]|by rewrite E].
Qed.
