(* ===== verification/TcgRegAlloc.v ===== *)
(** * The register allocator of TCG

    Model of the last pass over a block in src/emul/qemu/tcg/tcg.c: [tcg_gen_code_common]
    goes through the operations that the liveness analysis left and emits host
    instructions, keeping track of where each temporary is - a host register, its memory
    slot, a known constant, or nowhere ([tcg_reg_alloc_start], [tcg_reg_alloc_movi],
    [tcg_reg_alloc_mov], [tcg_reg_alloc_op], [tcg_reg_alloc_call], [tcg_reg_alloc_bb_end] and
    their helpers).

    The host is a parameter, the record [Target]: its registers, calling convention and the
    constraints of its instructions (tcg-target.c).  The instructions are those the pass
    asks the back end for ([tcg_out_ld], [tcg_out_st], [tcg_out_mov], [tcg_out_movi],
    [tcg_out_op], [tcg_out_label]).  [tcg_abort], a failed assertion, and a load from the
    slot of a temporary that has none (which would use the slot of an earlier block) are
    [None].  There are no dummy arguments on a 64-bit host. *)

From S2P Require Import Prelude TcgIr TcgLive.
Open Scope Z_scope.

Definition TCG_OPF_NOT_PRESENT : Z := 16.

(** ** Register sets *)

Definition tcg_regset_test_reg (d : Z) (r : nat) : bool := Z.testbit d (Z.of_nat r).
Definition tcg_regset_set_reg (d : Z) (r : nat) : Z := Z.lor d (Z.shiftl 1 (Z.of_nat r)).
Definition tcg_regset_andnot (a b : Z) : Z := Z.land a (Z.lnot b).

(** ** The host *)

Record TCGArgConstraint := mkCt {
  ct_alias : bool;
  ct_ialias : bool;
  alias_index : nat;
  ct_regs : Z;
  ct_const : Z -> bool (** [tcg_target_const_match(val, arg_ct)] *)
}.

Record Target := mkTarget {
  TCG_TARGET_NB_REGS : nat;
  tcg_target_reg_alloc_order : list nat;
  tcg_target_available_regs : TCGType -> Z;
  tcg_target_call_clobber_regs : Z;
  reserved_regs : Z;
  tcg_target_call_iarg_regs : list nat;
  tcg_target_get_call_iarg_regs_count : Z -> nat;
  tcg_target_call_oarg_regs : list nat;
  args_ct : TCGOp -> nat -> TCGArgConstraint;
  sorted_args : TCGOp -> list nat;
  TCG_TARGET_HAS : TCGOp -> bool; (** the operation is not [TCG_OPF_NOT_PRESENT] *)
  frame_reg : nat;
  frame_start : Z;
  frame_end : Z;
  TCG_REG_CALL_STACK : nat;
  TCG_TARGET_CALL_STACK_OFFSET : Z;
  TCG_TARGET_STACK_ALIGN : Z;
  TCG_STATIC_CALL_ARGS_SIZE : Z }.

(** An argument of an instruction: [new_args[i]] with [const_args[i]]. *)
Inductive operand := Reg (r : nat) | Const (v : Z).

Inductive HInsn :=
  | Hld (w : TCGType) (dst base : nat) (off : Z)
  | Hst (w : TCGType) (src base : nat) (off : Z)
  | Hmov (w : TCGType) (dst src : nat)
  | Hmovi (w : TCGType) (dst : nat) (v : Z)
  | Hop (o : TCGOp) (outs : list nat) (ins : list operand)
  | Hcall (outs ins : list nat) (flags : Z) (func : operand) (regs : list nat) (stack : list Z)
  | Hlabel (l : nat).

(** ** The state of the pass *)

Inductive val_type := TEMP_VAL_DEAD | TEMP_VAL_REG | TEMP_VAL_MEM | TEMP_VAL_CONST.

#[global] Instance val_type_eq_dec : EqDecision val_type.
Proof. solve_decision. Defined.

Record TCGTemp := mkTemp {
  tval_type : val_type;
  treg : nat;
  tval : Z;
  mem_reg : nat;
  mem_offset : Z;
  fixed_reg : bool;
  mem_coherent : bool;
  mem_allocated : bool }.

Record Alloc := mkAlloc {
  temps : nat -> TCGTemp;
  reg_to_temp : nat -> option nat;
  current_frame_offset : Z;
  code : list HInsn }.

Definition fupd {A} (f : nat -> A) (k : nat) (x : A) : nat -> A := fun u => if Nat.eqb u k then x else f u.

Definition set_temp (t : nat) (ts : TCGTemp) (st : Alloc) : Alloc :=
  mkAlloc (fupd (temps st) t ts) (reg_to_temp st) (current_frame_offset st) (code st).
Definition set_reg_to_temp (r : nat) (t : option nat) (st : Alloc) : Alloc :=
  mkAlloc (temps st) (fupd (reg_to_temp st) r t) (current_frame_offset st) (code st).
Definition emit (i : HInsn) (st : Alloc) : Alloc :=
  mkAlloc (temps st) (reg_to_temp st) (current_frame_offset st) (code st ++ [i]).

Definition with_val_type (x : val_type) (ts : TCGTemp) : TCGTemp :=
  mkTemp x (treg ts) (tval ts) (mem_reg ts) (mem_offset ts) (fixed_reg ts) (mem_coherent ts) (mem_allocated ts).
Definition with_reg (r : nat) (coherent : bool) (ts : TCGTemp) : TCGTemp :=
  mkTemp TEMP_VAL_REG r (tval ts) (mem_reg ts) (mem_offset ts) (fixed_reg ts) coherent (mem_allocated ts).
Definition with_const (v : Z) (ts : TCGTemp) : TCGTemp :=
  mkTemp TEMP_VAL_CONST (treg ts) v (mem_reg ts) (mem_offset ts) (fixed_reg ts) (mem_coherent ts) (mem_allocated ts).

Section RegAlloc.
Context (C : TCGContext) (T : OpTable) (H : Target).

Definition set_val_type (x : val_type) (t : nat) (st : Alloc) : Alloc :=
  set_temp t (with_val_type x (temps st t)) st.

Definition tcg_reg_alloc_start (g : nat -> TCGTemp) : Alloc :=
  mkAlloc
    (fun i =>
      if (i <? nb_globals C)%nat
      then with_val_type (if fixed_reg (g i) then TEMP_VAL_REG else TEMP_VAL_MEM) (g i)
      else mkTemp TEMP_VAL_DEAD (treg (g i)) (tval (g i)) (mem_reg (g i)) (mem_offset (g i)) false
             (mem_coherent (g i)) false)
    (fun _ => None) (frame_start H) [].

(** [sizeof(tcg_target_long)] is 8. *)
Definition temp_allocate_frame (t : nat) (st : Alloc) : option Alloc :=
  let off := Z.land (current_frame_offset st + 8 - 1) (Z.lnot (8 - 1)) in
  if frame_end H <? off + 8 then None
  else
    let ts := temps st t in
    Some (mkAlloc
      (fupd (temps st) t
        (mkTemp (tval_type ts) (treg ts) (tval ts) (frame_reg H) off (fixed_reg ts) (mem_coherent ts) true))
      (reg_to_temp st) (off + 8) (code st)).

(** [if (!ts->mem_allocated) temp_allocate_frame(s, temp);] *)
Definition need_frame (t : nat) (st : Alloc) : option Alloc :=
  if mem_allocated (temps st t) then Some st else temp_allocate_frame t st.

(** [tcg_out_st(s, ts->type, reg, ts->mem_reg, ts->mem_offset)] *)
Definition st_temp (t reg : nat) (st : Alloc) : Alloc :=
  emit (Hst (temp_type C t) reg (mem_reg (temps st t)) (mem_offset (temps st t))) st.

(** [tcg_out_ld(s, ts->type, reg, ts->mem_reg, ts->mem_offset)] *)
Definition ld_temp (t reg : nat) (st : Alloc) : option Alloc :=
  if mem_allocated (temps st t)
  then Some (emit (Hld (temp_type C t) reg (mem_reg (temps st t)) (mem_offset (temps st t))) st)
  else None.

Definition tcg_reg_free (reg : nat) (st : Alloc) : option Alloc :=
  match reg_to_temp st reg with
  | None => Some st
  | Some t =>
      if negb (bool_decide (tval_type (temps st t) = TEMP_VAL_REG)) then None
      else
        st ← (if mem_coherent (temps st t) then Some st
              else st ← need_frame t st; Some (st_temp t reg st));
        Some (set_reg_to_temp reg None (set_val_type TEMP_VAL_MEM t st))
  end.

(** A register of [reg1 & ~reg2]: a free one if there is one. *)
Definition tcg_reg_alloc (reg1 reg2 : Z) (st : Alloc) : option (nat * Alloc) :=
  let reg_ct := tcg_regset_andnot reg1 reg2 in
  match find (fun r => tcg_regset_test_reg reg_ct r && bool_decide (reg_to_temp st r = None))
          (tcg_target_reg_alloc_order H) with
  | Some reg => Some (reg, st)
  | None =>
      reg ← find (tcg_regset_test_reg reg_ct) (tcg_target_reg_alloc_order H);
      st ← tcg_reg_free reg st;
      Some (reg, st)
  end.

Definition temp_save (t : nat) (allocated_regs : Z) (st : Alloc) : option Alloc :=
  let ts := temps st t in
  if fixed_reg ts then Some st
  else
    match tval_type ts with
    | TEMP_VAL_REG => tcg_reg_free (treg ts) st
    | TEMP_VAL_DEAD => Some (set_val_type TEMP_VAL_MEM t st)
    | TEMP_VAL_CONST =>
        '(reg, st) ← tcg_reg_alloc (tcg_target_available_regs H (temp_type C t)) allocated_regs st;
        st ← need_frame t st;
        let st := st_temp t reg (emit (Hmovi (temp_type C t) reg (tval ts)) st) in
        Some (set_val_type TEMP_VAL_MEM t st)
    | TEMP_VAL_MEM => Some st
    end.

Fixpoint save_temps (l : list nat) (allocated_regs : Z) (st : Alloc) : option Alloc :=
  match l with
  | [] => Some st
  | t :: l => st ← temp_save t allocated_regs st; save_temps l allocated_regs st
  end.

Definition save_globals : Z -> Alloc -> option Alloc := save_temps (seq 0 (nb_globals C)).

(** [if (ts->val_type == TEMP_VAL_REG) s->reg_to_temp[ts->reg] = -1;] *)
Definition leave_reg (t : nat) (st : Alloc) : Alloc :=
  match tval_type (temps st t) with
  | TEMP_VAL_REG => set_reg_to_temp (treg (temps st t)) None st
  | _ => st
  end.

Definition temp_dead (t : nat) (st : Alloc) : Alloc := set_val_type TEMP_VAL_DEAD t (leave_reg t st).

(** [if (!ts->fixed_reg) { ... ts->val_type = TEMP_VAL_DEAD; }] *)
Definition kill_temp (t : nat) (st : Alloc) : Alloc :=
  if fixed_reg (temps st t) then st else temp_dead t st.

Fixpoint bb_end_temps (l : list nat) (allocated_regs : Z) (st : Alloc) : option Alloc :=
  match l with
  | [] => Some st
  | t :: l =>
      st ← (if temp_local C t then temp_save t allocated_regs st else Some (temp_dead t st));
      bb_end_temps l allocated_regs st
  end.

Definition tcg_reg_alloc_bb_end (allocated_regs : Z) (st : Alloc) : option Alloc :=
  st ← bb_end_temps (seq (nb_globals C) (nb_temps C - nb_globals C)) allocated_regs st;
  save_globals allocated_regs st.

Definition IS_DEAD_ARG (dead_args : Z) (n : nat) : bool := Z.testbit dead_args (Z.of_nat n).

Definition tcg_reg_alloc_movi (t : nat) (val : Z) (st : Alloc) : Alloc :=
  if fixed_reg (temps st t) then emit (Hmovi (temp_type C t) (treg (temps st t)) val) st
  else
    let st := leave_reg t st in
    set_temp t (with_const val (temps st t)) st.

(** The end of [tcg_reg_alloc_mov]. *)
Definition assign_reg (t reg : nat) (st : Alloc) : Alloc :=
  let st := set_reg_to_temp reg (Some t) st in
  set_temp t (with_reg reg false (temps st t)) st.

(** The register of the output, or a new one. *)
Definition mov_reg (ct : Z) (o : nat) (st : Alloc) : option (nat * Alloc) :=
  match tval_type (temps st o) with
  | TEMP_VAL_REG => Some (treg (temps st o), st)
  | _ => tcg_reg_alloc ct (reserved_regs H) st
  end.

Definition tcg_reg_alloc_mov (ct : Z) (o i : nat) (dead_args : Z) (st : Alloc) : option Alloc :=
  let ts := temps st i in
  match tval_type ts with
  | TEMP_VAL_REG =>
      if IS_DEAD_ARG dead_args 1 && negb (fixed_reg ts) && negb (fixed_reg (temps st o)) then
        let st := leave_reg o st in
        let st := set_reg_to_temp (treg ts) None st in
        let st := set_val_type TEMP_VAL_DEAD i st in
        Some (assign_reg o (treg ts) st)
      else
        '(reg, st) ← mov_reg ct o st;
        let st := if Nat.eqb (treg ts) reg then st else emit (Hmov (temp_type C o) reg (treg ts)) st in
        Some (assign_reg o reg st)
  | TEMP_VAL_MEM =>
      '(reg, st) ← mov_reg ct o st;
      st ← ld_temp i reg st;
      Some (assign_reg o reg st)
  | TEMP_VAL_CONST =>
      if fixed_reg (temps st o) then
        let reg := treg (temps st o) in
        Some (assign_reg o reg (emit (Hmovi (temp_type C o) reg (tval ts)) st))
      else
        let st := leave_reg o st in
        Some (set_temp o (with_const (tval ts) (temps st o)) st)
  | TEMP_VAL_DEAD => None
  end.

(** *** Operations with constraints *)

(** Bringing an input into a register, unless it is a constant the instruction takes. *)
Definition load_input (arg : nat) (ct : TCGArgConstraint) (allocated_regs : Z) (st : Alloc)
    : option (option Z * Alloc) :=
  let ts := temps st arg in
  match tval_type ts with
  | TEMP_VAL_MEM =>
      '(reg, st) ← tcg_reg_alloc (ct_regs ct) allocated_regs st;
      st ← ld_temp arg reg st;
      Some (None, set_reg_to_temp reg (Some arg) (set_temp arg (with_reg reg true (temps st arg)) st))
  | TEMP_VAL_CONST =>
      if ct_const ct (tval ts) then Some (Some (tval ts), st)
      else
        '(reg, st) ← tcg_reg_alloc (ct_regs ct) allocated_regs st;
        let st := emit (Hmovi (temp_type C arg) reg (tval ts)) st in
        Some (None, set_reg_to_temp reg (Some arg) (set_temp arg (with_reg reg false (temps st arg)) st))
  | TEMP_VAL_REG => Some (None, st)
  | TEMP_VAL_DEAD => None
  end.

(** [goto allocate_in_reg] *)
Definition must_copy (args : list nat) (arg i : nat) (ct : TCGArgConstraint) (dead_args : Z) (st : Alloc)
    : bool :=
  ct_ialias ct &&
  (if fixed_reg (temps st arg) then negb (bool_decide (args !! alias_index ct = Some arg))
   else negb (IS_DEAD_ARG dead_args i)).

Definition place_input (args : list nat) (arg i : nat) (ct : TCGArgConstraint) (dead_args : Z)
    (allocated_regs : Z) (st : Alloc) : option (operand * Z * Alloc) :=
  '(c, st) ← load_input arg ct allocated_regs st;
  match c with
  | Some v => Some (Const v, allocated_regs, st)
  | None =>
      let r := treg (temps st arg) in
      '(reg, st) ←
        (if must_copy args arg i ct dead_args st || negb (tcg_regset_test_reg (ct_regs ct) r) then
           '(reg, st') ← tcg_reg_alloc (ct_regs ct) allocated_regs st;
           Some (reg, emit (Hmov (temp_type C arg) reg (treg (temps st' arg))) st')
         else Some (r, st));
      Some (Reg reg, tcg_regset_set_reg allocated_regs reg, st)
  end.

(** The loop over the inputs, in the order of [sorted_args]. *)
Fixpoint place_inputs (o : TCGOp) (args : list nat) (dead_args : Z) (l : list nat)
    (new_args : nat -> option operand) (allocated_regs : Z) (st : Alloc)
    : option ((nat -> option operand) * Z * Alloc) :=
  match l with
  | [] => Some (new_args, allocated_regs, st)
  | i :: l =>
      arg ← args !! i;
      '(x, allocated_regs, st) ← place_input args arg i (args_ct H o i) dead_args allocated_regs st;
      place_inputs o args dead_args l (fupd new_args i (Some x)) allocated_regs st
  end.

(** "mark dead temporaries and free the associated registers", arguments from number [i]. *)
Fixpoint kill_inputs (i : nat) (ins : list nat) (dead_args : Z) (st : Alloc) : Alloc :=
  match ins with
  | [] => st
  | arg :: ins =>
      kill_inputs (S i) ins dead_args (if IS_DEAD_ARG dead_args i then kill_temp arg st else st)
  end.

Fixpoint free_regs (l : list nat) (st : Alloc) : option Alloc :=
  match l with
  | [] => Some st
  | r :: l =>
      st ← (if tcg_regset_test_reg (tcg_target_call_clobber_regs H) r then tcg_reg_free r st else Some st);
      free_regs l st
  end.

(** The new place of an output in register [reg]. *)
Definition output_in (arg i reg : nat) (dead_args : Z) (st : Alloc) : Alloc :=
  if fixed_reg (temps st arg) then st
  else
    let st := leave_reg arg st in
    if IS_DEAD_ARG dead_args i then set_val_type TEMP_VAL_DEAD arg st
    else set_reg_to_temp reg (Some arg) (set_temp arg (with_reg reg false (temps st arg)) st).

Definition place_output (arg i : nat) (ct : TCGArgConstraint) (new_args : nat -> option operand)
    (dead_args allocated_regs : Z) (st : Alloc) : option (nat * Z * Alloc) :=
  let ts := temps st arg in
  if negb (ct_alias ct) && fixed_reg ts && tcg_regset_test_reg (ct_regs ct) (treg ts)
  then Some (treg ts, allocated_regs, st)
  else
    '(reg, st) ←
      (if ct_alias ct then
         match new_args (alias_index ct) with Some (Reg r) => Some (r, st) | _ => None end
       else tcg_reg_alloc (ct_regs ct) allocated_regs st);
    Some (reg, tcg_regset_set_reg allocated_regs reg, output_in arg i reg dead_args st).

Fixpoint place_outputs (o : TCGOp) (args : list nat) (dead_args : Z) (l : list nat)
    (new_args : nat -> option operand) (allocated_regs : Z) (st : Alloc)
    : option ((nat -> option operand) * Alloc) :=
  match l with
  | [] => Some (new_args, st)
  | i :: l =>
      arg ← args !! i;
      '(reg, allocated_regs, st) ← place_output arg i (args_ct H o i) new_args dead_args allocated_regs st;
      place_outputs o args dead_args l (fupd new_args i (Some (Reg reg))) allocated_regs st
  end.

(** The last loop: outputs with a register of their own. *)
Fixpoint move_outputs (outs : list nat) (regs : list nat) (st : Alloc) : Alloc :=
  match outs, regs with
  | arg :: outs, reg :: regs =>
      move_outputs outs regs
        (if fixed_reg (temps st arg) && negb (Nat.eqb (treg (temps st arg)) reg)
         then emit (Hmov (temp_type C arg) (treg (temps st arg)) reg) st else st)
  | _, _ => st
  end.

Definition reg_operand (x : option operand) : option nat :=
  match x with Some (Reg r) => Some r | _ => None end.

Definition tcg_reg_alloc_op (o : TCGOp) (dead_args : Z) (st : Alloc) : option Alloc :=
  let nb_oargs := length (oargs o) in
  let args := oargs o ++ iargs o in
  '(new_args, allocated_regs, st) ←
    place_inputs o args dead_args (drop nb_oargs (sorted_args H o)) (fun _ => None) (reserved_regs H) st;
  '(new_args, st) ←
    (if has_flag (flags_of T o) TCG_OPF_BB_END then
       st ← tcg_reg_alloc_bb_end allocated_regs st; Some (new_args, st)
     else
       let st := kill_inputs nb_oargs (iargs o) dead_args st in
       st ← (if has_flag (flags_of T o) TCG_OPF_CALL_CLOBBER then
               st ← free_regs (seq 0 (TCG_TARGET_NB_REGS H)) st;
               save_globals allocated_regs st
             else Some st);
       place_outputs o args dead_args (take nb_oargs (sorted_args H o)) new_args (reserved_regs H) st);
  ins ← mapM new_args (seq nb_oargs (length (iargs o)));
  outs ← mapM (fun i => reg_operand (new_args i)) (seq 0 nb_oargs);
  Some (move_outputs (oargs o) outs (emit (Hop o outs ins) st)).

(** *** Calls *)

(** The arguments on the stack. *)
Fixpoint stack_args (params : list nat) (stack_offset : Z) (st : Alloc) : option Alloc :=
  match params with
  | [] => Some st
  | arg :: params =>
      let ts := temps st arg in
      let out reg st := emit (Hst (temp_type C arg) reg (TCG_REG_CALL_STACK H) stack_offset) st in
      st ←
        match tval_type ts with
        | TEMP_VAL_REG => Some (out (treg ts) st)
        | TEMP_VAL_MEM =>
            '(reg, st) ← tcg_reg_alloc (tcg_target_available_regs H (temp_type C arg)) (reserved_regs H) st;
            st ← ld_temp arg reg st;
            Some (out reg st)
        | TEMP_VAL_CONST =>
            '(reg, st) ← tcg_reg_alloc (tcg_target_available_regs H (temp_type C arg)) (reserved_regs H) st;
            Some (out reg (emit (Hmovi (temp_type C arg) reg (tval ts)) st))
        | TEMP_VAL_DEAD => None
        end;
      stack_args params (stack_offset + 8) st
  end.

(** The arguments in registers. *)
Fixpoint reg_args (params regs : list nat) (allocated_regs : Z) (st : Alloc) : option (Z * Alloc) :=
  match params, regs with
  | arg :: params, reg :: regs =>
      st ← tcg_reg_free reg st;
      let ts := temps st arg in
      st ←
        match tval_type ts with
        | TEMP_VAL_REG =>
            Some (if Nat.eqb (treg ts) reg then st else emit (Hmov (temp_type C arg) reg (treg ts)) st)
        | TEMP_VAL_MEM => ld_temp arg reg st
        | TEMP_VAL_CONST => Some (emit (Hmovi (temp_type C arg) reg (tval ts)) st)
        | TEMP_VAL_DEAD => None
        end;
      reg_args params regs (tcg_regset_set_reg allocated_regs reg) st
  | [], _ => Some (allocated_regs, st)
  | _ :: _, [] => None
  end.

(** The function. *)
Definition func_arg (t : nat) (ct : TCGArgConstraint) (allocated_regs : Z) (st : Alloc)
    : option (operand * Z * Alloc) :=
  let ts := temps st t in
  match tval_type ts with
  | TEMP_VAL_MEM =>
      '(reg, st) ← tcg_reg_alloc (ct_regs ct) allocated_regs st;
      st ← ld_temp t reg st;
      Some (Reg reg, tcg_regset_set_reg allocated_regs reg, st)
  | TEMP_VAL_REG =>
      '(reg, st) ←
        (if tcg_regset_test_reg (ct_regs ct) (treg ts) then Some (treg ts, st)
         else
           '(reg, st) ← tcg_reg_alloc (ct_regs ct) allocated_regs st;
           Some (reg, emit (Hmov (temp_type C t) reg (treg ts)) st));
      Some (Reg reg, tcg_regset_set_reg allocated_regs reg, st)
  | TEMP_VAL_CONST =>
      if ct_const ct (tval ts) then Some (Const (tval ts), allocated_regs, st)
      else
        '(reg, st) ← tcg_reg_alloc (ct_regs ct) allocated_regs st;
        Some (Reg reg, tcg_regset_set_reg allocated_regs reg, emit (Hmovi (temp_type C t) reg (tval ts)) st)
  | TEMP_VAL_DEAD => None
  end.

(** The results, in the registers of the calling convention. *)
Fixpoint call_outputs (i : nat) (outs regs : list nat) (dead_args : Z) (st : Alloc) : option Alloc :=
  match outs, regs with
  | [], _ => Some st
  | arg :: outs, reg :: regs =>
      if negb (bool_decide (reg_to_temp st reg = None)) then None
      else
        let ts := temps st arg in
        let st :=
          if fixed_reg ts
          then if Nat.eqb (treg ts) reg then st else emit (Hmov (temp_type C arg) (treg ts) reg) st
          else output_in arg i reg dead_args st in
        call_outputs (S i) outs regs dead_args st
  | _ :: _, [] => None
  end.

Definition tcg_reg_alloc_call (outs ins : list nat) (flags dead_args : Z) (st : Alloc) : option Alloc :=
  let ct := args_ct H (op_call outs ins flags) 0 in
  func ← last ins;
  let params := removelast ins in
  let nb_params := length params in
  let nb_regs := Nat.min (tcg_target_get_call_iarg_regs_count H flags) nb_params in
  let call_stack_size :=
    Z.land (Z.of_nat (nb_params - nb_regs) * 8 + TCG_TARGET_STACK_ALIGN H - 1)
      (Z.lnot (TCG_TARGET_STACK_ALIGN H - 1)) in
  if TCG_STATIC_CALL_ARGS_SIZE H <? call_stack_size then None
  else
    let off := TCG_TARGET_CALL_STACK_OFFSET H in
    st ← stack_args (drop nb_regs params) off st;
    let regs := take nb_regs (tcg_target_call_iarg_regs H) in
    '(allocated_regs, st) ← reg_args (take nb_regs params) regs (reserved_regs H) st;
    '(f, allocated_regs, st) ← func_arg func ct allocated_regs st;
    let st := kill_inputs (length outs) ins dead_args st in
    st ← free_regs (seq 0 (TCG_TARGET_NB_REGS H)) st;
    st ← (if has_flag flags TCG_CALL_CONST then Some st else save_globals allocated_regs st);
    let stack := (fun k => off + 8 * Z.of_nat k) <$> seq 0 (nb_params - nb_regs) in
    call_outputs 0 outs (tcg_target_call_oarg_regs H) dead_args
      (emit (Hcall outs ins flags f regs stack) st).

(** ** The pass *)

(** One round of the loop of [tcg_gen_code_common]. *)
Definition gen_op (o : TCGOp) (dead_args : Z) (st : Alloc) : option Alloc :=
  match o with
  | op_mov _ d s => tcg_reg_alloc_mov (ct_regs (args_ct H o 0)) d s dead_args st
  | op_movi _ d v => Some (tcg_reg_alloc_movi d v st)
  | op_nop => Some st
  | op_set_label l => st ← tcg_reg_alloc_bb_end (reserved_regs H) st; Some (emit (Hlabel l) st)
  | op_call outs ins flags => tcg_reg_alloc_call outs ins flags dead_args st
  | op_other opc _ outs _ _ =>
      if Nat.eqb opc (INDEX_op_debug_insn_start T) then Some st
      else if Nat.eqb opc (INDEX_op_discard T) then
        t ← outs !! 0%nat; Some (kill_temp t st)
      else if has_flag (op_flags T opc) TCG_OPF_NOT_PRESENT then None
      else tcg_reg_alloc_op o dead_args st
  | _ => if TCG_TARGET_HAS H o then tcg_reg_alloc_op o dead_args st else None
  end.

Fixpoint gen_ops (prog : list (TCGOp * Z)) (st : Alloc) : option Alloc :=
  match prog with
  | [] => Some st
  | (o, m) :: prog => st ← gen_op o m st; gen_ops prog st
  end.

Definition tcg_gen_code (g : nat -> TCGTemp) (prog : list (TCGOp * Z)) : option (list HInsn) :=
  code <$> gen_ops prog (tcg_reg_alloc_start g).

(** *** The check of the debugging build *)

Definition check_regs (st : Alloc) : bool :=
  forallb (fun r =>
    match reg_to_temp st r with
    | Some k => bool_decide (tval_type (temps st k) = TEMP_VAL_REG) && Nat.eqb (treg (temps st k)) r
    | None => true
    end) (seq 0 (TCG_TARGET_NB_REGS H)) &&
  forallb (fun k =>
    let ts := temps st k in
    negb (bool_decide (tval_type ts = TEMP_VAL_REG) && negb (fixed_reg ts)
      && negb (bool_decide (reg_to_temp st (treg ts) = Some k)))) (seq 0 (nb_temps C)).

End RegAlloc.

(** ** The meaning of the instructions

    The memory is seen as the slots of the temporaries and of the arguments of calls.  An
    instruction reads and writes its operands at the types of the temporaries.  A helper
    finds the globals in their slots, or in the register of their own, and leaves them
    there.  The registers a call may change are replaced by [junk]. *)

Section Host.
Context {World : Type} (C : TCGContext) (T : OpTable) (H : Target) (g : nat -> TCGTemp).
Context (call_sem : Z -> list Z -> list Z -> World -> option (effect World * list Z)).
Context (other_sem : nat -> list Z -> list Z -> World -> option (effect World)).

Record Host := mkHost { hregs : nat -> Z; hmem : nat * Z -> Z; hworld : World }.

Definition mupd (m : nat * Z -> Z) (k : nat * Z) (x : Z) : nat * Z -> Z :=
  fun u => if bool_decide (u = k) then x else m u.

Definition set_hreg (r : nat) (v : Z) (h : Host) : Host := mkHost (fupd (hregs h) r v) (hmem h) (hworld h).
Definition set_hmem (k : nat * Z) (v : Z) (h : Host) : Host := mkHost (hregs h) (mupd (hmem h) k v) (hworld h).
Definition set_hworld (w : World) (h : Host) : Host := mkHost (hregs h) (hmem h) w.

Definition opval (h : Host) (x : operand) : Z := match x with Reg r => hregs h r | Const v => v end.

Definition typed (t : nat) (v : Z) : Z := uint (bits (temp_type C t)) v.

Definition typed_list (ts : list nat) (vs : list Z) : list Z := zip_with typed ts vs.

Fixpoint set_hregs (outs regs : list nat) (rs : list Z) (h : Host) : Host :=
  match outs, regs, rs with
  | t :: outs, r :: regs, v :: rs => set_hregs outs regs rs (set_hreg r (typed t v) h)
  | _, _, _ => h
  end.

Definition clobbered (r : nat) : bool :=
  (r <? TCG_TARGET_NB_REGS H)%nat && tcg_regset_test_reg (tcg_target_call_clobber_regs H) r.

Definition clobber_regs (junk : nat -> Z) (h : Host) : Host :=
  mkHost (fun r => if clobbered r then junk r else hregs h r) (hmem h) (hworld h).

(** What an instruction for an operation does with its operands. *)
Inductive reaction :=
  | Results (rs : list Z) (w : World)
  | Jumps (l : nat)
  | Stops (code : Z) (w : World).

Definition react (o : TCGOp) (vs : list Z) (w : World) : option reaction :=
  match o, vs with
  | op_un u ty _ _, [v] => Some (Results [eval_un u (bits ty) (uint (bits ty) v)] w)
  | op_bin b ty _ _ _, [vx; vy] =>
      v ← eval_bin b (bits ty) (uint (bits ty) vx) (uint (bits ty) vy); Some (Results [v] w)
  | op_jmp _, [v] => Some (Stops v w)
  | op_br l, [] => Some (Jumps l)
  | op_brcond ty _ _ c l, [vx; vy] =>
      Some (if tci_compare (bits ty) (uint (bits ty) vx) (uint (bits ty) vy) c then Jumps l else Results [] w)
  | op_other opc _ _ _ consts, vs =>
      e ← other_sem opc consts vs w;
      Some match e with Returns rs w => Results rs w | Leaves c w => Stops c w end
  | _, _ => None
  end.

Definition slot (ts : TCGTemp) : nat * Z := (mem_reg ts, mem_offset ts).

Definition host_global (h : Host) (t : nat) : Z :=
  typed t (if fixed_reg (g t) then hregs h (treg (g t)) else hmem h (slot (g t))).

Definition set_global (t : nat) (v : Z) (h : Host) : Host :=
  if fixed_reg (g t) then set_hreg (treg (g t)) (typed t v) h else set_hmem (slot (g t)) (typed t v) h.

Fixpoint set_globals (ts : list nat) (vs : list Z) (h : Host) : Host :=
  match ts, vs with
  | t :: ts, v :: vs => set_globals ts vs (set_global t v h)
  | _, _ => h
  end.

Inductive hstep :=
  | HNext (h : Host)
  | HGoto (l : nat) (h : Host)
  | HExit (code : Z) (h : Host).

Definition exec_simple (i : HInsn) (h : Host) : Host :=
  match i with
  | Hld w d b off => set_hreg d (uint (bits w) (hmem h (b, off))) h
  | Hst w s b off => set_hmem (b, off) (uint (bits w) (hregs h s)) h
  | Hmov w d s => set_hreg d (uint (bits w) (hregs h s)) h
  | Hmovi w d v => set_hreg d (uint (bits w) v) h
  | _ => h
  end.

Definition exec_insn (junk : nat -> Z) (i : HInsn) (h : Host) : option hstep :=
  match i with
  | Hop o outs ins =>
      r ← react o (typed_list (iargs o) (opval h <$> ins)) (hworld h);
      let h := if has_flag (flags_of T o) TCG_OPF_CALL_CLOBBER then clobber_regs junk h else h in
      Some match r with
           | Results rs w => HNext (set_hregs (oargs o) outs rs (set_hworld w h))
           | Jumps l => HGoto l h
           | Stops c w => HExit c (set_hworld w h)
           end
  | Hcall outs ins flags f regs stack =>
      let vs := typed_list ins
        ((hregs h <$> regs) ++ ((fun off => hmem h (TCG_REG_CALL_STACK H, off)) <$> stack) ++ [opval h f]) in
      '(e, gs') ← call_sem flags vs (host_global h <$> seq 0 (nb_globals C)) (hworld h);
      let h := clobber_regs junk h in
      match e with
      | Returns rs w =>
          let h := set_hworld w h in
          Some (HNext (set_hregs outs (tcg_target_call_oarg_regs H) rs
            (if call_is_pure flags then h else set_globals (seq 0 (nb_globals C)) gs' h)))
      | Leaves c w =>
          if call_is_pure flags then None
          else Some (HExit c (set_globals (seq 0 (nb_globals C)) gs' (set_hworld w h)))
      end
  | _ => Some (HNext (exec_simple i h))
  end.

Fixpoint host_label (l : nat) (c : list HInsn) : option nat :=
  match c with
  | [] => None
  | Hlabel k :: c => if Nat.eqb k l then Some 0%nat else S <$> host_label l c
  | _ :: c => S <$> host_label l c
  end.

Inductive houtcome :=
  | HFinished (code : option Z) (h : Host)
  | HUndefined
  | HOutOfFuel.

(** [junk clock]: what calls leave in the registers at that time. *)
Fixpoint host_run (junk : nat -> nat -> Z) (clock fuel : nat) (c : list HInsn) (pc : nat) (h : Host) : houtcome :=
  match fuel with
  | O => HOutOfFuel
  | S fuel =>
      match c !! pc with
      | None => HFinished None h
      | Some i =>
          match exec_insn (junk clock) i h with
          | None => HUndefined
          | Some (HNext h) => host_run junk (S clock) fuel c (S pc) h
          | Some (HExit code h) => HFinished (Some code) h
          | Some (HGoto l h) =>
              match host_label l c with
              | None => HUndefined
              | Some pc => host_run junk (S clock) fuel c pc h
              end
          end
      end
  end.

End Host.

Arguments Host World : clear implicits.
Arguments hstep World : clear implicits.
Arguments houtcome World : clear implicits.
Arguments reaction World : clear implicits.
