(* ===== verification/TcgRegProofs.v ===== *)
(** * The register allocator keeps the values of the temporaries

    The state of the pass says where the value of each temporary is; [located] gives this
    its meaning in a state of the host.  Each helper of the pass keeps the tables consistent
    and emits code after which every live temporary is still where the state says it is,
    and which leaves the registers in use alone ([sim]). *)

From S2P Require Import Prelude TcgIr TcgOptimize TcgRing TcgFold TcgOptProofs TcgLive TcgLiveProofs TcgRegAlloc.
Open Scope Z_scope.

(** ** Updates *)

Lemma fupd_eq {A} (f : nat -> A) k x : fupd f k x k = x.
Proof. unfold fupd. by rewrite Nat.eqb_refl. Qed.

Lemma fupd_ne {A} (f : nat -> A) k x u : u <> k -> fupd f k x u = f u.
Proof. intros H. unfold fupd. by destruct (Nat.eqb_spec u k). Qed.

Lemma mupd_eq m k x : mupd m k x k = x.
Proof. unfold mupd. by rewrite bool_decide_true. Qed.

Lemma mupd_ne m k x u : u <> k -> mupd m k x u = m u.
Proof. intros H. unfold mupd. by rewrite bool_decide_false. Qed.

Lemma test_set_reg d r u : tcg_regset_test_reg (tcg_regset_set_reg d r) u =
  tcg_regset_test_reg d u || Nat.eqb u r.
Proof.
  unfold tcg_regset_test_reg, tcg_regset_set_reg. rewrite testbit_set by lia. f_equal.
  destruct (Z.eqb_spec (Z.of_nat u) (Z.of_nat r)), (Nat.eqb_spec u r); lia || done.
Qed.

Lemma test_andnot a b r : tcg_regset_test_reg (tcg_regset_andnot a b) r =
  tcg_regset_test_reg a r && negb (tcg_regset_test_reg b r).
Proof.
  unfold tcg_regset_test_reg, tcg_regset_andnot. rewrite Z.land_spec, Z.lnot_spec by lia. done.
Qed.

Section Alloc.
Context {World : Type} (C : TCGContext) (T : OpTable) (H : Target) (g : nat -> TCGTemp).
Implicit Types (st : Alloc) (t r : nat) (h : Host World) (s : State World) (P : nat -> Prop)
  (F : nat -> option (nat * Z)) (A : Z).

#[local] Abbreviation nb_temps := (nb_temps C).
#[local] Abbreviation nb_globals := (nb_globals C).
#[local] Abbreviation test := tcg_regset_test_reg.
#[local] Abbreviation reserved := (tcg_regset_test_reg (reserved_regs H)).
#[local] Abbreviation ty := (typed C).
#[local] Abbreviation fixed t := (fixed_reg (g t)).

(** ** The tables *)

Record inv st : Prop := {
  i_fixed t : fixed_reg (temps st t) = (t <? nb_globals)%nat && fixed t;
  i_r2t r t : reg_to_temp st r = Some t -> (t < nb_temps)%nat /\
    tval_type (temps st t) = TEMP_VAL_REG /\ treg (temps st t) = r;
  i_t2r t : (t < nb_temps)%nat -> tval_type (temps st t) = TEMP_VAL_REG -> fixed_reg (temps st t) = false ->
    reg_to_temp st (treg (temps st t)) = Some t;
  i_own t : fixed_reg (temps st t) = true -> tval_type (temps st t) = TEMP_VAL_REG /\
    treg (temps st t) = treg (g t) /\ reserved (treg (g t)) = true /\
    mem_coherent (temps st t) = mem_coherent (g t);
  i_nores t : (t < nb_temps)%nat -> tval_type (temps st t) = TEMP_VAL_REG ->
    fixed_reg (temps st t) = false -> reserved (treg (temps st t)) = false;
  i_global t : (t < nb_globals)%nat -> mem_allocated (temps st t) = mem_allocated (g t) /\
    slot (temps st t) = slot (g t);
  i_frame t : (nb_globals <= t)%nat -> mem_allocated (temps st t) = true ->
    mem_reg (temps st t) = frame_reg H /\
    frame_start H <= mem_offset (temps st t) <= current_frame_offset st - 8;
  i_offset : frame_start H <= current_frame_offset st;
  i_distinct t u : (nb_globals <= t)%nat -> (nb_globals <= u)%nat -> t <> u ->
    mem_allocated (temps st t) = true -> mem_allocated (temps st u) = true ->
    mem_offset (temps st t) <> mem_offset (temps st u);
  i_end : current_frame_offset st = frame_start H \/ current_frame_offset st <= frame_end H }.

(** The check of the debugging build never fails, and the slots of the temporaries are
    words of the frame, each with its own. *)
Lemma inv_check_regs st : inv st -> check_regs C H st = true.
Proof.
  intros HI. unfold check_regs. apply andb_true_iff. split; apply forallb_forall; intros x Hx%list_elem_of_In%elem_of_seq.
  - destruct (reg_to_temp st x) as [t|] eqn:Et; [|done]. destruct (i_r2t _ HI x t Et) as (_ & Hv & Hr).
    rewrite bool_decide_true by done. by apply Nat.eqb_eq.
  - apply negb_true_iff. destruct (fixed_reg (temps st x)) eqn:Ef; [by rewrite andb_false_r|].
    case_bool_decide as Hv; [|done]. cbn. rewrite bool_decide_true; [done|]. apply (i_t2r _ HI); [lia|done|done].
Qed.

Lemma inv_frame st t : inv st -> (nb_globals <= t)%nat -> mem_allocated (temps st t) = true ->
  mem_reg (temps st t) = frame_reg H /\ frame_start H <= mem_offset (temps st t) /\
  mem_offset (temps st t) + 8 <= frame_end H.
Proof.
  intros HI Ht Hm. destruct (i_frame _ HI t Ht Hm) as [E1 E2]. split; [done|].
  destruct (i_end _ HI); lia.
Qed.

(** Slots stay. *)
Definition ext st st' : Prop :=
  forall t, mem_allocated (temps st t) = true ->
    mem_allocated (temps st' t) = true /\ slot (temps st' t) = slot (temps st t).

Lemma ext_refl st : ext st st.
Proof. by intros t. Qed.

Lemma ext_trans st1 st2 st3 : ext st1 st2 -> ext st2 st3 -> ext st1 st3.
Proof. intros H1 H2 t Ht. destruct (H1 t Ht) as [Ha <-]. by apply H2. Qed.

(** ** The values *)

(** [F] gives the slots of the whole block; two temporaries have two slots, and none is
    where the arguments of calls go. *)
Record layout F : Prop := {
  l_inj t u k : F t = Some k -> F u = Some k -> t = u;
  l_args t off : F t = Some (TCG_REG_CALL_STACK H, off) ->
    off < TCG_TARGET_CALL_STACK_OFFSET H \/
    TCG_TARGET_CALL_STACK_OFFSET H + TCG_STATIC_CALL_ARGS_SIZE H <= off }.

Definition slots F st : Prop := forall t, mem_allocated (temps st t) = true -> F t = Some (slot (temps st t)).

Lemma slots_ext F st st' : ext st st' -> slots F st' -> slots F st.
Proof. intros HE HS t Ht. destruct (HE t Ht) as [Ha <-]. by apply HS. Qed.

Definition in_slot F h t (v : Z) : Prop := forall k, F t = Some k -> ty t (hmem h k) = v.

Definition located F st h t (v : Z) : Prop :=
  match tval_type (temps st t) with
  | TEMP_VAL_REG => ty t (hregs h (treg (temps st t))) = v /\ (mem_coherent (temps st t) = true -> in_slot F h t v)
  | TEMP_VAL_CONST => ty t (tval (temps st t)) = v
  | TEMP_VAL_MEM | TEMP_VAL_DEAD => in_slot F h t v
  end.

Record rel F P st s h : Prop := {
  r_world : hworld h = world s;
  r_length : length (vals s) = nb_temps;
  r_vals t v : P t -> vals s !! t = Some v -> located F st h t v }.

Lemma rel_weaken F P P' st s h : rel F P st s h -> (forall t, P' t -> P t) -> rel F P' st s h.
Proof. intros [] Hw. split; auto. Qed.

Lemma rel_lt F P st s h t v : rel F P st s h -> vals s !! t = Some v -> (t < nb_temps)%nat.
Proof. intros [] Hv. apply lookup_lt_Some in Hv. lia. Qed.

(** ** Code between two states *)

Definition simple (i : HInsn) : Prop :=
  match i with Hld _ _ _ _ | Hst _ _ _ _ | Hmov _ _ _ | Hmovi _ _ _ => True | _ => False end.

Definition run_simple (c : list HInsn) h : Host World := fold_left (fun h i => exec_simple i h) c h.

(** The registers [A] and the memory outside the slots keep their value. *)
Definition keeps A F h h' : Prop :=
  (forall r, test A r = true -> hregs h' r = hregs h r) /\
  (forall k, (forall t, F t <> Some k) -> hmem h' k = hmem h k).

Lemma keeps_refl A F h : keeps A F h h.
Proof. by split. Qed.

Lemma keeps_trans A F h1 h2 h3 : keeps A F h1 h2 -> keeps A F h2 h3 -> keeps A F h1 h3.
Proof. intros [R1 M1] [R2 M2]. split; [intros r Hr; by rewrite R2, R1|intros k Hk; by rewrite M2, M1]. Qed.

Lemma keeps_weaken A A' F h h' : keeps A F h h' -> (forall r, test A' r = true -> test A r = true) -> keeps A' F h h'.
Proof. intros [R1 M1] HA. split; auto. Qed.

Lemma keeps_reg A F h r x : test A r = false -> keeps A F h (set_hreg r x h).
Proof. intros Hr. split; [|done]. intros u Hu. cbn. apply fupd_ne. congruence. Qed.

Lemma keeps_slot A F h t k x : F t = Some k -> keeps A F h (set_hmem k x h).
Proof. intros Hk. split; [done|]. intros u Hu. cbn. apply mupd_ne. intros ->. by apply (Hu t). Qed.

#[local] Hint Resolve keeps_refl keeps_reg keeps_slot : core.

Record sim A st st' : Prop := {
  s_inv : inv st';
  s_ext : ext st st';
  s_code : exists c, code st' = code st ++ c /\ Forall simple c /\
    forall F P s h, layout F -> slots F st' -> rel F P st s h ->
      rel F P st' s (run_simple c h) /\ keeps A F h (run_simple c h) }.

Lemma sim_refl A st : inv st -> sim A st st.
Proof.
  intros HI. split; [done|apply ext_refl|]. exists []. split; [by rewrite app_nil_r|]. split; [constructor|auto].
Qed.

Lemma sim_trans A st1 st2 st3 : sim A st1 st2 -> sim A st2 st3 -> sim A st1 st3.
Proof.
  intros [I1 E1 (c1 & C1 & S1 & R1)] [I2 E2 (c2 & C2 & S2 & R2)].
  split; [done|by eapply ext_trans|]. exists (c1 ++ c2). split; [by rewrite C2, C1, app_assoc|].
  split; [by apply Forall_app|]. intros F P s h HL HF HR.
  destruct (R1 F P s h HL (slots_ext _ _ _ E2 HF) HR) as [HR1 HA1].
  destruct (R2 F P s _ HL HF HR1) as [HR2 HA2]. unfold run_simple in *. rewrite fold_left_app.
  split; [done|by eapply keeps_trans].
Qed.

Lemma sim_weaken A A' st st' : sim A st st' -> (forall r, test A' r = true -> test A r = true) -> sim A' st st'.
Proof.
  intros [HI HE (c & Hc & Hs & HR)] HA. split; [done|done|]. exists c. split; [done|]. split; [done|].
  intros F P s h HL HF Hr. destruct (HR F P s h HL HF Hr) as [H1 H2]. split; [done|by eapply keeps_weaken].
Qed.

(** A step with no code. *)
Lemma sim_silent A st st' : inv st' -> ext st st' -> code st' = code st ->
  (forall F P s h, layout F -> slots F st' -> rel F P st s h -> rel F P st' s h) -> sim A st st'.
Proof.
  intros HI HE HC HR. split; [done|done|]. exists []. split; [by rewrite app_nil_r|]. split; [constructor|].
  intros F P s h HL HF Hr. split; [by apply HR|apply keeps_refl].
Qed.

(** ** Assumptions on the globals and the host *)

Record host_ok : Prop := {
  ho_context : (nb_globals <= nb_temps)%nat;
  ho_fixed t : (t < nb_globals)%nat -> fixed t = true -> reserved (treg (g t)) = true;
  ho_own t : (t < nb_globals)%nat -> fixed t = true -> mem_allocated (g t) = false /\ mem_coherent (g t) = false;
  ho_mem t : (t < nb_globals)%nat -> fixed t = false -> mem_allocated (g t) = true;
  ho_regs t u : (t < nb_globals)%nat -> (u < nb_globals)%nat -> fixed t = true -> fixed u = true ->
    treg (g t) = treg (g u) -> t = u;
  ho_slots t u : (t < nb_globals)%nat -> (u < nb_globals)%nat -> fixed t = false -> fixed u = false ->
    slot (g t) = slot (g u) -> t = u;
  ho_frame t : (t < nb_globals)%nat -> fixed t = false -> mem_reg (g t) = frame_reg H ->
    mem_offset (g t) < frame_start H;
  ho_args t : (t < nb_globals)%nat -> fixed t = false -> mem_reg (g t) = TCG_REG_CALL_STACK H ->
    mem_offset (g t) < TCG_TARGET_CALL_STACK_OFFSET H \/
    TCG_TARGET_CALL_STACK_OFFSET H + TCG_STATIC_CALL_ARGS_SIZE H <= mem_offset (g t);
  ho_stack : TCG_TARGET_CALL_STACK_OFFSET H + TCG_STATIC_CALL_ARGS_SIZE H <= frame_start H;
  ho_align : exists k, 0 <= k /\ TCG_TARGET_STACK_ALIGN H = 2 ^ k;
  ho_clobber r : reserved r = true -> test (tcg_target_call_clobber_regs H) r = false;
  ho_iargs r : r ∈ tcg_target_call_iarg_regs H -> reserved r = false;
  ho_iargs_once : NoDup (tcg_target_call_iarg_regs H);
  ho_oargs r : r ∈ tcg_target_call_oarg_regs H -> reserved r = false;
  ho_oargs_once : NoDup (tcg_target_call_oarg_regs H) }.

Context (HO : host_ok).

(** ** Slots *)

Definition same_place (ts ts' : TCGTemp) : Prop :=
  tval_type ts' = tval_type ts /\ treg ts' = treg ts /\ tval ts' = tval ts /\
  mem_coherent ts' = mem_coherent ts /\ fixed_reg ts' = fixed_reg ts.

Lemma rel_same F P st st' s h : (forall t, same_place (temps st t) (temps st' t)) ->
  rel F P st s h -> rel F P st' s h.
Proof.
  intros HS []. split; [done|done|]. intros t v Ht Hv. specialize (r_vals0 t v Ht Hv).
  destruct (HS t) as (E1 & E2 & E3 & E4 & _). unfold located in *. by rewrite E1, E2, E3, E4.
Qed.

Lemma align_up k x : 0 <= k -> x <= Z.land (x + 2 ^ k - 1) (Z.lnot (2 ^ k - 1)).
Proof.
  intros Hk. replace (Z.lnot (2 ^ k - 1)) with (Z.lnot (Z.ones k)) by (rewrite Z.ones_equiv; f_equal; lia).
  rewrite <- Z.ldiff_land, Z.ldiff_ones_r, Z.shiftl_mul_pow2, Z.shiftr_div_pow2 by lia.
  pose proof (Z.pow_pos_nonneg 2 k ltac:(lia) Hk). pose proof (Z.div_mod (x + 2 ^ k - 1) (2 ^ k) ltac:(lia)).
  pose proof (Z.mod_pos_bound (x + 2 ^ k - 1) (2 ^ k) ltac:(lia)). lia.
Qed.

Lemma need_frame_ok A t st st' : inv st -> fixed_reg (temps st t) = false -> need_frame H t st = Some st' ->
  sim A st st' /\ mem_allocated (temps st' t) = true /\
  (forall u, same_place (temps st u) (temps st' u)) /\ reg_to_temp st' = reg_to_temp st /\ code st' = code st.
Proof.
  intros HI Hfx E. unfold need_frame in E. destruct (mem_allocated (temps st t)) eqn:Em.
  { injection E as <-. split_and!; try done. by apply sim_refl. }
  unfold temp_allocate_frame in E. pose proof (align_up 3 (current_frame_offset st) ltac:(lia)) as Hal. change (2 ^ 3) with 8 in Hal. revert E Hal.
  generalize (Z.land (current_frame_offset st + 8 - 1) (Z.lnot (8 - 1))). intros off E Hal.
  destruct (Z.ltb_spec (frame_end H) (off + 8)) as [|Hend]; [done|]. injection E as <-.
  set (st' := mkAlloc _ _ _ _).
  assert (forall u, u <> t -> temps st' u = temps st u) as Hne by (intros u Hu; cbn; by rewrite fupd_ne).
  assert (temps st' t = mkTemp (tval_type (temps st t)) (treg (temps st t)) (tval (temps st t)) (frame_reg H) off
    (fixed_reg (temps st t)) (mem_coherent (temps st t)) true) as Ht by (cbn; by rewrite fupd_eq).
  assert (forall u, same_place (temps st u) (temps st' u)) as HS.
  { intros u. destruct (decide (u = t)) as [->|Hu]; [by rewrite Ht|by rewrite Hne]. }
  assert (nb_globals <= t)%nat as Hg.
  { destruct (decide (t < nb_globals)%nat) as [Hlt|]; [|lia]. exfalso.
    rewrite (i_fixed _ HI) in Hfx. rewrite (proj2 (Nat.ltb_lt _ _) Hlt) in Hfx. cbn in Hfx.
    destruct (i_global _ HI t Hlt) as [E _]. rewrite (ho_mem HO t Hlt Hfx) in E. congruence. }
  assert (inv st') as HI'.
  { pose proof HI as []. split; try done.
    - intros u. destruct (HS u) as (_ & _ & _ & _ & ->). apply i_fixed0.
    - intros r u Hr. destruct (HS u) as (-> & -> & _). by apply i_r2t0.
    - intros u. destruct (HS u) as (-> & -> & _ & _ & ->). apply i_t2r0.
    - intros u. destruct (HS u) as (-> & -> & _ & -> & ->). apply i_own0.
    - intros u. destruct (HS u) as (-> & -> & _ & _ & ->). apply i_nores0.
    - intros u Hu. rewrite Hne by lia. by apply i_global0.
    - intros u Hu Hm. destruct (decide (u = t)) as [->|Hut].
      + rewrite Ht. cbn. split; [done|]. lia.
      + rewrite Hne in * by done. destruct (i_frame0 u Hu Hm). split; [done|]. cbn. lia.
    - cbn. lia.
    - intros u w Hu Hw Huw Mu Mw.
      destruct (decide (u = t)) as [->|Hut]; [|destruct (decide (w = t)) as [->|Hwt]].
      + rewrite Ht, (Hne w) in * by congruence. destruct (i_frame0 w Hw Mw). cbn. lia.
      + rewrite Ht, (Hne u) in * by congruence. destruct (i_frame0 u Hu Mu). cbn. lia.
      + rewrite !Hne in * by done. by apply i_distinct0.
    - right. cbn. lia. }
  split_and!; try done; [|by rewrite Ht].
  apply sim_silent; [done| |done|].
  - intros u Hu. destruct (decide (u = t)) as [->|Hut]; [congruence|by rewrite Hne].
  - intros F P s h _ _. by apply rel_same.
Qed.

(** ** Changing the place of a temporary *)

Definition same_mem (ts ts' : TCGTemp) : Prop :=
  fixed_reg ts' = fixed_reg ts /\ mem_allocated ts' = mem_allocated ts /\
  mem_reg ts' = mem_reg ts /\ mem_offset ts' = mem_offset ts.

Lemma same_mem_slot ts ts' : same_mem ts ts' -> slot ts' = slot ts.
Proof. intros (_ & _ & E1 & E2). unfold slot. by rewrite E1, E2. Qed.

(** The parts of the invariant that do not speak of registers. *)
Lemma inv_places st st' : inv st -> (forall u, same_mem (temps st u) (temps st' u)) ->
  current_frame_offset st' = current_frame_offset st ->
  (forall r t, reg_to_temp st' r = Some t -> (t < nb_temps)%nat /\
    tval_type (temps st' t) = TEMP_VAL_REG /\ treg (temps st' t) = r) ->
  (forall t, (t < nb_temps)%nat -> tval_type (temps st' t) = TEMP_VAL_REG -> fixed_reg (temps st' t) = false ->
    reg_to_temp st' (treg (temps st' t)) = Some t /\ reserved (treg (temps st' t)) = false) ->
  (forall t, fixed_reg (temps st t) = true -> tval_type (temps st' t) = TEMP_VAL_REG /\
    treg (temps st' t) = treg (temps st t) /\ mem_coherent (temps st' t) = mem_coherent (temps st t)) ->
  inv st'.
Proof.
  intros [] HM Ho H1 H2 H3. split.
  - intros t. destruct (HM t) as (-> & _). apply i_fixed0.
  - done.
  - intros t Ht Hr Hf. by apply H2.
  - intros t Hf. destruct (HM t) as (E & _). rewrite E in Hf. destruct (H3 t Hf) as (-> & -> & ->).
    destruct (i_own0 t Hf) as (_ & -> & ? & ?). done.
  - intros t Ht Hr Hf. by apply H2.
  - intros t Ht. rewrite (same_mem_slot _ _ (HM t)). destruct (HM t) as (_ & -> & _). by apply i_global0.
  - intros t Ht. destruct (HM t) as (_ & -> & -> & ->). rewrite Ho. by apply i_frame0.
  - by rewrite Ho.
  - intros t u Ht Hu Hne. destruct (HM t) as (_ & -> & _ & ->), (HM u) as (_ & -> & _ & ->). by apply i_distinct0.
  - by rewrite Ho.
Qed.

Lemma ext_same st st' : (forall u, same_mem (temps st u) (temps st' u)) -> ext st st'.
Proof.
  intros HM t Ht. rewrite (same_mem_slot _ _ (HM t)). by destruct (HM t) as (_ & -> & _).
Qed.

Lemma leave_reg_temps t st : temps (leave_reg t st) = temps st.
Proof. unfold leave_reg. by destruct (tval_type (temps st t)). Qed.

Lemma leave_reg_offset t st : current_frame_offset (leave_reg t st) = current_frame_offset st.
Proof. unfold leave_reg. by destruct (tval_type (temps st t)). Qed.

Lemma set_temp_same st t ts' : same_mem (temps st t) ts' ->
  forall u, same_mem (temps st u) (fupd (temps st) t ts' u).
Proof.
  intros HM u. destruct (decide (u = t)) as [->|Hu]; [by rewrite fupd_eq|]. by rewrite fupd_ne.
Qed.

Lemma reg_owner st t u : inv st -> (u < nb_temps)%nat -> tval_type (temps st u) = TEMP_VAL_REG ->
  fixed_reg (temps st u) = false -> reg_to_temp st (treg (temps st u)) = Some t -> t = u.
Proof. intros HI Hu Hr Hf E. rewrite (i_t2r _ HI u) in E by done. congruence. Qed.

(** A temporary leaves its register. *)
Lemma inv_relocate st t ts' : inv st -> (t < nb_temps)%nat -> fixed_reg (temps st t) = false -> same_mem (temps st t) ts' ->
  tval_type ts' <> TEMP_VAL_REG -> inv (set_temp t ts' (leave_reg t st)).
Proof.
  intros HI Ht Hf HM Hn. pose proof (leave_reg_temps t st) as El.
  assert (temps (set_temp t ts' (leave_reg t st)) = fupd (temps st) t ts') as Et by (cbn; by rewrite El).
  assert (forall r u, reg_to_temp (leave_reg t st) r = Some u -> reg_to_temp st r = Some u /\ u <> t) as Hl.
  { intros r u Hr. unfold leave_reg in Hr. destruct (tval_type (temps st t)) eqn:Ev.
    2: { cbn in Hr. destruct (decide (r = treg (temps st t))) as [->|Hne]; [by rewrite fupd_eq in Hr|].
         rewrite fupd_ne in Hr by done. split; [done|]. intros ->.
         destruct (i_r2t _ HI r t Hr) as (_ & _ & E). congruence. }
    all: split; [done|]; intros ->; destruct (i_r2t _ HI r t Hr) as (_ & E & _); congruence. }
  apply (inv_places st); [done| |unfold leave_reg; by destruct (tval_type (temps st t))|..]; rewrite ?Et.
  - by apply set_temp_same.
  - intros r u Hr. destruct (Hl r u Hr) as [Hr' Hne]. rewrite fupd_ne by done. by apply (i_r2t _ HI).
  - intros u Hu. destruct (decide (u = t)) as [->|Hne]; [by rewrite fupd_eq|]. rewrite !fupd_ne by done.
    intros Hr Hfu. split; [|by apply (i_nores _ HI)]. cbn. unfold leave_reg.
    destruct (tval_type (temps st t)) eqn:Ev; try by apply (i_t2r _ HI).
    cbn. rewrite fupd_ne; [by apply (i_t2r _ HI)|]. intros E.
    pose proof (i_t2r _ HI u Hu Hr Hfu) as E1. rewrite E in E1.
    rewrite (i_t2r _ HI t Ht Ev Hf) in E1. congruence.
  - intros u Hfu. rewrite fupd_ne by congruence. split_and!; [by apply (i_own _ HI)|done|done].
Qed.

(** A temporary enters a free register. *)
Lemma inv_enter st t reg ts' : inv st -> (t < nb_temps)%nat -> fixed_reg (temps st t) = false ->
  same_mem (temps st t) ts' -> tval_type (temps st t) <> TEMP_VAL_REG -> reg_to_temp st reg = None ->
  reserved reg = false -> tval_type ts' = TEMP_VAL_REG -> treg ts' = reg ->
  inv (set_reg_to_temp reg (Some t) (set_temp t ts' st)).
Proof.
  intros HI Ht Hf HM Hn Hfree Hres Hr <-. apply (inv_places st); try done; cbn.
  - by apply set_temp_same.
  - intros r u. destruct (decide (r = treg ts')) as [->|Hne].
    + rewrite fupd_eq. intros [= <-]. by rewrite fupd_eq.
    + rewrite fupd_ne by done. intros Hu. pose proof (i_r2t _ HI r u Hu) as (? & ? & ?).
      by rewrite fupd_ne by congruence.
  - intros u Hu. destruct (decide (u = t)) as [->|Hne].
    + by rewrite !fupd_eq.
    + rewrite !fupd_ne by done. intros Hru Hfu. split; [|by apply (i_nores _ HI)].
      rewrite fupd_ne; [by apply (i_t2r _ HI)|]. intros E. pose proof (i_t2r _ HI u Hu Hru Hfu). congruence.
  - intros u Hfu. rewrite fupd_ne by congruence. split_and!; [by apply (i_own _ HI)|done|done].
Qed.

(** *** Values *)

Lemma ty_ty t v : ty t (ty t v) = ty t v.
Proof. unfold typed. apply uint_uint. pose proof (bits_range (temp_type C t)). lia. Qed.

Lemma rel_change F P st st' s h t : (forall u, u <> t -> temps st' u = temps st u) ->
  rel F P st s h -> (forall v, P t -> vals s !! t = Some v -> located F st h t v -> located F st' h t v) ->
  rel F P st' s h.
Proof.
  intros Hne [] Ht. split; [done|done|]. intros u v Hu Hv. destruct (decide (u = t)) as [->|Hut].
  - by auto.
  - unfold located. rewrite Hne by done. by apply r_vals0.
Qed.

(** A register nobody is in. *)
Lemma unused_reg st t reg : inv st -> (t < nb_temps)%nat -> reg_to_temp st reg = None -> reserved reg = false ->
  tval_type (temps st t) = TEMP_VAL_REG -> treg (temps st t) <> reg.
Proof.
  intros HI Ht Hfree Hres Hr <-. destruct (fixed_reg (temps st t)) eqn:Ef.
  - destruct (i_own _ HI t Ef) as (_ & E & E' & _). rewrite E in Hres. congruence.
  - rewrite (i_t2r _ HI t) in Hfree; done.
Qed.

Lemma located_set_reg F st h t v reg x : (tval_type (temps st t) = TEMP_VAL_REG -> treg (temps st t) <> reg) ->
  located F st h t v -> located F st (set_hreg reg x h) t v.
Proof.
  intros Hn. unfold located. destruct (tval_type (temps st t)); try done. cbn. by rewrite fupd_ne by auto.
Qed.

Lemma rel_set_reg F P st s h reg x : inv st -> reg_to_temp st reg = None -> reserved reg = false ->
  rel F P st s h -> rel F P st s (set_hreg reg x h).
Proof.
  intros HI Hfree Hres HR. pose proof HR as []. split; [done|done|]. intros t v Ht Hv.
  apply located_set_reg; [|by auto]. intros Hr. apply (unused_reg st); try done. by eapply rel_lt.
Qed.

Lemma located_set_mem F st h t v k x : (F t = Some k -> ty t x = v) -> located F st h t v ->
  located F st (set_hmem k x h) t v.
Proof.
  intros Hx. assert (in_slot F h t v -> in_slot F (set_hmem k x h) t v) as HS.
  { intros HS k' Hk. cbn. destruct (decide (k' = k)) as [->|Hne]; [rewrite mupd_eq; auto|].
    rewrite mupd_ne by done. by apply HS. }
  unfold located. destruct (tval_type (temps st t)); auto. intros [? ?]. auto.
Qed.

(** A store to the slot of [t]. *)
Lemma rel_store F P st s h t k x : layout F -> F t = Some k -> rel F P st s h ->
  (forall v, P t -> vals s !! t = Some v -> ty t x = v) ->
  rel F P st s (set_hmem k x h) /\
  (forall v, P t -> vals s !! t = Some v -> in_slot F (set_hmem k x h) t v).
Proof.
  intros HL Hk [] Hx. split.
  - split; [done|done|]. intros u v Hu Hv. apply located_set_mem; [|by auto]. intros Hku.
    assert (u = t) as -> by (by eapply l_inj). by apply Hx.
  - intros v Hp Hv k' Hk'. assert (k' = k) as -> by congruence. cbn. rewrite mupd_eq. by apply Hx.
Qed.

Lemma rel_store_other F P st s h k x : (forall t, F t <> Some k) -> rel F P st s h -> rel F P st s (set_hmem k x h).
Proof.
  intros Hk []. split; [done|done|]. intros u v Hu Hv. apply located_set_mem; [|by auto].
  intros E. by apply Hk in E.
Qed.

(** ** Freeing a register *)

(** What the tables say after the temporary in register [reg], if any, was spilled. *)
Record freed reg st st' : Prop := {
  fr_none : reg_to_temp st' reg = None;
  fr_regs r : r <> reg -> reg_to_temp st' r = reg_to_temp st r;
  fr_temps t : treg (temps st' t) = treg (temps st t) /\ tval (temps st' t) = tval (temps st t) /\
    fixed_reg (temps st' t) = fixed_reg (temps st t);
  fr_type t : tval_type (temps st' t) = tval_type (temps st t) \/
    (reg_to_temp st reg = Some t /\ tval_type (temps st' t) = TEMP_VAL_MEM);
  fr_coherent t : mem_coherent (temps st' t) = mem_coherent (temps st t) }.

Lemma freed_refl reg st : reg_to_temp st reg = None -> freed reg st st.
Proof. intros E. split; try done. by left. Qed.

(** A step with one instruction. *)
Lemma sim_one A st st' i : inv st' -> ext st st' -> code st' = code st ++ [i] -> simple i ->
  (forall F P s h, layout F -> slots F st' -> rel F P st s h -> rel F P st' s (exec_simple i h) /\
    keeps A F h (exec_simple i h)) -> sim A st st'.
Proof.
  intros HI HE HC Hi HR. split; [done|done|]. exists [i]. split; [done|]. split; [by constructor|]. exact HR.
Qed.

Lemma inv_emit i st : inv st -> inv (emit i st).
Proof. intros []. by split. Qed.

Lemma rel_emit F P i st s h : rel F P st s h -> rel F P (emit i st) s h.
Proof. intros []. by split. Qed.

(** An instruction that writes a register nobody is in. *)
Lemma sim_scratch A st i reg x : inv st -> reg_to_temp st reg = None -> reserved reg = false ->
  test A reg = false -> simple i -> (forall h, exec_simple (World:=World) i h = set_hreg reg (x h) h) ->
  sim A st (emit i st).
Proof.
  intros HI Hfree Hres HA Hi Hx. apply (sim_one A st _ i); [by apply inv_emit|exact (ext_refl st)|done|done|].
  intros F P s h HL HF HR. rewrite Hx. split; [by apply rel_emit, rel_set_reg|auto].
Qed.

Lemma to_mem_eq reg t st : tval_type (temps st t) = TEMP_VAL_REG -> treg (temps st t) = reg ->
  set_reg_to_temp reg None (set_val_type TEMP_VAL_MEM t st) =
  set_temp t (with_val_type TEMP_VAL_MEM (temps st t)) (leave_reg t st).
Proof. intros E <-. unfold leave_reg. by rewrite E. Qed.

Lemma tcg_reg_free_ok A reg st st' : inv st -> reserved reg = false -> tcg_reg_free C H reg st = Some st' ->
  sim A st st' /\ freed reg st st'.
Proof.
  intros HI Hres E. unfold tcg_reg_free in E. destruct (reg_to_temp st reg) as [t|] eqn:Er.
  2: { injection E as <-. split; [by apply sim_refl|by apply freed_refl]. }
  destruct (i_r2t _ HI reg t Er) as (Ht & Hv & Hreg). rewrite bool_decide_true in E by done. cbn [negb] in E.
  assert (fixed_reg (temps st t) = false) as Hf.
  { destruct (fixed_reg (temps st t)) eqn:Ef; [|done]. destruct (i_own _ HI t Ef) as (_ & E1 & E2 & _). congruence. }
  assert (forall st1, (forall u, same_place (temps st u) (temps st1 u)) -> reg_to_temp st1 = reg_to_temp st ->
    freed reg st (set_reg_to_temp reg None (set_val_type TEMP_VAL_MEM t st1))) as Hfr.
  { intros st1 HS Hr. split; cbn.
    - by rewrite fupd_eq.
    - intros r Hne. by rewrite fupd_ne, Hr.
    - intros u. destruct (HS u) as (_ & E2 & E3 & _ & E5).
      destruct (decide (u = t)) as [->|Hne]; [by rewrite fupd_eq|by rewrite fupd_ne].
    - intros u. destruct (decide (u = t)) as [->|Hne]; [rewrite fupd_eq; by right|].
      rewrite fupd_ne by done. left. apply HS.
    - intros u. destruct (HS u) as (_ & _ & _ & E4 & _).
      destruct (decide (u = t)) as [->|Hne]; [by rewrite fupd_eq|by rewrite fupd_ne]. }
  destruct (mem_coherent (temps st t)) eqn:Ec.
  - injection E as <-. split; [|by apply Hfr]. rewrite (to_mem_eq reg t st Hv Hreg).
    apply sim_silent.
    + by apply inv_relocate.
    + apply ext_same. intros u. cbn. rewrite leave_reg_temps. by apply set_temp_same.
    + unfold leave_reg. by rewrite Hv.
    + intros F P s h HL HF HR. eapply rel_change; [|exact HR|].
      * intros u Hu. cbn. rewrite leave_reg_temps. by apply fupd_ne.
      * intros v _ _. unfold located. cbn. rewrite leave_reg_temps, fupd_eq, Hv. cbn. intros [_ Hx]. by apply Hx.
  - apply bind_Some in E as (st1 & E & [= <-]). apply bind_Some in E as (st2 & En & [= <-]).
    destruct (need_frame_ok A t st st2 HI Hf En) as (S1 & Hm & HS & Hr2 & Hc). pose proof (s_inv _ _ _ S1) as HI2.
    destruct (HS t) as (E1 & E2 & _ & E4 & E5). split; [|by apply (Hfr (st_temp C t reg st2))].
    apply (sim_trans A st st2); [done|].
    assert (set_reg_to_temp reg None (set_val_type TEMP_VAL_MEM t (st_temp C t reg st2)) =
      emit (Hst (temp_type C t) reg (mem_reg (temps st2 t)) (mem_offset (temps st2 t)))
        (set_temp t (with_val_type TEMP_VAL_MEM (temps st2 t)) (leave_reg t st2))) as ->.
    { unfold leave_reg. rewrite E1, Hv, E2, Hreg. done. }
    assert (forall u, same_mem (temps st2 u) (temps (set_temp t (with_val_type TEMP_VAL_MEM (temps st2 t))
      (leave_reg t st2)) u)) as HM.
    { intros u. cbn. rewrite leave_reg_temps. by apply set_temp_same. }
    eapply sim_one; [|apply ext_same, HM|unfold leave_reg; by rewrite E1, Hv|exact I|].
    + apply inv_emit, inv_relocate; try done. congruence.
    + intros F P s h HL HF HR.
      assert (F t = Some (slot (temps st2 t))) as Hk.
      { pose proof (HF t) as Hx. cbn in Hx. rewrite leave_reg_temps, fupd_eq in Hx. by apply Hx. }
      split; [|by eapply keeps_slot].
      destruct (rel_store F P st2 s h t _ (ty t (hregs h reg)) HL Hk HR) as [HR1 Hin].
      { intros v Hp Hv'. rewrite ty_ty. pose proof (r_vals _ _ _ _ _ HR t v Hp Hv') as Hloc.
        unfold located in Hloc. rewrite E1, Hv, E2, Hreg in Hloc. apply Hloc. }
      apply rel_emit. eapply (rel_change _ _ st2 _ _ _ t); [|exact HR1|].
      * intros u Hu. cbn. rewrite leave_reg_temps. by apply fupd_ne.
      * intros v Hp Hv' _. unfold located. cbn. rewrite leave_reg_temps, fupd_eq. cbn. by apply Hin.
Qed.

(** ** Allocating a register *)

Lemma find_elem {B} (f : B -> bool) l x : find f l = Some x -> f x = true.
Proof. intros Hx. by apply find_some in Hx as [_ Hx]. Qed.

Lemma tcg_reg_alloc_ok A A' reg1 st reg st' : inv st -> (forall r, reserved r = true -> test A' r = true) ->
  tcg_reg_alloc C H reg1 A' st = Some (reg, st') ->
  sim A st st' /\ freed reg st st' /\ test reg1 reg = true /\ test A' reg = false /\ reserved reg = false.
Proof.
  intros HI HA E. unfold tcg_reg_alloc in E.
  assert (forall r, test (tcg_regset_andnot reg1 A') r = true ->
    test reg1 r = true /\ test A' r = false /\ reserved r = false) as Hct.
  { intros r Hr. rewrite test_andnot in Hr. apply andb_true_iff in Hr as [Hr1 Hr2%negb_true_iff].
    split; [done|]. split; [done|]. destruct (reserved r) eqn:Er; [|done]. apply HA in Er. congruence. }
  destruct (find _ _) as [r|] eqn:Ef1.
  - injection E as -> <-. apply find_elem, andb_true_iff in Ef1 as [Hr Hn%bool_decide_eq_true].
    split; [by apply sim_refl|]. split; [by apply freed_refl|]. by apply Hct.
  - apply bind_Some in E as (r & Ef & E). apply bind_Some in E as (st1 & E & [= -> <-]).
    apply find_elem, Hct in Ef as (H1 & H2 & H3).
    destruct (tcg_reg_free_ok A reg st st1 HI H3 E) as [HS HF]. done.
Qed.

(** ** Saving temporaries *)

(** Temporaries leave registers only. *)
Record shrinks st st' : Prop := {
  sh_regs r t : reg_to_temp st' r = Some t -> reg_to_temp st r = Some t;
  sh_mem t : tval_type (temps st t) = TEMP_VAL_MEM -> tval_type (temps st' t) = TEMP_VAL_MEM;
  sh_fixed t : fixed_reg (temps st' t) = fixed_reg (temps st t) }.

Lemma shrinks_refl st : shrinks st st.
Proof. by split. Qed.

Lemma shrinks_trans st1 st2 st3 : shrinks st1 st2 -> shrinks st2 st3 -> shrinks st1 st3.
Proof. intros [] []. split; [auto|auto|]. intros t. by rewrite sh_fixed1. Qed.

Lemma freed_shrinks reg st st' : inv st -> freed reg st st' -> shrinks st st'.
Proof.
  intros HI []. split.
  - intros r t Hr. destruct (decide (r = reg)) as [->|Hne]; [congruence|]. by rewrite <- fr_regs0.
  - intros t Hm. destruct (fr_type0 t) as [->|[_ ?]]; done.
  - intros t. apply fr_temps0.
Qed.

Lemma freed_not_reg reg st st' t : inv st -> freed reg st st' -> tval_type (temps st t) <> TEMP_VAL_REG ->
  tval_type (temps st' t) = tval_type (temps st t).
Proof.
  intros HI [] Hn. destruct (fr_type0 t) as [->|[Hr _]]; [done|]. by destruct (i_r2t _ HI _ _ Hr) as (_ & ? & _).
Qed.

(** The value of a constant goes to the slot through a scratch register. *)
Lemma save_const_ok A t reg st : inv st -> (t < nb_temps)%nat -> fixed_reg (temps st t) = false ->
  tval_type (temps st t) = TEMP_VAL_CONST -> mem_allocated (temps st t) = true ->
  reg_to_temp st reg = None -> reserved reg = false -> test A reg = false ->
  sim A st (set_val_type TEMP_VAL_MEM t
    (st_temp C t reg (emit (Hmovi (temp_type C t) reg (tval (temps st t))) st))).
Proof.
  intros HI Ht Hf Hv Hm Hfree Hres HA. set (i1 := Hmovi _ _ _). unfold st_temp.
  set (i2 := Hst _ _ _ _). set (ts' := with_val_type TEMP_VAL_MEM (temps st t)).
  assert (inv (set_temp t ts' st)) as HI'.
  { pose proof (inv_relocate st t ts' HI Ht Hf) as Hx. unfold leave_reg in Hx. rewrite Hv in Hx. by apply Hx. }
  split.
  - by destruct HI'.
  - intros u Hu. cbn. destruct (decide (u = t)) as [->|Hne]; [by rewrite fupd_eq|by rewrite fupd_ne].
  - exists [i1; i2]. split; [cbn; by rewrite <- app_assoc|]. split; [by repeat constructor|].
    intros F P s h HL HF HR. cbn [run_simple fold_left].
    assert (F t = Some (slot (temps st t))) as Hk.
    { pose proof (HF t) as Hx. cbn in Hx. rewrite fupd_eq in Hx. by apply Hx. }
    pose proof (rel_set_reg F P st s h reg (uint (bits (temp_type C t)) (tval (temps st t))) HI Hfree Hres HR) as HR1.
    destruct (rel_store F P st s _ t _ (ty t (ty t (tval (temps st t)))) HL Hk HR1) as [HR2 Hin].
    { intros v Hp Hx. pose proof (r_vals _ _ _ _ _ HR t v Hp Hx) as Hloc. unfold located in Hloc.
      rewrite Hv in Hloc. by rewrite !ty_ty. }
    assert (exec_simple i2 (exec_simple i1 h) = set_hmem (slot (temps st t)) (ty t (ty t (tval (temps st t))))
      (set_hreg reg (uint (bits (temp_type C t)) (tval (temps st t))) h)) as ->.
    { cbn. by rewrite fupd_eq. }
    split.
    + eapply (rel_change _ _ st _ _ _ t); [|exact HR2|].
      * intros u Hu. cbn. by apply fupd_ne.
      * intros v Hp Hx _. unfold located. cbn. rewrite fupd_eq. cbn. by apply Hin.
    + eapply keeps_trans; [by apply keeps_reg|by eapply keeps_slot].
Qed.

Lemma temp_save_ok A t st st' : inv st -> (t < nb_temps)%nat -> (forall r, reserved r = true -> test A r = true) ->
  temp_save C H t A st = Some st' ->
  sim A st st' /\ shrinks st st' /\
  (fixed_reg (temps st t) = false -> tval_type (temps st' t) = TEMP_VAL_MEM) /\
  (forall u, u <> t -> tval_type (temps st u) = TEMP_VAL_DEAD -> tval_type (temps st' u) = TEMP_VAL_DEAD).
Proof.
  intros HI Ht HA E. unfold temp_save in E. destruct (fixed_reg (temps st t)) eqn:Hf.
  { injection E as <-. split_and!; try done. by apply sim_refl. }
  destruct (tval_type (temps st t)) eqn:Hv.
  - injection E as <-. set (ts' := with_val_type TEMP_VAL_MEM (temps st t)).
    split_and!.
    + apply sim_silent; [| |done|].
      * pose proof (inv_relocate st t ts' HI Ht Hf) as Hx. unfold leave_reg in Hx. rewrite Hv in Hx. by apply Hx.
      * apply ext_same. by apply set_temp_same.
      * intros F P s h _ _ HR. eapply (rel_change _ _ st _ _ _ t); [|exact HR|].
        -- intros u Hu. cbn. by apply fupd_ne.
        -- intros v _ _. unfold located. cbn. by rewrite fupd_eq, Hv.
    + split; cbn; [done| |]; intros u; (destruct (decide (u = t)) as [->|]; [by rewrite fupd_eq|by rewrite fupd_ne]).
    + intros _. cbn. by rewrite fupd_eq.
    + intros u Hu Hd. cbn. by rewrite fupd_ne.
  - destruct (tcg_reg_free_ok A _ st st' HI (i_nores _ HI t Ht Hv Hf) E) as [HS HF].
    split_and!; [done|by eapply freed_shrinks| |].
    + intros _. destruct (fr_type _ _ _ HF t) as [Ex|[_ ?]]; [|done].
      exfalso. pose proof (s_inv _ _ _ HS) as HI'. pose proof (fr_none _ _ _ HF) as Hn.
      destruct (fr_temps _ _ _ HF t) as (E1 & _ & E3). rewrite <- E1, (i_t2r _ HI' t Ht) in Hn; congruence.
    + intros u _ Hd. rewrite (freed_not_reg _ _ _ u HI HF); congruence.
  - injection E as <-. split_and!; try done. by apply sim_refl.
  - apply bind_Some in E as ([reg st1] & E1 & E). apply bind_Some in E as (st2 & E2 & [= <-]).
    destruct (tcg_reg_alloc_ok A A _ st reg st1 HI HA E1) as (S1 & F1 & _ & HAr & Hres).
    pose proof (s_inv _ _ _ S1) as HI1. pose proof (freed_not_reg _ _ _ t HI F1) as Ev1.
    rewrite Hv in Ev1. specialize (Ev1 ltac:(done)). destruct (fr_temps _ _ _ F1 t) as (_ & Et1 & Ef1).
    rewrite Hf in Ef1. destruct (need_frame_ok A t st1 st2 HI1 Ef1 E2) as (S2 & Hm & HS & Hr2 & Hc).
    pose proof (s_inv _ _ _ S2) as HI2. destruct (HS t) as (Ev2 & _ & Et2 & _ & Ef2).
    rewrite <- Et1, <- Et2. split_and!.
    + eapply sim_trans; [exact S1|]. eapply sim_trans; [exact S2|]. apply save_const_ok; try congruence; try done.
      rewrite Hr2. apply F1.
    + apply (shrinks_trans _ st1); [by eapply freed_shrinks|]. split; cbn.
      * intros r u. by rewrite Hr2.
      * intros u Hm'. destruct (HS u) as (Ex & _). destruct (decide (u = t)) as [->|]; [congruence|].
        rewrite fupd_ne by done. congruence.
      * intros u. destruct (HS u) as (_ & _ & _ & _ & Ex).
        destruct (decide (u = t)) as [->|]; [rewrite fupd_eq|rewrite fupd_ne by done]; done.
    + intros _. cbn. by rewrite fupd_eq.
    + intros u Hu Hd. cbn. rewrite fupd_ne by done. destruct (HS u) as (-> & _).
      rewrite (freed_not_reg _ _ _ u HI F1); congruence.
Qed.

Lemma save_temps_ok A l : forall st st', inv st -> Forall (fun t => t < nb_temps)%nat l ->
  (forall r, reserved r = true -> test A r = true) -> save_temps C H l A st = Some st' ->
  sim A st st' /\ shrinks st st' /\
  (forall t, t ∈ l -> fixed_reg (temps st t) = false -> tval_type (temps st' t) = TEMP_VAL_MEM) /\
  (forall u, (u ∉ l) -> tval_type (temps st u) = TEMP_VAL_DEAD -> tval_type (temps st' u) = TEMP_VAL_DEAD).
Proof.
  induction l as [|t l IH]; intros st st' HI Hl HA E.
  { injection E as <-. split_and!; try done; [by apply sim_refl|]. intros t Ht. by apply not_elem_of_nil in Ht. }
  apply Forall_cons in Hl as [Ht Hl]. cbn in E. apply bind_Some in E as (st1 & E1 & E).
  destruct (temp_save_ok A t st st1 HI Ht HA E1) as (S1 & W1 & M1 & D1).
  destruct (IH st1 st' (s_inv _ _ _ S1) Hl HA E) as (S2 & W2 & M2 & D2). split_and!.
  - by eapply sim_trans.
  - by eapply shrinks_trans.
  - intros u [->|Hu]%elem_of_cons Hf; [by apply (sh_mem _ _ W2), M1|].
    apply M2; [done|]. by rewrite (sh_fixed _ _ W1).
  - intros u [Hne Hu]%not_elem_of_cons Hd. auto.
Qed.

Lemma save_globals_ok A st st' : inv st -> (forall r, reserved r = true -> test A r = true) ->
  save_globals C H A st = Some st' ->
  sim A st st' /\ shrinks st st' /\
  (forall t, (t < nb_globals)%nat -> fixed_reg (temps st t) = false -> tval_type (temps st' t) = TEMP_VAL_MEM) /\
  (forall u, (nb_globals <= u)%nat -> tval_type (temps st u) = TEMP_VAL_DEAD ->
    tval_type (temps st' u) = TEMP_VAL_DEAD).
Proof.
  intros HI HA E. pose proof (ho_context HO) as Hc.
  destruct (save_temps_ok A (seq 0 nb_globals) st st' HI) as (S2 & W2 & M2 & D2); [|done|exact E|].
  { apply Forall_forall. intros t Ht%elem_of_seq. lia. }
  split_and!; [done|done| |].
  - intros t Ht. apply M2, elem_of_seq. lia.
  - intros t Ht. apply D2. rewrite elem_of_seq. lia.
Qed.

(** ** Forgetting temporaries *)

(** A step that keeps the values of the temporaries outside [K]. *)
Record simk A (K : nat -> Prop) st st' : Prop := {
  sk_inv : inv st';
  sk_ext : ext st st';
  sk_code : exists c, code st' = code st ++ c /\ Forall simple c /\
    forall F P s h, layout F -> slots F st' -> (forall t, P t -> ~ K t) -> rel F P st s h ->
      rel F P st' s (run_simple c h) /\ keeps A F h (run_simple c h) }.

Lemma sim_simk A K st st' : sim A st st' -> simk A K st st'.
Proof.
  intros [HI HE (c & Hc & Hs & HR)]. split; [done|done|]. exists c. split; [done|]. split; [done|].
  intros F P s h HL HF _. by apply HR.
Qed.

Lemma simk_trans A K st1 st2 st3 : simk A K st1 st2 -> simk A K st2 st3 -> simk A K st1 st3.
Proof.
  intros [I1 E1 (c1 & C1 & S1 & R1)] [I2 E2 (c2 & C2 & S2 & R2)].
  split; [done|by eapply ext_trans|]. exists (c1 ++ c2). split; [by rewrite C2, C1, app_assoc|].
  split; [by apply Forall_app|]. intros F P s h HL HF HK HR.
  destruct (R1 F P s h HL (slots_ext _ _ _ E2 HF) HK HR) as [HR1 HA1].
  destruct (R2 F P s _ HL HF HK HR1) as [HR2 HA2]. unfold run_simple in *. rewrite fold_left_app.
  split; [done|by eapply keeps_trans].
Qed.

Lemma simk_weaken A (K K' : nat -> Prop) st st' : simk A K st st' -> (forall t, K t -> K' t) -> simk A K' st st'.
Proof.
  intros [HI HE (c & Hc & Hs & HR)] HK. split; [done|done|]. exists c. split; [done|]. split; [done|].
  intros F P s h HL HF HP Hr. apply HR; try done. intros t Ht Hk. by apply (HP t Ht), HK.
Qed.

Lemma leave_reg_regs t st r u : reg_to_temp (leave_reg t st) r = Some u -> reg_to_temp st r = Some u.
Proof.
  unfold leave_reg. destruct (tval_type (temps st t)); try done. cbn.
  destruct (decide (r = treg (temps st t))) as [->|Hne]; [by rewrite fupd_eq|by rewrite fupd_ne].
Qed.

(** [t] gets another place that is not a register. *)
Lemma relocate_simk A t ts' st : inv st -> (t < nb_temps)%nat -> fixed_reg (temps st t) = false ->
  same_mem (temps st t) ts' -> tval_type ts' <> TEMP_VAL_REG ->
  simk A (eq t) st (set_temp t ts' (leave_reg t st)).
Proof.
  intros HI Ht Hf HM Hn. split.
  - by apply inv_relocate.
  - apply ext_same. intros u. cbn. rewrite leave_reg_temps. by apply set_temp_same.
  - exists []. split; [rewrite app_nil_r; unfold leave_reg; by destruct (tval_type (temps st t))|].
    split; [constructor|]. intros F P s h _ _ HK HR. split; [|auto].
    eapply (rel_change _ _ st _ _ _ t); [|exact HR|].
    + intros u Hu. cbn. rewrite leave_reg_temps. by apply fupd_ne.
    + intros v Hp. by destruct (HK t Hp).
Qed.

Lemma temp_dead_eq t st : temp_dead t st = set_temp t (with_val_type TEMP_VAL_DEAD (temps st t)) (leave_reg t st).
Proof. unfold temp_dead, set_val_type. by rewrite leave_reg_temps. Qed.

Lemma temp_dead_ok A t st : inv st -> (t < nb_temps)%nat -> fixed_reg (temps st t) = false ->
  simk A (eq t) st (temp_dead t st) /\
  (forall r u, reg_to_temp (temp_dead t st) r = Some u -> reg_to_temp st r = Some u /\ u <> t) /\
  temps (temp_dead t st) = fupd (temps st) t (with_val_type TEMP_VAL_DEAD (temps st t)).
Proof.
  intros HI Ht Hf. rewrite temp_dead_eq. cbn. rewrite leave_reg_temps.
  pose proof (relocate_simk A t (with_val_type TEMP_VAL_DEAD (temps st t)) st HI Ht Hf ltac:(done) ltac:(done)) as HS.
  split_and!; [done| |done]. intros r u Hr. split; [by eapply leave_reg_regs|]. intros ->.
  destruct (i_r2t _ (sk_inv _ _ _ _ HS) r t Hr) as (_ & Hv & _). cbn in Hv. rewrite leave_reg_temps, fupd_eq in Hv. done.
Qed.

(** The arguments whose bit is set. *)
Lemma kill_inputs_marked m ins : forall i st, kill_inputs i ins m st = fold_left (fun st t => kill_temp t st) (marked i ins m) st.
Proof.
  induction ins as [|t ins IH]; intros i st; [done|]. cbn. rewrite IH. unfold IS_DEAD_ARG.
  by destruct (Z.testbit m (Z.of_nat i)).
Qed.

Lemma kill_temps_ok A l : forall st, inv st -> Forall (fun t => t < nb_temps)%nat l ->
  let st' := fold_left (fun st t => kill_temp t st) l st in
  simk A (fun t => t ∈ l) st st' /\
  (forall r u, reg_to_temp st' r = Some u -> reg_to_temp st r = Some u /\
    (u ∈ l -> fixed_reg (temps st u) = true)) /\
  (forall u, fixed_reg (temps st' u) = fixed_reg (temps st u)).
Proof.
  induction l as [|t l IH]; intros st HI Hl; cbn.
  { split_and!; [by apply sim_simk, sim_refl| |done]. intros r u Hr. split; [done|]. intros Hu.
    by apply not_elem_of_nil in Hu. }
  apply Forall_cons in Hl as [Ht Hl].
  assert (simk A (fun u => u ∈ t :: l) st (kill_temp t st) /\
    (forall r u, reg_to_temp (kill_temp t st) r = Some u -> reg_to_temp st r = Some u /\
      (u = t -> fixed_reg (temps st u) = true)) /\
    (forall u, fixed_reg (temps (kill_temp t st) u) = fixed_reg (temps st u))) as (S1 & R1 & F1).
  { unfold kill_temp. destruct (fixed_reg (temps st t)) eqn:Hf.
    - split_and!; [by apply sim_simk, sim_refl| |done]. intros r u Hr. split; [done|]. by intros ->.
    - destruct (temp_dead_ok A t st HI Ht Hf) as (S1 & R1 & E1). split_and!.
      + eapply simk_weaken; [exact S1|]. intros u <-. left.
      + intros r u Hr. destruct (R1 r u Hr) as [? Hne]. split; [done|]. by intros ->.
      + intros u. rewrite E1. destruct (decide (u = t)) as [->|]; [by rewrite fupd_eq|by rewrite fupd_ne]. }
  destruct (IH (kill_temp t st) (sk_inv _ _ _ _ S1) Hl) as (S2 & R2 & F2). split_and!.
  - eapply simk_trans; [exact S1|]. eapply simk_weaken; [exact S2|]. intros u Hu. by right.
  - intros r u Hr. destruct (R2 r u Hr) as [Hr1 Hf1]. destruct (R1 r u Hr1) as [Hr0 Hf0]. split; [done|].
    intros [->|Hu]%elem_of_cons; [by apply Hf0|]. rewrite <- F1. by apply Hf1.
  - intros u. by rewrite F2, F1.
Qed.

(** ** The end of a basic block *)

(** Globals and locals are in their slots, plain temporaries nowhere. *)
Definition canonical st : Prop :=
  forall t, (t < nb_temps)%nat -> fixed_reg (temps st t) = false ->
    tval_type (temps st t) = if (t <? nb_globals)%nat || temp_local C t then TEMP_VAL_MEM else TEMP_VAL_DEAD.

#[local] Abbreviation bb_dead := (is_dead (tcg_la_bb_end C)).

Lemma bb_end_temps_ok A l : forall st st', inv st -> Forall (fun t => nb_globals <= t < nb_temps)%nat l -> NoDup l ->
  (forall r, reserved r = true -> test A r = true) -> bb_end_temps C H l A st = Some st' ->
  simk A (fun t => bb_dead t = true) st st' /\ 
  (forall r t, reg_to_temp st' r = Some t -> reg_to_temp st r = Some t) /\
  (forall t, fixed_reg (temps st' t) = fixed_reg (temps st t)) /\
  (forall t, (t ∉ l) -> tval_type (temps st t) = TEMP_VAL_MEM -> tval_type (temps st' t) = TEMP_VAL_MEM) /\
  (forall t, (t ∉ l) -> tval_type (temps st t) = TEMP_VAL_DEAD -> tval_type (temps st' t) = TEMP_VAL_DEAD) /\
  (forall t, t ∈ l -> tval_type (temps st' t) = if temp_local C t then TEMP_VAL_MEM else TEMP_VAL_DEAD).
Proof.
  induction l as [|t l IH]; intros st st' HI Hl Hnd HA E.
  { injection E as <-. split_and!; try done; [by apply sim_simk, sim_refl|]. intros t Ht. by apply not_elem_of_nil in Ht. }
  apply Forall_cons in Hl as [Ht Hl]. apply NoDup_cons in Hnd as [Hnt Hnd]. cbn in E.
  apply bind_Some in E as (st1 & E1 & E).
  assert (fixed_reg (temps st t) = false) as Hf.
  { rewrite (i_fixed _ HI). by rewrite (proj2 (Nat.ltb_ge _ _)) by lia. }
  assert (simk A (fun t => bb_dead t = true) st st1 /\
    (forall r u, reg_to_temp st1 r = Some u -> reg_to_temp st r = Some u) /\
    (forall u, fixed_reg (temps st1 u) = fixed_reg (temps st u)) /\
    (forall u, u <> t -> tval_type (temps st u) = TEMP_VAL_MEM -> tval_type (temps st1 u) = TEMP_VAL_MEM) /\
    (forall u, u <> t -> tval_type (temps st u) = TEMP_VAL_DEAD -> tval_type (temps st1 u) = TEMP_VAL_DEAD) /\
    tval_type (temps st1 t) = if temp_local C t then TEMP_VAL_MEM else TEMP_VAL_DEAD) as (S1 & R1 & F1 & M1 & D1 & V1).
  { destruct (temp_local C t) eqn:El.
    - destruct (temp_save_ok A t st st1 HI ltac:(lia) HA E1) as (S1 & W1 & M1 & D1). split_and!.
      + by apply sim_simk.
      + apply W1.
      + apply W1.
      + intros u _. apply W1.
      + done.
      + by apply M1.
    - injection E1 as <-. destruct (temp_dead_ok A t st HI ltac:(lia) Hf) as (S1 & R1 & Et). split_and!.
      + eapply simk_weaken; [exact S1|]. intros u <-. rewrite is_dead_bb_end, El.
        rewrite (proj2 (Nat.ltb_ge _ _)), (proj2 (Nat.ltb_lt _ _)) by lia. done.
      + intros r u Hr. by apply R1.
      + intros u. rewrite Et. destruct (decide (u = t)) as [->|]; [by rewrite fupd_eq|by rewrite fupd_ne].
      + intros u Hu. rewrite Et. by rewrite fupd_ne.
      + intros u Hu. rewrite Et. by rewrite fupd_ne.
      + rewrite Et. by rewrite fupd_eq. }
  destruct (IH st1 st' (sk_inv _ _ _ _ S1) Hl Hnd HA E) as (S2 & R2 & F2 & M2 & D2 & V2). split_and!.
  - by eapply simk_trans.
  - auto.
  - intros u. by rewrite F2, F1.
  - intros u [Hne Hu]%not_elem_of_cons Hm. auto.
  - intros u [Hne Hu]%not_elem_of_cons Hm. auto.
  - intros u [->|Hu]%elem_of_cons; [|by apply V2]. destruct (temp_local C t); auto.
Qed.

Lemma bb_end_ok A st st' : inv st -> (forall r, reserved r = true -> test A r = true) ->
  tcg_reg_alloc_bb_end C H A st = Some st' ->
  simk A (fun t => bb_dead t = true) st st' /\ canonical st' /\
  (forall r t, reg_to_temp st' r = Some t -> reg_to_temp st r = Some t).
Proof.
  intros HI HA E. unfold tcg_reg_alloc_bb_end in E. apply bind_Some in E as (st1 & E1 & E2).
  pose proof (ho_context HO) as Hc.
  assert (Forall (fun t => nb_globals <= t < nb_temps)%nat (seq nb_globals (nb_temps - nb_globals))) as Hl.
  { apply Forall_forall. intros t Ht%elem_of_seq. lia. }
  destruct (bb_end_temps_ok A _ st st1 HI Hl (NoDup_seq _ _) HA E1) as (S1 & R1 & F1 & _ & _ & V1).
  destruct (save_globals_ok A st1 st' (sk_inv _ _ _ _ S1) HA E2) as (S2 & W2 & M2 & D2). split_and!.
  - eapply simk_trans; [exact S1|by apply sim_simk].
  - intros t Ht Hf. rewrite (sh_fixed _ _ W2) in Hf. destruct (Nat.ltb_spec t nb_globals) as [Hg|Hg]; cbn [orb].
    + by apply M2.
    + pose proof (V1 t ltac:(apply elem_of_seq; lia)) as Hv.
      destruct (temp_local C t); [by apply (sh_mem _ _ W2)|by apply D2].
  - intros r t Hr. by apply R1, (sh_regs _ _ W2).
Qed.

Lemma rel_canonical F P st1 st2 s h : inv st1 -> inv st2 -> canonical st1 -> canonical st2 ->
  rel F P st1 s h -> rel F P st2 s h.
Proof.
  intros I1 I2 C1 C2 HR. pose proof HR as []. split; [done|done|]. intros t v Hp Hv.
  pose proof (rel_lt _ _ _ _ _ _ _ HR Hv) as Ht. specialize (r_vals0 t v Hp Hv). unfold located in *.
  pose proof (i_fixed _ I1 t) as Ef1. pose proof (i_fixed _ I2 t) as Ef2.
  destruct (fixed_reg (temps st1 t)) eqn:Ef.
  - rewrite <- Ef1 in Ef2. destruct (i_own _ I1 t Ef) as (V1 & T1 & _ & M1), (i_own _ I2 t Ef2) as (V2 & T2 & _ & M2).
    rewrite V1, T1, M1 in r_vals0. by rewrite V2, T2, M2.
  - rewrite <- Ef1 in Ef2. rewrite (C1 t Ht Ef) in r_vals0. rewrite (C2 t Ht Ef2).
    by destruct ((t <? nb_globals)%nat || temp_local C t).
Qed.

(** ** Registers a call may change *)

Lemma free_regs_ok A l : forall st st', inv st -> free_regs C H l st = Some st' ->
  sim A st st' /\ shrinks st st' /\
  (forall r, r ∈ l -> test (tcg_target_call_clobber_regs H) r = true -> reg_to_temp st' r = None).
Proof.
  induction l as [|r l IH]; intros st st' HI E.
  { injection E as <-. split_and!; try done; [by apply sim_refl|]. intros t Ht. by apply not_elem_of_nil in Ht. }
  cbn in E. apply bind_Some in E as (st1 & E1 & E).
  assert (sim A st st1 /\ shrinks st st1 /\
    (test (tcg_target_call_clobber_regs H) r = true -> reg_to_temp st1 r = None)) as (S1 & W1 & N1).
  { destruct (test (tcg_target_call_clobber_regs H) r) eqn:Er.
    - assert (reserved r = false) as Hres.
      { destruct (reserved r) eqn:Ex; [|done]. rewrite (ho_clobber HO r Ex) in Er. done. }
      destruct (tcg_reg_free_ok A r st st1 HI Hres E1) as [HS HF].
      split_and!; [done|by eapply freed_shrinks|]. intros _. apply HF.
    - injection E1 as <-. split_and!; try done. by apply sim_refl. }
  destruct (IH st1 st' (s_inv _ _ _ S1) E) as (S2 & W2 & N2). split_and!.
  - by eapply sim_trans.
  - by eapply shrinks_trans.
  - intros u [->|Hu]%elem_of_cons Hc; [|by apply N2]. destruct (reg_to_temp st' r) as [t|] eqn:Ex; [|done].
    apply (sh_regs _ _ W2) in Ex. rewrite N1 in Ex by done. done.
Qed.

(** ** Writing a temporary *)

Lemma rel_write F P st s h d x : rel F (fun u => P u /\ u <> d) st s h -> located F st h d (ty d x) ->
  rel F (fun u => u = d \/ P u) st (wr C d x s) h.
Proof.
  intros [] Hd. split; cbn; [done|by rewrite length_insert|]. intros u v Hu Hv.
  destruct (decide (u = d)) as [->|Hne].
  - destruct (decide (d < length (vals s))%nat).
    + rewrite list_lookup_insert_eq in Hv by done. injection Hv as <-. exact Hd.
    + rewrite list_insert_ge in Hv by lia. apply lookup_lt_Some in Hv. lia.
  - rewrite list_lookup_insert_ne in Hv by done. apply r_vals0; [|done]. destruct Hu; [done|]. done.
Qed.

Lemma inv_pointwise st st' : inv st -> (forall u, temps st' u = temps st u) ->
  (forall r, reg_to_temp st' r = reg_to_temp st r) -> current_frame_offset st' = current_frame_offset st -> inv st'.
Proof.
  intros HI Ht Hr Ho. pose proof HI as []. apply (inv_places st); try done.
  - intros u. by rewrite Ht.
  - intros r t. rewrite Hr, Ht. apply i_r2t0.
  - intros t. rewrite Hr, Ht. intros. split; [by apply i_t2r0|by apply i_nores0].
  - intros t Hf. rewrite Ht. split_and!; [by apply i_own0|done|done].
Qed.

(** [reg] is free, or [o] is in it already. *)
Definition avail o reg st : Prop :=
  reserved reg = false /\ (forall u, reg_to_temp st reg = Some u -> u = o) /\
  (tval_type (temps st o) = TEMP_VAL_REG -> treg (temps st o) = reg).

Lemma assign_reg_inv o reg st : inv st -> (o < nb_temps)%nat -> fixed_reg (temps st o) = false ->
  avail o reg st -> inv (assign_reg o reg st).
Proof.
  intros HI Ho Hf (Hres & Hown & Hreg). apply (inv_places st); try done; cbn.
  - by apply set_temp_same.
  - intros r u. destruct (decide (r = reg)) as [->|Hne].
    + rewrite fupd_eq. intros [= <-]. by rewrite fupd_eq.
    + rewrite fupd_ne by done. intros Hu. destruct (i_r2t _ HI r u Hu) as (? & Hv & Hr).
      rewrite fupd_ne; [done|]. intros ->. by rewrite Hreg in Hr.
  - intros u Hu. destruct (decide (u = o)) as [->|Hne]; [by rewrite !fupd_eq|]. rewrite !fupd_ne by done.
    intros Hv Hfu. pose proof (i_t2r _ HI u Hu Hv Hfu) as Hr. split; [|by apply (i_nores _ HI)].
    rewrite fupd_ne; [done|]. intros E. rewrite E in Hr. by apply Hown in Hr.
  - intros u Hfu. rewrite fupd_ne by congruence. split_and!; [by apply (i_own _ HI)|done|done].
Qed.

(** Nobody else is in [reg]. *)
Lemma avail_other o reg st u : inv st -> avail o reg st -> (u < nb_temps)%nat -> u <> o ->
  tval_type (temps st u) = TEMP_VAL_REG -> treg (temps st u) <> reg.
Proof.
  intros HI (Hres & Hown & _) Hu Hne Hv <-. destruct (fixed_reg (temps st u)) eqn:Ef.
  - destruct (i_own _ HI u Ef) as (_ & E1 & E2 & _). congruence.
  - by apply Hne, Hown, (i_t2r _ HI).
Qed.

Lemma assign_reg_rel F P st s h h' o reg x : inv st -> (o < nb_temps)%nat -> avail o reg st ->
  rel F P st s h -> hmem h' = hmem h -> hworld h' = hworld h ->
  (forall r, r <> reg -> hregs h' r = hregs h r) -> ty o (hregs h' reg) = ty o x ->
  rel F (fun u => u = o \/ P u) (assign_reg o reg st) (wr C o x s) h'.
Proof.
  intros HI Ho Hav HR Hm Hw Hr Hx. pose proof HR as []. apply rel_write.
  - split; [by rewrite Hw|done|]. intros u v [Hp Hne] Hv. pose proof (rel_lt _ _ _ _ _ _ _ HR Hv) as Hu.
    specialize (r_vals0 u v Hp Hv). unfold located, in_slot in *. cbn. rewrite fupd_ne by done. rewrite Hm.
    destruct (tval_type (temps st u)) eqn:Ev; try done. rewrite Hr; [done|]. by apply (avail_other o reg st u).
  - unfold located. cbn. rewrite fupd_eq. done.
Qed.

Lemma mov_reg_ok A ct o reg st st' : inv st -> (o < nb_temps)%nat -> fixed_reg (temps st o) = false ->
  mov_reg C H ct o st = Some (reg, st') ->
  sim A st st' /\ avail o reg st' /\ shrinks st st' /\
  (forall t, treg (temps st' t) = treg (temps st t) /\ tval (temps st' t) = tval (temps st t)) /\
  (forall t, tval_type (temps st t) <> TEMP_VAL_REG -> tval_type (temps st' t) = tval_type (temps st t)).
Proof.
  intros HI Ho Hf E. unfold mov_reg in E.
  assert (tval_type (temps st o) <> TEMP_VAL_REG -> tcg_reg_alloc C H ct (reserved_regs H) st = Some (reg, st') ->
    sim A st st' /\ avail o reg st' /\ shrinks st st' /\
    (forall t, treg (temps st' t) = treg (temps st t) /\ tval (temps st' t) = tval (temps st t)) /\
    (forall t, tval_type (temps st t) <> TEMP_VAL_REG -> tval_type (temps st' t) = tval_type (temps st t))) as Halloc.
  { intros Hn Ea. destruct (tcg_reg_alloc_ok A (reserved_regs H) ct st reg st' HI ltac:(done) Ea) as (HS & HF & _ & _ & Hres).
    split_and!; [done| |by eapply freed_shrinks| |].
    - split_and!; [done| |].
      + intros u. by rewrite (fr_none _ _ _ HF).
      + rewrite (freed_not_reg _ _ _ o HI HF) by done. done.
    - intros t. by destruct (fr_temps _ _ _ HF t) as (? & ? & _).
    - intros t. by apply (freed_not_reg _ _ _ t HI HF). }
  destruct (tval_type (temps st o)) eqn:Ev; try (by apply Halloc). injection E as <- <-.
  split_and!; try done; [by apply sim_refl|]. split_and!; [by apply (i_nores _ HI)| |done].
  intros u Hu. by rewrite (i_t2r _ HI o Ho Ev Hf) in Hu; injection Hu.
Qed.

(** A whole operation that needs no instruction of its own: [s'] is the state after it. *)
Record opsim (P P' : nat -> Prop) st st' s s' : Prop := {
  os_inv : inv st';
  os_ext : ext st st';
  os_code : exists c, code st' = code st ++ c /\ Forall simple c /\
    forall F h, layout F -> slots F st' -> rel F P st s h -> rel F P' st' s' (run_simple c h) }.

Lemma tcg_reg_alloc_movi_ok P w d v st s : inv st -> has_type C w d = true -> fixed_reg (temps st d) = false ->
  opsim P (fun u => u = d \/ P u) st (tcg_reg_alloc_movi C d v st) s (wr C d (uint (bits w) v) s).
Proof.
  intros HI [Hd Hw]%has_type_iff Hf. unfold tcg_reg_alloc_movi. rewrite Hf, leave_reg_temps.
  destruct (relocate_simk (-1) d (with_const v (temps st d)) st HI Hd Hf ltac:(done) ltac:(done)) as
    [HI' HE (c & Hc & Hs & HR)].
  split; [done|done|]. exists c. split; [done|]. split; [done|]. intros F h HL HF Hr.
  apply rel_write.
  - apply (HR F _ s h HL HF); [by intros t [_ Hne] <-|]. eapply rel_weaken; [exact Hr|]. by intros t [? _].
  - unfold located. cbn. rewrite leave_reg_temps, fupd_eq. cbn. unfold typed. rewrite Hw.
    rewrite uint_uint; [done|]. pose proof (bits_range w). lia.
Qed.

Lemma opsim_weaken P P1 P' st st' s s' : opsim P P1 st st' s s' -> (forall u, P' u -> P1 u) -> opsim P P' st st' s s'.
Proof.
  intros [HI HE (c & Hc & Hs & HR)] HP. split; [done|done|]. exists c. split; [done|]. split; [done|].
  intros F h HL HF Hr. eapply rel_weaken; [by apply HR|done].
Qed.

(** The operation ends with the result in register [reg]; [i] fills the register. *)
Lemma assign_opsim P st st1 s d reg x (ci : list HInsn) : inv st -> (d < nb_temps)%nat ->
  fixed_reg (temps st1 d) = false -> sim (-1) st st1 -> avail d reg st1 -> Forall simple ci ->
  (forall F h0 h, layout F -> slots F st1 -> rel F P st s h0 -> rel F P st1 s h ->
    (forall r, hregs h r = hregs h0 r) ->
    hmem (run_simple ci h) = hmem h /\ hworld (run_simple ci h) = hworld h /\
    (forall r, r <> reg -> hregs (run_simple ci h) r = hregs h r) /\
    ty d (hregs (run_simple ci h) reg) = ty d x) ->
  opsim P (fun u => u = d \/ P u) st
    (assign_reg d reg (mkAlloc (temps st1) (reg_to_temp st1) (current_frame_offset st1) (code st1 ++ ci)))
    s (wr C d x s).
Proof.
  intros HI Hd Hf [HI1 HE1 (c1 & Hc1 & Hs1 & HR1)] Hav Hci Hx.
  assert (inv (assign_reg d reg st1)) as HI' by (by apply assign_reg_inv).
  assert (ext st1 (assign_reg d reg st1)) as HE' by (apply ext_same; cbn; by apply set_temp_same).
  split.
  - by destruct HI'.
  - eapply ext_trans; [exact HE1|]. exact HE'.
  - exists (c1 ++ ci). split; [cbn; by rewrite Hc1, app_assoc|]. split; [by apply Forall_app|].
    intros F h HL HF Hr. assert (slots F st1) as HF1 by (by apply (slots_ext F st1 (assign_reg d reg st1))).
    destruct (HR1 F P s h HL HF1 Hr) as [Hr1 Hregs]. unfold run_simple. rewrite fold_left_app.
    assert (forall r, hregs (run_simple c1 h) r = hregs h r) as Hall.
    { intros r. apply (proj1 Hregs). unfold tcg_regset_test_reg. by rewrite Z.bits_m1 by lia. }
    destruct (Hx F h (run_simple c1 h) HL HF1 Hr Hr1 Hall) as (E1 & E2 & E3 & E4).
    pose proof (assign_reg_rel F P st1 s _ _ d reg x HI1 Hd Hav Hr1 E1 E2 E3 E4) as Hfin.
    destruct Hfin. by split.
Qed.

Lemma ty_eq w t : temp_type C t = w -> forall v, ty t v = uint (bits w) v.
Proof. intros <- v. done. Qed.

(** The move is suppressed: the output takes over the register of a dead input. *)
Lemma mov_suppressed P P' d i st s v w : inv st -> has_type C w d = true -> has_type C w i = true ->
  fixed_reg (temps st d) = false -> fixed_reg (temps st i) = false -> tval_type (temps st i) = TEMP_VAL_REG ->
  P i -> vals s !! i = Some v -> (forall u, P' u -> u = d \/ P u) -> (P' i -> i = d) ->
  opsim P P' st
    (assign_reg d (treg (temps st i))
      (set_val_type TEMP_VAL_DEAD i (set_reg_to_temp (treg (temps st i)) None (leave_reg d st))))
    s (wr C d (uint (bits w) v) s).
Proof.
  intros HI [Hd Hwd]%has_type_iff [Hi Hwi]%has_type_iff Hfd Hfi Hv Hp Hvi HP Hdead. set (r := treg (temps st i)).
  set (st1 := set_val_type _ _ _). set (ts1 := with_val_type TEMP_VAL_DEAD (temps st d)).
  pose proof (relocate_simk (-1) d ts1 st HI Hd Hfd ltac:(done) ltac:(done)) as [HIa _ _].
  set (sta := set_temp d ts1 (leave_reg d st)) in *.
  assert (temps sta = fupd (temps st) d ts1) as Eta by (cbn; by rewrite leave_reg_temps).
  assert (inv (temp_dead i sta)) as HIb.
  { apply (temp_dead_ok (-1)); [done|done|]. rewrite Eta. destruct (decide (i = d)) as [->|];
      [by rewrite fupd_eq|by rewrite fupd_ne]. }
  assert (reg_to_temp (temp_dead i sta) r = None) as Hn.
  { destruct (reg_to_temp (temp_dead i sta) r) as [u|] eqn:Er; [|done]. exfalso.
    pose proof (i_r2t _ HIb r u Er) as (_ & Hvu & Hru). rewrite temp_dead_eq in Er.
    apply leave_reg_regs, leave_reg_regs in Er. cbn in Er. unfold r in Er.
    rewrite (i_t2r _ HI i Hi Hv Hfi) in Er. injection Er as <-.
    rewrite temp_dead_eq in Hvu. cbn in Hvu. by rewrite leave_reg_temps, fupd_eq in Hvu. }
  assert (temps (temp_dead i sta) d = ts1) as Etd.
  { rewrite temp_dead_eq. cbn -[ts1]. rewrite leave_reg_temps, Eta. destruct (decide (d = i)) as [->|Hne].
    - by rewrite !fupd_eq.
    - by rewrite fupd_ne, fupd_eq. }
  assert (inv (assign_reg d r st1)) as HI'.
  { apply (inv_pointwise (set_reg_to_temp r (Some d)
      (set_temp d (with_reg r false (temps (temp_dead i sta) d)) (temp_dead i sta)))).
    - apply inv_enter; try done; rewrite ?Etd; try done. by apply (i_nores _ HI).
    - intros u. cbn [temps set_reg_to_temp set_temp assign_reg]. rewrite Etd.
      destruct (decide (u = d)) as [->|Hne].
      + rewrite !fupd_eq. unfold st1. cbn. rewrite leave_reg_temps.
        destruct (decide (d = i)) as [->|Hdi]; [by rewrite fupd_eq|by rewrite fupd_ne].
      + rewrite !fupd_ne by done. rewrite temp_dead_eq. unfold st1. cbn. rewrite !leave_reg_temps, Eta.
        destruct (decide (u = i)) as [->|Hui]; [rewrite !fupd_eq|rewrite !fupd_ne by done]; [|done].
        by rewrite fupd_ne.
    - intros u. rewrite temp_dead_eq. unfold assign_reg. cbn [reg_to_temp set_reg_to_temp set_temp].
      destruct (decide (u = r)) as [->|Hne]; [by rewrite !fupd_eq|]. rewrite !fupd_ne by done.
      unfold st1. cbn [reg_to_temp set_val_type set_temp set_reg_to_temp]. rewrite fupd_ne by done.
      unfold leave_reg at 2. rewrite Eta.
      destruct (decide (i = d)) as [->|Hid]; [by rewrite fupd_eq|]. rewrite fupd_ne, Hv by done.
      cbn [reg_to_temp set_reg_to_temp]. by rewrite fupd_ne.
    - rewrite temp_dead_eq. unfold st1. cbn. rewrite !leave_reg_offset. cbn.
      by rewrite leave_reg_offset. }
  assert (forall u, u <> d -> u <> i -> temps (assign_reg d r st1) u = temps st u) as Hoth.
  { intros u H1 H2. cbn. rewrite !fupd_ne by done. by rewrite leave_reg_temps. }
  split; [done| |].
  - apply ext_same. intros u. cbn. rewrite !leave_reg_temps.
    destruct (decide (u = d)) as [->|Hne].
    + rewrite fupd_eq. destruct (decide (d = i)) as [->|]; [by rewrite !fupd_eq|by rewrite !fupd_ne].
    + rewrite fupd_ne by done. destruct (decide (u = i)) as [->|]; [by rewrite fupd_eq|by rewrite fupd_ne].
  - exists []. split; [cbn; rewrite app_nil_r; unfold leave_reg; by destruct (tval_type (temps st d))|].
    split; [constructor|]. intros F h HL HF Hr.
    eapply rel_weaken; [apply (rel_write F (fun u => P' u))|].
    + destruct Hr. split; [done|done|]. intros u x [Hu Hne] Hx. destruct (HP u Hu) as [|Hpu]; [done|].
      assert (u <> i) as Hui by (intros ->; by apply Hne, Hdead).
      unfold located. rewrite Hoth by done. by apply r_vals0.
    + pose proof (r_vals _ _ _ _ _ Hr i v Hp Hvi) as Hloc. unfold located in *. cbn. rewrite fupd_eq. cbn.
      split; [|done]. rewrite Hv in Hloc. destruct Hloc as [<- _]. fold r.
      rewrite !(ty_eq w) by done. rewrite !uint_uint; pose proof (bits_range w); lia.
    + intros u Hu. by right.
Qed.

Lemma tcg_reg_alloc_mov_ok P P' w d i m ct st st' s v : inv st -> has_type C w d = true -> has_type C w i = true ->
  fixed_reg (temps st d) = false -> P i -> vals s !! i = Some v -> (forall u, P' u -> u = d \/ P u) ->
  (Z.testbit m 1 = true -> P' i -> i = d) -> tcg_reg_alloc_mov C H ct d i m st = Some st' ->
  opsim P P' st st' s (wr C d (uint (bits w) v) s).
Proof.
  intros HI Hd Hi Hfd Hp Hvi HP Hdead E. pose proof Hd as [Hd' Hwd]%has_type_iff. pose proof Hi as [Hi' Hwi]%has_type_iff.
  assert (0 < bits w) as Hb by (pose proof (bits_range w); lia). unfold tcg_reg_alloc_mov in E.
  destruct (tval_type (temps st i)) eqn:Hv.
  - done.
  - destruct (IS_DEAD_ARG m 1 && negb (fixed_reg (temps st i)) && negb (fixed_reg (temps st d))) eqn:Es.
    + injection E as <-. apply andb_true_iff in Es as [[Hm Hfi%negb_true_iff]%andb_true_iff _].
      apply (mov_suppressed P P' d i st s v w); try done. by apply Hdead.
    + apply bind_Some in E as ([reg st1] & E & [= <-]).
      destruct (mov_reg_ok (-1) ct d reg st st1 HI Hd' Hfd E) as (S1 & Hav & W1 & Hsame & _).
      eapply opsim_weaken; [|exact HP].
      set (ci := if Nat.eqb (treg (temps st i)) reg then [] else [Hmov (temp_type C d) reg (treg (temps st i))]).
      assert ((if Nat.eqb (treg (temps st i)) reg then st1 else emit (Hmov (temp_type C d) reg (treg (temps st i))) st1) =
        mkAlloc (temps st1) (reg_to_temp st1) (current_frame_offset st1) (code st1 ++ ci)) as ->.
      { unfold ci. destruct (Nat.eqb _ _); [|done]. destruct st1. cbn. by rewrite app_nil_r. }
      apply assign_opsim; try done; [by rewrite (sh_fixed _ _ W1)|unfold ci; by destruct (Nat.eqb _ _); repeat constructor|].
      intros F h0 h HL HF Hr0 Hr Hregs. pose proof (r_vals _ _ _ _ _ Hr0 i v Hp Hvi) as Hloc.
      unfold located in Hloc. rewrite Hv in Hloc. destruct Hloc as [<- _].
      unfold ci. destruct (Nat.eqb_spec (treg (temps st i)) reg) as [->|Hne]; cbn.
      * split_and!; try done. rewrite Hregs, !(ty_eq w) by done. by rewrite !uint_uint by lia.
      * split_and!; try done; [intros r Hr'; by apply fupd_ne|]. rewrite fupd_eq, Hregs, !(ty_eq w) by done.
        rewrite Hwd. by rewrite !uint_uint by lia.
  - apply bind_Some in E as ([reg st1] & E & E2). apply bind_Some in E2 as (st2 & E2 & [= <-]).
    destruct (mov_reg_ok (-1) ct d reg st st1 HI Hd' Hfd E) as (S1 & Hav & W1 & Hsame & Hty).
    unfold ld_temp in E2. destruct (mem_allocated (temps st1 i)) eqn:Em; [|done]. injection E2 as <-.
    eapply opsim_weaken; [|exact HP].
    apply (assign_opsim P st st1 s d reg (uint (bits w) v)
      [Hld (temp_type C i) reg (mem_reg (temps st1 i)) (mem_offset (temps st1 i))]); try done;
      [by rewrite (sh_fixed _ _ W1)|by repeat constructor|].
    intros F h0 h HL HF _ Hr _. pose proof (r_vals _ _ _ _ _ Hr i v Hp Hvi) as Hloc. unfold located in Hloc.
    rewrite Hty, Hv in Hloc by congruence. specialize (Hloc _ (HF i Em)). cbn. split_and!; try done.
    + intros r Hr'. by apply fupd_ne.
    + rewrite fupd_eq, Hwi, !(ty_eq w) by done. rewrite <- Hloc. unfold slot. rewrite (ty_eq w) by done.
      by rewrite !uint_uint by lia.
  - rewrite Hfd in E. injection E as <-. rewrite leave_reg_temps. eapply opsim_weaken; [|exact HP].
    destruct (relocate_simk (-1) d (with_const (tval (temps st i)) (temps st d)) st HI Hd' Hfd ltac:(done) ltac:(done)) as
      [HI' HE (c & Hc & Hs & HR)].
    split; [done|done|]. exists c. split; [done|]. split; [done|]. intros F h HL HF Hr. apply rel_write.
    + apply (HR F _ s h HL HF); [by intros t [_ Hne] <-|]. eapply rel_weaken; [exact Hr|]. by intros t [? _].
    + pose proof (r_vals _ _ _ _ _ Hr i v Hp Hvi) as Hloc. unfold located in *. rewrite Hv in Hloc. cbn.
      rewrite leave_reg_temps, fupd_eq. cbn. rewrite <- Hloc, !(ty_eq w) by done. by rewrite !uint_uint by lia.
Qed.

End Alloc.
