(* ===== verification/TcgRegOps.v ===== *)
(** * Operations with constraints

    The pass brings the inputs of an operation into registers the instruction accepts,
    kills those that die, spills what the instruction would clobber, chooses registers for
    the outputs and emits the instruction.  The instruction then finds the values of the
    inputs in its operands, and its results are where the tables say. *)

From S2P Require Import Prelude TcgIr TcgOptimize TcgRing TcgFold TcgOptProofs TcgLive TcgLiveProofs.
From S2P Require Import TcgRegAlloc TcgRegProofs.
From Stdlib Require Import Sorting.Sorted.
Open Scope Z_scope.

Section Ops.
Context {World : Type} (C : TCGContext) (T : OpTable) (H : Target) (g : nat -> TCGTemp).
Context (HO : host_ok C H g).
Implicit Types (st : Alloc) (t r : nat) (h : Host World) (s : State World) (P K : nat -> Prop)
  (F : nat -> option (nat * Z)) (A : Z).

#[local] Abbreviation nb_temps := (nb_temps C).
#[local] Abbreviation nb_globals := (nb_globals C).
#[local] Abbreviation test := tcg_regset_test_reg.
#[local] Abbreviation reserved := (tcg_regset_test_reg (reserved_regs H)).
#[local] Abbreviation ty := (typed C).
#[local] Abbreviation inv := (inv C H g).
#[local] Abbreviation rel := (rel C).
#[local] Abbreviation layout := (layout H).
#[local] Abbreviation located := (located C).
#[local] Abbreviation sim := (sim (World:=World) C H g).
#[local] Abbreviation simk := (simk (World:=World) C H g).
#[local] Abbreviation alloc_ok := (tcg_reg_alloc_ok (World:=World) C H g HO).

(** ** Values in operands *)

(** Where an instruction finds the value of a temporary. *)
Inductive place := In (x : operand) | OnStack (off : Z).

Definition place_val h (p : place) : Z :=
  match p with In x => opval h x | OnStack off => hmem h (TCG_REG_CALL_STACK H, off) end.

Definition arg_area (off : Z) : Prop :=
  TCG_TARGET_CALL_STACK_OFFSET H <= off < TCG_TARGET_CALL_STACK_OFFSET H + TCG_STATIC_CALL_ARGS_SIZE H.

(** Code that keeps the registers [A] keeps the value. *)
Definition within A (p : place) : Prop :=
  match p with
  | In (Reg r) => test A r = true
  | In (Const _) => True
  | OnStack off => arg_area off
  end.

Definition holds P s h (q : nat * place) : Prop :=
  forall v, P (fst q) -> vals s !! fst q = Some v -> ty (fst q) (place_val h (snd q)) = v.

Lemma keeps_place A F h h' p : layout F -> within A p -> keeps A F h h' -> place_val h' p = place_val h p.
Proof.
  intros HL Hp [HR HM]. destruct p as [[r|v]|off]; cbn in *; [by apply HR|done|].
  apply HM. intros t Ht. destruct (l_args _ _ HL t off Ht); unfold arg_area in Hp; lia.
Qed.

Lemma keeps_holds A F P s h h' l : layout F -> Forall (fun q => within A (snd q)) l -> keeps A F h h' ->
  Forall (holds P s h) l -> Forall (holds P s h') l.
Proof.
  intros HL Hw HK. rewrite !Forall_forall. intros Hh q Hq v HP Hv.
  rewrite Forall_forall in Hw. rewrite (keeps_place A F h h') by eauto. by apply Hh.
Qed.

(** A step after which the operands [l] hold their values. *)
Record simq A (l : list (nat * place)) st st' : Prop := {
  q_inv : inv st';
  q_ext : ext st st';
  q_code : exists c, code st' = code st ++ c /\ Forall simple c /\
    forall F P s h, layout F -> slots F st' -> rel F P st s h ->
      rel F P st' s (run_simple c h) /\ keeps A F h (run_simple c h) /\
      Forall (holds P s (run_simple c h)) l }.

Lemma sim_simq A st st' : sim A st st' -> simq A [] st st'.
Proof.
  intros [HI HE (c & Hc & Hs & HR)]. split; [done|done|]. exists c. split; [done|]. split; [done|].
  intros F P s h HL HF Hr. destruct (HR F P s h HL HF Hr). done.
Qed.

Lemma simq_sim A l st st' : simq A l st st' -> sim A st st'.
Proof.
  intros [HI HE (c & Hc & Hs & HR)]. split; [done|done|]. exists c. split; [done|]. split; [done|].
  intros F P s h HL HF Hr. destruct (HR F P s h HL HF Hr) as (? & ? & _). done.
Qed.

Lemma simq_trans A A' l l' st1 st2 st3 : simq A l st1 st2 -> simq A' l' st2 st3 ->
  (forall r, test A r = true -> test A' r = true) -> Forall (fun q => within A' (snd q)) l ->
  simq A (l ++ l') st1 st3.
Proof.
  intros [I1 E1 (c1 & C1 & S1 & R1)] [I2 E2 (c2 & C2 & S2 & R2)] HA Hw.
  split; [done|by eapply ext_trans|]. exists (c1 ++ c2). split; [by rewrite C2, C1, app_assoc|].
  split; [by apply Forall_app|]. intros F P s h HL HF HR.
  destruct (R1 F P s h HL (slots_ext _ _ _ E2 HF) HR) as (HR1 & HK1 & HH1).
  destruct (R2 F P s _ HL HF HR1) as (HR2 & HK2 & HH2). unfold run_simple in *. rewrite fold_left_app.
  split_and!; [done|by eapply keeps_trans, keeps_weaken|]. apply Forall_app. split; [|done].
  by eapply keeps_holds.
Qed.

(** The last instruction puts the value into a register nobody is in. *)
Lemma simq_fill A st i reg t x : inv st -> reg_to_temp st reg = None -> reserved reg = false ->
  test A reg = false -> simple i -> (forall h, exec_simple (World:=World) i h = set_hreg reg (x h) h) ->
  (forall F P s h v, slots F st -> rel F P st s h -> P t -> vals s !! t = Some v -> ty t (x h) = v) ->
  simq A [(t, In (Reg reg))] st (emit i st).
Proof.
  intros HI Hfree Hres HA Hi Hx Hv.
  split; [by apply inv_emit|exact (ext_refl st)|]. exists [i]. split; [done|]. split; [by constructor|].
  intros F P s h HL HF HR. cbn. rewrite Hx. split_and!; [by apply rel_emit, (rel_set_reg C H g)|by apply keeps_reg|].
  constructor; [|done]. intros v Hp Hvt. cbn. rewrite fupd_eq. by eapply Hv.
Qed.

(** A value that an operand holds is copied. *)
Lemma simq_copy A st st' r reg t : simq A [(t, In (Reg r))] st st' -> reg_to_temp st' reg = None ->
  reserved reg = false -> test A reg = false ->
  simq A [(t, In (Reg reg))] st (emit (Hmov (temp_type C t) reg r) st').
Proof.
  intros [HI HE (c & Hc & Hs & HR)] Hfree Hres HA. split; [by apply inv_emit|exact HE|].
  exists (c ++ [Hmov (temp_type C t) reg r]). split; [cbn; by rewrite Hc, app_assoc|].
  split; [apply Forall_app; split; [done|by constructor]|]. intros F P s h HL HF Hr.
  destruct (HR F P s h HL HF Hr) as (HR1 & HK & HH). unfold run_simple in *. rewrite fold_left_app. cbn.
  split_and!; [by apply rel_emit, (rel_set_reg C H g)|eapply keeps_trans; [exact HK|by apply keeps_reg]|].
  constructor; [|done]. intros v Hp Hv. apply Forall_cons in HH as [HH _]. specialize (HH v Hp Hv). cbn in *.
  rewrite fupd_eq, <- HH. apply ty_ty.
Qed.

(** A temporary in a register. *)
Lemma simq_own A st t : inv st -> tval_type (temps st t) = TEMP_VAL_REG ->
  simq A [(t, In (Reg (treg (temps st t))))] st st.
Proof.
  intros HI Hv. split; [done|apply ext_refl|]. exists []. split; [by rewrite app_nil_r|]. split; [done|].
  intros F P s h HL HF HR. split_and!; [done|apply keeps_refl|]. constructor; [|done]. intros v Hp Hx.
  pose proof (r_vals _ _ _ _ _ _ HR t v Hp Hx) as Hloc. unfold TcgRegProofs.located in Hloc. rewrite Hv in Hloc. apply Hloc.
Qed.

(** The value comes into a free register, and the temporary with it. *)
Lemma sim_enter A st i reg t coh x : inv st -> (t < nb_temps)%nat -> fixed_reg (temps st t) = false ->
  tval_type (temps st t) <> TEMP_VAL_REG -> reg_to_temp st reg = None -> reserved reg = false ->
  test A reg = false -> simple i -> (forall h, exec_simple (World:=World) i h = set_hreg reg (x h) h) ->
  (forall F P s h v, slots F st -> rel F P st s h -> P t -> vals s !! t = Some v ->
    ty t (x h) = v /\ (coh = true -> in_slot C F h t v)) ->
  sim A st (set_reg_to_temp reg (Some t) (set_temp t (with_reg reg coh (temps st t)) (emit i st))).
Proof.
  intros HI Ht Hf Hn Hfree Hres HA Hi Hx Hv. eapply (sim_one C H g A st _ i); [| |done|done|].
  - pose proof (inv_enter C H g st t reg (with_reg reg coh (temps st t)) HI Ht Hf ltac:(done) Hn Hfree Hres eq_refl eq_refl) as [].
    by split.
  - apply ext_same. cbn. by apply set_temp_same.
  - intros F P s h HL HF HR. rewrite Hx. split; [|by apply keeps_reg].
    eapply (rel_change C F P (emit i st) _ s _ t).
    + intros u Hu. cbn. by apply fupd_ne.
    + by apply rel_emit, (rel_set_reg C H g).
    + intros v Hp Hvt _. unfold TcgRegProofs.located. cbn. rewrite !fupd_eq. cbn. rewrite ?fupd_eq.
      assert (slots F st) as HF'.
      { eapply slots_ext; [|exact HF]. apply ext_same. cbn. by apply set_temp_same. }
      destruct (Hv F P s h v HF' HR Hp Hvt) as [H1 H2]. split; [done|]. intros Hc k Hk. by apply H2.
Qed.

(** ** Inputs *)

(** Registers in [A] keep their temporary. *)
Definition frame A st st' : Prop :=
  (forall r, test A r = true -> reg_to_temp st' r = reg_to_temp st r) /\
  (forall t, fixed_reg (temps st' t) = fixed_reg (temps st t)).

Lemma frame_refl A st : frame A st st.
Proof. by split. Qed.

Lemma frame_trans A st1 st2 st3 : frame A st1 st2 -> frame A st2 st3 -> frame A st1 st3.
Proof. intros [F1 G1] [F2 G2]. split; [intros r Hr; by rewrite F2, F1|intros t; by rewrite G2]. Qed.

Lemma frame_weaken A A' st st' : frame A st st' -> (forall r, test A' r = true -> test A r = true) -> frame A' st st'.
Proof. intros [F1 G1] HA. split; auto. Qed.

Lemma freed_frame A reg st st' : test A reg = false -> freed reg st st' -> frame A st st'.
Proof.
  intros HA HF. split; [|intros t; by apply (fr_temps _ _ _ HF)].
  intros r Hr. apply (fr_regs _ _ _ HF). congruence.
Qed.

#[local] Abbreviation above A := (forall r, reserved r = true -> test A r = true).

Lemma fixed_in_reg st t : inv st -> tval_type (temps st t) <> TEMP_VAL_REG -> fixed_reg (temps st t) = false.
Proof.
  intros HI Hn. destruct (fixed_reg (temps st t)) eqn:E; [|done]. by destruct (i_own _ _ _ _ HI t E) as (? & _).
Qed.

Lemma load_input_ok A ct t st st' c : inv st -> (t < nb_temps)%nat -> above A ->
  load_input C H t ct A st = Some (c, st') -> frame A st st' /\
  match c with
  | Some v => simq A [(t, In (Const v))] st st'
  | None => sim A st st' /\ tval_type (temps st' t) = TEMP_VAL_REG
  end.
Proof.
  intros HI Ht HA E. unfold load_input in E. destruct (tval_type (temps st t)) eqn:Hv; [done| | |].
  - injection E as <- <-. split; [apply frame_refl|]. split; [by apply sim_refl|done].
  - apply bind_Some in E as ([reg st1] & E1 & E). apply bind_Some in E as (st2 & E2 & [= <- <-]).
    destruct (alloc_ok A A _ st reg st1 HI HA E1) as (S1 & F1 & _ & HAr & Hres).
    pose proof (s_inv _ _ _ _ _ _ S1) as HI1. unfold ld_temp in E2.
    destruct (mem_allocated (temps st1 t)) eqn:Em; [|done]. injection E2 as <-.
    assert (tval_type (temps st1 t) = TEMP_VAL_MEM) as Hv1.
    { rewrite (freed_not_reg C H g reg st st1 t HI F1); congruence. }
    split; [|split; [|cbn; by rewrite fupd_eq]].
    + eapply frame_trans; [by eapply freed_frame|]. split; cbn.
      * intros r Hr. apply fupd_ne. congruence.
      * intros u. destruct (decide (u = t)) as [->|]; [by rewrite fupd_eq|by rewrite fupd_ne].
    + eapply sim_trans; [exact S1|]. eapply (sim_enter A st1 _ reg t true); try done.
      * apply fixed_in_reg; [done|congruence].
      * congruence.
      * apply F1.
      * intros F P s h v HF HR Hp Hx. pose proof (r_vals _ _ _ _ _ _ HR t v Hp Hx) as Hloc.
        unfold TcgRegProofs.located in Hloc. rewrite Hv1 in Hloc. split; [|done].
        rewrite <- (Hloc _ (HF t Em)). apply ty_ty.
  - destruct (ct_const ct (tval (temps st t))) eqn:Ec.
    + injection E as <- <-. split; [apply frame_refl|]. split; [done|apply ext_refl|].
      exists []. split; [by rewrite app_nil_r|]. split; [done|]. intros F P s h HL HF HR.
      split_and!; [done|apply keeps_refl|]. constructor; [|done]. intros v Hp Hx.
      pose proof (r_vals _ _ _ _ _ _ HR t v Hp Hx) as Hloc. unfold TcgRegProofs.located in Hloc. by rewrite Hv in Hloc.
    + apply bind_Some in E as ([reg st1] & E1 & [= <- <-]).
      destruct (alloc_ok A A _ st reg st1 HI HA E1) as (S1 & F1 & _ & HAr & Hres).
      pose proof (s_inv _ _ _ _ _ _ S1) as HI1.
      assert (tval_type (temps st1 t) = TEMP_VAL_CONST) as Hv1.
      { rewrite (freed_not_reg C H g reg st st1 t HI F1); congruence. }
      split; [|split; [|cbn; by rewrite fupd_eq]].
      * eapply frame_trans; [by eapply freed_frame|]. split; cbn.
        -- intros r Hr. apply fupd_ne. congruence.
        -- intros u. destruct (decide (u = t)) as [->|]; [by rewrite fupd_eq|by rewrite fupd_ne].
      * eapply sim_trans; [exact S1|]. eapply (sim_enter A st1 _ reg t false); try done.
        -- apply fixed_in_reg; [done|congruence].
        -- congruence.
        -- apply F1.
        -- intros F P s h v HF HR Hp Hx. pose proof (r_vals _ _ _ _ _ _ HR t v Hp Hx) as Hloc.
           unfold TcgRegProofs.located in Hloc. rewrite Hv1 in Hloc. split; [|done].
           destruct (fr_temps _ _ _ F1 t) as (_ & <- & _). rewrite <- Hloc. apply ty_ty.
Qed.

(** The register of an input that an output will take over: nobody is in it, or only the
    input, which dies. *)
Definition alias_ok A st (m : Z) (i t r : nat) : Prop :=
  reserved r = false /\
  ((test A r = false /\ reg_to_temp st r = None) \/ (reg_to_temp st r = Some t /\ IS_DEAD_ARG m i = true)).

Lemma test_all r : test (-1) r = true.
Proof. unfold tcg_regset_test_reg. by rewrite Z.bits_m1 by lia. Qed.

Lemma place_input_ok args A ct t i m st st' x A' : inv st -> (t < nb_temps)%nat -> above A ->
  place_input C H args t i ct m A st = Some (x, A', st') ->
  simq A [(t, In x)] st st' /\ frame A st st' /\ within A' (In x) /\
  (forall r, test A r = true -> test A' r = true) /\
  (ct_ialias ct = true -> (fixed_reg (temps st t) = true -> args !! alias_index ct <> Some t) ->
    forall r, x = Reg r -> alias_ok A st' m i t r).
Proof.
  intros HI Ht HA E. unfold place_input in E. apply bind_Some in E as ([c st1] & E1 & E).
  destruct (load_input_ok A ct t st st1 c HI Ht HA E1) as [F1 S1]. destruct c as [v|].
  { injection E as <- <- <-. by split_and!. }
  destruct S1 as [S1 Hv]. pose proof (s_inv _ _ _ _ _ _ S1) as HI1.
  pose proof (simq_trans A A [] _ _ _ _ (sim_simq _ _ _ S1) (simq_own A st1 t HI1 Hv) ltac:(done) ltac:(constructor)) as Q1.
  cbn [app] in Q1. apply bind_Some in E as ([reg st2] & E2 & [= <- <- <-]).
  assert (forall r, test A r = true -> test (tcg_regset_set_reg A reg) r = true) as Hsub.
  { intros r Hr. by rewrite test_set_reg, Hr. }
  assert (within (tcg_regset_set_reg A reg) (In (Reg reg))) as Hin.
  { cbn. by rewrite test_set_reg, Nat.eqb_refl, orb_true_r. }
  destruct (must_copy args t i ct m st1 || negb (test (ct_regs ct) (treg (temps st1 t)))) eqn:Eb.
  - apply bind_Some in E2 as ([reg' st3] & E3 & [= -> <-]).
    destruct (alloc_ok (-1) A _ st1 reg st3 HI1 HA E3) as (S2 & Fr2 & _ & HAr & Hres).
    destruct (fr_temps _ _ _ Fr2 t) as (-> & _).
    pose proof (simq_trans A (-1) _ [] _ _ _ Q1 (sim_simq _ _ _ S2) ltac:(intros; apply test_all)
      ltac:(constructor; [apply test_all|done])) as Q2. split_and!; try done.
    + apply simq_copy; try done. apply Fr2.
    + eapply frame_trans; [exact F1|exact (freed_frame A reg st1 st3 HAr Fr2)].
    + intros _ _ r [= <-]. split; [done|]. left. split; [done|]. apply Fr2.
  - injection E2 as <- <-. split_and!; try done. intros Hia Hfx r [= <-].
    apply orb_false_iff in Eb as [Em _]. unfold must_copy in Em. rewrite Hia in Em. cbn [andb] in Em.
    destruct (fixed_reg (temps st1 t)) eqn:Ef.
    + apply negb_false_iff, bool_decide_eq_true in Em. destruct F1 as [_ Hfix]. rewrite Hfix in Ef. by destruct (Hfx Ef).
    + apply negb_false_iff in Em. split; [by apply (i_nores _ _ _ _ HI1)|]. right.
      split; [by apply (i_t2r _ _ _ _ HI1)|done].
Qed.

(** What the loop over the inputs leaves for argument number [i]. *)
Definition input_in (o : TCGOp) (args : list nat) (m A A' : Z) st' (na : nat -> option operand)
    (L : list (nat * place)) (i : nat) : Prop :=
  exists t x, args !! i = Some t /\ na i = Some x /\ (t, In x) ∈ L /\ within A' (In x) /\
  (ct_ialias (args_ct H o i) = true ->
    (forall u, args !! alias_index (args_ct H o i) = Some u -> fixed_reg (temps st' u) = false) ->
    forall r, x = Reg r -> alias_ok A st' m i t r).

Lemma within_sub A A' p : (forall r, test A r = true -> test A' r = true) -> within A p -> within A' p.
Proof. intros HA. destruct p as [[]|]; cbn; auto. Qed.

Lemma place_inputs_ok o args m l : forall na A st na' A' st', inv st -> above A -> NoDup l ->
  Forall (fun t => t < nb_temps)%nat args ->
  place_inputs C H o args m l na A st = Some (na', A', st') ->
  frame A st st' /\ (forall r, test A r = true -> test A' r = true) /\
  (forall i, (i ∉ l) -> na' i = na i) /\
  exists L, simq A L st st' /\ Forall (fun q => within A' (snd q)) L /\
    forall i, i ∈ l -> input_in o args m A A' st' na' L i.
Proof.
  induction l as [|i l IH]; intros na A st na' A' st' HI HA Hnd Hargs E.
  { injection E as <- <- <-. split_and!; [apply frame_refl|done|done|]. exists [].
    split_and!; [by apply sim_simq, sim_refl|constructor|]. intros i Hi. by apply not_elem_of_nil in Hi. }
  apply NoDup_cons in Hnd as [Hni Hnd]. cbn in E. apply bind_Some in E as (t & Et & E).
  apply bind_Some in E as ([[x A1] st1] & E1 & E).
  assert (t < nb_temps)%nat as Ht by (rewrite Forall_forall in Hargs; by eapply Hargs, list_elem_of_lookup_2).
  destruct (place_input_ok args A _ t i m st st1 x A1 HI Ht HA E1) as (Q1 & F1 & W1 & Sub1 & Al1).
  destruct (IH _ A1 st1 na' A' st' (q_inv _ _ _ _ Q1) ltac:(auto) Hnd Hargs E) as (F2 & Sub2 & N2 & L & Q2 & W2 & In2).
  split_and!; [eapply frame_trans; [exact F1|by eapply frame_weaken]|auto| |].
  { intros j [Hne Hj]%not_elem_of_cons. rewrite N2 by done. by apply fupd_ne. }
  exists ((t, In x) :: L). split_and!.
  - apply (simq_trans A A1 [(t, In x)] L st st1); try done. by constructor.
  - constructor; [|done]. by apply (within_sub A1).
  - intros j [->|Hj]%elem_of_cons.
    + exists t, x. split_and!; [done|rewrite N2 by done; apply fupd_eq|left|by apply (within_sub A1)|].
      intros Hia Hfx r Hr. destruct Al1 with (r := r) as [Hres Hown]; try done.
      { intros Hf Ha. specialize (Hfx t Ha). destruct F1 as [_ F1], F2 as [_ F2]. congruence. }
      split; [done|]. subst x. rewrite (proj1 F2 r W1). done.
    + destruct (In2 j Hj) as (t' & x' & H1 & H2 & H3 & H4 & H5). exists t', x'.
      split_and!; [done|done|by right|done|]. intros Hia Hfx r Hr. destruct (H5 Hia Hfx r Hr) as [Hres Hown].
      split; [done|]. destruct Hown as [[Hn Hx]|Hown]; [left|by right]. split; [|done].
      destruct (test A r) eqn:Er; [|done]. rewrite (Sub1 r Er) in Hn. done.
Qed.

(** Two outputs take over two registers. *)
Lemma place_inputs_distinct o args m l : forall na A st na' A' st', inv st -> above A -> NoDup l ->
  Forall (fun t => t < nb_temps)%nat args ->
  (forall i u, i ∈ l -> ct_ialias (args_ct H o i) = true ->
    args !! alias_index (args_ct H o i) = Some u -> fixed_reg (temps st u) = false) ->
  (forall i j t, i ∈ l -> j ∈ l -> args !! i = Some t -> args !! j = Some t ->
    IS_DEAD_ARG m i = true -> IS_DEAD_ARG m j = true -> i = j) ->
  place_inputs C H o args m l na A st = Some (na', A', st') ->
  forall i j r, i ∈ l -> j ∈ l -> ct_ialias (args_ct H o i) = true -> ct_ialias (args_ct H o j) = true ->
    na' i = Some (Reg r) -> na' j = Some (Reg r) -> i = j.
Proof.
  induction l as [|k l IH]; intros na A st na' A' st' HI HA Hnd Hargs Hfx Hm E; [by intros i j r ?%not_elem_of_nil|].
  apply NoDup_cons in Hnd as [Hnk Hnd]. cbn in E. apply bind_Some in E as (t & Et & E).
  apply bind_Some in E as ([[x A1] st1] & E1 & E).
  assert (t < nb_temps)%nat as Ht by (rewrite Forall_forall in Hargs; by eapply Hargs, list_elem_of_lookup_2).
  destruct (place_input_ok args A _ t k m st st1 x A1 HI Ht HA E1) as (Q1 & F1 & W1 & Sub1 & Al1).
  assert (above A1) as HA1 by auto. pose proof (q_inv _ _ _ _ Q1) as HI1.
  destruct (place_inputs_ok o args m l _ A1 st1 na' A' st' HI1 HA1 Hnd Hargs E) as (F2 & _ & N2 & L & _ & _ & In2).
  assert (na' k = Some x) as Ek by (rewrite N2 by done; apply fupd_eq).
  assert (forall u, fixed_reg (temps st' u) = fixed_reg (temps st u)) as Hfix.
  { intros u. destruct F1 as [_ F1], F2 as [_ F2]. congruence. }
  assert (forall j r, j ∈ l -> ct_ialias (args_ct H o k) = true -> ct_ialias (args_ct H o j) = true ->
    na' k = Some (Reg r) -> na' j = Some (Reg r) -> False) as Hhead.
  { intros j r Hj Hk' Hj' Rk Rj. destruct (In2 j Hj) as (tj & xj & Tj & Xj & _ & _ & Aj).
    rewrite Ek in Rk. injection Rk as ->. rewrite Rj in Xj. injection Xj as <-.
    destruct Al1 with (r := r) as [_ Ok]; [done| |done|].
    { intros Hf Ha. rewrite (Hfx k t ltac:(left) Hk' Ha) in Hf. done. }
    destruct Aj with (r := r) as [_ Oj]; [done| |done|].
    { intros u Hu. rewrite Hfix. by apply (Hfx j); [right|..]. }
    rewrite <- (proj1 F2 r W1) in Ok. cbn in W1. destruct Oj as [[Hn _]|[Oj Dj]]; [congruence|].
    destruct Ok as [[_ Hn]|[Ok Dk]]; [congruence|]. assert (t = tj) as <- by congruence.
    assert (k = j) as -> by (apply (Hm k j t); [left|by right|done..]). done. }
  intros i j r [->|Hi]%elem_of_cons [->|Hj]%elem_of_cons Hia Hja Ri Rj; [done| | |].
  - by destruct (Hhead j r).
  - by destruct (Hhead i r).
  - eapply (IH _ A1 st1 na' A' st'); try done.
    + intros a u Ha. destruct F1 as [_ F1]. rewrite F1. apply Hfx. by right.
    + intros a b u Ha Hb. apply Hm; by right.
Qed.

Lemma marked_lookup m l t : forall k i, l !! i = Some t -> IS_DEAD_ARG m (k + i) = true -> t ∈ marked k l m.
Proof.
  induction l as [|x l IH]; intros k i Hi Hd; [done|]. cbn. destruct i as [|i].
  - injection Hi as ->. rewrite Nat.add_0_r in Hd. unfold IS_DEAD_ARG in Hd. rewrite Hd. left.
  - rewrite <- Nat.add_succ_comm in Hd. specialize (IH _ _ Hi Hd).
    destruct (Z.testbit m (Z.of_nat k)); [by right|done].
Qed.

(** The marks are on one occurrence of a temporary. *)
Lemma marked_once ins m t : forall k i j, NoDup (marked k ins m) -> ins !! i = Some t -> ins !! j = Some t ->
  IS_DEAD_ARG m (k + i) = true -> IS_DEAD_ARG m (k + j) = true -> i = j.
Proof.
  induction ins as [|x ins IH]; intros k i j Hnd Hi Hj Di Dj; [done|]. cbn in Hnd.
  assert (NoDup (marked (S k) ins m)) as Hnd'.
  { destruct (Z.testbit m (Z.of_nat k)); [by apply NoDup_cons in Hnd as [_ ?]|done]. }
  assert (forall a, (x :: ins) !! S a = Some t -> IS_DEAD_ARG m (k + S a) = true ->
    x = t -> IS_DEAD_ARG m (k + 0) = true -> False) as Hx.
  { intros a Ha Da -> D0. rewrite Nat.add_0_r in D0. unfold IS_DEAD_ARG in D0. rewrite D0 in Hnd.
    apply NoDup_cons in Hnd as [Hn _]. apply Hn. apply (marked_lookup m ins t (S k) a); [done|].
    by rewrite Nat.add_succ_comm. }
  destruct i as [|i], j as [|j]; [done| | |].
  - injection Hi as ->. by destruct (Hx j Hj Dj eq_refl Di).
  - injection Hj as ->. by destruct (Hx i Hi Di eq_refl Dj).
  - f_equal. apply (IH (S k) i j); try done; by rewrite Nat.add_succ_comm.
Qed.

(** ** Outputs *)

(** Output [t], argument number [i], has register [reg]. *)
Definition output_at (m : Z) (i t reg : nat) st : Prop :=
  (forall u, reg_to_temp st reg = Some u -> u = t) /\
  (IS_DEAD_ARG m i = true \/ (reg_to_temp st reg = Some t /\ mem_coherent (temps st t) = false)).

(** Nothing but [t] and register [reg] changes. *)
Record moves t reg st st' : Prop := {
  mv_back r u : r <> reg -> reg_to_temp st' r = Some u -> reg_to_temp st r = Some u;
  mv_stay r u : r <> reg -> u <> t -> reg_to_temp st r = Some u ->
    reg_to_temp st' r = Some u /\ mem_coherent (temps st' u) = mem_coherent (temps st u);
  mv_fixed u : fixed_reg (temps st' u) = fixed_reg (temps st u) }.

Lemma leave_reg_stay st t r u : inv st -> u <> t -> (t < nb_temps)%nat -> fixed_reg (temps st t) = false ->
  reg_to_temp st r = Some u -> reg_to_temp (leave_reg t st) r = Some u.
Proof.
  intros HI Hne Ht Hf Hr. unfold leave_reg. destruct (tval_type (temps st t)) eqn:Ev; try done. cbn.
  rewrite fupd_ne; [done|]. intros ->. rewrite (i_t2r _ _ _ _ HI t Ht Ev Hf) in Hr. congruence.
Qed.

Lemma output_in_ok A t i reg m st : inv st -> (t < nb_temps)%nat -> fixed_reg (temps st t) = false ->
  reg_to_temp st reg = None -> reserved reg = false -> let st' := output_in t i reg m st in
  simk A (eq t) st st' /\ output_at m i t reg st' /\ moves t reg st st'.
Proof.
  intros HI Ht Hf Hfree Hres. unfold output_in. rewrite Hf.
  destruct (temp_dead_ok (World:=World) C H g A t st HI Ht Hf) as (SD & RD & ED).
  pose proof (sk_inv _ _ _ _ _ _ _ SD) as HID.
  destruct (IS_DEAD_ARG m i) eqn:Ed; cbn zeta.
  - change (set_val_type TEMP_VAL_DEAD t (leave_reg t st)) with (temp_dead t st).
    split_and!; [done| |split].
    + split; [|by left]. intros u Hu. destruct (RD _ _ Hu). congruence.
    + intros r u _ Hu. by destruct (RD _ _ Hu).
    + intros r u _ Hne Hr. rewrite ED, fupd_ne by done. split; [|done]. by apply leave_reg_stay.
    + intros u. rewrite ED. destruct (decide (u = t)) as [->|]; [by rewrite fupd_eq|by rewrite fupd_ne].
  - rewrite leave_reg_temps. set (ts' := with_reg reg false (temps st t)).
    set (st' := set_reg_to_temp _ _ _). assert (temps st' = fupd (temps st) t ts') as Et by (cbn; by rewrite leave_reg_temps).
    assert (inv st') as HI'.
    { apply (inv_pointwise C H g (set_reg_to_temp reg (Some t) (set_temp t ts' (temp_dead t st)))).
      - apply inv_enter; try done; rewrite ?ED, ?fupd_eq; try done.
        destruct (reg_to_temp (temp_dead t st) reg) as [u|] eqn:Eu; [|done]. destruct (RD _ _ Eu). congruence.
      - intros u. rewrite Et. cbn [temps set_reg_to_temp set_temp]. rewrite ED.
        destruct (decide (u = t)) as [->|]; [by rewrite !fupd_eq|by rewrite !fupd_ne].
      - done.
      - done. }
    split_and!; [split; [done| |]| |split].
    + apply ext_same. rewrite Et. by apply set_temp_same.
    + exists []. split; [rewrite app_nil_r; cbn; unfold leave_reg; by destruct (tval_type (temps st t))|].
      split; [constructor|]. intros F P s h _ _ HK HR. split; [|apply keeps_refl].
      eapply (rel_change C F P st _ s _ t); [|exact HR|].
      * intros u Hu. rewrite Et. by apply fupd_ne.
      * intros v Hp. by destruct (HK t Hp).
    + split; [|right; split; [cbn; by rewrite fupd_eq|by rewrite Et, fupd_eq]].
      intros u. cbn. rewrite fupd_eq. congruence.
    + intros r u Hne. cbn. rewrite fupd_ne by done. apply leave_reg_regs.
    + intros r u Hne Hut Hr. rewrite Et, (fupd_ne _ t) by done. split; [|done]. cbn. rewrite fupd_ne by done.
      by apply leave_reg_stay.
    + intros u. rewrite Et. destruct (decide (u = t)) as [->|]; [by rewrite fupd_eq|by rewrite fupd_ne].
Qed.

(** Code that only spills temporaries in registers outside [A]. *)
Definition spills A st st' : Prop :=
  exists c, code st' = code st ++ c /\ Forall (fun i => exists u r0 w r, test A r0 = false /\
    reg_to_temp st r0 = Some u /\ mem_allocated (temps st' u) = true /\
    i = Hst w r (mem_reg (temps st' u)) (mem_offset (temps st' u))) c.

Lemma spills_none A st st' : code st' = code st -> spills A st st'.
Proof. intros E. exists []. split; [by rewrite app_nil_r|constructor]. Qed.

Lemma spills_later A st1 st2 st3 : spills A st1 st2 -> ext st2 st3 -> code st3 = code st2 -> spills A st1 st3.
Proof.
  intros (c & Hc & HF) HE Ec. exists c. split; [by rewrite Ec|]. eapply Forall_impl; [exact HF|].
  intros i (u & r0 & w & r & H1 & H2 & H3 & ->). destruct (HE u H3) as [H4 H5]. injection H5 as E1 E2.
  exists u, r0, w, r. by rewrite E1, E2.
Qed.

Lemma tcg_reg_free_spills A reg st st' : test A reg = false -> tcg_reg_free C H reg st = Some st' -> spills A st st'.
Proof.
  intros HA E. unfold tcg_reg_free in E. destruct (reg_to_temp st reg) as [t|] eqn:Er.
  2: { injection E as <-. by apply spills_none. }
  destruct (negb _); [done|]. apply bind_Some in E as (st1 & E & [= <-]).
  destruct (mem_coherent (temps st t)); [injection E as <-; by apply spills_none|].
  apply bind_Some in E as (st2 & E & [= <-]).
  assert (mem_allocated (temps st2 t) = true /\ code st2 = code st) as [Hm Hc].
  { unfold need_frame in E. destruct (mem_allocated (temps st t)) eqn:Em; [injection E as <-; done|].
    unfold temp_allocate_frame in E. destruct (frame_end H <? _); [done|]. injection E as <-. cbn. by rewrite fupd_eq. }
  eexists. split; [cbn; by rewrite Hc|]. constructor; [|done]. exists t, reg, (temp_type C t), reg. cbn.
  by rewrite fupd_eq.
Qed.

Lemma tcg_reg_alloc_spills A ct reg st st' : tcg_reg_alloc C H ct A st = Some (reg, st') -> spills A st st'.
Proof.
  intros E. unfold tcg_reg_alloc in E. destruct (find _ _).
  - injection E as <- <-. by apply spills_none.
  - apply bind_Some in E as (r & Ef & E). apply bind_Some in E as (st1 & E & [= -> <-]).
    apply find_elem in Ef. rewrite test_andnot in Ef. apply andb_true_iff in Ef as [_ Ef%negb_true_iff].
    by eapply tcg_reg_free_spills.
Qed.

Lemma output_in_code t i reg m st : code (output_in t i reg m st) = code st.
Proof.
  unfold output_in. destruct (fixed_reg _); [done|]. destruct (IS_DEAD_ARG m i); cbn; unfold leave_reg;
    by destruct (tval_type (temps st t)).
Qed.

Lemma freed_moves t reg st st' : inv st -> freed reg st st' -> moves t reg st st'.
Proof.
  intros HI []. split.
  - intros r u Hne. by rewrite fr_regs.
  - intros r u Hne _ Hr. by rewrite fr_regs.
  - intros u. by destruct (fr_temps u) as (_ & _ & ?).
Qed.

Lemma moves_trans t reg st1 st2 st3 : moves t reg st1 st2 -> moves t reg st2 st3 -> moves t reg st1 st3.
Proof.
  intros [] []. split.
  - intros r u Hne Hr. auto.
  - intros r u Hne Hu Hr. destruct (mv_stay0 r u Hne Hu Hr) as [H1 <-]. by apply mv_stay1.
  - intros u. by rewrite mv_fixed1.
Qed.

Lemma place_output_ok A ct t i m na st reg A' st' : inv st -> (t < nb_temps)%nat ->
  fixed_reg (temps st t) = false -> above A ->
  (ct_alias ct = true -> forall r, na (alias_index ct) = Some (Reg r) -> reserved r = false /\ reg_to_temp st r = None) ->
  place_output C H t i ct na m A st = Some (reg, A', st') ->
  A' = tcg_regset_set_reg A reg /\ reserved reg = false /\
  (if ct_alias ct then na (alias_index ct) = Some (Reg reg) else test A reg = false) /\
  simk (-1) (eq t) st st' /\ output_at m i t reg st' /\ moves t reg st st' /\ spills A st st'.
Proof.
  intros HI Ht Hf HA Hal E. unfold place_output in E. rewrite Hf, andb_false_r in E. cbn [andb] in E.
  apply bind_Some in E as ([r st1] & E1 & [= <- <- <-]). destruct (ct_alias ct).
  - destruct (na (alias_index ct)) as [[r1|]|] eqn:Ea; try done. injection E1 as -> <-.
    destruct (Hal eq_refl r eq_refl) as [Hres Hfree].
    destruct (output_in_ok (-1) t i r m st HI Ht Hf Hfree Hres) as (S1 & O1 & M1). split_and!; try done.
    apply spills_none, output_in_code.
  - destruct (alloc_ok (-1) A _ st r st1 HI HA E1) as (S1 & F1 & _ & HAr & Hres).
    pose proof (s_inv _ _ _ _ _ _ S1) as HI1. destruct (fr_temps _ _ _ F1 t) as (_ & _ & Hf1).
    destruct (output_in_ok (-1) t i r m st1 HI1 Ht ltac:(congruence) ltac:(apply F1) Hres) as (S2 & O2 & M2).
    split_and!; try done.
    + eapply simk_trans; [apply sim_simk; exact S1|exact S2].
    + eapply moves_trans; [by eapply freed_moves|done].
    + eapply spills_later; [by eapply tcg_reg_alloc_spills|by eapply sk_ext|apply output_in_code].
Qed.

Record outs_done (o : TCGOp) (args : list nat) (m : Z) (l : list nat) A (na : nat -> option operand) st
    (na' : nat -> option operand) st' : Prop := {
  od_simk : simk (-1) (fun t => exists i, i ∈ l /\ args !! i = Some t) st st';
  od_reg i : i ∈ l -> exists t r, args !! i = Some t /\ na' i = Some (Reg r) /\ reserved r = false /\
    output_at m i t r st' /\
    (if ct_alias (args_ct H o i) then na (alias_index (args_ct H o i)) = Some (Reg r) else test A r = false);
  od_na i : (i ∉ l) -> na' i = na i;
  od_back r u : (forall i, i ∈ l -> na' i <> Some (Reg r)) -> reg_to_temp st' r = Some u -> reg_to_temp st r = Some u;
  od_stay r u : (forall i, i ∈ l -> na' i <> Some (Reg r)) -> (forall i, i ∈ l -> args !! i <> Some u) ->
    reg_to_temp st r = Some u ->
    reg_to_temp st' r = Some u /\ mem_coherent (temps st' u) = mem_coherent (temps st u);
  od_fixed u : fixed_reg (temps st' u) = fixed_reg (temps st u);
  od_spills : spills A st st' }.

(** What the loop over the outputs starts from. *)
Record outs_ready (o : TCGOp) (args : list nat) (l : list nat) (na : nat -> option operand) st : Prop := {
  or_temps i t : i ∈ l -> args !! i = Some t -> (t < nb_temps)%nat /\ fixed_reg (temps st t) = false;
  or_once i j t : i ∈ l -> j ∈ l -> args !! i = Some t -> args !! j = Some t -> i = j;
  or_index i : i ∈ l -> ct_alias (args_ct H o i) = true -> alias_index (args_ct H o i) ∉ l;
  or_free i r : i ∈ l -> ct_alias (args_ct H o i) = true -> na (alias_index (args_ct H o i)) = Some (Reg r) ->
    reserved r = false /\ reg_to_temp st r = None;
  or_inj i j r : i ∈ l -> j ∈ l -> ct_alias (args_ct H o i) = true -> ct_alias (args_ct H o j) = true ->
    na (alias_index (args_ct H o i)) = Some (Reg r) -> na (alias_index (args_ct H o j)) = Some (Reg r) -> i = j }.

(** Outputs that take over the register of an input come first. *)
Definition alias_first (o : TCGOp) (l : list nat) : Prop :=
  StronglySorted (fun i j => ct_alias (args_ct H o j) = true -> ct_alias (args_ct H o i) = true) l.

Lemma outs_ready_tail o args i l na st st1 t reg : outs_ready o args (i :: l) na st -> (i ∉ l) ->
  alias_first o (i :: l) -> moves t reg st st1 ->
  (if ct_alias (args_ct H o i) then na (alias_index (args_ct H o i)) = Some (Reg reg) else True) ->
  outs_ready o args l (fupd na i (Some (Reg reg))) st1.
Proof.
  intros [] Hni Hsort HM Hal. apply StronglySorted_inv in Hsort as [_ Hs]. rewrite Forall_forall in Hs.
  assert (forall j, j ∈ l -> ct_alias (args_ct H o j) = true ->
    fupd na i (Some (Reg reg)) (alias_index (args_ct H o j)) = na (alias_index (args_ct H o j))) as Hna.
  { intros j Hj Ha. apply fupd_ne. intros E. apply (or_index0 j ltac:(by right) Ha). rewrite E. left. }
  split.
  - intros j u Hj Hu. rewrite (mv_fixed _ _ _ _ HM). apply (or_temps0 j); [by right|done].
  - intros j k u Hj Hk. apply or_once0; by right.
  - intros j Hj Ha Hin. apply (or_index0 j ltac:(by right) Ha). by right.
  - intros j r Hj Ha. rewrite Hna by done. intros Hr. destruct (or_free0 j r ltac:(by right) Ha Hr) as [Hres Hn].
    split; [done|]. destruct (reg_to_temp st1 r) as [u|] eqn:Eu; [|done]. exfalso.
    pose proof (Hs j Hj Ha) as Hia. rewrite Hia in Hal. destruct (decide (r = reg)) as [->|Hne].
    + apply Hni. rewrite (or_inj0 i j reg); try done; [left|by right].
    + apply (mv_back _ _ _ _ HM) in Eu; [congruence|done].
  - intros j k r Hj Hk Ha Hb. rewrite !Hna by done. apply or_inj0; try done; by right.
Qed.

Lemma outs_cons o args m i l A na st t reg st1 na' st' : outs_ready o args (i :: l) na st -> (i ∉ l) ->
  alias_first o (i :: l) -> args !! i = Some t -> reserved reg = false ->
  (if ct_alias (args_ct H o i) then na (alias_index (args_ct H o i)) = Some (Reg reg) else test A reg = false) ->
  simk (-1) (eq t) st st1 -> output_at m i t reg st1 -> moves t reg st st1 -> spills A st st1 ->
  outs_done o args m l (tcg_regset_set_reg A reg) (fupd na i (Some (Reg reg))) st1 na' st' ->
  outs_done o args m (i :: l) A na st na' st'.
Proof.
  intros HR Hni Hsort Et Hres Hal S1 [O1 O2] HM HSp HD. pose proof HD as [].
  assert (na' i = Some (Reg reg)) as Ei by (rewrite od_na0 by done; apply fupd_eq).
  apply StronglySorted_inv in Hsort as [_ Hs]. rewrite Forall_forall in Hs.
  assert (forall j, j ∈ l -> ct_alias (args_ct H o j) = true ->
    fupd na i (Some (Reg reg)) (alias_index (args_ct H o j)) = na (alias_index (args_ct H o j))) as Hna.
  { intros j Hj Ha. apply fupd_ne. intros E. apply (or_index _ _ _ _ _ HR j ltac:(by right) Ha). rewrite E. left. }
  assert (forall j, j ∈ l -> na' j <> Some (Reg reg)) as Hdist.
  { intros j Hj Ej. destruct (od_reg0 j Hj) as (u & r & _ & Er & _ & _ & Hx). assert (r = reg) as -> by congruence.
    destruct (ct_alias (args_ct H o j)) eqn:Ea.
    - rewrite Hna in Hx by done. rewrite (Hs j Hj Ea) in Hal. apply Hni.
      rewrite (or_inj _ _ _ _ _ HR i j reg); try done; [left|by right|by apply (Hs j)].
    - by rewrite test_set_reg, Nat.eqb_refl, orb_true_r in Hx. }
  split.
  - eapply simk_trans; [|eapply simk_weaken; [exact od_simk0|]].
    + eapply simk_weaken; [exact S1|]. intros u <-. exists i. split; [left|done].
    + intros u (j & Hj & Hu). exists j. split; [by right|done].
  - intros j [->|Hj]%elem_of_cons.
    + exists t, reg. split_and!; try done. split.
      * intros u Hu. apply O1. by apply od_back0.
      * destruct O2 as [|[O2 O3]]; [by left|right]. destruct (od_stay0 reg t Hdist) as [H1 H2]; [|done|].
        -- intros j Hj Hjt. apply Hni. rewrite (or_once _ _ _ _ _ HR i j t); try done; [left|by right].
        -- split; [done|congruence].
    + destruct (od_reg0 j Hj) as (u & r & H1 & H2 & H3 & H4 & H5). exists u, r. split_and!; try done.
      destruct (ct_alias (args_ct H o j)) eqn:Ea; [by rewrite Hna in H5 by done|].
      rewrite test_set_reg in H5. by apply orb_false_iff in H5 as [? _].
  - intros j [Hne Hj]%not_elem_of_cons. rewrite od_na0 by done. by apply fupd_ne.
  - intros r u Hr Hu. assert (r <> reg) as Hne by (intros ->; apply (Hr i); [left|done]).
    apply (mv_back _ _ _ _ HM); [done|]. apply od_back0; [|done]. intros j Hj. apply Hr. by right.
  - intros r u Hr Hu Hx. assert (r <> reg) as Hne by (intros ->; apply (Hr i); [left|done]).
    assert (u <> t) as Hut by (intros ->; apply (Hu i); [left|done]).
    destruct (mv_stay _ _ _ _ HM r u Hne Hut Hx) as [H1 <-]. apply od_stay0; [| |done].
    + intros j Hj. apply Hr. by right.
    + intros j Hj. apply Hu. by right.
  - intros u. rewrite od_fixed0. apply HM.
  - destruct (spills_later A st st1 (mkAlloc (temps st') (reg_to_temp st') 0 (code st1)) HSp
      (sk_ext _ _ _ _ _ _ _ od_simk0) eq_refl) as (c1 & C1 & F1).
    destruct od_spills0 as (c2 & C2 & F2). cbn in C1, F1. exists (c1 ++ c2). split; [by rewrite C2, C1, app_assoc|].
    apply Forall_app. split; [done|]. eapply Forall_impl; [exact F2|].
    intros x (u & r0 & w & r & H1 & H2 & H3 & H4). rewrite test_set_reg in H1.
    apply orb_false_iff in H1 as [H1 Hne%Nat.eqb_neq]. exists u, r0, w, r. split_and!; try done.
    by apply (mv_back _ _ _ _ HM).
Qed.

Lemma place_outputs_ok o args m l : forall na A st na' st', inv st -> above A -> NoDup l -> alias_first o l ->
  outs_ready o args l na st -> place_outputs C H o args m l na A st = Some (na', st') ->
  outs_done o args m l A na st na' st'.
Proof.
  induction l as [|i l IH]; intros na A st na' st' HI HA Hnd Hsort HR E.
  { injection E as <- <-. split; try done; [by apply sim_simk, sim_refl| |by apply spills_none].
    intros i Hi. by apply not_elem_of_nil in Hi. }
  apply NoDup_cons in Hnd as [Hni Hnd]. cbn in E. apply bind_Some in E as (t & Et & E).
  apply bind_Some in E as ([[reg A1] st1] & E1 & E). pose proof HR as [].
  destruct (or_temps0 i t ltac:(left) Et) as [Ht Hf].
  destruct (place_output_ok A (args_ct H o i) t i m na st reg A1 st1 HI Ht Hf HA) as (-> & Hres & Hal & S1 & O1 & M1 & Sp1); [|exact E1|].
  { intros Ha r. apply or_free0; [left|done]. }
  assert (inv st1) as HI1 by (eapply sk_inv; exact S1).
  eapply (outs_cons o args m i l A na st t reg st1); try done.
  apply IH; try done.
  - intros r Hr. by rewrite test_set_reg, (HA r Hr).
  - by apply StronglySorted_inv in Hsort as [? _].
  - eapply outs_ready_tail; try done. by destruct (ct_alias _).
Qed.

End Ops.
