(* ===== verification/TcgRegInsn.v ===== *)
(** * The instruction of an operation

    What [tcg_reg_alloc_op] emits for an operation does what the operation does: the
    instruction finds the values of the inputs in its operands, so it computes the same
    results, jumps to the same label or leaves the block with the same code; afterwards the
    live temporaries are where the tables of the pass say, and at a jump or an exit the
    globals are in their slots. *)

From S2P Require Import Prelude TcgIr TcgOptimize TcgRing TcgFold TcgOptProofs TcgLive TcgLiveProofs.
From S2P Require Import TcgRegAlloc TcgRegProofs TcgRegOps.
Open Scope Z_scope.

Section Insn.
Context {World : Type} (C : TCGContext) (T : OpTable) (H : Target) (g : nat -> TCGTemp).
Context (call_sem : Z -> list Z -> list Z -> World -> option (effect World * list Z)).
Context (other_sem : nat -> list Z -> list Z -> World -> option (effect World)).
Context (HO : host_ok C H g).
Implicit Types (st : Alloc) (t r : nat) (h : Host World) (s : State World) (P K : nat -> Prop)
  (F : nat -> option (nat * Z)) (A : Z) (D : list bool).

#[local] Abbreviation nb_temps := (nb_temps C).
#[local] Abbreviation nb_globals := (nb_globals C).
#[local] Abbreviation test := tcg_regset_test_reg.
#[local] Abbreviation reserved := (tcg_regset_test_reg (reserved_regs H)).
#[local] Abbreviation ty := (typed C).
#[local] Abbreviation inv := (inv C H g).
#[local] Abbreviation rel := (rel C).
#[local] Abbreviation layout := (layout H).
#[local] Abbreviation sim := (sim (World:=World) C H g).
#[local] Abbreviation simk := (simk (World:=World) C H g).
#[local] Abbreviation bb_dead := (is_dead (tcg_la_bb_end C)).
#[local] Abbreviation exec := (exec_op C call_sem other_sem).
#[local] Abbreviation exec_insn := (exec_insn C T H g call_sem other_sem).

(** ** Operands *)

Lemma typed_places s h ins ps : Forall2 (fun t p => forall v, vals s !! t = Some v -> ty t (place_val H h p) = v) ins ps ->
  forall vs, rds s ins = Some vs -> typed_list C ins (place_val H h <$> ps) = vs.
Proof.
  intros HF. induction HF as [|t p ins ps Hp HF IH]; intros vs E; [by injection E as <-|].
  cbn in E. apply bind_Some in E as (v & Ev & E). apply bind_Some in E as (vs' & Evs & [= <-]).
  cbn. f_equal; [by apply Hp|by apply IH].
Qed.

(** ** What an instruction computes *)

(** The operations that go through [tcg_reg_alloc_op]. *)
Definition plain (o : TCGOp) : bool :=
  match o with
  | op_un _ _ _ _ | op_bin _ _ _ _ _ | op_jmp _ | op_br _ | op_brcond _ _ _ _ _ | op_other _ _ _ _ _ => true
  | _ => false
  end.

Lemma react_exec o s res : plain o = true -> exec o s = Some res -> exists vs (x : reaction World),
  rds s (iargs o) = Some vs /\ react other_sem o vs (world s) = Some x /\
  res = match x with
        | Results rs w => Next (wrs C (oargs o) rs (set_world w s))
        | Jumps l => Goto l s
        | Stops c w => Exit c (set_world w s)
        end.
Proof.
  intros Hp E. destruct o; try done; cbn [exec_op] in E.
  - apply bind_Some in E as (v & Hv & [= <-]). exists [v]. cbn. rewrite Hv. cbn. by eexists.
  - apply bind_Some in E as (vx & Hx & (vy & Hy & (v & Hv & [= <-])%bind_Some)%bind_Some). exists [vx; vy].
    cbn. rewrite Hx, Hy. cbn. rewrite Hv. cbn. by eexists.
  - apply bind_Some in E as (v & Hv & [= <-]). exists [v]. cbn. rewrite Hv. cbn. eexists. split_and!; try done.
    by destruct s.
  - injection E as <-. exists []. by eexists.
  - apply bind_Some in E as (vx & Hx & (vy & Hy & E)%bind_Some). exists [vx; vy].
    cbn. rewrite Hx, Hy. cbn. eexists. split_and!; try done. cbn.
    destruct (tci_compare _ _ _ _); injection E as <-; [done|]. by destruct s.
  - apply bind_Some in E as (vs & Hvs & (e & He & E)%bind_Some). exists vs. cbn. rewrite He. cbn.
    eexists. split_and!; try done. destruct e; by injection E as <-.
Qed.

Lemma react_results o (w0 : World) vs rs w prog : sem_ok T call_sem other_sem prog -> o ∈ prog -> plain o = true ->
  react other_sem o vs w0 = Some (Results rs w) -> length rs = length (oargs o).
Proof.
  intros HS Hin Hp E. destruct o; try done; cbn in E.
  - destruct vs as [|v [|]]; try done. by injection E as <- <-.
  - destruct vs as [|vx [|vy [|]]]; try done. by apply bind_Some in E as (v & Hv & [= <- <-]).
  - by destruct vs as [|v [|]].
  - by destruct vs.
  - destruct vs as [|vx [|vy [|]]]; try done. injection E as E. destruct (tci_compare _ _ _ _); [done|].
    by injection E as <- <-.
  - apply bind_Some in E as (e & He & E). destruct e; [|done]. injection E as <- <-.
    by apply (other_arity _ _ _ _ HS _ _ _ _ _ _ _ _ _ Hin He).
Qed.

(** ** Results *)

Lemma rel_world F P st s h w : rel F P st s h -> rel F P st (set_world w s) (set_hworld w h).
Proof. intros []. by split. Qed.

(** One result comes into its register. *)
Lemma set_out_rel F P st s h m i t reg v : inv st -> rel F P st s h -> (t < nb_temps)%nat -> reserved reg = false ->
  output_at m i t reg st ->
  rel F (fun u => (P u /\ u <> t) \/ (u = t /\ IS_DEAD_ARG m i = false)) st (wr C t v s) (set_hreg reg (ty t v) h).
Proof.
  intros HI HR Ht Hres [Hown Hat]. pose proof HR as []. split; cbn; [done|by rewrite length_insert|].
  intros u x Hu Hx. destruct Hu as [[Hp Hne]|[-> Hd]].
  - rewrite list_lookup_insert_ne in Hx by done. pose proof (rel_lt _ _ _ _ _ _ _ _ HR Hx) as Hlt.
    apply located_set_reg; [|by apply r_vals]. intros Hv <-. destruct (fixed_reg (temps st u)) eqn:Ef.
    + destruct (i_own _ _ _ _ HI u Ef) as (_ & E1 & E2 & _). congruence.
    + by apply Hne, Hown, (i_t2r _ _ _ _ HI).
  - destruct Hat as [|[Hr Hc]]; [congruence|]. destruct (i_r2t _ _ _ _ HI reg t Hr) as (_ & Hv & Hreg).
    rewrite list_lookup_insert_eq in Hx by lia. injection Hx as <-.
    unfold located. rewrite Hv, Hreg, Hc. split; [|done]. cbn. rewrite fupd_eq. apply ty_ty.
Qed.

Lemma set_hregs_rel F m st outs : inv st -> forall P k regs rs s h, rel F P st s h -> NoDup outs ->
  (length outs <= length regs)%nat -> length rs = length outs ->
  (forall j t r, outs !! j = Some t -> regs !! j = Some r ->
    (t < nb_temps)%nat /\ reserved r = false /\ output_at m (k + j) t r st) ->
  rel F (fun u => (P u /\ (u ∉ outs)) \/ exists j, outs !! j = Some u /\ IS_DEAD_ARG m (k + j) = false)
    st (wrs C outs rs s) (set_hregs C outs regs rs h).
Proof.
  intros HI. induction outs as [|t outs IH]; intros P k regs rs s h HR Hnd Hl1 Hl2 Hat.
  { eapply rel_weaken; [exact HR|]. intros u [[? _]|(j & Hj & _)]; [done|by rewrite lookup_nil in Hj]. }
  destruct regs as [|r regs]; [cbn in Hl1; lia|]. destruct rs as [|v rs]; [done|]. cbn [wrs set_hregs].
  apply NoDup_cons in Hnd as [Hnt Hnd]. cbn in Hl1. apply le_S_n in Hl1. injection Hl2 as Hl2.
  destruct (Hat 0%nat t r eq_refl eq_refl) as (Ht & Hres & H0).
  pose proof (set_out_rel F P st s h m _ t r v HI HR Ht Hres H0) as HR1.
  eapply rel_weaken; [apply (IH _ (S k) regs rs _ _ HR1 Hnd Hl1 Hl2)|].
  - intros j u x Hu Hx. rewrite Nat.add_succ_comm. by apply (Hat (S j)).
  - intros u [[Hp [Hne Hu]%not_elem_of_cons]|(j & Hj & Hd)]; [left; split; [by left|done]|].
    destruct j as [|j]; [|right; exists j; by rewrite Nat.add_succ_comm].
    injection Hj as ->. left. split; [right; split; [done|]|done]. done.
Qed.

(** ** Registers that a call changes *)

Lemma clobber_rel F P st s h junk : inv st -> rel F P st s h ->
  (forall t, P t -> (t < nb_temps)%nat -> tval_type (temps st t) = TEMP_VAL_REG -> fixed_reg (temps st t) = false ->
    clobbered H (treg (temps st t)) = false) ->
  rel F P st s (clobber_regs H junk h).
Proof.
  intros HI HR Hc. pose proof HR as []. split; [done|done|]. intros t v Hp Hv.
  pose proof (rel_lt _ _ _ _ _ _ _ _ HR Hv) as Hlt. specialize (r_vals t v Hp Hv).
  unfold located in *. destruct (tval_type (temps st t)) eqn:Ev; try done. cbn.
  assert (clobbered H (treg (temps st t)) = false) as ->; [|done].
  destruct (fixed_reg (temps st t)) eqn:Ef; [|by apply Hc].
  destruct (i_own _ _ _ _ HI t Ef) as (_ & -> & E2 & _). unfold clobbered.
  by rewrite (ho_clobber _ _ _ HO _ E2), andb_false_r.
Qed.

(** ** Globals *)

Definition globals_right s h : Prop :=
  hworld h = world s /\
  forall t v, (t < nb_globals)%nat -> vals s !! t = Some v -> host_global C g h t = v.

(** All globals are in their slots or in the register of their own. *)
Definition globals_home st : Prop :=
  forall t, (t < nb_globals)%nat -> fixed_reg (temps st t) = false -> tval_type (temps st t) = TEMP_VAL_MEM.

Lemma global_slot F st t : inv st -> slots F st -> (t < nb_globals)%nat -> fixed_reg (temps st t) = false ->
  fixed_reg (g t) = false /\ F t = Some (slot (g t)).
Proof.
  intros HI HF Ht Hf. pose proof (i_fixed _ _ _ _ HI t) as E. rewrite Hf, (proj2 (Nat.ltb_lt _ _) Ht) in E. cbn in E.
  split; [done|]. destruct (i_global _ _ _ _ HI t Ht) as [E1 E2]. rewrite <- E2. apply HF.
  rewrite E1. by apply (ho_mem _ _ _ HO).
Qed.

Lemma globals_home_right F P st s h : inv st -> slots F st -> globals_home st -> rel F P st s h ->
  (forall t, (t < nb_globals)%nat -> P t) -> globals_right s h.
Proof.
  intros HI HF HG HR HP. split; [apply HR|]. intros t v Ht Hv.
  pose proof (r_vals _ _ _ _ _ _ HR t v (HP t Ht) Hv) as Hloc. unfold located in Hloc. unfold host_global.
  destruct (fixed_reg (temps st t)) eqn:Ef.
  - destruct (i_own _ _ _ _ HI t Ef) as (Ev & Er & _). rewrite Ev, Er in Hloc.
    pose proof (i_fixed _ _ _ _ HI t) as E. rewrite Ef in E. symmetry in E. apply andb_true_iff in E as [_ ->].
    apply Hloc.
  - destruct (global_slot F st t HI HF Ht Ef) as [-> Hk]. rewrite (HG t Ht Ef) in Hloc. by apply Hloc.
Qed.

Lemma globals_right_clobber s h junk : globals_right s h -> globals_right s (clobber_regs H junk h).
Proof.
  intros [Hw Hg]. split; [done|]. intros t v Ht Hv. rewrite <- (Hg t v Ht Hv). unfold host_global.
  destruct (fixed_reg (g t)) eqn:Ef; [|done]. cbn. unfold clobbered.
  by rewrite (ho_clobber _ _ _ HO _ (ho_fixed _ _ _ HO t Ht Ef)), andb_false_r.
Qed.

(** ** The constraints of an operation

    What [tcg_add_target_add_op_defs] and [sort_constraints] make of the table of the back
    end: the arguments are sorted among the outputs and among the inputs, an output and the
    input whose register it takes over refer to each other. *)
Record constraints_ok (o : TCGOp) : Prop := {
  co_ins : drop (length (oargs o)) (sorted_args H o) ≡ₚ seq (length (oargs o)) (length (iargs o));
  co_outs : take (length (oargs o)) (sorted_args H o) ≡ₚ seq 0 (length (oargs o));
  co_first : alias_first H o (take (length (oargs o)) (sorted_args H o));
  co_alias i : (i < length (oargs o))%nat -> ct_alias (args_ct H o i) = true ->
    (length (oargs o) <= alias_index (args_ct H o i) < length (oargs o) + length (iargs o))%nat /\
    ct_ialias (args_ct H o (alias_index (args_ct H o i))) = true /\
    alias_index (args_ct H o (alias_index (args_ct H o i))) = i;
  co_ialias i : (length (oargs o) <= i < length (oargs o) + length (iargs o))%nat ->
    ct_ialias (args_ct H o i) = true -> (alias_index (args_ct H o i) < length (oargs o))%nat }.

#[local] Abbreviation args_of o := (oargs o ++ iargs o).

Lemma lookup_out o i : (i < length (oargs o))%nat -> args_of o !! i = oargs o !! i.
Proof. intros Hi. by apply lookup_app_l. Qed.

Lemma lookup_in o i : (length (oargs o) <= i)%nat -> args_of o !! i = iargs o !! (i - length (oargs o))%nat.
Proof. intros Hi. by apply lookup_app_r. Qed.

(** The outputs can be placed once the dead inputs are gone. *)
Lemma op_outs_ready o m st1 st2 na A' L : constraints_ok o -> inv st1 -> NoDup (oargs o) ->
  Forall (fun t => t < nb_temps)%nat (oargs o) ->
  (forall t, t ∈ oargs o -> fixed_reg (temps st1 t) = false) ->
  (forall t, fixed_reg (temps st2 t) = fixed_reg (temps st1 t)) ->
  (forall i, i ∈ seq (length (oargs o)) (length (iargs o)) ->
    input_in H o (args_of o) m (reserved_regs H) A' st1 na L i) ->
  (forall i j r, i ∈ seq (length (oargs o)) (length (iargs o)) -> j ∈ seq (length (oargs o)) (length (iargs o)) ->
    ct_ialias (args_ct H o i) = true -> ct_ialias (args_ct H o j) = true ->
    na i = Some (Reg r) -> na j = Some (Reg r) -> i = j) ->
  (forall r u, reg_to_temp st2 r = Some u -> reg_to_temp st1 r = Some u /\
    (u ∈ marked (length (oargs o)) (iargs o) m -> fixed_reg (temps st1 u) = true)) ->
  outs_ready C H o (args_of o) (take (length (oargs o)) (sorted_args H o)) na st2.
Proof.
  intros [] HI1 Hnd Hlt Hnf Hfix Hin Hinj Hsh. set (l := take _ _) in *.
  assert (forall i, i ∈ l -> (i < length (oargs o))%nat) as Hl.
  { intros i. rewrite co_outs0, elem_of_seq. lia. }
  assert (forall i, i ∈ l -> ct_alias (args_ct H o i) = true ->
    alias_index (args_ct H o i) ∈ seq (length (oargs o)) (length (iargs o))) as Hai.
  { intros i Hi Ha. destruct (co_alias0 i (Hl i Hi) Ha) as (? & _). apply elem_of_seq. lia. }
  split.
  - intros i t Hi. rewrite lookup_out by auto. intros Ht%list_elem_of_lookup_2.
    rewrite Forall_forall in Hlt. rewrite Hfix. auto.
  - intros i j t Hi Hj. rewrite !lookup_out by auto. by apply NoDup_lookup.
  - intros i Hi Ha Hx. destruct (co_alias0 i (Hl i Hi) Ha) as (? & _). apply Hl in Hx. lia.
  - intros i r Hi Ha Hr. destruct (co_alias0 i (Hl i Hi) Ha) as (Hrg & Hia & Hback).
    destruct (Hin _ (Hai i Hi Ha)) as (t & x & Ht & Hx & _ & _ & Hal). rewrite Hr in Hx. injection Hx as <-.
    destruct (Hal Hia) with (r := r) as [Hres Hown]; [|done|].
    { intros u. rewrite Hback, lookup_out by auto. intros Hu%list_elem_of_lookup_2. by apply Hnf. }
    split; [done|]. destruct (reg_to_temp st2 r) as [u|] eqn:Eu; [|done]. exfalso.
    destruct (Hsh r u Eu) as [Eu1 Hf]. destruct Hown as [[_ ?]|[Et Hd]]; [congruence|].
    assert (u = t) as -> by congruence. rewrite lookup_in in Ht by lia.
    assert (fixed_reg (temps st1 t) = true) as Hft.
    { apply Hf. eapply marked_lookup; [exact Ht|]. by rewrite Nat.add_comm, Nat.sub_add by lia. }
    destruct (i_r2t _ _ _ _ HI1 r t Et) as (_ & _ & E2). destruct (i_own _ _ _ _ HI1 t Hft) as (_ & E1 & E3 & _).
    congruence.
  - intros i j r Hi Hj Ha Hb Ri Rj. destruct (co_alias0 i (Hl i Hi) Ha) as (_ & Hia & <-).
    destruct (co_alias0 j (Hl j Hj) Hb) as (_ & Hjb & <-). f_equal. f_equal. by eapply Hinj; eauto.
Qed.

(** The operands of the instruction hold the inputs. *)
Lemma op_operands s h ins na xs k P L : mapM na (seq k (length ins)) = Some xs ->
  (forall i, i ∈ seq k (length ins) -> exists t x, ins !! (i - k)%nat = Some t /\ na i = Some x /\ (t, In x) ∈ L) ->
  Forall (holds C H P s h) L -> (forall t, t ∈ ins -> P t) ->
  Forall2 (fun t p => forall v, vals s !! t = Some v -> ty t (place_val H h p) = v) ins (In <$> xs).
Proof.
  intros Hm Hin HL HP. apply mapM_Some in Hm. rewrite Forall2_fmap_r.
  pose proof (Forall2_length _ _ _ Hm) as Hl. rewrite length_seq in Hl.
  apply Forall2_same_length_lookup. split; [done|]. intros i t x Ht Hx v Hv.
  pose proof (lookup_lt_Some _ _ _ Ht) as Hi.
  destruct (Hin (k + i)%nat ltac:(apply elem_of_seq; lia)) as (t' & x' & Et & Ex & HLx).
  replace (k + i - k)%nat with i in Et by lia. assert (t' = t) as -> by congruence.
  rewrite Forall2_lookup in Hm. specialize (Hm i). rewrite lookup_seq_lt in Hm by done. rewrite Hx in Hm.
  inversion Hm as [a b Hab|]; subst. assert (x' = x) as -> by congruence.
  rewrite Forall_forall in HL. apply (HL _ HLx v); [|done]. by apply HP, (list_elem_of_lookup_2 _ i).
Qed.

(** ** One operation *)

Definition insn_sim F P' st' (res : step World) (x : option (hstep World)) : Prop :=
  match res with
  | Next a => exists h', x = Some (HNext h') /\ rel F P' st' a h'
  | Goto l a => exists h', x = Some (HGoto l h') /\ rel F (fun u => bb_dead u = false) st' a h' /\ canonical C st'
  | Exit c a => exists h', x = Some (HExit c h') /\ globals_right a h'
  end.

(** The code of an operation: spills and loads, then the instruction, if there is one. *)
Definition tail_ok (o : TCGOp) (tl : list HInsn) : Prop :=
  match o with
  | op_set_label l => tl = [Hlabel l]
  | _ => tl = [] \/ exists i, tl = [i] /\
      match i with Hop _ _ _ | Hcall _ _ _ _ _ _ => True | _ => False end
  end.

Definition tail_sim F P' st' junk (res : step World) (tl : list HInsn) h : Prop :=
  match tl with
  | [] => exists a, res = Next a /\ rel F P' st' a h
  | i :: _ => insn_sim F P' st' res (exec_insn junk i h)
  end.

Record opstep (o : TCGOp) P P' st st' : Prop := {
  ops_inv : inv st';
  ops_ext : ext st st';
  ops_code : exists c tl, code st' = code st ++ c ++ tl /\ Forall simple c /\ tail_ok o tl /\
    forall F s h junk res, layout F -> slots F st' -> rel F P st s h -> exec o s = Some res ->
      tail_sim F P' st' junk res tl (run_simple c h) }.

Definition hop_result (o : TCGOp) (outs : list nat) (x : reaction World) h : hstep World :=
  match x with
  | Results rs w => HNext (set_hregs C (oargs o) outs rs (set_hworld w h))
  | Jumps l => HGoto l h
  | Stops c w => HExit c (set_hworld w h)
  end.

Lemma hop_exec o outs xs s h res junk : plain o = true -> exec o s = Some res -> hworld h = world s ->
  Forall2 (fun t p => forall v, vals s !! t = Some v -> ty t (place_val H h p) = v) (iargs o) (In <$> xs) ->
  exists x vs, react other_sem o vs (world s) = Some x /\
    res = match x with
          | Results rs w => Next (wrs C (oargs o) rs (set_world w s))
          | Jumps l => Goto l s
          | Stops c w => Exit c (set_world w s)
          end /\
    exec_insn junk (Hop o outs xs) h = Some (hop_result o outs x
      (if has_flag (flags_of T o) TCG_OPF_CALL_CLOBBER then clobber_regs H junk h else h)).
Proof.
  intros Hp Ex Hw HF. destruct (react_exec o s res Hp Ex) as (vs & x & Evs & Er & ->). exists x, vs.
  split_and!; [done|done|]. cbn. pose proof (typed_places s h _ _ HF vs Evs) as Et.
  rewrite <- list_fmap_compose in Et. rewrite Hw.
  assert (typed_list C (iargs o) (opval h <$> xs) = vs) as -> by exact Et. rewrite Er. cbn. by destruct x.
Qed.

Lemma jumps_bb_end o : jumps o = true -> has_flag (flags_of T o) TCG_OPF_BB_END = true.
Proof. by destruct o. Qed.

Lemma reg_operands_none na outs : forall k n, (forall i, (k <= i < k + n)%nat -> na i = None) ->
  mapM (fun i => reg_operand (na i)) (seq k n) = Some outs -> n = 0%nat.
Proof.
  intros k [|n] Hn E; [done|]. cbn in E. rewrite (Hn k) in E by lia. done.
Qed.

Lemma op_ok_iargs o : op_ok C o = true -> Forall (fun t => t < nb_temps)%nat (iargs o).
Proof.
  destruct o; cbn; rewrite ?andb_true_iff, ?has_type_iff; intros; destruct_and?; try done;
    repeat (apply Forall_cons; split); try done; by (apply temps_in || apply Nat.ltb_lt).
Qed.

(** What the first loop leaves. *)
Lemma op_inputs_ok o m D D' st st1 na A1 : constraints_ok o -> inv st -> op_ok C o = true -> kept C T o m D D' ->
  (forall t, t ∈ oargs o -> fixed_reg (temps st t) = false) ->
  place_inputs C H o (args_of o) m (drop (length (oargs o)) (sorted_args H o)) (fun _ => None) (reserved_regs H) st
    = Some (na, A1, st1) ->
  frame (reserved_regs H) st st1 /\ (forall r, reserved r = true -> test A1 r = true) /\
  (forall i, (i < length (oargs o))%nat -> na i = None) /\
  (forall i j r, i ∈ seq (length (oargs o)) (length (iargs o)) -> j ∈ seq (length (oargs o)) (length (iargs o)) ->
    ct_ialias (args_ct H o i) = true -> ct_ialias (args_ct H o j) = true ->
    na i = Some (Reg r) -> na j = Some (Reg r) -> i = j) /\
  exists L, simq (World:=World) C H g (reserved_regs H) L st st1 /\ Forall (fun q => within H A1 (snd q)) L /\
    forall i, i ∈ seq (length (oargs o)) (length (iargs o)) ->
      input_in H o (args_of o) m (reserved_regs H) A1 st1 na L i.
Proof.
  intros HC HI Hok HK Hnf E. pose proof (co_ins _ HC) as Hperm.
  assert (NoDup (drop (length (oargs o)) (sorted_args H o))) as Hnd by (rewrite Hperm; apply NoDup_seq).
  assert (Forall (fun t => t < nb_temps)%nat (args_of o)) as Hargs.
  { apply Forall_app. split; [by apply op_ok_oargs|by apply op_ok_iargs]. }
  destruct (place_inputs_ok (World:=World) C H g HO o (args_of o) m _ _ _ st na A1 st1 HI ltac:(done) Hnd Hargs E) as (F1 & Sub & N & L & Q & W & HIn).
  split_and!; [done|done| | |exists L; split_and!; [done|done|]].
  - intros i Hi. rewrite N; [done|]. rewrite Hperm, elem_of_seq. lia.
  - intros i j r Hi Hj. rewrite <- Hperm in Hi, Hj.
    eapply (place_inputs_distinct (World:=World) C H g HO o (args_of o) m _ (fun _ => None) (reserved_regs H) st na A1 st1); try done.
    + intros a u Ha Hia Hu. rewrite Hperm in Ha. apply elem_of_seq in Ha.
      rewrite lookup_out in Hu by (apply (co_ialias _ HC); [lia|done]). by eapply Hnf, list_elem_of_lookup_2.
    + intros a b t Ha Hb. rewrite Hperm in Ha, Hb. apply elem_of_seq in Ha, Hb.
      rewrite !lookup_in by lia. intros Ta Tb Da Db.
      assert (a - length (oargs o) = b - length (oargs o))%nat; [|lia].
      eapply marked_once; [exact (kp_once _ _ _ _ _ _ HK)|exact Ta|exact Tb| |].
      * by rewrite Nat.add_comm, Nat.sub_add by lia.
      * by rewrite Nat.add_comm, Nat.sub_add by lia.
  - intros i Hi. apply HIn. by rewrite Hperm.
Qed.

Lemma run_simple_app c1 c2 h : run_simple (c1 ++ c2) h = run_simple c2 (run_simple c1 h).
Proof. apply fold_left_app. Qed.

Lemma input_operand o m A A' st na L i : input_in H o (args_of o) m A A' st na L i -> (length (oargs o) <= i)%nat ->
  exists t x, iargs o !! (i - length (oargs o))%nat = Some t /\ na i = Some x /\ (t, In x) ∈ L.
Proof. intros (t & x & Ht & Hx & HL & _) Hi. rewrite lookup_in in Ht by done. by exists t, x. Qed.

(** Operations at the end of a basic block. *)
Lemma op_bb_end_ok o m D D' st st' prog : sem_ok T call_sem other_sem prog -> o ∈ prog ->
  constraints_ok o -> inv st -> op_ok C o = true -> plain o = true -> kept C T o m D D' -> covers C T o D ->
  (forall t, t ∈ oargs o -> fixed_reg (temps st t) = false) -> has_flag (flags_of T o) TCG_OPF_BB_END = true ->
  tcg_reg_alloc_op C T H o m st = Some st' -> opstep o (live D') (live D) st st'.
Proof.
  intros HS Hin HC HI Hok Hp HK Hcov Hnf Hbb E. unfold tcg_reg_alloc_op in E.
  apply bind_Some in E as ([[na A1] st1] & E1 & E). rewrite Hbb in E.
  apply bind_Some in E as ([na2 st2] & E2 & E). apply bind_Some in E2 as (st3 & E2 & [= <- <-]).
  apply bind_Some in E as (xs & Exs & E). apply bind_Some in E as (outs & Eouts & [= <-]).
  destruct (op_inputs_ok o m D D' st st1 na A1 HC HI Hok HK Hnf E1) as (F1 & Sub & N1 & _ & L & [HI1 HE1 HQ] & W & HIn).
  destruct (bb_end_ok (World:=World) C H g HO A1 st1 st3 HI1 Sub E2) as ([HI3 HE3 Hk] & Hcan & _).
  assert (length (oargs o) = 0%nat) as Ho0 by (eapply reg_operands_none; [|exact Eouts]; intros i Hi; apply N1; lia).
  assert (forall i, i ∈ seq (length (oargs o)) (length (iargs o)) ->
    exists t x, iargs o !! (i - length (oargs o))%nat = Some t /\ na i = Some x /\ (t, In x) ∈ L) as Hops.
  { intros i Hi. eapply input_operand; [by apply HIn|]. apply elem_of_seq in Hi. lia. }
  clear HIn. rewrite Ho0 in *. apply nil_length_inv in Ho0. injection Eouts as <-. rewrite Ho0. cbn [move_outputs].
  destruct HQ as (c1 & C1 & S1 & R1). destruct Hk as (c2 & C2 & S2 & R2).
  split; [by apply inv_emit|by eapply ext_trans|]. exists (c1 ++ c2), [Hop o [] xs].
  split; [cbn; by rewrite C2, C1, !app_assoc|]. split; [by apply Forall_app|].
  split; [unfold tail_ok; destruct o; try done; right; by eexists|].
  intros F s h junk res HL HF HR Ex. assert (slots F st3) as HF3 by exact HF.
  destruct (R1 F _ s h HL (slots_ext _ _ _ HE3 HF3) HR) as (HR1 & _ & HH1).
  set (P2 := fun u => live D' u /\ bb_dead u = false).
  destruct (R2 F P2 s (run_simple c1 h) HL HF3) as [HR2 HK2]; [intros t [_ Ht] Ht'; congruence|by eapply rel_weaken; [exact HR1|intros t [? _]]|].
  rewrite <- run_simple_app in HR2, HK2.
  set (h2 := run_simple (c1 ++ c2) h) in *.
  assert (Forall (holds C H (live D') s h2) L) as HH2 by (by eapply keeps_holds).
  destruct (hop_exec o [] xs s h2 res junk Hp Ex ltac:(apply HR2)) as (x & vs & Ex' & -> & Einsn).
  { eapply op_operands; [exact Exs| |exact HH2|apply (kp_ins _ _ _ _ _ _ HK)].
    exact Hops. }
  unfold tail_sim. rewrite Einsn. set (h3 := if has_flag _ _ then _ else _).
  assert (rel F P2 st3 s h3) as HR3.
  { unfold h3. destruct (has_flag (flags_of T o) TCG_OPF_CALL_CLOBBER); [|done]. apply clobber_rel; try done.
    intros t _ Ht Hv Hf. rewrite (Hcan t Ht Hf) in Hv. by destruct (_ || _). }
  assert (hop_result o [] x h3 = match x with
    | Results rs w => HNext (set_hworld w h3) | Jumps l => HGoto l h3 | Stops c w => HExit c (set_hworld w h3) end) as ->.
  { unfold hop_result. rewrite Ho0. by destruct x as [[] ?| |]. }
  rewrite Ho0. destruct x as [rs w|l|c w]; cbn.
  - eexists. split; [done|]. apply rel_emit. eapply rel_weaken; [by apply rel_world|].
    intros u Hu. split; [|apply Hcov; [by destruct o|done]].
    destruct (kp_live _ _ _ _ _ _ HK u Hu) as [Hx|]; [|done]. rewrite Ho0 in Hx. by apply not_elem_of_nil in Hx.
  - eexists. split; [done|]. split; [|exact Hcan]. apply rel_emit. eapply rel_weaken; [exact HR3|].
    pose proof (exec_kind C T call_sem other_sem s o _ prog HS Ex) as Hj. cbn in Hj.
    intros u Hu. split; [|done]. by apply (kp_bb _ _ _ _ _ _ HK).
  - eexists. split; [done|]. pose proof (exec_kind C T call_sem other_sem s o _ prog HS Ex) as Hj. cbn in Hj.
    apply (globals_home_right F P2 st3); try done.
    + intros t Ht Hf. pose proof (ho_context _ _ _ HO). rewrite (Hcan t ltac:(lia) Hf).
      by rewrite (proj2 (Nat.ltb_lt _ _) Ht).
    + by apply rel_world.
    + intros t Ht. split; [by apply (kp_globals _ _ _ _ _ _ HK); [right|]|by apply bb_live_global].
Qed.

(** Where a temporary that is live after the operation has its value from. *)
Lemma kept_after o m D D' u : kept C T o m D D' -> live D u ->
  (exists j, oargs o !! j = Some u /\ IS_DEAD_ARG m (0 + j) = false) \/
  ((u ∉ oargs o) /\ live D' u /\ (u ∉ marked (length (oargs o)) (iargs o) m)).
Proof.
  intros HK Hu. pose proof (kp_lost _ _ _ _ _ _ HK u Hu) as Hl. unfold lost in Hl.
  rewrite !orb_false_iff, andb_false_iff, negb_false_iff in Hl. destruct Hl as [[Hm Hi] _].
  destruct (decide (u ∈ oargs o)) as [Ho|Ho].
  - left. apply list_elem_of_lookup in Ho as [j Hj]. exists j. split; [done|].
    destruct (IS_DEAD_ARG m (0 + j)) eqn:Ed; [|done]. apply mem_false in Hm. exfalso. by eapply Hm, marked_lookup.
  - right. split_and!; [done| |].
    + by destruct (kp_live _ _ _ _ _ _ HK u Hu).
    + destruct Hi as [Hi|Hi]; [by apply mem_false|]. by apply mem_true in Hi.
Qed.

Lemma move_outputs_none outs : forall regs st, (forall t, t ∈ outs -> fixed_reg (temps st t) = false) ->
  move_outputs C outs regs st = st.
Proof.
  induction outs as [|t outs IH]; intros [|r regs] st Hf; try done. cbn. rewrite (Hf t) by left. cbn.
  apply IH. intros u Hu. apply Hf. by right.
Qed.

(** The operation may call a helper: nothing is left in the registers it changes, and the
    globals go home. *)
Lemma call_clobber_ok (b : bool) A st st' : inv st -> (forall r, reserved r = true -> test A r = true) ->
  (if b then st ← free_regs C H (seq 0 (TCG_TARGET_NB_REGS H)) st; save_globals C H A st else Some st) = Some st' ->
  sim A st st' /\ shrinks st st' /\
  (b = true -> (forall r, clobbered H r = true -> reg_to_temp st' r = None) /\ globals_home st').
Proof.
  intros HI HA E. destruct b.
  2: { injection E as <-. split_and!; [by apply sim_refl|apply shrinks_refl|done]. }
  apply bind_Some in E as (st1 & E1 & E2).
  destruct (free_regs_ok (World:=World) C H g HO A _ st st1 HI E1) as (S1 & W1 & N1).
  assert (inv st1) as HI1 by (eapply s_inv; exact S1).
  destruct (save_globals_ok (World:=World) C H g HO A st1 st' HI1 HA E2) as (S2 & W2 & M2 & _). split_and!.
  - by eapply sim_trans.
  - by eapply shrinks_trans.
  - intros _. split.
    + intros r Hr. unfold clobbered in Hr. apply andb_true_iff in Hr as [Hlt%Nat.ltb_lt Hr].
      destruct (reg_to_temp st' r) as [t|] eqn:Et; [|done]. apply (sh_regs _ _ W2) in Et.
      rewrite N1 in Et; [done| |done]. apply elem_of_seq. lia.
    + intros t Ht Hf. apply M2; [done|]. by rewrite <- (sh_fixed _ _ W2).
Qed.

(** Spills leave the slots of the temporaries that are in memory. *)
Lemma spills_slot F A st st' c h t k : inv st -> layout F -> slots F st' -> F t = Some k ->
  tval_type (temps st t) = TEMP_VAL_MEM -> spills A st st' -> code st' = code st ++ c ->
  hmem (run_simple (World:=World) c h) k = hmem h k.
Proof.
  intros HI HL HF Hk Hv (c' & Hc' & HS) Hc. assert (c = c') as -> by (rewrite Hc in Hc'; by apply app_inv_head in Hc').
  clear Hc Hc'. revert h. induction HS as [|i c (u & r0 & w & r & _ & Hu & Hm & ->) HS IH]; intros h; [done|].
  cbn. change (hmem (run_simple c (exec_simple (Hst w r (mem_reg (temps st' u)) (mem_offset (temps st' u))) h)) k = hmem h k).
  rewrite IH. cbn. apply mupd_ne. intros ->. pose proof (l_inj _ _ HL t u _ Hk (HF u Hm)) as ->.
  destruct (i_r2t _ _ _ _ HI r0 u Hu) as (_ & Hx & _). congruence.
Qed.

Lemma globals_right_world s h w : globals_right s h -> globals_right (set_world w s) (set_hworld w h).
Proof. intros [_ Hg]. by split. Qed.

Lemma globals_right_spills F A st st' c s h : inv st -> layout F -> slots F st' -> ext st st' -> globals_home st ->
  spills A st st' -> code st' = code st ++ c -> keeps (-1) F h (run_simple c h) ->
  hworld (run_simple c h) = hworld h -> globals_right s h -> globals_right s (run_simple c h).
Proof.
  intros HI HL HF HE HG HS Hc [HK _] Hw [Hw' Hg]. split; [congruence|]. intros t v Ht Hv.
  rewrite <- (Hg t v Ht Hv). unfold host_global. destruct (fixed_reg (g t)) eqn:Ef.
  - by rewrite HK by apply test_all.
  - assert (fixed_reg (temps st t) = false) as Hf by (by rewrite (i_fixed _ _ _ _ HI), Ef, andb_false_r).
    destruct (global_slot F st t HI (slots_ext _ _ _ HE HF) Ht Hf) as [_ Hk].
    by rewrite (spills_slot F A st st' c h t) by auto.
Qed.

Lemma leaves_clobbers o : plain o = true -> leaves T o = true -> has_flag (flags_of T o) TCG_OPF_BB_END = false ->
  has_flag (flags_of T o) TCG_OPF_CALL_CLOBBER = true.
Proof. intros Hp Hl Hb. destruct o; try done. cbn in *. by rewrite Hb in Hl. Qed.

(** The states around the operation itself: [st1] with the inputs in place, [st2] without
    what dies or is clobbered, [st3] with the outputs placed. *)
Record op_stages (o : TCGOp) (m : Z) A st1 st2 st3 (na na' : nat -> option operand) : Prop := {
  og_kill : simk A (fun t => t ∈ marked (length (oargs o)) (iargs o) m) st1 st2;
  og_clobber : has_flag (flags_of T o) TCG_OPF_CALL_CLOBBER = true ->
    (forall r, clobbered H r = true -> reg_to_temp st2 r = None) /\ globals_home st2;
  og_outs : outs_done (World:=World) C H g o (args_of o) m (take (length (oargs o)) (sorted_args H o))
    (reserved_regs H) na st2 na' st3 }.

Lemma op_stages_ok o m D D' st st1 na A1 na' st3 : constraints_ok o -> inv st -> op_ok C o = true ->
  NoDup (oargs o) -> kept C T o m D D' -> (forall t, t ∈ oargs o -> fixed_reg (temps st t) = false) ->
  place_inputs C H o (args_of o) m (drop (length (oargs o)) (sorted_args H o)) (fun _ => None) (reserved_regs H) st
    = Some (na, A1, st1) ->
  (let st := kill_inputs (length (oargs o)) (iargs o) m st1 in
   st ← (if has_flag (flags_of T o) TCG_OPF_CALL_CLOBBER then
           st ← free_regs C H (seq 0 (TCG_TARGET_NB_REGS H)) st; save_globals C H A1 st
         else Some st);
   place_outputs C H o (args_of o) m (take (length (oargs o)) (sorted_args H o)) na (reserved_regs H) st) =
    Some (na', st3) ->
  exists st2, op_stages o m A1 st1 st2 st3 na na'.
Proof.
  intros HC HI Hok Hnd HK Hnf E1 E. cbn zeta in E. apply bind_Some in E as (st2 & E2 & E3). exists st2.
  destruct (op_inputs_ok o m D D' st st1 na A1 HC HI Hok HK Hnf E1) as (F1 & Sub & N1 & Hinj & L & [HI1 _ _] & W & HIn).
  rewrite kill_inputs_marked in E2.
  assert (Forall (fun t => t < nb_temps)%nat (marked (length (oargs o)) (iargs o) m)) as Hml.
  { pose proof (op_ok_iargs o Hok) as Hi. rewrite Forall_forall in Hi |- *. intros t Ht%marked_in. by apply Hi. }
  destruct (kill_temps_ok (World:=World) C H g A1 _ st1 HI1 Hml) as (Sk & Rk & Fk).
  set (stk := fold_left _ _ st1) in *. assert (inv stk) as HIk by (eapply sk_inv; exact Sk).
  destruct (call_clobber_ok _ A1 stk st2 HIk Sub E2) as (S2 & W2 & G2).
  assert (forall t, fixed_reg (temps st2 t) = fixed_reg (temps st1 t)) as Hfix.
  { intros t. by rewrite (sh_fixed _ _ W2), Fk. }
  split; [eapply simk_trans; [exact Sk|by apply sim_simk]|exact G2|].
  pose proof (co_outs _ HC) as Hperm. assert (inv st2) as HI2 by (eapply s_inv; exact S2).
  apply place_outputs_ok; try done.
  - rewrite Hperm. apply NoDup_seq.
  - apply HC.
  - apply (op_outs_ready o m st1 st2 na A1 L); try done.
    + by apply op_ok_oargs.
    + intros t Ht. destruct F1 as [_ F1]. rewrite F1. by apply Hnf.
    + intros r u Hu. by apply Rk, (sh_regs _ _ W2).
Qed.

(** Operations inside a basic block. *)
Lemma op_inner_ok o m D D' st st' prog : sem_ok T call_sem other_sem prog -> o ∈ prog ->
  constraints_ok o -> inv st -> op_ok C o = true -> plain o = true -> NoDup (oargs o) -> kept C T o m D D' ->
  (forall t, t ∈ oargs o -> fixed_reg (temps st t) = false) -> has_flag (flags_of T o) TCG_OPF_BB_END = false ->
  tcg_reg_alloc_op C T H o m st = Some st' -> opstep o (live D') (live D) st st'.
Proof.
  intros HS Hin HC HI Hok Hp Hnd HK Hnf Hbb E. unfold tcg_reg_alloc_op in E.
  apply bind_Some in E as ([[na A1] st1] & E1 & E). rewrite Hbb in E. apply bind_Some in E as ([na' st3] & E2 & E).
  apply bind_Some in E as (xs & Exs & E). apply bind_Some in E as (outs & Eouts & [= <-]).
  destruct (op_inputs_ok o m D D' st st1 na A1 HC HI Hok HK Hnf E1) as (F1 & Sub & N1 & _ & L & [HI1 HE1 HQ] & W & HIn).
  destruct (op_stages_ok o m D D' st st1 na A1 na' st3 HC HI Hok Hnd HK Hnf E1 E2) as (st2 & [[HI2 HE2 Hk] HG HD]).
  pose proof HD as [[HI3 HE3 Hk3] Hreg Hna Hback _ Hfx3 Hsp].
  destruct HQ as (c1 & C1 & S1 & R1). destruct Hk as (c2 & C2 & S2 & R2). destruct Hk3 as (c3 & C3 & S3 & R3).
  assert (forall t, t ∈ oargs o -> fixed_reg (temps st3 t) = false) as Hnf3.
  { intros t Ht. rewrite (i_fixed _ _ _ _ HI3), <- (i_fixed _ _ _ _ HI). by apply Hnf. }
  rewrite move_outputs_none by exact Hnf3.
  split; [by apply inv_emit|do 2 (eapply ext_trans; [eassumption|]); exact HE3|].
  exists (c1 ++ c2 ++ c3), [Hop o outs xs].
  split; [cbn; by rewrite C3, C2, C1, !app_assoc|]. split; [by repeat apply Forall_app_2|].
  split; [unfold tail_ok; destruct o; try done; right; by eexists|].
  intros F s h junk res HL HF HR Ex. assert (slots F st3) as HF3 by exact HF.
  assert (slots F st2) as HF2 by (by eapply slots_ext).
  destruct (R1 F _ s h HL (slots_ext _ _ _ HE2 HF2) HR) as (HR1 & _ & HH1).
  set (P1 := fun u => live D' u /\ (u ∉ marked (length (oargs o)) (iargs o) m)).
  destruct (R2 F P1 s (run_simple c1 h) HL HF2) as [HR2 HK2];
    [by intros t [_ Ht] Ht'|by eapply rel_weaken; [exact HR1|intros t [? _]]|].
  set (P2 := fun u => P1 u /\ (u ∉ oargs o)).
  assert (forall t, (exists i, i ∈ take (length (oargs o)) (sorted_args H o) /\ args_of o !! i = Some t) -> t ∈ oargs o) as Hout.
  { intros t (i & Hi & Ht). rewrite (co_outs _ HC) in Hi. apply elem_of_seq in Hi.
    rewrite lookup_out in Ht by lia. by eapply list_elem_of_lookup_2. }
  destruct (R3 F P2 s (run_simple c2 (run_simple c1 h)) HL HF3) as [HR3 HK3];
    [by intros t [_ Ht] Ht'%Hout|by eapply rel_weaken; [exact HR2|intros t [? _]]|].
  set (h2 := run_simple c2 (run_simple c1 h)) in *. set (h3 := run_simple c3 h2) in *.
  assert (run_simple (c1 ++ c2 ++ c3) h = h3) as -> by (by rewrite !run_simple_app).
  assert (Forall (holds C H (live D') s h3) L) as HH3.
  { eapply keeps_holds; [done| |exact HK3|by eapply keeps_holds]. eapply Forall_impl; [exact W|].
    intros q. apply within_sub. intros r _. apply test_all. }
  destruct (hop_exec o outs xs s h3 res junk Hp Ex ltac:(apply HR3)) as (x & vs & Ex' & -> & Einsn).
  { eapply op_operands; [exact Exs| |exact HH3|apply (kp_ins _ _ _ _ _ _ HK)]. intros i Hi. rewrite Hna.
    - eapply input_operand; [by apply HIn|]. apply elem_of_seq in Hi. lia.
    - rewrite (co_outs _ HC). apply elem_of_seq in Hi. rewrite elem_of_seq. lia. }
  unfold tail_sim. rewrite Einsn. set (h4 := if has_flag _ _ then _ else _).
  assert (forall j r, outs !! j = Some r -> na' j = Some (Reg r)) as Houts.
  { intros j r Hj. apply mapM_Some in Eouts. rewrite Forall2_lookup in Eouts. specialize (Eouts j). rewrite Hj in Eouts.
    inversion Eouts as [a b Hab Ha|]; subst. symmetry in Ha. apply lookup_seq in Ha as [-> _].
    cbn in Hab. unfold reg_operand in Hab. destruct (na' j) as [[]|]; by simplify_eq. }
  assert (length outs = length (oargs o)) as Hlen.
  { apply mapM_Some, Forall2_length in Eouts. by rewrite length_seq in Eouts. }
  assert (forall j t r, oargs o !! j = Some t -> outs !! j = Some r ->
    (t < nb_temps)%nat /\ reserved r = false /\ output_at m (0 + j) t r st3) as Hat.
  { intros j t r Hj Hr. pose proof (lookup_lt_Some _ _ _ Hj) as Hlt.
    destruct (Hreg j) as (t' & r' & Ht' & Hr' & Hres & Hat & _); [rewrite (co_outs _ HC), elem_of_seq; lia|].
    rewrite lookup_out in Ht' by done. apply Houts in Hr. assert (t' = t) as -> by congruence.
    assert (r' = r) as -> by congruence. split_and!; try done.
    pose proof (op_ok_oargs C o Hok) as Hall. rewrite Forall_forall in Hall. by eapply Hall, list_elem_of_lookup_2. }
  pose proof (exec_kind C T call_sem other_sem s o _ prog HS Ex) as Hkind.
  destruct x as [rs w|l|c w]; cbn in Hkind |- *.
  - eexists. split; [done|]. apply rel_emit.
    assert (rel F P2 st3 s h4) as HR4.
    { unfold h4. destruct (has_flag (flags_of T o) TCG_OPF_CALL_CLOBBER); [|done]. apply clobber_rel; try done.
      intros t [_ Hno] Ht Hv Hf. destruct (clobbered H (treg (temps st3 t))) eqn:Ec; [|done]. exfalso.
      pose proof (i_t2r _ _ _ _ HI3 t Ht Hv Hf) as Hr. destruct (HG eq_refl) as [HG1 _].
      assert (forall i, i ∈ take (length (oargs o)) (sorted_args H o) -> na' i <> Some (Reg (treg (temps st3 t)))) as Hnone.
      { intros i Hi Hx. destruct (Hreg i Hi) as (t' & r' & Ht' & Hr' & _ & [Hown _] & _).
        assert (r' = treg (temps st3 t)) as -> by congruence. apply Hown in Hr. subst t'. apply Hno, Hout. by exists i. }
      apply (Hback _ _ Hnone) in Hr. rewrite (HG1 _ Ec) in Hr. done. }
    eapply rel_weaken; [apply (set_hregs_rel F m st3 (oargs o) HI3 P2 0 outs rs); try done; [by apply rel_world|lia|]|].
    + by eapply react_results.
    + intros u Hu. destruct (kept_after o m D D' u HK Hu) as [|(Hno & HD' & Hm)]; [by right|left; by split_and!].
  - rewrite (jumps_bb_end o Hkind) in Hbb. done.
  - eexists. split; [done|]. unfold h4. pose proof (leaves_clobbers o Hp Hkind Hbb) as Hcl. rewrite Hcl.
    destruct (HG Hcl) as [_ HG2].
    assert (globals_right s h2) as Hg2.
    { apply (globals_home_right F P1 st2); try done. intros t Ht. split.
      - by apply (kp_globals _ _ _ _ _ _ HK); [right|].
      - intros Hm%(kp_marked _ _ _ _ _ _ HK); [lia|by right]. }
    assert (globals_right s h3) as Hg3.
    { apply (globals_right_spills F (reserved_regs H) st2 st3 c3); try done.
      fold h3. by rewrite (r_world _ _ _ _ _ _ HR3), (r_world _ _ _ _ _ _ HR2). }
    by apply globals_right_world, globals_right_clobber.
Qed.

End Insn.
