(* ===== verification/TcgRegCall.v ===== *)
(** * Calls of helpers

    [tcg_reg_alloc_call] stores the arguments that do not fit in registers, loads the others
    into the registers of the calling convention, spills what the helper may change, saves
    the globals unless the helper does not look at them, and takes the results from the
    registers of the convention.  The call then gets the values of its arguments and the
    globals, and what it returns is where the tables of the pass say. *)

From S2P Require Import Prelude TcgIr TcgOptimize TcgRing TcgFold TcgOptProofs TcgLive TcgLiveProofs.
From S2P Require Import TcgRegAlloc TcgRegProofs TcgRegOps TcgRegInsn.
Open Scope Z_scope.

Section Call.
Context {World : Type} (C : TCGContext) (T : OpTable) (H : Target) (g : nat -> TCGTemp).
Context (call_sem : Z -> list Z -> list Z -> World -> option (effect World * list Z)).
Context (other_sem : nat -> list Z -> list Z -> World -> option (effect World)).
Context (HO : host_ok C H g).
Implicit Types (st : Alloc) (t r : nat) (h : Host World) (s : State World) (P K : nat -> Prop)
  (F : nat -> option (nat * Z)) (A : Z) (D : list bool).

#[local] Abbreviation nb_temps := (nb_temps C).
#[local] Abbreviation nb_globals := (nb_globals C).
#[local] Abbreviation test := tcg_regset_test_reg.
#[local] Abbreviation reserved := (tcg_regset_test_reg (reserved_regs H)).
#[local] Abbreviation ty := (typed C).
#[local] Abbreviation inv := (inv C H g).
#[local] Abbreviation rel := (rel C).
#[local] Abbreviation layout := (layout H).
#[local] Abbreviation sim := (sim (World:=World) C H g).
#[local] Abbreviation simk := (simk (World:=World) C H g).
#[local] Abbreviation bb_dead := (is_dead (tcg_la_bb_end C)).
#[local] Abbreviation exec := (exec_op C call_sem other_sem).
#[local] Abbreviation exec_insn := (exec_insn C T H g call_sem other_sem).

#[local] Abbreviation simq := (simq (World:=World) C H g).
#[local] Abbreviation opstep := (opstep C T H g call_sem other_sem).
#[local] Abbreviation above A := (forall r, reserved r = true -> test A r = true).
#[local] Abbreviation alloc_ok := (tcg_reg_alloc_ok (World:=World) C H g HO).
#[local] Abbreviation globals_right := (globals_right (World:=World) C g).
#[local] Abbreviation globals_home := (globals_home C).

(** ** A value into a free register *)

Lemma fill_ld A t reg st st' : inv st -> reg_to_temp st reg = None -> reserved reg = false -> test A reg = false ->
  tval_type (temps st t) = TEMP_VAL_MEM -> ld_temp C t reg st = Some st' -> simq A [(t, In (Reg reg))] st st'.
Proof.
  intros HI Hfree Hres HA Hv E. unfold ld_temp in E. destruct (mem_allocated (temps st t)) eqn:Em; [|done].
  injection E as <-. eapply simq_fill; try done.
  intros F P s h v HF HR Hp Hx. pose proof (r_vals _ _ _ _ _ _ HR t v Hp Hx) as Hloc.
  unfold located in Hloc. rewrite Hv in Hloc. rewrite <- (Hloc _ (HF t Em)). apply ty_ty.
Qed.

Lemma fill_movi A t reg st : inv st -> reg_to_temp st reg = None -> reserved reg = false -> test A reg = false ->
  tval_type (temps st t) = TEMP_VAL_CONST ->
  simq A [(t, In (Reg reg))] st (emit (Hmovi (temp_type C t) reg (tval (temps st t))) st).
Proof.
  intros HI Hfree Hres HA Hv. eapply simq_fill; try done.
  intros F P s h v HF HR Hp Hx. pose proof (r_vals _ _ _ _ _ _ HR t v Hp Hx) as Hloc.
  unfold located in Hloc. rewrite Hv in Hloc. rewrite <- Hloc. apply ty_ty.
Qed.

Lemma simq_after A st1 st2 st3 l : sim A st1 st2 -> simq A l st2 st3 -> simq A l st1 st3.
Proof. intros S1 Q2. by apply (simq_trans C H g A A [] l st1 st2 st3 (sim_simq _ _ _ _ _ _ S1) Q2). Qed.

(** A register is allocated for the value of [t], which is not in one. *)
Lemma alloc_ld A ct t reg st st1 st2 : inv st -> above A -> tval_type (temps st t) = TEMP_VAL_MEM ->
  tcg_reg_alloc C H ct A st = Some (reg, st1) -> ld_temp C t reg st1 = Some st2 ->
  simq A [(t, In (Reg reg))] st st2.
Proof.
  intros HI HA Hv E1 E2. destruct (alloc_ok A A _ st reg st1 HI HA E1) as (S1 & F1 & _ & HAr & Hres).
  eapply simq_after; [exact S1|]. eapply fill_ld; try done; [by eapply s_inv|apply F1|].
  rewrite (freed_not_reg C H g reg st st1 t HI F1); congruence.
Qed.

Lemma alloc_movi A ct t reg st st1 : inv st -> above A -> tval_type (temps st t) = TEMP_VAL_CONST ->
  tcg_reg_alloc C H ct A st = Some (reg, st1) ->
  simq A [(t, In (Reg reg))] st (emit (Hmovi (temp_type C t) reg (tval (temps st t))) st1).
Proof.
  intros HI HA Hv E1. destruct (alloc_ok A A _ st reg st1 HI HA E1) as (S1 & F1 & _ & HAr & Hres).
  eapply simq_after; [exact S1|]. destruct (fr_temps _ _ _ F1 t) as (_ & <- & _).
  eapply fill_movi; try done; [by eapply s_inv|apply F1|].
  rewrite (freed_not_reg C H g reg st st1 t HI F1); congruence.
Qed.

(** ** Arguments on the stack *)

(** The arguments at offsets below [b] stay. *)
Record simstack (b : Z) (l : list (nat * place)) st st' : Prop := {
  k_inv : inv st';
  k_ext : ext st st';
  k_code : exists c, code st' = code st ++ c /\ Forall simple c /\
    forall F P s h, layout F -> slots F st' -> rel F P st s h ->
      rel F P st' s (run_simple c h) /\ Forall (holds C H P s (run_simple c h)) l /\
      forall off, arg_area H off -> off < b ->
        hmem (run_simple c h) (TCG_REG_CALL_STACK H, off) = hmem h (TCG_REG_CALL_STACK H, off) }.

Lemma area_no_slot F off : layout F -> arg_area H off -> forall t, F t <> Some (TCG_REG_CALL_STACK H, off).
Proof. intros HL Ho t Ht. destruct (l_args _ _ HL t off Ht); unfold arg_area in Ho; lia. Qed.

Lemma stack_store A t r off st st' : simq A [(t, In (Reg r))] st st' -> arg_area H off ->
  simstack off [(t, OnStack off)] st (emit (Hst (temp_type C t) r (TCG_REG_CALL_STACK H) off) st').
Proof.
  intros [HI HE (c & Hc & Hs & HR)] Ho. split; [by apply inv_emit|exact HE|].
  exists (c ++ [Hst (temp_type C t) r (TCG_REG_CALL_STACK H) off]). split; [cbn; by rewrite Hc, app_assoc|].
  split; [apply Forall_app; split; [done|by constructor]|]. intros F P s h HL HF Hr.
  destruct (HR F P s h HL HF Hr) as (HR1 & [_ HM] & HH). rewrite run_simple_app. cbn.
  split_and!; [apply rel_emit, rel_store_other; [by apply area_no_slot|done]| |].
  - constructor; [|done]. intros v Hp Hv. apply Forall_cons in HH as [HH _]. specialize (HH v Hp Hv). cbn in *.
    rewrite mupd_eq, <- HH. apply ty_ty.
  - intros off' Ho' Hlt. rewrite mupd_ne by (intros [=]; lia). apply HM. by apply area_no_slot.
Qed.

Lemma simstack_trans b b' l l' st1 st2 st3 : simstack b l st1 st2 -> simstack b' l' st2 st3 -> b <= b' ->
  Forall (fun q => exists off, snd q = OnStack off /\ arg_area H off /\ off < b') l -> simstack b (l ++ l') st1 st3.
Proof.
  intros [I1 E1 (c1 & C1 & S1 & R1)] [I2 E2 (c2 & C2 & S2 & R2)] Hb Hl.
  split; [done|by eapply ext_trans|]. exists (c1 ++ c2). split; [by rewrite C2, C1, app_assoc|].
  split; [by apply Forall_app|]. intros F P s h HL HF HR.
  destruct (R1 F P s h HL (slots_ext _ _ _ E2 HF) HR) as (HR1 & HH1 & HM1).
  destruct (R2 F P s _ HL HF HR1) as (HR2 & HH2 & HM2). rewrite run_simple_app. split_and!; [done| |].
  - apply Forall_app. split; [|done]. rewrite Forall_forall in HH1, Hl |- *. intros q Hq v Hp Hv.
    destruct (Hl q Hq) as (off & Eq & Ho & Hlt). rewrite <- (HH1 q Hq v Hp Hv), Eq. cbn. by rewrite HM2.
  - intros off Ho Hlt. rewrite HM2, HM1 by (done || lia). done.
Qed.

Lemma stack_args_ok params : forall off st st', inv st ->
  (forall k, (k < length params)%nat -> arg_area H (off + 8 * Z.of_nat k)) ->
  stack_args C H params off st = Some st' ->
  simstack off (zip params ((fun k => OnStack (off + 8 * Z.of_nat k)) <$> seq 0 (length params))) st st'.
Proof.
  induction params as [|t params IH]; intros off st st' HI Ha E.
  { injection E as <-. split; [done|apply ext_refl|]. exists []. split; [by rewrite app_nil_r|]. split; [done|].
    intros F P s h HL HF HR. done. }
  cbn in E. apply bind_Some in E as (st1 & E1 & E).
  pose proof (Ha 0%nat ltac:(cbn; lia)) as Ha0. rewrite Z.mul_0_r, Z.add_0_r in Ha0.
  assert (simstack off [(t, OnStack off)] st st1) as S1.
  { destruct (tval_type (temps st t)) eqn:Hv; [done|..].
    - injection E1 as <-. eapply stack_store; [by apply (simq_own C H g (reserved_regs H))|done].
    - apply bind_Some in E1 as ([reg st2] & E1 & E2). apply bind_Some in E2 as (st3 & E2 & [= <-]).
      eapply stack_store; [by eapply (alloc_ld (reserved_regs H))|done].
    - apply bind_Some in E1 as ([reg st2] & E1 & [= <-]).
      eapply stack_store; [by eapply (alloc_movi (reserved_regs H))|done]. }
  assert (simstack (off + 8) (zip params ((fun k => OnStack (off + 8 + 8 * Z.of_nat k)) <$> seq 0 (length params))) st1 st') as S2.
  { apply IH; [by eapply k_inv| |done]. intros k Hk. replace (off + 8 + 8 * Z.of_nat k) with (off + 8 * Z.of_nat (S k)) by lia.
    apply Ha. cbn. lia. }
  cbn [length seq fmap list_fmap zip zip_with]. rewrite Z.mul_0_r, Z.add_0_r.
  rewrite <- fmap_S_seq, <- list_fmap_compose.
  replace ((_ ∘ S) <$> seq 0 (length params)) with ((fun k => OnStack (off + 8 + 8 * Z.of_nat k)) <$> seq 0 (length params)).
  2: { apply list_fmap_ext. intros i k _. cbn [compose]. unfold compose. f_equal. lia. }
  apply (simstack_trans off (off + 8) [(t, OnStack off)] _ st st1 st' S1 S2); [lia|].
  constructor; [|done]. exists off. split_and!; [done|done|lia].
Qed.

(** ** Arguments in registers *)

Lemma reg_args_ok params : forall regs A st A' st', inv st -> above A -> NoDup regs ->
  (forall r, r ∈ regs -> reserved r = false /\ test A r = false) ->
  reg_args C H params regs A st = Some (A', st') ->
  (length params <= length regs)%nat /\ (forall r, test A r = true -> test A' r = true) /\
  Forall (fun q => within H A' (snd q)) (zip params ((fun r => In (Reg r)) <$> regs)) /\
  simq A (zip params ((fun r => In (Reg r)) <$> regs)) st st'.
Proof.
  induction params as [|t params IH]; intros regs A st A' st' HI HA Hnd Hregs E.
  { assert (A' = A /\ st' = st) as [-> ->] by (by destruct regs; injection E as <- <-).
    split_and!; [cbn; lia|done|constructor|]. by apply sim_simq, sim_refl. }
  destruct regs as [|reg regs]; [done|]. cbn in E. apply bind_Some in E as (st1 & E1 & E).
  apply bind_Some in E as (st2 & E2 & E). apply NoDup_cons in Hnd as [Hnr Hnd].
  destruct (Hregs reg ltac:(left)) as [Hres HAr].
  destruct (tcg_reg_free_ok (World:=World) C H g HO A reg st st1 HI Hres E1) as [S1 F1].
  assert (inv st1) as HI1 by (by eapply s_inv). pose proof (fr_none _ _ _ F1) as Hfree.
  assert (simq A [(t, In (Reg reg))] st st2) as Q1.
  { eapply simq_after; [exact S1|]. destruct (tval_type (temps st1 t)) eqn:Hv; [done|..].
    - injection E2 as <-. pose proof (simq_own (World:=World) C H g A st1 t HI1 Hv) as Q.
      destruct (Nat.eqb_spec (treg (temps st1 t)) reg) as [<-|Hne]; [done|]. by apply simq_copy.
    - by eapply fill_ld.
    - injection E2 as <-. by apply fill_movi. }
  destruct (IH regs (tcg_regset_set_reg A reg) st2 A' st') as (Hl & Sub & W & Q2); try done.
  - by eapply q_inv.
  - intros r Hr. by rewrite test_set_reg, (HA r Hr).
  - intros r Hr. destruct (Hregs r ltac:(by right)) as [? Hn]. split; [done|]. rewrite test_set_reg, Hn.
    cbn. apply Nat.eqb_neq. by intros ->.
  - assert (forall r, test A r = true -> test (tcg_regset_set_reg A reg) r = true) as Sub0.
    { intros r Hr. by rewrite test_set_reg, Hr. }
    assert (test (tcg_regset_set_reg A reg) reg = true) as Hin by (by rewrite test_set_reg, Nat.eqb_refl, orb_true_r).
    cbn [fmap list_fmap zip zip_with]. split_and!.
    + cbn. lia.
    + auto.
    + constructor; [|done]. cbn. auto.
    + apply (simq_trans C H g A (tcg_regset_set_reg A reg) [(t, In (Reg reg))] _ st st2 st'); try done. by constructor.
Qed.

(** ** The function *)

Lemma func_arg_ok t ct A st x A' st' : inv st -> above A -> func_arg C H t ct A st = Some (x, A', st') ->
  (forall r, test A r = true -> test A' r = true) /\ within H A' (In x) /\ simq A [(t, In x)] st st'.
Proof.
  intros HI HA E. unfold func_arg in E.
  assert (forall reg, (forall r, test A r = true -> test (tcg_regset_set_reg A reg) r = true) /\
    within H (tcg_regset_set_reg A reg) (In (Reg reg))) as Hset.
  { intros reg. split; [intros r Hr; by rewrite test_set_reg, Hr|]. cbn. by rewrite test_set_reg, Nat.eqb_refl, orb_true_r. }
  destruct (tval_type (temps st t)) eqn:Hv; [done|..].
  - apply bind_Some in E as ([reg st1] & E1 & [= <- <- <-]). destruct (Hset reg). split_and!; try done.
    pose proof (simq_own (World:=World) C H g A st t HI Hv) as Q.
    destruct (test (ct_regs ct) (treg (temps st t))); [by injection E1 as <- <-|].
    apply bind_Some in E1 as ([reg' st2] & E1 & [= -> <-]).
    destruct (alloc_ok (-1) A _ st reg st2 HI HA E1) as (S1 & F1 & _ & HAr & Hres).
    pose proof (simq_trans C H g A (-1) _ [] _ _ _ Q (sim_simq _ _ _ _ _ _ S1) ltac:(intros; apply test_all)
      ltac:(constructor; [apply test_all|done])) as Q2.
    apply simq_copy; try done. apply F1.
  - apply bind_Some in E as ([reg st1] & E1 & E). apply bind_Some in E as (st2 & E2 & [= <- <- <-]).
    destruct (Hset reg). split_and!; try done. by eapply alloc_ld.
  - destruct (ct_const ct (tval (temps st t))).
    + injection E as <- <- <-. split_and!; [done|done|]. split; [done|apply ext_refl|].
      exists []. split; [by rewrite app_nil_r|]. split; [done|]. intros F P s h HL HF HR.
      split_and!; [done|apply keeps_refl|]. constructor; [|done]. intros v Hp Hx.
      pose proof (r_vals _ _ _ _ _ _ HR t v Hp Hx) as Hloc. unfold located in Hloc. by rewrite Hv in Hloc.
    + apply bind_Some in E as ([reg st1] & E1 & [= <- <- <-]). destruct (Hset reg). split_and!; try done.
      by eapply alloc_movi.
Qed.

(** ** What the call reads and writes of the globals *)

Lemma globals_read s h gs : globals_right s h -> rds s (globals C) = Some gs ->
  host_global C g h <$> seq 0 nb_globals = gs.
Proof.
  intros [_ Hg] E. unfold rds in E. apply mapM_Some in E. unfold globals in E.
  assert (forall l gs, Forall (fun t => t < nb_globals)%nat l -> Forall2 (fun t v => rd s t = Some v) l gs ->
    host_global C g h <$> l = gs) as Hl.
  { intros l gs' HF H2. induction H2 as [|t v l gs' Ht H2 IH]; [done|]. apply Forall_cons in HF as [Hlt HF].
    cbn. f_equal; [by apply Hg|by apply IH]. }
  apply Hl; [|done]. apply Forall_forall. intros t Ht%elem_of_seq. lia.
Qed.

Lemma set_global_rel F P st s h t v : inv st -> layout F -> slots F st -> globals_home st -> (t < nb_globals)%nat ->
  rel F P st s h -> rel F P st (wr C t v s) (set_global C g t v h).
Proof.
  intros HI HL HF HG Ht HR. pose proof HR as []. pose proof (i_fixed _ _ _ _ HI t) as Ef.
  rewrite (proj2 (Nat.ltb_lt _ _) Ht) in Ef. cbn in Ef. unfold set_global.
  assert (length (vals (wr C t v s)) = nb_temps) as Hlen by (cbn; by rewrite length_insert).
  destruct (fixed_reg (g t)) eqn:Eg.
  - destruct (i_own _ _ _ _ HI t Ef) as (Hv & Hr & Hres & Hc). split; [done|done|]. intros u x Hp Hx. cbn in Hx.
    destruct (decide (u = t)) as [->|Hne].
    + rewrite list_lookup_insert_eq in Hx by (apply lookup_lt_Some in Hx; by rewrite length_insert in Hx).
      injection Hx as <-. unfold located. rewrite Hv, Hr, Hc. destruct (ho_own _ _ _ HO t Ht Eg) as [_ ->].
      split; [|done]. cbn. rewrite fupd_eq. apply ty_ty.
    + rewrite list_lookup_insert_ne in Hx by done. apply located_set_reg; [|by apply r_vals].
      intros Hvu Eu. pose proof (rel_lt _ _ _ _ _ _ _ _ HR Hx) as Hlt. destruct (fixed_reg (temps st u)) eqn:Efu.
      * destruct (i_own _ _ _ _ HI u Efu) as (_ & Hru & _). pose proof (i_fixed _ _ _ _ HI u) as E.
        rewrite Efu in E. symmetry in E. apply andb_true_iff in E as [Hlu%Nat.ltb_lt Egu].
        apply Hne, (ho_regs _ _ _ HO); congruence.
      * pose proof (i_nores _ _ _ _ HI u Hlt Hvu Efu). congruence.
  - destruct (global_slot C H g HO F st t HI HF Ht Ef) as [_ Hk]. split; [done|done|]. intros u x Hp Hx. cbn in Hx.
    destruct (decide (u = t)) as [->|Hne].
    + rewrite list_lookup_insert_eq in Hx by (apply lookup_lt_Some in Hx; by rewrite length_insert in Hx).
      injection Hx as <-. unfold located. rewrite (HG t Ht Ef). intros k Hk'. assert (k = slot (g t)) as -> by congruence.
      cbn. rewrite mupd_eq. apply ty_ty.
    + rewrite list_lookup_insert_ne in Hx by done. apply located_set_mem; [|by apply r_vals].
      intros Hu. destruct Hne. by eapply (l_inj _ _ HL).
Qed.

Lemma set_globals_rel F P st ts : inv st -> layout F -> slots F st -> globals_home st ->
  Forall (fun t => t < nb_globals)%nat ts -> forall vs s h, rel F P st s h ->
  rel F P st (wrs C ts vs s) (set_globals C g ts vs h).
Proof.
  intros HI HL HF HG HT. induction HT as [|t ts Ht HT IH]; intros [|v vs] s h HR; try done. cbn.
  by apply IH, set_global_rel.
Qed.

(** ** The arguments together *)

Lemma zip_Forall2 {X Y} (Q : X -> Y -> Prop) l k : length l = length k ->
  Forall (fun q => Q (fst q) (snd q)) (zip l k) -> Forall2 Q l k.
Proof.
  revert k. induction l as [|x l IH]; intros [|y k] Hl HF; try done. apply Forall_cons in HF as [Hq HF].
  constructor; [done|]. apply IH; [by injection Hl|done].
Qed.

#[local] Abbreviation OFF := (TCG_TARGET_CALL_STACK_OFFSET H).

(** Where the call finds its arguments: [n] of them in registers, the others on the stack. *)
Definition call_places (n nb_params : nat) (f : operand) : list place :=
  ((fun r => In (Reg r)) <$> take n (tcg_target_call_iarg_regs H)) ++
  ((fun k => OnStack (OFF + 8 * Z.of_nat k)) <$> seq 0 (nb_params - n)) ++ [In f].

Definition carries P s h (t : nat) (p : place) : Prop :=
  forall v, P t -> vals s !! t = Some v -> ty t (place_val H h p) = v.

Lemma call_args_ok params func ct n st sta A0 stb f A1 stc : inv st -> (n <= length params)%nat ->
  (forall k, (k < length params - n)%nat -> arg_area H (OFF + 8 * Z.of_nat k)) ->
  stack_args C H (drop n params) OFF st = Some sta ->
  reg_args C H (take n params) (take n (tcg_target_call_iarg_regs H)) (reserved_regs H) sta = Some (A0, stb) ->
  func_arg C H func ct A0 stb = Some (f, A1, stc) ->
  inv stc /\ ext st stc /\ above A1 /\ Forall (within H A1) (call_places n (length params) f) /\
  exists c, code stc = code st ++ c /\ Forall simple c /\
    forall F P s h, layout F -> slots F stc -> rel F P st s h ->
      rel F P stc s (run_simple c h) /\
      Forall2 (carries P s (run_simple c h)) (params ++ [func]) (call_places n (length params) f).
Proof.
  intros HI Hn Ha E1 E2 E3.
  assert (length (drop n params) = length params - n)%nat as Hld by (by rewrite length_drop).
  pose proof (stack_args_ok (drop n params) OFF st sta HI ltac:(rewrite Hld; exact Ha) E1) as [Ia Ea (c1 & C1 & S1 & R1)].
  rewrite Hld in R1.
  destruct (reg_args_ok (take n params) (take n (tcg_target_call_iarg_regs H)) (reserved_regs H) sta A0 stb Ia ltac:(done) (sublist_NoDup _ _ (ho_iargs_once _ _ _ HO) (sublist_take _ _))) as
    (Hlr & Sub0 & W0 & [Ib Eb (c2 & C2 & S2 & R2)]); [|exact E2|].
  { intros r Hr. assert (reserved r = false) as Hres; [|done]. apply (ho_iargs _ _ _ HO).
    by eapply elem_of_sublist, sublist_take. }
  destruct (func_arg_ok func ct A0 stb f A1 stc Ib Sub0 E3) as (Sub1 & W1 & [Ic Ec (c3 & C3 & S3 & R3)]).
  assert (length (take n params) = length ((fun r => In (Reg r)) <$> take n (tcg_target_call_iarg_regs H))) as Hlen.
  { rewrite length_fmap in *. pose proof (firstn_le_length n (tcg_target_call_iarg_regs H)).
    rewrite length_take in Hlr. rewrite length_take. lia. }
  assert (Forall (within H A1) ((fun r => In (Reg r)) <$> take n (tcg_target_call_iarg_regs H))) as WR.
  { apply Forall_forall. intros p Hp. pose proof (proj1 (Forall_forall _ _) W0) as W0'. apply list_elem_of_lookup in Hp as [j Hj].
    assert (is_Some (take n params !! j)) as [t Ht].
    { apply lookup_lt_is_Some. rewrite Hlen. by eapply lookup_lt_Some. }
    apply (within_sub H A0); [done|]. apply (W0' (t, p)), (list_elem_of_lookup_2 _ j).
    by rewrite lookup_zip_with, Ht, Hj. }
  split_and!; [done|by eapply ext_trans, ext_trans|auto| |exists (c1 ++ c2 ++ c3); split_and!].
  - apply Forall_app. split; [done|]. apply Forall_app. split; [|by constructor].
    rewrite Forall_forall. intros p (k & -> & Hk%elem_of_seq)%list_elem_of_fmap. apply Ha. lia.
  - by rewrite C3, C2, C1, !app_assoc.
  - by repeat apply Forall_app_2.
  - intros F P s h HL HF HR. assert (slots F stb) as HFb by (by eapply slots_ext).
    destruct (R1 F P s h HL (slots_ext _ _ _ Eb HFb) HR) as (HR1 & HH1 & _).
    destruct (R2 F P s _ HL HFb HR1) as (HR2 & HK2 & HH2). destruct (R3 F P s _ HL HF HR2) as (HR3 & HK3 & HH3).
    rewrite !run_simple_app. split; [done|]. set (h3 := run_simple c3 _) in *.
    rewrite <- (take_drop n params) at 1. rewrite <- app_assoc.
    assert (Forall (holds C H P s h3) (zip (take n params) ((fun r => In (Reg r)) <$> take n (tcg_target_call_iarg_regs H)))) as HA
      by (by eapply keeps_holds).
    assert (Forall (holds C H P s h3) (zip (drop n params)
      ((fun k => OnStack (OFF + 8 * Z.of_nat k)) <$> seq 0 (length params - n)))) as HB.
    { assert (forall A, Forall (fun q => within H A (snd q)) (zip (drop n params)
        ((fun k => OnStack (OFF + 8 * Z.of_nat k)) <$> seq 0 (length params - n)))) as HW.
      { intros A. apply Forall_forall. intros q (j & Hj)%list_elem_of_lookup.
        apply lookup_zip_with_Some in Hj as (t & p & -> & _ & Hp). apply list_lookup_fmap_Some in Hp as (k & -> & Hk).
        apply lookup_seq in Hk as [-> Hk]. by apply Ha. }
      eapply keeps_holds; [done|apply HW|exact HK3|]. by eapply keeps_holds. }
    apply Forall2_app; [by apply zip_Forall2|]. apply Forall2_app.
    + apply zip_Forall2; [|done]. by rewrite length_fmap, length_seq.
    + constructor; [|done]. by apply Forall_cons in HH3 as [? _].
Qed.

(** ** Results *)

Lemma call_outputs_ok m outs : forall k regs st st', inv st -> NoDup outs -> NoDup regs ->
  (forall r, r ∈ regs -> reserved r = false) ->
  (forall t, t ∈ outs -> (t < nb_temps)%nat /\ fixed_reg (temps st t) = false) ->
  call_outputs C k outs regs m st = Some st' ->
  (length outs <= length regs)%nat /\ code st' = code st /\ simk (-1) (fun t => t ∈ outs) st st' /\
  (forall j t r, outs !! j = Some t -> regs !! j = Some r -> output_at m (k + j) t r st') /\
  (forall r u, (r ∉ regs) -> reg_to_temp st' r = Some u -> reg_to_temp st r = Some u) /\
  (forall r u, (r ∉ regs) -> (u ∉ outs) -> reg_to_temp st r = Some u ->
    reg_to_temp st' r = Some u /\ mem_coherent (temps st' u) = mem_coherent (temps st u)).
Proof.
  induction outs as [|t outs IH]; intros k regs st st' HI Hno Hnr Hres Hnf E.
  { assert (st' = st) as -> by (by destruct regs; injection E as <-).
    split_and!; try done; [cbn; lia|by apply sim_simk, sim_refl]. }
  destruct regs as [|reg regs]; [done|]. cbn in E. case_bool_decide as Hfree; [|done]. cbn in E.
  destruct (Hnf t ltac:(left)) as [Ht Hf]. rewrite Hf in E.
  apply NoDup_cons in Hno as [Hnt Hno], Hnr as [Hnreg Hnr].
  destruct (output_in_ok (World:=World) C H g (-1) t k reg m st HI Ht Hf Hfree (Hres reg ltac:(left))) as (S1 & [O1 O2] & [B1 T1 Fx1]).
  set (st1 := output_in t k reg m st) in *. assert (inv st1) as HI1 by (by eapply sk_inv).
  destruct (IH (S k) regs st1 st' HI1 Hno Hnr) as (Hl & Hc & S2 & O & B & T'); [| |done|].
  { intros r Hr. apply Hres. by right. }
  { intros u Hu. rewrite Fx1. apply Hnf. by right. }
  split_and!.
  - cbn. lia.
  - rewrite Hc. apply output_in_code.
  - eapply simk_trans; [eapply simk_weaken; [exact S1|]|eapply simk_weaken; [exact S2|]]; intros u Hu.
    + subst u. left.
    + by right.
  - intros [|j] u r Hu Hr; [|rewrite <- Nat.add_succ_comm; by apply O]. injection Hu as <-. injection Hr as <-.
    rewrite Nat.add_0_r. split.
    + intros u Hu. apply O1. by apply B.
    + destruct O2 as [|[O2 O3]]; [by left|right]. destruct (T' reg t Hnreg Hnt O2) as [? ->]. done.
  - intros r u [Hne Hr]%not_elem_of_cons Hu. by apply B1, B.
  - intros r u [Hne Hr]%not_elem_of_cons [Hut Hu]%not_elem_of_cons Hx.
    destruct (T1 r u Hne Hut Hx) as [Hx1 <-]. by apply T'.
Qed.

(** ** The call *)

Lemma call_save_ok (const : bool) A st st' : inv st -> above A ->
  (st ← free_regs C H (seq 0 (TCG_TARGET_NB_REGS H)) st; if const then Some st else save_globals C H A st) = Some st' ->
  sim A st st' /\ (forall r, clobbered H r = true -> reg_to_temp st' r = None) /\
  (const = false -> globals_home st').
Proof.
  intros HI HA E. apply bind_Some in E as (st1 & E1 & E2). destruct const.
  - injection E2 as <-. destruct (free_regs_ok (World:=World) C H g HO A _ st st1 HI E1) as (S1 & W1 & N1).
    split_and!; [done| |done]. intros r Hr. unfold clobbered in Hr. apply andb_true_iff in Hr as [Hlt%Nat.ltb_lt Hr].
    apply N1; [|done]. apply elem_of_seq. lia.
  - destruct (call_clobber_ok C H g HO (World:=World) true A st st' HI HA) as (S1 & _ & G1).
    { cbn. by rewrite E1. }
    destruct (G1 eq_refl). by split_and!.
Qed.

(** What the call instruction does, given that it finds its arguments. *)
Lemma hcall_exec outs ins flags f regs stack ps s h res junk prog : sem_ok T call_sem other_sem prog ->
  op_call outs ins flags ∈ prog -> exec (op_call outs ins flags) s = Some res -> hworld h = world s ->
  Forall2 (fun t p => forall v, vals s !! t = Some v -> ty t (place_val H h p) = v) ins ps ->
  place_val H h <$> ps = (hregs h <$> regs) ++ ((fun off => hmem h (TCG_REG_CALL_STACK H, off)) <$> stack) ++ [opval h f] ->
  (has_flag flags TCG_CALL_CONST = false -> globals_right s h) ->
  exists e gs', (match e with Returns rs _ => length rs = length outs | Leaves _ _ => call_is_pure flags = false end) /\
    res = (match e with
           | Returns rs w => Next (wrs C outs rs
               (if call_is_pure flags then set_world w s else wrs C (globals C) gs' (set_world w s)))
           | Leaves c w => Exit c (wrs C (globals C) gs' (set_world w s))
           end) /\
    exec_insn junk (Hcall outs ins flags f regs stack) h =
      Some (let h := clobber_regs H junk h in
            match e with
            | Returns rs w => HNext (set_hregs C outs (tcg_target_call_oarg_regs H) rs
                (if call_is_pure flags then set_hworld w h else set_globals C g (globals C) gs' (set_hworld w h)))
            | Leaves c w => HExit c (set_globals C g (globals C) gs' (set_hworld w h))
            end).
Proof.
  intros HS Hin Ex Hw HF Hps HG. cbn in Ex. unfold exec_call in Ex. apply bind_Some in Ex as (vs & Evs & Ex).
  apply bind_Some in Ex as (gs & Egs & Ex). apply bind_Some in Ex as ([e gs'] & Ec & Ex).
  cbn. rewrite <- Hps, (typed_places C H s h ins ps HF vs Evs), Hw.
  assert (exists gs2, call_sem flags vs (host_global C g h <$> seq 0 nb_globals) (world s) = Some (e, gs2) /\
    (call_is_pure flags = true \/ gs2 = gs')) as (gs2 & -> & Hgs).
  { destruct (has_flag flags TCG_CALL_CONST) eqn:Econst.
    - pose proof (call_const _ _ _ _ HS flags vs gs (host_global C g h <$> seq 0 nb_globals) (world s) Econst) as Hc.
      rewrite Ec in Hc. symmetry in Hc. apply fmap_Some in Hc as ([e2 gs2] & Hc & Ee). cbn in Ee. subst e2.
      exists gs2. split; [done|]. left. apply (has_flag_const_pure call_sem). by left.
    - exists gs'. split; [|by right]. by rewrite (globals_read s h gs (HG eq_refl) Egs). }
  exists e, gs'. destruct e as [rs w|c w].
  - injection Ex as <-. split; [by apply (call_arity _ _ _ _ HS _ _ _ _ _ _ _ _ _ Hin Ec)|]. split; [done|]. cbn.
    destruct (call_is_pure flags) eqn:Ep; [done|]. by destruct Hgs as [| ->].
  - destruct (call_is_pure flags) eqn:Ep; [done|]. injection Ex as <-. split; [done|]. split; [done|]. cbn.
    by destruct Hgs as [| ->].
Qed.

Lemma call_places_vals h n k f : place_val H h <$> call_places n k f =
  (hregs h <$> take n (tcg_target_call_iarg_regs H)) ++
  ((fun off => hmem h (TCG_REG_CALL_STACK H, off)) <$> ((fun i => OFF + 8 * Z.of_nat i) <$> seq 0 (k - n))) ++ [opval h f].
Proof. unfold call_places. rewrite !fmap_app, <- !list_fmap_compose. done. Qed.

Lemma keeps_carries A F P s h h' ins ps : layout F -> Forall (within H A) ps -> keeps A F h h' ->
  Forall2 (carries P s h) ins ps -> Forall2 (carries P s h') ins ps.
Proof.
  intros HL HW HK HF. induction HF as [|t p ins ps Hp HF IH]; constructor.
  - apply Forall_cons in HW as [HW _]. intros v HP Hv. rewrite (keeps_place H A F h h') by done. by apply Hp.
  - apply IH. by apply Forall_cons in HW as [_ ?].
Qed.

Lemma carries_all P s h ins ps : Forall2 (carries P s h) ins ps -> (forall t, t ∈ ins -> P t) ->
  Forall2 (fun t p => forall v, vals s !! t = Some v -> ty t (place_val H h p) = v) ins ps.
Proof.
  intros HF HP. induction HF as [|t p ins ps Hp HF IH]; constructor.
  - intros v. apply Hp, HP. left.
  - apply IH. intros u Hu. apply HP. by right.
Qed.

Lemma stack_area (n : nat) k : Z.of_nat n * 8 <= TCG_STATIC_CALL_ARGS_SIZE H -> (k < n)%nat ->
  arg_area H (OFF + 8 * Z.of_nat k).
Proof. intros Hs Hk. unfold arg_area. lia. Qed.

Lemma stack_size_fits n : Z.ltb (TCG_STATIC_CALL_ARGS_SIZE H)
    (Z.land (Z.of_nat n * 8 + TCG_TARGET_STACK_ALIGN H - 1) (Z.lnot (TCG_TARGET_STACK_ALIGN H - 1))) = false ->
  Z.of_nat n * 8 <= TCG_STATIC_CALL_ARGS_SIZE H.
Proof.
  intros Hs%Z.ltb_ge. destruct (ho_align _ _ _ HO) as (k & Hk & Ek). rewrite Ek in Hs.
  pose proof (align_up k (Z.of_nat n * 8) Hk). lia.
Qed.

Lemma last_split {X} (l : list X) x : last l = Some x -> l = removelast l ++ [x].
Proof. intros (l' & ->)%last_Some. by rewrite removelast_last. Qed.

Lemma tcg_reg_alloc_call_ok outs ins flags m D D' st st' prog : sem_ok T call_sem other_sem prog ->
  op_call outs ins flags ∈ prog -> inv st -> op_ok C (op_call outs ins flags) = true -> NoDup outs ->
  kept C T (op_call outs ins flags) m D D' -> (forall t, t ∈ outs -> fixed_reg (temps st t) = false) ->
  tcg_reg_alloc_call C H outs ins flags m st = Some st' ->
  opstep (op_call outs ins flags) (live D') (live D) st st'.
Proof.
  intros HS Hin HI Hok Hnd HK Hnf E. set (o := op_call outs ins flags) in *. unfold tcg_reg_alloc_call in E.
  apply bind_Some in E as (func & Efunc & E). apply last_split in Efunc. revert E.
  set (params := removelast ins) in *. set (n := Nat.min _ (length params)). intros E.
  destruct (Z.ltb (TCG_STATIC_CALL_ARGS_SIZE H) _) eqn:Esize; [done|]. apply stack_size_fits in Esize.
  apply bind_Some in E as (sta & E1 & E). apply bind_Some in E as ([A0 stb] & E2 & E).
  apply bind_Some in E as ([[f A1] stc] & E3 & E). rewrite kill_inputs_marked in E.
  destruct (call_args_ok params func _ n st sta A0 stb f A1 stc HI ltac:(unfold n; lia)
    ltac:(intros k Hk; by eapply stack_area) E1 E2 E3) as (HIc & HEc & HAc & HW & c1 & C1 & S1 & R1).
  assert (Forall (fun t => t < nb_temps)%nat (marked (length outs) ins m)) as Hml.
  { pose proof (op_ok_iargs C o Hok) as Hi. rewrite Forall_forall in Hi |- *. intros t Ht%marked_in. by apply Hi. }
  destruct (kill_temps_ok (World:=World) C H g A1 _ stc HIc Hml) as ([HIk HEk Hk] & _ & _).
  set (stk := fold_left _ _ stc) in *. destruct Hk as (c2 & C2 & S2 & R2).
  apply bind_Some in E as (stf & E4 & E). apply bind_Some in E as (st2 & E5 & E).
  destruct (call_save_ok (has_flag flags TCG_CALL_CONST) A1 stk st2 HIk HAc ltac:(rewrite E4; exact E5)) as
    ([HI2 HE2 (c3 & C3 & S3 & R3)] & Hcl & HG).
  revert E. set (hc := Hcall _ _ _ _ _ _). intros E.
  assert (forall t, t ∈ outs -> (t < nb_temps)%nat /\ fixed_reg (temps (emit hc st2) t) = false) as Hnf2.
  { intros t Ht. pose proof (op_ok_oargs C o Hok) as Ho. rewrite Forall_forall in Ho. split; [by apply Ho|]. cbn.
    rewrite (i_fixed _ _ _ _ HI2), <- (i_fixed _ _ _ _ HI). by apply Hnf. }
  destruct (call_outputs_ok m outs 0 _ (emit hc st2) st' ltac:(by apply inv_emit) Hnd (ho_oargs_once _ _ _ HO)
    (ho_oargs _ _ _ HO) Hnf2 E) as (Hlen & Hcode & [HI' HE' (c4 & C4 & S4 & R4)] & Hat & _ & _).
  assert (c4 = []) as ->.
  { rewrite Hcode in C4. apply (f_equal length) in C4. rewrite length_app in C4. apply nil_length_inv. lia. }
  split; [done|do 3 (eapply ext_trans; [eassumption|]); exact HE'|]. exists (c1 ++ c2 ++ c3), [hc].
  split; [rewrite Hcode; cbn; by rewrite C3, C2, C1, !app_assoc|]. split; [by repeat apply Forall_app_2|].
  split; [right; by exists hc|]. intros F s h junk res HL HF HR Ex.
  assert (slots F st2) as HF2 by (by eapply slots_ext). assert (slots F stk) as HFk by (by eapply slots_ext).
  destruct (R1 F _ s h HL (slots_ext _ _ _ HEk HFk) HR) as (HR1 & HH1).
  set (P1 := fun u => live D' u /\ (u ∉ marked (length outs) ins m)).
  destruct (R2 F P1 s (run_simple c1 h) HL HFk) as [HR2 HK2];
    [by intros t [_ Ht] Ht'|by eapply rel_weaken; [exact HR1|intros t [? _]]|].
  destruct (R3 F P1 s _ HL HF2 HR2) as [HR3 HK3]. rewrite !run_simple_app. set (h3 := run_simple c3 _) in *.
  assert (Forall2 (carries (live D') s h3) ins (call_places n (length params) f)) as HH3.
  { rewrite Efunc at 1. eapply keeps_carries; [done|done|exact HK3|]. by eapply keeps_carries. }
  assert (reads_globals o = true \/ leaves T o = true -> forall t, (t < nb_globals)%nat -> P1 t) as HP1.
  { intros Hr t Ht. split; [by apply (kp_globals _ _ _ _ _ _ HK)|].
    intros Hm%(kp_marked _ _ _ _ _ _ HK); [lia|done]. }
  assert (has_flag flags TCG_CALL_CONST = false -> globals_right s h3) as Hgr.
  { intros Hc. apply (globals_home_right C H g HO F P1 st2); auto. apply HP1. left. cbn. by rewrite Hc. }
  destruct (hcall_exec outs ins flags f (take n (tcg_target_call_iarg_regs H))
    ((fun k => OFF + 8 * Z.of_nat k) <$> seq 0 (length params - n)) (call_places n (length params) f)
    s h3 res junk prog HS Hin Ex) as (e & gs' & He & -> & Hx); [apply HR3| |apply call_places_vals|done|].
  { by eapply carries_all; [exact HH3|apply (kp_ins _ _ _ _ _ _ HK)]. }
  assert (call_is_pure flags = false -> globals_home st2) as HG2.
  { intros Hp. apply HG. destruct (has_flag flags TCG_CALL_CONST) eqn:Ec; [|done].
    by rewrite (has_flag_const_pure call_sem) in Hp by (by left). }
  assert (rel F P1 st2 s (clobber_regs H junk h3)) as HR4.
  { apply (clobber_rel C H g HO); try done. intros t _ Ht Hv Hf. pose proof (i_t2r _ _ _ _ HI2 t Ht Hv Hf) as Hr.
    destruct (clobbered H (treg (temps st2 t))) eqn:Ec; [|done]. rewrite (Hcl _ Ec) in Hr. done. }
  assert (Forall (fun t => t < nb_globals)%nat (globals C)) as Hgl.
  { apply Forall_forall. intros t Ht%elem_of_seq. lia. }
  unfold tail_sim. fold hc in Hx. rewrite Hx. clear Hx. destruct e as [rs w|c w]; cbn.
  - eexists. split; [done|]. set (P2 := fun u => P1 u /\ (u ∉ outs)).
    set (s1 := if call_is_pure flags then _ else _). set (h5 := if call_is_pure flags then _ else _).
    assert (rel F P1 st2 s1 h5) as HR5.
    { unfold s1, h5. destruct (call_is_pure flags); [by apply rel_world|].
      apply (set_globals_rel F P1 st2); auto. by apply rel_world. }
    destruct (R4 F P2 s1 h5 HL HF) as [HR6 _]; [by intros t [_ ?]|by eapply rel_weaken; [apply rel_emit, HR5|intros t [? _]]|].
    eapply rel_weaken; [apply (set_hregs_rel C H g F m st' outs HI' P2 0 (tcg_target_call_oarg_regs H) rs s1 h5); try done|].
    + intros j t r Hj Hr. split_and!.
      * by eapply Hnf2, list_elem_of_lookup_2.
      * by eapply (ho_oargs _ _ _ HO), list_elem_of_lookup_2.
      * by apply Hat.
    + intros u Hu. destruct (kept_after C T o m D D' u HK Hu) as [|(Hno & HD' & Hm)]; [by right|left; by split_and!].
  - eexists. split; [done|].
    apply (globals_home_right C H g HO F P1 st2); auto.
    + apply (set_globals_rel F P1 st2); auto. by apply rel_world.
    + apply HP1. right. pose proof (exec_kind C T call_sem other_sem s o _ prog HS Ex) as Hkind. exact Hkind.
Qed.

End Call.
