(* ===== verification/TcgRegBlock.v ===== *)
(** * Correctness of the register allocator

    Every operation of a block after the liveness analysis keeps the tables of the pass
    consistent and becomes code that does what the operation does.  So the code of the block
    runs like the block: it leaves with the same exit code, the same globals and the same
    memory, whatever the calls leave in the registers they may change. *)

From S2P Require Import Prelude TcgIr TcgOptimize TcgRing TcgFold TcgOptProofs TcgLive TcgLiveProofs.
From S2P Require Import TcgRegAlloc TcgRegProofs TcgRegOps TcgRegInsn TcgRegCall.
Open Scope Z_scope.

Section Block.
Context {World : Type} (C : TCGContext) (T : OpTable) (H : Target) (g : nat -> TCGTemp).
Context (call_sem : Z -> list Z -> list Z -> World -> option (effect World * list Z)).
Context (other_sem : nat -> list Z -> list Z -> World -> option (effect World)).
Context (HO : host_ok C H g).
Implicit Types (st : Alloc) (t r : nat) (h : Host World) (s : State World) (P K : nat -> Prop)
  (F : nat -> option (nat * Z)) (A : Z) (D : list bool).

#[local] Abbreviation nb_temps := (nb_temps C).
#[local] Abbreviation nb_globals := (nb_globals C).
#[local] Abbreviation test := tcg_regset_test_reg.
#[local] Abbreviation reserved := (tcg_regset_test_reg (reserved_regs H)).
#[local] Abbreviation ty := (typed C).
#[local] Abbreviation inv := (inv C H g).
#[local] Abbreviation rel := (rel C).
#[local] Abbreviation layout := (layout H).
#[local] Abbreviation sim := (sim (World:=World) C H g).
#[local] Abbreviation simk := (simk (World:=World) C H g).
#[local] Abbreviation bb_dead := (is_dead (tcg_la_bb_end C)).
#[local] Abbreviation exec := (exec_op C call_sem other_sem).
#[local] Abbreviation exec_insn := (exec_insn C T H g call_sem other_sem).

#[local] Abbreviation simq := (simq (World:=World) C H g).
#[local] Abbreviation opstep := (opstep C T H g call_sem other_sem).
#[local] Abbreviation above A := (forall r, reserved r = true -> test A r = true).
#[local] Abbreviation globals_right := (globals_right (World:=World) C g).
#[local] Abbreviation globals_home := (globals_home C).

(** ** Operations without an instruction *)

(** [s0]: any state, to name the code. *)
Lemma opsim_opstep o P P' st st' (s0 : State World) :
  match o with op_set_label _ => False | _ => True end -> length (vals s0) = nb_temps ->
  (forall s, length (vals s) = nb_temps -> exists s', opsim C H g P P' st st' s s' /\
    forall res, exec o s = Some res -> res = Next s') ->
  opstep o P P' st st'.
Proof.
  intros Ho Hl HS. destruct (HS s0 Hl) as (s0' & [HI HE (c & Hc & Hs & _)] & _). split; [done|done|].
  exists c, []. rewrite app_nil_r. split; [done|]. split; [done|]. split; [destruct o; try done; by left|].
  intros F s h junk res HL HF HR Ex. destruct (HS s ltac:(apply HR)) as (s' & [_ _ (c' & Hc' & _ & Hr)] & Hres).
  assert (c' = c) as -> by (rewrite Hc in Hc'; by apply app_inv_head in Hc').
  exists s'. split; [by apply Hres|]. by apply Hr.
Qed.

Lemma rel_write_dead F P st s h t v : rel F P st s h -> ~ P t -> rel F P st (wr C t v s) h.
Proof.
  intros [] Ht. split; cbn; [done|by rewrite length_insert|]. intros u x Hu Hx.
  rewrite list_lookup_insert_ne in Hx by congruence. by apply r_vals.
Qed.

Lemma rel_same_world F P st s h : rel F P st s h -> rel F P st (set_world (world s) s) h.
Proof. intros []. by split. Qed.

(** The same state, fewer live temporaries. *)
Lemma opsim_id P P' st s : inv st -> (forall u, P' u -> P u) -> opsim C H g P P' st st s s.
Proof.
  intros HI HP. split; [done|apply ext_refl|]. exists []. split; [by rewrite app_nil_r|]. split; [done|].
  intros F h HL HF HR. by eapply rel_weaken.
Qed.

(** ** Conditions on a block *)

(** The temporaries with a register of their own, such as the pointer to the CPU state, are
    not written. *)
Definition writes_ok (o : TCGOp) : bool :=
  forallb (fun t => negb ((t <? nb_globals)%nat && fixed_reg (g t))) (oargs o).

(** What [discard] gives up is not read again. *)
Definition discard_ok (o : TCGOp) D : bool :=
  match o with
  | op_other opc _ outs _ _ => negb (Nat.eqb opc (INDEX_op_discard T)) || forallb (is_dead D) outs
  | _ => true
  end.

Fixpoint discards_ok (prog : list TCGOp) : bool :=
  match prog with
  | [] => true
  | o :: prog => discard_ok o (snd (la_ops C T prog)) && discards_ok prog
  end.

(** A temporary that is not a global is written before it is read. *)
Definition entry_ok (prog : list TCGOp) : bool :=
  forallb (fun t => (t <? nb_globals)%nat || is_dead (snd (la_ops C T prog)) t) (seq 0 nb_temps).

Lemma discards_ok_at prog : discards_ok prog = true -> forall pc o, prog !! pc = Some o ->
  discard_ok o (snd (la_ops C T (drop (S pc) prog))) = true.
Proof.
  induction prog as [|o prog IH]; intros Hd pc o' Ho; [done|]. cbn in Hd. apply andb_true_iff in Hd as [H1 H2].
  destruct pc as [|pc]; [injection Ho as <-; exact H1|]. by apply IH.
Qed.

Lemma writes_fixed o st : writes_ok o = true -> inv st -> forall t, t ∈ oargs o -> fixed_reg (temps st t) = false.
Proof.
  intros Hw HI t Ht. rewrite (i_fixed _ _ _ _ HI). apply (forallb_elem _ _ t) in Hw; [|done]. by apply negb_true_iff.
Qed.

Lemma movs_opstep w d i m D D' ct st st' (s0 : State World) : inv st -> length (vals s0) = nb_temps ->
  op_ok C (op_mov w d i) = true -> fixed_reg (temps st d) = false -> kept C T (op_mov w d i) m D D' ->
  tcg_reg_alloc_mov C H ct d i m st = Some st' -> opstep (op_mov w d i) (live D') (live D) st st'.
Proof.
  intros HI Hl Hok Hf HK E. cbn in Hok. apply andb_true_iff in Hok as [Hd Hi]. pose proof Hi as [Hi' _]%has_type_iff.
  apply (opsim_opstep _ _ _ _ _ s0); [done|done|]. intros s Hls.
  destruct (lookup_lt_is_Some_2 (vals s) i) as [v Hv]; [lia|]. eexists. split.
  - eapply (tcg_reg_alloc_mov_ok C H g HO (live D') (live D) w d i m ct st st' s v); try done.
    + apply (kp_ins _ _ _ _ _ _ HK). left.
    + intros u Hu. destruct (kp_live _ _ _ _ _ _ HK u Hu) as [Hx|?]; [left|by right]. by apply list_elem_of_singleton in Hx.
    + intros Hm Hu. destruct (kept_after C T _ m D D' i HK Hu) as [(j & Hj & _)|(_ & _ & Hn)].
      * apply list_elem_of_lookup_2, list_elem_of_singleton in Hj. done.
      * destruct Hn. apply (marked_lookup m [i] i 1 0); [done|exact Hm].
  - intros res Ex. cbn in Ex. unfold rd in Ex. rewrite Hv in Ex. by injection Ex as <-.
Qed.

Lemma movi_opstep w d v m D D' st (s0 : State World) : inv st -> length (vals s0) = nb_temps ->
  op_ok C (op_movi w d v) = true -> fixed_reg (temps st d) = false -> kept C T (op_movi w d v) m D D' ->
  opstep (op_movi w d v) (live D') (live D) st (tcg_reg_alloc_movi C d v st).
Proof.
  intros HI Hl Hok Hf HK. apply (opsim_opstep _ _ _ _ _ s0); [done|done|]. intros s Hls. eexists. split.
  - eapply opsim_weaken; [by apply (tcg_reg_alloc_movi_ok C H g (live D') w)|].
    intros u Hu. destruct (kp_live _ _ _ _ _ _ HK u Hu) as [Hx|?]; [left|by right]. by apply list_elem_of_singleton in Hx.
  - intros res Ex. by injection Ex as <-.
Qed.

Lemma label_opstep l m D D' st st' : inv st -> kept C T (op_set_label l) m D D' -> covers C T (op_set_label l) D ->
  (st ← tcg_reg_alloc_bb_end C H (reserved_regs H) st; Some (emit (Hlabel l) st)) = Some st' ->
  opstep (op_set_label l) (live D') (live D) st st' /\ canonical C st'.
Proof.
  intros HI HK Hcov E. apply bind_Some in E as (st1 & E & [= <-]).
  destruct (bb_end_ok (World:=World) C H g HO (reserved_regs H) st st1 HI ltac:(done) E) as
    ([HI1 HE1 (c & Hc & Hs & HR)] & Hcan & _). split; [|exact Hcan].
  split; [by apply inv_emit|exact HE1|]. exists c, [Hlabel l]. split; [cbn; by rewrite Hc, app_assoc|].
  split; [done|]. split; [done|]. intros F s h junk res HL HF Hr Ex. injection Ex as <-. cbn.
  eexists. split; [done|]. apply rel_emit.
  assert (forall u, live D u -> live D' u /\ bb_dead u = false) as Hlive.
  { intros u Hu. destruct (kp_live _ _ _ _ _ _ HK u Hu) as [Hx|]; [by apply not_elem_of_nil in Hx|].
    split; [done|by apply Hcov]. }
  apply (HR F (live D) s h HL HF).
  - intros t Ht Hd. destruct (Hlive t Ht). congruence.
  - eapply rel_weaken; [exact Hr|]. intros u Hu. by apply Hlive.
Qed.

(** The marks of the front end: [debug_insn_start] and [discard]. *)
Lemma hints_opstep opc se outs ins consts m D D' st prog (s0 : State World) :
  let o := op_other opc se outs ins consts in
  sem_ok T call_sem other_sem prog -> o ∈ prog -> inv st -> length (vals s0) = nb_temps -> op_ok C o = true ->
  shape_ok T o = true -> writes_ok o = true -> discard_ok o D = true -> kept C T o m D D' ->
  (Nat.eqb opc (INDEX_op_debug_insn_start T) = true -> opstep o (live D') (live D) st st) /\
  (Nat.eqb opc (INDEX_op_discard T) = true -> exists t, outs = [t] /\ opstep o (live D') (live D) st (kill_temp t st)).
Proof.
  intros o HS Hin HI Hl Hok Hsh Hw Hd HK. cbn in Hsh.
  rewrite !andb_true_iff, !orb_true_iff, !negb_true_iff, !andb_true_iff, !Nat.eqb_eq, orb_false_iff in Hsh.
  destruct Hsh as [[Hs1 Hs2] Hs3].
  assert (Nat.eqb opc (INDEX_op_debug_insn_start T) = true \/ Nat.eqb opc (INDEX_op_discard T) = true ->
    forall s res, exec o s = Some res -> exists rs, length rs = length outs /\ res = Next (wrs C outs rs (set_world (world s) s))) as Hres.
  { intros Hopc s res Ex. cbn in Ex. apply bind_Some in Ex as (vs & _ & Ex). apply bind_Some in Ex as (e & He & Ex).
    assert (op_flags T opc = 0) as Hz.
    { destruct Hs3 as [[? ?]|Hz%Z.eqb_eq]; [|done]. destruct Hopc; congruence. }
    destruct (other_pure _ _ _ _ HS opc consts vs (world s) e) as [rs ->]; [by rewrite Hz|done|].
    injection Ex as <-. exists rs. split; [|done]. by apply (other_arity _ _ _ _ HS _ _ _ _ _ _ _ _ _ Hin He). }
  split; intros Hopc.
  - destruct Hs1 as [|[->%nil_length_inv _]]; [congruence|]. apply (opsim_opstep _ _ _ _ _ s0); [done|done|].
    intros s Hls. exists s. split.
    + apply opsim_id; [done|]. intros u Hu. destruct (kp_live _ _ _ _ _ _ HK u Hu) as [Hx|]; [by apply not_elem_of_nil in Hx|done].
    + intros res Ex. destruct (Hres ltac:(by left) s res Ex) as ([|] & Hlr & ->); [|done]. cbn. by destruct s.
  - destruct Hs2 as [|[Ho _]]; [congruence|]. destruct outs as [|t [|]]; try done. exists t. split; [done|].
    assert (fixed_reg (temps st t) = false) as Hf by (apply (writes_fixed o); [done|done|left]).
    assert (t < nb_temps)%nat as Ht by (pose proof (op_ok_oargs C o Hok) as Hx; by apply Forall_cons in Hx as [? _]).
    unfold kill_temp. rewrite Hf.
    destruct (temp_dead_ok (World:=World) C H g (-1) t st HI Ht Hf) as ([HI' HE' (c & Hc & Hs & HR)] & _ & _).
    assert (forall u, live D u -> live D' u /\ u <> t) as Hlive.
    { intros u Hu. assert (u <> t) as Hne.
      { intros ->. cbn in Hd. unfold live in Hu. by rewrite Hopc, Hu in Hd. }
      split; [|done]. destruct (kp_live _ _ _ _ _ _ HK u Hu) as [Hx|]; [by apply list_elem_of_singleton in Hx|done]. }
    split; [done|done|]. exists c, []. rewrite app_nil_r. split; [done|]. split; [done|]. split; [by left|].
    intros F s h junk res HL HF Hr Ex. destruct (Hres ltac:(by right) s res Ex) as ([|v [|]] & Hlr & ->); try done.
    eexists. split; [done|]. cbn [wrs]. apply rel_write_dead; [apply rel_same_world|].
    + apply (HR F (live D) s h HL HF); [intros u Hu <-; by apply Hlive in Hu as [_ ?]|].
      eapply rel_weaken; [exact Hr|]. intros u Hu. by apply Hlive.
    + intros Hx. by apply Hlive in Hx as [_ ?].
Qed.

(** ** One round of the pass *)

Lemma plain_opstep o m D D' st st' prog : sem_ok T call_sem other_sem prog -> o ∈ prog -> constraints_ok H o ->
  inv st -> op_ok C o = true -> plain o = true -> NoDup (oargs o) -> kept C T o m D D' -> covers C T o D ->
  writes_ok o = true -> tcg_reg_alloc_op C T H o m st = Some st' -> opstep o (live D') (live D) st st'.
Proof.
  intros HS Hin HC HI Hok Hp Hnd HK Hcov Hw E. pose proof (writes_fixed o st Hw HI) as Hnf.
  destruct (has_flag (flags_of T o) TCG_OPF_BB_END) eqn:Hbb.
  - by eapply (op_bb_end_ok C T H g call_sem other_sem HO o m D D' st st' prog).
  - by eapply (op_inner_ok C T H g call_sem other_sem HO o m D D' st st' prog).
Qed.

(** The operations [tcg_reg_alloc_op] is called for. *)
Definition allocates (o : TCGOp) : bool :=
  plain o &&
  match o with
  | op_other opc _ _ _ _ =>
      negb (Nat.eqb opc (INDEX_op_debug_insn_start T)) && negb (Nat.eqb opc (INDEX_op_discard T)) &&
      negb (has_flag (op_flags T opc) TCG_OPF_NOT_PRESENT)
  | _ => TCG_TARGET_HAS H o
  end.

(** What the pass needs to know of an operation, before and after the analysis. *)
Record op_fine (prog : list TCGOp) (o : TCGOp) D : Prop := {
  of_in : o ∈ prog;
  of_ok : op_ok C o = true;
  of_outs : NoDup (oargs o);
  of_shape : shape_ok T o = true;
  of_covers : covers C T o D;
  of_writes : writes_ok o = true;
  of_discard : discard_ok o D = true;
  of_constraints : allocates o = true -> constraints_ok H o }.

Lemma gen_op_kept o m D D' st st' prog (s0 : State World) : sem_ok T call_sem other_sem prog -> op_fine prog o D ->
  length (vals s0) = nb_temps -> inv st -> kept C T o m D D' -> gen_op C T H o m st = Some st' ->
  opstep o (live D') (live D) st st' /\ match o with op_set_label _ => canonical C st' | _ => True end.
Proof.
  intros HS [Hin Hok Hnd Hsh Hcov Hw Hd HC] Hl HI HK E. pose proof (writes_fixed o st Hw HI) as Hnf.
  assert (allocates o = true -> tcg_reg_alloc_op C T H o m st = Some st' -> opstep o (live D') (live D) st st') as Hplain.
  { intros Hp E'. apply (plain_opstep o m D D' st st' prog); auto. by apply andb_prop in Hp as []. }
  destruct o as [|w d i|w d v|u w d i|b w d x y|outs ins flags|l|t|l|w x y c l|opc se outs ins consts]; cbn [gen_op] in E;
    try (split; [destruct (TCG_TARGET_HAS H _) eqn:EH in E; [by apply Hplain|done]|done]).
  - injection E as <-. split; [|done]. apply (opsim_opstep _ _ _ _ _ s0); [done|done|]. intros s Hls. exists s. split.
    + apply opsim_id; [done|]. intros u Hu. destruct (kp_live _ _ _ _ _ _ HK u Hu) as [Hx|]; [by apply not_elem_of_nil in Hx|done].
    + intros res Ex. by injection Ex as <-.
  - split; [|done]. eapply movs_opstep; try done. apply Hnf. left.
  - injection E as <-. split; [|done]. apply (movi_opstep w d v m D D' st s0); try done. apply Hnf. left.
  - split; [|done]. by apply (tcg_reg_alloc_call_ok C T H g call_sem other_sem HO outs ins flags m D D' st st' prog).
  - by apply (label_opstep l m D D').
  - split; [|done].
    destruct (hints_opstep opc se outs ins consts m D D' st prog s0 HS Hin HI Hl Hok Hsh Hw Hd HK) as [H1 H2].
    cbn [allocates plain andb] in Hplain.
    destruct (Nat.eqb opc (INDEX_op_debug_insn_start T)); [injection E as <-; by apply H1|].
    destruct (Nat.eqb opc (INDEX_op_discard T)).
    + destruct (H2 eq_refl) as (t & -> & Hs). by injection E as <-.
    + destruct (has_flag _ TCG_OPF_NOT_PRESENT); [done|]. by apply Hplain.
Qed.

Lemma gen_op_ok o D o' m D' st st' prog (s0 : State World) : sem_ok T call_sem other_sem prog -> op_fine prog o D ->
  length (vals s0) = nb_temps -> inv st -> la_op C T o D = (o', m, D') -> gen_op C T H o' m st = Some st' ->
  opstep o (live D') (live D) st st' /\ match o with op_set_label _ => canonical C st' | _ => True end.
Proof.
  intros HS HF Hl HI Hla E. pose proof HF as [Hin Hok Hnd Hsh Hcov Hw Hd HC].
  pose proof (la_op_result C T o D Hnd Hsh Hcov) as HR. rewrite Hla in HR. destruct HR as [(-> & -> & -> & Hr & Hno)|[-> HK]].
  - injection E as <-. assert (match o with op_set_label _ => False | _ => True end) as Hnl by (destruct o; try done; discriminate Hla).
    split; [|by destruct o]. split; [done|apply ext_refl|]. exists [], []. rewrite !app_nil_r.
    split; [done|]. split; [constructor|]. split; [destruct o; try done; by left|]. intros F s h junk res HL HFs HRel Ex.
    destruct (exec_removable C T call_sem other_sem s o res prog HS Hr Ex) as (a & -> & Hw' & Hlen & Hv).
    exists a. split; [done|]. destruct HRel. split; [by rewrite Hw'|by rewrite Hlen|].
    intros u v Hu. rewrite Hv by (by apply Hno). by apply r_vals.
  - by eapply gen_op_kept.
Qed.

(** ** The start *)

Lemma start_inv : inv (tcg_reg_alloc_start C H g).
Proof.
  split; cbn [temps reg_to_temp current_frame_offset tcg_reg_alloc_start].
  - intros t. by destruct (Nat.ltb_spec t nb_globals).
  - done.
  - intros t Ht. destruct (Nat.ltb_spec t nb_globals); cbn; [|done]. by destruct (fixed_reg (g t)).
  - intros t. destruct (Nat.ltb_spec t nb_globals); cbn; [|done]. intros Hf. rewrite Hf.
    split_and!; try done. by apply (ho_fixed _ _ _ HO).
  - intros t Ht. destruct (Nat.ltb_spec t nb_globals); cbn; [|done]. by destruct (fixed_reg (g t)).
  - intros t Ht. by rewrite (proj2 (Nat.ltb_lt _ _) Ht).
  - intros t Ht. by rewrite (proj2 (Nat.ltb_ge _ _) Ht).
  - lia.
  - intros t u Ht. by rewrite (proj2 (Nat.ltb_ge _ _) Ht).
  - by left.
Qed.

Lemma start_rel F P s h : slots F (tcg_reg_alloc_start C H g) -> length (vals s) = nb_temps -> globals_right s h ->
  (forall t, P t -> (t < nb_temps)%nat -> (t < nb_globals)%nat) -> rel F P (tcg_reg_alloc_start C H g) s h.
Proof.
  intros HF Hl [Hw Hg] HP. split; [done|done|]. intros t v Ht Hv. pose proof (lookup_lt_Some _ _ _ Hv) as Hlt.
  specialize (HP t Ht ltac:(lia)). specialize (Hg t v HP Hv).
  unfold located. cbn [temps tcg_reg_alloc_start]. rewrite (proj2 (Nat.ltb_lt _ _) HP). unfold host_global in Hg. cbn.
  destruct (fixed_reg (g t)) eqn:Ef.
  - split; [done|]. destruct (ho_own _ _ _ HO t HP Ef) as [_ ->]. done.
  - intros k Hk. specialize (HF t). cbn [temps tcg_reg_alloc_start] in HF. rewrite (proj2 (Nat.ltb_lt _ _) HP) in HF. cbn in HF.
    rewrite (HF (ho_mem _ _ _ HO t HP Ef)) in Hk. by injection Hk as <-.
Qed.

(** The slots at the end of the pass. *)
Definition final_slots st (t : nat) : option (nat * Z) :=
  if mem_allocated (temps st t) then Some (slot (temps st t)) else None.

Lemma final_slots_layout st : inv st -> layout (final_slots st).
Proof.
  intros HI. pose proof HI as [_ _ _ _ _ Hg Hf _ Hd _].
  assert (forall t, (t < nb_globals)%nat -> mem_allocated (temps st t) = true -> fixed_reg (g t) = false) as Hnf.
  { intros t Ht Hm. destruct (Hg t Ht) as [E _]. destruct (fixed_reg (g t)) eqn:Ef; [|done].
    destruct (ho_own _ _ _ HO t Ht Ef) as [E' _]. congruence. }
  assert (forall t u, (t < nb_globals <= u)%nat -> mem_allocated (temps st t) = true -> mem_allocated (temps st u) = true ->
    slot (temps st t) <> slot (temps st u)) as Hmix.
  { intros t u [Ht Hu] Mt Mu Es. destruct (Hg t Ht) as [_ E]. rewrite E in Es. injection Es as E1 E2.
    destruct (Hf u Hu Mu) as [E3 E4]. pose proof (ho_frame _ _ _ HO t Ht (Hnf t Ht Mt) ltac:(congruence)). lia. }
  split.
  - intros t u k. unfold final_slots. destruct (mem_allocated (temps st t)) eqn:Mt; [|done].
    destruct (mem_allocated (temps st u)) eqn:Mu; [|done]. intros K1 K2.
    assert (slot (temps st t) = slot (temps st u)) as E by congruence.
    destruct (Nat.lt_ge_cases t nb_globals) as [Ht|Ht], (Nat.lt_ge_cases u nb_globals) as [Hu|Hu].
    + destruct (Hg t Ht) as [_ Et], (Hg u Hu) as [_ Eu]. apply (ho_slots _ _ _ HO); auto. congruence.
    + by destruct (Hmix t u).
    + by destruct (Hmix u t).
    + destruct (decide (t = u)) as [|Hne]; [done|]. injection E as _ E. by destruct (Hd t u Ht Hu Hne Mt Mu).
  - intros t off. unfold final_slots. destruct (mem_allocated (temps st t)) eqn:Mt; [|done]. intros [= E1 <-].
    destruct (Nat.lt_ge_cases t nb_globals) as [Ht|Ht].
    + destruct (Hg t Ht) as [_ Es]. injection Es as E2 E3. rewrite E3.
      apply (ho_args _ _ _ HO t Ht (Hnf t Ht Mt)). congruence.
    + destruct (Hf t Ht Mt) as [_ ?]. pose proof (ho_stack _ _ _ HO). lia.
Qed.

(** ** The block *)

#[local] Abbreviation dead_at prog pc := (snd (la_ops C T (drop pc prog))).

(** A block the pass can be run on. *)
Record block_fine (prog : list TCGOp) : Prop := {
  bf_block : block_ok C T prog;
  bf_writes : forallb writes_ok prog = true;
  bf_entry : entry_ok prog = true;
  bf_discard : discards_ok prog = true;
  bf_constraints o : o ∈ prog -> allocates o = true -> constraints_ok H o }.

Lemma gen_ops_app l1 l2 st : gen_ops C T H (l1 ++ l2) st = (st ← gen_ops C T H l1 st; gen_ops C T H l2 st).
Proof.
  revert st. induction l1 as [|[o m] l1 IH]; intros st; [done|]. cbn.
  destruct (gen_op C T H o m st); [apply IH|done].
Qed.

Section Run.
Context (prog : list TCGOp) (fin : Alloc) (s0 : State World).
Context (HS : sem_ok T call_sem other_sem prog) (HB : block_fine prog) (Hs0 : length (vals s0) = nb_temps).

#[local] Abbreviation la := (tcg_liveness_analysis C T prog).
#[local] Abbreviation start := (tcg_reg_alloc_start C H g).
#[local] Abbreviation gen pc := (gen_ops C T H (take pc la) start).

Context (Hfin : gen_ops C T H la start = Some fin).

Lemma op_fine_at pc o : prog !! pc = Some o -> op_fine prog o (dead_at prog (S pc)).
Proof.
  intros Ho. pose proof HB as [[Hok Hout Hsh Htmp] Hw _ Hd Hc]. pose proof (list_elem_of_lookup_2 _ _ _ Ho) as Hin.
  split; try done.
  - by apply (forallb_elem _ _ _ Hok).
  - by apply (bool_decide_eq_true_1 _ (forallb_elem _ _ _ Hout Hin)).
  - by apply (forallb_elem _ _ _ Hsh).
  - apply prog_covers; try done. apply Nat.leb_le, (ho_context _ _ _ HO).
  - by apply (forallb_elem _ _ _ Hw).
  - by apply discards_ok_at.
  - by apply Hc.
Qed.

Lemma gen_at pc o st : prog !! pc = Some o -> gen pc = Some st -> inv st -> exists st', gen (S pc) = Some st' /\
  opstep o (live (dead_at prog pc)) (live (dead_at prog (S pc))) st st' /\
  match o with op_set_label _ => canonical C st' | _ => True end.
Proof.
  intros Ho Hg HI. destruct (la_ops_at C T prog pc o Ho) as (o' & m & Hla & Hop).
  pose proof Hfin as Hx. rewrite <- (take_drop_middle la pc (o', m) Hla), gen_ops_app, Hg in Hx. cbn in Hx.
  apply bind_Some in Hx as (st' & E & _). exists st'. split.
  - rewrite (take_S_r _ _ _ Hla), gen_ops_app, Hg. cbn. by rewrite E.
  - eapply (gen_op_ok o _ o' m _ st st' prog s0); try done. by apply op_fine_at.
Qed.

Lemma gen_inv pc : exists st, gen pc = Some st /\ inv st.
Proof.
  induction pc as [|pc (st & Hg & HI)]; [exists start; split; [done|apply start_inv]|].
  destruct (prog !! pc) as [o|] eqn:Ho.
  - destruct (gen_at pc o st Ho Hg HI) as (st' & Hg' & Hs & _). exists st'. split; [done|]. apply Hs.
  - exists st. split; [|done]. apply lookup_ge_None in Ho. rewrite take_ge in Hg |- *; [done|..];
      rewrite la_ops_length; lia.
Qed.

Lemma gen_end pc : (length prog <= pc)%nat -> gen pc = Some fin.
Proof. intros Hl. rewrite take_ge; [done|]. by rewrite la_ops_length. Qed.

(** The code of the block is the code so far and the code of the rest. *)
Lemma gen_ext n : forall pc st, (length prog - pc <= n)%nat -> gen pc = Some st ->
  ext st fin /\ exists c, code fin = code st ++ c.
Proof.
  induction n as [|n IH]; intros pc st Hn Hg.
  - rewrite gen_end in Hg by lia. injection Hg as <-. split; [apply ext_refl|]. exists []. by rewrite app_nil_r.
  - destruct (prog !! pc) as [o|] eqn:Ho.
    + destruct (gen_inv pc) as (st1 & E & HI). assert (st1 = st) as -> by congruence.
      destruct (gen_at pc o st Ho Hg HI) as (st' & Hg' & [_ HE (c & tl & Hc & _)] & _).
      apply lookup_lt_Some in Ho. destruct (IH (S pc) st' ltac:(lia) Hg') as [HE' [c' Hc']].
      split; [by eapply ext_trans|]. exists ((c ++ tl) ++ c'). rewrite Hc', Hc. by rewrite <- !app_assoc.
    + apply lookup_ge_None in Ho. rewrite gen_end in Hg by lia. injection Hg as <-. split; [apply ext_refl|].
      exists []. by rewrite app_nil_r.
Qed.

Lemma gen_slots pc st : gen pc = Some st -> slots (final_slots fin) st.
Proof.
  intros Hg. destruct (gen_ext (length prog) pc st ltac:(lia) Hg) as [HE _]. eapply slots_ext; [exact HE|].
  intros t Ht. unfold final_slots. by rewrite Ht.
Qed.

(** *** Labels *)

Lemma host_label_app l c1 c2 : host_label l c1 = None ->
  host_label l (c1 ++ c2) = (fun k => (length c1 + k)%nat) <$> host_label l c2.
Proof.
  induction c1 as [|i c1 IH]; intros Hn; [cbn; by destruct (host_label l c2)|].
  assert (host_label l c1 = None -> S <$> host_label l (c1 ++ c2) =
    (fun k => (length (i :: c1) + k)%nat) <$> host_label l c2) as Hx.
  { intros Hn'. rewrite (IH Hn'). by destruct (host_label l c2). }
  cbn in Hn |- *. destruct i; try (apply Hx; by destruct (host_label l c1)).
  destruct (Nat.eqb l0 l); [done|]. apply Hx. by destruct (host_label l c1).
Qed.

Lemma simple_no_label l c : Forall simple c -> host_label l c = None.
Proof. induction 1 as [|i c Hi Hc IH]; [done|]. cbn. by destruct i; try done; rewrite IH. Qed.

Lemma no_label_before l pc : forall st, gen pc = Some st ->
  (forall j o, (j < pc)%nat -> prog !! j = Some o -> is_label l o = false) -> host_label l (code st) = None.
Proof.
  induction pc as [|pc IH]; intros st Hg Hno; [by injection Hg as <-|].
  destruct (gen_inv pc) as (st1 & Hg1 & HI1). specialize (IH st1 Hg1 ltac:(intros j o Hj; apply Hno; lia)).
  destruct (prog !! pc) as [o|] eqn:Ho.
  - destruct (gen_at pc o st1 Ho Hg1 HI1) as (st' & Hg' & [_ _ (c & tl & Hc & Hs & Ht & _)] & _).
    assert (st' = st) as -> by congruence. rewrite Hc, host_label_app, host_label_app by (done || by apply simple_no_label).
    assert (host_label l tl = None) as ->; [|done]. pose proof (Hno pc o ltac:(lia) Ho) as Hl.
    destruct o; cbn in Ht, Hl; try (by destruct Ht as [->|([] & -> & ?)]). subst tl. cbn. by rewrite Hl.
  - apply lookup_ge_None in Ho. rewrite gen_end in Hg, Hg1 by lia. by simplify_eq.
Qed.

Lemma label_pos_first l p : forall k, label_pos l p = Some k ->
  forall j o, (j < k)%nat -> p !! j = Some o -> is_label l o = false.
Proof.
  induction p as [|o p IH]; intros k Hk j o' Hj Ho; [done|]. cbn in Hk.
  destruct (is_label l o) eqn:El; [injection Hk as <-; lia|]. apply fmap_Some in Hk as (k' & Hk & ->).
  destruct j as [|j]; [by injection Ho as <-|]. eapply IH; [done| |exact Ho]. lia.
Qed.

(** Where the code jumps to: the label instruction, after the spills at the end of the
    basic block before it. *)
Lemma host_label_at l pc : label_pos l prog = Some pc -> exists st' q, gen (S pc) = Some st' /\ inv st' /\ canonical C st' /\
  host_label l (code fin) = Some q /\ code fin !! q = Some (Hlabel l) /\ S q = length (code st').
Proof.
  intros Hl. pose proof (label_pos_spec _ _ _ Hl) as Ho. destruct (gen_inv pc) as (st & Hg & HI).
  destruct (gen_at pc _ st Ho Hg HI) as (st' & Hg' & [HI' _ (c & tl & Hc & Hs & Ht & _)] & Hcan).
  pose proof (no_label_before l pc st Hg (label_pos_first l prog pc Hl)) as Hno. cbn in Ht. subst tl.
  destruct (gen_ext (length prog) (S pc) st' ltac:(lia) Hg') as [_ [c' Hc']].
  exists st', (length (code st ++ c)). split_and!; try done.
  - rewrite Hc', Hc, app_assoc, <- app_assoc. rewrite host_label_app.
    + cbn. rewrite Nat.eqb_refl. cbn. by rewrite Nat.add_0_r.
    + rewrite host_label_app by done. by rewrite simple_no_label.
  - rewrite Hc', Hc, app_assoc, <- app_assoc. rewrite lookup_app_r by done. by rewrite Nat.sub_diag.
  - rewrite Hc, !length_app. cbn. lia.
Qed.

(** *** The run *)

#[local] Abbreviation hrun := (host_run C T H g call_sem other_sem).

Lemma host_run_simple junk c : forall clock n hc pc h, Forall simple c ->
  (forall i x, c !! i = Some x -> hc !! (pc + i)%nat = Some x) ->
  hrun junk clock (length c + n) hc pc h = hrun junk (length c + clock) n hc (length c + pc) (run_simple c h).
Proof.
  induction c as [|i c IH]; intros clock n hc pc h Hs Hc; [done|]. apply Forall_cons in Hs as [Hi Hs]. cbn.
  pose proof (Hc 0%nat i eq_refl) as H0. rewrite Nat.add_0_r in H0. rewrite H0.
  assert (exec_insn (junk clock) i h = Some (HNext (exec_simple i h))) as -> by (by destruct i).
  rewrite IH; [by rewrite !Nat.add_succ_r|done|]. intros j x Hj. rewrite Nat.add_succ_comm. by apply Hc.
Qed.

(** The state of the host corresponds to the block before operation [pc]. *)
Definition at_op pc s hp h : Prop :=
  (exists st, gen pc = Some st /\ hp = length (code st) /\ rel (final_slots fin) (live (dead_at prog pc)) st s h) \/
  (exists l st', prog !! pc = Some (op_set_label l) /\ gen (S pc) = Some st' /\ S hp = length (code st') /\
    code fin !! hp = Some (Hlabel l) /\ rel (final_slots fin) (fun u => bb_dead u = false) st' s h).

Definition same_end (code : option Z) (a : State World) h : Prop :=
  match code with Some _ => globals_right a h | None => hworld h = world a end.

Lemma code_chunk (c tl : list HInsn) st st' : gen_ops C T H la start = Some fin -> code st' = code st ++ c ++ tl ->
  (exists c', code fin = code st' ++ c') ->
  (forall i x, c !! i = Some x -> code fin !! (length (code st) + i)%nat = Some x) /\
  (forall i x, tl !! i = Some x -> code fin !! (length c + length (code st) + i)%nat = Some x).
Proof.
  intros _ Hc [c' Hc']. rewrite Hc', Hc, <- !app_assoc. split; intros i x Hx.
  - rewrite lookup_app_r by lia. replace (length (code st) + i - length (code st))%nat with i by lia.
    by apply lookup_app_l_Some.
  - rewrite lookup_app_r, lookup_app_r by lia.
    replace (length c + length (code st) + i - length (code st) - length c)%nat with i by lia. by apply lookup_app_l_Some.
Qed.

Lemma host_run_sim junk : forall fuel pc s hp h code' a, at_op pc s hp h ->
  run C call_sem other_sem fuel prog pc s = Finished code' a ->
  forall clock, exists n h', hrun junk clock n (code fin) hp h = HFinished code' h' /\ same_end code' a h'.
Proof.
  assert (inv fin) as HIf.
  { destruct (gen_inv (length prog)) as (st & Hg & HI). rewrite gen_end in Hg by lia. by injection Hg as <-. }
  pose proof (final_slots_layout fin HIf) as HL.
  induction fuel as [|fuel IH]; intros pc s hp h code' a HM E clock; [done|]. cbn in E.
  destruct (prog !! pc) as [o|] eqn:Ho.
  2: { injection E as <- <-. destruct HM as [(st & Hg & -> & HR)|(l & st' & Hl & _)]; [|congruence].
       rewrite gen_end in Hg by (by apply lookup_ge_None). injection Hg as <-. exists 1%nat, h. cbn.
       rewrite lookup_ge_None_2 by done. split; [done|]. apply HR. }
  destruct HM as [(st & Hg & -> & HR)|(l & st' & Hl & Hg' & Hq & Hi & HR)].
  - destruct (gen_inv pc) as (st1 & Hg1 & HI). assert (st1 = st) as -> by congruence.
    destruct (gen_at pc o st Ho Hg HI) as (st' & Hg' & [HI' HE' (c & tl & Hc & Hs & Ht & Hsim)] & Hcan).
    destruct (code_chunk c tl st st' Hfin Hc) as [Hc1 Hc2]; [by eapply gen_ext|].
    destruct (exec o s) as [res|] eqn:Ex; [|done].
    specialize (Hsim _ s h (junk (length c + clock)%nat) res HL (gen_slots (S pc) st' Hg') HR Ex).
    assert (forall n, hrun junk clock (length c + n) (code fin) (length (code st)) h =
      hrun junk (length c + clock) n (code fin) (length c + length (code st)) (run_simple c h)) as Hrun.
    { intros n. by apply host_run_simple. }
    destruct tl as [|i tl]; cbn in Hsim.
    + destruct Hsim as (b & -> & HRb). destruct (IH (S pc) b (length c + length (code st))%nat (run_simple c h) code' a) with
        (clock := (length c + clock)%nat) as (n & h' & Hn & Hend); [left|done|].
      { exists st'. split_and!; [done| |done]. rewrite Hc, !length_app. cbn. lia. }
      exists (length c + n)%nat, h'. by rewrite Hrun.
    + assert (tl = []) as ->.
      { unfold tail_ok in Ht. destruct o; try (by injection Ht); destruct Ht as [|(? & ? & _)]; by simplify_eq. }
      pose proof (Hc2 0%nat i eq_refl) as Hi. rewrite Nat.add_0_r in Hi.
      assert (forall n, hrun junk clock (length c + S n) (code fin) (length (code st)) h =
        match exec_insn (junk (length c + clock)%nat) i (run_simple c h) with
        | None => HUndefined
        | Some (HNext h) => hrun junk (S (length c + clock)) n (code fin) (S (length c + length (code st))) h
        | Some (HExit code h) => HFinished (Some code) h
        | Some (HGoto l h) => match host_label l (code fin) with
                              | None => HUndefined
                              | Some pc => hrun junk (S (length c + clock)) n (code fin) pc h
                              end
        end) as Hstep.
      { intros n. rewrite Hrun. cbn. by rewrite Hi. }
      destruct res as [b|l b|cc b]; cbn in Hsim.
      * destruct Hsim as (h1 & Hx & HRb).
        destruct (IH (S pc) b (S (length c + length (code st))) h1 code' a) with (clock := S (length c + clock)) as
          (n & h' & Hn & Hend); [left|done|].
        { exists st'. split_and!; [done| |done]. rewrite Hc, !length_app. cbn. lia. }
        exists (length c + S n)%nat, h'. by rewrite Hstep, Hx.
      * destruct Hsim as (h1 & Hx & HRb & Hcan'). destruct (label_pos l prog) as [pc'|] eqn:El; [|done].
        destruct (host_label_at l pc' El) as (st2 & q & Hg2 & HI2 & Hcan2 & Hq & Hi2 & Hq').
        destruct (IH pc' b q h1 code' a) with (clock := S (length c + clock)) as (n & h' & Hn & Hend); [right|done|].
        { exists l, st2. split_and!; try done; [by eapply label_pos_spec|].
          by apply (rel_canonical C H g _ _ st' st2). }
        exists (length c + S n)%nat, h'. by rewrite Hstep, Hx, Hq.
      * destruct Hsim as (h1 & Hx & Hg1'). injection E as <- <-. exists (length c + 1)%nat, h1. by rewrite Hstep, Hx.
  - assert (o = op_set_label l) as -> by congruence. cbn in E.
    destruct (IH (S pc) s (S hp) h code' a) with (clock := S clock) as (n & h' & Hn & Hend); [left|done|].
    { exists st'. split_and!; [done|done|]. eapply rel_weaken; [exact HR|]. intros u Hu.
      by apply (of_covers _ _ _ (op_fine_at pc _ Ho)). }
    exists (S n), h'. cbn. by rewrite Hi.
Qed.

End Run.

End Block.
