(* ===== verification/TcgRegProps.v ===== *)
(** * From a block to host code

    [tcg_gen_code_common] of src/emul/qemu/tcg/tcg.c as a whole: the optimiser, the liveness
    analysis and the register allocator one after the other, with the properties of the
    last pass and of all three together, and an example on a small host. *)

From S2P Require Import Prelude TcgIr TcgOptimize TcgRing TcgFold TcgOptProofs TcgLive TcgLiveProofs TcgCompose.
From S2P Require Import TcgRegAlloc TcgRegProofs TcgRegOps TcgRegInsn TcgRegCall TcgRegBlock.
Open Scope Z_scope.

(** [tcg_optimize], [tcg_liveness_analysis] and the loop of the allocator. *)
Definition tcg_gen_code_common (C : TCGContext) (T : OpTable) (H : Target) (g : nat -> TCGTemp) (ts : Temps)
    (prog : list TCGOp) : option (list HInsn) :=
  prog ← tcg_optimize C prog ts;
  tcg_gen_code C T H g (tcg_liveness_analysis C T prog).

(** ** The optimiser keeps the conditions of the allocator *)

Lemma optimize_writes_ok C T g prog ts prog' : context_ok C = true -> block_ok C T prog ->
  forallb (writes_ok C g) prog = true -> tcg_optimize C prog ts = Some prog' -> forallb (writes_ok C g) prog' = true.
Proof.
  intros HC [Hops _ _ Htmp] Hw HF. destruct (fold_ops_rewritten C T prog HC Hops _ [] [] prog' (ring_def_clear C ts)) as [_ HA]; try done.
  eapply rewritten_all; [exact HA| |exact Hw]. intros df o ts' o' HR Ho. unfold writes_ok in *.
  destruct (rw_outs _ _ _ _ _ _ HR) as [->|[-> _]]; done.
Qed.

Section Start.
Context {World : Type} (C : TCGContext) (T : OpTable) (H : Target) (g : nat -> TCGTemp).
Context (call_sem : Z -> list Z -> list Z -> World -> option (effect World * list Z)).
Context (other_sem : nat -> list Z -> list Z -> World -> option (effect World)).

(** The code of a block runs like the block. *)
Lemma gen_code_run prog code junk fuel s h exit a : host_ok C H g -> block_fine C T H g prog ->
  sem_ok T call_sem other_sem prog -> length (vals s) = nb_temps C -> globals_right C g s h ->
  tcg_gen_code C T H g (tcg_liveness_analysis C T prog) = Some code ->
  run C call_sem other_sem fuel prog 0 s = Finished exit a ->
  exists n h', host_run C T H g call_sem other_sem junk 0 n code 0 h = HFinished exit h' /\ same_end C g exit a h'.
Proof.
  intros HO HB HS Hl Hg E Hrun. unfold tcg_gen_code in E. apply fmap_Some in E as (fin & E & ->).
  apply (host_run_sim C T H g call_sem other_sem HO prog fin s HS HB Hl E junk fuel 0 s 0%nat h exit a); [|done].
  left. exists (tcg_reg_alloc_start C H g). split_and!; [done|done|].
  apply (start_rel C H g HO); try done.
  - by eapply (gen_slots C T H g call_sem other_sem HO prog fin s HS HB Hl E 0).
  - intros t Ht Hlt. pose proof (bf_entry _ _ _ _ _ HB) as He. unfold entry_ok in He.
    rewrite forallb_forall in He. specialize (He t ltac:(apply list_elem_of_In, elem_of_seq; lia)).
    unfold live in Ht. rewrite drop_0 in Ht. rewrite Ht, orb_false_r in He. by apply Nat.ltb_lt.
Qed.

End Start.

(** ** Example

    A host with eight registers: 6 points to the CPU state and 7 to the stack, calls change
    0 - 3, take two arguments in 1 and 2 and return in 0; operations with two sources write
    their first source. *)

Definition reg_ctx : TCGContext :=
  {| nb_globals := 3; nb_temps := 8;
     temp_type t := if Nat.eqb t 0 || Nat.eqb t 3 then TCG_TYPE_I64 else TCG_TYPE_I32;
     temp_local t := Nat.eqb t 7 |}.

Definition reg_ct (o : TCGOp) (i : nat) : TCGArgConstraint :=
  match o, i with
  | op_bin _ _ _ _ _, 0%nat => mkCt true false 1 63 (fun _ => false)
  | op_bin _ _ _ _ _, 1%nat => mkCt false true 0 63 (fun _ => false)
  | _, _ => mkCt false false 0 63 (fun v => v <? 100)
  end.

Definition reg_host : Target :=
  {| TCG_TARGET_NB_REGS := 8; tcg_target_reg_alloc_order := [0; 1; 2; 3; 4; 5]%nat;
     tcg_target_available_regs _ := 63; tcg_target_call_clobber_regs := 15; reserved_regs := 192;
     tcg_target_call_iarg_regs := [1; 2]%nat; tcg_target_get_call_iarg_regs_count _ := 2%nat;
     tcg_target_call_oarg_regs := [0]%nat; args_ct := reg_ct;
     sorted_args o := seq 0 (length (oargs o) + length (iargs o));
     TCG_TARGET_HAS _ := true;
     frame_reg := 7; frame_start := 128; frame_end := 256;
     TCG_REG_CALL_STACK := 7; TCG_TARGET_CALL_STACK_OFFSET := 0; TCG_TARGET_STACK_ALIGN := 16;
     TCG_STATIC_CALL_ARGS_SIZE := 128 |}.

(** Global 0 is the pointer to the CPU state, 1 and 2 are in it. *)
Definition reg_globals (t : nat) : TCGTemp :=
  match t with
  | 0%nat => mkTemp TEMP_VAL_DEAD 6 0 0 0 true false false
  | _ => mkTemp TEMP_VAL_DEAD 0 0 6 (8 * Z.of_nat t) false false true
  end.

(** The helper adds its three arguments and raises global 2 by one. *)
Definition reg_calls (flags : Z) (ins globals : list Z) (w : unit) : option (effect unit * list Z) :=
  match ins with
  | [x; y; z; _] =>
      Some (Returns [x + y + z] w, match globals with [a; b; c] => [a; b; c + 1] | _ => globals end)
  | _ => None
  end.

(** [t3 = f; t4 = 6; t5 = t4 * g1; t6 = (f)(t5, g2, t4); t7 = t6 + t5; if (t7 < g2) goto 1;
    g1 = t7; 1: exit] *)
Definition reg_prog : list TCGOp :=
  [op_movi TCG_TYPE_I64 3 4096; op_movi TCG_TYPE_I32 4 6; op_bin op_mul TCG_TYPE_I32 5 4 1;
   op_call [6]%nat [5; 2; 4; 3]%nat 0; op_bin op_add TCG_TYPE_I32 7 6 5;
   op_brcond TCG_TYPE_I32 7 2 TCG_COND_LTU 1; op_mov TCG_TYPE_I32 1 7; op_set_label 1;
   op_other 2 true [] [] [17]].

Definition reg_code : list HInsn :=
  [Hld TCG_TYPE_I32 0 6 8; Hmov TCG_TYPE_I32 1 0;
   Hop (op_bin op_mul TCG_TYPE_I32 5 1 4) [1]%nat [Reg 1; Const 6];
   Hmovi TCG_TYPE_I32 2 6; Hst TCG_TYPE_I32 2 7 0;
   Hst TCG_TYPE_I32 1 7 128; Hld TCG_TYPE_I32 1 7 128;
   Hld TCG_TYPE_I32 2 6 16; Hmovi TCG_TYPE_I64 3 4096;
   Hcall [6]%nat [5; 2; 4; 3]%nat 0 (Reg 3) [1; 2]%nat [0];
   Hld TCG_TYPE_I32 1 7 128; Hop (op_bin op_add TCG_TYPE_I32 7 6 5) [0]%nat [Reg 0; Reg 1];
   Hld TCG_TYPE_I32 1 6 16; Hst TCG_TYPE_I32 0 7 136;
   Hop (op_brcond TCG_TYPE_I32 7 2 TCG_COND_LTU 1) [] [Reg 0; Reg 1];
   Hld TCG_TYPE_I32 0 7 136; Hst TCG_TYPE_I32 0 6 8;
   Hlabel 1; Hop (op_other 2 true [] [] [17]) [] []].

(** The product is computed in a copy of global 1, which stays in register 0; it outlives
    the call and is spilled at 128; the third argument goes on the stack; before the branch
    the local temporary goes to its slot at 136. *)
Example reg_demo :
  tcg_gen_code_common reg_ctx live_table reg_host reg_globals blank_temps reg_prog = Some reg_code.
Proof. vm_compute. reflexivity. Qed.

Lemma reg_host_ok : host_ok reg_ctx reg_host reg_globals.
Proof.
  assert (forall t, (t < 3)%nat -> t = 0%nat \/ t = 1%nat \/ t = 2%nat) as H3 by lia.
  split; cbn [nb_globals nb_temps reg_ctx].
  - lia.
  - intros t Ht. by destruct (H3 t Ht) as [->|[->| ->]].
  - intros t Ht. by destruct (H3 t Ht) as [->|[->| ->]].
  - intros t Ht. by destruct (H3 t Ht) as [->|[->| ->]].
  - intros t u Ht Hu. by destruct (H3 t Ht) as [->|[->| ->]], (H3 u Hu) as [->|[->| ->]].
  - intros t u Ht Hu. by destruct (H3 t Ht) as [->|[->| ->]], (H3 u Hu) as [->|[->| ->]].
  - intros t Ht. by destruct (H3 t Ht) as [->|[->| ->]].
  - intros t Ht. by destruct (H3 t Ht) as [->|[->| ->]].
  - cbn. lia.
  - exists 4. done.
  - intros r. do 8 (destruct r as [|r]; [done|]). unfold tcg_regset_test_reg. cbn [reserved_regs reg_host].
    change 192 with (192 mod 2 ^ 8). by rewrite Z.mod_pow2_bits_high by lia.
  - intros r Hr. by repeat (apply elem_of_cons in Hr as [->|Hr]; [done|]); apply not_elem_of_nil in Hr.
  - by apply (bool_decide_eq_true_1 _).
  - intros r Hr. by repeat (apply elem_of_cons in Hr as [->|Hr]; [done|]); apply not_elem_of_nil in Hr.
  - by apply (bool_decide_eq_true_1 _).
Qed.

Lemma reg_constraints_ok o : allocates live_table reg_host o = true -> constraints_ok reg_host o.
Proof.
  intros [Hp _]%andb_prop. assert (drop (length (oargs o)) (sorted_args reg_host o) = seq (length (oargs o)) (length (iargs o)) /\
    take (length (oargs o)) (sorted_args reg_host o) = seq 0 (length (oargs o))) as [E1 E2].
  { cbn. rewrite seq_app. split; [apply drop_app_length'|apply take_app_length']; by rewrite length_seq. }
  split; rewrite ?E1, ?E2; try done.
  - destruct o; try done; cbn; try (repeat constructor; fail).
    apply Sorted.Sorted_StronglySorted; [by intros ????? | ].
    generalize 0%nat at 1. induction (length outs) as [|n IH]; intros k; constructor; [apply IH|].
    destruct n; by constructor.
  - intros i Hi Ha. destruct o; try done. destruct i as [|[]]; try done. cbn. split; [lia|done].
  - intros i Hi Ha. destruct o; try done. destruct i as [|[]]; try done. cbn. lia.
Qed.

Lemma reg_block_ok : block_ok reg_ctx live_table reg_prog.
Proof. split; vm_compute; reflexivity. Qed.

(** The calls of a block have one result. *)
Definition one_result (prog : list TCGOp) : bool :=
  forallb (fun o => match o with op_call outs _ _ => Nat.eqb (length outs) 1 | _ => true end) prog.

Lemma reg_sem_ok prog : one_result prog = true -> sem_ok live_table reg_calls live_other prog.
Proof.
  intros H1. destruct (live_sem_ok prog) as [_ _ _ Ha Hp Hl]. split; try done.
  - intros outs ins flags vs gs w rs w' gs' Hin E. pose proof (forallb_elem _ _ _ H1 Hin) as Ho. apply Nat.eqb_eq in Ho.
    rewrite Ho. unfold reg_calls in E. destruct vs as [|x [|y [|z [|f []]]]]; try done. by injection E as <- <- <-.
  - intros flags vs gs w e gs' _ E. unfold reg_calls in E. destruct vs as [|x [|y [|z [|f []]]]]; try done.
    injection E as <- <-. by eexists.
  - intros flags vs gs gs2 w _. unfold reg_calls. by destruct vs as [|x [|y [|z [|f []]]]].
Qed.

Definition reg_state : State unit := mkState [5; 7; 9; 0; 0; 0; 0; 0] ().

(** Register 6 points to the CPU state, where the globals are. *)
Definition reg_start : Host unit :=
  mkHost (fun r => if Nat.eqb r 6 then 5 else 77)
    (fun k => if bool_decide (k = (6%nat, 8)) then 7 else if bool_decide (k = (6%nat, 16)) then 9 else 99) ().

Lemma reg_state_ok : state_ok reg_ctx reg_state.
Proof.
  split; [done|]. intros t x Hx. do 8 (destruct t as [|t]; [injection Hx as <-; done|]). done.
Qed.

Lemma reg_start_right : globals_right reg_ctx reg_globals reg_state reg_start.
Proof.
  split; [done|]. intros t x Ht Hx. cbn in Ht. do 3 (destruct t as [|t]; [injection Hx as <-; vm_compute; done|]). lia.
Qed.

Definition reg_final : State unit := mkState [5; 99; 10; 4096; 6; 42; 57; 99] ().

Lemma reg_run : run reg_ctx reg_calls live_other 20 reg_prog 0 reg_state = Finished (Some 17) reg_final.
Proof. vm_compute. reflexivity. Qed.

(** The block after the optimiser. *)
Definition reg_opt : list TCGOp :=
  [op_movi TCG_TYPE_I64 3 4096; op_movi TCG_TYPE_I32 4 6; op_bin op_mul TCG_TYPE_I32 5 1 4;
   op_call [6]%nat [5; 2; 4; 3]%nat 0; op_bin op_add TCG_TYPE_I32 7 6 5;
   op_brcond TCG_TYPE_I32 7 2 TCG_COND_LTU 1; op_mov TCG_TYPE_I32 1 7; op_set_label 1;
   op_other 2 true [] [] [17]].

Lemma reg_opt_code :
  tcg_gen_code reg_ctx live_table reg_host reg_globals (tcg_liveness_analysis reg_ctx live_table reg_opt) = Some reg_code.
Proof. vm_compute. reflexivity. Qed.

Lemma reg_opt_fine : block_fine reg_ctx live_table reg_host reg_globals reg_opt.
Proof. split; [split; vm_compute; reflexivity|by vm_compute..|]. intros o _. apply reg_constraints_ok. Qed.

Lemma reg_opt_run : run reg_ctx reg_calls live_other 20 reg_opt 0 reg_state = Finished (Some 17) reg_final.
Proof. vm_compute. reflexivity. Qed.

(** Semantics in which every helper is undefined, for facts about the code alone. *)
Lemma no_sem_ok T prog : sem_ok (World:=unit) T (fun _ _ _ _ => None) (fun _ _ _ _ => None) prog.
Proof. by split. Qed.

(** ** Properties *)

(** The tables of the register allocator.  After every operation of a block in the
    documented form: [check_regs], the check of the debugging build, passes - a register
    that is marked as holding a temporary holds it, and a temporary in a register has that
    register to itself; every slot given to a temporary is a word of the frame, and no two
    temporaries share one. *)
Lemma reg_alloc_tables (C : TCGContext) (T : OpTable) (H : Target) (g : nat -> TCGTemp)
    (prog : list TCGOp) (code : list HInsn) (n : nat) :
  host_ok C H g -> block_fine C T H g prog ->
  tcg_gen_code C T H g (tcg_liveness_analysis C T prog) = Some code ->
  exists st, gen_ops C T H (take n (tcg_liveness_analysis C T prog)) (tcg_reg_alloc_start C H g) = Some st /\
    check_regs C H st = true /\
    (forall t, (nb_globals C <= t)%nat -> mem_allocated (temps st t) = true ->
      mem_reg (temps st t) = frame_reg H /\ frame_start H <= mem_offset (temps st t) /\
      mem_offset (temps st t) + 8 <= frame_end H) /\
    (forall t u, (nb_globals C <= t)%nat -> (nb_globals C <= u)%nat -> t <> u ->
      mem_allocated (temps st t) = true -> mem_allocated (temps st u) = true ->
      mem_offset (temps st t) <> mem_offset (temps st u)).
Proof.
  intros HO HB E. unfold tcg_gen_code in E. apply fmap_Some in E as (fin & E & _).
  destruct (gen_inv C T H g _ _ HO prog fin (mkState (replicate (nb_temps C) 0) ()) (no_sem_ok T prog) HB
    ltac:(apply length_replicate) E n) as (st & Hst & HI).
  exists st. split_and!; [done|by eapply inv_check_regs|intros t; by apply (inv_frame C H g)|apply HI].
Qed.

Lemma reg_alloc_tables_witness : exists st,
  gen_ops reg_ctx live_table reg_host (take 5 (tcg_liveness_analysis reg_ctx live_table reg_opt))
    (tcg_reg_alloc_start reg_ctx reg_host reg_globals) = Some st /\ check_regs reg_ctx reg_host st = true.
Proof.
  destruct (reg_alloc_tables reg_ctx live_table reg_host reg_globals reg_opt reg_code 5 reg_host_ok reg_opt_fine reg_opt_code)
    as (st & Hst & Hc & _).
  exists st. split; [exact Hst|exact Hc].
Defined.

(** The register allocator is correct.  For a block in the documented form, on a host
    whose calling convention and constraints are consistent, started with the globals in
    their slots: when the block runs to its end or leaves, the code emitted for it after
    the liveness analysis does so too, in finitely many instructions, with the same exit
    code, the same globals and the same memory - whatever the helpers leave in the
    registers they may change. *)
Lemma tcg_gen_code_correct {World : Type} (C : TCGContext) (T : OpTable) (H : Target) (g : nat -> TCGTemp)
    (call_sem : Z -> list Z -> list Z -> World -> option (effect World * list Z))
    (other_sem : nat -> list Z -> list Z -> World -> option (effect World))
    (prog : list TCGOp) (code : list HInsn) (junk : nat -> nat -> Z) (fuel : nat)
    (s a : State World) (h : Host World) (exit : option Z) :
  host_ok C H g -> block_fine C T H g prog -> sem_ok T call_sem other_sem prog ->
  length (vals s) = nb_temps C -> globals_right C g s h ->
  tcg_gen_code C T H g (tcg_liveness_analysis C T prog) = Some code ->
  run C call_sem other_sem fuel prog 0 s = Finished exit a ->
  exists n h', host_run C T H g call_sem other_sem junk 0 n code 0 h = HFinished exit h' /\ same_end C g exit a h'.
Proof. intros HO HB HS Hl Hg E Hrun. by eapply gen_code_run. Qed.

Lemma tcg_gen_code_correct_witness : exists n h',
  host_run reg_ctx live_table reg_host reg_globals reg_calls live_other (fun _ _ => 12345) 0 n reg_code 0 reg_start
    = HFinished (Some 17) h' /\
  globals_right reg_ctx reg_globals reg_final h'.
Proof.
  exact (tcg_gen_code_correct reg_ctx live_table reg_host reg_globals reg_calls live_other reg_opt reg_code
    (fun _ _ => 12345) 20 reg_state reg_final reg_start (Some 17) reg_host_ok reg_opt_fine
    (reg_sem_ok reg_opt eq_refl) eq_refl reg_start_right reg_opt_code reg_opt_run).
Defined.

(** The translation of a block, from the operations the front end emits to host code, for
    any host: the optimiser, the liveness analysis and the register allocator together. *)
Lemma tcg_gen_code_common_sim {World : Type} (C : TCGContext) (T : OpTable) (H : Target) (g : nat -> TCGTemp)
    (call_sem : Z -> list Z -> list Z -> World -> option (effect World * list Z))
    (other_sem : nat -> list Z -> list Z -> World -> option (effect World))
    (prog prog' : list TCGOp) (code : list HInsn) (ts : Temps) (junk : nat -> nat -> Z) (fuel : nat)
    (s a : State World) (h : Host World) (exit : option Z) :
  host_ok C H g -> (forall o, o ∈ prog' -> allocates T H o = true -> constraints_ok H o) ->
  block_ok C T prog -> forallb (writes_ok C g) prog = true -> sem_ok T call_sem other_sem prog ->
  tcg_optimize C prog ts = Some prog' -> entry_ok C T prog' = true -> discards_ok C T prog' = true ->
  state_ok C s -> globals_right C g s h ->
  tcg_gen_code_common C T H g ts prog = Some code ->
  run C call_sem other_sem fuel prog 0 s = Finished exit a ->
  exists n h', host_run C T H g call_sem other_sem junk 0 n code 0 h = HFinished exit h' /\ same_end C g exit a h'.
Proof.
  intros HO HCt HB Hw HS HF He Hd Hs Hg E Hrun.
  assert (context_ok C = true) as HC by (apply Nat.leb_le, (ho_context _ _ _ HO)).
  unfold tcg_gen_code_common in E. rewrite HF in E. cbn in E.
  eapply (gen_code_run C T H g call_sem other_sem prog' code junk fuel s h exit a); try done.
  - split; [by eapply tcg_optimize_block_ok|by eapply optimize_writes_ok|done|done|done].
  - by eapply tcg_optimize_sem_ok.
  - apply Hs.
  - rewrite (run_simulation C call_sem other_sem prog (clear_temps (nb_temps C) ts) prog'); [exact Hrun|done|apply HB|done| |].
    + split; [done|]. left. eexists. split; [done|by apply inv_clear].
    + by rewrite Hrun.
Qed.
