(* ===== verification/TcgTarget.v ===== *)
(** * The table of operations and the x86-64 target

    Model of the data the register allocator works with on a 64-bit x86 host: the table
    [tcg_op_defs] (src/emul/qemu/tcg/tcg-opc.h), the registers and the calling convention
    (tcg/i386/tcg-target.h, tcg-target.c), the table of constraints [x86_op_defs] with its
    reader ([tcg_add_target_add_op_defs] of tcg.c and [target_parse_constraint]), and the
    order in which the arguments of an operation are placed ([sort_constraints]).

    An opcode is its position in [tcg_op_defs]; the enumeration of tcg.h is built from the same
    file.  A failed assertion or an unknown constraint letter, which ends the program, is
    [None].  The constraints of an operation that has no entry in [x86_op_defs] are memory
    that nobody initialises; such an operation is marked as absent or never reaches the
    allocator. *)

From Stdlib Require Import String Ascii.
From stdpp Require Import strings sorting.
From S2P Require Import Prelude TcgIr TcgOptimize TcgRing TcgFold TcgOptProofs TcgLive TcgLiveProofs TcgCompose.
From S2P Require Import TcgRegAlloc TcgRegProofs TcgRegOps TcgRegInsn TcgRegCall TcgRegBlock.
Open Scope Z_scope.

(** ** The optional operations of the host *)

Definition TCG_TARGET_HAS_div2_i32 : bool := true.
Definition TCG_TARGET_HAS_rot_i32 : bool := true.
Definition TCG_TARGET_HAS_ext8s_i32 : bool := true.
Definition TCG_TARGET_HAS_ext16s_i32 : bool := true.
Definition TCG_TARGET_HAS_ext8u_i32 : bool := true.
Definition TCG_TARGET_HAS_ext16u_i32 : bool := true.
Definition TCG_TARGET_HAS_bswap16_i32 : bool := true.
Definition TCG_TARGET_HAS_bswap32_i32 : bool := true.
Definition TCG_TARGET_HAS_neg_i32 : bool := true.
Definition TCG_TARGET_HAS_not_i32 : bool := true.
Definition TCG_TARGET_HAS_andc_i32 : bool := false.
Definition TCG_TARGET_HAS_orc_i32 : bool := false.
Definition TCG_TARGET_HAS_eqv_i32 : bool := false.
Definition TCG_TARGET_HAS_nand_i32 : bool := false.
Definition TCG_TARGET_HAS_nor_i32 : bool := false.
Definition TCG_TARGET_HAS_deposit_i32 : bool := true.
Definition TCG_TARGET_HAS_div2_i64 : bool := true.
Definition TCG_TARGET_HAS_rot_i64 : bool := true.
Definition TCG_TARGET_HAS_ext8s_i64 : bool := true.
Definition TCG_TARGET_HAS_ext16s_i64 : bool := true.
Definition TCG_TARGET_HAS_ext32s_i64 : bool := true.
Definition TCG_TARGET_HAS_ext8u_i64 : bool := true.
Definition TCG_TARGET_HAS_ext16u_i64 : bool := true.
Definition TCG_TARGET_HAS_ext32u_i64 : bool := true.
Definition TCG_TARGET_HAS_bswap16_i64 : bool := true.
Definition TCG_TARGET_HAS_bswap32_i64 : bool := true.
Definition TCG_TARGET_HAS_bswap64_i64 : bool := true.
Definition TCG_TARGET_HAS_neg_i64 : bool := true.
Definition TCG_TARGET_HAS_not_i64 : bool := true.
Definition TCG_TARGET_HAS_andc_i64 : bool := false.
Definition TCG_TARGET_HAS_orc_i64 : bool := false.
Definition TCG_TARGET_HAS_eqv_i64 : bool := false.
Definition TCG_TARGET_HAS_nand_i64 : bool := false.
Definition TCG_TARGET_HAS_nor_i64 : bool := false.
Definition TCG_TARGET_HAS_deposit_i64 : bool := true.

(** "Only one of DIV or DIV2 should be defined." *)
Definition TCG_TARGET_HAS_div_i32 : bool := false.
Definition TCG_TARGET_HAS_div_i64 : bool := false.

Definition TCG_OPF_64BIT : Z := 8.
Definition IMPL (x : bool) : Z := if x then 0 else TCG_OPF_NOT_PRESENT.
Definition IMPL64 : Z := TCG_OPF_64BIT.

(** ** The operations *)

Record TCGOpDef := DEF {
  name : string;
  nb_oargs : nat;
  nb_iargs : nat;
  nb_cargs : nat;
  flags : Z }.

Definition tcg_op_defs : list TCGOpDef :=
  [DEF "end" 0 0 0 0;
   DEF "nop" 0 0 0 0;
   DEF "nop1" 0 0 1 0;
   DEF "nop2" 0 0 2 0;
   DEF "nop3" 0 0 3 0;
   DEF "nopn" 0 0 1 0;
   DEF "discard" 1 0 0 0;
   DEF "set_label" 0 0 1 0;
   DEF "call" 0 1 2 TCG_OPF_SIDE_EFFECTS;
   DEF "jmp" 0 1 0 (Z.lor TCG_OPF_BB_END TCG_OPF_SIDE_EFFECTS);
   DEF "br" 0 0 1 (Z.lor TCG_OPF_BB_END TCG_OPF_SIDE_EFFECTS);
   DEF "mov_i32" 1 1 0 0;
   DEF "movi_i32" 1 0 1 0;
   DEF "setcond_i32" 1 2 1 0;
   DEF "ld8u_i32" 1 1 1 0;
   DEF "ld8s_i32" 1 1 1 0;
   DEF "ld16u_i32" 1 1 1 0;
   DEF "ld16s_i32" 1 1 1 0;
   DEF "ld_i32" 1 1 1 0;
   DEF "st8_i32" 0 2 1 TCG_OPF_SIDE_EFFECTS;
   DEF "st16_i32" 0 2 1 TCG_OPF_SIDE_EFFECTS;
   DEF "st_i32" 0 2 1 TCG_OPF_SIDE_EFFECTS;
   DEF "add_i32" 1 2 0 0;
   DEF "sub_i32" 1 2 0 0;
   DEF "mul_i32" 1 2 0 0;
   DEF "div_i32" 1 2 0 (IMPL TCG_TARGET_HAS_div_i32);
   DEF "divu_i32" 1 2 0 (IMPL TCG_TARGET_HAS_div_i32);
   DEF "rem_i32" 1 2 0 (IMPL TCG_TARGET_HAS_div_i32);
   DEF "remu_i32" 1 2 0 (IMPL TCG_TARGET_HAS_div_i32);
   DEF "div2_i32" 2 3 0 (IMPL TCG_TARGET_HAS_div2_i32);
   DEF "divu2_i32" 2 3 0 (IMPL TCG_TARGET_HAS_div2_i32);
   DEF "and_i32" 1 2 0 0;
   DEF "or_i32" 1 2 0 0;
   DEF "xor_i32" 1 2 0 0;
   DEF "shl_i32" 1 2 0 0;
   DEF "shr_i32" 1 2 0 0;
   DEF "sar_i32" 1 2 0 0;
   DEF "rotl_i32" 1 2 0 (IMPL TCG_TARGET_HAS_rot_i32);
   DEF "rotr_i32" 1 2 0 (IMPL TCG_TARGET_HAS_rot_i32);
   DEF "deposit_i32" 1 2 2 (IMPL TCG_TARGET_HAS_deposit_i32);
   DEF "brcond_i32" 0 2 2 (Z.lor TCG_OPF_BB_END TCG_OPF_SIDE_EFFECTS);
   DEF "add2_i32" 2 4 0 (IMPL false);
   DEF "sub2_i32" 2 4 0 (IMPL false);
   DEF "brcond2_i32" 0 4 2 (Z.lor (Z.lor TCG_OPF_BB_END TCG_OPF_SIDE_EFFECTS) (IMPL false));
   DEF "mulu2_i32" 2 2 0 (IMPL false);
   DEF "setcond2_i32" 1 4 1 (IMPL false);
   DEF "ext8s_i32" 1 1 0 (IMPL TCG_TARGET_HAS_ext8s_i32);
   DEF "ext16s_i32" 1 1 0 (IMPL TCG_TARGET_HAS_ext16s_i32);
   DEF "ext8u_i32" 1 1 0 (IMPL TCG_TARGET_HAS_ext8u_i32);
   DEF "ext16u_i32" 1 1 0 (IMPL TCG_TARGET_HAS_ext16u_i32);
   DEF "bswap16_i32" 1 1 0 (IMPL TCG_TARGET_HAS_bswap16_i32);
   DEF "bswap32_i32" 1 1 0 (IMPL TCG_TARGET_HAS_bswap32_i32);
   DEF "not_i32" 1 1 0 (IMPL TCG_TARGET_HAS_not_i32);
   DEF "neg_i32" 1 1 0 (IMPL TCG_TARGET_HAS_neg_i32);
   DEF "andc_i32" 1 2 0 (IMPL TCG_TARGET_HAS_andc_i32);
   DEF "orc_i32" 1 2 0 (IMPL TCG_TARGET_HAS_orc_i32);
   DEF "eqv_i32" 1 2 0 (IMPL TCG_TARGET_HAS_eqv_i32);
   DEF "nand_i32" 1 2 0 (IMPL TCG_TARGET_HAS_nand_i32);
   DEF "nor_i32" 1 2 0 (IMPL TCG_TARGET_HAS_nor_i32);
   DEF "mov_i64" 1 1 0 IMPL64;
   DEF "movi_i64" 1 0 1 IMPL64;
   DEF "setcond_i64" 1 2 1 IMPL64;
   DEF "ld8u_i64" 1 1 1 IMPL64;
   DEF "ld8s_i64" 1 1 1 IMPL64;
   DEF "ld16u_i64" 1 1 1 IMPL64;
   DEF "ld16s_i64" 1 1 1 IMPL64;
   DEF "ld32u_i64" 1 1 1 IMPL64;
   DEF "ld32s_i64" 1 1 1 IMPL64;
   DEF "ld_i64" 1 1 1 IMPL64;
   DEF "st8_i64" 0 2 1 (Z.lor TCG_OPF_SIDE_EFFECTS IMPL64);
   DEF "st16_i64" 0 2 1 (Z.lor TCG_OPF_SIDE_EFFECTS IMPL64);
   DEF "st32_i64" 0 2 1 (Z.lor TCG_OPF_SIDE_EFFECTS IMPL64);
   DEF "st_i64" 0 2 1 (Z.lor TCG_OPF_SIDE_EFFECTS IMPL64);
   DEF "add_i64" 1 2 0 IMPL64;
   DEF "sub_i64" 1 2 0 IMPL64;
   DEF "mul_i64" 1 2 0 IMPL64;
   DEF "div_i64" 1 2 0 (Z.lor IMPL64 (IMPL TCG_TARGET_HAS_div_i64));
   DEF "divu_i64" 1 2 0 (Z.lor IMPL64 (IMPL TCG_TARGET_HAS_div_i64));
   DEF "rem_i64" 1 2 0 (Z.lor IMPL64 (IMPL TCG_TARGET_HAS_div_i64));
   DEF "remu_i64" 1 2 0 (Z.lor IMPL64 (IMPL TCG_TARGET_HAS_div_i64));
   DEF "div2_i64" 2 3 0 (Z.lor IMPL64 (IMPL TCG_TARGET_HAS_div2_i64));
   DEF "divu2_i64" 2 3 0 (Z.lor IMPL64 (IMPL TCG_TARGET_HAS_div2_i64));
   DEF "and_i64" 1 2 0 IMPL64;
   DEF "or_i64" 1 2 0 IMPL64;
   DEF "xor_i64" 1 2 0 IMPL64;
   DEF "shl_i64" 1 2 0 IMPL64;
   DEF "shr_i64" 1 2 0 IMPL64;
   DEF "sar_i64" 1 2 0 IMPL64;
   DEF "rotl_i64" 1 2 0 (Z.lor IMPL64 (IMPL TCG_TARGET_HAS_rot_i64));
   DEF "rotr_i64" 1 2 0 (Z.lor IMPL64 (IMPL TCG_TARGET_HAS_rot_i64));
   DEF "deposit_i64" 1 2 2 (Z.lor IMPL64 (IMPL TCG_TARGET_HAS_deposit_i64));
   DEF "brcond_i64" 0 2 2 (Z.lor (Z.lor TCG_OPF_BB_END TCG_OPF_SIDE_EFFECTS) IMPL64);
   DEF "ext8s_i64" 1 1 0 (Z.lor IMPL64 (IMPL TCG_TARGET_HAS_ext8s_i64));
   DEF "ext16s_i64" 1 1 0 (Z.lor IMPL64 (IMPL TCG_TARGET_HAS_ext16s_i64));
   DEF "ext32s_i64" 1 1 0 (Z.lor IMPL64 (IMPL TCG_TARGET_HAS_ext32s_i64));
   DEF "ext8u_i64" 1 1 0 (Z.lor IMPL64 (IMPL TCG_TARGET_HAS_ext8u_i64));
   DEF "ext16u_i64" 1 1 0 (Z.lor IMPL64 (IMPL TCG_TARGET_HAS_ext16u_i64));
   DEF "ext32u_i64" 1 1 0 (Z.lor IMPL64 (IMPL TCG_TARGET_HAS_ext32u_i64));
   DEF "bswap16_i64" 1 1 0 (Z.lor IMPL64 (IMPL TCG_TARGET_HAS_bswap16_i64));
   DEF "bswap32_i64" 1 1 0 (Z.lor IMPL64 (IMPL TCG_TARGET_HAS_bswap32_i64));
   DEF "bswap64_i64" 1 1 0 (Z.lor IMPL64 (IMPL TCG_TARGET_HAS_bswap64_i64));
   DEF "not_i64" 1 1 0 (Z.lor IMPL64 (IMPL TCG_TARGET_HAS_not_i64));
   DEF "neg_i64" 1 1 0 (Z.lor IMPL64 (IMPL TCG_TARGET_HAS_neg_i64));
   DEF "andc_i64" 1 2 0 (Z.lor IMPL64 (IMPL TCG_TARGET_HAS_andc_i64));
   DEF "orc_i64" 1 2 0 (Z.lor IMPL64 (IMPL TCG_TARGET_HAS_orc_i64));
   DEF "eqv_i64" 1 2 0 (Z.lor IMPL64 (IMPL TCG_TARGET_HAS_eqv_i64));
   DEF "nand_i64" 1 2 0 (Z.lor IMPL64 (IMPL TCG_TARGET_HAS_nand_i64));
   DEF "nor_i64" 1 2 0 (Z.lor IMPL64 (IMPL TCG_TARGET_HAS_nor_i64));
   DEF "debug_insn_start" 0 0 1 0;
   DEF "exit_tb" 0 0 1 (Z.lor TCG_OPF_BB_END TCG_OPF_SIDE_EFFECTS);
   DEF "goto_tb" 0 0 1 (Z.lor TCG_OPF_BB_END TCG_OPF_SIDE_EFFECTS);
   DEF "qemu_ld8u" 1 1 1 (Z.lor TCG_OPF_CALL_CLOBBER TCG_OPF_SIDE_EFFECTS);
   DEF "qemu_ld8s" 1 1 1 (Z.lor TCG_OPF_CALL_CLOBBER TCG_OPF_SIDE_EFFECTS);
   DEF "qemu_ld16u" 1 1 1 (Z.lor TCG_OPF_CALL_CLOBBER TCG_OPF_SIDE_EFFECTS);
   DEF "qemu_ld16s" 1 1 1 (Z.lor TCG_OPF_CALL_CLOBBER TCG_OPF_SIDE_EFFECTS);
   DEF "qemu_ld32" 1 1 1 (Z.lor TCG_OPF_CALL_CLOBBER TCG_OPF_SIDE_EFFECTS);
   DEF "qemu_ld32u" 1 1 1 (Z.lor TCG_OPF_CALL_CLOBBER TCG_OPF_SIDE_EFFECTS);
   DEF "qemu_ld32s" 1 1 1 (Z.lor TCG_OPF_CALL_CLOBBER TCG_OPF_SIDE_EFFECTS);
   DEF "qemu_ld64" 1 1 1 (Z.lor TCG_OPF_CALL_CLOBBER TCG_OPF_SIDE_EFFECTS);
   DEF "qemu_st8" 0 2 1 (Z.lor TCG_OPF_CALL_CLOBBER TCG_OPF_SIDE_EFFECTS);
   DEF "qemu_st16" 0 2 1 (Z.lor TCG_OPF_CALL_CLOBBER TCG_OPF_SIDE_EFFECTS);
   DEF "qemu_st32" 0 2 1 (Z.lor TCG_OPF_CALL_CLOBBER TCG_OPF_SIDE_EFFECTS);
   DEF "qemu_st64" 0 2 1 (Z.lor TCG_OPF_CALL_CLOBBER TCG_OPF_SIDE_EFFECTS)].

(** [INDEX_op_ ## name], or [NB_OPS] for a name that is not in the file. *)
Fixpoint index_in (l : list TCGOpDef) (s : string) : nat :=
  match l with
  | [] => 0
  | d :: l => if String.eqb (name d) s then 0%nat else S (index_in l s)
  end.

Definition INDEX_op : string -> nat := index_in tcg_op_defs.

Definition NB_OPS : nat := length tcg_op_defs.

Definition x86_table : OpTable :=
  {| op_flags opc := match tcg_op_defs !! opc with Some d => flags d | None => 0 end;
     INDEX_op_discard := INDEX_op "discard";
     INDEX_op_debug_insn_start := INDEX_op "debug_insn_start" |}.

Definition type_suffix (w : TCGType) : string :=
  match w with TCG_TYPE_I32 => "_i32" | TCG_TYPE_I64 => "_i64" end.

Definition unop_name (u : unop) : string :=
  match u with
  | op_not => "not" | op_neg => "neg" | op_ext8s => "ext8s" | op_ext8u => "ext8u" | op_ext16s => "ext16s"
  | op_ext16u => "ext16u" | op_ext32s => "ext32s" | op_ext32u => "ext32u"
  end.

Definition binop_name (b : binop) : string :=
  match b with
  | op_add => "add" | op_sub => "sub" | op_mul => "mul" | op_or => "or" | op_and => "and" | op_xor => "xor"
  | op_shl => "shl" | op_shr => "shr" | op_sar => "sar" | op_rotl => "rotl" | op_rotr => "rotr"
  | op_andc => "andc" | op_orc => "orc" | op_eqv => "eqv" | op_nand => "nand" | op_nor => "nor"
  end.

(** The opcode of an operation of a block. *)
Definition opcode (o : TCGOp) : nat :=
  match o with
  | op_nop => INDEX_op "nop"
  | op_mov w _ _ => INDEX_op ("mov" ++ type_suffix w)
  | op_movi w _ _ => INDEX_op ("movi" ++ type_suffix w)
  | op_un u w _ _ => INDEX_op (unop_name u ++ type_suffix w)
  | op_bin b w _ _ _ => INDEX_op (binop_name b ++ type_suffix w)
  | op_call _ _ _ => INDEX_op "call"
  | op_set_label _ => INDEX_op "set_label"
  | op_jmp _ => INDEX_op "jmp"
  | op_br _ => INDEX_op "br"
  | op_brcond w _ _ _ _ => INDEX_op ("brcond" ++ type_suffix w)
  | op_other opc _ _ _ _ => opc
  end.

(** ** Constraints *)

Definition TCG_CT_ALIAS : Z := 128.
Definition TCG_CT_IALIAS : Z := 64.
Definition TCG_CT_REG : Z := 1.
Definition TCG_CT_CONST : Z := 2.
Definition TCG_CT_CONST_S32 : Z := 256.
Definition TCG_CT_CONST_U32 : Z := 512.

Record ArgConstraint := mkArgCt { ct : Z; ct_alias_index : nat; u_regs : Z }.

#[global] Instance ArgConstraint_inhabited : Inhabited ArgConstraint := populate (mkArgCt 0 0 0).

Definition tcg_target_const_match (v : Z) (arg_ct : ArgConstraint) : bool :=
  let val := sint 64 v in
  has_flag (ct arg_ct) TCG_CT_CONST ||
  (has_flag (ct arg_ct) TCG_CT_CONST_S32 && (val =? sint 32 val)) ||
  (has_flag (ct arg_ct) TCG_CT_CONST_U32 && (val =? uint 32 val)).

(** What the allocator reads of a constraint. *)
Definition arg_ct_view (c : ArgConstraint) : TCGArgConstraint :=
  mkCt (has_flag (ct c) TCG_CT_ALIAS) (has_flag (ct c) TCG_CT_IALIAS) (ct_alias_index c) (u_regs c)
    (fun v => tcg_target_const_match v c).

(** *** The registers *)

Definition TCG_REG_EAX : nat := 0.
Definition TCG_REG_ECX : nat := 1.
Definition TCG_REG_EDX : nat := 2.
Definition TCG_REG_EBX : nat := 3.
Definition TCG_REG_ESP : nat := 4.
Definition TCG_REG_EBP : nat := 5.
Definition TCG_REG_ESI : nat := 6.
Definition TCG_REG_EDI : nat := 7.
Definition TCG_REG_R8 : nat := 8.
Definition TCG_REG_R9 : nat := 9.
Definition TCG_REG_R10 : nat := 10.
Definition TCG_REG_R11 : nat := 11.
Definition TCG_REG_R12 : nat := 12.
Definition TCG_REG_R13 : nat := 13.
Definition TCG_REG_R14 : nat := 14.
Definition TCG_REG_R15 : nat := 15.
Definition TCG_AREG0 : nat := TCG_REG_R14.

Definition tcg_regset_set32 (d : Z) (reg : nat) (val32 : Z) : Z := Z.lor d (Z.shiftl val32 (Z.of_nat reg)).
Definition tcg_regset_reset_reg (d : Z) (r : nat) : Z := Z.land d (Z.lnot (Z.shiftl 1 (Z.of_nat r))).

Definition ct_or (f : Z) (c : ArgConstraint) : ArgConstraint := mkArgCt (Z.lor (ct c) f) (ct_alias_index c) (u_regs c).
Definition ct_set_regs (r : Z) (c : ArgConstraint) : ArgConstraint :=
  mkArgCt (Z.lor (ct c) TCG_CT_REG) (ct_alias_index c) r.

Definition target_parse_constraint (c : ArgConstraint) (letter : ascii) : option ArgConstraint :=
  let reg r := Some (ct_set_regs (tcg_regset_set_reg (u_regs c) r) c) in
  let all := tcg_regset_set32 (u_regs c) 0 65535 in
  match letter with
  | "a" => reg TCG_REG_EAX
  | "b" => reg TCG_REG_EBX
  | "c" => reg TCG_REG_ECX
  | "d" => reg TCG_REG_EDX
  | "S" => reg TCG_REG_ESI
  | "D" => reg TCG_REG_EDI
  | "q" => Some (ct_set_regs all c)
  | "Q" => Some (ct_set_regs (tcg_regset_set32 (u_regs c) 0 15) c)
  | "r" => Some (ct_set_regs all c)
  | "L" => Some (ct_set_regs (tcg_regset_reset_reg (tcg_regset_reset_reg all TCG_REG_ESI) TCG_REG_EDI) c)
  | "e" => Some (ct_or TCG_CT_CONST_S32 c)
  | "Z" => Some (ct_or TCG_CT_CONST_U32 c)
  | _ => None
  end%char.

(** The letters of one argument. *)
Fixpoint parse_letters (s : string) (c : ArgConstraint) : option ArgConstraint :=
  match s with
  | EmptyString => Some c
  | String "i" s => parse_letters s (ct_or TCG_CT_CONST c)
  | String x s => c ← target_parse_constraint c x; parse_letters s c
  end.

Definition is_digit (c : ascii) : bool := (48 <=? nat_of_ascii c)%nat && (nat_of_ascii c <=? 57)%nat.

(** Argument number [i]. *)
Definition parse_arg (nb_oargs i : nat) (s : string) (args_ct : list ArgConstraint) : option (list ArgConstraint) :=
  let args_ct := <[i := mkArgCt 0 (ct_alias_index (args_ct !!! i)) 0]> args_ct in
  let letters := c ← parse_letters s (args_ct !!! i); Some (<[i := c]> args_ct) in
  match s with
  | String x _ =>
      if is_digit x then
        let oarg := (nat_of_ascii x - 48)%nat in
        let co := args_ct !!! oarg in
        if negb (oarg <? nb_oargs)%nat then None
        else if negb (has_flag (ct co) TCG_CT_REG) then None
        else
          let args_ct := <[oarg := mkArgCt TCG_CT_ALIAS i (u_regs co)]> args_ct in
          Some (<[i := mkArgCt (Z.lor (ct co) TCG_CT_IALIAS) oarg (u_regs co)]> args_ct)
      else letters
  | EmptyString => letters
  end.

Fixpoint parse_args (nb_oargs i : nat) (strs : list string) (args_ct : list ArgConstraint)
    : option (list ArgConstraint) :=
  match strs with
  | [] => Some args_ct
  | s :: strs => args_ct ← parse_arg nb_oargs i s args_ct; parse_args nb_oargs (S i) strs args_ct
  end.

(** *** The order of the arguments *)

Definition get_constraint_priority (args_ct : list ArgConstraint) (k : nat) : Z :=
  let c := args_ct !!! k in
  let prio n := 16 - n + 1 in
  if has_flag (ct c) TCG_CT_ALIAS then prio 1
  else if negb (has_flag (ct c) TCG_CT_REG) then 0
  else prio (Z.of_nat (length (filter (fun i => tcg_regset_test_reg (u_regs c) i = true) (seq 0 16)))).

(** The loop over [j]: the entry at [i] is exchanged with those of higher priority. *)
Fixpoint sort_inner (prio : nat -> Z) (i : nat) (js : list nat) (l : list nat) : list nat :=
  match js with
  | [] => l
  | j :: js =>
      let p1 := prio (l !!! i) in
      let p2 := prio (l !!! j) in
      sort_inner prio i js (if p1 <? p2 then <[j := l !!! i]> (<[i := l !!! j]> l) else l)
  end.

Fixpoint sort_outer (prio : nat -> Z) (n : nat) (ks : list nat) (l : list nat) : list nat :=
  match ks with
  | [] => l
  | i :: ks => sort_outer prio n ks (sort_inner prio i (seq (S i) (n - S i)) l)
  end.

(** [sorted_args[start .. start + n - 1]] *)
Definition sort_constraints (args_ct : list ArgConstraint) (start n : nat) : list nat :=
  if (n <=? 1)%nat then seq start n
  else sort_outer (get_constraint_priority args_ct) n (seq 0 (n - 1)) (seq start n).

(** *** The table of the target *)

Record OpConstraints := mkOpCt { op_args_ct : list ArgConstraint; op_sorted : list nat }.

Definition TCG_MAX_OP_ARGS : nat := 16.

Definition add_op_def (d : TCGOpDef) (strs : list string) : option OpConstraints :=
  let nb_args := (nb_iargs d + nb_oargs d)%nat in
  if negb (Nat.eqb (length strs) nb_args) || (TCG_MAX_OP_ARGS <? nb_args)%nat then None
  else
    args_ct ← parse_args (nb_oargs d) 0 strs (replicate nb_args (mkArgCt 0 0 0));
    Some (mkOpCt args_ct
      (sort_constraints args_ct 0 (nb_oargs d) ++ sort_constraints args_ct (nb_oargs d) (nb_iargs d))).

Fixpoint tcg_add_target_add_op_defs (tdefs : list (string * list string)) (tab : gmap nat OpConstraints)
    : option (gmap nat OpConstraints) :=
  match tdefs with
  | [] => Some tab
  | (n, strs) :: tdefs =>
      let op := INDEX_op n in
      d ← tcg_op_defs !! op;
      c ← add_op_def d strs;
      tcg_add_target_add_op_defs tdefs (<[op := c]> tab)
  end.

(** The checks of the debugging build: no operation has two entries, and exactly those that
    reach the back end have one. *)
Definition debug_op_defs (tdefs : list (string * list string)) : bool :=
  bool_decide (NoDup (INDEX_op ∘ fst <$> tdefs)) &&
  forallb (fun op =>
    let used := bool_decide (op ∈ (INDEX_op ∘ fst <$> tdefs)) in
    let absent := match tcg_op_defs !! op with Some d => has_flag (flags d) TCG_OPF_NOT_PRESENT | None => false end in
    if (op <? INDEX_op "call")%nat || Nat.eqb op (INDEX_op "debug_insn_start") || absent
    then negb used else used) (seq 0 NB_OPS).

Definition x86_op_defs : list (string * list string) :=
  [("exit_tb", []);
   ("goto_tb", []);
   ("call", ["ri"]);
   ("jmp", ["ri"]);
   ("br", []);
   ("mov_i32", ["r"; "r"]);
   ("movi_i32", ["r"]);
   ("ld8u_i32", ["r"; "r"]);
   ("ld8s_i32", ["r"; "r"]);
   ("ld16u_i32", ["r"; "r"]);
   ("ld16s_i32", ["r"; "r"]);
   ("ld_i32", ["r"; "r"]);
   ("st8_i32", ["q"; "r"]);
   ("st16_i32", ["r"; "r"]);
   ("st_i32", ["r"; "r"]);
   ("add_i32", ["r"; "r"; "ri"]);
   ("sub_i32", ["r"; "0"; "ri"]);
   ("mul_i32", ["r"; "0"; "ri"]);
   ("div2_i32", ["a"; "d"; "0"; "1"; "r"]);
   ("divu2_i32", ["a"; "d"; "0"; "1"; "r"]);
   ("and_i32", ["r"; "0"; "ri"]);
   ("or_i32", ["r"; "0"; "ri"]);
   ("xor_i32", ["r"; "0"; "ri"]);
   ("shl_i32", ["r"; "0"; "ci"]);
   ("shr_i32", ["r"; "0"; "ci"]);
   ("sar_i32", ["r"; "0"; "ci"]);
   ("rotl_i32", ["r"; "0"; "ci"]);
   ("rotr_i32", ["r"; "0"; "ci"]);
   ("brcond_i32", ["r"; "ri"]);
   ("bswap16_i32", ["r"; "0"]);
   ("bswap32_i32", ["r"; "0"]);
   ("neg_i32", ["r"; "0"]);
   ("not_i32", ["r"; "0"]);
   ("ext8s_i32", ["r"; "q"]);
   ("ext16s_i32", ["r"; "r"]);
   ("ext8u_i32", ["r"; "q"]);
   ("ext16u_i32", ["r"; "r"]);
   ("setcond_i32", ["q"; "r"; "ri"]);
   ("deposit_i32", ["Q"; "0"; "Q"]);
   ("mov_i64", ["r"; "r"]);
   ("movi_i64", ["r"]);
   ("ld8u_i64", ["r"; "r"]);
   ("ld8s_i64", ["r"; "r"]);
   ("ld16u_i64", ["r"; "r"]);
   ("ld16s_i64", ["r"; "r"]);
   ("ld32u_i64", ["r"; "r"]);
   ("ld32s_i64", ["r"; "r"]);
   ("ld_i64", ["r"; "r"]);
   ("st8_i64", ["r"; "r"]);
   ("st16_i64", ["r"; "r"]);
   ("st32_i64", ["r"; "r"]);
   ("st_i64", ["r"; "r"]);
   ("add_i64", ["r"; "0"; "re"]);
   ("mul_i64", ["r"; "0"; "re"]);
   ("div2_i64", ["a"; "d"; "0"; "1"; "r"]);
   ("divu2_i64", ["a"; "d"; "0"; "1"; "r"]);
   ("sub_i64", ["r"; "0"; "re"]);
   ("and_i64", ["r"; "0"; "reZ"]);
   ("or_i64", ["r"; "0"; "re"]);
   ("xor_i64", ["r"; "0"; "re"]);
   ("shl_i64", ["r"; "0"; "ci"]);
   ("shr_i64", ["r"; "0"; "ci"]);
   ("sar_i64", ["r"; "0"; "ci"]);
   ("rotl_i64", ["r"; "0"; "ci"]);
   ("rotr_i64", ["r"; "0"; "ci"]);
   ("brcond_i64", ["r"; "re"]);
   ("setcond_i64", ["r"; "r"; "re"]);
   ("bswap16_i64", ["r"; "0"]);
   ("bswap32_i64", ["r"; "0"]);
   ("bswap64_i64", ["r"; "0"]);
   ("neg_i64", ["r"; "0"]);
   ("not_i64", ["r"; "0"]);
   ("ext8s_i64", ["r"; "r"]);
   ("ext16s_i64", ["r"; "r"]);
   ("ext32s_i64", ["r"; "r"]);
   ("ext8u_i64", ["r"; "r"]);
   ("ext16u_i64", ["r"; "r"]);
   ("ext32u_i64", ["r"; "r"]);
   ("deposit_i64", ["Q"; "0"; "Q"]);
   ("qemu_ld8u", ["r"; "L"]);
   ("qemu_ld8s", ["r"; "L"]);
   ("qemu_ld16u", ["r"; "L"]);
   ("qemu_ld16s", ["r"; "L"]);
   ("qemu_ld32", ["r"; "L"]);
   ("qemu_ld32u", ["r"; "L"]);
   ("qemu_ld32s", ["r"; "L"]);
   ("qemu_ld64", ["r"; "L"]);
   ("qemu_st8", ["L"; "L"]);
   ("qemu_st16", ["L"; "L"]);
   ("qemu_st32", ["L"; "L"]);
   ("qemu_st64", ["L"; "L"])].

Definition x86_constraints : gmap nat OpConstraints := default ∅ (tcg_add_target_add_op_defs x86_op_defs ∅).

(** ** The host *)

Definition TCG_STATIC_CALL_ARGS : Z := 128.
Definition CPU_TEMP_BUF_NLONGS : Z := 128.

Definition x86_call_clobber_regs : Z :=
  fold_left tcg_regset_set_reg
    [TCG_REG_EAX; TCG_REG_EDX; TCG_REG_ECX; TCG_REG_EDI; TCG_REG_ESI; TCG_REG_R8; TCG_REG_R9; TCG_REG_R10; TCG_REG_R11] 0.

Definition x86_reg_alloc_order : list nat :=
  [TCG_REG_EBP; TCG_REG_EBX; TCG_REG_R12; TCG_REG_R13; TCG_REG_R14; TCG_REG_R15; TCG_REG_R10; TCG_REG_R11;
   TCG_REG_R9; TCG_REG_R8; TCG_REG_ECX; TCG_REG_EDX; TCG_REG_ESI; TCG_REG_EDI; TCG_REG_EAX].

Definition x86_call_iarg_regs : list nat :=
  [TCG_REG_EDI; TCG_REG_ESI; TCG_REG_EDX; TCG_REG_ECX; TCG_REG_R8; TCG_REG_R9].

(** [tcg_target_init]; [tcg_set_frame] is called with the stack pointer by
    [tcg_target_qemu_prologue]. *)
Definition x86_reserved_regs : Z := tcg_regset_set_reg 0 TCG_REG_ESP.

(** The target once globals have reserved their registers. *)
Definition x86_target (reserved : Z) : Target :=
  {| TCG_TARGET_NB_REGS := 16;
     tcg_target_reg_alloc_order := x86_reg_alloc_order;
     tcg_target_available_regs _ := tcg_regset_set32 0 0 65535;
     tcg_target_call_clobber_regs := x86_call_clobber_regs;
     reserved_regs := reserved;
     tcg_target_call_iarg_regs := x86_call_iarg_regs;
     tcg_target_get_call_iarg_regs_count _ := 6%nat;
     tcg_target_call_oarg_regs := [TCG_REG_EAX];
     args_ct o i :=
       arg_ct_view match x86_constraints !! opcode o with Some c => op_args_ct c !!! i | None => mkArgCt 0 0 0 end;
     sorted_args o := match x86_constraints !! opcode o with Some c => op_sorted c | None => [] end;
     TCG_TARGET_HAS o := negb (has_flag (op_flags x86_table (opcode o)) TCG_OPF_NOT_PRESENT);
     frame_reg := TCG_REG_ESP;
     frame_start := TCG_STATIC_CALL_ARGS;
     frame_end := TCG_STATIC_CALL_ARGS + CPU_TEMP_BUF_NLONGS * 8;
     TCG_REG_CALL_STACK := TCG_REG_ESP;
     TCG_TARGET_CALL_STACK_OFFSET := 0;
     TCG_TARGET_STACK_ALIGN := 16;
     TCG_STATIC_CALL_ARGS_SIZE := TCG_STATIC_CALL_ARGS |}.

(** ** The reader of the table *)

Lemma has_flag_lor a b f : has_flag (Z.lor a b) f = has_flag a f || has_flag b f.
Proof.
  unfold has_flag. rewrite Z.land_lor_distr_l.
  destruct (Z.land a f =? 0) eqn:Ea, (Z.land b f =? 0) eqn:Eb; cbn [negb orb]; rewrite ?Z.eqb_eq, ?Z.eqb_neq in *.
  - by rewrite Ea, Eb.
  - rewrite Ea, Z.lor_0_l. by apply negb_true_iff, Z.eqb_neq.
  - apply negb_true_iff, Z.eqb_neq. by intros [? _]%Z.lor_eq_0_iff.
  - apply negb_true_iff, Z.eqb_neq. by intros [? _]%Z.lor_eq_0_iff.
Qed.

Definition is_alias (c : ArgConstraint) : bool := has_flag (ct c) TCG_CT_ALIAS.
Definition is_ialias (c : ArgConstraint) : bool := has_flag (ct c) TCG_CT_IALIAS.

(** Letters never make an alias. *)
Lemma parse_letters_alias s c c' : parse_letters s c = Some c' -> is_alias c' = is_alias c /\ is_ialias c' = is_ialias c.
Proof.
  revert c c'. induction s as [|x s IH]; intros c c'; [by intros [= <-]|].
  assert (forall c1, target_parse_constraint c x = Some c1 -> is_alias c1 = is_alias c /\ is_ialias c1 = is_ialias c) as Hp.
  { intros c1. unfold target_parse_constraint, is_alias, is_ialias.
    destruct x as [[] [] [] [] [] [] [] []]; try done; intros [= <-]; unfold ct_set_regs, ct_or; cbn [ct];
      rewrite !has_flag_lor; split; apply orb_false_r. }
  assert (forall r, (c1 ← target_parse_constraint c x; parse_letters s c1) = Some r ->
    is_alias r = is_alias c /\ is_ialias r = is_ialias c) as Hl.
  { intros r (c1 & E1 & E2)%bind_Some. destruct (Hp c1 E1) as [<- <-]. by apply IH. }
  cbn [parse_letters]. destruct x as [[] [] [] [] [] [] [] []]; try apply Hl.
  intros E. destruct (IH _ _ E) as [-> ->]. unfold is_alias, is_ialias, ct_or. cbn [ct].
  rewrite !has_flag_lor. split; apply orb_false_r.
Qed.

Definition starts_with_digit (s : string) : bool := match s with String x _ => is_digit x | EmptyString => false end.

(** The constraints read so far, for arguments 0 to [i - 1]: a tied output names an input and
    that input names it. *)
Record aliases_ok (n i : nat) (cs : list ArgConstraint) : Prop := {
  al_free k : (i <= k)%nat -> is_alias (cs !!! k) = false /\ is_ialias (cs !!! k) = false;
  al_out k : is_alias (cs !!! k) = true -> ct (cs !!! k) = TCG_CT_ALIAS /\ (k < n)%nat /\
    (n <= ct_alias_index (cs !!! k) < i)%nat /\ is_ialias (cs !!! ct_alias_index (cs !!! k)) = true /\
    ct_alias_index (cs !!! ct_alias_index (cs !!! k)) = k;
  al_in k : is_ialias (cs !!! k) = true -> (n <= k)%nat /\ (ct_alias_index (cs !!! k) < n)%nat }.

Lemma insert_total {A} `{Inhabited A} (l : list A) i k (x : A) : (i < length l)%nat ->
  <[i := x]> l !!! k = if decide (k = i) then x else l !!! k.
Proof.
  intros Hi. rewrite list_lookup_total_insert. repeat case_decide; naive_solver.
Qed.

(** An argument given by letters keeps the ties. *)
Lemma aliases_letters n i cs c : (i < length cs)%nat -> aliases_ok n i cs -> is_alias c = false -> is_ialias c = false ->
  aliases_ok n (S i) (<[i := c]> cs).
Proof.
  intros Hi [Hf Ho Hin] Ha Hb. destruct (Hf i ltac:(lia)) as [Hfa Hfb]. split.
  - intros k Hk. rewrite insert_total by done. destruct (decide (k = i)); [lia|]. apply Hf. lia.
  - intros k. rewrite (insert_total cs i k) by done. destruct (decide (k = i)) as [->|Hk]; [by rewrite Ha|].
    intros Hk'. destruct (Ho k Hk') as (E1 & E2 & E3 & E4 & E5). rewrite insert_total by done.
    destruct (decide _); [lia|]. split_and!; try done; lia.
  - intros k. rewrite insert_total by done. destruct (decide (k = i)) as [->|Hk]; [by rewrite Hb|]. apply Hin.
Qed.

(** An input tied to an output. *)
Lemma aliases_tie n i cs oarg : (i < length cs)%nat -> (n <= i)%nat -> (oarg < n)%nat -> aliases_ok n i cs ->
  has_flag (ct (cs !!! oarg)) TCG_CT_REG = true ->
  aliases_ok n (S i) (<[i := mkArgCt (Z.lor (ct (cs !!! oarg)) TCG_CT_IALIAS) oarg (u_regs (cs !!! oarg))]>
    (<[oarg := mkArgCt TCG_CT_ALIAS i (u_regs (cs !!! oarg))]> cs)).
Proof.
  intros Hi Hni Hon [Hf Ho Hin] Hreg.
  assert (is_alias (cs !!! oarg) = false) as Hna.
  { destruct (is_alias (cs !!! oarg)) eqn:E; [|done]. destruct (Ho _ E) as (Ec & _). by rewrite Ec in Hreg. }
  set (ci := mkArgCt _ oarg _). set (co := mkArgCt TCG_CT_ALIAS i _).
  assert (is_alias ci = false) as Hci.
  { unfold is_alias, ci. cbn [ct]. rewrite has_flag_lor. unfold is_alias in Hna. by rewrite Hna. }
  assert (is_ialias ci = true) as Hci'.
  { unfold is_ialias, ci. cbn [ct]. rewrite has_flag_lor. apply orb_true_r. }
  assert (forall k, <[i := ci]> (<[oarg := co]> cs) !!! k =
    if decide (k = i) then ci else if decide (k = oarg) then co else cs !!! k) as E.
  { intros k. rewrite insert_total by (rewrite length_insert; lia). destruct (decide (k = i)); [done|].
    apply insert_total. lia. }
  split.
  - intros k Hk. rewrite E, !decide_False by lia. apply Hf. lia.
  - intros k. rewrite (E k). destruct (decide (k = i)) as [->|Hki]; [by rewrite Hci|].
    destruct (decide (k = oarg)) as [->|Hko].
    + intros _. cbn [co ct ct_alias_index]. rewrite E, decide_True by done. split_and!; try done; lia.
    + intros Hk. destruct (Ho k Hk) as (E1 & E2 & E3 & E4 & E5). rewrite E, !decide_False by lia.
      split_and!; try done; lia.
  - intros k. rewrite (E k). destruct (decide (k = i)) as [->|Hki]; [by cbn|].
    destruct (decide (k = oarg)) as [->|Hko]; [done|]. apply Hin.
Qed.

Lemma parse_arg_ok n i s cs cs' : (i < length cs)%nat -> ((i < n)%nat -> starts_with_digit s = false) ->
  aliases_ok n i cs -> parse_arg n i s cs = Some cs' -> length cs' = length cs /\ aliases_ok n (S i) cs'.
Proof.
  intros Hi Hs HA E. unfold parse_arg in E.
  set (cs0 := <[i := mkArgCt 0 (ct_alias_index (cs !!! i)) 0]> cs) in E.
  assert (length cs0 = length cs) as Hl by apply length_insert.
  assert (aliases_ok n i cs0) as HA0.
  { pose proof (aliases_letters n i cs (mkArgCt 0 (ct_alias_index (cs !!! i)) 0) Hi HA eq_refl eq_refl) as HA'.
    fold cs0 in HA'. destruct HA' as [Hf Ho Hin]. split; [|..|done].
    - intros k Hk. destruct (decide (k = i)) as [->|]; [|apply Hf; lia].
      unfold cs0. by rewrite insert_total, decide_True.
    - intros k Hk. destruct (Ho k Hk) as (E1 & E2 & E3 & E4 & E5). split_and!; try done; [lia|].
      destruct (decide (ct_alias_index (cs0 !!! k) = i)) as [Hx|]; [|lia]. rewrite Hx in E4. unfold cs0 in E4.
      by rewrite insert_total, decide_True in E4. }
  assert (forall c', parse_letters s (cs0 !!! i) = Some c' -> length (<[i := c']> cs0) = length cs /\
    aliases_ok n (S i) (<[i := c']> cs0)) as Hlet.
  { intros c' Ec. rewrite length_insert. split; [done|]. destruct (parse_letters_alias _ _ _ Ec) as [E1 E2].
    destruct (al_free _ _ _ HA0 i ltac:(lia)) as [E3 E4]. apply aliases_letters; [lia|done|congruence..]. }
  destruct s as [|x s]; [apply bind_Some in E as (c' & Ec & [= <-]); by apply Hlet|].
  destruct (is_digit x) eqn:Ed; [|apply bind_Some in E as (c' & Ec & [= <-]); by apply Hlet].
  assert (n <= i)%nat as Hni.
  { destruct (decide (i < n)%nat) as [Hlt|]; [|lia]. specialize (Hs Hlt). cbn in Hs. congruence. }
  destruct (_ <? n)%nat eqn:Hon in E; [|done]. apply Nat.ltb_lt in Hon. cbn [negb] in E.
  destruct (has_flag _ TCG_CT_REG) eqn:Hr in E; [|done]. injection E as <-.
  rewrite !length_insert. split; [done|]. apply aliases_tie; [lia|done..].
Qed.

Lemma parse_args_ok n strs i cs cs' : (i + length strs <= length cs)%nat ->
  (forall k s, strs !! k = Some s -> (i + k < n)%nat -> starts_with_digit s = false) ->
  aliases_ok n i cs -> parse_args n i strs cs = Some cs' ->
  length cs' = length cs /\ aliases_ok n (i + length strs) cs'.
Proof.
  revert i cs. induction strs as [|s strs IH]; intros i cs Hl Hs HA E.
  { injection E as <-. cbn. by rewrite Nat.add_0_r. }
  cbn in E, Hl. apply bind_Some in E as (c1 & E1 & E2).
  destruct (parse_arg_ok n i s cs c1 ltac:(lia) ltac:(intros; apply (Hs 0%nat); [done|lia]) HA E1) as [Hl1 HA1].
  destruct (IH (S i) c1 ltac:(lia) ltac:(intros k s' Hk Hn; apply (Hs (S k) s' Hk); lia) HA1 E2) as [Hl2 HA2].
  split; [lia|]. cbn. by rewrite Nat.add_succ_r.
Qed.

(** ** The sort *)

Lemma StronglySorted_impl {A} (R S : A -> A -> Prop) l : (forall x y, R x y -> S x y) -> StronglySorted R l -> StronglySorted S l.
Proof. intros HRS. induction 1 as [|x l HS IH HF]; constructor; [done|]. eapply Forall_impl; [exact HF|]. intros y. apply HRS. Qed.

Lemma delete_insert_same {A} (l : list A) i x : delete i (<[i := x]> l) = delete i l.
Proof. revert i. induction l as [|y l IH]; intros [|i]; try done. cbn. f_equal. apply IH. Qed.

Lemma swap_perm {A} `{Inhabited A} (l : list A) i j : (i < length l)%nat -> (j < length l)%nat -> i <> j ->
  <[j := l !!! i]> (<[i := l !!! j]> l) ≡ₚ l.
Proof.
  intros Hi Hj Hij. pose proof (list_lookup_lookup_total_lt l i Hi) as Ei. pose proof (list_lookup_lookup_total_lt l j Hj) as Ej.
  set (m := <[i := l !!! j]> l).
  assert (m !! i = Some (l !!! j)) as Emi by (by apply list_lookup_insert_eq).
  assert (m !! j = Some (l !!! j)) as Emj by (unfold m; by rewrite list_lookup_insert_ne).
  assert (<[j := l !!! i]> m !! j = Some (l !!! i)) as Emm by (apply list_lookup_insert_eq; unfold m; by rewrite length_insert).
  etrans; [apply (delete_Permutation _ _ _ Emm)|]. rewrite delete_insert_same.
  etrans; [|symmetry; apply (delete_Permutation l i _ Ei)]. apply Permutation_skip, (Permutation_cons_inv (a := l !!! j)).
  etrans; [symmetry; apply (delete_Permutation _ _ _ Emj)|]. etrans; [apply (delete_Permutation _ _ _ Emi)|].
  unfold m. by rewrite delete_insert_same.
Qed.

Section Sort.
Context (prio : nat -> Z).

Lemma sort_inner_spec i : forall js l, NoDup js -> (i < length l)%nat -> (forall j, j ∈ js -> (i < j < length l)%nat) ->
  let l' := sort_inner prio i js l in
  l' ≡ₚ l /\ (forall k, k <> i -> k ∉ js -> l' !!! k = l !!! k) /\ prio (l !!! i) <= prio (l' !!! i) /\
  (forall j, j ∈ js -> prio (l' !!! j) <= prio (l' !!! i)).
Proof.
  induction js as [|j js IH]; intros l Hnd Hi Hjs.
  { cbn. split_and!; try done. intros j Hj. by apply not_elem_of_nil in Hj. }
  apply NoDup_cons in Hnd as [Hj Hnd]. pose proof (Hjs j ltac:(left)) as Hj'. cbn [sort_inner].
  set (l1 := if _ <? _ then _ else _).
  assert (length l1 = length l) as Hl1 by (unfold l1; destruct (_ <? _); by rewrite ?length_insert).
  assert (forall k, k <> i -> k <> j -> l1 !!! k = l !!! k) as Hk.
  { intros k Hki Hkj. unfold l1. destruct (_ <? _); [|done].
    rewrite !insert_total by (rewrite ?length_insert; lia). by rewrite !decide_False by done. }
  assert (prio (l !!! i) <= prio (l1 !!! i) /\ prio (l1 !!! j) <= prio (l1 !!! i)) as [Hp1 Hp2].
  { unfold l1. destruct (_ <? _) eqn:E; [|lia]. apply Z.ltb_lt in E.
    rewrite !insert_total by (rewrite ?length_insert; lia). repeat case_decide; lia. }
  assert (l1 ≡ₚ l) as HP by (unfold l1; destruct (_ <? _); [apply swap_perm; lia|done]).
  destruct (IH l1 Hnd ltac:(lia) ltac:(intros x Hx; rewrite Hl1; apply Hjs; by right)) as (P1 & P2 & P3 & P4).
  cbn zeta. split_and!.
  - by rewrite P1.
  - intros k Hki [Hkj Hkjs]%not_elem_of_cons. by rewrite P2, Hk.
  - lia.
  - intros x [->|Hx]%elem_of_cons; [|by apply P4]. rewrite P2; [lia|lia|done].
Qed.

(** The entries from [a] on are no larger than the one at [a]. *)
Definition max_at (l : list nat) (a : nat) : Prop :=
  forall b, (a < b < length l)%nat -> prio (l !!! b) <= prio (l !!! a).

Lemma max_at_perm l l' i a : l' ≡ₚ l -> (a < i)%nat -> (i <= length l)%nat ->
  (forall k, (k < i)%nat -> l' !!! k = l !!! k) -> max_at l a -> max_at l' a.
Proof.
  intros HP Hai Hi Hk HM b Hb. pose proof (Permutation_length HP) as Hlen. rewrite (Hk a Hai).
  destruct (decide (b < i)%nat); [rewrite (Hk b) by done; apply HM; lia|].
  assert (take i l' = take i l) as Et.
  { apply list_eq. intros k. destruct (decide (k < i)%nat).
    - rewrite !lookup_take_lt, !list_lookup_lookup_total_lt by lia. by rewrite Hk.
    - by rewrite !lookup_take_ge by lia. }
  assert (drop i l' ≡ₚ drop i l) as Ed.
  { apply (Permutation_app_inv_l (take i l)). rewrite <- Et at 1. by rewrite !take_drop. }
  assert (l' !!! b ∈ drop i l') as Hin.
  { apply list_elem_of_lookup. exists (b - i)%nat. rewrite lookup_drop. replace (i + (b - i))%nat with b by lia.
    apply list_lookup_lookup_total_lt. lia. }
  rewrite Ed in Hin. apply list_elem_of_lookup in Hin as (k & Hk'). rewrite lookup_drop in Hk'.
  pose proof (lookup_lt_Some _ _ _ Hk'). rewrite <- (list_lookup_total_correct _ _ _ Hk'). apply HM. lia.
Qed.

Lemma sort_outer_spec n : forall m i l, length l = n -> (i + m < n)%nat -> (forall a, (a < i)%nat -> max_at l a) ->
  let l' := sort_outer prio n (seq i m) l in l' ≡ₚ l /\ (forall a, (a < i + m)%nat -> max_at l' a).
Proof.
  induction m as [|m IH]; intros i l Hl Him HM; cbn zeta.
  { cbn. split; [done|]. intros a Ha. apply HM. lia. }
  cbn [seq sort_outer]. set (l1 := sort_inner _ _ _ _).
  destruct (sort_inner_spec i (seq (S i) (n - S i)) l (NoDup_seq _ _) ltac:(lia)
    ltac:(intros j Hj%elem_of_seq; lia)) as (P1 & P2 & _ & P4). fold l1 in P1, P2, P4.
  pose proof (Permutation_length P1) as Hl1.
  destruct (IH (S i) l1 ltac:(lia) ltac:(lia)) as [Q1 Q2].
  { intros a Ha. destruct (decide (a = i)) as [->|].
    - intros b Hb. apply P4, elem_of_seq. lia.
    - apply (max_at_perm l l1 i); [done|lia|lia| |apply HM; lia].
      intros k Hk. apply P2; [lia|]. rewrite elem_of_seq. lia. }
  split; [by rewrite Q1|]. intros a Ha. apply Q2. lia.
Qed.

End Sort.

Lemma sort_constraints_spec cs start n :
  sort_constraints cs start n ≡ₚ seq start n /\ forall a, max_at (get_constraint_priority cs) (sort_constraints cs start n) a.
Proof.
  unfold sort_constraints. destruct (n <=? 1)%nat eqn:E.
  { apply Nat.leb_le in E. split; [done|]. intros a b Hb. rewrite length_seq in Hb. lia. }
  apply Nat.leb_gt in E.
  destruct (sort_outer_spec (get_constraint_priority cs) n (n - 1) 0 (seq start n) ltac:(by rewrite length_seq) ltac:(lia)
    ltac:(intros; lia)) as [P1 P2].
  split; [done|]. intros a b Hb. pose proof (Permutation_length P1) as Hl. rewrite length_seq in Hl.
  apply P2; lia.
Qed.

(** What an entry of the table becomes. *)
Record entry_good (d : TCGOpDef) (c : OpConstraints) : Prop := {
  eg_length : length (op_args_ct c) = (nb_oargs d + nb_iargs d)%nat;
  eg_outs : take (nb_oargs d) (op_sorted c) ≡ₚ seq 0 (nb_oargs d);
  eg_ins : drop (nb_oargs d) (op_sorted c) ≡ₚ seq (nb_oargs d) (nb_iargs d);
  eg_outs_order a : max_at (get_constraint_priority (op_args_ct c)) (take (nb_oargs d) (op_sorted c)) a;
  eg_ins_order a : max_at (get_constraint_priority (op_args_ct c)) (drop (nb_oargs d) (op_sorted c)) a;
  eg_aliases : aliases_ok (nb_oargs d) (nb_oargs d + nb_iargs d) (op_args_ct c) }.

Definition letters_out (d : TCGOpDef) (strs : list string) : bool :=
  forallb (fun s => negb (starts_with_digit s)) (take (nb_oargs d) strs).

Lemma add_op_def_good d strs c : letters_out d strs = true -> add_op_def d strs = Some c -> entry_good d c.
Proof.
  intros Hlet E. unfold add_op_def in E. destruct (_ || _) eqn:Ec in E; [done|].
  apply orb_false_iff in Ec as [Hn _]. apply negb_false_iff, Nat.eqb_eq in Hn.
  apply bind_Some in E as (cs & Ecs & [= <-]).
  assert (forall m k, replicate m (mkArgCt 0 0 0) !!! k = mkArgCt 0 0 0) as Hrep.
  { intros m k. rewrite list_lookup_total_alt. destruct (replicate m _ !! k) eqn:Ek; [|done].
    by apply lookup_replicate in Ek as [-> _]. }
  destruct (parse_args_ok (nb_oargs d) strs 0 (replicate (nb_iargs d + nb_oargs d) (mkArgCt 0 0 0)) cs) as [Hl HA]; [..|done|].
  { rewrite length_replicate. lia. }
  { intros k s Hk Hlt. assert (s ∈ take (nb_oargs d) strs) as Hin.
    { apply list_elem_of_lookup. exists k. by rewrite lookup_take_lt by lia. }
    by apply negb_true_iff, (forallb_elem _ _ _ Hlet). }
  { split; intros k; rewrite Hrep; done. }
  rewrite length_replicate in Hl. cbn in HA. rewrite Hn, Nat.add_comm in HA.
  destruct (sort_constraints_spec cs 0 (nb_oargs d)) as [P1 P2].
  destruct (sort_constraints_spec cs (nb_oargs d) (nb_iargs d)) as [P3 P4].
  pose proof (Permutation_length P1) as Hl1. rewrite length_seq in Hl1.
  split; cbn [op_args_ct op_sorted]; rewrite ?take_app_length', ?drop_app_length' by done; try done. lia.
Qed.

#[local] Opaque INDEX_op tcg_op_defs x86_constraints.

(** The whole table. *)
Lemma add_op_defs_good tdefs : forall tab0 tab, tcg_add_target_add_op_defs tdefs tab0 = Some tab ->
  (forall n strs d, (n, strs) ∈ tdefs -> tcg_op_defs !! INDEX_op n = Some d -> letters_out d strs = true) ->
  (forall op c, tab !! op = Some c -> tab0 !! op = Some c \/ exists d, tcg_op_defs !! op = Some d /\ entry_good d c) /\
  (forall op, op ∈ (INDEX_op ∘ fst <$> tdefs) \/ is_Some (tab0 !! op) -> is_Some (tab !! op)).
Proof.
  induction tdefs as [|[n strs] tdefs IH]; intros tab0 tab E Hlet.
  { injection E as <-. split; [by left|]. intros op [Hx|?]; [by apply not_elem_of_nil in Hx|done]. }
  cbn in E. apply bind_Some in E as (d & Ed & E). apply bind_Some in E as (c & Ec & E).
  destruct (IH _ _ E ltac:(intros n' s' d' Hin; apply Hlet; by right)) as [H1 H2]. split.
  - intros op c' Hc. destruct (H1 op c' Hc) as [Hc'|?]; [|by right].
    destruct (decide (op = INDEX_op n)) as [->|Hne]; [|rewrite lookup_insert_ne in Hc' by done; by left].
    rewrite lookup_insert_eq in Hc'. injection Hc' as <-. right. exists d. split; [done|].
    apply (add_op_def_good d strs); [|done]. apply (Hlet n); [left|done].
  - intros op Hop. apply H2. destruct (decide (op = INDEX_op n)) as [->|Hne]; [right; by rewrite lookup_insert_eq|].
    rewrite lookup_insert_ne by done. rewrite fmap_cons, elem_of_cons in Hop. cbn in Hop. naive_solver.
Qed.

(** ** The x86-64 host *)

Definition letters_outs (tdefs : list (string * list string)) : bool :=
  forallb (fun p => match tcg_op_defs !! INDEX_op (fst p) with Some d => letters_out d (snd p) | None => true end) tdefs.

Lemma letters_outs_spec tdefs n strs d : letters_outs tdefs = true -> (n, strs) ∈ tdefs ->
  tcg_op_defs !! INDEX_op n = Some d -> letters_out d strs = true.
Proof. intros H Hin E. pose proof (forallb_elem _ _ _ H Hin) as Hx. cbn [fst snd] in Hx. by rewrite E in Hx. Qed.

Lemma x86_read : tcg_add_target_add_op_defs x86_op_defs ∅ = Some x86_constraints.
Proof.
  Transparent x86_constraints. unfold x86_constraints. destruct (tcg_add_target_add_op_defs x86_op_defs ∅) eqn:E; [done|].
  assert (is_Some (tcg_add_target_add_op_defs x86_op_defs ∅)) as [? Hx] by (vm_compute; eauto). congruence.
Qed.

Lemma x86_entries : (forall op c, x86_constraints !! op = Some c -> exists d, tcg_op_defs !! op = Some d /\ entry_good d c) /\
  (forall op, op ∈ (INDEX_op ∘ fst <$> x86_op_defs) -> is_Some (x86_constraints !! op)).
Proof.
  destruct (add_op_defs_good _ _ _ x86_read) as [H1 H2].
  { intros n strs d. apply letters_outs_spec. vm_compute. reflexivity. }
  split; [|intros op Hop; apply H2; by left]. intros op c Hc. by destruct (H1 op c Hc) as [|].
Qed.

(** Every operation that reaches the back end has constraints. *)
Lemma x86_present op d : tcg_op_defs !! op = Some d -> has_flag (flags d) TCG_OPF_NOT_PRESENT = false ->
  (INDEX_op "call" <= op)%nat -> op <> INDEX_op "debug_insn_start" -> is_Some (x86_constraints !! op).
Proof.
  intros Hd Hp Hc Hn. apply x86_entries. assert (debug_op_defs x86_op_defs = true) as HD by (vm_compute; reflexivity).
  apply andb_prop in HD as [_ HD]. rewrite forallb_forall in HD. specialize (HD op).
  assert (op < NB_OPS)%nat as Hlt by (by apply lookup_lt_Some in Hd).
  specialize (HD ltac:(apply list_elem_of_In, elem_of_seq; lia)). cbn beta zeta in HD. rewrite Hd, Hp in HD.
  rewrite (proj2 (Nat.ltb_ge _ _) Hc), (proj2 (Nat.eqb_neq _ _) Hn) in HD. by apply bool_decide_eq_true_1 in HD.
Qed.

(** The operation has the arguments of its definition, which for a call may be any; the
    opcodes in front of [call] are those the allocator handles itself, which the model gives
    constructors or leaves out. *)
Definition arity_ok (o : TCGOp) : bool :=
  match o with
  | op_call _ _ _ => true
  | _ =>
      match tcg_op_defs !! opcode o with
      | Some d => Nat.eqb (length (oargs o)) (nb_oargs d) && Nat.eqb (length (iargs o)) (nb_iargs d)
      | None => false
      end
  end &&
  match o with
  | op_other opc _ _ _ _ => (INDEX_op "call" <? opc)%nat || Nat.eqb opc (INDEX_op "discard")
  | _ => true
  end.

(** Tied outputs are placed before the others. *)
Definition tied_first (p : nat * OpConstraints) : bool :=
  match tcg_op_defs !! fst p with
  | Some d =>
      let al i := is_alias (op_args_ct (snd p) !!! i) in
      bool_decide (StronglySorted (fun i j => al j = true -> al i = true) (take (nb_oargs d) (op_sorted (snd p))))
  | None => true
  end.

Lemma x86_tied op c d : x86_constraints !! op = Some c -> tcg_op_defs !! op = Some d ->
  StronglySorted (fun i j => is_alias (op_args_ct c !!! j) = true -> is_alias (op_args_ct c !!! i) = true)
    (take (nb_oargs d) (op_sorted c)).
Proof.
  intros Hc Hd. assert (forallb tied_first (map_to_list x86_constraints) = true) as HT by (vm_compute; reflexivity).
  assert ((op, c) ∈ map_to_list x86_constraints) as Hin by (by apply elem_of_map_to_list).
  pose proof (forallb_elem _ _ _ HT Hin) as Hx. unfold tied_first in Hx. cbn [fst snd] in Hx. rewrite Hd in Hx.
  by apply bool_decide_eq_true_1 in Hx.
Qed.

Definition other_opcode (o : TCGOp) : option nat := match o with op_other opc _ _ _ _ => Some opc | _ => None end.

Lemma named_opcode o : plain o = true -> ~ is_Some (other_opcode o) ->
  (INDEX_op "call" <= opcode o)%nat /\ opcode o <> INDEX_op "debug_insn_start".
Proof.
  intros Hp Hno. rewrite <- Nat.leb_le, <- Nat.eqb_neq.
  destruct o as [|w x i|w x v|u w x i|b w x y z|outs ins fl|l|t|l|w x y k l|opc se outs ins consts]; try discriminate Hp.
  - destruct u, w; split; vm_compute; reflexivity.
  - destruct b, w; split; vm_compute; reflexivity.
  - split; vm_compute; reflexivity.
  - split; vm_compute; reflexivity.
  - destruct w; split; vm_compute; reflexivity.
  - destruct Hno. by eexists.
Qed.

Lemma x86_has_entry res o : allocates x86_table (x86_target res) o = true -> arity_ok o = true ->
  exists d c, tcg_op_defs !! opcode o = Some d /\ x86_constraints !! opcode o = Some c /\
    length (oargs o) = nb_oargs d /\ length (iargs o) = nb_iargs d.
Proof.
  intros [Hp Ha]%andb_prop Har. apply andb_prop in Har as [Har Ho].
  assert (match tcg_op_defs !! opcode o with
    | Some d => Nat.eqb (length (oargs o)) (nb_oargs d) && Nat.eqb (length (iargs o)) (nb_iargs d)
    | None => false end = true) as Har' by (destruct o; [exact Har..|discriminate Hp|exact Har|exact Har|exact Har|exact Har|exact Har]).
  clear Har. rename Har' into Har.
  destruct (tcg_op_defs !! opcode o) as [d|] eqn:Ed; [|done]. apply andb_prop in Har as [E1%Nat.eqb_eq E2%Nat.eqb_eq].
  assert (has_flag (flags d) TCG_OPF_NOT_PRESENT = false /\ (INDEX_op "call" <= opcode o)%nat /\
    opcode o <> INDEX_op "debug_insn_start") as (Hf & Hc & Hn).
  { assert (op_flags x86_table (opcode o) = flags d) as Ef by (unfold x86_table; cbn [op_flags]; by rewrite Ed).
    destruct (decide (is_Some (other_opcode o))) as [[opc Eo]|Hno].
    - destruct o as [| | | | | | | | | |opc' se outs ins consts]; try discriminate Eo.
      cbn [opcode] in *. apply andb_prop in Ha as [[Hd1 Hd2]%andb_prop Ha]. rewrite Ef in Ha.
      apply negb_true_iff in Ha, Hd1, Hd2. apply Nat.eqb_neq in Hd1, Hd2. split_and!; [exact Ha| |exact Hd1].
      apply orb_prop in Ho as [Ho%Nat.ltb_lt|Ho%Nat.eqb_eq]; [exact (Nat.lt_le_incl _ _ Ho)|destruct Hd2; exact Ho].
    - destruct (named_opcode o Hp Hno). split_and!; [|assumption|assumption]. rewrite <- Ef.
      destruct o; try (destruct Hno; eexists; reflexivity); apply negb_true_iff in Ha; exact Ha. }
  destruct (x86_present _ d Ed Hf Hc Hn) as [c Ec].
  exists d, c. split_and!; [reflexivity|assumption..].
Qed.

Lemma x86_constraints_ok res o : allocates x86_table (x86_target res) o = true -> arity_ok o = true ->
  constraints_ok (x86_target res) o.
Proof.
  intros Ha Hr. destruct (x86_has_entry res o Ha Hr) as (d & c & Ed & Ec & El1 & El2).
  destruct (proj1 x86_entries _ _ Ec) as (d' & Ed' & HE). rewrite Ed in Ed'. injection Ed' as <-.
  assert (sorted_args (x86_target res) o = op_sorted c) as Es by (cbn [sorted_args x86_target]; rewrite Ec; reflexivity).
  assert (forall i, args_ct (x86_target res) o i = arg_ct_view (op_args_ct c !!! i)) as Ect
    by (intros i; cbn [args_ct x86_target]; rewrite Ec; reflexivity).
  destruct HE as [Hlen Hout Hin _ _ [_ Hal1 Hal2]].
  split; rewrite ?Es, ?El1, ?El2; [assumption|assumption|..].
  - unfold alias_first. pose proof (x86_tied _ _ _ Ec Ed) as HT. eapply StronglySorted_impl; [|exact HT].
    intros i j Hij. rewrite !Ect. exact Hij.
  - intros i Hi. rewrite (Ect i). intros Hx. destruct (Hal1 i Hx) as (_ & _ & E3 & E4 & E5).
    cbn [alias_index arg_ct_view]. rewrite Ect. split_and!; [apply E3..|exact E4|exact E5].
  - intros i Hi. rewrite (Ect i). intros Hx. apply (Hal2 i Hx).
Qed.

(** ** Property *)

(** C25: The constraints of the operations.  Whatever table of a back end
    [tcg_add_target_add_op_defs] accepts, if no output is described by a digit: an entry
    has one constraint per argument; [sorted_args] lists the outputs and then the inputs,
    each once and by falling priority; an output that is tied to an input and the input
    refer to each other.  The table of the x86-64 back end is accepted, describes exactly
    the operations that reach the back end, each once, and places tied outputs first. *)
Theorem op_constraints_correct :
  (forall tdefs tab op c, tcg_add_target_add_op_defs tdefs ∅ = Some tab -> letters_outs tdefs = true ->
    tab !! op = Some c -> exists d, tcg_op_defs !! op = Some d /\ entry_good d c) /\
  tcg_add_target_add_op_defs x86_op_defs ∅ = Some x86_constraints /\
  letters_outs x86_op_defs = true /\ debug_op_defs x86_op_defs = true /\
  forallb tied_first (map_to_list x86_constraints) = true.
Proof.
  split_and!; [|exact x86_read|vm_compute; reflexivity..].
  intros tdefs tab op c E Hlet Hc.
  destruct (add_op_defs_good tdefs ∅ tab E) as [H1 _]; [intros n strs d; by apply letters_outs_spec|].
  destruct (H1 op c Hc) as [Hx|]; [by rewrite lookup_empty in Hx|done].
Qed.

Lemma op_constraints_correct_witness : exists d c, tcg_op_defs !! INDEX_op "div2_i64" = Some d /\
  x86_constraints !! INDEX_op "div2_i64" = Some c /\ entry_good d c.
Proof.
  destruct op_constraints_correct as (H1 & H2 & H3 & _).
  assert (is_Some (x86_constraints !! INDEX_op "div2_i64")) as [c Hc] by (vm_compute; eexists; reflexivity).
  destruct (H1 x86_op_defs x86_constraints (INDEX_op "div2_i64") c H2 H3 Hc) as (d & Hd & HE).
  exists d, c. exact (conj Hd (conj Hc HE)).
Defined.
