(* ===== verification/X86Enc.v ===== *)
(** * The x86-64 instruction encoder

    Model of the functions of src/emul/qemu/tcg/i386/tcg-target.c that append host
    instructions ([tcg_out_opc] to [tcg_out_jmp]) with the primitives of tcg/tcg.c
    ([tcg_out8], [tcg_out32]), for a 64-bit host.

    A function that only appends bytes is an [Emit]: it maps [code_ptr] to the bytes it
    writes there, or to [None] for [tcg_abort] and a failed assertion.  Registers are
    numbers, -1 where the source passes a negative register for a missing one;
    [tcg_target_long] values are signed.  What the emitters of guest accesses add is in
    X86Guest; labels, relocations, [tcg_out_op] and the prologue are in X86Gen. *)

From S2P Require Import Prelude TcgIr.
Open Scope Z_scope.

(** ** Bytes *)

Definition Emit : Type := Z -> option (list Z).

Definition emit_nil : Emit := fun _ => Some [].
Definition tcg_abort : Emit := fun _ => None.
Definition emit_seq (e1 e2 : Emit) : Emit := fun p =>
  b1 ← e1 p; b2 ← e2 (p + Z.of_nat (length b1)); Some (b1 ++ b2).
Notation "e1 ;;; e2" := (emit_seq e1 e2) (at level 63, right associativity) : c_scope.

Definition emit_assert (b : bool) : Emit := if b then emit_nil else tcg_abort.

Definition tcg_out8 (v : Z) : Emit := fun _ => Some [uint8_t v].
Definition tcg_out32 (v : Z) : Emit := fun _ => Some (unpack 8 4 v).

(** ** Opcodes *)

Definition LOWREGMASK (x : Z) : Z := Z.land x 7.

Definition P_EXT : Z := 0x100.
Definition P_DATA16 : Z := 0x200.
Definition P_ADDR32 : Z := 0x400.
Definition P_REXW : Z := 0x800.
Definition P_REXB_R : Z := 0x1000.
Definition P_REXB_RM : Z := 0x2000.

Definition ARITH_ADD : Z := 0.
Definition ARITH_OR : Z := 1.
Definition ARITH_ADC : Z := 2.
Definition ARITH_SBB : Z := 3.
Definition ARITH_AND : Z := 4.
Definition ARITH_SUB : Z := 5.
Definition ARITH_XOR : Z := 6.
Definition ARITH_CMP : Z := 7.

Definition SHIFT_ROL : Z := 0.
Definition SHIFT_ROR : Z := 1.
Definition SHIFT_SHL : Z := 4.
Definition SHIFT_SHR : Z := 5.
Definition SHIFT_SAR : Z := 7.

Definition EXT3_NOT : Z := 2.
Definition EXT3_NEG : Z := 3.
Definition EXT3_DIV : Z := 6.
Definition EXT3_IDIV : Z := 7.

Definition EXT5_INC_Ev : Z := 0.
Definition EXT5_DEC_Ev : Z := 1.
Definition EXT5_CALLN_Ev : Z := 2.
Definition EXT5_JMPN_Ev : Z := 4.

Definition OPC_ARITH_EvIz : Z := 0x81.
Definition OPC_ARITH_EvIb : Z := 0x83.
Definition OPC_ARITH_GvEv : Z := 0x03.
Definition OPC_BSWAP : Z := Z.lor 0xc8 P_EXT.
Definition OPC_CALL_Jz : Z := 0xe8.
Definition OPC_IMUL_GvEv : Z := Z.lor 0xaf P_EXT.
Definition OPC_IMUL_GvEvIb : Z := 0x6b.
Definition OPC_IMUL_GvEvIz : Z := 0x69.
Definition OPC_JCC_long : Z := Z.lor 0x80 P_EXT.
Definition OPC_JCC_short : Z := 0x70.
Definition OPC_JMP_long : Z := 0xe9.
Definition OPC_JMP_short : Z := 0xeb.
Definition OPC_LEA : Z := 0x8d.
Definition OPC_MOVB_EvGv : Z := 0x88.
Definition OPC_MOVL_EvGv : Z := 0x89.
Definition OPC_MOVL_GvEv : Z := 0x8b.
Definition OPC_MOVL_EvIz : Z := 0xc7.
Definition OPC_MOVL_Iv : Z := 0xb8.
Definition OPC_MOVSBL : Z := Z.lor 0xbe P_EXT.
Definition OPC_MOVSWL : Z := Z.lor 0xbf P_EXT.
Definition OPC_MOVSLQ : Z := Z.lor 0x63 P_REXW.
Definition OPC_MOVZBL : Z := Z.lor 0xb6 P_EXT.
Definition OPC_MOVZWL : Z := Z.lor 0xb7 P_EXT.
Definition OPC_POP_r32 : Z := 0x58.
Definition OPC_PUSH_r32 : Z := 0x50.
Definition OPC_PUSH_Iv : Z := 0x68.
Definition OPC_PUSH_Ib : Z := 0x6a.
Definition OPC_RET : Z := 0xc3.
Definition OPC_SETCC : Z := Z.lor (Z.lor 0x90 P_EXT) P_REXB_RM.
Definition OPC_SHIFT_1 : Z := 0xd1.
Definition OPC_SHIFT_Ib : Z := 0xc1.
Definition OPC_SHIFT_cl : Z := 0xd3.
Definition OPC_TESTL : Z := 0x85.
Definition OPC_GRP3_Ev : Z := 0xf7.
Definition OPC_GRP5 : Z := 0xff.

Definition JCC_JMP : Z := -1.
Definition JCC_JB : Z := 0x2.
Definition JCC_JAE : Z := 0x3.
Definition JCC_JE : Z := 0x4.
Definition JCC_JNE : Z := 0x5.
Definition JCC_JBE : Z := 0x6.
Definition JCC_JA : Z := 0x7.
Definition JCC_JL : Z := 0xc.
Definition JCC_JGE : Z := 0xd.
Definition JCC_JLE : Z := 0xe.
Definition JCC_JG : Z := 0xf.

Definition tcg_cond_to_jcc (c : TCGCond) : Z :=
  match c with
  | TCG_COND_EQ => JCC_JE
  | TCG_COND_NE => JCC_JNE
  | TCG_COND_LT => JCC_JL
  | TCG_COND_GE => JCC_JGE
  | TCG_COND_LE => JCC_JLE
  | TCG_COND_GT => JCC_JG
  | TCG_COND_LTU => JCC_JB
  | TCG_COND_GEU => JCC_JAE
  | TCG_COND_LEU => JCC_JBE
  | TCG_COND_GTU => JCC_JA
  end.

(** ** Instructions *)

(** A test of flag bits. *)
Definition has (opc p : Z) : bool := negb (Z.land opc p =? 0).

Definition rex_bits (opc r rm x : Z) : Z :=
  let rex := Z.shiftr (Z.land opc P_REXW) 8 in
  let rex := Z.lor rex (Z.shiftr (Z.land r 8) 1) in
  let rex := Z.lor rex (Z.shiftr (Z.land x 8) 2) in
  let rex := Z.lor rex (Z.shiftr (Z.land rm 8) 3) in
  let rex := Z.lor rex (Z.land opc (if 4 <=? r then P_REXB_R else 0)) in
  Z.lor rex (Z.land opc (if 4 <=? rm then P_REXB_RM else 0)).

Definition tcg_out_opc (opc r rm x : Z) : Emit :=
  let rex := rex_bits opc r rm x in
  ((if has opc P_DATA16 then emit_assert (negb (has opc P_REXW)) ;;; tcg_out8 0x66 else emit_nil) ;;;
   (if has opc P_ADDR32 then tcg_out8 0x67 else emit_nil) ;;;
   (if negb (rex =? 0) then tcg_out8 (uint8_t (Z.lor rex 0x40)) else emit_nil) ;;;
   (if has opc P_EXT then tcg_out8 0x0f else emit_nil) ;;;
   tcg_out8 opc)%C.

Definition tcg_out_modrm (opc r rm : Z) : Emit :=
  (tcg_out_opc opc r rm 0 ;;;
   tcg_out8 (Z.lor (Z.lor 0xc0 (Z.shiftl (LOWREGMASK r) 3)) (LOWREGMASK rm)))%C.

(** The cases without a base and without an index; [-1] or, with an immediate operand of
    [n] bytes, [Z.lnot n] is passed for the base. *)
Definition out_absolute (opc r rm offset : Z) : Emit := fun p =>
  let pc := p + 5 + Z.lnot rm in
  let disp := int64_t (offset - pc) in
  if disp =? int32_t disp then
    (tcg_out_opc opc r 0 0 ;;; tcg_out8 (Z.lor (Z.shiftl (LOWREGMASK r) 3) 5) ;;; tcg_out32 disp)%C p
  else if offset =? int32_t offset then
    (tcg_out_opc opc r 0 0 ;;; tcg_out8 (Z.lor (Z.shiftl (LOWREGMASK r) 3) 4) ;;;
     tcg_out8 (Z.lor (Z.shiftl 4 3) 5) ;;; tcg_out32 offset)%C p
  else tcg_abort p.

(** [mod], [len] and the base. *)
Definition addend_mode (rm offset : Z) : Z * Z * Z :=
  if rm <? 0 then (0, 4, 5)
  else if (offset =? 0) && negb (LOWREGMASK rm =? 5) then (0, 0, rm)
  else if offset =? int8_t offset then (0x40, 1, rm)
  else (0x80, 4, rm).

Definition tcg_out_modrm_sib_offset (opc r rm index shift offset : Z) : Emit :=
  if (index <? 0) && (rm <? 0) then out_absolute opc r rm offset
  else
    let '(mod_, len, rm) := addend_mode rm offset in
    ((if (index <? 0) && negb (LOWREGMASK rm =? 4) then
        tcg_out_opc opc r rm 0 ;;;
        tcg_out8 (Z.lor (Z.lor mod_ (Z.shiftl (LOWREGMASK r) 3)) (LOWREGMASK rm))
      else
        (if index <? 0 then emit_nil else emit_assert (negb (index =? 4))) ;;;
        let index := if index <? 0 then 4 else index in
        tcg_out_opc opc r rm index ;;;
        tcg_out8 (Z.lor (Z.lor mod_ (Z.shiftl (LOWREGMASK r) 3)) 4) ;;;
        tcg_out8 (Z.lor (Z.lor (Z.shiftl shift 6) (Z.shiftl (LOWREGMASK index) 3)) (LOWREGMASK rm))) ;;;
     (if len =? 1 then tcg_out8 offset else if len =? 4 then tcg_out32 offset else emit_nil))%C.

Definition tcg_out_modrm_offset (opc r rm offset : Z) : Emit :=
  tcg_out_modrm_sib_offset opc r rm (-1) 0 offset.

Definition tgen_arithr (subop dest src : Z) : Emit :=
  let ext := Z.land subop (Z.lnot 0x7) in
  let subop := Z.land subop 0x7 in
  tcg_out_modrm (OPC_ARITH_GvEv + Z.shiftl subop 3 + ext) dest src.

Definition rexw_of (type : TCGType) : Z := if decide (type = TCG_TYPE_I64) then P_REXW else 0.

Definition tcg_out_mov (type : TCGType) (ret arg : Z) : Emit :=
  if negb (arg =? ret) then tcg_out_modrm (OPC_MOVL_GvEv + rexw_of type) ret arg else emit_nil.

Definition tcg_out_movi (type : TCGType) (ret arg : Z) : Emit :=
  if arg =? 0 then tgen_arithr ARITH_XOR ret ret
  else if (arg =? uint32_t arg) || bool_decide (type = TCG_TYPE_I32) then
    (tcg_out_opc (OPC_MOVL_Iv + LOWREGMASK ret) 0 ret 0 ;;; tcg_out32 arg)%C
  else if arg =? int32_t arg then
    (tcg_out_modrm (OPC_MOVL_EvIz + P_REXW) 0 ret ;;; tcg_out32 arg)%C
  else
    (tcg_out_opc (OPC_MOVL_Iv + P_REXW + LOWREGMASK ret) 0 ret 0 ;;;
     tcg_out32 arg ;;; tcg_out32 (Z.shiftr (Z.shiftr arg 31) 1))%C.

Definition tcg_out_pushi (val : Z) : Emit :=
  if val =? int8_t val then (tcg_out_opc OPC_PUSH_Ib 0 0 0 ;;; tcg_out8 val)%C
  else if val =? int32_t val then (tcg_out_opc OPC_PUSH_Iv 0 0 0 ;;; tcg_out32 val)%C
  else tcg_abort.

Definition tcg_out_push (reg : Z) : Emit := tcg_out_opc (OPC_PUSH_r32 + LOWREGMASK reg) 0 reg 0.
Definition tcg_out_pop (reg : Z) : Emit := tcg_out_opc (OPC_POP_r32 + LOWREGMASK reg) 0 reg 0.

Definition tcg_out_ld (type : TCGType) (ret arg1 arg2 : Z) : Emit :=
  tcg_out_modrm_offset (OPC_MOVL_GvEv + rexw_of type) ret arg1 arg2.
Definition tcg_out_st (type : TCGType) (arg arg1 arg2 : Z) : Emit :=
  tcg_out_modrm_offset (OPC_MOVL_EvGv + rexw_of type) arg arg1 arg2.

Definition tcg_out_shifti (subopc reg count : Z) : Emit :=
  let ext := Z.land subopc (Z.lnot 0x7) in
  let subopc := Z.land subopc 0x7 in
  if count =? 1 then tcg_out_modrm (OPC_SHIFT_1 + ext) subopc reg
  else (tcg_out_modrm (OPC_SHIFT_Ib + ext) subopc reg ;;; tcg_out8 count)%C.

Definition tcg_out_bswap32 (reg : Z) : Emit := tcg_out_opc (OPC_BSWAP + LOWREGMASK reg) 0 reg 0.
Definition tcg_out_bswap64 (reg : Z) : Emit := tcg_out_opc (OPC_BSWAP + P_REXW + LOWREGMASK reg) 0 reg 0.
Definition tcg_out_rolw_8 (reg : Z) : Emit := tcg_out_shifti (SHIFT_ROL + P_DATA16) reg 8.

Definition tcg_out_ext8u (dest src : Z) : Emit := tcg_out_modrm (OPC_MOVZBL + P_REXB_RM) dest src.
Definition tcg_out_ext8s (dest src rexw : Z) : Emit := tcg_out_modrm (OPC_MOVSBL + P_REXB_RM + rexw) dest src.
Definition tcg_out_ext16u (dest src : Z) : Emit := tcg_out_modrm OPC_MOVZWL dest src.
Definition tcg_out_ext16s (dest src rexw : Z) : Emit := tcg_out_modrm (OPC_MOVSWL + rexw) dest src.
Definition tcg_out_ext32u (dest src : Z) : Emit := tcg_out_modrm OPC_MOVL_GvEv dest src.
Definition tcg_out_ext32s (dest src : Z) : Emit := tcg_out_modrm OPC_MOVSLQ dest src.

(** The last two tests of [tgen_arithi]. *)
Definition out_arith_imm (c rexw r0 val : Z) : Emit :=
  if val =? int8_t val then (tcg_out_modrm (OPC_ARITH_EvIb + rexw) c r0 ;;; tcg_out8 val)%C
  else if (rexw =? 0) || (val =? int32_t val) then
    (tcg_out_modrm (OPC_ARITH_EvIz + rexw) c r0 ;;; tcg_out32 val)%C
  else tcg_abort.

Definition tgen_arithi (c r0 val : Z) (cf : bool) : Emit :=
  let rexw := Z.land c (-8) in
  let c := Z.land c 7 in
  if negb cf && ((c =? ARITH_ADD) || (c =? ARITH_SUB)) && ((val =? 1) || (val =? -1)) then
    let is_inc := xorb (c =? ARITH_ADD) (val <? 0) in
    tcg_out_modrm (OPC_GRP5 + rexw) (if is_inc then EXT5_INC_Ev else EXT5_DEC_Ev) r0
  else if c =? ARITH_AND then
    if val =? 0xffffffff then tcg_out_ext32u r0 r0
    else
      let rexw := if val =? uint32_t val then 0 else rexw in
      if val =? 0xff then tcg_out_ext8u r0 r0
      else if val =? 0xffff then tcg_out_ext16u r0 r0
      else out_arith_imm c rexw r0 val
  else out_arith_imm c rexw r0 val.

Definition tcg_out_addi (reg val : Z) : Emit :=
  if negb (val =? 0) then tgen_arithi (ARITH_ADD + P_REXW) reg val false else emit_nil.

(** [const_arg2] tells whether [arg2] is a constant, signed, or a register. *)
Definition tcg_out_cmp (arg1 arg2 : Z) (const_arg2 : bool) (rexw : Z) : Emit :=
  if const_arg2 then
    if arg2 =? 0 then tcg_out_modrm (OPC_TESTL + rexw) arg1 arg1
    else tgen_arithi (ARITH_CMP + rexw) arg1 arg2 false
  else tgen_arithr (ARITH_CMP + rexw) arg1 arg2.

(** [tcg_out_setcond32] and [tcg_out_setcond64], by [rexw]. *)
Definition tcg_out_setcond (rexw : Z) (cond : TCGCond) (dest arg1 arg2 : Z) (const_arg2 : bool) : Emit :=
  (tcg_out_cmp arg1 arg2 const_arg2 rexw ;;;
   tcg_out_modrm (Z.lor OPC_SETCC (tcg_cond_to_jcc cond)) 0 dest ;;;
   tcg_out_ext8u dest dest)%C.

Definition TCG_REG_CALL_SCRATCH : Z := 10.

Definition tcg_out_branch (call : bool) (dest : Z) : Emit := fun p =>
  let disp := int64_t (dest - p - 5) in
  if disp =? int32_t disp then
    (tcg_out_opc (if call then OPC_CALL_Jz else OPC_JMP_long) 0 0 0 ;;; tcg_out32 disp)%C p
  else
    (tcg_out_movi TCG_TYPE_I64 TCG_REG_CALL_SCRATCH dest ;;;
     tcg_out_modrm OPC_GRP5 (if call then EXT5_CALLN_Ev else EXT5_JMPN_Ev) TCG_REG_CALL_SCRATCH)%C p.

Definition tcg_out_calli (dest : Z) : Emit := tcg_out_branch true dest.
Definition tcg_out_jmp (dest : Z) : Emit := tcg_out_branch false dest.
