(* ===== verification/X86Sem.v ===== *)
(** * The x86-64 processor

    A specification of the instructions that the encoder of X86Enc uses: how their bytes are
    read and what they do, after the architecture manual.  It is written independently of
    the encoder: fields are taken apart by division, and every form of an address is
    decoded.

    An instruction is read from a list of bytes.  The state has the sixteen 64-bit registers,
    the arithmetic flags where the instruction defines them, and memory by bytes.  An
    instruction that is not described, and a use of undefined flags, is [None]. *)

From S2P Require Import Prelude.
Open Scope Z_scope.

(** ** Reading an instruction *)

Inductive operand :=
  | OReg (r : Z)
  | OMem (base : option Z) (index : option (Z * Z)) (disp : Z)
  | ORip (disp : Z).

Record insn := mkInsn {
  i_op : Z; (** the opcode, with 256 added after the escape byte *)
  i_size : Z;
  i_rex : bool;
  i_addr32 : bool;
  i_reg : Z;
  i_rm : operand;
  i_imm : Z
}.

Record prefix := mkPrefix { p_data16 : bool; p_addr32 : bool; p_rex : option Z; p_ext : bool; p_opc : Z }.

Definition skip_byte (b : Z) (l : list Z) : bool * list Z :=
  match l with x :: l' => if x =? b then (true, l') else (false, l) | [] => (false, []) end.

Definition take_rex (l : list Z) : option Z * list Z :=
  match l with x :: l' => if x / 16 =? 4 then (Some (x mod 16), l') else (None, l) | [] => (None, []) end.

Definition parse_prefix (l : list Z) : option (prefix * list Z) :=
  let '(d, l) := skip_byte 0x66 l in
  let '(a, l) := skip_byte 0x67 l in
  let '(rex, l) := take_rex l in
  let '(e, l) := skip_byte 0x0f l in
  match l with o :: l => Some (mkPrefix d a rex e o, l) | [] => None end.

Definition rex_w (p : prefix) : bool := (default 0 (p_rex p) / 8) mod 2 =? 1.
Definition rex_r (p : prefix) : Z := (default 0 (p_rex p) / 4) mod 2.
Definition rex_x (p : prefix) : Z := (default 0 (p_rex p) / 2) mod 2.
Definition rex_b (p : prefix) : Z := default 0 (p_rex p) mod 2.

(** A signed little-endian number of [n] bytes. *)
Definition take_signed (n : nat) (l : list Z) : option (Z * list Z) :=
  if (n =? 0)%nat then Some (0, l)
  else if (length l <? n)%nat then None
  else Some (sint (8 * Z.of_nat n) (pack 8 (take n l)), drop n l).

Definition disp_bytes (mod_ : Z) : nat := if mod_ =? 1 then 1%nat else if mod_ =? 2 then 4%nat else 0%nat.

Definition parse_sib (p : prefix) (mod_ : Z) (l : list Z) : option (operand * list Z) :=
  match l with
  | [] => None
  | s :: l =>
      let idx := (s / 8) mod 8 + 8 * rex_x p in
      let index := if idx =? 4 then None else Some (idx, s / 64) in
      if (s mod 8 =? 5) && (mod_ =? 0) then
        '(d, l) ← take_signed 4 l; Some (OMem None index d, l)
      else
        '(d, l) ← take_signed (disp_bytes mod_) l; Some (OMem (Some (s mod 8 + 8 * rex_b p)) index d, l)
  end.

Definition parse_modrm (p : prefix) (l : list Z) : option (Z * operand * list Z) :=
  match l with
  | [] => None
  | m :: l =>
      let mod_ := m / 64 in
      let reg := (m / 8) mod 8 + 8 * rex_r p in
      if mod_ =? 3 then Some (reg, OReg (m mod 8 + 8 * rex_b p), l)
      else if m mod 8 =? 4 then '(o, l) ← parse_sib p mod_ l; Some (reg, o, l)
      else if (m mod 8 =? 5) && (mod_ =? 0) then '(d, l) ← take_signed 4 l; Some (reg, ORip d, l)
      else '(d, l) ← take_signed (disp_bytes mod_) l; Some (reg, OMem (Some (m mod 8 + 8 * rex_b p)) None d, l)
  end.

(** What follows the opcode: a ModRM byte, a register in the opcode, or neither; and the
    number of bytes of the immediate operand. *)
Inductive format := FModRM (imm : nat) | FPlus (imm : nat) | FPlain (imm : nat).

Definition between (a b x : Z) : bool := (a <=? x) && (x <=? b).

Definition format_of (op : Z) (w : bool) : option format :=
  if (op <? 0x40) && (op mod 8 =? 3) then Some (FModRM 0)
  else if between 0x50 0x5f op then Some (FPlus 0)
  else if between 0xb8 0xbf op then Some (FPlus (if w then 8 else 4))
  else if between 0x1c8 0x1cf op then Some (FPlus 0)
  else if between 0x70 0x7f op || (op =? 0x6a) || (op =? 0xeb) then Some (FPlain 1)
  else if between 0x180 0x18f op || (op =? 0x68) || (op =? 0xe8) || (op =? 0xe9) then Some (FPlain 4)
  else if op =? 0xc3 then Some (FPlain 0)
  else if (op =? 0x81) || (op =? 0x69) || (op =? 0xc7) then Some (FModRM 4)
  else if (op =? 0x83) || (op =? 0x6b) || (op =? 0xc1) then Some (FModRM 1)
  else if (op =? 0x63) || (op =? 0x85) || (op =? 0x88) || (op =? 0x89) || (op =? 0x8b) || (op =? 0x8d) ||
          (op =? 0xd1) || (op =? 0xd3) || (op =? 0xf7) || (op =? 0xff) ||
          (op =? 0x1af) || (op =? 0x1b6) || (op =? 0x1b7) || (op =? 0x1be) || (op =? 0x1bf) || between 0x190 0x19f op
  then Some (FModRM 0)
  else None.

Definition decode (l : list Z) : option (insn * list Z) :=
  '(p, l) ← parse_prefix l;
  let op := p_opc p + (if p_ext p then 256 else 0) in
  let size := if rex_w p then 64 else if p_data16 p then 16 else 32 in
  let ins op reg rm imm := mkInsn op size (bool_decide (is_Some (p_rex p))) (p_addr32 p) reg rm imm in
  f ← format_of op (rex_w p);
  match f with
  | FModRM n =>
      '(reg, rm, l) ← parse_modrm p l;
      '(imm, l) ← take_signed n l;
      Some (ins op reg rm imm, l)
  | FPlus n =>
      '(imm, l) ← take_signed n l;
      Some (ins (op - op mod 8) 0 (OReg (op mod 8 + 8 * rex_b p)) imm, l)
  | FPlain n =>
      '(imm, l) ← take_signed n l;
      Some (ins op 0 (OReg 0) imm, l)
  end.

(** ** State *)

Record Flags := mkFlags { CF : bool; ZF : bool; SF : bool; OF : bool }.
Record X86 := mkX86 { xr : Z -> Z; xf : option Flags; xm : Z -> Z }.

Definition set_reg (s : X86) (r v : Z) : X86 := mkX86 (fun x => if x =? r then v else xr s x) (xf s) (xm s).
Definition with_flags (s : X86) (f : option Flags) : X86 := mkX86 (xr s) f (xm s).

(** A register as an operand of [size] bits; without a REX prefix the byte registers 4 to 7
    are the second bytes of the registers 0 to 3. *)
Definition read_reg (s : X86) (size : Z) (rex : bool) (r : Z) : Z :=
  if (size =? 8) && negb rex && between 4 7 r then uint 8 (Z.shiftr (xr s (r - 4)) 8)
  else uint size (xr s r).

(** A result of 32 bits clears the upper half of the register. *)
Definition write_reg (s : X86) (size : Z) (rex : bool) (r v : Z) : X86 :=
  if (size =? 8) && negb rex && between 4 7 r then
    let x := xr s (r - 4) in
    set_reg s (r - 4) (Z.lor (Z.ldiff x (Z.shiftl 255 8)) (Z.shiftl (uint 8 v) 8))
  else if 32 <=? size then set_reg s r (uint size v)
  else set_reg s r (Z.lor (Z.ldiff (xr s r) (Z.ones size)) (uint size v)).

Definition read_mem (m : Z -> Z) (n : nat) (a : Z) : Z := pack 8 ((fun k => m (uint64_t (a + Z.of_nat k))) <$> seq 0 n).
Definition write_mem (m : Z -> Z) (n : nat) (a v : Z) : Z -> Z := fun x =>
  let k := uint64_t (x - a) in if k <? Z.of_nat n then lane 8 k v else m x.

(** The address of an operand; [next] is the address of the next instruction. *)
Definition address (s : X86) (i : insn) (next : Z) : option Z :=
  let trunc a := if i_addr32 i then uint32_t a else uint64_t a in
  match i_rm i with
  | OReg _ => None
  | OMem base index d =>
      Some (trunc (match base with Some b => xr s b | None => 0 end +
                   match index with Some (x, sh) => Z.shiftl (xr s x) sh | None => 0 end + d))
  | ORip d => Some (trunc (next + d))
  end.

Definition read_rm (s : X86) (i : insn) (next size : Z) : option Z :=
  match i_rm i with
  | OReg r => Some (read_reg s size (i_rex i) r)
  | _ => a ← address s i next; Some (read_mem (xm s) (Z.to_nat (size / 8)) a)
  end.

Definition write_rm (s : X86) (i : insn) (next size v : Z) : option X86 :=
  match i_rm i with
  | OReg r => Some (write_reg s size (i_rex i) r v)
  | _ => a ← address s i next; Some (mkX86 (xr s) (xf s) (write_mem (xm s) (Z.to_nat (size / 8)) a v))
  end.

(** ** Flags and conditions *)

Definition msb (w v : Z) : bool := Z.testbit v (w - 1).
Definition flags_add (w a b : Z) : Flags :=
  let r := uint w (a + b) in
  mkFlags (2 ^ w <=? a + b) (r =? 0) (msb w r) (negb (sint w a + sint w b =? sint w r)).
Definition flags_sub (w a b : Z) : Flags :=
  let r := uint w (a - b) in
  mkFlags (a <? b) (r =? 0) (msb w r) (negb (sint w a - sint w b =? sint w r)).
Definition flags_logic (w r : Z) : Flags := mkFlags false (r =? 0) (msb w r) false.

(** The condition of [jcc] and [setcc]; the parity flag is not described. *)
Definition condition (cc : Z) (f : Flags) : option bool :=
  let base :=
    if cc / 2 =? 0 then Some (OF f)
    else if cc / 2 =? 1 then Some (CF f)
    else if cc / 2 =? 2 then Some (ZF f)
    else if cc / 2 =? 3 then Some (CF f || ZF f)
    else if cc / 2 =? 4 then Some (SF f)
    else if cc / 2 =? 6 then Some (xorb (SF f) (OF f))
    else if cc / 2 =? 7 then Some (ZF f || xorb (SF f) (OF f))
    else None in
  b ← base; Some (if cc mod 2 =? 0 then b else negb b).

(** ** Instructions *)

(** The operations of group 1: the result, if it is written, and the flags.  Addition and
    subtraction with carry are not used on a 64-bit host. *)
Definition alu (sub w a b : Z) : option (option Z * Flags) :=
  if sub =? 0 then Some (Some (uint w (a + b)), flags_add w a b)
  else if sub =? 1 then Some (Some (Z.lor a b), flags_logic w (Z.lor a b))
  else if sub =? 4 then Some (Some (Z.land a b), flags_logic w (Z.land a b))
  else if sub =? 5 then Some (Some (uint w (a - b)), flags_sub w a b)
  else if sub =? 6 then Some (Some (Z.lxor a b), flags_logic w (Z.lxor a b))
  else if sub =? 7 then Some (None, flags_sub w a b)
  else None.

(** Shifts and rotations; the count is taken modulo the width.  Their flags are left
    undefined here. *)
Definition shift_op (sub w a c : Z) : option Z :=
  let c := c mod (if w =? 64 then 64 else 32) in
  if sub =? 0 then let c := c mod w in Some (uint w (Z.lor (Z.shiftl a c) (Z.shiftr a (w - c))))
  else if sub =? 1 then let c := c mod w in Some (uint w (Z.lor (Z.shiftr a c) (Z.shiftl a (w - c))))
  else if sub =? 4 then Some (uint w (Z.shiftl a c))
  else if sub =? 5 then Some (Z.shiftr a c)
  else if sub =? 7 then Some (uint w (Z.shiftr (sint w a) c))
  else None.

Definition RSP : Z := 4.

Definition push (s : X86) (v : Z) : X86 :=
  let sp := uint64_t (xr s RSP - 8) in
  let s := set_reg s RSP sp in
  mkX86 (xr s) (xf s) (write_mem (xm s) 8 sp v).

Definition pop (s : X86) : Z * X86 :=
  (read_mem (xm s) 8 (xr s RSP), set_reg s RSP (uint64_t (xr s RSP + 8))).

(** The bytes of a word in the other order. *)
Definition swap_bytes (n : nat) (v : Z) : Z := pack 8 (reverse (unpack 8 n v)).

(** The unsigned and signed division of rdx:rax. *)
Definition divide (signed : bool) (w d a b : Z) : option (Z * Z) :=
  let num := d * 2 ^ w + a in
  let num := if signed then sint (2 * w) num else num in
  let b := if signed then sint w b else b in
  if b =? 0 then None
  else
    let q := Z.quot num b in
    if (if signed then sint w q =? q else uint w q =? q) then Some (uint w q, uint w (Z.rem num b)) else None.

(** Writing to register [i_reg], or to the operand. *)
Definition to_reg (s : X86) (i : insn) (v : Z) : X86 := write_reg s (i_size i) (i_rex i) (i_reg i) v.

(** The state after the instruction, and where it jumps to, if it does. *)
Definition exec (i : insn) (next : Z) (s : X86) : option (option Z * X86) :=
  let w := i_size i in
  let op := i_op i in
  let goes s := Some (None, s) in
  if (op <? 0x40) && (op mod 8 =? 3) then
    b ← read_rm s i next w;
    '(v, f) ← alu (op / 8) w (read_reg s w (i_rex i) (i_reg i)) b;
    goes (with_flags (match v with Some v => to_reg s i v | None => s end) (Some f))
  else if (op =? 0x81) || (op =? 0x83) then
    a ← read_rm s i next w;
    '(v, f) ← alu (i_reg i) w a (uint w (i_imm i));
    s ← (match v with Some v => write_rm s i next w v | None => Some s end);
    goes (with_flags s (Some f))
  else if op =? 0x85 then
    a ← read_rm s i next w;
    goes (with_flags s (Some (flags_logic w (Z.land a (read_reg s w (i_rex i) (i_reg i))))))
  else if op =? 0x88 then s ← write_rm s i next 8 (read_reg s 8 (i_rex i) (i_reg i)); goes s
  else if op =? 0x89 then s ← write_rm s i next w (read_reg s w (i_rex i) (i_reg i)); goes s
  else if op =? 0x8b then v ← read_rm s i next w; goes (to_reg s i v)
  else if op =? 0x8d then a ← address s i next; goes (to_reg s i a)
  else if op =? 0xc7 then
    if i_reg i =? 0 then s ← write_rm s i next w (i_imm i); goes s else None
  else if op =? 0xb8 then s ← write_rm s i next w (i_imm i); goes s
  else if op =? 0x63 then
    if w =? 64 then v ← read_rm s i next 32; goes (to_reg s i (sint 32 v)) else None
  else if op =? 0x1b6 then v ← read_rm s i next 8; goes (to_reg s i v)
  else if op =? 0x1b7 then v ← read_rm s i next 16; goes (to_reg s i v)
  else if op =? 0x1be then v ← read_rm s i next 8; goes (to_reg s i (sint 8 v))
  else if op =? 0x1bf then v ← read_rm s i next 16; goes (to_reg s i (sint 16 v))
  else if op =? 0x1af then
    v ← read_rm s i next w; goes (with_flags (to_reg s i (read_reg s w (i_rex i) (i_reg i) * v)) None)
  else if (op =? 0x69) || (op =? 0x6b) then
    v ← read_rm s i next w; goes (with_flags (to_reg s i (v * i_imm i)) None)
  else if (op =? 0xc1) || (op =? 0xd1) || (op =? 0xd3) then
    let c := if op =? 0xc1 then uint8_t (i_imm i) else if op =? 0xd1 then 1 else uint8_t (xr s 1) in
    a ← read_rm s i next w;
    v ← shift_op (i_reg i) w a c;
    s ← write_rm s i next w v;
    goes (with_flags s None)
  else if op =? 0xf7 then
    a ← read_rm s i next w;
    if i_reg i =? 2 then s ← write_rm s i next w (Z.lnot a); goes s
    else if i_reg i =? 3 then s ← write_rm s i next w (- a); goes (with_flags s None)
    else if (i_reg i =? 6) || (i_reg i =? 7) then
      '(q, r) ← divide (i_reg i =? 7) w (uint w (xr s 2)) (uint w (xr s 0)) a;
      goes (with_flags (write_reg (write_reg s w true 0 q) w true 2 r) None)
    else None
  else if op =? 0xff then
    if i_reg i =? 0 then a ← read_rm s i next w; s ← write_rm s i next w (a + 1); goes (with_flags s None)
    else if i_reg i =? 1 then a ← read_rm s i next w; s ← write_rm s i next w (a - 1); goes (with_flags s None)
    else if i_reg i =? 2 then a ← read_rm s i next 64; Some (Some a, push s next)
    else if i_reg i =? 4 then a ← read_rm s i next 64; Some (Some a, s)
    else None
  else if between 0x190 0x19f op then
    f ← xf s; b ← condition (op - 0x190) f; s ← write_rm s i next 8 (b2z b); goes s
  else if op =? 0x1c8 then
    a ← read_rm s i next w; s ← write_rm s i next w (swap_bytes (Z.to_nat (w / 8)) a); goes s
  else if op =? 0x50 then a ← read_rm s i next 64; goes (push s a)
  else if op =? 0x58 then let '(v, s) := pop s in s ← write_rm s i next 64 v; goes s
  else if (op =? 0x68) || (op =? 0x6a) then goes (push s (i_imm i))
  else if op =? 0xc3 then let '(v, s) := pop s in Some (Some v, s)
  else if op =? 0xe8 then Some (Some (uint64_t (next + i_imm i)), push s next)
  else if (op =? 0xe9) || (op =? 0xeb) then Some (Some (uint64_t (next + i_imm i)), s)
  else if between 0x70 0x7f op || between 0x180 0x18f op then
    f ← xf s; b ← condition (op mod 16) f;
    Some (if b : bool then Some (uint64_t (next + i_imm i)) else None, s)
  else None.

(** ** Running code

    One instruction of the code at [base]. *)
Definition x86_step (base : Z) (code : list Z) (c : Z * X86) : option (Z * X86) :=
  let '(pc, s) := c in
  if pc <? base then None
  else
    let l := drop (Z.to_nat (pc - base)) code in
    '(i, l') ← decode l;
    let next := pc + Z.of_nat (length l - length l') in
    '(t, s) ← exec i next s;
    Some (default next t, s).

Fixpoint x86_steps (n : nat) (base : Z) (code : list Z) (c : Z * X86) : option (Z * X86) :=
  match n with
  | O => Some c
  | S n => c ← x86_step base code c; x86_steps n base code c
  end.
