(* ===== verification/X86Decode.v ===== *)
(** * Reading back what the encoder writes

    The bytes of [tcg_out_opc], [tcg_out_modrm] and [tcg_out_modrm_sib_offset] (X86Enc) are
    read by the decoder of X86Sem as the opcode, the registers and the address that were
    passed, whatever bytes follow. *)

From S2P Require Import Prelude X86Enc X86Sem.
Open Scope Z_scope.

(** ** Fields *)

Definition is_reg (r : Z) : Prop := 0 <= r < 16.

Lemma land_pow2 x k : 0 <= k -> Z.land x (2 ^ k) = if Z.testbit x k then 2 ^ k else 0.
Proof.
  intros Hk. apply Z.bits_inj'. intros i Hi. rewrite Z.land_spec, Z.pow2_bits_eqb by lia.
  destruct (Z.eqb_spec k i) as [->|Hne].
  - rewrite andb_true_r. destruct (Z.testbit x i); [by rewrite Z.pow2_bits_true|by rewrite Z.bits_0].
  - rewrite andb_false_r. destruct (Z.testbit x k); [by rewrite Z.pow2_bits_false|by rewrite Z.bits_0].
Qed.

Lemma land_flag opc p k : p = 2 ^ k -> 0 <= k -> Z.land opc p = if has opc p then p else 0.
Proof.
  intros -> Hk. unfold has. rewrite land_pow2 by done. pose proof (Z.pow_pos_nonneg 2 k ltac:(lia) Hk).
  destruct (Z.testbit opc k); [|done]. by destruct (Z.eqb_spec (2 ^ k) 0); [lia|].
Qed.

Lemma low_reg r : LOWREGMASK r = r mod 8.
Proof. unfold LOWREGMASK. change 7 with (Z.ones 3). by rewrite Z.land_ones by lia. Qed.

Lemma high_reg r : is_reg r -> Z.land r 8 = 8 * (r / 8) /\ (r / 8 = 0 \/ r / 8 = 1).
Proof.
  intros Hr. unfold is_reg in Hr. change 8 with (2 ^ 3) at 1. rewrite land_pow2 by lia. change (2 ^ 3) with 8.
  assert (r / 8 = 0 \/ r / 8 = 1) as H by (Z.to_euclidean_division_equations; lia). split; [|done].
  rewrite Z.testbit_eqb by lia. change (2 ^ 3) with 8. by destruct H as [-> | ->].
Qed.

(** The byte of three fields. *)
Lemma fields_lor m r b : (m = 0 \/ m = 0x40 \/ m = 0x80 \/ m = 0xc0) -> 0 <= r < 8 -> 0 <= b < 8 ->
  Z.lor (Z.lor m (Z.shiftl r 3)) b = m + 8 * r + b.
Proof.
  intros Hm Hr Hb.
  assert (forallb (fun m => forallb (fun r => forallb (fun b => Z.lor (Z.lor m (Z.shiftl r 3)) b =? m + 8 * r + b) (seqZ 0 8)) (seqZ 0 8))
    [0; 0x40; 0x80; 0xc0] = true) as H by (vm_compute; reflexivity).
  rewrite forallb_forall in H. specialize (H m ltac:(cbn; naive_solver)). rewrite forallb_forall in H.
  specialize (H r ltac:(apply list_elem_of_In, elem_of_seqZ; lia)). rewrite forallb_forall in H.
  specialize (H b ltac:(apply list_elem_of_In, elem_of_seqZ; lia)). by apply Z.eqb_eq.
Qed.

Lemma field_bytes m r b : 0 <= m < 4 -> 0 <= r < 8 -> 0 <= b < 8 ->
  let x := 64 * m + 8 * r + b in uint8_t x = x /\ x / 64 = m /\ (x / 8) mod 8 = r /\ x mod 8 = b.
Proof. intros. cbn zeta. split_and!; cint. Qed.

(** ** Opcodes with prefixes *)

(** The opcode byte is not taken for a prefix. *)
Definition opcode_ok (opc : Z) : Prop :=
  has opc P_EXT = true \/ uint8_t opc <> 0x66 /\ uint8_t opc <> 0x67 /\ uint8_t opc <> 0x0f /\ uint8_t opc / 16 <> 4.

Definition rex_low (opc r rm x : Z) : Z := 8 * b2z (has opc P_REXW) + 4 * (r / 8) + 2 * (x / 8) + rm / 8.

(** A REX prefix is there for one of its bits or for a byte register. *)
Definition needs_rex (opc r rm x : Z) : bool :=
  negb (rex_low opc r rm x =? 0) || (has opc P_REXB_R && (4 <=? r)) || (has opc P_REXB_RM && (4 <=? rm)).

Lemma rex_bits_spec opc r rm x : is_reg r -> is_reg rm -> is_reg x ->
  0 <= rex_low opc r rm x < 16 /\ (rex_bits opc r rm x =? 0) = negb (needs_rex opc r rm x) /\
  uint8_t (Z.lor (rex_bits opc r rm x) 0x40) = 64 + rex_low opc r rm x.
Proof.
  intros Hr Hrm Hx. unfold rex_bits, needs_rex, rex_low.
  rewrite (land_flag opc P_REXW 11) by (reflexivity || lia).
  destruct (high_reg r Hr) as [-> Hr1], (high_reg rm Hrm) as [-> Hm1], (high_reg x Hx) as [-> Hx1].
  assert (forall c p k, p = 2 ^ k -> 0 <= k -> Z.land opc (if c : bool then p else 0) = if has opc p && c then p else 0) as Hc.
  { intros c p k Ep Hk. destruct c; [rewrite andb_true_r; by eapply land_flag|]. by rewrite andb_false_r, Z.land_0_r. }
  rewrite (Hc _ P_REXB_R 12), (Hc _ P_REXB_RM 13) by (reflexivity || lia).
  destruct Hr1 as [-> | ->], Hm1 as [-> | ->], Hx1 as [-> | ->], (has opc P_REXW), (has opc P_REXB_R && (4 <=? r)), (has opc P_REXB_RM && (4 <=? rm));
    vm_compute; (split; [split; congruence|split; reflexivity]).
Qed.

(** What the decoder finds. *)
Definition expected (opc r rm x : Z) : prefix :=
  mkPrefix (has opc P_DATA16) (has opc P_ADDR32) (if needs_rex opc r rm x then Some (rex_low opc r rm x) else None)
    (has opc P_EXT) (uint8_t opc).

Lemma expected_rex opc r rm x : is_reg r -> is_reg rm -> is_reg x ->
  rex_w (expected opc r rm x) = has opc P_REXW /\ rex_r (expected opc r rm x) = r / 8 /\
  rex_x (expected opc r rm x) = x / 8 /\ rex_b (expected opc r rm x) = rm / 8.
Proof.
  intros Hr Hrm Hx. unfold rex_w, rex_r, rex_x, rex_b, expected. cbn [p_rex].
  assert (default 0 (if needs_rex opc r rm x then Some (rex_low opc r rm x) else None) = rex_low opc r rm x) as ->.
  { unfold needs_rex. destruct (Z.eqb_spec (rex_low opc r rm x) 0) as [->|]; cbn; [|done]. by destruct (_ || _). }
  unfold rex_low. destruct (high_reg r Hr) as [_ [-> | ->]], (high_reg rm Hrm) as [_ [-> | ->]], (high_reg x Hx) as [_ [-> | ->]], (has opc P_REXW);
    vm_compute; done.
Qed.

(** The assertion of [tcg_out_opc]. *)
Definition sizes_ok (opc : Z) : Prop := has opc P_DATA16 && has opc P_REXW = false.

Definition opc_bytes (opc r rm x : Z) : list Z :=
  (if has opc P_DATA16 then [0x66] else []) ++ (if has opc P_ADDR32 then [0x67] else []) ++
  (if needs_rex opc r rm x then [64 + rex_low opc r rm x] else []) ++ (if has opc P_EXT then [0x0f] else []) ++ [uint8_t opc].

Lemma tcg_out_opc_bytes opc r rm x p : is_reg r -> is_reg rm -> is_reg x -> sizes_ok opc -> tcg_out_opc opc r rm x p = Some (opc_bytes opc r rm x).
Proof.
  intros Hr Hrm Hx Hs. unfold tcg_out_opc, opc_bytes, sizes_ok in *. destruct (rex_bits_spec opc r rm x Hr Hrm Hx) as (Hl & -> & Hb).
  rewrite Hb, negb_involutive. unfold emit_seq, emit_assert, emit_nil, tcg_out8.
  assert (uint8_t (64 + rex_low opc r rm x) = 64 + rex_low opc r rm x) as Hu by cint.
  destruct (has opc P_DATA16); cbn in Hs; [rewrite Hs|]; destruct (has opc P_ADDR32), (needs_rex opc r rm x), (has opc P_EXT); cbn; by rewrite ?Hu.
Qed.

Lemma skip_same b l : skip_byte b (b :: l) = (true, l).
Proof. unfold skip_byte. by rewrite Z.eqb_refl. Qed.

Lemma skip_other b x l : x <> b -> skip_byte b (x :: l) = (false, x :: l).
Proof. intros H. unfold skip_byte. by rewrite (proj2 (Z.eqb_neq _ _) H). Qed.

Lemma parse_opc opc r rm x rest : is_reg r -> is_reg rm -> is_reg x -> opcode_ok opc ->
  parse_prefix (opc_bytes opc r rm x ++ rest) = Some (expected opc r rm x, rest).
Proof.
  intros Hr Hrm Hx Ho. destruct (rex_bits_spec opc r rm x Hr Hrm Hx) as (Hl & _ & _). set (low := rex_low opc r rm x) in *.
  assert ((64 + low) / 16 = 4 /\ (64 + low) mod 16 = low) as [E1 E2] by (Z.to_euclidean_division_equations; lia).
  unfold opc_bytes, expected, parse_prefix. fold low.
  assert (forall l b, 64 + low <> b -> skip_byte b ((64 + low) :: l) = (false, (64 + low) :: l)) as Hs by (intros; by apply skip_other).
  destruct (has opc P_DATA16), (has opc P_ADDR32), (needs_rex opc r rm x) eqn:En, (has opc P_EXT) eqn:Ee; cbn [app];
    (destruct Ho as [Ho|(H1 & H2 & H3 & H4)]; [try congruence|]);
    repeat first
      [ rewrite skip_same
      | rewrite skip_other by (done || lia) ];
    cbn [take_rex]; rewrite ?E1, ?E2; cbn [Z.eqb Pos.eqb]; change (15 / 16 =? 4) with false; cbn iota beta;
    repeat first
      [ rewrite skip_same
      | rewrite skip_other by (done || lia)
      | rewrite (proj2 (Z.eqb_neq (uint8_t opc / 16) 4)) by done ]; try done.
Qed.

(** ** Operands *)

Definition opcode_of (opc : Z) : Z := uint8_t opc + (if has opc P_EXT then 256 else 0).
Definition size_of (opc : Z) : Z := if has opc P_REXW then 64 else if has opc P_DATA16 then 16 else 32.

(** An instruction with a ModRM byte and [n] bytes of immediate operand. *)
Record modrm_op (opc : Z) (n : nat) : Prop := {
  mo_opcode : opcode_ok opc;
  mo_sizes : sizes_ok opc;
  mo_format : format_of (opcode_of opc) (has opc P_REXW) = Some (FModRM n)
}.

Lemma take_bytes n v rest : (0 < n)%nat -> take_signed n (unpack 8 n v ++ rest) = Some (sint (8 * Z.of_nat n) v, rest).
Proof.
  intros Hn. unfold take_signed. destruct (Nat.eqb_spec n 0); [lia|]. pose proof (length_unpack 8 n v) as Hl.
  rewrite length_app, Hl. destruct (Nat.ltb_spec (n + length rest) n); [lia|].
  rewrite take_app_length', drop_app_length' by done. do 2 f_equal.
  assert (unpack 8 n v = unpack 8 n (uint (8 * Z.of_nat n) v)) as ->.
  { unfold unpack. apply list_fmap_ext. intros i k Hk. apply lookup_seq in Hk as [-> Hk]. by rewrite lane_uint by lia. }
  rewrite pack_unpack by (lia || (apply uint_range; lia)). by rewrite sint_uint by lia.
Qed.

Lemma take_byte v rest : take_signed 1 (uint8_t v :: rest) = Some (int8_t v, rest).
Proof.
  pose proof (take_bytes 1 v rest ltac:(lia)) as H. unfold unpack, lane in H. cbn [seq fmap list_fmap app] in H.
  by rewrite Z.mul_0_r, Z.shiftr_0_r in H.
Qed.

Lemma take_word v rest : take_signed 4 (unpack 8 4 v ++ rest) = Some (int32_t v, rest).
Proof. by apply take_bytes; lia. Qed.

Lemma decode_parts opc r rm x n o imm l l' l'' :
  is_reg r -> is_reg rm -> is_reg x -> modrm_op opc n ->
  parse_modrm (expected opc r rm x) l = Some (r, o, l') -> take_signed n l' = Some (imm, l'') ->
  decode (opc_bytes opc r rm x ++ l) =
    Some (mkInsn (opcode_of opc) (size_of opc) (needs_rex opc r rm x) (has opc P_ADDR32) r o imm, l'').
Proof.
  intros Hr Hm Hx [H1 H2 H3] Hp Ht. unfold decode. rewrite parse_opc by done. cbn [mbind option_bind].
  destruct (expected_rex opc r rm x Hr Hm Hx) as (-> & _). cbn [p_opc p_ext p_data16 p_rex p_addr32 expected].
  fold (opcode_of opc). rewrite H3. cbn [mbind option_bind]. rewrite Hp. cbn [mbind option_bind].
  rewrite Ht. cbn [mbind option_bind]. unfold size_of. do 3 f_equal.
  destruct (needs_rex opc r rm x); [by apply bool_decide_eq_true_2|by apply bool_decide_eq_false_2; intros [? ?]].
Qed.

Lemma split_reg r : is_reg r -> r mod 8 + 8 * (r / 8) = r.
Proof. intros. pose proof (Z.div_mod r 8). lia. Qed.

Lemma mod8_range r : 0 <= r mod 8 < 8.
Proof. apply Z.mod_pos_bound. lia. Qed.

(** A register operand. *)
Lemma parse_register opc r rm l : is_reg r -> is_reg rm ->
  parse_modrm (expected opc r rm 0) (0xc0 + 8 * (r mod 8) + rm mod 8 :: l) = Some (r, OReg rm, l).
Proof.
  intros Hr Hm. assert (is_reg 0) as H0 by (unfold is_reg; lia). destruct (expected_rex opc r rm 0 Hr Hm H0) as (_ & E1 & _ & E2).
  destruct (field_bytes 3 (r mod 8) (rm mod 8) ltac:(lia) (mod8_range _) (mod8_range _)) as (_ & F1 & F2 & F3).
  change (64 * 3) with 0xc0 in F1, F2, F3. unfold parse_modrm. rewrite F1, F2, F3, E1, E2, !split_reg by done. done.
Qed.

(** *** Memory operands *)

Definition disp_of (mod_ : Z) (offset : Z) : list Z :=
  if mod_ =? 1 then [uint8_t offset] else if mod_ =? 2 then unpack 8 4 offset else [].

(** [mod_] is enough for the displacement. *)
Definition disp_fits (mod_ offset : Z) : Prop := mod_ = 0 /\ offset = 0 \/ mod_ = 1 /\ offset = int8_t offset \/ mod_ = 2.

Lemma small_disp x : x = int8_t x -> int32_t x = x.
Proof. intros H. apply sint_id; [lia|]. pose proof (sint_range 8 x ltac:(lia)). rewrite H. unfold in_s, int8_t in *. cbn in *. lia. Qed.

Lemma take_disp mod_ offset rest : disp_fits mod_ offset ->
  take_signed (disp_bytes mod_) (disp_of mod_ offset ++ rest) = Some (int32_t offset, rest).
Proof.
  unfold disp_of, disp_bytes. intros [[-> ->]|[[-> H]| ->]]; [done| |by apply take_word].
  cbn [Z.eqb Pos.eqb app]. by rewrite take_byte, (small_disp _ H), <- H.
Qed.

Lemma parse_base opc r rm mod_ offset rest : is_reg r -> is_reg rm -> rm mod 8 <> 4 -> (mod_ = 0 -> rm mod 8 <> 5) -> disp_fits mod_ offset ->
  parse_modrm (expected opc r rm 0) (64 * mod_ + 8 * (r mod 8) + rm mod 8 :: disp_of mod_ offset ++ rest) =
    Some (r, OMem (Some rm) None (int32_t offset), rest).
Proof.
  intros Hr Hm H4 H5 Hd. assert (is_reg 0) as H0 by (unfold is_reg; lia). destruct (expected_rex opc r rm 0 Hr Hm H0) as (_ & E1 & _ & E2).
  assert (0 <= mod_ < 3) as Hmod by (unfold disp_fits in Hd; lia).
  destruct (field_bytes mod_ (r mod 8) (rm mod 8) ltac:(lia) (mod8_range _) (mod8_range _)) as (_ & F1 & F2 & F3).
  unfold parse_modrm. rewrite F1, F2, F3, E1, E2, !split_reg by done.
  destruct (Z.eqb_spec mod_ 3); [lia|]. destruct (Z.eqb_spec (rm mod 8) 4); [lia|].
  assert ((rm mod 8 =? 5) && (mod_ =? 0) = false) as ->.
  { destruct (Z.eqb_spec (rm mod 8) 5), (Z.eqb_spec mod_ 0); cbn; try done. exfalso. by apply H5. }
  by rewrite take_disp.
Qed.

(** A base, or none where [rm] is 5 and [mod_] is 0, and an index, or none where it is 4. *)
Lemma parse_scaled opc r rm index shift mod_ offset (nobase : bool) rest :
  is_reg r -> is_reg rm -> is_reg index -> 0 <= shift < 4 ->
  (if nobase then mod_ = 0 /\ rm = 5 else (mod_ = 0 -> rm mod 8 <> 5) /\ disp_fits mod_ offset) ->
  parse_modrm (expected opc r rm index)
    (64 * mod_ + 8 * (r mod 8) + 4 :: 64 * shift + 8 * (index mod 8) + rm mod 8 ::
     (if nobase then unpack 8 4 offset else disp_of mod_ offset) ++ rest) =
    Some (r, OMem (if nobase then None else Some rm) (if index =? 4 then None else Some (index, shift)) (int32_t offset), rest).
Proof.
  intros Hr Hm Hx Hs Hb. destruct (expected_rex opc r rm index Hr Hm Hx) as (_ & E1 & E3 & E2).
  assert (0 <= mod_ < 3) as Hmod by (destruct nobase; [|unfold disp_fits in Hb]; lia).
  destruct (field_bytes mod_ (r mod 8) 4 ltac:(lia) (mod8_range _) ltac:(lia)) as (_ & F1 & F2 & F3).
  destruct (field_bytes shift (index mod 8) (rm mod 8) ltac:(lia) (mod8_range _) (mod8_range _)) as (_ & G1 & G2 & G3).
  unfold parse_modrm. rewrite F1, F2, F3, E1, split_reg by done. destruct (Z.eqb_spec mod_ 3); [lia|].
  cbn [Z.eqb Pos.eqb]. unfold parse_sib. rewrite G1, G2, G3, E2, E3, !split_reg by done.
  destruct nobase; [destruct Hb as [-> ->]; cbn [Z.eqb Pos.eqb andb]|destruct Hb as [H5 Hd]].
  - change (5 mod 8 =? 5) with true. cbn [andb]. by rewrite take_word.
  - assert ((rm mod 8 =? 5) && (mod_ =? 0) = false) as ->.
    { destruct (Z.eqb_spec (rm mod 8) 5), (Z.eqb_spec mod_ 0); cbn; try done. exfalso. by apply H5. }
    by rewrite take_disp.
Qed.

(** ** What is written is read back *)

(** At [p] the emitter writes the instruction [i], up to the [n] bytes of its immediate
    operand. *)
Definition decodes (e : Emit) (p : Z) (n : nat) (i : Z -> insn) : Prop :=
  exists out, e p = Some out /\
    forall imm l l', take_signed n l = Some (imm, l') -> decode (out ++ l) = Some (i imm, l').

Lemma modrm_decodes opc r rm n p : is_reg r -> is_reg rm -> modrm_op opc n ->
  decodes (tcg_out_modrm opc r rm) p n
    (mkInsn (opcode_of opc) (size_of opc) (needs_rex opc r rm 0) (has opc P_ADDR32) r (OReg rm)).
Proof.
  intros Hr Hm Ho. assert (is_reg 0) as H0 by (unfold is_reg; lia).
  exists (opc_bytes opc r rm 0 ++ [0xc0 + 8 * (r mod 8) + rm mod 8]). split.
  - unfold tcg_out_modrm, emit_seq. rewrite tcg_out_opc_bytes by (done || apply Ho). cbn [mbind option_bind].
    unfold tcg_out8. cbn [mbind option_bind]. rewrite !low_reg, fields_lor by (naive_solver || apply mod8_range).
    destruct (field_bytes 3 (r mod 8) (rm mod 8) ltac:(lia) (mod8_range _) (mod8_range _)) as (F & _).
    change (64 * 3) with 0xc0 in F. by rewrite F.
  - intros imm l l' Ht. rewrite <- app_assoc. by eapply decode_parts; [..|apply parse_register|].
Qed.

(** The operand that [tcg_out_modrm_sib_offset] is asked for; a negative register stands for
    none. *)
Definition mem_operand (rm index shift offset : Z) : X86Sem.operand :=
  OMem (if rm <? 0 then None else Some rm) (if index <? 0 then None else Some (index, shift)) (int32_t offset).

Definition mem_rex (opc r rm index : Z) : bool :=
  needs_rex opc r (if rm <? 0 then 5 else rm) (if index <? 0 then 0 else index).

Lemma addend_spec rm offset : exists mod_ len rm', addend_mode rm offset = (64 * mod_, len, rm') /\ rm' = (if rm <? 0 then 5 else rm) /\
  0 <= mod_ < 3 /\
  if rm <? 0 then mod_ = 0 /\ len = 4 /\ rm' = 5
  else (mod_ = 0 -> rm' mod 8 <> 5) /\ disp_fits mod_ offset /\ (len = if mod_ =? 1 then 1 else if mod_ =? 2 then 4 else 0).
Proof.
  unfold addend_mode. destruct (Z.ltb_spec rm 0).
  { exists 0, 4, 5. split_and!; done || lia. }
  assert (forall (b : bool), (b = true -> offset = 0 /\ rm mod 8 <> 5) -> exists mod_ len rm',
    (if b then (0, 0, rm) else if offset =? int8_t offset then (0x40, 1, rm) else (0x80, 4, rm)) = (64 * mod_, len, rm') /\ rm' = rm /\
    0 <= mod_ < 3 /\ (mod_ = 0 -> rm' mod 8 <> 5) /\ disp_fits mod_ offset /\ (len = if mod_ =? 1 then 1 else if mod_ =? 2 then 4 else 0)) as Hall.
  { unfold disp_fits. intros [|] Hb; [destruct (Hb eq_refl); by exists 0, 0, rm; split_and!; try lia; auto|].
    destruct (Z.eqb_spec offset (int8_t offset)); [exists 1, 1, rm|exists 2, 4, rm]; split_and!; try done; try lia; auto. }
  apply Hall. rewrite low_reg. intros [E1%Z.eqb_eq E2]%andb_prop. by apply negb_true_iff, Z.eqb_neq in E2.
Qed.

Lemma mem_fields mod_ r b : 0 <= mod_ < 3 -> 0 <= b < 8 ->
  uint8_t (Z.lor (Z.lor (64 * mod_) (Z.shiftl (LOWREGMASK r) 3)) b) = 64 * mod_ + 8 * (r mod 8) + b.
Proof.
  intros Hm Hb. pose proof (mod8_range r). rewrite low_reg, fields_lor by (lia || done).
  by destruct (field_bytes mod_ (r mod 8) b ltac:(lia) ltac:(lia) Hb) as (F & _).
Qed.

Lemma sib_fields shift index b : 0 <= shift < 4 -> 0 <= b < 8 ->
  uint8_t (Z.lor (Z.lor (Z.shiftl shift 6) (Z.shiftl (LOWREGMASK index) 3)) b) = 64 * shift + 8 * (index mod 8) + b.
Proof.
  intros Hm Hb. pose proof (mod8_range index). rewrite Z.shiftl_mul_pow2 by lia. change (2 ^ 6) with 64.
  rewrite low_reg, fields_lor by lia.
  destruct (field_bytes shift (index mod 8) b ltac:(lia) ltac:(lia) Hb) as (F & _). rewrite Z.mul_comm. done.
Qed.

Lemma emit_seq_some e1 e2 p b1 b2 : e1 p = Some b1 -> e2 (p + Z.of_nat (length b1)) = Some b2 -> (e1 ;;; e2)%C p = Some (b1 ++ b2).
Proof. intros E1 E2. unfold emit_seq. rewrite E1. cbn [mbind option_bind]. by rewrite E2. Qed.

Lemma emit_seq_assoc e1 e2 e3 p : ((e1 ;;; e2) ;;; e3)%C p = (e1 ;;; e2 ;;; e3)%C p.
Proof.
  unfold emit_seq. destruct (e1 p) as [b1|]; cbn [mbind option_bind]; [|done].
  destruct (e2 _) as [b2|]; cbn [mbind option_bind]; [|done]. rewrite length_app, Nat2Z.inj_add, Z.add_assoc.
  destruct (e3 _) as [b3|]; cbn [mbind option_bind]; [|done]. by rewrite app_assoc.
Qed.

Lemma emit_seq_cong e1 e2 e2' p : (forall q, e2 q = e2' q) -> (e1 ;;; e2)%C p = (e1 ;;; e2')%C p.
Proof. intros H. unfold emit_seq. destruct (e1 p); cbn [mbind option_bind]; [by rewrite H|done]. Qed.

Lemma emit_seq_assoc3 e1 e2 e3 e p : ((e1 ;;; e2 ;;; e3) ;;; e)%C p = (e1 ;;; e2 ;;; e3 ;;; e)%C p.
Proof. rewrite emit_seq_assoc. apply emit_seq_cong. intros q. apply emit_seq_assoc. Qed.

Lemma emit_nil_seq e p : (emit_nil ;;; e)%C p = e p.
Proof. unfold emit_seq, emit_nil. cbn [mbind option_bind length Z.of_nat]. rewrite Z.add_0_r. by destruct (e p). Qed.

(** The displacement that [len] selects. *)
Lemma disp_bytes_emitted mod_ offset len q : len = (if mod_ =? 1 then 1 else if mod_ =? 2 then 4 else 0) ->
  (if len =? 1 then tcg_out8 offset else if len =? 4 then tcg_out32 offset else emit_nil) q = Some (disp_of mod_ offset).
Proof. intros ->. unfold disp_of. by destruct (mod_ =? 1), (mod_ =? 2). Qed.

(** Without an index, where no SIB byte is needed. *)
Lemma base_decodes opc r rm shift offset n p : is_reg r -> is_reg rm -> rm mod 8 <> 4 -> modrm_op opc n ->
  decodes (tcg_out_modrm_sib_offset opc r rm (-1) shift offset) p n
    (mkInsn (opcode_of opc) (size_of opc) (needs_rex opc r rm 0) (has opc P_ADDR32) r (OMem (Some rm) None (int32_t offset))).
Proof.
  intros Hr Hm H4 Ho. assert (is_reg 0) as H0 by (unfold is_reg; lia). unfold tcg_out_modrm_sib_offset.
  destruct (addend_spec rm offset) as (mod_ & len & rm' & -> & -> & Hmod & Hs). unfold is_reg in Hm.
  destruct (Z.ltb_spec rm 0); [lia|]. destruct Hs as (H5 & Hd & Hlen). rewrite low_reg. destruct (Z.eqb_spec (rm mod 8) 4); [lia|].
  change (-1 <? 0) with true. cbn [andb negb].
  exists (opc_bytes opc r rm 0 ++ [64 * mod_ + 8 * (r mod 8) + rm mod 8] ++ disp_of mod_ offset). split.
  - rewrite emit_seq_assoc. apply emit_seq_some; [by apply tcg_out_opc_bytes; try apply Ho|].
    apply emit_seq_some; [|by apply disp_bytes_emitted]. unfold tcg_out8. by rewrite mem_fields by (done || apply mod8_range).
  - intros imm l l' Ht. rewrite <- !app_assoc. cbn [app]. by eapply decode_parts; [..|apply parse_base|].
Qed.

(** With a SIB byte: [x] is the index, or 4 for none. *)
Definition with_sib (opc r rm x shift offset mod_ len : Z) : Emit :=
  (tcg_out_opc opc r rm x ;;; tcg_out8 (Z.lor (Z.lor mod_ (Z.shiftl (LOWREGMASK r) 3)) 4) ;;;
   tcg_out8 (Z.lor (Z.lor (Z.shiftl shift 6) (Z.shiftl (LOWREGMASK x) 3)) (LOWREGMASK rm)) ;;;
   (if len =? 1 then tcg_out8 offset else if len =? 4 then tcg_out32 offset else emit_nil))%C.

Lemma scaled_decodes opc r rm x shift offset n p : is_reg r -> rm < 16 -> is_reg x -> 0 <= shift < 4 -> modrm_op opc n ->
  let '(mod_, len, rm') := addend_mode rm offset in
  decodes (with_sib opc r rm' x shift offset mod_ len) p n
    (mkInsn (opcode_of opc) (size_of opc) (needs_rex opc r (if rm <? 0 then 5 else rm) x) (has opc P_ADDR32) r
       (OMem (if rm <? 0 then None else Some rm) (if x =? 4 then None else Some (x, shift)) (int32_t offset))).
Proof.
  intros Hr Hm Hx Hs Ho. destruct (addend_spec rm offset) as (mod_ & len & rm' & -> & E' & Hmod & Hsp). rewrite <- E'.
  assert (is_reg rm') as Hm' by (subst rm'; unfold is_reg in *; destruct (Z.ltb_spec rm 0); lia).
  exists (opc_bytes opc r rm' x ++ [64 * mod_ + 8 * (r mod 8) + 4] ++ [64 * shift + 8 * (x mod 8) + rm' mod 8] ++
    (if rm <? 0 then unpack 8 4 offset else disp_of mod_ offset)). split.
  - apply emit_seq_some; [by apply tcg_out_opc_bytes; try apply Ho|].
    apply emit_seq_some; [unfold tcg_out8; by rewrite mem_fields by (done || lia)|].
    apply emit_seq_some; [unfold tcg_out8; by rewrite (low_reg rm'), sib_fields by (done || apply mod8_range)|].
    destruct (rm <? 0); [by destruct Hsp as (_ & -> & _)|]. apply disp_bytes_emitted, Hsp.
  - intros imm l l' Ht. rewrite <- !app_assoc. cbn [app].
    assert ((if rm <? 0 then None else Some rm) = (if rm <? 0 then None else Some rm')) as -> by (subst rm'; by destruct (rm <? 0)).
    eapply decode_parts; [done..| |done]. apply (parse_scaled _ _ _ _ _ _ _ (rm <? 0)); try done. by destruct (rm <? 0); naive_solver.
Qed.

Lemma sib_form opc r rm index shift offset p : 0 <= rm \/ 0 <= index -> index <> 4 -> (index < 0 -> rm mod 8 = 4) ->
  let '(mod_, len, rm') := addend_mode rm offset in
  tcg_out_modrm_sib_offset opc r rm index shift offset p =
    with_sib opc r rm' (if index <? 0 then 4 else index) shift offset mod_ len p.
Proof.
  intros Hor H4 Hsib. unfold tcg_out_modrm_sib_offset.
  destruct (addend_spec rm offset) as (mod_ & len & rm' & -> & E' & _).
  assert ((index <? 0) && (rm <? 0) = false) as -> by (destruct (Z.ltb_spec index 0), (Z.ltb_spec rm 0); cbn; done || lia).
  assert ((index <? 0) && negb (LOWREGMASK rm' =? 4) = false) as ->.
  { destruct (Z.ltb_spec index 0); [cbn [andb]|done]. subst rm'. destruct (Z.ltb_spec rm 0); [lia|]. by rewrite low_reg, Hsib by lia. }
  assert (forall e, ((if index <? 0 then emit_nil else emit_assert (negb (index =? 4))) ;;; e)%C p = e p) as Ha.
  { intros e. destruct (index <? 0); [apply emit_nil_seq|]. destruct (Z.eqb_spec index 4); [done|]. apply emit_nil_seq. }
  rewrite emit_seq_assoc, Ha. unfold with_sib. cbn zeta. rewrite !emit_seq_assoc.
  unfold emit_seq at 1 4. by destruct (tcg_out_opc _ _ _ _ _) as [b|]; cbn [mbind option_bind]; [rewrite emit_seq_assoc|].
Qed.

Lemma mem_decodes opc r rm index shift offset n p :
  is_reg r -> rm < 16 -> index < 16 -> index <> 4 -> 0 <= rm \/ 0 <= index -> 0 <= shift < 4 -> modrm_op opc n ->
  decodes (tcg_out_modrm_sib_offset opc r rm index shift offset) p n
    (mkInsn (opcode_of opc) (size_of opc) (mem_rex opc r rm index) (has opc P_ADDR32) r (mem_operand rm index shift offset)).
Proof.
  intros Hr Hm Hx H4 Hor Hs Ho. unfold mem_operand, mem_rex.
  destruct (decide (index < 0 /\ rm mod 8 <> 4)) as [[Hi E4]|Hsib].
  - assert (tcg_out_modrm_sib_offset opc r rm index shift offset = tcg_out_modrm_sib_offset opc r rm (-1) shift offset) as ->.
    { unfold tcg_out_modrm_sib_offset. destruct (Z.ltb_spec index 0); [done|lia]. }
    destruct (Z.ltb_spec index 0); [|lia]. destruct (Z.ltb_spec rm 0); [lia|]. by apply base_decodes.
  - pose proof (sib_form opc r rm index shift offset p Hor H4 ltac:(lia)) as E.
    pose proof (scaled_decodes opc r rm (if index <? 0 then 4 else index) shift offset n p Hr Hm) as Hd.
    destruct (addend_mode rm offset) as [[mod_ len] rm']. unfold decodes. rewrite E.
    destruct (Z.ltb_spec index 0); [by apply Hd; unfold is_reg; try lia|].
    destruct (Z.eqb_spec index 4); [done|]. apply Hd; done || (unfold is_reg; lia).
Qed.

(** ** Registers in the opcode, and no operand *)

(** The register is added to the opcode. *)
Record plus_op (opc : Z) (n : nat) : Prop := {
  po_opcode k : 0 <= k < 8 -> opcode_ok (opc + k);
  po_sizes k : 0 <= k < 8 -> sizes_ok (opc + k);
  po_code k : 0 <= k < 8 -> opcode_of (opc + k) = opcode_of opc + k;
  po_flags k : 0 <= k < 8 -> has (opc + k) P_REXW = has opc P_REXW /\ has (opc + k) P_DATA16 = has opc P_DATA16 /\
    has (opc + k) P_ADDR32 = has opc P_ADDR32;
  po_aligned : opcode_of opc mod 8 = 0;
  po_format k : 0 <= k < 8 -> format_of (opcode_of opc + k) (has opc P_REXW) = Some (FPlus n)
}.

Lemma plus_decodes opc reg n p : is_reg reg -> plus_op opc n ->
  decodes (tcg_out_opc (opc + LOWREGMASK reg) 0 reg 0) p n
    (mkInsn (opcode_of opc) (size_of opc) (needs_rex (opc + reg mod 8) 0 reg 0) (has opc P_ADDR32) 0 (OReg reg)).
Proof.
  intros Hr [H1 H2 H3 H4 H5 H6]. pose proof (mod8_range reg) as Hk. rewrite low_reg. set (k := reg mod 8) in *.
  assert (is_reg 0) as H0 by (unfold is_reg; lia).
  exists (opc_bytes (opc + k) 0 reg 0). split; [by apply tcg_out_opc_bytes; try apply H2|].
  intros imm l l' Ht. unfold decode. rewrite parse_opc by (done || by apply H1). cbn [mbind option_bind].
  destruct (expected_rex (opc + k) 0 reg 0 H0 Hr H0) as (-> & _ & _ & ->). cbn [p_opc p_ext p_data16 p_rex p_addr32 expected].
  fold (opcode_of (opc + k)). destruct (H4 k Hk) as (-> & -> & ->). rewrite (H3 k Hk), (H6 k Hk). cbn [mbind option_bind]. rewrite Ht.
  cbn [mbind option_bind]. unfold size_of.
  assert ((opcode_of opc + k) mod 8 = k) as -> by (pose proof (Z.div_mod (opcode_of opc) 8); Z.to_euclidean_division_equations; lia).
  assert (k + 8 * (reg / 8) = reg) as -> by (by apply split_reg). do 3 f_equal; [lia|].
  destruct (needs_rex (opc + k) 0 reg 0); [by apply bool_decide_eq_true_2|by apply bool_decide_eq_false_2; intros [? ?]].
Qed.

(** Without an operand. *)
Record plain_op (opc : Z) (n : nat) : Prop := {
  la_opcode : opcode_ok opc;
  la_sizes : sizes_ok opc;
  la_format : format_of (opcode_of opc) (has opc P_REXW) = Some (FPlain n)
}.

Lemma plain_decodes opc n p : plain_op opc n ->
  decodes (tcg_out_opc opc 0 0 0) p n
    (mkInsn (opcode_of opc) (size_of opc) (needs_rex opc 0 0 0) (has opc P_ADDR32) 0 (OReg 0)).
Proof.
  intros [H1 H2 H3]. assert (is_reg 0) as H0 by (unfold is_reg; lia).
  exists (opc_bytes opc 0 0 0). split; [by apply tcg_out_opc_bytes|].
  intros imm l l' Ht. unfold decode. rewrite parse_opc by done. cbn [mbind option_bind].
  destruct (expected_rex opc 0 0 0 H0 H0 H0) as (-> & _). cbn [p_opc p_ext p_data16 p_rex p_addr32 expected].
  fold (opcode_of opc). rewrite H3. cbn [mbind option_bind]. rewrite Ht. cbn [mbind option_bind]. unfold size_of. do 3 f_equal.
  destruct (needs_rex opc 0 0 0); [by apply bool_decide_eq_true_2|by apply bool_decide_eq_false_2; intros [? ?]].
Qed.

Lemma take_quad v rest : take_signed 8 (unpack 8 4 v ++ unpack 8 4 (Z.shiftr (Z.shiftr v 31) 1) ++ rest) = Some (int64_t v, rest).
Proof.
  rewrite app_assoc, Z.shiftr_shiftr by lia. change (31 + 1) with 32.
  assert (unpack 8 4 v ++ unpack 8 4 (Z.shiftr v 32) = unpack 8 8 v) as ->.
  { unfold unpack. cbn [seq fmap list_fmap app]. unfold lane. rewrite !Z.shiftr_shiftr by lia. reflexivity. }
  by apply take_bytes; lia.
Qed.
