(* ===== verification/X86Run.v ===== *)
(** * Running what the encoder writes

    [does e p s t s']: the bytes that the emitter [e] writes at address [p], wherever the
    code around them ends, take the processor from state [s] at [p] to state [s'] at address
    [t].  [falls e p s s'] ends behind the bytes.  The lemmas give the effect of one
    instruction and of a sequence, and that of the instructions on registers. *)

From S2P Require Import Prelude TcgIr X86Enc X86Sem X86Decode.
Open Scope Z_scope.

(** ** Pieces of code *)

(** [out] at [p], with any code before and after it. *)
Definition runs (out : list Z) (p : Z) (s : X86) (t : Z) (s' : X86) : Prop :=
  forall base pre post, p = base + Z.of_nat (length pre) ->
    exists n, x86_steps n base (pre ++ out ++ post) (p, s) = Some (t, s').

Definition does (e : Emit) (p : Z) (s : X86) (t : Z) (s' : X86) : Prop :=
  exists out, e p = Some out /\ runs out p s t s'.

Definition falls (e : Emit) (p : Z) (s s' : X86) : Prop :=
  exists out, e p = Some out /\ runs out p s (p + Z.of_nat (length out)) s'.

Lemma x86_steps_add n m base code c c1 c2 :
  x86_steps n base code c = Some c1 -> x86_steps m base code c1 = Some c2 -> x86_steps (n + m) base code c = Some c2.
Proof.
  revert c. induction n as [|n IH]; intros c; cbn; [intros [= ->]; done|].
  destruct (x86_step base code c) as [c'|]; cbn; [|done]. apply IH.
Qed.

Lemma runs_nil p s : runs [] p s p s.
Proof. intros base pre post _. by exists 0%nat. Qed.

Lemma runs_app o1 o2 p s s1 t s' :
  runs o1 p s (p + Z.of_nat (length o1)) s1 -> runs o2 (p + Z.of_nat (length o1)) s1 t s' -> runs (o1 ++ o2) p s t s'.
Proof.
  intros H1 H2 base pre post Hp. destruct (H1 base pre (o2 ++ post) Hp) as [n Hn].
  destruct (H2 base (pre ++ o1) post) as [m Hm]; [rewrite length_app; lia|].
  exists (n + m)%nat. rewrite <- !app_assoc in *. by eapply x86_steps_add.
Qed.

(** A piece that jumps away. *)
Lemma runs_jump o1 o2 p s t s' : runs o1 p s t s' -> runs (o1 ++ o2) p s t s'.
Proof. intros H base pre post Hp. rewrite <- app_assoc. by apply H. Qed.

Lemma runs_insn out i p s t s' :
  (forall l, decode (out ++ l) = Some (i, l)) -> exec i (p + Z.of_nat (length out)) s = Some (t, s') ->
  runs out p s (default (p + Z.of_nat (length out)) t) s'.
Proof.
  intros Hd He base pre post Hp. exists 1%nat. unfold x86_steps, x86_step. destruct (Z.ltb_spec p base); [lia|].
  replace (Z.to_nat (p - base)) with (length pre) by lia. rewrite drop_app_length, Hd. cbn [mbind option_bind].
  rewrite length_app. replace (length out + length post - length post)%nat with (length out) by lia. by rewrite He.
Qed.

Lemma falls_ext e e' p s s' : e p = e' p -> falls e' p s s' -> falls e p s s'.
Proof. intros E (out & E1 & R). exists out. by rewrite E. Qed.

Lemma does_ext e e' p s t s' : e p = e' p -> does e' p s t s' -> does e p s t s'.
Proof. intros E (out & E1 & R). exists out. by rewrite E. Qed.

Lemma falls_nil p s : falls emit_nil p s s.
Proof. exists []. split; [done|]. cbn. rewrite Z.add_0_r. apply runs_nil. Qed.

Lemma does_seq e1 e2 p s s1 t s' : falls e1 p s s1 -> (forall q, does e2 q s1 t s') -> does (e1 ;;; e2)%C p s t s'.
Proof.
  intros (o1 & E1 & R1) H2. destruct (H2 (p + Z.of_nat (length o1))) as (o2 & E2 & R2).
  exists (o1 ++ o2). split; [by apply emit_seq_some|]. by eapply runs_app.
Qed.

Lemma falls_seq e1 e2 p s s1 s' : falls e1 p s s1 -> (forall q, falls e2 q s1 s') -> falls (e1 ;;; e2)%C p s s'.
Proof.
  intros (o1 & E1 & R1) H2. destruct (H2 (p + Z.of_nat (length o1))) as (o2 & E2 & R2).
  exists (o1 ++ o2). split; [by apply emit_seq_some|]. rewrite length_app, Nat2Z.inj_add, Z.add_assoc. by eapply runs_app.
Qed.

(** The same where the state depends on the place. *)
Lemma falls_then e1 e2 p s s1 (P : X86 -> Prop) : falls e1 p s s1 -> (forall q, exists s', falls e2 q s1 s' /\ P s') ->
  exists s', falls (e1 ;;; e2)%C p s s' /\ P s'.
Proof.
  intros (o1 & E1 & R1) H2. destruct (H2 (p + Z.of_nat (length o1))) as (s' & (o2 & E2 & R2) & HP).
  exists s'. split; [|done]. exists (o1 ++ o2). split; [by apply emit_seq_some|].
  rewrite length_app, Nat2Z.inj_add, Z.add_assoc. by eapply runs_app.
Qed.

Lemma does_then e1 e2 p s s1 t (P : X86 -> Prop) : falls e1 p s s1 -> (forall q, exists s', does e2 q s1 t s' /\ P s') ->
  exists s', does (e1 ;;; e2)%C p s t s' /\ P s'.
Proof.
  intros (o1 & E1 & R1) H2. destruct (H2 (p + Z.of_nat (length o1))) as (s' & (o2 & E2 & R2) & HP).
  exists s'. split; [|done]. exists (o1 ++ o2). split; [by apply emit_seq_some|]. by eapply runs_app.
Qed.

(** ** One instruction *)

(** An emitter of the bytes of an immediate operand. *)
Definition immediate (e : Emit) (n : nat) (v : Z) : Prop :=
  exists out, (forall p, e p = Some out) /\ forall l, take_signed n (out ++ l) = Some (v, l).

Lemma immediate_none : immediate emit_nil 0 0.
Proof. by exists []. Qed.

Lemma immediate8 v : immediate (tcg_out8 v) 1 (int8_t v).
Proof. exists [uint8_t v]. split; [done|]. intros l. apply take_byte. Qed.

Lemma immediate32 v : immediate (tcg_out32 v) 4 (int32_t v).
Proof. exists (unpack 8 4 v). split; [done|]. intros l. apply take_word. Qed.

Lemma immediate64 v : immediate (tcg_out32 v ;;; tcg_out32 (Z.shiftr (Z.shiftr v 31) 1))%C 8 (int64_t v).
Proof.
  exists (unpack 8 4 v ++ unpack 8 4 (Z.shiftr (Z.shiftr v 31) 1)). split; [intros p; by apply emit_seq_some|].
  intros l. rewrite <- app_assoc. apply take_quad.
Qed.

Lemma insn_does e im n i v p s t s' :
  decodes e p n i -> immediate im n v -> (forall next, exec (i v) next s = Some (Some t, s')) -> does (e ;;; im)%C p s t s'.
Proof.
  intros (o1 & E1 & Hd) (o2 & E2 & Ht) He. exists (o1 ++ o2). split; [by apply emit_seq_some|].
  apply (runs_insn (o1 ++ o2) (i v) p s (Some t) s'); [|done]. intros l. rewrite <- app_assoc. by apply Hd.
Qed.

Lemma insn_falls e im n i v p s s' :
  decodes e p n i -> immediate im n v -> (forall next, exec (i v) next s = Some (None, s')) -> falls (e ;;; im)%C p s s'.
Proof.
  intros (o1 & E1 & Hd) (o2 & E2 & Ht) He. exists (o1 ++ o2). split; [by apply emit_seq_some|].
  apply (runs_insn (o1 ++ o2) (i v) p s None s'); [|done]. intros l. rewrite <- app_assoc. by apply Hd.
Qed.

Lemma emit_seq_nil e p : (e ;;; emit_nil)%C p = e p.
Proof. unfold emit_seq, emit_nil. destruct (e p); cbn; [by rewrite app_nil_r|done]. Qed.

(** Without an immediate operand. *)
Lemma insn_falls_0 e i p s s' :
  decodes e p 0 i -> (forall next, exec (i 0) next s = Some (None, s')) -> falls e p s s'.
Proof.
  intros Hd He. destruct (insn_falls e emit_nil 0 i 0 p s s' Hd immediate_none He) as (out & E & R). exists out.
  by rewrite emit_seq_nil in E.
Qed.

Lemma insn_does_0 e i p s t s' :
  decodes e p 0 i -> (forall next, exec (i 0) next s = Some (Some t, s')) -> does e p s t s'.
Proof.
  intros Hd He. destruct (insn_does e emit_nil 0 i 0 p s t s' Hd immediate_none He) as (out & E & R). exists out.
  by rewrite emit_seq_nil in E.
Qed.
