(* ===== verification/X86Alu.v ===== *)
(** * What the emitted instructions compute

    The effect of the emitters of X86Enc on registers, in terms of the operations of the
    processor (X86Sem): moves, constants, arithmetic with a register or a constant,
    comparisons, shifts, extensions. *)

From S2P Require Import Prelude TcgIr X86Enc X86Sem X86Decode X86Run.
Open Scope Z_scope.

(** ** Results *)

(** Register [d] gets [v]; the other registers and memory are left. *)
Record sets (s s' : X86) (d v : Z) : Prop := {
  sets_reg : xr s' d = v;
  sets_other r : r <> d -> xr s' r = xr s r;
  sets_mem : xm s' = xm s
}.

Lemma sets_set_reg s d v f : sets s (with_flags (set_reg s d v) f) d v.
Proof. split; cbn; [by rewrite Z.eqb_refl| |done]. intros r Hr. by rewrite (proj2 (Z.eqb_neq _ _) Hr). Qed.

Lemma sets_set_reg' s d v : sets s (set_reg s d v) d v.
Proof. by destruct (sets_set_reg s d v (xf s)). Qed.

Lemma sets_seq s s1 s' d v1 v : sets s s1 d v1 -> sets s1 s' d v -> sets s s' d v.
Proof. intros [_ H1 M1] [H2 H3 M2]. split; [done| |congruence]. intros r Hr. by rewrite H3, H1. Qed.

Lemma sets_flags s f s' d v : sets (with_flags s f) s' d v -> sets s s' d v.
Proof. intros [H1 H2 H3]. by split. Qed.

Lemma write_reg_wide s ty rex d v : write_reg s (bits ty) rex d v = set_reg s d (uint (bits ty) v).
Proof. by destruct ty. Qed.

Lemma read_reg_wide s ty rex r : read_reg s (bits ty) rex r = uint (bits ty) (xr s r).
Proof. by destruct ty. Qed.

Lemma bits_pos ty : 0 <= bits ty.
Proof. by destruct ty. Qed.

Lemma uint_bits ty x : in_u (bits ty) (uint (bits ty) x).
Proof. apply uint_range, bits_pos. Qed.

Lemma uint_twice ty x : uint (bits ty) (uint (bits ty) x) = uint (bits ty) x.
Proof. apply uint_id, uint_bits. Qed.

(** ** Instructions on registers *)

(** An opcode with a ModRM byte at a type. *)
Record typed_op (opc : Z) (ty : TCGType) (op : Z) (n : nat) : Prop := {
  to_modrm : modrm_op opc n;
  to_code : opcode_of opc = op;
  to_size : size_of opc = bits ty;
  to_addr : has opc P_ADDR32 = false
}.

Ltac solve_opc :=
  first [left; vm_compute; reflexivity | right; vm_compute; split_and!; congruence].
Ltac solve_modrm := split; [solve_opc|vm_compute; reflexivity..].
Ltac solve_typed := split; [solve_modrm|vm_compute; reflexivity..].

Lemma typed_falls opc ty op n r rm im v p s s' : typed_op opc ty op n -> is_reg r -> is_reg rm -> immediate im n v ->
  (forall rex next, (rex = needs_rex opc r rm 0) -> exec (mkInsn op (bits ty) rex false r (OReg rm) v) next s = Some (None, s')) ->
  falls (tcg_out_modrm opc r rm ;;; im)%C p s s'.
Proof.
  intros [Ho <- <- Ha] Hr Hm Hi He. eapply insn_falls; [by apply modrm_decodes|done|]. cbn beta. intros next. rewrite Ha. by apply He.
Qed.

Lemma typed_falls_0 opc ty op r rm p s s' : typed_op opc ty op 0 -> is_reg r -> is_reg rm ->
  (forall rex next, (rex = needs_rex opc r rm 0) -> exec (mkInsn op (bits ty) rex false r (OReg rm) 0) next s = Some (None, s')) ->
  falls (tcg_out_modrm opc r rm) p s s'.
Proof.
  intros [Ho <- <- Ha] Hr Hm He. eapply insn_falls_0; [by apply modrm_decodes|]. cbn beta. intros next. rewrite Ha. by apply He.
Qed.

(** ** Arithmetic *)

Definition alu_code (c : Z) : Prop := c = 0 \/ c = 1 \/ c = 4 \/ c = 5 \/ c = 6 \/ c = 7.

(** The state after operation [c] of group 1 on register [d] and the value [b]. *)
Definition arith_done (ty : TCGType) (c d b : Z) (s s' : X86) : Prop :=
  match alu c (bits ty) (uint (bits ty) (xr s d)) (uint (bits ty) b) with
  | Some (Some v, _) => sets s s' d v
  | Some (None, f) => s' = with_flags s (Some f)
  | None => False
  end.

Lemma alu_range c ty a b v f : in_u (bits ty) a -> in_u (bits ty) b -> alu c (bits ty) a b = Some (Some v, f) -> uint (bits ty) v = v.
Proof.
  intros Ha Hb. unfold alu. assert (forall x, Z.testbit a x = true -> x < bits ty) as Hba.
  { intros x Hx. destruct (Z.lt_ge_cases x (bits ty)); [done|]. by rewrite (in_u_testbit (bits ty) a x) in Hx by (done || apply bits_pos). }
  assert (forall x, Z.testbit b x = true -> x < bits ty) as Hbb.
  { intros x Hx. destruct (Z.lt_ge_cases x (bits ty)); [done|]. by rewrite (in_u_testbit (bits ty) b x) in Hx by (done || apply bits_pos). }
  assert (forall z, 0 <= z -> (forall x, Z.testbit z x = true -> x < bits ty) -> uint (bits ty) z = z) as Hz.
  { intros z H0 H. apply uint_id, testbit_in_u; [apply bits_pos|done|]. intros x Hx. destruct (Z.testbit z x) eqn:E; [|done].
    apply H in E. lia. }
  unfold in_u in *. repeat case_match; intros [= <- <-]; try apply uint_twice; apply Hz.
  all: try (apply Z.lor_nonneg || apply Z.land_nonneg || apply Z.lxor_nonneg; lia).
  - intros x. rewrite Z.lor_spec. intros [|]%orb_prop; auto.
  - intros x. rewrite Z.land_spec. intros [? _]%andb_prop; auto.
  - intros x. rewrite Z.lxor_spec. destruct (Z.testbit a x) eqn:E; [by auto|]. cbn. auto.
Qed.

Lemma arith_opcode c ty : alu_code c ->
  exists opc, typed_op opc ty (8 * c + 3) 0 /\ forall d r p, tgen_arithr (c + rexw_of ty) d r p = tcg_out_modrm opc d r p.
Proof.
  intros Hc. exists (OPC_ARITH_GvEv + 8 * c + rexw_of ty).
  destruct Hc as [->|[->|[->|[->|[->| ->]]]]], ty; (split; [solve_typed|reflexivity]).
Qed.

Lemma exec_arith c w rex d r next s : alu_code c ->
  exec (mkInsn (8 * c + 3) w rex false d (OReg r) 0) next s =
    ('(v, f) ← alu c w (read_reg s w rex d) (read_reg s w rex r);
     Some (None, with_flags (match v with Some v => write_reg s w rex d v | None => s end) (Some f))).
Proof. by intros [->|[->|[->|[->|[->| ->]]]]]. Qed.

(** The state and flags that an operation of group 1 leaves. *)
Lemma arith_state ty c d b rex s : alu_code c ->
  exists v f, alu c (bits ty) (uint (bits ty) (xr s d)) (uint (bits ty) b) = Some (v, f) /\
    arith_done ty c d b s (with_flags (match v with Some v => write_reg s (bits ty) rex d v | None => s end) (Some f)).
Proof.
  intros Hc. unfold arith_done. destruct (alu c _ _ _) as [[v f]|] eqn:E.
  - exists v, f. split; [done|]. destruct v as [v|]; [|done]. rewrite write_reg_wide.
    rewrite (alu_range c ty _ _ v f (uint_bits _ _) (uint_bits _ _) E). apply sets_set_reg.
  - exfalso. by destruct Hc as [->|[->|[->|[->|[->| ->]]]]].
Qed.

Lemma arithr_does ty c d r p s : alu_code c -> is_reg d -> is_reg r ->
  exists s', falls (tgen_arithr (c + rexw_of ty) d r) p s s' /\ arith_done ty c d (xr s r) s s'.
Proof.
  intros Hc Hd Hr. destruct (arith_opcode c ty Hc) as (opc & Ho & E).
  destruct (arith_state ty c d (xr s r) (needs_rex opc d r 0) s Hc) as (v & f & Ea & Hdone).
  eexists. split; [|exact Hdone]. eapply falls_ext; [by apply E|]. eapply typed_falls_0; [done..|].
  intros rex next ->. rewrite exec_arith, !read_reg_wide, Ea by done. done.
Qed.

(** *** With a constant *)

Lemma exec_arith_imm c w op rex r v next s : alu_code c -> op = 0x81 \/ op = 0x83 ->
  exec (mkInsn op w rex false c (OReg r) v) next s =
    ('(x, f) ← alu c w (read_reg s w rex r) (uint w v);
     Some (None, with_flags (match x with Some x => write_reg s w rex r x | None => s end) (Some f))).
Proof.
  intros Hc [-> | ->]; unfold exec; cbn [i_size i_op i_reg i_imm i_rm i_rex]; cbn;
    destruct (alu c w _ _) as [[[x|] f]|]; done.
Qed.

Lemma alu_code_reg c : alu_code c -> is_reg c.
Proof. unfold alu_code, is_reg. lia. Qed.

(** The immediate operand stands for [val] at the type. *)
Lemma arith_imm_does ty c d val v opc op n im p s : alu_code c -> is_reg d -> typed_op opc ty op n -> op = 0x81 \/ op = 0x83 ->
  immediate im n v -> uint (bits ty) v = uint (bits ty) val ->
  exists s', falls (tcg_out_modrm opc c d ;;; im)%C p s s' /\ arith_done ty c d val s s'.
Proof.
  intros Hc Hd Ho Hop Hi Hv. destruct (arith_state ty c d val (needs_rex opc c d 0) s Hc) as (x & f & Ea & Hdone).
  eexists. split; [|exact Hdone]. eapply typed_falls; [done|by apply alu_code_reg|done..|].
  intros rex next ->. rewrite exec_arith_imm, !read_reg_wide, Hv, Ea by done. done.
Qed.

Lemma uint_int32 ty val : ty = TCG_TYPE_I32 \/ val = int32_t val -> uint (bits ty) (int32_t val) = uint (bits ty) val.
Proof. intros [-> | <-]; [by apply uint_sint|done]. Qed.

Lemma out_arith_imm_does ty c d val p s : alu_code c -> is_reg d -> ty = TCG_TYPE_I32 \/ val = int32_t val ->
  exists s', falls (out_arith_imm c (rexw_of ty) d val) p s s' /\ arith_done ty c d val s s'.
Proof.
  intros Hc Hd Hv. unfold out_arith_imm. destruct (Z.eqb_spec val (int8_t val)) as [H8|H8].
  - eapply (arith_imm_does ty c d val _ _ 0x83); [done|done|by destruct ty; solve_typed|by right|apply immediate8|by rewrite <- H8].
  - assert ((rexw_of ty =? 0) || (val =? int32_t val) = true) as ->.
    { destruct Hv as [-> | <-]; [done|]. by rewrite Z.eqb_refl, orb_true_r. }
    eapply (arith_imm_does ty c d val _ _ 0x81); [done|done|by destruct ty; solve_typed|by left|apply immediate32|by apply uint_int32].
Qed.

(** *** The special cases of [tgen_arithi] *)

Lemma arith_sets ty c d b s s' v f : alu c (bits ty) (uint (bits ty) (xr s d)) (uint (bits ty) b) = Some (Some v, f) ->
  sets s s' d v -> arith_done ty c d b s s'.
Proof. intros E H. unfold arith_done. by rewrite E. Qed.

(** [inc] and [dec]. *)
Lemma step_by_one ty (up : bool) d p s : is_reg d ->
  exists s', falls (tcg_out_modrm (OPC_GRP5 + rexw_of ty) (if up then EXT5_INC_Ev else EXT5_DEC_Ev) d) p s s' /\
    sets s s' d (uint (bits ty) (xr s d + if up then 1 else -1)).
Proof.
  intros Hd. exists (with_flags (set_reg s d (uint (bits ty) (xr s d + if up then 1 else -1))) None).
  split; [|apply sets_set_reg]. apply (typed_falls_0 _ ty 0xff); [destruct ty; solve_typed|by destruct up|done|].
  intros rex next _. destruct up; unfold exec; cbn -[write_reg read_reg uint bits];
    rewrite read_reg_wide, write_reg_wide; do 4 f_equal; destruct ty; cbn [bits]; cint.
Qed.

(** ** Moves and extensions *)

(** A byte register is read as such where the opcode asks for a REX prefix. *)
Lemma read_byte_rm s opc r rm : has opc P_REXB_RM = true -> read_reg s 8 (needs_rex opc r rm 0) rm = uint8_t (xr s rm).
Proof.
  intros Hf. unfold read_reg. destruct (Z.le_gt_cases 4 rm) as [H|H].
  - assert (needs_rex opc r rm 0 = true) as ->; [|done]. unfold needs_rex. rewrite Hf, (proj2 (Z.leb_le _ _) H). apply orb_true_r.
  - assert (between 4 7 rm = false) as ->; [|by rewrite andb_false_r]. unfold between. by rewrite (proj2 (Z.leb_gt _ _) H).
Qed.

Lemma read_byte_r s opc r rm x : has opc P_REXB_R = true -> read_reg s 8 (needs_rex opc r rm x) r = uint8_t (xr s r).
Proof.
  intros Hf. unfold read_reg. destruct (Z.le_gt_cases 4 r) as [H|H].
  - assert (needs_rex opc r rm x = true) as ->; [|done]. unfold needs_rex. rewrite Hf, (proj2 (Z.leb_le _ _) H).
    by rewrite andb_true_l, orb_true_r.
  - assert (between 4 7 r = false) as ->; [|by rewrite andb_false_r]. unfold between. by rewrite (proj2 (Z.leb_gt _ _) H).
Qed.

Lemma exec_movzb w rex d r next s : exec (mkInsn 0x1b6 w rex false d (OReg r) 0) next s = Some (None, write_reg s w rex d (read_reg s 8 rex r)).
Proof. done. Qed.
Lemma exec_movsb w rex d r next s : exec (mkInsn 0x1be w rex false d (OReg r) 0) next s = Some (None, write_reg s w rex d (sint 8 (read_reg s 8 rex r))).
Proof. done. Qed.
Lemma exec_movzw w rex d r next s : exec (mkInsn 0x1b7 w rex false d (OReg r) 0) next s = Some (None, write_reg s w rex d (uint 16 (xr s r))).
Proof. done. Qed.
Lemma exec_movsw w rex d r next s : exec (mkInsn 0x1bf w rex false d (OReg r) 0) next s = Some (None, write_reg s w rex d (sint 16 (uint 16 (xr s r)))).
Proof. done. Qed.
Lemma exec_mov w rex d r next s : exec (mkInsn 0x8b w rex false d (OReg r) 0) next s = Some (None, write_reg s w rex d (read_reg s w rex r)).
Proof. done. Qed.
Lemma exec_movslq rex d r next s : exec (mkInsn 0x63 64 rex false d (OReg r) 0) next s = Some (None, write_reg s 64 rex d (sint 32 (uint 32 (xr s r)))).
Proof. done. Qed.

(** An instruction that writes [v] to [d]. *)
Lemma writes_reg opc ty op d r p s v : typed_op opc ty op 0 -> is_reg d -> is_reg r ->
  (forall next, exec (mkInsn op (bits ty) (needs_rex opc d r 0) false d (OReg r) 0) next s =
     Some (None, write_reg s (bits ty) (needs_rex opc d r 0) d v)) ->
  exists s', falls (tcg_out_modrm opc d r) p s s' /\ sets s s' d (uint (bits ty) v).
Proof.
  intros Ho Hd Hr He. exists (set_reg s d (uint (bits ty) v)). split; [|apply sets_set_reg'].
  eapply typed_falls_0; [done..|]. intros rex next ->. by rewrite He, write_reg_wide.
Qed.

Lemma ext8u_does d r p s : is_reg d -> is_reg r -> exists s', falls (tcg_out_ext8u d r) p s s' /\ sets s s' d (uint8_t (xr s r)).
Proof.
  intros Hd Hr. replace (uint8_t (xr s r)) with (uint (bits TCG_TYPE_I32) (uint8_t (xr s r))) by (cbn [bits]; cint).
  apply (writes_reg _ TCG_TYPE_I32 0x1b6); [solve_typed|done..|]. intros next. by rewrite exec_movzb, read_byte_rm by done.
Qed.

Lemma ext8s_does ty d r p s : is_reg d -> is_reg r ->
  exists s', falls (tcg_out_ext8s d r (rexw_of ty)) p s s' /\ sets s s' d (uint (bits ty) (int8_t (xr s r))).
Proof.
  intros Hd Hr. apply (writes_reg _ ty 0x1be); [destruct ty; solve_typed|done..|]. intros next.
  rewrite exec_movsb, read_byte_rm by (by destruct ty). unfold uint8_t. by rewrite sint_uint.
Qed.

Lemma ext16u_does d r p s : is_reg d -> is_reg r -> exists s', falls (tcg_out_ext16u d r) p s s' /\ sets s s' d (uint16_t (xr s r)).
Proof.
  intros Hd Hr. replace (uint16_t (xr s r)) with (uint (bits TCG_TYPE_I32) (uint16_t (xr s r))) by (cbn [bits]; cint).
  apply (writes_reg _ TCG_TYPE_I32 0x1b7); [solve_typed|done..|]. intros next. apply exec_movzw.
Qed.

Lemma ext16s_does ty d r p s : is_reg d -> is_reg r ->
  exists s', falls (tcg_out_ext16s d r (rexw_of ty)) p s s' /\ sets s s' d (uint (bits ty) (int16_t (xr s r))).
Proof.
  intros Hd Hr. apply (writes_reg _ ty 0x1bf); [destruct ty; solve_typed|done..|]. intros next.
  rewrite exec_movsw. by rewrite sint_uint.
Qed.

Lemma movl_does ty d r p s : is_reg d -> is_reg r ->
  exists s', falls (tcg_out_modrm (OPC_MOVL_GvEv + rexw_of ty) d r) p s s' /\ sets s s' d (uint (bits ty) (xr s r)).
Proof.
  intros Hd Hr. rewrite <- uint_twice. apply (writes_reg _ ty 0x8b); [destruct ty; solve_typed|done..|]. intros next.
  by rewrite exec_mov, read_reg_wide.
Qed.

Lemma ext32u_does d r p s : is_reg d -> is_reg r -> exists s', falls (tcg_out_ext32u d r) p s s' /\ sets s s' d (uint32_t (xr s r)).
Proof. apply (movl_does TCG_TYPE_I32). Qed.

Lemma ext32s_does d r p s : is_reg d -> is_reg r ->
  exists s', falls (tcg_out_ext32s d r) p s s' /\ sets s s' d (uint64_t (int32_t (xr s r))).
Proof.
  intros Hd Hr. apply (writes_reg _ TCG_TYPE_I64 0x63); [solve_typed|done..|]. intros next.
  change (bits TCG_TYPE_I64) with 64. rewrite exec_movslq. by rewrite sint_uint.
Qed.

(** ** Arithmetic with a constant *)

Lemma land_uint a k n : 0 <= k <= n -> Z.land (uint n a) (Z.ones k) = uint k a.
Proof. intros Hk. rewrite <- uint_land by lia. by apply uint_uint. Qed.

(** A constant the target accepts for the operation: see [tcg_target_const_match]. *)
Definition arith_const (ty : TCGType) (c val : Z) : Prop :=
  ty = TCG_TYPE_I32 \/ val = int32_t val \/ c = ARITH_AND /\ val = uint32_t val.

Lemma arithi_and ty d val p s : is_reg d -> arith_const ty ARITH_AND val ->
  exists s', falls (tgen_arithi (ARITH_AND + rexw_of ty) d val false) p s s' /\ arith_done ty ARITH_AND d val s s'.
Proof.
  intros Hd Hv.
  assert (tgen_arithi (ARITH_AND + rexw_of ty) d val false =
    if val =? 0xffffffff then tcg_out_ext32u d d
    else if val =? 0xff then tcg_out_ext8u d d else if val =? 0xffff then tcg_out_ext16u d d
    else out_arith_imm ARITH_AND (if val =? uint32_t val then 0 else rexw_of ty) d val) as -> by (by destruct ty).
  assert (forall k, k = 32 \/ k = 16 \/ k = 8 -> val = Z.ones k ->
    alu ARITH_AND (bits ty) (uint (bits ty) (xr s d)) (uint (bits ty) val) =
      Some (Some (uint k (xr s d)), flags_logic (bits ty) (uint k (xr s d)))) as Hmask.
  { intros k Hk ->. assert (uint (bits ty) (Z.ones k) = Z.ones k) as ->.
    { destruct Hk as [->|[->| ->]], ty; reflexivity. }
    unfold alu. cbn [Z.eqb Pos.eqb ARITH_AND]. rewrite land_uint; [done|]. destruct ty; cbn; lia. }
  destruct (Z.eqb_spec val 0xffffffff) as [E|N1].
  { destruct (ext32u_does d d p s Hd Hd) as (s' & F & S). exists s'. split; [done|]. eapply arith_sets; [by apply (Hmask 32); auto|done]. }
  destruct (Z.eqb_spec val 0xff) as [E|N2].
  { destruct (ext8u_does d d p s Hd Hd) as (s' & F & S). exists s'. split; [done|]. eapply arith_sets; [by apply (Hmask 8); auto|done]. }
  destruct (Z.eqb_spec val 0xffff) as [E|N3].
  { destruct (ext16u_does d d p s Hd Hd) as (s' & F & S). exists s'. split; [done|]. eapply arith_sets; [by apply (Hmask 16); auto|done]. }
  destruct (Z.eqb_spec val (uint32_t val)) as [Eu|Nu].
  2: { apply out_arith_imm_does; [unfold alu_code; auto|done|]. unfold arith_const in Hv. naive_solver. }
  destruct (out_arith_imm_does TCG_TYPE_I32 ARITH_AND d val p s) as (s' & F & S); [unfold alu_code; auto|done|by left|].
  exists s'. split; [done|]. eapply arith_sets; [reflexivity|]. unfold arith_done, alu in S. cbn [Z.eqb Pos.eqb ARITH_AND bits] in S.
  replace (Z.land (uint (bits ty) (xr s d)) (uint (bits ty) val)) with (Z.land (uint 32 (xr s d)) (uint 32 val)); [done|].
  destruct ty; [done|]. cbn [bits]. assert (uint 64 val = uint 32 val) as -> by (rewrite Eu; cint).
  bitwise.
Qed.

Lemma arithi_split ty c d val : alu_code c -> c <> ARITH_AND ->
  tgen_arithi (c + rexw_of ty) d val false =
    if ((c =? ARITH_ADD) || (c =? ARITH_SUB)) && ((val =? 1) || (val =? -1)) then
      tcg_out_modrm (OPC_GRP5 + rexw_of ty) (if xorb (c =? ARITH_ADD) (val <? 0) then EXT5_INC_Ev else EXT5_DEC_Ev) d
    else out_arith_imm c (rexw_of ty) d val.
Proof. by intros [->|[->|[->|[->|[->| ->]]]]] N; destruct ty. Qed.

Lemma arithi_does ty c d val p s : alu_code c -> is_reg d -> arith_const ty c val ->
  exists s', falls (tgen_arithi (c + rexw_of ty) d val false) p s s' /\ arith_done ty c d val s s'.
Proof.
  intros Hc Hd Hv. destruct (decide (c = ARITH_AND)) as [->|Hn]; [by apply arithi_and|].
  rewrite arithi_split by done.
  assert (ty = TCG_TYPE_I32 \/ val = int32_t val) as Hv' by (unfold arith_const in Hv; naive_solver).
  destruct (((c =? ARITH_ADD) || (c =? ARITH_SUB)) && ((val =? 1) || (val =? -1))) eqn:E; [|by apply out_arith_imm_does].
  apply andb_prop in E as [Ec Ev]. set (up := xorb (c =? ARITH_ADD) (val <? 0)).
  destruct (step_by_one ty up d p s Hd) as (s' & F & S). exists s'. split; [done|].
  assert (exists f, alu c (bits ty) (uint (bits ty) (xr s d)) (uint (bits ty) val) =
    Some (Some (uint (bits ty) (xr s d + if up then 1 else -1)), f)) as [f Ea]; [|by eapply arith_sets].
  unfold up. apply orb_prop in Ec as [->%Z.eqb_eq| ->%Z.eqb_eq], Ev as [->%Z.eqb_eq| ->%Z.eqb_eq];
    eexists; unfold alu; cbn [Z.eqb Pos.eqb ARITH_ADD ARITH_SUB]; do 3 f_equal;
    rewrite ?uint_add, ?uint_sub; reflexivity.
Qed.

Lemma cmp_does ty a b (const : bool) p s : is_reg a -> (if const then arith_const ty ARITH_CMP b else is_reg b) ->
  exists f, falls (tcg_out_cmp a b const (rexw_of ty)) p s (with_flags s (Some f)) /\
    let x := uint (bits ty) (xr s a) in let y := uint (bits ty) (if const then b else xr s b) in
    f = if const && (b =? 0) then flags_logic (bits ty) x else flags_sub (bits ty) x y.
Proof.
  intros Ha Hb. unfold tcg_out_cmp. assert (alu_code ARITH_CMP) as Hc by (unfold alu_code, ARITH_CMP; lia).
  assert (forall val s', arith_done ty ARITH_CMP a val s s' ->
    s' = with_flags s (Some (flags_sub (bits ty) (uint (bits ty) (xr s a)) (uint (bits ty) val)))) as Hsub by done.
  destruct const; [destruct (Z.eqb_spec b 0) as [->|Hz]|].
  - eexists. split; [|reflexivity]. apply (typed_falls_0 _ ty 0x85); [destruct ty; solve_typed|done..|].
    intros rex next _. unfold exec. cbn -[read_reg uint bits flags_logic]. rewrite read_reg_wide, Z.land_diag. done.
  - destruct (arithi_does ty ARITH_CMP a b p s Hc Ha Hb) as (s' & F & S). apply Hsub in S. subst s'. by eexists.
  - destruct (arithr_does ty ARITH_CMP a b p s Hc Ha Hb) as (s' & F & S). apply Hsub in S. subst s'. by eexists.
Qed.

(** ** Conditions *)

Lemma less_flags ty x y : in_u (bits ty) x -> in_u (bits ty) y ->
  xorb (SF (flags_sub (bits ty) x y)) (OF (flags_sub (bits ty) x y)) = (sint (bits ty) x <? sint (bits ty) y).
Proof.
  intros Hx Hy. cbn [SF OF flags_sub]. unfold msb. rewrite Z.testbit_eqb by (destruct ty; cbn; lia).
  assert (uint (bits ty) (x - y) / 2 ^ (bits ty - 1) = 0 \/ uint (bits ty) (x - y) / 2 ^ (bits ty - 1) = 1) as Hq.
  { destruct ty; cbn [bits]; cint. }
  destruct (Z.ltb_spec (sint (bits ty) x) (sint (bits ty) y)), (Z.eqb_spec (sint (bits ty) x - sint (bits ty) y) (sint (bits ty) (uint (bits ty) (x - y))));
    destruct Hq as [Hq|Hq]; rewrite Hq; cbn; try done; exfalso; unfold in_u in *; destruct ty; cbn [bits] in *; cint.
Qed.

Lemma zero_flag_sub ty x y : in_u (bits ty) x -> in_u (bits ty) y -> ZF (flags_sub (bits ty) x y) = (x =? y).
Proof.
  intros Hx Hy. cbn [ZF flags_sub]. destruct (Z.eqb_spec x y) as [->|N].
  - rewrite Z.sub_diag. by destruct ty.
  - apply Z.eqb_neq. unfold in_u in *. destruct ty; cbn [bits] in *; cint.
Qed.

(** Comparing with 0 sets the flags that [test] sets, as far as the conditions tell. *)
Lemma test_flags ty x : in_u (bits ty) x -> flags_logic (bits ty) x = flags_sub (bits ty) x 0.
Proof.
  intros Hx. unfold flags_logic, flags_sub. rewrite Z.sub_0_r, uint_id by done. f_equal.
  - symmetry. apply Z.ltb_ge. apply Hx.
  - destruct (Z.eqb_spec (sint (bits ty) x - sint (bits ty) 0) (sint (bits ty) x)) as [|N]; [done|].
    exfalso. apply N. replace (sint (bits ty) 0) with 0 by (by destruct ty). lia.
Qed.

Lemma jcc_condition ty x y cond : in_u (bits ty) x -> in_u (bits ty) y ->
  condition (tcg_cond_to_jcc cond) (flags_sub (bits ty) x y) = Some (tci_compare (bits ty) x y cond).
Proof.
  intros Hx Hy. pose proof (less_flags ty x y Hx Hy) as HL. pose proof (zero_flag_sub ty x y Hx Hy) as HZ.
  assert (CF (flags_sub (bits ty) x y) = (x <? y)) as HC by done.
  assert (forall f, condition (tcg_cond_to_jcc cond) f = Some (match cond with
    | TCG_COND_EQ => ZF f | TCG_COND_NE => negb (ZF f)
    | TCG_COND_LT => xorb (SF f) (OF f) | TCG_COND_GE => negb (xorb (SF f) (OF f))
    | TCG_COND_LE => ZF f || xorb (SF f) (OF f) | TCG_COND_GT => negb (ZF f || xorb (SF f) (OF f))
    | TCG_COND_LTU => CF f | TCG_COND_GEU => negb (CF f)
    | TCG_COND_LEU => CF f || ZF f | TCG_COND_GTU => negb (CF f || ZF f) end)) as -> by (by destruct cond).
  rewrite HL, HZ, HC. f_equal. unfold tci_compare.
  assert (sint (bits ty) x = sint (bits ty) y -> x = y) as Hinj by (unfold in_u in *; destruct ty; cbn [bits] in *; cint).
  destruct cond, (Z.ltb_spec x y), (Z.eqb_spec x y), (Z.ltb_spec (sint (bits ty) x) (sint (bits ty) y)); cbn; symmetry;
    rewrite ?Z.leb_le, ?Z.leb_gt, ?Z.ltb_lt, ?Z.ltb_ge; try lia; try done; subst; lia.
Qed.

(** A comparison, and what a condition then tells. *)
Lemma compare_does ty a b (const : bool) p s : is_reg a -> (if const then arith_const ty ARITH_CMP b else is_reg b) ->
  exists f, falls (tcg_out_cmp a b const (rexw_of ty)) p s (with_flags s (Some f)) /\
    forall cond, condition (tcg_cond_to_jcc cond) f =
      Some (tci_compare (bits ty) (uint (bits ty) (xr s a)) (uint (bits ty) (if const then b else xr s b)) cond).
Proof.
  intros Ha Hb. destruct (cmp_does ty a b const p s Ha Hb) as (f & F & Ef). exists f. split; [done|]. intros cond.
  cbn zeta in Ef. rewrite Ef. destruct const; cbn [andb]; [destruct (Z.eqb_spec b 0) as [->|]|]; [|by apply jcc_condition; apply uint_bits..].
  rewrite test_flags by apply uint_bits. change (uint (bits ty) 0) with 0 at 1.
  replace (uint (bits ty) 0) with 0 by (by destruct ty). apply jcc_condition; [apply uint_bits|]. by destruct ty.
Qed.
