(* ===== verification/X86Shift.v ===== *)
(** * What the emitted instructions compute: constants, shifts, conditions, memory

    Continues X86Alu: constants in registers, the one-operand instructions, multiplication,
    address arithmetic, shifts, [setcc], byte swaps, bit-field deposits, division, loads
    and stores. *)

From S2P Require Import Prelude TcgIr X86Enc X86Sem X86Decode X86Run X86Alu.
Open Scope Z_scope.

(** ** Moves and constants *)

Lemma mov_does ty d r p s : is_reg d -> is_reg r ->
  exists s', falls (tcg_out_mov ty d r) p s s' /\ sets s s' d (if r =? d then xr s d else uint (bits ty) (xr s r)).
Proof.
  intros Hd Hr. unfold tcg_out_mov. destruct (Z.eqb_spec r d) as [->|N]; cbn [negb]; [|by apply movl_does].
  exists s. split; [apply falls_nil|]. by split.
Qed.

Lemma octal k : 0 <= k < 8 -> k = 0 \/ k = 1 \/ k = 2 \/ k = 3 \/ k = 4 \/ k = 5 \/ k = 6 \/ k = 7.
Proof. lia. Qed.

(** The eight registers of an opcode. *)
Ltac solve_plus :=
  split; try (intros k Hk; apply octal in Hk as [->|[->|[->|[->|[->|[->|[->| ->]]]]]]]);
  first [solve_opc | vm_compute; repeat split].

Lemma plus_movl : plus_op OPC_MOVL_Iv 4.
Proof. solve_plus. Qed.
Lemma plus_movq : plus_op (OPC_MOVL_Iv + P_REXW) 8.
Proof. solve_plus. Qed.
Lemma plus_push : plus_op OPC_PUSH_r32 0.
Proof. solve_plus. Qed.
Lemma plus_pop : plus_op OPC_POP_r32 0.
Proof. solve_plus. Qed.
Lemma plus_bswap32 : plus_op OPC_BSWAP 0.
Proof. solve_plus. Qed.
Lemma plus_bswap64 : plus_op (OPC_BSWAP + P_REXW) 0.
Proof. solve_plus. Qed.

Lemma exec_movi ty rex d v next s :
  exec (mkInsn 0xb8 (bits ty) rex false 0 (OReg d) v) next s = Some (None, set_reg s d (uint (bits ty) v)).
Proof. by destruct ty. Qed.

(** The constant is the value of the register, zero extended for the 32-bit type. *)
Lemma movi_does ty d val p s : is_reg d ->
  exists s', falls (tcg_out_movi ty d val) p s s' /\ sets s s' d (uint (bits ty) val).
Proof.
  intros Hd. unfold tcg_out_movi. destruct (Z.eqb_spec val 0) as [->|Hz].
  - destruct (arithr_does TCG_TYPE_I32 ARITH_XOR d d p s) as (s' & F & S); [unfold alu_code; auto 10|done..|].
    exists s'. split; [done|]. unfold arith_done, alu in S. cbn [Z.eqb Pos.eqb ARITH_XOR] in S. rewrite Z.lxor_nilpotent in S. by destruct ty.
  - destruct ((val =? uint32_t val) || bool_decide (ty = TCG_TYPE_I32)) eqn:E; [|destruct (Z.eqb_spec val (int32_t val)) as [E3|E3]].
    + exists (set_reg s d (uint 32 (int32_t val))). split.
      * eapply insn_falls; [by apply (plus_decodes OPC_MOVL_Iv), plus_movl|apply immediate32|].
        intros next. apply (exec_movi TCG_TYPE_I32).
      * unfold int32_t. rewrite uint_sint by lia. replace (uint (bits ty) val) with (uint 32 val); [apply sets_set_reg'|]. apply orb_prop in E as [E%Z.eqb_eq| ->%bool_decide_eq_true]; [|done].
        destruct ty; [done|]. cbn [bits]. rewrite E. cint.
    + assert (ty = TCG_TYPE_I64) as -> by (destruct ty; [by rewrite orb_true_r in E|done]).
      exists (set_reg s d (uint 64 val)). split; [|apply sets_set_reg'].
      eapply (typed_falls _ TCG_TYPE_I64 0xc7); [solve_typed|done..|apply immediate32|].
      intros rex next _. unfold exec. cbn -[write_reg int32_t uint bits]. rewrite write_reg_wide. by rewrite <- E3.
    + assert (ty = TCG_TYPE_I64) as -> by (destruct ty; [by rewrite orb_true_r in E|done]).
      exists (set_reg s d (uint 64 (int64_t val))). unfold int64_t. rewrite uint_sint by lia. split; [|apply sets_set_reg'].
      rewrite <- (uint_sint 64) by lia.
      eapply insn_falls; [by apply (plus_decodes (OPC_MOVL_Iv + P_REXW)), plus_movq|apply immediate64|].
      intros next. apply (exec_movi TCG_TYPE_I64).
Qed.

(** ** One operand *)

Lemma not_does ty d p s : is_reg d ->
  exists s', falls (tcg_out_modrm (OPC_GRP3_Ev + rexw_of ty) EXT3_NOT d) p s s' /\ sets s s' d (uint (bits ty) (Z.lnot (uint (bits ty) (xr s d)))).
Proof.
  intros Hd. exists (set_reg s d (uint (bits ty) (Z.lnot (uint (bits ty) (xr s d))))). split; [|apply sets_set_reg'].
  apply (typed_falls_0 _ ty 0xf7); [destruct ty; solve_typed|done..|].
  intros rex next _. unfold exec. cbn -[write_reg read_reg uint bits]. by rewrite read_reg_wide, write_reg_wide.
Qed.

Lemma neg_does ty d p s : is_reg d ->
  exists s', falls (tcg_out_modrm (OPC_GRP3_Ev + rexw_of ty) EXT3_NEG d) p s s' /\ sets s s' d (uint (bits ty) (- uint (bits ty) (xr s d))).
Proof.
  intros Hd. eexists. split; [|apply (sets_set_reg _ _ _ None)].
  apply (typed_falls_0 _ ty 0xf7); [destruct ty; solve_typed|done..|].
  intros rex next _. unfold exec. cbn -[write_reg read_reg uint bits]. by rewrite read_reg_wide, write_reg_wide.
Qed.

(** ** Multiplication *)

Lemma mul_does ty d r p s : is_reg d -> is_reg r ->
  exists s', falls (tcg_out_modrm (OPC_IMUL_GvEv + rexw_of ty) d r) p s s' /\
    sets s s' d (uint (bits ty) (uint (bits ty) (xr s d) * uint (bits ty) (xr s r))).
Proof.
  intros Hd Hr. eexists. split; [|apply (sets_set_reg _ _ _ None)].
  apply (typed_falls_0 _ ty 0x1af); [destruct ty; solve_typed|done..|].
  intros rex next _. unfold exec, to_reg. cbn -[write_reg read_reg uint bits]. by rewrite !read_reg_wide, write_reg_wide.
Qed.

Lemma muli_does ty d val v opc op n im p s : typed_op opc ty op n -> op = 0x69 \/ op = 0x6b -> is_reg d -> immediate im n v ->
  uint (bits ty) v = uint (bits ty) val ->
  exists s', falls (tcg_out_modrm opc d d ;;; im)%C p s s' /\ sets s s' d (uint (bits ty) (uint (bits ty) (xr s d) * uint (bits ty) val)).
Proof.
  intros Ho Hop Hd Hi Hv. eexists. split; [|apply (sets_set_reg _ _ _ None)]. eapply typed_falls; [done..|].
  intros rex next _. destruct Hop as [-> | ->]; unfold exec, to_reg; cbn -[write_reg read_reg uint bits]; rewrite read_reg_wide, write_reg_wide.
  all: do 4 f_equal; rewrite <- Hv, <- (uint_mul _ (uint _ (xr s d)) v), uint_twice; done.
Qed.

(** ** Addresses *)

Lemma lea_does ty d a x offset p s : is_reg d -> is_reg a -> x < 16 -> x <> 4 ->
  exists s', falls (tcg_out_modrm_sib_offset (OPC_LEA + rexw_of ty) d a x 0 offset) p s s' /\
    sets s s' d (uint (bits ty) (xr s a + (if x <? 0 then 0 else xr s x) + int32_t offset)).
Proof.
  intros Hd Ha Hx H4. eexists. split; [|apply sets_set_reg'].
  eapply insn_falls_0; [apply mem_decodes; [done|by destruct Ha|done|done|left; by destruct Ha|lia|destruct ty; solve_modrm]|].
  intros next. cbn beta.
  assert (opcode_of (OPC_LEA + rexw_of ty) = 0x8d /\ size_of (OPC_LEA + rexw_of ty) = bits ty /\ has (OPC_LEA + rexw_of ty) P_ADDR32 = false)
    as (-> & -> & ->) by (by destruct ty).
  unfold exec, to_reg, address, mem_operand. cbn -[write_reg uint64_t uint bits int32_t]. rewrite write_reg_wide. do 3 f_equal.
  destruct (Z.ltb_spec a 0); [unfold is_reg in Ha; lia|]. unfold uint64_t. rewrite uint_uint by (destruct ty; cbn; lia).
  f_equal. f_equal. f_equal. by destruct (x <? 0); [|rewrite Z.shiftl_0_r].
Qed.

(** ** Shifts and rotations *)

Definition shift_code (b : binop) : option Z :=
  match b with
  | op_rotl => Some SHIFT_ROL | op_rotr => Some SHIFT_ROR
  | op_shl => Some SHIFT_SHL | op_shr => Some SHIFT_SHR | op_sar => Some SHIFT_SAR
  | _ => None
  end.

(** The processor takes the count modulo the width: within the range that the operation is
    defined for it is the same. *)
Lemma shift_eval b c ty x t v count : shift_code b = Some c -> in_u (bits ty) x -> 0 <= t ->
  eval_bin b (bits ty) x t = Some v -> count mod bits ty = t ->
  exists v', shift_op c (bits ty) x count = Some v' /\ uint (bits ty) v' = v.
Proof.
  intros Hb Hx Ht He Hc. assert (t < bits ty) as Hlt.
  { unfold eval_bin, shift_count in He. destruct b; try done; by destruct (Z.ltb_spec t (bits ty)). }
  assert (shift_op c (bits ty) x count = shift_op c (bits ty) x t) as ->.
  { unfold shift_op. assert (count mod (if bits ty =? 64 then 64 else 32) = t mod (if bits ty =? 64 then 64 else 32)) as ->; [|done].
    rewrite (Z.mod_small t) by (destruct ty; cbn in *; lia). by destruct ty. }
  assert (t mod (if bits ty =? 64 then 64 else 32) = t) as Em by (rewrite Z.mod_small by (destruct ty; cbn in *; lia); done).
  unfold shift_op. rewrite Em. rewrite (Z.mod_small t (bits ty)) by lia.
  unfold eval_bin, shift_count in He. rewrite (proj2 (Z.ltb_lt _ _) Hlt) in He.
  destruct b; try done; injection Hb as <-; injection He as <-; eexists; (split; [reflexivity|]); try apply uint_twice.
  apply uint_id. unfold in_u in *. rewrite Z.shiftr_div_pow2 by lia. pose proof (Z.pow_pos_nonneg 2 t ltac:(lia) Ht).
  split; [apply Z.div_pos; lia|]. apply Z.div_lt_upper_bound; [lia|]. pose proof (Z.pow_pos_nonneg 2 (bits ty) ltac:(lia) (bits_pos ty)). nia.
Qed.

Lemma shift_falls ty b c d opc op n im v cnt x p s : shift_code b = Some c -> is_reg d -> typed_op opc ty op n -> immediate im n v ->
  (op = 0xc1 /\ cnt = uint8_t v \/ op = 0xd1 /\ cnt = 1 \/ op = 0xd3 /\ cnt = uint8_t (xr s 1)) ->
  shift_op c (bits ty) (uint (bits ty) (xr s d)) cnt = Some x ->
  exists s', falls (tcg_out_modrm opc c d ;;; im)%C p s s' /\ sets s s' d (uint (bits ty) x).
Proof.
  intros Hb Hd Ho Hi Hop Hx. eexists. split; [|apply (sets_set_reg _ _ _ None)].
  eapply typed_falls; [done|by destruct b; try done; injection Hb as <-|done..|].
  intros rex next _. destruct Hop as [[-> ->]|[[-> ->]|[-> ->]]]; unfold exec; cbn -[write_reg read_reg uint uint8_t bits shift_op];
    rewrite read_reg_wide, Hx; cbn -[write_reg uint bits]; by rewrite write_reg_wide.
Qed.

Lemma count_byte ty v : uint8_t v mod bits ty = v mod bits ty.
Proof. destruct ty; cbn [bits]; cint. Qed.

Lemma count_word ty v : uint (bits ty) v mod bits ty = v mod bits ty.
Proof. destruct ty; cbn [bits]; cint. Qed.

(** The count as an operand, in range. *)
Lemma count_in_range b ty x count v : shift_code b <> None -> eval_bin b (bits ty) x (uint (bits ty) count) = Some v ->
  count mod bits ty = uint (bits ty) count.
Proof.
  intros Hb He. rewrite <- count_word. apply Z.mod_small. pose proof (uint_bits ty count) as Hr. unfold in_u in Hr. split; [lia|].
  unfold eval_bin, shift_count in He. destruct b; try done; by destruct (Z.ltb_spec (uint (bits ty) count) (bits ty)).
Qed.

Lemma shifti_does ty b c d count v p s : shift_code b = Some c -> is_reg d ->
  eval_bin b (bits ty) (uint (bits ty) (xr s d)) (uint (bits ty) count) = Some v ->
  exists s', falls (tcg_out_shifti (c + rexw_of ty) d count) p s s' /\ sets s s' d v.
Proof.
  intros Hb Hd He. pose proof (count_in_range b ty _ count v ltac:(by rewrite Hb) He) as Hc.
  assert (tcg_out_shifti (c + rexw_of ty) d count =
    if count =? 1 then tcg_out_modrm (OPC_SHIFT_1 + rexw_of ty) c d
    else (tcg_out_modrm (OPC_SHIFT_Ib + rexw_of ty) c d ;;; tcg_out8 count)%C) as ->.
  { destruct b; try done; injection Hb as <-; by destruct ty. }
  assert (0 <= uint (bits ty) count) as H0 by apply uint_bits.
  destruct (Z.eqb_spec count 1) as [->|N].
  - destruct (shift_eval b c ty _ _ v 1 Hb (uint_bits _ _) H0 He Hc) as (v' & E1 & <-).
    destruct (shift_falls ty b c d (OPC_SHIFT_1 + rexw_of ty) 0xd1 0 emit_nil 0 1 v' p s) as (s' & F & S); [done|done|destruct ty; solve_typed|apply immediate_none|auto|done|].
    exists s'. split; [|done]. eapply falls_ext; [|done]. by rewrite emit_seq_nil.
  - destruct (shift_eval b c ty _ _ v (uint8_t (int8_t count)) Hb (uint_bits _ _) H0 He) as (v' & E1 & <-).
    { unfold uint8_t, int8_t. rewrite uint_sint by lia. fold (uint8_t count). by rewrite count_byte. }
    eapply (shift_falls ty b c d _ 0xc1); [done|done|destruct ty; solve_typed|apply immediate8|auto|done].
Qed.

Lemma shift_cl_does ty b c d v p s : shift_code b = Some c -> is_reg d ->
  eval_bin b (bits ty) (uint (bits ty) (xr s d)) (uint (bits ty) (xr s 1)) = Some v ->
  exists s', falls (tcg_out_modrm (OPC_SHIFT_cl + rexw_of ty) c d) p s s' /\ sets s s' d v.
Proof.
  intros Hb Hd He. pose proof (count_in_range b ty _ _ v ltac:(by rewrite Hb) He) as Hc.
  destruct (shift_eval b c ty _ _ v (uint8_t (xr s 1)) Hb (uint_bits _ _) ltac:(apply uint_bits) He) as (v' & E1 & <-); [by rewrite count_byte|].
  destruct (shift_falls ty b c d (OPC_SHIFT_cl + rexw_of ty) 0xd3 0 emit_nil 0 (uint8_t (xr s 1)) v' p s) as (s' & F & S);
    [done|done|destruct ty; solve_typed|apply immediate_none|auto|done|].
  exists s'. split; [|done]. eapply falls_ext; [|done]. by rewrite emit_seq_nil.
Qed.
