(* ===== verification/X86Mem.v ===== *)
(** * What the emitted instructions compute: conditions, bytes, division, memory

    Continues X86Shift: [setcc], byte swaps, bit-field deposits, division, loads, stores,
    jumps and the stack. *)

From S2P Require Import Prelude TcgIr X86Enc X86Sem X86Decode X86Run X86Alu X86Shift.
Open Scope Z_scope.

(** ** Conditions as values *)

Lemma write_byte_rm s opc r rm v : has opc P_REXB_RM = true ->
  write_reg s 8 (needs_rex opc r rm 0) rm v = set_reg s rm (Z.lor (Z.ldiff (xr s rm) 255) (uint8_t v)).
Proof.
  intros Hf. unfold write_reg. destruct (Z.le_gt_cases 4 rm) as [H|H].
  - assert (needs_rex opc r rm 0 = true) as ->; [|done]. unfold needs_rex. rewrite Hf, (proj2 (Z.leb_le _ _) H). apply orb_true_r.
  - assert (between 4 7 rm = false) as ->; [|by rewrite andb_false_r]. unfold between. by rewrite (proj2 (Z.leb_gt _ _) H).
Qed.

Lemma low_byte x v : in_u 8 v -> uint8_t (Z.lor (Z.ldiff x 255) v) = v.
Proof.
  intros Hv. unfold uint8_t. rewrite uint_land by lia. apply Z.bits_inj'. intros i Hi. change 255 with (Z.ones 8).
  rewrite Z.land_spec, Z.lor_spec, Z.ldiff_spec, !testbit_ones by lia.
  destruct (Z.ltb_spec i 8); rewrite ?andb_true_r, ?andb_false_r; [done|]. by rewrite (in_u_testbit 8) by (done || lia).
Qed.

Lemma setcc_does cond f d b p s : is_reg d -> condition (tcg_cond_to_jcc cond) f = Some b -> xf s = Some f ->
  exists s', falls (tcg_out_modrm (Z.lor OPC_SETCC (tcg_cond_to_jcc cond)) 0 d) p s s' /\
    sets s s' d (Z.lor (Z.ldiff (xr s d) 255) (b2z b)).
Proof.
  intros Hd Hb Hf. eexists. split; [|apply sets_set_reg'].
  assert (typed_op (Z.lor OPC_SETCC (tcg_cond_to_jcc cond)) TCG_TYPE_I32 (0x190 + tcg_cond_to_jcc cond) 0) as Ho by (destruct cond; solve_typed).
  apply (typed_falls_0 _ _ _ _ _ _ _ _ Ho); [done..|].
  intros rex next ->.
  assert (forall rex s1, (f0 ← xf s; b ← condition (tcg_cond_to_jcc cond) f0; Some (None : option Z, write_reg s 8 rex d (b2z b))) = Some (None, s1) ->
    exec (mkInsn (0x190 + tcg_cond_to_jcc cond) (bits TCG_TYPE_I32) rex false 0 (OReg d) 0) next s = Some (None, s1)) as He.
  { intros rex s1. destruct cond; unfold exec; cbn -[write_reg condition]; destruct (xf s); cbn -[write_reg condition]; try done;
      destruct (condition _ _); cbn -[write_reg condition]; done. }
  apply He. rewrite Hf. cbn [mbind option_bind]. rewrite Hb. cbn [mbind option_bind]. rewrite write_byte_rm by (by destruct cond). by destruct b.
Qed.

Lemma setcond_does ty cond d a b (const : bool) p s : is_reg d -> is_reg a -> (if const then arith_const ty ARITH_CMP b else is_reg b) ->
  exists s', falls (tcg_out_setcond (rexw_of ty) cond d a b const) p s s' /\
    sets s s' d (b2z (tci_compare (bits ty) (uint (bits ty) (xr s a)) (uint (bits ty) (if const then b else xr s b)) cond)).
Proof.
  intros Hd Ha Hb. destruct (compare_does ty a b const p s Ha Hb) as (f & F & Hf). specialize (Hf cond).
  set (c := tci_compare _ _ _ _) in *. unfold tcg_out_setcond. eapply falls_then; [exact F|]. intros q.
  destruct (setcc_does cond f d c q (with_flags s (Some f)) Hd Hf eq_refl) as (s2 & F2 & S2).
  eapply falls_then; [exact F2|]. intros q'. destruct (ext8u_does d d q' s2 Hd Hd) as (s3 & F3 & S3).
  exists s3. split; [done|]. replace (b2z c) with (uint8_t (xr s2 d)); [by eapply sets_flags, sets_seq|].
  rewrite (sets_reg _ _ _ _ S2). apply low_byte. by destruct c.
Qed.

(** ** Bytes *)

Lemma bswap32_does d p s : is_reg d ->
  exists s', falls (tcg_out_bswap32 d) p s s' /\ sets s s' d (uint32_t (swap_bytes 4 (uint32_t (xr s d)))).
Proof.
  intros Hd. eexists. split; [|apply sets_set_reg']. eapply insn_falls_0; [by apply (plus_decodes OPC_BSWAP), plus_bswap32|].
  intros next. reflexivity.
Qed.

Lemma bswap64_does d p s : is_reg d ->
  exists s', falls (tcg_out_bswap64 d) p s s' /\ sets s s' d (uint64_t (swap_bytes 8 (uint64_t (xr s d)))).
Proof.
  intros Hd. eexists. split; [|apply sets_set_reg']. eapply insn_falls_0; [by apply (plus_decodes (OPC_BSWAP + P_REXW)), plus_bswap64|].
  intros next. reflexivity.
Qed.

(** An instruction on 16 bits. *)
Record half_op (opc : Z) (op : Z) (n : nat) : Prop := {
  ho_modrm : modrm_op opc n;
  ho_code : opcode_of opc = op;
  ho_size : size_of opc = 16;
  ho_addr : has opc P_ADDR32 = false
}.

Lemma half_falls opc op n r rm im v p s s' : half_op opc op n -> is_reg r -> is_reg rm -> immediate im n v ->
  (forall rex next, exec (mkInsn op 16 rex false r (OReg rm) v) next s = Some (None, s')) ->
  falls (tcg_out_modrm opc r rm ;;; im)%C p s s'.
Proof.
  intros [Ho <- <- Ha] Hr Hm Hi He. eapply insn_falls; [by apply modrm_decodes|done|]. cbn beta. intros next. rewrite Ha. by apply He.
Qed.

(** The rotation of 16 bits, with the upper bits kept. *)
Lemma swap_half y : in_u 16 y -> Z.lor (Z.ldiff y (Z.ones 16)) (uint 16 (uint 16 (Z.lor (Z.shiftl y 8) (Z.shiftr y 8)))) =
  Z.lor (Z.shiftl (uint8_t y) 8) (Z.shiftr y 8).
Proof.
  intros Hy. rewrite (uint_id 16 (uint 16 _)) by (apply uint_range; lia). assert (Z.ldiff y (Z.ones 16) = 0) as ->.
  { apply Z.bits_inj'. intros i Hi. rewrite Z.ldiff_spec, testbit_ones, Z.bits_0 by lia. destruct (Z.ltb_spec i 16); [apply andb_false_r|].
    by rewrite (in_u_testbit 16) by (done || lia). }
  rewrite Z.lor_0_l. unfold uint8_t. apply Z.bits_inj'. intros i Hi.
  rewrite uint_testbit, !Z.lor_spec, !testbit_shiftl, !testbit_shiftr by lia.
  destruct (Z.leb_spec 8 i); cbn [andb orb]; [rewrite uint_testbit by lia|];
    destruct (Z.ltb_spec i 16), (Z.ltb_spec (i - 8) 8); cbn [andb orb]; try done; try lia.
  by rewrite (in_u_testbit 16 y (i + 8)) by (done || lia).
Qed.

(** The two low bytes are swapped; the operation is defined for a 16-bit value. *)
Lemma bswap16_does d p s : is_reg d -> in_u 16 (xr s d) ->
  exists s', falls (tcg_out_rolw_8 d) p s s' /\ sets s s' d (Z.lor (Z.shiftl (uint8_t (xr s d)) 8) (Z.shiftr (xr s d) 8)).
Proof.
  intros Hd Hx. rewrite <- (swap_half _ Hx).
  exists (with_flags (set_reg s d (Z.lor (Z.ldiff (xr s d) (Z.ones 16)) (uint 16 (uint 16 (Z.lor (Z.shiftl (uint 16 (xr s d)) 8) (Z.shiftr (uint 16 (xr s d)) 8)))))) None).
  split; [|by rewrite (uint_id 16 (xr s d) Hx); apply sets_set_reg].
  apply (half_falls (OPC_SHIFT_Ib + P_DATA16) 0xc1 1 0 d (tcg_out8 8) (int8_t 8)); [solve_typed|done..|apply immediate8|reflexivity].
Qed.

(** *** Bit fields *)

(** The field of [len] bits at [pos] of [t1] replaced by the low bits of [t2] (tci.c). *)
Definition deposit (w t1 t2 pos len : Z) : Z :=
  let mask := Z.shiftl (Z.ones len) pos in
  uint w (Z.lor (Z.ldiff t1 mask) (Z.land (Z.shiftl t2 pos) mask)).

Lemma uint_lor w x y : 0 <= w -> uint w (Z.lor x y) = Z.lor (uint w x) (uint w y).
Proof. intros. rewrite !uint_land by done. apply Z.land_lor_distr_l. Qed.

Lemma uint_ldiff w x y : 0 <= w -> uint w (Z.ldiff x y) = Z.ldiff (uint w x) y.
Proof.
  intros. apply Z.bits_inj'. intros i Hi. rewrite uint_testbit, !Z.ldiff_spec, uint_testbit by done. by destruct (i <? w).
Qed.

(** Only the low bits of the operands count. *)
Lemma deposit_uint w t1 t2 pos len : 0 <= w -> 0 <= pos -> 0 <= len ->
  deposit w (uint w t1) (uint w t2) pos len = deposit w t1 t2 pos len.
Proof.
  intros Hw Hp Hl. unfold deposit. rewrite !uint_lor, !uint_ldiff by done. f_equal; [by rewrite uint_uint by lia|].
  apply Z.bits_inj'. intros i Hi. rewrite !uint_testbit, !Z.land_spec, !testbit_shiftl by done.
  destruct (Z.leb_spec pos i); [|by rewrite !andb_false_r]. cbn [andb]. rewrite uint_testbit by lia.
  destruct (Z.ltb_spec i w), (Z.ltb_spec (i - pos) w); try lia; done.
Qed.

(** A field as the processor writes it. *)
Lemma deposit_field w x y pos len : 0 <= w -> 0 <= pos -> 0 <= len ->
  uint w (Z.lor (Z.ldiff x (Z.shiftl (Z.ones len) pos)) (Z.shiftl (uint len y) pos)) = deposit w x y pos len.
Proof.
  intros Hw Hp Hl. unfold deposit. f_equal. f_equal. apply Z.bits_inj'. intros i Hi. rewrite Z.land_spec, !testbit_shiftl by done.
  destruct (Z.leb_spec pos i); [|done]. cbn [andb]. by rewrite uint_testbit, testbit_ones, andb_comm by lia.
Qed.

Lemma deposit_low_byte d r p s : is_reg d -> is_reg r ->
  exists s', falls (tcg_out_modrm (Z.lor (Z.lor OPC_MOVB_EvGv P_REXB_R) P_REXB_RM) r d) p s s' /\
    sets s s' d (Z.lor (Z.ldiff (xr s d) (Z.shiftl (Z.ones 8) 0)) (Z.shiftl (uint 8 (xr s r)) 0)).
Proof.
  intros Hd Hr. eexists. split; [|apply sets_set_reg'].
  apply (typed_falls_0 _ TCG_TYPE_I32 0x88); [solve_typed|done..|]. intros rex next ->.
  unfold exec. cbn -[write_reg read_reg needs_rex set_reg]. rewrite read_byte_r, write_byte_rm by done. rewrite !Z.shiftl_0_r.
  unfold uint8_t. by rewrite uint_uint.
Qed.

(** The byte registers 4 to 7 are the second bytes of the first four registers. *)
Lemma deposit_high_byte d r p s : 0 <= d < 4 -> 0 <= r < 4 ->
  exists s', falls (tcg_out_modrm OPC_MOVB_EvGv r (d + 4)) p s s' /\
    sets s s' d (Z.lor (Z.ldiff (xr s d) (Z.shiftl (Z.ones 8) 8)) (Z.shiftl (uint 8 (xr s r)) 8)).
Proof.
  intros Hd Hr. eexists. split; [|apply sets_set_reg'].
  apply (typed_falls_0 _ TCG_TYPE_I32 0x88); [solve_typed|unfold is_reg; lia..|]. intros rex next ->.
  assert (needs_rex OPC_MOVB_EvGv r (d + 4) 0 = false) as ->.
  { unfold needs_rex, rex_low. rewrite !Z.div_small by lia. done. }
  unfold exec. cbn -[write_reg read_reg set_reg Z.add]. unfold read_reg, write_reg. cbn [Z.eqb Pos.eqb negb andb].
  assert (between 4 7 r = false /\ between 4 7 (d + 4) = true) as [-> ->].
  { unfold between. split; [by rewrite (proj2 (Z.leb_gt _ _)) by lia|]. rewrite !(proj2 (Z.leb_le _ _)) by lia. done. }
  rewrite Z.add_simpl_r, uint_uint by lia. done.
Qed.

Lemma deposit_half d r p s : is_reg d -> is_reg r ->
  exists s', falls (tcg_out_modrm (Z.lor OPC_MOVL_EvGv P_DATA16) r d) p s s' /\
    sets s s' d (Z.lor (Z.ldiff (xr s d) (Z.shiftl (Z.ones 16) 0)) (Z.shiftl (uint 16 (xr s r)) 0)).
Proof.
  intros Hd Hr. rewrite !Z.shiftl_0_r. eexists. split; [|apply sets_set_reg'].
  eapply falls_ext; [symmetry; apply emit_seq_nil|].
  apply (half_falls _ 0x89 0 r d emit_nil 0); [solve_typed|done..|apply immediate_none|]. intros rex next.
  unfold exec. cbn -[write_reg read_reg set_reg]. unfold read_reg, write_reg. cbn [Z.eqb Pos.eqb negb andb].
  change (32 <=? 16) with false. cbn iota. by rewrite uint_uint by lia.
Qed.

(** ** Division *)

Lemma div_does ty (signed : bool) r q m p s : is_reg r ->
  divide signed (bits ty) (uint (bits ty) (xr s 2)) (uint (bits ty) (xr s 0)) (uint (bits ty) (xr s r)) = Some (q, m) ->
  falls (tcg_out_modrm (OPC_GRP3_Ev + rexw_of ty) (if signed then EXT3_IDIV else EXT3_DIV) r) p s
    (with_flags (set_reg (set_reg s 0 (uint (bits ty) q)) 2 (uint (bits ty) m)) None).
Proof.
  intros Hr Hd. apply (typed_falls_0 _ ty 0xf7); [destruct ty; solve_typed|by destruct signed|done|].
  intros rex next _. destruct signed; unfold exec; cbn -[write_reg read_reg set_reg uint bits divide];
    rewrite read_reg_wide, Hd; cbn -[write_reg set_reg uint bits]; by rewrite !write_reg_wide.
Qed.

(** A dividend of one word, extended to two. *)
Lemma divide_unsigned ty a b : in_u (bits ty) a -> in_u (bits ty) b -> b <> 0 ->
  divide false (bits ty) 0 a b = Some (a / b, a mod b).
Proof.
  intros Ha Hb Hz. unfold divide, in_u in *. destruct (Z.eqb_spec b 0); [done|]. rewrite Z.mul_0_l, Z.add_0_l, Z.quot_div_nonneg, Z.rem_mod_nonneg by lia.
  assert (uint (bits ty) (a / b) = a / b) as Eq.
  { apply uint_id. unfold in_u. split; [apply Z.div_pos; lia|]. apply Z.le_lt_trans with a; [apply Z.div_le_upper_bound; nia|lia]. }
  assert (uint (bits ty) (a mod b) = a mod b) as Em.
  { apply uint_id. unfold in_u. pose proof (Z.mod_pos_bound a b ltac:(lia)). lia. }
  by rewrite Eq, Z.eqb_refl, Em.
Qed.

(** The sign word of [a] is what [sar] by all bits but one gives. *)
Lemma divide_signed ty a b : in_u (bits ty) a -> in_u (bits ty) b -> b <> 0 ->
  let x := sint (bits ty) a in let y := sint (bits ty) b in in_s (bits ty) (Z.quot x y) ->
  divide true (bits ty) (uint (bits ty) (Z.shiftr x (bits ty - 1))) a b = Some (uint (bits ty) (Z.quot x y), uint (bits ty) (Z.rem x y)).
Proof.
  intros Ha Hb Hz x y Hq. unfold divide.
  assert (sint (2 * bits ty) (uint (bits ty) (Z.shiftr x (bits ty - 1)) * 2 ^ bits ty + a) = x) as ->.
  { unfold x. rewrite Z.shiftr_div_pow2 by (destruct ty; cbn; lia). unfold in_u in *. destruct ty; cbn [bits] in *; cint. }
  assert (sint (bits ty) b <> 0) as Hy by (unfold in_u in *; destruct ty; cbn [bits] in *; cint).
  fold y in Hy |- *. destruct (Z.eqb_spec y 0); [done|].
  rewrite (sint_id (bits ty) (Z.quot x y)) by (done || destruct ty; cbn; lia). by rewrite Z.eqb_refl.
Qed.

(** ** Memory *)

(** The address of an operand with a base and an offset. *)
Definition based (s : X86) (base offset : Z) : Z := uint64_t (xr s base + offset).

(** What a load reads: the number of bytes and the extension. *)
Lemma load_does opc ty op d base offset p s v : typed_op opc ty op 0 -> is_reg d -> is_reg base -> offset = int32_t offset ->
  (forall rm rex next, address s (mkInsn op (bits ty) rex false d rm 0) next = Some (based s base offset) -> (forall r, rm <> OReg r) ->
     exec (mkInsn op (bits ty) rex false d rm 0) next s = Some (None, write_reg s (bits ty) rex d v)) ->
  exists s', falls (tcg_out_modrm_offset opc d base offset) p s s' /\ sets s s' d (uint (bits ty) v).
Proof.
  intros [Ho Eo Es Ea] Hd Hb Hoff He. exists (set_reg s d (uint (bits ty) v)). split; [|apply sets_set_reg'].
  eapply insn_falls_0; [apply mem_decodes; [done|by destruct Hb|done|done|left; by destruct Hb|lia|done]|].
  intros next. cbn beta. rewrite Eo, Es, Ea, <- write_reg_wide with (rex := mem_rex opc d base (-1)). apply He; [|done].
  unfold address, mem_operand. cbn [i_rm i_addr32]. destruct (Z.ltb_spec base 0); [unfold is_reg in Hb; lia|].
  change (-1 <? 0) with true. cbn iota. rewrite Z.add_0_r, <- Hoff. done.
Qed.

Ltac load_exec :=
  intros rm rex next Hm Hn; unfold exec, read_rm; cbn -[write_reg read_mem address bits];
  destruct rm as [?r|?b ?i ?o|?o]; [by exfalso; eapply Hn|rewrite Hm; reflexivity..].

Lemma ld8u_does d base offset p s : is_reg d -> is_reg base -> offset = int32_t offset ->
  exists s', falls (tcg_out_modrm_offset OPC_MOVZBL d base offset) p s s' /\ sets s s' d (uint 32 (read_mem (xm s) 1 (based s base offset))).
Proof. intros. apply (load_does _ TCG_TYPE_I32 0x1b6); [solve_typed|done..|]. load_exec. Qed.

Lemma ld8s_does ty d base offset p s : is_reg d -> is_reg base -> offset = int32_t offset ->
  exists s', falls (tcg_out_modrm_offset (OPC_MOVSBL + rexw_of ty) d base offset) p s s' /\
    sets s s' d (uint (bits ty) (int8_t (read_mem (xm s) 1 (based s base offset)))).
Proof. intros. apply (load_does _ ty 0x1be); [destruct ty; solve_typed|done..|]. load_exec. Qed.

Lemma ld16u_does d base offset p s : is_reg d -> is_reg base -> offset = int32_t offset ->
  exists s', falls (tcg_out_modrm_offset OPC_MOVZWL d base offset) p s s' /\ sets s s' d (uint 32 (read_mem (xm s) 2 (based s base offset))).
Proof. intros. apply (load_does _ TCG_TYPE_I32 0x1b7); [solve_typed|done..|]. load_exec. Qed.

Lemma ld16s_does ty d base offset p s : is_reg d -> is_reg base -> offset = int32_t offset ->
  exists s', falls (tcg_out_modrm_offset (OPC_MOVSWL + rexw_of ty) d base offset) p s s' /\
    sets s s' d (uint (bits ty) (int16_t (read_mem (xm s) 2 (based s base offset)))).
Proof. intros. apply (load_does _ ty 0x1bf); [destruct ty; solve_typed|done..|]. load_exec. Qed.

Lemma ld32s_does d base offset p s : is_reg d -> is_reg base -> offset = int32_t offset ->
  exists s', falls (tcg_out_modrm_offset OPC_MOVSLQ d base offset) p s s' /\
    sets s s' d (uint 64 (int32_t (read_mem (xm s) 4 (based s base offset)))).
Proof. intros. apply (load_does _ TCG_TYPE_I64 0x63); [solve_typed|done..|]. load_exec. Qed.

Definition type_bytes (ty : TCGType) : nat := match ty with TCG_TYPE_I32 => 4 | TCG_TYPE_I64 => 8 end.

Lemma ld_does ty d base offset p s : is_reg d -> is_reg base -> offset = int32_t offset ->
  exists s', falls (tcg_out_ld ty d base offset) p s s' /\
    sets s s' d (uint (bits ty) (read_mem (xm s) (type_bytes ty) (based s base offset))).
Proof. intros. apply (load_does _ ty 0x8b); [destruct ty; solve_typed|done..|]. destruct ty; load_exec. Qed.

(** A store of [n] bytes. *)
Record stores (s s' : X86) (n : nat) (a v : Z) : Prop := {
  stores_reg r : xr s' r = xr s r;
  stores_mem : xm s' = write_mem (xm s) n a v
}.

Lemma store_insn opc op size n r base offset p s v : modrm_op opc 0 -> opcode_of opc = op -> size_of opc = size -> has opc P_ADDR32 = false ->
  is_reg r -> is_reg base -> offset = int32_t offset ->
  (forall rm next, address s (mkInsn op size (mem_rex opc r base (-1)) false r rm 0) next = Some (based s base offset) -> (forall r, rm <> OReg r) ->
     exec (mkInsn op size (mem_rex opc r base (-1)) false r rm 0) next s =
       Some (None, mkX86 (xr s) (xf s) (write_mem (xm s) n (based s base offset) v))) ->
  exists s', falls (tcg_out_modrm_offset opc r base offset) p s s' /\ stores s s' n (based s base offset) v.
Proof.
  intros Ho Eo Es Ea Hr Hb Hoff He. exists (mkX86 (xr s) (xf s) (write_mem (xm s) n (based s base offset) v)). split; [|by split].
  eapply insn_falls_0; [apply mem_decodes; [done|by destruct Hb|done|done|left; by destruct Hb|lia|done]|].
  intros next. cbn beta. rewrite Eo, Es, Ea. apply He; [|done].
  unfold address, mem_operand. cbn [i_rm i_addr32]. destruct (Z.ltb_spec base 0); [unfold is_reg in Hb; lia|].
  change (-1 <? 0) with true. cbn iota. rewrite Z.add_0_r, <- Hoff. done.
Qed.

Ltac store_exec :=
  intros rm next Hm Hn; unfold exec, write_rm; cbn -[write_mem address read_reg mem_rex bits];
  destruct rm as [?r|?b ?i ?o|?o]; [by exfalso; eapply Hn|rewrite Hm; cbn -[write_mem read_reg mem_rex bits]..].

Lemma st8_does r base offset p s : is_reg r -> is_reg base -> offset = int32_t offset ->
  exists s', falls (tcg_out_modrm_offset (Z.lor OPC_MOVB_EvGv P_REXB_R) r base offset) p s s' /\
    stores s s' 1 (based s base offset) (uint8_t (xr s r)).
Proof.
  intros. apply (store_insn _ 0x88 32); [solve_modrm|done..|]. store_exec; unfold mem_rex; by rewrite read_byte_r.
Qed.

Lemma st16_does r base offset p s : is_reg r -> is_reg base -> offset = int32_t offset ->
  exists s', falls (tcg_out_modrm_offset (Z.lor OPC_MOVL_EvGv P_DATA16) r base offset) p s s' /\
    stores s s' 2 (based s base offset) (uint16_t (xr s r)).
Proof. intros. apply (store_insn _ 0x89 16); [solve_modrm|done..|]. by store_exec. Qed.

Lemma st_does ty r base offset p s : is_reg r -> is_reg base -> offset = int32_t offset ->
  exists s', falls (tcg_out_st ty r base offset) p s s' /\ stores s s' (type_bytes ty) (based s base offset) (uint (bits ty) (xr s r)).
Proof. intros. apply (store_insn _ 0x89 (bits ty)); [destruct ty; solve_modrm|by destruct ty|by destruct ty|by destruct ty|done..|]. by destruct ty; store_exec. Qed.
