(* ===== verification/X86Jump.v ===== *)
(** * Jumps, calls and the stack in emitted code

    Continues X86Mem: the length of what the emitters write, [tcg_out_branch] (near or
    through r10), [tcg_out_push], [tcg_out_pop] and [tcg_out_addi], and code that is resumed
    in its middle when a call returns. *)

From S2P Require Import Prelude TcgIr X86Enc X86Sem X86Decode X86Run X86Alu X86Shift X86Mem.
Open Scope Z_scope.

(** ** Length *)

(** [e] writes at most [n] bytes, wherever it is. *)
Definition emits (e : Emit) (n : nat) : Prop := forall p, exists out, e p = Some out /\ (length out <= n)%nat.

Lemma emits_seq e1 e2 n1 n2 : emits e1 n1 -> emits e2 n2 -> emits (e1 ;;; e2)%C (n1 + n2).
Proof.
  intros H1 H2 p. destruct (H1 p) as (o1 & E1 & L1). destruct (H2 (p + Z.of_nat (length o1))) as (o2 & E2 & L2).
  exists (o1 ++ o2). split; [by apply emit_seq_some|]. rewrite length_app. lia.
Qed.

Lemma emits_le e n m : emits e n -> (n <= m)%nat -> emits e m.
Proof. intros H Hle p. destruct (H p) as (out & E & L). exists out. split; [done|lia]. Qed.

Lemma emits_nil : emits emit_nil 0.
Proof. intros p. by exists []. Qed.

Lemma emits_8 v : emits (tcg_out8 v) 1.
Proof. intros p. by exists [uint8_t v]. Qed.

Lemma emits_32 v : emits (tcg_out32 v) 4.
Proof. intros p. by exists (unpack 8 4 v). Qed.

(** The bytes of an opcode: a REX prefix, the opcode, and the prefixes it asks for. *)
Definition opc_length (opc : Z) : nat :=
  2 + (if has opc P_EXT then 1 else 0) + (if has opc P_DATA16 then 1 else 0) + (if has opc P_ADDR32 then 1 else 0).

Lemma opc_emits opc r rm x : is_reg r -> is_reg rm -> is_reg x -> sizes_ok opc -> emits (tcg_out_opc opc r rm x) (opc_length opc).
Proof.
  intros Hr Hm Hx Hs p. exists (opc_bytes opc r rm x). split; [by apply tcg_out_opc_bytes|].
  unfold opc_bytes, opc_length. rewrite !length_app. destruct (has opc P_DATA16), (has opc P_ADDR32), (needs_rex opc r rm x), (has opc P_EXT); cbn; lia.
Qed.

Lemma modrm_emits opc r rm : is_reg r -> is_reg rm -> sizes_ok opc -> emits (tcg_out_modrm opc r rm) (opc_length opc + 1).
Proof. intros. apply emits_seq; [by apply opc_emits|apply emits_8]. Qed.

Lemma mem_emits opc r rm offset : is_reg r -> is_reg rm -> sizes_ok opc -> emits (tcg_out_modrm_offset opc r rm offset) (opc_length opc + 6).
Proof.
  intros Hr Hm Hs. unfold tcg_out_modrm_offset, tcg_out_modrm_sib_offset.
  destruct (addend_spec rm offset) as (mod_ & len & rm' & -> & E & _ & Hlen). unfold is_reg in Hm.
  destruct (Z.ltb_spec rm 0); [lia|]. subst rm'. change (-1 <? 0) with true. cbn [andb].
  assert (emits (if len =? 1 then tcg_out8 offset else if len =? 4 then tcg_out32 offset else emit_nil) 4) as Hd.
  { destruct (len =? 1); [eapply emits_le; [apply emits_8|lia]|].
    destruct (len =? 4); [apply emits_32|eapply emits_le; [apply emits_nil|lia]]. }
  replace (opc_length opc + 6)%nat with ((opc_length opc + 2) + 4)%nat by lia. apply emits_seq; [|done].
  destruct (negb (LOWREGMASK rm =? 4)).
  - eapply emits_le; [apply emits_seq; [by apply opc_emits|apply emits_8]|lia].
  - apply (emits_seq _ _ 0 (opc_length opc + 2)); [apply emits_nil|]. cbn zeta.
    apply emits_seq; [by apply opc_emits|]. apply (emits_seq _ _ 1 1); apply emits_8.
Qed.

(** An opcode of constants, with the register in it. *)
Lemma movi_opc_emits ty d : is_reg d -> emits (tcg_out_opc (OPC_MOVL_Iv + rexw_of ty + LOWREGMASK d) 0 d 0) 2.
Proof.
  intros Hd p. rewrite low_reg. pose proof (mod8_range d) as H8. apply octal in H8.
  exists (opc_bytes (OPC_MOVL_Iv + rexw_of ty + d mod 8) 0 d 0). split.
  - apply tcg_out_opc_bytes; try done. by destruct H8 as [->|[->|[->|[->|[->|[->|[->| ->]]]]]]], ty.
  - unfold opc_bytes. rewrite !length_app.
    destruct H8 as [->|[->|[->|[->|[->|[->|[->| ->]]]]]]], ty; destruct (needs_rex _ _ _ _); vm_compute; lia.
Qed.

Lemma movi_emits d val : is_reg d -> emits (tcg_out_movi TCG_TYPE_I32 d val) 6.
Proof.
  intros Hd. unfold tcg_out_movi. destruct (val =? 0); [eapply emits_le; [by apply modrm_emits|vm_compute; lia]|].
  rewrite bool_decide_eq_true_2, orb_true_r by done. apply (emits_seq _ _ 2 4); [|apply emits_32].
  by apply (movi_opc_emits TCG_TYPE_I32).
Qed.

Lemma movi_long_emits d val : is_reg d -> emits (tcg_out_movi TCG_TYPE_I64 d val) 10.
Proof.
  intros Hd. unfold tcg_out_movi. destruct (val =? 0); [eapply emits_le; [by apply modrm_emits|vm_compute; lia]|].
  destruct (_ || _); [|destruct (val =? int32_t val)].
  - eapply emits_le; [apply (emits_seq _ _ 2 4); [by apply (movi_opc_emits TCG_TYPE_I32)|apply emits_32]|lia].
  - eapply emits_le; [apply emits_seq; [by apply modrm_emits|apply emits_32]|vm_compute; lia].
  - apply (emits_seq _ _ 2 8); [by apply (movi_opc_emits TCG_TYPE_I64)|]. apply (emits_seq _ _ 4 4); apply emits_32.
Qed.

Lemma mov_emits ty d r : is_reg d -> is_reg r -> emits (tcg_out_mov ty d r) 3.
Proof.
  intros Hd Hr. unfold tcg_out_mov. destruct (negb (r =? d)); [|eapply emits_le; [apply emits_nil|lia]].
  eapply emits_le; [by apply modrm_emits; [..|destruct ty]|]. destruct ty; vm_compute; lia.
Qed.

Lemma st_emits ty r base offset : is_reg r -> is_reg base -> emits (tcg_out_st ty r base offset) 8.
Proof. intros Hr Hb. eapply emits_le; [by apply mem_emits; [..|destruct ty]|]. destruct ty; vm_compute; lia. Qed.

Lemma ld_emits ty r base offset : is_reg r -> is_reg base -> emits (tcg_out_ld ty r base offset) 8.
Proof. intros Hr Hb. eapply emits_le; [by apply mem_emits; [..|destruct ty]|]. destruct ty; vm_compute; lia. Qed.

Lemma arithi_emits c d val : alu_code c -> is_reg d -> val = int32_t val -> emits (tgen_arithi (c + P_REXW) d val false) 8.
Proof.
  intros Hc Hd Hv. change P_REXW with (rexw_of TCG_TYPE_I64).
  assert (forall e n opc r rm, is_reg r -> is_reg rm -> sizes_ok opc -> emits e n -> (opc_length opc + 1 + n <= 8)%nat ->
    emits (tcg_out_modrm opc r rm ;;; e)%C 8) as Hseq.
  { intros e n opc r rm Hr Hm Hs He Hle. eapply emits_le; [apply emits_seq; [by apply modrm_emits|done]|done]. }
  assert (forall opc r rm, is_reg r -> is_reg rm -> sizes_ok opc -> (opc_length opc + 1 <= 8)%nat -> emits (tcg_out_modrm opc r rm) 8) as Hone.
  { intros. eapply emits_le; [by apply modrm_emits|done]. }
  assert (forall rexw, rexw = 0 \/ rexw = P_REXW -> emits (out_arith_imm c rexw d val) 8) as Himm.
  { intros rexw Hw. unfold out_arith_imm. destruct (val =? int8_t val).
    - eapply Hseq; [by apply alu_code_reg|done|by destruct Hw as [-> | ->]|apply emits_8|destruct Hw as [-> | ->]; vm_compute; lia].
    - rewrite <- Hv, Z.eqb_refl, orb_true_r.
      eapply Hseq; [by apply alu_code_reg|done|by destruct Hw as [-> | ->]|apply emits_32|destruct Hw as [-> | ->]; vm_compute; lia]. }
  destruct (decide (c = ARITH_AND)) as [->|Hn].
  - unfold tgen_arithi. cbn -[out_arith_imm tcg_out_ext32u tcg_out_ext8u tcg_out_ext16u uint32_t].
    destruct (val =? 4294967295); [apply Hone; done || (vm_compute; lia)|].
    destruct (val =? 255); [apply Hone; done || (vm_compute; lia)|]. destruct (val =? 65535); [apply Hone; done || (vm_compute; lia)|].
    apply Himm. destruct (val =? uint32_t val); auto.
  - rewrite arithi_split by done. destruct (_ && _); [|apply Himm; by right].
    destruct (xorb _ _); apply Hone; done || (vm_compute; lia).
Qed.

Lemma addi_emits d val : is_reg d -> val = int32_t val -> emits (tcg_out_addi d val) 8.
Proof.
  intros Hd Hv. unfold tcg_out_addi. destruct (negb (val =? 0)); [|eapply emits_le; [apply emits_nil|lia]].
  apply arithi_emits; [by left|done..].
Qed.

Lemma addi_does d val p s : is_reg d -> in_u 64 (xr s d) -> val = int32_t val ->
  exists s', falls (tcg_out_addi d val) p s s' /\ sets s s' d (uint64_t (xr s d + val)).
Proof.
  intros Hd Hx Hv. unfold tcg_out_addi. destruct (Z.eqb_spec val 0) as [->|Hz]; cbn [negb].
  - exists s. split; [apply falls_nil|]. rewrite Z.add_0_r. unfold uint64_t. by rewrite uint_id.
  - destruct (arithi_does TCG_TYPE_I64 ARITH_ADD d val p s) as (s' & F & S); [by left|done|unfold arith_const; auto|].
    exists s'. split; [done|]. unfold arith_done, alu in S. cbn [Z.eqb ARITH_ADD bits] in S. by rewrite uint_add in S.
Qed.

(** ** Branches *)

Lemma plain_call : plain_op OPC_CALL_Jz 4.
Proof. solve_modrm. Qed.
Lemma plain_jmp : plain_op OPC_JMP_long 4.
Proof. solve_modrm. Qed.

(** The jump or the call, with the return address behind the code; r10 may be used. *)
Lemma branch_runs (call : bool) dest p s : exists out s1,
  tcg_out_branch call dest p = Some out /\ (length out <= 13)%nat /\ sets s s1 10 (xr s1 10) /\
  runs out p s (uint64_t dest) (if call then push s1 (p + Z.of_nat (length out)) else s1).
Proof.
  unfold tcg_out_branch. set (disp := int64_t (dest - p - 5)). destruct (Z.eqb_spec disp (int32_t disp)) as [E|E].
  - exists ([if call then 0xe8 else 0xe9] ++ unpack 8 4 disp), s. split_and!.
    + destruct call; reflexivity.
    + rewrite length_app, length_unpack. cbn. lia.
    + by split.
    + assert (uint64_t (p + 5 + disp) = uint64_t dest) as Et by (unfold disp; cint).
      set (out := [if call then 232 else 233] ++ unpack 8 4 disp).
      assert (Z.of_nat (length out) = 5) as Hl by (unfold out; rewrite length_app, length_unpack; done).
      apply (runs_insn out (mkInsn (if call then 0xe8 else 0xe9) 32 false false 0 (OReg 0) disp) p s (Some (uint64_t dest))); [|rewrite Hl, <- Et; by destruct call].
      intros l. unfold out. rewrite <- app_assoc.
      destruct (plain_decodes (if call then OPC_CALL_Jz else OPC_JMP_long) 4 p) as (o & Eo & Hd); [by destruct call; [apply plain_call|apply plain_jmp]|].
      specialize (Hd disp (unpack 8 4 disp ++ l) l). rewrite take_word, <- E in Hd. specialize (Hd eq_refl).
      by destruct call; injection Eo as <-.
  - destruct (movi_does TCG_TYPE_I64 TCG_REG_CALL_SCRATCH dest p s) as (s1 & (o1 & E1 & R1) & S1); [done|].
    assert (typed_op OPC_GRP5 TCG_TYPE_I32 0xff 0) as [Ho _ _ _] by solve_typed.
    set (ext := if call then EXT5_CALLN_Ev else EXT5_JMPN_Ev). assert (is_reg ext) as Hx by (by destruct call).
    destruct (modrm_decodes OPC_GRP5 ext TCG_REG_CALL_SCRATCH 0 (p + Z.of_nat (length o1)) Hx) as (o2 & E2 & Hd); [done..|].
    destruct (modrm_emits OPC_GRP5 ext TCG_REG_CALL_SCRATCH) with (p := p + Z.of_nat (length o1)) as (o2' & E2' & L2); [done..|].
    rewrite E2 in E2'. injection E2' as <-. change (opc_length OPC_GRP5 + 1)%nat with 3%nat in L2.
    destruct (movi_long_emits TCG_REG_CALL_SCRATCH dest) with (p := p) as (o1' & E1' & L1); [done|]. rewrite E1 in E1'. injection E1' as <-.
    exists (o1 ++ o2), s1. split_and!; [by apply emit_seq_some|rewrite length_app; lia|by destruct S1|].
    eapply runs_app; [exact R1|]. rewrite length_app, Nat2Z.inj_add, Z.add_assoc. set (q := p + Z.of_nat (length o1)) in *.
    assert (xr s1 TCG_REG_CALL_SCRATCH = uint64_t dest) as Er by apply (sets_reg _ _ _ _ S1).
    eapply (runs_insn o2 _ q s1 (Some (uint64_t dest))); [intros l; by apply (Hd 0)|].
    assert (uint 64 (xr s1 TCG_REG_CALL_SCRATCH) = uint64_t dest) as Er' by (rewrite Er; unfold uint64_t; by rewrite uint_uint by lia).
    destruct call; rewrite <- Er'; reflexivity.
Qed.

Lemma branch_emits (call : bool) dest : emits (tcg_out_branch call dest) 13.
Proof. intros p. destruct (branch_runs call dest p (mkX86 (fun _ => 0) None (fun _ => 0))) as (out & s1 & E & L & _). by exists out. Qed.

(** ** The stack *)

Lemma push_does r p s : is_reg r -> falls (tcg_out_push r) p s (push s (uint64_t (xr s r))).
Proof. intros Hr. eapply insn_falls_0; [by apply (plus_decodes OPC_PUSH_r32), plus_push|]. by intros next. Qed.

Lemma pop_does r p s : is_reg r -> falls (tcg_out_pop r) p s (set_reg (pop s).2 r (uint64_t (pop s).1)).
Proof. intros Hr. eapply insn_falls_0; [by apply (plus_decodes OPC_POP_r32), plus_pop|]. by intros next. Qed.

(** ** Code that is resumed in its middle *)

Definition resumes (out : list Z) (p q : Z) (s : X86) (t : Z) (s' : X86) : Prop :=
  forall base pre post, p = base + Z.of_nat (length pre) ->
    exists n, x86_steps n base (pre ++ out ++ post) (q, s) = Some (t, s').

Lemma resumes_start out p s t s' : runs out p s t s' <-> resumes out p p s t s'.
Proof. done. Qed.

Lemma resumes_skip o1 o2 p q s t s' : resumes o2 (p + Z.of_nat (length o1)) q s t s' -> resumes (o1 ++ o2) p q s t s'.
Proof.
  intros H base pre post Hp. rewrite <- app_assoc, app_assoc. apply H. rewrite length_app. lia.
Qed.
