(* ===== verification/X86Guest.v ===== *)
(** * The code of guest loads and stores

    Model of the emitters of src/emul/qemu/tcg/i386/tcg-target.c for guest accesses in user
    mode: [tcg_out_qemu_ld], [tcg_out_qemu_ld_direct], [tcg_out_qemu_ld_shadow] and their
    counterparts for stores, for a 64-bit host and a little-endian target.  The code they
    write tests [IsPCore] of the CPU state: the main core accesses memory, the prefetch core
    fills in the request of the shadow store buffer and calls [esesc_shadow_load_process]
    or [esesc_shadow_store_process] (ShadowMem).

    The offsets of the fields of [CPUState], the addresses of the two functions and
    [GUEST_BASE] are those of [GuestConf].  The displacement bytes that the source fills in
    afterwards through [label_ptr] are computed from the code they jump over. *)

From S2P Require Import Prelude TcgIr X86Enc.
Open Scope Z_scope.

Record GuestConf := mkGuestConf {
  GUEST_BASE : Z;
  off_IsPCore : Z;
  off_ld_size : Z;
  off_ld_linear : Z;
  off_ld_databytes : Z;
  off_st_size : Z;
  off_st_linear : Z;
  off_st_databytes : Z;
  esesc_shadow_load_process : Z;
  esesc_shadow_store_process : Z
}.

(** The registers that the source takes from [tcg_target_call_iarg_regs]. *)
Definition RDI : Z := 7.
Definition RSI : Z := 6.
Definition RDX : Z := 2.
Definition AREG0 : Z := 14.

Definition OPC_CMP_GvEv : Z := Z.lor OPC_ARITH_GvEv (Z.shiftl ARITH_CMP 3).

Section Guest.
Context (G : GuestConf).

(** [lea] of a field of the CPU state. *)
Definition lea_env (r offset : Z) : Emit := tcg_out_modrm_sib_offset (OPC_LEA + P_REXW) r AREG0 (-1) 0 offset.

Definition tcg_out_qemu_ld_shadow (base ofs sizeop : Z) : Emit :=
  let r0 := RDI in
  let r1 := RSI in
  (lea_env r0 (off_ld_size G) ;;;
   tcg_out_movi TCG_TYPE_I32 r1 (Z.shiftl 1 (Z.land sizeop (Z.lnot 4))) ;;;
   tcg_out_st TCG_TYPE_I32 r1 r0 0 ;;;
   lea_env r0 (off_ld_linear G) ;;;
   tcg_out_mov TCG_TYPE_I32 r1 base ;;;
   tcg_out_addi r1 ofs ;;;
   tcg_out_st TCG_TYPE_I32 r1 r0 0 ;;;
   tcg_out_mov TCG_TYPE_I64 r0 AREG0 ;;;
   tcg_out_calli (esesc_shadow_load_process G))%C.

(** The test of [IsPCore]. *)
Definition test_pcore : Emit :=
  let r0 := RDI in
  let r1 := RDX in
  (lea_env r0 (off_IsPCore G) ;;;
   tcg_out_movi TCG_TYPE_I32 r1 0 ;;;
   tcg_out_modrm_offset OPC_CMP_GvEv r1 r0 0)%C.

(** [jne] over [normal] and the jump after it, then [shadow], which that jump skips. *)
Definition either (normal shadow : Emit) : Emit := fun p =>
  b1 ← normal (p + 2);
  b2 ← shadow (p + 2 + Z.of_nat (length b1) + 2);
  Some ([uint8_t (OPC_JCC_short + JCC_JNE); uint8_t (Z.of_nat (length b1) + 2)] ++ b1 ++
        [uint8_t OPC_JMP_short; uint8_t (Z.of_nat (length b2))] ++ b2).

(** The load itself, from a base register, by [sizeop]. *)
Definition load_insn (sizeop datalo base ofs : Z) : Emit :=
  if sizeop =? 0 then tcg_out_modrm_offset OPC_MOVZBL datalo base ofs
  else if sizeop =? Z.lor 0 4 then tcg_out_modrm_offset (OPC_MOVSBL + P_REXW) datalo base ofs
  else if sizeop =? 1 then tcg_out_modrm_offset OPC_MOVZWL datalo base ofs
  else if sizeop =? Z.lor 1 4 then tcg_out_modrm_offset (OPC_MOVSWL + P_REXW) datalo base ofs
  else if sizeop =? 2 then tcg_out_ld TCG_TYPE_I32 datalo base ofs
  else if sizeop =? Z.lor 2 4 then tcg_out_modrm_offset OPC_MOVSLQ datalo base ofs
  else if sizeop =? 3 then tcg_out_ld TCG_TYPE_I64 datalo base ofs
  else tcg_abort.

Definition tcg_out_qemu_ld_direct (datalo base ofs sizeop : Z) : Emit :=
  let r0 := RDI in
  (test_pcore ;;;
   either (load_insn sizeop datalo base ofs)
     (tcg_out_qemu_ld_shadow base ofs sizeop ;;;
      lea_env r0 (off_ld_databytes G) ;;;
      load_insn sizeop datalo r0 0))%C.

Definition tcg_out_qemu_ld (data_reg addr_reg opc : Z) : Emit :=
  let offset := int32_t (GUEST_BASE G) in
  let base := addr_reg in
  if negb (offset =? GUEST_BASE G) then
    (tcg_out_movi TCG_TYPE_I64 RDI (GUEST_BASE G) ;;;
     tgen_arithr (ARITH_ADD + P_REXW) RDI base ;;;
     tcg_out_qemu_ld_direct data_reg RDI 0 opc)%C
  else tcg_out_qemu_ld_direct data_reg base offset opc.

Definition tcg_out_qemu_st_shadow (datalo datahi base ofs sizeop : Z) : Emit :=
  let r0 := RDI in
  let r1 := RSI in
  (lea_env r0 (off_st_size G) ;;;
   tcg_out_movi TCG_TYPE_I32 r1 (Z.shiftl 1 sizeop) ;;;
   tcg_out_st TCG_TYPE_I32 r1 r0 0 ;;;
   lea_env r0 (off_st_databytes G) ;;;
   tcg_out_st TCG_TYPE_I32 datalo r0 0 ;;;
   lea_env r0 (off_st_databytes G + 4) ;;;
   tcg_out_st TCG_TYPE_I32 datahi r0 0 ;;;
   lea_env r0 (off_st_linear G) ;;;
   tcg_out_mov TCG_TYPE_I32 r1 base ;;;
   tcg_out_addi r1 ofs ;;;
   tcg_out_st TCG_TYPE_I32 r1 r0 0 ;;;
   tcg_out_mov TCG_TYPE_I64 r0 AREG0 ;;;
   tcg_out_calli (esesc_shadow_store_process G))%C.

(** The store itself, by [sizeop]. *)
Definition store_insn (sizeop datalo base ofs : Z) : Emit :=
  if sizeop =? 0 then tcg_out_modrm_offset (OPC_MOVB_EvGv + P_REXB_R) datalo base ofs
  else if sizeop =? 1 then tcg_out_modrm_offset (OPC_MOVL_EvGv + P_DATA16) datalo base ofs
  else tcg_out_st TCG_TYPE_I32 datalo base ofs.

(** For eight bytes the displacement of [jne] is never filled in: it is what [stale], the
    buffer, had there. *)
Definition tcg_out_qemu_st_direct (stale : Z -> Z) (datalo datahi base ofs sizeop : Z) : Emit :=
  if (sizeop =? 0) || (sizeop =? 1) || (sizeop =? 2) then
    (test_pcore ;;;
     either (store_insn sizeop datalo base ofs) (tcg_out_qemu_st_shadow datalo datahi base ofs sizeop))%C
  else if sizeop =? 3 then
    (test_pcore ;;;
     tcg_out8 (OPC_JCC_short + JCC_JNE) ;;; (fun p => Some [stale p]) ;;;
     tcg_out_st TCG_TYPE_I64 datalo base ofs)%C
  else tcg_abort.

(** [data_reg2], the register of the high word, is 0 on a 64-bit host. *)
Definition tcg_out_qemu_st (stale : Z -> Z) (data_reg addr_reg opc : Z) : Emit :=
  let offset := int32_t (GUEST_BASE G) in
  let base := addr_reg in
  if negb (offset =? GUEST_BASE G) then
    (tcg_out_movi TCG_TYPE_I64 RDI (GUEST_BASE G) ;;;
     tgen_arithr (ARITH_ADD + P_REXW) RDI base ;;;
     tcg_out_qemu_st_direct stale data_reg 0 RDI 0 opc)%C
  else tcg_out_qemu_st_direct stale data_reg 0 base offset opc.

End Guest.
