(* ===== verification/X86Gen.v ===== *)
(** * Operations, labels and the prologue

    Model of [tcg_out_reloc], [tcg_out_label] (src/emul/qemu/tcg/tcg.c) and of
    [patch_reloc], [tcg_out_jxx], [tcg_out_brcond32], [tcg_out_brcond64], [tcg_out_op] and
    [tcg_target_qemu_prologue] (src/emul/qemu/tcg/i386/tcg-target.c), for a 64-bit host.

    These work on the context: the code buffer is memory by bytes, so that a displacement
    that is left open keeps what the buffer had there until it is filled in.  Arguments
    ([TCGArg]) are unsigned 64-bit numbers; [const_args] tells which of them are constants.
    An operation that the source aborts on is [None]. *)

From Stdlib Require Import String.
From S2P Require Import Prelude TcgIr X86Enc X86Guest.
Open Scope Z_scope.

(** ** The context *)

Record TCGRelocation := mkReloc { r_type : Z; r_ptr : Z; r_addend : Z }.

(** [has_value] and the union [u]. *)
Inductive TCGLabel := first_reloc (l : list TCGRelocation) | value (v : Z).

Record Ctx := mkCtx {
  buf : Z -> Z;
  code_buf : Z;
  code_ptr : Z;
  labels : list TCGLabel;
  tb_next : Z;
  tb_next_offset : list Z;
  tb_jmp_offset : option (list Z)
}.

Definition Gen : Type := Ctx -> option Ctx.

(** Writing bytes at an address. *)
Definition poke (m : Z -> Z) (p : Z) (bs : list Z) : Z -> Z := fun a =>
  if p <=? a then default (m a) (bs !! Z.to_nat (a - p)) else m a.

Definition set_code (m : Z -> Z) (p : Z) (c : Ctx) : Ctx :=
  mkCtx m (code_buf c) p (labels c) (tb_next c) (tb_next_offset c) (tb_jmp_offset c).
Definition set_label (l : nat) (x : TCGLabel) (c : Ctx) : Ctx :=
  mkCtx (buf c) (code_buf c) (code_ptr c) (<[l := x]> (labels c)) (tb_next c) (tb_next_offset c) (tb_jmp_offset c).

Definition out (e : Emit) : Gen := fun c =>
  bs ← e (code_ptr c); Some (set_code (poke (buf c) (code_ptr c) bs) (code_ptr c + Z.of_nat (length bs)) c).

(** [s->code_ptr += n] *)
Definition skip (n : Z) : Gen := fun c => Some (set_code (buf c) (code_ptr c + n) c).

Definition gen_seq (g1 g2 : Gen) : Gen := fun c => c ← g1 c; g2 c.
Notation "g1 >>> g2" := (gen_seq g1 g2) (at level 64, right associativity) : c_scope.

(** ** Labels *)

Definition R_386_PC32 : Z := 2.
Definition R_386_PC8 : Z := 23.

Definition patch_reloc (ptr type value addend : Z) : Gen := fun c =>
  let value := int64_t (value + addend) in
  if type =? R_386_PC32 then
    let value := int64_t (value - ptr) in
    if negb (value =? int32_t value) then None
    else Some (set_code (poke (buf c) ptr (unpack 8 4 value)) (code_ptr c) c)
  else if type =? R_386_PC8 then
    let value := int64_t (value - ptr) in
    if negb (value =? int8_t value) then None
    else Some (set_code (poke (buf c) ptr [uint8_t value]) (code_ptr c) c)
  else None.

Definition tcg_out_reloc (ptr type : Z) (label_index : nat) (addend : Z) : Gen := fun c =>
  match labels c !! label_index with
  | Some (value v) => patch_reloc ptr type v addend c
  | Some (first_reloc l) => Some (set_label label_index (first_reloc (mkReloc type ptr addend :: l)) c)
  | None => None
  end.

Fixpoint patch_relocs (l : list TCGRelocation) (v : Z) : Gen := fun c =>
  match l with
  | [] => Some c
  | r :: l => c ← patch_reloc (r_ptr r) (r_type r) v (r_addend r) c; patch_relocs l v c
  end.

Definition tcg_out_label (label_index : nat) (v : Z) : Gen := fun c =>
  match labels c !! label_index with
  | Some (first_reloc l) => c ← patch_relocs l v c; Some (set_label label_index (value v) c)
  | _ => None
  end.

(** ** Branches *)

(** [opc] is a condition, or -1 for a jump. *)
Definition tcg_out_jxx (opc : Z) (label_index : nat) (small : bool) : Gen := fun c =>
  match labels c !! label_index with
  | None => None
  | Some (value v) =>
      let val := int32_t (v - code_ptr c) in
      let val1 := int32_t (val - 2) in
      if int8_t val1 =? val1 then
        out ((if opc =? -1 then tcg_out8 OPC_JMP_short else tcg_out8 (OPC_JCC_short + opc)) ;;; tcg_out8 val1)%C c
      else if small then None
      else if opc =? -1 then out (tcg_out8 OPC_JMP_long ;;; tcg_out32 (val - 5))%C c
      else out (tcg_out_opc (OPC_JCC_long + opc) 0 0 0 ;;; tcg_out32 (val - 6))%C c
  | Some (first_reloc _) =>
      if small then
        (out (if opc =? -1 then tcg_out8 OPC_JMP_short else tcg_out8 (OPC_JCC_short + opc)) >>>
         (fun c => tcg_out_reloc (code_ptr c) R_386_PC8 label_index (-1) c) >>> skip 1)%C c
      else
        (out (if opc =? -1 then tcg_out8 OPC_JMP_long else tcg_out_opc (OPC_JCC_long + opc) 0 0 0) >>>
         (fun c => tcg_out_reloc (code_ptr c) R_386_PC32 label_index (-4) c) >>> skip 4)%C c
  end.

(** [tcg_out_brcond32] and [tcg_out_brcond64], by [rexw]. *)
Definition tcg_out_brcond (rexw : Z) (cond : TCGCond) (arg1 arg2 : Z) (const_arg2 : bool) (label_index : nat) (small : bool) : Gen :=
  (out (tcg_out_cmp arg1 arg2 const_arg2 rexw) >>> tcg_out_jxx (tcg_cond_to_jcc cond) label_index small)%C.

(** ** Operations *)

Definition TCGCond_of (x : Z) : option TCGCond :=
  [TCG_COND_EQ; TCG_COND_NE; TCG_COND_LT; TCG_COND_GE; TCG_COND_LE; TCG_COND_GT;
   TCG_COND_LTU; TCG_COND_GEU; TCG_COND_LEU; TCG_COND_GTU] !! Z.to_nat x.

Section Ops.
Context (G : GuestConf) (tb_ret_addr : Z).

(** The arguments of an operation, and whether they are constants. *)
Definition Case : Type := (nat -> Z) -> (nat -> bool) -> Gen.

(** The macro: the case of both types, with the prefix of the 64-bit one. *)
Definition OP_32_64 (x : string) (f : Z -> Case) : list (string * Case) :=
  [((x ++ "_i64")%string, f P_REXW); ((x ++ "_i32")%string, f 0)].

(** A constant as a [tcg_target_long]. *)
Definition sarg (args : nat -> Z) (k : nat) : Z := int64_t (args k).

Definition gen_arith (c : Z) (rexw : Z) : Case := fun args const_args =>
  out (if const_args 2%nat then tgen_arithi (c + rexw) (args 0%nat) (sarg args 2) false
       else tgen_arithr (c + rexw) (args 0%nat) (args 2%nat)).

Definition gen_add (rexw : Z) : Case := fun args const_args =>
  if negb (args 0%nat =? args 1%nat) then
    if const_args 2%nat then
      out (tcg_out_modrm_sib_offset (OPC_LEA + rexw) (args 0%nat) (args 1%nat) (-1) 0 (sarg args 2))
    else if args 0%nat =? args 2%nat then out (tgen_arithr (ARITH_ADD + rexw) (args 0%nat) (args 1%nat))
    else out (tcg_out_modrm_sib_offset (OPC_LEA + rexw) (args 0%nat) (args 1%nat) (args 2%nat) 0 0)
  else gen_arith ARITH_ADD rexw args const_args.

Definition gen_mul (rexw : Z) : Case := fun args const_args =>
  out (if const_args 2%nat then
         let val := int32_t (args 2%nat) in
         if val =? int8_t val then
           tcg_out_modrm (OPC_IMUL_GvEvIb + rexw) (args 0%nat) (args 0%nat) ;;; tcg_out8 val
         else tcg_out_modrm (OPC_IMUL_GvEvIz + rexw) (args 0%nat) (args 0%nat) ;;; tcg_out32 val
       else tcg_out_modrm (OPC_IMUL_GvEv + rexw) (args 0%nat) (args 2%nat))%C.

Definition gen_shift (c : Z) (rexw : Z) : Case := fun args const_args =>
  out (if const_args 2%nat then tcg_out_shifti (c + rexw) (args 0%nat) (int32_t (args 2%nat))
       else tcg_out_modrm (OPC_SHIFT_cl + rexw) c (args 0%nat)).

Definition gen_brcond (rexw : Z) : Case := fun args const_args c =>
  cond ← TCGCond_of (args 2%nat);
  tcg_out_brcond rexw cond (args 0%nat) (if const_args 1%nat then sarg args 1 else args 1%nat) (const_args 1%nat)
    (Z.to_nat (args 3%nat)) false c.

Definition gen_setcond (rexw : Z) : Case := fun args const_args c =>
  cond ← TCGCond_of (args 3%nat);
  out (tcg_out_setcond rexw cond (args 0%nat) (args 1%nat) (if const_args 2%nat then sarg args 2 else args 2%nat) (const_args 2%nat)) c.

Definition gen_deposit (rexw : Z) : Case := fun args const_args =>
  if (args 3%nat =? 0) && (args 4%nat =? 8) then
    out (tcg_out_modrm (Z.lor (Z.lor OPC_MOVB_EvGv P_REXB_R) P_REXB_RM) (args 2%nat) (args 0%nat))
  else if (args 3%nat =? 8) && (args 4%nat =? 8) then
    out (tcg_out_modrm OPC_MOVB_EvGv (args 2%nat) (args 0%nat + 4))
  else if (args 3%nat =? 0) && (args 4%nat =? 16) then
    out (tcg_out_modrm (Z.lor OPC_MOVL_EvGv P_DATA16) (args 2%nat) (args 0%nat))
  else fun _ => None.

Definition set_offsets (jmp : bool) (n : nat) : Gen := fun c =>
  let offset := uint16_t (code_ptr c - code_buf c) in
  Some (if jmp then mkCtx (buf c) (code_buf c) (code_ptr c) (labels c) (tb_next c) (tb_next_offset c) ((fun l => <[n := offset]> l) <$> tb_jmp_offset c)
        else mkCtx (buf c) (code_buf c) (code_ptr c) (labels c) (tb_next c) (<[n := offset]> (tb_next_offset c)) (tb_jmp_offset c)).

Definition gen_goto_tb : Case := fun args _ c =>
  let n := Z.to_nat (args 0%nat) in
  ((if tb_jmp_offset c is Some _ then out (tcg_out8 OPC_JMP_long) >>> set_offsets true n >>> out (tcg_out32 0)
    else out (tcg_out_modrm_offset OPC_GRP5 EXT5_JMPN_Ev (-1) (tb_next c + 8 * args 0%nat))) >>>
   set_offsets false n)%C c.

(** A load or a store of the CPU state. *)
Definition mem_case (opc : Z) : Case := fun args _ =>
  out (tcg_out_modrm_offset opc (args 0%nat) (args 1%nat) (sarg args 2)).

Definition qemu_ld (opc : Z) : Case := fun args _ => out (tcg_out_qemu_ld G (args 0%nat) (args 1%nat) opc).
Definition qemu_st (opc : Z) : Case := fun args _ c => out (tcg_out_qemu_st G (buf c) (args 0%nat) (args 1%nat) opc) c.

Definition case_of (x : string) (f : Case) : string * Case := (x, f).

Definition op_cases : list (string * Case) :=
  [case_of "exit_tb" (fun args _ => out (tcg_out_movi TCG_TYPE_I64 0 (sarg args 0) ;;; tcg_out_jmp tb_ret_addr)%C);
   case_of "goto_tb" gen_goto_tb;
   case_of "call" (fun args const_args =>
      out (if const_args 0%nat then tcg_out_calli (sarg args 0) else tcg_out_modrm OPC_GRP5 EXT5_CALLN_Ev (args 0%nat)));
   case_of "jmp" (fun args const_args =>
      out (if const_args 0%nat then tcg_out_jmp (sarg args 0) else tcg_out_modrm OPC_GRP5 EXT5_JMPN_Ev (args 0%nat)));
   case_of "br" (fun args _ => tcg_out_jxx JCC_JMP (Z.to_nat (args 0%nat)) false);
   case_of "movi_i32" (fun args _ => out (tcg_out_movi TCG_TYPE_I32 (args 0%nat) (sarg args 1)))] ++
  OP_32_64 "ld8u" (fun _ => mem_case OPC_MOVZBL) ++
  OP_32_64 "ld8s" (fun rexw => mem_case (OPC_MOVSBL + rexw)) ++
  OP_32_64 "ld16u" (fun _ => mem_case OPC_MOVZWL) ++
  OP_32_64 "ld16s" (fun rexw => mem_case (OPC_MOVSWL + rexw)) ++
  [case_of "ld32u_i64" (fun args _ => out (tcg_out_ld TCG_TYPE_I32 (args 0%nat) (args 1%nat) (sarg args 2)));
   case_of "ld_i32" (fun args _ => out (tcg_out_ld TCG_TYPE_I32 (args 0%nat) (args 1%nat) (sarg args 2)))] ++
  OP_32_64 "st8" (fun _ => mem_case (Z.lor OPC_MOVB_EvGv P_REXB_R)) ++
  OP_32_64 "st16" (fun _ => mem_case (Z.lor OPC_MOVL_EvGv P_DATA16)) ++
  [case_of "st32_i64" (fun args _ => out (tcg_out_st TCG_TYPE_I32 (args 0%nat) (args 1%nat) (sarg args 2)));
   case_of "st_i32" (fun args _ => out (tcg_out_st TCG_TYPE_I32 (args 0%nat) (args 1%nat) (sarg args 2)))] ++
  OP_32_64 "add" gen_add ++
  OP_32_64 "sub" (gen_arith ARITH_SUB) ++
  OP_32_64 "and" (gen_arith ARITH_AND) ++
  OP_32_64 "or" (gen_arith ARITH_OR) ++
  OP_32_64 "xor" (gen_arith ARITH_XOR) ++
  OP_32_64 "mul" gen_mul ++
  OP_32_64 "div2" (fun rexw args _ => out (tcg_out_modrm (OPC_GRP3_Ev + rexw) EXT3_IDIV (args 4%nat))) ++
  OP_32_64 "divu2" (fun rexw args _ => out (tcg_out_modrm (OPC_GRP3_Ev + rexw) EXT3_DIV (args 4%nat))) ++
  OP_32_64 "shl" (gen_shift SHIFT_SHL) ++
  OP_32_64 "shr" (gen_shift SHIFT_SHR) ++
  OP_32_64 "sar" (gen_shift SHIFT_SAR) ++
  OP_32_64 "rotl" (gen_shift SHIFT_ROL) ++
  OP_32_64 "rotr" (gen_shift SHIFT_ROR) ++
  [case_of "brcond_i32" (gen_brcond 0); case_of "setcond_i32" (gen_setcond 0)] ++
  OP_32_64 "bswap16" (fun _ args _ => out (tcg_out_rolw_8 (args 0%nat))) ++
  OP_32_64 "bswap32" (fun _ args _ => out (tcg_out_bswap32 (args 0%nat))) ++
  OP_32_64 "neg" (fun rexw args _ => out (tcg_out_modrm (OPC_GRP3_Ev + rexw) EXT3_NEG (args 0%nat))) ++
  OP_32_64 "not" (fun rexw args _ => out (tcg_out_modrm (OPC_GRP3_Ev + rexw) EXT3_NOT (args 0%nat))) ++
  OP_32_64 "ext8s" (fun rexw args _ => out (tcg_out_ext8s (args 0%nat) (args 1%nat) rexw)) ++
  OP_32_64 "ext16s" (fun rexw args _ => out (tcg_out_ext16s (args 0%nat) (args 1%nat) rexw)) ++
  OP_32_64 "ext8u" (fun _ args _ => out (tcg_out_ext8u (args 0%nat) (args 1%nat))) ++
  OP_32_64 "ext16u" (fun _ args _ => out (tcg_out_ext16u (args 0%nat) (args 1%nat))) ++
  [case_of "qemu_ld8u" (qemu_ld 0); case_of "qemu_ld8s" (qemu_ld (Z.lor 0 4));
   case_of "qemu_ld16u" (qemu_ld 1); case_of "qemu_ld16s" (qemu_ld (Z.lor 1 4));
   case_of "qemu_ld32u" (qemu_ld 2); case_of "qemu_ld32" (qemu_ld 2); case_of "qemu_ld64" (qemu_ld 3);
   case_of "qemu_st8" (qemu_st 0); case_of "qemu_st16" (qemu_st 1); case_of "qemu_st32" (qemu_st 2); case_of "qemu_st64" (qemu_st 3);
   case_of "movi_i64" (fun args _ => out (tcg_out_movi TCG_TYPE_I64 (args 0%nat) (sarg args 1)));
   case_of "ld32s_i64" (mem_case OPC_MOVSLQ);
   case_of "ld_i64" (fun args _ => out (tcg_out_ld TCG_TYPE_I64 (args 0%nat) (args 1%nat) (sarg args 2)));
   case_of "st_i64" (fun args _ => out (tcg_out_st TCG_TYPE_I64 (args 0%nat) (args 1%nat) (sarg args 2)));
   case_of "qemu_ld32s" (qemu_ld (Z.lor 2 4));
   case_of "brcond_i64" (gen_brcond P_REXW); case_of "setcond_i64" (gen_setcond P_REXW);
   case_of "bswap64_i64" (fun args _ => out (tcg_out_bswap64 (args 0%nat)));
   case_of "ext32u_i64" (fun args _ => out (tcg_out_ext32u (args 0%nat) (args 1%nat)));
   case_of "ext32s_i64" (fun args _ => out (tcg_out_ext32s (args 0%nat) (args 1%nat)))] ++
  OP_32_64 "deposit" gen_deposit.

Fixpoint find_case (opc : string) (l : list (string * Case)) : Case :=
  match l with
  | [] => fun _ _ _ => None
  | (x, f) :: l => if String.eqb x opc then f else find_case opc l
  end.

(** An operation by its name; an operation that is not there aborts. *)
Definition tcg_out_op (opc : string) (args : list Z) (const_args : list bool) : Gen :=
  find_case opc op_cases (fun k => default 0 (args !! k)) (fun k => default false (const_args !! k)).

End Ops.

(** ** The prologue and the epilogue *)

Definition tcg_target_callee_save_regs : list Z := [5; 3; 12; 13; 14; 15].
Definition stack_addend : Z :=
  let push_size := (1 + Z.of_nat (length tcg_target_callee_save_regs)) * 8 in
  let frame_size := push_size + 128 + 128 * 8 in
  let frame_size := Z.land (frame_size + 16 - 1) (Z.lnot (16 - 1)) in
  frame_size - push_size.

Fixpoint emit_all (l : list Emit) : Emit :=
  match l with [] => emit_nil | e :: l => (e ;;; emit_all l)%C end.

(** The code before [tb_ret_addr] is taken, and behind it. *)
Definition tb_prologue : Emit :=
  (emit_all (tcg_out_push <$> tcg_target_callee_save_regs) ;;;
   tcg_out_addi 4 (- stack_addend) ;;;
   tcg_out_mov TCG_TYPE_I64 AREG0 RDI ;;;
   tcg_out_modrm OPC_GRP5 EXT5_JMPN_Ev RSI)%C.

Definition tb_epilogue : Emit :=
  (tcg_out_addi 4 stack_addend ;;;
   emit_all (tcg_out_pop <$> reverse tcg_target_callee_save_regs) ;;;
   tcg_out_opc OPC_RET 0 0 0)%C.

(** With [tb_ret_addr]. *)
Definition tcg_target_qemu_prologue (p : Z) : option (list Z * Z) :=
  b1 ← tb_prologue p;
  b2 ← tb_epilogue (p + Z.of_nat (length b1));
  Some (b1 ++ b2, p + Z.of_nat (length b1)).
