(* ===== verification/X86Labels.v ===== *)
(** * Branches reach their labels

    A block is generated piece by piece: code without branches, branches to labels
    ([tcg_out_jxx]) and labels ([tcg_out_label] at the current position), as
    [tcg_gen_code_common] does.  A forward branch leaves its displacement open until its
    label is placed.  The invariant says what the buffer has for every piece so far; when
    all labels have been placed, running the buffer follows the pieces. *)

From S2P Require Import Prelude TcgIr X86Enc X86Sem X86Decode X86Run X86Alu X86Shift X86Mem X86Jump X86Guest X86Gen.
Open Scope Z_scope.

(** ** Jumps *)

(** Whether the branch with condition [opc], or -1, is taken. *)
Definition taken (opc : Z) (s : X86) : option bool :=
  if opc =? -1 then Some true else f ← xf s; condition opc f.

(** The bytes at [a] are a branch to [v]. *)
Definition branches (opc : Z) (o : list Z) (a v : Z) : Prop :=
  forall s b, taken opc s = Some b -> runs o a s (if b : bool then v else a + Z.of_nat (length o)) s.

Definition jump_opc (opc : Z) : Prop := opc = -1 \/ 0 <= opc < 16.

Definition head_long (opc : Z) : list Z := if opc =? -1 then [0xe9] else [0x0f; 0x80 + opc].
Definition head_short (opc : Z) : list Z := if opc =? -1 then [0xeb] else [0x70 + opc].

Lemma hex k : 0 <= k < 16 -> k = 0 \/ k = 1 \/ k = 2 \/ k = 3 \/ k = 4 \/ k = 5 \/ k = 6 \/ k = 7 \/ k = 8 \/ k = 9 \/ k = 10 \/ k = 11 \/
  k = 12 \/ k = 13 \/ k = 14 \/ k = 15.
Proof. lia. Qed.

Ltac each_cond H := apply hex in H; repeat (destruct H as [->|H]); [..|subst].

Lemma plain_jcc k : 0 <= k < 16 -> plain_op (OPC_JCC_long + k) 4 /\ plain_op (OPC_JCC_short + k) 1.
Proof. intros H. each_cond H; (split; solve_modrm). Qed.

(** What the two forms are read as. *)
Definition jump_insn (op : Z) (d : Z) : insn := mkInsn op 32 false false 0 (OReg 0) d.

Lemma long_decode opc d l : jump_opc opc -> d = int32_t d ->
  decode (head_long opc ++ unpack 8 4 d ++ l) = Some (jump_insn (if opc =? -1 then 0xe9 else 0x180 + opc) d, l).
Proof.
  intros Ho Hd. rewrite Hd at 2. destruct Ho as [->|Hk].
  - destruct (plain_decodes OPC_JMP_long 4 0 plain_jmp) as (o & E & H). injection E as <-. apply (H _ _ _ (take_word d l)).
  - destruct (plain_jcc opc Hk) as [Hp _]. destruct (plain_decodes _ 4 0 Hp) as (o & E & H). specialize (H _ _ _ (take_word d l)).
    each_cond Hk; injection E as <-; exact H.
Qed.

Lemma short_decode opc d l : jump_opc opc -> d = int8_t d ->
  decode (head_short opc ++ [uint8_t d] ++ l) = Some (jump_insn (if opc =? -1 then 0xeb else 0x70 + opc) d, l).
Proof.
  intros Ho Hd. rewrite Hd at 2. destruct Ho as [->|Hk].
  - destruct (plain_decodes OPC_JMP_short 1 0) as (o & E & H); [solve_modrm|]. injection E as <-. apply (H _ _ _ (take_byte d l)).
  - destruct (plain_jcc opc Hk) as [_ Hp]. destruct (plain_decodes _ 1 0 Hp) as (o & E & H). specialize (H _ _ _ (take_byte d l)).
    each_cond Hk; injection E as <-; exact H.
Qed.

Lemma jump_exec opc op d next s b : jump_opc opc ->
  op = (if opc =? -1 then 0xe9 else 0x180 + opc) \/ op = (if opc =? -1 then 0xeb else 0x70 + opc) -> taken opc s = Some b ->
  exec (jump_insn op d) next s = Some (if b then Some (uint64_t (next + d)) else None, s).
Proof.
  unfold taken. intros Ho Hop Ht. destruct Ho as [->|Hk].
  - change (-1 =? -1) with true in *. injection Ht as <-. by destruct Hop as [-> | ->].
  - rewrite (proj2 (Z.eqb_neq opc (-1))) in * by lia. destruct (xf s) as [f|] eqn:Hf; cbn [mbind option_bind] in Ht; [|done].
    assert (forall o k, o = 0x180 + k \/ o = 0x70 + k -> 0 <= k < 16 ->
      exec (jump_insn o d) next s = (f ← xf s; b ← condition k f; Some (if b : bool then Some (uint64_t (next + d)) else None, s))) as Hx.
    { intros o k Hko Hk'. each_cond Hk'; destruct Hko as [-> | ->]; reflexivity. }
    rewrite (Hx op opc Hop Hk), Hf. cbn [mbind option_bind]. by rewrite Ht.
Qed.

Lemma jump_branches opc o op d a v : jump_opc opc ->
  op = (if opc =? -1 then 0xe9 else 0x180 + opc) \/ op = (if opc =? -1 then 0xeb else 0x70 + opc) ->
  (forall l, decode (o ++ l) = Some (jump_insn op d, l)) -> v = a + Z.of_nat (length o) + d -> 0 <= v < 2 ^ 64 -> branches opc o a v.
Proof.
  intros Ho Hop Hd Hv Hr s b Ht.
  replace (if b then v else a + Z.of_nat (length o)) with (default (a + Z.of_nat (length o)) (if b then Some (uint64_t (a + Z.of_nat (length o) + d)) else None)).
  - eapply runs_insn; [done|]. by apply (jump_exec opc).
  - destruct b; cbn [default from_option id]; [|done]. unfold uint64_t. rewrite uint_id by (unfold in_u; lia). done.
Qed.

Lemma long_branches opc a v d : jump_opc opc -> d = int32_t d -> v = a + Z.of_nat (length (head_long opc)) + 4 + d -> 0 <= v < 2 ^ 64 ->
  branches opc (head_long opc ++ unpack 8 4 d) a v.
Proof.
  intros Ho Hd Hv Hr. eapply (jump_branches opc _ _ d); [done|left; reflexivity| |rewrite length_app, length_unpack; lia|done].
  intros l. rewrite <- app_assoc. by apply long_decode.
Qed.

Lemma short_branches opc a v d : jump_opc opc -> d = int8_t d -> v = a + Z.of_nat (length (head_short opc)) + 1 + d -> 0 <= v < 2 ^ 64 ->
  branches opc (head_short opc ++ [uint8_t d]) a v.
Proof.
  intros Ho Hd Hv Hr. eapply (jump_branches opc _ _ d); [done|right; reflexivity| |rewrite length_app; cbn [length]; lia|done].
  intros l. rewrite <- app_assoc. by apply short_decode.
Qed.

(** ** Pieces *)

Inductive piece := Code (e : Emit) | Jump (opc : Z) (l : nat) | Label (l : nat).

Definition gen_piece (x : piece) : Gen :=
  match x with
  | Code e => out e
  | Jump opc l => tcg_out_jxx opc l false
  | Label l => fun c => tcg_out_label l (code_ptr c) c
  end.

Fixpoint gen_pieces (l : list piece) : Gen := fun c =>
  match l with [] => Some c | x :: l => c ← gen_piece x c; gen_pieces l c end.

(** A piece at an address, with its length. *)
Definition place : Type := Z * Z * piece.

Fixpoint chain (b : Z) (pl : list place) (e : Z) : Prop :=
  match pl with [] => b = e | (a, n, _) :: pl => a = b /\ 0 <= n /\ chain (b + n) pl e end.

Lemma chain_snoc b pl e n x : chain b pl e -> 0 <= n -> chain b (pl ++ [(e, n, x)]) (e + n).
Proof.
  revert b. induction pl as [|[[a m] y] pl IH]; cbn [chain app]; [by intros b -> Hn|].
  intros b (-> & Hm & Hc) Hn. split_and!; [done..|]. by apply IH.
Qed.

Lemma chain_bounds b pl e : chain b pl e -> b <= e /\ forall a n x, (a, n, x) ∈ pl -> b <= a /\ 0 <= n /\ a + n <= e.
Proof.
  revert b. induction pl as [|[[a m] y] pl IH]; cbn [chain]; [intros b ->; split; [lia|set_solver]|].
  intros b (-> & Hm & Hc). destruct (IH _ Hc) as [H1 H2]. split; [lia|]. intros a' n' x' [E|Hin]%elem_of_cons.
  - injection E as -> -> ->. lia.
  - destruct (H2 _ _ _ Hin). lia.
Qed.

Lemma chain_disjoint b pl e a n x a' n' x' : chain b pl e -> (a, n, x) ∈ pl -> (a', n', x') ∈ pl ->
  (a, n, x) = (a', n', x') \/ a + n <= a' \/ a' + n' <= a.
Proof.
  revert b. induction pl as [|[[c m] y] pl IH]; cbn [chain]; [set_solver|]. intros b (-> & Hm & Hc). destruct (chain_bounds _ _ _ Hc) as [_ HB].
  intros [E|Hin]%elem_of_cons [E'|Hin']%elem_of_cons.
  - left. congruence.
  - injection E as -> -> ->. destruct (HB _ _ _ Hin'). lia.
  - injection E' as -> -> ->. destruct (HB _ _ _ Hin). lia.
  - by eapply IH.
Qed.

(** *** Bytes of the buffer *)

Definition at_bytes (m : Z -> Z) (a : Z) (o : list Z) : Prop := forall k b, o !! k = Some b -> m (a + Z.of_nat k) = b.

Lemma poke_same m p o : at_bytes (poke m p o) p o.
Proof.
  intros k b Hk. unfold poke. destruct (Z.leb_spec p (p + Z.of_nat k)); [|lia].
  replace (Z.to_nat (p + Z.of_nat k - p)) with k by lia. by rewrite Hk.
Qed.

Lemma poke_other m p o x : x < p \/ p + Z.of_nat (length o) <= x -> poke m p o x = m x.
Proof.
  intros Hx. unfold poke. destruct (Z.leb_spec p x); [|done]. rewrite lookup_ge_None_2 by lia. done.
Qed.

Lemma at_bytes_ext m m' a o : at_bytes m a o -> (forall x, a <= x < a + Z.of_nat (length o) -> m' x = m x) -> at_bytes m' a o.
Proof. intros H E k b Hk. rewrite E; [by apply H|]. apply lookup_lt_Some in Hk. lia. Qed.

Lemma at_bytes_app m a o o' : at_bytes m a o -> at_bytes m (a + Z.of_nat (length o)) o' -> at_bytes m a (o ++ o').
Proof.
  intros H1 H2 k b Hk. apply lookup_app_Some in Hk as [Hk|[Hl Hk]]; [by apply H1|].
  specialize (H2 _ _ Hk). rewrite <- H2. f_equal. lia.
Qed.

(** ** The invariant *)

Definition reloc_of (a opc : Z) : TCGRelocation := mkReloc R_386_PC32 (a + Z.of_nat (length (head_long opc))) (-4).

Definition piece_ok (c : Ctx) (a n : Z) (x : piece) : Prop :=
  match x with
  | Code e => exists o, e a = Some o /\ n = Z.of_nat (length o) /\ at_bytes (buf c) a o
  | Label l => n = 0 /\ labels c !! l = Some (value a)
  | Jump opc l => jump_opc opc /\
      ((exists v o, labels c !! l = Some (value v) /\ n = Z.of_nat (length o) /\ at_bytes (buf c) a o /\ branches opc o a v) \/
       (exists L, labels c !! l = Some (first_reloc L) /\ n = Z.of_nat (length (head_long opc)) + 4 /\ at_bytes (buf c) a (head_long opc) /\
          reloc_of a opc ∈ L))
  end.

Record Inv (base : Z) (c : Ctx) (pl : list place) : Prop := {
  inv_chain : chain base pl (code_ptr c);
  inv_piece a n x : (a, n, x) ∈ pl -> piece_ok c a n x;
  inv_relocs l L r : labels c !! l = Some (first_reloc L) -> r ∈ L -> exists a n opc, (a, n, Jump opc l) ∈ pl /\ r = reloc_of a opc;
  inv_value l v : labels c !! l = Some (value v) -> base <= v <= code_ptr c
}.

(** Addresses are small enough for displacements of 32 bits. *)
Definition small_block (base e : Z) : Prop := 0 <= base /\ base < 2 ^ 61 /\ e < base + 2 ^ 30.

(** Bytes behind the code do not matter to the pieces. *)
Lemma piece_keep c c' a n x : piece_ok c a n x -> (forall y, a <= y < a + n -> buf c' y = buf c y) -> labels c' = labels c -> piece_ok c' a n x.
Proof.
  intros H Hb Hl. destruct x as [e|opc l|l]; cbn [piece_ok] in *.
  - destruct H as (o & E & -> & Ho). exists o. split_and!; [done..|]. by eapply at_bytes_ext.
  - destruct H as [Ho [(v & o & E & -> & Hat & Hbr)|(L & E & -> & Hat & Hin)]]; (split; [done|]); rewrite Hl.
    + left. exists v, o. split_and!; try done. by eapply at_bytes_ext.
    + right. exists L. split_and!; try done. eapply at_bytes_ext; [done|]. intros y Hy. apply Hb. lia.
  - by rewrite Hl.
Qed.

(** A piece of bytes at the end. *)
Lemma inv_append base c pl o x : Inv base c pl ->
  let c' := set_code (poke (buf c) (code_ptr c) o) (code_ptr c + Z.of_nat (length o)) c in
  piece_ok c' (code_ptr c) (Z.of_nat (length o)) x -> Inv base c' (pl ++ [(code_ptr c, Z.of_nat (length o), x)]).
Proof.
  intros [Hch Hp Hr Hv] c' Hx. destruct (chain_bounds _ _ _ Hch) as [_ HB]. split.
  - apply chain_snoc; [done|lia].
  - intros a n y [Hin|E%list_elem_of_singleton]%elem_of_app; [|by injection E as -> -> ->].
    eapply piece_keep; [by apply Hp| |done]. intros z Hz. cbn. apply poke_other. destruct (HB _ _ _ Hin). lia.
  - intros l L r El Hin. destruct (Hr l L r El Hin) as (a & n & opc & H1 & H2). exists a, n, opc. split; [|done]. apply elem_of_app. by left.
  - intros l v El. specialize (Hv l v El). cbn. lia.
Qed.

Lemma inv_code base c pl e c' : Inv base c pl -> out e c = Some c' ->
  exists n, 0 <= n /\ code_ptr c' = code_ptr c + n /\ Inv base c' (pl ++ [(code_ptr c, n, Code e)]).
Proof.
  unfold out. intros HI. destruct (e (code_ptr c)) as [o|] eqn:E; cbn [mbind option_bind]; [|done]. intros [= <-].
  exists (Z.of_nat (length o)). split_and!; [lia|done|]. apply inv_append; [done|]. exists o. split_and!; [done..|]. apply poke_same.
Qed.

(** ** Branches *)

Lemma head_long_emitted opc p : jump_opc opc ->
  (if opc =? -1 then tcg_out8 OPC_JMP_long else tcg_out_opc (OPC_JCC_long + opc) 0 0 0) p = Some (head_long opc).
Proof. intros [->|H]; [done|]. each_cond H; reflexivity. Qed.

Lemma head_short_emitted opc p : jump_opc opc ->
  (if opc =? -1 then tcg_out8 OPC_JMP_short else tcg_out8 (OPC_JCC_short + opc)) p = Some (head_short opc).
Proof. intros [->|H]; [done|]. each_cond H; reflexivity. Qed.

Lemma head_lengths opc : length (head_short opc) = 1%nat /\ (length (head_long opc) = if opc =? -1 then 1%nat else 2%nat).
Proof. unfold head_short, head_long. by destruct (opc =? -1). Qed.

(** The instruction for a label that has its value. *)
Lemma back_branch opc p v c c' l : jump_opc opc -> labels c !! l = Some (value v) -> code_ptr c = p ->
  0 <= v < 2 ^ 63 -> - 2 ^ 30 < v - p < 2 ^ 30 -> tcg_out_jxx opc l false c = Some c' ->
  exists o, c' = set_code (poke (buf c) p o) (p + Z.of_nat (length o)) c /\ branches opc o p v.
Proof.
  intros Ho El Ep Hv Hd. unfold tcg_out_jxx. rewrite El, Ep. destruct (head_lengths opc) as [L1 L2].
  assert (int32_t (v - p) = v - p) as -> by (apply sint_id; [lia|]; unfold in_s; cbn; lia).
  assert (int32_t (v - p - 2) = v - p - 2) as -> by (apply sint_id; [lia|]; unfold in_s; cbn; lia).
  destruct (Z.eqb_spec (int8_t (v - p - 2)) (v - p - 2)) as [E8|N8].
  - intros E. exists (head_short opc ++ [uint8_t (v - p - 2)]). split.
    + unfold out in E. rewrite Ep, (emit_seq_some _ _ _ _ [uint8_t (v - p - 2)] (head_short_emitted opc p Ho)) in E by done.
      cbn [mbind option_bind] in E. congruence.
    + apply short_branches; [done|congruence|rewrite L1; lia|lia].
  - intros E. assert (exists k, k = Z.of_nat (length (head_long opc)) + 4 /\
      out ((if opc =? -1 then tcg_out8 OPC_JMP_long else tcg_out_opc (OPC_JCC_long + opc) 0 0 0) ;;; tcg_out32 (v - p - k))%C c = Some c') as (k & Ek & E').
    { destruct (opc =? -1); eexists; (split; [reflexivity|]); rewrite L2; exact E. }
    clear E. exists (head_long opc ++ unpack 8 4 (v - p - k)). split.
    + unfold out in E'. rewrite Ep, (emit_seq_some _ _ _ _ (unpack 8 4 (v - p - k)) (head_long_emitted opc p Ho)) in E' by done.
      cbn [mbind option_bind] in E'. congruence.
    + assert (int32_t (v - p - k) = v - p - k) as Ei by (apply sint_id; [lia|]; unfold in_s; rewrite Ek, L2; destruct (opc =? -1); cbn; lia).
      apply long_branches; [done|congruence|lia|lia].
Qed.

Lemma inv_jump base c pl opc l c' : Inv base c pl -> jump_opc opc -> tcg_out_jxx opc l false c = Some c' -> small_block base (code_ptr c) ->
  exists n, 0 <= n /\ code_ptr c' = code_ptr c + n /\ Inv base c' (pl ++ [(code_ptr c, n, Jump opc l)]).
Proof.
  intros HI Ho E (B1 & B2 & B3). destruct (labels c !! l) as [[L|v]|] eqn:El.
  - unfold tcg_out_jxx in E. rewrite El in E. unfold gen_seq, out in E. rewrite head_long_emitted in E by done. cbn [mbind option_bind] in E.
    unfold tcg_out_reloc in E. cbn [labels set_code] in E. rewrite El in E. cbn [mbind option_bind] in E. unfold skip in E. injection E as <-.
    set (h := head_long opc) in *. exists (Z.of_nat (length h) + 4). split_and!; [lia|cbn; lia|].
    destruct HI as [Hch Hp Hr Hv]. destruct (chain_bounds _ _ _ Hch) as [_ HB]. pose proof (lookup_lt_Some _ _ _ El) as Hlt. split.
    + cbn. rewrite <- Z.add_assoc. apply chain_snoc; [done|lia].
    + intros a n y [Hin|Eq%list_elem_of_singleton]%elem_of_app.
      * specialize (Hp _ _ _ Hin). destruct (HB _ _ _ Hin) as (Ha1 & Ha2 & Ha3).
        assert (forall o, Z.of_nat (length o) <= n -> at_bytes (buf c) a o -> at_bytes (poke (buf c) (code_ptr c) h) a o) as Hat.
        { intros o Hl Hb. eapply at_bytes_ext; [done|]. intros z Hz. apply poke_other. lia. }
        destruct y as [e|opc' l'|l']; cbn [piece_ok buf labels set_code set_label] in *.
        -- destruct Hp as (o & E1 & -> & E3). exists o. split_and!; [done..|]. apply Hat; [lia|done].
        -- destruct Hp as [Ho' [(v & o & E1 & -> & E3 & E4)|(L' & E1 & -> & E3 & E4)]]; (split; [done|]).
           ++ left. exists v, o. split_and!; [|done| |done]; [|by apply Hat; [lia|]]. rewrite list_lookup_insert_ne; [done|]. intros ->. congruence.
           ++ right. destruct (decide (l' = l)) as [->|Hne].
              ** exists (reloc_of (code_ptr c) opc :: L). rewrite El in E1. injection E1 as <-.
                 split_and!; [by apply list_lookup_insert_eq|done|apply Hat; [lia|done]|apply elem_of_cons; by right].
              ** exists L'. rewrite list_lookup_insert_ne by done. split_and!; [done..|apply Hat; [lia|done]|done].
        -- destruct Hp as [-> Hp]. split; [done|]. rewrite list_lookup_insert_ne; [done|]. intros ->. congruence.
      * injection Eq as -> -> ->. cbn [piece_ok buf labels set_code set_label]. split; [done|]. right. exists (reloc_of (code_ptr c) opc :: L).
        split_and!; [by apply list_lookup_insert_eq|done|apply poke_same|apply elem_of_cons; by left].
    + intros l' L' r. cbn [labels set_code set_label]. destruct (decide (l' = l)) as [->|Hne].
      * rewrite list_lookup_insert_eq by done. intros [= <-] [->|Hin]%elem_of_cons.
        -- exists (code_ptr c), (Z.of_nat (length h) + 4), opc. split; [|done]. apply elem_of_app. right. by apply list_elem_of_singleton.
        -- destruct (Hr l L r El Hin) as (a & n & o & H1 & H2). exists a, n, o. split; [|done]. apply elem_of_app. by left.
      * rewrite list_lookup_insert_ne by done. intros E1 Hin. destruct (Hr l' L' r E1 Hin) as (a & n & o & H1 & H2). exists a, n, o.
        split; [|done]. apply elem_of_app. by left.
    + intros l' v'. cbn [labels set_code set_label code_ptr]. destruct (decide (l' = l)) as [->|Hne]; [by rewrite list_lookup_insert_eq|].
      rewrite list_lookup_insert_ne by done. intros E1. specialize (Hv l' v' E1). lia.
  - pose proof (inv_value _ _ _ HI l v El) as Hv. destruct (back_branch opc (code_ptr c) v c c' l Ho El eq_refl) as (o & -> & Hbr); [lia|lia|done|].
    exists (Z.of_nat (length o)). split_and!; [lia|done|]. apply inv_append; [done|]. split; [done|]. left. exists v, o. split_and!; [done..|apply poke_same|done].
  - unfold tcg_out_jxx in E. by rewrite El in E.
Qed.

(** ** Labels *)

(** The displacement that a relocation gets. *)
Definition reloc_disp (r : TCGRelocation) (v : Z) : Z := v - 4 - r_ptr r.

Definition long_reloc (r : TCGRelocation) : Prop := r_type r = R_386_PC32 /\ r_addend r = -4 /\ 0 <= r_ptr r < 2 ^ 62.

Lemma patch_spec r v c c' : long_reloc r -> 0 <= v < 2 ^ 62 -> patch_reloc (r_ptr r) (r_type r) v (r_addend r) c = Some c' ->
  c' = set_code (poke (buf c) (r_ptr r) (unpack 8 4 (reloc_disp r v))) (code_ptr c) c /\ reloc_disp r v = int32_t (reloc_disp r v).
Proof.
  intros (-> & -> & Hp) Hv. unfold patch_reloc, reloc_disp. change (R_386_PC32 =? R_386_PC32) with true. cbn iota.
  assert (int64_t (int64_t (v + -4) - r_ptr r) = v - 4 - r_ptr r) as -> by cint.
  destruct (Z.eqb_spec (v - 4 - r_ptr r) (int32_t (v - 4 - r_ptr r))) as [E|]; cbn [negb]; [|done]. by intros [= <-].
Qed.

(** Patching a list of open displacements, equal or apart from each other. *)
Lemma patch_relocs_spec L v c c' : (forall r, r ∈ L -> long_reloc r) -> 0 <= v < 2 ^ 62 ->
  (forall r r', r ∈ L -> r' ∈ L -> r_ptr r = r_ptr r' \/ r_ptr r + 4 <= r_ptr r' \/ r_ptr r' + 4 <= r_ptr r) ->
  patch_relocs L v c = Some c' ->
  exists m, c' = set_code m (code_ptr c) c /\
    (forall x, (forall r, r ∈ L -> x < r_ptr r \/ r_ptr r + 4 <= x) -> m x = buf c x) /\
    forall r, r ∈ L -> at_bytes m (r_ptr r) (unpack 8 4 (reloc_disp r v)) /\ reloc_disp r v = int32_t (reloc_disp r v).
Proof.
  revert c. induction L as [|r L IH]; cbn [patch_relocs]; intros c HL Hv Hap.
  - intros [= <-]. exists (buf c). split_and!; [by destruct c|done|set_solver].
  - destruct (patch_reloc _ _ _ _ c) as [c1|] eqn:E1; cbn [mbind option_bind]; [|done]. intros E2.
    apply patch_spec in E1 as [-> Hd]; [|apply HL; set_solver|done].
    destruct (IH _ (fun r' Hr' => HL r' (proj2 (elem_of_cons _ _ _) (or_intror Hr'))) Hv ltac:(intros; apply Hap; set_solver) E2) as (m & -> & Hout & Hin).
    cbn [buf set_code code_ptr] in *. exists m. split_and!; [done| |].
    + intros x Hx. rewrite Hout by (intros; apply Hx; set_solver). apply poke_other. rewrite length_unpack. apply Hx. set_solver.
    + intros r' [->|Hr']%elem_of_cons; [|by apply Hin]. split; [|done].
      destruct (decide (Exists (fun r' => r_ptr r' = r_ptr r) L)) as [(r' & Hr' & Ep)%Exists_exists|Hno].
      * destruct (Hin r' Hr') as [Ha _]. unfold reloc_disp in *. by rewrite Ep in Ha.
      * eapply at_bytes_ext; [apply poke_same|]. rewrite length_unpack. intros x Hx. apply Hout. intros r' Hr'.
        destruct (Hap r r') as [E|H]; [set_solver..| |lia]. exfalso. apply Hno, Exists_exists. by exists r'.
Qed.

Section Place_label.
Context (base : Z) (c : Ctx) (pl : list place) (l : nat) (L : list TCGRelocation).
Context (HI : Inv base c pl) (El : labels c !! l = Some (first_reloc L)) (HB : small_block base (code_ptr c)).

(** The holes of the branches to the label. *)
Lemma hole_of r : r ∈ L -> exists a opc, (a, Z.of_nat (length (head_long opc)) + 4, Jump opc l) ∈ pl /\ r = reloc_of a opc /\
  base <= a /\ a + Z.of_nat (length (head_long opc)) + 4 <= code_ptr c.
Proof.
  intros Hr. destruct (inv_relocs _ _ _ HI l L r El Hr) as (a & n & opc & Hin & ->).
  pose proof (inv_piece _ _ _ HI _ _ _ Hin) as [_ [(v & o & E & _)|(L' & _ & -> & _)]]; [congruence|].
  destruct (chain_bounds _ _ _ (inv_chain _ _ _ HI)) as [_ HC]. destruct (HC _ _ _ Hin) as (H1 & H2 & H3). exists a, opc. split_and!; try done. lia.
Qed.

Lemma holes_long r : r ∈ L -> long_reloc r.
Proof.
  intros Hr. destruct (hole_of r Hr) as (a & opc & _ & -> & H1 & H2). unfold long_reloc, reloc_of, small_block in *. cbn. lia.
Qed.

(** A hole against a piece that is not its branch. *)
Lemma hole_apart r a n x : r ∈ L -> (a, n, x) ∈ pl ->
  (exists opc, x = Jump opc l /\ r = reloc_of a opc /\ n = Z.of_nat (length (head_long opc)) + 4) \/ a + n <= r_ptr r \/ r_ptr r + 4 <= a.
Proof.
  intros Hr Hin. destruct (hole_of r Hr) as (b & opc & Hb & -> & H1 & H2).
  destruct (chain_disjoint _ _ _ _ _ _ _ _ _ (inv_chain _ _ _ HI) Hb Hin) as [E|Hd].
  - injection E as <- <- <-. left. by exists opc.
  - right. cbn [r_ptr reloc_of]. lia.
Qed.

Lemma holes_apart r r' : r ∈ L -> r' ∈ L -> r_ptr r = r_ptr r' \/ r_ptr r + 4 <= r_ptr r' \/ r_ptr r' + 4 <= r_ptr r.
Proof.
  intros Hr Hr'. destruct (hole_of r Hr) as (a & opc & Ha & E & _). destruct (hole_apart r' a _ _ Hr' Ha) as [(o & [= <-] & -> & _)|H].
  - left. by rewrite E.
  - right. rewrite E. cbn [r_ptr reloc_of]. lia.
Qed.

Lemma place_label c' : tcg_out_label l (code_ptr c) c = Some c' ->
  code_ptr c' = code_ptr c /\ Inv base c' (pl ++ [(code_ptr c, 0, Label l)]).
Proof.
  unfold tcg_out_label. rewrite El. set (v := code_ptr c). destruct (patch_relocs L v c) as [c1|] eqn:Ep; cbn [mbind option_bind]; [|done]. intros [= <-].
  pose proof (inv_chain _ _ _ HI) as Hch. destruct (chain_bounds _ _ _ Hch) as [Hbe HC].
  assert (0 <= v < 2 ^ 62) as Hv by (unfold small_block in HB; lia).
  destruct (patch_relocs_spec L v c c1 holes_long Hv holes_apart Ep) as (m & -> & Hout & Hin). split; [done|]. pose proof (lookup_lt_Some _ _ _ El) as Hlt.
  assert (forall a n o, (forall r, r ∈ L -> a + n <= r_ptr r \/ r_ptr r + 4 <= a) -> Z.of_nat (length o) <= n -> at_bytes (buf c) a o -> at_bytes m a o) as Hkeep.
  { intros a n o Hd Hl Ho. eapply at_bytes_ext; [done|]. intros x Hx. apply Hout. intros r Hr. destruct (Hd r Hr); lia. }
  split.
  - pose proof (chain_snoc base pl v 0 (Label l) Hch ltac:(lia)) as Hs. by rewrite Z.add_0_r in Hs.
  - intros a n x [Hx|E%list_elem_of_singleton]%elem_of_app.
    2: { injection E as -> -> ->. split; [done|]. by apply list_lookup_insert_eq. }
    pose proof (inv_piece _ _ _ HI _ _ _ Hx) as Hok.
    assert (forall r, r ∈ L -> (exists opc, x = Jump opc l /\ r = reloc_of a opc /\ n = Z.of_nat (length (head_long opc)) + 4) \/ a + n <= r_ptr r \/ r_ptr r + 4 <= a) as Hd
      by (intros r Hr; by apply hole_apart).
    destruct x as [e|opc k|k]; cbn [piece_ok buf labels set_code set_label] in *.
    + destruct Hok as (o & E1 & -> & E3). exists o. split_and!; [done..|]. apply (Hkeep _ (Z.of_nat (length o))); [|lia|done].
      intros r Hr. destruct (Hd r Hr) as [(? & ? & _)|?]; done.
    + destruct Hok as [Ho Hok]. split; [done|]. destruct (decide (k = l)) as [->|Hne].
      * left. destruct Hok as [(v' & o & E & _)|(L' & E1 & -> & E3 & E4)]; [congruence|]. rewrite El in E1. injection E1 as <-.
        destruct (Hin _ E4) as [Hat Hd']. exists v, (head_long opc ++ unpack 8 4 (reloc_disp (reloc_of a opc) v)).
        rewrite list_lookup_insert_eq, length_app, length_unpack by done. split_and!; [done|lia| |].
        -- apply at_bytes_app; [|done]. eapply at_bytes_ext; [done|]. intros x Hxr. apply Hout. intros r Hr.
           destruct (Hd r Hr) as [(o' & [= <-] & -> & _)|H]; [left; cbn [r_ptr reloc_of]; lia|lia].
        -- apply long_branches; [done|done|unfold reloc_disp; cbn [r_ptr reloc_of]; lia|lia].
      * rewrite list_lookup_insert_ne by done.
        assert (forall r, r ∈ L -> a + n <= r_ptr r \/ r_ptr r + 4 <= a) as Hd'.
        { intros r Hr. destruct (Hd r Hr) as [(o' & [= -> ->] & _)|?]; done. }
        destruct Hok as [(v' & o & E & -> & E2 & E3)|(L' & E1 & -> & E3 & E4)]; [left|right].
        -- exists v', o. split_and!; try done. by eapply Hkeep.
        -- exists L'. split_and!; try done. eapply Hkeep; [done|lia|done].
    + destruct Hok as [-> Hok]. split; [done|]. rewrite list_lookup_insert_ne; [done|]. intros ->. congruence.
  - intros k L' r. cbn [labels set_code set_label]. destruct (decide (k = l)) as [->|Hne]; [by rewrite list_lookup_insert_eq|].
    rewrite list_lookup_insert_ne by done. intros E1 Hr. destruct (inv_relocs _ _ _ HI k L' r E1 Hr) as (a & n & o & H1 & H2). exists a, n, o.
    split; [|done]. apply elem_of_app. by left.
  - intros k v'. cbn [labels set_code set_label code_ptr]. destruct (decide (k = l)) as [->|Hne].
    + rewrite list_lookup_insert_eq by done. intros [= <-]. lia.
    + rewrite list_lookup_insert_ne by done. apply HI.
Qed.

End Place_label.

(** ** Blocks *)

(** Before the block is generated. *)
Record fresh (base : Z) (c : Ctx) : Prop := {
  fr_ptr : code_ptr c = base;
  fr_labels l x : labels c !! l = Some x -> x = first_reloc []
}.

Lemma fresh_inv base c : fresh base c -> Inv base c [].
Proof.
  intros [Hp Hl]. split; [done|set_solver| |].
  - intros l L r E Hin. apply Hl in E. injection E as ->. set_solver.
  - intros l v E. by apply Hl in E.
Qed.

Lemma patch_ptr ptr ty v ad c c' : patch_reloc ptr ty v ad c = Some c' -> code_ptr c' = code_ptr c.
Proof. unfold patch_reloc. repeat (case_match; try done); by intros [= <-]. Qed.

Lemma patches_ptr L v c c' : patch_relocs L v c = Some c' -> code_ptr c' = code_ptr c.
Proof.
  revert c. induction L as [|r L IH]; cbn; intros c; [by intros [= <-]|].
  destruct (patch_reloc _ _ _ _ c) as [c1|] eqn:E; cbn; [|done]. intros H. by rewrite (IH _ H), (patch_ptr _ _ _ _ _ _ E).
Qed.

Lemma out_mono e c c' : out e c = Some c' -> code_ptr c <= code_ptr c'.
Proof. unfold out. destruct (e (code_ptr c)); cbn; [|done]. intros [= <-]. cbn. lia. Qed.

(** The code only grows. *)
Lemma gen_piece_mono x c c' : gen_piece x c = Some c' -> code_ptr c <= code_ptr c'.
Proof.
  destruct x as [e|opc l|l]; cbn [gen_piece]; [apply out_mono| |].
  - unfold tcg_out_jxx. destruct (labels c !! l) as [[L|v]|] eqn:El; [| |done].
    + unfold gen_seq. destruct (out _ c) as [c1|] eqn:E1; cbn [mbind option_bind]; [|done]. apply out_mono in E1.
      unfold tcg_out_reloc. destruct (labels c1 !! l) as [[L1|v1]|]; cbn [mbind option_bind]; [| |done].
      * unfold skip. intros [= <-]. cbn. lia.
      * destruct (patch_reloc _ _ _ _ c1) as [c2|] eqn:E2; cbn [mbind option_bind]; [|done]. apply patch_ptr in E2. unfold skip. intros [= <-]. cbn. lia.
    + repeat case_match; try done; apply out_mono.
  - unfold tcg_out_label. destruct (labels c !! l) as [[L|v]|]; [|done..].
    destruct (patch_relocs L (code_ptr c) c) as [c1|] eqn:E; cbn [mbind option_bind]; [|done]. apply patches_ptr in E. intros [= <-]. cbn. lia.
Qed.

Lemma gen_pieces_mono l c c' : gen_pieces l c = Some c' -> code_ptr c <= code_ptr c'.
Proof.
  revert c. induction l as [|x l IH]; cbn; intros c; [by intros [= <-]|].
  destruct (gen_piece x c) as [c1|] eqn:E; cbn; [|done]. intros H. apply IH in H. apply gen_piece_mono in E. lia.
Qed.

Definition piece_jump_ok (x : piece) : Prop := match x with Jump opc _ => jump_opc opc | _ => True end.

Lemma gen_piece_inv base c pl x c' : Inv base c pl -> gen_piece x c = Some c' -> piece_jump_ok x -> small_block base (code_ptr c') ->
  exists a n, Inv base c' (pl ++ [(a, n, x)]).
Proof.
  intros HI E Hx HB. assert (small_block base (code_ptr c)) as HB' by (apply gen_piece_mono in E; unfold small_block in *; lia).
  destruct x as [e|opc l|l]; cbn [gen_piece piece_jump_ok] in *.
  - destruct (inv_code base c pl e c' HI E) as (n & _ & _ & H). by do 2 eexists.
  - destruct (inv_jump base c pl opc l c' HI Hx E HB') as (n & _ & _ & H). by do 2 eexists.
  - destruct (labels c !! l) as [[L|v]|] eqn:El.
    + destruct (place_label base c pl l L HI El HB' c' E) as [_ H]. by do 2 eexists.
    + unfold tcg_out_label in E. by rewrite El in E.
    + unfold tcg_out_label in E. by rewrite El in E.
Qed.

Lemma gen_pieces_inv base l c pl c' : Inv base c pl -> gen_pieces l c = Some c' -> Forall piece_jump_ok l -> small_block base (code_ptr c') ->
  exists pl', Inv base c' (pl ++ pl') /\ (snd <$> pl') = l.
Proof.
  revert c pl. induction l as [|x l IH]; cbn [gen_pieces]; intros c pl HI.
  - intros [= <-] _ _. exists []. by rewrite app_nil_r.
  - destruct (gen_piece x c) as [c1|] eqn:E; cbn [mbind option_bind]; [|done]. intros E' [Hx Hl]%Forall_cons HB.
    destruct (gen_piece_inv base c pl x c1 HI E Hx) as (a & n & HI1). { apply gen_pieces_mono in E'. unfold small_block in *. lia. }
    destruct (IH c1 _ HI1 E' Hl HB) as (pl' & HI' & Hs). exists ((a, n, x) :: pl'). rewrite <- app_assoc in HI'. split; [done|]. cbn. by rewrite Hs.
Qed.

(** ** Running a block *)

(** The address of a piece, or of the end. *)
Fixpoint addr (b : Z) (pl : list place) (i : nat) : Z :=
  match pl, i with (_, n, _) :: pl, S i => addr (b + n) pl i | _, _ => b end.

Lemma addr_lookup b pl e i a n x : chain b pl e -> pl !! i = Some (a, n, x) -> addr b pl i = a /\ addr b pl (S i) = a + n.
Proof.
  revert b i. induction pl as [|[[c m] y] pl IH]; intros b i; [done|]. cbn [chain]. intros (-> & _ & Hc). destruct i as [|i]; cbn.
  - intros [= -> -> ->]. by destruct pl as [|[[? ?] ?] ?].
  - by apply IH.
Qed.

Lemma addr_end b pl e : chain b pl e -> addr b pl (length pl) = e.
Proof. revert b. induction pl as [|[[c m] y] pl IH]; intros b; cbn; [done|]. intros (_ & _ & H). by apply IH. Qed.

(** The bytes of the block. *)
Definition block_code (base : Z) (c : Ctx) : list Z := (fun k => buf c (base + Z.of_nat k)) <$> seq 0 (Z.to_nat (code_ptr c - base)).

Lemma block_code_split base c a o : at_bytes (buf c) a o -> base <= a -> a + Z.of_nat (length o) <= code_ptr c ->
  exists pre post, block_code base c = pre ++ o ++ post /\ a = base + Z.of_nat (length pre).
Proof.
  intros Ho Ha Hl. set (code := block_code base c). set (k := Z.to_nat (a - base)).
  assert (length code = Z.to_nat (code_ptr c - base)) as Hc by (unfold code, block_code; by rewrite length_fmap, length_seq).
  exists (take k code), (drop (k + length o) code). split; [|rewrite length_take; lia].
  rewrite <- (take_drop k code) at 1. f_equal. rewrite <- (take_drop (length o) (drop k code)) at 1. rewrite drop_drop. f_equal.
  apply list_eq. intros i. destruct (decide (i < length o)%nat) as [Hi|Hi].
  - destruct (lookup_lt_is_Some_2 o i Hi) as [b Hb]. rewrite lookup_take_lt by done. rewrite lookup_drop, Hb. unfold code, block_code.
    rewrite list_lookup_fmap, lookup_seq_lt by lia. cbn. f_equal. rewrite <- (Ho i b Hb). f_equal. lia.
  - rewrite !lookup_ge_None_2; [done|lia|]. rewrite length_take, length_drop. lia.
Qed.

(** What a piece does. *)
Inductive piece_step (l : list piece) (at_ : nat -> Z) : nat * X86 -> nat * X86 -> Prop :=
  | step_code i e s s' : l !! i = Some (Code e) -> falls e (at_ i) s s' -> piece_step l at_ (i, s) (S i, s')
  | step_taken i j opc k s : l !! i = Some (Jump opc k) -> taken opc s = Some true -> l !! j = Some (Label k) -> piece_step l at_ (i, s) (j, s)
  | step_not_taken i j opc k s : l !! i = Some (Jump opc k) -> l !! j = Some (Label k) -> taken opc s = Some false -> piece_step l at_ (i, s) (S i, s)
  | step_label i k s : l !! i = Some (Label k) -> piece_step l at_ (i, s) (S i, s).

Lemma piece_at (pl : list place) (l : list piece) i x : (snd <$> pl) = l -> l !! i = Some x -> exists a n, pl !! i = Some (a, n, x).
Proof. intros <- H. apply list_lookup_fmap_Some in H as ([[a n] y] & E1 & E2). cbn in *. subst. by exists a, n. Qed.

Lemma piece_step_runs base c (pl : list place) (l : list piece) i s j s' : Inv base c pl -> (snd <$> pl) = l -> piece_step l (addr base pl) (i, s) (j, s') ->
  exists n, x86_steps n base (block_code base c) (addr base pl i, s) = Some (addr base pl j, s').
Proof.
  intros HI Hl Hs. pose proof (inv_chain _ _ _ HI) as Hch. destruct (chain_bounds _ _ _ Hch) as [_ HB].
  assert (forall i a n x, pl !! i = Some (a, n, x) -> (a, n, x) ∈ pl) as Hmem by (intros; by eapply list_elem_of_lookup_2).
  inversion Hs as [? e ? ? Hi Hf|? ? opc k ? Hi Ht Hj|? j' opc k ? Hi Hj Ht|? k ? Hi]; subst.
  - destruct (piece_at pl _ i _ eq_refl Hi) as (a & n & Hp). destruct (addr_lookup _ _ _ _ _ _ _ Hch Hp) as [Ea Ea'].
    destruct (inv_piece _ _ _ HI _ _ _ (Hmem _ _ _ _ Hp)) as (o & E1 & -> & E3). destruct (HB _ _ _ (Hmem _ _ _ _ Hp)) as (B1 & _ & B3).
    rewrite Ea, Ea' in *. destruct Hf as (o' & Eo & R). rewrite E1 in Eo. injection Eo as <-.
    destruct (block_code_split base c a o E3 B1 B3) as (pre & post & -> & Epre). by apply R.
  - destruct (piece_at pl _ i _ eq_refl Hi) as (a & n & Hp). destruct (piece_at pl _ j _ eq_refl Hj) as (a' & n' & Hp').
    destruct (addr_lookup _ _ _ _ _ _ _ Hch Hp) as [-> _], (addr_lookup _ _ _ _ _ _ _ Hch Hp') as [-> _].
    destruct (inv_piece _ _ _ HI _ _ _ (Hmem _ _ _ _ Hp')) as [_ Elab]. destruct (HB _ _ _ (Hmem _ _ _ _ Hp)) as (B1 & _ & B3).
    destruct (inv_piece _ _ _ HI _ _ _ (Hmem _ _ _ _ Hp)) as [_ [(v & o & E1 & -> & E3 & E4)|(L & E1 & _)]]; [|congruence].
    rewrite Elab in E1. injection E1 as <-. destruct (block_code_split base c a o E3 B1 B3) as (pre & post & -> & Epre). by apply (E4 s' true).
  - destruct (piece_at pl _ i _ eq_refl Hi) as (a & n & Hp). destruct (piece_at pl _ j' _ eq_refl Hj) as (a' & n' & Hp').
    destruct (addr_lookup _ _ _ _ _ _ _ Hch Hp) as [-> ->].
    destruct (inv_piece _ _ _ HI _ _ _ (Hmem _ _ _ _ Hp')) as [_ Elab]. destruct (HB _ _ _ (Hmem _ _ _ _ Hp)) as (B1 & _ & B3).
    destruct (inv_piece _ _ _ HI _ _ _ (Hmem _ _ _ _ Hp)) as [_ [(v & o & E1 & -> & E3 & E4)|(L & E1 & _)]]; [|congruence].
    destruct (block_code_split base c a o E3 B1 B3) as (pre & post & -> & Epre). by apply (E4 s' false).
  - destruct (piece_at pl _ i _ eq_refl Hi) as (a & n & Hp). destruct (addr_lookup _ _ _ _ _ _ _ Hch Hp) as [-> ->].
    destruct (inv_piece _ _ _ HI _ _ _ (Hmem _ _ _ _ Hp)) as [-> _]. exists 0%nat. cbn. by rewrite Z.add_0_r.
Qed.

(** A piece that leaves the block. *)
Lemma piece_leaves base c (pl : list place) (l : list piece) i e s t s' : Inv base c pl -> (snd <$> pl) = l -> l !! i = Some (Code e) ->
  does e (addr base pl i) s t s' -> exists n, x86_steps n base (block_code base c) (addr base pl i, s) = Some (t, s').
Proof.
  intros HI <- Hi (o' & Eo & R). pose proof (inv_chain _ _ _ HI) as Hch. destruct (piece_at pl _ i _ eq_refl Hi) as (a & n & Hp).
  destruct (addr_lookup _ _ _ _ _ _ _ Hch Hp) as [Ea _]. rewrite Ea in *. pose proof (list_elem_of_lookup_2 _ _ _ Hp) as Hin.
  destruct (inv_piece _ _ _ HI _ _ _ Hin) as (o & E1 & -> & E3). destruct (chain_bounds _ _ _ Hch) as [_ HB]. destruct (HB _ _ _ Hin) as (B1 & _ & B3).
  rewrite E1 in Eo. injection Eo as <-. destruct (block_code_split base c a o E3 B1 B3) as (pre & post & -> & Epre). by apply R.
Qed.
