(* ===== verification/X86GuestProofs.v ===== *)
(** * Guest loads and stores in machine code

    What the code of X86Guest does on the processor of X86Sem.  With [IsPCore] zero it
    accesses guest memory; otherwise it leaves the request of the access in the CPU state,
    calls the function of the shadow store buffer with the CPU state as its argument, and
    takes the data of a load from the CPU state when the function has returned. *)

From S2P Require Import Prelude TcgIr X86Enc X86Sem X86Decode X86Run X86Alu X86Shift X86Mem X86Jump X86Guest.
Open Scope Z_scope.

(** ** Memory *)

(** The ranges [a, a+n) and [b, b+m) have no byte in common. *)
Definition apart (a n b m : Z) : Prop := n <= uint64_t (b - a) /\ m <= uint64_t (a - b).

Lemma read_write_same m n a v : Z.of_nat n <= 8 -> read_mem (write_mem m n a v) n a = uint (8 * Z.of_nat n) v.
Proof.
  intros Hn. unfold read_mem, write_mem. transitivity (pack 8 (unpack 8 n (uint (8 * Z.of_nat n) v))).
  - f_equal. unfold unpack. apply list_fmap_ext. intros i k Hk. apply lookup_seq in Hk as [-> Hk]. cbn [Nat.add].
    assert (uint64_t (uint64_t (a + Z.of_nat i) - a) = Z.of_nat i) as -> by cint.
    destruct (Z.ltb_spec (Z.of_nat i) (Z.of_nat n)); [|lia]. by rewrite lane_uint by lia.
  - apply pack_unpack; [lia|]. apply uint_range. lia.
Qed.

Lemma read_write_apart m n a k b v : apart a (Z.of_nat n) b (Z.of_nat k) -> read_mem (write_mem m k b v) n a = read_mem m n a.
Proof.
  intros [H1 H2]. unfold read_mem, write_mem. f_equal. apply list_fmap_ext. intros i j Hj. apply lookup_seq in Hj as [-> Hi]. cbn [Nat.add].
  assert (uint64_t (uint64_t (a + Z.of_nat i) - b) = uint64_t (a - b) + Z.of_nat i) as ->.
  { assert (0 <= Z.of_nat i < Z.of_nat n) by lia. cint. }
  destruct (Z.ltb_spec (uint64_t (a - b) + Z.of_nat i) (Z.of_nat k)); [lia|done].
Qed.

(** ** What is kept *)

(** The registers outside [l], and memory. *)
Record keeps (l : list Z) (s s' : X86) : Prop := {
  keeps_reg r : r ∉ l -> xr s' r = xr s r;
  keeps_mem : xm s' = xm s
}.

Lemma sets_keeps s s' d v : sets s s' d v -> keeps [d] s s'.
Proof. intros [_ H1 H2]. split; [|done]. intros r Hr. apply H1. set_solver. Qed.

Lemma keeps_then l l' s s1 s' : keeps l s s1 -> keeps l' s1 s' -> keeps (l ++ l') s s'.
Proof. intros [H1 M1] [H2 M2]. split; [|congruence]. intros r Hr. rewrite H2, H1; set_solver. Qed.

Lemma keeps_sub l l' s s' : keeps l s s' -> l ⊆ l' -> keeps l' s s'.
Proof. intros [H1 M1] Hl. split; [|done]. intros r Hr. apply H1. set_solver. Qed.

Lemma keeps_flags s f : keeps [] s (with_flags s f).
Proof. by split. Qed.

(** ** Fields of the CPU state *)

Definition offset_ok (o : Z) : Prop := 0 <= o < 2 ^ 31 - 8.

Record conf_ok (G : GuestConf) : Prop := {
  co_pcore : offset_ok (off_IsPCore G);
  co_ld_size : offset_ok (off_ld_size G);
  co_ld_linear : offset_ok (off_ld_linear G);
  co_ld_data : offset_ok (off_ld_databytes G);
  co_st_size : offset_ok (off_st_size G);
  co_st_linear : offset_ok (off_st_linear G);
  co_st_data : offset_ok (off_st_databytes G)
}.

Definition base_fits (G : GuestConf) : Prop := GUEST_BASE G = int32_t (GUEST_BASE G).

Lemma offset_int32 o : 0 <= o < 2 ^ 31 -> int32_t o = o.
Proof. intros. apply sint_id; [lia|]. unfold in_s. cbn. lia. Qed.

(** The address of a field. *)
Definition field (s : X86) (o : Z) : Z := uint64_t (xr s AREG0 + o).

Lemma lea_env_does r o p s : is_reg r -> 0 <= o < 2 ^ 31 -> exists s', falls (lea_env r o) p s s' /\ sets s s' r (field s o).
Proof.
  intros Hr Ho. destruct (lea_does TCG_TYPE_I64 r AREG0 (-1) o p s) as (s' & F & S); [done..|]. exists s'. split; [done|].
  change (-1 <? 0) with true in S. cbn iota in S. by rewrite Z.add_0_r, offset_int32 in S.
Qed.

Lemma lea_env_emits r o : is_reg r -> emits (lea_env r o) 8.
Proof. intros Hr. eapply emits_le; [by apply (mem_emits (OPC_LEA + P_REXW) r AREG0 o)|vm_compute; lia]. Qed.

Lemma field_in_u s o : in_u 64 (field s o).
Proof. apply uint_range. lia. Qed.

(** ** The test of IsPCore *)

Definition IsPCore (G : GuestConf) (s : X86) : Z := read_mem (xm s) 4 (field s (off_IsPCore G)).

Lemma test_pcore_does G p s : conf_ok G ->
  exists s' f, falls (test_pcore G) p s s' /\ keeps [RDI; RDX] s s' /\ xf s' = Some f /\ ZF f = (IsPCore G s =? 0) /\
    xr s' RDI = field s (off_IsPCore G) /\ xr s' RDX = 0.
Proof.
  intros HG. unfold test_pcore.
  destruct (lea_env_does RDI (off_IsPCore G) p s) as (s1 & F1 & S1); [done|by destruct (co_pcore _ HG); lia|].
  assert (forall q, exists s', falls (tcg_out_movi TCG_TYPE_I32 RDX 0 ;;; tcg_out_modrm_offset OPC_CMP_GvEv RDX RDI 0)%C q s1 s' /\
    (exists f, keeps [RDX] s1 s' /\ xf s' = Some f /\ ZF f = (IsPCore G s =? 0) /\ xr s' RDX = 0)) as H2.
  { intros q. destruct (movi_does TCG_TYPE_I32 RDX 0 q s1) as (s2 & F2 & S2); [done|].
    eapply falls_then; [exact F2|]. intros q'.
    set (v := IsPCore G s). set (f := flags_sub 32 0 v). exists (with_flags s2 (Some f)). split.
    - eapply insn_falls_0; [apply mem_decodes; [done|done|done|done|left; done|lia|solve_modrm]|]. intros next.
      assert (read_mem (xm s2) 4 (uint64_t (xr s2 RDI + 0 + 0)) = v) as Ev.
      { rewrite (sets_mem _ _ _ _ S2), (sets_mem _ _ _ _ S1), (sets_other _ _ _ _ S2), (sets_reg _ _ _ _ S1) by done.
        unfold v, IsPCore. rewrite !Z.add_0_r. unfold uint64_t. by rewrite (uint_id 64 (field s _)) by apply field_in_u. }
      unfold f. rewrite <- Ev. assert (xr s2 RDX = 0) as E0 by apply (sets_reg _ _ _ _ S2).
      transitivity (Some (None : option Z, with_flags s2 (Some (flags_sub 32 (uint 32 (xr s2 RDX)) (read_mem (xm s2) 4 (uint64_t (xr s2 RDI + 0 + 0))))))); [reflexivity|].
      by rewrite E0.
    - exists f. split; [|split; [done|split; [|by apply (sets_reg _ _ _ _ S2)]]]; [by apply (keeps_then [RDX] [] _ s2); [eapply sets_keeps|apply keeps_flags]|].
      unfold f. rewrite (zero_flag_sub TCG_TYPE_I32); [apply Z.eqb_sym|done|]. unfold v, IsPCore, read_mem.
      match goal with |- in_u _ (pack 8 ?l) => pose proof (pack_range 8 l ltac:(lia)) as Hr; by rewrite length_fmap, length_seq in Hr end. }
  destruct (falls_then _ _ p s s1 _ F1 H2) as (s' & F & f & K & Hf & HZ & Hx). exists s', f. split_and!; try done.
  - by apply (keeps_then [RDI] [RDX] _ s1); [eapply sets_keeps|].
  - rewrite (keeps_reg _ _ _ K) by set_solver. apply (sets_reg _ _ _ _ S1).
Qed.

Lemma test_pcore_emits G : emits (test_pcore G) 22.
Proof.
  apply (emits_seq _ _ 8 14); [by apply lea_env_emits|]. apply (emits_seq _ _ 6 8); [by apply movi_emits|].
  eapply emits_le; [by apply mem_emits|vm_compute; lia].
Qed.

(** ** The two branches *)

Lemma jne_decode d l : decode ([uint8_t (OPC_JCC_short + JCC_JNE); uint8_t d] ++ l) = Some (mkInsn 0x75 32 false false 0 (OReg 0) (int8_t d), l).
Proof.
  destruct (plain_decodes (OPC_JCC_short + JCC_JNE) 1 0) as (o & E & Hd); [solve_modrm|]. injection E as <-.
  apply (Hd (int8_t d) (uint8_t d :: l) l), take_byte.
Qed.

Lemma jmp_decode d l : decode ([uint8_t OPC_JMP_short; uint8_t d] ++ l) = Some (mkInsn 0xeb 32 false false 0 (OReg 0) (int8_t d), l).
Proof.
  destruct (plain_decodes OPC_JMP_short 1 0) as (o & E & Hd); [solve_modrm|]. injection E as <-.
  apply (Hd (int8_t d) (uint8_t d :: l) l), take_byte.
Qed.

Lemma int8_small d : 0 <= d < 128 -> int8_t d = d.
Proof. intros. apply sint_id; [lia|]. unfold in_s. cbn. lia. Qed.

(** Code addresses do not wrap around. *)
Definition code_at (p : Z) : Prop := 0 <= p < 2 ^ 64 - 1024.

Lemma jne_runs d p s f : xf s = Some f -> 0 <= d < 128 -> code_at p ->
  runs [uint8_t (OPC_JCC_short + JCC_JNE); uint8_t d] p s (p + 2 + if ZF f then 0 else d) s.
Proof.
  intros Hf Hd Hp. replace (p + 2 + _) with (default (p + 2) (if ZF f then None else Some (uint64_t (p + 2 + d)))).
  - eapply runs_insn; [apply jne_decode|]. rewrite int8_small by done. unfold exec. cbn. rewrite Hf. cbn. change (117 mod 16) with 5. unfold condition. cbn. by destruct (ZF f).
  - unfold code_at in Hp. destruct (ZF f); cbn [default]; [lia|]. unfold uint64_t. rewrite uint_id by (unfold in_u; lia). done.
Qed.

Lemma jmp_short_runs d p s : 0 <= d < 128 -> code_at p -> runs [uint8_t OPC_JMP_short; uint8_t d] p s (p + 2 + d) s.
Proof.
  intros Hd Hp. replace (p + 2 + d) with (default (p + 2) (Some (uint64_t (p + 2 + d)))).
  - eapply runs_insn; [apply jmp_decode|]. by rewrite int8_small.
  - unfold code_at in Hp. cbn [default]. unfold uint64_t. rewrite uint_id by (unfold in_u; lia). done.
Qed.

Section Either.
Context (normal shadow : Emit) (n1 n2 : nat).
Context (E1 : emits normal n1) (E2 : emits shadow n2) (H1 : (n1 < 126)%nat) (H2 : (n2 < 128)%nat).

Lemma either_emits : emits (either normal shadow) (n1 + n2 + 4).
Proof.
  intros p. unfold either. destruct (E1 (p + 2)) as (b1 & -> & L1). cbn [mbind option_bind].
  destruct (E2 (p + 2 + Z.of_nat (length b1) + 2)) as (b2 & -> & L2). cbn [mbind option_bind]. eexists. split; [done|].
  cbn [length app]. rewrite !length_app. cbn [length]. lia.
Qed.

(** The flag of equality is set: [normal] is run, and [shadow] is skipped. *)
Lemma either_normal p s f (P : X86 -> Prop) : xf s = Some f -> ZF f = true -> code_at (p + 512) -> 0 <= p ->
  (forall q, exists s', falls normal q s s' /\ P s') -> exists s', falls (either normal shadow) p s s' /\ P s'.
Proof.
  intros Hf HZ Hp Hp0 Hn. destruct (Hn (p + 2)) as (s' & (b1 & B1 & R1) & HP).
  destruct (E1 (p + 2)) as (b1' & B1' & L1). rewrite B1 in B1'. injection B1' as <-.
  destruct (E2 (p + 2 + Z.of_nat (length b1) + 2)) as (b2 & B2 & L2).
  exists s'. split; [|done]. eexists. split; [unfold either; rewrite B1; cbn [mbind option_bind]; rewrite B2; reflexivity|].
  unfold code_at in Hp. pose proof (jne_runs (Z.of_nat (length b1) + 2) p s f Hf ltac:(lia) ltac:(unfold code_at; lia)) as J. rewrite HZ, Z.add_0_r in J.
  eapply runs_app; [exact J|]. eapply runs_app; [exact R1|]. apply runs_jump.
  cbn [length app]. rewrite !length_app. cbn [length].
  pose proof (jmp_short_runs (Z.of_nat (length b2)) (p + 2 + Z.of_nat (length b1)) s' ltac:(lia) ltac:(unfold code_at; lia)) as J2.
  match goal with |- runs _ ?a _ ?b _ => replace a with (p + 2 + Z.of_nat (length b1)) by lia; replace b with (p + 2 + Z.of_nat (length b1) + 2 + Z.of_nat (length b2)) by lia end.
  exact J2.
Qed.

(** Otherwise [shadow] is run. *)
Lemma either_shadow p s f : xf s = Some f -> ZF f = false -> code_at (p + 512) -> 0 <= p ->
  exists pre, (length pre <= n1 + 4)%nat /\ runs pre p s (p + Z.of_nat (length pre)) s /\
    forall b2, shadow (p + Z.of_nat (length pre)) = Some b2 -> either normal shadow p = Some (pre ++ b2).
Proof.
  intros Hf HZ Hp Hp0. destruct (E1 (p + 2)) as (b1 & B1 & L1).
  destruct (E2 (p + 2 + Z.of_nat (length b1) + 2)) as (b2 & B2 & L2).
  exists ([uint8_t (OPC_JCC_short + JCC_JNE); uint8_t (Z.of_nat (length b1) + 2)] ++ b1 ++ [uint8_t OPC_JMP_short; uint8_t (Z.of_nat (length b2))]).
  assert (forall b, length ([uint8_t (OPC_JCC_short + JCC_JNE); uint8_t (Z.of_nat (length b1) + 2)] ++ b1 ++ [uint8_t OPC_JMP_short; b]) = (length b1 + 4)%nat) as Hl.
  { intros b. cbn [length app]. rewrite length_app. cbn [length]. lia. }
  unfold code_at in Hp. split_and!.
  - rewrite Hl. lia.
  - apply runs_jump. pose proof (jne_runs (Z.of_nat (length b1) + 2) p s f Hf ltac:(lia) ltac:(unfold code_at; lia)) as J. rewrite HZ in J.
    replace (p + Z.of_nat _) with (p + 2 + (Z.of_nat (length b1) + 2)); [done|]. rewrite Hl. lia.
  - intros b2'. rewrite Hl. replace (p + Z.of_nat (length b1 + 4)) with (p + 2 + Z.of_nat (length b1) + 2) by lia. intros B2'.
    rewrite B2 in B2'. injection B2' as <-. unfold either. rewrite B1. cbn [mbind option_bind]. rewrite B2. cbn [mbind option_bind].
    f_equal. by rewrite <- !app_assoc.
Qed.

End Either.

(** ** Loads *)

(** The sizes with and without sign extension. *)
Definition load_size (sizeop : Z) : Prop :=
  sizeop = 0 \/ sizeop = 4 \/ sizeop = 1 \/ sizeop = 5 \/ sizeop = 2 \/ sizeop = 6 \/ sizeop = 3.

(** The value of a load as the 64-bit register gets it. *)
Definition load_value (sizeop : Z) (m : Z -> Z) (a : Z) : Z :=
  let n := Z.to_nat (2 ^ (sizeop mod 4)) in
  let v := read_mem m n a in
  if sizeop <? 4 then v else uint64_t (sint (8 * Z.of_nat n) v).

Lemma read_mem_range m n a : in_u (8 * Z.of_nat n) (read_mem m n a).
Proof.
  unfold read_mem. match goal with |- in_u _ (pack 8 ?l) => pose proof (pack_range 8 l ltac:(lia)) as Hr; by rewrite length_fmap, length_seq in Hr end.
Qed.

Lemma uint_wider w v x : 0 <= w <= v -> in_u w x -> uint v x = x.
Proof. intros Hw Hx. apply uint_id. unfold in_u in *. pose proof (Z.pow_le_mono_r 2 w v). lia. Qed.

Lemma load_insn_does sizeop d base ofs p s : load_size sizeop -> is_reg d -> is_reg base -> ofs = int32_t ofs ->
  exists s', falls (load_insn sizeop d base ofs) p s s' /\ sets s s' d (load_value sizeop (xm s) (based s base ofs)).
Proof.
  intros Hsz Hd Hb Ho. unfold load_value.
  destruct Hsz as [->|[->|[->|[->|[->|[->| ->]]]]]];
    match goal with |- context [read_mem (xm s) ?n _] => let k := eval vm_compute in n in change n with k end.
  - rewrite <- (uint_wider 8 32 _ ltac:(lia) (read_mem_range (xm s) 1 _)). by apply ld8u_does.
  - by apply (ld8s_does TCG_TYPE_I64).
  - rewrite <- (uint_wider 16 32 _ ltac:(lia) (read_mem_range (xm s) 2 _)). by apply ld16u_does.
  - by apply (ld16s_does TCG_TYPE_I64).
  - rewrite <- (uint_wider 32 32 _ ltac:(lia) (read_mem_range (xm s) 4 _)). by apply (ld_does TCG_TYPE_I32).
  - by apply ld32s_does.
  - rewrite <- (uint_wider 64 64 _ ltac:(lia) (read_mem_range (xm s) 8 _)). by apply (ld_does TCG_TYPE_I64).
Qed.

Lemma load_insn_emits sizeop d base ofs : load_size sizeop -> is_reg d -> is_reg base -> emits (load_insn sizeop d base ofs) 9.
Proof.
  intros Hsz Hd Hb. destruct Hsz as [->|[->|[->|[->|[->|[->| ->]]]]]]; (eapply emits_le; [by apply mem_emits|vm_compute; lia]).
Qed.

Lemma ld_shadow_emits G base ofs sizeop : is_reg base -> ofs = int32_t ofs -> emits (tcg_out_qemu_ld_shadow G base ofs sizeop) 65.
Proof.
  intros Hb Ho. apply (emits_seq _ _ 8 57); [by apply lea_env_emits|]. apply (emits_seq _ _ 6 51); [by apply movi_emits|].
  apply (emits_seq _ _ 8 43); [by apply st_emits|]. apply (emits_seq _ _ 8 35); [by apply lea_env_emits|].
  apply (emits_seq _ _ 3 32); [by apply mov_emits|]. apply (emits_seq _ _ 8 24); [by apply addi_emits|].
  apply (emits_seq _ _ 8 16); [by apply st_emits|]. apply (emits_seq _ _ 3 13); [by apply mov_emits|]. apply branch_emits.
Qed.

(** The shadow side of a load. *)
Definition ld_shadow_side (G : GuestConf) (datalo base ofs sizeop : Z) : Emit :=
  (tcg_out_qemu_ld_shadow G base ofs sizeop ;;; lea_env RDI (off_ld_databytes G) ;;; load_insn sizeop datalo RDI 0)%C.

Lemma ld_side_emits G datalo base ofs sizeop : load_size sizeop -> is_reg datalo -> is_reg base -> ofs = int32_t ofs ->
  emits (ld_shadow_side G datalo base ofs sizeop) 82.
Proof.
  intros. apply (emits_seq _ _ 65 17); [by apply ld_shadow_emits|]. apply (emits_seq _ _ 8 9); [by apply lea_env_emits|].
  by apply load_insn_emits.
Qed.

(** Free for the operand of a guest access: not a register that the test uses. *)
Definition operand_reg (r : Z) : Prop := is_reg r /\ r <> RDI /\ r <> RSI /\ r <> RDX.

(** What a register has after the test. *)
Definition after_test (G : GuestConf) (s : X86) (r : Z) : Z :=
  if r =? RDI then field s (off_IsPCore G) else if r =? RDX then 0 else xr s r.

Lemma after_test_free G s r : operand_reg r -> after_test G s r = xr s r.
Proof. intros (_ & N1 & _ & N3). unfold after_test. by rewrite !(proj2 (Z.eqb_neq _ _)). Qed.

(** With [IsPCore] zero the code loads from memory, at the base register as the test left
    it. *)
Lemma ld_direct_main G datalo base ofs sizeop p s : conf_ok G -> code_at (p + 550) -> 0 <= p -> load_size sizeop -> is_reg datalo -> is_reg base ->
  ofs = int32_t ofs -> IsPCore G s = 0 ->
  exists s', falls (tcg_out_qemu_ld_direct G datalo base ofs sizeop) p s s' /\
    xr s' datalo = load_value sizeop (xm s) (uint64_t (after_test G s base + ofs)) /\ keeps [RDI; RDX; datalo] s s'.
Proof.
  intros HG Hp Hp0 Hsz Hd Hb Ho H0.
  destruct (test_pcore_does G p s HG) as (s1 & f & F1 & K1 & Hf & HZ & X1 & X2). rewrite H0 in HZ. cbn in HZ.
  unfold tcg_out_qemu_ld_direct. destruct F1 as (o1 & O1 & R1).
  destruct (test_pcore_emits G p) as (o1' & O1' & L1). rewrite O1 in O1'. injection O1' as <-.
  destruct (either_normal (load_insn sizeop datalo base ofs) (ld_shadow_side G datalo base ofs sizeop) 9 82) with (p := p + Z.of_nat (length o1)) (s := s1) (f := f)
    (P := fun s' => sets s1 s' datalo (load_value sizeop (xm s1) (based s1 base ofs))) as (s' & (o2 & O2 & R2) & S2);
    [by apply load_insn_emits|by apply ld_side_emits|lia..|done|done|unfold code_at in *; lia|lia|intros q; by apply load_insn_does|].
  exists s'. split_and!.
  - exists (o1 ++ o2). split; [by apply emit_seq_some|]. rewrite length_app, Nat2Z.inj_add, Z.add_assoc. by eapply runs_app.
  - rewrite (sets_reg _ _ _ _ S2), (keeps_mem _ _ _ K1). unfold based, after_test.
    destruct (Z.eqb_spec base RDI) as [->|]; [by rewrite X1|]. destruct (Z.eqb_spec base RDX) as [->|]; [by rewrite X2|].
    rewrite (keeps_reg _ _ _ K1); [done|set_solver].
  - apply (keeps_then [RDI; RDX] [datalo] _ s1); [done|by eapply sets_keeps].
Qed.

(** The main core loads from guest memory. *)
Lemma ld_main G datalo base sizeop p s : conf_ok G -> base_fits G -> code_at (p + 600) -> 0 <= p -> load_size sizeop -> is_reg datalo -> operand_reg base ->
  IsPCore G s = 0 ->
  exists s', falls (tcg_out_qemu_ld G datalo base sizeop) p s s' /\
    xr s' datalo = load_value sizeop (xm s) (uint64_t (xr s base + GUEST_BASE G)) /\ keeps [RDI; RDX; datalo] s s'.
Proof.
  intros HG HB Hp Hp0 Hsz Hd Hbase H0. unfold base_fits in HB. unfold tcg_out_qemu_ld. rewrite <- HB, Z.eqb_refl. cbn [negb].
  rewrite <- (after_test_free G s base Hbase). apply ld_direct_main; try done; [unfold code_at in *; lia|apply Hbase].
Qed.

(** *** Requests to the shadow store buffer *)

(** The code calls [t]; [P] holds of the state before the return address is pushed. *)
Definition calls (e : Emit) (p : Z) (s : X86) (t : Z) (P : X86 -> Prop) : Prop :=
  exists out s1, e p = Some out /\ runs out p s t (push s1 (p + Z.of_nat (length out))) /\ P s1.

Lemma calls_seq e1 e2 p s t (P : X86 -> Prop) : (exists s1, falls e1 p s s1 /\ forall q, calls e2 q s1 t P) -> calls (e1 ;;; e2)%C p s t P.
Proof.
  intros (s1 & (o1 & O1 & R1) & H2). destruct (H2 (p + Z.of_nat (length o1))) as (o2 & s2 & O2 & R2 & HP).
  exists (o1 ++ o2), s2. split_and!; [by apply emit_seq_some| |done].
  rewrite length_app, Nat2Z.inj_add, Z.add_assoc. by eapply runs_app.
Qed.

Lemma calli_calls dest p s (P : X86 -> Prop) : (forall s1, keeps [10] s s1 -> P s1) -> calls (tcg_out_calli dest) p s (uint64_t dest) P.
Proof.
  intros HP. destruct (branch_runs true dest p s) as (out & s1 & E & _ & S & R). exists out, s1. split_and!; try done.
  eapply HP, sets_keeps, S.
Qed.

Lemma calls_ext e e' p s t P : e p = e' p -> calls e' p s t P -> calls e p s t P.
Proof. intros E (out & s1 & E1 & R). exists out, s1. by rewrite E. Qed.

(** Storing a word to a field of the CPU state, through rdi. *)
Lemma field_store r o p s (P : X86 -> Prop) : is_reg r -> r <> RDI -> 0 <= o < 2 ^ 31 ->
  (forall s', (forall x, x <> RDI -> xr s' x = xr s x) -> xm s' = write_mem (xm s) 4 (field s o) (uint32_t (xr s r)) -> P s') ->
  exists s', falls (lea_env RDI o ;;; tcg_out_st TCG_TYPE_I32 r RDI 0)%C p s s' /\ P s'.
Proof.
  intros Hr Hn Ho HP. destruct (lea_env_does RDI o p s) as (s1 & F1 & S1); [done..|].
  eapply falls_then; [exact F1|]. intros q. destruct (st_does TCG_TYPE_I32 r RDI 0 q s1) as (s2 & F2 & T2); [done..|].
  exists s2. split; [done|]. apply HP.
  - intros x Hx. by rewrite (stores_reg _ _ _ _ _ T2), (sets_other _ _ _ _ S1).
  - rewrite (stores_mem _ _ _ _ _ T2), (sets_mem _ _ _ _ S1), (sets_other _ _ _ _ S1) by done. cbn [type_bytes bits].
    unfold based. rewrite (sets_reg _ _ _ _ S1), Z.add_0_r. unfold uint64_t. rewrite (uint_id 64 (field s o)) by apply field_in_u. done.
Qed.

(** With instructions for the value of the word between [lea] and the store. *)
Lemma field_put (mid : Emit) r o p s v (P : X86 -> Prop) : is_reg r -> r <> RDI -> 0 <= o < 2 ^ 31 ->
  (forall q s1, keeps [RDI] s s1 -> exists s2, falls mid q s1 s2 /\ sets s1 s2 r v) ->
  (forall s', (forall x, x <> RDI -> x <> r -> xr s' x = xr s x) -> xm s' = write_mem (xm s) 4 (field s o) (uint32_t v) -> P s') ->
  exists s', falls (lea_env RDI o ;;; mid ;;; tcg_out_st TCG_TYPE_I32 r RDI 0)%C p s s' /\ P s'.
Proof.
  intros Hr Hn Ho Hm HP. destruct (lea_env_does RDI o p s) as (s1 & F1 & S1); [done..|].
  eapply falls_then; [exact F1|]. intros q. destruct (Hm q s1) as (s2 & F2 & S2); [by eapply sets_keeps|].
  eapply falls_then; [exact F2|]. intros q'. destruct (st_does TCG_TYPE_I32 r RDI 0 q' s2) as (s3 & F3 & T3); [done..|].
  exists s3. split; [done|]. apply HP.
  - intros x H1 H2. by rewrite (stores_reg _ _ _ _ _ T3), (sets_other _ _ _ _ S2), (sets_other _ _ _ _ S1).
  - rewrite (stores_mem _ _ _ _ _ T3), (sets_mem _ _ _ _ S2), (sets_mem _ _ _ _ S1), (sets_reg _ _ _ _ S2). cbn [type_bytes bits].
    unfold based. rewrite (sets_other _ _ _ _ S2), (sets_reg _ _ _ _ S1), Z.add_0_r by done. unfold uint64_t.
    rewrite (uint_id 64 (field s o)) by apply field_in_u. done.
Qed.

(** The address of the access, of 32 bits in the CPU state. *)
Lemma linear_does base ofs q s1 : is_reg base -> base <> RSI -> ofs = int32_t ofs ->
  exists s2, falls (tcg_out_mov TCG_TYPE_I32 RSI base ;;; tcg_out_addi RSI ofs)%C q s1 s2 /\
    sets s1 s2 RSI (uint64_t (uint32_t (xr s1 base) + ofs)).
Proof.
  intros Hb Hn Ho. destruct (mov_does TCG_TYPE_I32 RSI base q s1) as (s2 & F2 & S2); [done..|].
  rewrite (proj2 (Z.eqb_neq base RSI)) in S2 by done. cbn [bits] in S2.
  eapply falls_then; [exact F2|]. intros q'. destruct (addi_does RSI ofs q' s2) as (s3 & F3 & S3); [done| |done|].
  - rewrite (sets_reg _ _ _ _ S2). unfold in_u. cint.
  - exists s3. split; [done|]. rewrite (sets_reg _ _ _ _ S2) in S3. by eapply sets_seq.
Qed.

(** What the function of the shadow store buffer is called with. *)
Record load_request (G : GuestConf) (s s1 : X86) (base ofs sizeop : Z) : Prop := {
  lr_env : xr s1 RDI = uint64_t (xr s AREG0);
  lr_regs r : r ∉ [RDI; RSI; RDX; 10] -> xr s1 r = xr s r;
  lr_mem : xm s1 = write_mem (write_mem (xm s) 4 (field s (off_ld_size G)) (Z.shiftl 1 (Z.land sizeop (Z.lnot 4)))) 4
    (field s (off_ld_linear G)) (uint32_t (xr s base + ofs))
}.

Lemma ld_shadow_calls G base ofs sizeop p s : conf_ok G -> load_size sizeop -> is_reg base -> base <> RDI -> base <> RSI -> ofs = int32_t ofs ->
  calls (tcg_out_qemu_ld_shadow G base ofs sizeop) p s (uint64_t (esesc_shadow_load_process G)) (fun s1 => load_request G s s1 base ofs sizeop).
Proof.
  intros HG Hsz Hb N1 N2 Ho. unfold tcg_out_qemu_ld_shadow. set (size := Z.shiftl 1 (Z.land sizeop (Z.lnot 4))).
  assert (uint32_t (uint (bits TCG_TYPE_I32) size) = size) as Esz by (by destruct Hsz as [->|[->|[->|[->|[->|[->| ->]]]]]]).
  destruct (co_ld_size _ HG), (co_ld_linear _ HG).
  eapply calls_ext; [symmetry; apply emit_seq_assoc3|]. apply calls_seq.
  apply (field_put (tcg_out_movi TCG_TYPE_I32 RSI size) RSI (off_ld_size G) p s (uint (bits TCG_TYPE_I32) size)); [done|done|lia|by intros; apply movi_does|].
  intros s1 R1 M1. rewrite Esz in M1. intros q.
  assert (forall e1 e2 e3 e4 e p, (e1 ;;; e2 ;;; e3 ;;; e4 ;;; e)%C p = ((e1 ;;; (e2 ;;; e3) ;;; e4) ;;; e)%C p) as Hass.
  { intros e1 e2 e3 e4 e p'. rewrite emit_seq_assoc3. apply emit_seq_cong. intros q'. by rewrite emit_seq_assoc. }
  eapply calls_ext; [apply Hass|]. apply calls_seq.
  apply (field_put _ RSI (off_ld_linear G) q s1 (uint64_t (uint32_t (xr s1 base) + ofs))); [done|done|lia|..].
  { intros q' s2 K. rewrite <- (keeps_reg _ _ _ K base) by set_solver. by apply linear_does. }
  intros s2 R2 M2. assert (field s1 (off_ld_linear G) = field s (off_ld_linear G)) as Ef by (unfold field; by rewrite R1).
  assert (uint32_t (uint64_t (uint32_t (xr s1 base) + ofs)) = uint32_t (xr s base + ofs)) as Ev by (rewrite R1 by done; cint).
  rewrite M1, Ef, Ev in M2. intros q1.
  apply calls_seq. destruct (mov_does TCG_TYPE_I64 RDI AREG0 q1 s2) as (s3 & F3 & S3); [done..|]. exists s3. split; [done|]. intros q2.
  apply calli_calls. intros s4 K4. change (AREG0 =? RDI) with false in S3. cbn iota in S3. split.
  - rewrite (keeps_reg _ _ _ K4) by set_solver. rewrite (sets_reg _ _ _ _ S3), R2, R1 by done. done.
  - intros r Hr. rewrite (keeps_reg _ _ _ K4) by set_solver. rewrite (sets_other _ _ _ _ S3), R2, R1; [done|set_solver..].
  - by rewrite (keeps_mem _ _ _ K4), (sets_mem _ _ _ _ S3).
Qed.

(** The test before it leaves the operands. *)
Lemma request_after_test G s s1 s2 base ofs sizeop : keeps [RDI; RDX] s s1 -> operand_reg base ->
  load_request G s1 s2 base ofs sizeop -> load_request G s s2 base ofs sizeop.
Proof.
  intros K (Hb & N1 & N2 & N3) [He Hr Hm]. assert (forall r, r ∉ [RDI; RDX] -> xr s1 r = xr s r) as Hk by apply K.
  assert (forall o, field s1 o = field s o) as Hf by (intros o; unfold field; rewrite Hk; [done|set_solver]).
  split.
  - rewrite He, Hk by set_solver. done.
  - intros r Hin. rewrite Hr, Hk; [done|set_solver..].
  - rewrite Hm, !Hf, (keeps_mem _ _ _ K), Hk; [done|set_solver].
Qed.

(** The prefetch core calls [esesc_shadow_load_process] and then takes the data from the
    CPU state. *)
Lemma ld_prefetch G datalo base sizeop p s : conf_ok G -> base_fits G -> code_at (p + 600) -> 0 <= p -> load_size sizeop -> is_reg datalo -> operand_reg base ->
  IsPCore G s <> 0 ->
  exists out q s1, tcg_out_qemu_ld G datalo base sizeop p = Some out /\
    runs out p s (uint64_t (esesc_shadow_load_process G)) (push s1 q) /\ load_request G s s1 base (GUEST_BASE G) sizeop /\
    forall s2, exists s3, resumes out p q s2 (p + Z.of_nat (length out)) s3 /\
      xr s3 datalo = load_value sizeop (xm s2) (field s2 (off_ld_databytes G)) /\ keeps [RDI; datalo] s2 s3.
Proof.
  intros HG HB Hp Hp0 Hsz Hd Hbase H0. pose proof Hbase as (Hb & N1 & N2 & N3). unfold base_fits in HB.
  unfold tcg_out_qemu_ld. rewrite <- HB, Z.eqb_refl. cbn [negb].
  destruct (test_pcore_does G p s HG) as (s1 & f & (o1 & O1 & R1) & K1 & Hf & HZ & _). rewrite (proj2 (Z.eqb_neq _ _) H0) in HZ.
  destruct (test_pcore_emits G p) as (o1' & O1' & L1). rewrite O1 in O1'. injection O1' as <-.
  destruct (either_shadow (load_insn sizeop datalo base (GUEST_BASE G)) (ld_shadow_side G datalo base (GUEST_BASE G) sizeop) 9 82)
    with (p := p + Z.of_nat (length o1)) (s := s1) (f := f) as (pre & Lp & Rp & Hout);
    [by apply load_insn_emits|by apply ld_side_emits|lia..|done|done|unfold code_at in *; lia|lia|].
  set (p1 := p + Z.of_nat (length o1)) in *. set (p2 := p1 + Z.of_nat (length pre)) in *.
  destruct (ld_shadow_calls G base (GUEST_BASE G) sizeop p2 s1 HG Hsz Hb N1 N2 HB) as (oc & sc & Oc & Rc & Hreq).
  set (q := p2 + Z.of_nat (length oc)) in *.
  destruct (emits_seq _ _ _ _ (lea_env_emits RDI (off_ld_databytes G) ltac:(done)) (load_insn_emits sizeop datalo RDI 0 Hsz Hd ltac:(done)) q) as (or & Or & _).
  assert (ld_shadow_side G datalo base (GUEST_BASE G) sizeop p2 = Some (oc ++ or)) as Os by (by apply emit_seq_some).
  exists (o1 ++ pre ++ oc ++ or), q, sc. split_and!.
  - apply emit_seq_some; [done|]. by apply Hout.
  - eapply runs_app; [exact R1|]. eapply runs_app; [exact Rp|]. by apply runs_jump.
  - by eapply request_after_test.
  - intros s2. destruct (co_ld_data _ HG).
    destruct (lea_env_does RDI (off_ld_databytes G) q s2) as (s3 & F3 & S3); [done|lia|].
    destruct (falls_then _ (load_insn sizeop datalo RDI 0) q s2 s3 (fun s4 => sets s3 s4 datalo (load_value sizeop (xm s3) (based s3 RDI 0))) F3) as (s4 & (or' & Or' & Rr) & S4).
    { intros q'. by apply load_insn_does. }
    rewrite Or in Or'. injection Or' as <-. exists s4. split_and!.
    + apply resumes_skip, resumes_skip, resumes_skip. fold p1 p2 q. rewrite !length_app.
      replace (p + _) with (q + Z.of_nat (length or)) by (unfold q, p2, p1; lia). exact Rr.
    + rewrite (sets_reg _ _ _ _ S4), (sets_mem _ _ _ _ S3). unfold based. rewrite (sets_reg _ _ _ _ S3), Z.add_0_r. unfold uint64_t.
      by rewrite (uint_id 64 (field _ _)) by apply field_in_u.
    + apply (keeps_then [RDI] [datalo] _ s3); by eapply sets_keeps.
Qed.

(** ** Stores *)

Definition store_size (sizeop : Z) : Prop := sizeop = 0 \/ sizeop = 1 \/ sizeop = 2.
Definition store_bytes (sizeop : Z) : nat := Z.to_nat (2 ^ sizeop).

Lemma store_insn_does sizeop d base ofs p s : store_size sizeop -> is_reg d -> is_reg base -> ofs = int32_t ofs ->
  exists s', falls (store_insn sizeop d base ofs) p s s' /\
    stores s s' (store_bytes sizeop) (based s base ofs) (uint (8 * Z.of_nat (store_bytes sizeop)) (xr s d)).
Proof.
  intros [->|[->| ->]] Hd Hb Ho; [by apply st8_does|by apply st16_does|by apply (st_does TCG_TYPE_I32)].
Qed.

Lemma store_insn_emits sizeop d base ofs : store_size sizeop -> is_reg d -> is_reg base -> emits (store_insn sizeop d base ofs) 9.
Proof. intros Hsz Hd Hb. destruct Hsz as [->|[->| ->]]; (eapply emits_le; [by apply mem_emits|vm_compute; lia]). Qed.

Lemma st_shadow_emits G datalo base ofs sizeop : is_reg datalo -> is_reg base -> ofs = int32_t ofs ->
  emits (tcg_out_qemu_st_shadow G datalo 0 base ofs sizeop) 97.
Proof.
  intros Hd Hb Ho. apply (emits_seq _ _ 8 89); [by apply lea_env_emits|]. apply (emits_seq _ _ 6 83); [by apply movi_emits|].
  apply (emits_seq _ _ 8 75); [by apply st_emits|]. apply (emits_seq _ _ 8 67); [by apply lea_env_emits|].
  apply (emits_seq _ _ 8 59); [by apply st_emits|]. apply (emits_seq _ _ 8 51); [by apply lea_env_emits|].
  apply (emits_seq _ _ 8 43); [by apply st_emits|]. apply (emits_seq _ _ 8 35); [by apply lea_env_emits|].
  apply (emits_seq _ _ 3 32); [by apply mov_emits|]. apply (emits_seq _ _ 8 24); [by apply addi_emits|].
  apply (emits_seq _ _ 8 16); [by apply st_emits|]. apply (emits_seq _ _ 3 13); [by apply mov_emits|]. apply branch_emits.
Qed.

(** The main core stores to guest memory. *)
Lemma st_main G stale datalo base sizeop p s : conf_ok G -> base_fits G -> code_at (p + 600) -> 0 <= p -> store_size sizeop -> operand_reg datalo -> operand_reg base ->
  IsPCore G s = 0 ->
  exists s', falls (tcg_out_qemu_st G stale datalo base sizeop) p s s' /\
    xm s' = write_mem (xm s) (store_bytes sizeop) (uint64_t (xr s base + GUEST_BASE G)) (uint (8 * Z.of_nat (store_bytes sizeop)) (xr s datalo)) /\
    forall r, r <> RDI -> r <> RDX -> xr s' r = xr s r.
Proof.
  intros HG HB Hp Hp0 Hsz (Hd & D1 & D2 & D3) (Hb & N1 & N2 & N3) H0. unfold base_fits in HB. unfold tcg_out_qemu_st. rewrite <- HB, Z.eqb_refl. cbn [negb].
  destruct (test_pcore_does G p s HG) as (s1 & f & F1 & K1 & Hf & HZ & _). rewrite H0 in HZ. cbn in HZ.
  unfold tcg_out_qemu_st_direct. assert ((sizeop =? 0) || (sizeop =? 1) || (sizeop =? 2) = true) as -> by (by destruct Hsz as [->|[->| ->]]).
  destruct F1 as (o1 & O1 & R1). destruct (test_pcore_emits G p) as (o1' & O1' & L1). rewrite O1 in O1'. injection O1' as <-.
  destruct (either_normal (store_insn sizeop datalo base (GUEST_BASE G)) (tcg_out_qemu_st_shadow G datalo 0 base (GUEST_BASE G) sizeop) 9 97) with (p := p + Z.of_nat (length o1)) (s := s1) (f := f)
    (P := fun s' => stores s1 s' (store_bytes sizeop) (based s1 base (GUEST_BASE G)) (uint (8 * Z.of_nat (store_bytes sizeop)) (xr s1 datalo))) as (s' & (o2 & O2 & R2) & S2);
    [by apply store_insn_emits|by apply st_shadow_emits|lia..|done|done|unfold code_at in *; lia|lia|intros q; by apply store_insn_does|].
  assert (forall r, r ∉ [RDI; RDX] -> xr s1 r = xr s r) as Hk by apply K1.
  exists s'. split_and!.
  - exists (o1 ++ o2). split; [by apply emit_seq_some|]. rewrite length_app, Nat2Z.inj_add, Z.add_assoc. by eapply runs_app.
  - rewrite (stores_mem _ _ _ _ _ S2), (keeps_mem _ _ _ K1). unfold based. rewrite !Hk; [done|set_solver..].
  - intros r Hr1 Hr2. rewrite (stores_reg _ _ _ _ _ S2), Hk; [done|set_solver].
Qed.

(** What [esesc_shadow_store_process] is called with. *)
Record store_request (G : GuestConf) (s s1 : X86) (datalo base ofs sizeop : Z) : Prop := {
  sr_env : xr s1 RDI = uint64_t (xr s AREG0);
  sr_regs r : r ∉ [RDI; RSI; RDX; 10] -> xr s1 r = xr s r;
  sr_mem : xm s1 =
    write_mem (write_mem (write_mem (write_mem (xm s) 4 (field s (off_st_size G)) (Z.shiftl 1 sizeop))
      4 (field s (off_st_databytes G)) (uint32_t (xr s datalo)))
      4 (field s (off_st_databytes G + 4)) (uint32_t (xr s 0)))
      4 (field s (off_st_linear G)) (uint32_t (xr s base + ofs))
}.

Lemma st_shadow_calls G datalo base ofs sizeop p s : conf_ok G -> store_size sizeop -> is_reg datalo -> datalo <> RDI -> datalo <> RSI ->
  is_reg base -> base <> RDI -> base <> RSI -> ofs = int32_t ofs ->
  calls (tcg_out_qemu_st_shadow G datalo 0 base ofs sizeop) p s (uint64_t (esesc_shadow_store_process G))
    (fun s1 => store_request G s s1 datalo base ofs sizeop).
Proof.
  intros HG Hsz Hd D1 D2 Hb N1 N2 Ho. unfold tcg_out_qemu_st_shadow. set (size := Z.shiftl 1 sizeop).
  assert (uint32_t (uint (bits TCG_TYPE_I32) size) = size) as Esz by (by destruct Hsz as [->|[->| ->]]).
  destruct (co_st_size _ HG), (co_st_linear _ HG), (co_st_data _ HG).
  eapply calls_ext; [symmetry; apply emit_seq_assoc3|]. apply calls_seq.
  apply (field_put (tcg_out_movi TCG_TYPE_I32 RSI size) RSI (off_st_size G) p s (uint (bits TCG_TYPE_I32) size)); [done|done|lia|by intros; apply movi_does|].
  intros s1 R1 M1. rewrite Esz in M1. intros q1. eapply calls_ext; [symmetry; apply emit_seq_assoc|]. apply calls_seq.
  apply field_store; [done|done|lia|]. intros s2 R2 M2 q2. eapply calls_ext; [symmetry; apply emit_seq_assoc|]. apply calls_seq.
  apply field_store; [done|done|lia|]. intros s3 R3 M3 q3.
  assert (forall x, x <> RDI -> x <> RSI -> xr s3 x = xr s x) as R by (intros x X1 X2; by rewrite R3, R2, R1).
  assert (forall o, field s1 o = field s o /\ field s2 o = field s o /\ field s3 o = field s o) as Ef.
  { intros o. unfold field. by rewrite R3, !R2, !R1. }
  assert (forall e1 e2 e3 e4 e p, (e1 ;;; e2 ;;; e3 ;;; e4 ;;; e)%C p = ((e1 ;;; (e2 ;;; e3) ;;; e4) ;;; e)%C p) as Hass.
  { intros e1 e2 e3 e4 e p'. rewrite emit_seq_assoc3. apply emit_seq_cong. intros q'. by rewrite emit_seq_assoc. }
  eapply calls_ext; [apply Hass|]. apply calls_seq.
  apply (field_put _ RSI (off_st_linear G) q3 s3 (uint64_t (uint32_t (xr s3 base) + ofs))); [done|done|lia|..].
  { intros q' s4 K. rewrite <- (keeps_reg _ _ _ K base) by set_solver. by apply linear_does. }
  intros s4 R4 M4.
  assert (uint32_t (uint64_t (uint32_t (xr s3 base) + ofs)) = uint32_t (xr s base + ofs)) as Ev by (rewrite R by done; cint).
  rewrite M3, M2, M1, Ev, (proj2 (proj2 (Ef _))), (proj1 (proj2 (Ef _))), (proj1 (Ef _)), R2, !R1 in M4 by done. intros q4.
  apply calls_seq. destruct (mov_does TCG_TYPE_I64 RDI AREG0 q4 s4) as (s5 & F5 & S5); [done..|]. exists s5. split; [done|]. intros q5.
  apply calli_calls. intros s6 K6. change (AREG0 =? RDI) with false in S5. cbn iota in S5. split.
  - rewrite (keeps_reg _ _ _ K6) by set_solver. rewrite (sets_reg _ _ _ _ S5), R4, R by done. done.
  - intros r Hr. rewrite (keeps_reg _ _ _ K6) by set_solver. rewrite (sets_other _ _ _ _ S5), R4, R; [done|set_solver..].
  - by rewrite (keeps_mem _ _ _ K6), (sets_mem _ _ _ _ S5).
Qed.

Lemma store_after_test G s s1 s2 datalo base ofs sizeop : keeps [RDI; RDX] s s1 -> operand_reg datalo -> operand_reg base ->
  store_request G s1 s2 datalo base ofs sizeop -> store_request G s s2 datalo base ofs sizeop.
Proof.
  intros K (Hd & D1 & D2 & D3) (Hb & N1 & N2 & N3) [He Hr Hm]. assert (forall r, r ∉ [RDI; RDX] -> xr s1 r = xr s r) as Hk by apply K.
  assert (forall o, field s1 o = field s o) as Hf by (intros o; unfold field; rewrite Hk; [done|set_solver]).
  split.
  - rewrite He, Hk by set_solver. done.
  - intros r Hin. rewrite Hr, Hk; [done|set_solver..].
  - rewrite Hm, !Hf, (keeps_mem _ _ _ K), !Hk; [done|set_solver..].
Qed.

(** The prefetch core calls [esesc_shadow_store_process]; nothing follows the call. *)
Lemma st_prefetch G stale datalo base sizeop p s : conf_ok G -> base_fits G -> code_at (p + 600) -> 0 <= p -> store_size sizeop -> operand_reg datalo -> operand_reg base ->
  IsPCore G s <> 0 ->
  exists out s1, tcg_out_qemu_st G stale datalo base sizeop p = Some out /\
    runs out p s (uint64_t (esesc_shadow_store_process G)) (push s1 (p + Z.of_nat (length out))) /\
    store_request G s s1 datalo base (GUEST_BASE G) sizeop.
Proof.
  intros HG HB Hp Hp0 Hsz Hdata Hbase H0. pose proof Hbase as (Hb & N1 & N2 & N3). pose proof Hdata as (Hd & D1 & D2 & D3). unfold base_fits in HB.
  unfold tcg_out_qemu_st. rewrite <- HB, Z.eqb_refl. cbn [negb].
  unfold tcg_out_qemu_st_direct. assert ((sizeop =? 0) || (sizeop =? 1) || (sizeop =? 2) = true) as -> by (by destruct Hsz as [->|[->| ->]]).
  destruct (test_pcore_does G p s HG) as (s1 & f & (o1 & O1 & R1) & K1 & Hf & HZ & _). rewrite (proj2 (Z.eqb_neq _ _) H0) in HZ.
  destruct (test_pcore_emits G p) as (o1' & O1' & L1). rewrite O1 in O1'. injection O1' as <-.
  destruct (either_shadow (store_insn sizeop datalo base (GUEST_BASE G)) (tcg_out_qemu_st_shadow G datalo 0 base (GUEST_BASE G) sizeop) 9 97)
    with (p := p + Z.of_nat (length o1)) (s := s1) (f := f) as (pre & Lp & Rp & Hout);
    [by apply store_insn_emits|by apply st_shadow_emits|lia..|done|done|unfold code_at in *; lia|lia|].
  set (p1 := p + Z.of_nat (length o1)) in *. set (p2 := p1 + Z.of_nat (length pre)) in *.
  destruct (st_shadow_calls G datalo base (GUEST_BASE G) sizeop p2 s1 HG Hsz Hd D1 D2 Hb N1 N2 HB) as (oc & sc & Oc & Rc & Hreq).
  exists (o1 ++ pre ++ oc), sc. split_and!.
  - apply emit_seq_some; [done|]. by apply Hout.
  - eapply runs_app; [exact R1|]. eapply runs_app; [exact Rp|]. rewrite !length_app.
    fold p1 p2. replace (p + Z.of_nat (length o1 + (length pre + length oc))) with (p2 + Z.of_nat (length oc)) by (unfold p2, p1; lia). done.
  - by eapply store_after_test.
Qed.

(** ** The fields of a request *)

(** The fields that a request writes, and the slot of the return address, do not overlap. *)
Record requests_apart (G : GuestConf) (s : X86) : Prop := {
  ra_ld : apart (field s (off_ld_size G)) 4 (field s (off_ld_linear G)) 4;
  ra_ld_size : apart (field s (off_ld_size G)) 4 (uint64_t (xr s RSP - 8)) 8;
  ra_ld_linear : apart (field s (off_ld_linear G)) 4 (uint64_t (xr s RSP - 8)) 8;
  ra_st_size_data : apart (field s (off_st_size G)) 4 (field s (off_st_databytes G)) 4;
  ra_st_size_high : apart (field s (off_st_size G)) 4 (field s (off_st_databytes G + 4)) 4;
  ra_st_size_linear : apart (field s (off_st_size G)) 4 (field s (off_st_linear G)) 4;
  ra_st_data_high : apart (field s (off_st_databytes G)) 4 (field s (off_st_databytes G + 4)) 4;
  ra_st_data_linear : apart (field s (off_st_databytes G)) 4 (field s (off_st_linear G)) 4;
  ra_st_size : apart (field s (off_st_size G)) 4 (uint64_t (xr s RSP - 8)) 8;
  ra_st_data : apart (field s (off_st_databytes G)) 4 (uint64_t (xr s RSP - 8)) 8;
  ra_st_linear : apart (field s (off_st_linear G)) 4 (uint64_t (xr s RSP - 8)) 8
}.

(** Pushing the return address leaves them. *)
Lemma read_request s s1 o ret : (forall r, r ∉ [RDI; RSI; RDX; 10] -> xr s1 r = xr s r) -> apart (field s o) 4 (uint64_t (xr s RSP - 8)) 8 ->
  read_mem (xm (push s1 ret)) 4 (field s o) = read_mem (xm s1) 4 (field s o).
Proof. intros Hr Ha. unfold push. cbn [xm]. rewrite Hr by set_solver. by apply read_write_apart. Qed.

Lemma load_request_fields G s s1 base ofs sizeop ret : requests_apart G s -> load_size sizeop -> load_request G s s1 base ofs sizeop ->
  read_mem (xm (push s1 ret)) 4 (field s (off_ld_size G)) = 2 ^ (sizeop mod 4) /\
  read_mem (xm (push s1 ret)) 4 (field s (off_ld_linear G)) = uint32_t (xr s base + ofs).
Proof.
  intros HA Hsz Hreq. rewrite !(read_request s s1 _ ret (lr_regs _ _ _ _ _ _ Hreq)), (lr_mem _ _ _ _ _ _ Hreq) by apply HA. split.
  - rewrite read_write_apart by apply HA. rewrite read_write_same by lia. by destruct Hsz as [->|[->|[->|[->|[->|[->| ->]]]]]].
  - rewrite read_write_same by lia. cint.
Qed.

Lemma store_request_fields G s s1 datalo base ofs sizeop ret : requests_apart G s -> store_size sizeop -> store_request G s s1 datalo base ofs sizeop ->
  read_mem (xm (push s1 ret)) 4 (field s (off_st_size G)) = 2 ^ sizeop /\
  read_mem (xm (push s1 ret)) 4 (field s (off_st_databytes G)) = uint32_t (xr s datalo) /\
  read_mem (xm (push s1 ret)) 4 (field s (off_st_linear G)) = uint32_t (xr s base + ofs).
Proof.
  intros HA Hsz Hreq. rewrite !(read_request s s1 _ ret (sr_regs _ _ _ _ _ _ _ Hreq)), (sr_mem _ _ _ _ _ _ _ Hreq) by apply HA. split_and!.
  - rewrite !read_write_apart by apply HA. rewrite read_write_same by lia. by destruct Hsz as [->|[->| ->]].
  - rewrite !read_write_apart by apply HA. rewrite read_write_same by lia. cint.
  - rewrite read_write_same by lia. cint.
Qed.

(** ** Accesses that go wrong *)

(** The constraint of the operand does not exclude rdx, which the test overwrites. *)
Lemma ld_rdx G datalo sizeop p s : conf_ok G -> base_fits G -> code_at (p + 600) -> 0 <= p -> load_size sizeop -> is_reg datalo -> IsPCore G s = 0 ->
  exists s', falls (tcg_out_qemu_ld G datalo RDX sizeop) p s s' /\ xr s' datalo = load_value sizeop (xm s) (uint64_t (GUEST_BASE G)).
Proof.
  intros HG HB Hp Hp0 Hsz Hd H0. unfold base_fits in HB. unfold tcg_out_qemu_ld. rewrite <- HB, Z.eqb_refl. cbn [negb].
  destruct (ld_direct_main G datalo RDX (GUEST_BASE G) sizeop p s) as (s' & F & E & _); try done; [unfold code_at in *; lia|]. by exists s'.
Qed.

(** With a base of more than 32 bits the address is computed in rdi, which the test
    overwrites. *)
Lemma ld_far_base G datalo base sizeop p s : conf_ok G -> ~ base_fits G -> code_at (p + 600) -> 0 <= p -> load_size sizeop -> is_reg datalo -> is_reg base ->
  IsPCore G s = 0 ->
  exists s', falls (tcg_out_qemu_ld G datalo base sizeop) p s s' /\ xr s' datalo = load_value sizeop (xm s) (field s (off_IsPCore G)).
Proof.
  intros HG HB Hp Hp0 Hsz Hd Hb H0. unfold base_fits in HB. unfold tcg_out_qemu_ld.
  rewrite (proj2 (Z.eqb_neq (int32_t (GUEST_BASE G)) (GUEST_BASE G))) by congruence. cbn [negb].
  destruct (movi_does TCG_TYPE_I64 RDI (GUEST_BASE G) p s) as (s1 & (o1 & O1 & R1) & S1); [done|].
  destruct (movi_long_emits RDI (GUEST_BASE G)) with (p := p) as (o1' & O1' & L1); [done|]. rewrite O1 in O1'. injection O1' as <-.
  destruct (arithr_does TCG_TYPE_I64 ARITH_ADD RDI base (p + Z.of_nat (length o1)) s1) as (s2 & (o2 & O2 & R2) & S2); [by left|done..|].
  unfold arith_done, alu in S2. cbn [Z.eqb ARITH_ADD] in S2.
  destruct (modrm_emits (OPC_ARITH_GvEv + P_REXW) RDI base ltac:(done) Hb ltac:(done)) with (p := p + Z.of_nat (length o1)) as (o2' & O2' & L2).
  assert (tgen_arithr (ARITH_ADD + P_REXW) RDI base = tcg_out_modrm (OPC_ARITH_GvEv + P_REXW) RDI base) as Eop by done.
  change (rexw_of TCG_TYPE_I64) with P_REXW in O2. rewrite Eop, O2' in O2. injection O2 as ->.
  assert (forall o, field s2 o = field s o) as Ef by (intros o; unfold field; by rewrite (sets_other _ _ _ _ S2), (sets_other _ _ _ _ S1)).
  assert (xm s2 = xm s) as Em by (by rewrite (sets_mem _ _ _ _ S2), (sets_mem _ _ _ _ S1)).
  change (opc_length (OPC_ARITH_GvEv + P_REXW) + 1)%nat with 3%nat in L2. unfold code_at in Hp.
  destruct (ld_direct_main G datalo RDI 0 sizeop (p + Z.of_nat (length o1) + Z.of_nat (length o2)) s2) as (s' & (o3 & O3 & R3) & E & _);
    try done; [unfold code_at; lia|lia|unfold IsPCore; by rewrite Em, Ef|].
  exists s'. split.
  - exists (o1 ++ o2 ++ o3). split.
    + apply emit_seq_some; [done|]. apply emit_seq_some; [by rewrite Eop|done].
    + rewrite !length_app. replace (p + Z.of_nat (length o1 + (length o2 + length o3))) with
        (p + Z.of_nat (length o1) + Z.of_nat (length o2) + Z.of_nat (length o3)) by lia.
      eapply runs_app; [exact R1|]. by eapply runs_app.
  - rewrite E, Em. unfold after_test. rewrite Z.eqb_refl, Ef, Z.add_0_r. unfold uint64_t. by rewrite uint_id by apply field_in_u.
Qed.

(** An eight-byte store of the prefetch core jumps by the byte that was in the buffer. *)
Lemma st64_prefetch G stale datalo base p s : conf_ok G -> base_fits G -> code_at (p + 600) -> 0 <= p -> is_reg datalo -> is_reg base -> (forall a, in_u 8 (stale a)) -> IsPCore G s <> 0 ->
  exists q s1, p < q /\ keeps [RDI; RDX] s s1 /\
    does (tcg_out_qemu_st G stale datalo base 3) p s (uint64_t (q + 1 + int8_t (stale q))) s1.
Proof.
  intros HG HB Hp Hp0 Hd Hb Hst H0. unfold base_fits in HB. unfold tcg_out_qemu_st. rewrite <- HB, Z.eqb_refl. cbn [negb].
  change (tcg_out_qemu_st_direct G stale datalo 0 base (GUEST_BASE G) 3) with
    (test_pcore G ;;; tcg_out8 (OPC_JCC_short + JCC_JNE) ;;; (fun p => Some [stale p]) ;;; tcg_out_st TCG_TYPE_I64 datalo base (GUEST_BASE G))%C.
  destruct (test_pcore_does G p s HG) as (s1 & f & (o1 & O1 & R1) & K1 & Hf & HZ & _). rewrite (proj2 (Z.eqb_neq _ _) H0) in HZ.
  exists (p + Z.of_nat (length o1) + 1), s1. split; [lia|]. split; [done|].
  destruct (st_emits TCG_TYPE_I64 datalo base (GUEST_BASE G) Hd Hb (p + Z.of_nat (length o1) + 1 + 1)) as (o4 & O4 & _).
  set (q := p + Z.of_nat (length o1)) in *. exists (o1 ++ [uint8_t (OPC_JCC_short + JCC_JNE)] ++ [stale (q + 1)] ++ o4). split.
  - apply emit_seq_some; [done|]. apply emit_seq_some; [done|]. by apply emit_seq_some.
  - eapply runs_app; [exact R1|]. rewrite app_assoc. apply runs_jump. fold q.
    rewrite <- (uint_id 8 (stale (q + 1)) (Hst _)) at 1. replace (q + 1 + 1) with (q + 2) by lia.
    eapply (runs_insn _ _ q s1 (Some (uint64_t (q + 2 + int8_t (stale (q + 1)))))); [apply jne_decode|].
    unfold exec. cbn -[int8_t uint64_t]. rewrite Hf. cbn -[int8_t uint64_t]. change (117 mod 16) with 5. unfold condition. cbn -[int8_t uint64_t]. by rewrite HZ.
Qed.
