(* ===== verification/X86Ops.v ===== *)
(** * Operations in machine code

    The operations with operands that the register allocator may choose for them, by the
    table of constraints of the target (TcgTarget), are turned by [tcg_out_op] (X86Gen) into
    instructions that compute the value which TcgIr gives the operation. *)

From Stdlib Require Import String.
From S2P Require Import Prelude TcgIr TcgOptimize TcgLive TcgRegAlloc TcgTarget.
From S2P Require Import X86Enc X86Sem X86Decode X86Run X86Alu X86Shift X86Mem X86Jump X86Guest X86Gen.
Open Scope Z_scope.

(** ** Operands that meet the constraints *)

Definition x86 : Target := x86_target x86_reserved_regs.

(** A register of the constraint that is not reserved; a constant that the constraint
    accepts. *)
Definition operand_ok (c : TCGArgConstraint) (x : TcgRegAlloc.operand) : bool :=
  match x with
  | Reg r => (r <? TCG_TARGET_NB_REGS x86)%nat && tcg_regset_test_reg (ct_regs c) r && negb (tcg_regset_test_reg (reserved_regs x86) r)
  | Const v => ct_const c v
  end.

(** The operands of an operation with one output: a tied input is the output register. *)
Record conforms (o : TCGOp) (d : nat) (ins : list TcgRegAlloc.operand) : Prop := {
  cf_out : operand_ok (args_ct x86 o 0) (Reg d) = true;
  cf_ins k x : ins !! k = Some x -> operand_ok (args_ct x86 o (S k)) x = true;
  cf_tied k x : ins !! k = Some x -> ct_ialias (args_ct x86 o (S k)) = true -> x = Reg d
}.

(** The arguments as [tcg_reg_alloc_op] passes them. *)
Definition new_arg (x : TcgRegAlloc.operand) : Z := match x with Reg r => Z.of_nat r | Const v => uint64_t v end.
Definition const_arg (x : TcgRegAlloc.operand) : bool := match x with Reg _ => false | Const _ => true end.

(** The value of an operand. *)
Definition value_of (s : X86) (x : TcgRegAlloc.operand) : Z := match x with Reg r => xr s (Z.of_nat r) | Const v => v end.

Definition op_name (o : TCGOp) : string :=
  match o with
  | op_un u w _ _ => unop_name u ++ type_suffix w
  | op_bin b w _ _ _ => binop_name b ++ type_suffix w
  | op_brcond w _ _ _ _ => "brcond" ++ type_suffix w
  | op_br _ => "br"
  | op_other opc _ _ _ _ => match tcg_op_defs !! opc with Some d => name d | None => "" end
  | _ => ""
  end%string.

Section Emit.
Context (G : GuestConf) (tb_ret_addr : Z).

Definition emit_op (o : TCGOp) (d : nat) (ins : list TcgRegAlloc.operand) : Gen :=
  tcg_out_op G tb_ret_addr (op_name o) (Z.of_nat d :: (new_arg <$> ins)) (false :: (const_arg <$> ins)).

(** The operation is one piece of code, and leaves the value in the register. *)
Definition emits_value (g : Gen) (d : nat) (val : X86 -> option Z) : Prop :=
  exists e, g = out e /\ forall s v p, val s = Some v -> exists s', falls e p s s' /\ sets s s' (Z.of_nat d) v.

(** *** What the table says *)

(** The entry of the table for argument [i]. *)
Definition constraint_of (o : TCGOp) (i : nat) : ArgConstraint :=
  match x86_constraints !! opcode o with Some c => op_args_ct c !!! i | None => mkArgCt 0 0 0 end.

Lemma args_ct_view o i : args_ct x86 o i = arg_ct_view (constraint_of o i).
Proof. reflexivity. Qed.

Definition tied : ArgConstraint := mkArgCt 65 0 65535.
Definition any_reg : ArgConstraint := mkArgCt 1 0 65535.

(** The second input: any register or a constant, or rcx or a constant. *)
Definition in2_ct (b : binop) (ty : TCGType) : ArgConstraint :=
  match b with
  | op_shl | op_shr | op_sar | op_rotl | op_rotr => mkArgCt 3 0 2
  | op_and => mkArgCt (match ty with TCG_TYPE_I32 => 3 | TCG_TYPE_I64 => 769 end) 0 65535
  | _ => mkArgCt (match ty with TCG_TYPE_I32 => 3 | TCG_TYPE_I64 => 257 end) 0 65535
  end.

Definition supported (b : binop) : bool :=
  match b with op_andc | op_orc | op_eqv | op_nand | op_nor => false | _ => true end.

Lemma bin_table b ty d x y : supported b = true ->
  constraint_of (op_bin b ty d x y) 1 = (match b, ty with op_add, TCG_TYPE_I32 => any_reg | _, _ => tied end) /\
  constraint_of (op_bin b ty d x y) 2 = in2_ct b ty.
Proof. destruct b; try discriminate; intros _; destruct ty; (split; vm_compute; reflexivity). Qed.

(** Without an entry no register is allowed. *)
Lemma bin_unsupported b ty d x y : supported b = false -> u_regs (constraint_of (op_bin b ty d x y) 0) = 0.
Proof. destruct b; try discriminate; intros _; destruct ty; vm_compute; reflexivity. Qed.

Lemma un_table u ty d x : unop_width u ty = true ->
  constraint_of (op_un u ty d x) 1 = match u with op_not | op_neg => tied | _ => any_reg end.
Proof. destruct u, ty; try discriminate; intros _; vm_compute; reflexivity. Qed.

Lemma un_unsupported u ty d x : unop_width u ty = false -> u_regs (constraint_of (op_un u ty d x) 0) = 0.
Proof. destruct u, ty; try discriminate; intros _; vm_compute; reflexivity. Qed.

Lemma reg_operand_ok c r : operand_ok c (Reg r) = true -> is_reg (Z.of_nat r) /\ Z.of_nat r <> 4 /\ Z.testbit (ct_regs c) (Z.of_nat r) = true.
Proof.
  cbn [operand_ok]. intros [[H1%Nat.ltb_lt H2]%andb_prop H3%negb_true_iff]%andb_prop.
  change (TCG_TARGET_NB_REGS x86) with 16%nat in H1. split_and!; [unfold is_reg; lia| |done].
  intros E. assert (r = 4%nat) as -> by lia. by vm_compute in H3.
Qed.

(** The constants of arithmetic are those that [tgen_arithi] can encode. *)
Lemma const_arith b c ty v : shift_code b = None -> tcg_target_const_match v (in2_ct b ty) = true ->
  (b = op_and -> c = ARITH_AND) -> arith_const ty c (int64_t v).
Proof.
  intros Hb Hm Hc. unfold arith_const. destruct ty; [by left|]. right. unfold tcg_target_const_match in Hm. fold (int64_t v) in Hm.
  destruct b; try discriminate Hb; cbn -[int64_t uint sint] in Hm.
  all: rewrite ?orb_false_r in Hm; try (left; by apply Z.eqb_eq).
  apply orb_prop in Hm as [Hm%Z.eqb_eq|Hm%Z.eqb_eq]; [by left|right]. split; [by apply Hc|done].
Qed.

Lemma reg_only c x : ct c = 1 \/ ct c = 65 -> operand_ok (arg_ct_view c) x = true -> exists r, x = Reg r.
Proof.
  intros Hc H. destruct x as [r|v]; [by exists r|]. exfalso. cbn [operand_ok arg_ct_view ct_const] in H. unfold tcg_target_const_match in H.
  by destruct Hc as [E|E]; rewrite E in H.
Qed.

(** *** One operand *)

Definition un_value (u : unop) (ty : TCGType) (x : TcgRegAlloc.operand) (s : X86) : option Z :=
  Some (eval_un u (bits ty) (uint (bits ty) (value_of s x))).

Lemma un_emits u ty d x t0 t1 : conforms (op_un u ty t0 t1) d [x] -> emits_value (emit_op (op_un u ty t0 t1) d [x]) d (un_value u ty x).
Proof.
  intros [Hd Hin Htie]. rewrite args_ct_view in Hd. destruct (unop_width u ty) eqn:Ew.
  2: { apply reg_operand_ok in Hd as (_ & _ & Hd). cbn [ct_regs arg_ct_view] in Hd. rewrite un_unsupported in Hd by done. by rewrite Z.bits_0 in Hd. }
  specialize (Hin 0%nat x eq_refl). specialize (Htie 0%nat x eq_refl). rewrite args_ct_view in Hin, Htie. rewrite un_table in Hin, Htie by done.
  destruct (reg_only (match u with op_not | op_neg => tied | _ => any_reg end) x) as [r ->]; [clear; destruct u; first [left; reflexivity|right; reflexivity]|exact Hin|].
  apply reg_operand_ok in Hd as (Hd & _), Hin as (Hr & _).
  assert (forall e, emit_op (op_un u ty t0 t1) d [Reg r] = out e ->
    (forall s p, exists s', falls e p s s' /\ sets s s' (Z.of_nat d) (eval_un u (bits ty) (uint (bits ty) (xr s (Z.of_nat r))))) ->
    emits_value (emit_op (op_un u ty t0 t1) d [Reg r]) d (un_value u ty (Reg r))) as Hgo.
  { intros e E H. exists e. split; [done|]. intros s v p [= <-]. apply H. }
  destruct u; try (injection (Htie eq_refl) as ->); (destruct ty; [try done|]); (eapply Hgo; [reflexivity|]); intros s p; cbn [eval_un bits].
  - by apply (not_does TCG_TYPE_I32).
  - by apply (not_does TCG_TYPE_I64).
  - by apply (neg_does TCG_TYPE_I32).
  - by apply (neg_does TCG_TYPE_I64).
  - replace (int8_t (uint 32 (xr s (Z.of_nat r)))) with (int8_t (xr s (Z.of_nat r))) by cint. by apply (ext8s_does TCG_TYPE_I32).
  - replace (int8_t (uint 64 (xr s (Z.of_nat r)))) with (int8_t (xr s (Z.of_nat r))) by cint. by apply (ext8s_does TCG_TYPE_I64).
  - replace (uint8_t (uint 32 (xr s (Z.of_nat r)))) with (uint8_t (xr s (Z.of_nat r))) by cint. by apply ext8u_does.
  - replace (uint8_t (uint 64 (xr s (Z.of_nat r)))) with (uint8_t (xr s (Z.of_nat r))) by cint. by apply ext8u_does.
  - replace (int16_t (uint 32 (xr s (Z.of_nat r)))) with (int16_t (xr s (Z.of_nat r))) by cint. by apply (ext16s_does TCG_TYPE_I32).
  - replace (int16_t (uint 64 (xr s (Z.of_nat r)))) with (int16_t (xr s (Z.of_nat r))) by cint. by apply (ext16s_does TCG_TYPE_I64).
  - replace (uint16_t (uint 32 (xr s (Z.of_nat r)))) with (uint16_t (xr s (Z.of_nat r))) by cint. by apply ext16u_does.
  - replace (uint16_t (uint 64 (xr s (Z.of_nat r)))) with (uint16_t (xr s (Z.of_nat r))) by cint. by apply ext16u_does.
  - replace (int32_t (uint 64 (xr s (Z.of_nat r)))) with (int32_t (xr s (Z.of_nat r))) by cint. by apply ext32s_does.
  - replace (uint32_t (uint 64 (xr s (Z.of_nat r)))) with (uint32_t (xr s (Z.of_nat r))) by cint. by apply ext32u_does.
Qed.

(** *** Two operands *)

(** Operation [c] of group 1 for a binary operation. *)
Definition group1 (b : binop) : option Z :=
  match b with
  | op_add => Some ARITH_ADD | op_sub => Some ARITH_SUB | op_or => Some ARITH_OR | op_and => Some ARITH_AND | op_xor => Some ARITH_XOR
  | _ => None
  end.

Lemma group1_eval b c ty x y : group1 b = Some c -> in_u (bits ty) x -> in_u (bits ty) y ->
  exists v f, alu c (bits ty) x y = Some (Some v, f) /\ eval_bin b (bits ty) x y = Some v.
Proof. intros Hb Hx Hy. destruct b; try done; injection Hb as <-; by do 2 eexists. Qed.

Lemma group1_sets b c ty d y s s' v : group1 b = Some c -> eval_bin b (bits ty) (uint (bits ty) (xr s d)) (uint (bits ty) y) = Some v ->
  arith_done ty c d y s s' -> sets s s' d v.
Proof.
  intros Hb He Ha. unfold arith_done in Ha.
  destruct (group1_eval b c ty (uint (bits ty) (xr s d)) (uint (bits ty) y) Hb (uint_bits _ _) (uint_bits _ _)) as (v' & f & E1 & E2).
  rewrite E1 in Ha. congruence.
Qed.

(** The instruction [gen_arith] writes. *)
Definition arith_code (c rexw d : Z) (y : TcgRegAlloc.operand) : Emit :=
  if const_arg y then tgen_arithi (c + rexw) d (int64_t (new_arg y)) false else tgen_arithr (c + rexw) d (new_arg y).

Lemma arith_code_does b c ty d y p s v : group1 b = Some c -> is_reg d -> operand_ok (arg_ct_view (in2_ct b ty)) y = true ->
  eval_bin b (bits ty) (uint (bits ty) (xr s d)) (uint (bits ty) (value_of s y)) = Some v ->
  exists s', falls (arith_code c (rexw_of ty) d y) p s s' /\ sets s s' d v.
Proof.
  intros Hb Hd Hy He. assert (alu_code c) as Hc by (destruct b; try done; injection Hb as <-; unfold alu_code; auto 10).
  unfold arith_code. destruct y as [r|w]; cbn [const_arg new_arg value_of] in *.
  - apply reg_operand_ok in Hy as (Hr & _). destruct (arithr_does ty c d (Z.of_nat r) p s Hc Hd Hr) as (s' & F & S).
    exists s'. split; [done|]. by eapply group1_sets.
  - assert (int64_t (uint64_t w) = int64_t w) as -> by (by apply sint_uint).
    destruct (arithi_does ty c d (int64_t w) p s Hc Hd) as (s' & F & S).
    { apply (const_arith b); [by destruct b|done|]. intros ->. by injection Hb as <-. }
    exists s'. split; [done|]. eapply group1_sets; [done| |done].
    replace (uint (bits ty) (int64_t w)) with (uint (bits ty) w) by (destruct ty; cbn [bits]; cint). done.
Qed.

Definition bin_value (b : binop) (ty : TCGType) (x y : TcgRegAlloc.operand) (s : X86) : option Z :=
  eval_bin b (bits ty) (uint (bits ty) (value_of s x)) (uint (bits ty) (value_of s y)).

(** The 32-bit addition has three operands. *)
Lemma add32_emits d x y t0 t1 t2 : is_reg (Z.of_nat d) -> is_reg (Z.of_nat x) -> operand_ok (arg_ct_view (in2_ct op_add TCG_TYPE_I32)) y = true ->
  emits_value (emit_op (op_bin op_add TCG_TYPE_I32 t0 t1 t2) d [Reg x; y]) d (bin_value op_add TCG_TYPE_I32 (Reg x) y).
Proof.
  intros Hd Hx Hy. change (emit_op (op_bin op_add TCG_TYPE_I32 t0 t1 t2) d [Reg x; y]) with
    (gen_add 0 (fun k => default 0 ([Z.of_nat d; Z.of_nat x; new_arg y] !! k)) (fun k => default false ([false; false; const_arg y] !! k))).
  unfold gen_add. cbn [lookup list_lookup default from_option id]. unfold emits_value. destruct (Z.eqb_spec (Z.of_nat d) (Z.of_nat x)) as [E|N]; cbn [negb].
  - exists (arith_code ARITH_ADD 0 (Z.of_nat d) y). split; [reflexivity|]. intros s v p He. unfold bin_value in He. cbn [value_of] in He. rewrite <- E in He.
    by apply (arith_code_does op_add ARITH_ADD TCG_TYPE_I32).
  - destruct y as [r|w]; cbn [const_arg new_arg value_of] in *.
    + apply reg_operand_ok in Hy as (Hr & H4 & _). destruct (Z.eqb_spec (Z.of_nat d) (Z.of_nat r)) as [E|N'].
      * eexists. split; [reflexivity|]. intros s v p [= <-]. rewrite E.
        destruct (arithr_does TCG_TYPE_I32 ARITH_ADD (Z.of_nat r) (Z.of_nat x) p s) as (s' & F & S); [by left|done..|].
        exists s'. split; [done|]. unfold arith_done, alu in S. cbn [Z.eqb ARITH_ADD bits] in S. by rewrite Z.add_comm.
      * eexists. split; [reflexivity|]. intros s v p [= <-].
        destruct (lea_does TCG_TYPE_I32 (Z.of_nat d) (Z.of_nat x) (Z.of_nat r) 0 p s) as (s' & F & S); [done|done|by destruct Hr|done|].
        exists s'. split; [done|]. cbn [bits] in S. destruct (Z.ltb_spec (Z.of_nat r) 0); [lia|]. change (int32_t 0) with 0 in S.
        by rewrite Z.add_0_r in S; rewrite uint_add.
    + eexists. split; [reflexivity|]. intros s v p [= <-].
      destruct (lea_does TCG_TYPE_I32 (Z.of_nat d) (Z.of_nat x) (-1) (sarg (fun k => default 0 ([Z.of_nat d; Z.of_nat x; uint64_t w] !! k)) 2) p s) as (s' & F & S); [done..|].
      exists s'. split; [done|]. cbn [bits] in S. change (-1 <? 0) with true in S. cbn iota in S. rewrite Z.add_0_r in S. unfold sarg in S. cbn [lookup list_lookup default from_option id] in S.
      replace (uint 32 (uint 32 (xr s (Z.of_nat x)) + uint 32 w)) with (uint 32 (xr s (Z.of_nat x) + int32_t (int64_t (uint64_t w)))) by cint. done.
Qed.

Lemma mul_emits ty d y t0 t1 t2 : is_reg (Z.of_nat d) -> operand_ok (arg_ct_view (in2_ct op_mul ty)) y = true ->
  emits_value (emit_op (op_bin op_mul ty t0 t1 t2) d [Reg d; y]) d (bin_value op_mul ty (Reg d) y).
Proof.
  intros Hd Hy. unfold emits_value. destruct y as [r|w].
  - apply reg_operand_ok in Hy as (Hr & _).
    destruct ty; (eexists; split; [reflexivity|]; intros s v p [= <-]); [apply (mul_does TCG_TYPE_I32)|apply (mul_does TCG_TYPE_I64)]; done.
  - assert (ty = TCG_TYPE_I32 \/ int64_t w = int32_t (int64_t w)) as Hw.
    { destruct (const_arith op_mul ARITH_ADD ty w eq_refl Hy ltac:(done)) as [|[|[? _]]]; auto; done. }
    assert (int32_t (uint64_t w) = int32_t w) as E1 by cint.
    set (val := int32_t w).
    assert (uint (bits ty) val = uint (bits ty) w) as Ev.
    { unfold val. destruct Hw as [-> |Hw]; [by apply uint_sint|]. destruct ty; cbn [bits]; [cint|]. cint. }
    assert (exists e, emit_op (op_bin op_mul ty t0 t1 t2) d [Reg d; Const w] = out e /\
      e = if val =? int8_t val then (tcg_out_modrm (OPC_IMUL_GvEvIb + rexw_of ty) (Z.of_nat d) (Z.of_nat d) ;;; tcg_out8 val)%C
          else (tcg_out_modrm (OPC_IMUL_GvEvIz + rexw_of ty) (Z.of_nat d) (Z.of_nat d) ;;; tcg_out32 val)%C) as (e & -> & ->).
    { eexists. split; [|reflexivity]. unfold val. rewrite <- E1. by destruct ty. }
    eexists. split; [reflexivity|]. intros s v p [= <-]. destruct (Z.eqb_spec val (int8_t val)) as [E8|N8].
    + apply (muli_does ty _ w (int8_t val) _ 0x6b 1); [destruct ty; solve_typed|by right|done|apply immediate8|by rewrite <- E8].
    + apply (muli_does ty _ w (int32_t val) _ 0x69 4); [destruct ty; solve_typed|by left|done|apply immediate32|].
      rewrite <- Ev. unfold val. destruct ty; cbn [bits]; cint.
Qed.

Lemma shift_emits b c ty d y t0 t1 t2 : shift_code b = Some c -> is_reg (Z.of_nat d) -> operand_ok (arg_ct_view (in2_ct b ty)) y = true ->
  emits_value (emit_op (op_bin b ty t0 t1 t2) d [Reg d; y]) d (bin_value b ty (Reg d) y).
Proof.
  intros Hb Hd Hy. unfold emits_value, bin_value. destruct y as [r|w]; cbn [value_of] in *.
  - apply reg_operand_ok in Hy as (Hr & _ & Ht).
    assert (Z.of_nat r = 1) as E1.
    { assert (ct_regs (arg_ct_view (in2_ct b ty)) = 2) as E by (by destruct b). rewrite E in Ht. change 2 with (2 ^ 1) in Ht.
      rewrite Z.pow2_bits_eqb in Ht by lia. by apply Z.eqb_eq in Ht. }
    rewrite E1. exists (tcg_out_modrm (OPC_SHIFT_cl + rexw_of ty) c (Z.of_nat d)). split; [destruct b; try done; injection Hb as <-; by destruct ty|].
    intros s v p He. by eapply shift_cl_does.
  - exists (tcg_out_shifti (c + rexw_of ty) (Z.of_nat d) (int32_t (uint64_t w))). split; [destruct b; try done; injection Hb as <-; by destruct ty|].
    intros s v p He. apply (shifti_does ty b c); [done..|]. replace (uint (bits ty) (int32_t (uint64_t w))) with (uint (bits ty) w); [done|].
    pose proof (count_in_range b ty _ w v ltac:(by rewrite Hb) He) as Hc. destruct ty; cbn [bits] in *; cint.
Qed.

Lemma add_same ty d y t0 t1 t2 :
  emit_op (op_bin op_add ty t0 t1 t2) d [Reg d; y] = out (arith_code ARITH_ADD (rexw_of ty) (Z.of_nat d) y).
Proof.
  transitivity (gen_add (rexw_of ty) (fun k => default 0 ([Z.of_nat d; Z.of_nat d; new_arg y] !! k)) (fun k => default false ([false; false; const_arg y] !! k))).
  - by destruct ty.
  - unfold gen_add. cbn [lookup list_lookup default from_option id]. by rewrite Z.eqb_refl.
Qed.

Lemma bin_emits b ty d x y t0 t1 t2 : conforms (op_bin b ty t0 t1 t2) d [x; y] ->
  emits_value (emit_op (op_bin b ty t0 t1 t2) d [x; y]) d (bin_value b ty x y).
Proof.
  intros [Hd Hin Htie]. rewrite args_ct_view in Hd. destruct (supported b) eqn:Es.
  2: { apply reg_operand_ok in Hd as (_ & _ & Hd). cbn [ct_regs arg_ct_view] in Hd. rewrite bin_unsupported in Hd by done. by rewrite Z.bits_0 in Hd. }
  pose proof (Hin 0%nat x eq_refl) as Hx. pose proof (Hin 1%nat y eq_refl) as Hy. specialize (Htie 0%nat x eq_refl).
  rewrite args_ct_view in Hx, Hy, Htie. destruct (bin_table b ty t0 t1 t2 Es) as [T1 T2]. rewrite T1 in Hx, Htie. rewrite T2 in Hy.
  apply reg_operand_ok in Hd as (Hd & _). clear Hin T1 T2.
  destruct (reg_only (match b, ty with op_add, TCG_TYPE_I32 => any_reg | _, _ => tied end) x) as [r ->]; [clear; destruct b, ty; first [left; reflexivity|right; reflexivity]|exact Hx|].
  apply reg_operand_ok in Hx as (Hr & _).
  assert (b = op_add /\ ty = TCG_TYPE_I32 \/ r = d) as [[-> ->]|E].
  { clear - Htie. destruct b, ty; first [left; split; reflexivity|right; injection (Htie eq_refl); trivial]. }
  - by apply add32_emits.
  - subst r. destruct (group1 b) as [c|] eqn:Eg; [|destruct (shift_code b) as [c|] eqn:Esh].
    + exists (arith_code c (rexw_of ty) (Z.of_nat d) y). split; [|intros s v p He; by eapply arith_code_does].
      destruct b; try done; injection Eg as <-; destruct ty; try reflexivity.
      all: apply add_same.
    + by eapply shift_emits.
    + destruct b; try done. by apply mul_emits.
Qed.
End Emit.
