(* ===== verification/X86Block.v ===== *)
(** * Blocks in machine code

    The instructions that the register allocator chooses (TcgRegAlloc, [HInsn]) are written
    by the emitters of X86Enc and X86Gen.  For moves, constants, loads and stores of slots,
    the operations with a value, branches and labels, running the machine code follows the
    meaning that TcgRegAlloc gives the instructions ([exec_insn]): the registers hold the same
    values, and the slots of temporaries are words of memory. *)

From Stdlib Require Import String.
From S2P Require Import Prelude TcgIr TcgOptimize TcgLive TcgRegAlloc TcgTarget.
From S2P Require Import X86Enc X86Sem X86Decode X86Run X86Alu X86Shift X86Mem X86Jump X86Guest X86Gen X86Labels X86GuestProofs X86Ops.
Open Scope Z_scope.

(** ** Emission *)

Definition cond_number (c : TCGCond) : Z :=
  match c with
  | TCG_COND_EQ => 0 | TCG_COND_NE => 1 | TCG_COND_LT => 2 | TCG_COND_GE => 3 | TCG_COND_LE => 4
  | TCG_COND_GT => 5 | TCG_COND_LTU => 6 | TCG_COND_GEU => 7 | TCG_COND_LEU => 8 | TCG_COND_GTU => 9
  end.

(** The constant arguments behind the operands. *)
Definition cargs (o : TCGOp) : list Z :=
  match o with op_brcond _ _ _ c l => [cond_number c; Z.of_nat l] | op_br l => [Z.of_nat l] | op_other _ _ _ _ consts => consts | _ => [] end.

Section Block.
Context {World : Type} (C : TCGContext) (g : nat -> TCGTemp).
Context (call_sem : Z -> list Z -> list Z -> World -> option (effect World * list Z)).
Context (other_sem : nat -> list Z -> list Z -> World -> option (effect World)).
Context (G : GuestConf) (tb_ret_addr : Z).

(** The calls of the emitters in [tcg_reg_alloc_op], [tcg_reg_alloc_mov] and the rest of tcg.c. *)
Definition gen_host (i : HInsn) : Gen :=
  match i with
  | Hld w d b off => out (tcg_out_ld w (Z.of_nat d) (Z.of_nat b) off)
  | Hst w r b off => out (tcg_out_st w (Z.of_nat r) (Z.of_nat b) off)
  | Hmov w d r => out (tcg_out_mov w (Z.of_nat d) (Z.of_nat r))
  | Hmovi w d v => out (tcg_out_movi w (Z.of_nat d) (int64_t v))
  | Hop o outs ins =>
      tcg_out_op G tb_ret_addr (op_name o) ((Z.of_nat <$> outs) ++ (new_arg <$> ins) ++ cargs o) ((const false <$> outs) ++ (const_arg <$> ins))
  | Hcall _ _ _ _ _ _ => fun _ => None
  | Hlabel l => fun c => tcg_out_label l (code_ptr c) c
  end.

Fixpoint gen_hosts (l : list HInsn) : Gen := fun c =>
  match l with [] => Some c | i :: l => c ← gen_host i c; gen_hosts l c end.

(** ** The slots *)

(** The slots of temporaries: base register, offset and type. *)
Context (slots : list (nat * Z * TCGType)).

Definition is_base (r : nat) : Prop := exists off w, (r, off, w) ∈ slots.

Definition reg_free (r : nat) : Prop := (r < 16)%nat /\ ~ is_base r.

(** An instruction as the allocator makes it: what is written is not the base of a slot. *)
Definition insn_ok (i : HInsn) : Prop :=
  match i with
  | Hld w d b off => reg_free d /\ (b < 16)%nat /\ off = int32_t off /\ (b, off, w) ∈ slots
  | Hst w r b off => (r < 16)%nat /\ (b < 16)%nat /\ off = int32_t off /\ (b, off, w) ∈ slots
  | Hmov w d r => reg_free d /\ (r < 16)%nat /\ d <> r
  | Hmovi w d v => reg_free d
  | Hop (op_un u ty t0 t1) [d] [x] => conforms (op_un u ty t0 t1) d [x] /\ op_ok C (op_un u ty t0 t1) = true /\ ~ is_base d
  | Hop (op_bin b ty t0 t1 t2) [d] [x; y] => conforms (op_bin b ty t0 t1 t2) d [x; y] /\ op_ok C (op_bin b ty t0 t1 t2) = true /\ ~ is_base d
  | Hop (op_brcond ty t1 t2 c l) [] [x; y] =>
      operand_ok (args_ct x86 (op_brcond ty t1 t2 c l) 0) x = true /\ operand_ok (args_ct x86 (op_brcond ty t1 t2 c l) 1) y = true /\
      op_ok C (op_brcond ty t1 t2 c l) = true
  | Hop (op_br l) [] [] => True
  | Hop (op_other opc _ [] [] [_]) [] [] => opc = INDEX_op "exit_tb"
  | Hlabel l => True
  | _ => False
  end.

(** The registers and the slots agree. *)
Record related (h : Host World) (s : X86) : Prop := {
  rel_reg r : (r < 16)%nat -> xr s (Z.of_nat r) = hregs h r;
  rel_slot b off w : (b, off, w) ∈ slots -> read_mem (xm s) (type_bytes w) (based s (Z.of_nat b) off) = uint (bits w) (hmem h (b, off));
  rel_apart b off w b' off' w' : (b, off, w) ∈ slots -> (b', off', w') ∈ slots -> (b, off, w) = (b', off', w') \/
    (b, off) <> (b', off') /\ apart (based s (Z.of_nat b) off) (Z.of_nat (type_bytes w)) (based s (Z.of_nat b') off') (Z.of_nat (type_bytes w'))
}.

(** A block has been left: rax has the value of [exit_tb], the other registers but r10, the
    scratch register of a far jump, and the slots are as before. *)
Record exited (code : Z) (h : Host World) (s : X86) : Prop := {
  ex_code : xr s 0 = uint64_t code;
  ex_reg r : (r < 16)%nat -> r <> 0%nat -> r <> 10%nat -> xr s (Z.of_nat r) = hregs h r;
  ex_slot b off w : (b, off, w) ∈ slots -> b <> 0%nat -> b <> 10%nat ->
    read_mem (xm s) (type_bytes w) (based s (Z.of_nat b) off) = uint (bits w) (hmem h (b, off))
}.

Lemma related_set h s s' d v : related h s -> reg_free d -> sets s s' (Z.of_nat d) v -> related (set_hreg d v h) s'.
Proof.
  intros [H1 H2 H3] [Hd Hb] [S1 S2 S3].
  assert (forall b off w, (b, off, w) ∈ slots -> based s' (Z.of_nat b) off = based s (Z.of_nat b) off) as Hbase.
  { intros b off w Hin. unfold based. rewrite S2; [done|]. intros E. apply Hb. exists off, w. by assert (d = b) as -> by lia. }
  split.
  - intros r Hr. cbn. unfold fupd. destruct (Nat.eqb_spec r d) as [->|N]; [done|]. rewrite S2 by lia. by apply H1.
  - intros b off w Hin. rewrite S3, (Hbase b off w Hin). by apply H2.
  - intros b off w b' off' w' Hin Hin'. rewrite (Hbase b off w Hin), (Hbase b' off' w' Hin'). by apply H3.
Qed.

Lemma type_bytes_bits w : 8 * Z.of_nat (type_bytes w) = bits w.
Proof. by destruct w. Qed.

Lemma related_store h s s' b off w v : related h s -> (b, off, w) ∈ slots -> uint (bits w) v = v ->
  stores s s' (type_bytes w) (based s (Z.of_nat b) off) v -> related (set_hmem (b, off) v h) s'.
Proof.
  intros [H1 H2 H3] Hin Hv [S1 S2]. assert (forall x o, based s' x o = based s x o) as Hbase by (intros; unfold based; by rewrite S1).
  split.
  - intros r Hr. rewrite S1. by apply H1.
  - intros b' off' w' Hin'. rewrite S2, Hbase. cbn. unfold mupd. destruct (H3 b' off' w' b off w Hin' Hin) as [E|[N Ha]].
    + injection E as -> -> ->. rewrite bool_decide_eq_true_2 by done. rewrite read_write_same by (destruct w; cbn; lia). by rewrite type_bytes_bits.
    + rewrite bool_decide_eq_false_2 by done. rewrite read_write_apart by done. by apply H2.
  - intros b1 off1 w1 b2 off2 w2 I1 I2. rewrite !Hbase. by apply H3.
Qed.

Lemma related_flags h s f : related h s -> related h (with_flags s f).
Proof. intros [H1 H2 H3]. by split. Qed.

Lemma related_world h s w : related h s -> related (set_hworld w h) s.
Proof. intros [H1 H2 H3]. by split. Qed.

(** ** Instructions *)

(** What [exit_tb] means to the operations. *)
Context (Hexit : forall c w, other_sem (INDEX_op "exit_tb") [c] [] w = Some (Leaves c w)).

Definition step_host (junk : nat -> Z) (i : HInsn) (h : Host World) : option (@hstep World) :=
  exec_insn C x86_table x86 g call_sem other_sem junk i h.

(** Every branch of the pieces has its label. *)
Definition labels_placed (l : list piece) : Prop := forall i opc k, l !! i = Some (Jump opc k) -> exists j, l !! j = Some (Label k).

(** The pieces do what the instruction does. *)
Definition follows (ps : list piece) (i : HInsn) : Prop :=
  forall l at_ pre post h s junk st, l = pre ++ ps ++ post -> labels_placed l -> related h s -> step_host junk i h = Some st ->
  match st with
  | HNext h' => exists s', rtc (piece_step l at_) (length pre, s) ((length pre + length ps)%nat, s') /\ related h' s'
  | HGoto k h' => forall j, l !! j = Some (Label k) -> exists s', rtc (piece_step l at_) (length pre, s) (j, s') /\ related h' s'
  | HExit code h' => exists e s', l !! length pre = Some (Code e) /\ does e (at_ (length pre)) s (uint64_t tb_ret_addr) s' /\ exited code h' s'
  end.

Lemma lookup_piece (pre ps post : list piece) k x : ps !! k = Some x -> (pre ++ ps ++ post) !! (length pre + k)%nat = Some x.
Proof. intros H. rewrite lookup_app_r by lia. replace (length pre + k - length pre)%nat with k by lia. by apply lookup_app_l_Some. Qed.

Lemma follows_code e i :
  (forall h s junk st p, related h s -> step_host junk i h = Some st -> exists h' s', st = HNext h' /\ falls e p s s' /\ related h' s') ->
  follows [Code e] i.
Proof.
  intros H l at_ pre post h s junk st -> _ HR E. destruct (H h s junk st (at_ (length pre)) HR E) as (h' & s' & -> & F & HR').
  exists s'. split; [|done]. cbn [length]. rewrite Nat.add_1_r. apply rtc_once. eapply step_code; [|done].
  pose proof (lookup_piece pre [Code e] post 0 (Code e) eq_refl) as Hl. by rewrite Nat.add_0_r in Hl.
Qed.

Lemma reg_is_reg r : (r < 16)%nat -> is_reg (Z.of_nat r).
Proof. unfold is_reg. lia. Qed.

Lemma ld_follows w d b off : insn_ok (Hld w d b off) -> follows [Code (tcg_out_ld w (Z.of_nat d) (Z.of_nat b) off)] (Hld w d b off).
Proof.
  intros (Hd & Hb & Ho & Hin). apply follows_code. intros h s junk st p HR [= <-].
  destruct (ld_does w (Z.of_nat d) (Z.of_nat b) off p s) as (s' & F & S); [apply reg_is_reg, Hd|by apply reg_is_reg|done|].
  do 2 eexists. split; [reflexivity|]. split; [exact F|]. rewrite (rel_slot _ _ HR _ _ _ Hin), uint_twice in S. by eapply related_set.
Qed.

Lemma st_follows w r b off : insn_ok (Hst w r b off) -> follows [Code (tcg_out_st w (Z.of_nat r) (Z.of_nat b) off)] (Hst w r b off).
Proof.
  intros (Hr & Hb & Ho & Hin). apply follows_code. intros h s junk st p HR [= <-].
  destruct (st_does w (Z.of_nat r) (Z.of_nat b) off p s) as (s' & F & S); [by apply reg_is_reg..|done|].
  do 2 eexists. split; [reflexivity|]. split; [exact F|]. rewrite (rel_reg _ _ HR r Hr) in S. cbn [exec_simple].
  eapply related_store; [done|done|apply uint_twice|done].
Qed.

Lemma mov_follows w d r : insn_ok (Hmov w d r) -> follows [Code (tcg_out_mov w (Z.of_nat d) (Z.of_nat r))] (Hmov w d r).
Proof.
  intros (Hd & Hr & Hn). apply follows_code. intros h s junk st p HR [= <-].
  destruct (mov_does w (Z.of_nat d) (Z.of_nat r) p s) as (s' & F & S); [apply reg_is_reg, Hd|by apply reg_is_reg|].
  rewrite (proj2 (Z.eqb_neq (Z.of_nat r) (Z.of_nat d))), (rel_reg _ _ HR r Hr) in S by lia.
  do 2 eexists. split; [reflexivity|]. split; [exact F|]. by eapply related_set.
Qed.

Lemma movi_follows w d v : insn_ok (Hmovi w d v) -> follows [Code (tcg_out_movi w (Z.of_nat d) (int64_t v))] (Hmovi w d v).
Proof.
  intros Hd. apply follows_code. intros h s junk st p HR [= <-].
  destruct (movi_does w (Z.of_nat d) (int64_t v) p s) as (s' & F & S); [apply reg_is_reg, Hd|].
  replace (uint (bits w) (int64_t v)) with (uint (bits w) v) in S by (destruct w; cbn [bits]; cint).
  do 2 eexists. split; [reflexivity|]. split; [exact F|]. by eapply related_set.
Qed.

(** *** Operations *)

Lemma opval_value h s x c : related h s -> operand_ok c x = true -> opval h x = value_of s x.
Proof.
  intros HR Hx. destruct x as [r|v]; [|done]. cbn. symmetry. apply (rel_reg _ _ HR).
  cbn [operand_ok] in Hx. apply andb_prop in Hx as [[H%Nat.ltb_lt _]%andb_prop _]. exact H.
Qed.

Lemma typed_has ty t v : has_type C ty t = true -> typed C t v = uint (bits ty) v.
Proof. unfold has_type, typed. intros [_ H%bool_decide_eq_true]%andb_prop. by rewrite H. Qed.

Lemma eval_un_range u ty x : unop_width u ty = true -> uint (bits ty) (eval_un u (bits ty) x) = eval_un u (bits ty) x.
Proof. intros H. destruct u; cbn [eval_un]; try apply uint_twice; destruct ty; try done; cbn [bits]; cint. Qed.

Lemma eval_bin_range b ty x y v : in_u (bits ty) x -> in_u (bits ty) y -> eval_bin b (bits ty) x y = Some v -> uint (bits ty) v = v.
Proof.
  intros Hx Hy He. destruct (group1 b) as [c|] eqn:Eg.
  { destruct (group1_eval b c ty x y Eg Hx Hy) as (v' & f & E1 & E2). rewrite E2 in He. injection He as <-. exact (alu_range c ty x y _ f Hx Hy E1). }
  destruct (shift_code b) as [c|] eqn:Es.
  { destruct (shift_eval b c ty x y v y Es Hx ltac:(apply Hy) He) as (v' & _ & <-); [|apply uint_twice].
    apply Z.mod_small. split; [apply Hy|]. unfold eval_bin, shift_count in He. destruct b; try done; by destruct (Z.ltb_spec y (bits ty)). }
  destruct b; try done; injection He as <-; apply uint_twice.
Qed.

(** An operation with a value. *)
Lemma value_follows o d ins e (val : X86 -> option Z) t0 ty : reg_free d -> oargs o = [t0] -> has_type C ty t0 = true ->
  has_flag (flags_of x86_table o) TCG_OPF_CALL_CLOBBER = false ->
  (forall s v p, val s = Some v -> exists s', falls e p s s' /\ sets s s' (Z.of_nat d) v) ->
  (forall h s, related h s -> exists v, val s = Some v /\ uint (bits ty) v = v /\
     react other_sem o (typed_list C (iargs o) (opval h <$> ins)) (hworld h) = Some (Results [v] (hworld h)) \/
     react other_sem o (typed_list C (iargs o) (opval h <$> ins)) (hworld h) = None) ->
  follows [Code e] (Hop o [d] ins).
Proof.
  intros Hd Ho Ht Hf He Hv. apply follows_code. intros h s junk st p HR E. unfold step_host, exec_insn in E.
  destruct (Hv h s HR) as (v & [(E1 & E2 & E3)|E3]); rewrite E3 in E; cbn [mbind option_bind] in E; [|done].
  rewrite Hf, Ho in E. injection E as <-. destruct (He s v p E1) as (s' & F & S).
  do 2 eexists. split; [reflexivity|]. split; [exact F|]. cbn [set_hregs]. rewrite (typed_has ty) by done. rewrite E2.
  eapply related_set; [|done|done]. by apply related_world.
Qed.

Lemma conforms_reg o d ins : conforms o d ins -> ~ is_base d -> reg_free d.
Proof. intros [Hd _ _] Hb. split; [|done]. apply reg_operand_ok in Hd as (Hr & _). unfold is_reg in Hr. lia. Qed.

Lemma un_follows u ty t0 t1 d x : insn_ok (Hop (op_un u ty t0 t1) [d] [x]) ->
  exists e, (forall c, gen_host (Hop (op_un u ty t0 t1) [d] [x]) c = out e c) /\ follows [Code e] (Hop (op_un u ty t0 t1) [d] [x]).
Proof.
  intros (Hc & Hok & Hb). destruct (un_emits G tb_ret_addr u ty d x t0 t1 Hc) as (e & E & He). exists e. split.
  - intros c. by rewrite <- E.
  - cbn [op_ok] in Hok. apply andb_prop in Hok as [[Hw H0]%andb_prop H1].
    apply (value_follows _ _ _ _ (un_value u ty x) t0 ty); [by eapply conforms_reg|done|done|done|done|].
    intros h s HR. eexists. left. split; [reflexivity|]. split; [by apply eval_un_range|].
    cbn. rewrite (opval_value h s x _ HR (cf_ins _ _ _ Hc 0%nat x eq_refl)), (typed_has ty), uint_twice by done. done.
Qed.

Lemma bin_follows b ty t0 t1 t2 d x y : insn_ok (Hop (op_bin b ty t0 t1 t2) [d] [x; y]) ->
  exists e, (forall c, gen_host (Hop (op_bin b ty t0 t1 t2) [d] [x; y]) c = out e c) /\ follows [Code e] (Hop (op_bin b ty t0 t1 t2) [d] [x; y]).
Proof.
  intros (Hc & Hok & Hb). destruct (bin_emits G tb_ret_addr b ty d x y t0 t1 t2 Hc) as (e & E & He). exists e. split.
  - intros c. by rewrite <- E.
  - cbn [op_ok] in Hok. apply andb_prop in Hok as [[H0 H1]%andb_prop H2].
    apply (value_follows _ _ _ _ (bin_value b ty x y) t0 ty); [by eapply conforms_reg|done|done|done|done|].
    intros h s HR. unfold bin_value. cbn. rewrite (opval_value h s x _ HR (cf_ins _ _ _ Hc 0%nat x eq_refl)), (opval_value h s y _ HR (cf_ins _ _ _ Hc 1%nat y eq_refl)).
    rewrite !(typed_has ty), !uint_twice by done. destruct (eval_bin b (bits ty) _ _) as [v|] eqn:Ev; [|exists 0; by right].
    exists v. left. split; [done|]. split; [|done]. eapply eval_bin_range; [apply uint_bits..|exact Ev].
Qed.

(** *** Branches and labels *)

Definition brcond_pieces (ty : TCGType) (c : TCGCond) (l : nat) (x y : TcgRegAlloc.operand) : list piece :=
  [Code (tcg_out_cmp (new_arg x) (if const_arg y then int64_t (new_arg y) else new_arg y) (const_arg y) (rexw_of ty)); Jump (tcg_cond_to_jcc c) l].

Lemma brcond_table ty t1 t2 c l : constraint_of (op_brcond ty t1 t2 c l) 0 = any_reg /\
  constraint_of (op_brcond ty t1 t2 c l) 1 = in2_ct op_sub ty.
Proof. destruct ty; (split; vm_compute; reflexivity). Qed.

Lemma br_gen l c : gen_host (Hop (op_br l) [] []) c = gen_pieces [Jump (-1) l] c.
Proof.
  cbn [gen_pieces gen_piece]. transitivity (tcg_out_jxx JCC_JMP (Z.to_nat (Z.of_nat l)) false c); [reflexivity|]. rewrite Nat2Z.id.
  change JCC_JMP with (-1). by destruct (tcg_out_jxx (-1) l false c).
Qed.

Lemma brcond_gen ty t1 t2 cd l x y c : gen_host (Hop (op_brcond ty t1 t2 cd l) [] [x; y]) c = gen_pieces (brcond_pieces ty cd l x y) c.
Proof.
  transitivity (tcg_out_brcond (rexw_of ty) cd (new_arg x) (if const_arg y then int64_t (new_arg y) else new_arg y) (const_arg y) (Z.to_nat (Z.of_nat l)) false c).
  - by destruct ty, cd.
  - rewrite Nat2Z.id. unfold tcg_out_brcond, gen_seq, brcond_pieces. cbn [gen_pieces gen_piece].
    destruct (out _ c) as [c1|]; cbn [mbind option_bind]; [|done]. by destruct (tcg_out_jxx _ _ _ c1).
Qed.

Lemma br_follows l : follows [Jump (-1) l] (Hop (op_br l) [] []).
Proof.
  intros pl at_ pre post h s junk st -> Hl HR [= <-] j Hj. exists s. split; [|done]. apply rtc_once. eapply (step_taken _ _ _ _ (-1) l); [|done|done].
  pose proof (lookup_piece pre [Jump (-1) l] post 0 (Jump (-1) l) eq_refl) as H. by rewrite Nat.add_0_r in H.
Qed.

Lemma label_follows l : follows [Label l] (Hlabel l).
Proof.
  intros pl at_ pre post h s junk st -> Hl HR [= <-]. exists s. split; [|done]. cbn [length]. rewrite Nat.add_1_r. apply rtc_once. apply (step_label _ _ _ l).
  pose proof (lookup_piece pre [Label l] post 0 (Label l) eq_refl) as H. by rewrite Nat.add_0_r in H.
Qed.

Lemma brcond_follows ty t1 t2 c l x y : insn_ok (Hop (op_brcond ty t1 t2 c l) [] [x; y]) ->
  follows (brcond_pieces ty c l x y) (Hop (op_brcond ty t1 t2 c l) [] [x; y]).
Proof.
  intros (Hx & Hy & Hok). cbn [op_ok] in Hok. apply andb_prop in Hok as [H1 H2]. destruct (brcond_table ty t1 t2 c l) as [T0 T1].
  intros pl at_ pre post h s junk st Epl Hl HR E. unfold step_host, exec_insn in E. cbn in E.
  rewrite (opval_value h s x _ HR Hx), (opval_value h s y _ HR Hy), !(typed_has ty), !uint_twice in E by done.
  rewrite args_ct_view in Hx, Hy. rewrite T0 in Hx. rewrite T1 in Hy. destruct (reg_only any_reg x) as [r ->]; [by left|exact Hx|].
  apply reg_operand_ok in Hx as (Hr & _).
  destruct (compare_does ty (Z.of_nat r) (if const_arg y then int64_t (new_arg y) else new_arg y) (const_arg y) (at_ (length pre)) s Hr) as (f & F & Hf).
  { destruct y as [ry|w]; cbn [const_arg new_arg] in *; [apply reg_operand_ok in Hy as (Hry & _); done|].
    assert (int64_t (uint64_t w) = int64_t w) as -> by (by apply sint_uint). by apply (const_arith op_sub). }
  specialize (Hf c).
  assert (uint (bits ty) (if const_arg y then if const_arg y then int64_t (new_arg y) else new_arg y else xr s (if const_arg y then int64_t (new_arg y) else new_arg y)) =
    uint (bits ty) (value_of s y)) as Ev.
  { destruct y as [ry|w]; cbn [const_arg new_arg value_of]; [done|]. destruct ty; cbn [bits]; cint. }
  rewrite Ev in Hf. clear Ev. cbn [value_of const_arg new_arg] in E, F.
  set (b := tci_compare _ _ _ _) in *. set (s1 := with_flags s (Some f)).
  assert (taken (tcg_cond_to_jcc c) s1 = Some b) as Ht.
  { unfold taken. assert ((tcg_cond_to_jcc c =? -1) = false) as -> by (by destruct c). exact Hf. }
  pose proof (lookup_piece pre (brcond_pieces ty c l (Reg r) y) post 0 _ eq_refl) as L0. rewrite Nat.add_0_r, <- Epl in L0.
  pose proof (lookup_piece pre (brcond_pieces ty c l (Reg r) y) post 1 _ eq_refl) as L1. rewrite <- Epl, Nat.add_1_r in L1.
  assert (rtc (piece_step pl at_) (length pre, s) (S (length pre), s1)) as R1 by (by apply rtc_once; eapply step_code).
  assert (related h s1) as HR1 by (by apply related_flags).
  destruct b; injection E as <-.
  - intros j Hj. exists s1. split; [|done]. eapply rtc_r; [exact R1|]. by eapply step_taken.
  - destruct (Hl _ _ _ L1) as [j Hj]. exists s1. split; [|by apply related_world]. cbn [length brcond_pieces].
    replace (length pre + 2)%nat with (S (S (length pre))) by lia. eapply rtc_r; [exact R1|]. by eapply step_not_taken.
Qed.

(** *** Leaving the block *)

Definition exit_code (c : Z) : Emit := (tcg_out_movi TCG_TYPE_I64 0 (int64_t c) ;;; tcg_out_jmp tb_ret_addr)%C.

Lemma exit_does c h s p : related h s -> exists s', does (exit_code c) p s (uint64_t tb_ret_addr) s' /\ exited c h s'.
Proof.
  intros HR. destruct (movi_does TCG_TYPE_I64 0 (int64_t c) p s) as (s1 & F1 & [A1 A2 A3]); [done|].
  eapply does_then; [exact F1|]. intros q. destruct (branch_runs false tb_ret_addr q s1) as (o & s2 & E & _ & [B1 B2 B3] & R).
  exists s2. split; [by exists o|]. assert (forall r, r <> 0%nat -> r <> 10%nat -> xr s2 (Z.of_nat r) = xr s (Z.of_nat r)) as Hr.
  { intros r N0 N10. by rewrite B2, A2 by lia. }
  split.
  - rewrite B2, A1 by lia. cbn [bits]. cint.
  - intros r H16 N0 N10. rewrite Hr by done. by apply (rel_reg _ _ HR).
  - intros b off w Hin N0 N10. unfold based. rewrite Hr, B3, A3 by done. by apply (rel_slot _ _ HR).
Qed.

Lemma exit_follows se c : follows [Code (exit_code c)] (Hop (op_other (INDEX_op "exit_tb") se [] [] [c]) [] []).
Proof.
  intros l at_ pre post h s junk st -> _ HR E. unfold step_host, exec_insn in E.
  change (react other_sem _ _ (hworld h)) with (e ← other_sem (INDEX_op "exit_tb") [c] [] (hworld h);
    Some match e with Returns rs w => Results rs w | Leaves c w => Stops c w end) in E.
  rewrite Hexit in E. cbn [mbind option_bind] in E.
  assert (has_flag (flags_of x86_table (op_other (INDEX_op "exit_tb") se [] [] [c])) TCG_OPF_CALL_CLOBBER = false) as Hf by (vm_compute; reflexivity).
  rewrite Hf in E. injection E as <-. destruct (exit_does c h s (at_ (length pre)) HR) as (s' & D & X).
  exists (exit_code c), s'. split; [|split; [exact D|by destruct X]].
  pose proof (lookup_piece pre [Code (exit_code c)] post 0 _ eq_refl) as H. by rewrite Nat.add_0_r in H.
Qed.

Lemma exit_gen se c k : gen_host (Hop (op_other (INDEX_op "exit_tb") se [] [] [c]) [] []) k = out (exit_code c) k.
Proof. reflexivity. Qed.

(** ** Blocks *)

(** The label that an instruction branches to. *)
Definition target (i : HInsn) : option nat :=
  match i with Hop (op_br l) _ _ => Some l | Hop (op_brcond _ _ _ _ l) _ _ => Some l | _ => None end.

Record pieces_for (i : HInsn) (ps : list piece) : Prop := {
  pf_gen c : gen_host i c = gen_pieces ps c;
  pf_jump : Forall piece_jump_ok ps;
  pf_follows : follows ps i;
  pf_target opc k : Jump opc k ∈ ps -> target i = Some k;
  pf_label l : i = Hlabel l -> ps = [Label l]
}.

Lemma code_pieces i e : (forall c, gen_host i c = out e c) -> follows [Code e] i -> (forall l, i <> Hlabel l) -> pieces_for i [Code e].
Proof.
  intros Hg Hf Hn. split; [|by repeat constructor|done| |by intros l ->; destruct (Hn l)].
  - intros c. rewrite Hg. cbn. by destruct (out e c).
  - intros opc k Hin. apply list_elem_of_singleton in Hin. done.
Qed.

Lemma host_pieces i : insn_ok i -> exists ps, pieces_for i ps.
Proof.
  destruct i as [w d b off|w r b off|w d r|w d v|o outs ins| |l]; intros Hok; [..|done|].
  - eexists. by apply code_pieces; [|by apply ld_follows|].
  - eexists. by apply code_pieces; [|by apply st_follows|].
  - eexists. by apply code_pieces; [|by apply mov_follows|].
  - eexists. by apply code_pieces; [|by apply movi_follows|].
  - destruct o as [| | |u ty t0 t1|b ty t0 t1 t2| | | |l|ty t1 t2 c l|opc se outs0 ins0 consts]; try done.
    + destruct outs as [|d [|]], ins as [|x [|]]; try done. destruct (un_follows _ _ _ _ _ _ Hok) as (e & E & F). exists [Code e]. by apply code_pieces.
    + destruct outs as [|d [|]], ins as [|x [|y [|]]]; try done. destruct (bin_follows _ _ _ _ _ _ _ _ Hok) as (e & E & F). exists [Code e]. by apply code_pieces.
    + destruct outs, ins; try done. exists [Jump (-1) l]. split; [apply br_gen|repeat constructor|apply br_follows| |done].
      intros opc k Hin. apply list_elem_of_singleton in Hin. by injection Hin as -> ->.
    + destruct outs, ins as [|x [|y [|]]]; try done. exists (brcond_pieces ty c l x y). split; [apply brcond_gen| |by apply brcond_follows| |done].
      * constructor; [done|]. constructor; [|done]. right. destruct c; vm_compute; split; congruence.
      * intros opc k Hin. unfold brcond_pieces in Hin. apply elem_of_cons in Hin as [?|Hin]; [done|]. apply list_elem_of_singleton in Hin. by injection Hin as -> ->.
    + destruct outs0, ins0, consts as [|c []], outs, ins; try done. cbn [insn_ok] in Hok. subst. exists [Code (exit_code c)].
      apply code_pieces; [intros k; apply exit_gen|apply exit_follows|done].
  - exists [Label l]. split; [|by repeat constructor|apply label_follows| |by intros k [= <-]].
    + intros c. cbn. by destruct (tcg_out_label l (code_ptr c) c).
    + intros opc k Hin. by apply list_elem_of_singleton in Hin.
Qed.

Lemma gen_pieces_app l l' c : gen_pieces (l ++ l') c = (c ← gen_pieces l c; gen_pieces l' c).
Proof. revert c. induction l as [|x l IH]; intros c; cbn; [done|]. destruct (gen_piece x c) as [c1|]; cbn; [apply IH|done]. Qed.

Lemma host_block hc : Forall insn_ok hc -> exists pss, Forall2 pieces_for hc pss /\ forall c, gen_hosts hc c = gen_pieces (concat pss) c.
Proof.
  induction 1 as [|i hc Hi _ (pss & F & E)]; [by exists []|]. destruct (host_pieces i Hi) as [ps Hps]. exists (ps :: pss).
  split; [by constructor|]. intros c. cbn [gen_hosts concat]. rewrite gen_pieces_app, (pf_gen _ _ Hps).
  destruct (gen_pieces ps c) as [c1|]; cbn [mbind option_bind]; [apply E|done].
Qed.

(** Where the pieces of an instruction begin. *)
Definition pos (pss : list (list piece)) (pc : nat) : nat := length (concat (take pc pss)).

Lemma pos_split (pss : list (list piece)) pc ps : pss !! pc = Some ps -> exists pre post, concat pss = pre ++ ps ++ post /\ pos pss pc = length pre /\ pos pss (S pc) = (length pre + length ps)%nat.
Proof.
  intros H. exists (concat (take pc pss)), (concat (drop (S pc) pss)). split_and!.
  - rewrite <- (take_drop_middle pss pc ps H) at 1. by rewrite concat_app.
  - done.
  - unfold pos. rewrite (take_S_r _ _ _ H), concat_app, length_app. cbn. by rewrite app_nil_r.
Qed.

Lemma host_label_lookup k hc pc : host_label k hc = Some pc -> hc !! pc = Some (Hlabel k).
Proof.
  revert pc. induction hc as [|i hc IH]; [done|]. intros pc. cbn [host_label].
  assert (forall x, S <$> host_label k hc = Some x -> (i :: hc) !! x = Some (Hlabel k)) as Hs.
  { intros x. destruct (host_label k hc) as [y|]; [|done]. intros [= <-]. by apply IH. }
  destruct i; try by apply Hs. destruct (Nat.eqb_spec l k) as [->|]; [by intros [= <-]|by apply Hs].
Qed.

(** Every branch has its label in the block. *)
Definition closed_block (hc : list HInsn) : Prop := forall i k, i ∈ hc -> target i = Some k -> Hlabel k ∈ hc.

Section Run.
Context (hc : list HInsn) (pss : list (list piece)) (at_ : nat -> Z).
Context (HF : Forall2 pieces_for hc pss) (Hclosed : closed_block hc).

Lemma label_piece pc k : hc !! pc = Some (Hlabel k) -> concat pss !! pos pss pc = Some (Label k).
Proof.
  intros H. destruct (Forall2_lookup_l _ _ _ _ _ HF H) as (ps & Hp & Hps). rewrite (pf_label _ _ Hps k eq_refl) in Hp.
  destruct (pos_split pss pc _ Hp) as (pre & post & -> & -> & _). pose proof (lookup_piece pre [Label k] post 0 _ eq_refl) as Hl. by rewrite Nat.add_0_r in Hl.
Qed.

Lemma block_labels : labels_placed (concat pss).
Proof.
  intros i opc k Hi. apply list_elem_of_lookup_2, list_elem_of_In, in_concat in Hi as (ps & Hps & Hin).
  apply list_elem_of_In, list_elem_of_lookup_1 in Hps as [n Hn]. destruct (Forall2_lookup_r _ _ _ _ _ HF Hn) as (x & Hx & Hp).
  apply list_elem_of_In in Hin. pose proof (pf_target _ _ Hp opc k Hin) as Ht.
  destruct (list_elem_of_lookup_1 _ _ (Hclosed x k (list_elem_of_lookup_2 _ _ _ Hx) Ht)) as [pc Hpc]. eexists. by apply label_piece.
Qed.

(** The pieces follow the run of the instructions, to the end of the block or to its exit. *)
Definition reaches (pc : nat) (s : X86) (exit : option Z) (h' : Host World) : Prop :=
  match exit with
  | None => exists s', rtc (piece_step (concat pss) at_) (pos pss pc, s) (pos pss (length hc), s') /\ related h' s'
  | Some code => exists i e s1 s', rtc (piece_step (concat pss) at_) (pos pss pc, s) (i, s1) /\ concat pss !! i = Some (Code e) /\
      does e (at_ i) s1 (uint64_t tb_ret_addr) s' /\ exited code h' s'
  end.

Lemma reaches_step pc s pc' s1 exit h' : rtc (piece_step (concat pss) at_) (pos pss pc, s) (pos pss pc', s1) -> reaches pc' s1 exit h' -> reaches pc s exit h'.
Proof.
  intros R. destruct exit as [code|]; cbn [reaches].
  - intros (i & e & s2 & s' & R' & H). exists i, e, s2, s'. split; [by etransitivity|done].
  - intros (s' & R' & H). exists s'. split; [by etransitivity|done].
Qed.

Lemma run_follows junk clock fuel pc h exit h' s : (pc <= length hc)%nat -> related h s ->
  host_run C x86_table x86 g call_sem other_sem junk clock fuel hc pc h = HFinished exit h' -> reaches pc s exit h'.
Proof.
  revert clock pc h s. induction fuel as [|fuel IH]; [done|]. intros clock pc h s Hpc HR. cbn [host_run]. destruct (hc !! pc) as [i|] eqn:Ei.
  2: { intros [= <- <-]. apply lookup_ge_None in Ei. assert (pc = length hc) as -> by lia. by exists s. }
  destruct (Forall2_lookup_l _ _ _ _ _ HF Ei) as (ps & Hp & Hps). destruct (pos_split pss pc ps Hp) as (pre & post & Ec & E1 & E2).
  destruct (exec_insn _ _ _ _ _ _ _ i h) as [st|] eqn:Est; [|done].
  pose proof (pf_follows _ _ Hps (concat pss) at_ pre post h s (junk clock) st Ec block_labels HR Est) as Hst.
  destruct st as [h1|k h1|code h1]; [|destruct (host_label k hc) as [pc'|] eqn:El; [|done]|].
  - destruct Hst as (s1 & R1 & HR1). intros Hrun. apply lookup_lt_Some in Ei. apply (reaches_step pc s (S pc) s1); [by rewrite E1, E2|].
    eapply IH; [lia|done|exact Hrun].
  - apply host_label_lookup in El. destruct (Hst _ (label_piece _ _ El)) as (s1 & R1 & HR1). intros Hrun. apply lookup_lt_Some in El.
    apply (reaches_step pc s pc' s1); [by rewrite E1|]. eapply IH; [lia|done|exact Hrun].
  - intros [= <- <-]. destruct Hst as (e & s' & Hi & D & X). exists (length pre), e, s, s'. rewrite E1. by split_and!.
Qed.

End Run.
End Block.

(** ** The bytes *)

Lemma pieces_run base c (pl : list place) l x y : Inv base c pl -> (snd <$> pl) = l -> rtc (piece_step l (addr base pl)) x y ->
  exists n, x86_steps n base (block_code base c) (addr base pl x.1, x.2) = Some (addr base pl y.1, y.2).
Proof.
  intros HI Hl. induction 1 as [x|[i s] [j t] z Hs _ [m Hm]]; [by exists 0%nat|].
  destruct (piece_step_runs base c pl l i s j t HI Hl Hs) as [n Hn]. exists (n + m)%nat. by eapply x86_steps_add.
Qed.

Lemma block_runs {World} C g call_sem (other_sem : nat -> list Z -> list Z -> World -> option (effect World)) G tb_ret_addr slots
    hc base c c' junk clock fuel (h h' : Host World) s exit :
  (forall v w, other_sem (INDEX_op "exit_tb") [v] [] w = Some (Leaves v w)) ->
  fresh base c -> gen_hosts G tb_ret_addr hc c = Some c' -> Forall (insn_ok C slots) hc -> closed_block hc -> small_block base (code_ptr c') ->
  related slots h s ->
  host_run C x86_table x86 g call_sem other_sem junk clock fuel hc 0 h = HFinished exit h' ->
  exists n s', match exit with
    | None => x86_steps n base (block_code base c') (base, s) = Some (code_ptr c', s') /\ related slots h' s'
    | Some code => x86_steps n base (block_code base c') (base, s) = Some (uint64_t tb_ret_addr, s') /\ exited slots code h' s'
    end.
Proof.
  intros Hexit Hf Hg Hok Hcl Hsm HR Hrun.
  destruct (host_block C g call_sem other_sem G tb_ret_addr slots Hexit hc Hok) as (pss & HF & E). rewrite E in Hg.
  destruct (gen_pieces_inv base (concat pss) c [] c' (fresh_inv _ _ Hf) Hg) as (pl & HI & Hl); [|done|].
  { apply Forall_concat. apply (Forall2_Forall_r _ _ _ _ HF). apply Forall_forall. intros i _ ps Hp. apply (pf_jump _ _ _ _ _ _ _ _ _ Hp). }
  cbn [app] in HI. pose proof (run_follows C g call_sem other_sem G tb_ret_addr slots hc pss (addr base pl) HF Hcl junk clock fuel 0 h exit h' s ltac:(lia) HR Hrun) as R.
  assert (addr base pl (pos pss 0) = base) as E0 by (by destruct pl as [|[[a k] x] pl]).
  assert (addr base pl (pos pss (length hc)) = code_ptr c') as E1.
  { unfold pos. rewrite (Forall2_length _ _ _ HF), firstn_all. assert (length (concat pss) = length pl) as -> by (by rewrite <- Hl, length_fmap).
    apply (addr_end _ _ _ (inv_chain _ _ _ HI)). }
  destruct exit as [code|]; cbn [reaches] in R.
  - destruct R as (i & e & s1 & s' & R & Hi & D & X). destruct (pieces_run base c' pl _ _ _ HI Hl R) as [n Hn].
    destruct (piece_leaves base c' pl _ i e s1 _ s' HI Hl Hi D) as [k Hk]. exists (n + k)%nat, s'. split; [|done].
    eapply x86_steps_add; [|exact Hk]. cbn [fst snd] in Hn. by rewrite E0 in Hn.
  - destruct R as (s' & R & X). destruct (pieces_run base c' pl _ _ _ HI Hl R) as [n Hn]. exists n, s'. split; [|done].
    cbn [fst snd] in Hn. by rewrite E0, E1 in Hn.
Qed.
