(* ===== verification/X86StateOps.v ===== *)
(** * Loads, stores, comparisons, byte swaps, deposits and divisions

    The operations of [tcg_out_op] whose arguments are more than temporaries, or that have two
    results: accesses to the CPU state and to slots at a base register and an offset,
    [setcond], [bswap], [deposit], [div2] and [divu2]. *)

From Stdlib Require Import String.
From S2P Require Import Prelude TcgIr TcgOptimize TcgLive TcgRegAlloc TcgTarget.
From S2P Require Import X86Enc X86Sem X86Decode X86Run X86Alu X86Shift X86Mem X86Jump X86Guest X86Gen X86Labels X86GuestProofs X86Ops X86Block.
Open Scope Z_scope.

(** ** Loads and stores *)

(** The operations, with the bytes of the access, whether it is signed, and the type. *)
Definition load_ops : list (string * (nat * bool * TCGType)) :=
  [("ld8u_i32", (1%nat, false, TCG_TYPE_I32)); ("ld8u_i64", (1%nat, false, TCG_TYPE_I64));
   ("ld8s_i32", (1%nat, true, TCG_TYPE_I32)); ("ld8s_i64", (1%nat, true, TCG_TYPE_I64));
   ("ld16u_i32", (2%nat, false, TCG_TYPE_I32)); ("ld16u_i64", (2%nat, false, TCG_TYPE_I64));
   ("ld16s_i32", (2%nat, true, TCG_TYPE_I32)); ("ld16s_i64", (2%nat, true, TCG_TYPE_I64));
   ("ld32u_i64", (4%nat, false, TCG_TYPE_I64)); ("ld32s_i64", (4%nat, true, TCG_TYPE_I64));
   ("ld_i32", (4%nat, false, TCG_TYPE_I32)); ("ld_i64", (8%nat, false, TCG_TYPE_I64))]%string.

Definition store_ops : list (string * nat) :=
  [("st8_i32", 1%nat); ("st8_i64", 1%nat); ("st16_i32", 2%nat); ("st16_i64", 2%nat); ("st32_i64", 4%nat); ("st_i32", 4%nat); ("st_i64", 8%nat)]%string.

(** The value of a load. *)
Definition extended (n : nat) (sg : bool) (ty : TCGType) (v : Z) : Z := uint (bits ty) (if sg then sint (8 * Z.of_nat n) v else v).

Lemma read_small n m a w : 8 * Z.of_nat n <= w -> uint w (read_mem m n a) = read_mem m n a.
Proof. intros Hw. apply (uint_wider (8 * Z.of_nat n)); [lia|apply read_mem_range]. Qed.

Section Ops.
Context (G : GuestConf) (ret : Z).

(** The operation is the piece [e] of code. *)
Definition op_is (name : string) (args : list Z) (consts : list bool) (e : Emit) : Prop := tcg_out_op G ret name args consts = out e.

Lemma offset_arg off : off = int32_t off -> int64_t (uint64_t off) = off.
Proof. intros H. rewrite H. cint. Qed.

(** What a load and a store have to do. *)
Definition load_right (x : string * (nat * bool * TCGType)) : Prop :=
  let '(name, (n, sg, ty)) := x in
  forall d base off p s, is_reg d -> is_reg base -> off = int32_t off ->
    exists e s', op_is name [d; base; uint64_t off] [false; false; true] e /\ falls e p s s' /\
      sets s s' d (extended n sg ty (read_mem (xm s) n (based s base off))).

Definition store_right (x : string * nat) : Prop :=
  let '(name, n) := x in
  forall r base off p s, is_reg r -> is_reg base -> off = int32_t off ->
    exists e s', op_is name [r; base; uint64_t off] [false; false; true] e /\ falls e p s s' /\
      stores s s' n (based s base off) (uint (8 * Z.of_nat n) (xr s r)).

Lemma load_case name n sg ty (f : Z -> Z -> Z -> Emit) :
  (forall d base o, op_is name [d; base; o] [false; false; true] (f d base (int64_t o))) ->
  (forall d base off p s, is_reg d -> is_reg base -> off = int32_t off ->
     exists s', falls (f d base off) p s s' /\ sets s s' d (extended n sg ty (read_mem (xm s) n (based s base off)))) ->
  load_right (name, (n, sg, ty)).
Proof.
  intros He Hf d base off p s Hd Hb Ho. destruct (Hf d base off p s Hd Hb Ho) as (s' & F & S). exists (f d base off), s'.
  split; [|done]. rewrite <- (offset_arg off Ho) at 2. apply He.
Qed.

Lemma store_case name n (f : Z -> Z -> Z -> Emit) :
  (forall r base o, op_is name [r; base; o] [false; false; true] (f r base (int64_t o))) ->
  (forall r base off p s, is_reg r -> is_reg base -> off = int32_t off ->
     exists s', falls (f r base off) p s s' /\ stores s s' n (based s base off) (uint (8 * Z.of_nat n) (xr s r))) ->
  store_right (name, n).
Proof.
  intros He Hf r base off p s Hr Hb Ho. destruct (Hf r base off p s Hr Hb Ho) as (s' & F & S). exists (f r base off), s'.
  split; [|done]. rewrite <- (offset_arg off Ho) at 2. apply He.
Qed.

(** A load of [n] bytes that are extended with zeros, to 32 or to 64 bits. *)
Lemma extended_unsigned n ty m a : (n <= 4)%nat -> extended n false ty (read_mem m n a) = uint 32 (read_mem m n a).
Proof. intros Hn. unfold extended. rewrite !read_small; [done|lia|destruct ty; cbn [bits]; lia]. Qed.

Ltac load_op L := eapply load_case; [intros; reflexivity|]; intros; rewrite ?extended_unsigned by lia; by apply L.

Lemma loads_right : Forall load_right load_ops.
Proof.
  repeat constructor.
  - load_op ld8u_does.
  - load_op ld8u_does.
  - load_op (ld8s_does TCG_TYPE_I32).
  - load_op (ld8s_does TCG_TYPE_I64).
  - load_op ld16u_does.
  - load_op ld16u_does.
  - load_op (ld16s_does TCG_TYPE_I32).
  - load_op (ld16s_does TCG_TYPE_I64).
  - load_op (ld_does TCG_TYPE_I32).
  - load_op ld32s_does.
  - load_op (ld_does TCG_TYPE_I32).
  - load_op (ld_does TCG_TYPE_I64).
Qed.

Ltac store_op L := eapply store_case; [intros; reflexivity|]; intros; by apply L.

Lemma stores_right : Forall store_right store_ops.
Proof.
  repeat constructor.
  - store_op st8_does.
  - store_op st8_does.
  - store_op st16_does.
  - store_op st16_does.
  - store_op (st_does TCG_TYPE_I32).
  - store_op (st_does TCG_TYPE_I32).
  - store_op (st_does TCG_TYPE_I64).
Qed.

(** ** Comparisons, byte swaps and deposits *)

Lemma setcond_op_does ty cond d a b (const : bool) p s : is_reg d -> is_reg a -> (if const then arith_const ty ARITH_CMP (int64_t b) else is_reg b) ->
  exists e s', op_is ("setcond" ++ type_suffix ty) [d; a; b; cond_number cond] [false; false; const] e /\ falls e p s s' /\
    sets s s' d (b2z (tci_compare (bits ty) (uint (bits ty) (xr s a)) (uint (bits ty) (if const then int64_t b else xr s b)) cond)).
Proof.
  intros Hd Ha Hb. destruct (setcond_does ty cond d a (if const then int64_t b else b) const p s Hd Ha) as (s' & F & S); [by destruct const|].
  exists (tcg_out_setcond (rexw_of ty) cond d a (if const then int64_t b else b) const), s'. split_and!; [by destruct ty, cond|done|by destruct const].
Qed.

Lemma bswap_op_does d p s : is_reg d ->
  (forall ty, exists e s', op_is ("bswap32" ++ type_suffix ty) [d; d] [false; false] e /\ falls e p s s' /\ sets s s' d (uint32_t (swap_bytes 4 (uint32_t (xr s d))))) /\
  (exists e s', op_is "bswap64_i64" [d; d] [false; false] e /\ falls e p s s' /\ sets s s' d (uint64_t (swap_bytes 8 (uint64_t (xr s d))))) /\
  (forall ty, in_u 16 (xr s d) -> exists e s', op_is ("bswap16" ++ type_suffix ty) [d; d] [false; false] e /\ falls e p s s' /\
     sets s s' d (Z.lor (Z.shiftl (uint8_t (xr s d)) 8) (Z.shiftr (xr s d) 8))).
Proof.
  intros Hd. split_and!.
  - intros ty. destruct (bswap32_does d p s Hd) as (s' & F & S). exists (tcg_out_bswap32 d), s'. split_and!; [by destruct ty|done..].
  - destruct (bswap64_does d p s Hd) as (s' & F & S). exists (tcg_out_bswap64 d), s'. by split_and!.
  - intros ty Hx. destruct (bswap16_does d p s Hd Hx) as (s' & F & S). exists (tcg_out_rolw_8 d), s'. split_and!; [by destruct ty|done..].
Qed.

(** The fields that [tcg_out_op] can write; the registers are those with a second byte. *)
Definition deposit_fields : list (Z * Z) := [(0, 8); (8, 8); (0, 16)].

Lemma deposit_op_does ty d r ofs len p s : 0 <= d < 4 -> 0 <= r < 4 -> (ofs, len) ∈ deposit_fields ->
  exists e s' v, op_is ("deposit" ++ type_suffix ty) [d; d; r; ofs; len] [false; false; false; false; false] e /\ falls e p s s' /\
    sets s s' d v /\ uint (bits ty) v = deposit (bits ty) (uint (bits ty) (xr s d)) (uint (bits ty) (xr s r)) ofs len.
Proof.
  intros Hd Hr Hin. assert (is_reg d) as Hd' by (unfold is_reg; lia). assert (is_reg r) as Hr' by (unfold is_reg; lia).
  assert (forall e, (0 <= ofs /\ 0 <= len) ->
    op_is ("deposit" ++ type_suffix ty) [d; d; r; ofs; len] [false; false; false; false; false] e ->
    (exists s', falls e p s s' /\ sets s s' d (Z.lor (Z.ldiff (xr s d) (Z.shiftl (Z.ones len) ofs)) (Z.shiftl (uint len (xr s r)) ofs))) ->
    exists e s' v, op_is ("deposit" ++ type_suffix ty) [d; d; r; ofs; len] [false; false; false; false; false] e /\ falls e p s s' /\
    sets s s' d v /\ uint (bits ty) v = deposit (bits ty) (uint (bits ty) (xr s d)) (uint (bits ty) (xr s r)) ofs len) as Hgo.
  { intros e Hp He (s' & F & S). exists e, s'. eexists. split_and!; [done|done|exact S|]. rewrite deposit_uint by (destruct ty; cbn [bits]; lia).
    apply deposit_field; destruct ty; cbn [bits]; lia. }
  unfold deposit_fields in Hin. rewrite !elem_of_cons in Hin.
  destruct Hin as [[= -> ->]|[[= -> ->]|[[= -> ->]|Hin]]]; [..|by apply not_elem_of_nil in Hin].
  - eapply Hgo; [done|by destruct ty|by apply deposit_low_byte].
  - eapply Hgo; [done|by destruct ty|by apply deposit_high_byte].
  - eapply Hgo; [done|by destruct ty|by apply deposit_half].
Qed.

(** ** Divisions *)

(** rax and rdx have the two results, and other registers and memory are kept. *)
Record divides (s s' : X86) (q m : Z) : Prop := {
  dv_quot : xr s' 0 = q;
  dv_rem : xr s' 2 = m;
  dv_other r : r <> 0 -> r <> 2 -> xr s' r = xr s r;
  dv_mem : xm s' = xm s
}.

Lemma divides_set s q m w : uint w q = q -> uint w m = m -> divides s (with_flags (set_reg (set_reg s 0 (uint w q)) 2 (uint w m)) None) q m.
Proof.
  intros Eq Em. split; cbn; [done|done| |done]. intros r H0 H2. by rewrite (proj2 (Z.eqb_neq r 2)), (proj2 (Z.eqb_neq r 0)).
Qed.

Lemma div_op_does ty r p s : is_reg r -> let w := bits ty in let a := uint w (xr s 0) in let b := uint w (xr s r) in b <> 0 ->
  (uint w (xr s 2) = 0 -> exists e s', op_is ("divu2" ++ type_suffix ty) [0; 2; 0; 2; r] [false; false; false; false; false] e /\ falls e p s s' /\
     divides s s' (a / b) (a mod b)) /\
  (uint w (xr s 2) = uint w (Z.shiftr (sint w a) (w - 1)) -> in_s w (Z.quot (sint w a) (sint w b)) ->
     exists e s', op_is ("div2" ++ type_suffix ty) [0; 2; 0; 2; r] [false; false; false; false; false] e /\ falls e p s s' /\
     divides s s' (uint w (Z.quot (sint w a) (sint w b))) (uint w (Z.rem (sint w a) (sint w b)))).
Proof.
  intros Hr w a b Hb.
  assert (in_u w a) as Ha by apply uint_bits. assert (in_u w b) as Hb' by apply uint_bits. split.
  - intros H2. pose proof (divide_unsigned ty a b Ha Hb' Hb) as Hd. fold w in Hd.
    assert (0 < b) by (destruct Hb'; lia). destruct Ha as [Ha1 Ha2], Hb' as [Hb1 Hb2].
    assert (uint w (a / b) = a / b) as Eq.
    { apply uint_id. split; [apply Z.div_pos; lia|]. apply Z.le_lt_trans with a; [apply Z.div_le_upper_bound; nia|lia]. }
    assert (uint w (a mod b) = a mod b) as Em by (apply uint_id; pose proof (Z.mod_pos_bound a b ltac:(lia)); unfold in_u; lia).
    pose proof (div_does ty false r (a / b) (a mod b) p s Hr) as F. fold w a b in F. rewrite H2 in F. specialize (F Hd).
    do 2 eexists. split; [|split; [exact F|by apply divides_set]]. by destruct ty.
  - intros H2 Hq. pose proof (divide_signed ty a b Ha Hb' Hb Hq) as Hd. fold w in Hd.
    pose proof (div_does ty true r _ _ p s Hr ltac:(fold w a b; rewrite H2; exact Hd)) as F. fold w in F.
    do 2 eexists. split; [|split; [exact F|]]; [by destruct ty|]. apply divides_set; destruct ty; apply uint_twice.
Qed.
End Ops.
