(* ===== verification/X86Prologue.v ===== *)
(** * The prologue and the epilogue

    The code of [tcg_target_qemu_prologue] saves the registers that its caller expects to
    find unchanged, reserves the frame, sets the register of the CPU state and jumps to the
    block; a block comes back to [tb_ret_addr], where the code undoes this and returns. *)

From S2P Require Import Prelude TcgIr X86Enc X86Sem X86Decode X86Run X86Alu X86Shift X86Mem X86Jump X86Guest X86Gen X86GuestProofs.
Open Scope Z_scope.

(** ** Saving registers *)

(** The slot of the [i]-th register below the stack pointer [sp]. *)
Definition save_slot (sp : Z) (i : nat) : Z := uint64_t (sp - 8 * (Z.of_nat i + 1)).

(** The registers of [l] are saved below [sp]. *)
Record pushed (sp : Z) (l : list Z) (s s' : X86) : Prop := {
  pu_sp : xr s' RSP = uint64_t (sp - 8 * Z.of_nat (length l));
  pu_reg r : r <> RSP -> xr s' r = xr s r;
  pu_slot i r : l !! i = Some r -> read_mem (xm s') 8 (save_slot sp i) = uint64_t (xr s r);
  pu_mem n a : l = [] \/ apart a (Z.of_nat n) (sp - 8 * Z.of_nat (length l)) (8 * Z.of_nat (length l)) -> read_mem (xm s') n a = read_mem (xm s) n a
}.

Lemma uint64_range x : 0 <= uint64_t x < 2 ^ 64.
Proof. apply (uint_range 64). lia. Qed.

Lemma uint64_sub_l x y : uint64_t (uint64_t x - y) = uint64_t (x - y).
Proof. unfold uint64_t, uint. by rewrite Zminus_mod_idemp_l. Qed.

Lemma uint64_sub_r x y : uint64_t (x - uint64_t y) = uint64_t (x - y).
Proof. unfold uint64_t, uint. by rewrite Zminus_mod_idemp_r. Qed.

Lemma uint64_small x : 0 <= x < 2 ^ 64 -> uint64_t x = x.
Proof. intros. by apply uint_id. Qed.

(** Differences of addresses. *)
Lemma uint64_neg x : 0 < x < 2 ^ 64 -> uint64_t (- x) = 2 ^ 64 - x.
Proof. intros. cint. Qed.

(** A part of a range. *)
Lemma apart_within a n b m k b' m' : apart a n b m -> 0 <= k -> 0 < m' -> k + m' <= m -> uint64_t b' = uint64_t (b + k) -> apart a n b' m'.
Proof.
  unfold apart. intros [H1 H2] Hk Hm Hle E.
  assert (uint64_t (b' - a) = uint64_t (uint64_t (b - a) + k)) as ->.
  { rewrite <- uint64_sub_l, E, uint64_sub_l. unfold uint64_t, uint. rewrite Zplus_mod_idemp_l. f_equal. lia. }
  assert (uint64_t (a - b') = uint64_t (uint64_t (a - b) - k)) as ->.
  { rewrite <- uint64_sub_r, E, uint64_sub_r, uint64_sub_l. f_equal. lia. }
  assert (uint64_t (a - b) = 2 ^ 64 - uint64_t (b - a)) as Ey.
  { pose proof (uint64_range (a - b)). assert (0 < uint64_t (a - b)) by lia. replace (b - a) with (- (a - b)) by lia. cint. }
  pose proof (uint64_range (b - a)). pose proof (uint64_range (a - b)). rewrite (uint64_small (uint64_t (b - a) + k)), (uint64_small (uint64_t (a - b) - k)) by lia. lia.
Qed.

Lemma pushes_do l p s : Forall (fun r => is_reg r /\ r <> RSP) l -> (length l <= 64)%nat -> in_u 64 (xr s RSP) ->
  exists s', falls (emit_all (tcg_out_push <$> l)) p s s' /\ pushed (xr s RSP) l s s'.
Proof.
  revert p s. induction l as [|r l IH]; intros p s HF Hlen Hsp.
  - exists s. split; [apply falls_nil|]. split; [|done|done|done]. cbn. unfold uint64_t. by rewrite Z.sub_0_r, uint_id.
  - apply Forall_cons in HF as [[Hr Hn] HF]. cbn [fmap list_fmap emit_all]. cbn [length] in Hlen. set (sp := xr s RSP) in *.
    eapply falls_then; [by apply push_does|]. intros q. set (s1 := push s (uint64_t (xr s r))).
    assert (xr s1 RSP = uint64_t (sp - 8)) as E1 by done.
    assert (forall x, x <> RSP -> xr s1 x = xr s x) as E2 by (intros x Hx; cbn; by rewrite (proj2 (Z.eqb_neq x RSP))).
    assert (xm s1 = write_mem (xm s) 8 (uint64_t (sp - 8)) (uint64_t (xr s r))) as E3 by done.
    destruct (IH q s1 HF ltac:(lia) ltac:(rewrite E1; apply uint64_range)) as (s' & F & [P1 P2 P3 P4]). exists s'. split; [exact F|].
    rewrite E1 in P1, P3, P4. split.
    + rewrite P1, uint64_sub_l. cbn [length]. f_equal. lia.
    + intros x Hx. by rewrite P2, E2.
    + intros i r' Hi. destruct i as [|i]; cbn in Hi.
      * injection Hi as <-. rewrite P4.
        -- rewrite E3. unfold save_slot. change (sp - 8 * (Z.of_nat 0 + 1)) with (sp - 8). rewrite read_write_same by lia. unfold uint64_t. by rewrite uint_uint.
        -- destruct l as [|r' l]; [by left|right]. set (L := Z.of_nat (length (r' :: l))). assert (1 <= L < 64) by (unfold L; cbn [length] in *; lia).
           unfold apart, save_slot. change (8 * (Z.of_nat 0 + 1)) with 8. rewrite uint64_sub_r, !uint64_sub_l. change (Z.of_nat 8) with 8.
           replace (uint64_t (sp - 8) - 8 * L - (sp - 8)) with (uint64_t (sp - 8) - (sp - 8 + 8 * L)) by lia. rewrite uint64_sub_l.
           replace (sp - 8 - (sp - 8 + 8 * L)) with (- (8 * L)) by lia. rewrite uint64_neg by lia.
           replace (sp - 8 - (uint64_t (sp - 8) - 8 * L)) with (sp - 8 + 8 * L - uint64_t (sp - 8)) by lia. rewrite uint64_sub_r.
           replace (sp - 8 + 8 * L - (sp - 8)) with (8 * L) by lia. rewrite uint64_small by lia. lia.
      * specialize (P3 i r' Hi). rewrite E2 in P3 by (apply (Forall_lookup_1 _ _ _ _ HF Hi)). rewrite <- P3. f_equal. unfold save_slot.
        rewrite uint64_sub_l. f_equal. lia.
    + intros n a [|Ha]; [done|]. cbn [length] in Ha. set (L := Z.of_nat (length l)) in *. assert (0 <= L < 64) by lia.
      assert (Z.of_nat (S (length l)) = L + 1) as ES by lia. rewrite ES in Ha. destruct Ha as [A1 A2].
      rewrite P4, E3.
      * apply read_write_apart. apply (apart_within a (Z.of_nat n) (sp - 8 * (L + 1)) (8 * (L + 1)) (8 * L)); [done|lia..|].
        unfold uint64_t. rewrite uint_uint by lia. f_equal. lia.
      * destruct l as [|r' l']; [by left|right]. apply (apart_within a (Z.of_nat n) (sp - 8 * (L + 1)) (8 * (L + 1)) 0); [done|cbn [length] in L; lia..|].
        rewrite uint64_sub_l. f_equal. lia.
Qed.

(** ** Restoring them *)

(** The registers of [l] are loaded from the stack of [s]. *)
Record popped (l : list Z) (s s' : X86) : Prop := {
  po_sp : xr s' RSP = uint64_t (xr s RSP + 8 * Z.of_nat (length l));
  po_reg i r : l !! i = Some r -> xr s' r = uint64_t (read_mem (xm s) 8 (uint64_t (xr s RSP + 8 * Z.of_nat i)));
  po_other r : r ∉ l -> r <> RSP -> xr s' r = xr s r;
  po_mem : xm s' = xm s
}.

Lemma uint64_add_l x y : uint64_t (uint64_t x + y) = uint64_t (x + y).
Proof. unfold uint64_t, uint. by rewrite Zplus_mod_idemp_l. Qed.

Lemma pops_do l p s : Forall (fun r => is_reg r /\ r <> RSP) l -> NoDup l -> in_u 64 (xr s RSP) ->
  exists s', falls (emit_all (tcg_out_pop <$> l)) p s s' /\ popped l s s'.
Proof.
  revert p s. induction l as [|r l IH]; intros p s HF HN Hsp.
  - exists s. split; [apply falls_nil|]. split; [|done..]. cbn. by rewrite Z.add_0_r, uint64_small.
  - apply Forall_cons in HF as [[Hr Hn] HF]. apply NoDup_cons in HN as [HN1 HN]. cbn [fmap list_fmap emit_all].
    set (sp := xr s RSP) in *. eapply falls_then; [by apply pop_does|]. intros q.
    set (s1 := set_reg (pop s).2 r (uint64_t (pop s).1)).
    assert (xr s1 RSP = uint64_t (sp + 8)) as E1 by (unfold s1, pop, set_reg; cbn [xr fst snd]; by rewrite (proj2 (Z.eqb_neq RSP r))).
    assert (xr s1 r = uint64_t (read_mem (xm s) 8 sp)) as Er by (unfold s1, set_reg; cbn [xr]; by rewrite Z.eqb_refl).
    assert (forall x, x <> r -> x <> RSP -> xr s1 x = xr s x) as E2.
    { intros x Hx Hx'. unfold s1, pop, set_reg. cbn [xr fst snd]. by rewrite (proj2 (Z.eqb_neq x r)), (proj2 (Z.eqb_neq x RSP)). }
    destruct (IH q s1 HF HN ltac:(rewrite E1; apply uint64_range)) as (s' & F & [P1 P2 P3 P4]). exists s'. split; [exact F|].
    rewrite E1 in P1, P2. split.
    + rewrite P1, uint64_add_l. cbn [length]. f_equal. lia.
    + intros [|i] r' Hi; cbn in Hi.
      * injection Hi as <-. rewrite P3, Er by done. change (8 * Z.of_nat 0) with 0. by rewrite Z.add_0_r, (uint64_small (xr s RSP)).
      * rewrite (P2 i r' Hi), uint64_add_l. change (xm s1) with (xm s). do 3 f_equal. lia.
    + intros x Hx Hx'. apply not_elem_of_cons in Hx as [Hx1 Hx2]. by rewrite P3, E2.
    + exact P4.
Qed.

(** ** The prologue *)

Lemma callee_saved : Forall (fun r => is_reg r /\ r <> RSP) tcg_target_callee_save_regs.
Proof. repeat constructor; unfold is_reg; try lia; done. Qed.

Lemma callee_nodup : NoDup (reverse tcg_target_callee_save_regs).
Proof. apply (bool_decide_unpack _). by vm_compute. Qed.

(** Entering a block: the caller's registers are saved, the frame is reserved, r14 has the
    CPU state and control is at the block. *)
Record entered (s s' : X86) : Prop := {
  en_sp : xr s' RSP = uint64_t (xr s RSP - 48 - stack_addend);
  en_env : xr s' AREG0 = uint64_t (xr s RDI);
  en_reg r : r <> RSP -> r <> AREG0 -> xr s' r = xr s r;
  en_slot i r : tcg_target_callee_save_regs !! i = Some r -> read_mem (xm s') 8 (save_slot (xr s RSP) i) = uint64_t (xr s r);
  en_mem n a : apart a (Z.of_nat n) (xr s RSP - 48) 48 -> read_mem (xm s') n a = read_mem (xm s) n a
}.

Lemma jump_reg r p s : is_reg r -> does (tcg_out_modrm OPC_GRP5 EXT5_JMPN_Ev r) p s (uint64_t (xr s r)) s.
Proof.
  intros Hr. assert (typed_op OPC_GRP5 TCG_TYPE_I32 0xff 0) as [Ho _ _ _] by solve_typed.
  eapply insn_does_0; [by apply (modrm_decodes OPC_GRP5 EXT5_JMPN_Ev r 0 p)|]. by intros next.
Qed.

Lemma prologue_does p s : in_u 64 (xr s RSP) -> exists s', does tb_prologue p s (uint64_t (xr s RSI)) s' /\ entered s s'.
Proof.
  intros Hsp. unfold tb_prologue.
  destruct (pushes_do tcg_target_callee_save_regs p s callee_saved) as (s1 & F1 & [P1 P2 P3 P4]); [cbn; lia|done|].
  change (8 * Z.of_nat (length tcg_target_callee_save_regs)) with 48 in *.
  eapply does_then; [exact F1|]. intros q1.
  destruct (addi_does RSP (- stack_addend) q1 s1) as (s2 & F2 & [A1 A2 A3]); [done|rewrite P1; apply uint64_range|done|].
  eapply does_then; [exact F2|]. intros q2.
  destruct (mov_does TCG_TYPE_I64 AREG0 RDI q2 s2) as (s3 & F3 & [B1 B2 B3]); [done..|].
  eapply does_then; [exact F3|]. intros q3. exists s3.
  assert (forall r, r <> RSP -> r <> AREG0 -> xr s3 r = xr s r) as Hreg by (intros r H1 H2; by rewrite B2, A2, P2).
  split; [rewrite <- (Hreg RSI) by done; by apply jump_reg|]. split; [..|exact Hreg| |].
  - by rewrite B2, A1, P1, uint64_add_l.
  - rewrite B1. change (RDI =? AREG0) with false. cbv iota. by rewrite A2, P2.
  - intros i r Hi. rewrite B3, A3. by apply P3.
  - intros n a Ha. rewrite B3, A3. apply P4. by right.
Qed.

(** ** The epilogue *)

Lemma ret_does p s : does (tcg_out_opc OPC_RET 0 0 0) p s (pop s).1 (pop s).2.
Proof. eapply insn_does_0; [apply (plain_decodes OPC_RET 0); solve_modrm|]. by intros next. Qed.

(** The stack pointer is [sp] again, and [l] are the values that were saved. *)
Lemma epilogue_does p s sp ret : in_u 64 sp -> xr s RSP = uint64_t (sp - 48 - stack_addend) -> read_mem (xm s) 8 sp = ret ->
  exists s', does tb_epilogue p s ret s' /\ xr s' RSP = uint64_t (sp + 8) /\
    (forall i r, tcg_target_callee_save_regs !! i = Some r -> xr s' r = uint64_t (read_mem (xm s) 8 (save_slot sp i))) /\
    (forall r, r ∉ tcg_target_callee_save_regs -> r <> RSP -> xr s' r = xr s r) /\ xm s' = xm s.
Proof.
  intros Hsp E Hret. unfold tb_epilogue.
  destruct (addi_does RSP stack_addend p s) as (s1 & F1 & [A1 A2 A3]); [done|rewrite E; apply uint64_range|done|].
  rewrite E, uint64_add_l in A1. replace (sp - 48 - stack_addend + stack_addend) with (sp - 48) in A1 by lia.
  eapply does_then; [exact F1|]. intros q1.
  destruct (pops_do (reverse tcg_target_callee_save_regs) q1 s1) as (s2 & F2 & [P1 P2 P3 P4]).
  { apply Forall_reverse, callee_saved. } { exact callee_nodup. } { rewrite A1. apply uint64_range. }
  rewrite A1 in P1, P2. rewrite uint64_add_l in P1.
  change (8 * Z.of_nat (length (reverse tcg_target_callee_save_regs))) with 48 in P1. replace (sp - 48 + 48) with sp in P1 by lia.
  rewrite uint64_small in P1 by done.
  eapply does_then; [exact F2|]. intros q2. exists (pop s2).2.
  assert ((pop s2).1 = ret) as <- by (cbn; by rewrite P1, P4, A3).
  split; [apply ret_does|]. split_and!.
  - cbn. by rewrite P1.
  - intros i r Hi. assert (r <> RSP) as Hn by (apply (Forall_lookup_1 _ _ _ _ callee_saved Hi)).
    change (xr (pop s2).2 r) with (if r =? RSP then uint64_t (xr s2 RSP + 8) else xr s2 r). rewrite (proj2 (Z.eqb_neq r RSP)) by done. pose proof (lookup_lt_Some _ _ _ Hi) as Hlt. change (length _) with 6%nat in Hlt.
    rewrite (P2 (5 - i)%nat r), A3, uint64_add_l.
    + unfold save_slot. do 3 f_equal. lia.
    + rewrite reverse_lookup by (change (length tcg_target_callee_save_regs) with 6%nat; lia).
      change (length tcg_target_callee_save_regs) with 6%nat. replace (6 - S (5 - i))%nat with i by lia. done.
  - intros r Hr Hn. change (xr (pop s2).2 r) with (if r =? RSP then uint64_t (xr s2 RSP + 8) else xr s2 r).
    rewrite (proj2 (Z.eqb_neq r RSP)) by done. rewrite P3, A2; [done..| |done]. by rewrite elem_of_reverse.
  - cbn. by rewrite P4, A3.
Qed.

(** The code is there for every address, and the return address is above what is saved. *)
Lemma epilogue_code p : exists out, tb_epilogue p = Some out.
Proof.
  destruct (epilogue_does p (mkX86 (fun _ => uint64_t (0 - 48 - stack_addend)) None (fun _ => 0)) 0 _ ltac:(split; lia) eq_refl eq_refl) as (s' & (o & E & _) & _).
  by exists o.
Qed.

Lemma ret_apart x : apart x (Z.of_nat 8) (x - 48) 48.
Proof. unfold apart. replace (x - 48 - x) with (-48) by lia. replace (x - (x - 48)) with 48 by lia. vm_compute. split; congruence. Qed.
