(* ===== verification/X86Props.v ===== *)
(** * Properties of the x86-64 code generator

    The instructions are decoded as they were meant (X86Enc, X86Decode); operations with the
    operands of the constraint table compute their value (X86Ops); the branches of a block
    reach their labels and the block follows the instructions of the register allocator
    (X86Labels, X86Block); guest loads and stores access memory or make a request to the
    shadow store buffer (X86Guest, X86GuestProofs), with the inputs on which they do not;
    the prologue and the epilogue (X86Prologue). *)

From Stdlib Require Import String.
From S2P Require Import Prelude TcgIr TcgOptimize TcgLive TcgRegAlloc TcgTarget.
From S2P Require Import X86Enc X86Sem X86Decode X86Run X86Alu X86Shift X86Mem X86Jump X86Guest X86Gen X86Labels X86GuestProofs X86Ops X86StateOps X86Block X86Prologue.
Open Scope Z_scope.

(** ** Encoding *)

(** The opcodes with a ModRM byte that the emitters use, with the length of the immediate
    operand; those of [typed] also with REX.W. *)
Definition typed_opcodes : list (Z * nat) :=
  [(OPC_ARITH_EvIb, 1%nat); (OPC_ARITH_EvIz, 4%nat); (OPC_ARITH_GvEv, 0%nat); (OPC_ARITH_GvEv + 8 * ARITH_CMP, 0%nat);
   (OPC_IMUL_GvEv, 0%nat); (OPC_IMUL_GvEvIb, 1%nat); (OPC_IMUL_GvEvIz, 4%nat); (OPC_LEA, 0%nat);
   (OPC_MOVL_EvGv, 0%nat); (OPC_MOVL_GvEv, 0%nat); (OPC_MOVL_EvIz, 4%nat); (OPC_MOVSBL, 0%nat); (OPC_MOVSWL, 0%nat);
   (OPC_SHIFT_1, 0%nat); (OPC_SHIFT_Ib, 1%nat); (OPC_SHIFT_cl, 0%nat); (OPC_TESTL, 0%nat); (OPC_GRP3_Ev, 0%nat); (OPC_GRP5, 0%nat)].

Definition other_opcodes : list (Z * nat) :=
  [(OPC_MOVSLQ, 0%nat); (OPC_MOVZBL, 0%nat); (OPC_MOVZBL + P_REXB_RM, 0%nat); (OPC_MOVZWL, 0%nat); (OPC_MOVB_EvGv, 0%nat);
   (Z.lor OPC_MOVB_EvGv P_REXB_R, 0%nat); (Z.lor (Z.lor OPC_MOVB_EvGv P_REXB_R) P_REXB_RM, 0%nat);
   (Z.lor OPC_MOVL_EvGv P_DATA16, 0%nat); (OPC_SHIFT_Ib + P_DATA16, 1%nat); (OPC_MOVSBL + P_REXB_RM, 0%nat);
   (OPC_MOVSBL + P_REXB_RM + P_REXW, 0%nat)] ++
  ((fun k => (Z.lor OPC_SETCC (Z.of_nat k), 0%nat)) <$> seq 0 16).

Definition modrm_opcodes : list (Z * nat) :=
  typed_opcodes ++ ((fun '(opc, n) => (opc + P_REXW, n)) <$> typed_opcodes) ++ other_opcodes.

Lemma modrm_opcodes_ok : Forall (fun '(opc, n) => modrm_op opc n) modrm_opcodes.
Proof. repeat (constructor; [solve_modrm|]). constructor. Qed.

(** C31: Every instruction with a ModRM byte that [tcg_out_modrm] or
    [tcg_out_modrm_sib_offset] writes, with any of the opcodes of the target, any registers
    and any memory operand of a base, a scaled index and a 32-bit displacement, is decoded by
    the processor as that instruction: the operand size and byte registers are those that the
    prefixes ask for, r12, rsp, r13 and rbp as bases and absent bases or indices included;
    what follows it, immediate operand first, is left. *)
Theorem x86_encoding_roundtrip opc n r rm index shift offset p : (opc, n) ∈ modrm_opcodes -> is_reg r ->
  (is_reg rm -> exists out, tcg_out_modrm opc r rm p = Some out /\
     forall imm l l', take_signed n l = Some (imm, l') ->
       decode (out ++ l) = Some (mkInsn (opcode_of opc) (size_of opc) (needs_rex opc r rm 0) (has opc P_ADDR32) r (OReg rm) imm, l')) /\
  (rm < 16 -> index < 16 -> index <> 4 -> 0 <= rm \/ 0 <= index -> 0 <= shift < 4 ->
   exists out, tcg_out_modrm_sib_offset opc r rm index shift offset p = Some out /\
     forall imm l l', take_signed n l = Some (imm, l') ->
       decode (out ++ l) = Some (mkInsn (opcode_of opc) (size_of opc) (mem_rex opc r rm index) (has opc P_ADDR32) r
         (OMem (if rm <? 0 then None else Some rm) (if index <? 0 then None else Some (index, shift)) (int32_t offset)) imm, l')).
Proof.
  intros Hin Hr. assert (modrm_op opc n) as Ho by apply (proj1 (Forall_forall _ _) modrm_opcodes_ok _ Hin).
  split; intros; [by apply modrm_decodes|by apply mem_decodes].
Qed.

(** [lea 0x12345678(%r13,%r9,4), %r12], and [add %r15, %rbx]. *)
Lemma x86_encoding_roundtrip_witness :
  (exists out, tcg_out_modrm_sib_offset (OPC_LEA + P_REXW) 12 13 9 2 0x12345678 0 = Some out /\
    forall imm l l', take_signed 0 l = Some (imm, l') ->
      decode (out ++ l) = Some (mkInsn 0x8d 64 true false 12 (OMem (Some 13) (Some (9, 2)) 0x12345678) imm, l')) /\
  tcg_out_modrm_sib_offset (OPC_LEA + P_REXW) 12 13 9 2 0x12345678 0 = Some [0x4f; 0x8d; 0xa4; 0x8d; 0x78; 0x56; 0x34; 0x12].
Proof.
  split; [|vm_compute; reflexivity].
  apply (x86_encoding_roundtrip (OPC_LEA + P_REXW) 0 12 13 9 2 0x12345678 0); try lia.
  - apply list_elem_of_In. vm_compute. tauto.
  - vm_compute. split; congruence.
Defined.

(** ** Operations *)

Definition value_op (o : TCGOp) : bool := match o with op_un _ _ _ _ | op_bin _ _ _ _ _ => true | _ => false end.

(** C29: An operation with a value (negation, complement, extensions, addition, subtraction,
    multiplication, bitwise operations, shifts and rotations of 32 and 64 bits), on any
    registers and constants that the constraints of the x86-64 target allow, is written by
    [tcg_out_op] as code without branches which leaves in the output register the value that
    the operation has in the intermediate language, and changes no other register and no
    memory, wherever the code is placed. *)
Theorem x86_value_ops_correct {World} (other_sem : nat -> list Z -> list Z -> World -> option (effect World)) G tb_ret_addr o d ins :
  value_op o = true -> length ins = length (iargs o) -> conforms o d ins ->
  exists e, emit_op G tb_ret_addr o d ins = out e /\
    forall s v w p, react other_sem o (value_of s <$> ins) w = Some (Results [v] w) ->
      exists s', falls e p s s' /\ sets s s' (Z.of_nat d) v.
Proof.
  intros Hv Hl Hc. destruct o as [| | |u ty t0 t1|b ty t0 t1 t2| | | | | |]; try discriminate Hv.
  - destruct ins as [|x [|]]; try discriminate Hl. destruct (un_emits G tb_ret_addr u ty d x t0 t1 Hc) as (e & E & He).
    exists e. split; [exact E|]. intros s v w p [= <-]. by apply He.
  - destruct ins as [|x [|y [|]]]; try discriminate Hl. destruct (bin_emits G tb_ret_addr b ty d x y t0 t1 t2 Hc) as (e & E & He).
    exists e. split; [exact E|]. intros s v w p Hr. apply He. cbn in Hr. unfold bin_value.
    destruct (eval_bin _ _ _ _); [|done]. by injection Hr as ->.
Qed.

(** [r12 - 5] to [r12], 64 bits. *)
Definition sub_op : TCGOp := op_bin op_sub TCG_TYPE_I64 0 0 1.

(** An output tied to the first input, and a constant. *)
Lemma tied_conforms o d v c2 : constraint_of o 0 = mkArgCt 128 1 65535 -> constraint_of o 1 = tied -> constraint_of o 2 = c2 ->
  operand_ok (arg_ct_view tied) (Reg d) = true -> operand_ok (arg_ct_view c2) (Const v) = true -> ct_ialias (arg_ct_view c2) = false ->
  conforms o d [Reg d; Const v].
Proof.
  intros E0 E1 E2 Hd Hv Ha. assert (forall i, args_ct x86 o i = arg_ct_view (constraint_of o i)) as Hct by reflexivity.
  split; [rewrite Hct, E0; exact Hd| |].
  - intros [|[|k]] x Hx; [injection Hx as <-; rewrite Hct, E1; exact Hd|injection Hx as <-; rewrite Hct, E2; exact Hv|discriminate Hx].
  - intros [|[|k]] x Hx; [injection Hx as <-; reflexivity|injection Hx as <-; rewrite Hct, E2, Ha; discriminate|discriminate Hx].
Qed.

Lemma sub_op_conforms : conforms sub_op 12 [Reg 12; Const 5].
Proof. apply (tied_conforms _ _ _ (mkArgCt 257 0 65535)); vm_compute; reflexivity. Qed.

Definition some_conf : GuestConf := mkGuestConf 0 1000 1100 1104 1108 1200 1204 1208 0x400000 0x400100.

Lemma x86_value_ops_correct_witness :
  conforms sub_op 12 [Reg 12; Const 5] /\
  exists e, emit_op some_conf 0 sub_op 12 [Reg 12; Const 5] = out e /\
    forall s v (w : unit) p, react (fun _ _ _ _ => None) sub_op (value_of s <$> [Reg 12; Const 5]) w = Some (Results [v] w) ->
      exists s', falls e p s s' /\ sets s s' 12 v.
Proof.
  split; [exact sub_op_conforms|].
  exact (x86_value_ops_correct (fun _ _ _ _ => None) some_conf 0 sub_op 12 [Reg 12; Const 5] eq_refl eq_refl sub_op_conforms).
Defined.

(** C30: The other operations of [tcg_out_op] do on the processor what their definitions say:
    loads and stores of 1, 2, 4 and 8 bytes at a base register and an offset, with either
    extension; [setcond], with a register or a constant; the byte swaps; [deposit] of the
    three fields that the target supports; and [divu2] and [div2], with both results. *)
Theorem x86_state_ops_correct G ret d a b off p s : is_reg d -> is_reg a -> is_reg b -> off = int32_t off ->
  (forall name n sg ty, (name, (n, sg, ty)) ∈ load_ops -> exists e s', op_is G ret name [d; a; uint64_t off] [false; false; true] e /\ falls e p s s' /\
     sets s s' d (extended n sg ty (read_mem (xm s) n (based s a off)))) /\
  (forall name n, (name, n) ∈ store_ops -> exists e s', op_is G ret name [d; a; uint64_t off] [false; false; true] e /\ falls e p s s' /\
     stores s s' n (based s a off) (uint (8 * Z.of_nat n) (xr s d))) /\
  (forall ty cond y (const : bool), (if const then arith_const ty ARITH_CMP (int64_t y) else is_reg y) ->
     exists e s', op_is G ret ("setcond" ++ type_suffix ty) [d; a; y; cond_number cond] [false; false; const] e /\ falls e p s s' /\
     sets s s' d (b2z (tci_compare (bits ty) (uint (bits ty) (xr s a)) (uint (bits ty) (if const then int64_t y else xr s y)) cond))) /\
  ((forall ty, exists e s', op_is G ret ("bswap32" ++ type_suffix ty) [d; d] [false; false] e /\ falls e p s s' /\ sets s s' d (uint32_t (swap_bytes 4 (uint32_t (xr s d))))) /\
   (exists e s', op_is G ret "bswap64_i64" [d; d] [false; false] e /\ falls e p s s' /\ sets s s' d (uint64_t (swap_bytes 8 (uint64_t (xr s d))))) /\
   (forall ty, in_u 16 (xr s d) -> exists e s', op_is G ret ("bswap16" ++ type_suffix ty) [d; d] [false; false] e /\ falls e p s s' /\
      sets s s' d (Z.lor (Z.shiftl (uint8_t (xr s d)) 8) (Z.shiftr (xr s d) 8)))) /\
  (forall ty ofs len, d < 4 -> b < 4 -> (ofs, len) ∈ deposit_fields ->
     exists e s' v, op_is G ret ("deposit" ++ type_suffix ty) [d; d; b; ofs; len] [false; false; false; false; false] e /\ falls e p s s' /\
     sets s s' d v /\ uint (bits ty) v = deposit (bits ty) (uint (bits ty) (xr s d)) (uint (bits ty) (xr s b)) ofs len) /\
  (forall ty, let w := bits ty in let x := uint w (xr s 0) in let y := uint w (xr s b) in y <> 0 ->
     (uint w (xr s 2) = 0 -> exists e s', op_is G ret ("divu2" ++ type_suffix ty) [0; 2; 0; 2; b] [false; false; false; false; false] e /\ falls e p s s' /\
        divides s s' (x / y) (x mod y)) /\
     (uint w (xr s 2) = uint w (Z.shiftr (sint w x) (w - 1)) -> in_s w (Z.quot (sint w x) (sint w y)) ->
        exists e s', op_is G ret ("div2" ++ type_suffix ty) [0; 2; 0; 2; b] [false; false; false; false; false] e /\ falls e p s s' /\
        divides s s' (uint w (Z.quot (sint w x) (sint w y))) (uint w (Z.rem (sint w x) (sint w y))))).
Proof.
  intros Hd Ha Hb Ho. split_and!.
  - intros name n sg ty Hin. by apply (proj1 (Forall_forall _ _) (loads_right G ret) _ Hin).
  - intros name n Hin. by apply (proj1 (Forall_forall _ _) (stores_right G ret) _ Hin).
  - intros ty cond y const Hy. by apply setcond_op_does.
  - intros ty. by apply (bswap_op_does G ret d p s Hd).
  - apply (bswap_op_does G ret d p s Hd).
  - intros ty. apply (bswap_op_does G ret d p s Hd).
  - intros ty ofs len Hd4 Hb4 Hin. unfold is_reg in *. apply deposit_op_does; done || lia.
  - intros ty. by apply div_op_does.
Qed.

(** A state of the processor: register [r] has [r + 100], rdx has 0. *)
Definition some_state : X86 := mkX86 (fun r => if r =? 2 then 0 else r + 100) None (fun a => a mod 256).

Lemma x86_state_ops_correct_witness :
  exists e s', op_is some_conf 0 "divu2_i32" [0; 2; 0; 2; 3] [false; false; false; false; false] e /\ falls e 0 some_state s' /\
    divides some_state s' (100 / 103) (100 mod 103).
Proof.
  pose proof (x86_state_ops_correct some_conf 0 3 14 3 16 0 some_state) as (_ & _ & _ & _ & _ & H);
    [unfold is_reg; lia..|vm_compute; reflexivity|].
  apply (H TCG_TYPE_I32); vm_compute; congruence.
Defined.

(** ** Blocks *)

(** C28: A block in which the register allocator has chosen moves, constants, loads and stores
    of slots, operations with operands within the constraints, branches, labels and
    [exit_tb]: when [tcg_gen_code_common] writes it with the emitters of the target, every
    forward and backward branch patched, the processor runs the bytes of the buffer from its
    start as the allocator's instructions run: to the end of the block, with the values that
    they computed in the registers and slots, or to [tb_ret_addr], with the value of
    [exit_tb] in rax and the slots likewise. *)
Theorem x86_block_correct {World} C g call_sem (other_sem : nat -> list Z -> list Z -> World -> option (effect World)) G tb_ret_addr slots
    hc base c c' junk clock fuel (h h' : Host World) s exit :
  (forall v w, other_sem (INDEX_op "exit_tb") [v] [] w = Some (Leaves v w)) ->
  fresh base c -> gen_hosts G tb_ret_addr hc c = Some c' -> Forall (insn_ok C slots) hc -> closed_block hc -> small_block base (code_ptr c') ->
  related slots h s ->
  host_run C x86_table x86 g call_sem other_sem junk clock fuel hc 0 h = HFinished exit h' ->
  exists n s', match exit with
    | None => x86_steps n base (block_code base c') (base, s) = Some (code_ptr c', s') /\ related slots h' s'
    | Some code => x86_steps n base (block_code base c') (base, s) = Some (uint64_t tb_ret_addr, s') /\ exited slots code h' s'
    end.
Proof. intros. by eapply block_runs. Qed.

(** The loop: rbx := 2; l0: rbx := rbx - 1; if rbx <> 0 goto l0; if rbx = 0 goto l1; rbx := 9; l1: store rbx. *)
Definition loop_sub : TCGOp := op_bin op_sub TCG_TYPE_I32 0 0 1.
Definition loop_back : TCGOp := op_brcond TCG_TYPE_I32 0 1 TCG_COND_NE 0.
Definition loop_skip : TCGOp := op_brcond TCG_TYPE_I32 0 1 TCG_COND_EQ 1.

Definition loop_block : list HInsn :=
  [Hmovi TCG_TYPE_I32 3 2; Hlabel 0; Hop loop_sub [3%nat] [Reg 3; Const 1]; Hop loop_back [] [Reg 3; Const 0];
   Hop loop_skip [] [Reg 3; Const 0]; Hmovi TCG_TYPE_I32 3 9; Hlabel 1; Hst TCG_TYPE_I32 3 14 100].

Definition loop_slots : list (nat * Z * TCGType) := [(14%nat, 100, TCG_TYPE_I32)].
Definition loop_context : TCGContext := mkContext 0 2 (fun _ => TCG_TYPE_I32) (fun _ => true).
Definition loop_start : Ctx := mkCtx (fun _ => 0) 4096 4096 [first_reloc []; first_reloc []] 0 [0; 0] None.
Definition loop_host : Host unit := mkHost (fun r => xr some_state (Z.of_nat r)) (fun _ => read_mem (xm some_state) 4 214) tt.

Lemma loop_sub_conforms : conforms loop_sub 3 [Reg 3; Const 1].
Proof. apply (tied_conforms _ _ _ (mkArgCt 3 0 65535)); vm_compute; reflexivity. Qed.

Lemma loop_ok : Forall (insn_ok loop_context loop_slots) loop_block.
Proof.
  assert (reg_free loop_slots 3) as H3 by (split; [lia|]; intros (off & w & Hin); apply list_elem_of_singleton in Hin; discriminate).
  assert (forall o i c, constraint_of o i = c -> args_ct x86 o i = arg_ct_view c) as Hv by (intros o i c <-; reflexivity).
  assert (forall o, o = loop_back \/ o = loop_skip -> constraint_of o 0 = any_reg /\ constraint_of o 1 = mkArgCt 3 0 65535) as Hbr
    by (intros o [-> | ->]; split; vm_compute; reflexivity).
  assert (forall o, o = loop_back \/ o = loop_skip -> operand_ok (args_ct x86 o 0) (Reg 3) = true /\ operand_ok (args_ct x86 o 1) (Const 0) = true) as Hargs.
  { intros o Ho. destruct (Hbr o Ho) as [E0 E1]. rewrite (Hv _ _ _ E0), (Hv _ _ _ E1). split; reflexivity. }
  repeat (apply Forall_cons; split); try apply Forall_nil; try exact I; try exact H3.
  - split; [exact loop_sub_conforms|split; [reflexivity|apply H3]].
  - destruct (Hargs loop_back ltac:(by left)). split_and!; [assumption|assumption|reflexivity].
  - destruct (Hargs loop_skip ltac:(by right)). split_and!; [assumption|assumption|reflexivity].
  - split_and!; [lia|lia|vm_compute; reflexivity|apply list_elem_of_singleton; reflexivity].
Qed.

Lemma loop_related : related loop_slots loop_host some_state.
Proof.
  split; [done|..].
  - intros b off w Hin. apply list_elem_of_singleton in Hin. injection Hin as -> -> ->. vm_compute. reflexivity.
  - intros b off w b' off' w' H1 H2. apply list_elem_of_singleton in H1, H2. left. congruence.
Qed.

Lemma loop_closed : closed_block loop_block.
Proof.
  intros i k Hin Ht. assert (k = 0%nat \/ k = 1%nat) as [-> | ->].
  { repeat (apply elem_of_cons in Hin as [->|Hin]; [try discriminate Ht; injection Ht as <-; auto|]). by apply not_elem_of_nil in Hin. }
  - by right; left.
  - by do 6 right; left.
Qed.

Lemma loop_length : code_ptr <$> gen_hosts some_conf 0 loop_block loop_start = Some 4124.
Proof. vm_compute. reflexivity. Qed.

Definition loop_exit (opc : nat) (consts ins : list Z) (w : unit) : option (effect unit) := Some (Leaves (nth 0 consts 0) w).
Definition no_temp : nat -> TCGTemp := fun _ => mkTemp TEMP_VAL_DEAD 0 0 0 0 false false false.

Lemma loop_run : exists h' : Host unit,
  host_run loop_context x86_table x86 no_temp (fun _ _ _ _ => None) loop_exit (fun _ _ => 0) 0 20 loop_block 0 loop_host = HFinished None h' /\
  hmem h' (14%nat, 100) = 0.
Proof.
  set (r := host_run _ _ _ _ _ _ _ _ _ _ _ _).
  assert (match r with HFinished None h' => hmem h' (14%nat, 100) = 0 | _ => False end) as H by (vm_compute; reflexivity).
  clearbody r. destruct r as [[code|] h'| |]; try done. by exists h'.
Qed.

Lemma x86_block_correct_witness : exists c' (h' : Host unit) n s',
  gen_hosts some_conf 0 loop_block loop_start = Some c' /\
  x86_steps n 4096 (block_code 4096 c') (4096, some_state) = Some (code_ptr c', s') /\ related loop_slots h' s' /\ hmem h' (14%nat, 100) = 0.
Proof.
  assert (exists c', gen_hosts some_conf 0 loop_block loop_start = Some c' /\ code_ptr c' = 4124) as (c' & Ec & Ep).
  { destruct (fmap_Some_1 code_ptr _ _ loop_length) as (c' & Ec & Ep). exists c'. split; [exact Ec|symmetry; exact Ep]. }
  destruct loop_run as (h' & Eh & Em).
  destruct (x86_block_correct loop_context no_temp (fun _ _ _ _ => None) loop_exit some_conf 0
    loop_slots loop_block 4096 loop_start c' (fun _ _ => 0) 0 20 loop_host h' some_state None) as (n & s' & E & R).
  - reflexivity.
  - split; [reflexivity|]. intros [|[|l]] x Hx; [by injection Hx|by injection Hx|discriminate Hx].
  - exact Ec.
  - exact loop_ok.
  - exact loop_closed.
  - rewrite Ep. unfold small_block. lia.
  - exact loop_related.
  - exact Eh.
  - exists c', h', n, s'. by split_and!.
Defined.

(** ** Guest accesses *)

(** What the function of the shadow store buffer finds when it is called: the CPU state as its
    argument, and the size and address of the access in the request. *)
Record load_called (G : GuestConf) (s s1 : X86) (a sizeop : Z) : Prop := {
  lc_env : xr s1 RDI = uint64_t (xr s AREG0);
  lc_size : read_mem (xm s1) 4 (field s (off_ld_size G)) = 2 ^ (sizeop mod 4);
  lc_linear : read_mem (xm s1) 4 (field s (off_ld_linear G)) = uint32_t a;
  lc_regs r : r ∉ [RDI; RSI; RDX; 10; RSP] -> xr s1 r = xr s r
}.

Record store_called (G : GuestConf) (s s1 : X86) (a v sizeop : Z) : Prop := {
  sc_env : xr s1 RDI = uint64_t (xr s AREG0);
  sc_size : read_mem (xm s1) 4 (field s (off_st_size G)) = 2 ^ sizeop;
  sc_data : read_mem (xm s1) 4 (field s (off_st_databytes G)) = uint32_t v;
  sc_linear : read_mem (xm s1) 4 (field s (off_st_linear G)) = uint32_t a;
  sc_regs r : r ∉ [RDI; RSI; RDX; 10; RSP] -> xr s1 r = xr s r
}.

Lemma push_reg s v r : r <> RSP -> xr (push s v) r = xr s r.
Proof. intros Hr. unfold push, set_reg. cbn [xr]. by rewrite (proj2 (Z.eqb_neq r RSP)). Qed.

Lemma load_requested G s s1 base sizeop q : requests_apart G s -> load_size sizeop -> load_request G s s1 base (GUEST_BASE G) sizeop ->
  load_called G s (push s1 q) (xr s base + GUEST_BASE G) sizeop.
Proof.
  intros HA Hsz Hreq. destruct (load_request_fields G s s1 base _ sizeop q HA Hsz Hreq) as [F1 F2]. split; [|done|done|].
  - rewrite push_reg by done. apply Hreq.
  - intros r Hr. rewrite push_reg by set_solver. apply Hreq. set_solver.
Qed.

Lemma store_requested G s s1 datalo base sizeop q : requests_apart G s -> store_size sizeop -> store_request G s s1 datalo base (GUEST_BASE G) sizeop ->
  store_called G s (push s1 q) (xr s base + GUEST_BASE G) (xr s datalo) sizeop.
Proof.
  intros HA Hsz Hreq. destruct (store_request_fields G s s1 datalo base _ sizeop q HA Hsz Hreq) as (F1 & F2 & F3). split; [|done|done|done|].
  - rewrite push_reg by done. apply Hreq.
  - intros r Hr. rewrite push_reg by set_solver. apply Hreq. set_solver.
Qed.

(** C9: The code of a guest access, with address and data in registers other than rdi, rsi
    and rdx.  On the main core ([IsPCore] zero) a load leaves in the data register the bytes
    at the guest address, extended as the operation asks, and a store writes the low bytes of
    the data register there; on the prefetch core the code does not touch guest memory: it
    calls [esesc_shadow_load_process] or [esesc_shadow_store_process] with the CPU state,
    which finds the size, the address and the data in the request; and when the call of a
    load returns, wherever the return address was pushed, the data register gets the bytes
    that were left in the request, extended likewise. *)
Theorem guest_access_code G stale datalo base p s :
  conf_ok G -> base_fits G -> 0 <= p -> code_at (p + 600) -> operand_reg base -> operand_reg datalo -> requests_apart G s ->
  (forall sizeop, load_size sizeop ->
    (IsPCore G s = 0 -> exists s', falls (tcg_out_qemu_ld G datalo base sizeop) p s s' /\
       xr s' datalo = load_value sizeop (xm s) (uint64_t (xr s base + GUEST_BASE G)) /\ keeps [RDI; RDX; datalo] s s') /\
    (IsPCore G s <> 0 -> exists out q s1, tcg_out_qemu_ld G datalo base sizeop p = Some out /\
       runs out p s (uint64_t (esesc_shadow_load_process G)) (push s1 q) /\ load_called G s (push s1 q) (xr s base + GUEST_BASE G) sizeop /\
       forall s2, exists s3, resumes out p q s2 (p + Z.of_nat (length out)) s3 /\
         xr s3 datalo = load_value sizeop (xm s2) (field s2 (off_ld_databytes G)) /\ keeps [RDI; datalo] s2 s3)) /\
  (forall sizeop, store_size sizeop ->
    (IsPCore G s = 0 -> exists s', falls (tcg_out_qemu_st G stale datalo base sizeop) p s s' /\
       xm s' = write_mem (xm s) (store_bytes sizeop) (uint64_t (xr s base + GUEST_BASE G)) (uint (8 * Z.of_nat (store_bytes sizeop)) (xr s datalo)) /\
       forall r, r <> RDI -> r <> RDX -> xr s' r = xr s r) /\
    (IsPCore G s <> 0 -> exists out s1, tcg_out_qemu_st G stale datalo base sizeop p = Some out /\
       runs out p s (uint64_t (esesc_shadow_store_process G)) s1 /\
       read_mem (xm s1) 8 (xr s1 RSP) = uint64_t (p + Z.of_nat (length out)) /\
       store_called G s s1 (xr s base + GUEST_BASE G) (xr s datalo) sizeop)).
Proof.
  intros HG HB Hp0 Hp Hbase Hdata HA. pose proof (proj1 Hdata) as Hd. split; intros sizeop Hsz; split; intros H0.
  - by apply ld_main.
  - destruct (ld_prefetch G datalo base sizeop p s HG HB Hp Hp0 Hsz Hd Hbase H0) as (out & q & s1 & E & R & Hreq & Hres).
    exists out, q, s1. split_and!; [done|done|by apply load_requested|done].
  - by apply st_main.
  - destruct (st_prefetch G stale datalo base sizeop p s HG HB Hp Hp0 Hsz Hdata Hbase H0) as (out & s1 & E & R & Hreq).
    exists out, (push s1 (p + Z.of_nat (length out))). split_and!; [done|done| |by apply store_requested].
    unfold push. cbn [xm xr set_reg]. rewrite Z.eqb_refl, read_write_same by lia. done.
Qed.

Lemma some_conf_ok : conf_ok some_conf.
Proof. split; vm_compute; repeat split; congruence. Qed.

(** The same, with [IsPCore] set. *)
Definition prefetch_state : X86 := mkX86 (xr some_state) None (write_mem (fun _ => 0) 4 1114 1).

Lemma some_requests s : xr s = xr some_state -> requests_apart some_conf s.
Proof. intros E. split; unfold field; rewrite E; vm_compute; split; congruence. Qed.

Lemma guest_access_code_witness :
  IsPCore some_conf prefetch_state <> 0 /\
  exists out s1, tcg_out_qemu_st some_conf (fun _ => 0) 3 5 2 4096 = Some out /\
    runs out 4096 prefetch_state (uint64_t 0x400100) s1 /\ store_called some_conf prefetch_state s1 (105 + 0) 103 2.
Proof.
  assert (IsPCore some_conf prefetch_state <> 0) as H0 by (vm_compute; congruence). split; [exact H0|].
  destruct (guest_access_code some_conf (fun _ => 0) 3 5 4096 prefetch_state) as [_ H];
    [exact some_conf_ok|vm_compute; reflexivity|lia|unfold code_at; lia|unfold operand_reg, is_reg, RDI, RSI, RDX; lia..|by apply some_requests|].
  destruct (H 2 ltac:(unfold store_size; auto)) as [_ H2]. destruct (H2 H0) as (out & s1 & E & R & _ & S). by exists out, s1.
Defined.

(** The entry of an argument of a guest access in the table of constraints. *)
Definition access_constraint (name : string) (i : nat) : ArgConstraint := constraint_of (op_other (INDEX_op name) true [] [] []) i.

(** C33: Where the code of a guest access goes wrong.  The constraint of the address operand
    of [qemu_ld8u] and of the data operand of [qemu_st8] allows rdx, and a load with its
    address in rdx loads from [GUEST_BASE] whatever the address was, since the test of
    [IsPCore] clears rdx first; with a [GUEST_BASE] that does not fit in 32 bits every load
    returns bytes of the field [IsPCore], since the address is kept in rdi and the test
    overwrites it; and an eight-byte store of the prefetch core jumps by the byte that was in
    the code buffer before, since its displacement is never written. *)
Theorem guest_access_limits G stale datalo base sizeop p s :
  conf_ok G -> 0 <= p -> code_at (p + 600) -> is_reg datalo -> is_reg base -> load_size sizeop -> (forall a, in_u 8 (stale a)) ->
  tcg_regset_test_reg (u_regs (access_constraint "qemu_ld8u" 1)) 2 = true /\
  tcg_regset_test_reg (u_regs (access_constraint "qemu_st8" 0)) 2 = true /\
  (base_fits G -> IsPCore G s = 0 -> exists s', falls (tcg_out_qemu_ld G datalo RDX sizeop) p s s' /\
     xr s' datalo = load_value sizeop (xm s) (uint64_t (GUEST_BASE G))) /\
  (~ base_fits G -> IsPCore G s = 0 -> exists s', falls (tcg_out_qemu_ld G datalo base sizeop) p s s' /\
     xr s' datalo = load_value sizeop (xm s) (field s (off_IsPCore G))) /\
  (base_fits G -> IsPCore G s <> 0 -> exists q s1, p < q /\ keeps [RDI; RDX] s s1 /\
     does (tcg_out_qemu_st G stale datalo base 3) p s (uint64_t (q + 1 + int8_t (stale q))) s1).
Proof.
  intros HG Hp0 Hp Hd Hb Hsz Hst. split_and!.
  - vm_compute. reflexivity.
  - vm_compute. reflexivity.
  - intros HB H0. by apply ld_rdx.
  - intros HB H0. by apply ld_far_base.
  - intros HB H0. by apply st64_prefetch.
Qed.

(** The byte at the address in rdx is 9; the byte at [GUEST_BASE] is 7. *)
Definition rdx_state : X86 := mkX86 (fun r => r + 100) None (fun a => if a =? 0 then 7 else if a =? 102 then 9 else 0).

Lemma guest_access_limits_witness :
  exists s', falls (tcg_out_qemu_ld some_conf 3 RDX 0) 4096 rdx_state s' /\ xr s' 3 = 7 /\
    read_mem (xm rdx_state) 1 (uint64_t (xr rdx_state RDX + GUEST_BASE some_conf)) = 9.
Proof.
  destruct (guest_access_limits some_conf (fun _ => 0) 3 5 0 4096 rdx_state) as (_ & _ & H & _);
    [exact some_conf_ok|lia|unfold code_at; lia|unfold is_reg; lia..|unfold load_size; auto|intros a; split; lia|].
  destruct H as (s' & F & E); [vm_compute; reflexivity|vm_compute; reflexivity|]. exists s'. split; [exact F|].
  split; [rewrite E; vm_compute; reflexivity|vm_compute; reflexivity].
Defined.

(** ** The prologue and the epilogue *)

(** A state with which a block comes back: the stack pointer that it was entered with, and
    the saved registers and the return address where they were. *)
Record comes_back (s s1 s2 : X86) : Prop := {
  cb_sp : xr s2 RSP = xr s1 RSP;
  cb_slots i : (i < 6)%nat -> read_mem (xm s2) 8 (save_slot (xr s RSP) i) = read_mem (xm s1) 8 (save_slot (xr s RSP) i);
  cb_ret : read_mem (xm s2) 8 (xr s RSP) = read_mem (xm s1) 8 (xr s RSP)
}.

(** Registers of 64 bits. *)
Definition word_state : X86 := mkX86 (fun r => uint64_t (r + 100)) None (fun a => a mod 256).

(** C32: The code of [tcg_target_qemu_prologue], at any address: called with the CPU state and
    the address of a block, it saves the six registers that the caller expects back, reserves
    the frame, sets r14 to the CPU state and jumps to the block with the other registers and
    the memory above the stack pointer unchanged; and when any block comes back to
    [tb_ret_addr] with the stack pointer restored and the saved words untouched, the code
    returns to its caller with these registers, the stack pointer past the return address,
    and rax, the other registers and memory as the block left them. *)
Theorem prologue_epilogue p s : (forall r, in_u 64 (xr s r)) ->
  exists code tb_ret_addr s1, tcg_target_qemu_prologue p = Some (code, tb_ret_addr) /\
    runs code p s (uint64_t (xr s RSI)) s1 /\ xr s1 AREG0 = xr s RDI /\ xr s1 RSP = uint64_t (xr s RSP - 48 - stack_addend) /\
    (forall r, r <> RSP -> r <> AREG0 -> xr s1 r = xr s r) /\
    (forall n a, apart a (Z.of_nat n) (xr s RSP - 48) 48 -> read_mem (xm s1) n a = read_mem (xm s) n a) /\
    forall s2, comes_back s s1 s2 -> exists s3,
      resumes code p tb_ret_addr s2 (read_mem (xm s) 8 (xr s RSP)) s3 /\ xr s3 RSP = uint64_t (xr s RSP + 8) /\
      (forall r, r ∈ tcg_target_callee_save_regs -> xr s3 r = xr s r) /\
      (forall r, r ∉ tcg_target_callee_save_regs -> r <> RSP -> xr s3 r = xr s2 r) /\ xm s3 = xm s2.
Proof.
  intros Hu. pose proof (Hu RSP) as Hsp. destruct (prologue_does p s Hsp) as (s1 & (o1 & E1 & R1) & [P1 P2 P3 P4 P5]).
  destruct (epilogue_code (p + Z.of_nat (length o1))) as [o2 E2].
  exists (o1 ++ o2), (p + Z.of_nat (length o1)), s1. split_and!; [|by apply runs_jump|by rewrite P2; apply uint64_small, Hu|done|done|done|].
  { unfold tcg_target_qemu_prologue. rewrite E1. cbn [mbind option_bind]. rewrite E2. reflexivity. }
  intros s2 [C1 C2 C3].
  destruct (epilogue_does (p + Z.of_nat (length o1)) s2 (xr s RSP) (read_mem (xm s) 8 (xr s RSP)) Hsp) as (s3 & (o3 & E3 & R3) & F1 & F2 & F3 & F4).
  { by rewrite C1, P1. } { rewrite C3, P5; [done|apply ret_apart]. }
  rewrite E2 in E3. injection E3 as <-. exists s3. split_and!; [by apply resumes_skip, resumes_start|done| |done|done].
  intros r Hr. apply list_elem_of_lookup_1 in Hr as [i Hi]. rewrite (F2 i r Hi), C2, (P4 i r Hi) by (apply lookup_lt_Some in Hi; exact Hi).
  unfold uint64_t. rewrite uint_uint by lia. apply uint_id, Hu.
Qed.

(** A block that does nothing but come back. *)
Lemma prologue_epilogue_witness : exists code tb_ret_addr s1,
  tcg_target_qemu_prologue 4096 = Some (code, tb_ret_addr) /\ runs code 4096 word_state 106 s1 /\
  exists s3, resumes code 4096 tb_ret_addr s1 (read_mem (xm word_state) 8 104) s3 /\ xr s3 RSP = 112 /\ xr s3 15 = 115.
Proof.
  destruct (prologue_epilogue 4096 word_state) as (code & q & s1 & E & R & _ & _ & _ & _ & H).
  - intros r. apply uint64_range.
  - exists code, q, s1. split; [exact E|]. split; [exact R|].
    destruct (H s1) as (s3 & R3 & E3 & Er & _); [split; reflexivity|]. exists s3. split; [exact R3|].
    split; [rewrite E3; vm_compute; reflexivity|]. rewrite Er; [vm_compute; reflexivity|]. apply list_elem_of_In. vm_compute. tauto.
Defined.
