(* ===== verification/TcgTemps.v ===== *)
(** * Globals, temporaries and labels of TCG

    Model of the operations with which a front end fills the context of the code generator
    (src/emul/qemu/tcg/tcg.c): the globals ([tcg_global_reg_new_internal],
    [tcg_global_mem_new_internal]), the start of a block ([tcg_func_start]), the temporaries
    with their four lists of free ones, threaded through the array of temporaries
    ([tcg_temp_new_internal], [tcg_temp_free_internal]), and labels ([gen_new_label]); then
    the globals of the ARM front end (target-arm/translate.c).

    The host has 64 bits.  [tcg_abort] and failed assertions are [None]; the index -1 is
    [None] as well. *)

From S2P Require Import Prelude TcgIr TcgRegAlloc TcgTarget.
Open Scope Z_scope.

Definition TCG_MAX_TEMPS : nat := 512.
Definition TCG_MAX_LABELS : nat := 512.

(** The fields of a temporary that the front end sets. *)
Record TempInfo := mkInfo {
  base_type : TCGType;
  type : TCGType;
  info_fixed_reg : bool;
  info_reg : nat;
  info_mem_reg : nat;
  info_mem_offset : Z;
  info_mem_allocated : bool;
  info_temp_local : bool;
  temp_allocated : bool;
  next_free_temp : option nat }.

(** A temporary after [memset] has cleared the context. *)
Definition zero_temp : TempInfo := mkInfo TCG_TYPE_I32 TCG_TYPE_I32 false 0 0 0 false false false (Some 0%nat).

#[global] Instance TempInfo_inhabited : Inhabited TempInfo := populate zero_temp.

Record Context := mkCtx {
  ctx_temps : list TempInfo;
  ctx_nb_globals : nat;
  ctx_nb_temps : nat;
  first_free_temp : list (option nat);
  ctx_reserved_regs : Z;
  nb_labels : nat }.

Definition tcg_context_init : Context :=
  mkCtx (replicate TCG_MAX_TEMPS zero_temp) 0 0 (replicate 4 (Some 0%nat)) x86_reserved_regs 0.

Definition tcg_temp_alloc (n : nat) : option unit := if (TCG_MAX_TEMPS <? n)%nat then None else Some ().

(** ** Globals *)

Definition tcg_global_reg_new_internal (ty : TCGType) (reg : nat) (s : Context) : option (nat * Context) :=
  if tcg_regset_test_reg (ctx_reserved_regs s) reg then None
  else
    let idx := ctx_nb_globals s in
    _ ← tcg_temp_alloc (S idx);
    let ts := ctx_temps s !!! idx in
    let ts' := mkInfo ty ty true reg (info_mem_reg ts) (info_mem_offset ts) (info_mem_allocated ts)
      (info_temp_local ts) (temp_allocated ts) (next_free_temp ts) in
    Some (idx, mkCtx (<[idx := ts']> (ctx_temps s)) (S idx) (ctx_nb_temps s) (first_free_temp s)
      (tcg_regset_set_reg (ctx_reserved_regs s) reg) (nb_labels s)).

Definition tcg_global_mem_new_internal (ty : TCGType) (reg : nat) (offset : Z) (s : Context) : option (nat * Context) :=
  let idx := ctx_nb_globals s in
  _ ← tcg_temp_alloc (S idx);
  let ts := ctx_temps s !!! idx in
  let ts' := mkInfo ty ty false (info_reg ts) reg offset true (info_temp_local ts) (temp_allocated ts) (next_free_temp ts) in
  Some (idx, mkCtx (<[idx := ts']> (ctx_temps s)) (S idx) (ctx_nb_temps s) (first_free_temp s)
    (ctx_reserved_regs s) (nb_labels s)).

(** ** A block *)

Definition tcg_func_start (s : Context) : Context :=
  mkCtx (ctx_temps s) (ctx_nb_globals s) (ctx_nb_globals s) (replicate 4 None) (ctx_reserved_regs s) 0.

(** [k = type; if (temp_local) k += TCG_TYPE_COUNT;] *)
Definition free_kind (ty : TCGType) (temp_local : bool) : nat :=
  (match ty with TCG_TYPE_I32 => 0 | TCG_TYPE_I64 => 1 end + if temp_local then 2 else 0)%nat.

Definition tcg_temp_new_internal (ty : TCGType) (temp_local : bool) (s : Context) : option (nat * Context) :=
  let k := free_kind ty temp_local in
  match first_free_temp s !!! k with
  | Some idx =>
      let ts := ctx_temps s !!! idx in
      let ts' := mkInfo (base_type ts) (type ts) (info_fixed_reg ts) (info_reg ts) (info_mem_reg ts) (info_mem_offset ts)
        (info_mem_allocated ts) (info_temp_local ts) true (next_free_temp ts) in
      if negb (Bool.eqb (info_temp_local ts) temp_local) then None
      else
        Some (idx, mkCtx (<[idx := ts']> (ctx_temps s)) (ctx_nb_globals s) (ctx_nb_temps s)
          (<[k := next_free_temp ts]> (first_free_temp s)) (ctx_reserved_regs s) (nb_labels s))
  | None =>
      let idx := ctx_nb_temps s in
      _ ← tcg_temp_alloc (S idx);
      let ts := ctx_temps s !!! idx in
      let ts' := mkInfo ty ty (info_fixed_reg ts) (info_reg ts) (info_mem_reg ts) (info_mem_offset ts)
        (info_mem_allocated ts) temp_local true (next_free_temp ts) in
      Some (idx, mkCtx (<[idx := ts']> (ctx_temps s)) (ctx_nb_globals s) (S idx)
        (first_free_temp s) (ctx_reserved_regs s) (nb_labels s))
  end.

Definition tcg_temp_free_internal (idx : nat) (s : Context) : option Context :=
  if negb ((ctx_nb_globals s <=? idx)%nat && (idx <? ctx_nb_temps s)%nat) then None
  else
    let ts := ctx_temps s !!! idx in
    if negb (temp_allocated ts) then None
    else
      let k := free_kind (base_type ts) (info_temp_local ts) in
      let ts' := mkInfo (base_type ts) (type ts) (info_fixed_reg ts) (info_reg ts) (info_mem_reg ts) (info_mem_offset ts)
        (info_mem_allocated ts) (info_temp_local ts) false (first_free_temp s !!! k) in
      Some (mkCtx (<[idx := ts']> (ctx_temps s)) (ctx_nb_globals s) (ctx_nb_temps s)
        (<[k := Some idx]> (first_free_temp s)) (ctx_reserved_regs s) (nb_labels s)).

Definition gen_new_label (s : Context) : option (nat * Context) :=
  if (TCG_MAX_LABELS <=? nb_labels s)%nat then None
  else Some (nb_labels s, mkCtx (ctx_temps s) (ctx_nb_globals s) (ctx_nb_temps s) (first_free_temp s)
    (ctx_reserved_regs s) (S (nb_labels s))).

(** ** What the passes read of the context *)

Definition ir_context (s : Context) : TCGContext :=
  {| nb_globals := ctx_nb_globals s; nb_temps := ctx_nb_temps s;
     temp_type t := type (ctx_temps s !!! t);
     temp_local t := info_temp_local (ctx_temps s !!! t) |}.

Definition alloc_temps (s : Context) (t : nat) : TCGTemp :=
  let ts := ctx_temps s !!! t in
  mkTemp TEMP_VAL_DEAD (info_reg ts) 0 (info_mem_reg ts) (info_mem_offset ts) (info_fixed_reg ts) false (info_mem_allocated ts).

(** ** The globals of the ARM front end *)

(** The fields of [CPUState] that are globals; where they are is up to the compiler. *)
Inductive field :=
  | regs (i : nat)
  | exclusive_addr | exclusive_val | exclusive_high | exclusive_test | exclusive_info
  | xtrace_op_tp | xtrace_op_cnt | op_cnt | insn_cnt | op_insn | op_data | op_addr | op_pc.

#[global] Instance field_eq_dec : EqDecision field.
Proof. solve_decision. Defined.

(** The array [regs] has elements of four bytes. *)
Definition field_offset (offsetof : field -> Z) (f : field) : Z :=
  match f with regs i => offsetof (regs 0) + 4 * Z.of_nat i | _ => offsetof f end.

Fixpoint mem_globals (offsetof : field -> Z) (l : list (TCGType * field)) (s : Context) : option Context :=
  match l with
  | [] => Some s
  | (ty, f) :: l =>
      '(_, s) ← tcg_global_mem_new_internal ty TCG_AREG0 (field_offset offsetof f) s;
      mem_globals offsetof l s
  end.

Definition arm_fields : list (TCGType * field) :=
  ((fun i => (TCG_TYPE_I32, regs i)) <$> seq 0 16) ++
  [(TCG_TYPE_I32, exclusive_addr); (TCG_TYPE_I32, exclusive_val); (TCG_TYPE_I32, exclusive_high);
   (TCG_TYPE_I32, exclusive_test); (TCG_TYPE_I32, exclusive_info)].

Definition arm_translate_init (offsetof : field -> Z) (s : Context) : option Context :=
  '(_, s) ← tcg_global_reg_new_internal TCG_TYPE_I64 TCG_AREG0 s;
  mem_globals offsetof arm_fields s.

Definition esesc_fields : list (TCGType * field) :=
  [(TCG_TYPE_I64, xtrace_op_tp); (TCG_TYPE_I32, xtrace_op_cnt); (TCG_TYPE_I32, op_cnt); (TCG_TYPE_I32, insn_cnt);
   (TCG_TYPE_I64, op_insn); (TCG_TYPE_I64, op_data); (TCG_TYPE_I64, op_addr); (TCG_TYPE_I64, op_pc)].

Definition arm_translate_init_esescqueue (offsetof : field -> Z) (s : Context) : option Context :=
  mem_globals offsetof esesc_fields s.

(** As [cpu_arm_init] calls them. *)
Definition arm_globals (offsetof : field -> Z) : option Context :=
  s ← arm_translate_init offsetof tcg_context_init; arm_translate_init_esescqueue offsetof s.

(** ** The pool of temporaries *)

(** The list of temporaries from [p] on. *)
Fixpoint chain (ts : list TempInfo) (p : option nat) (l : list nat) : Prop :=
  match l with
  | [] => p = None
  | i :: l => p = Some i /\ chain ts (next_free_temp (ts !!! i)) l
  end.

Definition kind_of (t : TempInfo) : nat := free_kind (base_type t) (info_temp_local t).

(** [free k] is the list of the free temporaries of kind [k]. *)
Record pool (s : Context) (free : nat -> list nat) : Prop := {
  pl_size : length (ctx_temps s) = TCG_MAX_TEMPS;
  pl_lists : length (first_free_temp s) = 4%nat;
  pl_bounds : (ctx_nb_globals s <= ctx_nb_temps s <= TCG_MAX_TEMPS)%nat;
  pl_chain k : (k < 4)%nat -> chain (ctx_temps s) (first_free_temp s !!! k) (free k);
  pl_free k i : i ∈ free k <-> (ctx_nb_globals s <= i < ctx_nb_temps s)%nat /\
    temp_allocated (ctx_temps s !!! i) = false /\ kind_of (ctx_temps s !!! i) = k;
  pl_once k : NoDup (free k);
  pl_type i : (ctx_nb_globals s <= i < ctx_nb_temps s)%nat -> type (ctx_temps s !!! i) = base_type (ctx_temps s !!! i) }.

Definition in_use (s : Context) (i : nat) : Prop :=
  (ctx_nb_globals s <= i < ctx_nb_temps s)%nat /\ temp_allocated (ctx_temps s !!! i) = true.

Lemma kind_lt ty b : (free_kind ty b < 4)%nat.
Proof. destruct ty, b; cbn; lia. Qed.

Lemma kind_inj ty b ty' b' : free_kind ty b = free_kind ty' b' -> ty = ty' /\ b = b'.
Proof. by destruct ty, b, ty', b'. Qed.

(** Changes that leave the links of the list alone. *)
Lemma free_chain_ext ts ts' p l : (forall i, i ∈ l -> next_free_temp (ts' !!! i) = next_free_temp (ts !!! i)) ->
  chain ts p l -> chain ts' p l.
Proof.
  revert p. induction l as [|i l IH]; intros p Hn; [done|]. cbn. intros [-> Hc]. split; [done|].
  rewrite Hn by left. apply IH; [|done]. intros j Hj. apply Hn. by right.
Qed.

Lemma start_pool s : length (ctx_temps s) = TCG_MAX_TEMPS -> (ctx_nb_globals s <= TCG_MAX_TEMPS)%nat ->
  pool (tcg_func_start s) (fun _ => []).
Proof.
  intros Hl Hn. split; cbn [tcg_func_start ctx_temps ctx_nb_globals ctx_nb_temps first_free_temp]; try done; try lia.
  - intros k Hk. cbn [chain]. by apply lookup_total_replicate_2.
  - intros k i. split; [by intros ?%not_elem_of_nil|lia].
  - intros k. apply NoDup_nil_2.
Qed.

(** What a request for a temporary does. *)
Record new_temp (ty : TCGType) (b : bool) (s : Context) (idx : nat) (s' : Context) : Prop := {
  nw_fresh : ~ in_use s idx;
  nw_range : (ctx_nb_globals s <= idx < TCG_MAX_TEMPS)%nat;
  nw_type : temp_type (ir_context s') idx = ty;
  nw_local : temp_local (ir_context s') idx = b;
  nw_use i : in_use s' i <-> in_use s i \/ i = idx;
  nw_others i : i <> idx -> ctx_temps s' !!! i = ctx_temps s !!! i;
  nw_globals : ctx_nb_globals s' = ctx_nb_globals s;
  nw_regs : ctx_reserved_regs s' = ctx_reserved_regs s }.

(** No temporary of the kind is free. *)
Definition none_free (ty : TCGType) (b : bool) (s : Context) : Prop :=
  forall i, (ctx_nb_globals s <= i < ctx_nb_temps s)%nat -> kind_of (ctx_temps s !!! i) = free_kind ty b -> in_use s i.

(** One temporary changes and the list of its kind with it. *)
Lemma pool_change s free s' k p l idx t' : pool s free ->
  (ctx_nb_globals s <= idx < ctx_nb_temps s')%nat -> (ctx_nb_temps s <= ctx_nb_temps s' <= TCG_MAX_TEMPS)%nat ->
  (forall i, (i < ctx_nb_temps s')%nat -> (i < ctx_nb_temps s)%nat \/ i = idx) ->
  ctx_nb_globals s' = ctx_nb_globals s -> ctx_temps s' = <[idx := t']> (ctx_temps s) ->
  length (first_free_temp s') = 4%nat ->
  (forall u, first_free_temp s' !!! u = if Nat.eqb u k then p else first_free_temp s !!! u) ->
  kind_of t' = k -> type t' = base_type t' ->
  ((idx < ctx_nb_temps s)%nat -> kind_of (ctx_temps s !!! idx) = k) ->
  chain (ctx_temps s') p l -> NoDup l ->
  (forall i, i ∈ l <-> i ∈ free k /\ i <> idx \/ i = idx /\ temp_allocated t' = false) ->
  pool s' (fupd free k l).
Proof.
  intros [Hsz Hls Hb Hch Hfr Hon Hty] Hi Hn Hnew Hg Et Hl' Hff Hk Htt Hki Hc Hnd Hmem.
  pose proof (fun i => insert_total (ctx_temps s) idx i t' ltac:(lia)) as Ei. rewrite <- Et in Ei.
  split; rewrite ?Hg; try done; try lia.
  - by rewrite Et, length_insert.
  - intros u Hu. rewrite Hff. unfold fupd. destruct (Nat.eqb_spec u k) as [->|Hne]; [done|].
    eapply free_chain_ext; [|by apply Hch]. intros i Hx. rewrite Ei. destruct (decide (i = idx)) as [->|]; [|done].
    apply Hfr in Hx as (Hx1 & _ & Hx2). rewrite Hki in Hx2 by lia. congruence.
  - intros u i. unfold fupd. destruct (Nat.eqb_spec u k) as [->|Hne]; [rewrite Hmem|]; rewrite ?Hfr, Ei;
      destruct (decide (i = idx)) as [->|Hii].
    + rewrite Hk. intuition (try done; lia).
    + specialize (Hnew i). split; [|intros (H1 & H2 & H3); left; split_and!; try done; lia].
      intros [[(H1 & H2 & H3) _]|[? _]]; [|done]. split_and!; try done; lia.
    + rewrite Hk. split; [intros (H1 & _ & H3); rewrite Hki in H3 by lia; congruence|]. intros (_ & _ & H3). congruence.
    + specialize (Hnew i). intuition (try done; lia).
  - intros u. unfold fupd. by destruct (Nat.eqb_spec u k) as [->|].
  - intros i Hr. rewrite Ei. destruct (decide (i = idx)) as [->|Hii]; [done|]. apply Hty.
    destruct (Hnew i ltac:(lia)); [lia|done].
Qed.

Section New.
Context (ty : TCGType) (b : bool) (s : Context) (free : nat -> list nat) (HP : pool s free).

#[local] Abbreviation k := (free_kind ty b).

Lemma free_head : first_free_temp s !!! k = head (free k).
Proof. pose proof (pl_chain _ _ HP k (kind_lt _ _)) as Hc. destruct (free k); [done|]. by destruct Hc as [-> _]. Qed.

(** A free temporary is taken from the list of its kind. *)
Lemma new_reuse idx l : free k = idx :: l -> exists s',
  tcg_temp_new_internal ty b s = Some (idx, s') /\ pool s' (fupd free k l) /\ new_temp ty b s idx s' /\
  ctx_nb_temps s' = ctx_nb_temps s.
Proof.
  intros Hf. pose proof HP as [Hsz Hls Hb Hch Hfr Hon Hty].
  destruct (proj1 (Hfr k idx) ltac:(rewrite Hf; left)) as (Hr & Hna & Hk). pose proof (kind_inj _ _ _ _ Hk) as [Ek1 Ek2].
  unfold tcg_temp_new_internal. rewrite free_head, Hf. cbn [head]. rewrite Ek2, eqb_reflx. cbn [negb].
  set (t' := mkInfo _ _ _ _ _ _ _ _ _ _). eexists. split; [done|].
  pose proof (fun i => insert_total (ctx_temps s) idx i t' ltac:(lia)) as Ei.
  pose proof (Hon k) as Hnd. rewrite Hf, NoDup_cons in Hnd. destruct Hnd as [Hni Hnd].
  split; [|split; [|done]].
  - eapply (pool_change s free _ k (next_free_temp (ctx_temps s !!! idx)) l idx t'); try done; cbn; try lia; auto.
    + by rewrite length_insert.
    + intros u. rewrite insert_total by (rewrite Hls; apply kind_lt).
      destruct (Nat.eqb_spec u k), (decide (u = k)); done.
    + unfold kind_of, t'. cbn. by rewrite Ek1.
    + specialize (Hch k (kind_lt _ _)). rewrite Hf in Hch. destruct Hch as [_ Hch].
      eapply free_chain_ext; [|exact Hch]. intros i Hx. rewrite Ei. by destruct (decide (i = idx)) as [->|].
    + intros i. rewrite Hf, elem_of_cons. split; [|naive_solver]. intros Hx. left. split; [by right|].
      intros ->. done.
  - split; cbn [ctx_temps ctx_nb_globals ctx_nb_temps ir_context temp_type temp_local]; try done; try lia.
    + intros [_ Hx]. congruence.
    + rewrite Ei, decide_True by done. cbn. by rewrite Hty.
    + by rewrite Ei, decide_True by done.
    + intros i. unfold in_use. cbn. rewrite Ei. destruct (decide (i = idx)) as [->|]; [|naive_solver].
      split; [by right|]. intros _. split; [lia|done].
    + intros i Hi. by rewrite Ei, decide_False.
Qed.

(** Otherwise the array grows. *)
Lemma new_grow : free k = [] -> (ctx_nb_temps s < TCG_MAX_TEMPS)%nat -> exists s',
  tcg_temp_new_internal ty b s = Some (ctx_nb_temps s, s') /\ pool s' (fupd free k []) /\
  new_temp ty b s (ctx_nb_temps s) s' /\ ctx_nb_temps s' = S (ctx_nb_temps s).
Proof.
  intros Hf Hlt. pose proof HP as [Hsz Hls Hb Hch Hfr Hon Hty].
  unfold tcg_temp_new_internal, tcg_temp_alloc. rewrite free_head, Hf. cbn [head].
  rewrite (proj2 (Nat.ltb_ge _ _)) by lia. cbn [mbind option_bind].
  set (idx := ctx_nb_temps s) in *. set (t' := mkInfo _ _ _ _ _ _ _ _ _ _). eexists. split; [done|].
  pose proof (fun i => insert_total (ctx_temps s) idx i t' ltac:(lia)) as Ei.
  split; [|split; [|done]].
  - eapply (pool_change s free _ k None [] idx t'); try done; cbn; try lia.
    + intros u. destruct (Nat.eqb_spec u k) as [->|]; [|done]. by rewrite free_head, Hf.
    + apply NoDup_nil_2.
    + intros i. rewrite Hf. split; [by intros ?%not_elem_of_nil|]. intros [[?%not_elem_of_nil _]|[_ ?]]; done.
  - split; cbn [ctx_temps ctx_nb_globals ctx_nb_temps ir_context temp_type temp_local]; try done; try lia.
    + intros [Hx _]. lia.
    + by rewrite Ei, decide_True by done.
    + by rewrite Ei, decide_True by done.
    + intros i. unfold in_use. cbn. rewrite Ei. destruct (decide (i = idx)) as [->|].
      * split; [by right|]. intros _. split; [lia|done].
      * split; [intros [? ?]; left; split; [lia|done]|]. intros [[? ?]|?]; [split; [lia|done]|done].
    + intros i Hi. by rewrite Ei, decide_False.
Qed.

Lemma new_full : free k = [] -> ctx_nb_temps s = TCG_MAX_TEMPS -> tcg_temp_new_internal ty b s = None.
Proof.
  intros Hf Hn. unfold tcg_temp_new_internal, tcg_temp_alloc. rewrite free_head, Hf, Hn. cbn [head].
  by rewrite (proj2 (Nat.ltb_lt _ _)) by lia.
Qed.

Lemma none_free_iff : none_free ty b s <-> free k = [].
Proof.
  destruct HP as [Hsz Hls Hb Hch Hfr Hon Hty]. split.
  - intros Hn. destruct (free k) as [|i l] eqn:Hf; [done|]. destruct (proj1 (Hfr k i) ltac:(rewrite Hf; left)) as (H1 & H2 & H3).
    destruct (Hn i H1 H3) as [_ Hx]. congruence.
  - intros Hf i Hi Hk. split; [done|]. destruct (temp_allocated _) eqn:Ea; [done|].
    assert (i ∈ free k) as Hx by (by apply Hfr). rewrite Hf in Hx. by apply not_elem_of_nil in Hx.
Qed.

End New.

Lemma free_ok s free idx : pool s free -> in_use s idx -> exists s' free',
  tcg_temp_free_internal idx s = Some s' /\ pool s' free' /\ (forall i, in_use s' i <-> in_use s i /\ i <> idx) /\
  (forall i, i <> idx -> ctx_temps s' !!! i = ctx_temps s !!! i) /\ ctx_nb_globals s' = ctx_nb_globals s /\
  ctx_nb_temps s' = ctx_nb_temps s /\ ctx_reserved_regs s' = ctx_reserved_regs s.
Proof.
  intros HP [Hr Ha]. pose proof HP as [Hsz Hls Hb Hch Hfr Hon Hty].
  unfold tcg_temp_free_internal. rewrite (proj2 (Nat.leb_le _ _)), (proj2 (Nat.ltb_lt _ _)) by lia. cbn [andb negb].
  rewrite Ha. cbn [negb]. fold (kind_of (ctx_temps s !!! idx)). set (k := kind_of _).
  assert (k < 4)%nat as Hk by apply kind_lt. set (t' := mkInfo _ _ _ _ _ _ _ _ _ _).
  pose proof (fun i => insert_total (ctx_temps s) idx i t' ltac:(lia)) as Ei.
  assert (idx ∉ free k) as Hni by (intros (_ & Hx & _)%Hfr; congruence).
  eexists _, (fupd free k (idx :: free k)). split; [done|]. split_and!; try done.
  - eapply (pool_change s free _ k (Some idx) (idx :: free k) idx t'); try done; cbn; try lia; auto.
    + by rewrite length_insert.
    + intros u. rewrite insert_total by (by rewrite Hls). destruct (Nat.eqb_spec u k), (decide (u = k)); done.
    + split; [done|]. rewrite Ei, decide_True by done. cbn. eapply free_chain_ext; [|by apply Hch].
      intros i Hx. rewrite Ei. destruct (decide (i = idx)) as [->|]; done.
    + apply NoDup_cons. by split.
    + intros i. rewrite elem_of_cons. split; [|naive_solver]. intros [->|Hx]; [by right|]. left. split; [done|].
      intros ->. done.
  - intros i. unfold in_use. cbn. rewrite Ei. destruct (decide (i = idx)) as [->|]; [|naive_solver]. cbn. naive_solver.
  - intros i Hi. cbn. by rewrite Ei, decide_False.
Qed.

(** The states of a block under translation. *)
Inductive temps_reach (s0 : Context) : Context -> Prop :=
  | reach_start : temps_reach s0 (tcg_func_start s0)
  | reach_new ty b s idx s' : temps_reach s0 s -> tcg_temp_new_internal ty b s = Some (idx, s') -> temps_reach s0 s'
  | reach_free idx s s' : temps_reach s0 s -> tcg_temp_free_internal idx s = Some s' -> temps_reach s0 s'
  | reach_label l s s' : temps_reach s0 s -> gen_new_label s = Some (l, s') -> temps_reach s0 s'.

(** A context with its globals: the array has its size and the globals fit. *)
Definition globals_fit (s : Context) : Prop :=
  length (ctx_temps s) = TCG_MAX_TEMPS /\ (ctx_nb_globals s <= TCG_MAX_TEMPS)%nat.

Record same_globals (s0 s : Context) : Prop := {
  sg_nb : ctx_nb_globals s = ctx_nb_globals s0;
  sg_regs : ctx_reserved_regs s = ctx_reserved_regs s0;
  sg_temps i : (i < ctx_nb_globals s0)%nat -> ctx_temps s !!! i = ctx_temps s0 !!! i }.

Lemma new_cases ty b s free : pool s free ->
  (exists idx s' free', tcg_temp_new_internal ty b s = Some (idx, s') /\ pool s' free' /\ new_temp ty b s idx s' /\
    ((ctx_nb_temps s' = ctx_nb_temps s /\ ~ none_free ty b s) \/ (ctx_nb_temps s' = S (ctx_nb_temps s) /\ none_free ty b s))) \/
  (tcg_temp_new_internal ty b s = None /\ ctx_nb_temps s = TCG_MAX_TEMPS /\ none_free ty b s).
Proof.
  intros HP. destruct (free (free_kind ty b)) as [|idx l] eqn:Hf.
  - pose proof (proj2 (none_free_iff ty b s free HP) Hf) as Hn.
    destruct (decide (ctx_nb_temps s = TCG_MAX_TEMPS)) as [Hm|Hm]; [right; split_and!; try done; by eapply new_full|].
    left. pose proof (pl_bounds _ _ HP). destruct (new_grow ty b s free HP Hf ltac:(lia)) as (s' & E & HP' & HN & Hg).
    eexists _, s', _. split_and!; eauto.
  - left. destruct (new_reuse ty b s free HP idx l Hf) as (s' & E & HP' & HN & Hg).
    eexists _, s', _. split_and!; eauto. left. split; [done|]. rewrite (none_free_iff ty b s free HP). by rewrite Hf.
Qed.

Lemma free_fails idx s : ~ in_use s idx -> tcg_temp_free_internal idx s = None.
Proof.
  intros Hn. unfold tcg_temp_free_internal. destruct (ctx_nb_globals s <=? idx)%nat eqn:E1, (idx <? ctx_nb_temps s)%nat eqn:E2; try done.
  cbn [andb negb]. destruct (temp_allocated _) eqn:E3; [|done]. destruct Hn. apply Nat.leb_le in E1. apply Nat.ltb_lt in E2. by split.
Qed.

Lemma in_use_dec s i : in_use s i \/ ~ in_use s i.
Proof. unfold in_use. destruct (temp_allocated (ctx_temps s !!! i)); [|by right; intros [_ ?]]. destruct (decide (ctx_nb_globals s <= i < ctx_nb_temps s)%nat); [by left|right; by intros []]. Qed.

Lemma reach_pool s0 s : globals_fit s0 -> temps_reach s0 s -> (exists free, pool s free) /\ same_globals s0 s.
Proof.
  intros [Hl Hn]. induction 1 as [|ty b s idx s' _ [(free & HP) HG] E|idx s s' _ [(free & HP) HG] E|l s s' _ [(free & HP) HG] E].
  - split; [eexists; by apply start_pool|]. by split.
  - destruct (new_cases ty b s free HP) as [(i' & s1 & free' & E' & HP' & HN & _)|(E' & _)]; [|congruence].
    rewrite E' in E. injection E as -> ->. split; [by exists free'|]. destruct HG as [G1 G2 G3], HN. split; [congruence..|].
    intros i Hi. rewrite nw_others0 by lia. by apply G3.
  - destruct (in_use_dec s idx) as [Hu|Hu]; [|by rewrite free_fails in E].
    destruct (free_ok s free idx HP Hu) as (s1 & free' & E' & HP' & _ & Ho & Eg & _ & Er).
    rewrite E' in E. injection E as ->. split; [by exists free'|]. destruct HG as [G1 G2 G3]. split; [congruence..|].
    intros i Hi. rewrite Ho; [by apply G3|]. intros ->. destruct Hu. lia.
  - unfold gen_new_label in E. destruct (_ <=? _)%nat; [done|]. injection E as <- <-. split.
    + exists free. destruct HP. by split.
    + destruct HG. by split.
Qed.

(** ** The globals of ARM *)

Record mem_global (t : TempInfo) (ty : TCGType) (off : Z) : Prop := {
  mg_type : type t = ty;
  mg_fixed : info_fixed_reg t = false;
  mg_base : info_mem_reg t = TCG_AREG0;
  mg_offset : info_mem_offset t = off;
  mg_mem : info_mem_allocated t = true }.

Lemma mem_globals_ok offsetof l : forall s, length (ctx_temps s) = TCG_MAX_TEMPS ->
  (ctx_nb_globals s + length l <= TCG_MAX_TEMPS)%nat ->
  exists s', mem_globals offsetof l s = Some s' /\ length (ctx_temps s') = TCG_MAX_TEMPS /\
    ctx_nb_globals s' = (ctx_nb_globals s + length l)%nat /\ ctx_reserved_regs s' = ctx_reserved_regs s /\
    (forall i, (i < ctx_nb_globals s)%nat -> ctx_temps s' !!! i = ctx_temps s !!! i) /\
    (forall j ty f, l !! j = Some (ty, f) ->
      mem_global (ctx_temps s' !!! (ctx_nb_globals s + j)%nat) ty (field_offset offsetof f)).
Proof.
  induction l as [|[ty f] l IH]; intros s Hl Hn; cbn [length] in *.
  { exists s. cbn. split_and!; try done; lia. }
  cbn [mem_globals]. unfold tcg_global_mem_new_internal, tcg_temp_alloc.
  rewrite (proj2 (Nat.ltb_ge _ _)) by lia. cbn [mbind option_bind]. set (t' := mkInfo _ _ _ _ _ _ _ _ _ _). set (s1 := mkCtx _ _ _ _ _ _).
  pose proof (fun i => insert_total (ctx_temps s) (ctx_nb_globals s) i t' ltac:(lia)) as Ei.
  destruct (IH s1 ltac:(cbn; by rewrite length_insert) ltac:(cbn; lia)) as (s' & E & H1 & H2 & H3 & H4 & H5).
  exists s'. cbn in H2, H3, H4, H5. split_and!; try done; [lia|..].
  - intros i Hi. rewrite H4, Ei, decide_False by lia. done.
  - intros [|j] ty' f' Hj.
    + injection Hj as -> ->. rewrite Nat.add_0_r, H4, Ei, decide_True by lia. by split.
    + rewrite Nat.add_succ_r. by apply (H5 j).
Qed.

Definition all_fields : list (TCGType * field) := arm_fields ++ esesc_fields.

Lemma arm_globals_ok offsetof : exists s, arm_globals offsetof = Some s /\ globals_fit s /\
  ctx_nb_globals s = 30%nat /\ ctx_reserved_regs s = 2 ^ 4 + 2 ^ 14 /\
  (info_fixed_reg (ctx_temps s !!! 0%nat) = true /\ info_reg (ctx_temps s !!! 0%nat) = TCG_AREG0 /\
   info_mem_allocated (ctx_temps s !!! 0%nat) = false) /\
  forall j ty f, all_fields !! j = Some (ty, f) -> mem_global (ctx_temps s !!! S j) ty (field_offset offsetof f).
Proof.
  unfold arm_globals, arm_translate_init.
  set (s1 := mkCtx (<[0%nat := mkInfo TCG_TYPE_I64 TCG_TYPE_I64 true TCG_AREG0 0 0 false false false (Some 0%nat)]>
    (replicate TCG_MAX_TEMPS zero_temp)) 1 0 (replicate 4 (Some 0%nat)) (2 ^ 4 + 2 ^ 14) 0).
  change (tcg_global_reg_new_internal TCG_TYPE_I64 TCG_AREG0 tcg_context_init) with (Some (0%nat, s1)). cbn [mbind option_bind].
  destruct (mem_globals_ok offsetof arm_fields s1 ltac:(done) ltac:(cbn; unfold TCG_MAX_TEMPS; lia)) as (s2 & -> & A1 & A2 & A3 & A4 & A5).
  cbn [mbind option_bind]. unfold arm_translate_init_esescqueue. change (ctx_nb_globals s1) with 1%nat in *.
  change (length arm_fields) with 21%nat in *.
  destruct (mem_globals_ok offsetof esesc_fields s2 A1 ltac:(rewrite A2; cbn; unfold TCG_MAX_TEMPS; lia)) as (s3 & -> & B1 & B2 & B3 & B4 & B5).
  rewrite A2 in B2, B4, B5. change (length esesc_fields) with 8%nat in *.
  exists s3. split_and!; try done; try (unfold globals_fit, TCG_MAX_TEMPS in *; lia).
  - by rewrite B3, A3.
  - by rewrite B4, A4 by lia.
  - by rewrite B4, A4 by lia.
  - by rewrite B4, A4 by lia.
  - intros j ty f Hj. unfold all_fields in Hj. destruct (decide (j < 21)%nat) as [Hlt|Hge].
    + rewrite lookup_app_l in Hj by (cbn; lia). rewrite B4 by lia. by apply (A5 j).
    + rewrite lookup_app_r in Hj by (cbn; lia). change (length arm_fields) with 21%nat in Hj.
      replace (S j) with (1 + 21 + (j - 21))%nat by lia. by apply (B5 (j - 21)%nat).
Qed.

(** ** Property *)

(** C26: The pool of temporaries.  While a block is translated, whatever temporaries were
    requested and freed before: a request returns a temporary that is not in use, has the
    type and the kind asked for, and changes no other; the array grows only when no
    temporary of the kind is free, and the request fails only if in addition all 512 are
    taken; [tcg_temp_free_internal] succeeds exactly for a temporary in use, which it makes
    available again. *)
Theorem temp_pool_correct (s0 s : Context) : globals_fit s0 -> temps_reach s0 s ->
  (forall ty b,
    match tcg_temp_new_internal ty b s with
    | Some (idx, s') => new_temp ty b s idx s' /\ (none_free ty b s <-> ctx_nb_temps s' <> ctx_nb_temps s)
    | None => ctx_nb_temps s = TCG_MAX_TEMPS /\ none_free ty b s
    end) /\
  (forall idx,
    match tcg_temp_free_internal idx s with
    | Some s' => in_use s idx /\ (forall i, in_use s' i <-> in_use s i /\ i <> idx) /\
        (forall i, i <> idx -> ctx_temps s' !!! i = ctx_temps s !!! i)
    | None => ~ in_use s idx
    end).
Proof.
  intros Hf Hr. destruct (reach_pool s0 s Hf Hr) as [(free & HP) _]. split.
  - intros ty b. destruct (new_cases ty b s free HP) as [(idx & s' & free' & -> & _ & HN & Hg)|(-> & H1 & H2)]; [|done].
    split; [done|]. destruct Hg as [[-> Hn]|[-> Hn]]; split; intros; try done; lia.
  - intros idx. destruct (in_use_dec s idx) as [Hu|Hu]; [|by rewrite free_fails].
    by destruct (free_ok s free idx HP Hu) as (s' & free' & -> & _ & H1 & H2 & _).
Qed.

(** Two temporaries are requested, the first is freed and requested again as an [i32]. *)
Definition pool_demo : option (list nat * Context) :=
  '(a, s) ← tcg_temp_new_internal TCG_TYPE_I32 false (tcg_func_start tcg_context_init);
  '(b, s) ← tcg_temp_new_internal TCG_TYPE_I64 true s;
  s ← tcg_temp_free_internal a s;
  '(c, s) ← tcg_temp_new_internal TCG_TYPE_I64 false s;
  '(d, s) ← tcg_temp_new_internal TCG_TYPE_I32 false s;
  Some ([a; b; c; d], s).

Example pool_demo_reuse : fst <$> pool_demo = Some [0; 1; 2; 0]%nat.
Proof. vm_compute. reflexivity. Qed.

Lemma temp_pool_correct_witness :
  ~ in_use (tcg_func_start tcg_context_init) 0 /\
  match tcg_temp_new_internal TCG_TYPE_I64 true (tcg_func_start tcg_context_init) with
  | Some (idx, s') => temp_local (ir_context s') idx = true
  | None => False
  end.
Proof.
  destruct (temp_pool_correct tcg_context_init (tcg_func_start tcg_context_init)
    ltac:(split; [apply length_replicate|vm_compute; lia]) (reach_start _)) as [H1 H2].
  split; [exact (H2 0%nat)|]. specialize (H1 TCG_TYPE_I64 true). destruct H1 as [HN _]. exact (nw_local _ _ _ _ _ HN).
Defined.
