(* ===== verification/TcgArm.v ===== *)
(** * ARM blocks on an x86-64 host

    The passes of [tcg_gen_code_common] with the context of the ARM front end
    (target-arm/translate.c) and the x86-64 back end (tcg/i386): what the register allocator
    needs to know of its host, its globals and its constraints holds for them, so that a
    block of the documented form is translated correctly. *)

From Stdlib Require Import String.
From stdpp Require Import strings.
From S2P Require Import Prelude TcgIr TcgOptimize TcgRing TcgFold TcgOptProofs TcgLive TcgLiveProofs TcgCompose.
From S2P Require Import TcgRegAlloc TcgRegProofs TcgRegOps TcgRegInsn TcgRegCall TcgRegBlock TcgRegProps.
From S2P Require Import TcgTarget TcgTemps.
Open Scope Z_scope.

#[local] Opaque INDEX_op tcg_op_defs x86_constraints arm_globals.

(** ** The host *)

Lemma reserved_bits r : tcg_regset_test_reg (2 ^ 4 + 2 ^ 14) r = true -> r = 4%nat \/ r = 14%nat.
Proof.
  unfold tcg_regset_test_reg. change (2 ^ 4 + 2 ^ 14) with 16400. intros Hr.
  destruct (decide (r < 15)%nat) as [Hlt|Hge].
  - do 15 (destruct r as [|r]; [try discriminate Hr; auto|]). lia.
  - change 16400 with (16400 mod 2 ^ 15) in Hr. rewrite Z.mod_pow2_bits_high in Hr by lia. done.
Qed.

(** No two globals of the CPU state overlap. *)
Definition layout_ok (offsetof : field -> Z) : bool :=
  bool_decide (NoDup ((fun p => field_offset offsetof (snd p)) <$> all_fields)).

Lemma layout_once offsetof : layout_ok offsetof = true ->
  NoDup ((fun p => field_offset offsetof (snd p)) <$> all_fields).
Proof. apply bool_decide_eq_true_1. Qed.

#[local] Opaque layout_ok.

Section Globals.
Context (offsetof : field -> Z) (s0 s : Context).
Context (HL : layout_ok offsetof = true) (H0 : arm_globals offsetof = Some s0) (Hr : temps_reach s0 s).

Lemma global_kinds : ctx_nb_globals s = 30%nat /\ ctx_reserved_regs s = 2 ^ 4 + 2 ^ 14 /\
  alloc_temps s 0 = mkTemp TEMP_VAL_DEAD TCG_AREG0 0 (mem_reg (alloc_temps s 0)) (mem_offset (alloc_temps s 0)) true false false /\
  forall t, (0 < t < 30)%nat -> exists p, all_fields !! (t - 1)%nat = Some p /\
    fixed_reg (alloc_temps s t) = false /\ mem_allocated (alloc_temps s t) = true /\
    slot (alloc_temps s t) = (TCG_AREG0, field_offset offsetof (snd p)).
Proof.
  destruct (arm_globals_ok offsetof) as (s0' & E & HF & Hn & Hres & (Hf & Hg & Hm) & Hall).
  rewrite H0 in E. injection E as <-. destruct (reach_pool s0 s HF Hr) as [_ [G1 G2 G3]].
  split_and!; [congruence|congruence| |].
  - unfold alloc_temps. rewrite G3 by lia. by rewrite Hf, Hg, Hm.
  - intros t Ht. destruct (all_fields !! (t - 1)%nat) as [[ty f]|] eqn:Ep.
    2: { apply lookup_ge_None in Ep. change (length all_fields) with 29%nat in Ep. lia. }
    exists (ty, f). split; [done|]. pose proof (Hall (t - 1)%nat ty f Ep) as HG.
    replace (S (t - 1)) with t in HG by lia. destruct HG. unfold alloc_temps, slot. rewrite G3 by lia. cbn.
    split_and!; congruence.
Qed.

Lemma arm_host_ok : host_ok (ir_context s) (x86_target (ctx_reserved_regs s)) (alloc_temps s).
Proof.
  destruct global_kinds as (Hn & Hres & Hz & Hmem).
  destruct (arm_globals_ok offsetof) as (s0' & E & HF & _). rewrite H0 in E. injection E as <-.
  destruct (reach_pool s0 s HF Hr) as [(free & HP) _]. pose proof (layout_once _ HL) as Hnd. clear H0 HL.
  assert (forall t, (t < ctx_nb_globals s)%nat -> fixed_reg (alloc_temps s t) = true -> t = 0%nat) as Hfix.
  { intros t Ht Hf. destruct (decide (t = 0%nat)) as [|Hne]; [done|].
    destruct (Hmem t ltac:(lia)) as (p & _ & Hx & _). congruence. }
  assert (forall t, (t < ctx_nb_globals s)%nat -> fixed_reg (alloc_temps s t) = false -> (0 < t < 30)%nat) as Hnf.
  { intros t Ht Hf. destruct (decide (t = 0%nat)) as [->|]; [by rewrite Hz in Hf|lia]. }
  split; cbn [ir_context nb_globals nb_temps]; rewrite ?Hres.
  - apply (pl_bounds _ _ HP).
  - intros t Ht Hf. rewrite (Hfix t Ht Hf), Hz. reflexivity.
  - intros t Ht Hf. rewrite (Hfix t Ht Hf), Hz. split; reflexivity.
  - intros t Ht Hf. by destruct (Hmem t (Hnf t Ht Hf)) as (p & _ & _ & Hx & _).
  - intros t u Ht Hu Hft Hfu _. by rewrite (Hfix t Ht Hft), (Hfix u Hu Hfu).
  - intros t u Ht Hu Hft Hfu Es. destruct (Hmem t (Hnf t Ht Hft)) as (p & Ep & _ & _ & Hp).
    destruct (Hmem u (Hnf u Hu Hfu)) as (q & Eq & _ & _ & Hq). rewrite Hp, Hq in Es. injection Es as Es.
    pose proof (NoDup_lookup _ (t - 1)%nat (u - 1)%nat (field_offset offsetof (snd p)) Hnd) as Hx.
    rewrite !list_lookup_fmap, Ep, Eq in Hx. cbn in Hx. specialize (Hx eq_refl ltac:(by rewrite Es)).
    pose proof (Hnf t Ht Hft). pose proof (Hnf u Hu Hfu). lia.
  - intros t Ht Hf. destruct (Hmem t (Hnf t Ht Hf)) as (p & _ & _ & _ & Hs). intros Hx.
    change (fst (slot (alloc_temps s t)) = TCG_REG_ESP) in Hx. rewrite Hs in Hx. discriminate Hx.
  - intros t Ht Hf. destruct (Hmem t (Hnf t Ht Hf)) as (p & _ & _ & _ & Hs). intros Hx.
    change (fst (slot (alloc_temps s t)) = TCG_REG_ESP) in Hx. rewrite Hs in Hx. discriminate Hx.
  - cbn. unfold TCG_STATIC_CALL_ARGS. lia.
  - exists 4. split; [lia|reflexivity].
  - intros r Hx. destruct (reserved_bits r Hx) as [-> | ->]; reflexivity.
  - intros r Hx. unfold x86_target in *. cbn [tcg_target_call_iarg_regs reserved_regs] in *. unfold x86_call_iarg_regs in Hx.
    repeat (apply elem_of_cons in Hx as [->|Hx]; [reflexivity|]). by apply not_elem_of_nil in Hx.
  - apply (bool_decide_eq_true_1 _). vm_compute. reflexivity.
  - intros r Hx. cbn in Hx. apply list_elem_of_singleton in Hx. subst r. reflexivity.
  - apply (bool_decide_eq_true_1 _). vm_compute. reflexivity.
Qed.

End Globals.

(** ** The optimiser keeps the number of arguments *)

Definition is_call (o : TCGOp) : bool := match o with op_call _ _ _ => true | _ => false end.

(** What the optimiser makes of an operation. *)
Inductive same_shape (o : TCGOp) : TCGOp -> Prop :=
  | shape_nop : same_shape o op_nop
  | shape_mov w d x : same_shape o (op_mov w d x)
  | shape_movi w d v : same_shape o (op_movi w d v)
  | shape_keep o' : opcode o' = opcode o -> other_opcode o' = other_opcode o ->
      is_call o' = is_call o -> length (oargs o') = length (oargs o) -> length (iargs o') = length (iargs o) ->
      same_shape o o'.

Lemma arity_shape o o' : same_shape o o' -> arity_ok o = true -> arity_ok o' = true.
Proof.
  intros [|w d x|w d v|o1 E1 E2 Ec E3 E4]; [intros _; vm_compute; reflexivity|intros _; destruct w; vm_compute; reflexivity..|].
  unfold arity_ok. rewrite E1, E3, E4. destruct o, o1; try done. cbn in E2. by injection E2 as ->.
Qed.

Section Shape.
Context (C : TCGContext).

Lemma opt_movi_shape o w d v ts ts' o' : tcg_opt_gen_movi C w d v ts = Some (ts', o') -> same_shape o o'.
Proof. intros (ts1 & _ & [= _ <-])%bind_Some. constructor. Qed.

Lemma opt_mov_shape o w d x ts ts' o' : tcg_opt_gen_mov C w d x ts = Some (ts', o') -> same_shape o o'.
Proof.
  unfold tcg_opt_gen_mov. intros (ts1 & _ & E)%bind_Some.
  repeat (destruct (_ : bool) in E; try done); injection E as _ <-; constructor.
Qed.

Lemma fold_bin_const_shape b w d x y x' y' ts ts' o' :
  fold_bin_const C b w d x y ts = Some (ts', o') -> same_shape (op_bin b w d x' y') o'.
Proof.
  unfold fold_bin_const. destruct (_ && _); intros (r & _ & E)%bind_Some; [by eapply opt_movi_shape|].
  injection E as _ <-. by constructor.
Qed.

Lemma fold_op_same_shape o ts ts' o' : fold_op C o ts = Some (ts', o') -> same_shape o o'.
Proof.
  destruct o as [|w d i|w d v|u w d i|b w d x y|outs ins flags|l|t|l|w x y c l|opc se outs ins consts]; cbn [fold_op]; intros E;
    try (injection E as _ <-; by constructor).
  - unfold fold_mov in E. destruct (_ || _); [injection E as _ <-; constructor|].
    destruct (is_const ts _); [by eapply opt_movi_shape|by eapply opt_mov_shape].
  - by eapply opt_movi_shape.
  - unfold fold_un in E. destruct (is_const ts _); [by eapply opt_movi_shape|].
    apply bind_Some in E as (ts1 & _ & [= _ <-]). by constructor.
  - unfold fold_bin in E. destruct (if commutative b && is_const ts (propagate ts x) then _ else _) as [x1 y1].
    unfold simplify_bin in E.
    repeat (match type of E with context [match ?z with _ => _ end] => destruct z end; try done);
      first [by eapply opt_movi_shape|by eapply opt_mov_shape|by eapply fold_bin_const_shape|injection E as _ <-; constructor].
  - apply bind_Some in E as (ts1 & _ & E). apply bind_Some in E as (ts2 & _ & [= _ <-]). by constructor.
  - apply bind_Some in E as (ts1 & _ & [= _ <-]). constructor; try done. cbn. destruct se; [done|apply length_fmap].
Qed.

Lemma optimize_arity prog ts prog' : tcg_optimize C prog ts = Some prog' -> forallb arity_ok prog = true ->
  forallb arity_ok prog' = true.
Proof.
  unfold tcg_optimize, tcg_constant_folding. generalize (clear_temps (nb_temps C) ts). revert prog'.
  induction prog as [|o prog IH]; intros prog' ts1 E; [by injection E as <-|]. cbn in E.
  apply bind_Some in E as ([ts2 o'] & Eo & E). apply fmap_Some in E as (p & E & ->). cbn. intros [Ho Hp]%andb_prop.
  rewrite (IH p ts2 E Hp), andb_true_r. by eapply arity_shape, Ho; eapply fold_op_same_shape.
Qed.

End Shape.

(** ** Example

    An ARM block: [r0 = r1 * 6 + r2; if (r0 < r2) goto 1; st32 [r1] = r0; 1: exit].  The
    fields of the CPU state are laid out one after the other. *)

Definition demo_offsetof (f : field) : Z :=
  match f with
  | regs i => 0
  | exclusive_addr => 64 | exclusive_val => 68 | exclusive_high => 72 | exclusive_test => 76 | exclusive_info => 80
  | xtrace_op_tp => 88 | xtrace_op_cnt => 96 | op_cnt => 100 | insn_cnt => 104
  | op_insn => 112 | op_data => 120 | op_addr => 128 | op_pc => 136
  end.

(** The three temporaries 30 - 32 of the block. *)
Definition demo_context : option Context :=
  s ← arm_globals demo_offsetof;
  '(_, s) ← tcg_temp_new_internal TCG_TYPE_I32 false (tcg_func_start s);
  '(_, s) ← tcg_temp_new_internal TCG_TYPE_I32 false s;
  '(_, s) ← tcg_temp_new_internal TCG_TYPE_I32 true s;
  Some s.

Definition arm_prog : list TCGOp :=
  [op_movi TCG_TYPE_I32 30 6; op_bin op_mul TCG_TYPE_I32 31 2 30; op_bin op_add TCG_TYPE_I32 32 31 3;
   op_mov TCG_TYPE_I32 1 32; op_brcond TCG_TYPE_I32 32 3 TCG_COND_LTU 1;
   op_other (INDEX_op "qemu_st32") true [] [32; 2]%nat [0]; op_set_label 1;
   op_other (INDEX_op "exit_tb") true [] [] [17]].

(** Stores are appended to a list; [exit_tb] leaves with its argument. *)
Definition arm_other (opc : nat) (consts ins : list Z) (w : list (Z * Z)) : option (effect (list (Z * Z))) :=
  if Nat.eqb opc (INDEX_op "exit_tb") then Some (Leaves (nth 0 consts 0) w)
  else if Nat.eqb opc (INDEX_op "qemu_st32") then
    match ins with [v; a] => Some (Returns [] (w ++ [(a, v)])) | _ => None end
  else None.

Definition arm_calls (flags : Z) (ins gs : list Z) (w : list (Z * Z)) : option (effect (list (Z * Z)) * list Z) := None.

Definition arm_context : Context := default tcg_context_init demo_context.

Definition arm_state : State (list (Z * Z)) :=
  mkState (4096 :: 1 :: 7 :: 9 :: replicate 26 0 ++ [0; 0; 0]) [].

(** Register 14 points to the CPU state, where r0 - r2 are at 0, 4 and 8. *)
Definition arm_start : Host (list (Z * Z)) :=
  mkHost (fun r => if Nat.eqb r 14 then 4096 else 77)
    (fun k => if bool_decide (k = (14%nat, 0)) then 1 else if bool_decide (k = (14%nat, 4)) then 7
              else if bool_decide (k = (14%nat, 8)) then 9 else 0) [].

Definition arm_final : State (list (Z * Z)) :=
  mkState (4096 :: 51 :: 7 :: 9 :: replicate 26 0 ++ [6; 42; 51]) [(7, 51)].

Definition arm_code : list HInsn :=
  [Hld TCG_TYPE_I32 5 14 4; Hmov TCG_TYPE_I32 3 5;
   Hop (op_bin op_mul TCG_TYPE_I32 31 2 30) [3]%nat [Reg 3; Const 6];
   Hld TCG_TYPE_I32 12 14 8; Hop (op_bin op_add TCG_TYPE_I32 32 31 3) [3]%nat [Reg 3; Reg 12];
   Hmov TCG_TYPE_I32 13 3; Hst TCG_TYPE_I32 3 4 128; Hst TCG_TYPE_I32 13 14 0;
   Hop (op_brcond TCG_TYPE_I32 32 3 TCG_COND_LTU 1) [] [Reg 3; Reg 12];
   Hld TCG_TYPE_I32 5 4 128; Hld TCG_TYPE_I32 3 14 4;
   Hop (op_other 121 true [] [32; 2]%nat [0]) [] [Reg 5; Reg 3];
   Hlabel 1; Hop (op_other 109 true [] [] [17]) [] []].

#[local] Abbreviation aC := (ir_context arm_context).
#[local] Abbreviation aH := (x86_target (ctx_reserved_regs arm_context)).
#[local] Abbreviation ag := (alloc_temps arm_context).

Lemma arm_sem_ok prog : forallb (fun o => match o with op_other _ _ outs _ _ => Nat.eqb (length outs) 0 | _ => true end) prog = true ->
  sem_ok x86_table arm_calls arm_other prog.
Proof.
  intros Hp. split; try done; unfold arm_other.
  - intros opc se outs ins consts vs w rs w' Hin E. pose proof (forallb_elem _ _ _ Hp Hin) as Ho. apply Nat.eqb_eq in Ho.
    rewrite Ho. destruct (Nat.eqb opc (INDEX_op "exit_tb")); [discriminate E|].
    destruct (Nat.eqb opc (INDEX_op "qemu_st32")); [|discriminate E].
    destruct vs as [|v [|x []]]; try discriminate E. by injection E as <- _.
  - intros opc consts vs w e Hf E. destruct (Nat.eqb_spec opc (INDEX_op "exit_tb")) as [->|_]; [discriminate Hf|].
    destruct (Nat.eqb_spec opc (INDEX_op "qemu_st32")) as [->|_]; [discriminate Hf|discriminate E].
  - intros opc consts vs w c w' E. destruct (Nat.eqb_spec opc (INDEX_op "exit_tb")) as [->|_]; [left; reflexivity|].
    destruct (Nat.eqb opc (INDEX_op "qemu_st32")); [|discriminate E]. destruct vs as [|v [|x []]]; discriminate E.
Qed.

(** ** Property *)

(** The passes with the tables of the host and the globals of the front end. *)
Lemma arm_host_code {World : Type} (offsetof : field -> Z) (s0 s : Context)
    (call_sem : Z -> list Z -> list Z -> World -> option (effect World * list Z))
    (other_sem : nat -> list Z -> list Z -> World -> option (effect World))
    (prog prog' : list TCGOp) (code : list HInsn) (ts : Temps) (junk : nat -> nat -> Z) (fuel : nat)
    (st a : State World) (h : Host World) (exit : option Z) :
  layout_ok offsetof = true -> arm_globals offsetof = Some s0 -> temps_reach s0 s ->
  block_ok (ir_context s) x86_table prog -> forallb arity_ok prog = true ->
  forallb (writes_ok (ir_context s) (alloc_temps s)) prog = true -> sem_ok x86_table call_sem other_sem prog ->
  tcg_optimize (ir_context s) prog ts = Some prog' ->
  entry_ok (ir_context s) x86_table prog' = true -> discards_ok (ir_context s) x86_table prog' = true ->
  state_ok (ir_context s) st -> globals_right (ir_context s) (alloc_temps s) st h ->
  tcg_gen_code_common (ir_context s) x86_table (x86_target (ctx_reserved_regs s)) (alloc_temps s) ts prog = Some code ->
  run (ir_context s) call_sem other_sem fuel prog 0 st = Finished exit a ->
  exists n h', host_run (ir_context s) x86_table (x86_target (ctx_reserved_regs s)) (alloc_temps s)
      call_sem other_sem junk 0 n code 0 h = HFinished exit h' /\
    same_end (ir_context s) (alloc_temps s) exit a h'.
Proof.
  intros HL HG HR HB Ha Hw HS HO He Hd Hs Hg Hc Hrun.
  pose proof (arm_host_ok offsetof s0 s HL HG HR) as HH. clear HL HG.
  pose proof (optimize_arity _ _ _ _ HO Ha) as Ha'.
  eapply tcg_gen_code_common_sim; try eassumption.
  intros o Ho Hal. apply x86_constraints_ok; [exact Hal|]. exact (forallb_elem _ _ _ Ha' Ho).
Qed.

(** C24: The translation of ARM blocks on an x86-64 host.  In the context the ARM front end
    has set up, after any requests for temporaries, a block whose operations have the
    arguments of their definitions goes through the optimiser, the liveness analysis and
    the register allocator with the tables of the x86-64 back end; when the block runs to
    its end or leaves, so does the code, in finitely many instructions, with the same exit
    code, the same guest registers and the same memory, whatever calls leave in the
    registers they may change.  Nothing is assumed of the host: its calling convention,
    reserved registers, frame and constraints are those of the source. *)
Theorem arm_x86_block_correct {World : Type} (offsetof : field -> Z) (s0 s : Context)
    (call_sem : Z -> list Z -> list Z -> World -> option (effect World * list Z))
    (other_sem : nat -> list Z -> list Z -> World -> option (effect World))
    (prog prog' : list TCGOp) (code : list HInsn) (ts : Temps) (junk : nat -> nat -> Z) (fuel : nat)
    (st a : State World) (h : Host World) (exit : option Z) :
  layout_ok offsetof = true -> arm_globals offsetof = Some s0 -> temps_reach s0 s ->
  block_ok (ir_context s) x86_table prog -> forallb arity_ok prog = true ->
  forallb (writes_ok (ir_context s) (alloc_temps s)) prog = true -> sem_ok x86_table call_sem other_sem prog ->
  tcg_optimize (ir_context s) prog ts = Some prog' ->
  entry_ok (ir_context s) x86_table prog' = true -> discards_ok (ir_context s) x86_table prog' = true ->
  state_ok (ir_context s) st -> globals_right (ir_context s) (alloc_temps s) st h ->
  tcg_gen_code_common (ir_context s) x86_table (x86_target (ctx_reserved_regs s)) (alloc_temps s) ts prog = Some code ->
  run (ir_context s) call_sem other_sem fuel prog 0 st = Finished exit a ->
  exists n h', host_run (ir_context s) x86_table (x86_target (ctx_reserved_regs s)) (alloc_temps s)
      call_sem other_sem junk 0 n code 0 h = HFinished exit h' /\
    same_end (ir_context s) (alloc_temps s) exit a h'.
Proof. intros. by eapply arm_host_code. Qed.

Lemma arm_demo_reach : exists s0, arm_globals demo_offsetof = Some s0 /\ temps_reach s0 arm_context.
Proof.
  destruct (arm_globals demo_offsetof) as [s0|] eqn:E0; [|exfalso; revert E0; vm_compute; discriminate].
  exists s0. split; [reflexivity|]. assert (is_Some demo_context) as [s' E] by (vm_compute; eexists; reflexivity).
  unfold arm_context. rewrite E. cbn [default]. unfold demo_context in E. rewrite E0 in E. cbn [mbind option_bind] in E.
  apply bind_Some in E as ([i1 s1] & E1 & E). apply bind_Some in E as ([i2 s2] & E2 & E). apply bind_Some in E as ([i3 s3] & E3 & [= <-]).
  eapply reach_new; [eapply reach_new; [eapply reach_new; [apply reach_start|exact E1]|exact E2]|exact E3].
Qed.

Lemma arm_start_right : state_ok aC arm_state /\ globals_right aC ag arm_state arm_start.
Proof.
  split; split.
  - vm_compute. reflexivity.
  - intros t v Hx. do 33 (destruct t as [|t]; [injection Hx as <-; vm_compute; reflexivity|]). discriminate Hx.
  - reflexivity.
  - intros t v Ht Hx. do 30 (destruct t as [|t]; [injection Hx as <-; vm_compute; reflexivity|]).
    change (nb_globals aC) with 30%nat in Ht. lia.
Qed.

Lemma arm_block_ok : block_ok aC x86_table arm_prog.
Proof. split; vm_compute; reflexivity. Qed.

Lemma arm_x86_block_correct_witness : exists n h',
  host_run aC x86_table aH ag arm_calls arm_other (fun _ _ => 12345) 0 n arm_code 0 arm_start = HFinished (Some 17) h' /\
  globals_right aC ag arm_final h'.
Proof.
  destruct arm_demo_reach as (s0 & H0 & HR). destruct arm_start_right as [Hs Hg].
  refine (arm_x86_block_correct demo_offsetof s0 arm_context arm_calls arm_other arm_prog arm_prog arm_code
    blank_temps (fun _ _ => 12345) 20 arm_state arm_final arm_start (Some 17) _ H0 HR arm_block_ok _ _
    (arm_sem_ok arm_prog _) _ _ _ Hs Hg _ _); vm_compute; reflexivity.
Defined.
