(* ===== verification/X86Arm.v ===== *)
(** * From a block of the ARM translator to machine code

    The passes of [tcg_gen_code_common] (TcgArm) and the emitters of the x86-64 target
    (X86Block) together: a block of TCG operations that ends in [exit_tb], compiled with the
    globals of the ARM front end, run as bytes on the processor of X86Sem.  The state of the
    guest is in memory, at the CPU state that r14 points to. *)

From Stdlib Require Import String.
From S2P Require Import Prelude TcgIr TcgOptimize TcgRing TcgFold TcgOptProofs TcgLive TcgLiveProofs TcgCompose.
From S2P Require Import TcgRegAlloc TcgRegProofs TcgRegOps TcgRegInsn TcgRegCall TcgRegBlock TcgRegProps TcgTarget TcgTemps TcgArm.
From S2P Require Import X86Enc X86Sem X86Decode X86Run X86Alu X86Shift X86Mem X86Jump X86Guest X86Gen X86Labels X86GuestProofs X86Ops X86Block.
Open Scope Z_scope.

(** ** Checking the instructions *)

Definition operand_eqb (x y : TcgRegAlloc.operand) : bool :=
  match x, y with Reg r, Reg k => Nat.eqb r k | Const v, Const w => v =? w | _, _ => false end.

Lemma operand_eqb_eq x y : operand_eqb x y = true -> x = y.
Proof. destruct x, y; cbn; try done; [by intros ->%Nat.eqb_eq|by intros ->%Z.eqb_eq]. Qed.

Fixpoint inputs_okb (o : TCGOp) (d k : nat) (ins : list TcgRegAlloc.operand) : bool :=
  match ins with
  | [] => true
  | x :: ins => operand_ok (args_ct x86 o (S k)) x && (negb (ct_ialias (args_ct x86 o (S k))) || operand_eqb x (Reg d)) && inputs_okb o d (S k) ins
  end.

Lemma inputs_okb_spec o d k ins : inputs_okb o d k ins = true -> forall j x, ins !! j = Some x ->
  operand_ok (args_ct x86 o (S (k + j))) x = true /\ (ct_ialias (args_ct x86 o (S (k + j))) = true -> x = Reg d).
Proof.
  revert k. induction ins as [|y ins IH]; intros k H j x Hx; [discriminate Hx|]. cbn [inputs_okb] in H.
  apply andb_prop in H as [[H1 H2]%andb_prop H3]. destruct j as [|j]; cbn in Hx.
  - injection Hx as <-. rewrite Nat.add_0_r. split; [exact H1|]. intros Ha. rewrite Ha in H2. by apply operand_eqb_eq.
  - rewrite Nat.add_succ_r, <- Nat.add_succ_l. by apply IH.
Qed.

Definition conformsb (o : TCGOp) (d : nat) (ins : list TcgRegAlloc.operand) : bool :=
  operand_ok (args_ct x86 o 0) (Reg d) && inputs_okb o d 0 ins.

Lemma conformsb_spec o d ins : conformsb o d ins = true -> conforms o d ins.
Proof.
  intros [H1 H2]%andb_prop. split; [exact H1|..]; intros k x Hx; apply (inputs_okb_spec o d 0 ins H2 k x Hx).
Qed.

Section Check.
Context (C : TCGContext) (slots : list (nat * Z * TCGType)).

Definition reg_freeb (r : nat) : bool := (r <? 16)%nat && forallb (fun '(b, _, _) => negb (Nat.eqb b r)) slots.

Lemma reg_freeb_spec r : reg_freeb r = true -> reg_free slots r.
Proof.
  intros [H1%Nat.ltb_lt H2]%andb_prop. split; [done|]. intros (off & w & Hin). pose proof (forallb_elem _ _ _ H2 Hin) as H. cbn in H.
  by rewrite Nat.eqb_refl in H.
Qed.

Definition slotb (b : nat) (off : Z) (w : TCGType) : bool := (b <? 16)%nat && (off =? int32_t off) && bool_decide ((b, off, w) ∈ slots).

Definition insn_okb (i : HInsn) : bool :=
  match i with
  | Hld w d b off => reg_freeb d && slotb b off w
  | Hst w r b off => (r <? 16)%nat && slotb b off w
  | Hmov w d r => reg_freeb d && (r <? 16)%nat && negb (Nat.eqb d r)
  | Hmovi w d v => reg_freeb d
  | Hop (op_un u ty t0 t1) [d] [x] => conformsb (op_un u ty t0 t1) d [x] && op_ok C (op_un u ty t0 t1) && reg_freeb d
  | Hop (op_bin b ty t0 t1 t2) [d] [x; y] => conformsb (op_bin b ty t0 t1 t2) d [x; y] && op_ok C (op_bin b ty t0 t1 t2) && reg_freeb d
  | Hop (op_brcond ty t1 t2 c l) [] [x; y] =>
      operand_ok (args_ct x86 (op_brcond ty t1 t2 c l) 0) x && operand_ok (args_ct x86 (op_brcond ty t1 t2 c l) 1) y && op_ok C (op_brcond ty t1 t2 c l)
  | Hop (op_br l) [] [] => true
  | Hop (op_other opc _ [] [] [_]) [] [] => Nat.eqb opc (INDEX_op "exit_tb")
  | Hlabel l => true
  | _ => false
  end.

Lemma slotb_spec b off w : slotb b off w = true -> (b < 16)%nat /\ off = int32_t off /\ (b, off, w) ∈ slots.
Proof. intros [[H1%Nat.ltb_lt H2%Z.eqb_eq]%andb_prop H3%bool_decide_eq_true]%andb_prop. done. Qed.

Lemma insn_okb_spec i : insn_okb i = true -> insn_ok C slots i.
Proof.
  destruct i as [w d b off|w r b off|w d r|w d v|o outs ins| |l]; cbn [insn_okb insn_ok]; try discriminate; try (intros _; exact I).
  - intros [H1%reg_freeb_spec H2%slotb_spec]%andb_prop. by split.
  - intros [H1%Nat.ltb_lt H2%slotb_spec]%andb_prop. by split.
  - intros [[H1%reg_freeb_spec H2%Nat.ltb_lt]%andb_prop H3%negb_true_iff%Nat.eqb_neq]%andb_prop. by split_and!.
  - apply reg_freeb_spec.
  - destruct o as [| | |u ty t0 t1|b ty t0 t1 t2| | | |l|ty t1 t2 c l|opc se outs0 ins0 consts]; try discriminate.
    + destruct outs as [|d [|]], ins as [|x [|]]; try discriminate. intros [[H1%conformsb_spec H2]%andb_prop [_ H3]%reg_freeb_spec]%andb_prop. split; [exact H1|by split].
    + destruct outs as [|d [|]], ins as [|x [|y [|]]]; try discriminate. intros [[H1%conformsb_spec H2]%andb_prop [_ H3]%reg_freeb_spec]%andb_prop. split; [exact H1|by split].
    + destruct outs, ins; try discriminate. intros _. exact I.
    + destruct outs, ins as [|x [|y [|]]]; try discriminate. intros [[H1 H2]%andb_prop H3]%andb_prop. split; [exact H1|split; [exact H2|exact H3]].
    + destruct outs0, ins0, consts as [|? [|]], outs, ins; try discriminate. intros H%Nat.eqb_eq. exact H.
Qed.
End Check.

Definition has_label (k : nat) (hc : list HInsn) : bool := existsb (fun j => match j with Hlabel l => Nat.eqb l k | _ => false end) hc.
Definition closedb (hc : list HInsn) : bool := forallb (fun i => match target i with Some k => has_label k hc | None => true end) hc.

Lemma closedb_spec hc : closedb hc = true -> closed_block hc.
Proof.
  intros H i k Hin Ht. pose proof (forallb_elem _ _ _ H Hin) as Hk. cbn in Hk. rewrite Ht in Hk.
  apply existsb_exists in Hk as (j & Hj & E). destruct j; try discriminate E. apply Nat.eqb_eq in E as ->. by apply list_elem_of_In.
Qed.

(** ** The state of the guest in memory *)

Lemma pack_low w n l : 0 < w -> uint (w * Z.of_nat n) (pack w l) = pack w (take n l).
Proof.
  intros Hw. apply Z.bits_inj'. intros i Hi. rewrite uint_testbit by lia. rewrite !pack_testbit by done.
  destruct (Z.ltb_spec i (w * Z.of_nat n)) as [Hlt|Hge]; cbn [andb].
  - rewrite lookup_take_lt; [done|]. assert (i / w < Z.of_nat n) by (apply Z.div_lt_upper_bound; lia). pose proof (Z.div_pos i w Hi Hw). lia.
  - rewrite lookup_take_ge; [cbn [default from_option]; unfold uint; by rewrite Z.mod_0_l, Z.bits_0 by lia|]. assert (Z.of_nat n <= i / w) by (apply Z.div_le_lower_bound; lia). lia.
Qed.

Lemma read_mem_low m n a : (n <= 8)%nat -> uint (8 * Z.of_nat n) (read_mem m 8 a) = read_mem m n a.
Proof.
  intros Hn. unfold read_mem. rewrite pack_low by lia. f_equal. rewrite <- fmap_take. f_equal.
  replace 8%nat with (n + (8 - n))%nat by lia. rewrite seq_app, take_app_length'; [done|by rewrite length_seq].
Qed.

(** The registers and words of a state of the processor, as the allocator sees them. *)
Definition host_of (m : X86) : Host unit :=
  mkHost (fun r => xr m (Z.of_nat r)) (fun k => read_mem (xm m) 8 (based m (Z.of_nat k.1) k.2)) tt.

(** Distinct slots are apart in memory. *)
Definition slots_apart (slots : list (nat * Z * TCGType)) (m : X86) : Prop :=
  forall b off w b' off' w', (b, off, w) ∈ slots -> (b', off', w') ∈ slots -> (b, off, w) = (b', off', w') \/
    (b, off) <> (b', off') /\ apart (based m (Z.of_nat b) off) (Z.of_nat (type_bytes w)) (based m (Z.of_nat b') off') (Z.of_nat (type_bytes w')).

Lemma host_of_related slots m : slots_apart slots m -> related slots (host_of m) m.
Proof.
  intros HA. split; [done| |exact HA]. intros b off w _. cbn [host_of hmem fst snd]. rewrite <- type_bytes_bits. symmetry. apply read_mem_low. destruct w; cbn; lia.
Qed.

(** The globals of the context have the values of [st]: the pointer to the CPU state in its
    register, the others in the CPU state. *)
Definition global_value (s : Context) (m : X86) (t : nat) : Z :=
  let ts := alloc_temps s t in
  let ty := temp_type (ir_context s) t in
  if fixed_reg ts then uint (bits ty) (xr m (Z.of_nat (treg ts))) else read_mem (xm m) (type_bytes ty) (based m (Z.of_nat (mem_reg ts)) (mem_offset ts)).

Definition holds (s : Context) (st : State unit) (m : X86) : Prop :=
  forall t v, (t < ctx_nb_globals s)%nat -> vals st !! t = Some v -> global_value s m t = v.

Lemma host_of_globals s st m : holds s st m -> globals_right (ir_context s) (alloc_temps s) st (host_of m).
Proof.
  intros H. split; [by destruct (world st)|]. intros t v Ht Hv. rewrite <- (H t v Ht Hv). unfold host_global, global_value, typed, slot.
  destruct (fixed_reg (alloc_temps s t)); [done|]. cbn [host_of hmem fst snd]. rewrite <- type_bytes_bits. apply read_mem_low. by destruct (temp_type _ _); cbn; lia.
Qed.

(** The slots of the globals are among [slots], and neither rax nor r10 is a base. *)
Definition slots_okb (s : Context) (slots : list (nat * Z * TCGType)) : bool :=
  forallb (fun t => let ts := alloc_temps s t in
    if fixed_reg ts then (treg ts <? 16)%nat && negb (Nat.eqb (treg ts) 0) && negb (Nat.eqb (treg ts) 10)
    else bool_decide ((mem_reg ts, mem_offset ts, temp_type (ir_context s) t) ∈ slots)) (seq 0 (ctx_nb_globals s)) &&
  forallb (fun '(b, _, _) => negb (Nat.eqb b 0) && negb (Nat.eqb b 10)) slots.

Lemma exited_holds s slots code a h m : slots_okb s slots = true -> exited slots code h m -> globals_right (ir_context s) (alloc_temps s) a h -> holds s a m.
Proof.
  intros [HS HB]%andb_prop [_ Er Es] [_ HG] t v Ht Hv. rewrite <- (HG t v Ht Hv). unfold global_value, host_global, typed, slot.
  assert (t ∈ seq 0 (ctx_nb_globals s)) as Hin by (apply elem_of_seq; lia). pose proof (forallb_elem _ _ _ HS Hin) as Hs. cbn beta zeta in Hs.
  destruct (fixed_reg (alloc_temps s t)).
  - apply andb_prop in Hs as [[H1%Nat.ltb_lt H2%negb_true_iff%Nat.eqb_neq]%andb_prop H3%negb_true_iff%Nat.eqb_neq]. by rewrite Er.
  - apply bool_decide_eq_true in Hs. pose proof (forallb_elem _ _ _ HB Hs) as Hb. cbn in Hb.
    apply andb_prop in Hb as [H2%negb_true_iff%Nat.eqb_neq H3%negb_true_iff%Nat.eqb_neq]. by apply Es.
Qed.

(** ** Operations that leave the block *)

Definition no_calls (flags : Z) (ins gs : list Z) (w : unit) : option (effect unit * list Z) := None.

Definition exits (opc : nat) (consts ins : list Z) (w : unit) : option (effect unit) :=
  match consts, ins with
  | [v], [] => if Nat.eqb opc (INDEX_op "exit_tb") then Some (Leaves v w) else None
  | _, _ => None
  end.

Lemma exits_tb v w : exits (INDEX_op "exit_tb") [v] [] w = Some (Leaves v w).
Proof. unfold exits. by rewrite Nat.eqb_refl. Qed.

Lemma exits_sem prog : sem_ok x86_table no_calls exits prog.
Proof.
  assert (forall opc consts vs w e, exits opc consts vs w = Some e -> opc = INDEX_op "exit_tb" /\ exists v, e = Leaves v w) as Hx.
  { intros opc consts vs w e. unfold exits. destruct consts as [|v []]; try discriminate. destruct vs; try discriminate.
    destruct (Nat.eqb_spec opc (INDEX_op "exit_tb")) as [->|]; [|discriminate]. intros [= <-]. by split; [|exists v]. }
  split; try done.
  - intros opc se outs ins consts vs w rs w' _ E. destruct (Hx _ _ _ _ _ E) as (_ & v & ?). done.
  - intros opc consts vs w e Hf E. destruct (Hx _ _ _ _ _ E) as (-> & _). discriminate Hf.
  - intros opc consts vs w c w' E. destruct (Hx _ _ _ _ _ E) as (-> & _). left. reflexivity.
Qed.

(** Which registers are reserved matters to the allocator, not to the code. *)
Lemma host_run_reserved {World} C g call_sem (other_sem : nat -> list Z -> list Z -> World -> option (effect World)) junk r r' fuel clock code pc (h : Host World) :
  host_run C x86_table (x86_target r) g call_sem other_sem junk clock fuel code pc h =
  host_run C x86_table (x86_target r') g call_sem other_sem junk clock fuel code pc h.
Proof. reflexivity. Qed.

(** C27: A block of TCG operations of the ARM front end, from the operations to the bytes: it is
    optimised, analysed, allocated and written into the code buffer by the emitters of the
    target.  If the instructions chosen pass the check (moves, constants, slots, operations
    on operands within the constraints, branches, labels and [exit_tb]) and the slots do not
    overlap, then whenever the block, run as operations from the values of the globals in the
    CPU state, leaves with [exit_tb v], the processor runs the bytes from the start of the
    block to [tb_ret_addr] with [v] in rax and the globals of the final state in the CPU
    state. *)
Theorem arm_machine_code (offsetof : TcgTemps.field -> Z) (s0 s : Context) G tb_ret_addr
    (prog prog' : list TCGOp) (code : list HInsn) (ts : Temps) (slots : list (nat * Z * TCGType)) base c c' fuel (st a : State unit) (m : X86) v :
  layout_ok offsetof = true -> arm_globals offsetof = Some s0 -> temps_reach s0 s ->
  block_ok (ir_context s) x86_table prog -> forallb arity_ok prog = true -> forallb (writes_ok (ir_context s) (alloc_temps s)) prog = true ->
  tcg_optimize (ir_context s) prog ts = Some prog' ->
  entry_ok (ir_context s) x86_table prog' = true -> discards_ok (ir_context s) x86_table prog' = true ->
  tcg_gen_code_common (ir_context s) x86_table (x86_target (ctx_reserved_regs s)) (alloc_temps s) ts prog = Some code ->
  forallb (insn_okb (ir_context s) slots) code = true -> closedb code = true -> slots_okb s slots = true ->
  fresh base c -> gen_hosts G tb_ret_addr code c = Some c' -> small_block base (code_ptr c') ->
  state_ok (ir_context s) st -> holds s st m -> slots_apart slots m ->
  run (ir_context s) no_calls exits fuel prog 0 st = Finished (Some v) a ->
  exists n m', x86_steps n base (block_code base c') (base, m) = Some (uint64_t tb_ret_addr, m') /\ xr m' 0 = uint64_t v /\ holds s a m'.
Proof.
  intros HL HG HR HB Ha Hw HO He Hd Hc Hok Hcl Hsl Hf Hgen Hsm Hs Hh Hap Hrun.
  destruct (arm_host_code offsetof s0 s no_calls exits prog prog' code ts (fun _ _ => 0) fuel st a (host_of m) (Some v)
    HL HG HR HB Ha Hw (exits_sem prog) HO He Hd Hs (host_of_globals _ _ _ Hh) Hc Hrun) as (k & h' & Hk & Hend).
  rewrite (host_run_reserved _ _ _ _ _ _ x86_reserved_regs) in Hk.
  destruct (block_runs (ir_context s) (alloc_temps s) no_calls exits G tb_ret_addr slots code base c c' (fun _ _ => 0) 0 k (host_of m) h' m (Some v)) as (n & m' & E & X);
    [exact exits_tb|done|done| |by apply closedb_spec|done|by apply host_of_related|exact Hk|].
  { apply Forall_forall. intros i Hi. apply insn_okb_spec. exact (forallb_elem _ _ _ Hok Hi). }
  exists n, m'. split; [exact E|]. split; [apply X|]. by eapply exited_holds.
Qed.

(** ** An example: r0 := r1 * 6 + r2; if r0 >= r2 then r3 := r0; exit with 17 *)

Definition exit_prog : list TCGOp :=
  [op_movi TCG_TYPE_I32 30 6; op_bin op_mul TCG_TYPE_I32 31 2 30; op_bin op_add TCG_TYPE_I32 32 31 3;
   op_mov TCG_TYPE_I32 1 32; op_brcond TCG_TYPE_I32 32 3 TCG_COND_LTU 1; op_mov TCG_TYPE_I32 4 32; op_set_label 1;
   op_other (INDEX_op "exit_tb") true [] [] [17]].

Definition exit_insns : list HInsn :=
  [Hld TCG_TYPE_I32 5 14 4; Hmov TCG_TYPE_I32 3 5; Hop (op_bin op_mul TCG_TYPE_I32 31 2 30) [3]%nat [Reg 3; Const 6];
   Hld TCG_TYPE_I32 12 14 8; Hop (op_bin op_add TCG_TYPE_I32 32 31 3) [3]%nat [Reg 3; Reg 12];
   Hmov TCG_TYPE_I32 13 3; Hst TCG_TYPE_I32 3 4 128; Hst TCG_TYPE_I32 13 14 0;
   Hop (op_brcond TCG_TYPE_I32 32 3 TCG_COND_LTU 1) [] [Reg 3; Reg 12];
   Hld TCG_TYPE_I32 5 4 128; Hst TCG_TYPE_I32 5 14 12; Hlabel 1; Hop (op_other 109 true [] [] [17]) [] []].

Definition exit_slots : list (nat * Z * TCGType) :=
  (4%nat, 128, TCG_TYPE_I32) :: ((fun t => (mem_reg (alloc_temps arm_context t), mem_offset (alloc_temps arm_context t), temp_type (ir_context arm_context) t)) <$> seq 1 29).

Definition exit_ctx : Ctx := mkCtx (fun _ => 0) 65536 65536 [first_reloc []; first_reloc []] 0 [0; 0] None.
Definition some_guest : GuestConf := mkGuestConf 0 1000 1100 1104 1108 1200 1204 1208 0x400000 0x400100.

(** The CPU state is at 4096, with 7 and 9 in r1 and r2, and the stack at 32768. *)
Definition exit_machine : X86 :=
  mkX86 (fun r => if r =? 14 then 4096 else if r =? 4 then 32768 else 77) None (write_mem (write_mem (write_mem (fun _ => 0) 4 4096 1) 4 4100 7) 4 4104 9).

Definition exit_start : State unit := mkState (4096 :: 1 :: 7 :: 9 :: replicate 26 0 ++ [0; 0; 0]) tt.
Definition exit_final : State unit := mkState (4096 :: 51 :: 7 :: 9 :: 51 :: replicate 25 0 ++ [6; 42; 51]) tt.

(** Two slots, compared by computation. *)
Definition slots_apartb (l : list (nat * Z * TCGType)) (m : X86) : bool :=
  forallb (fun '(b, off, w) => forallb (fun '(b', off', w') =>
    bool_decide ((b, off, w) = (b', off', w')) ||
    negb (bool_decide ((b, off) = (b', off'))) &&
    (Z.of_nat (type_bytes w) <=? uint64_t (based m (Z.of_nat b') off' - based m (Z.of_nat b) off)) &&
    (Z.of_nat (type_bytes w') <=? uint64_t (based m (Z.of_nat b) off - based m (Z.of_nat b') off'))) l) l.

Lemma slots_apartb_spec l m : slots_apartb l m = true -> slots_apart l m.
Proof.
  intros H b off w b' off' w' H1 H2. pose proof (forallb_elem _ _ _ H H1) as Ha. cbn beta iota in Ha.
  pose proof (forallb_elem _ _ _ Ha H2) as Hb. cbn beta iota in Hb. apply orb_prop in Hb as [Hb%bool_decide_eq_true|Hb]; [by left|right].
  apply andb_prop in Hb as [[Hb1%negb_true_iff%bool_decide_eq_false Hb2%Z.leb_le]%andb_prop Hb3%Z.leb_le]. split; [done|by split].
Qed.

Lemma exit_length : code_ptr <$> gen_hosts some_guest 0x10000000 exit_insns exit_ctx = Some 65595.
Proof. vm_compute. reflexivity. Qed.

Lemma exit_start_ok : state_ok (ir_context arm_context) exit_start /\ holds arm_context exit_start exit_machine.
Proof.
  split; [split|].
  - vm_compute. reflexivity.
  - intros t v Hx. do 33 (destruct t as [|t]; [injection Hx as <-; vm_compute; reflexivity|]). discriminate Hx.
  - intros t v Ht Hx. do 30 (destruct t as [|t]; [injection Hx as <-; vm_compute; reflexivity|]).
    change (ctx_nb_globals arm_context) with 30%nat in Ht. lia.
Qed.

Lemma exit_block_ok : block_ok (ir_context arm_context) x86_table exit_prog.
Proof. split; vm_compute; reflexivity. Qed.

Lemma exit_passes :
  forallb arity_ok exit_prog = true /\ forallb (writes_ok (ir_context arm_context) (alloc_temps arm_context)) exit_prog = true /\
  tcg_optimize (ir_context arm_context) exit_prog blank_temps = Some exit_prog /\
  entry_ok (ir_context arm_context) x86_table exit_prog = true /\ discards_ok (ir_context arm_context) x86_table exit_prog = true /\
  tcg_gen_code_common (ir_context arm_context) x86_table (x86_target (ctx_reserved_regs arm_context)) (alloc_temps arm_context) blank_temps exit_prog = Some exit_insns.
Proof. split_and!; vm_compute; reflexivity. Qed.

Lemma exit_checked : forallb (insn_okb (ir_context arm_context) exit_slots) exit_insns = true /\ closedb exit_insns = true /\ slots_okb arm_context exit_slots = true.
Proof. split_and!; vm_compute; reflexivity. Qed.

Lemma exit_fresh : fresh 65536 exit_ctx.
Proof. split; [reflexivity|]. intros [|[|l]] x Hx; [by injection Hx|by injection Hx|discriminate Hx]. Qed.

Lemma exit_apart : slots_apart exit_slots exit_machine.
Proof. apply slots_apartb_spec. vm_compute. reflexivity. Qed.

Lemma exit_runs : run (ir_context arm_context) no_calls exits 20 exit_prog 0 exit_start = Finished (Some 17) exit_final.
Proof. vm_compute. reflexivity. Qed.

Lemma arm_machine_code_witness : exists c' n m',
  x86_steps n 65536 (block_code 65536 c') (65536, exit_machine) = Some (uint64_t 0x10000000, m') /\ xr m' 0 = uint64_t 17 /\
  holds arm_context exit_final m'.
Proof.
  destruct arm_demo_reach as (s0 & H0 & HR). destruct exit_start_ok as [Hs Hh].
  destruct (fmap_Some_1 code_ptr _ _ exit_length) as (c' & Ec & Ep). exists c'.
  destruct exit_passes as (P1 & P2 & P3 & P4 & P5 & P6). destruct exit_checked as (Q1 & Q2 & Q3).
  refine (arm_machine_code demo_offsetof s0 arm_context some_guest 0x10000000 exit_prog exit_prog exit_insns blank_temps exit_slots 65536 exit_ctx c' 20
    exit_start exit_final exit_machine 17 _ H0 HR exit_block_ok P1 P2 P3 P4 P5 P6 Q1 Q2 Q3 exit_fresh Ec _ Hs Hh exit_apart exit_runs).
  - vm_compute. reflexivity.
  - rewrite <- Ep. unfold small_block. lia.
Defined.
