(* ===== verification/SimBase.v ===== *)
(** * Shared lemmas of the simulator models

    Counting the elements of a list with a property, sums over a list, and sequences
    of clock readings: what the models of the C++ timing simulator (src/simu,
    src/misc/libsuc, src/emul) have in common. *)

From S2P Require Import Prelude.
Open Scope Z_scope.

(** ** Counting *)

Section Count.
  Context {A : Type}.
  Implicit Types (f g : A -> bool) (l : list A).

Fixpoint count_if (f : A -> bool) (l : list A) : Z :=
  match l with
  | [] => 0
  | x :: l => b2z (f x) + count_if f l
  end.

Lemma b2z_range b : 0 <= b2z b <= 1.
Proof. destruct b; cbn; lia. Qed.

Lemma count_if_range f l : 0 <= count_if f l <= Z.of_nat (length l).
Proof. induction l as [|x l IH]; cbn -[Z.of_nat]; [lia|]. pose proof (b2z_range (f x)). lia. Qed.

Lemma count_if_app f l l' : count_if f (l ++ l') = count_if f l + count_if f l'.
Proof. induction l as [|x l IH]; cbn; [done|]. rewrite IH. lia. Qed.

Lemma count_if_mono f g l : (forall x, x ∈ l -> f x -> g x) -> count_if f l <= count_if g l.
Proof.
  induction l as [|x l IH]; intros H; cbn; [lia|].
  assert (b2z (f x) <= b2z (g x)).
  { specialize (H x ltac:(left)). destruct (f x), (g x); cbn in *; lia. }
  specialize (IH (fun y Hy => H y ltac:(by right))). lia.
Qed.

Lemma count_if_ext f g l : (forall x, x ∈ l -> f x = g x) -> count_if f l = count_if g l.
Proof.
  intros H. apply Z.le_antisymm; apply count_if_mono; intros x Hx; by rewrite (H x Hx).
Qed.

Lemma count_if_zero f l : (forall x, x ∈ l -> f x = false) -> count_if f l = 0.
Proof.
  induction l as [|x l IH]; intros H; cbn; [done|].
  rewrite (H x) by left. rewrite IH; [done|]. intros y Hy. apply H. by right.
Qed.

Lemma count_if_full f l : (forall x, x ∈ l -> f x) -> count_if f l = Z.of_nat (length l).
Proof.
  induction l as [|x l IH]; intros H; cbn -[Z.of_nat]; [done|].
  rewrite IH by (intros y Hy; apply H; by right).
  specialize (H x ltac:(left)). destruct (f x); cbn -[Z.of_nat]; [lia|done].
Qed.

(** Not all the elements are counted: one is not. *)
Lemma count_if_lt f l : count_if f l < Z.of_nat (length l) -> exists x, x ∈ l /\ f x = false.
Proof.
  induction l as [|x l IH]; cbn -[Z.of_nat]; [lia|]. intros H. destruct (f x) eqn:E.
  - destruct IH as (y & Hy & ?); [cbn -[Z.of_nat] in H; lia|]. exists y. split; [by right|done].
  - exists x. split; [left|done].
Qed.

(** Overwriting one element moves the count by that element. *)
Lemma count_if_insert f l i x y : l !! i = Some x ->
  count_if f (<[i := y]> l) = count_if f l - b2z (f x) + b2z (f y).
Proof.
  revert i. induction l as [|z l IH]; intros [|i] H; try done.
  - injection H as ->. cbn. lia.
  - change (<[S i := y]> (z :: l)) with (z :: <[i := y]> l). cbn [count_if]. rewrite (IH i H). lia.
Qed.

End Count.

(** ** Sums *)

Fixpoint zsum (l : list Z) : Z :=
  match l with [] => 0 | x :: l => x + zsum l end.

Lemma zsum_app l l' : zsum (l ++ l') = zsum l + zsum l'.
Proof. induction l as [|x l IH]; cbn; [done|]. rewrite IH. lia. Qed.

Lemma zsum_nonneg l : (forall x, x ∈ l -> 0 <= x) -> 0 <= zsum l.
Proof.
  induction l as [|x l IH]; intros H; cbn; [lia|].
  pose proof (H x ltac:(left)). specialize (IH (fun y Hy => H y ltac:(by right))). lia.
Qed.

Lemma zsum_insert l i x y : l !! i = Some x -> zsum (<[i := y]> l) = zsum l - x + y.
Proof.
  revert i. induction l as [|z l IH]; intros [|i] H; try done.
  - injection H as ->. cbn. lia.
  - change (<[S i := y]> (z :: l)) with (z :: <[i := y]> l). cbn [zsum]. rewrite (IH i H). lia.
Qed.

(** An element of an overwritten list is the new one or an old one. *)
Lemma elem_of_insert {A} (l : list A) i y z : z ∈ <[i := y]> l -> z = y \/ z ∈ l.
Proof.
  intros (j & Hj)%list_elem_of_lookup. apply list_lookup_insert_Some in Hj as [(_ & -> & _)|[_ Hj]].
  - by left.
  - right. by eapply list_elem_of_lookup_2.
Qed.

(** ** Clocks *)

(** The clock never goes back. *)
Fixpoint clocks_from (c : Z) (cs : list Z) : Prop :=
  match cs with
  | [] => True
  | c' :: cs => c <= c' /\ clocks_from c' cs
  end.
