(* ===== verification/SimPort.v ===== *)
(** * Contention ports of the timing simulator

    Model of src/misc/libsuc/Port.h and Port.cpp: the port classes that answer "when
    can this request use the resource" - unlimited, one or several fully pipelined
    units, one or several units with an occupancy - and [PortGeneric::create], which
    picks the cheapest class for a number of units and an occupancy.

    [globalClock] is the argument [c] of every method.  Times are cycle counts and
    are not bounded; [nextSlotDelta] truncates to the 16 bits of [TimeDelta_t].  The
    statistics counters are left out.  [PortUnlimited::lTime] is never initialised and
    never read by a grant: 0 stands for it.  A [PortNPipe] has at least one unit
    ([create] builds no other); on none the model grants the current cycle.

    The slowest class, [PortNPipe], is the specification: the others are proved to
    grant the same cycles, and it is proved never to have more requests in progress
    than units. *)

From S2P Require Import Prelude SimBase.
Open Scope Z_scope.

(** ** The classes *)

(** The class of the port is the constructor; [lTime] is the cycle of the latest use. *)
Inductive Port :=
  | PortUnlimited (lTime : Z)
  | PortFullyPipe (lTime : Z)
  | PortFullyNPipe (nUnitsMinusOne freeUnits lTime : Z)
  | PortPipe (ocp lTime : Z)
  | PortNPipe (ocp : Z) (portBusyUntil : list Z).

(** [if (lTime < globalClock) lTime = globalClock;] *)
Definition catch_up (c lTime : Z) : Z := if lTime <? c then c else lTime.

(** The loop of [PortNPipe::calcNextSlot] over the ports after the first. *)
Definition first_time (b : list Z) (firsttime : Z) : Z :=
  foldl (fun m x => if x <? m then x else m) firsttime b.

Definition npipe_calcNextSlot (c : Z) (busy : list Z) : Z :=
  match busy with
  | [] => c
  | b0 :: b => catch_up c (first_time b b0)
  end.

(** The loop of [PortNPipe::nextSlot] over the ports from number [i] on: a port that is
    idle is taken at once, otherwise the first of the earliest ([bufPort], [bufTime]). *)
Fixpoint npipe_scan (c : Z) (b : list Z) (i bufPort : nat) (bufTime : Z) : nat * option Z :=
  match b with
  | [] => (bufPort, Some bufTime)
  | x :: b =>
      if x <? c then (i, None)
      else if x <? bufTime then npipe_scan c b (S i) i x
      else npipe_scan c b (S i) bufPort bufTime
  end.

(** The port used, the cycle granted and the new state. *)
Definition npipe_nextSlot (c occupancy : Z) (busy : list Z) : nat * Z * list Z :=
  match busy with
  | [] => (0%nat, c, [])
  | b0 :: b =>
      if b0 <? c then (0%nat, c, <[0%nat := c + occupancy]> busy)
      else
        match npipe_scan c b 1 0 b0 with
        | (i, None) => (i, c, <[i := c + occupancy]> busy)
        | (i, Some t) => (i, t, <[i := t + occupancy]> busy)
        end
  end.

Definition unlimited_nextSlot (c lTime : Z) : Z * Port := (c, PortUnlimited lTime).
Definition fullypipe_nextSlot (c lTime : Z) : Z * Port :=
  let l := catch_up c lTime in (l, PortFullyPipe (l + 1)).
Definition fullynpipe_nextSlot (c nUnitsMinusOne freeUnits lTime : Z) : Z * Port :=
  if lTime <? c then (c, PortFullyNPipe nUnitsMinusOne nUnitsMinusOne c)
  else if 0 <? freeUnits then (lTime, PortFullyNPipe nUnitsMinusOne (freeUnits - 1) lTime)
  else (lTime + 1, PortFullyNPipe nUnitsMinusOne nUnitsMinusOne (lTime + 1)).
Definition pipe_nextSlot (c ocp lTime : Z) : Z * Port :=
  let st := catch_up c lTime in (st, PortPipe ocp (st + ocp)).

(** The virtual methods. *)
Definition nextSlot (c : Z) (p : Port) : Z * Port :=
  match p with
  | PortUnlimited l => unlimited_nextSlot c l
  | PortFullyPipe l => fullypipe_nextSlot c l
  | PortFullyNPipe m f l => fullynpipe_nextSlot c m f l
  | PortPipe o l => pipe_nextSlot c o l
  | PortNPipe o b => let '(_, t, b) := npipe_nextSlot c o b in (t, PortNPipe o b)
  end.

Definition fullypipe_calcNextSlot (c lTime : Z) : Z := catch_up c lTime.
Definition fullynpipe_calcNextSlot (c freeUnits lTime : Z) : Z :=
  if lTime <? c then c else lTime + b2z (freeUnits =? 0).
Definition pipe_calcNextSlot (c lTime : Z) : Z := catch_up c lTime.

Definition calcNextSlot (c : Z) (p : Port) : Z :=
  match p with
  | PortUnlimited _ => c
  | PortFullyPipe l => fullypipe_calcNextSlot c l
  | PortFullyNPipe _ f l => fullynpipe_calcNextSlot c f l
  | PortPipe _ l => pipe_calcNextSlot c l
  | PortNPipe _ b => npipe_calcNextSlot c b
  end.

(** [n] more calls of [nextSlot]. *)
Fixpoint more_slots (c : Z) (n : nat) (p : Port) : Port :=
  match n with
  | O => p
  | S n => more_slots c n (nextSlot c p).2
  end.

Definition fullypipe_occupySlots (c nSlots lTime : Z) : Z * Port :=
  let l := catch_up c lTime in (l, PortFullyPipe (l + nSlots)).
Definition fullynpipe_occupySlots (c nSlots nUnitsMinusOne freeUnits lTime : Z) : Z * Port :=
  let l := catch_up c lTime in
  (l, PortFullyNPipe nUnitsMinusOne freeUnits (l + nSlots ÷ (nUnitsMinusOne + 1))).
Definition pipe_occupySlots (c nSlots ocp lTime : Z) : Z * Port :=
  let l := catch_up c lTime in (l, PortPipe ocp (l + ocp * nSlots)).
Definition npipe_occupySlots (c nSlots : Z) (p : Port) : Z * Port :=
  let '(t, p) := nextSlot c p in (t, more_slots c (Z.to_nat (nSlots - 1)) p).

Definition occupySlots (c nSlots : Z) (p : Port) : Z * Port :=
  match p with
  | PortUnlimited l => (c, PortUnlimited l)
  | PortFullyPipe l => fullypipe_occupySlots c nSlots l
  | PortFullyNPipe m f l => fullynpipe_occupySlots c nSlots m f l
  | PortPipe o l => pipe_occupySlots c nSlots o l
  | PortNPipe _ _ => npipe_occupySlots c nSlots p
  end.

Definition npipe_lock4nCycles (c clks : Z) (busy : list Z) : list Z :=
  let cns := npipe_calcNextSlot c busy + clks in
  (fun x => if x <? cns then cns else x) <$> busy.

Definition lock4nCycles (c clks : Z) (p : Port) : Port :=
  match p with
  | PortUnlimited l => PortUnlimited (catch_up c l + clks)
  | PortFullyPipe l => PortFullyPipe (catch_up c l + clks)
  | PortFullyNPipe m _ l => PortFullyNPipe m (m + 1) (catch_up c l + clks)
  | PortPipe o l => PortPipe o (catch_up c l + clks)
  | PortNPipe o b => PortNPipe o (npipe_lock4nCycles c clks b)
  end.

Definition nextSlotDelta (c : Z) (p : Port) : Z * Port :=
  let '(t, p) := nextSlot c p in (uint16_t (t - c), p).

(** ** Construction *)

Definition new_npipe (c nUnits occ : Z) : Port :=
  PortNPipe occ (replicate (Z.to_nat nUnits) c).

Definition port_create (c nUnits occ : Z) : Port :=
  if (occ =? 0) || (nUnits =? 0) then PortUnlimited 0
  else if occ =? 1 then
    if nUnits =? 1 then PortFullyPipe c else PortFullyNPipe (nUnits - 1) nUnits c
  else if nUnits =? 1 then PortPipe occ (if occ <? c then c - occ else 0)
  else new_npipe c nUnits occ.

(** The cycles granted to requests made at the cycles [cs]. *)
Fixpoint grants (cs : list Z) (p : Port) : list Z :=
  match cs with
  | [] => []
  | c :: cs => let '(t, p) := nextSlot c p in t :: grants cs p
  end.

(** ** The port with several units *)

Lemma catch_up_max c l : catch_up c l = Z.max c l.
Proof. unfold catch_up. destruct (Z.ltb_spec l c); lia. Qed.

Lemma first_time_spec b m :
  first_time b m ∈ m :: b /\ forall x, x ∈ m :: b -> first_time b m <= x.
Proof.
  revert m. induction b as [|y b IH]; intros m; cbn.
  - split; [left|]. intros x Hx. apply list_elem_of_singleton in Hx. lia.
  - fold (first_time b (if y <? m then y else m)).
    destruct (IH (if y <? m then y else m)) as [H1 H2]. split.
    + destruct (Z.ltb_spec y m); apply elem_of_cons in H1 as [->|H1]; rewrite !elem_of_cons; auto.
    + intros x Hx. rewrite !elem_of_cons in Hx.
      destruct (Z.ltb_spec y m); destruct Hx as [->|[->|Hx]];
        try (apply H2; rewrite elem_of_cons; tauto).
      * transitivity y; [apply H2; left|lia].
      * transitivity m; [apply H2; left|lia].
Qed.

(** The scan ends at an idle port, or at a port no other is earlier than. *)
Lemma npipe_scan_spec c b : forall pre bufPort bufTime,
  (forall x, x ∈ pre -> c <= x /\ bufTime <= x) -> pre !! bufPort = Some bufTime ->
  match npipe_scan c b (length pre) bufPort bufTime with
  | (i, None) => exists x, (pre ++ b) !! i = Some x /\ x < c
  | (i, Some t) => (pre ++ b) !! i = Some t /\ forall x, x ∈ pre ++ b -> c <= x /\ t <= x
  end.
Proof.
  induction b as [|y b IH]; intros pre bp bt Hpre Hbp; cbn.
  - by rewrite app_nil_r.
  - destruct (Z.ltb_spec y c).
    + exists y. split; [|done]. by rewrite lookup_app_r, Nat.sub_diag by done.
    + assert (S (length pre) = length (pre ++ [y])) as -> by (rewrite length_app; cbn; lia).
      rewrite (cons_middle y pre b), (app_assoc pre [y] b). destruct (Z.ltb_spec y bt); apply IH.
      * intros x Hx. apply elem_of_app in Hx as [Hx|Hx%list_elem_of_singleton]; [|lia].
        specialize (Hpre x Hx). lia.
      * by rewrite lookup_app_r, Nat.sub_diag.
      * intros x Hx. apply elem_of_app in Hx as [Hx|Hx%list_elem_of_singleton]; [by apply Hpre|lia].
      * by apply lookup_app_l_Some.
Qed.

(** A request gets the cycle in which the earliest port is idle, and occupies a port
    that is idle then. *)
Lemma npipe_nextSlot_spec c occ busy i t busy' : busy <> [] ->
  npipe_nextSlot c occ busy = (i, t, busy') ->
  exists x, busy !! i = Some x /\ t = Z.max c x /\ busy' = <[i := t + occ]> busy /\
    forall y, y ∈ busy -> t <= Z.max c y.
Proof.
  intros Hne H. destruct busy as [|b0 b]; [done|]. cbn in H. destruct (Z.ltb_spec b0 c).
  - injection H as <- <- <-. exists b0. repeat split; [lia|]. intros; lia.
  - pose proof (npipe_scan_spec c b [b0] 0 b0) as HS. cbn in HS.
    destruct (npipe_scan c b 1 0 b0) as [j [t'|]]; injection H as <- <- <-.
    + destruct HS as [HS1 HS2]; [|done|..].
      { intros x Hx%list_elem_of_singleton. lia. }
      assert (t' ∈ b0 :: b) as Hin by (by eapply list_elem_of_lookup_2).
      exists t'. pose proof (HS2 _ Hin). repeat split; [done|lia|].
      intros y Hy. specialize (HS2 y Hy). lia.
    + destruct HS as (x & Hx & Hlt); [|done|].
      { intros x Hx%list_elem_of_singleton. lia. }
      exists x. repeat split; [done|lia|]. intros; lia.
Qed.

Lemma npipe_calcNextSlot_spec c busy t : busy <> [] ->
  (exists x, x ∈ busy /\ t = Z.max c x) -> (forall y, y ∈ busy -> t <= Z.max c y) ->
  npipe_calcNextSlot c busy = t.
Proof.
  intros Hne (x & Hx & ->) Hmin. destruct busy as [|b0 b]; [done|]. cbn. rewrite catch_up_max.
  destruct (first_time_spec b b0) as [F1 F2]. specialize (F2 x Hx). specialize (Hmin _ F1). lia.
Qed.

(** ** Every class grants what the port with several units grants *)

(** [p] at cycle [c] stands for the units [busy] of occupancy [occ]. *)
Definition port_sim (c occ : Z) (p : Port) (busy : list Z) : Prop :=
  busy <> [] /\
  match p with
  | PortUnlimited _ => occ = 0 /\ forall x, x ∈ busy -> x <= c
  | PortFullyPipe l => occ = 1 /\ exists x, busy = [x] /\ Z.max c x = Z.max c l
  | PortFullyNPipe m f l =>
      occ = 1 /\ m + 1 = Z.of_nat (length busy) /\ 0 <= f <= m + 1 /\
      ((l < c /\ forall x, x ∈ busy -> x <= c) \/
       (c <= l /\ count_if (fun x => x =? l + 1) busy = m + 1 - f /\
        forall x, x ∈ busy -> x = l + 1 \/ Z.max c x = l))
  | PortPipe o l => occ = o /\ exists x, busy = [x] /\ Z.max c x = Z.max c l
  | PortNPipe o b => occ = o /\ busy = b
  end.

(** The port keeps standing for the units when the clock advances. *)
Lemma port_sim_advance c c' occ p busy : c <= c' ->
  port_sim c occ p busy -> port_sim c' occ p busy.
Proof.
  intros Hc [Hne H]. split; [done|]. destruct p as [l|l|m f l|o l|o b]; [| | | |done].
  - destruct H as [-> H]. split; [done|]. intros x Hx. specialize (H x Hx). lia.
  - destruct H as (-> & x & -> & E). split; [done|]. exists x. split; [done|lia].
  - destruct H as (-> & Hm & Hf & H). split_and!; [done|done|lia..|].
    destruct H as [[Hl H]|(Hl & Hcnt & H)].
    + left. split; [lia|]. intros x Hx. specialize (H x Hx). lia.
    + destruct (decide (l < c')) as [Hlt|Hge]; [left|right]; split_and!; try lia.
      * intros x Hx. specialize (H x Hx). lia.
      * intros x Hx. specialize (H x Hx). lia.
  - destruct H as (-> & x & -> & E). split; [done|]. exists x. split; [done|lia].
Qed.

(** One unit: the request waits for it. *)
Lemma npipe_nextSlot_one c occ x :
  npipe_nextSlot c occ [x] = (0%nat, Z.max c x, [Z.max c x + occ]).
Proof. cbn. destruct (Z.ltb_spec x c); cbn; repeat f_equal; lia. Qed.

Definition agrees (c occ : Z) (p : Port) (busy : list Z) : Prop :=
  (nextSlot c p).1 = (npipe_nextSlot c occ busy).1.2 /\
  port_sim c occ (nextSlot c p).2 (npipe_nextSlot c occ busy).2.

Lemma unlimited_step c l busy :
  port_sim c 0 (PortUnlimited l) busy -> agrees c 0 (PortUnlimited l) busy.
Proof.
  intros (Hne & _ & H). unfold agrees, nextSlot, fullynpipe_nextSlot, unlimited_nextSlot. cbn.
  destruct (npipe_nextSlot c 0 busy) as [[i t] busy'] eqn:E. cbn.
  apply npipe_nextSlot_spec in E as (x & Hx & -> & -> & Hmin); [|done].
  pose proof (H x ltac:(by eapply list_elem_of_lookup_2)). split; [lia|].
  split; [by destruct busy, i|]. split; [done|].
  intros y [->|Hy]%elem_of_insert; [lia|by apply H].
Qed.

(** Several fully pipelined units: the units that were given the cycle [l] are busy until
    [l + 1], the others are idle by [l]. *)
Lemma fullynpipe_step c m f l busy :
  port_sim c 1 (PortFullyNPipe m f l) busy -> agrees c 1 (PortFullyNPipe m f l) busy.
Proof.
  intros (Hne & _ & Hm & Hf & H). unfold agrees, nextSlot, fullynpipe_nextSlot, unlimited_nextSlot. cbn.
  destruct (npipe_nextSlot c 1 busy) as [[i t] busy'] eqn:E.
  apply npipe_nextSlot_spec in E as (x & Hx & -> & -> & Hmin); [|done].
  assert (x ∈ busy) as Hin by (by eapply list_elem_of_lookup_2).
  assert (<[i := Z.max c x + 1]> busy <> []) as Hne' by (by destruct busy, i).
  assert (forall g, count_if g (<[i := Z.max c x + 1]> busy) =
    count_if g busy - b2z (g x) + b2z (g (Z.max c x + 1))) as Hins
    by (intros; by apply count_if_insert).
  assert (0 <= m) by (destruct busy; [done|]; cbn in Hm; lia).
  destruct H as [[Hl H]|(Hl & Hcnt & H)].
  - destruct (Z.ltb_spec l c); [|lia]. cbn. pose proof (H x Hin). split; [lia|].
    split; [done|]. split_and!; [done|by rewrite length_insert|lia..|]. right.
    split; [lia|]. split.
    + rewrite Hins, count_if_zero; [|intros y Hy; specialize (H y Hy); lia]. unfold b2z. split_ltb; lia.
    + intros y [->|Hy]%elem_of_insert; [lia|]. specialize (H y Hy). lia.
  - destruct (Z.ltb_spec l c); [lia|]. destruct (Z.ltb_spec 0 f); cbn.
    + destruct (count_if_lt (fun x => x =? l + 1) busy) as (y & Hy & Ny); [lia|].
      pose proof (Hmin y Hy). pose proof (H y Hy). pose proof (H x Hin).
      split; [lia|]. split; [done|]. split_and!; [done|by rewrite length_insert|lia..|]. right.
      split; [lia|]. split.
      * rewrite Hins. unfold b2z. split_ltb; lia.
      * intros z [->|Hz]%elem_of_insert; [lia|by apply H].
    + assert (forall y, y ∈ busy -> y = l + 1) as Hall.
      { intros y Hy. destruct (decide (y = l + 1)); [done|]. exfalso.
        apply list_elem_of_lookup in Hy as (j & Hj).
        pose proof (count_if_insert (fun x => x =? l + 1) busy j y (l + 1) Hj) as HC.
        pose proof (count_if_range (fun x => x =? l + 1) (<[j := l + 1]> busy)) as HR.
        rewrite length_insert in HR. unfold b2z in HC.
        rewrite Z.eqb_refl in HC. destruct (Z.eqb_spec y (l + 1)); lia. }
      pose proof (Hall x Hin). split; [lia|].
      split; [done|]. split_and!; [done|by rewrite length_insert|lia..|]. right.
      split; [lia|]. split.
      * rewrite Hins, count_if_zero; [unfold b2z; split_ltb; lia|].
        intros y Hy. specialize (Hall y Hy). lia.
      * intros y [->|Hy]%elem_of_insert; [lia|]. specialize (Hall y Hy). lia.
Qed.

Lemma port_sim_step c occ p busy : port_sim c occ p busy -> agrees c occ p busy.
Proof.
  intros HS. pose proof HS as [Hne H]. destruct p as [l|l|m f l|o l|o b].
  - destruct H as [-> _]. by apply unlimited_step.
  - destruct H as (-> & x & -> & E). unfold agrees. rewrite npipe_nextSlot_one. cbn.
    rewrite catch_up_max. split; [lia|]. split; [done|]. split; [done|].
    eexists; split; [done|lia].
  - destruct H as [-> _]. by apply fullynpipe_step.
  - destruct H as (-> & x & -> & E). unfold agrees. rewrite npipe_nextSlot_one. cbn.
    rewrite catch_up_max. split; [lia|]. split; [done|]. split; [done|].
    eexists; split; [done|lia].
  - destruct H as [-> ->]. unfold agrees, nextSlot, fullynpipe_nextSlot, unlimited_nextSlot. cbn.
    destruct (npipe_nextSlot c o b) as [[i t] b'] eqn:E. cbn. split; [done|].
    apply npipe_nextSlot_spec in E as (x & Hx & -> & -> & _); [|done].
    split; [by destruct b, i|done].
Qed.

(** [create] builds a port that stands for idle units. *)
Lemma port_create_sim c nUnits occ : 0 <= c -> 0 < nUnits -> 0 <= occ ->
  port_sim c occ (port_create c nUnits occ) (replicate (Z.to_nat nUnits) c).
Proof.
  intros Hc Hn Ho. unfold port_create. split.
  { destruct (Z.to_nat nUnits) eqn:E; [lia|done]. }
  destruct (Z.eqb_spec occ 0) as [->|]; [|destruct (Z.eqb_spec nUnits 0); [lia|]]; cbn.
  { split; [done|]. intros x Hx%elem_of_replicate. lia. }
  destruct (Z.eqb_spec occ 1) as [->|], (Z.eqb_spec nUnits 1) as [->|].
  - split; [done|]. by exists c.
  - split_and!; [done|rewrite length_replicate; lia|lia..|]. right. split; [lia|]. split.
    + rewrite count_if_zero; [lia|]. intros x Hx%elem_of_replicate. lia.
    + intros x Hx%elem_of_replicate. lia.
  - split; [done|]. exists c. split; [done|]. destruct (Z.ltb_spec occ c); lia.
  - done.
Qed.

Lemma port_sim_grants cs : forall c occ p busy, port_sim c occ p busy -> clocks_from c cs ->
  grants cs p = grants cs (PortNPipe occ busy).
Proof.
  induction cs as [|c' cs IH]; intros c occ p busy H Hcs; cbn; [done|]. destruct Hcs as [Hc Hcs].
  apply (port_sim_advance _ c') in H; [|done].
  destruct (port_sim_step _ _ _ _ H) as [E1 E2].
  destruct (nextSlot c' p) as [t p'], (npipe_nextSlot c' occ busy) as [[i t'] busy']. cbn in *.
  subst t'. f_equal. by apply (IH c').
Qed.

(** ** The schedule the ports implement *)

(** The units held after cycle [t] by requests granted at the cycles [log]. *)
Definition held (occ t : Z) (log : list Z) : Z := count_if (fun g => t <? g + occ) log.

(** The requests in progress in cycle [t]. *)
Definition in_progress (occ t : Z) (log : list Z) : Z :=
  count_if (fun g => (g <=? t) && (t <? g + occ)) log.

(** The requests made at the cycles [cs] are served in order at [ts]: each at the first
    cycle, from its own and from the one of its predecessor on, with an idle unit. *)
Fixpoint greedy (n occ : Z) (log : list Z) (last : Z) (cs ts : list Z) : Prop :=
  match cs, ts with
  | [], [] => True
  | c :: cs, t :: ts =>
      (Z.max c last <= t /\ held occ t log < n /\
       forall s, Z.max c last <= s < t -> n <= held occ s log) /\
      greedy n occ (t :: log) t cs ts
  | _, _ => False
  end.

Lemma npipe_greedy occ cs : 0 <= occ -> forall busy log last c,
  busy <> [] -> (forall t, last <= t -> held occ t log = count_if (fun x => t <? x) busy) ->
  (forall y, y ∈ busy -> last <= Z.max c y) -> clocks_from c cs ->
  greedy (Z.of_nat (length busy)) occ log last cs (grants cs (PortNPipe occ busy)).
Proof.
  intros Ho. induction cs as [|c' cs IH]; intros busy log last c Hne Hheld Hlast Hcs; cbn; [done|].
  destruct Hcs as [Hc Hcs]. destruct (npipe_nextSlot c' occ busy) as [[i t] busy'] eqn:E.
  apply npipe_nextSlot_spec in E as (x & Hx & Et & -> & Hmin); [|done].
  assert (x ∈ busy) as Hin by (by eapply list_elem_of_lookup_2).
  pose proof (Hlast x Hin) as Hlx. split; [split_and!|].
  - lia.
  - rewrite Hheld by lia.
    pose proof (count_if_insert (fun x => t <? x) busy i x (t + 1) Hx) as HC.
    pose proof (count_if_range (fun x => t <? x) (<[i := t + 1]> busy)) as HR.
    rewrite length_insert in HR. unfold b2z in HC. revert HC. split_ltb.
  - intros s Hs. rewrite Hheld by lia. rewrite count_if_full; [lia|].
    intros y Hy. specialize (Hmin y Hy). destruct (Z.ltb_spec s y); [done|lia].
  - rewrite <- (length_insert busy i (t + occ)). apply (IH _ _ _ c').
    + by destruct busy, i.
    + intros t' Ht'. cbn. fold (held occ t' log). rewrite Hheld by lia.
      rewrite (count_if_insert _ _ _ _ _ Hx). destruct (Z.ltb_spec t' x); [lia|cbn; lia].
    + intros y [->|Hy]%elem_of_insert; [lia|]. by apply Hmin.
    + done.
Qed.

(** A greedy schedule never has more requests in progress than units. *)
Lemma greedy_capacity n occ t cs : forall log last ts,
  in_progress occ t log <= n -> greedy n occ log last cs ts ->
  in_progress occ t (ts ++ log) <= n.
Proof.
  induction cs as [|c cs IH]; intros log last [|g ts] Hlog H; cbn in H; [done..|].
  destruct H as [(_ & Hlt & _) H]. cbn.
  assert (in_progress occ t (g :: log) <= n) as Hg.
  { cbn. destruct (Z.leb_spec g t), (Z.ltb_spec t (g + occ)); cbn;
      fold (in_progress occ t log); try lia.
    enough (in_progress occ t log <= held occ g log) by lia.
    apply count_if_mono. intros x _. destruct (Z.leb_spec x t), (Z.ltb_spec t (x + occ)); try done.
    intros _. destruct (Z.ltb_spec g (x + occ)); [done|lia]. }
  specialize (IH _ _ _ Hg H). unfold in_progress in *.
  rewrite count_if_app in IH |- *. cbn in IH. lia.
Qed.

(** ** Properties *)

(** Whatever the number of units and their occupancy, the port [create] picks serves
    the requests of every sequence of clock readings as the general [PortNPipe] would:
    in order, each at the first cycle with an idle unit, so that no cycle has more
    requests in progress than units. *)
Lemma port_create_greedy c nUnits occ cs :
  0 <= c -> 0 < nUnits -> 0 <= occ -> clocks_from c cs ->
  grants cs (port_create c nUnits occ) = grants cs (new_npipe c nUnits occ) /\
  greedy nUnits occ [] c cs (grants cs (port_create c nUnits occ)) /\
  forall t, in_progress occ t (grants cs (port_create c nUnits occ)) <= nUnits.
Proof.
  intros Hc Hn Ho Hcs. pose proof (port_create_sim c nUnits occ Hc Hn Ho) as HS.
  rewrite (port_sim_grants cs _ _ _ _ HS Hcs). split; [done|].
  assert (greedy nUnits occ [] c cs
    (grants cs (PortNPipe occ (replicate (Z.to_nat nUnits) c)))) as HG.
  { replace nUnits with (Z.of_nat (length (replicate (Z.to_nat nUnits) c))) at 1
      by (rewrite length_replicate; lia).
    apply (npipe_greedy occ cs Ho _ _ _ c); [apply HS| | |done].
    - intros t Ht. symmetry. apply count_if_zero. intros x Hx%elem_of_replicate. lia.
    - intros y Hy%elem_of_replicate. lia. }
  split; [done|]. intros t.
  rewrite <- (app_nil_r (grants _ _)). apply (greedy_capacity _ _ _ cs _ c); [cbn; lia|done].
Qed.

Lemma port_create_greedy_witness :
  grants [5; 5; 5; 9] (port_create 5 2 3) = [5; 5; 8; 9] /\
  in_progress 3 8 (grants [5; 5; 5; 9] (port_create 5 2 3)) <= 2.
Proof.
  split; [reflexivity|]. apply (port_create_greedy 5 2 3 [5; 5; 5; 9]); cbn; lia.
Defined.

Lemma nextSlot_calcNextSlot c occ p busy :
  port_sim c occ p busy -> (nextSlot c p).1 = calcNextSlot c p.
Proof.
  intros [Hne H]. destruct p as [l|l|m f l|o l|o b]; cbn in *; try done.
  - unfold fullynpipe_nextSlot, fullynpipe_calcNextSlot. destruct (l <? c); cbn; [done|].
    unfold b2z. split_ltb; cbn; lia.
  - destruct H as [-> ->]. destruct (npipe_nextSlot c o b) as [[i t] b'] eqn:E. cbn.
    apply npipe_nextSlot_spec in E as (x & Hx & -> & _ & Hmin); [|done]. symmetry.
    apply npipe_calcNextSlot_spec; [done| |done]. exists x.
    split; [by eapply list_elem_of_lookup_2|done].
Qed.

Lemma more_slots_pipe c o k : forall l, 0 <= o -> c <= l ->
  more_slots c k (PortPipe o l) = PortPipe o (l + o * Z.of_nat k).
Proof.
  induction k as [|k IH]; intros l Ho Hl; cbn [more_slots]; [f_equal; lia|].
  cbn [nextSlot pipe_nextSlot fullypipe_nextSlot snd]. rewrite catch_up_max, IH by lia. f_equal. lia.
Qed.

Lemma more_slots_fullypipe c k : forall l, c <= l ->
  more_slots c k (PortFullyPipe l) = PortFullyPipe (l + Z.of_nat k).
Proof.
  induction k as [|k IH]; intros l Hl; cbn [more_slots]; [f_equal; lia|].
  cbn [nextSlot pipe_nextSlot fullypipe_nextSlot snd]. rewrite catch_up_max, IH by lia. f_equal. lia.
Qed.

Lemma more_slots_unlimited c k l : more_slots c k (PortUnlimited l) = PortUnlimited l.
Proof. induction k; cbn; auto. Qed.

Definition fully_n (p : Port) : bool :=
  match p with PortFullyNPipe _ _ _ => true | _ => false end.

(** [nextSlot] returns what [calcNextSlot] announced (the assertions of Port.cpp), in
    every state [create] leads to; [occupySlots nSlots] is [nextSlot] called [nSlots]
    times, as Port.h documents - except for several fully pipelined units, where one
    slot of two occupies nothing. *)
Lemma occupySlots_is_nextSlots c occ p busy nSlots :
  port_sim c occ p busy -> 0 <= occ -> 1 <= nSlots -> fully_n p = false ->
  (nextSlot c p).1 = calcNextSlot c p /\
  occupySlots c nSlots p =
    ((nextSlot c p).1, more_slots c (Z.to_nat (nSlots - 1)) (nextSlot c p).2) /\
  (occupySlots 5 1 (PortFullyNPipe 1 1 5)).2 <> (nextSlot 5 (PortFullyNPipe 1 1 5)).2.
Proof.
  intros HS Ho Hn Hp. split; [by apply (nextSlot_calcNextSlot c occ p busy)|].
  split; [|by vm_compute]. destruct HS as [_ HS].
  destruct p as [l|l|m f l|o l|o b]; cbn [occupySlots]; try done;
    unfold fullypipe_occupySlots, pipe_occupySlots, npipe_occupySlots.
  - cbn. by rewrite more_slots_unlimited.
  - cbn [nextSlot fullypipe_nextSlot pipe_nextSlot fst snd]. rewrite catch_up_max.
    rewrite more_slots_fullypipe by lia. do 2 f_equal. lia.
  - destruct HS as [-> _]. cbn [nextSlot fullypipe_nextSlot pipe_nextSlot fst snd]. rewrite catch_up_max.
    rewrite more_slots_pipe by lia. rewrite Z2Nat.id by lia. do 2 f_equal. ring.
  - by destruct (nextSlot c (PortNPipe o b)).
Qed.

Lemma occupySlots_is_nextSlots_witness :
  occupySlots 5 3 (new_npipe 5 2 4) = (5, PortNPipe 4 [13; 9]).
Proof.
  destruct (occupySlots_is_nextSlots 5 4 (new_npipe 5 2 4) [5; 5] 3) as (_ & -> & _);
    [|lia|lia|reflexivity..].
  repeat split. discriminate.
Defined.
