(* ===== verification/EventQueue.v ===== *)
(** * The event queue and the clock of the timing simulator

    Model of src/misc/libsuc/TQueue.h and TQueue.cpp, a calendar queue: an array of
    [AccessSize] linked lists, one per cycle from [minTime] on, starting at index
    [minPos], and a heap of the events that are further away; and of the event loop
    [EventScheduler::advanceClock] of src/misc/libsuc/callback.h, which drains the queue
    of the current cycle and advances [globalClock].

    The events are numbered; [users] is the memory of their [TQueue::User] part, so the
    lists are linked through it as in the code.  [None] is an undefined behaviour: a
    null pointer followed, or the front of an empty vector.  The assertions of the
    debugging build are hypotheses of the theorems.  What [std::push_heap] and
    [std::pop_heap] promise is the interface [HeapFront]: the front of the vector is an
    element no other is earlier than; which one, among equals, is left open.

    The specification is a finite map from the pending events to their cycles and three
    kinds of steps: an insertion, the call of an event pending for the current cycle, and
    a tick of the clock, which is possible only when no such event is left. *)

From S2P Require Import Prelude SimBase.
Open Scope Z_scope.

(** ** Data *)

Inductive QueueType := InNoQueue | InFastQueue | InTooFarQueue.

#[global] Instance QueueType_eq_dec : EqDecision QueueType.
Proof. solve_decision. Defined.

Record User := mkUser { time : Z; next : option nat; qType : QueueType }.

Definition isInQueue (u : User) : bool :=
  match qType u with InNoQueue => false | _ => true end.
Definition removeFromQueue (u : User) : User := mkUser (time u) (next u) InNoQueue.
Definition setInFastQueue (u : User) : User := mkUser (time u) (next u) InFastQueue.
Definition setInTooFarQueue (u : User) : User := mkUser (time u) (next u) InTooFarQueue.
Definition setTQTime (t : Z) (u : User) : User := mkUser t (next u) (qType u).
Definition setTQNext (n : option nat) (u : User) : User := mkUser (time u) n (qType u).

Definition MaxTime : Z := 2 ^ 64 - 1 - 1024.

Record TQueue := mkTQ {
  users : nat -> User;
  minTime : Z;
  minPos : Z;
  nNodes : Z;
  access : Z -> option nat;
  accessTail : Z -> option nat;
  tooFar : list nat;
  minTooFar : Z }.

Definition set_users (us : nat -> User) (q : TQueue) : TQueue :=
  mkTQ us (minTime q) (minPos q) (nNodes q) (access q) (accessTail q) (tooFar q) (minTooFar q).
Definition set_min (t p : Z) (q : TQueue) : TQueue :=
  mkTQ (users q) t p (nNodes q) (access q) (accessTail q) (tooFar q) (minTooFar q).
Definition set_lists (n : Z) (a b : Z -> option nat) (q : TQueue) : TQueue :=
  mkTQ (users q) (minTime q) (minPos q) n a b (tooFar q) (minTooFar q).
Definition set_tooFar (l : list nat) (m : Z) (q : TQueue) : TQueue :=
  mkTQ (users q) (minTime q) (minPos q) (nNodes q) (access q) (accessTail q) l m.

(** [f] changed at one index. *)
Definition updz {A} (f : Z -> A) (i : Z) (v : A) : Z -> A := fun j => if i =? j then v else f j.

(** The memory with one event changed. *)
Definition upd_user (x : nat) (f : User -> User) (us : nat -> User) : nat -> User :=
  fun y => if Nat.eqb x y then f (us y) else us y.

(** What the heap of the standard library promises. *)
Class HeapFront := {
  heap_front : (nat -> Z) -> list nat -> option nat;
  heap_front_some : forall tm l, l <> [] -> exists x, heap_front tm l = Some x;
  heap_front_min : forall tm l x, heap_front tm l = Some x ->
    x ∈ l /\ forall y, y ∈ l -> tm x <= tm y }.

(** The vector without one element. *)
Fixpoint remove1 (x : nat) (l : list nat) : list nat :=
  match l with
  | [] => []
  | y :: l => if Nat.eqb x y then l else y :: remove1 x l
  end.

Lemma remove1_split x l : x ∈ l ->
  exists l1 l2, l = l1 ++ x :: l2 /\ (x ∉ l1) /\ remove1 x l = l1 ++ l2.
Proof.
  induction l as [|y l IH]; intros H; [by apply not_elem_of_nil in H|]. cbn.
  destruct (Nat.eqb_spec x y) as [->|Hne].
  - exists [], l. split_and!; [done|apply not_elem_of_nil|done].
  - apply elem_of_cons in H as [?|H]; [done|]. destruct (IH H) as (l1 & l2 & -> & Hn & ->).
    exists (y :: l1), l2. split_and!; [done| |done]. rewrite elem_of_cons. tauto.
Qed.

Lemma remove1_nodup x l : NoDup l -> x ∈ l ->
  NoDup (remove1 x l) /\ (forall y, y ∈ remove1 x l <-> y ∈ l /\ y <> x) /\
  length l = S (length (remove1 x l)).
Proof.
  intros Hnd Hx. destruct (remove1_split x l Hx) as (l1 & l2 & -> & Hn & ->).
  apply NoDup_app in Hnd as (N1 & Hd & [Hx2 N2]%NoDup_cons). split_and!.
  - apply NoDup_app. split_and!; [done| |done]. intros y Hy Hy2. apply (Hd y Hy). by right.
  - intros y. rewrite !elem_of_app, elem_of_cons. split; [|tauto].
    intros [Hy|Hy]; (split; [tauto|]); by intros ->.
  - rewrite !length_app. cbn. lia.
Qed.

Section TQueue.
  Context {HF : HeapFront} (logSize : Z).

(** ** Operations *)

Definition AccessSize : Z := 2 ^ logSize.
Definition AccessMask : Z := AccessSize - 1.

Definition utime (q : TQueue) (x : nat) : Z := time (users q x).

Definition slot (q : TQueue) (t : Z) : Z :=
  Z.land (uint32_t (minPos q + t - minTime q)) AccessMask.

Definition reset (q : TQueue) : TQueue :=
  mkTQ (users q) 0 0 0 (fun _ => None) (accessTail q) (tooFar q) MaxTime.

Definition addNode (node : nat) (t : Z) (q : TQueue) : option TQueue :=
  let pos := slot q t in
  q ← match access q pos with
      | None => Some (set_lists (nNodes q) (updz (access q) pos (Some node)) (accessTail q) q)
      | Some _ =>
          tail ← accessTail q pos;
          Some (set_users (upd_user tail (setTQNext (Some node)) (users q)) q)
      end;
  let q := set_lists (nNodes q + 1) (access q) (updz (accessTail q) pos (Some node)) q in
  Some (set_users (upd_user node (setTQNext None ∘ setInFastQueue) (users q)) q).

(** The loop of [adjustTooFar]: at most one round per element. *)
Fixpoint adjust_loop (fuel : nat) (q : TQueue) : option TQueue :=
  match fuel with
  | O => None
  | S fuel =>
      x ← heap_front (utime q) (tooFar q);
      if uint32_t (utime q x - minTime q) <? AccessSize then
        q ← addNode x (utime q x) q;
        match remove1 x (tooFar q) with
        | [] => Some (set_tooFar [] MaxTime q)
        | l => adjust_loop fuel (set_tooFar l (minTooFar q) q)
        end
      else Some (set_tooFar (tooFar q) (utime q x) q)
  end.

Definition adjustTooFar (q : TQueue) : option TQueue :=
  adjust_loop (S (length (tooFar q))) q.

Definition insert (data : nat) (t : Z) (q : TQueue) : option TQueue :=
  let q := set_users (upd_user data (setTQTime t) (users q)) q in
  if uint32_t (t - minTime q) <? AccessSize then addNode data t q
  else
    let q := set_users (upd_user data setInTooFarQueue (users q)) q in
    Some (set_tooFar (tooFar q ++ [data]) (if t <? minTooFar q then t else minTooFar q) q).

(** The first node of the list at [minPos] leaves the queue. *)
Definition take_first (node : nat) (q : TQueue) : TQueue :=
  let q := set_lists (nNodes q - 1)
    (updz (access q) (minPos q) (next (users q node))) (accessTail q) q in
  set_users (upd_user node removeFromQueue (users q)) q.

(** [while (node == 0 && minTime < cTime)]. *)
Fixpoint skip_empty (fuel : nat) (cTime : Z) (q : TQueue) : TQueue :=
  match fuel, access q (minPos q) with
  | S fuel, None =>
      if minTime q <? cTime then
        skip_empty fuel cTime (set_min (minTime q + 1) (Z.land (minPos q + 1) AccessMask) q)
      else q
  | _, _ => q
  end.

Definition nextJob (cTime : Z) (q : TQueue) : option (option nat * TQueue) :=
  match access q (minPos q), minTime q =? cTime with
  | Some node, true => Some (Some node, take_first node q)
  | _, _ =>
      q ← (if minTooFar q <=? cTime then adjustTooFar q else Some q);
      if nNodes q =? 0 then Some (None, set_min cTime 0 q)
      else
        let q := skip_empty (Z.to_nat (cTime - minTime q)) cTime q in
        match access q (minPos q) with
        | None => Some (None, q)
        | Some node => Some (Some node, take_first node q)
        end
  end.

Definition size (q : TQueue) : Z := nNodes q + Z.of_nat (length (tooFar q)).
Definition empty (q : TQueue) : bool := (nNodes q =? 0) && (bool_decide (tooFar q = [])).

(** The walk of [remove] down the list from [curr]: the predecessor of [node]. *)
Fixpoint find_prev (fuel : nat) (us : nat -> User) (node : nat) (prev curr : option nat)
  : option (option nat) :=
  match fuel, curr with
  | S fuel, Some x =>
      if Nat.eqb x node then Some prev else find_prev fuel us node (Some x) (next (us x))
  | _, _ => None
  end.

(** The loop that recomputes [accessTail] runs until it meets the null pointer, which it
    stores. *)
Definition remove (node : nat) (q : TQueue) : option TQueue :=
  match qType (users q node) with
  | InTooFarQueue =>
      let l := remove1 node (tooFar q) in
      if bool_decide (heap_front (utime q) (tooFar q) = Some node) then
        match l with
        | [] => Some (set_tooFar [] MaxTime q)
        | _ => x ← heap_front (utime q) l; Some (set_tooFar l (utime q x) q)
        end
      else if bool_decide (node ∈ tooFar q) then Some (set_tooFar l (minTooFar q) q)
      else None
  | InFastQueue =>
      if bool_decide (access q (minPos q) = Some node) then Some (take_first node q)
      else
        let pos := slot q (utime q node) in
        prev ← find_prev (S (Z.to_nat (nNodes q))) (users q) node None (access q pos);
        let q :=
          match prev with
          | None =>
              set_lists (nNodes q) (updz (access q) pos (next (users q node))) (accessTail q) q
          | Some pr => set_users (upd_user pr (setTQNext (next (users q node))) (users q)) q
          end in
        let tail :=
          if bool_decide (accessTail q pos = Some node) then updz (accessTail q) pos None
          else accessTail q in
        Some (set_lists (nNodes q - 1) (access q) tail q)
  | InNoQueue => Some q
  end.

Definition reschedule (node : nat) (rTime : Z) (q : TQueue) : option TQueue :=
  q ← remove node q; insert node rTime q.

(** ** The event loop *)

(** [cb->call()] for each event of the cycle: [call x] is the list of the events it
    schedules, with their cycles. *)
Fixpoint insert_all (news : list (nat * Z)) (q : TQueue) : option TQueue :=
  match news with
  | [] => Some q
  | (y, t) :: news => q ← insert y t q; insert_all news q
  end.

Fixpoint drain (fuel : nat) (call : nat -> list (nat * Z)) (globalClock : Z) (q : TQueue)
  : option (list nat * TQueue) :=
  match fuel with
  | O => None
  | S fuel =>
      '(job, q) ← nextJob globalClock q;
      match job with
      | None => Some ([], q)
      | Some cb =>
          q ← insert_all (call cb) q;
          '(called, q) ← drain fuel call globalClock q;
          Some (cb :: called, q)
      end
  end.

(** The events called, the queue and the new clock. *)
Definition advanceClock (fuel : nat) (call : nat -> list (nat * Z)) (globalClock : Z)
    (q : TQueue) : option (list nat * TQueue * Z) :=
  '(called, q) ← drain fuel call globalClock q;
  Some (called, q, globalClock + 1).

(** ** The linked lists *)

Fixpoint chain (us : nat -> User) (o : option nat) (l : list nat) : Prop :=
  match l with
  | [] => o = None
  | x :: l => o = Some x /\ chain us (next (us x)) l
  end.

Lemma chain_same_next us us' o l :
  (forall x, x ∈ l -> next (us' x) = next (us x)) -> chain us o l -> chain us' o l.
Proof.
  revert o. induction l as [|x l IH]; intros o H; cbn; [done|]. intros [-> Hc].
  split; [done|]. rewrite H by left. apply IH; [|done]. intros y Hy. apply H. by right.
Qed.

Lemma chain_append us us' o l x z : NoDup l -> last l = Some z -> chain us o l ->
  next (us' z) = Some x -> next (us' x) = None ->
  (forall y, y ∈ l -> y <> z -> next (us' y) = next (us y)) -> chain us' o (l ++ [x]).
Proof.
  intros Hnd Hl Hc Hz Hx. revert o Hnd Hl Hc.
  induction l as [|y l IH]; intros o Hnd Hl Hc H; [done|]. destruct Hc as [-> Hc].
  cbn. split; [done|]. apply NoDup_cons in Hnd as [Hy Hnd]. destruct l as [|y' l].
  - injection Hl as ->. cbn. by rewrite Hz.
  - assert (z ∈ y' :: l) as Hzl by (by apply last_Some_elem_of).
    rewrite H; [|left|by intros ->]. apply IH; [done..|]. intros w Hw. apply H. by right.
Qed.

(** ** The invariant *)

Hypothesis logSize_range : 3 <= logSize <= 31.

(** The fast events, oldest insertion first, that share the list number [p]. *)
Definition at_slot (q : TQueue) (fast : list nat) (p : Z) : list nat :=
  filter (fun x => slot q (utime q x) = p) fast.

Record fast_inv (q : TQueue) (fast : list nat) : Prop := {
  fi_pos : 0 <= minPos q < AccessSize;
  fi_nodes : nNodes q = Z.of_nat (length fast);
  fi_nodup : NoDup fast;
  fi_type x : x ∈ fast <-> qType (users q x) = InFastQueue;
  fi_time x : x ∈ fast -> minTime q <= utime q x < minTime q + AccessSize;
  fi_chain p : 0 <= p < AccessSize -> chain (users q) (access q p) (at_slot q fast p);
  fi_tail p : 0 <= p < AccessSize -> at_slot q fast p <> [] ->
    accessTail q p = last (at_slot q fast p) }.

Record far_inv (q : TQueue) : Prop := {
  fa_nodup : NoDup (tooFar q);
  fa_type x : x ∈ tooFar q <-> qType (users q x) = InTooFarQueue;
  fa_time x : x ∈ tooFar q ->
    minTooFar q <= utime q x /\ minTime q <= utime q x < minTime q + 2 ^ 32;
  fa_min : tooFar q = [] -> minTooFar q = MaxTime }.

Lemma AccessSize_range : 8 <= AccessSize <= 2 ^ 31.
Proof.
  unfold AccessSize. split; [change 8 with (2 ^ 3)|]; apply Z.pow_le_mono_r; lia.
Qed.

Lemma land_mask x : Z.land x AccessMask = x mod AccessSize.
Proof.
  unfold AccessMask, AccessSize. rewrite <- Z.land_ones by lia. f_equal.
  rewrite Z.ones_equiv. lia.
Qed.

Lemma slot_mod q t : slot q t = (minPos q + t - minTime q) mod AccessSize.
Proof.
  unfold slot. rewrite land_mask. unfold AccessSize.
  change (uint32_t ?x) with (uint 32 x).
  change (?x mod 2 ^ ?k) with (uint k x). apply uint_uint. lia.
Qed.

Lemma slot_range q t : 0 <= slot q t < AccessSize.
Proof. rewrite slot_mod. apply Z.mod_pos_bound. pose proof AccessSize_range. lia. Qed.

(** Inside the window, [minPos] is the list of the cycle [minTime] and of no other. *)
Lemma slot_minPos q t : 0 <= minPos q < AccessSize -> minTime q <= t < minTime q + AccessSize ->
  slot q t = minPos q <-> t = minTime q.
Proof.
  intros Hp Ht. rewrite slot_mod. pose proof AccessSize_range.
  destruct (decide (minPos q + (t - minTime q) < AccessSize)).
  - rewrite Z.mod_small by lia. lia.
  - rewrite <- (Z.mod_unique (minPos q + t - minTime q) AccessSize 1
      (minPos q + t - minTime q - AccessSize)) by lia. lia.
Qed.

Lemma elem_of_at_slot q fast p x : x ∈ at_slot q fast p <-> slot q (utime q x) = p /\ x ∈ fast.
Proof. unfold at_slot. by rewrite list_elem_of_filter. Qed.

Lemma at_slot_nodup q fast p : NoDup fast -> NoDup (at_slot q fast p).
Proof. apply NoDup_filter. Qed.

Lemma at_slot_ext q q' fast p : minTime q' = minTime q -> minPos q' = minPos q ->
  (forall x, x ∈ fast -> utime q' x = utime q x) -> at_slot q' fast p = at_slot q fast p.
Proof.
  intros E1 E2 E3. unfold at_slot. induction fast as [|x l IH]; [done|]. rewrite !filter_cons.
  rewrite IH by (intros y Hy; apply E3; by right).
  assert (slot q' (utime q' x) = slot q (utime q x)) as ->; [|done].
  unfold slot. by rewrite E1, E2, (E3 x) by left.
Qed.

(** The invariants depend only on the queue and on the events in it. *)
Lemma fast_inv_ext q q' fast : fast_inv q fast ->
  minTime q' = minTime q -> minPos q' = minPos q -> nNodes q' = nNodes q ->
  access q' = access q -> accessTail q' = accessTail q ->
  (forall x, x ∈ fast -> utime q' x = utime q x /\ next (users q' x) = next (users q x)) ->
  (forall x, qType (users q' x) = InFastQueue <-> qType (users q x) = InFastQueue) ->
  fast_inv q' fast.
Proof.
  intros [] E1 E2 E3 E4 E5 Hu Hq.
  assert (forall p, at_slot q' fast p = at_slot q fast p) as Eat.
  { intros p. apply at_slot_ext; [done..|]. intros x Hx. by apply Hu. }
  split; rewrite ?E1, ?E2, ?E3, ?E4, ?E5; try done.
  - intros x. by rewrite Hq.
  - intros x Hx. destruct (Hu x Hx) as [-> _]. by apply fi_time0.
  - intros p Hp. rewrite Eat. apply (chain_same_next (users q)); [|by apply fi_chain0].
    intros x [_ Hx]%elem_of_at_slot. by apply Hu.
  - intros p Hp. rewrite Eat. by apply fi_tail0.
Qed.

Lemma far_inv_ext q q' : far_inv q ->
  minTime q' = minTime q -> tooFar q' = tooFar q -> minTooFar q' = minTooFar q ->
  (forall x, x ∈ tooFar q -> utime q' x = utime q x) ->
  (forall x, qType (users q' x) = InTooFarQueue <-> qType (users q x) = InTooFarQueue) ->
  far_inv q'.
Proof.
  intros [] E1 E2 E3 Hu Hq. split; rewrite ?E1, ?E2, ?E3; try done.
  - intros x. by rewrite Hq.
  - intros x Hx. rewrite Hu by done. by apply fa_time0.
Qed.

Lemma at_slot_snoc q fast x p : at_slot q (fast ++ [x]) p =
  if decide (slot q (utime q x) = p) then at_slot q fast p ++ [x] else at_slot q fast p.
Proof.
  unfold at_slot. rewrite filter_app. cbn. rewrite decide_bool_decide.
  case_bool_decide; cbn; [by rewrite decide_True|by rewrite decide_False, app_nil_r].
Qed.

(** [q'] is [q] with [x] linked into the list [p0] of its cycle. *)
Record linked (x : nat) (p0 : Z) (fast : list nat) (q q' : TQueue) : Prop := {
  ln_minTime : minTime q' = minTime q;
  ln_minPos : minPos q' = minPos q;
  ln_nodes : nNodes q' = nNodes q + 1;
  ln_far : tooFar q' = tooFar q /\ minTooFar q' = minTooFar q;
  ln_time y : utime q' y = utime q y;
  ln_type y : qType (users q' y) = if Nat.eqb x y then InFastQueue else qType (users q y);
  ln_next y : y <> x -> y ∉ at_slot q fast p0 -> next (users q' y) = next (users q y);
  ln_chain : chain (users q') (access q' p0) (at_slot q fast p0 ++ [x]);
  ln_tail : accessTail q' p0 = Some x;
  ln_other p : p <> p0 -> access q' p = access q p /\ accessTail q' p = accessTail q p }.

Lemma linked_inv x q q' fast : fast_inv q fast -> x ∉ fast ->
  minTime q <= utime q x < minTime q + AccessSize ->
  linked x (slot q (utime q x)) fast q q' -> fast_inv q' (fast ++ [x]).
Proof.
  intros H Hx Ht L. destruct H, L.
  assert (forall p, at_slot q' (fast ++ [x]) p = at_slot q (fast ++ [x]) p) as Eat
    by (intros; apply at_slot_ext; by auto).
  split.
  - by rewrite ln_minPos0.
  - rewrite ln_nodes0, length_app. cbn. lia.
  - apply NoDup_app. split_and!; [done| |by apply NoDup_singleton].
    intros y Hy ->%list_elem_of_singleton. done.
  - intros y. rewrite elem_of_app, list_elem_of_singleton, fi_type0, ln_type0.
    destruct (Nat.eqb_spec x y); naive_solver.
  - intros y. rewrite elem_of_app, list_elem_of_singleton, ln_time0, ln_minTime0.
    intros [Hy| ->]; [by apply fi_time0|done].
  - intros p Hp. rewrite Eat, at_slot_snoc. destruct (decide _) as [<-|Hne]; [done|].
    destruct (ln_other0 p ltac:(congruence)) as [-> _]. eapply chain_same_next; [|by apply fi_chain0].
    intros y [Hy1 Hy2]%elem_of_at_slot. apply ln_next0; [by intros ->|].
    rewrite elem_of_at_slot. intros [? _]. congruence.
  - intros p Hp. rewrite Eat, at_slot_snoc. destruct (decide _) as [<-|Hne].
    + by rewrite last_snoc.
    + destruct (ln_other0 p ltac:(congruence)) as [_ ->]. by apply fi_tail0.
Qed.

(** A new event is linked behind the events of its cycle. *)
Lemma addNode_linked x q fast : fast_inv q fast -> x ∉ fast ->
  exists q', addNode x (utime q x) q = Some q' /\
    linked x (slot q (utime q x)) fast q q'.
Proof.
  intros [] Hx. unfold addNode. set (p0 := slot q (utime q x)).
  assert (0 <= p0 < AccessSize) as Hp0 by apply slot_range.
  specialize (fi_chain0 p0 Hp0). specialize (fi_tail0 p0 Hp0).
  destruct (at_slot q fast p0) as [|h l] eqn:Eold.
  - cbn in fi_chain0. rewrite fi_chain0. cbn. eexists; split; [done|].
    split; cbn; try done.
    + intros y. unfold utime, upd_user. cbn. by destruct (Nat.eqb_spec x y).
    + intros y. unfold upd_user. by destruct (Nat.eqb_spec x y).
    + intros y Hy _. unfold upd_user. by destruct (Nat.eqb_spec x y).
    + rewrite Eold. cbn. unfold updz, upd_user. by rewrite Z.eqb_refl, Nat.eqb_refl.
    + unfold updz. by rewrite Z.eqb_refl.
    + intros p Hp. unfold updz. destruct (Z.eqb_spec p0 p); [congruence|done].
  - destruct (last (h :: l)) as [z|] eqn:Ez; [|by apply last_None in Ez].
    assert (NoDup (h :: l)) as Hnd by (rewrite <- Eold; by apply at_slot_nodup).
    assert (forall y, y ∈ h :: l -> y <> x) as Hold.
    { intros y Hy ->. rewrite <- Eold in Hy. by apply elem_of_at_slot in Hy as [_ ?]. }
    assert (z ∈ h :: l) as Hz by (by apply last_Some_elem_of).
    rewrite fi_tail0 by done. destruct fi_chain0 as [Eh Hc]. rewrite Eh. cbn.
    eexists; split; [done|]. split; cbn; try done.
    + intros y. unfold utime, upd_user. cbn. by destruct (Nat.eqb_spec x y), (Nat.eqb_spec z y).
    + intros y. unfold upd_user. by destruct (Nat.eqb_spec x y), (Nat.eqb_spec z y).
    + intros y Hy Hno. unfold upd_user. destruct (Nat.eqb_spec x y); [done|].
      destruct (Nat.eqb_spec z y); [|done]. subst y. by rewrite Eold in Hno.
    + rewrite Eold. apply (chain_append (users q) _ _ _ _ z); [done|done|by split|..].
      * unfold upd_user. rewrite Nat.eqb_refl. destruct (Nat.eqb_spec x z); [|done].
        by destruct (Hold z Hz).
      * unfold upd_user. by rewrite Nat.eqb_refl.
      * intros y Hy Hyz. unfold upd_user. destruct (Nat.eqb_spec x y); [by destruct (Hold y Hy)|].
        by destruct (Nat.eqb_spec z y).
    + unfold updz. by rewrite Z.eqb_refl.
    + intros p Hp. unfold updz. destruct (Z.eqb_spec p0 p); [congruence|done].
Qed.

Lemma at_slot_app q l l' p : at_slot q (l ++ l') p = at_slot q l p ++ at_slot q l' p.
Proof. apply filter_app. Qed.

(** Removing the head of a list. *)
Lemma at_slot_remove1 q fast x p rest : NoDup fast -> x ∈ fast ->
  at_slot q fast (slot q (utime q x)) = x :: rest ->
  at_slot q (remove1 x fast) p = if decide (slot q (utime q x) = p) then rest else at_slot q fast p.
Proof.
  intros Hnd Hx E. destruct (remove1_split x fast Hx) as (l1 & l2 & -> & Hn & ->).
  rewrite !at_slot_app in *. unfold at_slot at 2 in E. unfold at_slot at 4. cbn in *.
  destruct (decide (slot q (utime q x) = slot q (utime q x))) as [_|]; [|done].
  destruct (decide (slot q (utime q x) = p)) as [<-|]; [|done]. 
  destruct (at_slot q l1 (slot q (utime q x))) as [|y l] eqn:E1.
  - by injection E.
  - cbn in E. assert (y = x) as -> by congruence.
    assert (x ∈ at_slot q l1 (slot q (utime q x))) as Hin by (rewrite E1; left).
    by apply elem_of_at_slot in Hin as [_ ?].
Qed.

(** The first event of the list at [minPos] is due at [minTime]; taking it keeps the
    others. *)
Lemma take_first_spec x q fast : fast_inv q fast -> access q (minPos q) = Some x ->
  x ∈ fast /\ utime q x = minTime q /\ fast_inv (take_first x q) (remove1 x fast).
Proof.
  intros H Ha. pose proof H as []. specialize (fi_chain0 (minPos q) fi_pos0) as Hc.
  destruct (at_slot q fast (minPos q)) as [|h rest] eqn:E; [cbn in Hc; congruence|].
  destruct Hc as [Eh Hc]. assert (h = x) as -> by congruence.
  assert (x ∈ at_slot q fast (minPos q)) as Hin by (rewrite E; left).
  apply elem_of_at_slot in Hin as [Hs Hin].
  assert (utime q x = minTime q) as Htx by (apply slot_minPos; auto). split; [done|]. split; [done|].
  assert (forall y, utime (take_first x q) y = utime q y) as Et.
  { intros y. unfold take_first, utime, upd_user. cbn. by destruct (Nat.eqb x y). }
  destruct (remove1_nodup x fast fi_nodup0 Hin) as (Hnd' & Hel & Hlen).
  assert (forall p, at_slot (take_first x q) (remove1 x fast) p =
    if decide (minPos q = p) then rest else at_slot q fast p) as Eat.
  { intros p. rewrite (at_slot_ext q) by done. rewrite <- Hs. apply at_slot_remove1; [done..|].
    by rewrite Hs. }
  split.
  - done.
  - cbn. lia.
  - done.
  - intros y. rewrite Hel, fi_type0. cbn. unfold upd_user. destruct (Nat.eqb_spec x y); cbn; naive_solver.
  - intros y [Hy _]%Hel. rewrite Et. by apply fi_time0.
  - intros p Hp. rewrite Eat. cbn. unfold updz.
    apply (chain_same_next (users q)). { intros y _. unfold upd_user. by destruct (Nat.eqb x y). }
    destruct (Z.eqb_spec (minPos q) p), (decide (minPos q = p)); try done. by apply fi_chain0.
  - intros p Hp. rewrite Eat. cbn. destruct (decide (minPos q = p)) as [<-|]; [|by apply fi_tail0].
    intros Hr. rewrite fi_tail0, E by (done || congruence). by destruct rest.
Qed.

(** The lists stay where they are when the clock moves to [t] at the index [p], provided
    that index is the one of [t]. *)
Lemma set_min_fast_inv t p q fast : fast_inv q fast -> 0 <= p < AccessSize -> minTime q <= t ->
  (forall x, x ∈ fast -> t <= utime q x) ->
  (fast = [] \/ (p - t) mod AccessSize = (minPos q - minTime q) mod AccessSize) ->
  fast_inv (set_min t p q) fast.
Proof.
  intros [] Hp Ht Hall Hs. pose proof AccessSize_range.
  assert (forall p', at_slot (set_min t p q) fast p' = at_slot q fast p') as Eat.
  { intros p'. destruct Hs as [->|Hs]; [done|]. apply list_filter_iff. intros x.
    rewrite !slot_mod. change (utime (set_min t p q) x) with (utime q x). cbn.
    replace (p + utime q x - t) with (p - t + utime q x) by lia.
    replace (minPos q + utime q x - minTime q) with (minPos q - minTime q + utime q x) by lia.
    by rewrite <- Zplus_mod_idemp_l, Hs, Zplus_mod_idemp_l. }
  split; try done.
  - intros x Hx. specialize (fi_time0 x Hx). specialize (Hall x Hx).
    change (utime (set_min t p q) x) with (utime q x). cbn. lia.
  - intros p' Hp'. rewrite Eat. by apply fi_chain0.
  - intros p' Hp'. rewrite Eat. by apply fi_tail0.
Qed.

Lemma set_min_far_inv t p q : far_inv q -> minTime q <= t ->
  (forall x, x ∈ tooFar q -> t <= utime q x) -> far_inv (set_min t p q).
Proof.
  intros [] Ht Hall. split; try done. intros x Hx. specialize (fa_time0 x Hx).
  specialize (Hall x Hx). change (utime (set_min t p q) x) with (utime q x). cbn in *. lia.
Qed.

(** The walk over the empty lists ends at the cycle it is looking for. *)
Lemma skip_empty_spec n : forall c q fast, fast_inv q fast -> far_inv q ->
  n = Z.to_nat (c - minTime q) -> minTime q <= c ->
  (forall x, x ∈ fast \/ x ∈ tooFar q -> c <= utime q x) ->
  fast_inv (skip_empty n c q) fast /\ far_inv (skip_empty n c q) /\
  minTime (skip_empty n c q) = c /\
  users (skip_empty n c q) = users q /\ tooFar (skip_empty n c q) = tooFar q.
Proof.
  induction n as [|n IH]; intros c q fast HF1 HF2 Hn Hc Hall; cbn.
  { split_and!; try done. lia. }
  destruct (access q (minPos q)) as [x|] eqn:Ea.
  { destruct (take_first_spec _ _ _ HF1 Ea) as (Hx & Ht & _). specialize (Hall x (or_introl Hx)). lia. }
  destruct (Z.ltb_spec (minTime q) c); [|lia]. pose proof AccessSize_range.
  rewrite land_mask.
  apply (IH c (set_min (minTime q + 1) ((minPos q + 1) mod AccessSize) q)); cbn; try lia; try done.
  - apply set_min_fast_inv; [done| |lia|..].
    + apply Z.mod_pos_bound. lia.
    + intros x Hx. specialize (Hall x (or_introl Hx)). lia.
    + right. rewrite Zminus_mod_idemp_l. f_equal. lia.
  - apply set_min_far_inv; [done|lia|]. intros x Hx. specialize (Hall x (or_intror Hx)). lia.
Qed.

(** [adjustTooFar] moves every event of the window to its list. *)
Lemma adjust_loop_spec fuel : forall q fast, fast_inv q fast -> far_inv q ->
  tooFar q <> [] -> (length (tooFar q) < fuel)%nat ->
  exists q' fast', adjust_loop fuel q = Some q' /\ fast_inv q' fast' /\ far_inv q' /\
    minTime q' = minTime q /\ (forall y, utime q' y = utime q y) /\
    (forall y, y ∈ fast' \/ y ∈ tooFar q' <-> y ∈ fast \/ y ∈ tooFar q) /\
    (forall y, y ∈ tooFar q' -> minTime q + AccessSize <= utime q y).
Proof.
  induction fuel as [|fuel IH]; intros q fast H1 H2 Hne Hf; [lia|]. cbn.
  destruct (heap_front_some (utime q) (tooFar q) Hne) as (x & Ex). rewrite Ex. cbn.
  apply heap_front_min in Ex as [Hx Hmin].
  pose proof H2 as []. destruct (fa_time0 x Hx) as [Hx1 Hx2].
  rewrite (uint_id 32) by (unfold in_u; lia).
  destruct (Z.ltb_spec (utime q x - minTime q) AccessSize).
  - assert (x ∉ fast) as Hnf.
    { intros Hxf. apply (fi_type _ _ H1) in Hxf. apply fa_type0 in Hx. congruence. }
    destruct (addNode_linked x q fast H1 Hnf) as (q1 & -> & L). cbn.
    pose proof (linked_inv x q q1 fast H1 Hnf ltac:(lia) L) as I1. destruct L.
    destruct ln_far0 as [E1 E2]. rewrite E1.
    destruct (remove1_nodup x (tooFar q) fa_nodup0 Hx) as (Hnd & Hel & Hlen).
    set (l' := remove1 x (tooFar q)) in *.
    assert (forall m, fast_inv (set_tooFar l' m q1) (fast ++ [x])) as HI1.
    { intros m. by destruct I1. }
    assert (forall m, (forall y, y ∈ l' -> m <= utime q y) -> (l' = [] -> m = MaxTime) ->
      far_inv (set_tooFar l' m q1)) as HI2.
    { intros m Hm Hm'. split; [done|..|done].
      - intros y. cbn. rewrite Hel, fa_type0, ln_type0. destruct (Nat.eqb_spec x y); naive_solver.
      - intros y Hy. change (utime (set_tooFar l' m q1) y) with (utime q1 y). rewrite ln_time0.
        cbn. rewrite ln_minTime0. split; [by apply Hm|]. apply Hel in Hy as [Hy _]. by apply fa_time0. }
    destruct l' as [|z l''] eqn:El.
    + eexists _, (fast ++ [x]). split; [done|]. split; [by apply HI1|]. split.
      { apply HI2; [|done]. intros y Hy. by apply not_elem_of_nil in Hy. }
      split_and!; try done.
      * intros y. cbn. rewrite elem_of_app, list_elem_of_singleton. specialize (Hel y).
        pose proof (not_elem_of_nil y). destruct (decide (y = x)); naive_solver.
      * intros y Hy. by apply not_elem_of_nil in Hy.
    + destruct (IH (set_tooFar (z :: l'') (minTooFar q1) q1) (fast ++ [x])) as
        (q' & fast' & -> & J1 & J2 & J3 & J4 & J5 & J6).
      * by apply HI1.
      * apply HI2; [|done]. intros y Hy. rewrite E2. apply Hel in Hy as [Hy _]. by apply fa_time0.
      * done.
      * cbn in *. lia.
      * exists q', fast'. split_and!; try done.
        -- cbn in J3. congruence.
        -- intros y. rewrite J4. apply ln_time0.
        -- intros y. rewrite J5, elem_of_app, list_elem_of_singleton. cbn. rewrite Hel.
           destruct (decide (y = x)); naive_solver.
        -- intros y Hy. specialize (J6 y Hy). cbn in J6. rewrite ln_minTime0 in J6.
           change (utime (set_tooFar (z :: l'') (minTooFar q1) q1) y) with (utime q1 y) in J6.
           by rewrite ln_time0 in J6.
  - eexists _, fast. split; [done|]. split_and!; try done.
    + by destruct H1.
    + split; try done.
      intros y Hy. cbn. split; [by apply Hmin|by apply fa_time0].
    + intros y Hy. specialize (Hmin y Hy). lia.
Qed.

(** ** The specification and the refinement *)

(** The queue, at clock [c], holds the pending events [P] with their cycles. *)
Definition represents (c : Z) (P : gmap nat Z) (q : TQueue) : Prop :=
  (exists fast, fast_inv q fast /\ far_inv q /\
    forall x t, P !! x = Some t <-> (x ∈ fast \/ x ∈ tooFar q) /\ utime q x = t) /\
  minTime q <= c < minTime q + AccessSize /\
  forall x t, P !! x = Some t -> c <= t.

(** Setting the cycle of an event that is not queued disturbs nothing. *)
Lemma retime_inv x t q fast : fast_inv q fast -> far_inv q -> ~ (x ∈ fast \/ x ∈ tooFar q) ->
  let q1 := set_users (upd_user x (setTQTime t) (users q)) q in
  fast_inv q1 fast /\ far_inv q1 /\ utime q1 x = t /\
  (forall y, y <> x -> utime q1 y = utime q y) /\
  forall y, qType (users q1 y) = qType (users q y).
Proof.
  intros I1 I2 Hx q1.
  assert (forall y, y <> x -> users q1 y = users q y) as Eu.
  { intros y Hy. unfold q1, upd_user. cbn. by destruct (Nat.eqb_spec x y). }
  assert (forall y, qType (users q1 y) = qType (users q y)) as Eq.
  { intros y. unfold q1, upd_user. cbn. by destruct (Nat.eqb x y). }
  split_and!; [| | |intros y Hy; unfold utime; by rewrite Eu|done].
  - apply (fast_inv_ext q); try done; [|intros y; by rewrite Eq].
    intros y Hy. unfold utime. rewrite Eu; [done|by intros ->; tauto].
  - apply (far_inv_ext q); try done; [|intros y; by rewrite Eq].
    intros y Hy. unfold utime. rewrite Eu; [done|by intros ->; tauto].
  - unfold utime, q1, upd_user. cbn. by rewrite Nat.eqb_refl.
Qed.

(** [insert] in the window: the list of the cycle. *)
Lemma insert_near x q fast : fast_inv q fast -> far_inv q -> ~ (x ∈ fast \/ x ∈ tooFar q) ->
  minTime q <= utime q x < minTime q + AccessSize ->
  exists q', addNode x (utime q x) q = Some q' /\ fast_inv q' (fast ++ [x]) /\ far_inv q' /\
    tooFar q' = tooFar q /\ minTime q' = minTime q /\ forall y, utime q' y = utime q y.
Proof.
  intros I1 I2 Hx Ht. destruct (addNode_linked x q fast I1 ltac:(tauto)) as (q' & Ha & L).
  exists q'. split; [done|]. split; [apply (linked_inv x q q'); tauto|]. destruct L, ln_far0.
  split_and!; try done. apply (far_inv_ext q); try done. intros y. rewrite ln_type0.
  destruct (Nat.eqb_spec x y) as [<-|]; [|done]. rewrite <- (fa_type _ I2). naive_solver.
Qed.

(** [insert] beyond the window: the heap. *)
Lemma insert_far x q fast : fast_inv q fast -> far_inv q -> ~ (x ∈ fast \/ x ∈ tooFar q) ->
  minTime q <= utime q x < minTime q + 2 ^ 32 ->
  let q' := set_tooFar (tooFar q ++ [x])
    (if utime q x <? minTooFar q then utime q x else minTooFar q)
    (set_users (upd_user x setInTooFarQueue (users q)) q) in
  fast_inv q' fast /\ far_inv q' /\ forall y, utime q' y = utime q y.
Proof.
  intros I1 I2 Hx Ht q'.
  assert (forall y, utime q' y = utime q y) as Et.
  { intros y. unfold q', utime, upd_user. cbn. by destruct (Nat.eqb x y). }
  split_and!; [| |done].
  - apply (fast_inv_ext q); try done.
    + intros y Hy. split; [done|]. unfold q', upd_user. cbn. by destruct (Nat.eqb x y).
    + intros y. unfold q', upd_user. cbn. destruct (Nat.eqb_spec x y) as [<-|]; [|done].
      rewrite <- (fi_type _ _ I1). cbn. naive_solver.
  - destruct I2. split.
    + cbn. apply NoDup_app. split_and!; [done| |by apply NoDup_singleton].
      intros y Hy ->%list_elem_of_singleton. tauto.
    + intros y. cbn. rewrite elem_of_app, list_elem_of_singleton, fa_type0. unfold upd_user.
      destruct (Nat.eqb_spec x y) as [<-|]; cbn; naive_solver.
    + intros y. rewrite Et. cbn. rewrite elem_of_app, list_elem_of_singleton.
      destruct (Z.ltb_spec (utime q x) (minTooFar q)); intros [Hy| ->]; try lia;
        specialize (fa_time0 y Hy); lia.
    + cbn. by intros [? ?]%app_nil.
Qed.

Lemma insert_refines c P q x t : represents c P q -> P !! x = None ->
  c <= t -> t - minTime q < 2 ^ 32 ->
  exists q', insert x t q = Some q' /\ represents c (<[x := t]> P) q' /\ minTime q' = minTime q.
Proof.
  intros ((fast & I1 & I2 & HP) & Hw & Hall) Hx Ht Hd. unfold insert.
  assert (~ (x ∈ fast \/ x ∈ tooFar q)) as Hnew.
  { intros Hin. specialize (HP x (utime q x)). rewrite Hx in HP. naive_solver. }
  destruct (retime_inv x t q fast I1 I2 Hnew) as (J1 & J2 & Etx & Et & _).
  set (q1 := set_users (upd_user x (setTQTime t) (users q)) q) in *.
  change (minTime q1) with (minTime q). change (tooFar q) with (tooFar q1) in Hnew.
  assert (forall q' fast', fast_inv q' fast' -> far_inv q' -> minTime q' = minTime q ->
    (forall y, utime q' y = utime q1 y) ->
    (forall y, y ∈ fast' \/ y ∈ tooFar q' <-> y = x \/ y ∈ fast \/ y ∈ tooFar q) ->
    represents c (<[x := t]> P) q') as Hrep.
  { intros q' fast' K1 K2 K3 K4 K5. split_and!; [|rewrite K3; lia..|].
    - exists fast'. split_and!; [done..|]. intros y s. rewrite K5, K4.
      destruct (decide (y = x)) as [->|Hne].
      + rewrite lookup_insert_eq, Etx. split; [intros [= ->]; tauto|by intros [_ ->]].
      + rewrite lookup_insert_ne, HP, Et by done. tauto.
    - intros y s [[_ ->]|[_ Hy]]%lookup_insert_Some; [done|by eapply Hall]. }
  rewrite (uint_id 32) by (unfold in_u; lia).
  destruct (Z.ltb_spec (t - minTime q) AccessSize).
  - destruct (insert_near x q1 fast J1 J2 Hnew) as (q' & Ha & K1 & K2 & K3 & K4 & K5).
    { rewrite Etx. cbn. lia. }
    rewrite Etx in Ha. exists q'. split_and!; [done| |done]. apply (Hrep q' (fast ++ [x])); try done.
    intros y. rewrite elem_of_app, list_elem_of_singleton, K3. cbn. tauto.
  - destruct (insert_far x q1 fast J1 J2 Hnew) as (K1 & K2 & K3).
    { rewrite Etx. cbn. lia. }
    rewrite Etx in K1, K2, K3. eexists. split_and!; [done| |done].
    apply (Hrep _ fast); try done.
    intros y. cbn. rewrite elem_of_app, list_elem_of_singleton. tauto.
Qed.

(** The first event at [minPos] is due now. *)
Lemma take_first_refines c P q x : represents c P q -> access q (minPos q) = Some x ->
  P !! x = Some c /\ minTime q = c /\ represents c (delete x P) (take_first x q).
Proof.
  intros ((fast & I1 & I2 & HP) & Hw & Hall) Ha.
  destruct (take_first_spec _ _ _ I1 Ha) as (Hx & Ht & J1).
  assert (P !! x = Some (minTime q)) as HPx by (apply HP; tauto).
  pose proof (Hall _ _ HPx). assert (minTime q = c) as Ec by lia. rewrite Ec in HPx.
  assert (x ∉ tooFar q) as Hnf.
  { rewrite (fa_type _ I2). apply (fi_type _ _ I1) in Hx. congruence. }
  assert (forall y, utime (take_first x q) y = utime q y) as Et.
  { intros y. unfold take_first, utime, upd_user. cbn. by destruct (Nat.eqb x y). }
  split; [done|]. split; [done|]. split_and!; [|cbn; lia..|].
  - exists (remove1 x fast). split; [done|].
    destruct (remove1_nodup x fast (fi_nodup _ _ I1) Hx) as (_ & Hel & _). split.
    + apply (far_inv_ext q); try done. intros y. cbn. unfold upd_user.
      destruct (Nat.eqb_spec x y) as [<-|]; [|done]. rewrite <- (fa_type _ I2). cbn.
      split; [done|tauto].
    + intros y t. rewrite lookup_delete_Some, HP, Hel, Et. cbn.
      destruct (decide (x = y)) as [<-|]; naive_solver.
  - intros y t [_ Hy]%lookup_delete_Some. by eapply Hall.
Qed.

(** Bringing the near events of the heap into the lists loses none of those due. *)
Lemma adjust_refines c P q : represents c P q -> c < MaxTime ->
  exists q1, (if minTooFar q <=? c then adjustTooFar q else Some q) = Some q1 /\
    represents c P q1 /\ forall x, x ∈ tooFar q1 -> c < utime q1 x.
Proof.
  intros ((fast & I1 & I2 & HP) & Hw & Hall) Hc. destruct (Z.leb_spec (minTooFar q) c).
  - destruct (adjust_loop_spec (S (length (tooFar q))) q fast I1 I2) as
      (q1 & fast1 & E & J1 & J2 & J3 & J4 & J5 & J6); [|lia|].
    { intros E. pose proof (fa_min _ I2 E). lia. }
    exists q1. split; [done|]. split.
    + split_and!; [|rewrite J3; lia..|done]. exists fast1. split_and!; [done..|].
      intros x t. by rewrite HP, J5, J4.
    + intros x Hx. rewrite J4. specialize (J6 x Hx). lia.
  - exists q. split; [done|]. split; [split_and!; [by exists fast|lia..|done]|].
    intros x Hx. destruct (fa_time _ I2 x Hx). lia.
Qed.

Lemma nextJob_refines c P q : represents c P q -> c < MaxTime ->
  exists r q', nextJob c q = Some (r, q') /\ minTime q' = c /\
    match r with
    | Some x => P !! x = Some c /\ represents c (delete x P) q'
    | None => (forall x t, P !! x = Some t -> c < t) /\ represents c P q'
    end.
Proof.
  intros HR Hc. unfold nextJob.
  destruct (match access q (minPos q) with Some _ => minTime q =? c | None => false end) eqn:Efast.
  { destruct (access q (minPos q)) as [x|] eqn:Ea; [|done]. rewrite Efast.
    destruct (take_first_refines c P q x HR Ea) as (H1 & H2 & H3).
    by exists (Some x), (take_first x q). }
  destruct (adjust_refines c P q HR Hc) as (q1 & Eq1 & HR1 & Hfar). rewrite Eq1. cbn.
  clear HR. pose proof HR1 as ((fast & I1 & I2 & HP) & Hw & Hall).
  enough (exists r q', (if nNodes q1 =? 0 then Some (None, set_min c 0 q1)
      else let q := skip_empty (Z.to_nat (c - minTime q1)) c q1 in
        match access q (minPos q) with
        | None => Some (None, q)
        | Some node => Some (Some node, take_first node q)
        end) = Some (r, q') /\ minTime q' = c /\
    match r with
    | Some x => P !! x = Some c /\ represents c (delete x P) q'
    | None => (forall x t, P !! x = Some t -> c < t) /\ represents c P q'
    end) as HG.
  { destruct (access q (minPos q)); [destruct (minTime q =? c); [done|]|]; exact HG. }
  clear Efast Eq1 q.
  assert (forall x, x ∈ fast \/ x ∈ tooFar q1 -> c <= utime q1 x) as Hge.
  { intros x Hx. apply (Hall x). by apply HP. }
  pose proof AccessSize_range. destruct (Z.eqb_spec (nNodes q1) 0) as [E0|E0].
  - assert (fast = []) as ->.
    { apply nil_length_inv. pose proof (fi_nodes _ _ I1). lia. }
    exists None, (set_min c 0 q1). split_and!; [done|done| |split_and!; [|cbn; lia..|done]].
    + intros x t [[Hx|Hx] <-]%HP; [by apply not_elem_of_nil in Hx|by apply Hfar].
    + exists []. split_and!; [|apply set_min_far_inv; [done|lia|naive_solver]|done].
      apply set_min_fast_inv; [done|lia|lia| |by left]. intros; apply Hge; by left.
  - cbn zeta. destruct (skip_empty_spec _ c q1 fast I1 I2 eq_refl) as (J1 & J2 & J3 & J4 & J5); [lia|done|].
    set (q2 := skip_empty _ _ _) in *.
    assert (represents c P q2) as HR2.
    { split_and!; [|lia..|done]. exists fast. split_and!; [done..|].
      intros x t. rewrite HP, J5. unfold utime. by rewrite J4. }
    destruct (access q2 (minPos q2)) as [x|] eqn:Ea.
    + destruct (take_first_refines c P q2 x HR2 Ea) as (H1 & H2 & H3).
      by exists (Some x), (take_first x q2).
    + exists None, q2. split_and!; [done|done| |done]. intros x t [[Hx|Hx] <-]%HP.
      * pose proof (Hge x (or_introl Hx)) as Hx1.
        destruct (decide (utime q1 x = c)) as [Ex|]; [|lia]. exfalso.
        pose proof (fi_chain _ _ J1 (minPos q2) (fi_pos _ _ J1)) as Hch. rewrite Ea in Hch.
        assert (x ∈ at_slot q2 fast (minPos q2)) as Hin.
        { apply elem_of_at_slot. split; [|done]. apply slot_minPos; [apply J1|..];
            unfold utime; rewrite J4; fold (utime q1 x); lia. }
        destruct (at_slot q2 fast (minPos q2)); [by apply not_elem_of_nil in Hin|by destruct Hch].
      * by apply Hfar.
Qed.

Lemma represents_tick c P q : represents c P q -> minTime q = c ->
  (forall x t, P !! x = Some t -> c < t) -> represents (c + 1) P q.
Proof.
  intros (H1 & H2 & H3) Hm Hall. pose proof AccessSize_range. split_and!; [done|lia..|].
  intros x t Hx. specialize (Hall x t Hx). lia.
Qed.

(** The events a callback may schedule: none of them pending, all within reach. *)
Definition insertable (c : Z) (P : gmap nat Z) (news : list (nat * Z)) : Prop :=
  NoDup news.*1 /\
  forall y t, (y, t) ∈ news -> P !! y = None /\ c < t < c + 2 ^ 32 - AccessSize.

Lemma insert_all_refines news : forall c P q, represents c P q -> insertable c P news ->
  exists q' P', insert_all news q = Some q' /\ represents c P' q' /\ minTime q' = minTime q /\
    forall z s, P' !! z = Some s <-> (z, s) ∈ news \/ P !! z = Some s.
Proof.
  induction news as [|[y t] news IH]; intros c P q HR [Hnd Hok]; cbn.
  { exists q, P. split_and!; [done..|]. intros z s. split; [by right|].
    intros [Hz|Hz]; [by apply not_elem_of_nil in Hz|done]. }
  cbn in Hnd. apply NoDup_cons in Hnd as [Hy Hnd].
  destruct (Hok y t ltac:(left)) as [HPy Ht].
  destruct (insert_refines c P q y t HR HPy) as (q1 & -> & HR1 & Hm1); [lia| |cbn].
  { destruct HR as (_ & Hw & _). lia. }
  destruct (IH c (<[y := t]> P) q1 HR1) as (q' & P' & -> & HR' & Hm' & HP').
  { split; [done|]. intros z s Hz. destruct (Hok z s ltac:(by right)) as [HPz Hs].
    split; [|done]. rewrite lookup_insert_ne; [done|]. intros ->. apply Hy.
    apply list_elem_of_fmap. by exists (z, s). }
  exists q', P'. split_and!; [done|done|congruence|]. intros z s.
  rewrite HP', elem_of_cons, lookup_insert_Some. split.
  - intros [Hz|[[<- <-]|[_ Hz]]]; auto.
  - intros [[[= -> ->]|Hz]|Hz]; auto. right. right. split; [|done]. intros ->. congruence.
Qed.

(** [drain] calls the events due and no others. *)
Lemma drain_spec fuel call c : c < MaxTime -> forall P q due,
  represents c P q -> NoDup due -> (forall x, x ∈ due <-> P !! x = Some c) ->
  (forall x, x ∈ due -> insertable c (delete x P) (call x)) ->
  (forall x x' y, x ∈ due -> x' ∈ due -> x <> x' -> y ∈ (call x).*1 -> y ∉ (call x').*1) ->
  (length due < fuel)%nat ->
  exists called q' P', drain fuel call c q = Some (called, q') /\ called ≡ₚ due /\
    represents c P' q' /\ minTime q' = c /\
    forall y t, P' !! y = Some t <->
      (exists x, x ∈ due /\ (y, t) ∈ call x) \/ (P !! y = Some t /\ t <> c).
Proof.
  intros Hc. induction fuel as [|fuel IH]; intros P q due HR Hnd Hdue Hok Hdis Hf; [lia|]. cbn.
  destruct (nextJob_refines c P q HR Hc) as (r & q1 & -> & Hm1 & Hr). cbn.
  destruct r as [x|].
  - destruct Hr as [HPx HR1]. assert (x ∈ due) as Hx by (by apply Hdue).
    destruct (remove1_nodup x due Hnd Hx) as (Hnd' & Hel & Hlen).
    destruct (insert_all_refines (call x) c _ q1 HR1 (Hok x Hx)) as (q2 & P2 & -> & HR2 & Hm2 & HP2).
    cbn. pose proof (Hok x Hx) as [_ Hokx].
    assert (forall y t, (y, t) ∈ call x -> y ∈ (call x).*1) as Hfst.
    { intros y t Hy. apply list_elem_of_fmap. by exists (y, t). }
    destruct (IH P2 q2 (remove1 x due) HR2 Hnd') as (called & q' & P' & -> & Hperm & HR' & Hm' & HP').
    + intros z. rewrite Hel, HP2, Hdue, lookup_delete_Some. split; [naive_solver|].
      intros [Hz|Hz]; [|naive_solver]. destruct (Hokx z c Hz). lia.
    + intros z [Hz Hzx]%Hel. destruct (Hok z Hz) as [N1 N2]. split; [done|].
      intros y t Hy. destruct (N2 y t Hy) as [Hn Ht]. split; [|done].
      apply lookup_delete_None. apply lookup_delete_None in Hn as [->|Hn]; [by left|].
      right. apply eq_None_not_Some. intros [s Hs]. apply HP2 in Hs as [Hs|Hs].
      * apply (Hdis x z y); [done|done|congruence|by eapply Hfst|].
        apply list_elem_of_fmap. by exists (y, t).
      * apply lookup_delete_Some in Hs as [_ Hs]. congruence.
    + intros z z' y [Hz _]%Hel [Hz' _]%Hel. by apply Hdis.
    + lia.
    + cbn. exists (x :: called), q', P'. split_and!; [done| |done..|].
      { rewrite Hperm. destruct (remove1_split x due Hx) as (l1 & l2 & -> & _ & ->).
        apply Permutation_middle. }
      intros y t. rewrite HP', HP2, lookup_delete_Some. split.
      * intros [(z & [Hz _]%Hel & Hy)|[[Hy|[_ Hy]] Ht]]; [left; by exists z|left; by exists x|by right].
      * intros [(z & Hz & Hy)|[Hy Ht]].
        -- destruct (decide (z = x)) as [->|Hne]; [|left; exists z; by rewrite Hel].
           right. split; [by left|]. destruct (Hokx y t Hy). lia.
        -- right. split; [right; split; [congruence|done]|done].
  - destruct Hr as [Hlater HR1].
    assert (due = []) as ->.
    { destruct due as [|x l]; [done|]. pose proof (Hlater x c ltac:(apply Hdue; left)). lia. }
    exists [], q1, P. split_and!; [done..|]. intros y t. split.
    + intros Hy. right. split; [done|]. specialize (Hlater y t Hy). lia.
    + intros [(x & Hx & _)|[Hy _]]; [by apply not_elem_of_nil in Hx|done].
Qed.

(** The walk of [remove] finds the predecessor. *)
Lemma find_prev_spec us x l2 l1 : forall fuel prev o, chain us o (l1 ++ x :: l2) -> x ∉ l1 ->
  (length l1 < fuel)%nat ->
  find_prev fuel us x prev o = Some (match last l1 with Some z => Some z | None => prev end).
Proof.
  induction l1 as [|y l1 IH]; intros [|fuel] prev o Hc Hn Hf; cbn in *; try lia.
  - destruct Hc as [-> _]. by rewrite Nat.eqb_refl.
  - destruct Hc as [-> Hc]. rewrite elem_of_cons in Hn. destruct (Nat.eqb_spec y x); [naive_solver|].
    rewrite (IH fuel (Some y)); [|done|tauto|lia]. destruct l1 as [|w l1]; [done|].
    rewrite last_cons_cons. by destruct (last (w :: l1)) eqn:E; [|apply last_None in E].
Qed.

Lemma reset_represents q : (forall x, qType (users q x) = InNoQueue) -> tooFar q = [] ->
  represents 0 ∅ (reset q).
Proof.
  intros Hu Ht. pose proof AccessSize_range. split_and!; [|cbn; lia..|by intros x t].
  exists []. split_and!.
  - split; cbn; try done; try lia; [apply NoDup_nil_2| |].
    + intros x. rewrite Hu. split; [by intros ?%not_elem_of_nil|done].
    + intros x Hx. by apply not_elem_of_nil in Hx.
  - split; cbn; rewrite ?Ht; try done; [apply NoDup_nil_2| |].
    + intros x. rewrite Hu. split; [by intros ?%not_elem_of_nil|done].
    + intros x Hx. by apply not_elem_of_nil in Hx.
  - intros x t. cbn. rewrite Ht. pose proof (not_elem_of_nil x). split; [done|tauto].
Qed.

(** ** Properties *)

(** C14: The calendar queue refines a finite map from pending events to cycles.  After
    [reset] it stands for the empty map; inserting an event that is not pending, for the
    current cycle or a later one in reach, adds it; [nextJob] returns an event pending for
    the current cycle and removes it, or returns null, only when no event is left for
    this cycle, and then the queue stands for the same map at the next cycle. *)
Theorem tqueue_refines c P q :
  ((forall x, qType (users q x) = InNoQueue) -> tooFar q = [] -> represents 0 ∅ (reset q)) /\
  (represents c P q ->
    (forall x t, P !! x = None -> c <= t < c + 2 ^ 32 - AccessSize ->
      exists q', insert x t q = Some q' /\ represents c (<[x := t]> P) q') /\
    (c < MaxTime ->
      exists r q', nextJob c q = Some (r, q') /\
        match r with
        | Some x => P !! x = Some c /\ represents c (delete x P) q'
        | None => (forall x t, P !! x = Some t -> c < t) /\ represents (c + 1) P q'
        end)).
Proof.
  split; [apply reset_represents|].
  intros HR. split.
  - intros x t Hx Hr. pose proof HR as (_ & Hw & _).
    destruct (insert_refines c P q x t HR Hx) as (q' & E & HR' & _); [lia..|]. by exists q'.
  - intros Hc. destruct (nextJob_refines c P q HR Hc) as (r & q' & E & Hm & Hr).
    exists r, q'. split; [done|]. destruct r as [x|]; [done|]. destruct Hr as [Hl HR'].
      split; [done|by apply represents_tick].
Qed.

(** One turn of the event loop: with fuel for the events of the cycle it ends, it calls
    exactly the events pending for the current cycle, each once, whatever their callbacks
    schedule for later cycles, and leaves the queue, at the next cycle, with the events
    that were not due and those the callbacks scheduled. *)
Lemma advanceClock_calls_due fuel call c P q due :
  c < MaxTime -> represents c P q -> NoDup due -> (forall x, x ∈ due <-> P !! x = Some c) ->
  (forall x, x ∈ due -> insertable c (delete x P) (call x)) ->
  (forall x x' y, x ∈ due -> x' ∈ due -> x <> x' -> y ∈ (call x).*1 -> y ∉ (call x').*1) ->
  (length due < fuel)%nat ->
  exists called q' P', advanceClock fuel call c q = Some (called, q', c + 1) /\
    called ≡ₚ due /\ represents (c + 1) P' q' /\
    forall y t, P' !! y = Some t <->
      (exists x, x ∈ due /\ (y, t) ∈ call x) \/ (P !! y = Some t /\ t <> c).
Proof.
  intros Hc HR Hnd Hdue Hok Hdis Hf.
  destruct (drain_spec fuel call c Hc P q due HR Hnd Hdue Hok Hdis Hf)
    as (called & q' & P' & E & Hperm & HR' & Hm & HP').
  exists called, q', P'. unfold advanceClock. rewrite E. split_and!; [done..| |done].
  apply represents_tick; [done..|]. intros y t Hy. pose proof HR' as (_ & _ & Hge).
  specialize (Hge y t Hy). apply HP' in Hy as [(x & Hx & Hy)|[_ Hne]]; [|lia].
  destruct (Hok x Hx) as [_ Hr]. destruct (Hr y t Hy). lia.
Qed.

(** [remove] of an event that is the last of at least two of its cycle leaves the list
    without a tail (and the event marked as queued): the next insertion for that cycle
    follows the null pointer. *)
Lemma remove_last_breaks_insert q fast x l :
  fast_inv q fast -> at_slot q fast (slot q (utime q x)) = l ++ [x] -> l <> [] ->
  exists q', remove x q = Some q' /\ qType (users q' x) = InFastQueue /\
    forall y, insert y (utime q x) q' = None.
Proof.
  intros I E Hl. pose proof I as []. set (t := utime q x) in *.
  assert (x ∈ at_slot q fast (slot q t)) as Hin by (rewrite E, elem_of_app, list_elem_of_singleton; auto).
  apply elem_of_at_slot in Hin as [_ Hin].
  pose proof (at_slot_nodup q fast (slot q t) fi_nodup0) as Hnd. rewrite E in Hnd.
  apply NoDup_app in Hnd as (_ & Hd & _).
  assert (x ∉ l) as Hxl by (intros Hx; apply (Hd x Hx); left).
  pose proof (fi_chain0 _ (slot_range q t)) as Hc. rewrite E in Hc.
  pose proof (fi_tail0 _ (slot_range q t)) as Ht. rewrite E, last_snoc in Ht.
  specialize (Ht ltac:(by destruct l)).
  destruct (access q (slot q t)) as [h|] eqn:Eh; [|by destruct l, Hc].
  assert (h <> x) as Hhx.
  { destruct l as [|h' l]; [done|]. destruct Hc as [[= ->] _]. intros ->. apply Hxl. left. }
  assert (access q (minPos q) <> Some x) as Hfirst.
  { intros Ha. destruct (take_first_spec _ _ _ I Ha) as (_ & Htx & _).
    assert (slot q t = minPos q) as Es by (apply slot_minPos; [done|by apply fi_time0|done]).
    congruence. }
  assert (Z.of_nat (length (l ++ [x])) <= nNodes q) as Hlen.
  { rewrite <- E, fi_nodes0. apply inj_le, length_filter. }
  assert (qType (users q x) = InFastQueue) as Hq by (by apply fi_type0).
  unfold remove. rewrite Hq, bool_decide_false by done. fold t. rewrite Eh.
  rewrite (find_prev_spec (users q) x [] l); [|done|done|rewrite length_app in Hlen; cbn in Hlen; lia].
  destruct (last l) as [z|] eqn:Ez; [|by apply last_None in Ez]. cbn.
  rewrite bool_decide_true by done. eexists. split_and!; [done|..].
  - cbn. unfold upd_user. by destruct (Nat.eqb z x).
  - intros y. pose proof (fi_time0 x Hin) as Hw. fold t in Hw. pose proof AccessSize_range.
    unfold insert. cbn [minTime set_users set_lists]. rewrite (uint_id 32) by (unfold in_u; lia).
    destruct (Z.ltb_spec (t - minTime q) AccessSize); [|lia].
    unfold addNode, slot. cbn [minTime minPos access accessTail set_users set_lists].
    fold (slot q t). rewrite Eh. unfold updz. by rewrite Z.eqb_refl.
Qed.

End TQueue.

(** ** Concrete queues *)

(** A heap whose front is the first of the earliest elements. *)
Fixpoint first_min (tm : nat -> Z) (l : list nat) : option nat :=
  match l with
  | [] => None
  | x :: l =>
      match first_min tm l with
      | Some y => if tm y <? tm x then Some y else Some x
      | None => Some x
      end
  end.

Lemma first_min_some tm l : l <> [] -> exists x, first_min tm l = Some x.
Proof.
  destruct l as [|x l]; [done|]. cbn. intros _.
  destruct (first_min tm l) as [y|]; [destruct (tm y <? tm x)|]; eauto.
Qed.

Lemma first_min_min tm l : forall x, first_min tm l = Some x ->
  x ∈ l /\ forall y, y ∈ l -> tm x <= tm y.
Proof.
  induction l as [|z l IH]; intros x; cbn; [done|].
  destruct (first_min tm l) as [y|] eqn:E.
  - destruct (IH y eq_refl) as [Hy Hmin]. destruct (Z.ltb_spec (tm y) (tm z)); intros [= <-].
    + split; [by right|]. intros w [->|Hw]%elem_of_cons; [lia|by apply Hmin].
    + split; [left|]. intros w [->|Hw]%elem_of_cons; [lia|]. specialize (Hmin w Hw). lia.
  - intros [= <-]. split; [left|]. destruct l as [|w l]; [|by destruct (first_min_some tm (w :: l)); [|congruence]].
    intros w ->%list_elem_of_singleton. lia.
Qed.

#[export] Instance first_min_heap : HeapFront := {|
  heap_front := first_min;
  heap_front_some := first_min_some;
  heap_front_min := first_min_min |}.

(** The queue of the simulator, [cbQ(256)], before any event. *)
Definition cbQ0 : TQueue :=
  reset (mkTQ (fun _ => mkUser 0 None InNoQueue) 0 0 0 (fun _ => None) (fun _ => None) [] 0).

Lemma cbQ0_represents : represents 8 0 ∅ cbQ0.
Proof. by apply reset_represents. Qed.

Lemma tqueue_refines_witness : exists q', insert 8 7 5 cbQ0 = Some q' /\ represents 8 0 {[7%nat := 5]} q'.
Proof.
  destruct (tqueue_refines 8 ltac:(lia) 0 ∅ cbQ0) as [_ H].
  destruct (H cbQ0_represents) as [Hi _]. apply (Hi 7%nat 5); [reflexivity|vm_compute; split; congruence].
Defined.

Lemma advanceClock_calls_due_witness :
  exists q1, insert 8 7 0 cbQ0 = Some q1 /\
    exists called q' (P' : gmap nat Z), advanceClock 8 2 (fun _ => [(8%nat, 300)]) 0 q1 = Some (called, q', 1) /\
      called ≡ₚ [7%nat] /\ P' !! 8%nat = Some 300.
Proof.
  destruct (insert_refines 8 ltac:(lia) 0 ∅ cbQ0 7%nat 0 cbQ0_represents) as (q1 & E & HR & _);
    [reflexivity|lia|vm_compute; congruence|].
  exists q1. split; [exact E|].
  destruct (advanceClock_calls_due 8 ltac:(lia) 2 (fun _ => [(8%nat, 300)]) 0 (<[7%nat := 0]> ∅) q1 [7%nat])
    as (called & q' & P' & Ea & Hp & _ & HP).
  - reflexivity.
  - exact HR.
  - apply NoDup_singleton.
  - intros x. rewrite list_elem_of_singleton, lookup_insert_Some, lookup_empty. naive_solver.
  - intros x _. split; [apply NoDup_singleton|].
    intros y t Hy%list_elem_of_singleton. injection Hy as -> ->. split.
    + apply lookup_delete_None. right. reflexivity.
    + vm_compute. split; reflexivity.
  - intros x x' y Hx%list_elem_of_singleton Hx'%list_elem_of_singleton. congruence.
  - cbn. lia.
  - exists called, q', P'. split; [exact Ea|]. split; [exact Hp|]. apply HP. left.
    exists 7%nat. split; left.
Defined.

(** Two events of cycle 5. *)
Definition two_events : TQueue :=
  mkTQ (fun y => match y with
                 | 1%nat => mkUser 5 (Some 2%nat) InFastQueue
                 | 2%nat => mkUser 5 None InFastQueue
                 | _ => mkUser 0 None InNoQueue
                 end) 0 0 2 (updz (fun _ => None) 5 (Some 1%nat))
    (updz (fun _ => None) 5 (Some 2%nat)) [] MaxTime.

Lemma two_events_inv : fast_inv 8 two_events [1%nat; 2%nat].
Proof.
  assert (forall p, at_slot 8 two_events [1%nat; 2%nat] p =
    if decide (5 = p) then [1%nat; 2%nat] else []) as Eat.
  { intros p. unfold at_slot. rewrite !filter_cons. 
    change (slot 8 two_events (utime two_events 1)) with 5.
    change (slot 8 two_events (utime two_events 2)) with 5.
    by destruct (decide (5 = p)). }
  split.
  - vm_compute. split; congruence.
  - reflexivity.
  - apply (bool_decide_unpack _). reflexivity.
  - intros x. rewrite !elem_of_cons. pose proof (not_elem_of_nil x).
    destruct x as [|[|[|x]]]; cbn; naive_solver.
  - intros x Hx. rewrite !elem_of_cons in Hx. pose proof (not_elem_of_nil x).
    destruct Hx as [->|[->|?]]; [vm_compute; split; congruence..|done].
  - intros p _. rewrite Eat. cbn. unfold updz. destruct (decide (5 = p)), (Z.eqb_spec 5 p); by subst.
  - intros p _. rewrite Eat. cbn. unfold updz. destruct (decide (5 = p)) as [<-|]; done.
Qed.

Lemma remove_last_breaks_insert_witness :
  exists q', remove 8 2 two_events = Some q' /\ insert 8 3 5 q' = None.
Proof.
  destruct (remove_last_breaks_insert 8 ltac:(lia) two_events [1%nat; 2%nat] 2 [1%nat])
    as (q' & E & _ & H); [apply two_events_inv|reflexivity|discriminate|].
  exists q'. split; [exact E|]. exact (H 3%nat).
Defined.

(** An event 2^32 + 3 cycles away is taken for one 3 cycles away, and called then. *)
Lemma far_event_early :
  (q ← insert 8 1 (2 ^ 32 + 3) cbQ0; '(r, _) ← nextJob 8 3 q; Some r) = Some (Some 1%nat).
Proof. reflexivity. Qed.
