(* ===== verification/CacheCore.v ===== *)
(** * The cache arrays of the timing simulator

    Model of src/misc/libsuc/CacheCore.h and CacheCore.cpp: the tag array of every
    simulated cache, TLB and prefetch buffer, in its four classes - set associative with
    the policy LRU or RANDOM, direct mapped, direct mapped with a skewed index, and set
    associative with signature based replacement (SHIP).

    A line is a number; [mem] is the memory of the lines and [content] the array of
    pointers to them, cut into its sets: way [w] of set [s] is the element
    [(s << log2Assoc) + w] of the array.  Sizes are powers of two, as the configuration
    reader requires.  An address has 64 bits.  A line with tag 0 is invalid; the tag of an
    address of the first line is 0 and is excluded (the debugging assertion [I(tag)]).
    The state of a line is that of [StateGenericShip]; the other classes use its tag.

    [CacheClass] collects the laws of a class that [fillLine] relies on, and each of the
    four classes is shown to satisfy them; only the signature based class needs the tag to
    be absent when a line is replaced.  CacheRuns states what follows for whole histories
    from the constructors. *)

From S2P Require Import Prelude SimBase.
Open Scope Z_scope.

(** ** Data *)

Record Line := mkLine { tag : Z; rrpv : Z; signature : Z; outcome : bool }.

Definition RRIP_M : Z := 4.

Definition isValid (l : Line) : bool := negb (tag l =? 0).
Definition setTag (a : Z) (l : Line) : Line := mkLine a (rrpv l) (signature l) (outcome l).
Definition invalidate (l : Line) : Line := mkLine 0 (RRIP_M - 1) 0 false.
Definition setOutcome (b : bool) (l : Line) : Line := mkLine (tag l) (rrpv l) (signature l) b.
Definition setSignature (a : Z) (l : Line) : Line := mkLine (tag l) (rrpv l) a (outcome l).
Definition setRRPV (a : Z) (l : Line) : Line :=
  let r := uint8_t a in
  mkLine (tag l) (if RRIP_M - 1 <? r then RRIP_M - 1 else r) (signature l) (outcome l).
Definition incRRPV (l : Line) : Line :=
  if rrpv l <? RRIP_M - 1 then mkLine (tag l) (uint8_t (rrpv l + 1)) (signature l) (outcome l) else l.

Inductive ReplacementPolicy := LRU | RANDOM.

(** [rand_number] is the static variable of [CacheDMSkew::findLine2Replace]. *)
Record Cache := mkCache {
  mem : nat -> Line;
  content : Z -> list nat;
  irand : Z;
  rand_number : Z;
  SHCT : Z -> Z }.

Definition upd_line (x : nat) (f : Line -> Line) (c : Cache) : Cache :=
  mkCache (fun y => if Nat.eqb x y then f (mem c y) else mem c y)
    (content c) (irand c) (rand_number c) (SHCT c).
Definition set_content (s : Z) (l : list nat) (c : Cache) : Cache :=
  mkCache (mem c) (fun s' => if s =? s' then l else content c s') (irand c) (rand_number c) (SHCT c).
Definition set_irand (r : Z) (c : Cache) : Cache :=
  mkCache (mem c) (content c) r (rand_number c) (SHCT c).
Definition set_rand_number (r : Z) (c : Cache) : Cache :=
  mkCache (mem c) (content c) (irand c) r (SHCT c).
Definition set_SHCT (i v : Z) (c : Cache) : Cache :=
  mkCache (mem c) (content c) (irand c) (rand_number c)
    (fun j => if i =? j then v else SHCT c j).

Definition ltag (c : Cache) (x : nat) : Z := tag (mem c x).

(** ** Geometry *)

(** The logarithms of the line size, the associativity and the number of sets. *)
Class Geometry := {
  log2AddrLs : Z;
  log2Assoc : Z;
  log2Sets : Z;
  geometry_ok : 0 <= log2AddrLs < 64 /\ 0 <= log2Assoc <= 16 /\ 0 <= log2Sets <= 31 }.

Section Cache.
  Context {G : Geometry}.

Definition assoc : Z := 2 ^ log2Assoc.
Definition maskAssoc : Z := assoc - 1.
Definition sets : Z := 2 ^ log2Sets.
Definition maskSets : Z := sets - 1.

Definition calcTag (addr : Z) : Z := Z.shiftr addr log2AddrLs.
Definition calcSet4Tag (t : Z) : Z := Z.land t maskSets.
Definition calcAddr4Tag (t : Z) : Z := uint64_t (Z.shiftl t log2AddrLs).

(** The constructors: every line is invalid, in order.  The counter table belongs to
    [CacheSHIP]; the other classes have none and never read [shct]. *)
Definition new_cache (shct : Z -> Z) : Cache :=
  mkCache (fun _ => invalidate (mkLine 0 0 0 false))
    (fun s => seq (Z.to_nat (s * assoc)) (Z.to_nat assoc)) 0 0 shct.

(** The table of [CacheSHIP] has [2<<log2shct] bytes from the heap, and the loop of the
    constructor clears those below [2^log2shct], which is an exclusive or: all the others
    keep what the heap held. *)
Definition new_SHCT (log2shct : Z) (heap : Z -> Z) (j : Z) : Z :=
  if j <? Z.lxor 2 log2shct then 0 else uint8_t (heap j).

Definition new_ship (log2shct : Z) (heap : Z -> Z) : Cache := new_cache (new_SHCT log2shct heap).

(** ** Set associative *)

(** The loop [while (l > theSet) { *l = *prev; l = prev; }] from way [i] down. *)
Fixpoint shift_ways (i : nat) (theSet : list nat) : list nat :=
  match i with
  | O => theSet
  | S j => shift_ways j (<[i := theSet !!! j]> theSet)
  end.

Definition move_front (i : nat) (theSet : list nat) : list nat :=
  <[0%nat := theSet !!! i]> (shift_ways i theSet).

(** The loop over the ways from number [i] on. *)
Fixpoint scan_up (c : Cache) (t : Z) (l : list nat) (i : nat) : option nat :=
  match l with
  | [] => None
  | x :: l => if ltag c x =? t then Some i else scan_up c t l (S i)
  end.

(** The loop over the ways below [n], downwards. *)
Fixpoint scan_down (c : Cache) (t : Z) (theSet : list nat) (n : nat) : option nat :=
  match n with
  | O => None
  | S j => if ltag c (theSet !!! j) =? t then Some j else scan_down c t theSet j
  end.

Definition assoc_findLinePrivate (addr : Z) (c : Cache) : option nat * Cache :=
  let t := calcTag addr in
  let s := calcSet4Tag t in
  let theSet := content c s in
  if ltag c (theSet !!! 0%nat) =? t then (Some (theSet !!! 0%nat), c)
  else
    match scan_up c t (drop 1 theSet) 1 with
    | None => (None, c)
    | Some i => (Some (theSet !!! i), set_content s (move_front i theSet) c)
    end.

(** [lineFree], the preference for an invalid line computed by the loop, is overwritten
    by both policies. *)
Definition assoc_findLine2Replace (policy : ReplacementPolicy) (addr : Z) (c : Cache)
  : nat * Cache :=
  let t := calcTag addr in
  let s := calcSet4Tag t in
  let theSet := content c s in
  if ltag c (theSet !!! 0%nat) =? t then (theSet !!! 0%nat, c)
  else
    match scan_down c t theSet (Z.to_nat assoc) with
    | Some i => (theSet !!! i, set_content s (move_front i theSet) c)
    | None =>
        let '(i, c) :=
          match policy with
          | RANDOM =>
              (Z.to_nat (irand c), set_irand (uint16_t (Z.land (irand c + 1) maskAssoc)) c)
          | LRU => (Z.to_nat (assoc - 1), c)
          end in
        if Nat.eqb i 0 then (theSet !!! 0%nat, c)
        else (theSet !!! i, set_content s (move_front i theSet) c)
    end.

(** ** Direct mapped *)

Definition dm_line (t : Z) (c : Cache) : nat := content c (calcSet4Tag t) !!! 0%nat.

Definition dm_findLinePrivate (addr : Z) (c : Cache) : option nat * Cache :=
  let t := calcTag addr in
  if ltag c (dm_line t c) =? t then (Some (dm_line t c), c) else (None, c).

Definition dm_findLine2Replace (addr : Z) (c : Cache) : nat * Cache := (dm_line (calcTag addr) c, c).

(** ** Direct mapped, skewed *)

Definition skew2 (t : Z) : Z := Z.lxor t (Z.shiftr t 1).
Definition skew3 (t : Z) : Z := Z.lxor t (uint64_t (Z.shiftr t 1 + Z.land t 0xFFFF)).

Definition skew_findLinePrivate (addr : Z) (c : Cache) : option nat * Cache :=
  let tag1 := calcTag addr in
  if ltag c (dm_line tag1 c) =? tag1 then (Some (dm_line tag1 c), c)
  else if ltag c (dm_line (skew2 tag1) c) =? tag1 then (Some (dm_line (skew2 tag1) c), c)
  else if ltag c (dm_line (skew3 tag1) c) =? tag1 then (Some (dm_line (skew3 tag1) c), c)
  else (None, c).

Definition skew_findLine2Replace (addr : Z) (c : Cache) : nat * Cache :=
  let tag1 := calcTag addr in
  let line1 := dm_line tag1 c in
  if ltag c line1 =? tag1 then (line1, c)
  else
    let line2 := dm_line (skew2 tag1) c in
    if ltag c line2 =? tag1 then (line2, c)
    else
      let c := set_rand_number (rand_number c + 1) c in
      let line3 := dm_line (skew3 tag1) c in
      if ltag c line3 =? tag1 then (line3, c)
      else
        let c := if 2 <? rand_number c then set_rand_number 0 c else c in
        if rand_number c =? 0 then (line1, c)
        else if rand_number c =? 1 then (line2, c)
        else (line3, c).

(** ** Signature based replacement *)

Definition ship_signature (log2shct sig : Z) : Z :=
  Z.land (Z.lxor sig (uint64_t (Z.shiftr sig 1 + Z.land sig 0xFFFFFFFF)))
    (Z.shiftl 2 log2shct - 1).

(** A hit on [x]: the outcome bit and the counter of the signature, and the age. *)
Definition ship_hit (log2shct : Z) (updateSHIP : bool) (sig : Z) (x : nat) (c : Cache) : Cache :=
  let c :=
    if updateSHIP then
      let sg := ship_signature log2shct sig in
      let c := upd_line x (setOutcome true) c in
      if SHCT c sg <? 7 then set_SHCT sg (uint8_t (SHCT c sg + 1)) c else c
    else c in
  upd_line x (setRRPV 0) c.

Definition ship_findLinePrivate (log2shct addr : Z) (updateSHIP : bool) (sig : Z) (c : Cache)
  : option nat * Cache :=
  let t := calcTag addr in
  let theSet := content c (calcSet4Tag t) in
  match scan_up c t theSet 0 with
  | None => (None, c)
  | Some i => (Some (theSet !!! i), ship_hit log2shct updateSHIP sig (theSet !!! i) c)
  end.

(** The inner loop: the first line that has the tag, is invalid or is distant. *)
Fixpoint ship_scan (c : Cache) (t : Z) (l : list nat) : option nat :=
  match l with
  | [] => None
  | x :: l =>
      if (ltag c x =? t) || negb (isValid (mem c x)) || (RRIP_M - 1 <=? rrpv (mem c x))
      then Some x else ship_scan c t l
  end.

Definition age (l : list nat) (c : Cache) : Cache := foldl (fun c x => upd_line x incRRPV c) c l.

(** The outer loop. *)
Fixpoint ship_loop (fuel : nat) (t : Z) (l : list nat) (c : Cache) : option (nat * Cache) :=
  match ship_scan c t l with
  | Some x => Some (x, c)
  | None => match fuel with O => None | S fuel => ship_loop fuel t l (age l c) end
  end.

Definition ship_update (log2shct : Z) (updateSHIP : bool) (sig : Z) (x : nat) (c : Cache) : Cache :=
  if updateSHIP then
    let sg := ship_signature log2shct sig in
    let c :=
      if isValid (mem c x) && negb (outcome (mem c x)) then
        let sm := signature (mem c x) in
        if 0 <? SHCT c sm then set_SHCT sm (SHCT c sm - 1) c else c
      else c in
    let c := upd_line x (setSignature sg ∘ setOutcome false) c in
    if SHCT c sg =? 0 then upd_line x (setRRPV (RRIP_M - 1)) c
    else upd_line x (setRRPV (RRIP_M / 2)) c
  else upd_line x (setRRPV (RRIP_M / 2)) c.

Definition ship_findLine2Replace (log2shct addr : Z) (updateSHIP : bool) (sig : Z) (c : Cache)
  : option (nat * Cache) :=
  let t := calcTag addr in
  let theSet := content c (calcSet4Tag t) in
  '(x, c) ← ship_loop (Z.to_nat RRIP_M) t theSet c;
  Some (x, ship_update log2shct updateSHIP sig x c).

(** ** Filling a line *)

(** [fillLine] with the address of the line it displaces; [r] is the result of
    [findLine2Replace]. *)
Definition fillLine (addr : Z) (r : nat * Cache) : nat * Z * Cache :=
  let '(x, c) := r in
  let newTag := calcTag addr in
  let rplcAddr :=
    if isValid (mem c x) then
      if negb (ltag c x =? newTag) then calcAddr4Tag (ltag c x) else 0
    else 0 in
  (x, rplcAddr, upd_line x (setTag newTag) c).

(** ** The loops *)

Lemma shift_ways_spec i : forall l, (i < length l)%nat ->
  shift_ways i l = (l !!! 0%nat) :: take i l ++ drop (S i) l.
Proof.
  induction i as [|j IH]; intros l Hl; cbn [shift_ways].
  - by destruct l; [cbn in Hl; lia|].
  - rewrite IH by (rewrite length_insert; lia).
    rewrite list_lookup_total_insert_ne by lia. f_equal.
    destruct (lookup_lt_is_Some_2 l j ltac:(lia)) as [y Hy].
    rewrite (list_lookup_total_correct _ _ _ Hy), take_insert_ge by lia.
    rewrite (take_S_r _ _ _ Hy), <- app_assoc. f_equal.
    erewrite drop_S by (apply list_lookup_insert_eq; lia). cbn. f_equal.
    apply drop_insert_lt. lia.
Qed.

Lemma move_front_spec i l : (i < length l)%nat ->
  move_front i l = (l !!! i) :: take i l ++ drop (S i) l.
Proof. intros Hl. unfold move_front. by rewrite shift_ways_spec. Qed.

Lemma move_front_perm i l : (i < length l)%nat -> move_front i l ≡ₚ l.
Proof.
  intros Hl. rewrite move_front_spec by done.
  destruct (lookup_lt_is_Some_2 l i Hl) as [y Hy].
  rewrite (list_lookup_total_correct _ _ _ Hy), Permutation_middle.
  by rewrite <- (drop_S _ _ _ Hy), take_drop.
Qed.

Lemma scan_up_spec c t l : forall i,
  match scan_up c t l i with
  | Some j => (i <= j < i + length l)%nat /\ ltag c (l !!! (j - i)%nat) = t
  | None => forall x, x ∈ l -> ltag c x <> t
  end.
Proof.
  induction l as [|x l IH]; intros i; cbn [scan_up].
  { intros x Hx. by apply not_elem_of_nil in Hx. }
  destruct (Z.eqb_spec (ltag c x) t).
  - cbn. split; [lia|]. by rewrite Nat.sub_diag.
  - specialize (IH (S i)). destruct (scan_up c t l (S i)) as [j|].
    + destruct IH as [IH1 IH2]. cbn. split; [lia|].
      by replace (j - i)%nat with (S (j - S i)) by lia.
    + intros y [->|Hy]%elem_of_cons; [done|by apply IH].
Qed.

Lemma scan_down_spec c t l n : (n <= length l)%nat ->
  match scan_down c t l n with
  | Some j => (j < n)%nat /\ ltag c (l !!! j) = t
  | None => forall x, x ∈ take n l -> ltag c x <> t
  end.
Proof.
  induction n as [|j IH]; intros Hn; cbn [scan_down].
  { intros x Hx. by apply not_elem_of_nil in Hx. }
  destruct (Z.eqb_spec (ltag c (l !!! j)) t); [by split; [lia|]|].
  specialize (IH ltac:(lia)). destruct (scan_down c t l j) as [k|].
  - split; [lia|apply IH].
  - destruct (lookup_lt_is_Some_2 l j ltac:(lia)) as [y Hy].
    rewrite (take_S_r _ _ _ Hy). intros x [Hx|Hx%list_elem_of_singleton]%elem_of_app; [by apply IH|].
    subst. by rewrite (list_lookup_total_correct _ _ _ Hy) in n.
Qed.

Lemma lookup_total_elem (l : list nat) i : (i < length l)%nat -> l !!! i ∈ l.
Proof.
  intros Hl. destruct (lookup_lt_is_Some_2 l i Hl) as [y Hy].
  rewrite (list_lookup_total_correct _ _ _ Hy). by eapply list_elem_of_lookup_2.
Qed.

(** ** The interface *)

(** The sets of the cache that may hold a tag depend on the class. *)
Definition in_set (s : Z) : Prop := 0 <= s < sets.

Definition in_cache (c : Cache) (x : nat) : Prop := exists s, in_set s /\ x ∈ content c s.

Definition present (c : Cache) (t : Z) : Prop := exists x, in_cache c x /\ ltag c x = t.

Definition addr_tag (t : Z) : Prop := t <> 0 /\ in_u (64 - log2AddrLs) t.

Record cache_inv (places : Z -> list Z) (c : Cache) : Prop := {
  ci_assoc s : in_set s -> length (content c s) = Z.to_nat assoc;
  ci_nodup s : in_set s -> NoDup (content c s);
  ci_sets s s' x : in_set s -> in_set s' -> x ∈ content c s -> x ∈ content c s' -> s = s';
  ci_place s x : in_set s -> x ∈ content c s -> ltag c x = 0 \/ s ∈ places (ltag c x);
  ci_unique x y : in_cache c x -> in_cache c y -> ltag c x = ltag c y -> ltag c x <> 0 -> x = y;
  ci_range x : in_cache c x -> ltag c x = 0 \/ addr_tag (ltag c x) }.

(** Reordering the ways of a set, and updating what is not the tag. *)
Definition same_lines (c c' : Cache) : Prop :=
  (forall s, in_set s -> content c' s ≡ₚ content c s) /\ forall x, ltag c' x = ltag c x.

Lemma same_lines_refl c : same_lines c c.
Proof. by split. Qed.

Lemma same_lines_in c c' x : same_lines c c' -> in_cache c' x <-> in_cache c x.
Proof.
  intros [H _]. unfold in_cache. split; intros (s & Hs & Hx); exists s; (split; [done|]);
    by rewrite ?H in * by done.
Qed.

Lemma same_lines_present c c' t : same_lines c c' -> present c' t <-> present c t.
Proof.
  intros H. unfold present. split; intros (x & Hx & Ht); exists x.
  - rewrite <- (same_lines_in _ _ _ H). split; [done|]. by rewrite <- (proj2 H x).
  - rewrite (same_lines_in _ _ _ H). split; [done|]. by rewrite (proj2 H x).
Qed.

Lemma same_lines_inv places c c' : same_lines c c' -> cache_inv places c -> cache_inv places c'.
Proof.
  intros H []. pose proof H as [Hc Ht]. split.
  - intros s Hs. rewrite (Hc s Hs). by apply ci_assoc0.
  - intros s Hs. rewrite (Hc s Hs). by apply ci_nodup0.
  - intros s s' x Hs Hs'. rewrite (Hc s Hs), (Hc s' Hs'). by apply ci_sets0.
  - intros s x Hs. rewrite (Hc s Hs), Ht. by apply ci_place0.
  - intros x y. rewrite !(same_lines_in _ _ _ H), !Ht. by apply ci_unique0.
  - intros x. rewrite (same_lines_in _ _ _ H), Ht. by apply ci_range0.
Qed.

(** The laws that [fillLine] needs of a class, proved below for each of the four: a search
    changes no tag, and the line to replace is in a set of the tag and is the line with the
    tag if there is one.  [replace_ok] is the condition for the latter: none, except for
    [CacheSHIP], where it is that the tag is absent (see [replacement_limits]).  [extra_ok]
    is what the class needs of the rest of its state. *)
Class CacheClass := {
  places : Z -> list Z;
  findLinePrivate : Z -> bool -> Z -> Cache -> option nat * Cache;
  findLine2Replace : Z -> bool -> Z -> Cache -> option (nat * Cache);
  replace_ok : Cache -> Z -> Prop;
  extra_ok : Cache -> Prop;
  places_in t s : s ∈ places t -> in_set s;
  findLine_ok addr u sig c r c' : cache_inv places c -> extra_ok c -> addr_tag (calcTag addr) ->
    findLinePrivate addr u sig c = (r, c') ->
    same_lines c c' /\ extra_ok c' /\
    match r with
    | Some x => in_cache c x /\ ltag c x = calcTag addr
    | None => ~ present c (calcTag addr)
    end;
  findLine2Replace_ok addr u sig c : cache_inv places c -> extra_ok c ->
    addr_tag (calcTag addr) -> replace_ok c (calcTag addr) ->
    exists x c', findLine2Replace addr u sig c = Some (x, c') /\ same_lines c c' /\ extra_ok c' /\
      (exists s, s ∈ places (calcTag addr) /\ x ∈ content c s) /\
      (present c (calcTag addr) -> ltag c x = calcTag addr);
  extra_setTag c x t : extra_ok c -> extra_ok (upd_line x (setTag t) c);
  extra_invalidate c x : extra_ok c -> extra_ok (upd_line x invalidate c) }.

(** ** Filling, against the interface *)

Lemma calcTag_calcAddr4Tag t : addr_tag t -> calcTag (calcAddr4Tag t) = t.
Proof.
  intros [_ Ht]. pose proof geometry_ok. unfold calcTag, calcAddr4Tag.
  change (uint64_t ?x) with (uint 64 x).
  rewrite uint_id.
  - rewrite Z.shiftr_shiftl_l, Z.sub_diag by lia. apply Z.shiftl_0_r.
  - unfold in_u in *. rewrite Z.shiftl_mul_pow2 by lia.
    replace (2 ^ 64) with (2 ^ (64 - log2AddrLs) * 2 ^ log2AddrLs)
      by (rewrite <- Z.pow_add_r by lia; f_equal; lia). nia.
Qed.

Lemma ltag_upd x t c y : ltag (upd_line x (setTag t) c) y = if Nat.eqb x y then t else ltag c y.
Proof. unfold ltag. cbn. by destruct (Nat.eqb x y). Qed.

Lemma setTag_inv pl c x s t : cache_inv pl c -> in_set s -> x ∈ content c s -> s ∈ pl t ->
  addr_tag t -> (forall y, in_cache c y -> y <> x -> ltag c y <> t) ->
  cache_inv pl (upd_line x (setTag t) c).
Proof.
  intros [] Hs Hx Hpl Ht Huniq.
  assert (forall y, in_cache (upd_line x (setTag t) c) y <-> in_cache c y) as Hin by done.
  split; [done..| | |].
  - intros s' y Hs' Hy. rewrite ltag_upd. cbn in Hy.
    destruct (Nat.eqb_spec x y) as [<-|]; [|by apply ci_place0].
    right. by rewrite (ci_sets0 s' s x).
  - intros y z Hy Hz. rewrite !ltag_upd.
    destruct (Nat.eqb_spec x y) as [<-|Hxy], (Nat.eqb_spec x z) as [<-|Hxz]; intros E Hne.
    + done.
    + by destruct (Huniq z Hz ltac:(congruence)).
    + by destruct (Huniq y Hy ltac:(congruence)).
    + by apply ci_unique0.
  - intros y Hy. rewrite ltag_upd. destruct (Nat.eqb_spec x y); [by right|by apply ci_range0].
Qed.

(** The line [x] receives the tag [t]: the other tags stay, but for the one of [x]. *)
Lemma setTag_present pl c x s t w : cache_inv pl c -> in_set s -> x ∈ content c s -> w <> 0 ->
  (forall y, in_cache c y -> y <> x -> ltag c y <> t) ->
  present (upd_line x (setTag t) c) w <-> w = t \/ (present c w /\ w <> ltag c x).
Proof.
  intros [] Hs Hx Hw Huniq. assert (in_cache c x) as Hcx by (by exists s). unfold present. split.
  - intros (y & Hy & Ey). rewrite ltag_upd in Ey.
    destruct (Nat.eqb_spec x y) as [<-|Hne]; [by left|]. right. split; [by exists y|].
    intros ->. apply Hne. by apply ci_unique0.
  - intros [->|[(y & Hy & Ey) Hne]].
    + exists x. split; [done|]. by rewrite ltag_upd, Nat.eqb_refl.
    + exists y. split; [done|]. rewrite ltag_upd. by destruct (Nat.eqb_spec x y) as [<-|].
Qed.

(** A line is invalidated: only its tag leaves the cache. *)
Lemma ltag_invalidate x c y : ltag (upd_line x invalidate c) y = if Nat.eqb x y then 0 else ltag c y.
Proof. unfold ltag. cbn. by destruct (Nat.eqb x y). Qed.

Lemma invalidate_inv pl c x : cache_inv pl c -> cache_inv pl (upd_line x invalidate c).
Proof.
  intros []. split; [done..| | |].
  - intros s y Hs Hy. rewrite ltag_invalidate. destruct (Nat.eqb x y); [by left|by apply ci_place0].
  - intros y z Hy Hz. rewrite !ltag_invalidate.
    destruct (Nat.eqb x y), (Nat.eqb x z); try done; intros; try congruence. by apply ci_unique0.
  - intros y Hy. rewrite ltag_invalidate. destruct (Nat.eqb x y); [by left|by apply ci_range0].
Qed.

Lemma invalidate_present pl c x w : cache_inv pl c -> in_cache c x -> w <> 0 ->
  present (upd_line x invalidate c) w <-> present c w /\ w <> ltag c x.
Proof.
  intros [] Hx Hw. unfold present. split.
  - intros (y & Hy & Ey). rewrite ltag_invalidate in Ey.
    destruct (Nat.eqb_spec x y) as [<-|Hne]; [congruence|]. split; [by exists y|].
    intros ->. apply Hne. by apply ci_unique0.
  - intros [(y & Hy & Ey) Hne]. exists y. split; [done|]. rewrite ltag_invalidate.
    by destruct (Nat.eqb_spec x y) as [<-|].
Qed.

Section Fill.
  Context {CC : CacheClass}.

Lemma fillLine_spec addr u sig c :
  cache_inv places c -> extra_ok c -> addr_tag (calcTag addr) -> replace_ok c (calcTag addr) ->
  exists x rpl c', fillLine addr <$> findLine2Replace addr u sig c = Some (x, rpl, c') /\
    cache_inv places c' /\ extra_ok c' /\ in_cache c' x /\ ltag c' x = calcTag addr /\
    (forall w, w <> 0 ->
      present c' w <-> w = calcTag addr \/ (present c w /\ w <> calcTag rpl)) /\
    (rpl <> 0 -> present c (calcTag rpl) /\ calcTag rpl <> calcTag addr /\
      rpl = calcAddr4Tag (calcTag rpl)).
Proof.
  intros HI HE Ht Hr.
  destruct (findLine2Replace_ok addr u sig c HI HE Ht Hr) as (x & c1 & -> & Hsame & HE1 & (s & Hs & Hx) & Hp).
  pose proof (same_lines_inv places c c1 Hsame HI) as HI1.
  pose proof (places_in _ _ Hs) as Hss. pose proof Hsame as [Hc Htag].
  assert (x ∈ content c1 s) as Hx1 by (by rewrite (Hc s Hss)).
  assert (in_cache c x) as Hcx by (by exists s).
  assert (in_cache c1 x) as Hcx1 by (by exists s).
  set (t := calcTag addr) in *. cbn. eexists _, _, _. split; [done|]. fold t.
  assert (forall y, in_cache c1 y -> y <> x -> ltag c1 y <> t) as Huniq.
  { intros y Hy Hyx Ey. apply Hyx. apply (ci_unique _ _ HI1); [done..| |by rewrite Ey; apply Ht].
    rewrite Ey, Htag. symmetry. apply Hp. exists y. rewrite <- (same_lines_in _ _ _ Hsame). by rewrite <- Htag. }
  set (rpl := if isValid (mem c1 x) then _ else _).
  assert (rpl = 0 /\ (ltag c1 x = 0 \/ ltag c1 x = t) \/
    ltag c1 x <> t /\ addr_tag (ltag c1 x) /\ rpl = calcAddr4Tag (ltag c1 x)) as Hrpl.
  { unfold rpl, isValid. fold (ltag c1 x). destruct (Z.eqb_spec (ltag c1 x) 0); cbn; [by left; auto|].
    destruct (Z.eqb_spec (ltag c1 x) t); cbn; [by left; auto|]. right.
    split_and!; try done; by destruct (ci_range _ _ HI1 x Hcx1). }
  split_and!.
  - by apply (setTag_inv _ _ _ s).
  - by apply extra_setTag.
  - done.
  - by rewrite ltag_upd, Nat.eqb_refl.
  - intros w Hw. rewrite (setTag_present places _ _ s) by done. rewrite (same_lines_present _ _ _ Hsame).
    destruct Hrpl as [[-> Hx0]|(Hne & Ha & ->)].
    + assert (calcTag 0 = 0) as -> by apply Z.shiftr_0_l. destruct Hx0 as [->| ->]; [done|].
      destruct (decide (w = t)); tauto.
    + by rewrite calcTag_calcAddr4Tag.
  - intros Hrpl0. destruct Hrpl as [[E _]|(Hne & Ha & ->)]; [done|].
    rewrite calcTag_calcAddr4Tag by done. split_and!; [|done|done].
    exists x. split; [done|by rewrite Htag].
Qed.

End Fill.

(** ** The classes implement the interface *)

Lemma calcSet4Tag_mod t : calcSet4Tag t = t mod sets.
Proof.
  pose proof geometry_ok. unfold calcSet4Tag, maskSets, sets.
  rewrite <- Z.land_ones by lia. f_equal. rewrite Z.ones_equiv. lia.
Qed.

Lemma calcSet4Tag_in t : in_set (calcSet4Tag t).
Proof.
  pose proof geometry_ok. rewrite calcSet4Tag_mod. unfold in_set, sets. apply Z.mod_pos_bound.
  apply Z.pow_pos_nonneg; lia.
Qed.

Lemma assoc_pos : 0 < assoc.
Proof. pose proof geometry_ok. apply Z.pow_pos_nonneg; lia. Qed.

Lemma in_set_places1 t s : s ∈ [calcSet4Tag t] -> in_set s.
Proof. intros ->%list_elem_of_singleton. apply calcSet4Tag_in. Qed.

Lemma present_places1 c t : cache_inv (fun t => [calcSet4Tag t]) c -> t <> 0 ->
  present c t -> exists x, x ∈ content c (calcSet4Tag t) /\ ltag c x = t.
Proof.
  intros [] Ht (x & (s & Hs & Hx) & Ex). exists x. split; [|done].
  destruct (ci_place0 s x Hs Hx) as [E|E%list_elem_of_singleton]; congruence.
Qed.

(** Reordering one set. *)
Lemma same_lines_move c s i : in_set s -> (i < length (content c s))%nat ->
  same_lines c (set_content s (move_front i (content c s)) c).
Proof.
  intros Hs Hi. split; [|done]. intros s' _. cbn. destruct (Z.eqb_spec s s') as [<-|]; [|done].
  by apply move_front_perm.
Qed.

Abbreviation one_set := (fun t => [calcSet4Tag t]).

Section OneSet.
  Context (c : Cache) (HI : cache_inv one_set c).

Lemma way_lt t i : (Z.of_nat i < assoc) -> (i < length (content c (calcSet4Tag t)))%nat.
Proof. intros Hi. rewrite (ci_assoc _ _ HI) by apply calcSet4Tag_in. lia. Qed.

Lemma way_in t i : (i < length (content c (calcSet4Tag t)))%nat ->
  in_cache c (content c (calcSet4Tag t) !!! i).
Proof. intros Hi. exists (calcSet4Tag t). split; [apply calcSet4Tag_in|by apply lookup_total_elem]. Qed.

Lemma absent_places1 t : t <> 0 ->
  (forall x, x ∈ content c (calcSet4Tag t) -> ltag c x <> t) -> ~ present c t.
Proof. intros Ht Hall (x & Hx & Ex)%present_places1; [|done..]. by apply (Hall x). Qed.

Lemma assoc_findLine_ok addr r c' : calcTag addr <> 0 ->
  assoc_findLinePrivate addr c = (r, c') ->
  same_lines c c' /\ irand c' = irand c /\
  match r with
  | Some x => in_cache c x /\ ltag c x = calcTag addr
  | None => ~ present c (calcTag addr)
  end.
Proof.
  intros Ht. unfold assoc_findLinePrivate. set (t := calcTag addr) in *.
  pose proof (way_lt t 0 assoc_pos) as H0. set (l := content c (calcSet4Tag t)) in *.
  destruct (Z.eqb_spec (ltag c (l !!! 0%nat)) t).
  - intros [= <- <-]. split_and!; [apply same_lines_refl|done|by apply way_in|done].
  - pose proof (scan_up_spec c t (drop 1 l) 1) as HS. destruct (scan_up _ _ _ _) as [i|].
    + intros [= <- <-]. rewrite length_drop in HS. destruct HS as [Hi Ei].
      split_and!; [apply same_lines_move; [apply calcSet4Tag_in|fold l; lia]|done|apply way_in; fold l; lia|].
      rewrite lookup_total_drop in Ei. by replace (1 + (i - 1))%nat with i in Ei by lia.
    + intros [= <- <-]. split_and!; [apply same_lines_refl|done|]. apply absent_places1; [done|].
      fold l. intros x Hx. destruct l as [|y l']; [by apply not_elem_of_nil in Hx|].
      apply elem_of_cons in Hx as [->|Hx]; [done|by apply HS].
Qed.

Lemma assoc_findLine2Replace_ok policy addr : calcTag addr <> 0 -> 0 <= irand c < assoc ->
  exists x c', assoc_findLine2Replace policy addr c = (x, c') /\ same_lines c c' /\
    0 <= irand c' < assoc /\ x ∈ content c (calcSet4Tag (calcTag addr)) /\
    (present c (calcTag addr) -> ltag c x = calcTag addr).
Proof.
  intros Ht Hir. unfold assoc_findLine2Replace. set (t := calcTag addr) in *.
  pose proof assoc_pos. pose proof geometry_ok as (_ & HG & _).
  pose proof (way_lt t 0 ltac:(lia)) as H0. pose proof (calcSet4Tag_in t) as Hs.
  assert (length (content c (calcSet4Tag t)) = Z.to_nat assoc) as Hlen by (by apply (ci_assoc _ _ HI)).
  set (l := content c (calcSet4Tag t)) in *.
  destruct (Z.eqb_spec (ltag c (l !!! 0%nat)) t).
  { eexists _, _. split; [done|]. split_and!; [apply same_lines_refl|lia..|by apply lookup_total_elem|done]. }
  pose proof (scan_down_spec c t l (Z.to_nat assoc) ltac:(lia)) as HS.
  destruct (scan_down _ _ _ _) as [i|].
  { destruct HS as [Hi Ei]. eexists _, _. split; [done|].
    split_and!; [apply same_lines_move; [done|fold l; lia]|cbn; lia..|apply lookup_total_elem; lia|done]. }
  assert (~ present c t) as Habs.
  { apply absent_places1; [done|]. fold l. intros x Hx. apply HS. by rewrite take_ge by lia. }
  assert (0 <= uint16_t (Z.land (irand c + 1) maskAssoc) < assoc) as Hr.
  { assert (Z.land (irand c + 1) maskAssoc = (irand c + 1) mod assoc) as ->.
    { unfold maskAssoc, assoc. rewrite <- Z.land_ones by lia. f_equal. rewrite Z.ones_equiv. lia. }
    pose proof (Z.mod_pos_bound (irand c + 1) assoc ltac:(lia)).
    assert (assoc <= 2 ^ 16) by (apply Z.pow_le_mono_r; lia).
    unfold uint16_t. rewrite uint_id; [done|]. unfold in_u. lia. }
  destruct policy; cbn [fst snd].
  - destruct (Nat.eqb_spec (Z.to_nat (assoc - 1)) 0); eexists _, _; (split; [done|]).
    + split_and!; [apply same_lines_refl|lia..|by apply lookup_total_elem|tauto].
    + split_and!; [apply same_lines_move; [done|fold l; lia]|cbn; lia..|apply lookup_total_elem; lia|tauto].
  - destruct (Nat.eqb_spec (Z.to_nat (irand c)) 0); eexists _, _; (split; [done|]).
    + split_and!; [by split|cbn; lia..|by apply lookup_total_elem|tauto].
    + split_and!; [exact (same_lines_move c _ (Z.to_nat (irand c)) Hs ltac:(fold l; lia))|cbn; lia..|apply lookup_total_elem; lia|tauto].
Qed.

End OneSet.

#[refine] Instance CacheAssoc (policy : ReplacementPolicy) : CacheClass := {|
  places := one_set;
  findLinePrivate addr _ _ := assoc_findLinePrivate addr;
  findLine2Replace addr _ _ c := Some (assoc_findLine2Replace policy addr c);
  replace_ok _ _ := True;
  extra_ok c := 0 <= irand c < assoc |}.
Proof.
  - intros t s. apply in_set_places1.
  - intros addr u sig c r c' HI HE [Ht _] E.
    destruct (assoc_findLine_ok c HI addr r c' Ht E) as (H1 & -> & H3). done.
  - intros addr u sig c HI HE [Ht _] _.
    destruct (assoc_findLine2Replace_ok c HI policy addr Ht HE) as (x & c' & -> & H1 & H2 & H3 & H4).
    exists x, c'. do 3 (split; [done|]). split; [|done].
    exists (calcSet4Tag (calcTag addr)). split; [left|done].
  - done.
  - done.
Defined.

(** Direct mapped: one way, and one or three sets to look at. *)
Lemma dm_line_in pl c t : cache_inv pl c -> dm_line t c ∈ content c (calcSet4Tag t).
Proof.
  intros HI. apply lookup_total_elem. rewrite (ci_assoc _ _ HI) by apply calcSet4Tag_in.
  pose proof assoc_pos. lia.
Qed.

(** With one way, a line is the line of its set. *)
Lemma dm_line_only pl c t x : cache_inv pl c -> assoc = 1 -> x ∈ content c (calcSet4Tag t) ->
  x = dm_line t c.
Proof.
  intros HI Ha. unfold dm_line. pose proof (ci_assoc _ _ HI _ (calcSet4Tag_in t)) as Hl.
  rewrite Ha in Hl. destruct (content c (calcSet4Tag t)) as [|y [|z l]]; try done.
  by intros ->%list_elem_of_singleton.
Qed.

#[refine] Instance CacheDM : CacheClass := {|
  places := one_set;
  findLinePrivate addr _ _ := dm_findLinePrivate addr;
  findLine2Replace addr _ _ c := Some (dm_findLine2Replace addr c);
  replace_ok _ _ := True;
  extra_ok _ := assoc = 1 |}.
Proof.
  - intros t s. apply in_set_places1.
  - intros addr u sig c r c' HI HE [Ht _]. unfold dm_findLinePrivate. set (t := calcTag addr) in *.
    pose proof (dm_line_in _ c t HI).
    destruct (Z.eqb_spec (ltag c (dm_line t c)) t); intros [= <- <-].
    + split; [apply same_lines_refl|]. split; [done|]. split; [|done]. exists (calcSet4Tag t).
      split; [apply calcSet4Tag_in|done].
    + split; [apply same_lines_refl|]. split; [done|]. apply (absent_places1 c HI t Ht).
      by intros x ->%(dm_line_only _ c t x HI HE).
  - intros addr u sig c HI HE [Ht _] _. eexists _, _. split; [done|].
    split; [apply same_lines_refl|]. split; [done|]. split.
    + exists (calcSet4Tag (calcTag addr)). split; [left|by apply (dm_line_in one_set)].
    + intros (x & Hx & Ex)%present_places1; [|done..].
      apply (dm_line_only _ c _ x HI HE) in Hx. by subst x.
  - done.
  - done.
Defined.

Definition three_sets (t : Z) : list Z := [calcSet4Tag t; calcSet4Tag (skew2 t); calcSet4Tag (skew3 t)].

Lemma in_set_three t s : s ∈ three_sets t -> in_set s.
Proof.
  unfold three_sets. rewrite !elem_of_cons. pose proof (not_elem_of_nil s).
  intros [->|[->|[->|?]]]; [apply calcSet4Tag_in..|done].
Qed.

(** A tag is in the cache iff one of its three lines has it. *)
Lemma present_skew c t : cache_inv three_sets c -> assoc = 1 -> t <> 0 ->
  present c t <-> ltag c (dm_line t c) = t \/ ltag c (dm_line (skew2 t) c) = t \/
                  ltag c (dm_line (skew3 t) c) = t.
Proof.
  intros HI Ha Ht. split.
  - intros (x & (s & Hs & Hx) & Ex). destruct (ci_place _ _ HI s x Hs Hx) as [E|E]; [congruence|].
    rewrite Ex in E. unfold three_sets in E. rewrite !elem_of_cons in E. pose proof (not_elem_of_nil s).
    destruct E as [->|[->|[->|?]]]; [..|done]; apply (dm_line_only _ c _ x HI Ha) in Hx; subst x; tauto.
  - intros [E|[E|E]]; eexists; (split; [|exact E]);
      (eexists; split; [apply calcSet4Tag_in|by eapply dm_line_in]).
Qed.

#[refine] Instance CacheDMSkew : CacheClass := {|
  places := three_sets;
  findLinePrivate addr _ _ := skew_findLinePrivate addr;
  findLine2Replace addr _ _ c := Some (skew_findLine2Replace addr c);
  replace_ok _ _ := True;
  extra_ok _ := assoc = 1 |}.
Proof.
  - apply in_set_three.
  - intros addr u sig c r c' HI HE [Ht _]. unfold skew_findLinePrivate. set (t := calcTag addr) in *.
    pose proof (present_skew c t HI HE Ht) as HP.
    destruct (Z.eqb_spec (ltag c (dm_line t c)) t);
      [|destruct (Z.eqb_spec (ltag c (dm_line (skew2 t) c)) t);
        [|destruct (Z.eqb_spec (ltag c (dm_line (skew3 t) c)) t)]]; intros [= <- <-];
      (split; [apply same_lines_refl|]); (split; [done|]); [..|tauto];
      (split; [|done]); eexists; (split; [apply calcSet4Tag_in|by eapply dm_line_in]).
  - intros addr u sig c HI HE [Ht _] _. unfold skew_findLine2Replace. set (t := calcTag addr) in *.
    pose proof (present_skew c t HI HE Ht) as HP.
    assert (forall t', calcSet4Tag t' ∈ three_sets t -> exists s, s ∈ three_sets t /\ dm_line t' c ∈ content c s)
      as Hl by (intros t' Ht'; eexists; split; [done|by eapply dm_line_in]).
    assert (calcSet4Tag t ∈ three_sets t) as M1 by left.
    assert (calcSet4Tag (skew2 t) ∈ three_sets t) as M2 by (right; left).
    assert (calcSet4Tag (skew3 t) ∈ three_sets t) as M3 by (right; right; left).
    destruct (Z.eqb_spec (ltag c (dm_line t c)) t);
      [|destruct (Z.eqb_spec (ltag c (dm_line (skew2 t) c)) t)].
    + eexists _, _. split; [done|]. split; [apply same_lines_refl|]. split; [done|]. by split; [apply Hl|].
    + eexists _, _. split; [done|]. split; [apply same_lines_refl|]. split; [done|]. by split; [apply Hl|].
    + cbv zeta. set (c1 := set_rand_number _ c).
      change (dm_line (skew3 t) c1) with (dm_line (skew3 t) c). change (ltag c1) with (ltag c).
      destruct (Z.eqb_spec (ltag c (dm_line (skew3 t) c)) t).
      { eexists _, _. split; [done|]. split; [by split|]. split; [done|]. by split; [apply Hl|]. }
      assert (same_lines c (if 2 <? rand_number c1 then set_rand_number 0 c1 else c1)) as Hsame
        by (by destruct (2 <? rand_number c1)).
      set (c2 := if 2 <? rand_number c1 then _ else _) in *.
      destruct (rand_number c2 =? 0); [|destruct (rand_number c2 =? 1)]; eexists _, _;
        (split; [done|]); (split; [done|]); (split; [done|]); (split; [by apply Hl|tauto]).
  - done.
  - done.
Defined.

(** *** Signature based replacement *)

Definition rrpv_ok (c : Cache) : Prop := forall x, 0 <= rrpv (mem c x) <= RRIP_M - 1.

Lemma incRRPV_rrpv l : 0 <= rrpv l <= RRIP_M - 1 ->
  rrpv (incRRPV l) = Z.min (RRIP_M - 1) (rrpv l + 1).
Proof.
  unfold incRRPV, RRIP_M. intros H. destruct (Z.ltb_spec (rrpv l) (4 - 1)); cbn [rrpv]; [cint|lia].
Qed.

Lemma incRRPV_tag l : tag (incRRPV l) = tag l.
Proof. unfold incRRPV. by destruct (rrpv l <? RRIP_M - 1). Qed.

Lemma setRRPV_ok a l : 0 <= rrpv (setRRPV a l) <= RRIP_M - 1.
Proof. unfold setRRPV, RRIP_M. cbn [rrpv]. destruct (Z.ltb_spec (4 - 1) (uint8_t a)); cint. Qed.

(** One round of aging raises every counter of the set, saturating. *)
Lemma age_spec l : forall c, rrpv_ok c ->
  rrpv_ok (age l c) /\ content (age l c) = content c /\ (forall x, ltag (age l c) x = ltag c x) /\
  (forall x, rrpv (mem c x) <= rrpv (mem (age l c) x)) /\
  (forall x, x ∈ l -> Z.min (RRIP_M - 1) (rrpv (mem c x) + 1) <= rrpv (mem (age l c) x)).
Proof.
  induction l as [|y l IH]; intros c Hc; cbn.
  { split_and!; try done. intros x Hx. by apply not_elem_of_nil in Hx. }
  fold (age l (upd_line y incRRPV c)).
  assert (forall x, rrpv (mem (upd_line y incRRPV c) x) =
    if Nat.eqb y x then Z.min (RRIP_M - 1) (rrpv (mem c x) + 1) else rrpv (mem c x)) as E.
  { intros x. cbn. destruct (Nat.eqb y x); [by apply incRRPV_rrpv|done]. }
  destruct (IH (upd_line y incRRPV c)) as (H1 & H2 & H3 & H4 & H5).
  { intros x. rewrite E. specialize (Hc x). unfold RRIP_M in *. destruct (Nat.eqb y x); lia. }
  split_and!; [done|done|..].
  - intros x. rewrite H3. unfold ltag. cbn. destruct (Nat.eqb y x); [apply incRRPV_tag|done].
  - intros x. specialize (H4 x). rewrite E in H4. specialize (Hc x). destruct (Nat.eqb y x); lia.
  - intros x [->|Hx]%elem_of_cons.
    + specialize (H4 y). rewrite E, Nat.eqb_refl in H4. done.
    + specialize (H5 x Hx). rewrite E in H5. specialize (Hc x). destruct (Nat.eqb y x); lia.
Qed.

Lemma ship_scan_spec c t l :
  match ship_scan c t l with
  | Some x => x ∈ l
  | None => forall x, x ∈ l -> ltag c x <> t /\ ltag c x <> 0 /\ rrpv (mem c x) < RRIP_M - 1
  end.
Proof.
  induction l as [|y l IH]; cbn; [intros x Hx; by apply not_elem_of_nil in Hx|].
  unfold isValid. fold (ltag c y).
  destruct (Z.eqb_spec (ltag c y) t); cbn; [left|]. destruct (Z.eqb_spec (ltag c y) 0); cbn; [left|].
  destruct (Z.leb_spec (RRIP_M - 1) (rrpv (mem c y))); cbn; [left|].
  destruct (ship_scan c t l); [by right|]. intros x [->|Hx]%elem_of_cons; [done|by apply IH].
Qed.

(** The replacement loop ends: the counters cannot all stay below the maximum. *)
Lemma ship_loop_spec fuel t l : l <> [] -> forall c, rrpv_ok c ->
  (forall x, x ∈ l -> RRIP_M - 1 - Z.of_nat fuel <= rrpv (mem c x)) ->
  exists x c', ship_loop fuel t l c = Some (x, c') /\ x ∈ l /\ rrpv_ok c' /\
    content c' = content c /\ forall x, ltag c' x = ltag c x.
Proof.
  intros Hl. induction fuel as [|fuel IH]; intros c Hc Hlow; cbn;
    pose proof (ship_scan_spec c t l) as HS; destruct (ship_scan c t l) as [x|].
  1, 3: by exists x, c.
  - destruct l as [|y l]; [done|]. specialize (Hlow y ltac:(left)). specialize (HS y ltac:(left)). lia.
  - destruct (age_spec l c Hc) as (H1 & H2 & H3 & H4 & H5).
    destruct (IH (age l c) H1) as (x & c' & E & Hx & Hok & Hcon & Htag).
    + intros x Hx. specialize (Hlow x Hx). specialize (H5 x Hx). lia.
    + exists x, c'. split_and!; [done..|congruence|]. intros z. by rewrite Htag, H3.
Qed.

Lemma ship_update_spec k u sig x c : rrpv_ok c ->
  rrpv_ok (ship_update k u sig x c) /\ content (ship_update k u sig x c) = content c /\
  forall y, ltag (ship_update k u sig x c) y = ltag c y.
Proof.
  intros Hc. unfold ship_update. destruct u; cbv zeta.
  - set (c1 := if isValid (mem c x) && negb (outcome (mem c x)) then _ else c).
    assert (mem c1 = mem c /\ content c1 = content c) as [Em Ec].
    { unfold c1. destruct (_ && _); [|done]. by destruct (0 <? _). }
    set (c2 := upd_line x (setSignature _ ∘ setOutcome false) c1).
    assert (forall a, rrpv_ok (upd_line x (setRRPV a) c2) /\ content (upd_line x (setRRPV a) c2) = content c /\
      forall y, ltag (upd_line x (setRRPV a) c2) y = ltag c y) as H.
    { intros a. split_and!; [|by rewrite <- Ec|].
      - intros y. unfold c2. cbn. rewrite Em. destruct (Nat.eqb x y); [apply setRRPV_ok|apply Hc].
      - intros y. unfold ltag, c2. cbn. rewrite Em. by destruct (Nat.eqb x y). }
    destruct (SHCT c2 _ =? 0); apply H.
  - split_and!; [|done|].
    + intros y. cbn. destruct (Nat.eqb x y); [apply setRRPV_ok|apply Hc].
    + intros y. unfold ltag. cbn. by destruct (Nat.eqb x y).
Qed.

Lemma ship_hit_spec k u sig x c : rrpv_ok c ->
  rrpv_ok (ship_hit k u sig x c) /\ content (ship_hit k u sig x c) = content c /\
  forall y, ltag (ship_hit k u sig x c) y = ltag c y.
Proof.
  intros Hc. unfold ship_hit. destruct u; cbv zeta.
  - destruct (_ <? 7); (split_and!; [|done|]); intros y; unfold ltag; cbn;
      destruct (Nat.eqb x y); try done; try apply setRRPV_ok; apply Hc.
  - split_and!; [|done|]; intros y; unfold ltag; cbn; destruct (Nat.eqb x y);
      try done; try apply setRRPV_ok; apply Hc.
Qed.

#[refine] Instance CacheSHIP (log2shct : Z) : CacheClass := {|
  places := one_set;
  findLinePrivate := ship_findLinePrivate log2shct;
  findLine2Replace := ship_findLine2Replace log2shct;
  replace_ok c t := ~ present c t;
  extra_ok := rrpv_ok |}.
Proof.
  - intros t s. apply in_set_places1.
  - intros addr u sig c r c' HI HE [Ht _]. unfold ship_findLinePrivate. set (t := calcTag addr) in *.
    pose proof (scan_up_spec c t (content c (calcSet4Tag t)) 0) as HS.
    destruct (scan_up _ _ _ _) as [i|]; intros [= <- <-].
    + destruct HS as [Hi Ei]. rewrite Nat.sub_0_r in Ei.
      destruct (ship_hit_spec log2shct u sig (content c (calcSet4Tag t) !!! i) c HE) as (H1 & H2 & H3).
      split; [split; [intros s _; by rewrite H2|done]|]. split; [done|]. split; [|done].
      apply way_in. lia.
    + split; [apply same_lines_refl|]. split; [done|]. by apply (absent_places1 c HI t Ht).
  - intros addr u sig c HI HE [Ht _] Habs. unfold ship_findLine2Replace. set (t := calcTag addr) in *.
    assert (content c (calcSet4Tag t) <> []) as Hne.
    { pose proof (ci_assoc _ _ HI _ (calcSet4Tag_in t)) as Hl. pose proof assoc_pos.
      intros E. rewrite E in Hl. cbn in Hl. lia. }
    destruct (ship_loop_spec (Z.to_nat RRIP_M) t _ Hne c HE) as (x & c1 & -> & Hx & H1 & H2 & H3).
    { intros x _. specialize (HE x). unfold RRIP_M in *. lia. }
    cbn. destruct (ship_update_spec log2shct u sig x c1 H1) as (J1 & J2 & J3).
    eexists _, _. split; [done|]. split; [split; [intros s _; by rewrite J2, H2|intros y; by rewrite J3]|].
    split; [done|]. split; [|tauto]. exists (calcSet4Tag t). split; [left|done].
  - intros c x t Hc y. cbn. destruct (Nat.eqb x y); apply Hc.
  - intros c x Hc y. cbn. destruct (Nat.eqb x y); [change (0 <= 3 <= 3); lia|apply Hc].
Defined.

(** ** A new cache *)

Lemma new_cache_inv pl shct : cache_inv pl (new_cache shct).
Proof.
  pose proof assoc_pos. split.
  - intros s _. apply length_seq.
  - intros s _. apply NoDup_seq.
  - intros s s' x Hs Hs'. cbn. rewrite !elem_of_seq. unfold in_set in *. nia.
  - by left.
  - done.
  - by left.
Qed.

Lemma new_cache_empty shct t : t <> 0 -> ~ present (new_cache shct) t.
Proof. by intros Ht (x & _ & E). Qed.

(** ** Least recently used *)

(** A reference: search, and fill on a miss; the boolean is a hit. *)
Definition lru_access (addr : Z) (c : Cache) : bool * Cache :=
  match assoc_findLinePrivate addr c with
  | (Some _, c) => (true, c)
  | (None, c) => (false, (fillLine addr (assoc_findLine2Replace LRU addr c)).2)
  end.

Definition set_tags (c : Cache) (s : Z) : list Z := ltag c <$> content c s.

(** The tags in the order of their latest use. *)
Definition recent (ts : list Z) : list Z :=
  foldl (fun l t => t :: filter (fun u => u <> t) l) [] ts.

(** [t] occurs at most once. *)
Definition once (t : Z) (l : list Z) : Prop := forall l1 l2, l = l1 ++ t :: l2 -> (t ∉ l1) /\ (t ∉ l2).

Lemma filter_absent t (l : list Z) : t ∉ l -> filter (fun u => u <> t) l = l.
Proof.
  induction l as [|x l IH]; intros Ht; [done|]. rewrite elem_of_cons in Ht.
  rewrite filter_cons_True by (intros ->; tauto). f_equal. apply IH. tauto.
Qed.

Lemma filter_once t (l1 l2 : list Z) : once t (l1 ++ t :: l2) ->
  filter (fun u => u <> t) (l1 ++ t :: l2) = l1 ++ l2.
Proof.
  intros Ho. destruct (Ho l1 l2 eq_refl) as [H1 H2].
  rewrite filter_app, filter_cons_False by (by intros ?). by rewrite !filter_absent.
Qed.

Lemma once_cons t x l : once t (x :: l) -> once t l.
Proof.
  intros Ho l1 l2 ->. destruct (Ho (x :: l1) l2 eq_refl) as [H1 H2]. split; [|done].
  intros ?. apply H1. by right.
Qed.

(** Dropping one element and truncating commute. *)
Lemma take_filter_once t n : forall l, once t l ->
  take n (filter (fun u => u <> t) (take (S n) l)) = take n (filter (fun u => u <> t) l).
Proof.
  induction n as [|n IH]; intros [|x l] Ho; try done.
  destruct (decide (x = t)) as [->|Hne].
  - destruct (Ho [] l eq_refl) as [_ Hl]. cbn [take]. rewrite !filter_cons_False by (by intros ?).
    rewrite (filter_absent t l) by done. rewrite filter_absent.
    + by rewrite firstn_firstn, Nat.min_id.
    + intros Hin. apply Hl. eapply elem_of_submseteq; [done|apply sublist_submseteq, sublist_take].
  - change (take (S (S n)) (x :: l)) with (x :: take (S n) l).
    rewrite !filter_cons_True by done. cbn. f_equal. apply IH. by eapply once_cons.
Qed.

Lemma set_tags_length c s : cache_inv one_set c -> in_set s -> length (set_tags c s) = Z.to_nat assoc.
Proof. intros HI Hs. unfold set_tags. rewrite length_fmap. by apply (ci_assoc _ _ HI). Qed.

(** Moving way [i], which has the tag, to the front. *)
Lemma move_front_tags c t i l : (i < length l)%nat -> ltag c (l !!! i) = t ->
  once t (ltag c <$> l) ->
  ltag c <$> move_front i l = t :: filter (fun u => u <> t) (ltag c <$> l).
Proof.
  intros Hi Ei Ho. rewrite move_front_spec by done.
  destruct (lookup_lt_is_Some_2 l i Hi) as [y Hy]. rewrite (list_lookup_total_correct _ _ _ Hy) in *.
  assert (ltag c <$> l = (ltag c <$> take i l) ++ t :: (ltag c <$> drop (S i) l)) as El.
  { rewrite <- (take_drop_middle _ _ _ Hy) at 1. by rewrite fmap_app, fmap_cons, Ei. }
  rewrite El in Ho |- *. rewrite filter_once by done. by rewrite fmap_cons, fmap_app, Ei.
Qed.

(** The line to replace on a miss, and the tags of its set when it is filled. *)
Lemma lru_fill_tags c addr : let t := calcTag addr in let s := calcSet4Tag t in
  cache_inv one_set c -> t ∉ set_tags c s ->
  let c' := (fillLine addr (assoc_findLine2Replace LRU addr c)).2 in
  set_tags c' s = t :: take (Z.to_nat (assoc - 1)) (set_tags c s) /\
  forall s', in_set s' -> s' <> s -> set_tags c' s' = set_tags c s'.
Proof.
  intros t s HI Habs. pose proof assoc_pos. pose proof (calcSet4Tag_in t) as Hs. fold s in Hs.
  pose proof (ci_assoc _ _ HI s Hs) as Hlen. pose proof (ci_nodup _ _ HI s Hs) as Hnd.
  unfold assoc_findLine2Replace. fold t s. set (l := content c s) in *.
  assert (forall i, (i < length l)%nat -> ltag c (l !!! i) <> t) as Hno.
  { intros i Hi E. apply Habs. unfold set_tags. fold l. rewrite <- E.
    by apply list_elem_of_fmap_2, lookup_total_elem. }
  destruct (Z.eqb_spec (ltag c (l !!! 0%nat)) t) as [E|_]; [by destruct (Hno 0%nat ltac:(lia) E)|].
  pose proof (scan_down_spec c t l (Z.to_nat assoc) ltac:(lia)) as HS.
  destruct (scan_down _ _ _ _) as [i|]; [destruct HS as [Hi Ei]; by destruct (Hno i ltac:(lia) Ei)|].
  set (n := Z.to_nat (assoc - 1)). assert (n < length l)%nat as Hn by lia.
  destruct (lookup_lt_is_Some_2 l n Hn) as [x Hx].
  assert (l = take n l ++ [x]) as El.
  { rewrite <- (take_drop_middle _ _ _ Hx) at 1. by rewrite drop_ge by lia. }
  assert (x ∉ take n l) as Hxn.
  { intros Hin. rewrite El in Hnd. apply NoDup_app in Hnd as (_ & Hd & _). apply (Hd x Hin). left. }
  set (r := if Nat.eqb n 0 then _ else _).
  assert (r = (x, set_content s (x :: take n l) c) \/ (r = (x, c) /\ l = [x])) as Hr.
  { unfold r. rewrite (list_lookup_total_correct _ _ _ Hx). destruct (Nat.eqb_spec n 0) as [E|E].
    - right. rewrite E in *. destruct l as [|y l']; [done|]. by injection El as -> ->.
    - left. f_equal. rewrite move_front_spec by done.
      rewrite (list_lookup_total_correct _ _ _ Hx), drop_ge, app_nil_r by lia. done. }
  assert (forall y, y <> x -> ltag (upd_line x (setTag t) c) y = ltag c y) as Hother.
  { intros y Hy. rewrite ltag_upd. destruct (Nat.eqb_spec x y); congruence. }
  assert ((fillLine addr r).2 = upd_line x (setTag t) r.2) as -> by (by destruct Hr as [->|[-> _]]).
  split.
  - assert (content r.2 s = x :: take n l) as Ec.
    { destruct Hr as [->|[-> E]]; cbn; [by rewrite Z.eqb_refl|]. fold l. rewrite E in Hn |- *.
      cbn in Hn. by replace n with 0%nat by lia. }
    assert (forall y, ltag (upd_line x (setTag t) r.2) y = ltag (upd_line x (setTag t) c) y) as Et
      by (by destruct Hr as [->|[-> _]]).
    unfold set_tags. cbn [content upd_line]. rewrite Ec, fmap_cons, Et, ltag_upd, Nat.eqb_refl. f_equal.
    fold l. rewrite <- fmap_take. apply list_fmap_ext. intros i y Hy%list_elem_of_lookup_2.
    rewrite Et. apply Hother. by intros ->.
  - intros s' Hs' Hne. assert (content r.2 s' = content c s') as Ec.
    { destruct Hr as [->|[-> _]]; cbn; [|done]. by destruct (Z.eqb_spec s s'). }
    assert (forall y, ltag (upd_line x (setTag t) r.2) y = ltag (upd_line x (setTag t) c) y) as Et
      by (by destruct Hr as [->|[-> _]]).
    unfold set_tags. cbn [content upd_line]. rewrite Ec. apply list_fmap_ext.
    intros i y Hy%list_elem_of_lookup_2. rewrite Et. apply Hother. intros ->. apply Hne.
    apply (ci_sets _ _ HI _ _ x); [done..|]. fold l. by eapply list_elem_of_lookup_2.
Qed.

(** One access moves its tag to the front of its set and drops the last of the others. *)
Lemma lru_access_tags c addr : let t := calcTag addr in let s := calcSet4Tag t in
  cache_inv one_set c -> t <> 0 -> once t (set_tags c s) ->
  (lru_access addr c).1 = bool_decide (t ∈ set_tags c s) /\
  set_tags (lru_access addr c).2 s =
    t :: take (Z.to_nat (assoc - 1)) (filter (fun u => u <> t) (set_tags c s)) /\
  forall s', in_set s' -> s' <> s -> set_tags (lru_access addr c).2 s' = set_tags c s'.
Proof.
  intros t s HI Ht Ho. pose proof assoc_pos. pose proof (calcSet4Tag_in t) as Hs. fold s in Hs.
  pose proof (ci_assoc _ _ HI s Hs) as Hlen. pose proof (set_tags_length c s HI Hs) as Hlt.
  assert (forall l', set_tags c s ≡ₚ t :: l' -> length l' = Z.to_nat (assoc - 1)) as Hcnt.
  { intros l' Hp. apply Permutation_length in Hp. cbn in Hp. lia. }
  unfold lru_access, assoc_findLinePrivate. fold t s. set (l := content c s) in *.
  assert (forall i, (i < length l)%nat -> ltag c (l !!! i) = t -> t ∈ set_tags c s) as Hin.
  { intros i Hi Ei. unfold set_tags. fold l. rewrite <- Ei. by apply list_elem_of_fmap_2, lookup_total_elem. }
  destruct (Z.eqb_spec (ltag c (l !!! 0%nat)) t) as [E|E].
  - cbn. split_and!; [by rewrite bool_decide_true by (apply (Hin 0%nat); [lia|done])| |done].
    assert (set_tags c s = t :: (ltag c <$> drop 1 l)) as El.
    { unfold set_tags. fold l. destruct l as [|y l']; [cbn in Hlen; lia|]. cbn in *. by rewrite E. }
    rewrite El in Ho |- *. pose proof (filter_once t [] _ Ho) as Ef. cbn [app] in Ef. rewrite Ef.
    rewrite take_ge; [done|]. rewrite (Hcnt (ltag c <$> drop 1 l)); [done|by rewrite El].
  - pose proof (scan_up_spec c t (drop 1 l) 1) as HS. destruct (scan_up _ _ _ _) as [i|].
    + rewrite length_drop in HS. destruct HS as [Hi Ei].
      rewrite lookup_total_drop in Ei. replace (1 + (i - 1))%nat with i in Ei by lia.
      cbn [fst snd]. split_and!.
      * by rewrite bool_decide_true by (apply (Hin i); [lia|done]).
      * unfold set_tags at 1. cbn. rewrite Z.eqb_refl. change (ltag (set_content _ _ c)) with (ltag c).
        rewrite (move_front_tags c t) by (done || lia). f_equal. fold (set_tags c s).
        rewrite take_ge; [done|]. rewrite Hcnt; [done|].
        unfold set_tags. fold l. rewrite <- (move_front_tags c t i) by (done || lia).
        by rewrite move_front_perm by lia.
      * intros s' Hs' Hne. unfold set_tags. cbn. by destruct (Z.eqb_spec s s').
    + assert (t ∉ set_tags c s) as Habs.
      { unfold set_tags. fold l. rewrite list_elem_of_fmap. intros (x & Ex & Hx).
        destruct l as [|y l']; [by apply not_elem_of_nil in Hx|].
        apply elem_of_cons in Hx as [->|Hx]; [done|]. by apply (HS x). }
      cbn [fst snd]. rewrite bool_decide_false by done. split; [done|].
      rewrite filter_absent by done. by apply lru_fill_tags.
Qed.

Lemma once_lookup t (l : list Z) :
  (forall i j, l !! i = Some t -> l !! j = Some t -> i = j) -> once t l.
Proof.
  intros H l1 l2 ->. assert ((l1 ++ t :: l2) !! length l1 = Some t) as Hm
    by (by rewrite lookup_app_r, Nat.sub_diag by done).
  split; intros (i & Hi)%list_elem_of_lookup.
  - pose proof (lookup_lt_Some _ _ _ Hi). apply (lookup_app_l_Some _ (t :: l2)) in Hi.
    specialize (H _ _ Hm Hi). lia.
  - assert ((l1 ++ t :: l2) !! (length l1 + S i)%nat = Some t) as Hi'.
    { rewrite lookup_app_r by lia. by replace (length l1 + S i - length l1)%nat with (S i) by lia. }
    specialize (H _ _ Hm Hi'). lia.
Qed.

Lemma recent_snoc ts t : recent (ts ++ [t]) = t :: filter (fun u => u <> t) (recent ts).
Proof. unfold recent. by rewrite foldl_snoc. Qed.

Lemma recent_nodup ts : NoDup (recent ts).
Proof.
  induction ts as [|t ts IH] using rev_ind; [apply NoDup_nil_2|]. rewrite recent_snoc.
  apply NoDup_cons. split; [|by apply NoDup_filter]. by intros [? _]%list_elem_of_filter.
Qed.

Lemma once_recent t ts n m : t <> 0 -> once t (take n (recent ts ++ replicate m 0)).
Proof.
  intros Ht. apply once_lookup. intros i j [Hi _]%lookup_take_Some [Hj _]%lookup_take_Some.
  apply lookup_app_Some in Hi as [Hi|[_ Hi]], Hj as [Hj|[_ Hj]];
    try (apply lookup_replicate in Hi as [? _]; congruence);
    try (apply lookup_replicate in Hj as [? _]; congruence).
  by eapply NoDup_lookup; [apply recent_nodup|..].
Qed.

Definition lru_run (shct : Z -> Z) (hist : list Z) : Cache :=
  foldl (fun c a => (lru_access a c).2) (new_cache shct) hist.

(** The tags of set [s] in the history. *)
Definition set_hist (hist : list Z) (s : Z) : list Z :=
  filter (fun t => calcSet4Tag t = s) (calcTag <$> hist).

Lemma lru_access_inv addr c : cache_inv one_set c -> 0 <= irand c < assoc -> addr_tag (calcTag addr) ->
  cache_inv one_set (lru_access addr c).2 /\ 0 <= irand (lru_access addr c).2 < assoc.
Proof.
  intros HI HE Ht. unfold lru_access.
  destruct (assoc_findLinePrivate addr c) as [[x|] c1] eqn:E;
    destruct (@findLine_ok (CacheAssoc LRU) addr false 0 c _ c1 HI HE Ht E) as (H1 & H2 & _);
    pose proof (same_lines_inv _ _ _ H1 HI) as HI1; [done|].
  destruct (@fillLine_spec (CacheAssoc LRU) addr false 0 c1 HI1 H2 Ht I)
    as (y & rpl & c' & Ef & J1 & J2 & _).
  injection Ef as Ef. cbn. by rewrite Ef.
Qed.

Lemma lru_run_spec shct hist : Forall (fun a => addr_tag (calcTag a)) hist ->
  cache_inv one_set (lru_run shct hist) /\ 0 <= irand (lru_run shct hist) < assoc /\
  forall s, in_set s -> set_tags (lru_run shct hist) s =
    take (Z.to_nat assoc) (recent (set_hist hist s) ++ replicate (Z.to_nat assoc) 0).
Proof.
  pose proof assoc_pos. induction hist as [|a hist IH] using rev_ind; intros Hok.
  - split; [apply new_cache_inv|]. split; [cbn; lia|]. intros s Hs. cbn.
    unfold set_tags. cbn. rewrite take_ge by (rewrite length_replicate; lia).
    rewrite <- (length_seq (Z.to_nat assoc) (Z.to_nat (s * assoc))) at 2. apply const_fmap. by intros.
  - apply Forall_app in Hok as [Hok [Ha _]%Forall_cons]. destruct (IH Hok) as (HI & HE & HT).
    unfold lru_run. rewrite foldl_snoc. fold (lru_run shct hist).
    destruct (lru_access_inv a (lru_run shct hist) HI HE Ha) as [HI' HE'].
    split; [done|]. split; [done|]. intros s Hs.
    set (t := calcTag a) in *. pose proof (calcSet4Tag_in t) as Hst.
    pose proof (lru_access_tags (lru_run shct hist) a HI) as HL. cbv zeta in HL. fold t in HL.
    destruct HL as (_ & Hs1 & Hs2); [apply Ha| |].
    { rewrite HT by done. apply once_recent. apply Ha. }
    unfold set_hist. rewrite fmap_app, filter_app. cbn [fmap list_fmap]. rewrite filter_cons.
    change (calcTag a) with t. destruct (decide (calcSet4Tag t = s)) as [<-|Hne].
    + rewrite Hs1, HT by done. rewrite filter_nil, recent_snoc. fold (set_hist hist (calcSet4Tag t)).
      replace (Z.to_nat assoc) with (S (Z.to_nat (assoc - 1))) at 1 3 by lia. cbn [app take]. f_equal.
      rewrite take_filter_once.
      2: { rewrite <- (firstn_all (recent _ ++ _)). apply once_recent, Ha. }
      rewrite filter_app, (filter_absent t (replicate _ _)); [done|].
      intros [? _]%elem_of_replicate. by destruct Ha.
    + rewrite Hs2 by congruence. rewrite HT, filter_nil, app_nil_r by done. done.
Qed.

(** *** Bounds of the signature table *)

(** Ages, signatures and counters in range; [B] bounds each counter. *)
Definition ship_ok (k : Z) (B : Z -> Z) (c : Cache) : Prop :=
  rrpv_ok c /\ (forall x, 0 <= signature (mem c x) < 2 ^ (k + 1)) /\
  (forall i, 0 <= SHCT c i <= B i).

Lemma ship_signature_range k sig : 0 <= k -> 0 <= ship_signature k sig < 2 ^ (k + 1).
Proof.
  intros Hk. unfold ship_signature.
  assert (Z.shiftl 2 k - 1 = Z.ones (k + 1)) as ->.
  { rewrite Z.shiftl_mul_pow2, Z.ones_equiv, Z.pow_add_r by lia. lia. }
  rewrite Z.land_ones by lia. apply Z.mod_pos_bound. lia.
Qed.

Lemma age_ship_ok l : forall c,
  (forall x, signature (mem (age l c) x) = signature (mem c x)) /\ SHCT (age l c) = SHCT c.
Proof.
  induction l as [|y l IH]; intros c; cbn; [done|]. fold (age l (upd_line y incRRPV c)).
  destruct (IH (upd_line y incRRPV c)) as [H1 H2]. split; [|done]. intros x. rewrite H1. cbn.
  destruct (Nat.eqb y x); [|done]. unfold incRRPV. by destruct (_ <? _).
Qed.

Lemma ship_loop_ok fuel t l : forall c x c', ship_loop fuel t l c = Some (x, c') ->
  (forall y, signature (mem c' y) = signature (mem c y)) /\ SHCT c' = SHCT c.
Proof.
  induction fuel as [|fuel IH]; intros c x c'; cbn; destruct (ship_scan c t l); try done;
    try by intros [= <- <-].
  intros E. destruct (IH _ _ _ E) as [H1 H2]. destruct (age_ship_ok l c) as [H3 H4].
  split; [|congruence]. intros y. by rewrite H1, H3.
Qed.

Section Bounds.
  Context (k : Z) (B : Z -> Z) (Hk : 0 <= k) (HB : forall i, 7 <= B i).

Lemma ship_hit_ok u sig x c : ship_ok k B c -> ship_ok k B (ship_hit k u sig x c).
Proof.
  intros (H1 & H2 & H3). split; [by apply ship_hit_spec|]. unfold ship_hit. destruct u; cbn.
  - destruct (Z.ltb_spec (SHCT c (ship_signature k sig)) 7); split.
    1, 3: intros y; cbn; specialize (H2 y); by destruct (Nat.eqb x y).
    + intros i. cbn. pose proof (H3 (ship_signature k sig)). pose proof (HB i).
      destruct (_ =? i); [cint|apply H3].
    + intros i. apply H3.
  - split; [|done]. intros y. specialize (H2 y). by destruct (Nat.eqb x y).
Qed.

Lemma ship_update_ok u sig x c : ship_ok k B c -> ship_ok k B (ship_update k u sig x c).
Proof.
  intros (H1 & H2 & H3). split; [by apply ship_update_spec|]. unfold ship_update.
  destruct u; cbv zeta.
  - set (c1 := if isValid (mem c x) && negb (outcome (mem c x)) then _ else c).
    assert (mem c1 = mem c /\ forall i, 0 <= SHCT c1 i <= B i) as [Em Hs].
    { unfold c1. destruct (_ && _); [|done]. destruct (Z.ltb_spec 0 (SHCT c (signature (mem c x)))); [|done].
      split; [done|]. intros i. cbn. pose proof (H3 i). pose proof (H3 (signature (mem c x))).
      destruct (Z.eqb_spec (signature (mem c x)) i); [subst|]; lia. }
    pose proof (ship_signature_range k sig Hk).
    destruct (_ =? 0); split; [|done| |done]; intros y; cbn; rewrite Em; specialize (H2 y);
      by destruct (Nat.eqb x y).
  - split; [|done]. intros y. cbn. specialize (H2 y). by destruct (Nat.eqb x y).
Qed.

Lemma ship_find_ok addr u sig c : ship_ok k B c ->
  ship_ok k B (ship_findLinePrivate k addr u sig c).2 /\
  content (ship_findLinePrivate k addr u sig c).2 = content c.
Proof.
  intros Hok. unfold ship_findLinePrivate. destruct (scan_up _ _ _ _) as [i|]; [|done].
  split; [by apply ship_hit_ok|]. cbn [snd]. by apply ship_hit_spec, Hok.
Qed.

(** The replacement loop ends, whatever the tags are. *)
Lemma ship_replace_ok addr u sig c : ship_ok k B c -> content c (calcSet4Tag (calcTag addr)) <> [] ->
  exists x c', ship_findLine2Replace k addr u sig c = Some (x, c') /\ ship_ok k B c' /\
    content c' = content c.
Proof.
  intros (H1 & H2 & H3) Hne. unfold ship_findLine2Replace. set (t := calcTag addr) in *.
  destruct (ship_loop_spec (Z.to_nat RRIP_M) t _ Hne c H1) as (x & c1 & E & Hx & H1' & Hc & _).
  { intros x _. specialize (H1 x). unfold RRIP_M in *. lia. }
  rewrite E. cbn. eexists _, _. split; [done|]. destruct (ship_loop_ok _ _ _ _ _ _ E) as [J1 J2].
  split.
  - apply ship_update_ok. split; [done|]. split; [intros y; by rewrite J1|by rewrite J2].
  - rewrite <- Hc. by apply ship_update_spec.
Qed.

End Bounds.

(** ** Properties *)

(** C16: Least recently used: after any sequence of accesses (a search, and a fill on a
    miss), every set holds its most recently used tags, newest first, and the next access
    hits iff its tag is among the last [assoc] distinct tags of its set. *)
Theorem lru_recency shct hist : Forall (fun a => addr_tag (calcTag a)) hist ->
  (forall s, in_set s -> set_tags (lru_run shct hist) s =
    take (Z.to_nat assoc) (recent (set_hist hist s) ++ replicate (Z.to_nat assoc) 0)) /\
  forall addr, addr_tag (calcTag addr) ->
    (lru_access addr (lru_run shct hist)).1 =
    bool_decide (calcTag addr ∈
      take (Z.to_nat assoc) (recent (set_hist hist (calcSet4Tag (calcTag addr))))).
Proof.
  intros Hok. destruct (lru_run_spec shct hist Hok) as (HI & HE & HT). split; [done|].
  intros addr Ha. set (t := calcTag addr) in *. pose proof (calcSet4Tag_in t) as Hs.
  pose proof (lru_access_tags (lru_run shct hist) addr HI) as HL. cbv zeta in HL. fold t in HL.
  destruct HL as (-> & _); [apply Ha|rewrite HT by done; apply once_recent, Ha|].
  apply bool_decide_ext. rewrite HT by done. rewrite take_app, elem_of_app. split; [|by left].
  intros [?|(i & Hi)%list_elem_of_lookup]; [done|].
  apply lookup_take_Some in Hi as [[? _]%lookup_replicate _]. by destruct Ha.
Qed.

(** Two limits of the replacement.  LRU displaces the last way of the set even when
    another way is invalid.  The signature based cache, asked to replace for a tag that it
    holds, takes an invalid way in front of the line with the tag: the tag is then in the
    cache twice. *)
Lemma replacement_limits k addr u sig c x y l :
  let t := calcTag addr in
  cache_inv one_set c -> addr_tag t -> content c (calcSet4Tag t) = x :: l ++ [y] ->
  ltag c x = 0 -> ltag c y <> 0 ->
  (~ present c t ->
    (fillLine addr (assoc_findLine2Replace LRU addr c)).1 = (y, calcAddr4Tag (ltag c y))) /\
  (ltag c y = t -> exists c', ship_findLine2Replace k addr u sig c = Some (x, c') /\
    let c'' := (fillLine addr (x, c')).2 in x <> y /\ ltag c'' x = t /\ ltag c'' y = t).
Proof.
  intros t HI Ht El Ex Ey. pose proof (calcSet4Tag_in t) as Hs.
  pose proof (ci_assoc _ _ HI _ Hs) as Hlen. pose proof (ci_nodup _ _ HI _ Hs) as Hnd.
  rewrite El in Hlen, Hnd. cbn in Hlen. rewrite length_app in Hlen. cbn in Hlen. split.
  - intros Habs. unfold assoc_findLine2Replace. fold t. rewrite El.
    assert (forall z, z ∈ x :: l ++ [y] -> ltag c z <> t) as Hno.
    { intros z Hz E. apply Habs. exists z. split; [|done]. exists (calcSet4Tag t). by rewrite El. }
    destruct (Z.eqb_spec (ltag c ((x :: l ++ [y]) !!! 0%nat)) t) as [E|_]; [by destruct (Hno x ltac:(left))|].
    pose proof (scan_down_spec c t (x :: l ++ [y]) (Z.to_nat assoc)) as HS.
    cbn [length] in HS. rewrite length_app in HS. cbn [length] in HS. specialize (HS ltac:(lia)).
    destruct (scan_down _ _ _ _) as [i|].
    { destruct HS as [Hi Ei]. destruct (Hno _ (lookup_total_elem (x :: l ++ [y]) i
        ltac:(cbn; rewrite length_app; cbn; lia)) Ei). }
    assert (Z.to_nat (assoc - 1) = S (length l)) as -> by lia. cbn [Nat.eqb].
    assert ((x :: l ++ [y]) !!! S (length l) = y) as ->.
    { apply list_lookup_total_correct. change ((l ++ [y]) !! length l = Some y).
      by rewrite lookup_app_r, Nat.sub_diag by lia. }
    cbn. unfold isValid. fold (ltag c y). change (ltag (set_content _ _ c) y) with (ltag c y).
    assert (ltag c y <> t) by (apply Hno; right; apply elem_of_app; right; left).
    destruct (Z.eqb_spec (ltag c y) 0); [done|]. by destruct (Z.eqb_spec (ltag c y) (calcTag addr)).
  - intros Et. unfold ship_findLine2Replace. fold t. rewrite El.
    assert (x <> y) as Hxy by (intros ->; congruence).
    assert (ship_scan c t (x :: l ++ [y]) = Some x) as Esc.
    { cbn. unfold isValid. fold (ltag c x). by rewrite Ex, orb_true_r. }
    assert (ship_loop (Z.to_nat RRIP_M) t (x :: l ++ [y]) c = Some (x, c)) as ->.
    { change (Z.to_nat RRIP_M) with 4%nat. unfold ship_loop. by rewrite Esc. }
    eexists. split; [done|]. cbn.
    split; [done|]. rewrite !ltag_upd, Nat.eqb_refl. split; [done|].
    destruct (Nat.eqb_spec x y); [done|].
    assert (forall z, ltag (ship_update k u sig x c) z = ltag c z) as ->; [|done].
    intros z. unfold ship_update, ltag. destruct u; cbv zeta.
    + destruct (_ && _); [destruct (0 <? _)|]; destruct (_ =? 0); cbn; by destruct (Nat.eqb x z).
    + cbn. by destruct (Nat.eqb x z).
Qed.

End Cache.

(** ** A small cache: four sets of two lines of sixteen bytes *)

#[refine] Instance small_geometry : Geometry := {| log2AddrLs := 4; log2Assoc := 1; log2Sets := 2 |}.
Proof. lia. Defined.

Lemma small_addr_tag t : 0 < t < 2 ^ 60 -> addr_tag t.
Proof. intros H. split; [lia|]. unfold in_u. cbn. lia. Qed.

Lemma lru_recency_witness :
  (lru_access 64 (lru_run (fun _ => 0) [64; 128; 192])).1 = false /\
  (lru_access 64 (lru_run (fun _ => 0) [64; 128])).1 = true.
Proof.
  split.
  - destruct (lru_recency (fun _ => 0) [64; 128; 192]) as [_ ->]; [|reflexivity|apply small_addr_tag; vm_compute; split; congruence].
    repeat apply Forall_cons_2; try apply Forall_nil_2; apply small_addr_tag; vm_compute; split; congruence.
  - destruct (lru_recency (fun _ => 0) [64; 128]) as [_ ->]; [|reflexivity|apply small_addr_tag; vm_compute; split; congruence].
    repeat apply Forall_cons_2; try apply Forall_nil_2; apply small_addr_tag; vm_compute; split; congruence.
Defined.

(** Way 0 of set 0 invalid, way 1 with the tag 8. *)
Definition half_full : Cache := upd_line 1 (setTag 8) (new_cache (fun _ => 0)).

Lemma half_full_inv : cache_inv (fun t => [calcSet4Tag t]) half_full.
Proof.
  apply (setTag_inv _ _ _ 0).
  - apply new_cache_inv.
  - vm_compute. split; congruence.
  - right. left.
  - left.
  - apply small_addr_tag. lia.
  - intros y Hy Hne. vm_compute. congruence.
Qed.

Lemma replacement_limits_witness :
  (fillLine 64 (assoc_findLine2Replace LRU 64 half_full)).1 = (1%nat, 128) /\
  exists c', ship_findLine2Replace 13 128 false 0 half_full = Some (0%nat, c').
Proof.
  split.
  - destruct (replacement_limits 13 64 false 0 half_full 0 1 []) as [-> _]; try reflexivity.
    + apply half_full_inv.
    + apply small_addr_tag. vm_compute. split; congruence.
    + vm_compute. congruence.
    + intros (x & _ & Ex). unfold half_full in Ex. rewrite ltag_upd in Ex.
      destruct (Nat.eqb 1 x); vm_compute in Ex; congruence.
  - destruct (replacement_limits 13 128 false 0 half_full 0 1 []) as [_ H]; try reflexivity.
    + apply half_full_inv.
    + apply small_addr_tag. vm_compute. split; congruence.
    + vm_compute. congruence.
    + destruct (H eq_refl) as (c' & E & _). exists c'. exact E.
Defined.
