(* ===== verification/CacheRuns.v ===== *)
(** * Histories of a cache array

    What the memory hierarchy does with the cache arrays of CacheCore, from the constructor
    on: [CacheGeneric::create] chooses the class, and the clients search for addresses, fill
    them and invalidate the lines they found (src/simu/libmem).  The properties here are
    about whole histories of these calls on each of the four classes, so that every state
    they speak of is one the constructor and the operations produce. *)

From stdpp Require Import gmap.
From S2P Require Import Prelude SimBase CacheCore.
Open Scope Z_scope.

(** ** The class of a cache *)

Inductive Policy := k_LRU | k_RANDOM | k_SHIP.

Inductive Kind :=
| KAssoc (policy : ReplacementPolicy)
| KDM
| KDMSkew
| KSHIP (log2shct : Z).

Section Runs.
  Context {G : Geometry}.

(** [create]: a skewed cache with a signature table is refused; the two direct mapped
    classes are built with one way whatever [assoc] is. *)
Definition create (skew : bool) (policy : Policy) (shct_size : Z) : option Kind :=
  if skew && negb (shct_size =? 0) then None
  else if skew then Some KDMSkew
  else if assoc =? 1 then Some KDM
  else
    match policy with
    | k_LRU => Some (KAssoc LRU)
    | k_RANDOM => Some (KAssoc RANDOM)
    | k_SHIP => Some (KSHIP shct_size)
    end.

Definition kind_ok (kd : Kind) : Prop :=
  match kd with KDM | KDMSkew => assoc = 1 | _ => True end.

(** The virtual methods. *)
Definition find_line (kd : Kind) (addr : Z) (updateSHIP : bool) (sig : Z) (c : Cache)
  : option nat * Cache :=
  match kd with
  | KAssoc _ => assoc_findLinePrivate addr c
  | KDM => dm_findLinePrivate addr c
  | KDMSkew => skew_findLinePrivate addr c
  | KSHIP k => ship_findLinePrivate k addr updateSHIP sig c
  end.

Definition find_line2replace (kd : Kind) (addr : Z) (updateSHIP : bool) (sig : Z) (c : Cache)
  : option (nat * Cache) :=
  match kd with
  | KAssoc policy => Some (assoc_findLine2Replace policy addr c)
  | KDM => Some (dm_findLine2Replace addr c)
  | KDMSkew => Some (skew_findLine2Replace addr c)
  | KSHIP k => ship_findLine2Replace k addr updateSHIP sig c
  end.

(** The constructors; [heap] is what the heap holds where the counter table is allocated. *)
Definition new_kind (kd : Kind) (heap : Z -> Z) : Cache :=
  match kd with
  | KSHIP k => new_ship k heap
  | _ => new_cache heap
  end.

(** The sets in which a class looks for a tag. *)
Definition sets_of (kd : Kind) : Z -> list Z :=
  match kd with
  | KDMSkew => three_sets
  | _ => fun t => [calcSet4Tag t]
  end.

(** ** Operations and what they return *)

Inductive Op :=
| Find (addr : Z) (updateSHIP : bool) (sig : Z)
| Fill (addr : Z) (updateSHIP : bool) (sig : Z)
| Invalidate (addr : Z).

Definition op_addr (op : Op) : Z :=
  match op with Find a _ _ => a | Fill a _ _ => a | Invalidate a => a end.

(** The tag of the line found, if any, or the address displaced. *)
Inductive Obs :=
| Found (t : option Z)
| Displaced (rplcAddr : Z).

(** [findLine], [fillLine], and [l->invalidate()] on the line that [findLine] returned. *)
Definition do_op (kd : Kind) (op : Op) (c : Cache) : option (Obs * Cache) :=
  match op with
  | Find addr u sig =>
      let '(r, c) := find_line kd addr u sig c in Some (Found (ltag c <$> r), c)
  | Fill addr u sig =>
      '(x, rpl, c) ← fillLine addr <$> find_line2replace kd addr u sig c; Some (Displaced rpl, c)
  | Invalidate addr =>
      let '(r, c) := find_line kd addr false 0 c in
      Some (Found (ltag c <$> r), match r with Some x => upd_line x invalidate c | None => c end)
  end.

Fixpoint run_ops (kd : Kind) (ops : list Op) (c : Cache) : option (list Obs * Cache) :=
  match ops with
  | [] => Some ([], c)
  | op :: ops =>
      '(o, c) ← do_op kd op c;
      '(os, c) ← run_ops kd ops c;
      Some (o :: os, c)
  end.

(** The debugging assertions of the clients: the tag of an address is not 0, and, for the
    signature based class, a search misses when a line is filled
    ([I(cacheBank->findLineDebug(addr) == 0)] in [Cache::allocateLine]). *)
Definition op_ok (kd : Kind) (op : Op) (c : Cache) : Prop :=
  addr_tag (calcTag (op_addr op)) /\
  match kd, op with
  | KSHIP _, Fill addr _ _ => (find_line kd addr false 0 c).1 = None
  | _, _ => True
  end.

Fixpoint hist_ok (kd : Kind) (ops : list Op) (c : Cache) : Prop :=
  match ops with
  | [] => True
  | op :: ops =>
      op_ok kd op c /\
      match do_op kd op c with Some (_, c) => hist_ok kd ops c | None => True end
  end.

(** ** The specification: a set of tags *)

Definition abs_step (A : gset Z) (op : Op) (o : Obs) : gset Z :=
  match op, o with
  | Fill addr _ _, Displaced rpl => {[calcTag addr]} ∪ A ∖ {[calcTag rpl]}
  | Invalidate addr, _ => A ∖ {[calcTag addr]}
  | _, _ => A
  end.

Definition obs_ok (A : gset Z) (op : Op) (o : Obs) : Prop :=
  match op, o with
  | Fill addr _ _, Displaced rpl =>
      rpl = 0 \/
      calcTag rpl ∈ A /\ calcTag rpl <> calcTag addr /\ rpl = calcAddr4Tag (calcTag rpl)
  | (Find addr _ _ | Invalidate addr), Found r =>
      r = if decide (calcTag addr ∈ A) then Some (calcTag addr) else None
  | _, _ => False
  end.

(** [os] are results that the set [A] allows for [ops], and [A'] is the set then. *)
Fixpoint refines (A : gset Z) (ops : list Op) (os : list Obs) (A' : gset Z) : Prop :=
  match ops, os with
  | [], [] => A' = A
  | op :: ops, o :: os => obs_ok A op o /\ refines (abs_step A op o) ops os A'
  | _, _ => False
  end.

(** ** One operation *)

Definition class_of (kd : Kind) : CacheClass :=
  match kd with
  | KAssoc policy => CacheAssoc policy
  | KDM => CacheDM
  | KDMSkew => CacheDMSkew
  | KSHIP k => CacheSHIP k
  end.

Lemma class_places kd : @places _ (class_of kd) = sets_of kd.
Proof. by destruct kd. Qed.

Lemma class_find kd addr u sig c :
  @findLinePrivate _ (class_of kd) addr u sig c = find_line kd addr u sig c.
Proof. by destruct kd. Qed.

Lemma class_replace kd addr u sig c :
  @findLine2Replace _ (class_of kd) addr u sig c = find_line2replace kd addr u sig c.
Proof. by destruct kd. Qed.

(** The cache holds the tags of [A], each once. *)
Definition holds (kd : Kind) (c : Cache) (A : gset Z) : Prop :=
  cache_inv (sets_of kd) c /\ @extra_ok _ (class_of kd) c /\
  (0 ∉ A) /\ forall t, t <> 0 -> present c t <-> t ∈ A.

Lemma find_line_spec kd addr u sig c A r c' : holds kd c A -> addr_tag (calcTag addr) ->
  find_line kd addr u sig c = (r, c') ->
  holds kd c' A /\
  (ltag c' <$> r) = (if decide (calcTag addr ∈ A) then Some (calcTag addr) else None) /\
  match r with
  | Some x => in_cache c' x /\ ltag c' x = calcTag addr
  | None => calcTag addr ∉ A
  end.
Proof.
  intros (HI & HE & H0 & HA) Ht E. rewrite <- class_find in E. rewrite <- class_places in HI.
  destruct (findLine_ok addr u sig c r c' HI HE Ht E) as (H1 & H2 & H3).
  assert (holds kd c' A) as Hh.
  { split; [rewrite <- class_places; by apply (same_lines_inv _ c)|]. split_and!; [done..|].
    intros t Hnz. rewrite (same_lines_present c) by done. by apply HA. }
  split; [done|]. destruct r as [x|].
  - destruct H3 as [Hx Ex]. assert (ltag c' x = calcTag addr) as Ex' by (by rewrite (proj2 H1)).
    rewrite <- (same_lines_in c c') in Hx by done. split; [|done].
    rewrite decide_True; [by rewrite <- Ex'|]. apply HA; [apply Ht|]. exists x. split; [|done].
    by rewrite <- (same_lines_in c c').
  - assert (calcTag addr ∉ A) by (rewrite <- HA; [done|apply Ht]). by rewrite decide_False.
Qed.

Lemma replace_ok_of kd addr u sig c A : holds kd c A -> op_ok kd (Fill addr u sig) c ->
  @replace_ok _ (class_of kd) c (calcTag addr).
Proof.
  intros Hh [Ht Hop]. destruct kd as [| | |k]; try done. cbn in Hop |- *.
  destruct (ship_findLinePrivate k addr false 0 c) as [r c'] eqn:E. cbn in Hop. subst r.
  destruct (find_line_spec (KSHIP k) addr false 0 c A _ c' Hh Ht E) as (_ & _ & Hn).
  destruct Hh as (_ & _ & _ & HA). rewrite HA; [done|apply Ht].
Qed.

Lemma do_op_spec kd op c A : holds kd c A -> op_ok kd op c ->
  exists o c', do_op kd op c = Some (o, c') /\ obs_ok A op o /\ holds kd c' (abs_step A op o).
Proof.
  intros Hh Hop. pose proof (proj1 Hop) as Ht. destruct op as [addr u sig|addr u sig|addr]; cbn in Ht |- *.
  - destruct (find_line kd addr u sig c) as [r c'] eqn:E.
    destruct (find_line_spec kd addr u sig c A r c' Hh Ht E) as (H1 & H2 & _). by eexists _, _.
  - pose proof (replace_ok_of kd addr u sig c A Hh Hop) as Hr. destruct Hh as (HI & HE & H0 & HA).
    rewrite <- class_places in HI. rewrite <- class_replace.
    destruct (fillLine_spec addr u sig c HI HE Ht Hr) as (x & rpl & c' & -> & J1 & J2 & _ & _ & J3 & J4).
    eexists _, _. split; [done|]. split.
    + destruct (decide (rpl = 0)) as [|Hne]; [by left|]. right. destruct (J4 Hne) as (K1 & K2 & K3).
      split_and!; [|done..]. apply HA; [|done]. intros K0. rewrite K0 in K3. apply Hne. rewrite K3.
      unfold calcAddr4Tag. by rewrite Z.shiftl_0_l.
    + split; [by rewrite <- class_places|]. split; [done|]. cbn [abs_step]. split.
      * destruct Ht. set_solver.
      * intros t Hnz. rewrite J3, HA by done. set_solver.
  - destruct (find_line kd addr false 0 c) as [r c1] eqn:E.
    destruct (find_line_spec kd addr false 0 c A r c1 Hh Ht E) as ((I1 & I2 & I3 & I4) & H2 & H3).
    eexists _, _. split; [done|]. split; [done|]. cbn [abs_step]. destruct r as [x|].
    + destruct H3 as [Hx Ex]. split; [by apply invalidate_inv|]. split; [by apply extra_invalidate|].
      split; [set_solver|]. intros t Hnz. rewrite (invalidate_present (sets_of kd)) by done.
      rewrite I4, Ex by done. set_solver.
    + split; [done|]. split; [done|]. split; [set_solver|]. intros t Hnz. rewrite I4 by done. set_solver.
Qed.

Lemma run_spec kd ops : forall c A, holds kd c A -> hist_ok kd ops c ->
  exists os c' A', run_ops kd ops c = Some (os, c') /\ refines A ops os A' /\ holds kd c' A'.
Proof.
  induction ops as [|op ops IH]; intros c A Hh Hok; cbn; [by eexists _, _, _|].
  destruct Hok as [Hop Hok]. destruct (do_op_spec kd op c A Hh Hop) as (o & c1 & E & Ho & H1).
  rewrite E in Hok |- *. cbn. destruct (IH c1 _ H1 Hok) as (os & c' & A' & -> & HR & H2).
  by eexists (o :: os), c', A'.
Qed.

Lemma new_kind_holds kd heap : kind_ok kd -> holds kd (new_kind kd heap) ∅.
Proof.
  intros Hk. pose proof assoc_pos.
  assert (exists shct, new_kind kd heap = new_cache shct) as [shct ->] by (destruct kd; by eexists).
  split; [apply new_cache_inv|]. split; [|split; [set_solver|]].
  - destruct kd; cbn in *; try lia. intros x. change (0 <= 3 <= 3). lia.
  - intros t Hnz. split; [|set_solver]. by intros ?%new_cache_empty.
Qed.

(** A cache that [create] builds has the ways its class needs. *)
Lemma create_kind_ok skew policy k kd : (skew = true -> assoc = 1) ->
  create skew policy k = Some kd -> kind_ok kd.
Proof.
  intros Hs. unfold create. destruct skew; cbn.
  - destruct (negb _); [done|]. intros [= <-]. by apply Hs.
  - destruct (Z.eqb_spec assoc 1); [by intros [= <-]|]. by destruct policy; intros [= <-].
Qed.

(** ** The counter table of the signature based class *)

Lemma new_SHCT_range k heap i : 0 <= new_SHCT k heap i <= 255 /\
  (i < Z.lxor 2 k -> new_SHCT k heap i = 0).
Proof.
  unfold new_SHCT. destruct (Z.ltb_spec i (Z.lxor 2 k)); split; try done; try lia. cint.
Qed.

(** The bound of a counter: 7, or what the constructor left there when that is more. *)
Definition counter_max (k : Z) (heap : Z -> Z) (i : Z) : Z := Z.max 7 (new_SHCT k heap i).

Definition ship_state (k : Z) (heap : Z -> Z) (c : Cache) : Prop :=
  ship_ok k (counter_max k heap) c /\ forall s, in_set s -> content c s <> [].

Lemma ship_op_bounds k heap op c : 0 <= k -> ship_state k heap c ->
  exists o c', do_op (KSHIP k) op c = Some (o, c') /\ ship_state k heap c'.
Proof.
  intros Hk [Hok Hc].
  assert (forall i, 7 <= counter_max k heap i) as HB by (intros i; unfold counter_max; lia).
  destruct op as [addr u sig|addr u sig|addr]; cbn.
  - destruct (ship_find_ok k _ HB addr u sig c Hok) as [H1 H2].
    destruct (ship_findLinePrivate k addr u sig c) as [r c']. cbn in *. eexists _, _. split; [done|].
    split; [done|]. by rewrite H2.
  - destruct (ship_replace_ok k _ Hk addr u sig c Hok) as (x & c' & -> & (J1 & J2 & J3) & H2);
      [apply Hc, calcSet4Tag_in|].
    cbn. eexists _, _. split; [done|]. split; [|cbn; by rewrite H2]. split_and!; [| |done];
      intros y; cbn; specialize (J1 y); specialize (J2 y); by destruct (Nat.eqb x y).
  - destruct (ship_find_ok k _ HB addr false 0 c Hok) as [(J1 & J2 & J3) H2].
    destruct (ship_findLinePrivate k addr false 0 c) as [r c']. cbn in *. eexists _, _. split; [done|].
    destruct r as [x|]; (split; [|cbn; by rewrite H2]); split_and!; try done;
      intros y; cbn; specialize (J1 y); specialize (J2 y); destruct (Nat.eqb x y); try done;
      cbn; unfold RRIP_M; lia.
Qed.

Lemma ship_run_bounds k heap ops : 0 <= k -> forall c, ship_state k heap c ->
  exists os c', run_ops (KSHIP k) ops c = Some (os, c') /\ ship_state k heap c'.
Proof.
  intros Hk. induction ops as [|op ops IH]; intros c Hc; cbn; [by eexists _, _|].
  destruct (ship_op_bounds k heap op c Hk Hc) as (o & c1 & -> & H1). cbn.
  destruct (IH c1 H1) as (os & c' & -> & H2). by eexists _, _.
Qed.

Lemma new_ship_state k heap : 0 <= k -> ship_state k heap (new_ship k heap).
Proof.
  intros Hk. split.
  - split; [intros x; change (0 <= 3 <= 3); lia|]. split.
    + intros x. cbn. split; [lia|]. apply Z.pow_pos_nonneg; lia.
    + intros i. cbn. unfold counter_max. pose proof (new_SHCT_range k heap i). lia.
  - intros s Hs. pose proof assoc_pos.
    pose proof (ci_assoc _ _ (new_cache_inv (fun _ => []) (new_SHCT k heap)) s Hs) as Hl.
    intros E. change (content (new_cache (new_SHCT k heap)) s = []) in E. rewrite E in Hl. cbn in Hl. lia.
Qed.

(** ** Properties *)

(** C15: Each of the four classes of cache arrays, from its constructor through any history
    of searches, fills and invalidations, behaves as a set of tags.  A search (and the
    search of an invalidation) returns a line with the tag exactly when the tag is in the
    set and changes no tag; a fill adds its tag and removes exactly the tag whose address it
    returns, a tag of the set other than the one filled, and none when it returns 0; an
    invalidation removes the tag.  Every call returns, and at the end the lines of the cache
    are in the sets their tags belong to, no tag twice, and hold the tags of the set.  Tags
    are not 0, and the direct mapped classes have one way.  For the signature based class
    the history fills only addresses that a search misses: filling a present tag may put it
    into the cache twice, as [replacement_limits] shows; the other classes have no such
    condition. *)
Theorem cache_contract kd heap ops : kind_ok kd -> hist_ok kd ops (new_kind kd heap) ->
  exists os c A, run_ops kd ops (new_kind kd heap) = Some (os, c) /\ refines ∅ ops os A /\
    cache_inv (sets_of kd) c /\ forall t, t <> 0 -> present c t <-> t ∈ A.
Proof.
  intros Hk Hok.
  destruct (run_spec kd ops (new_kind kd heap) ∅ (new_kind_holds kd heap Hk) Hok)
    as (os & c & A & E & HR & HI & _ & _ & HA).
  by exists os, c, A.
Qed.

(** C17: The tables of the signature based cache, from its constructor through any history
    of searches, fills and invalidations.  The constructor clears only the counters below
    [2 xor log2shct] and leaves in the others what the heap held.  Every call returns: the
    replacement loop, which ages the set until a line is distant, ends after at most
    [RRIP_M] rounds.  The age of a line stays in 0 - 3 and its signature is an index of the
    table of [2<<log2shct] counters.  A counter that the constructor cleared stays in
    0 - 7; one it did not clear stays a byte and never exceeds the larger of 7 and its
    initial value. *)
Theorem ship_bounds k heap ops : 0 <= k < 30 ->
  exists os c, run_ops (KSHIP k) ops (new_ship k heap) = Some (os, c) /\
    (forall x, 0 <= rrpv (mem c x) <= 3 /\ 0 <= signature (mem c x) < Z.shiftl 2 k) /\
    (forall i, 0 <= SHCT c i <= 255 /\ SHCT c i <= Z.max 7 (new_SHCT k heap i)) /\
    (forall i, 0 <= i < Z.lxor 2 k -> 0 <= SHCT c i <= 7).
Proof.
  intros Hk.
  destruct (ship_run_bounds k heap ops ltac:(lia) _ (new_ship_state k heap ltac:(lia)))
    as (os & c & E & (H1 & H2 & H3) & _).
  exists os, c. split; [done|]. unfold counter_max in H3. split_and!.
  - intros x. split; [exact (H1 x)|]. rewrite Z.shiftl_mul_pow2 by lia.
    specialize (H2 x). rewrite Z.pow_add_r in H2 by lia. lia.
  - intros i. pose proof (new_SHCT_range k heap i). specialize (H3 i). lia.
  - intros i Hi. destruct (new_SHCT_range k heap i) as [_ H0]. specialize (H3 i).
    rewrite H0 in H3 by lia. lia.
Qed.

End Runs.

(** ** Witnesses *)

(** A heap of ones. *)
Definition ones_heap (j : Z) : Z := 255.

(** Address 64 has tag 4 and set 0, as have 128 and 192. *)
Definition ship_history : list Op :=
  [Find 64 true 7; Fill 64 true 7; Find 64 true 7; Fill 128 false 0; Fill 192 true 100;
   Invalidate 128; Find 64 false 0].

Lemma ship_history_run :
  fst <$> run_ops (KSHIP 13) ship_history (new_ship 13 ones_heap) =
  Some [Found None; Displaced 0; Found (Some 4); Displaced 0; Displaced 128; Found None; Found (Some 4)].
Proof. vm_compute. reflexivity. Qed.

Lemma ship_history_ok : hist_ok (KSHIP 13) ship_history (new_ship 13 ones_heap).
Proof. vm_compute. repeat split; try congruence. Qed.

Lemma cache_contract_witness :
  exists os c A, run_ops (KSHIP 13) ship_history (new_kind (KSHIP 13) ones_heap) = Some (os, c) /\
    refines ∅ ship_history os A.
Proof.
  destruct (cache_contract (KSHIP 13) ones_heap ship_history I ship_history_ok) as (os & c & A & E & HR & _).
  exists os, c, A. split; [exact E|exact HR].
Defined.

Lemma ship_bounds_witness :
  exists os c, run_ops (KSHIP 13) ship_history (new_ship 13 ones_heap) = Some (os, c) /\
    0 <= SHCT c 3 <= 7 /\ 0 <= SHCT c 9000 <= 255.
Proof.
  destruct (ship_bounds 13 ones_heap ship_history) as (os & c & E & _ & H1 & H2); [lia|].
  exists os, c. split; [exact E|]. split; [apply H2; vm_compute; split; congruence|apply (H1 9000)].
Defined.

(** A counter the constructor did not clear, after the history: it is above 7. *)
Example uncleared_counter :
  (fun r => SHCT (snd r) (ship_signature 13 100)) <$> run_ops (KSHIP 13) ship_history (new_ship 13 ones_heap) = Some 255.
Proof. vm_compute. reflexivity. Qed.
