(* ===== verification/SimQueues.v ===== *)
(** * The queues of the simulator

    Two ring buffers of the C++ code, each against a list:
    - [FastQueue] (src/misc/libsuc/FastQueue.h), the queue of the pipeline stages;
    - [EmuDInstQueue] (src/emul/libemulint/EmuDInstQueue.h and .cpp), the queue of the
      decoded instructions with a position for execution, a position for retirement, a
      replay and growth.

    An array is a function of its index; every index is reduced into the array by the code,
    and the contents of a fresh array are left open.  The third ring buffer, through which
    the QEMU thread hands instructions to the simulator, is in TraceFifo. *)

From S2P Require Import Prelude SimBase.
Open Scope Z_scope.

(** ** Rings *)

Section Ring.
  Context {D : Type}.

(** The [n] elements from index [start] on in a ring of [size]. *)
Definition ring (arr : Z -> D) (size start : Z) (l : list D) : Prop :=
  forall i x, l !! i = Some x -> arr ((start + Z.of_nat i) mod size) = x.

Definition arr_set (arr : Z -> D) (i : Z) (x : D) : Z -> D := fun j => if i =? j then x else arr j.

Lemma ring_index_inj size start i j : 0 < size -> 0 <= i < size -> 0 <= j < size ->
  (start + i) mod size = (start + j) mod size -> i = j.
Proof.
  intros Hs Hi Hj E.
  pose proof (Z.div_mod (start + i) size ltac:(lia)). pose proof (Z.div_mod (start + j) size ltac:(lia)).
  rewrite E in *. assert (i - j = size * ((start + i) / size - (start + j) / size)) as Ed by lia.
  assert ((start + i) / size - (start + j) / size = 0) by nia. lia.
Qed.

(** Writing behind the last element appends it. *)
Lemma ring_push arr size start l x : 0 < size -> Z.of_nat (length l) < size -> ring arr size start l ->
  ring (arr_set arr ((start + Z.of_nat (length l)) mod size) x) size start (l ++ [x]).
Proof.
  intros Hs Hl HR i y Hi. unfold arr_set. apply lookup_app_Some in Hi as [Hi|[Hge Hi]].
  - pose proof (lookup_lt_Some _ _ _ Hi). destruct (Z.eqb_spec ((start + Z.of_nat (length l)) mod size)
      ((start + Z.of_nat i) mod size)) as [E|]; [|by apply HR].
    apply ring_index_inj in E; lia.
  - apply list_lookup_singleton_Some in Hi as [Hi <-].
    replace i with (length l) by lia. by rewrite Z.eqb_refl.
Qed.

(** Moving the start by one removes the first element. *)
Lemma ring_pop arr size start x l : 0 < size -> ring arr size start (x :: l) ->
  ring arr size ((start + 1) mod size) l.
Proof.
  intros Hs HR i y Hi. rewrite Zplus_mod_idemp_l. rewrite <- (HR (S i) y); [|done].
  do 2 f_equal. lia.
Qed.

(** Overwriting an element in place. *)
Lemma ring_set arr size start l i y : 0 < size -> Z.of_nat (length l) <= size -> (i < length l)%nat ->
  ring arr size start l -> ring (arr_set arr ((start + Z.of_nat i) mod size) y) size start (<[i := y]> l).
Proof.
  intros Hs Hl Hi HR j z Hj. unfold arr_set.
  pose proof (lookup_lt_Some _ _ _ Hj) as Hj'. rewrite length_insert in Hj'.
  apply list_lookup_insert_Some in Hj as [(-> & -> & _)|[Hne Hj]]; [by rewrite Z.eqb_refl|].
  destruct (Z.eqb_spec ((start + Z.of_nat i) mod size) ((start + Z.of_nat j) mod size)) as [E|]; [|by apply HR].
  apply ring_index_inj in E; lia.
Qed.

Lemma ring_head arr size start x l : 0 <= start < size -> ring arr size start (x :: l) -> arr start = x.
Proof. intros Hs HR. rewrite <- (HR 0%nat x) by done. f_equal. rewrite Z.mod_small; lia. Qed.

End Ring.

Lemma land_mask_mod x k : 0 <= k -> Z.land x (2 ^ k - 1) = x mod 2 ^ k.
Proof. intros Hk. rewrite <- Z.land_ones by done. f_equal. rewrite Z.ones_equiv. lia. Qed.

(** ** FastQueue *)

Section FastQueue.
  Context {D : Type}.

Record FastQueue := mkFQ { pipe : Z -> D; pipeMask : Z; start : Z; end_ : Z; nElems : Z }.

(** [while (pipeMask & (pipeMask - 1)) pipeMask++;] *)
Fixpoint round_up (fuel : nat) (m : Z) : option Z :=
  if Z.land m (m - 1) =? 0 then Some m
  else match fuel with O => None | S fuel => round_up fuel (m + 1) end.

Definition new_FastQueue (garbage : Z -> D) (size : Z) : option FastQueue :=
  m ← round_up (Z.to_nat size) size;
  Some (mkFQ garbage (m - 1) 0 0 0).

Definition push (d : D) (q : FastQueue) : FastQueue :=
  mkFQ (arr_set (pipe q) (end_ q) d) (pipeMask q) (start q)
    (Z.land (end_ q + 1) (pipeMask q)) (nElems q + 1).
Definition top (q : FastQueue) : D := pipe q (start q).
Definition pop (q : FastQueue) : FastQueue :=
  mkFQ (pipe q) (pipeMask q) (Z.land (start q + 1) (pipeMask q)) (end_ q) (nElems q - 1).
Definition getIdFromTop (i : Z) (q : FastQueue) : Z := Z.land (start q + i) (pipeMask q).
Definition getNextId (id : Z) (q : FastQueue) : Z := Z.land (id + 1) (pipeMask q).
Definition isEnd (id : Z) (q : FastQueue) : bool := id =? end_ q.
Definition getData (id : Z) (q : FastQueue) : D := pipe q id.
Definition topNext (q : FastQueue) : D := getData (getIdFromTop 1 q) q.
Definition fq_empty (q : FastQueue) : bool := nElems q =? 0.

(** The queue holds [l], oldest first. *)
Definition fq_holds (q : FastQueue) (l : list D) : Prop :=
  exists k, 0 <= k /\ pipeMask q = 2 ^ k - 1 /\ 0 <= start q < 2 ^ k /\
    nElems q = Z.of_nat (length l) /\ Z.of_nat (length l) <= 2 ^ k /\
    end_ q = (start q + nElems q) mod 2 ^ k /\ ring (pipe q) (2 ^ k) (start q) l.

(** A number and its predecessor share no bit iff it is a power of two. *)
Lemma land_pred_pow2 x : 0 < x -> Z.land x (x - 1) = 0 -> x = 2 ^ Z.log2 x.
Proof.
  intros Hx HL. pose proof (Z.log2_spec x Hx) as [H1 H2]. pose proof (Z.log2_nonneg x).
  destruct (decide (x = 2 ^ Z.log2 x)) as [|Hne]; [done|]. exfalso.
  assert (Z.log2 (x - 1) = Z.log2 x) as E by (apply Z.log2_unique; lia).
  assert (Z.testbit (Z.land x (x - 1)) (Z.log2 x) = true) as HT.
  { rewrite Z.land_spec, Z.bit_log2 by done. cbn. rewrite <- E. apply Z.bit_log2.
    assert (0 < 2 ^ Z.log2 x) by (apply Z.pow_pos_nonneg; lia). lia. }
  by rewrite HL, Z.bits_0 in HT.
Qed.

Lemma round_up_spec k : 0 <= k -> forall fuel m, 0 < m <= 2 ^ k -> 2 ^ k - m <= Z.of_nat fuel ->
  exists j, 0 <= j <= k /\ round_up fuel m = Some (2 ^ j) /\ m <= 2 ^ j.
Proof.
  intros Hk. induction fuel as [|fuel IH]; intros m Hm Hf; cbn;
    destruct (Z.eqb_spec (Z.land m (m - 1)) 0) as [E|E].
  1, 3: apply land_pred_pow2 in E; [|lia]; exists (Z.log2 m); pose proof (Z.log2_nonneg m);
    rewrite <- E; split_and!; try done; rewrite <- (Z.log2_pow2 k Hk); apply Z.log2_le_mono; lia.
  - exfalso. apply E. replace m with (2 ^ k) by lia. rewrite land_mask_mod by done.
    apply Z.mod_same. lia.
  - assert (m <> 2 ^ k).
    { intros ->. apply E. rewrite land_mask_mod by done. apply Z.mod_same. lia. }
    destruct (IH (m + 1)) as (j & Hj & Ej & Hle); [lia|lia|]. exists j. split_and!; [lia..|done|lia].
Qed.

Lemma new_FastQueue_holds g size : 0 < size -> exists q,
  new_FastQueue g size = Some q /\ fq_holds q [] /\ size <= pipeMask q + 1 < 2 * size.
Proof.
  intros Hs. unfold new_FastQueue. set (k := Z.log2_up size).
  pose proof (Z.log2_up_nonneg size) as Hk. fold k in Hk.
  assert (size <= 2 ^ k /\ 2 ^ k < 2 * size) as [H1 H2].
  { destruct (decide (size = 1)) as [->|]; [by vm_compute|].
    pose proof (Z.log2_up_spec size ltac:(lia)) as [Ha Hb]. fold k in Ha, Hb. split; [done|].
    replace k with (Z.succ (Z.pred k)) by lia.
    destruct (decide (k = 0)) as [E0|]; [rewrite E0 in Hb; change (2 ^ 0) with 1 in Hb; lia|].
    rewrite Z.pow_succ_r by lia. lia. }
  destruct (round_up_spec k Hk (Z.to_nat size) size) as (j & Hj & -> & Hle); [lia|lia|]. cbn.
  eexists. split; [done|]. cbn. assert (2 ^ j <= 2 ^ k) by (apply Z.pow_le_mono_r; lia).
  split; [|lia]. exists j. cbn. split_and!; try lia.
  - by rewrite Z.mod_0_l by lia.
  - intros i x Hi. by rewrite lookup_nil in Hi.
Qed.

End FastQueue.
Arguments FastQueue : clear implicits.

Section FastQueueLaws.
  Context {D : Type}.
  Implicit Types (q : FastQueue D) (l : list D).

Lemma push_holds q l d : fq_holds q l -> nElems q <= pipeMask q -> fq_holds (push d q) (l ++ [d]).
Proof.
  intros (k & Hk & Em & Hst & En & Hcap & Eend & HR) Hfull.
  assert (0 < 2 ^ k) as Hp by (apply Z.pow_pos_nonneg; lia).
  exists k. cbn. rewrite Em, land_mask_mod, length_app by done. cbn. split_and!; try lia.
  - rewrite Eend, Zplus_mod_idemp_l. f_equal. lia.
  - rewrite Eend, En. apply ring_push; [lia|lia|done].
Qed.

Lemma pop_holds q l x : fq_holds q (x :: l) -> top q = x /\ fq_holds (pop q) l.
Proof.
  intros (k & Hk & Em & Hst & En & Hcap & Eend & HR).
  assert (0 < 2 ^ k) as Hp by (apply Z.pow_pos_nonneg; lia).
  split; [exact (ring_head _ _ _ _ _ Hst HR)|]. exists k. cbn in *.
  rewrite Em, land_mask_mod by done. pose proof (Z.mod_pos_bound (start q + 1) (2 ^ k) Hp).
  split_and!; try lia.
  - rewrite Eend, Zplus_mod_idemp_l. f_equal. lia.
  - by eapply ring_pop.
Qed.

Lemma holds_nElems q l : fq_holds q l -> nElems q = Z.of_nat (length l).
Proof. by intros (k & _ & _ & _ & En & _). Qed.

Lemma holds_fq_empty q l : fq_holds q l -> fq_empty q = bool_decide (l = []).
Proof. intros H. unfold fq_empty. rewrite (holds_nElems q l H). by destruct l. Qed.

End FastQueueLaws.

(** [FastQueue] is a queue: its constructor finds the smallest power of two that is
    enough, [push] below the capacity appends, [top] and [pop] take the oldest, the
    elements are addressed from the oldest by [getIdFromTop], and, unless the ring is
    full, a walk with [getNextId] from the top meets [isEnd] exactly behind the last. *)
Lemma fast_queue_fifo {D} (q : FastQueue D) l : fq_holds q l ->
  (forall d, nElems q <= pipeMask q -> fq_holds (push d q) (l ++ [d])) /\
  (forall x l', l = x :: l' -> top q = x /\ fq_holds (pop q) l') /\
  (forall i x, l !! i = Some x -> getData (getIdFromTop (Z.of_nat i) q) q = x) /\
  (forall i, getNextId (getIdFromTop i q) q = getIdFromTop (i + 1) q) /\
  (nElems q <= pipeMask q -> forall i, 0 <= i <= nElems q ->
    isEnd (getIdFromTop i q) q = (i =? nElems q)) /\
  fq_empty q = bool_decide (l = []).
Proof.
  intros Hq. pose proof Hq as (k & Hk & Em & Hst & En & Hcap & Eend & HR).
  assert (0 < 2 ^ k) as Hp by (apply Z.pow_pos_nonneg; lia). split_and!.
  - intros d Hfull. by apply push_holds.
  - intros x l' ->. by apply pop_holds.
  - intros i x Hi. unfold getData, getIdFromTop. rewrite Em, land_mask_mod by done. by apply HR.
  - intros i. unfold getNextId, getIdFromTop. rewrite Em, !land_mask_mod, Zplus_mod_idemp_l by done.
    f_equal. lia.
  - intros Hfull i Hi. unfold isEnd, getIdFromTop. rewrite Em, land_mask_mod, Eend by done.
    destruct (Z.eqb_spec i (nElems q)) as [->|Hne]; [apply Z.eqb_refl|].
    apply Z.eqb_neq. intros E. apply ring_index_inj in E; lia.
  - by apply holds_fq_empty.
Qed.

Lemma fast_queue_fifo_witness :
  exists q, new_FastQueue (fun _ => 0%nat) 3 = Some q /\
    fq_holds (push 7%nat q) [7%nat] /\ pipeMask q = 3.
Proof.
  destruct (new_FastQueue_holds (fun _ => 0%nat) 3 ltac:(lia)) as (q & E & Hq & _).
  exists q. split; [exact E|]. injection E as <-. split; [|reflexivity].
  apply (fast_queue_fifo _ [] Hq). cbn. lia.
Defined.

(** ** EmuDInstQueue *)

Module EmuQ.
Section EmuQ.
  Context {D : Type} (clone : D -> D).

(** [tsize] is [trace.size()], a power of two. *)
Record EmuDInstQueue := mkEQ {
  head : Z; tail : Z; ndrop : Z; insertpoint : Z; nFreeElems : Z; tsize : Z; trace : Z -> D }.

Definition new (garbage : Z -> D) : EmuDInstQueue := mkEQ 0 0 0 0 1024 1024 garbage.

Definition wrap (q : EmuDInstQueue) (i : Z) : Z := Z.land i (tsize q - 1).

(** The copying loop of [adjust_trace]: [n] more elements from number [i] on. *)
Fixpoint copy_loop (n : nat) (i new_tail tl : Z) (tr : Z -> D) : Z -> D :=
  match n with
  | O => tr
  | S n =>
      copy_loop n (i + 1) new_tail tl
        (arr_set tr (new_tail + i) (tr (Z.land (tl + i) (new_tail - 1))))
  end.

Definition adjust_trace (q : EmuDInstQueue) : EmuDInstQueue :=
  let new_tail := tsize q in
  mkEQ (if tail q <=? head q then new_tail + head q - tail q
        else new_tail + new_tail - (tail q - head q))
    new_tail (ndrop q) 0 new_tail (tsize q * 2)
    (copy_loop (Z.to_nat new_tail) 0 new_tail (tail q) (trace q)).

Definition popHead (q : EmuDInstQueue) : EmuDInstQueue :=
  mkEQ (wrap q (head q + 1)) (tail q) (ndrop q) (insertpoint q) (nFreeElems q) (tsize q) (trace q).
Definition getHead (q : EmuDInstQueue) : D := trace q (head q).
Definition getTail (q : EmuDInstQueue) : D := trace q (tail q).

Definition add (dinst : D) (q : EmuDInstQueue) : EmuDInstQueue :=
  let q := mkEQ (head q) (tail q) (ndrop q) (wrap q (insertpoint q + 1)) (nFreeElems q - 1)
    (tsize q) (arr_set (trace q) (insertpoint q) dinst) in
  if nFreeElems q =? 0 then adjust_trace q else q.

Definition advanceTail (q : EmuDInstQueue) : bool * EmuDInstQueue :=
  if negb (ndrop q =? 0) then
    (true, mkEQ (head q) (tail q) (ndrop q - 1) (insertpoint q) (nFreeElems q) (tsize q) (trace q))
  else if insertpoint q =? tail q then (false, q)
  else
    (true, mkEQ (head q) (wrap q (tail q + 1)) (ndrop q) (insertpoint q) (nFreeElems q + 1)
      (tsize q) (trace q)).

(** The loop of [moveHead2Tail]. *)
Fixpoint clone_loop (fuel : nat) (q : EmuDInstQueue) : option EmuDInstQueue :=
  if head q =? tail q then Some q
  else
    match fuel with
    | O => None
    | S fuel =>
        clone_loop fuel (mkEQ (head q) (wrap q (tail q + 1)) (ndrop q + 1) (insertpoint q)
          (nFreeElems q) (tsize q) (arr_set (trace q) (tail q) (clone (trace q (tail q)))))
    end.

Definition moveHead2Tail (q : EmuDInstQueue) : option EmuDInstQueue :=
  q' ← clone_loop (Z.to_nat (tsize q)) q;
  Some (mkEQ (tail q) (tail q) (ndrop q') (insertpoint q') (nFreeElems q') (tsize q') (trace q')).

Definition size (q : EmuDInstQueue) : Z := tsize q - nFreeElems q.
Definition empty (q : EmuDInstQueue) : bool := head q =? insertpoint q.

(** The queue holds [l], the first [h] of which are executed, and [d] retirements to skip. *)
Record holds (q : EmuDInstQueue) (l : list D) (h d : Z) : Prop := {
  eh_size : exists k, 0 <= k /\ tsize q = 2 ^ k;
  eh_tail : 0 <= tail q < tsize q;
  eh_free : nFreeElems q = tsize q - Z.of_nat (length l) /\ 0 < nFreeElems q;
  eh_ins : insertpoint q = (tail q + Z.of_nat (length l)) mod tsize q;
  eh_head : head q = (tail q + h) mod tsize q;
  eh_pos : 0 <= h <= Z.of_nat (length l);
  eh_drop : ndrop q = d /\ 0 <= d;
  eh_ring : ring (trace q) (tsize q) (tail q) l }.

Lemma wrap_mod q i : (exists k, 0 <= k /\ tsize q = 2 ^ k) -> wrap q i = i mod tsize q.
Proof. intros (k & Hk & E). unfold wrap. rewrite E. by apply land_mask_mod. Qed.

Lemma size_pos q : (exists k, 0 <= k /\ tsize q = 2 ^ k) -> 0 < tsize q.
Proof. intros (k & Hk & ->). apply Z.pow_pos_nonneg; lia. Qed.

(** The copy reads below [new_tail] and writes above it. *)
Lemma copy_loop_spec n : forall i new_tail tl tr j, (exists k, 0 <= k /\ new_tail = 2 ^ k) ->
  0 <= i -> i + Z.of_nat n = new_tail ->
  copy_loop n i new_tail tl tr j =
    if (new_tail + i <=? j) && (j <? 2 * new_tail) then tr ((tl + (j - new_tail)) mod new_tail) else tr j.
Proof.
  induction n as [|n IH]; intros i nt tl tr j Hk Hi Hn; cbn [copy_loop].
  { destruct (Z.leb_spec (nt + i) j), (Z.ltb_spec j (2 * nt)); cbn; try done; lia. }
  rewrite IH by (done || lia). destruct Hk as (k & Hk & E).
  assert (0 < nt) as Hp by (rewrite E; apply Z.pow_pos_nonneg; lia).
  assert (forall x, Z.land x (nt - 1) = x mod nt) as Hmod by (intros; rewrite E; by apply land_mask_mod).
  rewrite Hmod. unfold arr_set.
  assert (forall x, (nt + i =? x mod nt) = false) as Hlow.
  { intros x. pose proof (Z.mod_pos_bound x nt Hp). apply Z.eqb_neq. lia. }
  rewrite Hlow. destruct (Z.eqb_spec (nt + i) j) as [<-|Hne].
  - destruct (Z.leb_spec (nt + (i + 1)) (nt + i)); [lia|]. cbn.
    destruct (Z.leb_spec (nt + i) (nt + i)), (Z.ltb_spec (nt + i) (2 * nt)); cbn; try lia.
    do 2 f_equal. lia.
  - destruct (Z.leb_spec (nt + (i + 1)) j), (Z.leb_spec (nt + i) j), (j <? 2 * nt); cbn; try done; lia.
Qed.

(** Growing a ring that has just become full keeps its elements and positions. *)
Lemma adjust_trace_holds q l h d :
  (exists k, 0 <= k /\ tsize q = 2 ^ k) -> 0 <= tail q < tsize q -> Z.of_nat (length l) = tsize q ->
  head q = (tail q + h) mod tsize q -> 0 <= h < tsize q -> ndrop q = d -> 0 <= d ->
  ring (trace q) (tsize q) (tail q) l -> holds (adjust_trace q) l h d.
Proof.
  intros Hsz Ht Hl Hh Hpos Hd Hd0 HR. pose proof (size_pos q Hsz) as Hp.
  assert (forall x, 0 <= x < tsize q -> (tsize q + x) mod (tsize q * 2) = tsize q + x) as Hmod
    by (intros; apply Z.mod_small; lia).
  split; cbn.
  - destruct Hsz as (k & Hk & E). exists (k + 1). rewrite E, Z.pow_add_r by lia. split; lia.
  - lia.
  - lia.
  - rewrite Hl. replace (tsize q + tsize q) with (tsize q * 2) by lia. symmetry. apply Z.mod_same. lia.
  - rewrite Hmod by lia. destruct (decide (tail q + h < tsize q)).
    + rewrite Hh, Z.mod_small by lia. destruct (Z.leb_spec (tail q) (tail q + h)); lia.
    + assert (head q = tail q + h - tsize q) as ->.
      { rewrite Hh. symmetry. apply (Z.mod_unique _ _ 1); lia. }
      destruct (Z.leb_spec (tail q) (tail q + h - tsize q)); lia.
  - lia.
  - done.
  - intros i x Hi. pose proof (lookup_lt_Some _ _ _ Hi). rewrite Hmod by lia.
    rewrite copy_loop_spec by (done || lia).
    destruct (Z.leb_spec (tsize q + 0) (tsize q + Z.of_nat i)),
      (Z.ltb_spec (tsize q + Z.of_nat i) (2 * tsize q)); try lia. cbn.
    rewrite <- (HR i x Hi). do 2 f_equal. lia.
Qed.

Lemma add_holds x q l h d : holds q l h d -> holds (add x q) (l ++ [x]) h d.
Proof.
  intros [Hsz Ht [Hf1 Hf2] Hi Hh Hpos Hd HR]. pose proof (size_pos q Hsz) as Hp. unfold add.
  set (q1 := mkEQ _ _ _ _ _ _ _).
  assert (ring (trace q1) (tsize q) (tail q) (l ++ [x])) as HR1.
  { unfold q1. cbn. rewrite Hi. apply ring_push; [lia|lia|done]. }
  assert (insertpoint q1 = (tail q + Z.of_nat (length (l ++ [x]))) mod tsize q) as Hi1.
  { unfold q1. cbn. rewrite (wrap_mod q) by done. rewrite Hi, Zplus_mod_idemp_l, length_app. cbn. f_equal. lia. }
  destruct (Z.eqb_spec (nFreeElems q1) 0) as [E|E]; cbn in E.
  - apply adjust_trace_holds; try done; try (cbn; lia). rewrite length_app. cbn. lia.
  - split; try done; cbn; rewrite ?length_app; cbn [length]; lia.
Qed.

Lemma popHead_holds q l h d x : holds q l h d -> l !! Z.to_nat h = Some x ->
  getHead q = x /\ empty q = false /\ holds (popHead q) l (h + 1) d.
Proof.
  intros [Hsz Ht [Hf1 Hf2] Hi Hh Hpos Hd HR] Hx. pose proof (size_pos q Hsz) as Hp.
  pose proof (lookup_lt_Some _ _ _ Hx). split_and!.
  - unfold getHead. rewrite Hh, <- (HR _ _ Hx). do 2 f_equal. lia.
  - unfold empty. rewrite Hh, Hi. apply Z.eqb_neq. intros E. apply ring_index_inj in E; lia.
  - split; try done; cbn; try lia. rewrite (wrap_mod q) by done. rewrite Hh, Zplus_mod_idemp_l. f_equal. lia.
Qed.

Lemma advanceTail_holds q x l h : holds q (x :: l) h 0 -> 0 < h ->
  exists q', advanceTail q = (true, q') /\ holds q' l (h - 1) 0.
Proof.
  intros [Hsz Ht [Hf1 Hf2] Hi Hh Hpos Hd HR] Hh0. pose proof (size_pos q Hsz) as Hp.
  cbn [length] in *. unfold advanceTail. destruct Hd as [-> _]. cbn.
  destruct (Z.eqb_spec (insertpoint q) (tail q)) as [E|_].
  { exfalso. rewrite Hi in E. rewrite <- (Z.mod_small (tail q) (tsize q)) in E at 2 by lia.
    rewrite <- (Z.add_0_r (tail q)) in E at 2. apply ring_index_inj in E; lia. }
  eexists. split; [done|]. split; try done; cbn; rewrite ?(wrap_mod q) by done; try lia.
  - apply Z.mod_pos_bound. lia.
  - rewrite Hi, Zplus_mod_idemp_l. f_equal. lia.
  - rewrite Hh, Zplus_mod_idemp_l. f_equal. lia.
  - by apply (ring_pop _ _ _ x).
Qed.

(** Cloned up to number [m]. *)
Definition cloned (m : nat) (l : list D) : list D := (clone <$> take m l) ++ drop m l.

Lemma cloned_length m l : length (cloned m l) = length l.
Proof. unfold cloned. rewrite length_app, length_fmap, length_take, length_drop. lia. Qed.

Lemma cloned_S m l x : l !! m = Some x ->
  cloned m l !! m = Some x /\ cloned (S m) l = <[m := clone x]> (cloned m l).
Proof.
  intros Hx. pose proof (lookup_lt_Some _ _ _ Hx). unfold cloned.
  assert (length (clone <$> take m l) = m) as Hm by (rewrite length_fmap, length_take; lia).
  rewrite (drop_S _ _ _ Hx). split.
  - by rewrite lookup_app_r, Hm, Nat.sub_diag by lia.
  - rewrite insert_app_r_alt, Hm, Nat.sub_diag by lia. cbn.
    rewrite (take_S_r _ _ _ Hx), fmap_app, <- app_assoc. done.
Qed.

(** The loop clones the executed instructions in place. *)
Lemma clone_loop_spec t0 l n : forall m fuel q,
  (exists k, 0 <= k /\ tsize q = 2 ^ k) -> tail q = (t0 + Z.of_nat m) mod tsize q ->
  head q = (t0 + Z.of_nat (m + n)) mod tsize q -> (m + n <= length l)%nat ->
  Z.of_nat (length l) < tsize q -> (n <= fuel)%nat -> ring (trace q) (tsize q) t0 (cloned m l) ->
  exists q', clone_loop fuel q = Some q' /\ tsize q' = tsize q /\
    insertpoint q' = insertpoint q /\ nFreeElems q' = nFreeElems q /\
    ndrop q' = ndrop q + Z.of_nat n /\ ring (trace q') (tsize q) t0 (cloned (m + n) l).
Proof.
  induction n as [|n IH]; intros m fuel q Hsz Ht Hh Hle Hl Hf HR; pose proof (size_pos q Hsz) as Hp.
  - rewrite Nat.add_0_r in *. exists q. split_and!; try done; [|lia].
    destruct fuel; cbn; by rewrite Ht, Hh, Z.eqb_refl.
  - destruct fuel as [|fuel]; [lia|]. cbn [clone_loop].
    destruct (Z.eqb_spec (head q) (tail q)) as [E|_].
    { rewrite Ht, Hh in E. apply ring_index_inj in E; lia. }
    destruct (lookup_lt_is_Some_2 l m ltac:(lia)) as [x Hx].
    destruct (cloned_S m l x Hx) as [Hmx Hms].
    assert (trace q (tail q) = x) as Etx by (rewrite Ht; by apply HR).
    rewrite Etx. set (q1 := mkEQ _ _ _ _ _ _ _).
    destruct (IH (S m) fuel q1) as (q' & E & H1 & H2 & H3 & H4 & H5); try done; cbn; try lia.
    + rewrite (wrap_mod q) by done. rewrite Ht, Zplus_mod_idemp_l. f_equal. lia.
    + rewrite Hh. do 2 f_equal. lia.
    + rewrite Hms, Ht. apply ring_set; [lia|rewrite cloned_length; lia..|done].
    + exists q'. split_and!; try done; cbn in *; [lia|].
      by replace (m + S n)%nat with (S m + n)%nat by lia.
Qed.

Lemma moveHead2Tail_holds q l h d : holds q l h d ->
  exists q', moveHead2Tail q = Some q' /\ holds q' (cloned (Z.to_nat h) l) 0 (d + h).
Proof.
  intros [Hsz Ht [Hf1 Hf2] Hi Hh Hpos Hd HR]. pose proof (size_pos q Hsz) as Hp.
  destruct (clone_loop_spec (tail q) l (Z.to_nat h) 0 (Z.to_nat (tsize q)) q Hsz)
    as (q' & E & H1 & H2 & H3 & H4 & H5).
  - rewrite Z.add_0_r, Z.mod_small; lia.
  - rewrite Hh. do 2 f_equal. lia.
  - lia.
  - lia.
  - lia.
  - done.
  - unfold moveHead2Tail. rewrite E. eexists. split; [done|]. cbn in *.
    split; cbn; rewrite ?cloned_length, ?H1, ?H2, ?H3, ?H4; try done; try lia.
    rewrite Z.add_0_r, Z.mod_small; lia.
Qed.

Lemma new_holds g : holds (new g) [] 0 0.
Proof.
  split; cbn; try done; try lia.
  - exists 10. split; [lia|done].
Qed.

End EmuQ.
End EmuQ.

(** C19: The queue of decoded instructions keeps a list with a position.  [add] appends,
    through every doubling of the array; [getHead] and [popHead] read and step over the
    instruction at the position; [advanceTail] first skips the retirements of replayed
    instructions, then removes the oldest executed one; and the replay [moveHead2Tail]
    ends, goes back to the oldest, with copies of the executed ones in their places, and
    leaves as many retirements to skip. *)
Theorem emuq_refines {D} (clone : D -> D) q l h d : EmuQ.holds q l h d ->
  (forall x, EmuQ.holds (EmuQ.add x q) (l ++ [x]) h d) /\
  (forall x, l !! Z.to_nat h = Some x ->
    EmuQ.getHead q = x /\ EmuQ.empty q = false /\ EmuQ.holds (EmuQ.popHead q) l (h + 1) d) /\
  (0 < d -> exists q', EmuQ.advanceTail q = (true, q') /\ EmuQ.holds q' l h (d - 1)) /\
  (forall x l', l = x :: l' -> d = 0 -> 0 < h ->
    exists q', EmuQ.advanceTail q = (true, q') /\ EmuQ.holds q' l' (h - 1) 0) /\
  (exists q', EmuQ.moveHead2Tail clone q = Some q' /\
    EmuQ.holds q' ((clone <$> take (Z.to_nat h) l) ++ drop (Z.to_nat h) l) 0 (d + h)).
Proof.
  intros H. split_and!.
  - intros x. by apply EmuQ.add_holds.
  - intros x. by apply EmuQ.popHead_holds.
  - intros Hd. destruct H. unfold EmuQ.advanceTail. destruct eh_drop as [-> _].
    destruct (Z.eqb_spec d 0); [lia|]. cbn. eexists. split; [done|]. split; try done. cbn. lia.
  - intros x l' -> -> Hh. by apply EmuQ.advanceTail_holds in H.
  - by apply (EmuQ.moveHead2Tail_holds clone).
Qed.

Lemma emuq_refines_witness :
  EmuQ.holds (EmuQ.add 7%nat (EmuQ.new (fun _ => 0%nat))) [7%nat] 0 0.
Proof. apply (emuq_refines (fun x => x) _ [] 0 0 (EmuQ.new_holds _)). Defined.
