(* ===== verification/TraceFifo.v ===== *)
(** * The instruction FIFO between QEMU and the simulator

    Model of src/misc/libsuc/ThreadSafeFIFO.h and of the two threads that use it in
    src/emul/libqemuint/QEMUReader.cpp: the QEMU thread, which sends instructions with
    [queueInstruction] and [syscall], and the simulator thread, whose [executeHead] takes
    them out in batches, merges the instructions that QEMU already cracked into several,
    hands each to the slice constructor and creates the dynamic instructions.

    [head] and [tail] are volatile bytes.  A step is one access of one thread to them (or
    to the slots of the array), so that [full()], [realsize()] and [wait_until_FIFO_full()]
    take several steps and the other thread may move in between; accesses are sequentially
    consistent, which the atomic additions give on the x86 host.  A thread reads its own
    index and its local variables together with the shared access.  Writing a slot is one
    step: the order of the stores to one slot matters only when both threads are on it,
    which the theorem excludes.

    [executeHead] tests [full()] once or twice and then takes 205 items without a further
    test.  The merging takes more out of the same batch, so the code relies on the merges
    being few or on the producer keeping up; [calm] is the condition under which that is
    so, and [merge_overrun] a run in which it is not. *)

From S2P Require Import Prelude SimBase SimQueues.
Open Scope Z_scope.

(** ** Data *)

(** The predicates of the opcode of an [Instruction] that the reader looks at. *)
Record Instruction := mkInst { isMemory : bool; isFuncRet : bool; isControl : bool }.

Record RAWDInst := mkRaw { pc : Z; addr : Z; insts : list Instruction }.

(** [DInst::create(inst, rinst, address, fid)]. *)
Record DInst := mkDInst { d_inst : Instruction; d_pc : Z; d_addr : Z }.

Record ThreadSafeFIFO := mkFifo { tail : Z; head : Z; array : Z -> RAWDInst }.

Definition new : (Z -> RAWDInst) -> ThreadSafeFIFO := mkFifo 0 0.

Definition size : Z := 237.

(** The two comparisons of [full()]: [(tail+2) == head] compares ints, [nextTail] is a byte. *)
Definition full_first (f : ThreadSafeFIFO) : bool := tail f + 2 =? head f.
Definition full_second (f : ThreadSafeFIFO) : bool := uint8_t (tail f + 1) =? head f.
Definition empty (f : ThreadSafeFIFO) : bool := tail f =? head f.

Definition write_tail (x : RAWDInst) (f : ThreadSafeFIFO) : ThreadSafeFIFO :=
  mkFifo (tail f) (head f) (arr_set (array f) (tail f) x).
Definition push (f : ThreadSafeFIFO) : ThreadSafeFIFO :=
  mkFifo (uint8_t (tail f + 1)) (head f) (array f).
Definition pop (f : ThreadSafeFIFO) : ThreadSafeFIFO :=
  mkFifo (tail f) (uint8_t (head f + 1)) (array f).

(** The value of [realsize()] from its third read of [tail]; [wrapped] is the outcome of
    [head > tail]. *)
Definition realsize_value (f : ThreadSafeFIFO) (wrapped : bool) : Z :=
  uint16_t (if wrapped then 256 - (head f - tail f - 1) else tail f - head f - 1).

(** ** The QEMU thread *)

Inductive Send := Queue (r : RAWDInst) | Syscall (num : Z).

(** The item that [syscall] injects. *)
Definition syscall_inst (num : Z) : RAWDInst :=
  mkRaw 0xdeaddead num [mkInst false false false].

Definition sent (x : Send) : RAWDInst :=
  match x with Queue r => r | Syscall num => syscall_inst num end.

(** An instruction that cracks to nothing is written and not pushed. *)
Definition items (xs : list Send) : list RAWDInst :=
  filter (fun r => insts r <> []) (sent <$> xs).
Arguments items : simpl never.

(** Between two calls or before the first read of [full()]; before its second read; the
    wait is over; the slot is written. *)
Inductive PPc := PIdle | PFull2 | PReady | PWritten.

Definition pstep (f : ThreadSafeFIFO) (p : PPc) (todo : list Send)
  : ThreadSafeFIFO * PPc * list Send :=
  match todo with
  | [] => (f, p, todo)
  | x :: rest =>
      match p, x with
      | PIdle, Queue _ => (f, if full_first f then PIdle else PFull2, todo)
      | PIdle, Syscall _ => (f, PReady, todo)
      | PFull2, _ => (f, if full_second f then PIdle else PReady, todo)
      | PReady, _ => (write_tail (sent x) f, PWritten, todo)
      | PWritten, _ =>
          (match insts (sent x) with [] => f | _ :: _ => push f end, PIdle, rest)
      end
  end.

(** ** The simulator thread *)

(** The variables of the batch: [i], the slot of [rinst], [j], [first], [last_PC]; and the
    number of items merged so far, which the code does not keep. *)
Record Ctx := mkCtx {
  ci : Z; cr : Z; cj : nat; cfirst : bool; clast : Z; cmerged : Z }.

Definition ctx0 : Ctx := mkCtx 32 0 0 true 0 0.
Definition set_j (j : nat) (x : Ctx) : Ctx := mkCtx (ci x) (cr x) j (cfirst x) (clast x) (cmerged x).

(** Where [executeHead] is: the two tests of [full()], the loop over [i], the loop over [j]
    with the three reads of [realsize()], the wait, the look at the next item, the merge,
    the creation of the dynamic instruction, and the pop.  [CBad] is an instruction number
    out of range. *)
Inductive CPc :=
| CIdle | CTest1b | CYield | CTest2 | CTest2b
| CLoop (x : Ctx) | CInner (x : Ctx)
| CSize1 (x : Ctx) | CSize2 (x : Ctx) | CSize3 (x : Ctx) (wrapped : bool)
| CWait1 (x : Ctx) | CWait1b (x : Ctx) | CWaitYield (x : Ctx)
| CWait2 (x : Ctx) | CWait2b (x : Ctx) | CWaitEmpty (x : Ctx)
| CPeek (x : Ctx) | CMerge (x : Ctx) | CCreate (x : Ctx) | CPop (x : Ctx)
| CBad.

(** The state of the consumer: where it is, the items handed to the slice constructor
    ([recieveInstruction]) and the dynamic instructions added to the queue [ruffer]. *)
Record Reader := mkReader { cpc : CPc; got : list RAWDInst; out : list DInst }.

Definition at_pc (c : CPc) (s : Reader) : Reader := mkReader c (got s) (out s).

(** The test at the top of the inner loop. *)
Definition inner (f : ThreadSafeFIFO) (x : Ctx) : CPc :=
  let rinst := array f (cr x) in
  match insts rinst !! cj x with
  | None => CPop x
  | Some i =>
      if isMemory i && (addr rinst =? 0) then CInner (set_j (S (cj x)) x)
      else if (isMemory i || isFuncRet i) && negb (cfirst x) then CSize1 x
      else CCreate x
  end.

(** [rinst = rinst2] after the pop, and the adjustment of [j]. *)
Definition merge (f : ThreadSafeFIFO) (x : Ctx) : Ctx :=
  let n := length (insts (array f (uint8_t (head f + 1)))) in
  mkCtx (ci x) (uint8_t (head f + 1)) (if (n <=? cj x)%nat then (n - 1)%nat else cj x)
    (cfirst x) (clast x) (cmerged x + 1).

(** The rest of the body of the inner loop. *)
Definition create (f : ThreadSafeFIFO) (x : Ctx) (s : Reader) : Reader :=
  let rinst := array f (cr x) in
  match insts rinst !! cj x with
  | None => at_pc CBad s
  | Some i =>
      let first := if pc rinst =? clast x then cfirst x else true in
      let first := if isMemory i || isFuncRet i then false else first in
      let next j := mkCtx (ci x) (cr x) j first (pc rinst) (cmerged x) in
      let more := (isControl i && negb (Nat.eqb (cj x) (length (insts rinst) - 1)))%bool in
      if more && (addr rinst =? 0) then
        mkReader (CPop (next (cj x))) (got s)
          (out s ++ [mkDInst i (pc rinst) (uint64_t (pc rinst + 4))])
      else
        mkReader (CInner (next (S (cj x)))) (got s)
          (out s ++ [mkDInst i (pc rinst) (if more then 0 else addr rinst)])
  end.

(** One access of [executeHead]; [active] is what the sampler answers. *)
Definition cstep (active : bool) (f : ThreadSafeFIFO) (s : Reader) : ThreadSafeFIFO * Reader :=
  match cpc s with
  | CIdle => (f, at_pc (if full_first f then CLoop ctx0 else CTest1b) s)
  | CTest1b => (f, at_pc (if full_second f then CLoop ctx0 else CYield) s)
  | CYield => (f, at_pc (if active then CTest2 else CIdle) s)
  | CTest2 => (f, at_pc (if full_first f then CLoop ctx0 else CTest2b) s)
  | CTest2b => (f, at_pc (if full_second f then CLoop ctx0 else CIdle) s)
  | CLoop x =>
      if ci x <? size then
        (f, mkReader (CInner (mkCtx (ci x) (head f) 0 (cfirst x) (clast x) (cmerged x)))
              (got s ++ [array f (head f)]) (out s))
      else (f, at_pc CIdle s)
  | CInner x => (f, at_pc (inner f x) s)
  | CSize1 x => (f, at_pc (if head f =? tail f then CWait1 x else CSize2 x) s)
  | CSize2 x => (f, at_pc (CSize3 x (tail f <? head f)) s)
  | CSize3 x wrapped => (f, at_pc (if realsize_value f wrapped <? 16 then CWait1 x else CPeek x) s)
  | CWait1 x => (f, at_pc (if full_first f then CPeek x else CWait1b x) s)
  | CWait1b x => (f, at_pc (if full_second f then CPeek x else CWaitYield x) s)
  | CWaitYield x => (f, at_pc (if active then CWait2 x else CIdle) s)
  | CWait2 x => (f, at_pc (if full_first f then CPeek x else CWait2b x) s)
  | CWait2b x => (f, at_pc (if full_second f then CPeek x else CWaitEmpty x) s)
  | CWaitEmpty x => (f, at_pc (if empty f then CIdle else CPeek x) s)
  | CPeek x =>
      (f, at_pc (if pc (array f (uint8_t (head f + 1))) =? pc (array f (cr x))
                 then CMerge x else CCreate x) s)
  | CMerge x =>
      (pop f, mkReader (CCreate (merge f x)) (got s ++ [array f (uint8_t (head f + 1))]) (out s))
  | CCreate x => (f, create f x s)
  | CPop x => (pop f, at_pc (CLoop (mkCtx (ci x + 1) (cr x) (cj x) (cfirst x) (clast x) (cmerged x))) s)
  | CBad => (f, s)
  end.

(** ** The two threads *)

Record Sys := mkSys { fifo : ThreadSafeFIFO; ppc : PPc; todo : list Send; reader : Reader }.

Inductive Who := Producer | Consumer (active : bool).

Definition step (w : Who) (s : Sys) : Sys :=
  match w with
  | Producer =>
      let '(f, p, t) := pstep (fifo s) (ppc s) (todo s) in mkSys f p t (reader s)
  | Consumer active =>
      let '(f, r) := cstep active (fifo s) (reader s) in mkSys f (ppc s) (todo s) r
  end.

(** The accesses of the two threads in the order of [sched]. *)
Fixpoint exec (sched : list Who) (s : Sys) : Sys :=
  match sched with [] => s | w :: sched => exec sched (step w s) end.

Definition init (arr : Z -> RAWDInst) (xs : list Send) : Sys :=
  mkSys (new arr) PIdle xs (mkReader CIdle [] []).

(** The context of the batch, while one is under way. *)
Definition batch (c : CPc) : option Ctx :=
  match c with
  | CIdle | CTest1b | CYield | CTest2 | CTest2b | CBad => None
  | CLoop x | CInner x | CSize1 x | CSize2 x | CSize3 x _ | CWait1 x | CWait1b x | CWaitYield x
  | CWait2 x | CWait2b x | CWaitEmpty x | CPeek x | CMerge x | CCreate x | CPop x => Some x
  end.

(** What the code leaves to luck: no batch goes on after merging 34 items, and no system
    call is sent while the array has 255 items. *)
Definition calm (w : Who) (s : Sys) : bool :=
  match w with
  | Consumer _ => match batch (cpc (reader s)) with Some x => cmerged x <=? 33 | None => true end
  | Producer =>
      match ppc s, todo s with PIdle, Syscall _ :: _ => negb (full_second (fifo s)) | _, _ => true end
  end.

Fixpoint calm_run (sched : list Who) (s : Sys) : bool :=
  match sched with [] => true | w :: sched => calm w s && calm_run sched (step w s) end.

(** ** The invariant *)

(** [l] is in the array. *)
Definition holds (f : ThreadSafeFIFO) (l : list RAWDInst) : Prop :=
  0 <= head f < 256 /\ 0 <= tail f < 256 /\ Z.of_nat (length l) <= 255 /\
  tail f = (head f + Z.of_nat (length l)) mod 256 /\ ring (array f) 256 (head f) l.

(** The items still to be taken by the batch are there. *)
Definition enough (l : list RAWDInst) (x : Ctx) : Prop :=
  254 <= Z.of_nat (length l) + (ci x - 32) + cmerged x /\ 0 <= cmerged x.

(** [r], the first of the array, is handed on and not yet popped. *)
Definition in_item (f : ThreadSafeFIFO) (l popped g : list RAWDInst) (x : Ctx) (n : nat) : Prop :=
  exists r l', l = r :: l' /\ cr x = head f /\ g = popped ++ [r] /\ 32 <= ci x < size /\ enough l x /\
    (cj x + n <= length (insts r))%nat.

Definition cinv (f : ThreadSafeFIFO) (l popped g : list RAWDInst) (c : CPc) : Prop :=
  match c with
  | CIdle | CTest1b | CYield | CTest2 | CTest2b => g = popped
  | CLoop x => g = popped /\ 32 <= ci x <= size /\ enough l x
  | CInner x | CPop x => in_item f l popped g x 0
  | CSize1 x | CSize2 x | CPeek x | CMerge x | CCreate x => in_item f l popped g x 1
  | CSize3 x wrapped =>
      in_item f l popped g x 1 /\ (wrapped = true -> 256 <= head f + Z.of_nat (length l))
  | _ => False
  end.

(** [d] is made of an instruction of [r]. *)
Definition dinst_of (r : RAWDInst) (d : DInst) : Prop :=
  d_inst d ∈ insts r /\ d_pc d = pc r /\
  (d_addr d = addr r \/ d_addr d = 0 \/ d_addr d = uint64_t (pc r + 4)).

(** The dynamic instructions are those of the items, item by item. *)
Definition in_program_order (g : list RAWDInst) (o : list DInst) : Prop :=
  exists chunks, o = concat chunks /\ Forall2 (fun r ds => Forall (dinst_of r) ds) g chunks.

Record inv (xs : list Send) (s : Sys) (popped l : list RAWDInst) : Prop := {
  iv_holds : holds (fifo s) l;
  iv_all : items xs = popped ++ l ++ items (todo s);
  iv_space : ppc s = PReady \/ ppc s = PWritten -> Z.of_nat (length l) <= 254;
  iv_written x rest : ppc s = PWritten -> todo s = x :: rest -> array (fifo s) (tail (fifo s)) = sent x;
  iv_reader : cinv (fifo s) l popped (got (reader s)) (cpc (reader s));
  iv_out : in_program_order (got (reader s)) (out (reader s)) }.

(** *** The queue *)

Lemma not_full f l : holds f l -> full_second f = false -> Z.of_nat (length l) <= 254.
Proof.
  intros (H1 & H2 & H3 & H4 & _) Hf%Z.eqb_neq.
  destruct (decide (Z.of_nat (length l) = 255)) as [E|]; [|lia]. exfalso. apply Hf. rewrite H4, E. cint.
Qed.

(** When either comparison of [full()] is true, at least 254 items are there. *)
Lemma is_full f l : holds f l -> full_first f = true \/ full_second f = true ->
  254 <= Z.of_nat (length l).
Proof.
  intros (H1 & H2 & H3 & H4 & _) [Hf%Z.eqb_eq|Hf%Z.eqb_eq].
  - assert (tail f < head f) as Hlt by lia. rewrite H4 in Hf, Hlt.
    destruct (Z_lt_ge_dec (head f + Z.of_nat (length l)) 256).
    + rewrite Z.mod_small in Hlt by lia. lia.
    + replace (head f + Z.of_nat (length l)) with (head f + Z.of_nat (length l) - 256 + 1 * 256) in Hf by lia.
      rewrite Z.mod_add, Z.mod_small in Hf by lia. lia.
  - rewrite H4 in Hf. unfold uint8_t, uint in Hf. change (2 ^ 8) with 256 in Hf.
    rewrite Zplus_mod_idemp_l, <- Z.add_assoc in Hf.
    destruct (Z_lt_ge_dec (head f + (Z.of_nat (length l) + 1)) 256).
    + rewrite Z.mod_small in Hf by lia. lia.
    + replace (head f + (Z.of_nat (length l) + 1)) with (head f + (Z.of_nat (length l) + 1) - 256 + 1 * 256) in Hf by lia.
      rewrite Z.mod_add in Hf by lia.
      destruct (Z_lt_ge_dec (head f + (Z.of_nat (length l) + 1)) 512); [|lia].
      rewrite Z.mod_small in Hf by lia. lia.
Qed.

Lemma holds_head f r l : holds f (r :: l) -> array f (head f) = r.
Proof. intros (H1 & _ & _ & _ & HR). by apply (ring_head _ 256 _ _ l). Qed.

Lemma holds_next f r r2 l : holds f (r :: r2 :: l) -> array f (uint8_t (head f + 1)) = r2.
Proof.
  intros (H1 & _ & _ & _ & HR). apply (ring_pop _ 256) in HR; [|lia].
  apply (ring_head _ 256 _ _ l); [cint|done].
Qed.

Lemma holds_write f l x : holds f l -> Z.of_nat (length l) <= 254 -> holds (write_tail x f) l.
Proof.
  intros (H1 & H2 & H3 & H4 & HR) Hl. split_and!; cbn; try lia. intros i y Hi. unfold arr_set.
  pose proof (lookup_lt_Some _ _ _ Hi).
  destruct (Z.eqb_spec (tail f) ((head f + Z.of_nat i) mod 256)) as [E|]; [|by apply HR].
  rewrite H4 in E. apply ring_index_inj in E; lia.
Qed.

Lemma holds_push f l : holds f l -> Z.of_nat (length l) <= 254 ->
  holds (push f) (l ++ [array f (tail f)]).
Proof.
  intros (H1 & H2 & H3 & H4 & HR) Hl. split_and!; cbn; try lia; try cint.
  - rewrite length_app. cbn. lia.
  - rewrite H4, length_app. cbn [length]. unfold uint8_t, uint. change (2 ^ 8) with 256.
    rewrite Zplus_mod_idemp_l. f_equal. lia.
  - intros i z [Hi|[Hge Hi]]%lookup_app_Some; [by apply HR|].
    apply list_lookup_singleton_Some in Hi as [Hi <-].
    replace i with (length l) by lia. by rewrite <- H4.
Qed.

Lemma holds_pop f r l : holds f (r :: l) -> holds (pop f) l.
Proof.
  intros (H1 & H2 & H3 & H4 & HR). cbn [length] in *. split_and!; cbn; try lia; try cint.
  change (uint8_t (head f + 1)) with ((head f + 1) mod 256). by apply (ring_pop _ 256 _ r).
Qed.

(** Between its reads [realsize()] can only be too large. *)
Lemma realsize_large f l wrapped : holds f l -> 17 <= Z.of_nat (length l) ->
  (wrapped = true -> 256 <= head f + Z.of_nat (length l)) -> 16 <= realsize_value f wrapped.
Proof.
  intros (H1 & H2 & H3 & H4 & _) Hl Hw. unfold realsize_value.
  destruct (Z_lt_ge_dec (head f + Z.of_nat (length l)) 256).
  - rewrite Z.mod_small in H4 by lia. destruct wrapped; [by specialize (Hw eq_refl); lia|]. cint.
  - replace (head f + Z.of_nat (length l)) with (head f + Z.of_nat (length l) - 256 + 1 * 256) in H4 by lia.
    rewrite Z.mod_add, Z.mod_small in H4 by lia. destruct wrapped; cint.
Qed.

Lemma not_head_tail f l : holds f l -> l <> [] -> (head f =? tail f) = false.
Proof.
  intros (H1 & H2 & H3 & H4 & _) Hl. apply Z.eqb_neq. intros E.
  assert (0 < Z.of_nat (length l)) by (destruct l; [done|cbn; lia]).
  rewrite <- E in H4. rewrite <- (Z.mod_small (head f) 256) in H4 at 1 by lia.
  rewrite <- (Z.add_0_r (head f)) in H4 at 1. apply ring_index_inj in H4; lia.
Qed.

(** *** The steps *)

Lemma enough_push l x y : enough l x -> enough (l ++ [y]) x.
Proof. intros [H1 H2]. split; [|done]. rewrite length_app. cbn. lia. Qed.

Lemma in_item_push f f' l popped g x n y : head f' = head f -> in_item f l popped g x n ->
  in_item f' (l ++ [y]) popped g x n.
Proof.
  intros Eh (r & l' & -> & E1 & E2 & E3 & E4 & E6). exists r, (l' ++ [y]).
  split_and!; try done; try lia. by apply enough_push.
Qed.

Lemma cinv_push f f' l popped g c y : head f' = head f -> cinv f l popped g c ->
  cinv f' (l ++ [y]) popped g c.
Proof.
  intros Eh. destruct c; cbn; try done; try by apply in_item_push.
  - intros (H1 & H2 & H3). split_and!; try done; try lia. by apply enough_push.
  - intros [H1 H2]. split; [by apply (in_item_push f)|]. intros Hw. rewrite length_app, Eh. cbn.
    specialize (H2 Hw). lia.
Qed.

Lemma items_cons x xs : items (x :: xs) =
  match insts (sent x) with [] => items xs | _ :: _ => sent x :: items xs end.
Proof. unfold items. rewrite fmap_cons, filter_cons. by destruct (insts (sent x)); case_decide. Qed.

Lemma producer_inv xs s popped l : inv xs s popped l -> calm Producer s = true ->
  exists l', inv xs (step Producer s) popped l'.
Proof.
  destruct s as [f p t r]. intros [Hh Hall Hs Hw Hr Ho] Hcalm. cbn in *.
  destruct t as [|x t]; [by exists l; split|]. destruct p; cbn in *.
  - destruct x as [x|num]; cbn in *.
    + exists l. destruct (full_first f); split; cbn; try done; intros [|]; done.
    + exists l. split; cbn; try done. intros _. by apply (not_full f l Hh), negb_true_iff.
  - exists l. destruct (full_second f) eqn:E; split; cbn; try done; [by intros [|]|].
    intros _. by apply (not_full f).
  - exists l. specialize (Hs ltac:(by left)). split; cbn; try done.
    + by apply holds_write.
    + intros y rest _ [= <- <-]. unfold arr_set. by rewrite Z.eqb_refl.
  - specialize (Hs ltac:(by right)). specialize (Hw x t eq_refl eq_refl). rewrite items_cons in Hall.
    destruct (insts (sent x)) eqn:Ei.
    + exists l. by split; cbn; try done; intros [|].
    + exists (l ++ [sent x]). split; cbn; try done.
      * rewrite <- Hw. by apply holds_push.
      * rewrite Hall. by rewrite <- app_assoc.
      * by intros [|].
      * by apply (cinv_push f).
Qed.

Lemma order_receive g o r : in_program_order g o -> in_program_order (g ++ [r]) o.
Proof.
  intros (ch & -> & HF). exists (ch ++ [[]]). split; [by rewrite concat_app, app_nil_r|].
  apply Forall2_app; [done|]. by repeat constructor.
Qed.

Lemma order_create g o r d : in_program_order (g ++ [r]) o -> dinst_of r d ->
  in_program_order (g ++ [r]) (o ++ [d]).
Proof.
  intros (ch & -> & HF) Hd. apply Forall2_app_inv_l in HF as (ch1 & ch2 & H1 & H2 & ->).
  apply Forall2_cons_inv_l in H2 as (ds & ch3 & H3 & H4 & ->). apply Forall2_nil_inv_l in H4 as ->.
  exists (ch1 ++ [ds ++ [d]]). split.
  - rewrite !concat_app. cbn. by rewrite !app_nil_r, app_assoc.
  - apply Forall2_app; [done|]. constructor; [|done]. apply Forall_app. split; [done|by apply Forall_singleton].
Qed.

Lemma items_nonempty xs r : r ∈ items xs -> insts r <> [].
Proof. by intros [? _]%list_elem_of_filter. Qed.

Lemma inv_nonempty xs s popped l r : inv xs s popped l -> r ∈ l -> insts r <> [].
Proof.
  intros HI Hr. apply (items_nonempty xs). rewrite (iv_all _ _ _ _ HI), !elem_of_app. tauto.
Qed.

(** The consumer moves without popping. *)
Lemma reader_move xs f p t r r' popped l : inv xs (mkSys f p t r) popped l ->
  cinv f l popped (got r') (cpc r') -> in_program_order (got r') (out r') ->
  inv xs (mkSys f p t r') popped l.
Proof. by intros []; split. Qed.

Lemma reader_pop xs f p t r r' popped l x : inv xs (mkSys f p t r) popped (x :: l) ->
  cinv (pop f) l (popped ++ [x]) (got r') (cpc r') -> in_program_order (got r') (out r') ->
  inv xs (mkSys (pop f) p t r') (popped ++ [x]) l.
Proof.
  intros [H1 H2 H3 H4 H5 H6] Hc Ho. split; cbn in *; try done.
  - by apply holds_pop in H1.
  - by rewrite <- app_assoc.
  - intros Hp. specialize (H3 Hp). lia.
Qed.

(** In a calm batch at least 17 items are left. *)
Lemma enough_left l x : enough l x -> ci x < size -> cmerged x <= 33 -> 17 <= Z.of_nat (length l).
Proof. unfold enough, size. lia. Qed.

Lemma cinv_inner f l popped g x : holds f l -> in_item f l popped g x 0 ->
  cinv f l popped g (inner f x).
Proof.
  intros Hh (r & l' & -> & E1 & E2 & E3 & E4 & E5). unfold inner. rewrite E1, (holds_head _ _ _ Hh).
  destruct (insts r !! cj x) as [i|] eqn:Ei.
  - pose proof (lookup_lt_Some _ _ _ Ei).
    assert (in_item f (r :: l') popped g x 1) by (exists r, l'; split_and!; try done; lia).
    destruct (isMemory i && _); [|by destruct ((isMemory i || _) && _)].
    exists r, l'. split_and!; try done; cbn; lia.
  - exists r, l'. split_and!; try done; lia.
Qed.

Lemma in_item_mono f l popped g x : in_item f l popped g x 1 -> in_item f l popped g x 0.
Proof. intros (r & l' & H). exists r, l'. destruct H as (? & ? & ? & ? & ? & ?). split_and!; try done; lia. Qed.

Lemma create_inv f l popped s x : holds f l -> cpc s = CCreate x -> in_item f l popped (got s) x 1 ->
  in_program_order (got s) (out s) ->
  cinv f l popped (got (create f x s)) (cpc (create f x s)) /\
  in_program_order (got (create f x s)) (out (create f x s)).
Proof.
  intros Hh Ec (r & l' & -> & E1 & E2 & E3 & E4 & E5) Ho. unfold create.
  rewrite E1, (holds_head _ _ _ Hh). destruct (lookup_lt_is_Some_2 (insts r) (cj x)) as [i Ei]; [lia|].
  rewrite Ei. pose proof (list_elem_of_lookup_2 _ _ _ Ei) as Hin.
  destruct (isControl i && _); cbn [andb]; [destruct (addr r =? 0)|]; cbn.
  all: split; [exists r, l'; split_and!; try done; cbn; try done; lia|].
  all: rewrite E2 in *; apply order_create; [done|]; split_and!; try done; cbn; tauto.
Qed.

Lemma merge_inv xs f p t s popped l x : inv xs (mkSys f p t s) popped l -> cpc s = CMerge x ->
  cmerged x <= 33 -> exists popped' l',
  inv xs (mkSys (pop f) p t (mkReader (CCreate (merge f x)) (got s ++ [array f (uint8_t (head f + 1))]) (out s)))
    popped' l'.
Proof.
  intros HI Ec Hm. pose proof (iv_reader _ _ _ _ HI) as Hc. cbn in Hc. rewrite Ec in Hc.
  destruct Hc as (r & l' & -> & E1 & E2 & E3 & E4 & E5).
  pose proof (enough_left _ _ E4 ltac:(lia) Hm) as Hl. cbn in Hl. destruct l' as [|r2 l']; [cbn in Hl; lia|].
  pose proof (holds_next _ _ _ _ (iv_holds _ _ _ _ HI)) as Hn. cbn in Hn.
  assert (insts r2 <> []) as Hne by (apply (inv_nonempty _ _ _ _ r2 HI); right; left).
  exists (popped ++ [r]), (r2 :: l'). eapply reader_pop; [done| |]; cbn.
  - exists r2, l'. unfold merge. rewrite Hn. cbn. split; [done|]. split; [done|]. split; [by rewrite E2|]. split; [done|]. split.
    + destruct E4 as [E4 E4']. cbn in E4. split; cbn; lia.
    + assert (0 < length (insts r2))%nat by (destruct (insts r2); [done|cbn; lia]).
      destruct (Nat.leb_spec (length (insts r2)) (cj x)); lia.
  - apply order_receive. apply (iv_out _ _ _ _ HI).
Qed.

Lemma consumer_inv a xs s popped l : inv xs s popped l -> calm (Consumer a) s = true ->
  exists popped' l', inv xs (step (Consumer a) s) popped' l'.
Proof.
  intros HI Hcalm. pose proof (iv_holds _ _ _ _ HI) as Hh. pose proof (iv_reader _ _ _ _ HI) as Hc.
  pose proof (iv_out _ _ _ _ HI) as Ho.
  destruct s as [f p t s]. unfold calm in Hcalm. cbn [reader fifo] in *. unfold step, cstep. cbn [reader fifo].
  assert (forall g : bool, (g = true -> 254 <= Z.of_nat (length l)) -> forall c, got s = popped -> cinv f l popped (got s) c ->
    cinv f l popped (got s) (if g then CLoop ctx0 else c)) as Htest.
  { intros [] Hg c Hp Hcc; [|done]. split; [done|]. split; [unfold size; cbn; lia|]. split; cbn; [|lia].
    specialize (Hg eq_refl). lia. }
  assert (full_first f = true -> 254 <= Z.of_nat (length l)) as Hf1 by (intros; apply (is_full f); auto).
  assert (full_second f = true -> 254 <= Z.of_nat (length l)) as Hf2 by (intros; apply (is_full f); auto).
  destruct (cpc s) as [| | | | |x|x|x|x|x w|x|x|x|x|x|x|x|x|x|x|] eqn:Ec; cbn [cinv batch] in *; try done.
  1, 2, 4, 5: exists popped, l; eapply reader_move; [done| |done]; cbn; by apply Htest.
  - exists popped, l. eapply reader_move; [done| |done]. cbn. by destruct a.
  - destruct Hc as (Hg & Hi & He). apply Z.leb_le in Hcalm. exists popped, l.
    destruct (Z.ltb_spec (ci x) size) as [Hlt|Hge]; eapply reader_move; try done; cbn.
    + pose proof (enough_left _ _ He Hlt Hcalm). destruct l as [|r l]; [cbn in *; lia|].
      rewrite (holds_head _ _ _ Hh). exists r, l. rewrite Hg. split_and!; try done; cbn; lia.
    + by apply order_receive.
  - exists popped, l. eapply reader_move; [done| |done]. by apply cinv_inner.
  - exists popped, l. eapply reader_move; [done| |done]. cbn. pose proof Hc as (r & l' & -> & _).
    by rewrite (not_head_tail _ _ Hh).
  - exists popped, l. eapply reader_move; [done| |done]. cbn. split; [done|].
    intros Hw%Z.ltb_lt. destruct Hh as (H1 & H2 & H3 & H4 & _).
    destruct (Z_lt_ge_dec (head f + Z.of_nat (length l)) 256); [|lia]. rewrite Z.mod_small in H4; lia.
  - exists popped, l. eapply reader_move; [done| |done]. cbn. destruct Hc as [Hc Hw].
    apply Z.leb_le in Hcalm. pose proof Hc as (r & l' & _ & _ & _ & Hi & He & _).
    pose proof (realsize_large f l w Hh (enough_left _ _ He ltac:(lia) Hcalm) Hw).
    destruct (Z.ltb_spec (realsize_value f w) 16); [lia|done].
  - exists popped, l. eapply reader_move; [done| |done]. cbn. by destruct (_ =? _).
  - apply Z.leb_le in Hcalm. by apply (merge_inv xs f p t s popped l x).
  - exists popped, l. destruct (create_inv f l popped s x Hh Ec Hc Ho) as [H1 H2]. by eapply reader_move.
  - destruct Hc as (r & l' & -> & E1 & E2 & E3 & [E4 E4'] & E5). exists (popped ++ [r]), l'.
    eapply reader_pop; [done| |done]. cbn in *. split_and!; try done; cbn; try lia. split; cbn; lia.
Qed.

Lemma step_inv w xs s popped l : inv xs s popped l -> calm w s = true ->
  exists popped' l', inv xs (step w s) popped' l'.
Proof.
  destruct w as [|a]; intros HI Hc; [|by eapply consumer_inv].
  exists popped. by eapply producer_inv.
Qed.

Lemma exec_inv xs sched : forall s popped l, inv xs s popped l -> calm_run sched s = true ->
  exists popped' l', inv xs (exec sched s) popped' l'.
Proof.
  induction sched as [|w sched IH]; intros s popped l HI Hc; cbn in *; [by eexists _, _|].
  apply andb_true_iff in Hc as [H1 H2]. destruct (step_inv w xs s popped l HI H1) as (p' & l' & HI').
  by eapply IH.
Qed.

Lemma init_inv arr xs : inv xs (init arr xs) [] [].
Proof.
  split; cbn; try done. exists []. by split; [|constructor].
Qed.

(** At most the first item of the array is handed on and not popped. *)
Lemma cinv_got f l popped g c : cinv f l popped g c ->
  g = popped \/ exists r l', l = r :: l' /\ g = popped ++ [r].
Proof.
  assert (forall x n, in_item f l popped g x n -> exists r l', l = r :: l' /\ g = popped ++ [r]) as H
    by (intros x n (r & l' & ? & _ & ? & _); by exists r, l').
  destruct c; cbn; try done; intros Hc; (by left) || (by left; apply Hc) || (right; by eapply H) ||
    (right; by eapply H, (proj1 Hc)).
Qed.

(** ** A batch ends *)

Section BatchEnds.
  Context (B : Z).

(** What is left of a batch when no item has more than [B] instructions: the iterations of
    the outer loop, the merges, the iterations of the inner loop, the steps of one. *)
Definition rank (c : CPc) : Z :=
  match c with
  | CInner _ => 7 | CSize1 _ => 6 | CSize2 _ => 5 | CSize3 _ _ => 4
  | CPeek _ => 3 | CMerge _ => 2 | CCreate _ => 1 | _ => 0
  end.

Definition inner_left (c : CPc) (x : Ctx) : Z :=
  8 * (match c with CLoop _ => B + 1 | _ => B - Z.of_nat (cj x) end) + rank c.

Definition batch_left (c : CPc) : Z :=
  match batch c with
  | None => 0
  | Some x => ((size - ci x) * 64 + (64 - cmerged x)) * (8 * (B + 2)) + inner_left c x
  end.

(** The number of items the batch has handed on. *)
Definition received (c : CPc) : Z :=
  match batch c with
  | None => 0
  | Some x => ci x - 32 + cmerged x + match c with CLoop _ => 0 | _ => 1 end
  end.

Context (HB : 0 <= B) (xs : list Send)
  (Hitems : Forall (fun r => Z.of_nat (length (insts r)) <= B) (items xs)).

Lemma item_bound s popped l r : inv xs s popped l -> r ∈ l -> Z.of_nat (length (insts r)) <= B.
Proof.
  intros HI Hr. rewrite Forall_forall in Hitems. apply Hitems.
  rewrite (iv_all _ _ _ _ HI), !elem_of_app. tauto.
Qed.

Lemma batch_ctx s popped l x : inv xs s popped l -> batch (cpc (reader s)) = Some x ->
  32 <= ci x <= size /\ 0 <= cmerged x /\ 0 <= inner_left (cpc (reader s)) x < 8 * (B + 2).
Proof.
  intros HI Hb. pose proof (iv_reader _ _ _ _ HI) as Hc.
  assert (forall n, in_item (fifo s) l popped (got (reader s)) x n ->
    32 <= ci x <= size /\ 0 <= cmerged x /\ Z.of_nat (cj x) <= B) as Hitem.
  { intros n (r & l' & -> & _ & _ & E3 & [_ E4] & E5).
    pose proof (item_bound _ _ _ r HI ltac:(left)). split_and!; lia. }
  destruct (cpc (reader s)); cbn in Hb; try done; injection Hb as ->; cbn in Hc; try done.
  1: destruct Hc as (_ & ? & _ & ?); unfold inner_left; split_and!; cbn; lia.
  all: first [destruct (Hitem _ Hc) as (? & ? & ?)|destruct (Hitem _ (proj1 Hc)) as (? & ? & ?)];
    unfold inner_left; split_and!; cbn; lia.
Qed.

Ltac ctx_same := eexists; split; [done|]; split; [left; unfold inner_left; split_and!; cbn; lia|done].

(** How one step of the consumer changes the context. *)
Lemma ctx_step a s popped l x : inv xs s popped l -> calm (Consumer a) s = true ->
  batch (cpc (reader s)) = Some x ->
  let r := reader s in let r' := reader (step (Consumer a) s) in
  (cpc r' = CIdle /\ got r' = got r /\ 205 <= received (cpc r)) \/
  exists x', batch (cpc r') = Some x' /\
    (ci x' = ci x /\ cmerged x' = cmerged x /\ inner_left (cpc r') x' < inner_left (cpc r) x \/
     ci x' = ci x /\ cmerged x' = cmerged x + 1 \/
     ci x' = ci x + 1 /\ cmerged x' = cmerged x) /\
    Z.of_nat (length (got r')) - received (cpc r') = Z.of_nat (length (got r)) - received (cpc r).
Proof.
  intros HI Hcalm Hb. destruct (consumer_inv a xs s popped l HI Hcalm) as (popped' & l2 & HI').
  pose proof (iv_reader _ _ _ _ HI) as Hc. pose proof (iv_reader _ _ _ _ HI') as Hc'. clear HI HI'.
  destruct s as [f p t s]. cbn [reader fifo] in *. unfold step, cstep in Hc' |- *. cbn [reader fifo] in *.
  destruct (cpc s) eqn:Ec; cbn in Hb; try done; injection Hb as ->; cbn in Hc; try done.
  - destruct (Z.ltb_spec (ci x) size) as [Hlt|Hge]; cbn; [right|left].
    + eexists. split; [done|]. split; [left; unfold inner_left; split_and!; cbn; lia|].
      unfold received. rewrite length_app. cbn. lia.
    + split_and!; try done. unfold received, size in *. cbn. destruct Hc as (_ & _ & _ & ?). lia.
  - right. cbn. unfold inner in *. destruct (insts _ !! cj x); [|ctx_same].
    destruct (isMemory i && _).
    + ctx_same.
    + destruct ((isMemory i || _) && _); ctx_same.
  - right. cbn in *. destruct (head f =? tail f); [done|]. ctx_same.
  - right. ctx_same.
  - right. cbn in *. destruct (realsize_value f wrapped <? 16); [done|]. ctx_same.
  - right. cbn in *. destruct (_ =? _); ctx_same.
  - right. eexists. split; [done|]. split; [by right; left|]. cbn. unfold received. cbn.
    rewrite length_app. cbn. lia.
  - right. cbn in *. unfold create in *. destruct (insts _ !! cj x) as [i|]; [|done]. cbn in *.
    destruct (_ && (addr _ =? 0)); cbn; ctx_same.
  - right. eexists. split; [done|]. split; [by right; right|]. unfold received. cbn. lia.
Qed.

Lemma batch_left_step s popped l x s' popped' l' x' : inv xs s popped l -> inv xs s' popped' l' ->
  batch (cpc (reader s)) = Some x -> batch (cpc (reader s')) = Some x' -> cmerged x' <= 34 ->
  (ci x' = ci x /\ cmerged x' = cmerged x /\
     inner_left (cpc (reader s')) x' < inner_left (cpc (reader s)) x \/
   ci x' = ci x /\ cmerged x' = cmerged x + 1 \/
   ci x' = ci x + 1 /\ cmerged x' = cmerged x) ->
  0 <= batch_left (cpc (reader s')) < batch_left (cpc (reader s)).
Proof.
  intros HI HI' Hb Hb' Hm H. destruct (batch_ctx _ _ _ _ HI Hb) as (H1 & H2 & H3).
  destruct (batch_ctx _ _ _ _ HI' Hb') as (J1 & J2 & J3). unfold batch_left. rewrite Hb, Hb'.
  set (t := inner_left _ x) in *. set (t' := inner_left _ x') in *. clearbody t t'.
  split; [nia|]. destruct H as [(-> & -> & H)|[[-> ->]|[-> ->]]]; nia.
Qed.

End BatchEnds.

Definition is_consumer (w : Who) : bool := match w with Consumer _ => true | Producer => false end.
Definition consumer_steps (sched : list Who) : Z := Z.of_nat (length (List.filter is_consumer sched)).

Lemma producer_reader s : reader (step Producer s) = reader s.
Proof. cbn. by destruct (pstep (fifo s) (ppc s) (todo s)) as [[f p] t]. Qed.

(** With enough steps of the consumer among those of the schedule, the batch ends. *)
Lemma batch_ends B xs sched : 0 <= B -> Forall (fun r => Z.of_nat (length (insts r)) <= B) (items xs) ->
  forall s popped l x, inv xs s popped l -> calm_run sched s = true ->
  batch (cpc (reader s)) = Some x -> batch_left B (cpc (reader s)) < consumer_steps sched ->
  0 <= batch_left B (cpc (reader s)) ->
  exists pre post, sched = pre ++ post /\ cpc (reader (exec pre s)) = CIdle /\
    Z.of_nat (length (got (reader s))) + 205 - received (cpc (reader s))
      <= Z.of_nat (length (got (reader (exec pre s)))).
Proof.
  intros HB Hit. induction sched as [|w sched IH]; intros s popped l x HI Hcalm Hb Hleft H0.
  { unfold consumer_steps in Hleft. cbn in Hleft. lia. }
  cbn [calm_run] in Hcalm. apply andb_true_iff in Hcalm as [Hw Hcalm].
  destruct (step_inv w xs s popped l HI Hw) as (popped' & l' & HI').
  destruct w as [|a].
  - destruct (IH _ _ _ x HI' Hcalm) as (pre & post & -> & E1 & E2); try (by rewrite producer_reader).
    exists (Producer :: pre), post. split; [done|]. cbn [exec]. rewrite producer_reader in E2. done.
  - destruct (ctx_step B xs a s popped l x HI Hw Hb) as [(E1 & E2 & E3)|(x' & Hb' & Hx & Hg)].
    + exists [Consumer a], sched. cbn [exec]. split; [done|]. split; [done|]. rewrite E2. lia.
    + assert (cmerged x' <= 34) as Hm.
      { unfold calm in Hw. rewrite Hb in Hw. apply Z.leb_le in Hw. lia. }
      pose proof (batch_left_step B HB xs Hit _ _ _ _ _ _ _ _ HI HI' Hb Hb' Hm Hx).
      unfold consumer_steps in Hleft. cbn [List.filter is_consumer length] in Hleft.
      destruct (IH _ _ _ x' HI' Hcalm Hb') as (pre & post & -> & E1 & E2);
        [unfold consumer_steps; lia|lia|].
      exists (Consumer a :: pre), post. split; [done|]. cbn [exec]. split; [done|]. lia.
Qed.

(** ** Properties *)

(** C18: Between [queueInstruction] and [executeHead], in every interleaving of the accesses
    of the QEMU thread and of the simulator thread in which no batch goes on after merging
    34 items and no system call is sent while the array has 255 items ([calm]): the items
    handed to the slice constructor are those sent, in order, without loss or repetition,
    those that crack to nothing apart; what was sent and not yet handed on is in the array,
    at most 255 items; the dynamic instructions are created from these items, item by item;
    no instruction number is out of range; and a batch that has started ends, having handed
    on at least 205 items, within a number of accesses of the consumer given by the largest
    number [B] of instructions of an item.  A producer that finds the FIFO full does not
    wait for ever: an idle consumer then finds it full too and starts a batch.  Items
    behind the last full array stay in it, as [executeHead] waits for a full one.  The
    limits: a push at 255 items makes the array look empty, and [realsize] is one less than
    the number of items when they do not wrap around the array and one more when they do.
    Accesses are sequentially consistent. *)
Theorem fifo_in_order :
  (forall arr xs sched, calm_run sched (init arr xs) = true ->
    let s := exec sched (init arr xs) in
    (exists popped l, items xs = popped ++ l ++ items (todo s) /\ holds (fifo s) l /\
      (got (reader s) = popped \/ exists r l', l = r :: l' /\ got (reader s) = popped ++ [r])) /\
    in_program_order (got (reader s)) (out (reader s)) /\ cpc (reader s) <> CBad /\
    forall B more, 0 <= B -> Forall (fun r => Z.of_nat (length (insts r)) <= B) (items xs) ->
      cpc (reader s) = CLoop ctx0 -> calm_run more s = true ->
      13184 * (8 * (B + 2)) + 8 * (B + 1) < consumer_steps more ->
      exists pre post, more = pre ++ post /\ cpc (reader (exec pre s)) = CIdle /\
        (length (got (reader s)) + 205 <= length (got (reader (exec pre s))))%nat) /\
  (forall s a b, full_first (fifo s) = true \/ full_second (fifo s) = true -> cpc (reader s) = CIdle ->
    is_Some (batch (cpc (reader (exec [Consumer a; Consumer b] s))))) /\
  (forall f l, holds f l ->
    (length l = 255%nat -> forall x, empty (push (write_tail x f)) = true) /\
    (l <> [] -> realsize_value f (tail f <? head f) =
      Z.of_nat (length l) + if tail f <? head f then 1 else -1)).
Proof.
  split_and!.
  - intros arr xs sched Hcalm s.
    destruct (exec_inv xs sched _ _ _ (init_inv arr xs) Hcalm) as (popped & l & HI). fold s in HI.
    pose proof (iv_reader _ _ _ _ HI) as Hc. split_and!.
    + exists popped, l. split; [apply HI|]. split; [apply HI|]. by apply (cinv_got (fifo s) l _ _ (cpc (reader s))).
    + apply HI.
    + intros E. by rewrite E in Hc.
    + intros B more HB Hit Ec Hcalm2 Hleft.
      destruct (batch_ends B xs more HB Hit s popped l ctx0 HI Hcalm2) as (pre & post & E1 & E2 & E3);
        rewrite ?Ec in *; try done; try (unfold batch_left, inner_left, size; cbn; lia).
      exists pre, post. split; [done|]. split; [done|]. unfold received in E3. cbn in E3. lia.
  - intros s a b Hf Ec. cbn [exec]. unfold step, cstep. rewrite Ec. cbn.
    destruct (full_first (fifo s)); cbn; [by eexists|]. destruct Hf as [|Hf]; [done|]. rewrite Hf. by eexists.
  - intros f l (H1 & H2 & H3 & H4 & _). split.
    + intros El x. unfold empty. cbn. apply Z.eqb_eq. rewrite H4, El. cint.
    + intros Hl. assert (0 < Z.of_nat (length l)) by (destruct l; [done|cbn; lia]).
      unfold realsize_value. destruct (Z.ltb_spec (tail f) (head f)); cint.
Qed.

(** ** Runs *)

(** An item of one instruction that is no memory access, and a load. *)
Definition plain (n : nat) : RAWDInst := mkRaw (Z.of_nat n * 4 + 4096) 0 [mkInst false false false].
Definition load (n : nat) : RAWDInst := mkRaw 8192 (Z.of_nat n * 4 + 65536) [mkInst true false false].
Definition stale (_ : Z) : RAWDInst := mkRaw 0 0 [mkInst false false false].

(** The producer until the array is full, then the consumer until its batch is over. *)
Definition fill_then_read (n : nat) : list Who :=
  replicate 1020 Producer ++ replicate n (Consumer true).

(** The same with an inactive sampler. *)
Definition fill_then_give_up (n : nat) : list Who :=
  replicate 1020 Producer ++ replicate n (Consumer false).

Definition plain_items : list Send := Queue <$> (plain <$> seq 0 300).
Definition load_items : list Send := Queue <$> (load <$> seq 0 300).

Lemma plain_calm : calm_run (fill_then_read 1100) (init stale plain_items) = true.
Proof. vm_compute. reflexivity. Qed.

Lemma plain_got : got (reader (exec (fill_then_read 1100) (init stale plain_items))) = plain <$> seq 0 205.
Proof. vm_compute. reflexivity. Qed.

Lemma fifo_in_order_witness :
  (exists popped l, items plain_items = popped ++ l ++ items (todo (exec (fill_then_read 1100) (init stale plain_items))) /\
    holds (fifo (exec (fill_then_read 1100) (init stale plain_items))) l) /\
  (exists x, batch (cpc (reader (exec [Consumer true; Consumer true] (mkSys (mkFifo 3 4 stale) PIdle [] (mkReader CIdle [] []))))) = Some x) /\
  realsize_value (mkFifo 3 4 stale) true = 256.
Proof.
  destruct fifo_in_order as (H1 & H2 & H3). split_and!.
  - destruct (H1 stale plain_items (fill_then_read 1100) plain_calm) as [(popped & l & E1 & E2 & _) _].
    exists popped, l. split; [exact E1|exact E2].
  - apply (H2 (mkSys (mkFifo 3 4 stale) PIdle [] (mkReader CIdle [] [])) true true); [right|]; reflexivity.
  - assert (holds (mkFifo 3 4 stale) (replicate 255 (stale 0))) as Hf.
    { split_and!; try (cbn; lia); [reflexivity|]. intros i x [-> _]%lookup_replicate. reflexivity. }
    exact (proj2 (H3 _ _ Hf) ltac:(discriminate)).
Defined.

(** The condition on merges is needed: loads with one program counter merge in pairs, and
    a batch takes more items than a full array has when the producer is slow.  Item 255 handed on
    is what the slot held before, not an item that was sent. *)
Example merge_overrun :
  let s := exec (fill_then_read 3000) (init stale load_items) in
  got (reader s) !! 254%nat = Some (load 254) /\ got (reader s) !! 255%nat = Some (stale 0).
Proof. vm_compute. split; reflexivity. Qed.

(** When the merging runs low while the sampler is inactive, [executeHead] returns in the
    middle of an item, and the next batch hands the same item on again. *)
Example merge_repeats :
  let xs := Queue <$> (load <$> seq 0 600) in
  let s := exec (fill_then_give_up 1600 ++ fill_then_give_up 30) (init stale xs) in
  got (reader s) !! 239%nat = Some (load 239) /\ got (reader s) !! 240%nat = Some (load 239).
Proof. vm_compute. split; reflexivity. Qed.
