(* ===== verification/Pipeline.v ===== *)
(** * The front-end pipeline of the processors

    Model of src/simu/libcore/Pipeline.h and Pipeline.cpp: the pipeline between fetch and
    rename.  Fetch takes a bucket from a pool ([newItem]) and fills it; the instruction
    cache reports buckets in any order ([readyItem]); the pipeline puts them back in order,
    with a priority queue for the early ones, delays them by its length and hands them on
    ([nextItem]); an executed bucket returns to the pool ([doneItem]).

    The buckets are numbered and [bucket] is their memory.  The ring buffer is the
    [FastQueue] of SimQueues, and the priority queue is used through the interface
    [HeapFront] of EventQueue, with the sequence number as the key.  [globalClock] is an
    argument.  The instructions of a bucket are a list.  The fusion statistics are compiled
    out.  No code fills the pool of clean buckets' markers into the pipeline ([cleanMark]
    is declared and not defined), but [nextItem] still recycles them. *)

From S2P Require Import Prelude SimBase EventQueue SimQueues.
Open Scope Z_scope.

(** [same_ids p]: the numbers of the buckets of the state at hand are those of [p]. *)
Ltac same_ids idOf p :=
  repeat match goal with
  | |- context [idOf ?x] => lazymatch x with p => fail | _ => progress change (idOf x) with (idOf p) end
  end.

Section Pipeline.
  Context {HF : HeapFront} {D : Type}.

Record IBucket := mkBucket { cleanItem : bool; pipeId : Z; clock : Z; insts : list D }.

Record Pipeline := mkPipe {
  PipeLength : Z;
  MaxIRequests : Z;
  nIRequests : Z;
  buffer : FastQueue nat;
  bucketPool : list nat;
  cleanBucketPool : list nat;
  received : list nat;
  maxItemCntr : Z;
  minItemCntr : Z;
  bucket : nat -> IBucket }.

Definition upd_bucket (b : nat) (f : IBucket -> IBucket) (m : nat -> IBucket) : nat -> IBucket :=
  fun x => if Nat.eqb b x then f (m x) else m x.

Definition setPipelineId (i : Z) (b : IBucket) : IBucket := mkBucket (cleanItem b) i (clock b) (insts b).
Definition setClock (globalClock : Z) (b : IBucket) : IBucket :=
  mkBucket (cleanItem b) (pipeId b) globalClock (insts b).
Definition set_insts (l : list D) (b : IBucket) : IBucket :=
  mkBucket (cleanItem b) (pipeId b) (clock b) l.

Definition bucket_empty (p : Pipeline) (b : nat) : bool :=
  match insts (bucket p b) with [] => true | _ => false end.
Definition idOf (p : Pipeline) (b : nat) : Z := pipeId (bucket p b).

Definition newItem (p : Pipeline) : option nat * Pipeline :=
  if (nIRequests p =? 0) then (None, p)
  else
    match last (bucketPool p) with
    | None => (None, p)
    | Some b =>
        (Some b, mkPipe (PipeLength p) (MaxIRequests p) (nIRequests p - 1) (buffer p)
          (removelast (bucketPool p)) (cleanBucketPool p) (received p) (maxItemCntr p + 1)
          (minItemCntr p) (upd_bucket b (setPipelineId (maxItemCntr p)) (bucket p)))
    end.

Definition doneItem (b : nat) (p : Pipeline) : Pipeline :=
  mkPipe (PipeLength p) (MaxIRequests p) (nIRequests p) (buffer p) (bucketPool p ++ [b])
    (cleanBucketPool p) (received p) (maxItemCntr p) (minItemCntr p) (bucket p).

(** [minItemCntr++; if (b->empty()) doneItem(b); else buffer.push(b);] *)
Definition release (b : nat) (p : Pipeline) : Pipeline :=
  let p := mkPipe (PipeLength p) (MaxIRequests p) (nIRequests p) (buffer p) (bucketPool p)
    (cleanBucketPool p) (received p) (maxItemCntr p) (minItemCntr p + 1) (bucket p) in
  if bucket_empty p b then doneItem b p
  else
    mkPipe (PipeLength p) (MaxIRequests p) (nIRequests p) (push b (buffer p)) (bucketPool p)
      (cleanBucketPool p) (received p) (maxItemCntr p) (minItemCntr p) (bucket p).

Definition set_received (l : list nat) (p : Pipeline) : Pipeline :=
  mkPipe (PipeLength p) (MaxIRequests p) (nIRequests p) (buffer p) (bucketPool p)
    (cleanBucketPool p) l (maxItemCntr p) (minItemCntr p) (bucket p).

(** The loop of [clearItems]: a round takes a bucket out of [received]. *)
Fixpoint clear_loop (fuel : nat) (p : Pipeline) : option Pipeline :=
  match heap_front (idOf p) (received p) with
  | None => Some p
  | Some b =>
      if idOf p b =? minItemCntr p then
        match fuel with
        | O => None
        | S fuel => clear_loop fuel (release b (set_received (remove1 b (received p)) p))
        end
      else Some p
  end.

Definition clearItems (p : Pipeline) : option Pipeline := clear_loop (length (received p)) p.

Definition readyItem (globalClock : Z) (b : nat) (p : Pipeline) : option Pipeline :=
  let p := mkPipe (PipeLength p) (MaxIRequests p) (nIRequests p + 1) (buffer p) (bucketPool p)
    (cleanBucketPool p) (received p) (maxItemCntr p) (minItemCntr p)
    (upd_bucket b (setClock globalClock) (bucket p)) in
  if negb (idOf p b =? minItemCntr p) then Some (set_received (received p ++ [b]) p)
  else clearItems (release b p).

Definition set_buffer (q : FastQueue nat) (p : Pipeline) : Pipeline :=
  mkPipe (PipeLength p) (MaxIRequests p) (nIRequests p) q (bucketPool p)
    (cleanBucketPool p) (received p) (maxItemCntr p) (minItemCntr p) (bucket p).

(** [while(1)]: a round takes a bucket out of [buffer]. *)
Fixpoint next_loop (fuel : nat) (globalClock : Z) (p : Pipeline) : option (option nat * Pipeline) :=
  if fq_empty (buffer p) then Some (None, p)
  else
    let b := top (buffer p) in
    if globalClock <? clock (bucket p b) + PipeLength p then Some (None, p)
    else
      let p := set_buffer (pop (buffer p)) p in
      if negb (cleanItem (bucket p b)) then Some (Some b, p)
      else
        match fuel with
        | O => None
        | S fuel =>
            next_loop fuel globalClock
              (mkPipe (PipeLength p) (MaxIRequests p) (nIRequests p) (buffer p) (bucketPool p)
                (cleanBucketPool p ++ [b]) (received p) (maxItemCntr p) (minItemCntr p)
                (upd_bucket b (fun k => set_insts (tail (insts k)) k) (bucket p)))
        end.

Definition nextItem (globalClock : Z) (p : Pipeline) : option (option nat * Pipeline) :=
  next_loop (Z.to_nat (nElems (buffer p))) globalClock p.

Definition hasOutstandingItems (p : Pipeline) : bool :=
  negb (fq_empty (buffer p)) || negb (bool_decide (received p = [])) || (nIRequests p <? MaxIRequests p).

(** The constructor: buckets [0 .. n-1], and [n .. 2n-1] for the clean ones. *)
Definition new_Pipeline (garbage : Z -> nat) (s maxReqs : Z) : option Pipeline :=
  let n := s + 1 + maxReqs in
  buf ← new_FastQueue garbage n;
  Some (mkPipe s maxReqs maxReqs buf (seq 0 (Z.to_nat n)) (seq (Z.to_nat n) (Z.to_nat n)) [] 0 0
    (fun b => mkBucket (Z.to_nat n <=? b)%nat 0 0 [])).

(** ** The invariant *)

(** One bucket among five places. *)
Section Places.
  Context (b : nat) (A o R F E : list nat).

Let rest := A ++ o ++ R ++ F ++ E.

Lemma pull_any (l1 l2 l : list nat) : l = l1 ++ b :: l2 -> rest = l1 ++ l2 -> l ≡ₚ b :: rest.
Proof. intros -> ->. symmetry. apply Permutation_middle. Qed.

Lemma pull_pool : (A ++ [b]) ++ o ++ R ++ F ++ E ≡ₚ b :: rest.
Proof. apply (pull_any A (o ++ R ++ F ++ E)); unfold rest; by rewrite <- ?app_assoc. Qed.

Lemma pull_out : A ++ (b :: o) ++ R ++ F ++ E ≡ₚ b :: rest.
Proof. by apply (pull_any A (o ++ R ++ F ++ E)). Qed.

Lemma pull_received : A ++ o ++ (R ++ [b]) ++ F ++ E ≡ₚ b :: rest.
Proof. apply (pull_any (A ++ o ++ R) (F ++ E)); unfold rest; by rewrite <- ?app_assoc. Qed.

Lemma pull_received' : A ++ o ++ (b :: R) ++ F ++ E ≡ₚ b :: rest.
Proof. apply (pull_any (A ++ o) (R ++ F ++ E)); unfold rest; by rewrite <- ?app_assoc. Qed.

Lemma pull_buffer : A ++ o ++ R ++ (F ++ [b]) ++ E ≡ₚ b :: rest.
Proof. apply (pull_any (A ++ o ++ R ++ F) E); unfold rest; by rewrite <- ?app_assoc. Qed.

Lemma pull_buffer' : A ++ o ++ R ++ (b :: F) ++ E ≡ₚ b :: rest.
Proof. apply (pull_any (A ++ o ++ R) (F ++ E)); unfold rest; by rewrite <- ?app_assoc. Qed.

Lemma pull_deliv : A ++ o ++ R ++ F ++ (b :: E) ≡ₚ b :: rest.
Proof. apply (pull_any (A ++ o ++ R ++ F) E); unfold rest; by rewrite <- ?app_assoc. Qed.

End Places.

(** The buckets are in the pool, with fetch ([out]), received early, in the ring ([bufl]) or
    with the back end ([deliv]).  [ne i] tells whether bucket number [i] holds instructions
    when it is ready; [dl] are the numbers handed on so far. *)
Record pl_core (n : nat) (ne : Z -> bool) (p : Pipeline) (out deliv : list nat) (dl : list Z)
    (bufl : list nat) : Prop := {
  pc_all : bucketPool p ++ out ++ received p ++ bufl ++ deliv ≡ₚ seq 0 n;
  pc_buf : fq_holds (buffer p) bufl /\ Z.of_nat n <= pipeMask (buffer p) + 1;
  pc_cnt : 0 <= minItemCntr p <= maxItemCntr p;
  pc_ids : idOf p <$> (out ++ received p) ≡ₚ seqZ (minItemCntr p) (maxItemCntr p - minItemCntr p);
  pc_order : dl ++ (idOf p <$> bufl) = filter (fun i => ne i = true) (seqZ 0 (minItemCntr p));
  pc_recv b : b ∈ received p -> bucket_empty p b = negb (ne (idOf p b));
  pc_pool b : b ∈ bucketPool p -> insts (bucket p b) = [];
  pc_clean b : (b < n)%nat -> cleanItem (bucket p b) = false }.

Lemma remove1_perm (b : nat) l : b ∈ l -> l ≡ₚ b :: remove1 b l.
Proof.
  intros H. destruct (remove1_split b l H) as (l1 & l2 & -> & _ & ->). symmetry. apply Permutation_middle.
Qed.

Lemma core_nodup n ne p out deliv dl bufl : pl_core n ne p out deliv dl bufl ->
  NoDup (bucketPool p ++ out ++ received p ++ bufl ++ deliv).
Proof. intros H. rewrite (pc_all _ _ _ _ _ _ _ H). apply NoDup_seq. Qed.

Lemma core_lt n ne p out deliv dl bufl b : pl_core n ne p out deliv dl bufl ->
  b ∈ out ++ received p ++ bufl ++ deliv -> (b < n)%nat.
Proof.
  intros H Hb. assert (b ∈ seq 0 n) as Hs%elem_of_seq; [|lia].
  rewrite <- (pc_all _ _ _ _ _ _ _ H). apply elem_of_app. by right.
Qed.

(** The numbers still expected. *)
Lemma core_id_range n ne p out deliv dl bufl b : pl_core n ne p out deliv dl bufl ->
  b ∈ out ++ received p -> minItemCntr p <= idOf p b < maxItemCntr p.
Proof.
  intros H Hb. assert (idOf p b ∈ seqZ (minItemCntr p) (maxItemCntr p - minItemCntr p)) as Hs.
  { rewrite <- (pc_ids _ _ _ _ _ _ _ H). by apply list_elem_of_fmap_2. }
  apply elem_of_seqZ in Hs. lia.
Qed.

Lemma seqZ_snoc m n : 0 <= n -> seqZ m (n + 1) = seqZ m n ++ [m + n].
Proof. intros Hn. by rewrite seqZ_app by lia. Qed.

Lemma filter_seqZ_S ne m : 0 <= m ->
  filter (fun i => ne i = true) (seqZ 0 (m + 1)) =
  filter (fun i => ne i = true) (seqZ 0 m) ++ (if ne m : bool then [m] else []).
Proof.
  intros Hm. rewrite seqZ_snoc, filter_app by lia. f_equal.
  rewrite Z.add_0_l, filter_cons, filter_nil. destruct (ne m) eqn:E; [by rewrite decide_True|by rewrite decide_False].
Qed.

(** The bucket whose turn it is enters the ring, or the pool if it is empty. *)
Lemma release_core n ne p out deliv dl bufl b : pl_core n ne p out deliv dl bufl ->
  b ∈ out -> idOf p b = minItemCntr p -> bucket_empty p b = negb (ne (idOf p b)) ->
  exists bufl', pl_core n ne (release b p) (remove1 b out) deliv dl bufl' /\
    received (release b p) = received p /\ minItemCntr (release b p) = minItemCntr p + 1 /\
    nIRequests (release b p) = nIRequests p /\ MaxIRequests (release b p) = MaxIRequests p /\
    PipeLength (release b p) = PipeLength p /\ maxItemCntr (release b p) = maxItemCntr p /\
    bucket (release b p) = bucket p.
Proof.
  intros HC Hb Hid He. pose proof HC as []. pose proof (remove1_perm b out Hb) as Hp.
  pose proof (core_id_range _ _ _ _ _ _ _ b HC ltac:(apply elem_of_app; by left)) as Hr.
  assert (idOf p <$> (remove1 b out ++ received p) ≡ₚ
    seqZ (minItemCntr p + 1) (maxItemCntr p - (minItemCntr p + 1))) as Hids.
  { assert (seqZ (minItemCntr p) (maxItemCntr p - minItemCntr p) =
      minItemCntr p :: seqZ (minItemCntr p + 1) (maxItemCntr p - (minItemCntr p + 1))) as Es.
    { rewrite seqZ_cons by lia. f_equal. f_equal; lia. }
    rewrite Es, Hp in pc_ids0. cbn in pc_ids0. rewrite Hid in pc_ids0.
    by apply Permutation_cons_inv in pc_ids0. }
  unfold release. set (p1 := mkPipe _ _ _ _ _ _ _ _ (minItemCntr p + 1) _).
  change (bucket_empty p1 b) with (bucket_empty p b). rewrite He, Hid.
  destruct (ne (minItemCntr p)) eqn:En; cbn [negb].
  - exists (bufl ++ [b]). split; [|done]. split; cbn; try done.
    + by rewrite pull_buffer, <- pull_out, <- Hp.
    + destruct pc_buf0 as [Hq Hcap]. split; [|done]. apply push_holds; [done|].
      rewrite (holds_nElems _ _ Hq). apply Permutation_length in pc_all0.
      rewrite !length_app, length_seq in pc_all0. apply Permutation_length in Hp. cbn in Hp. lia.
    + lia.
    + same_ids idOf p. rewrite fmap_app, app_assoc. rewrite pc_order0, filter_seqZ_S by lia.
      rewrite En. cbn. by rewrite Hid.
  - exists bufl. split; [|done]. split; cbn; try done.
    + by rewrite pull_pool, <- pull_out, <- Hp.
    + lia.
    + same_ids idOf p. rewrite pc_order0, filter_seqZ_S by lia.
      by rewrite En, app_nil_r.
    + intros x [Hx|Hx%list_elem_of_singleton]%elem_of_app; [by apply pc_pool0|]. subst x.
      unfold bucket_empty in He. rewrite Hid, En in He. change (bucket p1 b) with (bucket p b).
      by destruct (insts (bucket p b)).
Qed.

(** The counters and the lists of the state. *)
Definition same_frame (p p' : Pipeline) : Prop :=
  nIRequests p' = nIRequests p /\ MaxIRequests p' = MaxIRequests p /\
  PipeLength p' = PipeLength p /\ maxItemCntr p' = maxItemCntr p /\ bucket p' = bucket p.

(** After [clearItems] no received bucket is the next one. *)
Lemma clear_loop_core n ne fuel : forall p out deliv dl bufl,
  pl_core n ne p out deliv dl bufl -> (length (received p) <= fuel)%nat ->
  exists p' bufl', clear_loop fuel p = Some p' /\ pl_core n ne p' out deliv dl bufl' /\
    (forall b, b ∈ received p' -> idOf p' b <> minItemCntr p') /\ same_frame p p'.
Proof.
  induction fuel as [|fuel IH]; intros p out deliv dl bufl HC Hf; cbn;
    destruct (heap_front (idOf p) (received p)) as [b|] eqn:Ef.
  2, 4: assert (received p = []) as Er by (destruct (received p) as [|x l] eqn:Er; [done|];
      destruct (heap_front_some (idOf p) (x :: l)) as [y Hy]; [done|]; congruence);
    exists p, bufl; split_and!; try done; rewrite Er; intros x Hx; by apply not_elem_of_nil in Hx.
  - apply heap_front_min in Ef as [Hb _]. destruct (received p); [by apply not_elem_of_nil in Hb|].
    cbn in Hf. lia.
  - apply heap_front_min in Ef as [Hb Hmin]. destruct (Z.eqb_spec (idOf p b) (minItemCntr p)) as [E|E].
    + pose proof (remove1_perm b (received p) Hb) as Hp. pose proof HC as [].
      generalize dependent (remove1 b (received p)). intros r' Hp.
      set (p1 := set_received r' p).
      assert (pl_core n ne p1 (b :: out) deliv dl bufl) as HC1.
      { split; cbn; try done.
        - etransitivity; [exact (pull_out b _ _ _ _ _)|]. by rewrite <- pull_received', <- Hp.
        - same_ids idOf p. by rewrite <- pc_ids0, Hp, <- Permutation_middle.
        - intros x Hx. apply pc_recv0. rewrite Hp. by right. }
      destruct (release_core n ne p1 (b :: out) deliv dl bufl b HC1) as
        (bufl1 & HC2 & H1 & H2 & H3 & H4 & H5 & H6 & H7); [left|done|by apply pc_recv0|].
      cbn in HC2. rewrite Nat.eqb_refl in HC2.
      destruct (IH _ _ _ _ _ HC2) as (p' & bufl' & E' & HC' & Hfst & F1 & F2 & F3 & F4 & F5).
      { rewrite H1. cbn. apply Permutation_length in Hp. cbn in Hp. lia. }
      exists p', bufl'. split_and!; try done. unfold same_frame.
      rewrite F1, F2, F3, F4, F5, H3, H4, H5, H6, H7. done.
    + exists p, bufl. split_and!; try done. intros x Hx.
      pose proof (core_id_range _ _ _ _ _ _ _ b HC ltac:(apply elem_of_app; by right)).
      specialize (Hmin x Hx). lia.
Qed.

(** Between the operations. *)
Definition pl_inv (n : nat) (ne : Z -> bool) (p : Pipeline) (out deliv : list nat) (dl : list Z) : Prop :=
  (exists bufl, pl_core n ne p out deliv dl bufl) /\
  (forall b, b ∈ received p -> idOf p b <> minItemCntr p) /\
  (0 <= nIRequests p /\ nIRequests p = MaxIRequests p - Z.of_nat (length out)).

(** The memory of the buckets may change where the invariant does not look. *)
Lemma core_bucket n ne p p' out deliv dl bufl : pl_core n ne p out deliv dl bufl ->
  buffer p' = buffer p -> bucketPool p' = bucketPool p -> received p' = received p ->
  minItemCntr p' = minItemCntr p -> maxItemCntr p' = maxItemCntr p ->
  (forall b, idOf p' b = idOf p b /\ cleanItem (bucket p' b) = cleanItem (bucket p b)) ->
  (forall b, b ∈ bucketPool p \/ b ∈ received p -> insts (bucket p' b) = insts (bucket p b)) ->
  pl_core n ne p' out deliv dl bufl.
Proof.
  intros [] E1 E2 E3 E4 E5 Hid Hin.
  assert (forall l : list nat, idOf p' <$> l = idOf p <$> l) as Hm
    by (intros l; apply list_fmap_ext; intros i x _; apply Hid).
  split; rewrite ?E1, ?E2, ?E3, ?E4, ?E5, ?Hm; try done.
  - intros b Hb. unfold bucket_empty. rewrite Hin, (proj1 (Hid b)) by tauto. by apply pc_recv0.
  - intros b Hb. rewrite Hin by tauto. by apply pc_pool0.
  - intros b Hb. rewrite (proj2 (Hid b)). by apply pc_clean0.
Qed.

Lemma upd_bucket_ids p b f : (forall k, pipeId (f k) = pipeId k /\ cleanItem (f k) = cleanItem k) ->
  forall x, pipeId (upd_bucket b f (bucket p) x) = idOf p x /\
    cleanItem (upd_bucket b f (bucket p) x) = cleanItem (bucket p x).
Proof. intros Hf x. unfold upd_bucket, idOf. destruct (Nat.eqb b x); [apply Hf|done]. Qed.

Lemma newItem_inv n ne p out deliv dl b p' : pl_inv n ne p out deliv dl -> newItem p = (Some b, p') ->
  pl_inv n ne p' (b :: out) deliv dl /\ idOf p' b = maxItemCntr p /\ insts (bucket p' b) = [].
Proof.
  intros ([bufl HC] & Hfst & Hn) E. unfold newItem in E. destruct (Z.eqb_spec (nIRequests p) 0); [done|].
  destruct (last (bucketPool p)) as [b'|] eqn:El; [|done]. injection E as -> <-.
  pose proof HC as []. apply last_Some in El as [pool Ep].
  assert (forall x, x ∈ out ++ received p ++ bufl ++ deliv -> x <> b) as Hne.
  { intros x Hx ->. pose proof (core_nodup _ _ _ _ _ _ _ HC) as Hnd. rewrite Ep in Hnd.
    apply NoDup_app in Hnd as (_ & Hd & _). apply (Hd b); [|done]. apply elem_of_app. right. left. }
  set (p' := mkPipe _ _ _ _ _ _ _ _ _ _).
  assert (forall x, x <> b -> bucket p' x = bucket p x) as Hother.
  { intros x Hx. unfold p', upd_bucket. cbn. destruct (Nat.eqb_spec b x); congruence. }
  assert (forall l : list nat, (forall x, x ∈ l -> x <> b) -> idOf p' <$> l = idOf p <$> (l : list nat)) as Hm.
  { intros l Hl. apply list_fmap_ext. intros i x Hx%list_elem_of_lookup_2. unfold idOf.
    by rewrite Hother by (by apply Hl). }
  assert (idOf p' b = maxItemCntr p) as Hidb.
  { unfold idOf, p', upd_bucket. cbn. by rewrite Nat.eqb_refl. }
  split_and!; [|done|].
  2: { unfold p', upd_bucket. cbn. rewrite Nat.eqb_refl. cbn. apply pc_pool0. rewrite Ep.
       apply elem_of_app. right. left. }
  split_and!.
  - exists bufl. split; cbn.
    + rewrite Ep, removelast_last. etransitivity; [exact (pull_out b _ _ _ _ _)|].
      by rewrite <- pull_pool, <- Ep.
    + done.
    + lia.
    + rewrite Hidb, Hm.
      2: { intros x [Hx|Hx]%elem_of_app; apply Hne; rewrite !elem_of_app; tauto. }
      rewrite pc_ids0. replace (maxItemCntr p + 1 - minItemCntr p)
        with (maxItemCntr p - minItemCntr p + 1) by lia.
      rewrite seqZ_snoc by lia.
      replace (minItemCntr p + (maxItemCntr p - minItemCntr p)) with (maxItemCntr p) by lia.
      by rewrite Permutation_app_comm.
    + rewrite Hm; [done|]. intros x Hx. apply Hne. rewrite !elem_of_app. tauto.
    + intros x Hx. unfold bucket_empty, idOf. rewrite Hother by (apply Hne; rewrite !elem_of_app; tauto).
      by apply pc_recv0.
    + intros x Hx. unfold upd_bucket. destruct (Nat.eqb b x); cbn; apply pc_pool0; rewrite Ep in Hx |- *;
        rewrite removelast_last in Hx; apply elem_of_app; by left.
    + intros x Hx. unfold upd_bucket. destruct (Nat.eqb b x); by apply pc_clean0.
  - intros x Hx. cbn in Hx. unfold idOf. rewrite Hother by (apply Hne; rewrite !elem_of_app; tauto).
    by apply Hfst.
  - cbn. lia.
  - cbn -[Z.of_nat]. lia.
Qed.


(** A bucket moves from fetch to the early ones. *)
Lemma receive_core n ne p out deliv dl bufl b : pl_core n ne p out deliv dl bufl -> b ∈ out ->
  bucket_empty p b = negb (ne (idOf p b)) ->
  pl_core n ne (set_received (received p ++ [b]) p) (remove1 b out) deliv dl bufl.
Proof.
  intros HC Hb He. pose proof (remove1_perm b out Hb) as Hp. destruct HC.
  generalize dependent (remove1 b out). intros o' Hp. split; cbn; try done.
  - by rewrite pull_received, <- pull_out, <- Hp.
  - same_ids idOf p. by rewrite <- pc_ids0, Hp, app_assoc, Permutation_app_comm.
  - intros x [Hx|Hx%list_elem_of_singleton]%elem_of_app; [by apply pc_recv0|by subst x].
Qed.

Lemma remove1_length (b : nat) l : b ∈ l -> length l = S (length (remove1 b l)).
Proof. intros Hb%remove1_perm%Permutation_length. done. Qed.

Lemma readyItem_inv n ne p out deliv dl b c : pl_inv n ne p out deliv dl -> b ∈ out ->
  bucket_empty p b = negb (ne (idOf p b)) ->
  exists p', readyItem c b p = Some p' /\ pl_inv n ne p' (remove1 b out) deliv dl /\
    PipeLength p' = PipeLength p /\ MaxIRequests p' = MaxIRequests p.
Proof.
  intros ([bufl HC] & Hfst & Hn) Hb He. unfold readyItem. set (p0 := mkPipe _ _ _ _ _ _ _ _ _ _).
  pose proof (upd_bucket_ids p b (setClock c) ltac:(done)) as Hu.
  assert (forall x, insts (bucket p0 x) = insts (bucket p x)) as Hi.
  { intros x. cbn. unfold upd_bucket. by destruct (Nat.eqb b x). }
  assert (forall x, bucket_empty p0 x = bucket_empty p x /\ idOf p0 x = idOf p x) as H0.
  { intros x. unfold bucket_empty. rewrite Hi. split; [done|apply Hu]. }
  assert (pl_core n ne p0 out deliv dl bufl) as HC0 by (by apply (core_bucket n ne p)).
  assert (bucket_empty p0 b = negb (ne (idOf p0 b))) as He0 by (by destruct (H0 b) as [-> ->]).
  pose proof (remove1_length b out Hb) as Hl.
  destruct (Z.eqb_spec (idOf p0 b) (minItemCntr p0)) as [E|E]; cbn [negb].
  - destruct (release_core _ _ _ _ _ _ _ b HC0 Hb E He0) as
      (bufl1 & HC1 & H1 & H2 & H3 & H4 & H5 & H6 & H7).
    destruct (clear_loop_core n ne _ _ _ _ _ _ HC1 (Nat.le_refl _)) as
      (p' & bufl' & E' & HC' & Hfst' & F1 & F2 & F3 & F4 & F5).
    exists p'. split; [done|]. rewrite F3, H5, F2, H4. split; [|done]. split_and!; [by exists bufl'|done| |];
      rewrite F1, ?F2, H3, ?H4; cbn; lia.
  - exists (set_received (received p0 ++ [b]) p0). split; [done|]. split; [|done]. split_and!.
    + exists bufl. by apply receive_core.
    + intros x [Hx|Hx%list_elem_of_singleton]%elem_of_app; [|by subst x].
      change (idOf p0 x <> minItemCntr p). rewrite (proj2 (H0 x)). by apply Hfst.
    + cbn. lia.
    + cbn. lia.
Qed.

(** [nextItem] hands on the oldest bucket of the ring once it is old enough. *)
Lemma nextItem_core n ne p out deliv dl bufl c : pl_core n ne p out deliv dl bufl ->
  match bufl with
  | b :: l =>
      if c <? clock (bucket p b) + PipeLength p then nextItem c p = Some (None, p)
      else exists p', nextItem c p = Some (Some b, p') /\ same_frame p p' /\
        received p' = received p /\ minItemCntr p' = minItemCntr p /\
        pl_core n ne p' out (b :: deliv) (dl ++ [idOf p b]) l
  | [] => nextItem c p = Some (None, p)
  end.
Proof.
  intros HC. pose proof (fun b => core_lt n ne p out deliv dl bufl b HC) as Hlt.
  pose proof HC as []. destruct pc_buf0 as [Hq Hcap]. unfold nextItem.
  set (m := Z.to_nat (nElems (buffer p))). clearbody m.
  destruct m; cbn; rewrite (holds_fq_empty _ _ Hq); destruct bufl as [|b l]; cbn; try done.
  all: destruct (pop_holds _ _ _ Hq) as [-> Hpop]; destruct (c <? _); [done|].
  all: rewrite pc_clean0 by (apply (Hlt b); rewrite !elem_of_app; do 2 right; left; left); cbn.
  all: eexists; split; [done|]; split_and!; try done; split; cbn; try done.
  all: try (by rewrite pull_deliv, <- pull_buffer').
  all: same_ids idOf p; by rewrite <- app_assoc.
Qed.

Lemma doneItem_inv n ne p out deliv dl b : pl_inv n ne p out deliv dl -> b ∈ deliv ->
  insts (bucket p b) = [] -> pl_inv n ne (doneItem b p) out (remove1 b deliv) dl.
Proof.
  intros ([bufl []] & Hfst & Hn & Hn') Hb He. pose proof (remove1_perm b deliv Hb) as Hp.
  generalize dependent (remove1 b deliv). intros d' Hp. split_and!; try done. exists bufl.
  split; cbn; try done.
  - by rewrite pull_pool, <- pull_deliv, <- Hp.
  - intros x [Hx|Hx%list_elem_of_singleton]%elem_of_app; [by apply pc_pool0|by subst x].
Qed.

(** Fetch and rename write the instructions of the buckets they have. *)
Definition write_bucket (b : nat) (l : list D) (p : Pipeline) : Pipeline :=
  mkPipe (PipeLength p) (MaxIRequests p) (nIRequests p) (buffer p) (bucketPool p)
    (cleanBucketPool p) (received p) (maxItemCntr p) (minItemCntr p)
    (upd_bucket b (set_insts l) (bucket p)).

Lemma write_bucket_inv n ne p out deliv dl b l : pl_inv n ne p out deliv dl -> b ∈ out ++ deliv ->
  pl_inv n ne (write_bucket b l p) out deliv dl.
Proof.
  intros ([bufl HC] & Hfst & Hn & Hn') Hb. pose proof (upd_bucket_ids p b (set_insts l) ltac:(done)) as Hu.
  split_and!; try done.
  - exists bufl. apply (core_bucket n ne p); try done. intros x Hx. cbn. unfold upd_bucket.
    destruct (Nat.eqb_spec b x) as [<-|]; [exfalso|done].
    pose proof (core_nodup _ _ _ _ _ _ _ HC) as Hnd. apply elem_of_app in Hb.
    apply NoDup_app in Hnd as (_ & Hd & Hnd). destruct Hx as [Hx|Hx].
    { apply (Hd b Hx). rewrite !elem_of_app. tauto. }
    apply NoDup_app in Hnd as (_ & Hd' & (_ & Hd'' & _)%NoDup_app).
    destruct Hb as [Hb|Hb]; [apply (Hd' b Hb)|apply (Hd'' b Hx)]; rewrite !elem_of_app; tauto.
  - intros x Hx. unfold idOf. cbn. rewrite (proj1 (Hu x)). by apply Hfst.
Qed.

(** ** The users of the pipeline

    Fetch takes buckets, fills them and reports them ready in any order; rename takes what
    the pipeline hands on, empties it and returns it. *)
Inductive pl_step (ne : Z -> bool) :
    Pipeline * list nat * list nat * list Z -> Pipeline * list nat * list nat * list Z -> Prop :=
| st_new p out deliv dl b p' : newItem p = (Some b, p') ->
    pl_step ne (p, out, deliv, dl) (p', b :: out, deliv, dl)
| st_write p out deliv dl b l : b ∈ out ++ deliv ->
    pl_step ne (p, out, deliv, dl) (write_bucket b l p, out, deliv, dl)
| st_ready p out deliv dl b c p' : b ∈ out -> bucket_empty p b = negb (ne (idOf p b)) ->
    readyItem c b p = Some p' -> pl_step ne (p, out, deliv, dl) (p', remove1 b out, deliv, dl)
| st_next p out deliv dl b c p' : nextItem c p = Some (Some b, p') ->
    pl_step ne (p, out, deliv, dl) (p', out, b :: deliv, dl ++ [idOf p b])
| st_done p out deliv dl b : b ∈ deliv -> insts (bucket p b) = [] ->
    pl_step ne (p, out, deliv, dl) (doneItem b p, out, remove1 b deliv, dl).

Definition st_inv (n : nat) (ne : Z -> bool) (s : Pipeline * list nat * list nat * list Z) : Prop :=
  let '(p, out, deliv, dl) := s in pl_inv n ne p out deliv dl.

Lemma pl_step_inv n ne s s' : pl_step ne s s' -> st_inv n ne s -> st_inv n ne s'.
Proof.
  intros Hs HI. destruct Hs as [p out deliv dl b p' E|p out deliv dl b l Hb|p out deliv dl b c p' Hb He E
    |p out deliv dl b c p' E|p out deliv dl b Hb He]; cbn in HI |- *.
  - by apply (newItem_inv _ _ _ _ _ _ _ _ HI E).
  - by apply write_bucket_inv.
  - destruct (readyItem_inv _ _ _ _ _ _ b c HI Hb He) as (q & Eq & Hq & _). congruence.
  - destruct HI as ([bufl HC] & Hfst & Hn & Hn'). pose proof (nextItem_core _ _ _ _ _ _ _ c HC) as Hx.
    destruct bufl as [|x l]; [congruence|]. destruct (c <? _); [congruence|].
    destruct Hx as (q & Eq & (F1 & F2 & F3 & F4 & F5) & G1 & G2 & HC').
    rewrite E in Eq. injection Eq as -> ->. split_and!.
    + by exists l.
    + rewrite G1, G2. unfold idOf. rewrite F5. exact Hfst.
    + by rewrite F1.
    + by rewrite F1, F2.
  - by apply doneItem_inv.
Qed.

Lemma new_Pipeline_inv garbage ne s maxReqs : 0 <= s -> 0 < maxReqs ->
  exists p, new_Pipeline garbage s maxReqs = Some p /\
    pl_inv (Z.to_nat (s + 1 + maxReqs)) ne p [] [] [].
Proof.
  intros Hs Hm. unfold new_Pipeline.
  destruct (new_FastQueue_holds garbage (s + 1 + maxReqs) ltac:(lia)) as (q & -> & Hq & Hcap).
  eexists. split; [done|]. split_and!.
  - exists []. split; cbn; try done.
    + by rewrite app_nil_r.
    + split; [done|]. lia.
    + intros b Hb. by apply not_elem_of_nil in Hb.
    + intros b Hb. by apply Nat.leb_gt.
  - intros b Hb. by apply not_elem_of_nil in Hb.
  - cbn. lia.
  - cbn. lia.
Qed.

(** Everything fetched is ready: nothing waits for an earlier bucket. *)
Lemma inv_all_ready n ne p deliv dl : pl_inv n ne p [] deliv dl ->
  received p = [] /\ minItemCntr p = maxItemCntr p.
Proof.
  intros ([bufl []] & Hfst & _). cbn in pc_ids0.
  destruct (decide (minItemCntr p = maxItemCntr p)) as [E|E].
  - rewrite E, Z.sub_diag in pc_ids0. by apply Permutation_nil_r, fmap_nil_inv in pc_ids0.
  - exfalso. assert (minItemCntr p ∈ idOf p <$> received p) as (b & Hb & Hr)%list_elem_of_fmap.
    { rewrite pc_ids0. apply elem_of_seqZ. lia. }
    by apply (Hfst b).
Qed.

Lemma filter_prefix ne a b : 0 <= a <= b ->
  filter (fun i => ne i = true) (seqZ 0 a) `prefix_of` filter (fun i => ne i = true) (seqZ 0 b).
Proof.
  intros H. replace b with (a + (b - a)) by lia. rewrite seqZ_app, filter_app by lia. by eexists.
Qed.

Lemma pl_run_inv garbage ne s maxReqs p0 st : 0 <= s -> 0 < maxReqs ->
  new_Pipeline garbage s maxReqs = Some p0 -> rtc (pl_step ne) (p0, [], [], []) st ->
  st_inv (Z.to_nat (s + 1 + maxReqs)) ne st.
Proof.
  intros Hs Hm E. destruct (new_Pipeline_inv garbage ne s maxReqs Hs Hm) as (q & Eq & HI).
  assert (q = p0) as -> by congruence. intros Hr. revert HI. generalize (Z.to_nat (s + 1 + maxReqs)). intros n.
  change (pl_inv n ne p0 [] [] []) with (st_inv n ne (p0, [], [], [])).
  induction Hr as [|x y z Hxy _ IH]; [done|]. intros HI. apply IH. by eapply pl_step_inv.
Qed.

(** C20: The pipeline hands the buckets on in the order fetch took them, whatever the order
    the instruction cache reports them in, each non-empty bucket once and no empty one:
    the numbers handed on are always a prefix of those taken.  [readyItem] and [nextItem]
    return.  At most [MaxIRequests] buckets are with fetch.  Once fetch has reported
    everything, [nextItem] comes back with nothing only if all was handed on or the oldest
    waiting bucket is younger than the length of the pipeline; and when
    [hasOutstandingItems] is false all was handed on. *)
Theorem pipeline_in_order garbage ne s maxReqs p0 p out deliv dl : 0 <= s -> 0 < maxReqs ->
  new_Pipeline garbage s maxReqs = Some p0 ->
  rtc (pl_step ne) (p0, [], [], []) (p, out, deliv, dl) ->
  dl `prefix_of` filter (fun i => ne i = true) (seqZ 0 (maxItemCntr p)) /\
  (forall b c, b ∈ out -> bucket_empty p b = negb (ne (idOf p b)) -> is_Some (readyItem c b p)) /\
  (forall c, is_Some (nextItem c p)) /\
  Z.of_nat (length out) <= MaxIRequests p /\
  (out = [] -> forall c p', nextItem c p = Some (None, p') ->
    dl = filter (fun i => ne i = true) (seqZ 0 (maxItemCntr p)) \/
    c < clock (bucket p (top (buffer p))) + PipeLength p) /\
  (hasOutstandingItems p = false -> dl = filter (fun i => ne i = true) (seqZ 0 (maxItemCntr p))).
Proof.
  intros Hs Hm E Hr. pose proof (pl_run_inv _ _ _ _ _ _ Hs Hm E Hr) as HI. cbn in HI.
  pose proof HI as ([bufl HC] & Hfst & Hn). pose proof HC as [].
  pose proof (fun c => nextItem_core _ _ _ _ _ _ _ c HC) as Hnext. split_and!.
  - etransitivity; [|exact (filter_prefix ne _ _ pc_cnt0)]. rewrite <- pc_order0. by eexists.
  - intros b c Hb He. destruct (readyItem_inv _ _ _ _ _ _ b c HI Hb He) as (p' & -> & _). by eexists.
  - intros c. specialize (Hnext c). destruct bufl as [|b l]; [rewrite Hnext; by eexists|].
    destruct (c <? _); [rewrite Hnext; by eexists|]. destruct Hnext as (p' & -> & _). by eexists.
  - lia.
  - intros -> c p' Ec. destruct (inv_all_ready _ _ _ _ _ HI) as [_ Em]. specialize (Hnext c).
    destruct bufl as [|b l]; [left|right].
    + rewrite <- Em, <- pc_order0. by rewrite app_nil_r.
    + destruct pc_buf0 as [Hq _]. destruct (pop_holds _ _ _ Hq) as [-> _].
      destruct (Z.ltb_spec c (clock (bucket p b) + PipeLength p)); [done|].
      destruct Hnext as (q & Eq & _). congruence.
  - unfold hasOutstandingItems. intros [[H1 H2]%orb_false_iff H3]%orb_false_iff.
    apply Z.ltb_ge in H3. destruct out as [|x out]; [|cbn in *; lia].
    destruct (inv_all_ready _ _ _ _ _ HI) as [_ <-]. destruct pc_buf0 as [Hq _].
    rewrite (holds_fq_empty _ _ Hq), negb_false_iff, bool_decide_eq_true in H1. subst bufl.
    by rewrite <- pc_order0, app_nil_r.
Qed.

End Pipeline.

(** Two buckets, the second ready first: both are handed on, in order. *)
Lemma pl_demo_run : exists p0 p deliv,
  new_Pipeline (D:=nat) (fun _ => 0%nat) 0 2 = Some p0 /\
  rtc (pl_step (fun _ => true)) (p0, [], [], []) (p, [], deliv, [0; 1]).
Proof.
  eexists _, _, _. split; [vm_compute; reflexivity|].
  eapply rtc_l; [eapply st_new; vm_compute; reflexivity|].
  eapply rtc_l; [eapply st_new; vm_compute; reflexivity|].
  eapply rtc_l; [apply (st_write _ _ _ _ _ 1%nat [8%nat]); by left|].
  eapply rtc_l; [apply (st_write _ _ _ _ _ 2%nat [7%nat]); right; by left|].
  eapply rtc_l; [eapply (st_ready _ _ _ _ _ 1%nat 5); [by left|reflexivity|vm_compute; reflexivity]|].
  eapply rtc_l; [eapply (st_ready _ _ _ _ _ 2%nat 6); [by left|reflexivity|vm_compute; reflexivity]|].
  eapply rtc_l; [eapply (st_next _ _ _ _ _ _ 9); vm_compute; reflexivity|].
  eapply rtc_l; [eapply (st_next _ _ _ _ _ _ 9); vm_compute; reflexivity|].
  apply rtc_refl.
Qed.

Lemma pipeline_in_order_witness : exists p0 p deliv,
  new_Pipeline (D:=nat) (fun _ => 0%nat) 0 2 = Some p0 /\
  rtc (pl_step (fun _ => true)) (p0, [], [], []) (p, [], deliv, [0; 1]) /\
  Z.of_nat (length (@nil nat)) <= MaxIRequests p.
Proof.
  destruct pl_demo_run as (p0 & p & deliv & E & Hr). exists p0, p, deliv. split; [exact E|].
  split; [exact Hr|].
  apply (pipeline_in_order (fun _ => 0%nat) (fun _ => true) 0 2 p0 p [] deliv [0; 1] ltac:(lia) ltac:(lia) E Hr).
Defined.
